(* ===== verification/_CoqProject ===== *)
-Q . S2P
Prelude.v
Text.v
Contracts.v
McpText.v
McpModel.v
McpManager.v
McpManagerSpec.v
McpImport.v
RuntimeEvents.v
RuntimeGuard.v
Policy.v
TaskGraph.v
Supervisor.v
SupervisorSpec.v
Redaction.v
Gateway.v
RuntimeBridge.v
Plugins.v
PluginsSpec.v
Automation.v
AutomationSpec.v
Conversation.v
Arbiter.v
DesktopModel.v
DesktopCoordinator.v
Memory.v
MemorySpec.v
MemoryStorage.v
Usage.v
UsageSpec.v
Llm.v
LlmSpec.v
CoreProjection.v
Storage.v
StorageSpec.v
CoreState.v
CoreSpec.v
Dictation.v
DictationSpec.v
PhraseCache.v
PhraseCacheSpec.v
PhraseCacheLru.v
AudioPipeline.v
AudioPipelineSpec.v
LocalExecution.v
LocalExecutionSpec.v
Browser.v
BrowserSpec.v
BrowserEngine.v
BrowserEngineSpec.v
WebDriver.v
CdpTransport.v
Artifacts.v
ArtifactsSpec.v
Connectors.v
ConnectorsSpec.v
Release.v
Config.v
ConfigSpec.v
McpHost.v
McpHostSpec.v
