(* ===== verification/Prelude.v ===== *)
(** * A verification of the Personal Agent

    This library models the core of the Personal Agent, a local-first assistant
    written in Rust, and proves the properties its safety rests on.  The sources
    are the crates under [src/crates].

    ** The program and the files

    - [Policy] is [crates/policy/src/lib.rs]: tool descriptors, scoped consent
      grants, and [PolicyEngine::decide], which allows, asks or denies a call.
    - [TaskGraph], [Supervisor] and [SupervisorSpec] are
      [crates/agent/src/lib.rs]: goals, the validated task graph, the durable
      supervisor with all its calls, and the theorems about its histories.
      [SupervisorSpec] treats the supervisor as a transition system whose steps
      are the calls of its interface and the crashes followed by [recover].
    - [Redaction] and [Gateway] are [crates/tools/src/lib.rs]: the secret scanners
      and the JSON redaction, and the gateway, which calls [Policy] before any
      effect and [Redaction] on every output.
    - [Automation] and [AutomationSpec] are [crates/automation/src/lib.rs]: the
      trigger language, the scheduler and its run lifecycle.
    - [Conversation] is [crates/core/src/conversation.rs]: the privacy controls of
      the voice interface and the conversation contexts.
    - [Arbiter] is [crates/audio/src/arbiter.rs]: admission of local models under
      a GPU-memory ceiling.
    - [DesktopModel] and [DesktopCoordinator] are the crate [crates/context]: the
      desktop snapshots and their validation ([model.rs]), the capture policy
      ([privacy.rs]), the action language ([action.rs]), the native bridge
      ([backend.rs]) and the coordinator ([coordinator.rs]).
    - [Contracts] is the event envelope of [crates/contracts/src/lib.rs].
    - [McpText], [McpModel], [McpManager], [McpManagerSpec] and [McpImport] are
      [crates/mcp-manager/src/lib.rs]: identifiers, redaction and quoting; server
      definitions, catalogs, permissions and argument checks; the manager with all
      its calls over arbitrary adapters; the theorems about its histories; the
      import of foreign configurations.
    - [RuntimeEvents], [RuntimeGuard] and [RuntimeBridge] are parts of
      [crates/runtime/src/lib.rs]: the event stream of a turn, the guard on coding
      tools (shell tokenizer, destructive commands, workspace paths), and the HTTP
      bridge that serves the sidecar.
    - [Memory], [MemorySpec] and [MemoryStorage] are [crates/memory/src/lib.rs]:
      the memory store with its recall index, ranking, namespaces, styles and
      project graph; its invariants; its storage rows.
    - [Plugins] and [PluginsSpec] are [crates/plugins/src/lib.rs]: plugin
      inspection, skills, packs, connectors and remote pairing.
    - [Usage] and [UsageSpec] are [crates/core/src/usage.rs]: usage accounting,
      egress records, merging of ledgers and budgets.
    - [Llm] and [LlmSpec] are the crate [crates/llm]: the two wire decoders, the
      assembly of a turn, the attempt loop with retries and aborts, request bodies
      and the redaction of provider text.
    - [Storage] and [StorageSpec] are [crates/storage/src/lib.rs]: the encrypted
      database as maps and row lists, its transactions and queries, supervisor
      recovery checkpoints, usage and egress rows, memory rows, the sink of the
      legacy import and the schema migrations.
    - [CoreProjection], [CoreState] and [CoreSpec] are [crates/core/src/lib.rs]:
      the projection of the event log, the profile that records and recovers it,
      and the service object; with the import loop of
      [crates/migration/src/lib.rs].
    - [Config], [ConfigSpec] and [Release] are the rest of the core crate: the
      configuration with its defaults, validation and loading ([config.rs]), the
      command line ([cli.rs]), and signed releases with the update transaction
      ([release.rs]).  [Artifacts] and [ArtifactsSpec] are its whiteboard, reports
      and research ([artifacts.rs], [research.rs]).
    - [Dictation], [PhraseCache] and [AudioPipeline], each with its theorems
      ([DictationSpec], [PhraseCacheSpec] and [PhraseCacheLru],
      [AudioPipelineSpec]), are parts of [crates/audio]: streaming dictation and
      its edits ([dictation.rs]), the cache of synthesized phrases ([cache.rs]),
      wake detection, capture and endpointing ([lib.rs]).
    - [LocalExecution] and [LocalExecutionSpec] are [crates/local-execution]: processes
      and containers under a policy.
    - [Browser], [BrowserSpec], [BrowserEngine], [BrowserEngineSpec], [WebDriver]
      and [CdpTransport] are [crates/browser]: the navigation policy, network guard
      and page model, the browser engine over its protocol, the WebDriver engine
      and the pipe that carries protocol commands.
    - [Connectors] and [ConnectorsSpec] are [crates/connectors/src/lib.rs]: granted
      REST requests and the OAuth client.
    - [Text] holds string functions of [core::str] that several files use, and this
      file the rest of what they share: results and the state-and-error monad,
      machine integers, strings, identifiers, ordered maps, counting, JSON, field
      updates.

    The gateway is given the policy's decision and the redaction by the functions
    of those files, not by assumption; the bridge calls the guard and the gateway
    the same way, and the guard's tokenizer reads what the manager displays.  The
    profile records through the store, keeps the usage ledger and saves the
    memories, schedules and supervisor snapshots of the other files.  The
    supervisor, the scheduler, the arbiter, the conversation state and the
    coordinator do not call one another: the desktop shell connects them.

    ** How code is translated

    A struct is a [Record] with the fields in the order of the source, an enum an
    [Inductive] with its variants, a function a [Definition] or [Fixpoint].  A
    method with [&mut self] is a function of type [M S E A]: it takes the state
    and returns an outcome (a value, an error or a panic) together with the state
    it leaves, which on an early return keeps what was already written.  The
    definitions compute, so the instances at the end of each file evaluate them.

    Unsigned integers are [N] with the source's saturation or bound written out;
    [usize] quantities that only count things in memory are [nat], and [usize] has
    64 bits where its overflow is checked.  A [Uuid] is its 128-bit value, a
    [DateTime] a number of nanoseconds, an [f64] an IEEE 754 value.  A [str] is
    its UTF-8 bytes.  A [BTreeMap] is a [gmap], with sorted iteration where the
    order is observable.  A clock reading or a fresh identifier is an argument of
    the operation that draws it, once per draw.

    Code that is not in the repository is an interface or a parameter: petgraph's
    topological sort is the class [Toposort], the text of identifiers is
    [UuidText], chrono is [Chrono], each with an instance that satisfies its laws;
    the file system is [FileSystem], full-text search [FullText], Unicode tables
    [CharTables], SHA-256 [Sha256], URL parsing [UrlLib], event decoding and calendar
    days [Calendar]; the directory of the phrase cache [CacheHost], processes
    [ProcessHost], the browser and its texts [CdpHost], [BrowserText], [EventParser]
    and [UrlParser], a WebDriver server [WebDriverHost], JSON texts [JsonDisplay] and
    [JsonText], HTTP and the keychain [ConnectorHost] with [ConnectorUrls], signatures
    [Ed25519], TOML [ConfigToml], environment variables [Environment]; the calls of the SQLite connection that fail are a function of
    their number ([Sqlite]), those of the disk a list of events in its state ([Disk]); the serde_json encoder and parser, the tool implementations,
    the package and transport adapters, the native bridge, the tokio timer, Unicode
    lower-casing and printed error texts are parameters.

    ** What is proved

    - Policy: the decision is characterised exactly in each of its three outcomes;
      untrusted content never drives a cross-zone effect without a question; a
      named consent is the first grant that covers the call.
    - Plans and supervisor: validation is exact; every reachable state keeps the
      invariant and no call panics; running tasks are bounded; each call refines
      the status machine; an effect completes at most once across crashes;
      recovery is total and exact; an idle plan has ready work, and ready work
      starts; delegation never widens authority and its check terminates on
      acyclic parentage.
    - Redaction and gateway: the scanners accept exactly the shapes they mean;
      redaction is exact; a refused call touches nothing; a successful one passed
      every stage in order; the audit trail only grows; a rollback snapshots
      first.
    - Automation: evaluation queues exactly the missing slots, once; catch-up is
      an exact bounded progression; every call refines the run lifecycle and keeps
      the invariant; the concurrency budget; recovery.
    - Conversation: the microphone follows the controls after any calls; the
      submissions on every branch; contexts are isolated and survive.
    - Arbiter: memory stays within the ceiling under any interleaving of plans and
      leases; admission is exact, and plan then commit succeeds.
    - Desktop: validation is exact; snapshots and captures respect the policy;
      effects are gated, performed once and verified or reported as unverified;
      typing is confined; waits terminate.
    - MCP manager: the registry invariant after any calls, failed ones included; no
      package command without exact consent; tool calls routed by the most
      specific rule; imports and exports without credentials; tool names never
      collide; restart recovery is exact.
    - Runtime: the event stream is well formed and independent of how the network
      splits it; the displayed command reads back; authorized coding tools stay
      in the workspace; the bridge serves only registered sessions and reads
      requests independently of chunks.
    - Memory: every reachable store is well formed; the incremental recall index is
      the rebuilt one; recall is safe and scoped; storage rows round-trip; a deleted
      namespace is forgotten and nothing else is.
    - Plugins: connectors act within consent; installation is atomic; pairing
      accepts exactly the valid proofs, once; loaded skills are reviewed.
    - Usage: aggregates are the tally of the reported mutations, merging ledgers is
      tallying both, budgets stay exceeded, events are counted once.
    - Providers: every turn ends with exactly one terminal event whatever the
      network does; its message is what the fragments spell; delays are bounded.
    - Storage and profile: over any openings, operations, failures and crashes the
      event log only grows and the projection is its fold, from whichever
      checkpoint it is recovered; saved memories load back and those of other
      profiles are untouched; debounced supervisor checkpoints are those of
      immediate writes.
    - Configuration and releases: validation accepts exactly the sound
      configurations and each refusal names a fault; loading never changes an
      existing file, whatever fails or interferes; a fresh profile starts with the
      defaults; the command line writes nothing; keychain references and
      hexadecimal read back; an installed update went through download,
      verification and backup in that order.
    - Artifacts: the whiteboard stays consistent, versions only grow, escaped text
      and reports keep their structure, contradictions are exact.
    - Audio: the dictated field holds the committed and current text after any
      session; the phrase cache returns what was stored and is a
      least-recently-used map; capture stays private and endpointing terminates.
    - Local execution: a process runs exactly as the policy allows, once; containers
      stay isolated.
    - Browser: the network guard is exact; actions need live handles and approved
      files; a takeover pauses the agent; protocol commands are answered once and
      frames read back.
    - Connectors: a request leaves only under an approved grant, once, to the
      configured origin; authorizations are bound to their state and verifier.
    - Where the code does not keep what it promises, a theorem shows it: resuming
      an automation run can exceed its limit, an accepted interval can make
      evaluation panic, the skip policy skips on-time runs, the delegation walk
      can diverge, recovery accepts a foreign receipt, a failed verification
      leaves no audit record, an observation counts unchecked postconditions,
      restarting an MCP server bypasses the install consent, adding one can
      replace another, a long adapter message can panic the manager and a
      credential after a space is logged, a recursive deletion can be respelled,
      missing directories hide a traversal, other namespaces can hide memories,
      rejection leaves dangling links, the pairing transcript is ambiguous, a
      refused tool event is counted again at each delivery, error frames of a
      provider are not redacted, a fragment index sizes the turn and retry advice
      is read from bodies, an interrupted schema migration blocks reopening,
      a failed import blocks recording until the profile is reopened, mount options
      of a container can be injected, a grant to read sends any method, a long
      token lifetime panics, bytes of an unsigned manifest can be installed, and a
      blank home directory makes the written defaults unusable.

    ** Loops and fuel

    Structural recursion is used where the loop runs over a list.  The catch-up
    loop of [due_times] gets [maximum_catch_up_runs] rounds and adds a slot in
    each, so it cannot run out ([due_loop_exact]).  The ancestry walk of
    [validate_delegation] returns [None] without fuel; [delegation_check_terminates]
    gives the fuel that suffices, and [delegation_check_can_diverge] shows that on
    a cycle none does.  The desktop wait gets [timeout / interval + 2] rounds,
    which [waiting_terminates] shows to be enough.
    The search for a free tool name tries as many suffixes as there are names
    ([free_name_total]); the replay of the log gets one round more than there are
    events and each round takes at least one ([replay_batches_spec]); the tokenizer, the marker redaction and the frame loop get
    the length of their text, which every round shortens ([split_words_fuel],
    [pump_fuel]).  Splitting and replacing in dictated text get its length
    ([split_from_fuel], [replace_from_fuel]); eviction from the phrase cache gets one
    round more than there are entries ([evict_bound]).  The bounds of the source are
    kept where it has them: 4096 visited options of a page, 50 attempts to remove a
    profile, 81 rounds of a hundred milliseconds against the eight seconds of a
    health check.

    ** What is not modelled

    Audio devices and the neural workers, the MCP host, platform probing, the
    reading of legacy files for the import, the process, HTTP and terminal parts of
    the runtime, the transport of the provider crate, the file exports of the store,
    the desktop shell and the TypeScript user interface: they are child processes,
    devices, sockets and windows around the modelled parts.  Serialization of the modelled types is left to
    serde.  Concurrency is the interleaving of whole calls: each modelled component
    is behind a lock in the shell. *)

From stdpp Require Import base gmap strings list sorting fin_maps pretty.
From Stdlib Require Import Ascii SpecFloat.

(** ** Results, panics and the state-and-error monad

    A fallible Rust method returns [Result<A, E>] and may also panic (an
    out-of-range index, a documented panic of a library call).  A method that
    takes [&mut self] is a function from the state to an outcome and the state
    it leaves behind, also when it returns an error: what a method had written
    before an early return stays written. *)

Inductive outcome (E A : Type) : Type :=
  | Ok (a : A)
  | Err (e : E)
  | Panic.
Arguments Ok {E A} _.
Arguments Err {E A} _.
Arguments Panic {E A}.

Definition M (S E A : Type) : Type := S → outcome E A * S.

Section monad.
Context {S E : Type}.

Global Instance outcome_ret : MRet (outcome E) := λ A a, Ok a.
Global Instance outcome_bind : MBind (outcome E) := λ A B k m,
  match m with Ok a => k a | Err e => Err e | Panic => Panic end.

Global Instance M_ret : MRet (M S E) := λ A a s, (Ok a, s).
Global Instance M_bind : MBind (M S E) := λ A B k m s,
  match m s with
  | (Ok a, s') => k a s'
  | (Err e, s') => (Err e, s')
  | (Panic, s') => (Panic, s')
  end.

Definition get : M S E S := λ s, (Ok s, s).
Definition modify (f : S → S) : M S E () := λ s, (Ok (), f s).
Definition throw {A} (e : E) : M S E A := λ s, (Err e, s).
Definition panic {A} : M S E A := λ s, (Panic, s).
Definition lift {A} (o : outcome E A) : M S E A := λ s, (o, s).
Definition ok_or {A} (o : option A) (e : E) : M S E A :=
  match o with Some a => mret a | None => throw e end.
(** [if b { return Err(e) }] *)
Definition reject_if (b : bool) (e : E) : M S E () :=
  if b then throw e else mret ().

Definition is_ok {A} (o : outcome E A) : bool :=
  match o with Ok _ => true | _ => false end.
End monad.

(** [if bad { return Err(e) }] in a function without state. *)
Definition ensure_not {E} (bad : bool) (e : E) : outcome E () := if bad then Err e else Ok ().

(** [for x in l { f(x)?; }] *)
Fixpoint try_for_each {E A} (f : A → outcome E ()) (l : list A) : outcome E () :=
  match l with
  | [] => Ok ()
  | x :: l => _ ← f x; try_for_each f l
  end.

(** [result.map_err(f)] on a stateful call. *)
Definition map_err {S E F A} (f : E → F) (m : M S E A) : M S F A :=
  λ s, let '(r, s') := m s in
    (match r with Ok a => Ok a | Err e => Err (f e) | Panic => Panic end, s').
Definition outcome_map_err {E F A} (f : E → F) (o : outcome E A) : outcome F A :=
  match o with Ok a => Ok a | Err e => Err (f e) | Panic => Panic end.

Lemma ensure_not_ok {E} bad (e : E) : ensure_not bad e = Ok () ↔ bad = false.
Proof. by destruct bad. Qed.

Lemma try_for_each_ok {E A} (f : A → outcome E ()) l :
  try_for_each f l = Ok () ↔ ∀ x, x ∈ l → f x = Ok ().
Proof.
  induction l as [|x l IH]; simpl; [split; [by intros _ x ?%elem_of_nil|done]|].
  unfold mbind, outcome_bind. split.
  - destruct (f x) as [[]|e|] eqn:Hx; [|done..]. intros Hl y [->|Hy]%elem_of_cons; [done|].
    by apply IH.
  - intros Hall. rewrite (Hall x) by (by left). apply IH. intros y Hy. apply Hall. by right.
Qed.

Lemma outcome_bind_ok {E A B} (m : outcome E A) (k : A → outcome E B) b :
  m ≫= k = Ok b ↔ ∃ a, m = Ok a ∧ k a = Ok b.
Proof. unfold mbind, outcome_bind. destruct m; naive_solver. Qed.

Lemma outcome_seq_ok {E B} (m : outcome E ()) (k : outcome E B) b :
  (m ≫= λ _, k) = Ok b ↔ m = Ok () ∧ k = Ok b.
Proof. unfold mbind, outcome_bind. destruct m as [[]| |]; naive_solver. Qed.

Lemma outcome_map_err_ok {E F A} (f : E → F) (o : outcome E A) a :
  outcome_map_err f o = Ok a ↔ o = Ok a.
Proof. destruct o; naive_solver. Qed.

(** Run a method on a component of a larger state. *)
Definition state_of {S E A} (m : M S E A) (s : S) : S := (m s).2.
Definition result_of {S E A} (m : M S E A) (s : S) : outcome E A := (m s).1.

(** Unfold the monad in every hypothesis and in the goal. *)
Ltac munfold :=
  unfold mbind, mret, M_bind, M_ret, outcome_bind, outcome_ret,
    get, modify, throw, panic, lift, ok_or, reject_if in *; simpl in *.

(** Split a run of a method into its branches. *)
Ltac branches :=
  repeat (munfold; first [progress simplify_eq/= | case_match]).

(** ** Machine integers

    An unsigned [w]-bit integer is an [N]; the arithmetic the code uses on it
    is saturating, so it is written with an explicit bound. *)

Definition u8_max : N := 255.
Definition u16_max : N := 65535.
Definition u32_max : N := 4294967295.
Definition u64_max : N := 18446744073709551615.
Definition i64_max : Z := 9223372036854775807.
Definition i64_min : Z := -9223372036854775808.

Definition sat_add (max a b : N) : N := N.min max (a + b).
Definition sat_sub (a b : N) : N := a - b.

Lemma sat_add_bound max a b : (sat_add max a b <= max)%N.
Proof. unfold sat_add. lia. Qed.

Lemma sat_add_ge max a b : (a <= max)%N → (a <= sat_add max a b)%N.
Proof. unfold sat_add. lia. Qed.

Lemma sat_add_exact max a b : (a + b <= max)%N → sat_add max a b = (a + b)%N.
Proof. unfold sat_add. lia. Qed.

(** ** Identifiers, time and floating point

    [Uuid] is the 128-bit value, ordered numerically (its [Ord] compares the
    big-endian bytes).  [DateTime<Utc>] is a number of nanoseconds since the
    epoch.  [f64] is the IEEE 754 binary64 value, NaN and infinities included. *)

Definition Uuid : Type := N.
Definition DateTime : Type := Z.
Definition f64 : Type := spec_float.

(** [a <= b] on [f64]: false as soon as one side is NaN. *)
Definition f64_le (a b : f64) : bool := SFleb a b.
Definition f64_add (a b : f64) : f64 := SFadd 53 1024 a b.
Definition f64_is_finite (a : f64) : bool :=
  match a with S754_zero _ | S754_finite _ _ _ => true | _ => false end.
Definition f64_zero : f64 := S754_zero false.
(** The nearest binary64 to an integer literal. *)
Definition f64_of_Z (z : Z) : f64 := binary_normalize 53 1024 z 0 false.

Global Instance spec_float_eq_dec : EqDecision spec_float.
Proof. solve_decision. Defined.

(** ** Strings

    A Rust [str] is its UTF-8 bytes, a [string] of eight-bit characters.  The
    functions below are the ones of [core::str] the code calls. *)

Definition bytes (s : string) : list ascii := String.list_ascii_of_string s.
Definition of_bytes (l : list ascii) : string := String.string_of_list_ascii l.
Definition byte_val (c : ascii) : N := N_of_ascii c.

Definition in_range (lo hi n : N) : bool := (lo <=? n)%N && (n <=? hi)%N.

Definition is_ascii_uppercase (c : ascii) : bool := in_range 65 90 (byte_val c).
Definition is_ascii_lowercase (c : ascii) : bool := in_range 97 122 (byte_val c).
Definition is_ascii_digit (c : ascii) : bool := in_range 48 57 (byte_val c).
Definition is_ascii_alphanumeric (c : ascii) : bool :=
  is_ascii_uppercase c || is_ascii_lowercase c || is_ascii_digit c.
(** [u8::is_ascii_whitespace]: space, tab, line feed, form feed, carriage return
    (and not the vertical tab). *)
Definition is_ascii_whitespace (c : ascii) : bool :=
  let n := byte_val c in
  (n =? 32)%N || (n =? 9)%N || (n =? 10)%N || (n =? 12)%N || (n =? 13)%N.

Definition to_ascii_lowercase_byte (c : ascii) : ascii :=
  if is_ascii_uppercase c then ascii_of_N (byte_val c + 32) else c.
Definition to_ascii_lowercase (s : string) : string :=
  of_bytes (to_ascii_lowercase_byte <$> bytes s).
Definition eq_ignore_ascii_case (a b : list ascii) : bool :=
  bool_decide ((to_ascii_lowercase_byte <$> a) = (to_ascii_lowercase_byte <$> b)).

Fixpoint strip_prefix (p l : list ascii) : option (list ascii) :=
  match p, l with
  | [], _ => Some l
  | a :: p', b :: l' => if decide (a = b) then strip_prefix p' l' else None
  | _ :: _, [] => None
  end.
Definition starts_with (p l : list ascii) : bool := bool_decide (is_Some (strip_prefix p l)).

Fixpoint contains (pat l : list ascii) : bool :=
  starts_with pat l || match l with [] => false | _ :: l' => contains pat l' end.
Definition str_contains (s pat : string) : bool := contains (bytes pat) (bytes s).

Fixpoint take_while (f : ascii → bool) (l : list ascii) : list ascii :=
  match l with
  | [] => []
  | c :: l' => if f c then c :: take_while f l' else []
  end.
Fixpoint drop_while (f : ascii → bool) (l : list ascii) : list ascii :=
  match l with
  | [] => []
  | c :: l' => if f c then drop_while f l' else l
  end.

(** One leading White_Space character, in its UTF-8 encoding. *)
Definition strip_ws (l : list ascii) : option (list ascii) :=
  match l with
  | c :: l1 =>
    let n := byte_val c in
    if in_range 9 13 n || (n =? 32)%N then Some l1
    else match l1 with
    | d :: l2 =>
      let m := byte_val d in
      if (n =? 0xC2)%N && ((m =? 0x85)%N || (m =? 0xA0)%N) then Some l2
      else match l2 with
      | e :: l3 =>
        let k := byte_val e in
        if ((n =? 0xE1)%N && (m =? 0x9A)%N && (k =? 0x80)%N)
           || ((n =? 0xE2)%N && (m =? 0x80)%N
               && (in_range 0x80 0x8A k || (k =? 0xA8)%N || (k =? 0xA9)%N || (k =? 0xAF)%N))
           || ((n =? 0xE2)%N && (m =? 0x81)%N && (k =? 0x9F)%N)
           || ((n =? 0xE3)%N && (m =? 0x80)%N && (k =? 0x80)%N)
        then Some l3 else None
      | [] => None
      end
    | [] => None
    end
  | [] => None
  end.

(** One trailing White_Space character of the string whose reversal is [l]. *)
Definition strip_ws_rev (l : list ascii) : option (list ascii) :=
  match strip_ws (take 1 l), strip_ws (reverse (take 2 l)), strip_ws (reverse (take 3 l)) with
  | Some _, _, _ => Some (drop 1 l)
  | _, Some [], _ => Some (drop 2 l)
  | _, _, Some [] => Some (drop 3 l)
  | _, _, _ => None
  end.

Fixpoint strip_all (step : list ascii → option (list ascii)) (fuel : nat) (l : list ascii)
    : list ascii :=
  match fuel with
  | O => l
  | S fuel => match step l with Some l' => strip_all step fuel l' | None => l end
  end.

Definition trim (s : string) : string :=
  let l := strip_all strip_ws (length (bytes s)) (bytes s) in
  of_bytes (reverse (strip_all strip_ws_rev (length l) (reverse l))).
Definition is_empty (s : string) : bool := bool_decide (s = "").
Definition is_blank (s : string) : bool := is_empty (trim s).

(** [str::split_whitespace]: the maximal runs of non-whitespace bytes. *)
Fixpoint split_ws_go (fuel : nat) (cur : list ascii) (l : list ascii) : list (list ascii) :=
  let flush := match cur with [] => [] | _ => [reverse cur] end in
  match fuel with
  | O => flush
  | S fuel =>
    match strip_ws l with
    | Some l' => flush ++ split_ws_go fuel [] l'
    | None => match l with [] => flush | c :: l' => split_ws_go fuel (c :: cur) l' end
    end
  end.
Definition split_whitespace (s : string) : list string :=
  of_bytes <$> split_ws_go (S (length (bytes s))) [] (bytes s).

(** [s.chars().take(n).collect()]: a character starts at every byte that is
    not a UTF-8 continuation byte. *)
Definition is_continuation (c : ascii) : bool := in_range 0x80 0xBF (byte_val c).
Fixpoint take_chars_go (n : N) (l : list ascii) : list ascii :=
  match l with
  | [] => []
  | c :: l' =>
    if is_continuation c then c :: take_chars_go n l'
    else if (n =? 0)%N then [] else c :: take_chars_go (n - 1) l'
  end.
Definition take_chars (n : N) (s : string) : string := of_bytes (take_chars_go n (bytes s)).
Fixpoint char_count (l : list ascii) : N :=
  match l with
  | [] => 0
  | c :: l' => if is_continuation c then char_count l' else (1 + char_count l')%N
  end.

(** [str::parse::<u64>]: an optional plus sign, then one or more digits whose
    value fits. *)
Fixpoint digits_value (acc : N) (l : list ascii) : option N :=
  match l with
  | [] => Some acc
  | c :: l' =>
    if is_ascii_digit c then digits_value (10 * acc + (byte_val c - 48)) l' else None
  end.
Definition parse_u64 (l : list ascii) : option N :=
  let digits := match l with "+"%char :: l' => l' | _ => l end in
  match digits with
  | [] => None
  | _ => n ← digits_value 0 digits; if (n <=? u64_max)%N then Some n else None
  end.

(** [str::strip_suffix('*')] *)
Definition strip_suffix_char (c : ascii) (l : list ascii) : option (list ascii) :=
  match reverse l with
  | d :: r => if decide (c = d) then Some (reverse r) else None
  | [] => None
  end.

(** ** String lemmas *)

Lemma of_bytes_bytes s : of_bytes (bytes s) = s.
Proof. apply String.string_of_list_ascii_of_string. Qed.
Lemma bytes_of_bytes l : bytes (of_bytes l) = l.
Proof. apply String.list_ascii_of_string_of_list_ascii. Qed.
Lemma bytes_inj s t : bytes s = bytes t → s = t.
Proof. intros H. by rewrite <- (of_bytes_bytes s), <- (of_bytes_bytes t), H. Qed.
Lemma bytes_app s t : bytes (s +:+ t) = bytes s ++ bytes t.
Proof.
  induction s as [|a s IH]; [done|].
  change (a :: bytes (s +:+ t) = a :: (bytes s ++ bytes t)). by rewrite IH.
Qed.

Lemma strip_prefix_Some p l r : strip_prefix p l = Some r ↔ l = p ++ r.
Proof.
  revert l; induction p as [|a p IH]; intros l; simpl; [naive_solver|].
  destruct l as [|b l]; [naive_solver|].
  case_decide; subst; rewrite ?IH; naive_solver.
Qed.

Lemma starts_with_spec p l : starts_with p l = true ↔ ∃ r, l = p ++ r.
Proof.
  unfold starts_with. rewrite bool_decide_eq_true. split.
  - intros [r Hr]. exists r. by apply strip_prefix_Some.
  - intros [r Hr]. exists r. by apply strip_prefix_Some.
Qed.

Lemma contains_spec pat l : contains pat l = true ↔ ∃ a b, l = a ++ pat ++ b.
Proof.
  induction l as [|c l IH]; simpl; rewrite orb_true_iff, starts_with_spec.
  - split.
    + intros [[r Hr]|?]; [by exists [], r|done].
    + intros (a & b & Hab). left. exists b.
      destruct a; [exact Hab|discriminate].
  - rewrite IH. split.
    + intros [[r Hr]|(a & b & ->)]; [by exists [], r|by exists (c :: a), b].
    + intros ([|d a] & b & Hab); simplify_eq/=; [left; eauto|right; eauto].
Qed.

Lemma take_drop_while f l : take_while f l ++ drop_while f l = l.
Proof. induction l; simpl; [done|]. case_match; simpl; congruence. Qed.

Lemma take_while_Forall f l : Forall (λ c, f c = true) (take_while f l).
Proof. induction l; simpl; [done|]. case_match; auto. Qed.

(** The byte a [drop_while] stops at, if any, does not satisfy the test. *)
Lemma drop_while_head f l c r : drop_while f l = c :: r → f c = false.
Proof. induction l; simpl; [done|]. case_match; [done|]. congruence. Qed.

(** A run followed by a byte outside the class is exactly what the loop eats. *)
Lemma drop_while_app f a c r :
  Forall (λ c, f c = true) a → f c = false → drop_while f (a ++ c :: r) = c :: r.
Proof. induction 1; simpl; intros Hc; [by rewrite Hc|]. rewrite H. auto. Qed.

Lemma take_while_app f a r :
  Forall (λ c, f c = true) a → length a ≤ length (take_while f (a ++ r)).
Proof. induction 1; simpl; [lia|]. rewrite H; simpl. lia. Qed.

Lemma take_chars_go_prefix n l : ∃ r, l = take_chars_go n l ++ r.
Proof.
  revert n; induction l as [|c l IH]; intros n; simpl; [by exists []|].
  case_match; [destruct (IH n) as [r Hr]; exists r; simpl; congruence|].
  case_match; [by exists (c :: l)|].
  destruct (IH (n - 1)%N) as [r Hr]; exists r; simpl; congruence.
Qed.

Lemma char_count_take_chars n l : (char_count (take_chars_go n l) <= n)%N.
Proof.
  revert n; induction l as [|c l IH]; intros n; simpl; [lia|].
  destruct (is_continuation c) eqn:Hc; simpl.
  - rewrite Hc. auto.
  - case_match; simpl; [lia|]. rewrite Hc. specialize (IH (n - 1)%N).
    apply N.eqb_neq in H. lia.
Qed.

Lemma take_chars_go_short n l : (char_count l <= n)%N → take_chars_go n l = l.
Proof.
  revert n; induction l as [|c l IH]; intros n; simpl; [done|].
  destruct (is_continuation c) eqn:Hc; intros Hn; [by rewrite IH|].
  case_match eqn:Hz; [apply N.eqb_eq in Hz; lia|]. rewrite IH; [done|lia].
Qed.

(** ** The environment *)

(** [std::env::var]: a variable that is set, to valid text. *)
Class Environment : Type := { env_var : string → option string }.

(** ** Digests *)

(** [Sha256::digest], on byte values. *)
Class Sha256 : Type := { sha256 : list N → list N }.

(** ** Printing identifiers

    The text of a [Uuid] is produced by the uuid library: its [Display] is the
    hyphenated lower-case form.  The code relies on the form being unique and
    free of the colon that separates the fields of a schedule key. *)

Class UuidText : Type := {
  uuid_to_string : Uuid → string;
  uuid_to_string_inj a b :
    (a < 2 ^ 128)%N → (b < 2 ^ 128)%N → uuid_to_string a = uuid_to_string b → a = b;
  uuid_to_string_no_colon a : ":"%char ∉ bytes (uuid_to_string a);
}.

(** The hyphenated form, digit by digit. *)
Definition hex_digit (n : N) : ascii :=
  if (n <? 10)%N then ascii_of_N (48 + n) else ascii_of_N (87 + n).
Fixpoint hex_digits (k : nat) (n : N) : list ascii :=
  match k with
  | O => []
  | S k => hex_digits k (n / 16) ++ [hex_digit (n mod 16)]
  end.
Definition hyphenate (l : list ascii) : list ascii :=
  take 8 l ++ "-"%char :: take 4 (drop 8 l) ++ "-"%char :: take 4 (drop 12 l)
    ++ "-"%char :: take 4 (drop 16 l) ++ "-"%char :: drop 20 l.
Definition hyphenated (n : Uuid) : string := of_bytes (hyphenate (hex_digits 32 n)).

Lemma hex_digit_cases n :
  (n < 16)%N → n ∈ (N.of_nat <$> seq 0 16).
Proof. intros H. apply list_elem_of_fmap. exists (N.to_nat n). rewrite elem_of_seq. lia. Qed.

Lemma hex_digit_inj a b : (a < 16)%N → (b < 16)%N → hex_digit a = hex_digit b → a = b.
Proof.
  intros Ha%hex_digit_cases Hb%hex_digit_cases.
  assert (Forall (λ a, Forall (λ b, hex_digit a = hex_digit b → a = b) (N.of_nat <$> seq 0 16))
    (N.of_nat <$> seq 0 16)) as Hall by by repeat constructor.
  rewrite Forall_forall in Hall. specialize (Hall a Ha). simpl in Hall.
  rewrite Forall_forall in Hall. by apply Hall.
Qed.

Lemma hex_digit_plain a c : (a < 16)%N → c ∈ [":"%char; "-"%char] → hex_digit a ≠ c.
Proof.
  intros Ha%hex_digit_cases Hc.
  assert (Forall (λ a, Forall (λ c, hex_digit a ≠ c) [":"%char; "-"%char])
    (N.of_nat <$> seq 0 16)) as Hall by by repeat constructor.
  rewrite Forall_forall in Hall. specialize (Hall a Ha). simpl in Hall.
  rewrite Forall_forall in Hall. by apply Hall.
Qed.

Lemma hex_digits_plain k n c :
  c ∈ [":"%char; "-"%char] → c ∉ hex_digits k n.
Proof.
  intros Hc. revert n; induction k as [|k IH]; intros n; simpl; [set_solver|].
  rewrite elem_of_app, list_elem_of_singleton. intros [?|Heq]; [by eapply IH|].
  symmetry in Heq. revert Heq. apply hex_digit_plain; [|done]. apply N.mod_lt. lia.
Qed.

Lemma hex_digits_inj k a b :
  (a < 16 ^ N.of_nat k)%N → (b < 16 ^ N.of_nat k)%N → hex_digits k a = hex_digits k b → a = b.
Proof.
  revert a b; induction k as [|k IH]; intros a b Ha Hb; simpl; [simpl in *; lia|].
  rewrite Nat2N.inj_succ, N.pow_succ_r' in Ha, Hb.
  intros [Hq Hr]%app_inj_tail.
  apply IH in Hq; [|apply N.Div0.div_lt_upper_bound; lia..].
  apply hex_digit_inj in Hr; [|apply N.mod_lt; lia..].
  rewrite (N.div_mod a 16), (N.div_mod b 16) by lia. by rewrite Hq, Hr.
Qed.

Lemma hyphenate_plain l :
  "-"%char ∉ l → filter (.≠ "-"%char) (hyphenate l) = l.
Proof.
  intros Hl. unfold hyphenate.
  do 4 (rewrite filter_app, filter_cons_False by (intros Hn; by apply Hn)).
  rewrite <- !filter_app.
  replace (take 8 l ++ _) with l.
  - clear -Hl. induction l as [|c l IH]; [done|]. rewrite not_elem_of_cons in Hl.
    rewrite filter_cons_True, IH by naive_solver. done.
  - assert (∀ i j, drop i l = take j (drop i l) ++ drop (i + j) l) as Hsplit.
    { intros i j. by rewrite <- drop_drop, take_drop. }
    rewrite <- (take_drop 8 l) at 1. f_equal. rewrite (Hsplit 8 4) at 1. f_equal.
    rewrite (Hsplit (8 + 4) 4) at 1. f_equal. exact (Hsplit 16 4).
Qed.

Global Program Instance hyphenated_text : UuidText := {| uuid_to_string := hyphenated |}.
Next Obligation.
  intros a b Ha Hb Heq. unfold hyphenated in Heq.
  apply (f_equal bytes) in Heq. rewrite !bytes_of_bytes in Heq.
  apply (f_equal (filter (.≠ "-"%char))) in Heq.
  rewrite !hyphenate_plain in Heq by (apply hex_digits_plain; set_solver).
  by eapply (hex_digits_inj 32).
Qed.
Next Obligation.
  intros a Hin. unfold hyphenated in Hin. rewrite bytes_of_bytes in Hin.
  assert (":"%char ∈ filter (.≠ "-"%char) (hyphenate (hex_digits 32 a))) as Hin'
    by by apply list_elem_of_filter.
  rewrite hyphenate_plain in Hin' by (apply hex_digits_plain; set_solver).
  revert Hin'. apply hex_digits_plain. set_solver.
Qed.

Example hyphenated_max : hyphenated (2 ^ 128 - 1)%N = "ffffffff-ffff-ffff-ffff-ffffffffffff".
Proof. vm_compute. reflexivity. Qed.

(** ** Ordered maps

    A [BTreeMap] is a [gmap]; where the code iterates over it, the iteration is
    over the entries sorted by key. *)

Definition entry_le {V} (p q : Uuid * V) : Prop := (p.1 <= q.1)%N.
Global Instance entry_le_dec {V} : RelDecision (@entry_le V).
Proof. intros p q. unfold entry_le. apply _. Defined.
Global Instance entry_le_total {V} : Total (@entry_le V).
Proof. intros p q. unfold entry_le. lia. Qed.
Global Instance entry_le_trans {V} : Transitive (@entry_le V).
Proof. intros p q r. unfold entry_le. lia. Qed.

Definition entries {V} (m : gmap Uuid V) : list (Uuid * V) :=
  merge_sort entry_le (map_to_list m).
Definition keys {V} (m : gmap Uuid V) : list Uuid := (entries m).*1.
Definition values {V} (m : gmap Uuid V) : list V := (entries m).*2.

(** [m.values().filter(f).count()], where the order does not matter. *)
Definition count_values `{Countable K} {V} (f : V → bool) (m : gmap K V) : nat :=
  length (filter (λ v, f v = true) (map_to_list m).*2).

Section maps.
Context {V : Type}.
Implicit Types m : gmap Uuid V.

Lemma entries_perm m : entries m ≡ₚ map_to_list m.
Proof. apply merge_sort_Permutation. Qed.

Lemma elem_of_entries m k v : (k, v) ∈ entries m ↔ m !! k = Some v.
Proof. rewrite entries_perm. apply elem_of_map_to_list. Qed.

Lemma elem_of_keys m k : k ∈ keys m ↔ is_Some (m !! k).
Proof.
  unfold keys. rewrite list_elem_of_fmap. split.
  - intros ([? v] & -> & ?%elem_of_entries). by exists v.
  - intros [v ?]. exists (k, v). by rewrite elem_of_entries.
Qed.

Lemma elem_of_values m v : v ∈ values m ↔ ∃ k, m !! k = Some v.
Proof.
  unfold values. rewrite list_elem_of_fmap. split.
  - intros ([k ?] & -> & ?%elem_of_entries). by exists k.
  - intros [k ?]. exists (k, v). by rewrite elem_of_entries.
Qed.

Lemma NoDup_keys m : NoDup (keys m).
Proof. unfold keys. rewrite entries_perm. apply NoDup_fst_map_to_list. Qed.

Lemma keys_sorted m : StronglySorted N.le (keys m).
Proof.
  unfold keys, entries. eapply StronglySorted_fmap; [|by apply (StronglySorted_merge_sort entry_le)].
  done.
Qed.
End maps.

Section counting.
Context `{Countable K} {V : Type}.
Implicit Types (m : gmap K V) (f : V → bool).

Lemma count_values_insert_new f m k v :
  m !! k = None → count_values f (<[k:=v]> m) = Nat.b2n (f v) + count_values f m.
Proof.
  intros Hk. unfold count_values. rewrite map_to_list_insert by done. simpl.
  rewrite filter_cons. destruct (f v); case_decide; done.
Qed.

Lemma count_values_insert f m k old v :
  m !! k = Some old →
  count_values f (<[k:=v]> m) + Nat.b2n (f old) = count_values f m + Nat.b2n (f v).
Proof.
  intros Hk. rewrite <- insert_delete_eq.
  rewrite count_values_insert_new by apply lookup_delete_eq.
  rewrite <- (insert_delete_id m k old) at 2 by done.
  rewrite count_values_insert_new by apply lookup_delete_eq. lia.
Qed.

(** Values counted among the keys of a list are at most its length. *)
Lemma count_values_le f m (l : list K) :
  (∀ k v, m !! k = Some v → f v = true → k ∈ l) → count_values f m ≤ length l.
Proof.
  intros Hl. unfold count_values.
  assert (filter (λ v, f v = true) (map_to_list m).*2 =
    (filter (λ kv : K * V, f kv.2 = true) (map_to_list m)).*2) as ->.
  { generalize (map_to_list m). induction l0 as [|[k v] l0 IH]; [done|].
    rewrite fmap_cons, !filter_cons. cbn [snd]. case_decide; rewrite ?fmap_cons; by rewrite IH. }
  rewrite length_fmap, <- (length_fmap fst). apply submseteq_length, NoDup_submseteq.
  - eapply sublist_NoDup; [apply (NoDup_fst_map_to_list m)|].
    apply fmap_sublist, sublist_filter.
  - intros k ([? v] & -> & [? ?%elem_of_map_to_list]%list_elem_of_filter)%list_elem_of_fmap.
    eauto.
Qed.

Lemma count_values_ge f m (l : list K) :
  NoDup l → (∀ k, k ∈ l → ∃ v, m !! k = Some v ∧ f v = true) → length l ≤ count_values f m.
Proof.
  intros Hnd. revert m. induction Hnd as [|k l Hk Hnd IH]; intros m Hl; simpl; [lia|].
  destruct (Hl k) as (v & Hv & Hf); [by left|].
  rewrite <- (insert_delete_id m k v) by done.
  rewrite count_values_insert_new, Hf by apply lookup_delete_eq. simpl.
  apply le_n_S, IH. intros k' Hk'. destruct (Hl k') as (v' & ? & ?); [by right|].
  exists v'. rewrite lookup_delete_ne by set_solver. done.
Qed.

(** Where every counted value was already counted, the count does not grow. *)
Lemma count_values_mono f m m' :
  (∀ k v', m' !! k = Some v' → f v' = true → ∃ v, m !! k = Some v ∧ f v = true) →
  count_values f m' ≤ count_values f m.
Proof.
  intros Hsub. set (l := (filter (λ kv : K * V, f kv.2 = true) (map_to_list m)).*1).
  assert (∀ k, k ∈ l ↔ ∃ v, m !! k = Some v ∧ f v = true) as Hl.
  { intros k. unfold l. rewrite list_elem_of_fmap. split.
    - intros ([? v] & -> & [? ?%elem_of_map_to_list]%list_elem_of_filter). eauto.
    - intros (v & ? & ?). exists (k, v). by rewrite list_elem_of_filter, elem_of_map_to_list. }
  trans (length l).
  - apply count_values_le. intros k v Hk Hf. apply Hl. eauto.
  - apply count_values_ge; [|intros k Hk; by apply Hl]. eapply sublist_NoDup;
      [apply (NoDup_fst_map_to_list m)|]. apply fmap_sublist, sublist_filter.
Qed.

Lemma count_values_zero f m :
  count_values f m = 0 ↔ ∀ k v, m !! k = Some v → f v = false.
Proof.
  unfold count_values. rewrite length_zero_iff_nil. split.
  - intros Hnil k v Hk. destruct (f v) eqn:Hf; [|done].
    assert (v ∈ filter (λ v, f v = true) (map_to_list m).*2) as Hin.
    { apply list_elem_of_filter. split; [done|].
      apply list_elem_of_fmap. exists (k, v). by rewrite elem_of_map_to_list. }
    rewrite Hnil in Hin. by apply elem_of_nil in Hin.
  - intros Hall. destruct (filter _ _) as [|v l] eqn:Hfil; [done|].
    assert (v ∈ filter (λ v, f v = true) (map_to_list m).*2) as Hin.
    { rewrite Hfil. by left. }
    apply list_elem_of_filter in Hin as [Hv Hin].
    apply list_elem_of_fmap in Hin as ([k ?] & -> & Hin%elem_of_map_to_list).
    apply Hall in Hin. simpl in *. congruence.
Qed.
End counting.

(** ** JSON values *)

Inductive Number : Type :=
  | PosInt (n : N)
  | NegInt (z : Z)
  | Float (f : f64).

Inductive Value : Type :=
  | VNull
  | VBool (b : bool)
  | VNumber (n : Number)
  | VString (s : string)
  | VArray (items : list Value)
  | VObject (map : list (string * Value)).

(** Induction through the arrays and objects. *)
Section Value_induction.
Variable P : Value → Prop.
Hypothesis P_null : P VNull.
Hypothesis P_bool : ∀ b, P (VBool b).
Hypothesis P_number : ∀ n, P (VNumber n).
Hypothesis P_string : ∀ s, P (VString s).
Hypothesis P_array : ∀ l, Forall P l → P (VArray l).
Hypothesis P_object : ∀ l, Forall (λ kv, P kv.2) l → P (VObject l).

Fixpoint Value_induction (v : Value) : P v :=
  match v with
  | VNull => P_null
  | VBool b => P_bool b
  | VNumber n => P_number n
  | VString s => P_string s
  | VArray l => P_array l
      ((fix go l : Forall P l :=
          match l with
          | [] => Forall_nil_2 _
          | x :: l => Forall_cons_2 _ _ _ (Value_induction x) (go l)
          end) l)
  | VObject l => P_object l
      ((fix go l : Forall (λ kv : string * Value, P kv.2) l :=
          match l with
          | [] => Forall_nil_2 _
          | kv :: l => Forall_cons_2 _ _ _ (Value_induction kv.2) (go l)
          end) l)
  end.
End Value_induction.

(** ** Field updates

    [r <| field := v |>] is [r] with one field replaced, and
    [r <| field ::= f |>] with one field changed by a function: the assignment
    [r.field = v] of the source.  A record says how it is rebuilt from its
    fields ([Eta]); the update of a field abstracts that field from it. *)

Class Eta (R : Type) : Type := eta : R → R.
Class Update {R T : Type} (field : R → T) : Type := update : (T → T) → R → R.
Arguments update {R T} field {_} f r /.

Ltac build_update field :=
  match goal with
  | |- @Update ?R ?T _ =>
    let rebuild := constr:(_ : Eta R) in
    let rebuild := eval hnf in rebuild in
    let body := constr:(λ r : R, ltac:(
      let b := eval cbv beta in (rebuild r) in
      let p := eval pattern (field r) in b in
      match p with ?k _ => exact k end)) in
    let result := eval cbv beta in (λ (f : T → T) (r : R), body r (f (field r))) in
    exact result
  end.
#[export] Hint Extern 0 (Update ?field) => build_update field : typeclass_instances.

Notation "r <| field := v |>" := (update field (λ _, v) r)
  (at level 1, left associativity, field at level 7, v at level 200).
Notation "r <| field ::= f |>" := (update field f r)
  (at level 1, left associativity, field at level 7, f at level 200).

(** ** Filtered lists *)

Section filtered.
Context {A : Type} (P Q : A → Prop) `{!∀ x, Decision (P x)} `{!∀ x, Decision (Q x)}.
Implicit Types l : list A.

Lemma StronglySorted_filter (R : relation A) l : StronglySorted R l → StronglySorted R (filter P l).
Proof.
  induction 1 as [|x l Hl IH Hx]; [constructor|]. rewrite filter_cons. case_decide; [|done].
  constructor; [done|]. rewrite Forall_forall in *. intros y [_ ?]%list_elem_of_filter. auto.
Qed.
Lemma list_filter_iff' l : (∀ x, x ∈ l → P x ↔ Q x) → filter P l = filter Q l.
Proof.
  induction l as [|x l IH]; intros Hl; [done|]. rewrite !filter_cons, IH by (intros; apply Hl; by right).
  destruct (Hl x) as [? ?]; [by left|]. repeat case_decide; tauto.
Qed.
Lemma list_filter_all l : (∀ x, x ∈ l → P x) → filter P l = l.
Proof.
  induction l as [|x l IH]; intros HP; [done|]. rewrite filter_cons_True by (apply HP; by left).
  f_equal. apply IH. intros y Hy. apply HP. by right.
Qed.
Lemma list_filter_none l : (∀ x, x ∈ l → ¬ P x) → filter P l = [].
Proof.
  induction l as [|x l IH]; intros HP; [done|]. rewrite filter_cons_False by (apply HP; by left).
  apply IH. intros y Hy. apply HP. by right.
Qed.
End filtered.

(** ** The host: clock and fresh identifiers

    Operations that read the clock or draw identifiers at several points run in
    a world that provides both; each reading moves the world on. *)

Class Host (W : Type) : Type := {
  host_now : W → DateTime * W;
  host_uuid : W → Uuid * W;
}.

(** ** Automation shared by the components *)

Create HintDb agent discriminated.
#[export] Hint Resolve sat_add_bound sat_add_ge : agent.
#[export] Hint Resolve NoDup_nil_2 NoDup_keys : agent.
