(* ===== verification/Text.v ===== *)
(** * Text

    The functions of [core::str], [alloc::string] and [char] that the text-handling
    components call and the prelude does not have: case mapping, searching,
    replacing, truncation at a byte index, joining and JSON access.  A [str] is
    its UTF-8 bytes; a function that the source applies per character is written
    on bytes where no character outside ASCII can make a difference, and with the
    character boundaries where it can. *)

From stdpp Require Import base gmap strings list sorting pretty.
From Stdlib Require Import Ascii.
From S2P Require Import Prelude.

(** ** Bytes and characters *)

Definition lower (l : list ascii) : list ascii := to_ascii_lowercase_byte <$> l.

Definition to_ascii_uppercase_byte (c : ascii) : ascii :=
  if is_ascii_lowercase c then ascii_of_N (byte_val c - 32) else c.
Definition to_ascii_uppercase (s : string) : string :=
  of_bytes (to_ascii_uppercase_byte <$> bytes s).

Definition is_ascii_hexdigit (c : ascii) : bool :=
  is_ascii_digit c || in_range 65 70 (byte_val c) || in_range 97 102 (byte_val c).

Definition str_len (s : string) : nat := length (bytes s).

(** [s.contains(c)] for an ASCII character, and for any of several. *)
Definition contains_byte (c : ascii) (s : string) : bool := bool_decide (c ∈ bytes s).
Definition contains_any (cs : list ascii) (s : string) : bool :=
  existsb (λ c, contains_byte c s) cs.

Definition nul : ascii := "000"%char.
Definition cr : ascii := "013"%char.
Definition lf : ascii := "010"%char.
Definition underscore : ascii := "_"%char.
Definition single_quote : ascii := "'"%char.
Definition double_quote : ascii := ascii_of_N 34.
Definition backslash : ascii := "\"%char.
Definition space : ascii := " "%char.

(** [s.starts_with(p)] *)
Definition str_starts_with (p s : string) : bool := starts_with (bytes p) (bytes s).

(** [s.strip_prefix(p)] and [s.strip_suffix(p)] *)
Definition str_strip_prefix (p s : string) : option string :=
  of_bytes <$> strip_prefix (bytes p) (bytes s).
Definition str_strip_suffix (p s : string) : option string :=
  (λ r, of_bytes (reverse r)) <$> strip_prefix (reverse (bytes p)) (reverse (bytes s)).

(** [s.contains(char::is_whitespace)] *)
Fixpoint has_whitespace (l : list ascii) : bool :=
  bool_decide (is_Some (strip_ws l)) || match l with [] => false | _ :: l => has_whitespace l end.

(** The text from the first White_Space character on; all of it consumed if there
    is none. *)
Fixpoint from_whitespace (l : list ascii) : list ascii :=
  match l with
  | [] => []
  | _ :: l' => if bool_decide (is_Some (strip_ws l)) then l else from_whitespace l'
  end.

(** [String::truncate(n)]: shorter strings stay, an index inside a character panics. *)
Definition truncate {E} (n : nat) (l : list ascii) : outcome E (list ascii) :=
  match l !! n with
  | Some c => if is_continuation c then Panic else Ok (take n l)
  | None => Ok l
  end.

(** [parts.join(sep)] *)
Fixpoint join (sep : string) (parts : list string) : string :=
  match parts with
  | [] => ""
  | [p] => p
  | p :: parts => p +:+ sep +:+ join sep parts
  end.

(** [str::replace(c, with)] for a single character. *)
Fixpoint replace_byte (c : ascii) (with_ : list ascii) (l : list ascii) : list ascii :=
  match l with
  | [] => []
  | d :: l => (if decide (c = d) then with_ else [d]) ++ replace_byte c with_ l
  end.

(** [str::lines]: a line ends at a line feed, together with a carriage return before it; the
    text after the last line feed is a line if it is not empty.  [cur] is the current line,
    reversed. *)
Definition end_line (cur : list ascii) : list ascii :=
  match cur with
  | c :: cur' => if decide (c = cr) then reverse cur' else reverse cur
  | [] => []
  end.
Fixpoint lines_go (cur : list ascii) (l : list ascii) : list (list ascii) :=
  match l with
  | [] => match cur with [] => [] | _ => [reverse cur] end
  | c :: l => if decide (c = lf) then end_line cur :: lines_go [] l else lines_go (c :: cur) l
  end.
Definition lines (s : string) : list string := of_bytes <$> lines_go [] (bytes s).

(** [trim_matches] with a set of ASCII characters. *)
Definition trim_matches (f : ascii → bool) (l : list ascii) : list ascii :=
  reverse (drop_while f (reverse (drop_while f l))).

(** [core::str::from_utf8]: the well-formed sequences of the Unicode standard. *)
Definition cont (c : ascii) : bool := is_continuation c.
Fixpoint utf8_valid (l : list ascii) : bool :=
  match l with
  | [] => true
  | a :: l1 =>
    let x := byte_val a in
    if (x <? 0x80)%N then utf8_valid l1
    else match l1 with
    | [] => false
    | b :: l2 =>
      let y := byte_val b in
      if in_range 0xC2 0xDF x then cont b && utf8_valid l2
      else match l2 with
      | [] => false
      | c :: l3 =>
        if (x =? 0xE0)%N then in_range 0xA0 0xBF y && cont c && utf8_valid l3
        else if (x =? 0xED)%N then in_range 0x80 0x9F y && cont c && utf8_valid l3
        else if in_range 0xE1 0xEF x then cont b && cont c && utf8_valid l3
        else match l3 with
        | [] => false
        | d :: l4 =>
          (if (x =? 0xF0)%N then in_range 0x90 0xBF y
           else if (x =? 0xF4)%N then in_range 0x80 0x8F y
           else in_range 0xF1 0xF3 x && cont b)
          && cont c && cont d && utf8_valid l4
        end
      end
    end
  end.

(** [windows(n).position(|w| w == pat)] and [str::find]: the first index of a pattern. *)
Fixpoint find_bytes (pat l : list ascii) : option nat :=
  if starts_with pat l then Some 0
  else match l with [] => None | _ :: l => S <$> find_bytes pat l end.

(** [str::split_once(c)] *)
Fixpoint split_once_go (c : ascii) (cur l : list ascii) : option (list ascii * list ascii) :=
  match l with
  | [] => None
  | d :: l => if decide (c = d) then Some (reverse cur, l) else split_once_go c (d :: cur) l
  end.
Definition split_once (c : ascii) (s : string) : option (string * string) :=
  (λ p : list ascii * list ascii, (of_bytes p.1, of_bytes p.2)) <$> split_once_go c [] (bytes s).

(** ** JSON access

    An object keeps its keys in order and without duplicates; [get] is the first
    entry with the key. *)

Definition object_get (key : string) (map : list (string * Value)) : option Value :=
  snd <$> find (λ kv : string * Value, bool_decide (kv.1 = key)) map.

(** [serde_json::Value::get] with a string index. *)
Definition value_get (key : string) (v : Value) : option Value :=
  match v with VObject map => object_get key map | _ => None end.
Definition as_str (v : Value) : option string :=
  match v with VString s => Some s | _ => None end.
Definition as_bool (v : Value) : option bool :=
  match v with VBool b => Some b | _ => None end.
Definition as_array (v : Value) : option (list Value) :=
  match v with VArray l => Some l | _ => None end.
Definition as_object (v : Value) : option (list (string * Value)) :=
  match v with VObject m => Some m | _ => None end.
Definition is_object (v : Value) : bool := match v with VObject _ => true | _ => false end.
Definition is_number (v : Value) : bool := match v with VNumber _ => true | _ => false end.

(** [value.as_i64().is_some() || value.as_u64().is_some()]: every integer that is
    not stored as a float. *)
Definition is_integer (v : Value) : bool :=
  match v with VNumber (PosInt _) | VNumber (NegInt _) => true | _ => false end.

(** [value.get(key).and_then(Value::as_str)] and the like. *)
Definition get_str (key : string) (v : Value) : option string := value_get key v ≫= as_str.
Definition get_array (key : string) (v : Value) : option (list Value) :=
  value_get key v ≫= as_array.
Definition get_object (key : string) (v : Value) : option (list (string * Value)) :=
  value_get key v ≫= as_object.

(** ** Byte order

    Strings compare byte by byte; a [BTreeSet] or [BTreeMap] with string keys iterates in
    that order. *)

Fixpoint bytes_le (a b : list ascii) : bool :=
  match a, b with
  | [], _ => true
  | _ :: _, [] => false
  | x :: a, y :: b =>
    if (byte_val x <? byte_val y)%N then true
    else if (byte_val x =? byte_val y)%N then bytes_le a b else false
  end.
Definition str_le (a b : string) : Prop := bytes_le (bytes a) (bytes b) = true.
Global Instance str_le_dec : RelDecision str_le.
Proof. intros a b. unfold str_le. apply _. Defined.

(** [set.iter().last()] *)
Definition str_max (a b : string) : string := if decide (str_le a b) then b else a.
Definition set_last (X : gset string) : option string :=
  match elements X with [] => None | x :: l => Some (foldr str_max x l) end.

(** The entries of a map with string keys, in key order. *)
Definition str_entry_le {V} (p q : string * V) : Prop := str_le p.1 q.1.
Global Instance str_entry_le_dec {V} : RelDecision (@str_entry_le V).
Proof. intros p q. unfold str_entry_le. apply _. Defined.
Definition str_entries {V} (m : gmap string V) : list (string * V) :=
  merge_sort str_entry_le (map_to_list m).

(** ** Lemmas *)

Lemma byte_val_inj x y : byte_val x = byte_val y → x = y.
Proof.
  unfold byte_val. intros H. rewrite <- (ascii_N_embedding x), <- (ascii_N_embedding y). by f_equal.
Qed.

Lemma bytes_le_total a b : bytes_le a b = true ∨ bytes_le b a = true.
Proof.
  revert b; induction a as [|x a IH]; intros [|y b]; simpl; auto.
  destruct (N.lt_total (byte_val x) (byte_val y)) as [Hlt|[Heq|Hlt]].
  - rewrite (proj2 (N.ltb_lt _ _) Hlt). auto.
  - rewrite Heq, N.ltb_irrefl, N.eqb_refl. auto.
  - rewrite (proj2 (N.ltb_lt _ _) Hlt). auto.
Qed.

Lemma bytes_le_trans a b c : bytes_le a b = true → bytes_le b c = true → bytes_le a c = true.
Proof.
  revert b c; induction a as [|x a IH]; intros [|y b] [|z c]; simpl; try done.
  destruct (N.ltb_spec (byte_val x) (byte_val y)), (N.ltb_spec (byte_val y) (byte_val z)),
    (N.ltb_spec (byte_val x) (byte_val z)), (N.eqb_spec (byte_val x) (byte_val y)),
    (N.eqb_spec (byte_val y) (byte_val z)), (N.eqb_spec (byte_val x) (byte_val z));
    try done; try lia; eauto.
Qed.

Lemma bytes_le_antisym a b : bytes_le a b = true → bytes_le b a = true → a = b.
Proof.
  revert b; induction a as [|x a IH]; intros [|y b]; simpl; try done.
  destruct (N.ltb_spec (byte_val x) (byte_val y)), (N.ltb_spec (byte_val y) (byte_val x)),
    (N.eqb_spec (byte_val x) (byte_val y)), (N.eqb_spec (byte_val y) (byte_val x));
    try done; try lia.
  intros. f_equal; [by apply byte_val_inj|auto].
Qed.

Global Instance str_le_total : Total str_le.
Proof. intros a b. apply bytes_le_total. Qed.
Global Instance str_le_trans : Transitive str_le.
Proof. intros a b c. apply bytes_le_trans. Qed.
Global Instance str_le_antisym : AntiSymm (=) str_le.
Proof. intros a b ??. by apply bytes_inj, bytes_le_antisym. Qed.
Global Instance str_entry_le_total {V} : Total (@str_entry_le V).
Proof. intros p q. apply str_le_total. Qed.
Global Instance str_entry_le_trans {V} : Transitive (@str_entry_le V).
Proof. intros p q r. apply str_le_trans. Qed.

(** The last element of a set is its greatest one. *)
Lemma set_last_spec X x :
  set_last X = Some x ↔ x ∈ X ∧ ∀ y, y ∈ X → str_le y x.
Proof.
  assert (∀ z l, foldr str_max z l ∈ z :: l ∧ ∀ y, y ∈ z :: l → str_le y (foldr str_max z l)) as Hfold.
  { intros z l. induction l as [|w l [IH1 IH2]]; simpl; [split; [by left|]|].
    - intros y ->%list_elem_of_singleton. by destruct (str_le_total z z).
    - unfold str_max. case_decide as Hle; split.
      + set_solver.
      + intros y Hy. apply elem_of_cons in Hy as [->|[->|Hy]%elem_of_cons];
          [apply IH2; by left|done|apply IH2; by right].
      + set_solver.
      + assert (str_le (foldr str_max z l) w) by by destruct (str_le_total w (foldr str_max z l)).
        intros y Hy. apply elem_of_cons in Hy as [->|[->|Hy]%elem_of_cons].
        * trans (foldr str_max z l); [apply IH2; by left|done].
        * by destruct (str_le_total w w).
        * trans (foldr str_max z l); [apply IH2; by right|done]. }
  unfold set_last. destruct (elements X) as [|z l] eqn:HX.
  - assert (X ≡ ∅) as HX'. { apply elements_empty_inv. by rewrite HX. }
    split; [done|]. set_solver.
  - assert (∀ y, y ∈ X ↔ y ∈ z :: l) as Hel by (intros y; by rewrite <- HX, elem_of_elements).
    destruct (Hfold z l) as [Hin Hmax]. split.
    + intros [= <-]. rewrite Hel. split; [done|]. intros y. rewrite Hel. apply Hmax.
    + intros [Hx Hall]. f_equal. apply (anti_symm str_le).
      * apply Hall. by apply Hel.
      * apply Hmax. by apply Hel.
Qed.

Lemma set_last_None X : set_last X = None ↔ X = ∅.
Proof.
  unfold set_last. split.
  - destruct (elements X) eqn:HX; [|done]. intros _.
    apply leibniz_equiv, elements_empty_inv. by rewrite HX.
  - intros ->. by rewrite elements_empty.
Qed.

Lemma elem_of_str_entries {V} (m : gmap string V) k v : (k, v) ∈ str_entries m ↔ m !! k = Some v.
Proof. unfold str_entries. rewrite merge_sort_Permutation. apply elem_of_map_to_list. Qed.

Lemma length_lower l : length (lower l) = length l.
Proof. apply length_fmap. Qed.

Lemma lower_app a b : lower (a ++ b) = lower a ++ lower b.
Proof. apply fmap_app. Qed.

Lemma lower_drop n l : lower (drop n l) = drop n (lower l).
Proof. apply fmap_drop. Qed.

Lemma lower_take n l : lower (take n l) = take n (lower l).
Proof. apply fmap_take. Qed.

(** Case mapping changes letters only. *)
Lemma lower_fixed c d :
  in_range 65 90 (byte_val d) = false → in_range 97 122 (byte_val d) = false →
  to_ascii_lowercase_byte c = d → c = d.
Proof.
  unfold to_ascii_lowercase_byte, is_ascii_uppercase. destruct c as [[] [] [] [] [] [] [] []];
    cbn; intros H1 H2 <-; first [reflexivity|discriminate].
Qed.

Lemma truncate_prefix {E} n l r : truncate (E:=E) n l = Ok r → r `prefix_of` l ∧ length r ≤ n.
Proof.
  unfold truncate. destruct (l !! n) as [c|] eqn:Hn.
  - case_match; [done|]. intros [= <-]. split; [|rewrite length_take; lia].
    exists (drop n l). by rewrite take_drop.
  - intros [= <-]. split; [done|]. by apply lookup_ge_None_1.
Qed.

Lemma truncate_ascii {E} n l :
  Forall (λ c, is_continuation c = false) l → truncate (E:=E) n l = Ok (take n l).
Proof.
  intros Hl. unfold truncate. destruct (l !! n) as [c|] eqn:Hn.
  - rewrite Forall_forall in Hl. rewrite (Hl c) by by eapply list_elem_of_lookup_2. done.
  - by rewrite take_ge by by apply lookup_ge_None_1.
Qed.

Lemma from_whitespace_suffix l : from_whitespace l `suffix_of` l.
Proof.
  induction l as [|c l IH]; simpl; [done|]. case_bool_decide; [done|].
  by apply suffix_cons_r.
Qed.

Lemma length_from_whitespace l : length (from_whitespace l) ≤ length l.
Proof. apply suffix_length, from_whitespace_suffix. Qed.

Lemma object_get_elem key map v : object_get key map = Some v → (key, v) ∈ map.
Proof.
  unfold object_get. induction map as [|[k w] map IH]; simpl; [done|].
  case_bool_decide; simpl; [|right; by apply IH]. intros [= <-]. subst. by left.
Qed.

Lemma str_strip_prefix_Some p s r : str_strip_prefix p s = Some r ↔ bytes s = bytes p ++ bytes r.
Proof.
  unfold str_strip_prefix. rewrite fmap_Some. setoid_rewrite strip_prefix_Some. split.
  - intros (l & -> & ->). by rewrite bytes_of_bytes.
  - intros Hs. exists (bytes r). by rewrite of_bytes_bytes.
Qed.
Lemma starts_with_app p r : starts_with p (p ++ r) = true.
Proof. apply starts_with_spec. by exists r. Qed.

#[export] Hint Rewrite length_lower lower_app : agent.

Lemma find_bytes_bound pat l i : find_bytes pat l = Some i → i + length pat ≤ length l.
Proof.
  revert i; induction l as [|c l IH]; intros i; simpl; (destruct (starts_with pat _) eqn:Hp; [|]).
  1,3: intros [= <-]; apply starts_with_spec in Hp as [q Hq]; apply (f_equal length) in Hq;
    rewrite length_app in Hq; simpl in *; lia.
  - done.
  - intros (j & Hj%IH & ->)%fmap_Some. lia.
Qed.

(** A pattern found in a text is found at the same place when the text grows. *)
Lemma find_bytes_app pat l r i :
  find_bytes pat l = Some i → find_bytes pat (l ++ r) = Some i.
Proof.
  revert i; induction l as [|c l IH]; intros i; simpl.
  - destruct (starts_with pat []) eqn:Hp; [|done]. intros [= <-].
    apply starts_with_spec in Hp as [q Hq]. symmetry in Hq. apply app_eq_nil in Hq as [-> _].
    by destruct r.
  - destruct (starts_with pat (c :: l)) eqn:Hp.
    + intros [= <-]. apply starts_with_spec in Hp as [q Hq].
      rewrite app_comm_cons, Hq, <- app_assoc, starts_with_app. done.
    + intros (j & Hj & ->)%fmap_Some.
      destruct (starts_with pat (c :: l ++ r)) eqn:Hp'; [|by rewrite (IH j)].
      exfalso. apply starts_with_spec in Hp' as [q Hq].
      assert (length pat ≤ length (c :: l)) as Hlen.
      { apply find_bytes_bound in Hj. simpl. lia. }
      apply not_true_iff_false in Hp. destruct Hp. apply starts_with_spec.
      exists (drop (length pat) (c :: l)).
      apply (f_equal (take (length (c :: l)))) in Hq.
      rewrite app_comm_cons, take_app_length in Hq. rewrite Hq at 1.
      rewrite take_app_ge by done. f_equal.
      apply (f_equal (drop (length pat))) in Hq.
      rewrite take_app_ge, drop_app_length in Hq by done. done.
Qed.
