(* ===== verification/Contracts.v ===== *)
(** * Event envelopes

    Models [EventEnvelope] of the versioned contracts ([crates/contracts/src/lib.rs]): the
    constructor [new] and [payload].  The payload is kept as the JSON value that
    [payload_json] encodes; identifiers and timestamps come from the host.  Also the
    part of [serde_json::Map] that events are built with: insertion in key order and
    [Value::pointer]. *)

From stdpp Require Import base gmap strings list pretty.
From S2P Require Import Prelude Text.

(** ** JSON objects *)

(** [Map::insert]: keys are kept in byte order, an existing key is replaced. *)
Fixpoint object_insert (key : string) (v : Value) (map : list (string * Value))
    : list (string * Value) :=
  match map with
  | [] => [(key, v)]
  | (k, w) :: map' =>
    if decide (k = key) then (key, v) :: map'
    else if decide (str_le key k) then (key, v) :: map
    else (k, w) :: object_insert key v map'
  end.

(** [iter.collect::<Map>()] and [json!({...})]. *)
Definition object_of (entries : list (string * Value)) : Value :=
  VObject (foldl (λ m (e : string * Value), object_insert e.1 e.2 m) [] entries).

(** [Value::pointer] for a path of names that are not array indices. *)
Fixpoint pointer (path : list string) (v : Value) : option Value :=
  match path with
  | [] => Some v
  | key :: path => value_get key v ≫= pointer path
  end.
Definition pointer_str (path : list string) (v : Value) : option string := pointer path v ≫= as_str.

(** [Value::as_u64] and [Value::as_f64]; [json!] of a float is null if it is not finite. *)
Definition as_u64 (v : Value) : option N :=
  match v with VNumber (PosInt n) => Some n | _ => None end.
Definition as_f64 (v : Value) : option f64 :=
  match v with
  | VNumber (PosInt n) => Some (f64_of_Z (Z.of_N n))
  | VNumber (NegInt z) => Some (f64_of_Z z)
  | VNumber (Float f) => Some f
  | _ => None
  end.
Definition value_of_f64 (x : f64) : Value := if f64_is_finite x then VNumber (Float x) else VNull.
Definition value_of_N (n : N) : Value := VNumber (PosInt n).

(** ** Envelopes *)

Record EventEnvelope : Type := mkEventEnvelope {
  ev_schema_version : N;
  ev_event_id : string;
  ev_wall_clock_timestamp : string;
  ev_monotonic_sequence : N;
  ev_origin : string;
  ev_profile_id : string;
  ev_session_id : option string;
  ev_goal_id : option string;
  ev_task_id : option string;
  ev_agent_id : option string;
  ev_type : string;
  ev_payload : Value;
}.
Global Instance EventEnvelope_eta : Eta EventEnvelope :=
  λ r, mkEventEnvelope (ev_schema_version r) (ev_event_id r) (ev_wall_clock_timestamp r)
    (ev_monotonic_sequence r) (ev_origin r) (ev_profile_id r) (ev_session_id r) (ev_goal_id r)
    (ev_task_id r) (ev_agent_id r) (ev_type r) (ev_payload r).

Definition EVENT_SCHEMA_VERSION : N := 1.

(** The identifier and the timestamp of the event with a sequence number. *)
Class EventHost : Type := {
  fresh_event_id : N → string;
  event_timestamp : N → string;
}.

Definition event_new `{EventHost} (sequence : N) (origin profile_id event_type : string)
    (payload : Value) : EventEnvelope :=
  mkEventEnvelope EVENT_SCHEMA_VERSION (fresh_event_id sequence) (event_timestamp sequence) sequence
    origin profile_id None None None None event_type payload.

(** ** Lemmas *)

(** The field names of an object. *)
Definition field_names (v : Value) : list string :=
  match v with VObject m => m.*1 | _ => [] end.

Lemma object_insert_names key v m k :
  k ∈ (object_insert key v m).*1 ↔ k = key ∨ k ∈ m.*1.
Proof.
  induction m as [|[k' w] m IH]; simpl; [set_solver|].
  repeat case_decide; subst; simpl; rewrite ?elem_of_cons; [set_solver..|]. rewrite IH. tauto.
Qed.

Lemma object_insert_get key v m k :
  object_get k (object_insert key v m) = if decide (k = key) then Some v else object_get k m.
Proof.
  unfold object_get. induction m as [|[k' w] m IH]; simpl.
  - case_bool_decide; case_decide; naive_solver.
  - repeat case_decide; subst; simpl; repeat case_bool_decide; subst; try done.
Qed.

Lemma object_of_names entries k : k ∈ field_names (object_of entries) ↔ k ∈ entries.*1.
Proof.
  simpl. assert (∀ m, k ∈ (foldl (λ m (e : string * Value), object_insert e.1 e.2 m) m entries).*1 ↔
    k ∈ entries.*1 ∨ k ∈ m.*1) as Hfold; [|rewrite Hfold; set_solver].
  induction entries as [|[k' v] entries IH]; intros m; simpl; [set_solver|].
  rewrite IH, object_insert_names. set_solver.
Qed.
