(* ===== verification/McpText.v ===== *)
(** * Text handling of the MCP manager

    Models the text functions of [crates/mcp-manager/src/lib.rs]: identifiers
    ([sanitize_identifier]), log messages ([sanitize_adapter_message]), the
    recognition of credentials ([is_sensitive_name], [looks_like_secret]), keychain
    placeholders and the shell rendering of commands, with the theorems about what
    these functions promise. *)

From stdpp Require Import base gmap strings list pretty.
From Stdlib Require Import Ascii.
From S2P Require Import Prelude Text.

(** ** Identifiers *)

(** [value.chars().flat_map(char::to_lowercase)] as [sanitize_identifier] sees it:
    [Some c] is an ASCII letter or digit, [None] any other character.  Two characters
    outside ASCII have a lower-case form with an ASCII letter in it, the Kelvin
    sign (k) and the dotted capital I (i and a combining dot); the bytes of the other
    ones separate, and a run of separators counts once. *)
Definition ascii_piece (c : ascii) : option ascii :=
  let c := to_ascii_lowercase_byte c in if is_ascii_alphanumeric c then Some c else None.

Fixpoint lowercase_pieces (l : list ascii) : list (option ascii) :=
  match l with
  | [] => []
  | c :: l1 =>
    match l1 with
    | d :: l2 =>
      if (byte_val c =? 0xC4)%N && (byte_val d =? 0xB0)%N then
        Some "i"%char :: None :: lowercase_pieces l2
      else match l2 with
      | e :: l3 =>
        if (byte_val c =? 0xE2)%N && (byte_val d =? 0x84)%N && (byte_val e =? 0xAA)%N then
          Some "k"%char :: lowercase_pieces l3
        else ascii_piece c :: lowercase_pieces l1
      | [] => ascii_piece c :: lowercase_pieces l1
      end
    | [] => [ascii_piece c]
    end
  end.

Fixpoint sanitize_go (result : list ascii) (separator : bool) (pieces : list (option ascii))
    : list ascii :=
  match pieces with
  | [] => result
  | Some c :: pieces => sanitize_go (result ++ [c]) false pieces
  | None :: pieces =>
    if negb separator && negb (bool_decide (result = [])) then
      sanitize_go (result ++ [underscore]) true pieces
    else sanitize_go result separator pieces
  end.

(** [while result.ends_with('_') { result.pop(); }] *)
Definition pop_underscores (l : list ascii) : list ascii :=
  reverse (drop_while (λ c, bool_decide (c = underscore)) (reverse l)).

Definition sanitize_identifier (value : string) : string :=
  of_bytes (pop_underscores (sanitize_go [] false (lowercase_pieces (bytes value)))).

(** ** Credentials *)

Definition sensitive_parts : list string :=
  ["authorization"; "api_key"; "apikey"; "token"; "secret"; "password"; "private_key";
   "client_secret"; "cookie"].

Definition is_sensitive_name (name : string) : bool :=
  let name := to_ascii_lowercase name in existsb (str_contains name) sensitive_parts.

Definition looks_like_secret (value : string) : bool :=
  let trimmed := trim value in
  ((24 <=? str_len trimmed) && negb (has_whitespace (bytes trimmed)))
  || existsb (λ prefix, str_starts_with prefix (to_ascii_lowercase trimmed))
       ["sk-"; "ghp_"; "github_pat_"; "xoxb-"; "bearer "].

Definition placeholder_alias (value : string) : option string :=
  match str_strip_prefix "${" value ≫= str_strip_suffix "}" with
  | Some alias => Some alias
  | None => str_strip_prefix "{{" value ≫= str_strip_suffix "}}"
  end.

(** ** Log messages *)

Definition message_markers : list (list ascii) :=
  bytes <$> ["token="; "key="; "secret="; "password="; "authorization:"].
Definition redacted : list ascii := bytes "[REDACTED]".

(** The loop for one marker: copy up to and with the next occurrence of the marker, in
    any case, write the placeholder, skip the value and go on after it. *)
Fixpoint redact_marker (marker : list ascii) (fuel : nat) (l : list ascii) : list ascii :=
  match fuel with
  | O => l
  | S fuel =>
    match l with
    | [] => []
    | c :: l' =>
      if starts_with marker (lower l) then
        take (length marker) l ++ redacted
          ++ redact_marker marker fuel (from_whitespace (drop (length marker) l))
      else c :: redact_marker marker fuel l'
    end
  end.

Definition blank_newline (c : ascii) : ascii :=
  if bool_decide (c = cr) || bool_decide (c = lf) then space else c.

Definition redact_message (message : string) : list ascii :=
  foldl (λ output marker, redact_marker marker (length output) output)
    (blank_newline <$> bytes message) message_markers.

Definition sanitize_adapter_message {E} (message : string) : outcome E string :=
  l ← truncate 1000 (redact_message message); Ok (of_bytes l).

(** ** Commands *)

Definition plain_byte (c : ascii) : bool :=
  is_ascii_alphanumeric c || bool_decide (c ∈ bytes "-._/:=@+").

Definition quote_word (l : list ascii) : list ascii :=
  single_quote :: replace_byte single_quote (bytes "'\''") l ++ [single_quote].

Definition shell_display_word (value : string) : string :=
  if negb (is_empty value) && forallb plain_byte (bytes value) then value
  else of_bytes (quote_word (bytes value)).

(** ** Specification of identifiers *)

Definition ident_byte (c : ascii) : bool := is_ascii_lowercase c || is_ascii_digit c.

(** Letters and digits in groups separated by single underscores, [sep] telling that
    none may come next. *)
Fixpoint ident_from (sep : bool) (l : list ascii) : bool :=
  match l with
  | [] => true
  | c :: l =>
    if ident_byte c then ident_from false l
    else bool_decide (c = underscore) && negb sep && ident_from true l
  end.

Definition identifier (l : list ascii) : Prop :=
  ident_from true l = true ∧ last l ≠ Some underscore.

(** ** Identifiers are normal forms *)

Lemma ident_byte_piece c : ident_byte c = true → ascii_piece c = Some c.
Proof. by destruct c as [[] [] [] [] [] [] [] []]. Qed.

Lemma piece_ident_byte c d : ascii_piece c = Some d → ident_byte d = true.
Proof. destruct c as [[] [] [] [] [] [] [] []]; by intros [= <-]. Qed.

Lemma underscore_not_ident : ident_byte underscore = false.
Proof. done. Qed.

(** The separator state after a text. *)
Definition after (sep : bool) (l : list ascii) : bool :=
  match last l with Some c => bool_decide (c = underscore) | None => sep end.

Lemma ident_from_app sep a b :
  ident_from sep (a ++ b) = ident_from sep a && ident_from (after sep a) b.
Proof.
  revert sep; induction a as [|c a IH]; intros sep; [done|].
  assert (after sep (c :: a) = after (negb (ident_byte c)) a ∨
    ident_from sep (c :: a) = false ∧ ident_from sep ((c :: a) ++ b) = false) as Hafter.
  { unfold after. simpl. destruct a as [|d a].
    - simpl. destruct (ident_byte c) eqn:Hc; [left|].
      + case_bool_decide; [by subst|done].
      + case_bool_decide; [by left|by right].
    - left. rewrite last_cons_cons. destruct (last (d :: a)) eqn:Hl; [done|].
      by apply last_None in Hl. }
  destruct Hafter as [->|[-> ->]]; [|done]. simpl.
  destruct (ident_byte c); rewrite IH; [done|]. by rewrite <- !andb_assoc.
Qed.

Lemma lowercase_pieces_ident l c : Some c ∈ lowercase_pieces l → ident_byte c = true.
Proof.
  enough (∀ n l, length l ≤ n → Some c ∈ lowercase_pieces l → ident_byte c = true) by eauto.
  clear l. induction n as [|n IH]; intros l Hn.
  - destruct l; [|simpl in Hn; lia]. by intros ?%elem_of_nil.
  - destruct l as [|a [|b l2]]; [by intros ?%elem_of_nil|..].
    + intros Hp%list_elem_of_singleton. by eapply piece_ident_byte.
    + cbn [lowercase_pieces]. fold lowercase_pieces. simpl in Hn. repeat case_match.
      all: rewrite ?elem_of_cons; intros Hp; destruct_or? Hp; simplify_eq; try done;
        try (by eapply piece_ident_byte); try (by apply elem_of_nil in Hp);
        (eapply IH; [|done]; simpl in *; lia).
Qed.

(** What the loop has built so far stays well formed. *)
Lemma sanitize_go_ident result separator pieces :
  (∀ c, Some c ∈ pieces → ident_byte c = true) →
  ident_from true result = true →
  (result ≠ [] → separator = after true result) →
  ident_from true (sanitize_go result separator pieces) = true.
Proof.
  revert result separator. induction pieces as [|[c|] pieces IH];
    intros result separator Hp Hr Hs; simpl; [done|..].
  - apply IH; [set_solver|..].
    + rewrite ident_from_app, Hr. simpl. by rewrite Hp by by left.
    + intros _. unfold after. rewrite last_snoc.
      case_bool_decide; [|done]. subst. by specialize (Hp underscore ltac:(by left)).
  - destruct (negb separator && negb (bool_decide (result = []))) eqn:Hg.
    + apply andb_true_iff in Hg as [Hsep Hne]. rewrite negb_true_iff, ?bool_decide_eq_false in *.
      apply IH; [set_solver|..].
      * rewrite ident_from_app, Hr, <- (Hs Hne), Hsep. done.
      * intros _. unfold after. by rewrite last_snoc.
    + apply IH; [set_solver|done..].
Qed.

Lemma pop_underscores_spec l :
  ∃ k, l = pop_underscores l ++ replicate k underscore ∧ last (pop_underscores l) ≠ Some underscore.
Proof.
  unfold pop_underscores. set (u := λ c, bool_decide (c = underscore)).
  assert (∀ r, ∃ k, r = replicate k underscore ++ drop_while u r) as Hdrop.
  { induction r as [|c r [k Hk]]; [by exists 0|]. simpl. unfold u at 1.
    case_bool_decide; [|by exists 0]. exists (S k). simpl. congruence. }
  destruct (Hdrop (reverse l)) as [k Hk]. exists k. split.
  - apply (f_equal reverse) in Hk. rewrite reverse_involutive, reverse_app in Hk.
    by rewrite reverse_replicate in Hk.
  - destruct (drop_while u (reverse l)) as [|c r] eqn:Hd; [done|].
    rewrite reverse_cons, last_snoc. intros [= ->].
    by apply drop_while_head in Hd.
Qed.

Lemma sanitize_identifier_ident value : identifier (bytes (sanitize_identifier value)).
Proof.
  unfold sanitize_identifier. rewrite bytes_of_bytes.
  set (g := sanitize_go _ _ _). destruct (pop_underscores_spec g) as (k & Hk & Hlast).
  split; [|done]. assert (ident_from true g = true) as Hg.
  { apply sanitize_go_ident; [|done..]. intros c. apply lowercase_pieces_ident. }
  rewrite Hk, ident_from_app in Hg. by apply andb_true_iff in Hg as [? _].
Qed.

(** On an identifier the loop copies. *)
Lemma pieces_of_ident l :
  Forall (λ c, ident_byte c = true ∨ c = underscore) l →
  lowercase_pieces l = ascii_piece <$> l.
Proof.
  assert (∀ c n, ident_byte c = true ∨ c = underscore → (128 <= n)%N → (byte_val c =? n)%N = false)
    as Hascii.
  { intros c n Hc Hn. apply N.eqb_neq. intros Heq. assert (byte_val c < 128)%N; [|lia].
    destruct Hc as [Hc| ->]; [|done]. clear Heq Hn. revert Hc.
    destruct c as [[] [] [] [] [] [] [] []]; vm_compute; congruence. }
  induction 1 as [|c l Hc Hl IH]; [done|].
  destruct l as [|d [|e l]]; [done|..]; rewrite fmap_cons, <- IH; simpl;
    rewrite !(Hascii c) by (done || lia); done.
Qed.

Lemma sanitize_go_copy result separator sep l :
  ident_from sep l = true →
  (result = [] → sep = true) → (result ≠ [] → sep = separator) →
  sanitize_go result separator (ascii_piece <$> l) = result ++ l.
Proof.
  revert result separator sep. induction l as [|c l IH]; intros result separator sep; simpl;
    [by rewrite app_nil_r|].
  destruct (ident_byte c) eqn:Hc; intros Hl Hnil Hsep.
  - rewrite ident_byte_piece by done. erewrite IH; [by rewrite <- app_assoc|done|..]; try done.
    by destruct result.
  - rewrite !andb_true_iff, negb_true_iff, bool_decide_eq_true in Hl. destruct Hl as [[-> ->] Hl].
    change (ascii_piece underscore) with (@None ascii). simpl.
    destruct (decide (result = [])) as [Hr|Hr]; [by specialize (Hnil Hr)|].
    rewrite <- (Hsep Hr), bool_decide_eq_false_2 by done. simpl.
    erewrite IH; [by rewrite <- app_assoc|done|..]; try done.
Qed.

Lemma ident_from_bytes sep l :
  ident_from sep l = true → Forall (λ c, ident_byte c = true ∨ c = underscore) l.
Proof.
  revert sep; induction l as [|c l IH]; intros sep; simpl; [done|].
  destruct (ident_byte c) eqn:Hc; [eauto|].
  rewrite !andb_true_iff, bool_decide_eq_true. intros [[-> _] ?]. eauto.
Qed.

Lemma sanitize_identifier_fixed value :
  identifier (bytes value) → sanitize_identifier value = value.
Proof.
  intros [Hl Hlast]. unfold sanitize_identifier. apply bytes_inj. rewrite bytes_of_bytes.
  rewrite pieces_of_ident by by eapply ident_from_bytes.
  rewrite (sanitize_go_copy [] false true) by done. simpl.
  destruct (pop_underscores_spec (bytes value)) as ([|k] & Hk & _).
  - by rewrite app_nil_r in Hk.
  - exfalso. apply Hlast. rewrite Hk, replicate_S_end, app_assoc, last_snoc. done.
Qed.

Lemma sanitize_identifier_fixed_iff value :
  sanitize_identifier value = value ↔ identifier (bytes value).
Proof.
  split; [|apply sanitize_identifier_fixed].
  intros <-. apply sanitize_identifier_ident.
Qed.

(** Identifiers are exactly the fixed points of [sanitize_identifier], and its results are
    identifiers: groups of lower-case letters and digits separated by single underscores.  The
    namespace check of [validate_definition] therefore accepts exactly these texts. *)
Theorem sanitize_identifier_normalizes value :
  identifier (bytes (sanitize_identifier value)) ∧
  sanitize_identifier (sanitize_identifier value) = sanitize_identifier value ∧
  (sanitize_identifier value = value ↔ identifier (bytes value)).
Proof.
  split_and!; [apply sanitize_identifier_ident| |apply sanitize_identifier_fixed_iff].
  apply sanitize_identifier_fixed, sanitize_identifier_ident.
Qed.

(** ** Messages are redacted *)

(** Every occurrence of a marker, in any case, is directly followed by the placeholder. *)
Definition followed (m l : list ascii) : Prop :=
  ∀ a b, l = a ++ b → starts_with m (lower b) = true → ∃ r, drop (length m) b = redacted ++ r.

Lemma followed_suffix m a b : followed m (a ++ b) → followed m b.
Proof. intros H a' b' ->. apply (H (a ++ a')). by rewrite app_assoc. Qed.

Lemma marker_inv m :
  m ∈ message_markers →
  m = bytes "token=" ∨ m = bytes "key=" ∨ m = bytes "secret=" ∨ m = bytes "password=" ∨
  m = bytes "authorization:".
Proof. unfold message_markers. rewrite !fmap_cons, !elem_of_cons, elem_of_nil. tauto. Qed.

(** Case analysis on an index below a concrete bound. *)
Lemma index_cases (P : nat → Prop) n : Forall P (seq 0 n) → ∀ k, k < n → P k.
Proof. intros HP k Hk. rewrite Forall_forall in HP. apply HP, elem_of_seq. lia. Qed.

Ltac by_index := match goal with |- ∀ k, k < ?n → @?P k => apply (index_cases P n) end;
  cbn [length redacted bytes String.list_ascii_of_string seq];
  repeat apply List.Forall_cons; try apply List.Forall_nil.

(** The markers do not overlap, and none starts inside the placeholder. *)
Lemma marker_in_marker m1 m2 k z :
  m1 ∈ message_markers → m2 ∈ message_markers → k < length m2 →
  starts_with m1 (drop k m2 ++ lower redacted ++ z) = true → m1 = drop k m2.
Proof.
  intros Hm1%marker_inv Hm2%marker_inv. destruct_or! Hm1; destruct_or! Hm2; subst m1 m2;
    revert k; by_index; by vm_compute.
Qed.

Lemma no_marker_in_placeholder m k z :
  m ∈ message_markers → k < length redacted → starts_with m (lower (drop k redacted) ++ z) = false.
Proof.
  intros Hm%marker_inv. revert k. destruct_or! Hm; subst m; by_index; by vm_compute.
Qed.

Lemma marker_plain m c : m ∈ message_markers → to_ascii_lowercase_byte c ∈ m → c ≠ "["%char.
Proof.
  intros Hm%marker_inv Hc ->. revert Hc. change (to_ascii_lowercase_byte "[") with "["%char.
  destruct_or! Hm; subst m; apply (bool_decide_unpack (_ ∉ _)); vm_compute; exact I.
Qed.

Lemma starts_with_lower m l :
  starts_with m (lower l) = true →
  length m ≤ length l ∧ lower (take (length m) l) = m.
Proof.
  intros [r Hr]%starts_with_spec. split.
  - rewrite <- (length_lower l), Hr, length_app. lia.
  - by rewrite lower_take, Hr, take_app_length.
Qed.

Lemma lower_starts_with m q x : lower q = m → starts_with m (lower (q ++ x)) = true.
Proof. intros <-. rewrite lower_app. apply starts_with_app. Qed.

(** A text without the placeholder's bracket that starts the output starts the input too,
    and the output goes on in one of three ways: with the placeholder, with the rest of the
    loop, or inside a marker. *)
Lemma redact_marker_prefix m fuel l q x :
  m ∈ message_markers → length l ≤ fuel → "["%char ∉ q → redact_marker m fuel l = q ++ x →
  ∃ w, l = q ++ w ∧
    ((∃ r, x = redacted ++ r) ∨
     (∃ fuel', length w ≤ fuel' ∧ x = redact_marker m fuel' w) ∨
     (∃ c w' x', c ≠ "["%char ∧ w = c :: w' ∧ x = c :: x')).
Proof.
  intros Hm. revert l q. induction fuel as [|fuel IH]; intros l q Hlen Hq.
  { destruct l; [|simpl in Hlen; lia]. intros [-> ->]%eq_sym%app_eq_nil.
    exists []. split; [done|]. right; left. by exists 0. }
  destruct l as [|c l].
  { intros [-> ->]%eq_sym%app_eq_nil. exists []. split; [done|]. right; left. by exists 0. }
  destruct q as [|d q].
  { intros Hx. exists (c :: l). split; [done|]. right; left. by exists (S fuel). }
  cbn [redact_marker]. destruct (starts_with m (lower (c :: l))) eqn:Hs.
  - apply starts_with_lower in Hs as [Hn Hlow]. intros Heq.
    set (l0 := c :: l) in *. set (q0 := d :: q) in *.
    assert (length (take (length m) l0) = length m) as Hv by (rewrite length_take; lia).
    destruct (app_eq_inv _ _ _ _ Heq) as [(k & Hk & Hx)|(k & Hk & Hx)].
    + (* the text ends within the marker *)
      exists (k ++ drop (length m) l0). rewrite app_assoc, <- Hk, take_drop. split; [done|].
      destruct k as [|e k]; [left; eauto|right; right].
      exists e, (k ++ drop (length m) l0). eexists. split_and!; [|done|by rewrite Hx].
      apply (marker_plain m); [done|]. rewrite <- Hlow, Hk, lower_app. set_solver.
    + (* it would contain the bracket *)
      destruct k as [|e k].
      * rewrite app_nil_r in Hk. exists (drop (length m) l0).
        rewrite Hk, take_drop. split; [done|]. left. exists (redact_marker m fuel (from_whitespace (drop (length m) l0))). by symmetry.
      * exfalso. apply Hq. simpl in Hx. injection Hx as <- _. rewrite Hk. set_solver.
  - intros [= <- Heq]. destruct (IH l q) as (w & -> & Hw);
      [simpl in Hlen; lia|set_solver|done|]. by exists w.
Qed.

Lemma redact_marker_skip m fuel p r :
  (∀ k, k < length p → starts_with m (lower (drop k p ++ r)) = false) → length p ≤ fuel →
  redact_marker m fuel (p ++ r) = p ++ redact_marker m (fuel - length p) r.
Proof.
  revert fuel. induction p as [|c p IH]; intros fuel Hno Hlen; simpl; [by rewrite Nat.sub_0_r|].
  destruct fuel as [|fuel]; [simpl in Hlen; lia|]. cbn [redact_marker].
  pose proof (Hno 0 ltac:(simpl; lia)) as H0. simpl in H0. simpl. rewrite H0. f_equal.
  apply IH; [|simpl in Hlen; lia]. intros k Hk. apply (Hno (S k)). simpl. lia.
Qed.

(** A marker, the placeholder and a rest in which [m] is followed. *)
Lemma followed_match m m2 v rest :
  m ∈ message_markers → m2 ∈ message_markers → lower v = m2 → followed m rest →
  followed m (v ++ redacted ++ rest).
Proof.
  intros Hm Hm2 Hlow Hrest a b Hab Hb.
  destruct (app_eq_inv _ _ _ _ Hab) as [(k & Hk & ->)|(k & -> & Hk)].
  - destruct k as [|e k]; [rewrite app_nil_l in Hb; rewrite lower_app in Hb|].
    { by rewrite (no_marker_in_placeholder m 0) in Hb by (done || (simpl; lia)). }
    assert (m = drop (length a) m2) as Hmk.
    { apply (marker_in_marker m m2 _ (lower rest)); [done..| |].
      - rewrite <- Hlow, Hk, length_lower, length_app. simpl. lia.
      - rewrite !lower_app in Hb. rewrite <- Hlow at 1. rewrite Hk, lower_app.
        by rewrite drop_app_length' by by rewrite length_lower. }
    assert (length m = length (e :: k)) as Hlm.
    { rewrite Hmk, <- Hlow, <- lower_drop, length_lower, Hk, drop_app_length. done. }
    exists rest. by rewrite drop_app_length'.
  - destruct (app_eq_inv _ _ _ _ Hk) as [(j & Hj & ->)|(j & -> & Hj)]; [|by eapply Hrest].
    destruct j as [|e j]; [by eapply (Hrest [])|]. exfalso. rewrite lower_app in Hb.
    replace (e :: j) with (drop (length k) redacted) in Hb by by rewrite Hj, drop_app_length.
    rewrite no_marker_in_placeholder in Hb; [done..|]. rewrite Hj, length_app. simpl. lia.
Qed.

(** Where the marker of the pass does not start the input, a marker that starts the output
    started the input. *)
Lemma followed_head m m2 fuel l :
  m ∈ message_markers → m2 ∈ message_markers → length l ≤ fuel →
  starts_with m2 (lower l) = false → (m = m2 ∨ followed m l) →
  starts_with m (lower (redact_marker m2 fuel l)) = true →
  ∃ r, drop (length m) (redact_marker m2 fuel l) = redacted ++ r.
Proof.
  intros Hm Hm2 Hlen Hs Hor Hb. set (out := redact_marker m2 fuel l) in *.
  apply starts_with_lower in Hb as [Hn Hlow].
  destruct (redact_marker_prefix m2 fuel l (take (length m) out) (drop (length m) out))
    as (w & Hw & Hcase); [done..| |by rewrite take_drop|].
  { intros Hin. eapply (marker_plain m "["); [done| |done].
    rewrite <- Hlow. by apply list_elem_of_fmap_2. }
  assert (starts_with m (lower l) = true) as Hsl by (rewrite Hw; by apply lower_starts_with).
  destruct Hor as [->|Hor]; [congruence|].
  destruct (Hor [] l eq_refl Hsl) as [r Hr].
  replace (drop (length m) l) with w in Hr
    by (rewrite Hw, drop_app_length'; [done|rewrite length_take; lia]).
  destruct Hcase as [[r' ?]|[(fuel' & Hf & Hx)|(e & w' & x' & He & Hw' & _)]]; [by exists r'|..].
  - rewrite Hr in Hf. rewrite Hx, Hr, redact_marker_skip; [eauto| |rewrite length_app in Hf; lia].
    intros k Hk. rewrite lower_app. by apply no_marker_in_placeholder.
  - rewrite Hr in Hw'. simpl in Hw'. congruence.
Qed.

Lemma marker_nonempty m : m ∈ message_markers → 0 < length m ∧ starts_with m [] = false.
Proof. intros Hm%marker_inv. destruct_or! Hm; subst m; vm_compute; split; (done || lia). Qed.

(** After the pass for a marker, that marker is followed, and so is every marker that was. *)
Lemma redact_marker_followed m m2 fuel l :
  m ∈ message_markers → m2 ∈ message_markers → length l ≤ fuel →
  (m = m2 ∨ followed m l) → followed m (redact_marker m2 fuel l).
Proof.
  intros Hm Hm2. destruct (marker_nonempty m Hm) as [_ Hnil], (marker_nonempty m2 Hm2) as [Hpos _].
  revert l. induction fuel as [|fuel IH]; intros l Hlen Hor.
  { destruct l; [|simpl in Hlen; lia]. intros a b [-> ->]%eq_sym%app_eq_nil.
    by cbn; rewrite Hnil. }
  destruct l as [|c l]; [intros a b [-> ->]%eq_sym%app_eq_nil; by cbn; rewrite Hnil|].
  cbn [redact_marker]. destruct (starts_with m2 (lower (c :: l))) eqn:Hs.
  - set (l0 := c :: l) in *. apply starts_with_lower in Hs as [Hn Hlow].
    apply (followed_match m m2); [done..|]. apply IH.
    { pose proof (length_from_whitespace (drop (length m2) l0)) as Hle.
      rewrite length_drop in Hle. lia. }
    destruct Hor as [?|Hor]; [by left|right].
    destruct (from_whitespace_suffix (drop (length m2) l0)) as [u Hu].
    apply (followed_suffix m (take (length m2) l0 ++ u)). by rewrite <- app_assoc, <- Hu, take_drop.
  - intros [|d a] b Hab Hb; simpl in Hab.
    + subst b. pose proof (followed_head m m2 (S fuel) (c :: l) Hm Hm2 Hlen Hs Hor) as Hh.
      cbn [redact_marker] in Hh. rewrite Hs in Hh. by apply Hh.
    + injection Hab as -> Hab. eapply (IH l); [simpl in Hlen; lia| |done..].
      destruct Hor as [?|Hor]; [by left|right]. by apply (followed_suffix m [d]).
Qed.

Lemma redact_marker_elem m fuel l c :
  c ∈ redact_marker m fuel l → c ∈ l ∨ c ∈ redacted.
Proof.
  revert l. induction fuel as [|fuel IH]; intros l; [by left|].
  destruct l as [|d l]; [by left|]. cbn [redact_marker]. case_match.
  - rewrite !elem_of_app. intros [Hc|[Hc|Hc%IH]]; [|by right|].
    + left. apply elem_of_take in Hc as (i & Hi & _). by eapply list_elem_of_lookup_2.
    + destruct Hc as [Hc|?]; [left|by right].
      destruct (from_whitespace_suffix (drop (length m) (d :: l))) as [u Hu].
      rewrite <- (take_drop (length m) (d :: l)), Hu. set_solver.
  - rewrite !elem_of_cons. intros [->|[?|?]%IH]; auto.
Qed.

(** The passes run in order, and each keeps what the earlier ones achieved. *)
Lemma redact_passes l done_ todo :
  (∀ m, m ∈ done_ ++ todo → m ∈ message_markers) → (∀ m, m ∈ done_ → followed m l) →
  ∀ m, m ∈ done_ ++ todo →
    followed m (foldl (λ output marker, redact_marker marker (length output) output) l todo).
Proof.
  revert l done_. induction todo as [|m2 todo IH]; intros l done_ Hin Hdone m Hm; simpl.
  - rewrite app_nil_r in Hm. auto.
  - apply (IH _ (done_ ++ [m2])); rewrite <- ?app_assoc; [done| |done].
    intros m' [Hm'| ->%list_elem_of_singleton]%elem_of_app; apply redact_marker_followed;
      try done; try (by left); try (by right; apply Hdone); apply Hin; set_solver.
Qed.

Lemma redact_message_followed message m :
  m ∈ message_markers → followed m (redact_message message).
Proof. intros Hm. by apply (redact_passes _ []); [|intros ? ?%elem_of_nil|]. Qed.

(** What holds of the placeholder and of the blanked message holds of the output. *)
Lemma redact_message_all (P : ascii → Prop) message :
  Forall P redacted → (∀ c, c ∈ bytes message → P (blank_newline c)) →
  ∀ c, c ∈ redact_message message → P c.
Proof.
  intros Hred Hm. unfold redact_message.
  assert (∀ c, c ∈ blank_newline <$> bytes message → P c) as Hl
    by (intros c (x & -> & ?)%list_elem_of_fmap; auto).
  revert Hl. generalize (blank_newline <$> bytes message), message_markers.
  intros l ms. revert l. induction ms as [|m ms IH]; intros l Hl; simpl; [apply Hl|].
  apply IH. rewrite Forall_forall in Hred. intros e [?|?]%redact_marker_elem; auto.
Qed.

Lemma redact_message_one_line message c : c ∈ redact_message message → c ≠ cr ∧ c ≠ lf.
Proof.
  revert c. apply redact_message_all; [by repeat constructor|]. intros x _. unfold blank_newline.
  destruct (bool_decide (x = cr)) eqn:H1; [done|]. destruct (bool_decide (x = lf)) eqn:H2; [done|].
  rewrite bool_decide_eq_false in *. done.
Qed.

(** Log messages are redacted.  Whenever [sanitize_adapter_message] returns, the text is one
    line of at most 1000 bytes, and every occurrence in it of one of the five markers, in any
    case, is directly followed by the placeholder (up to where the text was cut). *)
Theorem sanitized_messages_are_redacted {E} message out :
  sanitize_adapter_message (E:=E) message = Ok out →
  str_len out ≤ 1000 ∧ cr ∉ bytes out ∧ lf ∉ bytes out ∧
  ∀ m a b, m ∈ message_markers → bytes out = a ++ b → starts_with m (lower b) = true →
    redacted `prefix_of` drop (length m) b ∨ drop (length m) b `prefix_of` redacted.
Proof.
  unfold sanitize_adapter_message, str_len. intros (l & Ht & [= <-])%outcome_bind_ok.
  rewrite bytes_of_bytes. apply truncate_prefix in Ht as [[r Hr] Hlen].
  assert (∀ c, c ∈ l → c ≠ cr ∧ c ≠ lf) as Hline.
  { intros c Hc. apply (redact_message_one_line message). rewrite Hr. set_solver. }
  split_and!; [done|by intros []%Hline|by intros []%Hline|].
  intros m a b Hm -> Hb.
  destruct (redact_message_followed message m Hm a (b ++ r)) as [x Hx].
  - by rewrite Hr, app_assoc.
  - rewrite lower_app. apply starts_with_spec in Hb as [y ->]. rewrite <- app_assoc.
    apply starts_with_app.
  - apply starts_with_lower in Hb as [Hle _]. rewrite drop_app_le in Hx by done.
    apply (prefix_weak_total _ _ (redacted ++ x)); [by exists x|]. rewrite <- Hx. by exists r.
Qed.

Lemma sanitized_messages_are_redacted_witness :
  sanitize_adapter_message (E:=()) "call failed: API_KEY=abc123 retry" =
    Ok "call failed: API_KEY=[REDACTED] retry" ∧
  str_len "call failed: API_KEY=[REDACTED] retry" ≤ 1000.
Proof.
  split; [vm_compute; reflexivity|].
  apply (sanitized_messages_are_redacted (E:=()) "call failed: API_KEY=abc123 retry").
  vm_compute. reflexivity.
Defined.

(** ASCII messages never panic, whatever their length. *)
Lemma sanitize_ascii {E} message :
  Forall (λ c, is_continuation c = false) (bytes message) →
  ∃ out, sanitize_adapter_message (E:=E) message = Ok out.
Proof.
  intros Hm. unfold sanitize_adapter_message. rewrite truncate_ascii; [by eexists|].
  apply Forall_forall, redact_message_all; [by repeat constructor|].
  rewrite Forall_forall in Hm. intros x Hx. unfold blank_newline. case_match; auto.
Qed.

(** Truncation is by bytes: a message whose byte 1000 lies inside a character makes the manager
    panic while it writes a log line. *)
Theorem long_messages_can_panic :
  ∃ message, sanitize_adapter_message (E:=()) message = Panic.
Proof.
  exists (of_bytes (replicate 999 "a"%char ++ [ascii_of_N 0xC3; ascii_of_N 0xA9])).
  vm_compute. reflexivity.
Qed.

(** The marker for the authorization header redacts the text up to the first white space, which
    in a header comes before the credential: the credential stays in the log. *)
Theorem authorization_credentials_are_kept :
  sanitize_adapter_message (E:=()) "request failed: Authorization: Bearer s3cr3t" =
    Ok "request failed: Authorization:[REDACTED] Bearer s3cr3t".
Proof. vm_compute. reflexivity. Qed.
