(* ===== verification/McpModel.v ===== *)
(** * MCP servers: definitions, catalogs and permissions

    Models the data types of [crates/mcp-manager/src/lib.rs] and its pure functions:
    the validation of definitions, transports, bindings and recipes, protocol negotiation,
    the normalization of a server's catalog, permission resolution and the light check of
    tool arguments.  URL parsing and SHA-256 are the interfaces [UrlLib] and [Digests]. *)

From stdpp Require Import base gmap strings list pretty.
From Stdlib Require Import Ascii SpecFloat.
From S2P Require Import Prelude Text McpText.

(** ** Interfaces to libraries *)

Record Url : Type := mkUrl { url_scheme : string; url_host_str : option string }.

(** [Url::parse] of the url library: the parsed parts the code reads, or the text of the
    error. *)
Class UrlLib : Type := { url_parse : string → string + Url }.

(** ** Data *)

Record KeychainReference : Type := mkKeychainReference {
  kr_reference_id : string;
  kr_service : string;
  kr_account_hint : string;
}.

Record OAuthReference : Type := mkOAuthReference {
  or_grant_id : string;
  or_issuer : string;
  or_client_id : string;
  or_scopes : gset string;
  or_credential : KeychainReference;
  or_expires_at : option DateTime;
}.

Inductive BindingValue : Type :=
  | NonSecret (value : string)
  | Keychain (reference : KeychainReference).

(** [EnvironmentBinding] and [HeaderBinding]: a name and a value. *)
Record Binding : Type := mkBinding { bi_name : string; bi_value : BindingValue }.

Inductive TransportDefinition : Type :=
  | Stdio (executable : string) (arguments : list string) (working_directory : option string)
      (environment : list Binding)
  | StreamableHttp (endpoint : string) (stateless : bool) (headers : list Binding)
      (oauth : option OAuthReference)
  | LegacySse (endpoint : string) (headers : list Binding) (oauth : option OAuthReference).

Inductive ServerSource : Type :=
  | Catalog (catalog_id publisher : string)
  | Manual
  | Imported (application : string)
  | LocalPackage (package : string)
  | Remote (origin : string).

Record InstallRecipe : Type := mkInstallRecipe {
  ir_program : string;
  ir_arguments : list string;
  ir_expected_artifact_sha256 : option string;
  ir_source_url : option string;
}.

(** [digest_json] and [digest_text]: the hexadecimal SHA-256 of the serialized recipe and of
    a text. *)
Class Digests : Type := {
  digest_json : InstallRecipe → string;
  digest_text : string → string;
}.

Record OperationConsent : Type := mkOperationConsent {
  oc_operation_digest : string;
  oc_displayed_text : string;
  oc_accepted_at : DateTime;
  oc_user_confirmed : bool;
}.

(** A [ProtocolVersion] is its text. *)
Record ServerDefinition : Type := mkServerDefinition {
  sd_id : Uuid;
  sd_name : string;
  sd_namespace : string;
  sd_description : string;
  sd_source : ServerSource;
  sd_transport : TransportDefinition;
  sd_supported_protocols : gset string;
  sd_preferred_protocol : string;
  sd_install : option InstallRecipe;
  sd_project_scopes : gset string;
  sd_agent_scopes : gset string;
  sd_tags : gset string;
}.
Global Instance eta_definition : Eta ServerDefinition := λ r,
  mkServerDefinition (sd_id r) (sd_name r) (sd_namespace r) (sd_description r) (sd_source r)
    (sd_transport r) (sd_supported_protocols r) (sd_preferred_protocol r) (sd_install r)
    (sd_project_scopes r) (sd_agent_scopes r) (sd_tags r).

Inductive LifecycleState : Type :=
  | Draft
  | InstallConsentRequired
  | Installing
  | Disabled
  | Connecting
  | Connected
  | Degraded
  | AuthenticationRequired
  | Crashed
  | UpdateAvailable
  | Updating
  | RollbackAvailable
  | Uninstalling
  | Uninstalled.
Global Instance lifecycle_eq_dec : EqDecision LifecycleState.
Proof. solve_decision. Defined.

(** [f32] values: IEEE 754 binary32. *)
Definition f32 : Type := spec_float.
Definition f32_mul (a b : f32) : f32 := SFmul 24 128 a b.
Definition f32_add (a b : f32) : f32 := SFadd 24 128 a b.
(** [f32::min]: a NaN is ignored in favour of the other operand. *)
Definition f32_min (a b : f32) : f32 :=
  match a, b with
  | S754_nan, _ => b
  | _, S754_nan => a
  | _, _ => if SFleb a b then a else b
  end.
Definition f32_0 : f32 := S754_zero false.
Definition f32_1 : f32 := S754_finite false 8388608 (-23).
Definition f32_0_8 : f32 := S754_finite false 13421773 (-24).
Definition f32_0_2 : f32 := S754_finite false 13421773 (-26).

Record HealthStatus : Type := mkHealthStatus {
  hs_healthy : bool;
  hs_checked_at : DateTime;
  hs_latency_ms : option N;
  hs_error_rate : f32;
  hs_consecutive_failures : N;
  hs_message : string;
}.

Record InstalledRelease : Type := mkInstalledRelease {
  rl_version : string;
  rl_installed_at : DateTime;
  rl_artifact_sha256 : option string;
  rl_recipe : option InstallRecipe;
}.
Global Instance eta_release : Eta InstalledRelease := λ r,
  mkInstalledRelease (rl_version r) (rl_installed_at r) (rl_artifact_sha256 r) (rl_recipe r).

Record UpdatePlan : Type := mkUpdatePlan {
  up_target_version : string;
  up_release_notes_url : option string;
  up_recipe : InstallRecipe;
}.

Record ToolAnnotations : Type := mkToolAnnotations {
  ta_read_only : bool;
  ta_destructive : bool;
  ta_idempotent : bool;
  ta_open_world : bool;
}.

Record ToolDescriptor : Type := mkToolDescriptor {
  td_name : string;
  td_title : option string;
  td_description : string;
  td_input_schema : Value;
  td_output_schema : option Value;
  td_annotations : ToolAnnotations;
  td_resolved_name : string;
}.
Global Instance eta_tool : Eta ToolDescriptor := λ r,
  mkToolDescriptor (td_name r) (td_title r) (td_description r) (td_input_schema r)
    (td_output_schema r) (td_annotations r) (td_resolved_name r).

Record ResourceDescriptor : Type := mkResourceDescriptor {
  rd_uri : string;
  rd_name : string;
  rd_description : string;
  rd_mime_type : option string;
}.

Record PromptDescriptor : Type := mkPromptDescriptor {
  pd_name : string;
  pd_description : string;
  pd_arguments_schema : option Value;
}.

Record CapabilityCatalog : Type := mkCapabilityCatalog {
  ca_tools : list ToolDescriptor;
  ca_resources : list ResourceDescriptor;
  ca_prompts : list PromptDescriptor;
  ca_supports_logging : bool;
  ca_supports_completions : bool;
  ca_supports_resource_subscriptions : bool;
}.
Global Instance eta_catalog : Eta CapabilityCatalog := λ r,
  mkCapabilityCatalog (ca_tools r) (ca_resources r) (ca_prompts r) (ca_supports_logging r)
    (ca_supports_completions r) (ca_supports_resource_subscriptions r).
Definition catalog_default : CapabilityCatalog := mkCapabilityCatalog [] [] [] false false false.

Inductive PermissionDecision : Type := Allow | Ask | Deny.
Global Instance permission_decision_eq_dec : EqDecision PermissionDecision.
Proof. solve_decision. Defined.

Inductive PermissionScope : Type :=
  | ScopeGlobal
  | ScopeProfile (id : string)
  | ScopeWorkspace (id : string)
  | ScopeAgent (id : string).
Global Instance permission_scope_eq_dec : EqDecision PermissionScope.
Proof. solve_decision. Defined.

Record ToolPermissionRule : Type := mkToolPermissionRule {
  pr_tool : string;
  pr_scope : PermissionScope;
  pr_decision : PermissionDecision;
  pr_execution_zone : string;
  pr_max_calls_per_minute : N;
  pr_timeout_ms : N;
  pr_max_output_bytes : N;
}.

Record InvocationContext : Type := mkInvocationContext {
  ic_profile_id : option string;
  ic_workspace_id : option string;
  ic_agent_id : option string;
  ic_user_confirmed : bool;
}.

Inductive ManagerError : Type :=
  | MissingServer (id : Uuid)
  | NamespaceCollision (s : string)
  | InvalidDefinition (s : string)
  | InvalidTransport (s : string)
  | InvalidProtocolVersion (s : string)
  | ProtocolMismatch
  | ConsentRequired
  | ConsentMismatch
  | InvalidState (st : LifecycleState)
  | MissingTool (s : string)
  | ToolDenied (s : string)
  | InvalidArguments (s : string)
  | Adapter (s : string)
  | InvalidImport (s : string)
  | RollbackUnavailable.

Abbreviation Res := (outcome ManagerError).

Definition lifecycle_debug (st : LifecycleState) : string :=
  match st with
  | Draft => "Draft"
  | InstallConsentRequired => "InstallConsentRequired"
  | Installing => "Installing"
  | Disabled => "Disabled"
  | Connecting => "Connecting"
  | Connected => "Connected"
  | Degraded => "Degraded"
  | AuthenticationRequired => "AuthenticationRequired"
  | Crashed => "Crashed"
  | UpdateAvailable => "UpdateAvailable"
  | Updating => "Updating"
  | RollbackAvailable => "RollbackAvailable"
  | Uninstalling => "Uninstalling"
  | Uninstalled => "Uninstalled"
  end.

Definition error_to_string `{UuidText} (e : ManagerError) : string :=
  match e with
  | MissingServer id => "server does not exist: " +:+ uuid_to_string id
  | NamespaceCollision s => "server namespace is already in use: " +:+ s
  | InvalidDefinition s => "server definition is invalid: " +:+ s
  | InvalidTransport s => "transport is invalid: " +:+ s
  | InvalidProtocolVersion s => "protocol version is invalid: " +:+ s
  | ProtocolMismatch => "no mutually supported MCP protocol revision"
  | ConsentRequired => "operation requires exact, explicit user consent"
  | ConsentMismatch => "operation consent does not match the displayed operation"
  | InvalidState st =>
      "server is not in a state that supports this operation: " +:+ lifecycle_debug st
  | MissingTool s => "tool does not exist: " +:+ s
  | ToolDenied s => "tool access is denied by MCP manager policy: " +:+ s
  | InvalidArguments s =>
      "tool arguments do not conform to the advertised input schema: " +:+ s
  | Adapter s => "adapter operation failed: " +:+ s
  | InvalidImport s => "import is invalid: " +:+ s
  | RollbackUnavailable => "no rollback release is available"
  end.

(** ** Protocol versions *)

Definition current_protocol : string := "2026-07-28".

(** [ProtocolVersion::new]: ten bytes with dashes at 4 and 7 and digits elsewhere.  All ten
    being ASCII, characters and bytes agree. *)
Definition protocol_version_ok (value : string) : bool :=
  (str_len value =? 10)
  && bool_decide (bytes value !! 4 = Some "-"%char)
  && bool_decide (bytes value !! 7 = Some "-"%char)
  && forallb (λ ic : nat * ascii,
       (ic.1 =? 4) || (ic.1 =? 7) || is_ascii_digit ic.2)
       (imap (λ i c, (i, c)) (bytes value)).

Definition protocol_version_new (value : string) : Res string :=
  if protocol_version_ok value then Ok value else Err (InvalidProtocolVersion value).

Definition negotiate_protocol (client server : gset string) : option string :=
  set_last (client ∩ server).

Definition label (t : TransportDefinition) : string :=
  match t with
  | Stdio _ _ _ _ => "stdio"
  | StreamableHttp _ true _ _ => "Streamable HTTP (stateless)"
  | StreamableHttp _ false _ _ => "Streamable HTTP (session)"
  | LegacySse _ _ _ => "Legacy HTTP + SSE"
  end.

Definition display_command (r : InstallRecipe) : string :=
  join " " (shell_display_word <$> ir_program r :: ir_arguments r).

(** ** Validation *)

Section validation.
Context `{UrlLib}.

Definition validate_install_recipe (recipe : InstallRecipe) : Res () :=
  _ ← ensure_not (is_blank (ir_program recipe) || contains_byte nul (ir_program recipe))
        (InvalidDefinition "install program is blank or invalid");
  _ ← ensure_not (existsb (contains_byte nul) (ir_arguments recipe))
        (InvalidDefinition "install argument contains a null byte");
  _ ← (match ir_expected_artifact_sha256 recipe with
       | Some digest =>
         ensure_not (negb (str_len digest =? 64) || negb (forallb is_ascii_hexdigit (bytes digest)))
           (InvalidDefinition "artifact SHA-256 is invalid")
       | None => Ok ()
       end);
  match ir_source_url recipe with
  | Some source =>
    match url_parse source with
    | inl e => Err (InvalidDefinition e)
    | inr url =>
      ensure_not (negb (bool_decide (url_scheme url = "https")))
        (InvalidDefinition "package source must use HTTPS")
    end
  | None => Ok ()
  end.

Definition validate_binding (name : string) (value : BindingValue) (environment : bool) : Res () :=
  _ ← ensure_not (is_blank name || contains_any [cr; lf; nul] name)
        (InvalidTransport "invalid binding name");
  _ ← ensure_not (is_sensitive_name name && match value with NonSecret _ => true | _ => false end)
        (InvalidTransport ("credential-like "
           +:+ (if environment then "environment variable" else "header") +:+ " " +:+ name
           +:+ " must use an OS-keychain reference"));
  match value with
  | NonSecret v =>
    ensure_not (contains_byte nul v) (InvalidTransport "binding contains a null byte")
  | Keychain r =>
    ensure_not (is_blank (kr_reference_id r) || is_blank (kr_service r))
      (InvalidTransport "keychain reference is incomplete")
  end.

(** The loop over the bindings of a transport: each is valid, and no two have the same
    name up to case. *)
Fixpoint validate_bindings (environment : bool) (case : string → string) (what : string)
    (names : gset string) (bindings : list Binding) : Res () :=
  match bindings with
  | [] => Ok ()
  | b :: bindings =>
    _ ← validate_binding (bi_name b) (bi_value b) environment;
    _ ← ensure_not (bool_decide (case (bi_name b) ∈ names)) (InvalidTransport (what +:+ bi_name b));
    validate_bindings environment case what ({[case (bi_name b)]} ∪ names) bindings
  end.

Definition validate_endpoint (endpoint : string) (headers : list Binding) : Res () :=
  match url_parse endpoint with
  | inl e => Err (InvalidTransport e)
  | inr url =>
    let loopback := match url_host_str url with
      | Some host => bool_decide (host ∈ ["localhost"; "127.0.0.1"; "::1"])
      | None => false
      end in
    _ ← ensure_not (negb (bool_decide (url_scheme url = "https"))
                    && negb (bool_decide (url_scheme url = "http") && loopback))
          (InvalidTransport "remote MCP endpoints must use HTTPS");
    validate_bindings false to_ascii_lowercase "duplicate header " ∅ headers
  end.

Definition validate_transport (t : TransportDefinition) : Res () :=
  match t with
  | Stdio executable _ _ environment =>
    _ ← ensure_not (is_blank executable || contains_byte nul executable)
          (InvalidTransport "stdio executable is blank or invalid");
    validate_bindings true to_ascii_uppercase "duplicate environment binding " ∅ environment
  | StreamableHttp endpoint _ headers _ => validate_endpoint endpoint headers
  | LegacySse endpoint headers _ => validate_endpoint endpoint headers
  end.

Definition validate_definition (d : ServerDefinition) : Res () :=
  _ ← ensure_not (is_blank (sd_name d)) (InvalidDefinition "name is blank");
  _ ← ensure_not (negb (bool_decide (sanitize_identifier (sd_namespace d) = sd_namespace d))
                  || is_empty (sd_namespace d))
        (InvalidDefinition "namespace must contain lowercase letters, numbers, and underscores");
  _ ← ensure_not (bool_decide (sd_supported_protocols d = ∅)
                  || negb (bool_decide (sd_preferred_protocol d ∈ sd_supported_protocols d)))
        (InvalidDefinition "preferred protocol must be present in supported protocols");
  _ ← validate_transport (sd_transport d);
  match sd_install d with Some recipe => validate_install_recipe recipe | None => Ok () end.
End validation.

Definition validate_permission (rule : ToolPermissionRule) : Res () :=
  ensure_not (is_blank (pr_tool rule) || is_blank (pr_execution_zone rule)
              || (pr_max_calls_per_minute rule =? 0)%N || (pr_timeout_ms rule =? 0)%N
              || (pr_max_output_bytes rule =? 0)%N)
    (InvalidDefinition "permission rule has an empty or zero limit").

Definition verify_consent (consent : OperationConsent) (digest displayed_text : string) : Res () :=
  _ ← ensure_not (negb (oc_user_confirmed consent)) ConsentRequired;
  ensure_not (negb (bool_decide (oc_operation_digest consent = digest))
              || negb (bool_decide (oc_displayed_text consent = displayed_text)))
    ConsentMismatch.

(** ** Catalogs *)

(** [while occupied.contains(&resolved) || local_names.contains(&resolved)]: [None] when the
    fuel runs out. *)
Fixpoint free_name (fuel : nat) (taken : gset string) (base resolved : string) (suffix : N)
    : option string :=
  if bool_decide (resolved ∈ taken) then
    match fuel with
    | O => None
    | S fuel =>
      free_name fuel taken base (base +:+ "_" +:+ pretty suffix) (sat_add u32_max suffix 1)
    end
  else Some resolved.

Definition empty_schema : Value :=
  VObject [("properties", VObject []); ("type", VString "object")].

(** The loop over the tools.  [occupied] holds the names of the other servers and of the tools
    before this one, so that it contains [local_names] too. *)
Fixpoint normalize_tools (namespace : string) (occupied : gset string)
    (tools : list ToolDescriptor) : option (Res (list ToolDescriptor)) :=
  match tools with
  | [] => Some (Ok [])
  | tool :: tools =>
    let normalized := sanitize_identifier (td_name tool) in
    if is_empty normalized then
      Some (Err (InvalidDefinition ("tool name is invalid: " +:+ td_name tool)))
    else
      let base := namespace +:+ "." +:+ normalized in
      match free_name (size occupied) occupied base base 2 with
      | None => None
      | Some resolved =>
        let tool := tool <| td_resolved_name := resolved |> in
        let tool := if is_object (td_input_schema tool) then tool
                    else tool <| td_input_schema := empty_schema |> in
        match normalize_tools namespace ({[resolved]} ∪ occupied) tools with
        | Some (Ok tools) => Some (Ok (tool :: tools))
        | other => other
        end
      end
  end.

(** [None] stands for a loop that does not end. *)
Definition normalize_catalog (namespace : string) (catalog : CapabilityCatalog)
    (occupied : gset string) : option (Res CapabilityCatalog) :=
  match normalize_tools namespace occupied (ca_tools catalog) with
  | Some (Ok tools) => Some (Ok (catalog <| ca_tools := tools |>))
  | Some (Err e) => Some (Err e)
  | Some Panic => Some Panic
  | None => None
  end.

(** ** Permissions *)

Definition conservative_rule (tool : string) : ToolPermissionRule :=
  mkToolPermissionRule tool ScopeGlobal Ask "mcp-restricted" 30 30000 1048576.

Definition rule_key (r : ToolPermissionRule) : string * PermissionScope := (pr_tool r, pr_scope r).

(** The rules [seed_conservative_permissions] adds: one for each tool without a global rule
    when the seeding starts. *)
Definition seeded_rules (permissions : list ToolPermissionRule) (tools : list ToolDescriptor)
    : list ToolPermissionRule :=
  permissions ++
  ((λ t, conservative_rule (td_resolved_name t)) <$>
    filter (λ t, (td_resolved_name t, ScopeGlobal) ∉ (rule_key <$> permissions)) tools).

Definition candidate_scopes (context : InvocationContext) : list PermissionScope :=
  omap id [ScopeAgent <$> ic_agent_id context; ScopeWorkspace <$> ic_workspace_id context;
           ScopeProfile <$> ic_profile_id context; Some ScopeGlobal].

Definition rule_for (rules : list ToolPermissionRule) (tool_name : string)
    (scope : PermissionScope) : option ToolPermissionRule :=
  find (λ r, bool_decide (pr_tool r = tool_name) && bool_decide (pr_scope r = scope)) rules.

Definition resolve_permission (rules : list ToolPermissionRule) (tool_name : string)
    (context : InvocationContext) : ToolPermissionRule :=
  match omap (rule_for rules tool_name) (candidate_scopes context) with
  | rule :: _ => rule
  | [] => conservative_rule tool_name
  end.

(** ** Tool arguments *)

Definition json_type_matches (expected : string) (value : Value) : bool :=
  if bool_decide (expected = "string") then match value with VString _ => true | _ => false end
  else if bool_decide (expected = "number") then is_number value
  else if bool_decide (expected = "integer") then is_integer value
  else if bool_decide (expected = "boolean") then match value with VBool _ => true | _ => false end
  else if bool_decide (expected = "object") then is_object value
  else if bool_decide (expected = "array") then match value with VArray _ => true | _ => false end
  else if bool_decide (expected = "null") then match value with VNull => true | _ => false end
  else true.

Definition has_key (key : string) (map : list (string * Value)) : bool :=
  bool_decide (key ∈ map.*1).

Definition check_required (object : list (string * Value)) (field : Value) : Res () :=
  match as_str field with
  | Some field => ensure_not (negb (has_key field object))
      (InvalidArguments ("required field is missing: " +:+ field))
  | None => Ok ()
  end.

Definition check_type (properties : list (string * Value)) (kv : string * Value) : Res () :=
  match object_get kv.1 properties ≫= get_str "type" with
  | Some expected => ensure_not (negb (json_type_matches expected kv.2))
      (InvalidArguments ("field " +:+ kv.1 +:+ " must be " +:+ expected))
  | None => Ok ()
  end.

Definition validate_json_arguments (schema arguments : Value) : Res () :=
  _ ← ensure_not (bool_decide (get_str "type" schema = Some "object") && negb (is_object arguments))
        (InvalidArguments "tool expects an object");
  match as_object arguments with
  | None => Ok ()
  | Some object =>
    _ ← try_for_each (check_required object) (default [] (get_array "required" schema));
    _ ← (match value_get "additionalProperties" schema ≫= as_bool, get_object "properties" schema with
         | Some false, Some properties =>
           match find (λ kv : string * Value, negb (has_key kv.1 properties)) object with
           | Some (field, _) => Err (InvalidArguments ("unknown field: " +:+ field))
           | None => Ok ()
           end
         | _, _ => Ok ()
         end);
    match get_object "properties" schema with
    | Some properties => try_for_each (check_type properties) object
    | None => Ok ()
    end
  end.

(** ** Properties of definitions *)

Definition transport_bindings (t : TransportDefinition) : list Binding :=
  match t with
  | Stdio _ _ _ environment => environment
  | StreamableHttp _ _ headers _ => headers
  | LegacySse _ headers _ => headers
  end.

Definition transport_endpoint (t : TransportDefinition) : option string :=
  match t with
  | Stdio _ _ _ _ => None
  | StreamableHttp endpoint _ _ _ => Some endpoint
  | LegacySse endpoint _ _ => Some endpoint
  end.

(** Names are compared without case. *)
Definition binding_key (t : TransportDefinition) (b : Binding) : string :=
  match t with Stdio _ _ _ _ => to_ascii_uppercase (bi_name b) | _ => to_ascii_lowercase (bi_name b) end.

Section validation_theorems.
Context `{UrlLib}.

Lemma validate_binding_ok name value environment :
  validate_binding name value environment = Ok () →
  is_sensitive_name name = true → ∃ r, value = Keychain r.
Proof.
  unfold validate_binding. rewrite !outcome_seq_ok, !ensure_not_ok. intros (_ & Hs & _) Hn.
  rewrite Hn in Hs. destruct value; [done|by eexists].
Qed.

Lemma validate_bindings_ok environment case what names bindings :
  validate_bindings environment case what names bindings = Ok () →
  NoDup ((λ b, case (bi_name b)) <$> bindings) ∧
  ∀ b, b ∈ bindings → case (bi_name b) ∉ names ∧
    (is_sensitive_name (bi_name b) = true → ∃ r, bi_value b = Keychain r).
Proof.
  revert names. induction bindings as [|b bindings IH]; intros names; simpl.
  { intros _. split; [constructor|]. by intros ? ?%elem_of_nil. }
  rewrite !outcome_seq_ok, ensure_not_ok, bool_decide_eq_false. intros (Hb & Hn & Hrest).
  apply IH in Hrest as [Hnd Hall]. split.
  - constructor; [|done]. intros (b' & Heq & Hb')%list_elem_of_fmap.
    destruct (Hall b' Hb') as [Hnot _]. set_solver.
  - intros b' [->|Hb']%elem_of_cons.
    + split; [done|]. by eapply validate_binding_ok.
    + destruct (Hall b' Hb') as [Hnot ?]. split; [set_solver|done].
Qed.

Lemma validate_endpoint_ok endpoint headers :
  validate_endpoint endpoint headers = Ok () →
  (∃ url, url_parse endpoint = inr url ∧
    (url_scheme url = "https" ∨ url_scheme url = "http" ∧
       ∃ host, url_host_str url = Some host ∧ host ∈ ["localhost"; "127.0.0.1"; "::1"])) ∧
  validate_bindings false to_ascii_lowercase "duplicate header " ∅ headers = Ok ().
Proof.
  unfold validate_endpoint. destruct (url_parse endpoint) as [e|url]; [done|].
  rewrite outcome_seq_ok, ensure_not_ok. intros [Hs Hb]. split; [|done]. exists url. split; [done|].
  destruct (bool_decide_reflect (url_scheme url = "https")) as [|_]; [by left|right].
  destruct (bool_decide_reflect (url_scheme url = "http")) as [|_]; [|done]. split; [done|].
  destruct (url_host_str url) as [host|]; [|done].
  exists host. split; [done|]. by destruct (bool_decide_reflect (host ∈ ["localhost"; "127.0.0.1"; "::1"])).
Qed.

Lemma validate_binding_no_panic name value environment :
  validate_binding name value environment ≠ Panic.
Proof. unfold validate_binding, ensure_not. munfold. repeat case_match; done. Qed.

Lemma validate_bindings_no_panic environment case what names bindings :
  validate_bindings environment case what names bindings ≠ Panic.
Proof.
  revert names. induction bindings as [|b bindings IH]; intros names; simpl; [done|].
  pose proof (validate_binding_no_panic (bi_name b) (bi_value b) environment).
  unfold ensure_not. munfold. destruct (validate_binding _ _ _); [|done..].
  case_bool_decide; [done|]. apply IH.
Qed.

Lemma validate_definition_no_panic d : validate_definition d ≠ Panic.
Proof.
  assert (validate_transport (sd_transport d) ≠ Panic) as Ht.
  { destruct (sd_transport d); simpl; unfold validate_endpoint, ensure_not; munfold;
      repeat case_match; try done; apply validate_bindings_no_panic. }
  assert (∀ recipe, validate_install_recipe recipe ≠ Panic) as Hr.
  { intros recipe. unfold validate_install_recipe, ensure_not. munfold. repeat case_match; done. }
  unfold validate_definition, ensure_not. munfold.
  destruct (validate_transport (sd_transport d)); repeat case_match; try done; apply Hr.
Qed.

Lemma validate_definition_ok d :
  validate_definition d = Ok () →
  identifier (bytes (sd_namespace d)) ∧ sd_namespace d ≠ "" ∧
  sd_preferred_protocol d ∈ sd_supported_protocols d ∧
  (∀ endpoint, transport_endpoint (sd_transport d) = Some endpoint →
     ∃ url, url_parse endpoint = inr url ∧
       (url_scheme url = "https" ∨ url_scheme url = "http" ∧
          ∃ host, url_host_str url = Some host ∧ host ∈ ["localhost"; "127.0.0.1"; "::1"])) ∧
  NoDup (binding_key (sd_transport d) <$> transport_bindings (sd_transport d)) ∧
  (∀ b, b ∈ transport_bindings (sd_transport d) →
     is_sensitive_name (bi_name b) = true → ∃ r, bi_value b = Keychain r).
Proof.
  unfold validate_definition.
  rewrite !outcome_seq_ok, !ensure_not_ok, !orb_false_iff, !negb_false_iff, !bool_decide_eq_true.
  intros (_ & [Hid Hne] & [_ Hpref] & Htr & _). split_and!.
  - by apply sanitize_identifier_fixed_iff.
  - unfold is_empty in Hne. by rewrite bool_decide_eq_false in Hne.
  - done.
  - destruct (sd_transport d); simpl; [done|..]; intros ? [= <-];
      by apply validate_endpoint_ok in Htr as [? _].
  - destruct (sd_transport d); simpl in *; rewrite ?outcome_seq_ok in Htr;
      [destruct Htr as [_ Htr]|apply validate_endpoint_ok in Htr as [_ Htr]..];
      by apply validate_bindings_ok in Htr as [? _].
  - destruct (sd_transport d); simpl in *; rewrite ?outcome_seq_ok in Htr;
      [destruct Htr as [_ Htr]|apply validate_endpoint_ok in Htr as [_ Htr]..];
      apply validate_bindings_ok in Htr as [_ Hall]; intros b Hb; by apply Hall.
Qed.
(** Accepted definitions are safe to persist.  A definition that passes [validate_definition]
    has an identifier as its namespace and supports its preferred protocol; a remote endpoint
    uses HTTPS, or HTTP to the loopback host; binding names are distinct up to case; and every
    binding with a credential-like name is a keychain reference, never a literal. *)
Theorem valid_definitions_hold_no_credentials d :
  validate_definition d = Ok () →
  identifier (bytes (sd_namespace d)) ∧ sd_namespace d ≠ "" ∧
  sd_preferred_protocol d ∈ sd_supported_protocols d ∧
  (∀ endpoint, transport_endpoint (sd_transport d) = Some endpoint →
     ∃ url, url_parse endpoint = inr url ∧
       (url_scheme url = "https" ∨ url_scheme url = "http" ∧
          ∃ host, url_host_str url = Some host ∧ host ∈ ["localhost"; "127.0.0.1"; "::1"])) ∧
  NoDup (binding_key (sd_transport d) <$> transport_bindings (sd_transport d)) ∧
  (∀ b, b ∈ transport_bindings (sd_transport d) →
     is_sensitive_name (bi_name b) = true → ∃ r, bi_value b = Keychain r).
Proof. apply validate_definition_ok. Qed.
End validation_theorems.

(** ** Catalog names are resolved, and resolution terminates *)

Definition suffixed (base : string) (s : N) : string := base +:+ "_" +:+ pretty s.

Lemma suffixed_inj base s t : suffixed base s = suffixed base t → s = t.
Proof.
  unfold suffixed. intros Heq%(f_equal bytes). rewrite !bytes_app in Heq.
  apply (inj (bytes base ++.)), (inj (bytes "_" ++.)), bytes_inj in Heq. by apply (inj pretty) in Heq.
Qed.

Lemma suffixed_ne base s : suffixed base s ≠ base.
Proof.
  unfold suffixed. intros Heq%(f_equal (λ s, length (bytes s))).
  rewrite !bytes_app, !length_app in Heq. simpl in Heq. lia.
Qed.

Lemma free_name_Some fuel taken base resolved suffix r :
  free_name fuel taken base resolved suffix = Some r →
  r ∉ taken ∧ (r = resolved ∨ ∃ s, r = suffixed base s).
Proof.
  revert resolved suffix. induction fuel as [|fuel IH]; intros resolved suffix; simpl;
    case_bool_decide; try done; try (intros [= <-]; by auto).
  intros [? Hr]%IH. split; [done|]. right. destruct Hr as [->|?]; [|done]. by eexists.
Qed.

Lemma free_name_None fuel taken base resolved suffix :
  free_name fuel taken base resolved suffix = None → (suffix + N.of_nat fuel <= u32_max)%N →
  resolved ∈ taken ∧ ∀ i, i < fuel → suffixed base (suffix + N.of_nat i) ∈ taken.
Proof.
  revert resolved suffix. induction fuel as [|fuel IH]; intros resolved suffix; simpl;
    case_bool_decide as Hin; try done; intros Hn Hmax; [by split; [|lia]|].
  rewrite sat_add_exact in Hn by lia. apply IH in Hn as [H1 H2]; [|lia].
  split; [done|]. intros [|i] Hi.
  - by rewrite N.add_0_r.
  - replace (suffix + N.of_nat (S i))%N with (suffix + 1 + N.of_nat i)%N by lia. apply H2. lia.
Qed.

(** As many attempts as there are taken names find a free one. *)
Lemma free_name_total taken base :
  (N.of_nat (size taken) + 2 <= u32_max)%N → is_Some (free_name (size taken) taken base base 2).
Proof.
  intros Hmax. destruct (free_name _ _ _ _ _) as [r|] eqn:Hn; [by eexists|].
  apply free_name_None in Hn as [Hbase Hall]; [|lia].
  set (l := base :: ((λ i, suffixed base (2 + N.of_nat i)) <$> seq 0 (size taken))).
  assert (NoDup l) as Hnd.
  { constructor.
    - intros (i & Hi & _)%list_elem_of_fmap. by eapply suffixed_ne.
    - apply NoDup_fmap_2_strong; [|apply NoDup_seq].
      intros i j _ _ Heq%suffixed_inj. lia. }
  assert (list_to_set l ⊆ taken) as Hsub.
  { intros x. rewrite elem_of_list_to_set. intros [->|Hx]%elem_of_cons; [done|].
    apply list_elem_of_fmap in Hx as (i & -> & Hi). apply Hall. apply elem_of_seq in Hi. lia. }
  apply subseteq_size in Hsub. rewrite size_list_to_set in Hsub by done.
  unfold l in Hsub. simpl in Hsub. rewrite length_fmap, length_seq in Hsub. lia.
Qed.

(** What normalization does to one tool. *)
Record normalized_tool (namespace : string) (t t' : ToolDescriptor) : Prop := {
  nt_name : td_name t' = td_name t;
  nt_annotations : td_annotations t' = td_annotations t;
  nt_schema : td_input_schema t' =
    if is_object (td_input_schema t) then td_input_schema t else empty_schema;
  nt_resolved : let base := namespace +:+ "." +:+ sanitize_identifier (td_name t) in
    td_resolved_name t' = base ∨ ∃ s, td_resolved_name t' = suffixed base s;
}.

Lemma normalize_tools_ok namespace occupied tools tools' :
  normalize_tools namespace occupied tools = Some (Ok tools') →
  Forall2 (normalized_tool namespace) tools tools' ∧
  NoDup (td_resolved_name <$> tools') ∧
  ∀ t, t ∈ tools' → td_resolved_name t ∉ occupied.
Proof.
  revert occupied tools'. induction tools as [|t tools IH]; intros occupied tools'; simpl.
  { intros [= <-]. split_and!; [done|constructor|]. by intros ? ?%elem_of_nil. }
  destruct (is_empty _); [done|]. destruct (free_name _ _ _ _ _) as [r|] eqn:Hfree; [|done].
  apply free_name_Some in Hfree as [Hr Hform].
  destruct (normalize_tools _ _ tools) as [[rest| |]|] eqn:Hrest; [|done..]. intros [= <-].
  apply IH in Hrest as (Hall & Hnd & Hfresh).
  set (t' := if is_object _ then _ else _). assert (td_resolved_name t' = r) as Ht'.
  { unfold t'. by case_match. }
  split_and!.
  - constructor; [|done]. unfold t' in *. split; simpl; by destruct (is_object _).
  - rewrite fmap_cons, Ht'. constructor; [|done].
    intros (u & Heq & Hu)%list_elem_of_fmap. apply Hfresh in Hu. set_solver.
  - intros u [->|Hu]%elem_of_cons; [by rewrite Ht'|]. apply Hfresh in Hu. set_solver.
Qed.

Lemma normalize_tools_total namespace occupied tools :
  (N.of_nat (size occupied + length tools) + 2 <= u32_max)%N →
  normalize_tools namespace occupied tools ≠ None.
Proof.
  revert occupied. induction tools as [|t tools IH]; intros occupied Hmax; simpl; [done|].
  destruct (is_empty _); [done|].
  destruct (free_name_total occupied (namespace +:+ "." +:+ sanitize_identifier (td_name t)))
    as [r Hr]; [lia|]. rewrite Hr. apply free_name_Some in Hr as [Hr _].
  specialize (IH ({[r]} ∪ occupied)).
  rewrite size_union, size_singleton in IH by set_solver. simpl in Hmax.
  destruct (normalize_tools _ _ tools) as [[]|]; try done. exfalso. apply IH; [lia|done].
Qed.

(** Name resolution is total and collision-free.  With fewer than [2^32 - 2] names in play
    [normalize_catalog] terminates; when it accepts a catalog every tool keeps its name and
    annotations, is called [namespace.name], possibly with a numeric suffix, and has an object
    schema; the resolved names are pairwise distinct and none was taken. *)
Theorem catalog_names_never_collide namespace catalog occupied :
  (N.of_nat (size occupied + length (ca_tools catalog)) + 2 <= u32_max)%N →
  ∃ r, normalize_catalog namespace catalog occupied = Some r ∧
    ∀ catalog', r = Ok catalog' →
      Forall2 (normalized_tool namespace) (ca_tools catalog) (ca_tools catalog') ∧
      NoDup (td_resolved_name <$> ca_tools catalog') ∧
      ∀ t, t ∈ ca_tools catalog' → td_resolved_name t ∉ occupied.
Proof.
  intros Hmax. unfold normalize_catalog.
  pose proof (normalize_tools_total namespace occupied (ca_tools catalog) Hmax) as Htot.
  destruct (normalize_tools _ _ _) as [[tools|e|]|] eqn:Hrun; [|by eexists..|done].
  eexists. split; [done|]. intros ? [= <-]. by apply normalize_tools_ok.
Qed.

(** ** Permission resolution *)

Lemma rule_for_Some rules tool scope r :
  rule_for rules tool scope = Some r → r ∈ rules ∧ pr_tool r = tool ∧ pr_scope r = scope.
Proof.
  unfold rule_for. intros [Hr Hp]%find_some.
  rewrite andb_true_iff, !bool_decide_eq_true in Hp. by rewrite list_elem_of_In.
Qed.

Lemma rule_for_None rules tool scope :
  rule_for rules tool scope = None ↔ ∀ r, r ∈ rules → ¬ (pr_tool r = tool ∧ pr_scope r = scope).
Proof.
  unfold rule_for. split.
  - intros Hn r Hr [Ht Hs]. apply list_elem_of_In in Hr.
    eapply find_none in Hn; [|done]. by rewrite !bool_decide_eq_true_2 in Hn.
  - intros Hall. destruct (find _ rules) as [r|] eqn:Hf; [|done].
    apply rule_for_Some in Hf as (? & ? & ?). exfalso. by eapply Hall.
Qed.

(** The most specific rule decides.  [resolve_permission] returns a rule for the tool at the
    first scope, of the agent, the workspace, the profile and the global one in that order, for
    which there is one; without any it returns the conservative rule, which asks. *)
Theorem most_specific_rule_decides rules tool context :
  let r := resolve_permission rules tool context in
  (∃ before scope rest, candidate_scopes context = before ++ scope :: rest ∧
     r ∈ rules ∧ pr_tool r = tool ∧ pr_scope r = scope ∧
     ∀ s r', s ∈ before → r' ∈ rules → ¬ (pr_tool r' = tool ∧ pr_scope r' = s)) ∨
  ((∀ s r', s ∈ candidate_scopes context → r' ∈ rules → ¬ (pr_tool r' = tool ∧ pr_scope r' = s)) ∧
   r = conservative_rule tool).
Proof.
  intros r. unfold r, resolve_permission. clear r.
  induction (candidate_scopes context) as [|s scopes IH]; simpl.
  { right. split; [|done]. by intros ? ? ?%elem_of_nil. }
  destruct (rule_for rules tool s) as [r|] eqn:Hs; simpl.
  - left. apply rule_for_Some in Hs as (? & ? & ?). exists [], s, scopes.
    split_and!; try done. by intros ? ? ?%elem_of_nil.
  - rewrite rule_for_None in Hs. destruct IH as [(before & s' & rest & -> & ? & ? & ? & Hb)|[Hall ?]].
    + left. exists (s :: before), s', rest. split_and!; try done.
      intros s0 r' [->|?]%elem_of_cons; [apply Hs|by apply Hb].
    + right. split; [|done]. intros s0 r' [->|?]%elem_of_cons; [apply Hs|by apply Hall].
Qed.

Lemma resolve_permission_tool rules tool context :
  pr_tool (resolve_permission rules tool context) = tool.
Proof.
  unfold resolve_permission. induction (candidate_scopes context) as [|s scopes IH]; [done|].
  simpl. destruct (rule_for rules tool s) as [r|] eqn:Hs; [|done].
  by apply rule_for_Some in Hs as (? & ? & ?).
Qed.

(** ** Tool arguments *)

Lemma check_required_ok object fields :
  try_for_each (check_required object) fields = Ok () ↔
  ∀ f, VString f ∈ fields → f ∈ object.*1.
Proof.
  rewrite try_for_each_ok. unfold check_required, has_key. split.
  - intros Hall f Hf. specialize (Hall _ Hf). simpl in Hall.
    by rewrite ensure_not_ok, negb_false_iff, bool_decide_eq_true in Hall.
  - intros Hall x Hx. destruct x; simpl; try done.
    rewrite ensure_not_ok, negb_false_iff, bool_decide_eq_true. auto.
Qed.

Lemma check_type_ok properties object :
  try_for_each (check_type properties) object = Ok () ↔
  ∀ k v p expected, (k, v) ∈ object → object_get k properties = Some p →
    get_str "type" p = Some expected → json_type_matches expected v = true.
Proof.
  rewrite try_for_each_ok. unfold check_type. split.
  - intros Hall k v p expected Hkv Hp Hx. specialize (Hall _ Hkv). simpl in Hall.
    rewrite Hp in Hall. simpl in Hall. by rewrite Hx, ensure_not_ok, negb_false_iff in Hall.
  - intros Hall [k v] Hkv. simpl. destruct (object_get k properties) as [p|] eqn:Hp; [|done]. simpl.
    destruct (get_str "type" p) as [expected|] eqn:Hx; [|done].
    rewrite ensure_not_ok, negb_false_iff. by eapply Hall.
Qed.

Lemma find_unknown_field properties (object : list (string * Value)) :
  find (λ kv : string * Value, negb (has_key kv.1 properties)) object = None ↔
  ∀ k, k ∈ object.*1 → k ∈ properties.*1.
Proof.
  unfold has_key. split.
  - intros Hn k ([? v] & -> & Hkv)%list_elem_of_fmap. apply list_elem_of_In in Hkv.
    eapply find_none in Hn; [|done]. by rewrite negb_false_iff, bool_decide_eq_true in Hn.
  - intros Hall. destruct (find _ object) as [[k v]|] eqn:Hf; [|done].
    apply find_some in Hf as [Hin Hneg]. rewrite negb_true_iff, bool_decide_eq_false in Hneg.
    destruct Hneg. apply Hall, list_elem_of_fmap. exists (k, v). by rewrite list_elem_of_In.
Qed.

(** The argument check is exact.  Arguments are accepted exactly when they are an object where
    the schema asks for one and, being an object, have every required field, no field outside
    closed properties, and the declared type in each declared field. *)
Theorem argument_check_is_exact schema arguments :
  validate_json_arguments schema arguments = Ok () ↔
  (get_str "type" schema = Some "object" → is_object arguments = true) ∧
  ∀ object, arguments = VObject object →
    (∀ required f, get_array "required" schema = Some required → VString f ∈ required →
       f ∈ object.*1) ∧
    (∀ properties, value_get "additionalProperties" schema = Some (VBool false) →
       get_object "properties" schema = Some properties →
       ∀ k, k ∈ object.*1 → k ∈ properties.*1) ∧
    (∀ properties, get_object "properties" schema = Some properties →
       ∀ k v p expected, (k, v) ∈ object → object_get k properties = Some p →
         get_str "type" p = Some expected → json_type_matches expected v = true).
Proof.
  unfold validate_json_arguments. rewrite outcome_seq_ok, ensure_not_ok.
  assert (bool_decide (get_str "type" schema = Some "object") && negb (is_object arguments) = false ↔
    (get_str "type" schema = Some "object" → is_object arguments = true)) as ->.
  { case_bool_decide; destruct (is_object arguments); simpl; intuition discriminate. }
  apply and_iff_compat_l. destruct (as_object arguments) as [object|] eqn:Ho; cycle 1.
  { split; [|done]. intros _ object ->. done. }
  destruct arguments; simplify_eq/=. rewrite !outcome_seq_ok, check_required_ok.
  assert (∀ P : list (string * Value) → Prop, (∀ o, VObject object = VObject o → P o) ↔ P object) as ->.
  { intros P. split; [intros Hall; by apply Hall|by intros ? ? [= <-]]. }
  apply Morphisms_Prop.and_iff_morphism; [|apply Morphisms_Prop.and_iff_morphism].
  - destruct (get_array "required" schema) as [required|]; simpl; split.
    + intros Hall ? f [= <-]. apply Hall.
    + intros Hall f. by apply Hall.
    + done.
    + intros _ f ?%elem_of_nil. done.
  - destruct (value_get "additionalProperties" schema) as [[| [] | | | |]|]; simpl;
      try (split; [by intros _ ? [=]|done]).
    destruct (get_object "properties" schema) as [properties|]; [|by split].
    trans (find (λ kv : string * Value, negb (has_key kv.1 properties)) object = None).
    + by destruct (find _ object) as [[]|].
    + rewrite find_unknown_field. split; [by intros Hall ? _ [= <-]|intros Hall; by apply Hall].
  - destruct (get_object "properties" schema) as [properties|]; [|by split].
    rewrite check_type_ok. split; [by intros Hall ? [= <-]|intros Hall; by apply Hall].
Qed.
