(* ===== verification/McpManager.v ===== *)
(** * The MCP manager

    Models [McpManager] of [crates/mcp-manager/src/lib.rs]: the registry of servers with all
    its calls.  The state is the registry and the world of the host: package and runtime
    adapters act on the world, and the clock and the fresh identifiers come from it.  A call
    whose name-resolution loop would not end is represented like a panic, since it has no
    result either. *)

From stdpp Require Import base gmap strings list pretty.
From Stdlib Require Import Ascii SpecFloat.
From S2P Require Import Prelude Text McpText McpModel.

Definition MAX_AUDIT_EVENTS : nat := 500.
Definition MAX_SERVER_LOGS : nat := 1000.

Inductive LogLevel : Type := Debug_ | Info_ | Warn_ | Error_.

Record ServerLog : Type := mkServerLog {
  sl_timestamp : DateTime;
  sl_level : LogLevel;
  sl_message : string;
}.

Record ManagedServer : Type := mkManagedServer {
  ms_definition : ServerDefinition;
  ms_state : LifecycleState;
  ms_enabled : bool;
  ms_negotiated_protocol : option string;
  ms_health : option HealthStatus;
  ms_catalog : CapabilityCatalog;
  ms_permissions : list ToolPermissionRule;
  ms_current_release : option InstalledRelease;
  ms_release_history : list InstalledRelease;
  ms_pending_update : option UpdatePlan;
  ms_logs : list ServerLog;
  ms_last_connected_at : option DateTime;
}.
Global Instance eta_server : Eta ManagedServer := λ r,
  mkManagedServer (ms_definition r) (ms_state r) (ms_enabled r) (ms_negotiated_protocol r)
    (ms_health r) (ms_catalog r) (ms_permissions r) (ms_current_release r)
    (ms_release_history r) (ms_pending_update r) (ms_logs r) (ms_last_connected_at r).

Record AuditEvent : Type := mkAuditEvent {
  ae_id : Uuid;
  ae_timestamp : DateTime;
  ae_server_id : option Uuid;
  ae_event_type : string;
  ae_outcome : string;
  ae_metadata : gmap string string;
}.

Record McpManager : Type := mkMcpManager {
  mm_servers : gmap Uuid ManagedServer;
  mm_audit_events : list AuditEvent;
}.
Global Instance eta_manager : Eta McpManager := λ r,
  mkMcpManager (mm_servers r) (mm_audit_events r).
Definition manager_default : McpManager := mkMcpManager ∅ [].

Record GatewayToolRequest : Type := mkGatewayToolRequest {
  gr_request_id : Uuid;
  gr_server_id : Uuid;
  gr_tool_name : string;
  gr_resolved_name : string;
  gr_arguments : Value;
  gr_protocol_version : string;
  gr_execution_zone : string;
  gr_timeout_ms : N;
  gr_max_output_bytes : N;
  gr_requires_approval : bool;
  gr_destructive : bool;
  gr_open_world : bool;
}.

Inductive ToolRoute : Type :=
  | Ready (request : GatewayToolRequest)
  | ApprovalRequired (request : GatewayToolRequest).

Record RuntimeHandshake : Type := mkRuntimeHandshake {
  rh_server_protocols : gset string;
  rh_catalog : CapabilityCatalog;
  rh_latency_ms : N;
}.

Record AdapterError : Type := mkAdapterError {
  er_code : string;
  er_message : string;
  er_authentication_required : bool;
}.

Record SecretFreeExport : Type := mkSecretFreeExport {
  se_schema_version : N;
  se_exported_at : DateTime;
  se_servers : list ServerDefinition;
  se_permissions : gmap Uuid (list ToolPermissionRule);
}.

Record ManagerSnapshot : Type := mkManagerSnapshot {
  sn_servers : list ManagedServer;
  sn_audit_events : list AuditEvent;
  sn_protocol_version : string;
}.

(** The adapter traits: operations on the world of the host. *)
Record RuntimeAdapter (W : Type) : Type := mkRuntimeAdapter {
  ra_connect : ServerDefinition → M W AdapterError RuntimeHandshake;
  ra_health : ServerDefinition → M W AdapterError N;
  ra_disconnect : ServerDefinition → M W AdapterError ();
}.
Arguments mkRuntimeAdapter {W} _ _ _.
Arguments ra_connect {W} _ _.
Arguments ra_health {W} _ _.
Arguments ra_disconnect {W} _ _.

Record PackageAdapter (W : Type) : Type := mkPackageAdapter {
  pa_install : InstallRecipe → M W AdapterError InstalledRelease;
  pa_uninstall : ServerDefinition → M W AdapterError ();
}.
Arguments mkPackageAdapter {W} _ _.
Arguments pa_install {W} _ _.
Arguments pa_uninstall {W} _ _.

(** [push_back] and [pop_front] while the queue is longer than its limit. *)
Definition push_bounded {A} (max : nat) (l : list A) (x : A) : list A :=
  drop (length (l ++ [x]) - max) (l ++ [x]).

Definition server_new (definition : ServerDefinition) : ManagedServer :=
  mkManagedServer definition
    (match sd_install definition with Some _ => InstallConsentRequired | None => Disabled end)
    false None None catalog_default [] None [] None [] None.

Section manager.
Context {W : Type} `{Host W, UrlLib, Digests, UuidText}.

Definition Sys : Type := McpManager * W.
Abbreviation MM := (M Sys ManagerError).

(** ** Effects *)

Definition now : MM DateTime := λ s, let '(t, w) := host_now s.2 in (Ok t, (s.1, w)).
Definition new_v4 : MM Uuid := λ s, let '(u, w) := host_uuid s.2 in (Ok u, (s.1, w)).
(** Run an adapter and hand its error to the caller. *)
Definition try_adapter {A} (m : M W AdapterError A) : MM (AdapterError + A) :=
  λ s, match m s.2 with
  | (Ok a, w) => (Ok (inr a), (s.1, w))
  | (Err e, w) => (Ok (inl e), (s.1, w))
  | (Panic, w) => (Panic, (s.1, w))
  end.

Definition server (id : Uuid) : MM ManagedServer :=
  s ← get; ok_or (mm_servers s.1 !! id) (MissingServer id).
Definition set_servers (f : gmap Uuid ManagedServer → gmap Uuid ManagedServer) : MM () :=
  modify (λ s, (s.1 <| mm_servers ::= f |>, s.2)).
(** Writes through [self.server_mut(id)?]. *)
Definition with_server (id : Uuid) (f : ManagedServer → ManagedServer) : MM () :=
  _ ← server id; set_servers (alter f id).

Definition audit (id : Uuid) (event_type outcome : string) (metadata : gmap string string) : MM () :=
  event_id ← new_v4;
  timestamp ← now;
  modify (λ s, (s.1 <| mm_audit_events ::= λ l, push_bounded MAX_AUDIT_EVENTS l
    (mkAuditEvent event_id timestamp (Some id) event_type outcome metadata) |>, s.2)).

Definition push_log (id : Uuid) (level : LogLevel) (message : string) : MM () :=
  timestamp ← now;
  message ← lift (sanitize_adapter_message message);
  set_servers (alter (λ s, s <| ms_logs ::= λ l,
    push_bounded MAX_SERVER_LOGS l (mkServerLog timestamp level message) |>) id).

Definition transition (id : Uuid) (next : LifecycleState) : MM () :=
  with_server id (λ s, s <| ms_state := next |>).

Definition adapter_failure (id : Uuid) (error : AdapterError) (state : LifecycleState) : MM () :=
  s ← get;
  _ ← (if bool_decide (is_Some (mm_servers s.1 !! id)) then
         _ ← set_servers (alter (λ s, s <| ms_state := state |> <| ms_enabled := false |>) id);
         message ← lift (sanitize_adapter_message (er_message error));
         push_log id Error_ (er_code error +:+ ": " +:+ message)
       else mret ());
  audit id "server.adapter_error" "failure" {["code" := er_code error]}.

Definition catalog_names_excluding (m : McpManager) (id : Uuid) : gset string :=
  list_to_set (
    '(i, s) ← map_to_list (mm_servers m);
    if decide (i = id) then [] else td_resolved_name <$> ca_tools (ms_catalog s)).

(** ** Adding and installing *)

Definition namespace_taken (m : McpManager) (namespace : string) : bool :=
  existsb (λ s, bool_decide (sd_namespace (ms_definition s) = namespace))
    (map_to_list (mm_servers m)).*2.

Definition add_server (definition : ServerDefinition) : MM Uuid :=
  _ ← lift (validate_definition definition);
  s ← get;
  _ ← reject_if (namespace_taken s.1 (sd_namespace definition))
        (NamespaceCollision (sd_namespace definition));
  let id := sd_id definition in
  _ ← set_servers <[id := server_new definition]>;
  _ ← audit id "server.added" "success" ∅;
  mret id.

Definition install_recipe (id : Uuid) : MM InstallRecipe :=
  s ← server id; ok_or (sd_install (ms_definition s)) (InvalidDefinition "no install recipe").

Definition install_consent_preview (id : Uuid) : MM (string * string) :=
  recipe ← install_recipe id; mret (digest_json recipe, display_command recipe).

Definition install (id : Uuid) (consent : OperationConsent) (adapter : PackageAdapter W) : MM () :=
  recipe ← install_recipe id;
  _ ← lift (verify_consent consent (digest_json recipe) (display_command recipe));
  _ ← transition id Installing;
  r ← try_adapter (pa_install adapter recipe);
  match r with
  | inr release =>
    _ ← with_server id (λ s, s <| ms_current_release := Some release |>
          <| ms_state := Disabled |> <| ms_enabled := false |>);
    _ ← push_log id Info_ "Installation completed";
    audit id "server.installed" "success" ∅
  | inl error => _ ← adapter_failure id error Crashed; throw (Adapter (er_code error))
  end.

(** ** Connecting *)

Definition connect_refused (st : LifecycleState) : bool :=
  bool_decide (st ∈ [InstallConsentRequired; Installing; Uninstalling; Uninstalled]).

(** A failed connection leaves the server enabled, to be retried after a restart. *)
Definition connect_failed {A} (id : Uuid) (error : AdapterError) (state : LifecycleState)
    (result : ManagerError) : MM A :=
  _ ← adapter_failure id error state;
  _ ← with_server id (λ s, s <| ms_enabled := true |>);
  throw result.

Definition connected (id : Uuid) (negotiated : string) (catalog : CapabilityCatalog)
    (latency_ms : N) : MM () :=
  t ← now;
  _ ← with_server id (λ s, s <| ms_enabled := true |> <| ms_state := Connected |>
        <| ms_negotiated_protocol := Some negotiated |> <| ms_catalog := catalog |>
        <| ms_health := Some (mkHealthStatus true t (Some latency_ms) f32_0 0 "Connected") |>
        <| ms_last_connected_at := Some t |>
        <| ms_permissions ::= λ rules, seeded_rules rules (ca_tools catalog) |>);
  _ ← push_log id Info_ "MCP initialization completed";
  audit id "server.connected" "success" ∅.

Definition connect (id : Uuid) (adapter : RuntimeAdapter W) : MM () :=
  s ← server id;
  _ ← reject_if (connect_refused (ms_state s)) (InvalidState (ms_state s));
  _ ← with_server id (λ s, s <| ms_enabled := true |>);
  _ ← transition id Connecting;
  s ← server id;
  let definition := ms_definition s in
  r ← try_adapter (ra_connect adapter definition);
  match r with
  | inr handshake =>
    match negotiate_protocol (sd_supported_protocols definition) (rh_server_protocols handshake) with
    | None => connect_failed id
        (mkAdapterError "protocol_mismatch" "No mutually supported MCP protocol revision" false)
        Crashed ProtocolMismatch
    | Some negotiated =>
      s ← get;
      match normalize_catalog (sd_namespace definition) (rh_catalog handshake)
              (catalog_names_excluding s.1 id) with
      | Some (Ok catalog) => connected id negotiated catalog (rh_latency_ms handshake)
      | Some (Err e) => connect_failed id
          (mkAdapterError "invalid_catalog" (error_to_string e) false) Crashed e
      | Some Panic | None => panic
      end
    end
  | inl error => connect_failed id error
      (if er_authentication_required error then AuthenticationRequired else Crashed)
      (Adapter (er_code error))
  end.

Definition disable_allowed (st : LifecycleState) : bool :=
  bool_decide (st ∈ [Connected; Degraded; Crashed; AuthenticationRequired; UpdateAvailable;
                     RollbackAvailable]).

Definition disable (id : Uuid) (adapter : RuntimeAdapter W) : MM () :=
  s ← server id;
  _ ← reject_if (negb (disable_allowed (ms_state s))) (InvalidState (ms_state s));
  r ← try_adapter (ra_disconnect adapter (ms_definition s));
  match r with
  | inl error => _ ← adapter_failure id error Crashed; throw (Adapter (er_code error))
  | inr _ =>
    _ ← with_server id (λ s, s <| ms_enabled := false |> <| ms_state := Disabled |>
          <| ms_health := None |> <| ms_negotiated_protocol := None |>);
    _ ← push_log id Info_ "Server disabled";
    audit id "server.disabled" "success" ∅
  end.

Definition restart (id : Uuid) (adapter : RuntimeAdapter W) : MM () :=
  s ← server id;
  _ ← try_adapter (ra_disconnect adapter (ms_definition s));
  _ ← with_server id (λ s, s <| ms_state := Disabled |> <| ms_enabled := false |>
        <| ms_negotiated_protocol := None |>);
  _ ← push_log id Info_ "Restart requested";
  _ ← audit id "server.restart_requested" "pending" ∅;
  connect id adapter.

(** ** Health *)

Definition health_sample (prior : option HealthStatus) (r : AdapterError + N) : MM HealthStatus :=
  t ← now;
  match r with
  | inr latency_ms =>
    mret (mkHealthStatus true t (Some latency_ms)
      (match prior with Some p => f32_mul (hs_error_rate p) f32_0_8 | None => f32_0 end)
      0 "Healthy")
  | inl error =>
    message ← lift (sanitize_adapter_message (er_message error));
    mret (mkHealthStatus false t None
      (match prior with
       | Some p => f32_min (f32_add (f32_mul (hs_error_rate p) f32_0_8) f32_0_2) f32_1
       | None => f32_1
       end)
      (match prior with Some p => sat_add u32_max (hs_consecutive_failures p) 1 | None => 1%N end)
      message)
  end.

Definition check_health (id : Uuid) (adapter : RuntimeAdapter W) : MM HealthStatus :=
  s ← server id;
  _ ← reject_if (negb (bool_decide (ms_state s ∈ [Connected; Degraded]))) (InvalidState (ms_state s));
  r ← try_adapter (ra_health adapter (ms_definition s));
  sample ← health_sample (ms_health s) r;
  _ ← with_server id (λ s, s
        <| ms_state := if hs_healthy sample then Connected else Degraded |>
        <| ms_health := Some sample |>);
  _ ← push_log id (if hs_healthy sample then Debug_ else Warn_) (hs_message sample);
  _ ← audit id "server.health_checked" (if hs_healthy sample then "healthy" else "degraded") ∅;
  mret sample.

(** ** Updates, rollback and removal *)

Definition offer_update (id : Uuid) (plan : UpdatePlan) : MM () :=
  _ ← lift (validate_install_recipe (up_recipe plan));
  _ ← reject_if (is_blank (up_target_version plan)) (InvalidDefinition "target version is blank");
  _ ← with_server id (λ s, s <| ms_pending_update := Some plan |> <| ms_state := UpdateAvailable |>);
  _ ← push_log id Info_ "Update is available";
  audit id "server.update_available" "success" ∅.

Definition pending_plan (id : Uuid) : MM UpdatePlan :=
  s ← server id; ok_or (ms_pending_update s) (InvalidState (ms_state s)).

Definition update_consent_preview (id : Uuid) : MM (string * string) :=
  plan ← pending_plan id;
  mret (digest_json (up_recipe plan), display_command (up_recipe plan)).

(** The previous release joins the history, of which the last three are kept. *)
Definition retain (history : list InstalledRelease) (previous : option InstalledRelease)
    : list InstalledRelease :=
  match previous with
  | Some previous =>
    let history := history ++ [previous] in
    if 3 <? length history then drop 1 history else history
  | None => history
  end.

Definition apply_update (id : Uuid) (consent : OperationConsent) (adapter : PackageAdapter W) : MM () :=
  plan ← pending_plan id;
  let recipe := up_recipe plan in
  _ ← lift (verify_consent consent (digest_json recipe) (display_command recipe));
  _ ← transition id Updating;
  r ← try_adapter (pa_install adapter recipe);
  match r with
  | inr release =>
    let release := release <| rl_version := up_target_version plan |> in
    _ ← with_server id (λ s, s
          <| ms_release_history := retain (ms_release_history s) (ms_current_release s) |>
          <| ms_current_release := Some release |> <| ms_pending_update := None |>
          <| ms_state := RollbackAvailable |>);
    _ ← push_log id Info_ "Update installed; reconnect required";
    audit id "server.updated" "success" ∅
  | inl error => _ ← adapter_failure id error UpdateAvailable; throw (Adapter (er_code error))
  end.

Definition rollback_consent_preview (id : Uuid) : MM (string * string) :=
  s ← server id;
  release ← ok_or (last (ms_release_history s)) RollbackUnavailable;
  let text := "Rollback " +:+ sd_name (ms_definition s) +:+ " to " +:+ rl_version release in
  mret (digest_text text, text).

Definition rollback (id : Uuid) (consent : OperationConsent) (adapter : PackageAdapter W) : MM () :=
  preview ← rollback_consent_preview id;
  _ ← lift (verify_consent consent preview.1 preview.2);
  s ← server id;
  release ← ok_or (last (ms_release_history s)) RollbackUnavailable;
  recipe ← ok_or (rl_recipe release) RollbackUnavailable;
  r ← try_adapter (pa_install adapter recipe);
  match r with
  | inl error => throw (Adapter (er_code error))
  | inr installed =>
    _ ← with_server id (λ s, s
          <| ms_release_history := take (length (ms_release_history s) - 1) (ms_release_history s)
               ++ match ms_current_release s with Some current => [current] | None => [] end |>
          <| ms_current_release := Some (installed <| rl_version := rl_version release |>) |>
          <| ms_state := Disabled |>);
    _ ← push_log id Info_ "Rollback completed; reconnect required";
    audit id "server.rolled_back" "success" ∅
  end.

Definition uninstall_consent_preview (id : Uuid) : MM (string * string) :=
  s ← server id;
  let text := "Uninstall MCP server " +:+ sd_name (ms_definition s) +:+ " ("
    +:+ uuid_to_string (sd_id (ms_definition s)) +:+ ")" in
  mret (digest_text text, text).

Definition uninstall (id : Uuid) (consent : OperationConsent) (adapter : PackageAdapter W) : MM () :=
  preview ← uninstall_consent_preview id;
  _ ← lift (verify_consent consent preview.1 preview.2);
  s ← server id;
  _ ← transition id Uninstalling;
  r ← try_adapter (pa_uninstall adapter (ms_definition s));
  match r with
  | inl error =>
    _ ← with_server id (λ s', s' <| ms_state := ms_state s |> <| ms_enabled := ms_enabled s |>);
    _ ← push_log id Error_ "Uninstall failed; configuration retained";
    _ ← audit id "server.uninstall_failed" "failure" {["code" := er_code error]};
    throw (Adapter (er_code error))
  | inr _ =>
    _ ← with_server id (λ s, s <| ms_state := Uninstalled |> <| ms_enabled := false |>
          <| ms_negotiated_protocol := None |> <| ms_catalog := catalog_default |>
          <| ms_permissions := [] |> <| ms_current_release := None |>
          <| ms_release_history := [] |> <| ms_pending_update := None |>);
    _ ← push_log id Info_ "Server uninstalled";
    audit id "server.uninstalled" "success" ∅
  end.

Definition purge_tombstone (id : Uuid) : MM () :=
  s ← server id;
  _ ← reject_if (negb (bool_decide (ms_state s = Uninstalled))) (InvalidState (ms_state s));
  _ ← set_servers (delete id);
  audit id "server.tombstone_purged" "success" ∅.

(** ** Permissions and scopes *)

Definition set_permission (id : Uuid) (rule : ToolPermissionRule) : MM () :=
  _ ← lift (validate_permission rule);
  s ← server id;
  _ ← reject_if (negb (bool_decide (pr_tool rule ∈ td_resolved_name <$> ca_tools (ms_catalog s))))
        (MissingTool (pr_tool rule));
  _ ← with_server id (λ s, s <| ms_permissions ::= λ rules,
        filter (λ existing, rule_key existing ≠ rule_key rule) rules ++ [rule] |>);
  audit id "tool.permission_changed" "success" ∅.

Definition bad_scope (scope : string) : bool :=
  is_blank scope || (512 <? str_len scope) || contains_byte nul scope.

Definition set_scopes (id : Uuid) (project_scopes agent_scopes : gset string) : MM () :=
  _ ← reject_if (existsb bad_scope (elements project_scopes ++ elements agent_scopes))
        (InvalidDefinition "scope identifiers must be non-empty and bounded");
  _ ← with_server id (λ s, s <| ms_definition ::= λ d,
        d <| sd_project_scopes := project_scopes |> <| sd_agent_scopes := agent_scopes |> |>);
  audit id "server.scopes_changed" "success" ∅.

(** ** Restart of the host *)

(** The state a server is brought to, and whether it is to be reconnected. *)
Definition recover_server (s : ManagedServer) : ManagedServer * bool :=
  match ms_state s with
  | Installing => (s <| ms_state := InstallConsentRequired |> <| ms_enabled := false |>, false)
  | Updating =>
    (s <| ms_state := match ms_pending_update s with Some _ => UpdateAvailable | None => Crashed end |>
       <| ms_enabled := false |>, false)
  | Uninstalling => (s <| ms_state := Crashed |> <| ms_enabled := false |>, false)
  | Draft | InstallConsentRequired | Disabled | Uninstalled =>
    (s <| ms_enabled := false |>, false)
  | _ =>
    if ms_enabled s then
      (s <| ms_state := Connecting |> <| ms_negotiated_protocol := None |> <| ms_health := None |>, true)
    else (s, false)
  end.

(** The loop over the servers: the ids to reconnect and the ids whose state changed. *)
Fixpoint recover_loop (ids : list Uuid) : MM (list Uuid * list Uuid) :=
  match ids with
  | [] => mret ([], [])
  | id :: ids =>
    s ← server id;
    let '(s', reconnect) := recover_server s in
    let changed := negb (bool_decide (ms_state s' = ms_state s)) in
    _ ← set_servers <[id := s']>;
    _ ← (if changed then
           push_log id Info_ "Recovered persisted MCP state after application restart"
         else mret ());
    rest ← recover_loop ids;
    mret ((if reconnect then [id] else []) ++ rest.1, (if changed then [id] else []) ++ rest.2)
  end.

Fixpoint audit_all (ids : list Uuid) (event_type outcome : string) : MM () :=
  match ids with
  | [] => mret ()
  | id :: ids => _ ← audit id event_type outcome ∅; audit_all ids event_type outcome
  end.

Definition recover_after_restart : MM (list Uuid) :=
  s ← get;
  lists ← recover_loop (keys (mm_servers s.1));
  _ ← audit_all lists.2 "server.restart_recovered" "success";
  mret lists.1.

Definition enabled_server_ids (m : McpManager) : list Uuid :=
  fst <$> filter (λ p, ms_enabled p.2 = true) (entries (mm_servers m)).

Definition record_restore_failure (id : Uuid) (message : string) : MM () :=
  message ← lift (sanitize_adapter_message message);
  _ ← with_server id (λ s, s <| ms_enabled := true |> <| ms_state := Degraded |>
        <| ms_negotiated_protocol := None |>);
  t ← now;
  _ ← with_server id (λ s, s <| ms_health ::= λ h, Some (mkHealthStatus false t None f32_1
        (match h with Some h => sat_add u32_max (hs_consecutive_failures h) 1 | None => 1%N end)
        message) |>);
  _ ← push_log id Warn_ message;
  audit id "server.restore_failed" "degraded" ∅.

(** ** Routing tool calls *)

Definition find_tool (s : ManagedServer) (resolved_tool : string) : option ToolDescriptor :=
  find (λ t, bool_decide (td_resolved_name t = resolved_tool)) (ca_tools (ms_catalog s)).

Definition needs_approval (rule : ToolPermissionRule) (tool : ToolDescriptor) : bool :=
  bool_decide (pr_decision rule = Ask) || negb (ta_read_only (td_annotations tool))
  || ta_destructive (td_annotations tool) || ta_open_world (td_annotations tool).

Definition prepare_tool_call (id : Uuid) (resolved_tool : string) (arguments : Value)
    (context : InvocationContext) : MM ToolRoute :=
  s ← server id;
  _ ← reject_if (negb (bool_decide (ms_state s = Connected)) || negb (ms_enabled s))
        (InvalidState (ms_state s));
  tool ← ok_or (find_tool s resolved_tool) (MissingTool resolved_tool);
  _ ← lift (validate_json_arguments (td_input_schema tool) arguments);
  protocol ← ok_or (ms_negotiated_protocol s) ProtocolMismatch;
  let rule := resolve_permission (ms_permissions s) resolved_tool context in
  if bool_decide (pr_decision rule = Deny) then
    _ ← audit id "tool.route_denied" "denied" {["tool" := resolved_tool]};
    throw (ToolDenied resolved_tool)
  else
    let requires_approval := needs_approval rule tool in
    request_id ← new_v4;
    let request := mkGatewayToolRequest request_id id (td_name tool) (td_resolved_name tool)
      arguments protocol (pr_execution_zone rule) (pr_timeout_ms rule) (pr_max_output_bytes rule)
      requires_approval (ta_destructive (td_annotations tool)) (ta_open_world (td_annotations tool)) in
    _ ← audit id "tool.routed_to_gateway" (if requires_approval then "approval_required" else "ready")
          {["tool" := resolved_tool]};
    mret (if requires_approval && negb (ic_user_confirmed context) then ApprovalRequired request
          else Ready request).

(** ** Views *)

Definition live (p : Uuid * ManagedServer) : Prop := ms_state p.2 ≠ Uninstalled.
Global Instance live_dec : ∀ p, Decision (live p).
Proof. intros p. unfold live. apply _. Defined.

Definition export_secret_free : MM SecretFreeExport :=
  t ← now;
  s ← get;
  let kept := filter live (entries (mm_servers s.1)) in
  mret (mkSecretFreeExport 1 t ((λ p, ms_definition p.2) <$> kept)
    (list_to_map ((λ p, (p.1, ms_permissions p.2)) <$> kept))).

Definition snapshot (m : McpManager) : ManagerSnapshot :=
  mkManagerSnapshot (values (mm_servers m)) (reverse (mm_audit_events m)) current_protocol.
End manager.
