(* ===== verification/McpManagerSpec.v ===== *)
(** * Theorems about the MCP manager

    The manager as a transition system whose steps are its calls: the invariant of every
    reachable registry (also after a panicking call), consent for package operations, the
    routing of tool calls, recovery after a restart of the host, and the secret-free export.
    The last section shows what the lifecycle checks let through. *)

From stdpp Require Import base gmap strings list sorting pretty.
From Stdlib Require Import Ascii SpecFloat.
From S2P Require Import Prelude Text McpText McpModel McpManager.

Lemma push_bounded_length {A} max (l : list A) x : length (push_bounded max l x) ≤ max.
Proof. unfold push_bounded. rewrite length_drop. lia. Qed.

Definition tool_names (s : ManagedServer) : list string :=
  td_resolved_name <$> ca_tools (ms_catalog s).

Section spec.
Context {W : Type} `{Host W, UrlLib, Digests, UuidText}.
Implicit Types (g : McpManager) (w : W) (servers : gmap Uuid ManagedServer).
Abbreviation MM := (M (Sys (W:=W)) ManagerError).

(** ** The invariant *)

(** One server: its key is its identifier, its definition is valid, its tools have distinct
    names and each a global rule, no two rules share tool and scope, the negotiated protocol is
    one it supports, a connected server is enabled, and history and logs are bounded. *)
Record server_inv (id : Uuid) (s : ManagedServer) : Prop := {
  si_key : sd_id (ms_definition s) = id;
  si_valid : validate_definition (ms_definition s) = Ok ();
  si_names : NoDup (tool_names s);
  si_rules : NoDup (rule_key <$> ms_permissions s);
  si_seeded : ∀ n, n ∈ tool_names s → (n, ScopeGlobal) ∈ rule_key <$> ms_permissions s;
  si_protocol : ∀ v, ms_negotiated_protocol s = Some v →
    v ∈ sd_supported_protocols (ms_definition s);
  si_enabled : ms_state s = Connected ∨ ms_state s = Degraded → ms_enabled s = true;
  si_history : length (ms_release_history s) ≤ 3;
  si_logs : length (ms_logs s) ≤ MAX_SERVER_LOGS;
}.

(** The registry: every server is well formed, no tool name and no namespace is used by two
    servers, and the audit trail is bounded. *)
Record registry_inv (g : McpManager) : Prop := {
  ri_servers : ∀ id s, mm_servers g !! id = Some s → server_inv id s;
  ri_names : ∀ i j s t n, mm_servers g !! i = Some s → mm_servers g !! j = Some t →
    n ∈ tool_names s → n ∈ tool_names t → i = j;
  ri_namespaces : ∀ i j s t, mm_servers g !! i = Some s → mm_servers g !! j = Some t →
    sd_namespace (ms_definition s) = sd_namespace (ms_definition t) → i = j;
  ri_audits : length (mm_audit_events g) ≤ MAX_AUDIT_EVENTS;
}.

(** A write to one server that keeps the invariant: its names were its own or are free. *)
Definition keeps_server servers (id : Uuid) (f : ManagedServer → ManagedServer) : Prop :=
  ∀ s, servers !! id = Some s → server_inv id s →
    server_inv id (f s) ∧ sd_namespace (ms_definition (f s)) = sd_namespace (ms_definition s) ∧
    ∀ n, n ∈ tool_names (f s) → n ∈ tool_names s ∨
      ∀ j t, servers !! j = Some t → j ≠ id → n ∉ tool_names t.

Lemma inv_alter g id f :
  registry_inv g → keeps_server (mm_servers g) id f →
  registry_inv (g <| mm_servers ::= alter f id |>).
Proof.
  intros [Hs Hn Hns Ha] Hf.
  assert (∀ i t, alter f id (mm_servers g) !! i = Some t →
    ∃ s, mm_servers g !! i = Some s ∧ ((i ≠ id ∧ t = s) ∨ (i = id ∧ t = f s))) as Hinv.
  { intros i t. destruct (decide (i = id)) as [->|Hne].
    - rewrite lookup_alter_eq. destruct (mm_servers g !! id) as [s|]; simpl; [|done].
      intros [= <-]. eauto.
    - rewrite lookup_alter_ne by done. eauto. }
  split; simpl; [..|done].
  - intros i t (s & Hi & [[? ->]|[-> ->]])%Hinv; [by apply Hs|]. by apply Hf; [|apply Hs].
  - intros i j t u n (s & Hi & Ht)%Hinv (s' & Hj & Hu)%Hinv Hnt Hnu.
    destruct Ht as [[? ->]|[-> ->]], Hu as [[? ->]|[-> ->]]; [by eauto|..|done].
    + destruct (Hf s' Hj (Hs _ _ Hj)) as (_ & _ & Hfn).
      destruct (Hfn n Hnu) as [?|Hfree]; [by eauto|]. by destruct (Hfree i s Hi).
    + destruct (Hf s Hi (Hs _ _ Hi)) as (_ & _ & Hfn).
      destruct (Hfn n Hnt) as [?|Hfree]; [by eauto|]. by destruct (Hfree j s' Hj).
  - intros i j t u (s & Hi & Ht)%Hinv (s' & Hj & Hu)%Hinv Heq.
    assert (sd_namespace (ms_definition t) = sd_namespace (ms_definition s)) as Ht'.
    { destruct Ht as [[_ ->]|[-> ->]]; [done|]. by apply Hf; [|apply Hs]. }
    assert (sd_namespace (ms_definition u) = sd_namespace (ms_definition s')) as Hu'.
    { destruct Hu as [[_ ->]|[-> ->]]; [done|]. by apply Hf; [|apply Hs]. }
    eapply Hns; [done..|]. congruence.
Qed.

(** ** A program logic for the calls

    [triple P m Q]: run on a registry that satisfies the invariant and whose servers satisfy
    [P], the call leaves the invariant true however it ends, and [Q] when it returns. *)

Definition triple {A} (P : gmap Uuid ManagedServer → Prop) (m : MM A)
    (Q : A → gmap Uuid ManagedServer → Prop) : Prop :=
  ∀ g w, registry_inv g → P (mm_servers g) →
    let '(r, (g', _)) := m (g, w) in
    registry_inv g' ∧ ∀ a, r = Ok a → Q a (mm_servers g').

Lemma triple_bind {A B} P (m : MM A) (k : A → MM B) Q R :
  triple P m Q → (∀ a, triple (Q a) (k a) R) → triple P (m ≫= k) R.
Proof.
  intros Hm Hk g w Hg HP. specialize (Hm g w Hg HP). unfold mbind, M_bind.
  destruct (m (g, w)) as [[a|e|] [g' w']]; [|by destruct Hm..].
  destruct Hm as [Hg' HQ]. by apply Hk; [|apply HQ].
Qed.

Lemma triple_ret {A} P (a : A) : triple P (mret a) (λ b servers, b = a ∧ P servers).
Proof. intros g w Hg HP. simpl. split; [done|]. by intros ? [= <-]. Qed.

Lemma triple_throw {A} P e Q : triple P (throw e : MM A) Q.
Proof. intros g w Hg HP. simpl. by split. Qed.

Lemma triple_panic {A} P Q : triple P (panic : MM A) Q.
Proof. intros g w Hg HP. simpl. by split. Qed.

Lemma triple_lift {A} P (o : outcome ManagerError A) :
  triple P (lift o) (λ a servers, o = Ok a ∧ P servers).
Proof. intros g w Hg HP. simpl. split; [done|]. by intros a ->. Qed.

Lemma triple_ok_or {A} P (o : option A) e :
  triple P (ok_or o e) (λ a servers, o = Some a ∧ P servers).
Proof. intros g w Hg HP. destruct o; simpl; split; try done. by intros ? [= <-]. Qed.

Lemma triple_reject P b e : triple P (reject_if b e) (λ _ servers, b = false ∧ P servers).
Proof. intros g w Hg HP. by destruct b. Qed.

Lemma triple_get P : triple P get (λ s servers, mm_servers s.1 = servers ∧ P servers).
Proof. intros g w Hg HP. simpl. split; [done|]. by intros ? [= <-]. Qed.

Lemma triple_now P : triple P now (λ _, P).
Proof. intros g w Hg HP. unfold now. simpl. by destruct (host_now w). Qed.

Lemma triple_uuid P : triple P new_v4 (λ _, P).
Proof. intros g w Hg HP. unfold new_v4. simpl. by destruct (host_uuid w). Qed.

Lemma triple_adapter {A} P (m : M W AdapterError A) : triple P (try_adapter m) (λ _, P).
Proof. intros g w Hg HP. unfold try_adapter. simpl. by destruct (m w) as [[] ?]. Qed.

Lemma triple_server P id :
  triple P (server id) (λ s servers, servers !! id = Some s ∧ server_inv id s ∧ P servers).
Proof.
  intros g w Hg HP. unfold server. munfold.
  destruct (mm_servers g !! id) as [s|] eqn:Hs; simpl; (split; [done|]); [|done].
  intros ? [= <-]. split_and!; [done| |done]. by apply (ri_servers g Hg).
Qed.

Lemma triple_audit P id event outcome metadata : triple P (audit id event outcome metadata) (λ _, P).
Proof.
  intros g w Hg HP. unfold audit, new_v4, now. munfold.
  destruct (host_uuid w) as [u w1]. simpl. destruct (host_now w1) as [t w2]. simpl.
  split; [|done]. destruct Hg. split; simpl; [done..|]. apply push_bounded_length.
Qed.

Lemma triple_alter P id f :
  (∀ servers, P servers → keeps_server servers id f) →
  triple P (set_servers (alter f id)) (λ _ servers, ∃ old, P old ∧ servers = alter f id old).
Proof.
  intros Hf g w Hg HP. unfold set_servers, modify. simpl. split; [|by eauto].
  apply inv_alter; auto.
Qed.

Lemma triple_with P id f :
  (∀ servers, P servers → keeps_server servers id f) →
  triple P (with_server id f) (λ _ servers, ∃ old, P old ∧ servers = alter f id old).
Proof.
  intros Hf. eapply triple_bind; [apply triple_server|]. intros s g w Hg (_ & _ & HP).
  exact (triple_alter P id f Hf g w Hg HP).
Qed.

Lemma triple_true {A} P (m : MM A) Q : triple P m Q → triple P m (λ _ _, True).
Proof.
  intros Hm g w Hg Hp. specialize (Hm g w Hg Hp).
  destruct (m (g, w)) as [r [g' w']]. by destruct Hm.
Qed.

Lemma triple_post {A} P (m : MM A) Q' Q :
  triple P m Q' → (∀ a servers, Q' a servers → Q a servers) → triple P m Q.
Proof.
  intros Hm HQ g w Hg Hp. specialize (Hm g w Hg Hp).
  destruct (m (g, w)) as [r [g' w']]. destruct Hm. eauto.
Qed.

(** Logging touches nothing but the log. *)
Lemma keeps_log servers id x :
  keeps_server servers id (λ s, s <| ms_logs ::= λ l, push_bounded MAX_SERVER_LOGS l x |>).
Proof.
  intros s _ []. split_and!; [|done|intros ? Hn; left; exact Hn]. split; simpl; try done.
  apply push_bounded_length.
Qed.

Lemma triple_log P id level message : triple P (push_log id level message) (λ _ _, True).
Proof.
  unfold push_log. eapply triple_bind; [apply triple_now|]. intros t.
  eapply triple_bind; [apply triple_lift|]. intros m.
  eapply triple_true, triple_alter. intros servers _. apply keeps_log.
Qed.

(** ** The calls keep the invariant *)

(** Writes that leave definition, catalog and rules alone. *)
Ltac plain_write :=
  let s := fresh "s" in intros ? _ s _ [];
  split_and!; [|done|intros ? Hn; left; exact Hn];
  split; simpl in *; try done; try (by intros [?|?]); try (intros ? [=]).

Lemma triple_failure P id error state :
  state ≠ Connected → state ≠ Degraded → triple P (adapter_failure id error state) (λ _ _, True).
Proof.
  intros ??. unfold adapter_failure. eapply triple_bind; [apply triple_get|]. intros s.
  apply (triple_bind _ _ _ (λ _ _, True)); [|intros []; apply triple_audit].
  case_bool_decide; [|eapply triple_true, triple_ret].
  eapply triple_bind; [apply triple_alter; plain_write|]. intros [].
  eapply triple_bind; [apply triple_lift|]. intros m. apply triple_log.
Qed.

(** A log line and an audit event end most calls. *)
Lemma triple_report P id level message event outcome metadata :
  triple P (push_log id level message;; audit id event outcome metadata) (λ _ _, True).
Proof. eapply triple_bind; [apply triple_log|]. intros []. apply triple_audit. Qed.

Lemma triple_connect_failed {A} P id error state result :
  state ≠ Connected → state ≠ Degraded →
  triple P (connect_failed (A:=A) id error state result) (λ _ _, True).
Proof.
  intros ??. eapply triple_bind; [by apply triple_failure|]. intros [].
  eapply triple_bind; [apply triple_with; plain_write|]. intros []. apply triple_throw.
Qed.

Lemma triple_set P f :
  (∀ g, registry_inv g → P (mm_servers g) → registry_inv (g <| mm_servers ::= f |>)) →
  triple P (set_servers f) (λ _ _, True).
Proof. intros Hf g w Hg HP. unfold set_servers, modify. simpl. split; [by apply Hf|done]. Qed.

Lemma namespace_taken_false g namespace :
  namespace_taken g namespace = false ↔
  ∀ id s, mm_servers g !! id = Some s → sd_namespace (ms_definition s) ≠ namespace.
Proof.
  unfold namespace_taken. rewrite <- not_true_iff_false, existsb_exists. split.
  - intros Hno id s Hs Heq. apply Hno. exists s. rewrite <- list_elem_of_In, bool_decide_eq_true.
    split; [|done]. apply list_elem_of_fmap. exists (id, s). by rewrite elem_of_map_to_list.
  - intros Hall (s & Hs & Heq). rewrite bool_decide_eq_true in Heq.
    apply list_elem_of_In, list_elem_of_fmap in Hs as ([id ?] & -> & Hs%elem_of_map_to_list).
    by eapply Hall.
Qed.

Lemma server_new_inv definition :
  validate_definition definition = Ok () → server_inv (sd_id definition) (server_new definition).
Proof.
  intros Hv. split; simpl; try done; try constructor; try lia; try (by intros ? ?%elem_of_nil).
  destruct (sd_install definition); by intros [|].
Qed.

Lemma inv_insert_new g definition :
  registry_inv g → validate_definition definition = Ok () →
  (∀ id s, mm_servers g !! id = Some s → sd_namespace (ms_definition s) ≠ sd_namespace definition) →
  registry_inv (g <| mm_servers ::= <[sd_id definition := server_new definition]> |>).
Proof.
  intros [Hs Hn Hns Ha] Hv Htaken. split; simpl; [..|done].
  - intros i s [[<- <-]|[? ?]]%lookup_insert_Some; [by apply server_new_inv|by apply Hs].
  - intros i j s t n [[<- <-]|[? ?]]%lookup_insert_Some [[<- <-]|[? ?]]%lookup_insert_Some;
      simpl; try done; try (by intros ? ?%elem_of_nil); try (by intros ?%elem_of_nil). by apply Hn.
  - intros i j s t [[<- <-]|[? ?]]%lookup_insert_Some [[<- <-]|[? ?]]%lookup_insert_Some; simpl;
      intros Heq; [done|..|by eapply Hns]; exfalso; by eapply Htaken.
Qed.

Lemma triple_add definition : triple (λ _, True) (add_server definition) (λ _ _, True).
Proof.
  unfold add_server. eapply triple_bind; [apply triple_lift|]. intros [].
  eapply triple_bind; [apply triple_get|]. intros s.
  eapply triple_bind; [apply triple_reject|]. intros [].
  eapply triple_bind; [apply triple_set|].
  { intros g Hg (Hns & Heq & Hv & _). rewrite namespace_taken_false, Heq in Hns.
    by apply inv_insert_new. }
  intros []. eapply triple_bind; [apply triple_audit|]. intros [].
  eapply triple_true, triple_ret.
Qed.

Lemma seeded_rules_spec rules tools :
  NoDup (rule_key <$> rules) → NoDup (td_resolved_name <$> tools) →
  NoDup (rule_key <$> seeded_rules rules tools) ∧
  ∀ n, n ∈ td_resolved_name <$> tools → (n, ScopeGlobal) ∈ rule_key <$> seeded_rules rules tools.
Proof.
  intros Hr Ht. unfold seeded_rules. rewrite fmap_app, <- list_fmap_compose.
  set (fresh := filter _ tools).
  assert ((rule_key ∘ (λ t, conservative_rule (td_resolved_name t))) <$> fresh =
    (λ n, (n, ScopeGlobal)) <$> (td_resolved_name <$> fresh)) as ->.
  { rewrite <- list_fmap_compose. done. }
  split.
  - apply NoDup_app. split_and!; [done| |].
    + intros k Hk (n & -> & (t & -> & Ht')%list_elem_of_fmap)%list_elem_of_fmap.
      apply list_elem_of_filter in Ht' as [Hno _]. done.
    + apply NoDup_fmap_2_strong; [by intros ? ? _ _ [= ->]|].
      eapply sublist_NoDup; [exact Ht|]. apply fmap_sublist, sublist_filter.
  - intros n (t & -> & Hin)%list_elem_of_fmap. apply elem_of_app.
    destruct (decide ((td_resolved_name t, ScopeGlobal) ∈ rule_key <$> rules)) as [|Hno]; [by left|].
    right. apply list_elem_of_fmap. exists (td_resolved_name t). split; [done|].
    apply list_elem_of_fmap. exists t. split; [done|]. by apply list_elem_of_filter.
Qed.

Lemma elem_of_names_excluding g id n :
  n ∈ catalog_names_excluding g id ↔
  ∃ j t, mm_servers g !! j = Some t ∧ j ≠ id ∧ n ∈ tool_names t.
Proof.
  unfold catalog_names_excluding. rewrite elem_of_list_to_set, list_elem_of_bind. split.
  - intros ([j t] & Hn & Hj%elem_of_map_to_list). simpl in Hn. case_decide; [by apply elem_of_nil in Hn|].
    eauto.
  - intros (j & t & Hj & Hne & Hn). exists (j, t). split; [|by apply elem_of_map_to_list].
    simpl. by rewrite decide_False.
Qed.

Lemma triple_connected P id negotiated catalog latency :
  (∀ servers, P servers →
     NoDup (td_resolved_name <$> ca_tools catalog) ∧
     (∀ n j t, n ∈ td_resolved_name <$> ca_tools catalog → servers !! j = Some t → j ≠ id →
        n ∉ tool_names t) ∧
     (∀ s, servers !! id = Some s → negotiated ∈ sd_supported_protocols (ms_definition s))) →
  triple P (connected id negotiated catalog latency) (λ _ _, True).
Proof.
  intros HP. unfold connected. eapply triple_bind; [apply triple_now|]. intros t.
  eapply triple_bind; [apply triple_with|intros []; apply triple_report].
  intros servers (Hnd & Hfree & Hneg)%HP s Hs []. split_and!; [|done|].
  - pose proof (seeded_rules_spec (ms_permissions s) (ca_tools catalog) si_rules0 Hnd) as [? ?].
    split; simpl; try done. intros v [= <-]. by apply Hneg.
  - intros n Hn. right. intros j u Hj Hne. by eapply Hfree.
Qed.

Lemma triple_connect P id adapter : triple P (connect id adapter) (λ _ _, True).
Proof.
  unfold connect. eapply triple_bind; [apply triple_server|]. intros s0.
  eapply triple_bind; [apply triple_reject|]. intros [].
  eapply triple_bind; [apply triple_with; plain_write|]. intros [].
  eapply triple_bind; [apply triple_with; plain_write|]. intros [].
  eapply triple_bind; [apply triple_server|]. intros s.
  eapply triple_bind; [apply triple_adapter|]. intros [error|handshake].
  { apply triple_connect_failed; by case_match. }
  destruct (negotiate_protocol _ _) as [negotiated|] eqn:Hneg; [|by apply triple_connect_failed].
  eapply triple_bind; [apply triple_get|]. intros sys.
  destruct (normalize_catalog _ _ _) as [[catalog|e|]|] eqn:Hnorm;
    [|by apply triple_connect_failed|apply triple_panic..].
  apply triple_connected. intros servers (Heq & Hs & _).
  assert (∃ tools, normalize_tools (sd_namespace (ms_definition s)) (catalog_names_excluding sys.1 id)
    (ca_tools (rh_catalog handshake)) = Some (Ok tools) ∧ ca_tools catalog = tools) as (tools & Hn & Hc).
  { unfold normalize_catalog in Hnorm. destruct (normalize_tools _ _ _) as [[]|]; simplify_eq. eauto. }
  apply normalize_tools_ok in Hn as (_ & Hnd & Hfresh). subst tools. split_and!; [done|..].
  - intros n j t (tool & -> & Htool)%list_elem_of_fmap Hj Hne Hin.
    apply (Hfresh tool Htool), elem_of_names_excluding. rewrite Heq. eauto.
  - intros s' Hs'. simplify_eq. apply set_last_spec in Hneg as [? _]. set_solver.
Qed.

(** The common steps of the calls that follow. *)
Ltac step :=
  lazymatch goal with
  | |- triple _ (throw _) _ => apply triple_throw
  | |- triple _ (mret _) _ => eapply triple_true, triple_ret
  | |- triple _ (audit _ _ _ _) _ => apply triple_audit || eapply triple_true, triple_audit
  | |- triple _ (push_log _ _ _ ≫= λ _, audit _ _ _ _) _ => apply triple_report
  | |- triple _ (server _ ≫= _) _ => eapply triple_bind; [apply triple_server|intros ?]
  | |- triple _ (get ≫= _) _ => eapply triple_bind; [apply triple_get|intros ?]
  | |- triple _ (now ≫= _) _ => eapply triple_bind; [apply triple_now|intros ?]
  | |- triple _ (new_v4 ≫= _) _ => eapply triple_bind; [apply triple_uuid|intros ?]
  | |- triple _ (lift _ ≫= _) _ => eapply triple_bind; [apply triple_lift|intros ?]
  | |- triple _ (ok_or _ _ ≫= _) _ => eapply triple_bind; [apply triple_ok_or|intros ?]
  | |- triple _ (reject_if _ _ ≫= _) _ => eapply triple_bind; [apply triple_reject|intros []]
  | |- triple _ (try_adapter _ ≫= _) _ => eapply triple_bind; [apply triple_adapter|intros [?|?]]
  | |- triple _ (audit _ _ _ _ ≫= _) _ => eapply triple_bind; [apply triple_audit|intros []]
  | |- triple _ (push_log _ _ _ ≫= _) _ => eapply triple_bind; [apply triple_log|intros []]
  | |- triple _ (transition _ _ ≫= _) _ => eapply triple_bind; [apply triple_with; plain_write|intros []]
  | |- triple _ (adapter_failure _ _ _ ≫= _) _ => eapply triple_bind; [by apply triple_failure|intros []]
  | |- triple _ (with_server _ _ ≫= _) _ => eapply triple_bind; [apply triple_with|intros []]
  | |- triple _ (set_servers _ ≫= _) _ => eapply triple_bind; [apply triple_set|intros []]
  end.

Lemma triple_install P id consent adapter : triple P (install id consent adapter) (λ _ _, True).
Proof.
  unfold install, install_recipe. apply (triple_bind _ _ _ (λ _ _, True)).
  { step. eapply triple_true, triple_ok_or. }
  intros recipe. repeat step. plain_write.
Qed.

Lemma triple_disable P id adapter : triple P (disable id adapter) (λ _ _, True).
Proof. unfold disable. repeat step. plain_write. Qed.

Lemma triple_restart P id adapter : triple P (restart id adapter) (λ _ _, True).
Proof.
  unfold restart. step. eapply triple_bind; [apply triple_adapter|intros r].
  repeat step; [plain_write|]. apply triple_connect.
Qed.

Lemma triple_sample P prior r : triple P (health_sample prior r) (λ _, P).
Proof.
  unfold health_sample. step. destruct r as [error|latency]; [step|];
    (eapply triple_post; [apply triple_ret|]); naive_solver.
Qed.

Lemma triple_check_health P id adapter : triple P (check_health id adapter) (λ _ _, True).
Proof.
  unfold check_health. step. step. eapply triple_bind; [apply triple_adapter|intros r].
  eapply triple_bind; [apply triple_sample|intros sample]. repeat step.
  intros servers (Hst & Hs & Ha & _) s Hs'. simplify_eq. intros [].
  rewrite negb_false_iff, bool_decide_eq_true in Hst.
  split_and!; [|done|intros ? Hn; left; exact Hn]. split; simpl in *; try done.
  intros _. apply si_enabled0. set_solver.
Qed.

Lemma triple_offer P id plan : triple P (offer_update id plan) (λ _ _, True).
Proof. unfold offer_update. repeat step. plain_write. Qed.

Lemma retain_length history previous : length history ≤ 3 → length (retain history previous) ≤ 3.
Proof.
  intros Hl. unfold retain. destruct previous as [p|]; [|done].
  destruct (3 <? length (history ++ [p])) eqn:Hb.
  - rewrite length_drop, length_app. simpl. lia.
  - apply Nat.ltb_ge in Hb. lia.
Qed.

Lemma triple_apply_update P id consent adapter :
  triple P (apply_update id consent adapter) (λ _ _, True).
Proof.
  unfold apply_update, pending_plan. apply (triple_bind _ _ _ (λ _ _, True)).
  { step. eapply triple_true, triple_ok_or. }
  intros plan. repeat step. intros ? _ s _ []. split_and!; [|done|intros ? Hn; left; exact Hn].
  split; simpl in *; try done; [by intros [|]|by apply retain_length].
Qed.

Lemma triple_rollback P id consent adapter : triple P (rollback id consent adapter) (λ _ _, True).
Proof.
  unfold rollback, rollback_consent_preview. apply (triple_bind _ _ _ (λ _ _, True)).
  { repeat step. }
  intros preview. repeat step.
  intros ? (_ & _ & _ & _) s _ []. split_and!; [|done|intros ? Hn; left; exact Hn].
  split; simpl in *; try done; [by intros [|]|]. rewrite length_app, length_take.
  destruct (ms_current_release s); simpl; lia.
Qed.

Lemma triple_uninstall P id consent adapter : triple P (uninstall id consent adapter) (λ _ _, True).
Proof.
  unfold uninstall, uninstall_consent_preview. apply (triple_bind _ _ _ (λ _ _, True)).
  { repeat step. }
  intros preview. repeat step.
  - intros servers (old & (_ & Ha & _) & _) s _ [].
    split_and!; [|done|intros ? Hn; left; exact Hn]. split; simpl in *; try done.
    apply (si_enabled id _ Ha).
  - intros ? _ s _ []. split_and!; [|done|by intros ? ?%elem_of_nil].
    split; simpl in *; try done; try (by intros [|]); try constructor; try lia;
      by intros ? ?%elem_of_nil.
Qed.

Lemma triple_purge P id : triple P (purge_tombstone id) (λ _ _, True).
Proof.
  unfold purge_tombstone. repeat step. intros g [Hs Hn Hns Ha] _. split; simpl; [..|done].
  - intros i s [_ ?]%lookup_delete_Some. by apply Hs.
  - intros i j s t n [_ ?]%lookup_delete_Some [_ ?]%lookup_delete_Some. by apply Hn.
  - intros i j s t [_ ?]%lookup_delete_Some [_ ?]%lookup_delete_Some. by apply Hns.
Qed.

Lemma replaced_rules_spec rules rule :
  NoDup (rule_key <$> rules) →
  let rules' := filter (λ existing, rule_key existing ≠ rule_key rule) rules ++ [rule] in
  NoDup (rule_key <$> rules') ∧ ∀ k, k ∈ rule_key <$> rules → k ∈ rule_key <$> rules'.
Proof.
  intros Hnd rules'. unfold rules'. rewrite fmap_app. split.
  - apply NoDup_app. split_and!; [| |apply NoDup_singleton].
    + eapply sublist_NoDup; [exact Hnd|]. apply fmap_sublist, sublist_filter.
    + intros k (r & -> & [Hne _]%list_elem_of_filter)%list_elem_of_fmap.
      by rewrite list_fmap_singleton, list_elem_of_singleton.
  - intros k (r & -> & Hr)%list_elem_of_fmap. apply elem_of_app.
    destruct (decide (rule_key r = rule_key rule)) as [->|Hne]; [right; by left|left].
    apply list_elem_of_fmap. exists r. split; [done|]. by apply list_elem_of_filter.
Qed.

Lemma triple_set_permission P id rule : triple P (set_permission id rule) (λ _ _, True).
Proof.
  unfold set_permission. repeat step.
  intros ? _ s _ []. split_and!; [|done|intros ? Hn; left; exact Hn].
  destruct (replaced_rules_spec (ms_permissions s) rule si_rules0) as [? ?].
  split; simpl in *; auto.
Qed.

Lemma triple_set_scopes P id project agent : triple P (set_scopes id project agent) (λ _ _, True).
Proof. unfold set_scopes. repeat step. plain_write. Qed.

Lemma triple_restore_failure P id message : triple P (record_restore_failure id message) (λ _ _, True).
Proof. unfold record_restore_failure. repeat step; plain_write. Qed.

Lemma triple_prepare P id tool arguments context :
  triple P (prepare_tool_call id tool arguments context) (λ _ _, True).
Proof. unfold prepare_tool_call. repeat step. cbv zeta. destruct (bool_decide (_ = Deny)); repeat step. Qed.

Lemma recover_server_inv id s : server_inv id s → server_inv id (recover_server s).1.
Proof.
  intros Hinv. unfold recover_server.
  destruct (ms_state s) eqn:Hst; try destruct (ms_enabled s); try exact Hinv; destruct Hinv;
    (split; simpl in *; rewrite ?Hst; try done; try (by intros [|])).
  all: try (destruct (ms_pending_update s); by intros [|]).
Qed.

Lemma recover_server_names s :
  tool_names (recover_server s).1 = tool_names s ∧
  ms_definition (recover_server s).1 = ms_definition s.
Proof. unfold recover_server. destruct (ms_state s); try destruct (ms_enabled s); done. Qed.

Lemma triple_recover_loop P ids : triple P (recover_loop ids) (λ _ _, True).
Proof.
  revert P. induction ids as [|id ids IH]; intros P; simpl; [repeat step|].
  step. destruct (recover_server a) as [s' reconnect] eqn:Hr. step.
  { intros g Hg (Hs & Ha & _). pose proof (recover_server_inv id a Ha) as Hinv.
    pose proof (recover_server_names a) as [Hn Hd]. rewrite Hr in Hinv, Hn, Hd. simpl in *.
    replace (<[id:=s']> (mm_servers g)) with (alter (λ _, s') id (mm_servers g)).
    - apply (inv_alter g id (λ _, s') Hg). intros s Hs' _. simplify_eq.
      split_and!; [done|by rewrite Hd|]. intros n. rewrite Hn. by left.
    - apply map_eq. intros i. destruct (decide (i = id)) as [->|].
      + by rewrite lookup_alter_eq, Hs, lookup_insert_eq.
      + by rewrite lookup_alter_ne, lookup_insert_ne. }
  apply (triple_bind _ _ _ (λ _ _, True)); [case_match; [apply triple_log|repeat step]|intros []].
  eapply triple_bind; [apply IH|intros rest]. repeat step.
Qed.

Lemma triple_audit_all P ids event outcome : triple P (audit_all ids event outcome) (λ _, P).
Proof.
  induction ids as [|id ids IH]; simpl; [eapply triple_post; [apply triple_ret|naive_solver]|].
  step. apply IH.
Qed.

Lemma triple_recover P : triple P recover_after_restart (λ _ _, True).
Proof.
  unfold recover_after_restart. step.
  eapply triple_bind; [apply triple_recover_loop|intros lists].
  eapply triple_bind; [apply triple_audit_all|intros []]. repeat step.
Qed.

(** ** Reachable registries *)

Inductive op : Type :=
  | OAdd (definition : ServerDefinition)
  | OInstall (id : Uuid) (consent : OperationConsent) (adapter : PackageAdapter W)
  | OConnect (id : Uuid) (adapter : RuntimeAdapter W)
  | ODisable (id : Uuid) (adapter : RuntimeAdapter W)
  | ORestart (id : Uuid) (adapter : RuntimeAdapter W)
  | OCheckHealth (id : Uuid) (adapter : RuntimeAdapter W)
  | OOfferUpdate (id : Uuid) (plan : UpdatePlan)
  | OApplyUpdate (id : Uuid) (consent : OperationConsent) (adapter : PackageAdapter W)
  | ORollback (id : Uuid) (consent : OperationConsent) (adapter : PackageAdapter W)
  | OUninstall (id : Uuid) (consent : OperationConsent) (adapter : PackageAdapter W)
  | OPurge (id : Uuid)
  | OSetPermission (id : Uuid) (rule : ToolPermissionRule)
  | OSetScopes (id : Uuid) (project_scopes agent_scopes : gset string)
  | ORecover
  | ORestoreFailure (id : Uuid) (message : string)
  | OPrepare (id : Uuid) (tool : string) (arguments : Value) (context : InvocationContext).

Definition exec (o : op) : MM () :=
  match o with
  | OAdd definition => _ ← add_server definition; mret ()
  | OInstall id consent adapter => install id consent adapter
  | OConnect id adapter => connect id adapter
  | ODisable id adapter => disable id adapter
  | ORestart id adapter => restart id adapter
  | OCheckHealth id adapter => _ ← check_health id adapter; mret ()
  | OOfferUpdate id plan => offer_update id plan
  | OApplyUpdate id consent adapter => apply_update id consent adapter
  | ORollback id consent adapter => rollback id consent adapter
  | OUninstall id consent adapter => uninstall id consent adapter
  | OPurge id => purge_tombstone id
  | OSetPermission id rule => set_permission id rule
  | OSetScopes id project agent => set_scopes id project agent
  | ORecover => _ ← recover_after_restart; mret ()
  | ORestoreFailure id message => record_restore_failure id message
  | OPrepare id tool arguments context => _ ← prepare_tool_call id tool arguments context; mret ()
  end.

(** The world may change in any way between two calls. *)
Inductive reachable : McpManager → Prop :=
  | reach_default : reachable manager_default
  | reach_call g w o r g' w' :
      reachable g → exec o (g, w) = (r, (g', w')) → reachable g'.

Lemma exec_triple o : triple (λ _, True) (exec o) (λ _ _, True).
Proof.
  destruct o; simpl;
    try (eapply triple_bind; [|intros ?; eapply triple_true, triple_ret]);
    auto using triple_add, triple_install, triple_connect, triple_disable, triple_restart,
      triple_check_health, triple_offer, triple_apply_update, triple_rollback, triple_uninstall,
      triple_purge, triple_set_permission, triple_set_scopes, triple_recover,
      triple_restore_failure, triple_prepare.
Qed.

Lemma reachable_registry g : reachable g → registry_inv g.
Proof.
  induction 1 as [|g w o r g' w' _ IH Hrun].
  - split; simpl; intros; simplify_map_eq; lia.
  - pose proof (exec_triple o g w IH I) as Ht. rewrite Hrun in Ht. by destruct Ht.
Qed.

(** C7: the registry's invariant.  After any sequence of calls, failed and panicking ones included,
    every server is stored under its identifier with a valid definition, has tools with distinct
    names each covered by a global rule, at most one rule per tool and scope, a negotiated
    protocol it supports, and is enabled while connected; no tool name and no namespace belongs
    to two servers; release history, logs and audit trail are bounded. *)
Theorem mcp_registry_invariant g : reachable g → registry_inv g.
Proof. apply reachable_registry. Qed.

(** ** Consent *)

Inductive package_call : Type := CallInstall | CallUpdate | CallRollback | CallUninstall.

Definition preview_of (c : package_call) (id : Uuid) : MM (string * string) :=
  match c with
  | CallInstall => install_consent_preview id
  | CallUpdate => update_consent_preview id
  | CallRollback => rollback_consent_preview id
  | CallUninstall => uninstall_consent_preview id
  end.

Definition run_package (c : package_call) (id : Uuid) (consent : OperationConsent)
    (adapter : PackageAdapter W) : MM () :=
  match c with
  | CallInstall => install id consent adapter
  | CallUpdate => apply_update id consent adapter
  | CallRollback => rollback id consent adapter
  | CallUninstall => uninstall id consent adapter
  end.

(** The user confirmed exactly this digest and text. *)
Definition consents (consent : OperationConsent) (preview : string * string) : Prop :=
  oc_user_confirmed consent = true ∧ oc_operation_digest consent = preview.1 ∧
  oc_displayed_text consent = preview.2.

Lemma verify_consent_ok consent digest text :
  verify_consent consent digest text = Ok () ↔ consents consent (digest, text).
Proof.
  unfold verify_consent, consents.
  rewrite outcome_seq_ok, !ensure_not_ok, negb_false_iff, orb_false_iff, !negb_false_iff,
    !bool_decide_eq_true. done.
Qed.

Lemma verify_consent_err consent digest text :
  ¬ consents consent (digest, text) → ∃ e, verify_consent consent digest text = Err e.
Proof.
  rewrite <- verify_consent_ok. unfold verify_consent, ensure_not. munfold.
  repeat case_match; naive_solver.
Qed.

(** C23: package operations need exact consent.  Unless the user confirmed exactly the digest and the
    text that the preview of the operation shows in this state, installing, updating, rolling
    back and uninstalling return an error and leave the registry, its records and the world as
    they were: no command runs. *)
Theorem package_operations_need_consent c id consent adapter g w :
  (∀ preview, preview_of c id (g, w) = (Ok preview, (g, w)) → ¬ consents consent preview) →
  ∃ e, run_package c id consent adapter (g, w) = (Err e, (g, w)).
Proof.
  intros Hno. destruct c; simpl in *.
  - unfold install_consent_preview, install, install_recipe, server in *. munfold.
    destruct (mm_servers g !! id) as [s|]; simpl in *; [|by eauto].
    destruct (sd_install _) as [r|]; simpl in *; [|by eauto].
    destruct (verify_consent_err _ _ _ (Hno _ eq_refl)) as [e He]. rewrite He. eauto.
  - unfold update_consent_preview, apply_update, pending_plan, server in *. munfold.
    destruct (mm_servers g !! id) as [s|]; simpl in *; [|by eauto].
    destruct (ms_pending_update s) as [r|]; simpl in *; [|by eauto].
    destruct (verify_consent_err _ _ _ (Hno _ eq_refl)) as [e He]. rewrite He. eauto.
  - unfold rollback, rollback_consent_preview, server in *. munfold.
    destruct (mm_servers g !! id) as [s|]; simpl in *; [|by eauto].
    destruct (last _) as [r|]; simpl in *; [|by eauto].
    destruct (verify_consent_err _ _ _ (Hno _ eq_refl)) as [e He]. rewrite He. eauto.
  - unfold uninstall, uninstall_consent_preview, server in *. munfold.
    destruct (mm_servers g !! id) as [s|]; simpl in *; [|by eauto].
    destruct (verify_consent_err _ _ _ (Hno _ eq_refl)) as [e He]. rewrite He. eauto.
Qed.

(** ** Exact effects of logging and auditing *)

Lemma audit_run id event outcome metadata g w :
  ∃ g' w', audit id event outcome metadata (g, w) = (Ok (), (g', w')) ∧
    mm_servers g' = mm_servers g.
Proof.
  unfold audit, new_v4, now. munfold.
  destruct (host_uuid w) as [u w1]. simpl. destruct (host_now w1) as [t w2]. simpl. eauto.
Qed.

(** A server without its log. *)
Definition unlogged (s : ManagedServer) : ManagedServer := s <| ms_logs := [] |>.

Lemma push_log_run id level message out g w :
  sanitize_adapter_message (E:=ManagerError) message = Ok out →
  ∃ g' w', push_log id level message (g, w) = (Ok (), (g', w')) ∧
    (∀ i, unlogged <$> mm_servers g' !! i = unlogged <$> mm_servers g !! i) ∧
    mm_audit_events g' = mm_audit_events g.
Proof.
  intros Hm. unfold push_log, now, set_servers. munfold. destruct (host_now w) as [t w1]. simpl.
  rewrite Hm. eexists _, _. split_and!; [done| |done]. intros i. simpl.
  destruct (decide (i = id)) as [->|]; [|by rewrite lookup_alter_ne].
  rewrite lookup_alter_eq. by destruct (mm_servers g !! id).
Qed.

(** ** Routing *)

(** A call that may run without asking: the deciding rule allows it and the tool declares
    itself read-only, not destructive and closed-world. *)
Definition unattended (rule : ToolPermissionRule) (tool : ToolDescriptor) : Prop :=
  pr_decision rule = Allow ∧ ta_read_only (td_annotations tool) = true ∧
  ta_destructive (td_annotations tool) = false ∧ ta_open_world (td_annotations tool) = false.

Lemma needs_approval_false rule tool :
  pr_decision rule ≠ Deny → (needs_approval rule tool = false ↔ unattended rule tool).
Proof.
  intros Hd. unfold needs_approval, unattended.
  rewrite !orb_false_iff, negb_false_iff, bool_decide_eq_false.
  destruct (pr_decision rule); naive_solver.
Qed.


(** ** Recovery *)

Definition transient (st : LifecycleState) : Prop := st ∈ [Installing; Updating; Uninstalling].

Lemma recover_server_spec s :
  let s' := (recover_server s).1 in
  ¬ transient (ms_state s') ∧ ms_enabled s' = (recover_server s).2 ∧
  (ms_enabled s' = true →
     ms_state s' = Connecting ∧ ms_negotiated_protocol s' = None ∧ ms_health s' = None).
Proof.
  unfold recover_server, transient.
  destruct (ms_state s) eqn:Hst, (ms_enabled s) eqn:Hen, (ms_pending_update s); simpl;
    rewrite ?Hst, ?Hen; split_and!; (done || set_solver).
Qed.

Lemma recover_unlogged s t :
  unlogged s = unlogged t →
  (recover_server s).2 = (recover_server t).2 ∧
  unlogged (recover_server s).1 = unlogged (recover_server t).1.
Proof.
  destruct s as [d st en], t as [d' st' en']. intros [= <- <- <- <- <- <- <- <- <- <- <-].
  by destruct st, en.
Qed.

Definition reconnects (servers : gmap Uuid ManagedServer) (id : Uuid) : bool :=
  match servers !! id with Some s => (recover_server s).2 | None => false end.

Lemma reconnects_unlogged servers servers' id :
  unlogged <$> servers !! id = unlogged <$> servers' !! id →
  reconnects servers id = reconnects servers' id ∧
  (λ s, unlogged (recover_server s).1) <$> servers !! id =
  (λ s, unlogged (recover_server s).1) <$> servers' !! id.
Proof.
  unfold reconnects. destruct (servers !! id), (servers' !! id); simpl; try done.
  intros Heq%(inj Some). apply recover_unlogged in Heq as [-> ->]. done.
Qed.

(** The log line of a recovered server. *)
Lemma recover_log id (changed : bool) g w :
  ∃ g' w', (if changed then push_log id Info_
      "Recovered persisted MCP state after application restart" else mret ()) (g, w) =
    (Ok (), (g', w')) ∧
    ∀ i, unlogged <$> mm_servers g' !! i = unlogged <$> mm_servers g !! i.
Proof.
  destruct changed; [|by eexists _, _].
  destruct (push_log_run id Info_ "Recovered persisted MCP state after application restart"
    "Recovered persisted MCP state after application restart" g w) as (g' & w' & ? & ? & _);
    [vm_compute; reflexivity|]. eauto.
Qed.

Lemma recover_loop_run ids g w :
  NoDup ids → (∀ id, id ∈ ids → is_Some (mm_servers g !! id)) →
  ∃ reconnect changed g' w',
    recover_loop ids (g, w) = (Ok (reconnect, changed), (g', w')) ∧
    NoDup reconnect ∧
    (∀ id, id ∈ reconnect ↔ id ∈ ids ∧ reconnects (mm_servers g) id = true) ∧
    ∀ id, unlogged <$> mm_servers g' !! id =
      if decide (id ∈ ids) then (λ s, unlogged (recover_server s).1) <$> mm_servers g !! id
      else unlogged <$> mm_servers g !! id.
Proof.
  intros Hnd. revert g w. induction Hnd as [|id ids Hid Hnd IH]; intros g w Hdom.
  { exists [], [], g, w. split_and!; [done|constructor|set_solver|].
    intros id. by rewrite decide_False by apply not_elem_of_nil. }
  cbn [recover_loop].
  destruct (Hdom id) as [s Hs]; [by left|]. unfold server. munfold. rewrite Hs. simpl.
  destruct (recover_server s) as [s' reconnect] eqn:Hrec. simpl.
  set (g1 := {| mm_servers := _; mm_audit_events := _ |}). set (changed := negb _).
  destruct (recover_log id changed g1 w) as (g2 & w2 & Hlog & Hsame).
  unfold mret, M_ret in Hlog. rewrite Hlog. clear Hlog.
  assert (∀ i, i ≠ id → unlogged <$> mm_servers g2 !! i = unlogged <$> mm_servers g !! i) as Hrest.
  { intros i Hi. rewrite Hsame. simpl. by rewrite lookup_insert_ne. }
  destruct (IH g2 w2) as (rest & changed' & g3 & w3 & Hrun & Hndr & Hin & Hserv).
  { intros i Hi. destruct (Hdom i) as [t Ht]; [by right|]. specialize (Hrest i ltac:(set_solver)).
    rewrite Ht in Hrest. destruct (mm_servers g2 !! i); [by eexists|done]. }
  rewrite Hrun. eexists _, _, g3, w3. split_and!; [done|..].
  - simpl. destruct reconnect; [|done]. constructor; [|done]. rewrite Hin. naive_solver.
  - intros i. simpl. rewrite elem_of_app, Hin, elem_of_cons.
    destruct (decide (i = id)) as [->|Hne].
    + unfold reconnects at 2. rewrite Hs, Hrec. simpl. destruct reconnect; set_solver.
    + destruct (reconnects_unlogged _ _ i (Hrest i Hne)) as [-> _]. destruct reconnect; set_solver.
  - intros i. rewrite Hserv. destruct (decide (i = id)) as [->|Hne].
    + rewrite decide_False, decide_True by set_solver. rewrite Hsame, Hs. simpl.
      by rewrite lookup_insert_eq, Hrec.
    + destruct (reconnects_unlogged _ _ i (Hrest i Hne)) as [_ Heq].
      destruct (decide (i ∈ ids)); [rewrite decide_True by set_solver|rewrite decide_False by set_solver];
        auto.
Qed.

Lemma audit_all_run ids event outcome g w :
  ∃ g' w', audit_all ids event outcome (g, w) = (Ok (), (g', w')) ∧ mm_servers g' = mm_servers g.
Proof.
  revert g w. induction ids as [|id ids IH]; intros g w; simpl; [by eexists _, _|]. munfold.
  destruct (audit_run id event outcome ∅ g w) as (g1 & w1 & -> & <-). apply IH.
Qed.

(** Recovery after a restart of the host is total and exact.  It never fails; it leaves no
    server in a transient state; it changes each server as [recover_server] says, log aside; and
    it returns, without duplicates, exactly the servers that are enabled afterwards, all of them
    waiting to connect with no protocol and no health sample left over. *)
Theorem restart_recovery_is_exact g w :
  ∃ ids g' w', recover_after_restart (g, w) = (Ok ids, (g', w')) ∧ NoDup ids ∧
    (∀ id, unlogged <$> mm_servers g' !! id =
       (λ s, unlogged (recover_server s).1) <$> mm_servers g !! id) ∧
    (∀ id s, mm_servers g' !! id = Some s → ¬ transient (ms_state s) ∧
       (id ∈ ids ↔ ms_enabled s = true) ∧
       (ms_enabled s = true → ms_state s = Connecting ∧ ms_negotiated_protocol s = None ∧
          ms_health s = None)) ∧
    (∀ id, id ∈ ids → is_Some (mm_servers g' !! id)).
Proof.
  unfold recover_after_restart. munfold.
  destruct (recover_loop_run (keys (mm_servers g)) g w) as (ids & changed & g1 & w1 & Hrun & Hnd & Hin & Hs);
    [apply NoDup_keys|by intros id ?%elem_of_keys|].
  rewrite Hrun. simpl.
  destruct (audit_all_run changed "server.restart_recovered" "success" g1 w1) as (g2 & w2 & -> & Heq).
  eexists _, g2, w2. rewrite Heq.
  assert (∀ id, unlogged <$> mm_servers g1 !! id =
    (λ s, unlogged (recover_server s).1) <$> mm_servers g !! id) as Hall.
  { intros id. rewrite Hs. case_decide as Hk; [done|]. rewrite elem_of_keys, <- eq_None_not_Some in Hk.
    by rewrite Hk. }
  split_and!; [done|done|done|..].
  - intros id s Hid. specialize (Hall id). rewrite Hid in Hall. symmetry in Hall.
    apply fmap_Some in Hall as (s0 & Hs0 & Hrec).
    destruct (recover_server_spec s0) as (Ht & He & Hc).
    pose proof (f_equal ms_state Hrec) as Hst. pose proof (f_equal ms_enabled Hrec) as Hen.
    pose proof (f_equal ms_negotiated_protocol Hrec) as Hp. pose proof (f_equal ms_health Hrec) as Hh.
    simpl in *. rewrite Hst, Hen, Hp, Hh. split; [done|]. split; [|done].
    rewrite Hin, elem_of_keys, He. unfold reconnects. rewrite Hs0. naive_solver.
  - intros id [Hk _]%Hin. apply elem_of_keys in Hk as [s Hk]. specialize (Hall id).
    rewrite Hk in Hall. destruct (mm_servers g1 !! id); [by eexists|done].
Qed.

(** ** Export *)

(** Exports hold no credentials.  What a reachable registry exports are exactly the definitions of
    its servers that are not uninstalled, in the order of their identifiers, and no binding with
    a credential-like name in them is a literal. *)
Theorem exports_hold_no_credentials g w export sys :
  reachable g → export_secret_free (g, w) = (Ok export, sys) →
  (∀ d, d ∈ se_servers export ↔
     ∃ id s, mm_servers g !! id = Some s ∧ ms_state s ≠ Uninstalled ∧ d = ms_definition s) ∧
  StronglySorted N.le (sd_id <$> se_servers export) ∧
  ∀ d b, d ∈ se_servers export → b ∈ transport_bindings (sd_transport d) →
    is_sensitive_name (bi_name b) = true → ∃ r, bi_value b = Keychain r.
Proof.
  intros Hinv%reachable_registry. unfold export_secret_free, now. munfold.
  destruct (host_now w) as [t w']. intros [= <- <-]. simpl.
  set (kept := filter live (entries (mm_servers g))).
  assert (∀ id s, (id, s) ∈ kept ↔ mm_servers g !! id = Some s ∧ ms_state s ≠ Uninstalled) as Hk.
  { intros id s. unfold kept. rewrite list_elem_of_filter, elem_of_entries. unfold live. naive_solver. }
  assert (∀ d, d ∈ (λ p : Uuid * ManagedServer, ms_definition p.2) <$> kept ↔
    ∃ id s, mm_servers g !! id = Some s ∧ ms_state s ≠ Uninstalled ∧ d = ms_definition s) as Hd.
  { intros d. rewrite list_elem_of_fmap. split.
    - intros ([id s] & -> & [? ?]%Hk). eauto.
    - intros (id & s & ? & ? & ->). exists (id, s). by rewrite Hk. }
  split_and!; [apply Hd|..].
  - rewrite <- list_fmap_compose.
    assert ((sd_id ∘ (λ p : Uuid * ManagedServer, ms_definition p.2)) <$> kept = kept.*1) as ->.
    { apply list_fmap_ext. intros i [id s] Hi%list_elem_of_lookup_2%Hk. simpl.
      apply (si_key id s), (ri_servers g Hinv), Hi. }
    unfold kept, entries. eapply StronglySorted_fmap;
      [|apply StronglySorted_filter, (StronglySorted_merge_sort entry_le)]. done.
  - intros d b (id & s & Hs & _ & ->)%Hd Hb Hn.
    destruct (ri_servers g Hinv id s Hs) as [_ Hv _ _ _ _ _ _ _].
    apply validate_definition_ok in Hv as (_ & _ & _ & _ & _ & Hall). by apply Hall.
Qed.
End spec.

(** ** Instances

    A host whose clock and identifiers count up, a parser for [scheme://host] and a digest that
    marks its input: enough to run the calls. *)

Definition counting_host : Host N := {|
  host_now n := (Z.of_N n, n + 1)%N;
  host_uuid n := (n, n + 1)%N;
|}.

Definition split_url (s : string) : option (string * string) :=
  let scheme := take_while (λ c, negb (bool_decide (c = ":"%char))) (bytes s) in
  rest ← strip_prefix (bytes "://") (drop (length scheme) (bytes s));
  Some (of_bytes scheme, of_bytes (take_while (λ c, negb (bool_decide (c = "/"%char))) rest)).
Definition simple_urls : UrlLib := {|
  url_parse s := match split_url s with
    | Some (scheme, host) => inr (mkUrl scheme (Some host))
    | None => inl "relative URL without a base"
    end;
|}.
Definition marked_digests : Digests := {|
  digest_json r := "sha256:" +:+ display_command r;
  digest_text t := "sha256:" +:+ t;
|}.

Section instances.
#[local] Existing Instances counting_host simple_urls marked_digests hyphenated_text.

Definition local_recipe : InstallRecipe := mkInstallRecipe "npm" ["install"; "files server"] None None.
Definition local_server : ServerDefinition :=
  mkServerDefinition 7%N "Files" "files" "local files" Manual
    (Stdio "files-server" [] None [mkBinding "LOG_LEVEL" (NonSecret "info")])
    {["2026-07-28"; "2025-06-18"]} "2026-07-28" (Some local_recipe) ∅ ∅ ∅.
Definition other_server : ServerDefinition :=
  mkServerDefinition 7%N "Mail" "mail" "mail" Manual
    (StreamableHttp "https://mail.example" true
       [mkBinding "Authorization" (Keychain (mkKeychainReference "mail" "personal-agent-mcp" ""))] None)
    {["2026-07-28"]} "2026-07-28" None ∅ ∅ ∅.
Definition read_tool : ToolDescriptor :=
  mkToolDescriptor "Read File" None "reads" (VObject [("type", VString "object")]) None
    (mkToolAnnotations true false true false) "".
Definition offline_adapter : RuntimeAdapter N :=
  mkRuntimeAdapter
    (λ _, mret (mkRuntimeHandshake {["2025-06-18"]}
       (mkCapabilityCatalog [read_tool; read_tool] [] [] false false false) 3%N))
    (λ _, mret 5%N) (λ _, mret ()).
Definition npm_adapter : PackageAdapter N :=
  mkPackageAdapter (λ r w, (Ok (mkInstalledRelease "1.0.0" 0%Z None (Some r)), (w + 100)%N))
    (λ _, mret ()).
Definition npm_consent : OperationConsent :=
  mkOperationConsent "sha256:npm install 'files server'" "npm install 'files server'" 0%Z true.

Definition run_ops (ops : list (op (W:=N))) : McpManager * N :=
  foldl (λ s o, (exec o s).2) (manager_default, 0%N) ops.

Lemma run_ops_reachable ops : reachable (run_ops ops).1.
Proof.
  induction ops as [|o ops IH] using rev_ind; [constructor|].
  unfold run_ops in *. rewrite foldl_app. simpl.
  destruct (foldl _ _ ops) as [g w]. destruct (exec o (g, w)) as [r [g' w']] eqn:Hrun.
  by eapply reach_call.
Qed.

(** The registry after adding, installing and connecting the file server. *)
Definition session : McpManager * N :=
  run_ops [OAdd local_server; OInstall 7%N npm_consent npm_adapter; OConnect 7%N offline_adapter].

Example session_names :
  (λ s, (ms_state s, ms_enabled s, ms_negotiated_protocol s, tool_names s)) <$>
    mm_servers session.1 !! 7%N =
  Some (Connected, true, Some "2025-06-18", ["files.read_file"; "files.read_file_2"]).
Proof. vm_compute. reflexivity. Qed.

Lemma mcp_registry_invariant_witness : registry_inv session.1.
Proof. apply (mcp_registry_invariant session.1). apply run_ops_reachable. Defined.

Lemma valid_definitions_hold_no_credentials_witness :
  validate_definition other_server = Ok () ∧ identifier (bytes (sd_namespace other_server)).
Proof.
  split; [vm_compute; reflexivity|].
  apply (valid_definitions_hold_no_credentials other_server). vm_compute. reflexivity.
Defined.

Lemma catalog_names_never_collide_witness :
  ∃ r, normalize_catalog "files" (mkCapabilityCatalog [read_tool] [] [] false false false)
    {["files.read_file"]} = Some r.
Proof.
  destruct (catalog_names_never_collide "files"
    (mkCapabilityCatalog [read_tool] [] [] false false false) {["files.read_file"]}) as [r [Hr _]];
    [vm_compute; discriminate|]. exact (ex_intro _ r Hr).
Defined.

(** Without the confirmation the same consent installs nothing. *)
Lemma package_operations_need_consent_witness :
  ∃ e, install 7%N (mkOperationConsent "sha256:npm install 'files server'"
    "npm install 'files server'" 0%Z false) npm_adapter (run_ops [OAdd local_server]) =
    (Err e, run_ops [OAdd local_server]).
Proof.
  destruct (run_ops [OAdd local_server]) as [g w] eqn:Hrun.
  apply (package_operations_need_consent CallInstall 7%N _ npm_adapter g w).
  intros preview _ [Hc _]. discriminate Hc.
Defined.

Definition trusting_rule : ToolPermissionRule :=
  mkToolPermissionRule "files.read_file" (ScopeAgent "coder") Allow "mcp-restricted" 30%N 1000%N 4096%N.
Definition coder : InvocationContext := mkInvocationContext None None (Some "coder") false.


(** With that rule the call is ready to run; for another agent it asks. *)
Example routing_by_agent :
  let s := run_ops [OAdd local_server; OInstall 7%N npm_consent npm_adapter; OConnect 7%N offline_adapter;
                    OSetPermission 7%N trusting_rule] in
  (match (prepare_tool_call 7%N "files.read_file" (VObject []) coder s).1 with
   | Ok (Ready _) => true | _ => false end,
   match (prepare_tool_call 7%N "files.read_file" (VObject [])
            (mkInvocationContext None None (Some "guest") false) s).1 with
   | Ok (ApprovalRequired _) => true | _ => false end) = (true, true).
Proof. vm_compute. reflexivity. Qed.

Lemma exports_hold_no_credentials_witness :
  ∃ export sys, export_secret_free session = (Ok export, sys) ∧
    StronglySorted N.le (sd_id <$> se_servers export).
Proof.
  destruct (export_secret_free session) as [[export|e|] sys] eqn:Hrun;
    [|vm_compute in Hrun; discriminate..].
  exists export, sys. split; [done|]. pose proof (run_ops_reachable [OAdd local_server;
    OInstall 7%N npm_consent npm_adapter; OConnect 7%N offline_adapter]) as Hreach.
  fold session in Hreach. destruct session as [g w].
  apply (exports_hold_no_credentials g w export sys Hreach Hrun).
Defined.

(** ** What the lifecycle checks let through *)

(** [connect] refuses a server that waits for the consent to install it, but [restart] first
    moves the server to [Disabled], whatever its state: a server that was never installed is
    connected, and no consent was given. *)
Theorem restart_bypasses_install_consent :
  ∃ s, mm_servers (run_ops [OAdd local_server]).1 !! 7%N = Some s ∧
    ms_state s = InstallConsentRequired ∧
    (∃ e, (connect 7%N offline_adapter (run_ops [OAdd local_server])).1 = Err e) ∧
    ∃ s', mm_servers (run_ops [OAdd local_server; ORestart 7%N offline_adapter]).1 !! 7%N = Some s' ∧
      ms_state s' = Connected ∧ ms_current_release s' = None.
Proof.
  destruct (mm_servers (run_ops [OAdd local_server]).1 !! 7%N) as [s|] eqn:Hs;
    [|vm_compute in Hs; discriminate].
  destruct (mm_servers (run_ops [OAdd local_server; ORestart 7%N offline_adapter]).1 !! 7%N)
    as [s'|] eqn:Hs'; [|vm_compute in Hs'; discriminate].
  vm_compute in Hs, Hs'. simplify_eq. eexists. split_and!; [done|done|vm_compute; by eexists|].
  by eexists.
Qed.

(** [add_server] compares namespaces, not identifiers: a definition that reuses the identifier of
    a connected server replaces it, with its release, rules and logs. *)
Theorem adding_can_replace_a_server :
  ∃ s s', mm_servers session.1 !! 7%N = Some s ∧ ms_state s = Connected ∧
    sd_namespace (ms_definition s) = "files" ∧
    mm_servers (exec (OAdd other_server) session).2.1 !! 7%N = Some s' ∧
    sd_namespace (ms_definition s') = "mail" ∧ ms_current_release s' = None.
Proof.
  destruct (mm_servers session.1 !! 7%N) as [s|] eqn:Hs; [|vm_compute in Hs; discriminate].
  destruct (mm_servers (exec (OAdd other_server) session).2.1 !! 7%N) as [s'|] eqn:Hs';
    [|vm_compute in Hs'; discriminate].
  vm_compute in Hs, Hs'. simplify_eq. eexists _, _. by split_and!.
Qed.
End instances.
