(* ===== verification/McpImport.v ===== *)
(** * Importing MCP servers

    Models [import_server_json] of [crates/mcp-manager/src/lib.rs] with its helpers: the
    configuration of another application becomes a preview of definitions to review.  JSON
    parsing is the parameter [from_str]; identifiers come from the host. *)

From stdpp Require Import base gmap strings list pretty.
From Stdlib Require Import Ascii.
From S2P Require Import Prelude Text McpText McpModel.

Inductive ImportSource : Type := ClaudeDesktop | OpenCode | Generic.

Record ImportIssue : Type := mkImportIssue {
  ii_server_name : string;
  ii_field : string;
  ii_code : string;
  ii_message : string;
}.

Record ImportPreview : Type := mkImportPreview {
  ip_definitions : list ServerDefinition;
  ip_issues : list ImportIssue;
}.
Definition preview_default : ImportPreview := mkImportPreview [] [].

(** ** Finding the server map *)

Definition import_paths (source : ImportSource) : list (list string) :=
  match source with
  | ClaudeDesktop => [["mcpServers"]]
  | OpenCode => [["mcp"; "servers"]; ["mcpServers"]; ["mcp"]]
  | Generic => [["mcpServers"]; ["mcp"; "servers"]; ["servers"]]
  end.

Fixpoint follow (path : list string) (current : Value) : option Value :=
  match path with
  | [] => Some current
  | key :: path => next ← value_get key current; follow path next
  end.

Definition find_import_servers (document : Value) (source : ImportSource)
    : option (list (string * Value)) :=
  head (omap (λ path, follow path document ≫= as_object) (import_paths source)).

(** ** Bindings *)

Definition import_binding (server_name name value field : string)
    : option BindingValue * list ImportIssue :=
  match placeholder_alias value with
  | Some alias =>
    (Some (Keychain (mkKeychainReference (sanitize_identifier alias) "personal-agent-mcp" name)), [])
  | None =>
    if is_sensitive_name name || looks_like_secret value then
      (None, [mkImportIssue server_name (field +:+ "." +:+ name) "secret_omitted"
        "Credential value was discarded. Reconnect it through the OS keychain."])
    else (Some (NonSecret value), [])
  end.

(** [import_environment] and [import_headers]: the entries with text values, in order. *)
Fixpoint import_entries (server_name field : string) (values : list (string * Value))
    : list Binding * list ImportIssue :=
  match values with
  | [] => ([], [])
  | (name, value) :: values =>
    let '(bindings, issues) := import_entries server_name field values in
    match as_str value with
    | None => (bindings, issues)
    | Some value =>
      let '(binding, issue) := import_binding server_name name value field in
      (match binding with Some b => mkBinding name b :: bindings | None => bindings end,
       issue ++ issues)
    end
  end.

Definition import_bindings (server_name field : string) (raw : option Value)
    : list Binding * list ImportIssue :=
  import_entries server_name field (default [] (raw ≫= as_object)).

(** ** Namespaces *)

Fixpoint first_free_suffix (occupied : list string) (base : string) (suffixes : list N)
    : option string :=
  match suffixes with
  | [] => None
  | suffix :: suffixes =>
    let candidate := suffixed base suffix in
    if bool_decide (candidate ∈ occupied) then first_free_suffix occupied base suffixes
    else Some candidate
  end.

Definition import_base (name : string) : string :=
  let value := sanitize_identifier name in if is_empty value then "mcp_server" else value.

Definition import_suffixes : list N := N.of_nat <$> seq 2 (N.to_nat 9999).

Definition source_name (source : ImportSource) : string :=
  match source with
  | ClaudeDesktop => "Claude Desktop"
  | OpenCode => "OpenCode"
  | Generic => "Generic JSON"
  end.

(** The transport of an entry with its issues, or none. *)
Definition import_transport (name : string) (raw : Value)
    : option (TransportDefinition * list ImportIssue) :=
  match get_str "command" raw with
  | Some command =>
    let '(environment, issues) := import_bindings name "env" (value_get "env" raw) in
    Some (Stdio command (omap as_str (default [] (get_array "args" raw))) (get_str "cwd" raw)
            environment, issues)
  | None =>
    match (match value_get "url" raw with Some v => Some v | None => value_get "endpoint" raw end)
            ≫= as_str with
    | Some endpoint =>
      let legacy := match get_str "type" raw with
        | Some kind => bool_decide (kind ∈ ["sse"; "http-sse"]) | None => false end in
      let '(headers, issues) := import_bindings name "headers" (value_get "headers" raw) in
      Some (if legacy then LegacySse endpoint headers None
            else StreamableHttp endpoint (default true (value_get "stateless" raw ≫= as_bool))
                   headers None, issues)
    | None => None
    end
  end.

Section import.
Context {W : Type} `{Host W, UrlLib, UuidText}.
(** [serde_json::from_str]: the value, or the text of the error. *)
Context (from_str : string → string + Value).
Abbreviation IM := (M W ManagerError).

Definition fresh_uuid : IM Uuid := λ w, let '(u, w) := host_uuid w in (Ok u, w).

(** The text of an identifier without its hyphens. *)
Definition simple_text (u : Uuid) : string :=
  of_bytes (filter (.≠ "-"%char) (bytes (uuid_to_string u))).

Definition unique_import_namespace (name : string) (definitions : list ServerDefinition)
    : IM string :=
  let base := import_base name in
  let occupied := sd_namespace <$> definitions in
  if bool_decide (base ∈ occupied) then
    match first_free_suffix occupied base import_suffixes with
    | Some candidate => mret candidate
    | None => u ← fresh_uuid; mret (base +:+ "_" +:+ simple_text u)
    end
  else mret base.

Definition imported_definition (source : ImportSource) (name namespace : string) (id : Uuid)
    (transport : TransportDefinition) : ServerDefinition :=
  mkServerDefinition id name namespace
    ("Imported from " +:+ source_name source +:+ "; review before enabling")
    (Imported (source_name source)) transport {[current_protocol; "2025-06-18"; "2024-11-05"]}
    current_protocol None ∅ ∅ {["imported"; "review-required"]}.

Definition add_issues (preview : ImportPreview) (issues : list ImportIssue) : ImportPreview :=
  mkImportPreview (ip_definitions preview) (ip_issues preview ++ issues).

(** One turn of the loop over the entries. *)
Definition import_entry (source : ImportSource) (preview : ImportPreview) (entry : string * Value)
    : IM ImportPreview :=
  let '(name, raw) := entry in
  if negb (is_object raw) then
    mret (add_issues preview [mkImportIssue name "server" "invalid_shape"
      "Server entry is not an object"])
  else
    namespace ← unique_import_namespace name (ip_definitions preview);
    match import_transport name raw with
    | None => mret (add_issues preview [mkImportIssue name "transport" "missing_transport"
        "Provide either a structured command or HTTP endpoint"])
    | Some (transport, issues) =>
      id ← fresh_uuid;
      let definition := imported_definition source name namespace id transport in
      match validate_definition definition with
      | Ok _ => mret (mkImportPreview (ip_definitions preview ++ [definition])
                        (ip_issues preview ++ issues))
      | Err e => mret (add_issues preview (issues ++ [mkImportIssue name "definition"
                   "validation_failed" (error_to_string e)]))
      | Panic => panic
      end
    end.

Fixpoint import_loop (source : ImportSource) (preview : ImportPreview)
    (entries : list (string * Value)) : IM ImportPreview :=
  match entries with
  | [] => mret preview
  | entry :: entries => preview ← import_entry source preview entry; import_loop source preview entries
  end.

Definition import_server_json (input : string) (source : ImportSource) : IM ImportPreview :=
  match from_str input with
  | inl e => throw (InvalidImport e)
  | inr document =>
    servers ← ok_or (find_import_servers document source)
      (InvalidImport "no MCP server map was found");
    import_loop source preview_default servers
  end.

(** ** Specification *)

(** What every definition of a preview satisfies: it is valid, nothing of it is installed or
    allowed yet, and no literal in it has a credential-like name or looks like a secret. *)
Record reviewable (d : ServerDefinition) : Prop := {
  rv_valid : validate_definition d = Ok ();
  rv_install : sd_install d = None;
  rv_scopes : sd_project_scopes d = ∅ ∧ sd_agent_scopes d = ∅;
  rv_literals : ∀ b v, b ∈ transport_bindings (sd_transport d) → bi_value b = NonSecret v →
    is_sensitive_name (bi_name b) = false ∧ looks_like_secret v = false;
}.

Lemma import_entries_literals server_name field values b v :
  b ∈ (import_entries server_name field values).1 → bi_value b = NonSecret v →
  is_sensitive_name (bi_name b) = false ∧ looks_like_secret v = false.
Proof.
  induction values as [|[name value] values IH]; simpl; [by intros ?%elem_of_nil|].
  destruct (import_entries _ _ values) as [bindings issues]. simpl in IH.
  destruct (as_str value) as [text|]; [|done]. unfold import_binding.
  destruct (placeholder_alias text); simpl.
  - intros [->|?]%elem_of_cons; [done|auto].
  - destruct (is_sensitive_name name || looks_like_secret text) eqn:Hs; simpl; [auto|].
    intros [->|?]%elem_of_cons; [|auto]. intros [= <-]. by apply orb_false_iff in Hs.
Qed.

Lemma import_transport_literals name raw transport issues b v :
  import_transport name raw = Some (transport, issues) →
  b ∈ transport_bindings transport → bi_value b = NonSecret v →
  is_sensitive_name (bi_name b) = false ∧ looks_like_secret v = false.
Proof.
  unfold import_transport, import_bindings.
  destruct (get_str "command" raw) as [command|].
  - destruct (import_entries _ _ _) as [bindings iss] eqn:He. intros [= <- <-]. simpl.
    intros Hb. eapply import_entries_literals. by rewrite He.
  - destruct (_ ≫= as_str) as [endpoint|]; [|done].
    destruct (import_entries _ _ _) as [bindings iss] eqn:He. intros [= <- <-].
    intros Hb. eapply import_entries_literals. rewrite He. simpl. by destruct (match get_str _ _ with
      | Some kind => _ | None => _ end).
Qed.

Lemma first_free_suffix_None occupied base suffixes :
  first_free_suffix occupied base suffixes = None →
  ∀ s, s ∈ suffixes → suffixed base s ∈ occupied.
Proof.
  induction suffixes as [|s suffixes IH]; simpl; [by intros _ ? ?%elem_of_nil|].
  case_bool_decide; [|done]. intros Hn t [->|?]%elem_of_cons; auto.
Qed.

Lemma first_free_suffix_Some occupied base suffixes candidate :
  first_free_suffix occupied base suffixes = Some candidate → candidate ∉ occupied.
Proof.
  induction suffixes as [|s suffixes IH]; simpl; [done|].
  case_bool_decide; [done|]. by intros [= <-].
Qed.

(** Below ten thousand definitions the suffixes suffice. *)
Lemma unique_import_namespace_fresh name definitions w :
  (N.of_nat (length definitions) < 10000)%N →
  ∃ namespace, unique_import_namespace name definitions w = (Ok namespace, w) ∧
    namespace ∉ sd_namespace <$> definitions.
Proof.
  intros Hlen. unfold unique_import_namespace. set (occupied := sd_namespace <$> definitions).
  case_bool_decide as Hb; [|by eexists].
  destruct (first_free_suffix occupied (import_base name) import_suffixes) as [c|] eqn:Hf.
  { exists c. split; [done|]. by eapply first_free_suffix_Some. }
  exfalso. set (names := import_base name :: (suffixed (import_base name) <$> import_suffixes)).
  assert (NoDup names) as Hnd.
  { constructor; [intros (s & Hs & _)%list_elem_of_fmap; by eapply suffixed_ne|].
    apply NoDup_fmap_2_strong; [intros s t _ _ Heq; by eapply suffixed_inj|].
    apply NoDup_fmap_2; [apply _|apply NoDup_seq]. }
  assert (names ⊆ occupied) as Hsub.
  { intros x [->|(s & -> & Hs)%list_elem_of_fmap]%elem_of_cons; [done|].
    by eapply first_free_suffix_None. }
  apply NoDup_submseteq, submseteq_length in Hsub; [|done].
  unfold names, occupied, import_suffixes in Hsub.
  rewrite length_cons, !length_fmap, length_seq in Hsub. lia.
Qed.

(** One turn keeps the definitions reviewable and their namespaces distinct, and accounts for
    the entry: either it became a definition or it left an issue. *)
Lemma import_entry_spec source preview entry w :
  (N.of_nat (length (ip_definitions preview)) < 10000)%N →
  ∃ preview' w', import_entry source preview entry w = (Ok preview', w') ∧
    ((ip_definitions preview' = ip_definitions preview ∧
      ∃ i, i ∈ ip_issues preview' ∧ ii_server_name i = entry.1) ∨
     ∃ d, ip_definitions preview' = ip_definitions preview ++ [d] ∧ sd_name d = entry.1 ∧
       reviewable d ∧ sd_namespace d ∉ sd_namespace <$> ip_definitions preview) ∧
    ip_issues preview `prefix_of` ip_issues preview'.
Proof.
  intros Hlen. destruct entry as [name raw]. simpl. destruct (is_object raw); simpl; cycle 1.
  { eexists _, w. split; [done|]. simpl. split; [|by eexists]. left. split; [done|]. eexists.
    split; [apply elem_of_app; right; by left|done]. }
  destruct (unique_import_namespace_fresh name (ip_definitions preview) w Hlen) as (ns & Hns & Hfresh).
  munfold. rewrite Hns. destruct (import_transport name raw) as [[transport issues]|] eqn:Htr; cycle 1.
  { eexists _, w. split; [done|]. simpl. split; [|by eexists]. left. split; [done|]. eexists.
    split; [apply elem_of_app; right; by left|done]. }
  unfold fresh_uuid. destruct (host_uuid w) as [u w'].
  destruct (validate_definition _) as [[]|e|] eqn:Hv.
  - eexists _, w'. split; [done|]. simpl. split; [right|by eexists].
    eexists. split_and!; [done|done| |done]. split; [done|done|done|].
    intros b v. by eapply import_transport_literals.
  - eexists _, w'. split; [done|]. simpl. split; [|by eexists]. left. split; [done|]. eexists.
    split; [apply elem_of_app; right; apply elem_of_app; right; by left|done].
  - exfalso. revert Hv. apply validate_definition_no_panic.
Qed.

Lemma import_loop_spec source preview entries w :
  (N.of_nat (length (ip_definitions preview) + length entries) < 10000)%N →
  ∃ preview' w', import_loop source preview entries w = (Ok preview', w') ∧
    ip_issues preview `prefix_of` ip_issues preview' ∧
    (∃ new, ip_definitions preview' = ip_definitions preview ++ new ∧ Forall reviewable new ∧
       (NoDup (sd_namespace <$> ip_definitions preview) →
        NoDup (sd_namespace <$> ip_definitions preview')) ∧
       ∀ name raw, (name, raw) ∈ entries → (∃ d, d ∈ new ∧ sd_name d = name) ∨
         ∃ i, i ∈ ip_issues preview' ∧ ii_server_name i = name).
Proof.
  revert preview w. induction entries as [|entry entries IH]; intros preview w Hlen.
  { exists preview, w. split_and!; [done|done|]. exists []. rewrite app_nil_r.
    split_and!; [done|done|done|]. by intros ? ? ?%elem_of_nil. }
  simpl in Hlen. destruct (import_entry_spec source preview entry w) as (p1 & w1 & Hrun & Hcase & Hpre);
    [lia|]. destruct (IH p1 w1) as (p2 & w2 & Hloop & Hpre2 & new & Hdef & Hall & Hnd & Hacc).
  { destruct Hcase as [[-> _]|(d & -> & _)]; rewrite ?length_app; simpl; lia. }
  exists p2, w2. split_and!; [cbn [import_loop]; unfold mbind, M_bind; by rewrite Hrun|by etrans|].
  destruct Hcase as [[Hsame (i & Hi & Hname)]|(d & Hd & Hname & Hrev & Hfresh)].
  - exists new. rewrite <- Hsame. split_and!; [done..|].
    intros name raw [<-|?]%elem_of_cons; [right|by eapply Hacc].
    exists i. split; [|done]. destruct Hpre2 as [r ->]. set_solver.
  - exists (d :: new). rewrite Hd, <- app_assoc in Hdef. split_and!; [done|by constructor| |].
    + intros Hold. apply Hnd. rewrite Hd, fmap_app. apply NoDup_app. split_and!; [done| |].
      * intros x Hx. rewrite list_fmap_singleton, list_elem_of_singleton. by intros ->.
      * apply NoDup_singleton.
    + intros name raw [<-|Hin]%elem_of_cons; [left; exists d; set_solver|].
      destruct (Hacc name raw Hin) as [(d' & ? & ?)|?]; [left; exists d'; set_solver|by right].
Qed.

End import.

(** ** An instance *)

Section instances.
#[local] Instance counting_uuids : Host N := {| host_now n := (Z.of_N n, n); host_uuid n := (n, n + 1)%N |}.
#[local] Instance https_urls : UrlLib := {| url_parse s :=
  if str_starts_with "https://" s then inr (mkUrl "https" None) else inl "relative URL without a base" |}.
#[local] Existing Instance hyphenated_text.

(** A configuration with a literal token, a placeholder, and an entry without a transport. *)
Definition claude_config : Value :=
  VObject [("mcpServers", VObject [
    ("Broken", VObject []);
    ("GitHub", VObject [("command", VString "npx"); ("env", VObject [
       ("GITHUB_TOKEN", VString "ghp_0123456789"); ("LEVEL", VString "info");
       ("TOKEN_REF", VString "${GitHub Token}")])])])].

Definition claude_preview : ImportPreview :=
  match (import_server_json (λ _, inr claude_config) "" ClaudeDesktop 0%N).1 with
  | Ok p => p | _ => preview_default end.

Example claude_preview_contents :
  ((λ d, (sd_namespace d, transport_bindings (sd_transport d))) <$> ip_definitions claude_preview,
   (λ i, (ii_server_name i, ii_code i)) <$> ip_issues claude_preview) =
  ([("github", [mkBinding "LEVEL" (NonSecret "info");
                mkBinding "TOKEN_REF" (Keychain (mkKeychainReference "github_token"
                  "personal-agent-mcp" "TOKEN_REF"))])],
   [("Broken", "missing_transport"); ("GitHub", "secret_omitted")]).
Proof. vm_compute. reflexivity. Qed.

End instances.
