(* ===== verification/RuntimeEvents.v ===== *)
(** * The event stream of the coding runtime

    Models how [crates/runtime/src/lib.rs] turns the byte stream of the sidecar into events:
    [frame_delimiter], [take_sse_frame], [parse_sse_frame], [normalize_upstream_event] with
    its table of forwarded fields, [upstream_session_id] and the loop
    [forward_sse_events], and the request helpers [apply_prompt_selection],
    [enabled_modalities], [is_local_provider], [validate_pty_identifier] and
    [bounded_text].  The JSON parser is a parameter.  A stream is
    the list of its chunks, [None] being a transport error; the receiver is an oracle that
    tells whether the event with a sequence number is accepted. *)

From stdpp Require Import base gmap strings list pretty.
From Stdlib Require Import Ascii.
From S2P Require Import Prelude Text Contracts.

(** ** Frames *)

Definition lf_mark : list ascii := [lf; lf].
Definition crlf_mark : list ascii := [cr; lf; cr; lf].

Definition frame_delimiter (buffer : list ascii) : option (nat * nat) :=
  match find_bytes lf_mark buffer, find_bytes crlf_mark buffer with
  | Some lf_at, Some crlf_at => Some (if lf_at <=? crlf_at then (lf_at, 2) else (crlf_at, 4))
  | Some found, None => Some (found, 2)
  | None, Some found => Some (found, 4)
  | None, None => None
  end.

(** The next frame and the rest of the buffer. *)
Definition take_sse_frame (buffer : list ascii) : option (list ascii * list ascii) :=
  '(at_, delimiter_length) ← frame_delimiter buffer;
  Some (take at_ buffer, drop (at_ + delimiter_length) buffer).

(** [trim_start] *)
Definition trim_start (s : string) : string :=
  of_bytes (strip_all strip_ws (length (bytes s)) (bytes s)).

(** [trim_end_matches('\r')] *)
Definition trim_end_cr (s : string) : string :=
  of_bytes (reverse (drop_while (λ c, bool_decide (c = cr)) (reverse (bytes s)))).

Section parsing.
(** [serde_json::from_str::<Value>] *)
Context (from_str : string → option Value).

Definition sse_data (frame : string) : string :=
  join (of_bytes [lf]) (omap (λ line, trim_start <$> str_strip_prefix "data:" (trim_end_cr line))
    (lines frame)).

Definition parse_sse_frame (frame : list ascii) : outcome string (option Value) :=
  if negb (utf8_valid frame) then Err "OpenCode event stream was not UTF-8"
  else
    let data := sse_data (of_bytes frame) in
    if is_empty data || bool_decide (data = "[DONE]") then Ok None
    else match from_str data with
    | None => Err "OpenCode event frame was not JSON"
    | Some outer =>
      match get_str "data" outer with
      | Some inner =>
        match from_str inner with
        | Some value => Ok (Some value)
        | None => Err "OpenCode durable event was not JSON"
        end
      | None => Ok (Some outer)
      end
    end.
End parsing.

(** ** Normalization *)

Definition selected_properties (properties : Value) (names : list string) : Value :=
  object_of (omap (λ name, (name,.) <$> value_get name properties) names).

Definition runtime_event `{EventHost} (sequence : N) (session_id event_type : string)
    (payload : Value) : EventEnvelope :=
  (event_new sequence "opencode" "default" event_type payload) <| ev_session_id := Some session_id |>.

(** The event type, the payload and whether the turn ends. *)
Abbreviation Normalized := (string * Value * bool)%type.

(** The upstream types whose events are a selection of their properties, in the order of the
    source. *)
Definition selections : list (list string * (string * list string * bool)) := [
  (["session.next.text.delta"],
   ("response.delta", ["assistantMessageID"; "textID"; "delta"], false));
  (["session.next.reasoning.started"; "session.next.reasoning.delta"],
   ("reasoning.available", ["assistantMessageID"; "reasoningID"], false));
  (["session.next.reasoning.ended"],
   ("reasoning.completed", ["assistantMessageID"; "reasoningID"], false));
  (["session.next.tool.called"],
   ("tool.started", ["assistantMessageID"; "callID"; "tool"; "provider"], false));
  (["session.next.tool.input.started"; "session.next.tool.input.delta";
    "session.next.tool.input.ended"; "session.next.tool.progress"],
   ("tool.progress", ["assistantMessageID"; "callID"; "tool"], false));
  (["session.next.tool.success"],
   ("tool.completed", ["assistantMessageID"; "callID"; "outputPaths"; "provider"], false));
  (["session.next.tool.failed"],
   ("tool.failed", ["assistantMessageID"; "callID"; "tool"], false));
  (["permission.v2.asked"; "permission.asked"],
   ("approval.requested", ["id"; "action"; "permission"; "resources"; "patterns"; "save"], false));
  (["question.v2.asked"; "question.asked"],
   ("clarification.requested", ["id"; "questions"], false));
  (["session.next.step.started"],
   ("response.started", ["assistantMessageID"], false));
  (["session.next.step.ended"],
   ("response.step_completed", ["assistantMessageID"; "finish"; "cost"; "tokens"; "files"], false));
  (["session.next.step.failed"; "session.error"],
   ("response.failed", ["assistantMessageID"; "error"], true))].

Definition or_null (v : option Value) : Value := default VNull v.

Definition unknown_event (upstream_type : string) (more : list (string * Value)) : Normalized :=
  ("runtime.upstream_event", object_of (("upstream_type", VString upstream_type) :: more), false).

(** [message.part.delta] *)
Definition normalize_delta (upstream_type : string) (properties : Value)
    (known_part_type : option string) : Normalized :=
  if bool_decide (known_part_type = Some "text") then
    ("response.delta", selected_properties properties ["messageID"; "partID"; "delta"], false)
  else if bool_decide (known_part_type = Some "reasoning") then
    ("reasoning.available", selected_properties properties ["messageID"; "partID"], false)
  else unknown_event upstream_type [].

Definition tool_status_event (status : string) : string :=
  if bool_decide (status = "running") then "tool.started"
  else if bool_decide (status = "completed") then "tool.completed"
  else if bool_decide (status = "error") then "tool.failed"
  else "tool.progress".

(** [message.part.updated] *)
Definition normalize_part (upstream_type : string) (properties : Value) : Normalized :=
  let part := or_null (value_get "part" properties) in
  let part_type := default "unknown" (get_str "type" part) in
  if bool_decide (part_type = "tool") then
    let status := default "unknown" (pointer_str ["state"; "status"] part) in
    (tool_status_event status,
     object_of [("assistantMessageID", or_null (value_get "messageID" part));
                ("callID", or_null (value_get "callID" part));
                ("tool", or_null (value_get "tool" part)); ("status", VString status)], false)
  else if bool_decide (part_type = "reasoning") then
    ("reasoning.available", selected_properties part ["messageID"; "id"], false)
  else if bool_decide (part_type = "step-start") then
    ("response.started", selected_properties part ["messageID"; "id"], false)
  else if bool_decide (part_type = "step-finish") then
    ("response.step_completed", selected_properties part ["messageID"; "reason"; "cost"; "tokens"], false)
  else if bool_decide (part_type = "text") then
    ("response.text_state", selected_properties part ["messageID"; "id"; "time"], false)
  else unknown_event upstream_type [("part_type", VString part_type)].

(** [session.status] *)
Definition normalize_status (upstream_type : string) (properties : Value) : Normalized :=
  let status := default "unknown" (pointer_str ["status"; "type"] properties) in
  if bool_decide (status = "idle") then
    ("response.completed", object_of [("terminal", VBool true); ("source", VString "session.status")], true)
  else if bool_decide (status = "retry") then
    ("response.retrying",
     selected_properties (or_null (value_get "status" properties)) ["attempt"; "message"; "next"], false)
  else if bool_decide (status = "busy") then
    ("response.started", object_of [("source", VString "session.status")], false)
  else unknown_event upstream_type [("status", VString status)].

Definition normalize_payload (upstream_type : string) (properties : Value)
    (known_part_type : option string) : Normalized :=
  if bool_decide (upstream_type = "message.part.delta") then
    normalize_delta upstream_type properties known_part_type
  else if bool_decide (upstream_type = "message.part.updated") then
    normalize_part upstream_type properties
  else match find (λ row : list string * _, bool_decide (upstream_type ∈ row.1)) selections with
  | Some (_, (event_type, names, terminal)) =>
    (event_type, selected_properties properties names, terminal)
  | None =>
    if bool_decide (upstream_type = "session.status") then normalize_status upstream_type properties
    else if bool_decide (upstream_type = "session.idle") then
      ("response.completed", object_of [("terminal", VBool true)], true)
    else unknown_event upstream_type []
  end.

Definition normalize_upstream_event `{EventHost} (sequence : N) (fallback_session_id : string)
    (upstream : Value) (known_part_type : option string) : EventEnvelope * bool :=
  let upstream_type := default "unknown" (get_str "type" upstream) in
  let properties := or_null (value_get "properties" upstream) in
  let session_id := default fallback_session_id (get_str "sessionID" properties) in
  let '(event_type, payload, terminal) := normalize_payload upstream_type properties known_part_type in
  (runtime_event sequence session_id event_type payload, terminal).

Definition upstream_session_id (upstream : Value) : option string :=
  match pointer ["properties"; "sessionID"] upstream with
  | Some v => as_str v
  | None =>
    match pointer ["properties"; "part"; "sessionID"] upstream with
    | Some v => as_str v
    | None => pointer_str ["properties"; "info"; "sessionID"] upstream
    end
  end.

(** ** The forwarding loop *)

Record StreamState : Type := mkStreamState {
  ss_buffer : list ascii;
  ss_part_types : gmap string string;
  ss_sequence : N;
}.

(** [part_types] after an update of a part. *)
Definition note_part_type (upstream : Value) (part_types : gmap string string)
    : gmap string string :=
  if bool_decide (get_str "type" upstream = Some "message.part.updated") then
    match pointer_str ["properties"; "part"; "id"] upstream,
          pointer_str ["properties"; "part"; "type"] upstream with
    | Some part_id, Some part_type => <[part_id := part_type]> part_types
    | _, _ => part_types
    end
  else part_types.

Definition MAX_BUFFER : N := 1048576.

Section forwarding.
Context `{EventHost} (from_str : string → option Value).
(** Whether the receiver takes the event with a sequence number. *)
Context (accepts : N → bool) (session_id : string).

(** [let _ = tx.send(event).await] before a return. *)
Definition send_last (sequence : N) (event_type : string) (payload : Value) : list EventEnvelope :=
  if accepts sequence then [runtime_event sequence session_id event_type payload] else [].

Definition stream_error (sequence : N) (payload : Value) : list EventEnvelope :=
  send_last sequence "runtime.stream_error" payload.

(** [while let Some(frame) = take_sse_frame(&mut buffer)]: the events sent, and the state if
    the loop runs out of frames, [None] if the function returned.  The sequence number
    overflows with a panic, which ends the task. *)
Fixpoint pump (fuel : nat) (s : StreamState) : list EventEnvelope * option StreamState :=
  match fuel with
  | O => ([], None)
  | S fuel =>
    match take_sse_frame (ss_buffer s) with
    | None => ([], Some s)
    | Some (frame, rest) =>
      let skip := pump fuel (mkStreamState rest (ss_part_types s) (ss_sequence s)) in
      match parse_sse_frame from_str frame with
      | Ok None => skip
      | Ok (Some upstream) =>
        if negb (bool_decide (upstream_session_id upstream = Some session_id)) then skip
        else
          let part_types := note_part_type upstream (ss_part_types s) in
          let known_part_type :=
            pointer_str ["properties"; "partID"] upstream ≫= (part_types !!.) in
          let '(event, terminal) :=
            normalize_upstream_event (ss_sequence s) session_id upstream known_part_type in
          if negb (accepts (ss_sequence s)) then ([], None)
          else if (ss_sequence s =? u64_max)%N || terminal then ([event], None)
          else
            let '(events, next) := pump fuel (mkStreamState rest part_types (ss_sequence s + 1)) in
            (event :: events, next)
      | _ => (stream_error (ss_sequence s) (object_of [("reason", VString "invalid event frame")]), None)
      end
    end
  end.

Definition pump_all (s : StreamState) : list EventEnvelope * option StreamState :=
  pump (S (length (ss_buffer s))) s.

Definition extend_buffer (chunk : list ascii) (s : StreamState) : StreamState :=
  mkStreamState (ss_buffer s ++ chunk) (ss_part_types s) (ss_sequence s).

Fixpoint forward (s : StreamState) (stream : list (option (list ascii))) : list EventEnvelope :=
  match stream with
  | [] => send_last (ss_sequence s) "runtime.stream_closed"
            (object_of [("terminal", VBool true); ("completed", VBool false)])
  | None :: _ => stream_error (ss_sequence s) (object_of [("recoverable", VBool true)])
  | Some chunk :: stream =>
    let s := extend_buffer chunk s in
    if (MAX_BUFFER <? N.of_nat (length (ss_buffer s)))%N then
      stream_error (ss_sequence s) (object_of [("reason", VString "frame exceeded 1 MiB")])
    else match pump_all s with
    | (events, Some s) => events ++ forward s stream
    | (events, None) => events
    end
  end.

Definition forward_sse_events (sequence : N) (stream : list (option (list ascii)))
    : list EventEnvelope := forward (mkStreamState [] ∅ sequence) stream.
End forwarding.

(** ** Requests *)

Definition not_blank (value : option string) : option string :=
  value ≫= λ s, if is_blank s then None else Some s.

(** [provider/model] *)
Definition parse_model (value : string) : outcome string (string * string) :=
  match split_once "/"%char value with
  | None => Err "model must use provider/model syntax"
  | Some (provider_id, model_id) =>
    if is_empty provider_id || is_empty model_id
    then Err "model must use non-empty provider/model syntax"
    else Ok (provider_id, model_id)
  end.

Definition session_model (session : Value) : option (string * string) :=
  provider_id ← pointer_str ["model"; "providerID"] session;
  model_id ← pointer_str ["model"; "id"] session;
  Some (provider_id, model_id).

Definition insert_opt (key : string) (v : option Value) (body : list (string * Value))
    : list (string * Value) :=
  match v with Some v => object_insert key v body | None => body end.

Definition or_else {A} (a b : option A) : option A := match a with Some _ => a | None => b end.

Definition apply_prompt_selection (body : list (string * Value)) (session : Value)
    (model agent effort : option string) : outcome string (list (string * Value)) :=
  requested_model ← (match not_blank model with
    | None => Ok None
    | Some value => pair ← parse_model value; Ok (Some pair)
    end);
  let model_value := (λ p : string * string,
      object_of [("providerID", VString p.1); ("modelID", VString p.2)])
    <$> or_else requested_model (session_model session) in
  let agent := or_else (not_blank agent) (get_str "agent" session) in
  let variant := or_else (not_blank effort) (pointer_str ["model"; "variant"] session) in
  Ok (insert_opt "variant" (VString <$> variant)
       (insert_opt "agent" (VString <$> agent) (insert_opt "model" model_value body))).

Definition enabled_modalities (value : option Value) : list string :=
  match value ≫= as_object with
  | Some object => (filter (λ e : string * Value, as_bool e.2 = Some true) object).*1
  | None => []
  end.

Definition is_local_provider (provider_id : string) : bool :=
  existsb (str_contains (to_ascii_lowercase provider_id)) ["ollama"; "lmstudio"; "llama.cpp"; "local"].

Definition validate_pty_identifier (pty_id : string) : outcome string () :=
  ensure_not (is_empty pty_id || (128 <? str_len pty_id)
    || negb (forallb (λ c, is_ascii_alphanumeric c || bool_decide (c = "_"%char)
                           || bool_decide (c = "-"%char)) (bytes pty_id)))
    "PTY identifier is not canonical".

Definition bounded_text (value : string) (limit : N) : string := take_chars limit value.

(** ** Frames do not depend on how the stream is split *)

Lemma find_bytes_at pat l i :
  find_bytes pat l = Some i → take (length pat) (drop i l) = pat.
Proof.
  revert i; induction l as [|c l IH]; intros i; simpl; destruct (starts_with pat _) eqn:Hp.
  1,3: intros [= <-]; apply starts_with_spec in Hp as [r ->]; by rewrite drop_0, take_app_length.
  - done.
  - intros (j & Hj & ->)%fmap_Some. simpl. by apply IH.
Qed.

Lemma find_bytes_lookup pat l i k :
  find_bytes pat l = Some i → k < length pat → l !! (i + k) = pat !! k.
Proof.
  intros Hi%find_bytes_at Hk. rewrite <- Hi at 1. rewrite lookup_take_lt, lookup_drop by done. done.
Qed.

(** A pattern that appears only in the longer text reaches into the added part. *)
Lemma find_bytes_new pat l r i :
  pat ≠ [] → find_bytes pat l = None → find_bytes pat (l ++ r) = Some i →
  length l < i + length pat.
Proof.
  intros Hpat. revert i; induction l as [|c l IH]; intros i Hnone Hi.
  - simpl. destruct pat; [done|]. simpl. lia.
  - simpl in *. destruct (starts_with pat (c :: l)) eqn:Hp; [done|].
    apply fmap_None in Hnone.
    destruct (starts_with pat (c :: l ++ r)) eqn:Hp'.
    + injection Hi as <-. simpl. destruct (decide (length pat ≤ S (length l))) as [Hle|]; [exfalso|lia].
      apply not_true_iff_false in Hp. destruct Hp. apply starts_with_spec.
      apply starts_with_spec in Hp' as [q Hq]. exists (drop (length pat) (c :: l)).
      apply (f_equal (take (length pat))) in Hq. rewrite take_app_length in Hq.
      rewrite <- Hq at 1. rewrite app_comm_cons, take_app_le, take_drop by (simpl; lia). done.
    + apply fmap_Some in Hi as (j & Hj & ->). specialize (IH j Hnone Hj). lia.
Qed.

Lemma marks_do_not_overlap l r i j :
  find_bytes lf_mark l = Some i → find_bytes crlf_mark l = None →
  find_bytes crlf_mark (l ++ r) = Some j → i <= j.
Proof.
  intros Hi Hnone Hj. pose proof (find_bytes_bound _ _ _ Hi). simpl in *.
  pose proof (find_bytes_new crlf_mark l r j ltac:(done) Hnone Hj). simpl in *.
  destruct (decide (i <= j)) as [|Hlt]; [done|].
  assert (j = i - 1 ∧ 0 < i) as [-> ?] by lia.
  pose proof (find_bytes_lookup _ _ _ 1 (find_bytes_app _ _ r _ Hi) ltac:(simpl; lia)) as Hb1.
  pose proof (find_bytes_lookup _ _ _ 2 Hj ltac:(simpl; lia)) as Hb2.
  replace (i - 1 + 2) with (i + 1) in Hb2 by lia.
  rewrite Hb1 in Hb2. discriminate Hb2.
Qed.

Lemma frame_delimiter_app l r d :
  frame_delimiter l = Some d → frame_delimiter (l ++ r) = Some d.
Proof.
  unfold frame_delimiter.
  destruct (find_bytes lf_mark l) as [i|] eqn:Hi, (find_bytes crlf_mark l) as [j|] eqn:Hj; [..|done].
  - by rewrite (find_bytes_app _ _ r _ Hi), (find_bytes_app _ _ r _ Hj).
  - rewrite (find_bytes_app _ _ r _ Hi). intros [= <-].
    destruct (find_bytes crlf_mark (l ++ r)) as [j|] eqn:Hj'; [|done].
    pose proof (marks_do_not_overlap _ _ _ _ Hi Hj Hj'). by rewrite (proj2 (Nat.leb_le _ _)).
  - rewrite (find_bytes_app _ _ r _ Hj). intros [= <-].
    destruct (find_bytes lf_mark (l ++ r)) as [i|] eqn:Hi'; [|done].
    pose proof (find_bytes_new lf_mark l r i ltac:(done) Hi Hi').
    apply find_bytes_bound in Hj. simpl in *.
    by rewrite (proj2 (Nat.leb_gt i j)) by lia.
Qed.

Lemma frame_delimiter_bound l n k : frame_delimiter l = Some (n, k) → n + k ≤ length l ∧ 2 ≤ k.
Proof.
  unfold frame_delimiter.
  destruct (find_bytes lf_mark l) as [i|] eqn:Hi, (find_bytes crlf_mark l) as [j|] eqn:Hj; [..|done];
    try apply find_bytes_bound in Hi; try apply find_bytes_bound in Hj; simpl in *; try case_match;
    intros [= <- <-]; lia.
Qed.

Lemma take_sse_frame_app l r frame rest :
  take_sse_frame l = Some (frame, rest) → take_sse_frame (l ++ r) = Some (frame, rest ++ r).
Proof.
  unfold take_sse_frame. intros ([n k] & Hd & [= <- <-])%bind_Some.
  destruct (frame_delimiter_bound _ _ _ Hd). rewrite (frame_delimiter_app _ r _ Hd). simpl.
  rewrite take_app_le, drop_app_le by lia. done.
Qed.

Lemma take_sse_frame_shrinks l frame rest :
  take_sse_frame l = Some (frame, rest) → length rest < length l.
Proof.
  unfold take_sse_frame. intros ([n k] & Hd & [= <- <-])%bind_Some.
  apply frame_delimiter_bound in Hd. rewrite length_drop. lia.
Qed.

(** ** The loop *)

Section forwarding_theorems.
Context `{EventHost} (from_str : string → option Value).
Context (accepts : N → bool) (session_id : string).

Abbreviation pump' := (pump from_str accepts session_id).
Abbreviation pump_all' := (pump_all from_str accepts session_id).
Abbreviation forward' := (forward from_str accepts session_id).

Lemma pump_fuel f f' s :
  length (ss_buffer s) < f → length (ss_buffer s) < f' → pump' f s = pump' f' s.
Proof.
  revert f' s; induction f as [|f IH]; intros [|f'] s Hf Hf'; try lia.
  cbn [pump]. destruct (take_sse_frame (ss_buffer s)) as [[frame rest]|] eqn:Htake; [|done].
  apply take_sse_frame_shrinks in Htake.
  assert (∀ p n, pump' f (mkStreamState rest p n) = pump' f' (mkStreamState rest p n)) as Hrest.
  { intros p n. apply IH; cbn; lia. }
  destruct (parse_sse_frame _ _) as [[up|]|e|]; [|by rewrite Hrest|done..].
  destruct (negb _); [by rewrite Hrest|].
  destruct (normalize_upstream_event _ _ _ _) as [event terminal].
  destruct (negb _); [done|]. destruct (_ || _); [done|]. by rewrite Hrest.
Qed.

(** One round of the loop: the frame is dropped, the loop ends, or an event is sent. *)
Lemma pump_all_unfold s :
  pump_all' s =
  match take_sse_frame (ss_buffer s) with
  | None => ([], Some s)
  | Some (frame, rest) =>
    let skip := pump_all' (mkStreamState rest (ss_part_types s) (ss_sequence s)) in
    match parse_sse_frame from_str frame with
    | Ok None => skip
    | Ok (Some upstream) =>
      if negb (bool_decide (upstream_session_id upstream = Some session_id)) then skip
      else
        let part_types := note_part_type upstream (ss_part_types s) in
        let known := pointer_str ["properties"; "partID"] upstream ≫= (part_types !!.) in
        let '(event, terminal) :=
          normalize_upstream_event (ss_sequence s) session_id upstream known in
        if negb (accepts (ss_sequence s)) then ([], None)
        else if (ss_sequence s =? u64_max)%N || terminal then ([event], None)
        else
          let '(events, next) := pump_all' (mkStreamState rest part_types (ss_sequence s + 1)) in
          (event :: events, next)
    | _ => (stream_error accepts session_id (ss_sequence s)
              (object_of [("reason", VString "invalid event frame")]), None)
    end
  end.
Proof.
  unfold pump_all at 1. cbn [pump].
  destruct (take_sse_frame (ss_buffer s)) as [[frame rest]|] eqn:Htake; [|done].
  apply take_sse_frame_shrinks in Htake.
  assert (∀ p n, pump' (length (ss_buffer s)) (mkStreamState rest p n) =
    pump_all' (mkStreamState rest p n)) as Hrest.
  { intros p n. apply pump_fuel; cbn; lia. }
  cbv zeta. destruct (parse_sse_frame _ _) as [[up|]|e|]; [|by rewrite Hrest|done..].
  destruct (negb _); [by rewrite Hrest|].
  destruct (normalize_upstream_event _ _ _ _) as [event terminal].
  destruct (negb _); [done|]. destruct (_ || _); [done|]. by rewrite Hrest.
Qed.

(** Induction on the frames of the buffer. *)
Lemma frames_ind (P : StreamState → Prop) :
  (∀ s, (∀ frame rest p n, take_sse_frame (ss_buffer s) = Some (frame, rest) →
     P (mkStreamState rest p n)) → P s) → ∀ s, P s.
Proof.
  intros Hstep s. remember (length (ss_buffer s)) as n eqn:Hn. revert s Hn.
  induction (lt_wf n) as [n _ IH]. intros s ->. apply Hstep.
  intros frame rest p m Htake%take_sse_frame_shrinks. eapply IH; [|done]. done.
Qed.

(** Running the loop on a longer buffer continues where the shorter one stopped. *)
Lemma pump_all_app r s :
  pump_all' (extend_buffer r s) =
  match pump_all' s with
  | (events, None) => (events, None)
  | (events, Some s') =>
    let '(events', next) := pump_all' (extend_buffer r s') in (events ++ events', next)
  end.
Proof.
  induction s as [s IH] using frames_ind.
  rewrite (pump_all_unfold s). destruct (take_sse_frame (ss_buffer s)) as [[frame rest]|] eqn:Htake.
  2:{ destruct (pump_all' (extend_buffer r s)) as [? ?]; done. }
  rewrite pump_all_unfold. cbn [ss_buffer extend_buffer].
  rewrite (take_sse_frame_app _ r _ _ Htake).
  assert (∀ p n, pump_all' (mkStreamState (rest ++ r) p n) =
    match pump_all' (mkStreamState rest p n) with
    | (events, None) => (events, None)
    | (events, Some s') =>
      let '(events', next) := pump_all' (extend_buffer r s') in (events ++ events', next)
    end) as Hrest.
  { intros p n. by apply (IH frame rest p n). }
  cbv zeta. cbn [ss_part_types ss_sequence extend_buffer].
  destruct (parse_sse_frame _ _) as [[up|]|e|]; [|by rewrite Hrest|done..].
  destruct (negb _); [by rewrite Hrest|].
  destruct (normalize_upstream_event _ _ _ _) as [event terminal].
  destruct (negb _); [done|]. destruct (_ || _); [done|]. rewrite Hrest.
  destruct (pump_all' (mkStreamState rest _ _)) as [evs [s'|]]; [|done].
  by destruct (pump_all' (extend_buffer r s')) as [? ?].
Qed.

Lemma extend_buffer_nil s : extend_buffer [] s = s.
Proof. destruct s as [b p n]. unfold extend_buffer. cbn. by rewrite app_nil_r. Qed.
Lemma extend_buffer_app a b s : extend_buffer b (extend_buffer a s) = extend_buffer (a ++ b) s.
Proof. destruct s as [l p n]. unfold extend_buffer. cbn. by rewrite app_assoc. Qed.

(** What the loop leaves in the buffer was in it, and has no frame. *)
Lemma pump_all_rest s events s' :
  pump_all' s = (events, Some s') →
  length (ss_buffer s') ≤ length (ss_buffer s) ∧ take_sse_frame (ss_buffer s') = None.
Proof.
  revert events; induction s as [s IH] using frames_ind; intros events.
  rewrite (pump_all_unfold s). destruct (take_sse_frame (ss_buffer s)) as [[frame rest]|] eqn:Htake.
  2:{ by intros [= <- <-]. }
  pose proof (take_sse_frame_shrinks _ _ _ Htake).
  assert (∀ p n evs, pump_all' (mkStreamState rest p n) = (evs, Some s') →
    length (ss_buffer s') ≤ length (ss_buffer s) ∧ take_sse_frame (ss_buffer s') = None) as Hrest.
  { intros p n evs Hp. destruct (IH _ _ p n eq_refl evs Hp). cbn in *. split; [lia|done]. }
  cbv zeta. destruct (parse_sse_frame _ _) as [[up|]|e|]; [|by apply Hrest|done..].
  destruct (negb _); [by apply Hrest|].
  destruct (normalize_upstream_event _ _ _ _) as [event terminal].
  destruct (negb _); [done|]. destruct (_ || _); [done|].
  destruct (pump_all' (mkStreamState rest _ _)) as [evs next] eqn:Hp.
  intros [= <- ->]. by eapply Hrest.
Qed.

Lemma forward_chunks s chunks :
  take_sse_frame (ss_buffer s) = None →
  (N.of_nat (length (ss_buffer s) + length (concat chunks)) <= MAX_BUFFER)%N →
  forward' s (Some <$> chunks) = forward' s [Some (concat chunks)].
Proof.
  revert s; induction chunks as [|chunk chunks IH]; intros s Hframe Hlen.
  - cbn [concat fmap list_fmap forward]. rewrite extend_buffer_nil, pump_all_unfold, Hframe.
    destruct (N.ltb_spec MAX_BUFFER (N.of_nat (length (ss_buffer s)))); [cbn in *; lia|done].
  - cbn [concat fmap list_fmap] in *. rewrite length_app in Hlen.
    cbn [forward]. rewrite <- extend_buffer_app, (pump_all_app (concat chunks)).
    destruct (N.ltb_spec MAX_BUFFER (N.of_nat (length (ss_buffer (extend_buffer chunk s)))));
      [cbn in *; rewrite ?length_app in *; lia|].
    destruct (N.ltb_spec MAX_BUFFER (N.of_nat
      (length (ss_buffer (extend_buffer (concat chunks) (extend_buffer chunk s))))));
      [cbn in *; rewrite ?length_app in *; lia|].
    destruct (pump_all' (extend_buffer chunk s)) as [events [s'|]] eqn:Hpump; [|done].
    apply pump_all_rest in Hpump as [Hle Hnone]. cbn in Hle. rewrite length_app in Hle.
    rewrite IH; [|done|lia]. cbn [forward].
    destruct (N.ltb_spec MAX_BUFFER (N.of_nat (length (ss_buffer (extend_buffer (concat chunks) s')))));
      [cbn in *; rewrite ?length_app in *; lia|].
    destruct (pump_all' (extend_buffer (concat chunks) s')) as [events' [s''|]]; [|done].
    by rewrite app_assoc.
Qed.
End forwarding_theorems.

(** ** What is forwarded *)

Definition terminal_types : list string :=
  ["response.completed"; "response.failed"; "runtime.stream_error"; "runtime.stream_closed"].

(** The fields that may reach the application, by event type.  In particular no text of the
    model's reasoning and no input or output of a tool does. *)
Definition forwarded_fields : list (string * list string) := [
  ("response.delta", ["assistantMessageID"; "textID"; "messageID"; "partID"; "delta"]);
  ("reasoning.available", ["assistantMessageID"; "reasoningID"; "messageID"; "partID"; "id"]);
  ("reasoning.completed", ["assistantMessageID"; "reasoningID"]);
  ("tool.started", ["assistantMessageID"; "callID"; "tool"; "provider"; "status"]);
  ("tool.progress", ["assistantMessageID"; "callID"; "tool"; "status"]);
  ("tool.completed", ["assistantMessageID"; "callID"; "tool"; "outputPaths"; "provider"; "status"]);
  ("tool.failed", ["assistantMessageID"; "callID"; "tool"; "status"]);
  ("approval.requested", ["id"; "action"; "permission"; "resources"; "patterns"; "save"]);
  ("clarification.requested", ["id"; "questions"]);
  ("response.started", ["assistantMessageID"; "messageID"; "id"; "source"]);
  ("response.step_completed",
   ["assistantMessageID"; "messageID"; "finish"; "reason"; "cost"; "tokens"; "files"]);
  ("response.text_state", ["messageID"; "id"; "time"]);
  ("response.retrying", ["attempt"; "message"; "next"]);
  ("response.failed", ["assistantMessageID"; "error"]);
  ("response.completed", ["terminal"; "source"]);
  ("runtime.upstream_event", ["upstream_type"; "part_type"; "status"]);
  ("runtime.stream_error", ["recoverable"; "reason"]);
  ("runtime.stream_closed", ["terminal"; "completed"])].

Definition allowed_fields (event_type : string) : list string :=
  default [] (snd <$> find (λ row : string * list string, bool_decide (row.1 = event_type)) forwarded_fields).

(** A normalized event: its fields are allowed, and it is terminal exactly if its type is. *)
Definition reviewed (n : Normalized) : Prop :=
  field_names n.1.2 ⊆ allowed_fields n.1.1 ∧ bool_decide (n.1.1 ∈ terminal_types) = n.2.

Definition reviewed_names (event_type : string) (names : list string) (terminal : bool) : bool :=
  forallb (λ name, bool_decide (name ∈ allowed_fields event_type)) names
  && Bool.eqb (bool_decide (event_type ∈ terminal_types)) terminal.

Lemma reviewed_intro event_type payload terminal names :
  field_names payload ⊆ names → reviewed_names event_type names terminal = true →
  reviewed (event_type, payload, terminal).
Proof.
  intros Hsub [Hnames Hterm]%andb_prop. split; [|by apply eqb_prop].
  cbn [fst snd]. intros name Hname%Hsub. rewrite forallb_forall in Hnames.
  apply list_elem_of_In, Hnames in Hname. by apply bool_decide_eq_true in Hname.
Qed.

Lemma selected_names properties names : field_names (selected_properties properties names) ⊆ names.
Proof.
  intros k Hk. unfold selected_properties in Hk. rewrite object_of_names in Hk.
  apply list_elem_of_fmap in Hk as ([k' v] & -> & Hin).
  apply list_elem_of_omap in Hin as (name & Hname & (w & Hw & [= -> ->])%fmap_Some). done.
Qed.

Lemma object_of_subseteq entries : field_names (object_of entries) ⊆ entries.*1.
Proof. intros k Hk. by rewrite object_of_names in Hk. Qed.

Ltac solve_reviewed :=
  first [eapply reviewed_intro; [apply selected_names|vm_compute; reflexivity]
        |eapply reviewed_intro; [apply object_of_subseteq|vm_compute; reflexivity]].

Lemma tool_status_event_cases status :
  tool_status_event status ∈ ["tool.started"; "tool.completed"; "tool.failed"; "tool.progress"].
Proof. unfold tool_status_event. repeat case_bool_decide; set_solver. Qed.

Lemma normalize_payload_reviewed upstream_type properties known :
  reviewed (normalize_payload upstream_type properties known).
Proof.
  unfold normalize_payload. case_bool_decide.
  { unfold normalize_delta. repeat case_bool_decide; solve_reviewed. }
  case_bool_decide.
  { unfold normalize_part. cbv zeta. case_bool_decide.
    - pose proof (tool_status_event_cases (default "unknown" (pointer_str ["state"; "status"]
        (or_null (value_get "part" properties))))) as Hty.
      revert Hty. generalize (tool_status_event (default "unknown" (pointer_str ["state"; "status"]
        (or_null (value_get "part" properties))))) as ty. intros ty Hty.
      repeat (apply elem_of_cons in Hty as [->|Hty]; [solve_reviewed|]). by apply elem_of_nil in Hty.
    - repeat case_bool_decide; solve_reviewed. }
  destruct (find _ selections) as [[types [[event_type names] terminal]]|] eqn:Hfind.
  - apply find_some in Hfind as [Hin _].
    assert (forallb (λ row : list string * (string * list string * bool),
      reviewed_names row.2.1.1 row.2.1.2 row.2.2) selections = true) as Hall
      by (vm_compute; reflexivity).
    rewrite forallb_forall in Hall. specialize (Hall _ Hin).
    eapply reviewed_intro; [apply selected_names|exact Hall].
  - case_bool_decide; [unfold normalize_status; repeat case_bool_decide; solve_reviewed|].
    case_bool_decide; solve_reviewed.
Qed.

(** ** The stream as a whole *)

(** A stream numbered from [n] on: consecutive numbers, events of one session with allowed
    fields, and nothing after a terminal event. *)
Fixpoint well_formed (session_id : string) (n : N) (events : list EventEnvelope) : Prop :=
  match events with
  | [] => True
  | e :: events =>
    ev_monotonic_sequence e = n ∧ ev_session_id e = Some session_id ∧
    field_names (ev_payload e) ⊆ allowed_fields (ev_type e) ∧
    (ev_type e ∈ terminal_types → events = []) ∧
    well_formed session_id (n + 1) events
  end.

Definition live (e : EventEnvelope) : Prop := ev_type e ∉ terminal_types.

Lemma well_formed_app session_id n a b :
  Forall live a → well_formed session_id n a →
  well_formed session_id (n + N.of_nat (length a)) b → well_formed session_id n (a ++ b).
Proof.
  revert n; induction a as [|e a IH]; intros n Hlive Ha Hb; cbn [app length well_formed] in *.
  - change (N.of_nat 0) with 0%N in Hb. by rewrite N.add_0_r in Hb.
  - apply Forall_cons in Hlive as [Hl Hlive]. destruct Ha as (? & ? & ? & ? & Ha).
    split_and!; [done..|]. apply IH; [done..|].
    by replace (n + 1 + N.of_nat (length a))%N with (n + N.of_nat (S (length a)))%N by lia.
Qed.

Section stream_theorems.
Context `{EventHost} (from_str : string → option Value).
Context (accepts : N → bool) (session_id : string).

(** The loop returned because of a terminal event, unless the receiver is gone or the sequence
    numbers are used up. *)
Definition ended (n : N) (events : list EventEnvelope) : Prop :=
  (∀ m, accepts m = true) → (n + N.of_nat (length events) <= u64_max)%N →
  ∃ e, last events = Some e ∧ ev_type e ∈ terminal_types.

Lemma ended_app n a b : ended (n + N.of_nat (length a)) b → ended n (a ++ b).
Proof.
  intros Hb Hacc Hlen. rewrite length_app in Hlen. destruct Hb as (e & He & Hty); [done|lia|].
  exists e. by rewrite last_app, He.
Qed.

Lemma send_last_well_formed n event_type payload :
  reviewed (event_type, payload, true) →
  well_formed session_id n (send_last accepts session_id n event_type payload) ∧
  ended n (send_last accepts session_id n event_type payload).
Proof.
  intros [Hfields Hty%bool_decide_eq_true]. unfold send_last, ended. split.
  - case_match; [|done]. split_and!; [done|done|exact Hfields|done|done].
  - intros Hacc _. rewrite Hacc. by eexists.
Qed.

Lemma own_session upstream :
  upstream_session_id upstream = Some session_id →
  default session_id (get_str "sessionID" (or_null (value_get "properties" upstream))) = session_id.
Proof.
  unfold upstream_session_id, get_str. cbn [pointer].
  destruct (value_get "properties" upstream) as [properties|]; [|intros; reflexivity].
  cbn [mbind option_bind or_null default from_option id].
  destruct (value_get "sessionID" properties) as [v|]; [|intros; reflexivity].
  cbn. by intros ->.
Qed.

(** An event of the loop. *)
Lemma normalized_event n upstream known event terminal :
  upstream_session_id upstream = Some session_id →
  normalize_upstream_event n session_id upstream known = (event, terminal) →
  ev_monotonic_sequence event = n ∧ ev_session_id event = Some session_id ∧
  field_names (ev_payload event) ⊆ allowed_fields (ev_type event) ∧
  bool_decide (ev_type event ∈ terminal_types) = terminal.
Proof.
  intros Hown. unfold normalize_upstream_event. rewrite own_session by done. cbv zeta.
  pose proof (normalize_payload_reviewed (default "unknown" (get_str "type" upstream))
    (or_null (value_get "properties" upstream)) known) as [Hf Ht].
  destruct (normalize_payload _ _ _) as [[ty payload] t]. intros [= <- <-]. done.
Qed.

Lemma pump_all_well_formed s events next :
  pump_all from_str accepts session_id s = (events, next) →
  well_formed session_id (ss_sequence s) events ∧
  match next with
  | Some s' => Forall live events ∧ ss_sequence s' = (ss_sequence s + N.of_nat (length events))%N
  | None => ended (ss_sequence s) events
  end.
Proof.
  revert events next; induction s as [s IH] using frames_ind; intros events next.
  rewrite (pump_all_unfold _ _ _ s).
  destruct (take_sse_frame (ss_buffer s)) as [[frame rest]|] eqn:Htake.
  2:{ intros [= <- <-]. cbn. split_and!; [done|constructor|lia]. }
  specialize (IH frame rest). cbv zeta.
  destruct (parse_sse_frame _ _) as [[up|]|e|]; [|by apply IH|..].
  2,3: intros [= <- <-]; apply send_last_well_formed; solve_reviewed.
  case_bool_decide as Hown; [|by apply IH]. cbn [negb].
  destruct (normalize_upstream_event _ _ _ _) as [event terminal] eqn:Hnorm.
  destruct (normalized_event _ _ _ _ _ Hown Hnorm) as (Hseq & Hsess & Hfields & Hterm).
  destruct (accepts (ss_sequence s)) eqn:Hacc; cbn [negb].
  2:{ intros [= <- <-]. split; [done|]. intros Hall. by rewrite Hall in Hacc. }
  destruct (_ || _) eqn:Hstop.
  { intros [= <- <-]. split; [by cbn|]. intros _ Hlen. cbn in Hlen.
    destruct (N.eqb_spec (ss_sequence s) u64_max); [lia|]. cbn in Hstop. rewrite Hstop in Hterm.
    exists event. split; [done|]. by apply bool_decide_eq_true in Hterm. }
  apply orb_false_iff in Hstop as [_ ->]. apply bool_decide_eq_false in Hterm.
  destruct (pump_all _ _ _ (mkStreamState rest _ _)) as [evs next'] eqn:Hpump.
  intros [= <- <-]. apply IH in Hpump as [Hwf Hnext]; [|done]. cbn [ss_sequence] in *.
  split; [by cbn|]. destruct next' as [s'|].
  - destruct Hnext as [Hlive Hs']. split; [by constructor|]. cbn. lia.
  - apply (ended_app _ [event]). cbn. by replace (N.of_nat 1) with 1%N.
Qed.

Lemma forward_well_formed s stream :
  well_formed session_id (ss_sequence s) (forward from_str accepts session_id s stream) ∧
  ended (ss_sequence s) (forward from_str accepts session_id s stream).
Proof.
  revert s; induction stream as [|[chunk|] stream IH]; intros s; cbn [forward].
  - apply send_last_well_formed; solve_reviewed.
  - case_match; [apply send_last_well_formed; solve_reviewed|].
    destruct (pump_all _ _ _ _) as [events next] eqn:Hpump.
    apply pump_all_well_formed in Hpump as [Hwf Hnext]. cbn [ss_sequence extend_buffer] in *.
    destruct next as [s'|]; [|done]. destruct Hnext as [Hlive Hs'].
    destruct (IH s') as [Hwf' Hend]. rewrite Hs' in *.
    split; [by apply well_formed_app|by apply ended_app].
  - apply send_last_well_formed; solve_reviewed.
Qed.

(** The events of a turn do not depend on how the network splits the stream: as long as
    the stream is within the buffer limit, forwarding its chunks gives the events of the whole
    text. *)
Theorem event_stream_ignores_chunks sequence chunks :
  (N.of_nat (length (concat chunks)) <= MAX_BUFFER)%N →
  forward_sse_events from_str accepts session_id sequence (Some <$> chunks) =
  forward_sse_events from_str accepts session_id sequence [Some (concat chunks)].
Proof. intros Hlen. apply forward_chunks; [done|]. cbn. lia. Qed.

(** C12: every stream of events that reaches the application is well formed, whatever the sidecar
    sends: consecutive sequence numbers from the given one, only the turn's own session, only
    the allow-listed fields of each event type (so no reasoning text and no tool input), nothing
    after a terminal event; and the stream does end with a terminal event unless the receiver
    is gone or the sequence numbers are used up. *)
Theorem event_stream_is_well_formed sequence stream :
  let events := forward_sse_events from_str accepts session_id sequence stream in
  well_formed session_id sequence events ∧ ended sequence events.
Proof. apply (forward_well_formed (mkStreamState [] ∅ sequence)). Qed.
End stream_theorems.

(** ** A stream *)

Definition example_host : EventHost := {|
  fresh_event_id n := pretty n;
  event_timestamp n := pretty n;
|}.

Definition example_idle : Value :=
  VObject [("properties", VObject [("sessionID", VString "s1")]); ("type", VString "session.idle")].

Definition example_stream : list (list ascii) :=
  [bytes "data: idle"; [lf]; lf :: bytes "data: more"].

Lemma event_stream_ignores_chunks_witness :
  @forward_sse_events example_host (λ _, Some example_idle) (λ _, true) "s1" 2 (Some <$> example_stream) =
  [@runtime_event example_host 2 "s1" "response.completed" (object_of [("terminal", VBool true)])].
Proof.
  rewrite (@event_stream_ignores_chunks example_host (λ _, Some example_idle) (λ _, true) "s1" 2
    example_stream); [reflexivity|]. apply N.leb_le. reflexivity.
Defined.
