(* ===== verification/RuntimeGuard.v ===== *)
(** * The guard of the coding tools

    Models the native checks of [crates/runtime/src/lib.rs] on what the coding agent may do:
    [authorize_coding_tool] with the destructive-command filter, the shell tokenizer, the
    workspace check of paths and the scan of patches, [prompt_parts], and the bridge request
    [execute_bridge_request] that puts them behind the registered sessions and the tool
    gateway.  The file system is an interface.  A path is the list of its components: empty
    and [.] components, which the standard library drops, are dropped when it is read. *)

From stdpp Require Import base gmap strings list pretty.
From Stdlib Require Import Ascii.
From S2P Require Import Prelude Text McpText McpModel.

(** ** Words of a shell command *)

Inductive ShellQuote : Type := Single | Double.

(** The loop of [split_shell_words] over the bytes: the words so far (reversed), the current word
    (reversed), whether one has started, and the open quote.  A character after a backslash is
    pushed whatever it is: its first byte here, the others in the next rounds, which treat
    bytes outside ASCII alike. *)
Fixpoint split_words_go (fuel : nat) (words : list (list ascii)) (word : list ascii)
    (started : bool) (quote : option ShellQuote) (l : list ascii) : option (list (list ascii)) :=
  match fuel with
  | O => None
  | S fuel =>
    match l with
    | [] =>
      match quote with
      | Some _ => None
      | None => Some (reverse (if started then reverse word :: words else words))
      end
    | c :: l' =>
      match quote with
      | Some Single =>
        if decide (c = single_quote) then split_words_go fuel words word started None l'
        else split_words_go fuel words (c :: word) started quote l'
      | Some Double =>
        if decide (c = double_quote) then split_words_go fuel words word started None l'
        else if decide (c = backslash) then
          match l' with
          | [] => None
          | d :: l'' => split_words_go fuel words (d :: word) started quote l''
          end
        else split_words_go fuel words (c :: word) started quote l'
      | None =>
        if decide (c = single_quote) then split_words_go fuel words word true (Some Single) l'
        else if decide (c = double_quote) then split_words_go fuel words word true (Some Double) l'
        else if decide (c = backslash) then
          match l' with
          | [] => None
          | d :: l'' => split_words_go fuel words (d :: word) true None l''
          end
        else match strip_ws l with
        | Some rest =>
          if started then split_words_go fuel (reverse word :: words) [] false None rest
          else split_words_go fuel words word false None rest
        | None => split_words_go fuel words (c :: word) true None l'
        end
      end
    end
  end.

Definition split_shell_words (command : string) : option (list string) :=
  (λ ws : list (list ascii), of_bytes <$> ws) <$>
    split_words_go (S (length (bytes command))) [] [] false None (bytes command).

Definition shell_command_word (word : string) : string :=
  of_bytes (trim_matches (λ c, bool_decide (c ∈ bytes "$()`;")) (bytes word)).

(** ** Destructive commands *)

Definition normalize_shell_command (command : string) : string :=
  let collapsed := to_ascii_lowercase (join " " (split_whitespace command)) in
  let rest := from_whitespace (bytes collapsed) in
  let argv0 := take (length (bytes collapsed) - length rest) (bytes collapsed) in
  if (2 <=? length argv0)
     && match head argv0 with
        | Some c => bool_decide (c = single_quote) || bool_decide (c = double_quote)
        | None => false
        end
     && bool_decide (last argv0 = head argv0)
  then of_bytes (take (length argv0 - 2) (drop 1 argv0) ++ rest)
  else collapsed.

Definition word_at (words : list string) (i : nat) : option string :=
  shell_command_word <$> words !! i.

Definition privileged (argv0 : string) : bool :=
  bool_decide (argv0 ∈ ["sudo"; "doas"; "shutdown"; "reboot"]) || str_starts_with "mkfs" argv0.

Definition destructive_at (words : list string) (index : nat) (word : string) : bool :=
  let command := shell_command_word word in
  let first := word_at words (index + 1) in
  let second := word_at words (index + 2) in
  if bool_decide (command = "rm") then
    bool_decide (first = Some "-rf") || bool_decide (first = Some "-fr")
    || (bool_decide (first = Some "-r") && bool_decide (second = Some "-f"))
  else if bool_decide (command = "git") then
    bool_decide (first = Some "clean")
    || (bool_decide (first = Some "reset") && bool_decide (second = Some "--hard"))
  else false.

Definition any_indexed (f : nat → string → bool) (words : list string) : bool :=
  existsb id (imap f words).

Definition destructive_token_sequence (words : list string) : bool :=
  let argv0_index := if bool_decide (word_at words 0 = Some "command") then 1 else 0 in
  match word_at words argv0_index with Some argv0 => privileged argv0 | None => false end
  || any_indexed (destructive_at words) words.

(** The text after the last [>], if there is one. *)
Fixpoint after_last (c : ascii) (l : list ascii) : option (list ascii) :=
  match l with
  | [] => None
  | d :: l =>
    match after_last c l with
    | Some r => Some r
    | None => if decide (c = d) then Some l else None
    end
  end.

Definition redirects_at (words : list string) (index : nat) (word : string) : bool :=
  match after_last ">"%char (bytes word) with
  | None => false
  | Some inline_target =>
    let target := match inline_target with
      | [] => default "" (words !! (index + 1))
      | _ => of_bytes inline_target
      end in
    let target := shell_command_word target in
    str_starts_with "/dev/sd" target || str_starts_with "/dev/nvme" target
  end.

Definition redirects_to_raw_block_device (words : list string) : bool :=
  any_indexed (redirects_at words) words.

Definition forbidden_fragments : list string :=
  ["rm -rf"; "git reset --hard"; "git clean -"; "sudo "; "doas "; "mkfs"; "shutdown"; "reboot";
   "> /dev/"].

Definition destructive_shell_command (command : string) : bool :=
  let normalized := normalize_shell_command command in
  let words := default (split_whitespace normalized) (split_shell_words normalized) in
  destructive_token_sequence words || redirects_to_raw_block_device words
  || existsb (str_contains normalized) forbidden_fragments.

(** ** Paths *)

Abbreviation Path := (list string).

(** [canonicalize] and [exists] of [std::fs], on absolute paths. *)
Class FileSystem : Type := {
  canonicalize : Path → option Path;
  exists_ : Path → bool;
}.

(** The components of a text, split at slashes. *)
Fixpoint components_go (cur : list ascii) (l : list ascii) : list string :=
  let flush := let c := of_bytes (reverse cur) in
    if is_empty c || bool_decide (c = ".") then [] else [c] in
  match l with
  | [] => flush
  | c :: l => if decide (c = "/"%char) then flush ++ components_go [] l
              else components_go (c :: cur) l
  end.
Definition components (value : string) : Path := components_go [] (bytes value).
Definition is_absolute (value : string) : bool := str_starts_with "/" value.

(** [canonical.starts_with(workspace)], by components. *)
Definition path_starts_with (path prefix : Path) : bool := bool_decide (prefix `prefix_of` path).

Definition candidate_path (workspace : Path) (value : string) : Path :=
  if is_absolute value then components value else workspace ++ components value.

Section guard.
Context `{FileSystem}.

(** [while !ancestor.exists()]: the nearest existing ancestor, by removing components. *)
Fixpoint existing_ancestor (rev_path : Path) : option Path :=
  if exists_ (reverse rev_path) then Some (reverse rev_path)
  else match rev_path with [] => None | _ :: parent => existing_ancestor parent end.

Definition path_is_within_workspace (workspace : Path) (value : string) : bool :=
  if is_empty value || contains_byte nul value then false
  else
    let candidate := candidate_path workspace value in
    match canonicalize candidate with
    | Some canonical => path_starts_with canonical workspace
    | None =>
      match existing_ancestor (reverse candidate) ≫= canonicalize with
      | Some canonical => path_starts_with canonical workspace
      | None => false
      end
    end.

(** ** Authorization *)

Definition path_markers : list string :=
  ["*** Add File: "; "*** Update File: "; "*** Delete File: "; "*** Move to: "].

(** The target a patch line names. *)
Definition patch_target (line : string) : option string :=
  head (omap (λ marker, str_strip_prefix marker line) path_markers).

Definition patch_targets (patch_text : string) : list string :=
  trim <$> omap patch_target (lines patch_text).

Definition validate_patch_paths (workspace : Path) (patch_text : string) : outcome string () :=
  let targets := patch_targets patch_text in
  _ ← try_for_each (λ target, ensure_not (negb (path_is_within_workspace workspace target))
        "apply_patch target leaves the registered session workspace") targets;
  ensure_not (bool_decide (targets = [])) "apply_patch contains no reviewed file target".

Definition CODING_TOOLS : list string :=
  ["apply_patch"; "bash"; "edit"; "execute"; "glob"; "grep"; "list"; "lsp"; "patch"; "read";
   "skill"; "task"; "todoread"; "todowrite"; "webfetch"; "websearch"; "write"].

Definition check_path_argument (directory : Path) (object : list (string * Value)) (key : string)
    : outcome string () :=
  match object_get key object ≫= as_str with
  | Some path => ensure_not (negb (path_is_within_workspace directory path))
      (key +:+ " leaves the registered session workspace")
  | None => Ok ()
  end.

Definition str_argument (object : list (string * Value)) (key missing : string)
    : outcome string string :=
  match object_get key object ≫= as_str with Some s => Ok s | None => Err missing end.

Definition authorize_patch (tool : string) (directory : Path) (object : list (string * Value))
    : outcome string () :=
  if bool_decide (tool ∈ ["apply_patch"; "patch"]) then
    patch_text ← str_argument object "patchText" "apply_patch patchText is required";
    validate_patch_paths directory patch_text
  else Ok ().

Definition authorize_bash (tool : string) (object : list (string * Value)) : outcome string () :=
  if bool_decide (tool = "bash") then
    command ← str_argument object "command" "bash command is required";
    _ ← ensure_not (is_empty command || (16 * 1024 <? N.of_nat (str_len command))%N
                    || contains_byte nul command)
          "bash command is empty or exceeds the native limit";
    ensure_not (destructive_shell_command command)
      "destructive or privileged shell command is blocked natively"
  else Ok ().

Definition path_keys : list string := ["filePath"; "path"; "cwd"; "workdir"].

Definition authorize_coding_tool (tool : string) (arguments : Value) (directory : Path)
    : outcome string () :=
  _ ← ensure_not (negb (bool_decide (tool ∈ CODING_TOOLS)))
        "coding tool is not in the reviewed native allowlist";
  object ← (match as_object arguments with
            | Some object => Ok object
            | None => Err "coding tool arguments must be an object"
            end);
  _ ← try_for_each (check_path_argument directory object) path_keys;
  _ ← authorize_patch tool directory object;
  authorize_bash tool object.
End guard.

(** ** The shell tokenizer reads back what the consent text shows *)

Lemma strip_ws_length l r : strip_ws l = Some r → length r < length l.
Proof. unfold strip_ws. repeat case_match; intros; simplify_eq/=; lia. Qed.

Lemma split_words_fuel f f' ws w st q l :
  length l < f → length l < f' → split_words_go f ws w st q l = split_words_go f' ws w st q l.
Proof.
  revert f' ws w st q l; induction f as [|f IH]; intros [|f'] ws w st q l Hf Hf'; try lia.
  destruct l as [|c l]; [done|]. cbn -[strip_ws] in *.
  destruct q as [[]|].
  - case_decide; apply IH; lia.
  - repeat case_decide; [apply IH; lia| |apply IH; lia].
    destruct l; [done|]. simpl in *. apply IH; lia.
  - repeat case_decide; [apply IH; lia..| |].
    { destruct l; [done|]. simpl in *. apply IH; lia. }
    destruct (strip_ws (c :: l)) as [r|] eqn:Hr; [|apply IH; lia].
    apply strip_ws_length in Hr. simpl in Hr. destruct st; apply IH; lia.
Qed.

(** The tokenizer with the fuel [split_shell_words] gives it. *)
Definition tokens (ws : list (list ascii)) (w : list ascii) (st : bool) (q : option ShellQuote)
    (l : list ascii) : option (list (list ascii)) :=
  split_words_go (S (length l)) ws w st q l.

Lemma plain_byte_not_special c l :
  plain_byte c = true →
  c ≠ single_quote ∧ c ≠ double_quote ∧ c ≠ backslash ∧ strip_ws (c :: l) = None.
Proof.
  destruct c as [[] [] [] [] [] [] [] []]; intros Hc; vm_compute in Hc; try discriminate Hc;
    (split_and!; [discriminate..|by destruct l as [|? [|? ?]]]).
Qed.

Lemma tokens_plain ws w st p l :
  forallb plain_byte p = true →
  tokens ws w st None (p ++ l) =
  tokens ws (reverse p ++ w) (st || negb (bool_decide (p = []))) None l.
Proof.
  revert w st; induction p as [|c p IH]; intros w st Hp; [by rewrite orb_false_r|].
  apply andb_prop in Hp as [Hc Hp].
  destruct (plain_byte_not_special c (p ++ l) Hc) as (? & ? & ? & Hws).
  trans (tokens ws (c :: w) true None (p ++ l)).
  - unfold tokens. cbn -[strip_ws]. by rewrite !decide_False, Hws.
  - by rewrite IH, reverse_cons, <- app_assoc, orb_true_r.
Qed.

Lemma tokens_single ws w p l :
  tokens ws w true (Some Single) (replace_byte single_quote (bytes "'\''") p ++ single_quote :: l) =
  tokens ws (reverse p ++ w) true None l.
Proof.
  revert w; induction p as [|c p IH]; intros w; [done|].
  rewrite reverse_cons, <- app_assoc. simpl. case_decide as Hc.
  - subst c. refine (eq_trans _ (IH (single_quote :: w))). unfold tokens.
    set (r := replace_byte _ _ _ ++ _).
    change (split_words_go (S (S (length r))) ws (single_quote :: w) true (Some Single) r =
      split_words_go (S (length r)) ws (single_quote :: w) true (Some Single) r).
    apply split_words_fuel; lia.
  - refine (eq_trans _ (IH (c :: w))). unfold tokens. cbn. by rewrite decide_False.
Qed.

Lemma tokens_word ws v l :
  tokens ws [] false None (bytes (shell_display_word v) ++ l) =
  tokens ws (reverse (bytes v)) true None l.
Proof.
  unfold shell_display_word. case_match eqn:Hplain.
  - apply andb_prop in Hplain as [Hne Hplain]. rewrite tokens_plain, app_nil_r by done.
    rewrite bool_decide_eq_false_2; [done|]. intros Hnil. destruct v; [|done]. by cbn in Hne.
  - rewrite bytes_of_bytes. unfold quote_word. unfold tokens at 1. cbn.
    rewrite <- app_assoc.
    rewrite <- (app_nil_r (reverse (bytes v))). apply (tokens_single ws []).
Qed.

Lemma tokens_words ws vs v :
  tokens ws [] false None (bytes (join " " (shell_display_word <$> v :: vs))) =
  Some (reverse ws ++ (bytes <$> v :: vs)).
Proof.
  revert ws v; induction vs as [|v' vs IH]; intros ws v; simpl.
  - rewrite <- (app_nil_r (bytes _)), tokens_word. cbn.
    rewrite reverse_involutive. apply (f_equal Some), (reverse_cons ws).
  - rewrite !bytes_app, tokens_word.
    refine (eq_trans (IH (reverse (reverse (bytes v)) :: ws) v') _).
    by rewrite reverse_involutive, reverse_cons, <- app_assoc.
Qed.

(** The text of an install command that the user consents to denotes exactly the
    program and the arguments that are run: reading the displayed line with the shell
    tokenizer gives back the program and the argument list, whatever bytes they hold. *)
Theorem displayed_command_reads_back r :
  split_shell_words (display_command r) = Some (ir_program r :: ir_arguments r).
Proof.
  unfold split_shell_words, display_command.
  pose proof (tokens_words [] (ir_arguments r) (ir_program r)) as Hread.
  unfold tokens in Hread. rewrite Hread. simpl. rewrite of_bytes_bytes. do 2 f_equal.
  rewrite <- list_fmap_compose. rewrite <- (list_fmap_id (ir_arguments r)) at 2.
  apply list_fmap_ext. intros ? s _. apply of_bytes_bytes.
Qed.

(** ** Destructive token sequences, by rules *)

(** The sequences of command words the guard means to stop. *)
Inductive Destructive : list string → Prop :=
  | privileged_program c rest : privileged c = true → Destructive (c :: rest)
  | privileged_through_command c rest : privileged c = true → Destructive ("command" :: c :: rest)
  | recursive_force_delete before flags after :
      flags ∈ [["-rf"]; ["-fr"]; ["-r"; "-f"]] → Destructive (before ++ "rm" :: flags ++ after)
  | git_clean before after : Destructive (before ++ "git" :: "clean" :: after)
  | git_reset_hard before after : Destructive (before ++ "git" :: "reset" :: "--hard" :: after).

Lemma any_indexed_true f ws :
  any_indexed f ws = true ↔ ∃ i w, ws !! i = Some w ∧ f i w = true.
Proof.
  unfold any_indexed. rewrite existsb_exists. setoid_rewrite <- list_elem_of_In.
  setoid_rewrite elem_of_lookup_imap. unfold id. naive_solver.
Qed.

(** Reading the words from position [i] on. *)
Lemma word_at_drop ws i w :
  ws !! i = Some w →
  (shell_command_word <$> ws) =
  take i (shell_command_word <$> ws) ++ shell_command_word w ::
    drop (S i) (shell_command_word <$> ws).
Proof.
  intros Hi. symmetry. apply take_drop_middle. by rewrite list_lookup_fmap, Hi.
Qed.

Lemma word_at_head ws i c :
  word_at ws i = Some c →
  drop i (shell_command_word <$> ws) = c :: drop (S i) (shell_command_word <$> ws).
Proof. unfold word_at. rewrite <- list_lookup_fmap. apply drop_S. Qed.

Lemma word_at_app ws before c after :
  shell_command_word <$> ws = before ++ c :: after → word_at ws (length before) = Some c.
Proof. intros Hws. unfold word_at. rewrite <- list_lookup_fmap, Hws. by apply list_lookup_middle. Qed.

Lemma destructive_at_rules ws i w :
  ws !! i = Some w → destructive_at ws i w = true → Destructive (shell_command_word <$> ws).
Proof.
  intros Hi Hd. unfold destructive_at in Hd.
  rewrite (word_at_drop ws i w Hi). rewrite <- Nat.add_1_r in *.
  repeat (case_bool_decide; simplify_eq/=; try done);
    repeat match goal with Hw : _ = Some _ |- _ => apply word_at_head in Hw end;
    replace (S (i + 1)) with (i + 2) in * by lia;
    repeat match goal with Hw : drop _ _ = _ |- _ => rewrite Hw; clear Hw end;
    rewrite ?Hd; match goal with Hc : shell_command_word w = _ |- _ => rewrite Hc end.
  all: first [apply git_clean|apply git_reset_hard
    |apply (recursive_force_delete _ ["-rf"]); set_solver
    |apply (recursive_force_delete _ ["-fr"]); set_solver
    |apply (recursive_force_delete _ ["-r"; "-f"]); set_solver].
Qed.

(** What the rules stop, the scan stops at the position of the command. *)
Lemma destructive_at_app ws before command args after :
  shell_command_word <$> ws = before ++ command :: args ++ after →
  (command = "rm" ∧ args ∈ [["-rf"]; ["-fr"]; ["-r"; "-f"]]) ∨
  (command = "git" ∧ args ∈ [["clean"]; ["reset"; "--hard"]]) →
  any_indexed (destructive_at ws) ws = true.
Proof.
  intros Hws Hargs. apply any_indexed_true.
  pose proof (word_at_app ws before command (args ++ after) Hws) as Hcmd.
  unfold word_at in Hcmd. apply fmap_Some in Hcmd as (w & Hw & Hcmd).
  exists (length before), w. split; [done|]. unfold destructive_at. rewrite <- Hcmd.
  assert (∀ i a, args !! i = Some a → word_at ws (length before + S i) = Some a) as Hat.
  { intros i a Ha. unfold word_at. rewrite <- list_lookup_fmap, Hws, lookup_app_r by lia.
    replace (length before + S i - length before) with (S i) by lia.
    by apply lookup_app_l_Some. }
  destruct Hargs as [[-> Hargs]|[-> Hargs]]; simpl;
    repeat (apply elem_of_cons in Hargs as [->|Hargs]); try by apply elem_of_nil in Hargs.
  all: pose proof (Hat 0 _ eq_refl) as H1.
  all: try pose proof (Hat 1 _ eq_refl) as H2.
  all: rewrite ?H1, ?H2; done.
Qed.

Lemma privileged_not_command : privileged "command" = false.
Proof. done. Qed.

Lemma destructive_token_sequence_rules ws :
  destructive_token_sequence ws = true ↔ Destructive (shell_command_word <$> ws).
Proof.
  unfold destructive_token_sequence. rewrite orb_true_iff. split.
  - intros [Hp|(i & w & Hi & Hd)%any_indexed_true]; [|by eapply destructive_at_rules].
    case_bool_decide as Hcmd; destruct (word_at ws _) as [c|] eqn:Hc; try done.
    + apply word_at_head in Hcmd. rewrite drop_0 in Hcmd. rewrite Hcmd.
      apply word_at_head in Hc. rewrite Hc. by constructor.
    + apply word_at_head in Hc. rewrite drop_0 in Hc. rewrite Hc. by constructor.
  - intros Hd. remember (shell_command_word <$> ws) as cs eqn:Hcs. symmetry in Hcs.
    destruct Hd as [c rest Hp|c rest Hp|before flags after Hf|before after|before after].
    + left. pose proof (word_at_app ws [] c rest Hcs) as Hc. simpl in Hc. rewrite Hc.
      rewrite bool_decide_eq_false_2, Hc; [done|]. intros [= ->]. by rewrite privileged_not_command in Hp.
    + left. pose proof (word_at_app ws [] _ _ Hcs) as H0.
      pose proof (word_at_app ws ["command"] c rest Hcs) as H1. simpl in H0, H1.
      by rewrite H0, bool_decide_eq_true_2, H1.
    + right. eapply destructive_at_app; [done|]. by left.
    + right. apply (destructive_at_app ws before "git" ["clean"] after Hcs). right. set_solver.
    + right. apply (destructive_at_app ws before "git" ["reset"; "--hard"] after Hcs).
      right. set_solver.
Qed.

Lemma to_ascii_lowercase_app a b :
  to_ascii_lowercase (a +:+ b) = to_ascii_lowercase a +:+ to_ascii_lowercase b.
Proof.
  apply bytes_inj. rewrite bytes_app. unfold to_ascii_lowercase.
  by rewrite !bytes_of_bytes, bytes_app, fmap_app.
Qed.

Lemma to_ascii_lowercase_join ws :
  to_ascii_lowercase (join " " ws) = join " " (to_ascii_lowercase <$> ws).
Proof.
  induction ws as [|w [|w' ws] IH]; [done..|].
  change (to_ascii_lowercase (w +:+ " " +:+ join " " (w' :: ws)) =
    to_ascii_lowercase w +:+ " " +:+ join " " (to_ascii_lowercase <$> w' :: ws)).
  by rewrite !to_ascii_lowercase_app, IH.
Qed.

(** The filter of shell commands implements its rules and cannot be evaded by spelling.  A
    command whose words, read with the shell's quoting and stripped of substitution
    punctuation, match a rule is blocked; and two commands that differ only in the case of
    ASCII letters and in the amount and kind of whitespace get the same verdict. *)
Theorem destructive_commands_are_blocked :
  (∀ command words,
     split_shell_words (normalize_shell_command command) = Some words →
     Destructive (shell_command_word <$> words) →
     destructive_shell_command command = true) ∧
  (∀ words, destructive_token_sequence words = true ↔ Destructive (shell_command_word <$> words)) ∧
  (∀ command command',
     to_ascii_lowercase <$> split_whitespace command =
       to_ascii_lowercase <$> split_whitespace command' →
     destructive_shell_command command = destructive_shell_command command').
Proof.
  split_and!; [|apply destructive_token_sequence_rules|].
  - intros command words Hws Hd. unfold destructive_shell_command. rewrite Hws. change (default _ (Some words)) with words.
    by rewrite (proj2 (destructive_token_sequence_rules words) Hd).
  - intros c c' Heq. unfold destructive_shell_command.
    assert (normalize_shell_command c = normalize_shell_command c') as ->; [|done].
    unfold normalize_shell_command. by rewrite !to_ascii_lowercase_join, Heq.
Qed.

(** The same deletion with its flags in the other order, or spelled out, is not stopped. *)
Theorem recursive_delete_can_be_respelled :
  destructive_shell_command "rm -r -f /" = true ∧
  destructive_shell_command "rm -f -r /" = false ∧
  destructive_shell_command "rm --recursive --force /" = false.
Proof. vm_compute. done. Qed.

(** ** Where an accepted path leads *)

(** [known] is the longest prefix of [path] that exists, and [c] its canonical form. *)
Record longest_existing `{FileSystem} (path known unknown c : Path) : Prop := {
  le_split : path = known ++ unknown;
  le_canonical : canonicalize known = Some c;
  le_longest : ∀ longer, known `prefix_of` longer → longer `prefix_of` path → longer ≠ known →
    canonicalize longer = None;
}.

Lemma proper_prefix_snoc {A} (l k : list A) x :
  l `prefix_of` k ++ [x] → l ≠ k ++ [x] → l `prefix_of` k.
Proof.
  intros [r Hr] Hne. destruct r as [|y r _] using rev_ind; [by rewrite app_nil_r in Hr|].
  rewrite app_assoc in Hr. apply app_inj_tail in Hr as [-> _]. by exists r.
Qed.

Section authorization.
Context `{FS : FileSystem}.

Lemma validate_patch_paths_ok workspace text :
  validate_patch_paths workspace text = Ok () ↔
  patch_targets text ≠ [] ∧
  Forall (λ t, path_is_within_workspace workspace t = true) (patch_targets text).
Proof.
  unfold validate_patch_paths. rewrite outcome_seq_ok, try_for_each_ok, ensure_not_ok.
  rewrite bool_decide_eq_false, Forall_forall. setoid_rewrite ensure_not_ok.
  setoid_rewrite negb_false_iff. naive_solver.
Qed.

Definition within (workspace : Path) (value : string) : Prop :=
  path_is_within_workspace workspace value = true.

(** What an authorized call satisfies, clause by clause. *)
Record Authorized (tool : string) (arguments : Value) (directory : Path) : Prop := {
  az_tool : tool ∈ CODING_TOOLS;
  az_paths key path :
    key ∈ path_keys → get_str key arguments = Some path →
    within directory path;
  az_object : is_object arguments = true;
  az_patch : tool ∈ ["apply_patch"; "patch"] → ∃ text,
    get_str "patchText" arguments = Some text ∧ patch_targets text ≠ [] ∧
    Forall (within directory) (patch_targets text);
  az_bash : tool = "bash" → ∃ command,
    get_str "command" arguments = Some command ∧ command ≠ "" ∧
    (N.of_nat (str_len command) <= 16384)%N ∧ nul ∉ bytes command ∧
    destructive_shell_command command = false;
}.

Lemma check_path_argument_ok directory object key :
  check_path_argument directory object key = Ok () ↔
  ∀ path, get_str key (VObject object) = Some path → within directory path.
Proof.
  unfold check_path_argument, get_str, value_get, within.
  destruct (object_get key object ≫= as_str) as [path|]; [|naive_solver].
  rewrite ensure_not_ok, negb_false_iff. naive_solver.
Qed.

Lemma str_argument_ok object key missing s :
  str_argument object key missing = Ok s ↔ get_str key (VObject object) = Some s.
Proof.
  unfold str_argument, get_str, value_get. destruct (object_get key object ≫= as_str); naive_solver.
Qed.

Lemma bash_limits_ok command :
  is_empty command || (16 * 1024 <? N.of_nat (str_len command))%N || contains_byte nul command = false ↔
  command ≠ "" ∧ (N.of_nat (str_len command) <= 16384)%N ∧ nul ∉ bytes command.
Proof.
  unfold is_empty, contains_byte. rewrite !orb_false_iff, !bool_decide_eq_false, N.ltb_ge.
  change (16 * 1024)%N with 16384%N. naive_solver.
Qed.

Lemma authorize_patch_ok tool directory object :
  authorize_patch tool directory object = Ok () ↔
  (tool ∈ ["apply_patch"; "patch"] → ∃ text,
     get_str "patchText" (VObject object) = Some text ∧ patch_targets text ≠ [] ∧
     Forall (within directory) (patch_targets text)).
Proof.
  unfold authorize_patch. case_bool_decide; [|tauto].
  rewrite outcome_bind_ok. setoid_rewrite str_argument_ok. setoid_rewrite validate_patch_paths_ok.
  tauto.
Qed.

Lemma authorize_bash_ok tool object :
  authorize_bash tool object = Ok () ↔
  (tool = "bash" → ∃ command,
    get_str "command" (VObject object) = Some command ∧ command ≠ "" ∧
    (N.of_nat (str_len command) <= 16384)%N ∧ nul ∉ bytes command ∧
    destructive_shell_command command = false).
Proof.
  unfold authorize_bash. case_bool_decide; [|tauto].
  rewrite outcome_bind_ok. setoid_rewrite str_argument_ok. setoid_rewrite outcome_seq_ok.
  setoid_rewrite ensure_not_ok. setoid_rewrite bash_limits_ok.
  split; [intros (c & ? & (? & ? & ?) & ?) _|intros Hc; destruct (Hc H) as (c & ? & ? & ? & ? & ?)];
    exists c; tauto.
Qed.

Lemma authorize_coding_tool_ok tool arguments directory :
  authorize_coding_tool tool arguments directory = Ok () ↔ Authorized tool arguments directory.
Proof.
  unfold authorize_coding_tool.
  rewrite outcome_seq_ok, ensure_not_ok, negb_false_iff, bool_decide_eq_true, outcome_bind_ok.
  destruct (as_object arguments) as [object|] eqn:Hobj.
  - destruct arguments; try discriminate Hobj. injection Hobj as ->.
    trans (tool ∈ CODING_TOOLS ∧ try_for_each (check_path_argument directory object) path_keys = Ok () ∧
      authorize_patch tool directory object = Ok () ∧ authorize_bash tool object = Ok ()).
    { rewrite <- !outcome_seq_ok. split; [intros (? & ? & [= <-] & ?)|intros []]; eauto. }
    rewrite try_for_each_ok, authorize_patch_ok, authorize_bash_ok.
    setoid_rewrite check_path_argument_ok.
    split; [intros (? & ? & ? & ?); constructor; eauto|by intros [? ? _ ? ?]; eauto].
  - split; [by intros (_ & ? & ? & _)|]. intros [_ _ Hob _ _]. by destruct arguments.
Qed.
End authorization.

Section guard_theorems.
Context `{FS : FileSystem}.
(** A path exists exactly if it can be canonicalized. *)
Context (exists_canonical : ∀ p, exists_ p = true ↔ is_Some (canonicalize p)).

Lemma existing_ancestor_longest rev_path r :
  existing_ancestor rev_path ≫= canonicalize = Some r ↔
  ∃ known unknown, longest_existing (reverse rev_path) known unknown r.
Proof.
  assert (∀ p, exists_ p = false ↔ canonicalize p = None) as Hno.
  { intros p. rewrite <- not_true_iff_false, exists_canonical, <- eq_None_not_Some. done. }
  induction rev_path as [|c parent IH]; simpl; destruct (exists_ _) eqn:Hex; simpl.
  - split.
    + intros Hr. exists (reverse []), []. split; [by rewrite app_nil_r|done|].
      intros longer Hk Hl ?. apply (anti_symm prefix) in Hk; [done|]. by trans (reverse ([] : Path)).
    + intros (known & unknown & [Hs Hc _]). by destruct known.
  - split; [done|]. intros (known & unknown & [Hs Hc _]). destruct known; [|done].
    apply Hno in Hex. change (reverse []) with ([] : Path) in Hex. congruence.
  - split.
    + intros Hr. exists (reverse (c :: parent)), []. split; [by rewrite app_nil_r|done|].
      intros longer Hk Hl ?. destruct H. by apply (anti_symm prefix).
    + intros (known & unknown & [Hs Hc Hlong]).
      destruct (decide (reverse (c :: parent) = known)) as [->|Hne]; [done|].
      apply exists_canonical in Hex as [? Hex].
      rewrite (Hlong (reverse (c :: parent))) in Hex; [done| |done|done].
      exists unknown. done.
  - apply Hno in Hex. rewrite IH, reverse_cons. rewrite reverse_cons in Hex.
    split; intros (known & unknown & [Hs Hc Hlong]).
    + exists known, (unknown ++ [c]). split; [by rewrite Hs, app_assoc|done|].
      intros longer Hk Hl Hne.
      destruct (decide (longer = reverse parent ++ [c])) as [->|Hlc]; [done|].
      apply Hlong; [done| |done]. by eapply proper_prefix_snoc.
    + destruct unknown as [|u unknown _] using rev_ind.
      { rewrite app_nil_r in Hs. congruence. }
      rewrite app_assoc in Hs. apply app_inj_tail in Hs as [Hs ->].
      exists known, unknown. split; [done|done|]. intros longer Hk Hl Hne.
      apply Hlong; [done| |done]. trans (reverse parent); [done|by apply prefix_app_r].
Qed.

Lemma path_is_within_workspace_spec workspace value :
  path_is_within_workspace workspace value = true ↔
  value ≠ "" ∧ nul ∉ bytes value ∧
  ∃ known unknown c, longest_existing (candidate_path workspace value) known unknown c ∧
    workspace `prefix_of` c.
Proof.
  unfold path_is_within_workspace, is_empty, contains_byte, path_starts_with.
  case_bool_decide; simpl; [by split; [|intros [? _]]|].
  case_bool_decide; simpl; [by split; [|intros (_ & ? & _)]|].
  set (path := candidate_path workspace value).
  trans (∃ c, existing_ancestor (reverse path) ≫= canonicalize = Some c ∧ workspace `prefix_of` c).
  - destruct (canonicalize path) as [c|] eqn:Hc.
    + assert (existing_ancestor (reverse path) = Some path) as ->.
      { assert (exists_ (reverse (reverse path)) = true) as Hex.
        { rewrite reverse_involutive. apply exists_canonical. eauto. }
        destruct (reverse path) eqn:Hpath; simpl; rewrite Hex, <- Hpath, reverse_involutive; done. }
      simpl. rewrite Hc, bool_decide_eq_true. naive_solver.
    + destruct (existing_ancestor _ ≫= canonicalize); simpl; rewrite ?bool_decide_eq_true; naive_solver.
  - setoid_rewrite existing_ancestor_longest. rewrite reverse_involutive. naive_solver.
Qed.

End guard_theorems.

(** ** A concrete file system

    The directories and files of a tree without symbolic links; resolution walks the
    components and needs every one of them to exist, as the kernel does. *)

Section tree.
Context (entries : list Path).

Definition entry_exists (p : Path) : bool := bool_decide (p = [] ∨ p ∈ entries).

Fixpoint walk (rev_at : Path) (path : Path) : option Path :=
  match path with
  | [] => Some (reverse rev_at)
  | c :: path =>
    let next := if bool_decide (c = "..") then tail rev_at else c :: rev_at in
    if entry_exists (reverse next) then walk next path else None
  end.

Definition tree_fs : FileSystem := {|
  canonicalize := walk [];
  exists_ p := bool_decide (is_Some (walk [] p));
|}.

Lemma tree_fs_exists p :
  @exists_ tree_fs p = true ↔ is_Some (@canonicalize tree_fs p).
Proof. apply bool_decide_eq_true. Qed.
End tree.

Definition home : FileSystem :=
  tree_fs [["home"]; ["home"; "work"]; ["home"; "work"; "main.rs"]; ["home"; "key"]].


(** A directory that does not exist hides the parent references behind it: the guard accepts
    a path that, once the directory exists or when it is simplified textually, leads out of
    the workspace. *)
Theorem missing_directories_hide_traversal :
  @path_is_within_workspace home ["home"; "work"] "../key" = false ∧
  @path_is_within_workspace home ["home"; "work"] "new/../../key" = true ∧
  @canonicalize (tree_fs [["home"]; ["home"; "work"]; ["home"; "work"; "new"]; ["home"; "key"]])
    (candidate_path ["home"; "work"] "new/../../key") = Some ["home"; "key"].
Proof. vm_compute. done. Qed.
