(* ===== verification/Policy.v ===== *)
(** * The policy engine: capability, consent and data-flow gates

    Models [crates/policy/src/lib.rs]: the tool declarations, the consent
    grants, [ConsentGrant::covers] with its target patterns, and the
    precedence-ordered gates of [PolicyEngine::decide].  The theorems give the
    exact condition for each decision and the consequences the rest of the
    system relies on. *)

From stdpp Require Import base gmap strings list.
From Stdlib Require Import Ascii SpecFloat.
From S2P Require Import Prelude.

(** ** Declarations *)

Inductive DataZone : Type :=
  | UserInstruction
  | TrustedLocalState
  | PrivateMemory
  | Secret
  | ConnectorData
  | UntrustedContent
  | AgentGenerated.

Inductive Risk : Type :=
  | Read
  | Reversible
  | Consequential
  | Irreversible.

Inductive Effect : Type :=
  | Observe
  | LocalWrite
  | ExternalWrite
  | Communication
  | Commerce
  | Security
  | Power.

Inductive Idempotency : Type :=
  | Safe
  | WithKey
  | Unsafe.

Global Instance DataZone_eq_dec : EqDecision DataZone.
Proof. solve_decision. Defined.
Global Instance Risk_eq_dec : EqDecision Risk.
Proof. solve_decision. Defined.
Global Instance Effect_eq_dec : EqDecision Effect.
Proof. solve_decision. Defined.
Global Instance Idempotency_eq_dec : EqDecision Idempotency.
Proof. solve_decision. Defined.

Definition zone_index (z : DataZone) : nat :=
  match z with
  | UserInstruction => 0
  | TrustedLocalState => 1
  | PrivateMemory => 2
  | Secret => 3
  | ConnectorData => 4
  | UntrustedContent => 5
  | AgentGenerated => 6
  end.
Definition zone_of_index (n : nat) : option DataZone :=
  match n with
  | 0 => Some UserInstruction
  | 1 => Some TrustedLocalState
  | 2 => Some PrivateMemory
  | 3 => Some Secret
  | 4 => Some ConnectorData
  | 5 => Some UntrustedContent
  | 6 => Some AgentGenerated
  | _ => None
  end.
Global Program Instance DataZone_countable : Countable DataZone :=
  inj_countable zone_index zone_of_index _.
Next Obligation. by intros []. Qed.

Definition effect_index (e : Effect) : nat :=
  match e with
  | Observe => 0
  | LocalWrite => 1
  | ExternalWrite => 2
  | Communication => 3
  | Commerce => 4
  | Security => 5
  | Power => 6
  end.
Definition effect_of_index (n : nat) : option Effect :=
  match n with
  | 0 => Some Observe
  | 1 => Some LocalWrite
  | 2 => Some ExternalWrite
  | 3 => Some Communication
  | 4 => Some Commerce
  | 5 => Some Security
  | 6 => Some Power
  | _ => None
  end.
Global Program Instance Effect_countable : Countable Effect :=
  inj_countable effect_index effect_of_index _.
Next Obligation. by intros []. Qed.

Record ToolDescriptor : Type := mkToolDescriptor {
  td_id : string;
  td_version : string;
  td_description : string;
  td_scopes : gset string;
  td_risk : Risk;
  td_effect : Effect;
  td_idempotency : Idempotency;
  td_reversible : bool;
  td_zones_read : gset DataZone;
  td_zones_written : gset DataZone;
  td_user_presence : bool;
}.

Record ConsentGrant : Type := mkConsentGrant {
  cg_id : Uuid;
  cg_goal_id : Uuid;
  cg_task_id : option Uuid;
  cg_tool_ids : gset string;
  cg_effects : gset Effect;
  cg_target_patterns : gset string;
  cg_expires_at : DateTime;
  cg_maximum_calls : N;
  cg_calls_used : N;
  cg_cost_ceiling_usd : option f64;
  cg_background : bool;
  cg_revoked : bool;
}.

Record CallContext : Type := mkCallContext {
  cc_goal_id : Uuid;
  cc_task_id : option Uuid;
  cc_tool : ToolDescriptor;
  cc_target : string;
  cc_active_input_zones : gset DataZone;
  cc_granted_scopes : gset string;
  cc_estimated_cost_usd : f64;
  cc_background : bool;
  cc_user_present : bool;
  cc_checkpoint_available : bool;
}.

Inductive PolicyDecision : Type :=
  | Allow (reason : string) (consent_id : option Uuid)
  | Ask (reason : string)
  | Deny (reason : string).

(** ** Consent *)

Definition target_matches (pattern target : string) : bool :=
  bool_decide (pattern = target)
  || match strip_suffix_char "*"%char (bytes pattern) with
     | Some prefix => starts_with prefix (bytes target)
     | None => false
     end.

(** [now] is the value [Utc::now()] returns inside this call. *)
Definition covers (now : DateTime) (self : ConsentGrant) (call : CallContext) : bool :=
  negb (cg_revoked self)
  && (now <? cg_expires_at self)%Z
  && (cg_calls_used self <? cg_maximum_calls self)%N
  && bool_decide (cg_goal_id self = cc_goal_id call)
  && match cg_task_id self with
     | None => true
     | Some id => bool_decide (Some id = cc_task_id call)
     end
  && bool_decide (td_id (cc_tool call) ∈ cg_tool_ids self)
  && bool_decide (td_effect (cc_tool call) ∈ cg_effects self)
  && (negb (cc_background call) || cg_background self)
  && match cg_cost_ceiling_usd self with
     | None => true
     | Some ceiling => f64_le (cc_estimated_cost_usd call) ceiling
     end
  && existsb (λ pattern, target_matches pattern (cc_target call))
       (elements (cg_target_patterns self)).

(** [grants.iter().find(|grant| grant.covers(call))]: the clock is read again
    for each grant, [clock i] being the reading for the [i]-th. *)
Fixpoint find_grant (clock : nat → DateTime) (call : CallContext) (i : nat)
    (grants : list ConsentGrant) : option ConsentGrant :=
  match grants with
  | [] => None
  | g :: grants =>
    if covers (clock i) g call then Some g else find_grant clock call (S i) grants
  end.

(** ** The decision *)

Definition mutating_risk (r : Risk) : bool :=
  match r with Reversible | Consequential | Irreversible => true | Read => false end.

Definition sensitive_effect (e : Effect) : bool :=
  match e with Communication | Commerce | Security => true | _ => false end.

Definition cross_zone_effect (tool : ToolDescriptor) : bool :=
  bool_decide (Secret ∈ td_zones_read tool)
  || bool_decide (PrivateMemory ∈ td_zones_read tool)
  || sensitive_effect (td_effect tool).

Definition always_confirm (tool : ToolDescriptor) : bool :=
  match td_effect tool with
  | Communication | Commerce | Security | Power => true
  | _ => false
  end
  || match td_risk tool with Consequential | Irreversible => true | _ => false end
  || (bool_decide (td_effect tool = ExternalWrite) && negb (td_reversible tool)).

Definition missing_checkpoint (call : CallContext) : bool :=
  mutating_risk (td_risk (cc_tool call))
  && negb (bool_decide (td_effect (cc_tool call) = Observe))
  && negb (cc_checkpoint_available call)
  && td_reversible (cc_tool call).

Definition decide_call (clock : nat → DateTime) (call : CallContext)
    (grants : list ConsentGrant) : PolicyDecision :=
  if negb (bool_decide (td_scopes (cc_tool call) ⊆ cc_granted_scopes call)) then
    Deny "tool requires capability scopes not granted to this task"
  else if td_user_presence (cc_tool call) && negb (cc_user_present call) then
    Deny "this tool requires the user to be present"
  else if missing_checkpoint call then
    Deny "a checkpoint is required before the first reversible mutation"
  else if bool_decide (UntrustedContent ∈ cc_active_input_zones call)
          && cross_zone_effect (cc_tool call) then
    Ask "untrusted content is controlling a cross-zone action"
  else match find_grant clock call 0 grants with
  | Some grant => Allow "covered by scoped consent" (Some (cg_id grant))
  | None =>
    if always_confirm (cc_tool call) then
      Ask "consequential effects require explicit scoped consent"
    else Allow "bounded policy permits read-only or reversible local work" None
  end.

(** ** Specification *)

(** A pattern covers a target when it is the target or ends in a star whose
    stem starts the target. *)
Definition pattern_covers (pattern target : string) : Prop :=
  pattern = target ∨
  ∃ stem rest, bytes pattern = stem ++ ["*"%char] ∧ bytes target = stem ++ rest.

(** Every dimension of a grant, as separate propositions. *)
Record grant_covers (now : DateTime) (g : ConsentGrant) (call : CallContext) : Prop := {
  gc_live : cg_revoked g = false;
  gc_unexpired : (now < cg_expires_at g)%Z;
  gc_calls_left : (cg_calls_used g < cg_maximum_calls g)%N;
  gc_goal : cg_goal_id g = cc_goal_id call;
  gc_task : ∀ id, cg_task_id g = Some id → cc_task_id call = Some id;
  gc_tool : td_id (cc_tool call) ∈ cg_tool_ids g;
  gc_effect : td_effect (cc_tool call) ∈ cg_effects g;
  gc_background : cc_background call = true → cg_background g = true;
  gc_cost : ∀ c, cg_cost_ceiling_usd g = Some c → f64_le (cc_estimated_cost_usd call) c = true;
  gc_target : ∃ p, p ∈ cg_target_patterns g ∧ pattern_covers p (cc_target call);
}.

(** The gates that come before consent. *)
Record gates_open (call : CallContext) : Prop := {
  go_scopes : td_scopes (cc_tool call) ⊆ cc_granted_scopes call;
  go_presence : td_user_presence (cc_tool call) = true → cc_user_present call = true;
  go_checkpoint : td_risk (cc_tool call) ≠ Read → td_effect (cc_tool call) ≠ Observe →
    td_reversible (cc_tool call) = true → cc_checkpoint_available call = true;
}.

(** Untrusted input reaching for a secret, private memory, or an outward effect. *)
Definition tainted (call : CallContext) : Prop :=
  UntrustedContent ∈ cc_active_input_zones call ∧
  (Secret ∈ td_zones_read (cc_tool call) ∨
   PrivateMemory ∈ td_zones_read (cc_tool call) ∨
   td_effect (cc_tool call) ∈ [Communication; Commerce; Security]).

(** Effects that are never permitted without consent. *)
Definition consequential_call (call : CallContext) : Prop :=
  td_effect (cc_tool call) ∈ [Communication; Commerce; Security; Power] ∨
  td_risk (cc_tool call) ∈ [Consequential; Irreversible] ∨
  (td_effect (cc_tool call) = ExternalWrite ∧ td_reversible (cc_tool call) = false).

Definition consented (clock : nat → DateTime) (call : CallContext)
    (grants : list ConsentGrant) : Prop :=
  ∃ i g, grants !! i = Some g ∧ grant_covers (clock i) g call.

Definition is_allow (d : PolicyDecision) : Prop := ∃ r c, d = Allow r c.
Definition is_ask (d : PolicyDecision) : Prop := ∃ r, d = Ask r.
Definition is_deny (d : PolicyDecision) : Prop := ∃ r, d = Deny r.

(** ** Reflection lemmas *)

Lemma strip_suffix_char_Some c l r : strip_suffix_char c l = Some r ↔ l = r ++ [c].
Proof.
  unfold strip_suffix_char. destruct (reverse l) as [|d s] eqn:Hl.
  - split; [done|]. intros ->. by rewrite reverse_snoc in Hl.
  - apply (f_equal reverse) in Hl. rewrite reverse_involutive, reverse_cons in Hl. subst l.
    case_decide as Hcd; split.
    + intros [= <-]. by subst.
    + intros [? _]%app_inj_tail. by subst.
    + done.
    + by intros [_ ?]%app_inj_tail.
Qed.

Lemma target_matches_spec p t : target_matches p t = true ↔ pattern_covers p t.
Proof.
  unfold target_matches, pattern_covers. rewrite orb_true_iff, bool_decide_eq_true.
  apply or_iff_compat_l. destruct (strip_suffix_char _ _) as [pre|] eqn:Hs.
  - apply strip_suffix_char_Some in Hs. rewrite starts_with_spec. split.
    + intros [r Hr]. by exists pre, r.
    + intros (stem & rest & Hp & Ht). exists rest. rewrite Hs in Hp.
      apply app_inj_tail in Hp as [-> _]. done.
  - split; [done|]. intros (stem & rest & Hp & Ht).
    apply strip_suffix_char_Some in Hp. congruence.
Qed.

Lemma covers_spec now g call : covers now g call = true ↔ grant_covers now g call.
Proof.
  unfold covers. rewrite !andb_true_iff, negb_true_iff, orb_true_iff, negb_true_iff.
  rewrite Z.ltb_lt, N.ltb_lt, !bool_decide_eq_true.
  assert (existsb (λ p, target_matches p (cc_target call)) (elements (cg_target_patterns g)) = true
    ↔ ∃ p, p ∈ cg_target_patterns g ∧ pattern_covers p (cc_target call)) as Htarget.
  { rewrite existsb_exists. setoid_rewrite target_matches_spec.
    setoid_rewrite <- list_elem_of_In. by setoid_rewrite elem_of_elements. }
  rewrite Htarget. split.
  - intros [[[[[[[[[? ?] ?] ?] Htask] ?] ?] Hbg] Hcost] ?]. split; try done.
    + intros id Hid. rewrite Hid in Htask. by apply bool_decide_eq_true in Htask.
    + destruct Hbg; congruence.
    + intros c Hc. by rewrite Hc in Hcost.
  - intros [? ? ? ? Htask ? ? Hbg Hcost ?]. repeat split; try done.
    + destruct (cg_task_id g); [|done]. apply bool_decide_eq_true. symmetry. auto.
    + destruct (cc_background call); [right; auto|by left].
    + destruct (cg_cost_ceiling_usd g); [auto|done].
Qed.

Lemma cross_zone_spec call :
  bool_decide (UntrustedContent ∈ cc_active_input_zones call)
    && cross_zone_effect (cc_tool call) = true ↔ tainted call.
Proof.
  unfold tainted, cross_zone_effect.
  rewrite andb_true_iff, !orb_true_iff, !bool_decide_eq_true, Logic.or_assoc.
  assert (sensitive_effect (td_effect (cc_tool call)) = true
    ↔ td_effect (cc_tool call) ∈ [Communication; Commerce; Security]) as ->; [|done].
  rewrite <- (bool_decide_eq_true (_ ∈ _)). by destruct (td_effect _).
Qed.

Lemma always_confirm_spec call :
  always_confirm (cc_tool call) = true ↔ consequential_call call.
Proof.
  unfold always_confirm, consequential_call.
  rewrite !orb_true_iff, andb_true_iff, negb_true_iff, bool_decide_eq_true, Logic.or_assoc.
  rewrite <- (bool_decide_eq_true (td_effect _ ∈ _)), <- (bool_decide_eq_true (td_risk _ ∈ _)).
  by destruct (td_effect _), (td_risk _).
Qed.

Lemma gates_spec call :
  gates_open call ↔
  negb (bool_decide (td_scopes (cc_tool call) ⊆ cc_granted_scopes call)) = false ∧
  td_user_presence (cc_tool call) && negb (cc_user_present call) = false ∧
  missing_checkpoint call = false.
Proof.
  unfold missing_checkpoint. rewrite negb_false_iff, bool_decide_eq_true. split.
  - intros [? Hp Hc]. split_and!; [done|..].
    + destruct (td_user_presence _), (cc_user_present _); naive_solver.
    + destruct (cc_checkpoint_available call); [by rewrite andb_false_r|].
      destruct (td_reversible _); [|by rewrite andb_false_r].
      case_bool_decide as He; [by rewrite andb_false_r|].
      destruct (td_risk _); naive_solver.
  - intros (? & Hp & Hc). split; [done|..].
    + intros Ht. rewrite Ht in Hp. by destruct (cc_user_present _).
    + intros Hr He Hrev. rewrite Hrev, andb_true_r in Hc.
      rewrite bool_decide_eq_false_2 in Hc by done.
      by destruct (td_risk _), (cc_checkpoint_available _).
Qed.

Lemma find_grant_Some clock call n grants g :
  find_grant clock call n grants = Some g →
  ∃ i, grants !! i = Some g ∧ grant_covers (clock (n + i)) g call ∧
    ∀ j h, j < i → grants !! j = Some h → ¬ grant_covers (clock (n + j)) h call.
Proof.
  revert n; induction grants as [|h grants IH]; intros n; simpl; [done|].
  destruct (covers (clock n) h call) eqn:Hc; intros Hf.
  - simplify_eq. exists 0. rewrite Nat.add_0_r, <- covers_spec. split_and!; [done|done|lia].
  - destruct (IH _ Hf) as (i & Hi & Hcov & Hfirst). exists (S i).
    replace (n + S i) with (S n + i) by lia. split_and!; [done..|].
    intros [|j] h' Hj Hh; simplify_eq/=.
    + rewrite Nat.add_0_r, <- covers_spec. congruence.
    + replace (n + S j) with (S n + j) by lia. apply Hfirst; [lia|done].
Qed.

Lemma find_grant_None clock call n grants :
  find_grant clock call n grants = None →
  ∀ i g, grants !! i = Some g → ¬ grant_covers (clock (n + i)) g call.
Proof.
  revert n; induction grants as [|h grants IH]; intros n; simpl; [done|].
  case_match eqn:Hc; [done|]. intros Hf [|i] g Hg; simplify_eq/=.
  - rewrite Nat.add_0_r, <- covers_spec. congruence.
  - replace (n + S i) with (S n + i) by lia. eauto.
Qed.

(** ** Theorems *)

(** Case analysis along the gates, in the order [decide] tests them. *)
Lemma decide_cases clock call grants :
  match decide_call clock call grants with
  | Deny _ => ¬ gates_open call
  | Ask _ => gates_open call ∧
      (tainted call ∨ (consequential_call call ∧ ¬ consented clock call grants))
  | Allow _ (Some id) => gates_open call ∧ ¬ tainted call ∧
      ∃ i g, grants !! i = Some g ∧ cg_id g = id ∧ grant_covers (clock i) g call ∧
        ∀ j h, j < i → grants !! j = Some h → ¬ grant_covers (clock j) h call
  | Allow _ None => gates_open call ∧ ¬ tainted call ∧ ¬ consequential_call call ∧
      ¬ consented clock call grants
  end.
Proof.
  unfold decide_call.
  pose proof (always_confirm_spec call) as Hconfirm.
  pose proof (cross_zone_spec call) as Htaint. pose proof (gates_spec call) as Hgates.
  destruct (negb (bool_decide _)); [intuition discriminate|].
  destruct (td_user_presence _ && _); [intuition discriminate|].
  destruct (missing_checkpoint call); [intuition discriminate|].
  destruct (_ && cross_zone_effect _); [intuition discriminate|].
  destruct (find_grant clock call 0 grants) as [g|] eqn:Hg.
  - apply find_grant_Some in Hg as (i & ? & ? & ?). split_and!; [intuition discriminate..|].
    exists i, g. eauto.
  - pose proof (find_grant_None _ _ _ _ Hg) as Hnone.
    assert (¬ consented clock call grants) by (intros (i & g & ? & ?); by eapply Hnone).
    destruct (always_confirm _); intuition discriminate.
Qed.

(** An allowing decision rests on a grant or on the call being harmless. *)
Lemma allow_inv clock call grants :
  is_allow (decide_call clock call grants) →
  gates_open call ∧ ¬ tainted call ∧
  (consented clock call grants ∨ ¬ consequential_call call).
Proof.
  pose proof (decide_cases clock call grants) as Hcases.
  intros (r & [id|] & Hd); rewrite Hd in Hcases; [|naive_solver].
  destruct Hcases as (? & ? & i & g & ? & ? & ? & ?). split_and!; [done..|]. left. by exists i, g.
Qed.

Lemma deny_iff clock call grants :
  is_deny (decide_call clock call grants) ↔ ¬ gates_open call.
Proof.
  pose proof (decide_cases clock call grants) as Hcases. unfold is_deny.
  destruct (decide_call clock call grants) as [r [id|]|r|r]; naive_solver.
Qed.

(** C1: the gateway's authorization rule.  A call is allowed exactly when the
    capability, presence and checkpoint gates are open, no untrusted content
    drives a cross-zone action, and the effect is either covered by some grant
    of the list at the instant it is examined or is not consequential. *)
Theorem decide_allow_iff clock call grants :
  is_allow (decide_call clock call grants) ↔
  gates_open call ∧ ¬ tainted call ∧
  (consented clock call grants ∨ ¬ consequential_call call).
Proof.
  split; [apply allow_inv|]. intros (? & ? & ?).
  pose proof (decide_cases clock call grants) as Hcases. unfold is_allow.
  destruct (decide_call clock call grants) as [r [id|]|r|r]; naive_solver.
Qed.

(** The three decisions partition the calls.  A call is denied exactly when
    a gate is closed, and asks the user exactly when the gates are open and it
    is tainted, or consequential without consent. *)
Theorem decide_deny_ask_iff clock call grants :
  (is_deny (decide_call clock call grants) ↔ ¬ gates_open call) ∧
  (is_ask (decide_call clock call grants) ↔
     gates_open call ∧
     (tainted call ∨ (consequential_call call ∧ ¬ consented clock call grants))).
Proof.
  split; [apply deny_iff|].
  pose proof (decide_cases clock call grants) as Hcases. unfold is_ask.
  destruct (decide_call clock call grants) as [r [id|]|r|r] eqn:Hd; try naive_solver.
  destruct (allow_inv clock call grants) as (? & ? & ?); [by eexists _, _|].
  destruct Hcases as (? & ? & i & g & ? & ? & ? & ?).
  assert (consented clock call grants) by by exists i, g. naive_solver.
Qed.

(** No consent, however broad, lets untrusted content read secrets or
    private memory or cause an outward effect by itself: with an untrusted
    input zone such a call is never allowed, whatever the grants. *)
Theorem untrusted_cross_zone_never_allowed clock call grants :
  UntrustedContent ∈ cc_active_input_zones call →
  cross_zone_effect (cc_tool call) = true →
  ¬ is_allow (decide_call clock call grants).
Proof.
  intros Hu Hx (_ & Htaint & _)%allow_inv. apply Htaint.
  apply cross_zone_spec. rewrite andb_true_iff. split; [by apply bool_decide_eq_true|done].
Qed.

(** The consent recorded in an allow decision is the first grant of the list
    that covers the call in every dimension (goal, task, tool, effect, target,
    expiry, remaining calls, cost, background). *)
Theorem allow_names_first_covering_grant clock call grants r id :
  decide_call clock call grants = Allow r (Some id) →
  ∃ i g, grants !! i = Some g ∧ cg_id g = id ∧ grant_covers (clock i) g call ∧
    ∀ j h, j < i → grants !! j = Some h → ¬ grant_covers (clock j) h call.
Proof.
  intros Hd. pose proof (decide_cases clock call grants) as Hcases. rewrite Hd in Hcases. tauto.
Qed.

(** Consent is monotone.  When the clock is fixed, adding grants never turns
    an allowed call into one that is not, and never changes a denial. *)
Theorem more_grants_allow_more now call grants grants' :
  grants ⊆ grants' →
  (is_allow (decide_call (λ _, now) call grants) →
   is_allow (decide_call (λ _, now) call grants')) ∧
  (is_deny (decide_call (λ _, now) call grants) ↔
   is_deny (decide_call (λ _, now) call grants')).
Proof.
  intros Hsub. split; [|by rewrite !deny_iff].
  intros (Hgates & Htaint & Hc)%allow_inv.
  pose proof (decide_cases (λ _, now) call grants') as H. unfold is_allow.
  destruct (decide_call _ call grants') as [r id|r|r]; [by eauto| |done].
  destruct H as [_ [?|[Hcons Hno]]]; [done|]. destruct Hc as [(i & g & Hi & Hg)|]; [|done].
  assert (g ∈ grants') as [j Hj]%list_elem_of_lookup
    by (apply Hsub, list_elem_of_lookup; eauto).
  destruct Hno. by exists j, g.
Qed.

(** ** Concrete instances *)

Definition mail_send : ToolDescriptor :=
  mkToolDescriptor "mail.send" "1.0.0" "send mail" {["mail.send"]} Consequential Communication
    WithKey false {[UserInstruction]} {[ConnectorData]} false.

Definition mail_call (zones : gset DataZone) (target : string) : CallContext :=
  mkCallContext 7%N (Some 8%N) mail_send target zones {["mail.send"]}
    (S754_zero false) false true true.

Definition mail_grant (id : Uuid) (pattern : string) : ConsentGrant :=
  mkConsentGrant id 7%N (Some 8%N) {["mail.send"]} {[Communication]} {[pattern]}
    100%Z 1%N 0%N (Some (S754_zero false)) false false.

Lemma untrusted_cross_zone_never_allowed_witness :
  UntrustedContent ∈ cc_active_input_zones (mail_call {[UntrustedContent]} "alice@example.com") ∧
  ¬ is_allow (decide_call (λ _, 5%Z) (mail_call {[UntrustedContent]} "alice@example.com")
      [mail_grant 1%N "*"]).
Proof.
  split; [by apply (bool_decide_unpack _); vm_compute|].
  apply untrusted_cross_zone_never_allowed.
  - by apply (bool_decide_unpack _); vm_compute.
  - vm_compute. reflexivity.
Defined.

Lemma allow_names_first_covering_grant_witness :
  ∃ i g, [mail_grant 1%N "bob@*"; mail_grant 2%N "alice@*"] !! i = Some g ∧ cg_id g = 2%N ∧
    grant_covers 5%Z g (mail_call {[UserInstruction]} "alice@example.com") ∧
    ∀ j h, j < i → [mail_grant 1%N "bob@*"; mail_grant 2%N "alice@*"] !! j = Some h →
      ¬ grant_covers 5%Z h (mail_call {[UserInstruction]} "alice@example.com").
Proof.
  apply (allow_names_first_covering_grant (λ _, 5%Z) _ _ "covered by scoped consent").
  vm_compute. reflexivity.
Defined.

Lemma more_grants_allow_more_witness :
  is_allow (decide_call (λ _, 5%Z) (mail_call {[UserInstruction]} "alice@example.com")
    [mail_grant 1%N "bob@*"; mail_grant 2%N "alice@*"]).
Proof.
  apply (more_grants_allow_more 5%Z _ [mail_grant 2%N "alice@*"]).
  - set_solver.
  - eexists _, _. vm_compute. reflexivity.
Defined.
