(* ===== verification/TaskGraph.v ===== *)
(** * Goals, tasks and acyclic plans

    Models the data of [crates/agent/src/lib.rs], [Goal::new],
    [Goal::complete] and [TaskGraph::validate].  The topological sort of the
    petgraph library is a parameter with its documented contract
    ([Toposort]); [kahn] is an implementation of that contract. *)

From stdpp Require Import base gmap strings list relations sorting.
From S2P Require Import Prelude.

(** ** Data *)

Inductive WorkStatus : Type :=
  | Queued
  | Planning
  | Running
  | Waiting
  | Paused
  | Completed
  | Failed
  | Cancelled.
Global Instance WorkStatus_eq_dec : EqDecision WorkStatus.
Proof. solve_decision. Defined.

Record Budgets : Type := mkBudgets {
  bu_cost_usd : option f64;
  bu_tokens : option N;
  bu_wall_time_seconds : option N;
  bu_tool_calls : option N;
}.

Definition Budgets_default : Budgets :=
  mkBudgets (Some (f64_of_Z 10)) (Some 1000000%N) (Some 14400%N) (Some 500%N).

Record Goal : Type := mkGoal {
  g_id : Uuid;
  g_objective : string;
  g_success_criteria : list string;
  g_origin : string;
  g_created_at : DateTime;
  g_priority : Z;
  g_deadline : option DateTime;
  g_autonomy_policy : string;
  g_budgets : Budgets;
  g_plan_revision : N;
  g_status : WorkStatus;
  g_final_result : option Value;
  g_artifacts : list string;
}.

Inductive ExecutionZone : Type :=
  | Isolated
  | Workspace
  | Desktop.

Record Task : Type := mkTask {
  t_id : Uuid;
  t_goal_id : Uuid;
  t_parent_task_id : option Uuid;
  t_title : string;
  t_assigned_agent : string;
  t_workspace : option string;
  t_browser_profile : option string;
  t_tool_scopes : gset string;
  t_risk : string;
  t_execution_zone : ExecutionZone;
  t_max_attempts : N;
  t_attempt : N;
  t_idempotency_key : option string;
  t_checkpoint_id : option string;
  t_status : WorkStatus;
  t_progress : N;
  t_output : option Value;
}.

Record TaskGraph : Type := mkTaskGraph {
  tg_goal_id : Uuid;
  tg_revision : N;
  tg_tasks : gmap Uuid Task;
  tg_edges : list (Uuid * Uuid);
}.

Inductive PlanError : Type :=
  | MissingTask (id : Uuid)
  | Cycle
  | WrongGoal (task actual expected : Uuid)
  | UnverifiedCriteria (missing : list string)
  | TaskNotReady (id : Uuid)
  | AttemptsExhausted (id : Uuid)
  | MissingIdempotencyKey (id : Uuid)
  | AuthorityWidening (task : Uuid) (detail : string)
  | InvalidSnapshot (detail : string).

(** ** Goals *)

(** [id] and [now] are the values of [Uuid::now_v7()] and [Utc::now()]. *)
Definition Goal_new (id : Uuid) (now : DateTime) (objective : string)
    (success_criteria : list string) (origin : string) : Goal :=
  mkGoal id objective success_criteria origin now 0%Z None "bounded" Budgets_default 0%N
    Queued None [].

Definition goal_finish (result : Value) (g : Goal) : Goal :=
  mkGoal (g_id g) (g_objective g) (g_success_criteria g) (g_origin g) (g_created_at g)
    (g_priority g) (g_deadline g) (g_autonomy_policy g) (g_budgets g) (g_plan_revision g)
    Completed (Some result) (g_artifacts g).

Definition goal_complete (verified_criteria : gset string) (result : Value)
    : M Goal PlanError () :=
  g ← get;
  let missing := filter (λ criterion, criterion ∉ verified_criteria) (g_success_criteria g) in
  if bool_decide (missing = []) then modify (goal_finish result)
  else throw (UnverifiedCriteria missing).

(** ** Plans *)

Definition edge_rel (edges : list (Uuid * Uuid)) (a b : Uuid) : Prop := (a, b) ∈ edges.
Definition acyclic (edges : list (Uuid * Uuid)) : Prop := ∀ x, ¬ tc (edge_rel edges) x x.

(** [a] occurs in the list with [b] somewhere after it. *)
Definition before (a b : Uuid) (order : list Uuid) : Prop :=
  ∃ l1 l2, order = l1 ++ a :: l2 ∧ b ∈ l2.

(** The contract of [petgraph::algo::toposort]: for an acyclic graph the nodes
    in an order where each node comes before its successors, an error for a
    graph with a cycle. *)
Class Toposort : Type := {
  toposort : list Uuid → list (Uuid * Uuid) → option (list Uuid);
  toposort_order nodes edges order :
    toposort nodes edges = Some order → NoDup nodes →
    (∀ e, e ∈ edges → e.1 ∈ nodes ∧ e.2 ∈ nodes) →
    order ≡ₚ nodes ∧ ∀ a b, (a, b) ∈ edges → before a b order;
  toposort_cycle nodes edges :
    toposort nodes edges = None → NoDup nodes →
    (∀ e, e ∈ edges → e.1 ∈ nodes ∧ e.2 ∈ nodes) →
    ∃ x, tc (edge_rel edges) x x;
}.

Section validate.
Context `{Toposort}.

(** The ownership loop over [self.tasks.values()]. *)
Fixpoint check_owners (goal_id : Uuid) (tasks : list Task) : outcome PlanError () :=
  match tasks with
  | [] => Ok ()
  | t :: tasks =>
    if bool_decide (t_goal_id t = goal_id) then check_owners goal_id tasks
    else Err (WrongGoal (t_id t) (t_goal_id t) goal_id)
  end.

(** The reference loop over [self.edges]. *)
Fixpoint check_edges (tasks : gmap Uuid Task) (edges : list (Uuid * Uuid))
    : outcome PlanError () :=
  match edges with
  | [] => Ok ()
  | (dependency, dependent) :: edges =>
    if bool_decide (tasks !! dependency = None) then Err (MissingTask dependency)
    else if bool_decide (tasks !! dependent = None) then Err (MissingTask dependent)
    else check_edges tasks edges
  end.

Definition validate (g : TaskGraph) : outcome PlanError () :=
  _ ← check_owners (tg_goal_id g) (values (tg_tasks g));
  _ ← check_edges (tg_tasks g) (tg_edges g);
  match toposort (keys (tg_tasks g)) (tg_edges g) with
  | Some _ => Ok ()
  | None => Err Cycle
  end.
End validate.

(** ** Acyclicity *)

Lemma StronglySorted_NoDup_or {A} `{EqDecision A} (R : relation A) l :
  StronglySorted R l → NoDup l ∨ ∃ x, R x x.
Proof.
  induction 1 as [|x l Hs IH Hall]; [left; constructor|].
  destruct IH as [Hnd|?]; [|by right].
  destruct (decide (x ∈ l)) as [Hin|?].
  - right. exists x. by apply (proj1 (Forall_forall _ _) Hall).
  - left. by constructor.
Qed.

(** A chain of edges without a source to stop at grows to any length. *)
Lemma walk_exists (E : relation Uuid) (r : list Uuid) n :
  r ≠ [] → (∀ x, x ∈ r → ∃ y, y ∈ r ∧ E y x) →
  ∃ x l, length l = n ∧ x ∈ r ∧ (∀ y, y ∈ l → y ∈ r) ∧ Sorted E (x :: l).
Proof.
  intros Hr Hpred. induction n as [|n (x & l & Hlen & Hx & Hl & Hs)].
  - destruct r as [|x r]; [done|]. exists x, []. split_and!; [done|by left|set_solver|].
    by repeat constructor.
  - destruct (Hpred x Hx) as (y & Hy & Hyx). exists y, (x :: l).
    split_and!; [simpl; lia|done|set_solver|]. constructor; [done|by constructor].
Qed.

(** Among finitely many nodes either one has no predecessor, or there is a cycle. *)
Lemma source_or_cycle (edges : list (Uuid * Uuid)) (r : list Uuid) :
  r ≠ [] →
  (∃ x, x ∈ r ∧ ∀ y, y ∈ r → ¬ edge_rel edges y x) ∨ (∃ x, tc (edge_rel edges) x x).
Proof.
  intros Hr.
  destruct (decide (Exists (λ x, Forall (λ y, (y, x) ∉ edges) r) r)) as [Hex|Hno].
  - left. apply Exists_exists in Hex as (x & Hx & Hall). exists x. split; [done|].
    by apply Forall_forall.
  - right. apply not_Exists_Forall in Hno; [|intros ?; apply _].
    destruct (walk_exists (edge_rel edges) r (length r) Hr) as (x & l & Hlen & Hx & Hl & Hs).
    { intros x Hx. pose proof (proj1 (Forall_forall _ _) Hno x Hx) as Hn.
      apply not_Forall_Exists in Hn; [|intros ?; apply _].
      apply Exists_exists in Hn as (y & Hy & Hyx%dec_stable). eauto. }
    assert (StronglySorted (tc (edge_rel edges)) (x :: l)) as Hss.
    { apply Sorted_StronglySorted; [apply _|].
      eapply Sorted_ind; [constructor| |exact Hs].
      intros a k _ IH Hhd. constructor; [done|]. destruct Hhd; constructor. by apply tc_once. }
    apply StronglySorted_NoDup_or in Hss as [Hnd|?]; [|done].
    exfalso. assert (x :: l ⊆+ r) as Hsub%submseteq_length.
    { apply NoDup_submseteq; [done|set_solver]. }
    simpl in Hsub. lia.
Qed.

Lemma before_index a b order :
  NoDup order → before a b order →
  ∃ i j, order !! i = Some a ∧ order !! j = Some b ∧ i < j.
Proof.
  intros Hnd (l1 & l2 & -> & [j Hj]%list_elem_of_lookup).
  exists (length l1), (length l1 + S j). split_and!; [|..|lia].
  - by rewrite lookup_app_r, Nat.sub_diag by lia.
  - rewrite lookup_app_r by lia. by replace (length l1 + S j - length l1) with (S j) by lia.
Qed.

(** A linear order that respects the edges excludes cycles. *)
Lemma ordered_acyclic edges order :
  NoDup order → (∀ a b, (a, b) ∈ edges → before a b order) → acyclic edges.
Proof.
  intros Hnd Hord.
  assert (∀ a b, tc (edge_rel edges) a b →
    ∃ i j, order !! i = Some a ∧ order !! j = Some b ∧ i < j) as Htc.
  { induction 1 as [a b Hab|a b c Hab _ IH].
    - by apply before_index, Hord.
    - apply Hord, before_index in Hab as (i & j & Hi & Hj & ?); [|done].
      destruct IH as (j' & k & Hj' & Hk & ?).
      pose proof (NoDup_lookup _ _ _ _ Hnd Hj Hj'). exists i, k. split_and!; [done..|lia]. }
  intros x (i & j & Hi & Hj & ?)%Htc. pose proof (NoDup_lookup _ _ _ _ Hnd Hi Hj). lia.
Qed.

(** ** A topological sort

    Kahn's algorithm: repeatedly take a node without a predecessor among the
    remaining ones. *)

Definition is_source (edges : list (Uuid * Uuid)) (r : list Uuid) (x : Uuid) : bool :=
  forallb (λ y, negb (bool_decide ((y, x) ∈ edges))) r.

Fixpoint kahn_go (fuel : nat) (edges : list (Uuid * Uuid)) (r : list Uuid)
    : option (list Uuid) :=
  match r, fuel with
  | [], _ => Some []
  | _, O => None
  | _, S fuel =>
    x ← List.find (is_source edges r) r;
    order ← kahn_go fuel edges (filter (.≠ x) r);
    Some (x :: order)
  end.
Definition kahn (nodes : list Uuid) (edges : list (Uuid * Uuid)) : option (list Uuid) :=
  kahn_go (length nodes) edges nodes.

Lemma kahn_go_step fuel edges r :
  r ≠ [] →
  kahn_go (S fuel) edges r =
    (x ← List.find (is_source edges r) r;
     order ← kahn_go fuel edges (filter (.≠ x) r);
     Some (x :: order)).
Proof. by destruct r. Qed.

Lemma is_source_spec edges r x :
  is_source edges r x = true ↔ ∀ y, y ∈ r → ¬ edge_rel edges y x.
Proof.
  unfold is_source. rewrite forallb_forall. setoid_rewrite <- list_elem_of_In.
  by setoid_rewrite negb_true_iff; setoid_rewrite bool_decide_eq_false.
Qed.

Lemma filter_ne_perm (r : list Uuid) x :
  NoDup r → x ∈ r → r ≡ₚ x :: filter (.≠ x) r.
Proof.
  intros Hnd Hx. apply NoDup_Permutation; [done| |].
  - constructor; [rewrite list_elem_of_filter; naive_solver|by apply NoDup_filter].
  - intros y. rewrite elem_of_cons, list_elem_of_filter. split; [|naive_solver].
    destruct (decide (y = x)); naive_solver.
Qed.

Lemma kahn_go_order fuel edges r order :
  NoDup r → kahn_go fuel edges r = Some order →
  order ≡ₚ r ∧ ∀ a b, (a, b) ∈ edges → a ∈ r → b ∈ r → before a b order.
Proof.
  revert r order; induction fuel as [|fuel IH]; intros r order Hnd Hk.
  { destruct r; simplify_eq/=. split; [done|set_solver]. }
  destruct (decide (r = [])) as [->|Hr].
  { injection Hk as <-. split; [done|set_solver]. }
  rewrite kahn_go_step in Hk by done.
  apply bind_Some in Hk as (x & Hfind & (k & Hrec & [= <-])%bind_Some).
  assert (x ∈ r ∧ is_source edges r x = true) as [Hx Hsrc].
  { apply (find_some (is_source edges r) r) in Hfind as [Hin ?]. by rewrite list_elem_of_In. }
  rewrite is_source_spec in Hsrc.
  apply IH in Hrec as [Hperm Hbefore]; [|by apply NoDup_filter].
  assert (x :: k ≡ₚ r) as Hfull by (rewrite Hperm; symmetry; by apply filter_ne_perm).
  split; [done|]. intros a b Hab Ha Hb.
  assert (b ≠ x) by (intros ->; exact (Hsrc a Ha Hab)).
  assert (b ∈ k) by (rewrite Hperm, list_elem_of_filter; done).
  destruct (decide (a = x)) as [->|]; [by exists [], k|].
  destruct (Hbefore a b Hab) as (l1 & l2 & -> & Hl2); [rewrite list_elem_of_filter; done..|].
  by exists (x :: l1), l2.
Qed.

Lemma kahn_go_cycle fuel edges r :
  NoDup r → length r ≤ fuel → kahn_go fuel edges r = None → ∃ x, tc (edge_rel edges) x x.
Proof.
  revert r; induction fuel as [|fuel IH]; intros r Hnd Hlen Hk.
  { destruct r; simplify_eq/=. lia. }
  destruct (decide (r = [])) as [->|Hr]; [discriminate Hk|].
  rewrite kahn_go_step in Hk by done.
  destruct (source_or_cycle edges r) as [(x & Hx & Hsrc)|?]; [done| |done].
  apply bind_None in Hk as [Hfind|(y & Hfind & Hrec)].
  - exfalso. pose proof (find_none _ _ Hfind x (proj1 (list_elem_of_In _ _) Hx)) as Hf.
    rewrite <- is_source_spec in Hsrc. congruence.
  - assert (y ∈ r) as Hy by (apply find_some in Hfind as [? _]; by rewrite list_elem_of_In).
    apply (IH (filter (.≠ y) r)); [by apply NoDup_filter| |].
    + pose proof (Permutation_length (filter_ne_perm r y Hnd Hy)) as Hl. simpl in Hl. lia.
    + apply bind_None in Hrec as [?|(? & ? & ?)]; done.
Qed.

Global Program Instance kahn_toposort : Toposort := {| toposort := kahn |}.
Next Obligation.
  intros nodes edges order Hk Hnd Hin. apply kahn_go_order in Hk as [Hp Hb]; [|done].
  split; [done|]. intros a b Hab. destruct (Hin _ Hab). by apply Hb.
Qed.
Next Obligation. intros nodes edges Hk Hnd _. by eapply kahn_go_cycle. Qed.

(** ** Validation *)

(** What a validated plan guarantees. *)
Record valid_plan (g : TaskGraph) : Prop := {
  vp_owned : ∀ id t, tg_tasks g !! id = Some t → t_goal_id t = tg_goal_id g;
  vp_edges : ∀ a b, (a, b) ∈ tg_edges g → is_Some (tg_tasks g !! a) ∧ is_Some (tg_tasks g !! b);
  vp_acyclic : acyclic (tg_edges g);
}.

(** The plan a validation error describes. *)
Definition plan_error_explained (g : TaskGraph) (e : PlanError) : Prop :=
  match e with
  | WrongGoal task actual expected => ∃ id t, tg_tasks g !! id = Some t ∧ t_id t = task ∧
      t_goal_id t = actual ∧ expected = tg_goal_id g ∧ actual ≠ expected
  | MissingTask id => tg_tasks g !! id = None ∧ ∃ e, e ∈ tg_edges g ∧ (e.1 = id ∨ e.2 = id)
  | Cycle => ∃ x, tc (edge_rel (tg_edges g)) x x
  | _ => False
  end.

Lemma check_owners_cases goal_id tasks :
  match check_owners goal_id tasks with
  | Ok _ => ∀ t, t ∈ tasks → t_goal_id t = goal_id
  | Err e => ∃ t, t ∈ tasks ∧ e = WrongGoal (t_id t) (t_goal_id t) goal_id ∧ t_goal_id t ≠ goal_id
  | Panic => False
  end.
Proof.
  induction tasks as [|t tasks IH]; simpl; [set_solver|].
  case_bool_decide; [|set_solver].
  destruct (check_owners goal_id tasks); [set_solver| |done].
  destruct IH as (t' & ? & ?). exists t'. set_solver.
Qed.

Lemma check_edges_cases tasks edges :
  match check_edges tasks edges with
  | Ok _ => ∀ a b, (a, b) ∈ edges → is_Some (tasks !! a) ∧ is_Some (tasks !! b)
  | Err e => ∃ id ed, e = MissingTask id ∧ tasks !! id = None ∧ ed ∈ edges ∧ (ed.1 = id ∨ ed.2 = id)
  | Panic => False
  end.
Proof.
  induction edges as [|[a b] edges IH]; simpl; [set_solver|].
  case_bool_decide; [exists a, (a, b); set_solver|].
  case_bool_decide; [exists b, (a, b); set_solver|].
  rewrite not_eq_None_Some in *.
  destruct (check_edges tasks edges); [set_solver| |done].
  destruct IH as (id & ed & ? & ? & ? & ?). exists id, ed. set_solver.
Qed.

Section validate_spec.
Context `{Toposort}.

Lemma validate_cases g :
  match validate g with
  | Ok _ => valid_plan g
  | Err e => plan_error_explained g e
  | Panic => False
  end.
Proof.
  unfold validate. munfold.
  pose proof (check_owners_cases (tg_goal_id g) (values (tg_tasks g))) as Hown.
  destruct (check_owners _ _) as [?|e|]; [| |done].
  2:{ destruct Hown as (t & [id Ht]%elem_of_values & -> & ?). simpl. naive_solver. }
  pose proof (check_edges_cases (tg_tasks g) (tg_edges g)) as Hedg.
  destruct (check_edges _ _) as [?|e|]; [| |done].
  2:{ destruct Hedg as (id & ed & -> & ? & ? & ?). simpl. eauto. }
  assert (∀ e, e ∈ tg_edges g → e.1 ∈ keys (tg_tasks g) ∧ e.2 ∈ keys (tg_tasks g)) as Hnodes.
  { intros [x y] Hab. rewrite !elem_of_keys. by apply Hedg. }
  pose proof (NoDup_keys (tg_tasks g)) as Hnd.
  destruct (toposort _ _) as [order|] eqn:Htopo; [|by eapply toposort_cycle].
  apply toposort_order in Htopo as [Hperm Hbefore]; [|done..].
  split; [|done|].
  - intros id t Ht. apply Hown, elem_of_values. eauto.
  - eapply ordered_acyclic; [|done]. by rewrite Hperm.
Qed.

Lemma validate_ok_iff_lem g : validate g = Ok () ↔ valid_plan g.
Proof.
  pose proof (validate_cases g) as Hc. split; [by intros Hv; rewrite Hv in Hc|].
  intros [Hown Hedg Hacy]. destruct (validate g) as [[]|e|]; [done| |done].
  exfalso. destruct e; simpl in Hc; try done.
  - destruct Hc as (Hn & [a b] & Hab & [<-|<-]); simpl in Hn;
      destruct (Hedg _ _ Hab) as [[??] [??]]; congruence.
  - destruct Hc as [x ?]. by eapply Hacy.
  - destruct Hc as (id & t & Ht & _ & <- & -> & ?). eauto.
Qed.
End validate_spec.

(** ** Theorems *)

(** Plan validation is exact.  Whatever topological sort meets petgraph's
    contract, [validate] accepts a graph if and only if every task belongs to
    the goal, every edge joins two tasks of the graph and there is no
    dependency cycle; it never panics, and each rejection names a real defect. *)
Theorem validate_exact `{Toposort} g :
  (validate g = Ok () ↔ valid_plan g) ∧
  validate g ≠ Panic ∧
  (∀ e, validate g = Err e → plan_error_explained g e).
Proof.
  pose proof (validate_cases g) as Hc. split_and!; [by apply validate_ok_iff_lem|..].
  - intros Hv. by rewrite Hv in Hc.
  - intros e Hv. by rewrite Hv in Hc.
Qed.

(** A goal completes only when every declared criterion was verified.  The
    goal becomes [Completed] with the result exactly when no criterion is
    missing; otherwise the goal is unchanged and the error lists precisely the
    criteria that were not verified. *)
Theorem goal_complete_exact verified result g :
  let r := goal_complete verified result g in
  (∀ c, c ∈ g_success_criteria g → c ∈ verified) ∧ r = (Ok (), goal_finish result g) ∨
  ∃ missing, missing ≠ [] ∧ r = (Err (UnverifiedCriteria missing), g) ∧
    ∀ c, c ∈ missing ↔ c ∈ g_success_criteria g ∧ c ∉ verified.
Proof.
  unfold goal_complete. munfold. case_bool_decide as Hmiss; [left|right].
  - split; [|done]. intros c Hc. destruct (decide (c ∈ verified)); [done|].
    assert (c ∈ filter (λ c, c ∉ verified) (g_success_criteria g)) as Hin
      by by apply list_elem_of_filter.
    rewrite Hmiss in Hin. by apply elem_of_nil in Hin.
  - eexists. split_and!; [done..|]. intros c. rewrite list_elem_of_filter. tauto.
Qed.

(** ** Concrete instances *)

Definition sample_task (id goal : Uuid) : Task :=
  mkTask id goal None "research" "executor" None None ∅ "read" Isolated 1%N 0%N None None
    Queued 0%N None.

Definition sample_graph : TaskGraph :=
  mkTaskGraph 7%N 1%N (list_to_map [(1%N, sample_task 1%N 7%N); (2%N, sample_task 2%N 7%N)])
    [(1%N, 2%N)].

Example cycles_are_rejected :
  validate (mkTaskGraph 7%N 1%N (tg_tasks sample_graph) [(1%N, 2%N); (2%N, 1%N)]) = Err Cycle.
Proof. vm_compute. reflexivity. Qed.

Lemma validate_exact_witness : valid_plan sample_graph.
Proof. apply (validate_exact sample_graph). vm_compute. reflexivity. Defined.
