(* ===== verification/Supervisor.v ===== *)
(** * The durable task supervisor

    Models [DurableSupervisor] of [crates/agent/src/lib.rs]: construction and
    crash recovery, scheduling, every task transition, the effect receipts that
    make consequential work at-most-once, and delegation checks.  A method with
    [&mut self] is a run of the state-and-error monad of [Prelude]. *)

From stdpp Require Import base gmap strings list relations sorting pretty.
From S2P Require Import Prelude TaskGraph.

(** ** State *)

Record EffectReceipt : Type := mkEffectReceipt {
  er_idempotency_key : string;
  er_task_id : Uuid;
  er_effect_fingerprint : string;
  er_verified : bool;
  er_completed_at : DateTime;
}.

Record SupervisorSnapshot : Type := mkSupervisorSnapshot {
  ss_schema_version : N;
  ss_graph : TaskGraph;
  ss_receipts : gmap string EffectReceipt;
  ss_running_order : list Uuid;
  ss_elapsed_virtual_seconds : N;
}.

Inductive ScheduleDecision : Type :=
  | Start (task_id : Uuid) (attempt : N)
  | WaitForDependencies (task_id : Uuid)
  | WaitForApproval (task_id : Uuid) (reason : string)
  | AlreadyCompleted (task_id : Uuid).

Record DurableSupervisor : Type := mkDurableSupervisor {
  ds_snapshot : SupervisorSnapshot;
  ds_maximum_parallelism : nat;
  ds_maximum_delegation_depth : nat;
}.

Definition ds_tasks (s : DurableSupervisor) : gmap Uuid Task :=
  tg_tasks (ss_graph (ds_snapshot s)).
Definition ds_edges (s : DurableSupervisor) : list (Uuid * Uuid) :=
  tg_edges (ss_graph (ds_snapshot s)).
Definition ds_receipts (s : DurableSupervisor) : gmap string EffectReceipt :=
  ss_receipts (ds_snapshot s).
Definition ds_running (s : DurableSupervisor) : list Uuid := ss_running_order (ds_snapshot s).

(** Assignments to the mutable fields of a task. *)
Definition set_status (st : WorkStatus) (t : Task) : Task :=
  mkTask (t_id t) (t_goal_id t) (t_parent_task_id t) (t_title t) (t_assigned_agent t)
    (t_workspace t) (t_browser_profile t) (t_tool_scopes t) (t_risk t) (t_execution_zone t)
    (t_max_attempts t) (t_attempt t) (t_idempotency_key t) (t_checkpoint_id t) st
    (t_progress t) (t_output t).
Definition set_attempt (n : N) (t : Task) : Task :=
  mkTask (t_id t) (t_goal_id t) (t_parent_task_id t) (t_title t) (t_assigned_agent t)
    (t_workspace t) (t_browser_profile t) (t_tool_scopes t) (t_risk t) (t_execution_zone t)
    (t_max_attempts t) n (t_idempotency_key t) (t_checkpoint_id t) (t_status t)
    (t_progress t) (t_output t).
Definition set_checkpoint (c : option string) (t : Task) : Task :=
  mkTask (t_id t) (t_goal_id t) (t_parent_task_id t) (t_title t) (t_assigned_agent t)
    (t_workspace t) (t_browser_profile t) (t_tool_scopes t) (t_risk t) (t_execution_zone t)
    (t_max_attempts t) (t_attempt t) (t_idempotency_key t) c (t_status t)
    (t_progress t) (t_output t).
Definition set_progress (p : N) (t : Task) : Task :=
  mkTask (t_id t) (t_goal_id t) (t_parent_task_id t) (t_title t) (t_assigned_agent t)
    (t_workspace t) (t_browser_profile t) (t_tool_scopes t) (t_risk t) (t_execution_zone t)
    (t_max_attempts t) (t_attempt t) (t_idempotency_key t) (t_checkpoint_id t) (t_status t)
    p (t_output t).
Definition set_output (o : option Value) (t : Task) : Task :=
  mkTask (t_id t) (t_goal_id t) (t_parent_task_id t) (t_title t) (t_assigned_agent t)
    (t_workspace t) (t_browser_profile t) (t_tool_scopes t) (t_risk t) (t_execution_zone t)
    (t_max_attempts t) (t_attempt t) (t_idempotency_key t) (t_checkpoint_id t) (t_status t)
    (t_progress t) o.

(** Assignments to the fields of the supervisor. *)
Definition upd_snapshot (tasks : gmap Uuid Task → gmap Uuid Task)
    (receipts : gmap string EffectReceipt → gmap string EffectReceipt)
    (running : list Uuid → list Uuid) (s : DurableSupervisor) : DurableSupervisor :=
  let n := ds_snapshot s in
  let g := ss_graph n in
  mkDurableSupervisor
    (mkSupervisorSnapshot (ss_schema_version n)
       (mkTaskGraph (tg_goal_id g) (tg_revision g) (tasks (tg_tasks g)) (tg_edges g))
       (receipts (ss_receipts n)) (running (ss_running_order n)) (ss_elapsed_virtual_seconds n))
    (ds_maximum_parallelism s) (ds_maximum_delegation_depth s).

Definition SM : Type → Type := M DurableSupervisor PlanError.

(** [self.snapshot.graph.tasks.get_mut(&id).ok_or(MissingTask(id))?] *)
Definition task_of (id : Uuid) : SM Task :=
  s ← get; ok_or (ds_tasks s !! id) (MissingTask id).
Definition put_task (id : Uuid) (t : Task) : SM () :=
  modify (upd_snapshot <[id:=t]> (λ r, r) (λ l, l)).
(** [self.snapshot.running_order.retain(|other| *other != id)] *)
Definition unlist (id : Uuid) : SM () :=
  modify (upd_snapshot (λ m, m) (λ r, r) (filter (.≠ id))).
Definition enlist (id : Uuid) : SM () :=
  modify (upd_snapshot (λ m, m) (λ r, r) (λ l, l ++ [id])).

(** ** Classification *)

Definition is_consequential (t : Task) : bool :=
  bool_decide (t_risk t = "consequential") || bool_decide (t_risk t = "irreversible").
Definition retry_safe (t : Task) : bool :=
  negb (is_consequential t) || bool_decide (is_Some (t_idempotency_key t)).
Definition zone_rank (z : ExecutionZone) : N :=
  match z with Isolated => 0 | Workspace => 1 | Desktop => 2 end.

Definition status_is (st : WorkStatus) (t : Task) : bool := bool_decide (t_status t = st).
Definition status_in (l : list WorkStatus) (t : Task) : bool := bool_decide (t_status t ∈ l).

(** ** Construction and recovery *)

Definition check_bounds (parallelism depth : nat) : outcome PlanError () :=
  if negb ((1 <=? parallelism) && (parallelism <=? 8)) then
    Err (InvalidSnapshot "parallelism must be between one and eight")
  else if depth =? 0 then
    Err (InvalidSnapshot "delegation depth must be at least one")
  else Ok ().

Section construction.
Context `{Toposort, UuidText}.

Definition new (graph : TaskGraph) (parallelism depth : nat)
    : outcome PlanError DurableSupervisor :=
  _ ← validate graph;
  _ ← check_bounds parallelism depth;
  Ok (mkDurableSupervisor (mkSupervisorSnapshot 1 graph ∅ [] 0) parallelism depth).

(** What recovery makes of one in-flight task. *)
Definition recover_task (receipts : gmap string EffectReceipt) (t : Task) : Task :=
  let receipt := k ← t_idempotency_key t; receipts !! k in
  if match receipt with Some r => er_verified r | None => false end then
    set_progress 100 (set_status Completed t)
  else if retry_safe t && (t_attempt t <? t_max_attempts t)%N then set_status Queued t
  else set_status Waiting t.

Fixpoint recover_running (receipts : gmap string EffectReceipt) (order : list Uuid)
    (tasks : gmap Uuid Task) : outcome PlanError (gmap Uuid Task) :=
  match order with
  | [] => Ok tasks
  | id :: order =>
    match tasks !! id with
    | None => Err (MissingTask id)
    | Some t =>
      if status_is Running t then
        recover_running receipts order (<[id := recover_task receipts t]> tasks)
      else Err (InvalidSnapshot
             ("running order references non-running task " +:+ uuid_to_string id))
    end
  end.

Definition recover (n : SupervisorSnapshot) (parallelism depth : nat)
    : outcome PlanError DurableSupervisor :=
  if negb (ss_schema_version n =? 1)%N then
    Err (InvalidSnapshot ("unsupported schema version " +:+ pretty (ss_schema_version n)))
  else
    _ ← validate (ss_graph n);
    tasks ← recover_running (ss_receipts n) (ss_running_order n) (tg_tasks (ss_graph n));
    let g := ss_graph n in
    let s := mkDurableSupervisor
      (mkSupervisorSnapshot (ss_schema_version n)
        (mkTaskGraph (tg_goal_id g) (tg_revision g) tasks (tg_edges g))
        (ss_receipts n) [] (ss_elapsed_virtual_seconds n)) parallelism depth in
    _ ← check_bounds parallelism depth;
    Ok s.
End construction.

(** ** Scheduling *)

(** [dependencies_completed]: the index [tasks[dependency]] panics on a missing
    task, and [all] stops at the first dependency that is not completed. *)
Fixpoint deps_completed (tasks : gmap Uuid Task) (edges : list (Uuid * Uuid)) (id : Uuid)
    : outcome PlanError bool :=
  match edges with
  | [] => Ok true
  | (dependency, dependent) :: edges =>
    if bool_decide (dependent = id) then
      match tasks !! dependency with
      | None => Panic
      | Some t => if status_is Completed t then deps_completed tasks edges id else Ok false
      end
    else deps_completed tasks edges id
  end.
Definition dependencies_completed (s : DurableSupervisor) (id : Uuid) : outcome PlanError bool :=
  deps_completed (ds_tasks s) (ds_edges s) id.

(** The lazy [filter]/[filter]/[map]/[take] chain over the tasks in key order. *)
Fixpoint ready_go (s : DurableSupervisor) (available : nat) (items : list (Uuid * Task))
    : outcome PlanError (list Uuid) :=
  match items with
  | [] => Ok []
  | (id, t) :: items =>
    match available with
    | O => Ok []
    | S rest =>
      if status_is Queued t then
        ready ← dependencies_completed s id;
        if (ready : bool) then ids ← ready_go s rest items; Ok (id :: ids)
        else ready_go s available items
      else ready_go s available items
    end
  end.
Definition running_count (s : DurableSupervisor) : nat :=
  count_values (status_is Running) (ds_tasks s).
Definition ready_tasks (s : DurableSupervisor) : outcome PlanError (list Uuid) :=
  ready_go s (ds_maximum_parallelism s - running_count s) (entries (ds_tasks s)).

(** ** Transitions *)

Definition start (id : Uuid) : SM ScheduleDecision :=
  s ← get;
  t ← task_of id;
  if status_is Completed t then mret (AlreadyCompleted id)
  else
    ready ← lift (dependencies_completed s id);
    if negb ready then mret (WaitForDependencies id)
    else
      _ ← reject_if (negb (status_is Queued t)) (TaskNotReady id);
      _ ← reject_if (t_max_attempts t <=? t_attempt t)%N (AttemptsExhausted id);
      _ ← reject_if (is_consequential t && bool_decide (t_idempotency_key t = None))
            (MissingIdempotencyKey id);
      _ ← reject_if (ds_maximum_parallelism s <=? length (ds_running s)) (TaskNotReady id);
      t ← task_of id;
      let t' := set_status Running (set_attempt (sat_add u16_max (t_attempt t) 1) t) in
      _ ← put_task id t';
      _ ← enlist id;
      mret (Start id (t_attempt t')).

(** The receipt of a consequential completion; [now] is [Utc::now()]. *)
Definition record_receipt (now : DateTime) (id : Uuid) (t : Task)
    (effect_fingerprint : option string) : SM () :=
  if is_consequential t then
    key ← ok_or (t_idempotency_key t) (MissingIdempotencyKey id);
    fingerprint ← ok_or effect_fingerprint
      (InvalidSnapshot "consequential completion needs a fingerprint");
    s ← get;
    match ds_receipts s !! key with
    | Some existing =>
      reject_if (negb (bool_decide (er_effect_fingerprint existing = fingerprint))
                 || negb (bool_decide (er_task_id existing = id)))
        (InvalidSnapshot "idempotency key was reused for a different effect")
    | None =>
      modify (upd_snapshot (λ m, m)
        <[key := mkEffectReceipt key id fingerprint true now]> (λ l, l))
    end
  else mret ().

Definition complete (now : DateTime) (id : Uuid) (output : Value) (verified : bool)
    (effect_fingerprint : option string) : SM () :=
  t ← task_of id;
  _ ← reject_if (negb (status_is Running t) || negb verified) (TaskNotReady id);
  _ ← record_receipt now id t effect_fingerprint;
  _ ← put_task id (set_status Completed (set_progress 100 (set_output (Some output) t)));
  unlist id.

Definition provider_failed (id : Uuid) : SM () :=
  t ← task_of id;
  _ ← reject_if (negb (status_is Running t)) (TaskNotReady id);
  _ ← put_task id
        (set_status (if retry_safe t && (t_attempt t <? t_max_attempts t)%N
                     then Queued else Waiting) t);
  unlist id.

Definition bind_checkpoint (id : Uuid) (checkpoint_id : string) : SM () :=
  t ← task_of id;
  _ ← reject_if (negb (status_in [Running; Waiting] t)) (TaskNotReady id);
  put_task id (set_checkpoint (Some checkpoint_id) t).

Definition wait_for_approval (id : Uuid) (reason : string) : SM ScheduleDecision :=
  t ← task_of id;
  _ ← reject_if (negb (status_is Running t)) (TaskNotReady id);
  _ ← put_task id (set_status Waiting t);
  _ ← unlist id;
  mret (WaitForApproval id reason).

Definition resume_after_approval (id : Uuid) : SM () :=
  s ← get;
  t ← task_of id;
  _ ← reject_if (negb (status_is Waiting t)
                 || (ds_maximum_parallelism s <=? length (ds_running s))) (TaskNotReady id);
  _ ← put_task id (set_status Running t);
  enlist id.

Definition pause (id : Uuid) : SM () :=
  t ← task_of id;
  _ ← reject_if (status_in [Completed; Failed; Cancelled] t) (TaskNotReady id);
  _ ← put_task id (set_status Paused t);
  unlist id.

Definition resume (id : Uuid) : SM () :=
  t ← task_of id;
  _ ← reject_if (negb (status_is Paused t)) (TaskNotReady id);
  put_task id (set_status Queued t).

Definition cancel (id : Uuid) : SM () :=
  t ← task_of id;
  _ ← reject_if (status_in [Completed; Cancelled] t) (TaskNotReady id);
  _ ← put_task id (set_status Cancelled t);
  unlist id.

Definition retry (id : Uuid) : SM () :=
  t ← task_of id;
  _ ← reject_if (negb (status_in [Failed; Waiting] t)
                 || (t_max_attempts t <=? t_attempt t)%N)
        (if (t_max_attempts t <=? t_attempt t)%N then AttemptsExhausted id else TaskNotReady id);
  put_task id (set_checkpoint None (set_status Queued t)).

Definition fail (id : Uuid) (output : Value) : SM () :=
  t ← task_of id;
  _ ← reject_if (negb (status_in [Running; Waiting] t)) (TaskNotReady id);
  _ ← put_task id (set_output (Some output) (set_status Failed t));
  unlist id.

Definition pause_all : SM () :=
  modify (upd_snapshot
    (fmap (λ t, if status_in [Completed; Failed; Cancelled] t then t else set_status Paused t))
    (λ r, r) (λ _, [])).

Definition resume_all : SM () :=
  modify (upd_snapshot
    (fmap (λ t, if status_is Paused t then set_status Queued t else t)) (λ r, r) (λ l, l)).

Definition cancel_all : SM () :=
  modify (upd_snapshot
    (fmap (λ t, if status_in [Completed; Cancelled] t then t else set_status Cancelled t))
    (λ r, r) (λ _, [])).

(** [preempt_for_user]: every task of the running order that exists is paused. *)
Definition pause_listed (order : list Uuid) (tasks : gmap Uuid Task) : gmap Uuid Task :=
  foldl (λ m id, alter (set_status Paused) id m) tasks order.
Definition preempt_for_user : SM () :=
  s ← get; modify (upd_snapshot (pause_listed (ds_running s)) (λ r, r) (λ _, [])).

Definition advance_virtual_time (seconds : N) : SM () :=
  modify (λ s,
    let n := ds_snapshot s in
    mkDurableSupervisor
      (mkSupervisorSnapshot (ss_schema_version n) (ss_graph n) (ss_receipts n)
         (ss_running_order n) (sat_add u64_max (ss_elapsed_virtual_seconds n) seconds))
      (ds_maximum_parallelism s) (ds_maximum_delegation_depth s)).

(** ** Delegation *)

(** The [while let Some(id) = cursor] loop; [None] when the fuel runs out. *)
Fixpoint ancestry (tasks : gmap Uuid Task) (fuel depth : nat) (cursor : option Uuid)
    : option (outcome PlanError nat) :=
  match cursor with
  | None => Some (Ok depth)
  | Some id =>
    match fuel with
    | O => None
    | S fuel =>
      match tasks !! id with
      | None => Some (Err (MissingTask id))
      | Some t => ancestry tasks fuel (S depth) (t_parent_task_id t)
      end
    end
  end.

Definition validate_delegation (fuel : nat) (s : DurableSupervisor) (child : Task)
    : option (outcome PlanError ()) :=
  match t_parent_task_id child with
  | None => Some (Ok ())
  | Some parent_id =>
    match ds_tasks s !! parent_id with
    | None => Some (Err (MissingTask parent_id))
    | Some parent =>
      if negb (bool_decide (t_tool_scopes child ⊆ t_tool_scopes parent)) then
        Some (Err (AuthorityWidening (t_id child) "tool scopes exceed parent"))
      else if (zone_rank (t_execution_zone parent) <? zone_rank (t_execution_zone child))%N then
        Some (Err (AuthorityWidening (t_id child) "execution zone exceeds parent"))
      else
        match ancestry (ds_tasks s) fuel 1 (t_parent_task_id parent) with
        | None => None
        | Some (Ok depth) =>
          if ds_maximum_delegation_depth s <? depth then
            Some (Err (AuthorityWidening (t_id child) "delegation depth exceeded"))
          else Some (Ok ())
        | Some (Err e) => Some (Err e)
        | Some Panic => Some Panic
        end
    end
  end.

(** ** The supervisor as a transition system *)

Inductive op : Type :=
  | OStart (id : Uuid)
  | OComplete (id : Uuid) (output : Value) (verified : bool) (fingerprint : option string)
  | OProviderFailed (id : Uuid)
  | OBindCheckpoint (id : Uuid) (checkpoint : string)
  | OWaitForApproval (id : Uuid) (reason : string)
  | OResumeAfterApproval (id : Uuid)
  | OPause (id : Uuid)
  | OResume (id : Uuid)
  | OCancel (id : Uuid)
  | ORetry (id : Uuid)
  | OFail (id : Uuid) (output : Value)
  | OPauseAll
  | OResumeAll
  | OCancelAll
  | OPreempt
  | OAdvance (seconds : N).

(** One public call at time [now], its return value discarded. *)
Definition exec (now : DateTime) (o : op) : SM () :=
  match o with
  | OStart id => _ ← start id; mret ()
  | OComplete id output verified fp => complete now id output verified fp
  | OProviderFailed id => provider_failed id
  | OBindCheckpoint id c => bind_checkpoint id c
  | OWaitForApproval id reason => _ ← wait_for_approval id reason; mret ()
  | OResumeAfterApproval id => resume_after_approval id
  | OPause id => pause id
  | OResume id => resume id
  | OCancel id => cancel id
  | ORetry id => retry id
  | OFail id output => fail id output
  | OPauseAll => pause_all
  | OResumeAll => resume_all
  | OCancelAll => cancel_all
  | OPreempt => preempt_for_user
  | OAdvance seconds => advance_virtual_time seconds
  end.

Inductive steps : DurableSupervisor → DurableSupervisor → Prop :=
  | steps_refl s : steps s s
  | steps_exec s now o r s1 s2 : exec now o s = (r, s1) → steps s1 s2 → steps s s2.

(** ** Invariant *)

Record sup_inv (s : DurableSupervisor) : Prop := {
  si_version : ss_schema_version (ds_snapshot s) = 1%N;
  si_plan : valid_plan (ss_graph (ds_snapshot s));
  si_nodup : NoDup (ds_running s);
  si_live : ∀ id, id ∈ ds_running s → ∃ t, ds_tasks s !! id = Some t ∧ t_status t = Running;
  si_lane : length (ds_running s) ≤ ds_maximum_parallelism s;
  si_bounds : 1 ≤ ds_maximum_parallelism s ≤ 8;
}.

(** Every running task holds a slot of the lane. *)
Definition lane_exact (s : DurableSupervisor) : Prop :=
  ∀ id t, ds_tasks s !! id = Some t → t_status t = Running → id ∈ ds_running s.

(** The lifecycle of one task: the transitions a call may make. *)
Definition status_step (a b : WorkStatus) : bool :=
  match a, b with
  | Queued, Running | Running, Completed | Running, Queued | Running, Waiting
  | Waiting, Running | Waiting, Queued | Failed, Queued | Paused, Queued
  | Running, Failed | Waiting, Failed => true
  | (Queued | Planning | Running | Waiting | Paused), Paused => true
  | (Queued | Planning | Running | Waiting | Paused | Failed), Cancelled => true
  | _, _ => bool_decide (a = b)
  end.

Record task_step (t t' : Task) : Prop := {
  ts_id : t_id t' = t_id t;
  ts_goal : t_goal_id t' = t_goal_id t;
  ts_parent : t_parent_task_id t' = t_parent_task_id t;
  ts_scopes : t_tool_scopes t' = t_tool_scopes t;
  ts_risk : t_risk t' = t_risk t;
  ts_zone : t_execution_zone t' = t_execution_zone t;
  ts_key : t_idempotency_key t' = t_idempotency_key t;
  ts_max : t_max_attempts t' = t_max_attempts t;
  ts_status : status_step (t_status t) (t_status t') = true;
  ts_attempt : t_attempt t' = t_attempt t ∨
    (t_status t = Queued ∧ t_status t' = Running ∧
     (t_attempt t < t_max_attempts t)%N ∧ t_attempt t' = sat_add u16_max (t_attempt t) 1);
}.

(** What one call may do to the supervisor. *)
Record sup_step (s s' : DurableSupervisor) : Prop := {
  st_edges : ds_edges s' = ds_edges s;
  st_goal : tg_goal_id (ss_graph (ds_snapshot s')) = tg_goal_id (ss_graph (ds_snapshot s));
  st_par : ds_maximum_parallelism s' = ds_maximum_parallelism s;
  st_depth : ds_maximum_delegation_depth s' = ds_maximum_delegation_depth s;
  st_receipts : ds_receipts s ⊆ ds_receipts s';
  st_tasks : ∀ id, option_Forall2 task_step (ds_tasks s !! id) (ds_tasks s' !! id);
}.

(** ** Lemmas on the state updates *)

Lemma ds_tasks_upd f g h s : ds_tasks (upd_snapshot f g h s) = f (ds_tasks s).
Proof. done. Qed.
Lemma ds_running_upd f g h s : ds_running (upd_snapshot f g h s) = h (ds_running s).
Proof. done. Qed.
Lemma ds_receipts_upd f g h s : ds_receipts (upd_snapshot f g h s) = g (ds_receipts s).
Proof. done. Qed.

Lemma status_is_true st t : status_is st t = true ↔ t_status t = st.
Proof. apply bool_decide_eq_true. Qed.
Lemma status_is_false st t : status_is st t = false ↔ t_status t ≠ st.
Proof. apply bool_decide_eq_false. Qed.

Lemma status_step_refl st : status_step st st = true.
Proof. by destruct st. Qed.

Lemma task_step_refl t : task_step t t.
Proof. split; auto using status_step_refl. Qed.
#[export] Hint Resolve status_step_refl task_step_refl : agent.

Lemma option_Forall2_refl_tasks (m : gmap Uuid Task) id :
  option_Forall2 task_step (m !! id) (m !! id).
Proof. destruct (m !! id); constructor. apply task_step_refl. Qed.

(** Replacing one task by a successor of it. *)
Lemma insert_task_step (m : gmap Uuid Task) id t t' id' :
  m !! id = Some t → task_step t t' →
  option_Forall2 task_step (m !! id') (<[id:=t']> m !! id').
Proof.
  intros Ht Hs. destruct (decide (id = id')) as [->|].
  - rewrite Ht, lookup_insert_eq. by constructor.
  - rewrite lookup_insert_ne by done. apply option_Forall2_refl_tasks.
Qed.

Lemma sup_step_refl s : sup_step s s.
Proof. split; try done. intros id. apply option_Forall2_refl_tasks. Qed.

(** The shape of every single-task call. *)
Lemma upd_one_step s id t t' g h :
  ds_tasks s !! id = Some t → task_step t t' → ds_receipts s ⊆ g (ds_receipts s) →
  sup_step s (upd_snapshot <[id:=t']> g h s).
Proof.
  intros Ht Hstep Hg. split; try done. intros id'.
  rewrite ds_tasks_upd. by eapply insert_task_step.
Qed.

(** A map over all the tasks. *)
Lemma upd_all_step s f h :
  (∀ t, task_step t (f t)) → sup_step s (upd_snapshot (fmap f) (λ r, r) h s).
Proof.
  intros Hf. split; try done. intros id.
  rewrite ds_tasks_upd, lookup_fmap. destruct (ds_tasks s !! id); constructor. apply Hf.
Qed.

(** The shape of a call's effect: at most one task moves (and keeps, leaves or
    enters the lane), or all of them do. *)
Definition receipts_grow (s : DurableSupervisor) (t' : Task)
    (g : gmap string EffectReceipt → gmap string EffectReceipt) : Prop :=
  g = id ∨
  ∃ key r, g = <[key:=r]> ∧ ds_receipts s !! key = None ∧ t_idempotency_key t' = Some key ∧
    er_verified r = true.

Inductive shape (s : DurableSupervisor) : DurableSupervisor → Prop :=
  | sh_same : shape s s
  | sh_keep id t t' :
      ds_tasks s !! id = Some t → task_step t t' →
      (t_status t' = Running ↔ t_status t = Running) → t_status t' ≠ Completed →
      shape s (upd_snapshot <[id:=t']> (λ r, r) (λ l, l) s)
  | sh_drop id t t' g :
      ds_tasks s !! id = Some t → task_step t t' → t_status t' ≠ Running →
      receipts_grow s t' g →
      (t_status t' = Completed → is_consequential t' = true →
       ∃ key r, t_idempotency_key t' = Some key ∧ g (ds_receipts s) !! key = Some r ∧
         (er_verified r = true ∨ ds_receipts s !! key = Some r)) →
      shape s (upd_snapshot <[id:=t']> g (filter (.≠ id)) s)
  | sh_push id t t' :
      ds_tasks s !! id = Some t → task_step t t' → t_status t ≠ Running → t_status t' = Running →
      length (ds_running s) < ds_maximum_parallelism s →
      shape s (upd_snapshot <[id:=t']> (λ r, r) (λ l, l ++ [id]) s)
  | sh_clear f :
      (∀ t, task_step t (f t) ∧ t_status (f t) ≠ Running ∧
         (t_status (f t) = Completed → f t = t)) →
      shape s (upd_snapshot (fmap f) (λ r, r) (λ _, []) s)
  | sh_map f :
      (∀ t, task_step t (f t) ∧ (t_status (f t) = Running ↔ t_status t = Running) ∧
         (t_status (f t) = Completed → f t = t)) →
      shape s (upd_snapshot (fmap f) (λ r, r) (λ l, l) s)
  | sh_preempt : shape s (upd_snapshot (pause_listed (ds_running s)) (λ r, r) (λ _, []) s)
  | sh_advance s' :
      ss_schema_version (ds_snapshot s') = ss_schema_version (ds_snapshot s) →
      ss_graph (ds_snapshot s') = ss_graph (ds_snapshot s) → ds_receipts s' = ds_receipts s →
      ds_running s' = ds_running s → ds_maximum_parallelism s' = ds_maximum_parallelism s →
      ds_maximum_delegation_depth s' = ds_maximum_delegation_depth s → shape s s'.

(** Reflect the boolean guards of a call into its hypotheses. *)
Ltac reflect_guards :=
  repeat match goal with
  | H : _ && _ = true |- _ => apply andb_true_iff in H as [? ?]
  | H : _ || _ = false |- _ => apply orb_false_iff in H as [? ?]
  | H : negb _ = false |- _ => apply negb_false_iff in H
  | H : negb _ = true |- _ => apply negb_true_iff in H
  | H : status_is _ _ = true |- _ => apply status_is_true in H
  | H : status_is _ _ = false |- _ => apply status_is_false in H
  | H : status_in _ _ = true |- _ => apply bool_decide_eq_true in H
  | H : status_in _ _ = false |- _ => apply bool_decide_eq_false in H
  | H : bool_decide _ = true |- _ => apply bool_decide_eq_true in H
  | H : bool_decide _ = false |- _ => apply bool_decide_eq_false in H
  | H : (_ <=? _)%N = false |- _ => apply N.leb_gt in H
  | H : (_ <=? _) = false |- _ => apply Nat.leb_gt in H
  | H : (_ <? _)%N = true |- _ => apply N.ltb_lt in H
  end.

(** A task step that only rewrites mutable fields. *)
Ltac task_step_tac :=
  split; simpl; try done; try (left; done);
  repeat match goal with H : t_status _ = _ |- _ => rewrite H end; try done;
  repeat match goal with
  | H : t_status ?t ∉ _ |- _ => destruct (t_status t) eqn:?; set_solver
  | H : t_status ?t ∈ _ |- _ => destruct (t_status t) eqn:?; set_solver
  end.

(** Consecutive assignments to different fields are one update. *)
Lemma upd_task_lane id t g h s :
  upd_snapshot (λ m, m) (λ r, r) h (upd_snapshot <[id:=t]> g (λ l, l) s) =
  upd_snapshot <[id:=t]> g h s.
Proof. done. Qed.
Lemma upd_receipt_task id t g s :
  upd_snapshot <[id:=t]> (λ r, r) (λ l, l) (upd_snapshot (λ m, m) g (λ l, l) s) =
  upd_snapshot <[id:=t]> g (λ l, l) s.
Proof. done. Qed.

Lemma start_shape id s r s' : start id s = (r, s') → shape s s'.
Proof.
  unfold start, task_of, put_task, enlist. intros Hrun.
  branches; reflect_guards; try apply sh_same.
  rewrite upd_task_lane. eapply sh_push; [done| |congruence|done|lia].
  task_step_tac. right. done.
Qed.

Lemma complete_shape now id output verified fp s r s' :
  complete now id output verified fp s = (r, s') → shape s s'.
Proof.
  unfold complete, record_receipt, task_of, put_task, unlist. intros Hrun.
  branches; reflect_guards; try apply sh_same;
    rewrite ?upd_receipt_task, upd_task_lane;
    (eapply sh_drop; [done|by task_step_tac|done| |]).
  - by left.
  - intros _ _. simpl. eauto 10.
  - right. simpl. eauto 10.
  - intros _ _. eexists _, _. simpl. rewrite lookup_insert_eq. eauto.
  - by left.
  - intros _ Hc. unfold is_consequential in *. simpl in *. congruence.
Qed.

(** The calls that drop the task from the lane, or leave the lane alone. *)
Ltac drop_tac :=
  branches; reflect_guards; try apply sh_same; rewrite ?upd_task_lane;
  first [ eapply sh_drop; [done|by task_step_tac|done|by left|done]
        | eapply sh_keep; [done|by task_step_tac|simpl; split; congruence|done]
        | eapply sh_keep; [done|by task_step_tac|..]; simpl;
          match goal with H : t_status ?t ∈ _ |- _ => destruct (t_status t); set_solver end ].

Lemma single_shape now o s r s' :
  match o with
  | OProviderFailed _ | OBindCheckpoint _ _ | OWaitForApproval _ _ | OPause _ | OResume _
  | OCancel _ | ORetry _ | OFail _ _ => True
  | _ => False
  end → exec now o s = (r, s') → shape s s'.
Proof.
  destruct o; try done; intros _ Hrun; simpl in Hrun;
    unfold provider_failed, bind_checkpoint, wait_for_approval, pause, resume, cancel, retry,
      fail, task_of, put_task, unlist in Hrun; drop_tac.
Qed.

Lemma resume_after_approval_shape id s r s' :
  resume_after_approval id s = (r, s') → shape s s'.
Proof.
  unfold resume_after_approval, task_of, put_task, enlist. intros Hrun.
  branches; reflect_guards; try apply sh_same.
  rewrite upd_task_lane. eapply sh_push; [done|by task_step_tac|congruence|done|lia].
Qed.

Lemma bulk_shape now o s r s' :
  match o with
  | OPauseAll | OResumeAll | OCancelAll | OPreempt | OAdvance _ => True | _ => False
  end → exec now o s = (r, s') → shape s s'.
Proof.
  destruct o; try done; intros _ Hrun; simpl in Hrun;
    unfold pause_all, resume_all, cancel_all, preempt_for_user, advance_virtual_time in Hrun;
    munfold; simplify_eq.
  - apply sh_clear. intros t. destruct (status_in _ t) eqn:?; reflect_guards.
    + split; [apply task_step_refl|]. split; [|done]. intros Hr. rewrite Hr in *. set_solver.
    + split; [task_step_tac|]. done.
  - apply sh_map. intros t. destruct (status_is _ t) eqn:?; reflect_guards.
    + split; [task_step_tac|]. split; [simpl; split; congruence|done].
    + split; [apply task_step_refl|]. done.
  - apply sh_clear. intros t. destruct (status_in _ t) eqn:?; reflect_guards.
    + split; [apply task_step_refl|]. split; [|done]. intros Hr. rewrite Hr in *. set_solver.
    + split; [task_step_tac|]. done.
  - apply sh_preempt.
  - by apply sh_advance.
Qed.

Lemma exec_shape now o s r s' : exec now o s = (r, s') → shape s s'.
Proof.
  intros Hrun. destruct o;
    try (refine (single_shape _ _ _ _ _ _ Hrun); exact I);
    try (refine (bulk_shape _ _ _ _ _ _ Hrun); exact I).
  - simpl in Hrun. destruct (start id s) as [r1 s1] eqn:Hs.
    assert (s' = s1) as -> by (munfold; rewrite Hs in Hrun; by destruct r1; simplify_eq).
    by eapply start_shape.
  - exact (complete_shape _ _ _ _ _ _ _ _ Hrun).
  - exact (resume_after_approval_shape _ _ _ _ Hrun).
Qed.

(** ** Preservation *)

Lemma pause_listed_lookup order (m : gmap Uuid Task) id :
  pause_listed order m !! id =
    (λ t, if decide (id ∈ order) then set_status Paused t else t) <$> m !! id.
Proof.
  unfold pause_listed. revert m; induction order as [|x order IH]; intros m; simpl.
  - by destruct (m !! id).
  - rewrite IH. destruct (decide (x = id)) as [->|].
    + rewrite lookup_alter_eq. destruct (m !! id); [|done]. f_equal/=.
      rewrite (decide_True (P := id ∈ id :: order)) by set_solver. by case_decide.
    + rewrite lookup_alter_ne by done. destruct (m !! id); [|done]. f_equal/=.
      apply decide_ext. set_solver.
Qed.

Lemma shape_step s s' : sup_inv s → shape s s' → sup_step s s'.
Proof.
  intros Hinv [ |id t t'|id t t' g ?? ? Hg _|id t t'| f Hf | f Hf | | s1 Hv Hgr Hrc Hro Hp Hd].
  - apply sup_step_refl.
  - by eapply upd_one_step.
  - eapply upd_one_step; [done..|]. destruct Hg as [->|(key & r & -> & ? & _)]; [done|].
    by apply insert_subseteq.
  - by eapply upd_one_step.
  - apply upd_all_step. apply Hf.
  - apply upd_all_step. apply Hf.
  - split; try done. intros id. rewrite ds_tasks_upd, pause_listed_lookup.
    destruct (ds_tasks s !! id) as [t|] eqn:Ht; simpl; constructor.
    case_decide as Hin; [|apply task_step_refl].
    destruct (si_live _ Hinv id Hin) as (t' & ? & Hr). simplify_eq. task_step_tac.
  - split; [by unfold ds_edges; rewrite Hgr|by rewrite Hgr|done..|by rewrite Hrc|].
    intros id. unfold ds_tasks. rewrite Hgr. apply option_Forall2_refl_tasks.
Qed.

Lemma sup_step_plan s s' :
  sup_step s s' → valid_plan (ss_graph (ds_snapshot s)) → valid_plan (ss_graph (ds_snapshot s')).
Proof.
  intros [Hedg Hgoal _ _ _ Htasks] [Hown Hed Hac]. fold (ds_tasks s) in *.
  assert (∀ id, is_Some (ds_tasks s !! id) → is_Some (ds_tasks s' !! id)) as Hdom.
  { intros id [t Ht]. specialize (Htasks id). rewrite Ht in Htasks. inversion Htasks. eauto. }
  split.
  - intros id t' Ht'. specialize (Htasks id). unfold ds_tasks in Htasks. rewrite Ht' in Htasks.
    inversion Htasks as [t ? Hs Ht|]; subst. rewrite (ts_goal _ _ Hs), Hgoal. eauto.
  - intros a b Hab. fold (ds_edges s') in Hab. rewrite Hedg in Hab.
    destruct (Hed a b Hab). split; by apply Hdom.
  - fold (ds_edges s'). rewrite Hedg. done.
Qed.

(** A task that holds a slot keeps it unless it is the one the call moves. *)
Lemma live_insert (m : gmap Uuid Task) id t' (l : list Uuid) :
  (∀ id', id' ∈ l → id' ≠ id → ∃ t, m !! id' = Some t ∧ t_status t = Running) →
  (id ∈ l → t_status t' = Running) →
  ∀ id', id' ∈ l → ∃ t, <[id:=t']> m !! id' = Some t ∧ t_status t = Running.
Proof.
  intros Hl Hid id' Hin. destruct (decide (id = id')) as [->|].
  - exists t'. rewrite lookup_insert_eq. auto.
  - rewrite lookup_insert_ne by done. auto.
Qed.

Lemma shape_inv s s' : sup_inv s → shape s s' → sup_inv s'.
Proof.
  intros Hinv Hsh. pose proof (shape_step _ _ Hinv Hsh) as Hstep.
  pose proof (sup_step_plan _ _ Hstep (si_plan _ Hinv)) as Hplan.
  destruct Hinv as [Hver _ Hnd Hlive Hlane Hb].
  destruct Hsh as [ |id t t' Ht ? Hst|id t t' g Ht ? Hst|id t t' Ht ? Hst Hst' Hlen|f Hf|f Hf|
    | s1 Hv Hgr Hrc Hro Hp Hd].
  - done.
  - split; try done. rewrite ds_running_upd, ds_tasks_upd.
    apply live_insert; [by auto|]. intros Hin. apply Hst.
    destruct (Hlive _ Hin) as (? & ? & ?). by simplify_eq.
  - split; try done; rewrite ?ds_running_upd, ?ds_tasks_upd.
    + by apply NoDup_filter.
    + apply live_insert; [|by intros [? _]%list_elem_of_filter]. intros id' [_ ?]%list_elem_of_filter _. by apply Hlive.
    + etrans; [apply length_filter|done].
  - assert (id ∉ ds_running s) as Hnin.
    { intros Hin. destruct (Hlive _ Hin) as (? & ? & ?). by simplify_eq. }
    split; try done; rewrite ?ds_running_upd, ?ds_tasks_upd.
    + apply NoDup_app. split_and!; [done|set_solver|apply NoDup_singleton].
    + apply live_insert; [|done]. intros id' Hin ?. apply Hlive. set_solver.
    + rewrite length_app. simpl. lia.
  - split; try done; rewrite ?ds_running_upd; [constructor|set_solver|simpl; lia].
  - split; try done. rewrite ds_running_upd, ds_tasks_upd. intros id Hin.
    destruct (Hlive _ Hin) as (t & Ht & ?). exists (f t). rewrite lookup_fmap, Ht.
    split; [done|]. by apply Hf.
  - split; try done; rewrite ?ds_running_upd; [constructor|set_solver|simpl; lia].
  - split; rewrite ?Hv, ?Hro, ?Hp; try done. unfold ds_tasks. by rewrite Hgr.
Qed.

Lemma shape_lane s s' : sup_inv s → lane_exact s → shape s s' → lane_exact s'.
Proof.
  intros Hinv Hex Hsh id0 t0. destruct Hsh as [ |id t t' Ht ? Hst|id t t' g Ht ? Hst|
    id t t' Ht ? Hst Hst' Hlen|f Hf|f Hf| | s1 Hv Hgr Hrc Hro Hp Hd];
    rewrite ?ds_tasks_upd, ?ds_running_upd.
  - apply Hex.
  - destruct (decide (id = id0)) as [->|].
    + rewrite lookup_insert_eq. intros [= <-] ?%Hst. eauto.
    + rewrite lookup_insert_ne by done. apply Hex.
  - destruct (decide (id = id0)) as [->|]; [rewrite lookup_insert_eq; congruence|].
    rewrite lookup_insert_ne by done. intros ??. apply list_elem_of_filter. eauto.
  - destruct (decide (id = id0)) as [->|]; [set_solver|].
    rewrite lookup_insert_ne by done. intros ??. apply elem_of_app. eauto.
  - rewrite lookup_fmap. intros (t & ? & ->)%fmap_Some ?. by destruct (Hf t) as (_ & ? & _).
  - rewrite lookup_fmap. intros (t & ? & ->)%fmap_Some Hr. destruct (Hf t) as (_ & Hiff & _).
    apply Hiff in Hr. eauto.
  - rewrite pause_listed_lookup. intros (t & Ht & ->)%fmap_Some.
    case_decide as Hin; [done|]. intros Hr. destruct Hin. eauto.
  - unfold ds_tasks. rewrite Hgr, Hro. apply Hex.
Qed.

(** ** Dependencies *)

Lemma deps_completed_spec tasks edges id :
  (∀ a b, (a, b) ∈ edges → is_Some (tasks !! a)) →
  ∃ b, deps_completed tasks edges id = Ok b ∧
    (b = true ↔ ∀ a t, (a, id) ∈ edges → tasks !! a = Some t → t_status t = Completed).
Proof.
  induction edges as [|[x y] edges IH]; intros Hed; simpl.
  { exists true. split; [done|]. set_solver. }
  destruct IH as (b & Hb & Hiff); [set_solver|].
  case_bool_decide as Hy; [|exists b; rewrite Hiff; split; [done|set_solver]].
  destruct (Hed x y) as [t Ht]; [by left|]. rewrite Ht.
  destruct (status_is Completed t) eqn:Hst; reflect_guards.
  - exists b. split; [done|]. rewrite Hiff. split; [|set_solver].
    intros Hall a u [[= -> ->]|?]%elem_of_cons Hu; [congruence|eauto].
  - exists false. split; [done|]. split; [done|]. intros Hall. exfalso.
    apply Hst. apply (Hall x t); [subst; by left|done].
Qed.

Lemma dependencies_spec s id :
  sup_inv s → ∃ b, dependencies_completed s id = Ok b ∧
    (b = true ↔ ∀ a t, (a, id) ∈ ds_edges s → ds_tasks s !! a = Some t → t_status t = Completed).
Proof.
  intros Hinv. apply deps_completed_spec. intros a b Hab.
  by apply (vp_edges _ (si_plan _ Hinv) a b).
Qed.

Lemma exec_no_panic now o s : sup_inv s → (exec now o s).1 ≠ Panic.
Proof.
  intros Hinv. destruct o; simpl;
    unfold start, complete, record_receipt, provider_failed, bind_checkpoint, wait_for_approval,
      resume_after_approval, pause, resume, cancel, retry, fail, pause_all, resume_all, cancel_all,
      preempt_for_user, advance_virtual_time, task_of, put_task, unlist, enlist;
    munfold; try done; repeat (case_match; simplify_eq/=; try done).
  all: destruct (dependencies_spec s id Hinv) as (b & ? & _); simplify_eq; congruence.
Qed.

(** ** Boot *)

Lemma check_bounds_ok p d : check_bounds p d = Ok () → 1 ≤ p ≤ 8.
Proof. unfold check_bounds. repeat case_match; try done. reflect_guards.
  intros _. split; apply Nat.leb_le; done. Qed.

Lemma recover_task_not_running rc t : t_status (recover_task rc t) ≠ Running.
Proof. unfold recover_task. by repeat case_match. Qed.

Section boot.
Context `{Toposort, UuidText}.

Lemma recover_running_ok rc order m m' :
  recover_running rc order m = Ok m' →
  NoDup order ∧
  (∀ id, id ∈ order → ∃ t, m !! id = Some t ∧ t_status t = Running) ∧
  ∀ id, m' !! id = (λ t, if decide (id ∈ order) then recover_task rc t else t) <$> m !! id.
Proof.
  revert m; induction order as [|x order IH]; intros m; simpl.
  { intros [= <-]. split_and!; [constructor|set_solver|]. intros id. by destruct (m !! id). }
  destruct (m !! x) as [t|] eqn:Hx; [|done]. case_match eqn:Hst; [|done]. reflect_guards.
  intros (Hnd & Hrun & Hlook)%IH.
  assert (x ∉ order) as Hnin.
  { intros Hin. destruct (Hrun x Hin) as (u & Hu & Hur). rewrite lookup_insert_eq in Hu.
    simplify_eq. by apply recover_task_not_running in Hur. }
  split_and!; [by constructor| |].
  - intros id [->|Hin]%elem_of_cons; [eauto|].
    destruct (Hrun id Hin) as (u & Hu & Hur). rewrite lookup_insert_ne in Hu by set_solver. eauto.
  - intros id. rewrite Hlook. destruct (decide (x = id)) as [->|].
    + rewrite lookup_insert_eq, Hx. f_equal/=.
      by rewrite decide_False, decide_True by set_solver.
    + rewrite lookup_insert_ne by done. destruct (m !! id); [|done]. f_equal/=.
      apply decide_ext. set_solver.
Qed.

(** Recovery fails only on an order that lists a task that is not running. *)
Lemma recover_running_total rc order m :
  NoDup order → (∀ id, id ∈ order → ∃ t, m !! id = Some t ∧ t_status t = Running) →
  ∃ m', recover_running rc order m = Ok m'.
Proof.
  revert m; induction order as [|x order IH]; intros m Hnd Hrun; simpl; [eauto|].
  apply NoDup_cons in Hnd as [Hnin Hnd].
  destruct (Hrun x) as (t & -> & Hst); [by left|].
  apply status_is_true in Hst. rewrite Hst. apply IH; [done|].
  intros id Hin. rewrite lookup_insert_ne by set_solver. apply Hrun. by right.
Qed.

Lemma new_inv g p d s :
  new g p d = Ok s → sup_inv s ∧ ds_running s = [] ∧ ss_graph (ds_snapshot s) = g ∧
    ds_receipts s = ∅ ∧ ds_maximum_parallelism s = p.
Proof.
  unfold new. intros Hnew. munfold.
  destruct (validate g) as [[]| |] eqn:Hv; [|done..].
  destruct (check_bounds p d) as [[]| |] eqn:Hb; [|done..]. simplify_eq.
  apply check_bounds_ok in Hb. apply validate_ok_iff_lem in Hv.
  split; [|done]. split; simpl; try done; [constructor|set_solver|lia].
Qed.

Lemma recover_ok_inv n p d s :
  recover n p d = Ok s →
  sup_inv s ∧ ds_running s = [] ∧ ds_receipts s = ss_receipts n ∧ NoDup (ss_running_order n) ∧
  (∀ id, id ∈ ss_running_order n →
     ∃ t, tg_tasks (ss_graph n) !! id = Some t ∧ t_status t = Running) ∧
  (∀ id, ds_tasks s !! id =
     (λ t, if decide (id ∈ ss_running_order n) then recover_task (ss_receipts n) t else t)
       <$> tg_tasks (ss_graph n) !! id).
Proof.
  unfold recover. intros Hrec. munfold. case_match eqn:Hver; [done|]. reflect_guards.
  destruct (validate _) as [[]| |] eqn:Hv; [|done..].
  destruct (recover_running _ _ _) as [m| |] eqn:Hm; [|done..].
  destruct (check_bounds p d) as [[]| |] eqn:Hb; [|done..]. simplify_eq/=.
  apply check_bounds_ok in Hb. apply validate_ok_iff_lem in Hv as [Hown Hed Hac].
  apply recover_running_ok in Hm as (Hnd & Hrun & Hlook). apply N.eqb_eq in Hver.
  split_and!; try done. split; simpl; try done; [|constructor|set_solver|lia].
  split; simpl; [| |done].
  - intros id t. rewrite Hlook. intros (u & Hu & ->)%fmap_Some. apply Hown in Hu as <-.
    case_decide; [|done]. unfold recover_task. by repeat case_match.
  - intros a b Hab. rewrite !Hlook, !fmap_is_Some. by apply Hed.
Qed.
End boot.

(** ** Histories: calls, crashes and recoveries *)

Section histories.
Context `{Toposort, UuidText}.

Definition boot (s : DurableSupervisor) : Prop :=
  (∃ g p d, new g p d = Ok s) ∨ (∃ n p d, recover n p d = Ok s).
Definition reachable (s : DurableSupervisor) : Prop := ∃ s0, boot s0 ∧ steps s0 s.

(** The process may stop after any call and restart from the persisted snapshot. *)
Inductive history : DurableSupervisor → DurableSupervisor → Prop :=
  | history_refl s : history s s
  | history_exec s now o r s1 s2 : exec now o s = (r, s1) → history s1 s2 → history s s2
  | history_crash s p d s1 s2 :
      recover (ds_snapshot s) p d = Ok s1 → history s1 s2 → history s s2.

Lemma exec_inv now o s r s' : sup_inv s → exec now o s = (r, s') → sup_inv s'.
Proof. intros Hinv Hrun%exec_shape. by eapply shape_inv. Qed.

Lemma exec_step now o s r s' : sup_inv s → exec now o s = (r, s') → sup_step s s'.
Proof. intros Hinv Hrun%exec_shape. by apply shape_step. Qed.

Lemma steps_inv s s' : steps s s' → sup_inv s → sup_inv s'.
Proof. induction 1; eauto using exec_inv. Qed.

Lemma boot_inv s : boot s → sup_inv s.
Proof.
  intros [(g & p & d & Hn)|(n & p & d & Hr)]; [by apply new_inv in Hn as [? _]|].
  by apply recover_ok_inv in Hr as [? _].
Qed.

Lemma reachable_inv s : reachable s → sup_inv s.
Proof. intros (s0 & Hb & Hs). eauto using steps_inv, boot_inv. Qed.

Lemma steps_lane s s' : steps s s' → sup_inv s → lane_exact s → lane_exact s'.
Proof.
  induction 1 as [|s now o r s1 s2 Hrun _ IH]; [done|]. intros Hinv Hlane.
  apply exec_shape in Hrun. apply IH; [by eapply shape_inv|by eapply shape_lane].
Qed.

Lemma history_inv s s' : history s s' → sup_inv s → sup_inv s'.
Proof.
  induction 1; eauto using exec_inv. intros _.
  match goal with H : recover _ _ _ = Ok _ |- _ => apply recover_ok_inv in H as [? _] end. auto.
Qed.

(** Completion and the receipts outlive calls and crashes. *)
Lemma history_monotone s s' :
  history s s' → sup_inv s →
  ds_receipts s ⊆ ds_receipts s' ∧
  ∀ id t, ds_tasks s !! id = Some t → ∃ t', ds_tasks s' !! id = Some t' ∧
    t_idempotency_key t' = t_idempotency_key t ∧ t_risk t' = t_risk t ∧
    (t_status t = Completed → t_status t' = Completed).
Proof.
  induction 1 as [s|s now o r s1 s2 Hrun _ IH|s p d s1 s2 Hrec _ IH]; intros Hinv.
  - split; [done|]. naive_solver.
  - pose proof (exec_inv _ _ _ _ _ Hinv Hrun) as Hinv1.
    destruct (exec_step _ _ _ _ _ Hinv Hrun) as [_ _ _ _ Hrc Htasks].
    destruct (IH Hinv1) as [Hrc' Htasks']. split; [by etrans|]. intros id t Ht.
    specialize (Htasks id). rewrite Ht in Htasks. inversion Htasks as [? t1 Hs Ht1|]; subst.
    destruct (Htasks' id t1) as (t2 & ? & Hk & Hr & Hc); [done|]. exists t2.
    rewrite Hk, Hr, (ts_key _ _ Hs), (ts_risk _ _ Hs). split_and!; [done..|].
    intros Hcomp. apply Hc. pose proof (ts_status _ _ Hs) as Hst. rewrite Hcomp in Hst.
    by destruct (t_status t1).
  - apply recover_ok_inv in Hrec as (Hinv1 & _ & Hrc1 & _ & Hrun & Hlook).
    destruct (IH Hinv1) as [Hrc' Htasks']. fold (ds_receipts s) in Hrc1.
    split; [by rewrite <- Hrc1|]. intros id t Ht.
    specialize (Hlook id). fold (ds_tasks s) in Hlook. rewrite Ht in Hlook. simpl in Hlook.
    destruct (Htasks' id _ Hlook) as (t2 & ? & Hk & Hr & Hc). exists t2.
    case_decide as Hin; [|by split_and!].
    destruct (Hrun _ Hin) as (u & Hu & Hur). unfold ds_tasks in Ht. simplify_eq.
    rewrite Hk, Hr. split_and!; [done|unfold recover_task; by repeat case_match..|congruence].
Qed.

(** A successful consequential completion leaves a receipt naming the task. *)
Lemma complete_ok_receipt now id out v fp s s1 t k :
  complete now id out v fp s = (Ok (), s1) → ds_tasks s !! id = Some t →
  is_consequential t = true → t_idempotency_key t = Some k →
  (∃ r, ds_receipts s1 !! k = Some r ∧ er_task_id r = id) ∧
  ∃ t1, ds_tasks s1 !! id = Some t1 ∧ t_status t1 = Completed.
Proof.
  intros Hrun Ht Hc Hk.
  unfold complete, record_receipt, task_of, put_task, unlist in Hrun.
  branches; reflect_guards; rewrite ?ds_receipts_upd, ?ds_tasks_upd;
    (split; [|by eexists; rewrite lookup_insert_eq]).
  - eauto.
  - eexists. rewrite lookup_insert_eq. done.
  - congruence.
Qed.
End histories.
