(* ===== verification/SupervisorSpec.v ===== *)
(** * What the task supervisor guarantees

    Theorems about the transition system of [Supervisor]: the invariant of
    every reachable state, bounded parallelism, the task lifecycle as an
    abstract machine, crash recovery, at-most-once consequential effects,
    scheduling progress, and delegation. *)

From stdpp Require Import base gmap strings list relations sorting pretty.
From S2P Require Import Prelude TaskGraph Supervisor.

(** ** Reference scheduler *)

(** Every dependency of the task is completed. *)
Definition deps_done (s : DurableSupervisor) (id : Uuid) : Prop :=
  ∀ a t, (a, id) ∈ ds_edges s → ds_tasks s !! a = Some t → t_status t = Completed.

(** A task may be handed to a worker: it is queued and its dependencies are done. *)
Definition task_ready (s : DurableSupervisor) (id : Uuid) : bool :=
  match ds_tasks s !! id with
  | Some t => status_is Queued t && forallb (λ e : Uuid * Uuid,
      negb (bool_decide (e.2 = id)) ||
      match ds_tasks s !! e.1 with Some u => status_is Completed u | None => false end)
      (ds_edges s)
  | None => false
  end.

Lemma task_ready_spec s id :
  sup_inv s → task_ready s id = true ↔
  ∃ t, ds_tasks s !! id = Some t ∧ t_status t = Queued ∧ deps_done s id.
Proof.
  intros Hinv. unfold task_ready. destruct (ds_tasks s !! id) as [t|]; [|naive_solver].
  rewrite andb_true_iff, status_is_true, forallb_forall. unfold deps_done.
  setoid_rewrite <- list_elem_of_In. split.
  - intros [Hq Hall]. exists t. split_and!; [done..|]. intros a u Hin Hu.
    specialize (Hall _ Hin). simpl in Hall. rewrite bool_decide_eq_true_2, Hu in Hall by done.
    by apply status_is_true.
  - intros (? & [= <-] & Hq & Hdone). split; [done|]. intros [a b] Hin. simpl.
    case_bool_decide as Hb; [|done]. subst. simpl.
    destruct (vp_edges _ (si_plan _ Hinv) a id Hin) as [[u Hu] _].
    fold (ds_tasks s) in Hu. rewrite Hu. apply status_is_true. eauto.
Qed.

Lemma deps_ready s id t :
  sup_inv s → ds_tasks s !! id = Some t → t_status t = Queued →
  dependencies_completed s id = Ok (task_ready s id).
Proof.
  intros Hinv Ht Hq. destruct (dependencies_spec s id Hinv) as (b & -> & Hiff). f_equal.
  pose proof (task_ready_spec s id Hinv) as Hr.
  destruct b, (task_ready s id); [done|..|done].
  - symmetry. apply Hr. exists t. split_and!; [done..|]. unfold deps_done. by apply Hiff.
  - apply Hiff. by destruct (proj1 Hr eq_refl) as (? & ? & ? & ?).
Qed.

Lemma ready_go_reference s avail items :
  sup_inv s → (∀ id t, (id, t) ∈ items → ds_tasks s !! id = Some t) →
  ready_go s avail items = Ok (take avail (filter (λ id, task_ready s id = true) items.*1)).
Proof.
  intros Hinv. revert avail. induction items as [|[id t] items IH]; intros avail Hin; simpl.
  { by destruct avail. }
  destruct avail as [|avail]; [done|].
  assert (ds_tasks s !! id = Some t) as Ht by (apply Hin; by left).
  assert (∀ id t, (id, t) ∈ items → ds_tasks s !! id = Some t) as Hin' by (intros; apply Hin; by right).
  rewrite filter_cons. destruct (status_is Queued t) eqn:Hq.
  - apply status_is_true in Hq. rewrite (deps_ready s id t) by done. munfold.
    destruct (task_ready s id) eqn:Hr; [rewrite decide_True by done|rewrite decide_False by done].
    + by rewrite IH.
    + by rewrite IH.
  - rewrite decide_False; [by apply IH|]. unfold task_ready. rewrite Ht, Hq. done.
Qed.

Lemma ready_tasks_reference s :
  sup_inv s →
  ready_tasks s = Ok (take (ds_maximum_parallelism s - running_count s)
    (filter (λ id, task_ready s id = true) (keys (ds_tasks s)))).
Proof.
  intros Hinv. apply ready_go_reference; [done|]. intros id t. by rewrite elem_of_entries.
Qed.

Definition is_queued (s : DurableSupervisor) (id : Uuid) : bool :=
  match ds_tasks s !! id with Some t => status_is Queued t | None => false end.

Lemma is_queued_spec s id :
  is_queued s id = true ↔ ∃ t, ds_tasks s !! id = Some t ∧ t_status t = Queued.
Proof.
  unfold is_queued. destruct (ds_tasks s !! id); rewrite ?status_is_true; naive_solver.
Qed.

(** A queued task that no other queued task precedes is ready. *)
Lemma queued_source_ready s :
  sup_inv s →
  (∀ id t, ds_tasks s !! id = Some t → t_status t = Queued ∨ t_status t = Completed) →
  (∃ id t, ds_tasks s !! id = Some t ∧ t_status t = Queued) →
  ∃ x, x ∈ filter (λ id, task_ready s id = true) (keys (ds_tasks s)).
Proof.
  intros Hinv Hidle (id0 & t0 & Ht0 & Hq0).
  set (queued := filter (λ id, is_queued s id = true) (keys (ds_tasks s))).
  assert (∀ id, id ∈ queued ↔ ∃ t, ds_tasks s !! id = Some t ∧ t_status t = Queued) as Hqueued.
  { intros id. unfold queued. rewrite list_elem_of_filter, elem_of_keys, is_queued_spec.
    naive_solver. }
  destruct (source_or_cycle (ds_edges s) queued) as [(x & Hx & Hsrc)|[x Hcyc]].
  { intros Hnil. assert (id0 ∈ queued) as Hin by (apply Hqueued; eauto).
    rewrite Hnil in Hin. by apply elem_of_nil in Hin. }
  2:{ by apply (vp_acyclic _ (si_plan _ Hinv)) in Hcyc. }
  exists x. apply Hqueued in Hx as (t & Ht & Hq). apply list_elem_of_filter.
  rewrite elem_of_keys, task_ready_spec by done. split; [|by eauto].
  exists t. split_and!; [done..|]. intros a u Hedge Hu.
  destruct (Hidle a u Hu) as [Hqa|]; [|done]. exfalso. eapply Hsrc; [|exact Hedge].
  apply Hqueued. eauto.
Qed.

(** The snapshot of a supervisor that satisfies the invariant recovers. *)
Lemma recover_total `{Toposort, UuidText} s p d :
  sup_inv s → 1 ≤ p ≤ 8 → d ≠ 0 →
  ∃ s', recover (ds_snapshot s) p d = Ok s' ∧ ds_running s' = [] ∧
    ds_receipts s' = ds_receipts s ∧
    ∀ id, ds_tasks s' !! id =
      (λ t, if decide (id ∈ ds_running s) then recover_task (ds_receipts s) t else t)
        <$> ds_tasks s !! id.
Proof.
  intros Hinv Hp Hd.
  destruct (recover_running_total (ds_receipts s) (ds_running s) (ds_tasks s)) as [m Hm];
    [by apply si_nodup|by apply si_live|].
  assert (is_ok (recover (ds_snapshot s) p d)) as Hok.
  { unfold recover. rewrite (si_version _ Hinv). munfold.
    rewrite (proj2 (validate_ok_iff_lem _) (si_plan _ Hinv)).
    unfold ds_receipts, ds_running, ds_tasks in Hm. rewrite Hm.
    unfold check_bounds. rewrite (proj2 (Nat.leb_le 1 p)), (proj2 (Nat.leb_le p 8)) by lia.
    by rewrite (proj2 (Nat.eqb_neq d 0)). }
  destruct (recover (ds_snapshot s) p d) as [s'| |] eqn:Hrec; [|done..].
  apply recover_ok_inv in Hrec as (_ & ? & ? & _ & _ & ?). eauto.
Qed.

(** ** Theorems *)

(** C2: the supervisor's invariant and panic freedom.  In every state reachable
    from a successful [new] or [recover] by any sequence of calls the plan is
    still valid, the running order lists distinct tasks that are all running,
    and fits the configured parallelism of at most eight; no call panics there,
    and [ready_tasks] does not either. *)
Theorem reachable_states_are_sound `{Toposort, UuidText} s :
  reachable s →
  sup_inv s ∧ (∀ now o, (exec now o s).1 ≠ Panic) ∧ ready_tasks s ≠ Panic.
Proof.
  intros Hinv%reachable_inv. split_and!; [done| |].
  - intros now o. by apply exec_no_panic.
  - by rewrite ready_tasks_reference.
Qed.

(** Bounded parallelism.  Starting from a validated plan in which nothing
    runs yet, after any sequence of calls the running tasks are exactly the
    ones in the running order, so at most [p <= 8] tasks run at once. *)
Theorem running_tasks_are_bounded `{Toposort, UuidText} g p d s0 s :
  new g p d = Ok s0 →
  (∀ id t, tg_tasks g !! id = Some t → t_status t ≠ Running) →
  steps s0 s →
  (∀ id, id ∈ ds_running s ↔ ∃ t, ds_tasks s !! id = Some t ∧ t_status t = Running) ∧
  running_count s ≤ p ∧ p ≤ 8.
Proof.
  intros (Hinv0 & Hrun0 & Hg & _ & Hp)%new_inv Hidle Hsteps.
  assert (sup_inv s) as Hinv by eauto using steps_inv.
  assert (lane_exact s) as Hlane.
  { eapply steps_lane; [done..|]. intros id t Ht Hr. unfold ds_tasks in Ht. rewrite Hg in Ht.
    by apply Hidle in Ht. }
  assert (ds_maximum_parallelism s = p) as Hps.
  { rewrite <- Hp. clear -Hsteps Hinv0. induction Hsteps as [|s now o r s1 s2 Hr _ IH]; [done|].
    rewrite IH by eauto using exec_inv. by apply (st_par _ _ (exec_step _ _ _ _ _ Hinv0 Hr)). }
  pose proof (si_bounds _ Hinv) as Hb. pose proof (si_lane _ Hinv) as Hlen.
  split_and!; [|etrans; [|rewrite <- Hps; exact Hlen]|lia].
  - intros id. split; [apply (si_live _ Hinv)|]. intros (t & ? & ?). eauto.
  - apply count_values_le. intros id t ? ?%status_is_true. eauto.
Qed.


(** Attempts are bounded.  If no task of the plan has used more attempts
    than its retry policy allows, no sequence of calls makes one exceed it. *)
Theorem attempts_never_exceed_policy `{Toposort, UuidText} s s' :
  reachable s →
  (∀ id t, ds_tasks s !! id = Some t → (t_attempt t <= t_max_attempts t)%N) →
  steps s s' →
  ∀ id t, ds_tasks s' !! id = Some t → (t_attempt t <= t_max_attempts t)%N.
Proof.
  intros Hinv%reachable_inv Hall Hsteps. revert Hinv Hall.
  induction Hsteps as [|s now o r s1 s2 Hrun _ IH]; [done|]. intros Hinv Hall.
  apply IH; [by eapply exec_inv|]. intros id t1 Ht1.
  destruct (exec_step _ _ _ _ _ Hinv Hrun) as [_ _ _ _ _ Htasks].
  specialize (Htasks id). rewrite Ht1 in Htasks. inversion Htasks as [t ? Hs Ht|]; subst.
  rewrite (ts_max _ _ Hs). symmetry in Ht. specialize (Hall id t Ht).
  destruct (ts_attempt _ _ Hs) as [->|(_ & _ & ? & ->)]; [done|]. unfold sat_add. lia.
Qed.

(** The effect of an in-flight task is proven to have happened. *)
Definition effect_proven (receipts : gmap string EffectReceipt) (t : Task) : Prop :=
  ∃ k r, t_idempotency_key t = Some k ∧ receipts !! k = Some r ∧ er_verified r = true.

(** Running the task again cannot duplicate an effect, and it may be tried again. *)
Definition replayable (t : Task) : Prop :=
  ((t_risk t ≠ "consequential" ∧ t_risk t ≠ "irreversible") ∨ is_Some (t_idempotency_key t)) ∧
  (t_attempt t < t_max_attempts t)%N.

Lemma recover_task_spec receipts t :
  (effect_proven receipts t → recover_task receipts t = set_progress 100 (set_status Completed t)) ∧
  (¬ effect_proven receipts t → replayable t → recover_task receipts t = set_status Queued t) ∧
  (¬ effect_proven receipts t → ¬ replayable t → recover_task receipts t = set_status Waiting t).
Proof.
  assert (match k ← t_idempotency_key t; receipts !! k with Some r => er_verified r | None => false end
    = true ↔ effect_proven receipts t) as Hp.
  { unfold effect_proven. destruct (t_idempotency_key t) as [k|]; simpl; [|naive_solver].
    destruct (receipts !! k) as [r|] eqn:Hk; naive_solver. }
  assert (retry_safe t && (t_attempt t <? t_max_attempts t)%N = true ↔ replayable t) as Hr.
  { unfold retry_safe, replayable, is_consequential.
    rewrite andb_true_iff, orb_true_iff, negb_true_iff, orb_false_iff, !bool_decide_eq_false,
      bool_decide_eq_true, N.ltb_lt. done. }
  unfold recover_task. repeat case_match; intuition discriminate.
Qed.


(** C3: a consequential effect completes at most once.  Once a consequential
    task with idempotency key [k] has completed, then after any further sequence
    of calls, crashes and recoveries every later attempt to complete a
    consequential task under the same key, be it the same task or another, is
    rejected and changes nothing. *)
Theorem effect_completes_at_most_once `{Toposort, UuidText} s now id t k out v fp s1 :
  reachable s → ds_tasks s !! id = Some t → is_consequential t = true →
  t_idempotency_key t = Some k → complete now id out v fp s = (Ok (), s1) →
  ∀ s2, history s1 s2 → ∀ now' id' t' out' v' fp',
    ds_tasks s2 !! id' = Some t' → is_consequential t' = true → t_idempotency_key t' = Some k →
    ∃ e, complete now' id' out' v' fp' s2 = (Err e, s2).
Proof.
  intros Hinv%reachable_inv Ht Hcons Hk Hrun s2 Hhist now' id' t' out' v' fp' Ht' Hcons' Hk'.
  assert (sup_inv s1) as Hinv1 by (eapply (exec_inv now (OComplete id out v fp)); done).
  destruct (complete_ok_receipt _ _ _ _ _ _ _ _ _ Hrun Ht Hcons Hk) as [(r & Hr & Hrid) (t1 & Ht1 & Hc1)].
  destruct (history_monotone _ _ Hhist Hinv1) as [Hrc Htasks].
  assert (ds_receipts s2 !! k = Some r) as Hr2 by by eapply lookup_weaken.
  destruct (Htasks id t1 Ht1) as (t2 & Ht2 & _ & _ & Hc2). specialize (Hc2 Hc1).
  unfold complete, record_receipt, task_of, put_task, unlist. munfold. rewrite Ht'. munfold.
  destruct (negb (status_is Running t') || negb v') eqn:Hg; [eauto|].
  reflect_guards. rewrite Hcons', Hk'. munfold. destruct fp' as [fp'|]; munfold; [|eauto].
  rewrite Hr2. destruct (negb (bool_decide (_ = fp')) || _) eqn:Hdiff; [by eauto|].
  reflect_guards. simplify_eq. congruence.
Qed.

(** The scheduler makes progress and is fair to the plan.  [ready_tasks] is
    the list, in key order, of the queued tasks whose dependencies are all
    completed, cut at the free slots; and as long as work remains and nothing is
    suspended, failed or running, it is not empty: an acyclic plan cannot
    deadlock. *)
Theorem idle_plan_has_ready_work `{Toposort, UuidText} s :
  reachable s →
  (∀ id t, ds_tasks s !! id = Some t → t_status t = Queued ∨ t_status t = Completed) →
  (∃ id t, ds_tasks s !! id = Some t ∧ t_status t = Queued) →
  ∃ ids, ready_tasks s = Ok ids ∧ ids ≠ [] ∧
    ids = take (ds_maximum_parallelism s)
            (filter (λ id, task_ready s id = true) (keys (ds_tasks s))).
Proof.
  intros Hinv%reachable_inv Hidle (id0 & t0 & Ht0 & Hq0).
  assert (running_count s = 0) as Hnone.
  { apply count_values_zero. intros id t Ht. apply status_is_false.
    destruct (Hidle id t Ht); congruence. }
  eexists. split_and!; [by apply ready_tasks_reference| |by rewrite Hnone, Nat.sub_0_r].
  rewrite Hnone, Nat.sub_0_r. pose proof (si_bounds _ Hinv) as [Hp _].
  destruct (queued_source_ready s) as [x Hready]; [done..|eauto|].
  destruct (filter _ _) as [|y l]; [by apply elem_of_nil in Hready|].
  by destruct (ds_maximum_parallelism s); [lia|].
Qed.

(** ** Starting ready work *)

(** The lane never holds more than the running tasks. *)
Lemma lane_le_count s : sup_inv s → length (ds_running s) ≤ running_count s.
Proof.
  intros Hinv. apply count_values_ge; [by apply si_nodup|].
  intros id Hin. destruct (si_live _ Hinv id Hin) as (t & ? & ?).
  exists t. by rewrite status_is_true.
Qed.

(** What the scheduler offers can be started.  A task returned by
    [ready_tasks] that has attempts left and, if consequential, an idempotency
    key, starts: it becomes running in a lane slot with its attempt counter
    advanced by one. *)
Theorem ready_work_starts `{Toposort, UuidText} s ids id t :
  reachable s → ready_tasks s = Ok ids → id ∈ ids → ds_tasks s !! id = Some t →
  (t_attempt t < t_max_attempts t)%N → (t_max_attempts t <= u16_max)%N →
  (is_consequential t = true → is_Some (t_idempotency_key t)) →
  ∃ s', start id s = (Ok (Start id (t_attempt t + 1)), s') ∧ ds_running s' = ds_running s ++ [id] ∧
    ∃ t', ds_tasks s' !! id = Some t' ∧ t_status t' = Running ∧ t_attempt t' = (t_attempt t + 1)%N.
Proof.
  intros Hinv%reachable_inv Hready Hin Ht Hatt Hmax Hkey.
  rewrite ready_tasks_reference in Hready by done. injection Hready as <-.
  assert (running_count s < ds_maximum_parallelism s) as Hfree.
  { destruct (ds_maximum_parallelism s - running_count s) eqn:Hz; [|lia].
    simpl in Hin. by apply elem_of_nil in Hin. }
  assert (task_ready s id = true) as Hr.
  { apply elem_of_take in Hin as (i & Hi & _).
    by apply list_elem_of_lookup_2, list_elem_of_filter in Hi as [? _]. }
  pose proof (lane_le_count s Hinv) as Hlane.
  assert (t_status t = Queued) as Hq.
  { apply task_ready_spec in Hr as (? & ? & ? & _); [|done]. congruence. }
  pose proof (deps_ready s id t Hinv Ht Hq) as Hdeps. rewrite Hr in Hdeps.
  assert (is_consequential t && bool_decide (t_idempotency_key t = None) = false) as Hk.
  { destruct (is_consequential t); [|done]. destruct Hkey as [k ->]; done. }
  unfold start, task_of, put_task, enlist. munfold. rewrite Ht. munfold.
  assert (status_is Completed t = false ∧ status_is Queued t = true) as [-> ->]
    by (by rewrite status_is_false, status_is_true, Hq).
  rewrite Hdeps. munfold. rewrite (proj2 (N.leb_gt _ _)), Hk by lia. munfold.
  rewrite (proj2 (Nat.leb_gt _ _)) by lia. munfold. rewrite Ht. munfold.
  rewrite sat_add_exact by lia.
  eexists. split_and!; [done..|]. eexists. rewrite upd_task_lane, ds_tasks_upd, lookup_insert_eq.
  done.
Qed.

(** ** Delegation *)

Definition parent_rel (tasks : gmap Uuid Task) (a b : Uuid) : Prop :=
  ∃ t, tasks !! a = Some t ∧ t_parent_task_id t = Some b.

(** The chain of ancestors of a task, nearest first. *)
Inductive ancestors (tasks : gmap Uuid Task) : option Uuid → list Uuid → Prop :=
  | anc_root : ancestors tasks None []
  | anc_parent id t l :
      tasks !! id = Some t → ancestors tasks (t_parent_task_id t) l →
      ancestors tasks (Some id) (id :: l).

Lemma ancestry_Ok tasks fuel depth cursor n :
  ancestry tasks fuel depth cursor = Some (Ok n) →
  ∃ l, ancestors tasks cursor l ∧ n = depth + length l.
Proof.
  revert depth cursor; induction fuel as [|fuel IH]; intros depth [id|]; simpl; try done.
  - intros [= ->]. exists []. split; [constructor|simpl; lia].
  - destruct (tasks !! id) as [t|] eqn:Ht; [|done]. intros (l & Hl & ->)%IH.
    exists (id :: l). split; [by econstructor|simpl; lia].
  - intros [= ->]. exists []. split; [constructor|simpl; lia].
Qed.

Lemma ancestry_never_panics tasks fuel depth cursor :
  ancestry tasks fuel depth cursor ≠ Some Panic.
Proof.
  revert depth cursor; induction fuel as [|fuel IH]; intros depth [id|]; simpl; try done.
  by destruct (tasks !! id).
Qed.

(** Running out of fuel exhibits a chain of that many tasks. *)
Lemma ancestry_None tasks fuel depth id :
  ancestry tasks fuel depth (Some id) = None →
  ∃ l, length l = fuel ∧ head l = (if fuel is 0 then None else Some id) ∧
    Sorted (parent_rel tasks) l ∧ ∀ x, x ∈ l → is_Some (tasks !! x).
Proof.
  revert depth id; induction fuel as [|fuel IH]; intros depth id; simpl.
  { intros _. exists []. split_and!; [done..|constructor|set_solver]. }
  destruct (tasks !! id) as [t|] eqn:Ht; [|done].
  destruct (t_parent_task_id t) as [id'|] eqn:Hp; [|by destruct fuel].
  intros (l & Hlen & Hhd & Hs & Hl)%IH. exists (id :: l). split_and!; [simpl; lia|done|..].
  - constructor; [done|]. destruct l as [|x l]; constructor.
    destruct fuel; simplify_eq/=. by exists t.
  - intros x [->|]%elem_of_cons; eauto.
Qed.

(** Enough fuel for the depth loop: one more than the number of tasks. *)
Lemma ancestry_terminates tasks fuel depth cursor :
  (∀ x, ¬ tc (parent_rel tasks) x x) → size tasks < fuel →
  ancestry tasks fuel depth cursor ≠ None.
Proof.
  intros Hac Hfuel Hnone. destruct cursor as [id|]; [|by destruct fuel].
  apply ancestry_None in Hnone as (l & Hlen & _ & Hs & Hl).
  assert (StronglySorted (tc (parent_rel tasks)) l) as Hss.
  { apply Sorted_StronglySorted; [apply _|]. eapply Sorted_ind; [constructor| |exact Hs].
    intros a k _ IHk Hhd. constructor; [done|]. destruct Hhd; constructor. by apply tc_once. }
  apply StronglySorted_NoDup_or in Hss as [Hnd|[x ?]]; [|by eapply Hac].
  assert (l ⊆+ keys tasks) as Hsub%submseteq_length.
  { apply NoDup_submseteq; [done|]. intros x Hx. rewrite elem_of_keys. auto. }
  unfold keys in Hsub. rewrite length_fmap, entries_perm, length_map_to_list in Hsub. lia.
Qed.

(** What a successful delegation check establishes about the parent. *)
Lemma delegation_ok fuel s child :
  validate_delegation fuel s child = Some (Ok ()) →
  ∃ l, ancestors (ds_tasks s) (t_parent_task_id child) l ∧
    (l ≠ [] → length l ≤ ds_maximum_delegation_depth s) ∧
    ∀ parent_id parent, t_parent_task_id child = Some parent_id →
      ds_tasks s !! parent_id = Some parent →
      t_tool_scopes child ⊆ t_tool_scopes parent ∧
      (zone_rank (t_execution_zone child) <= zone_rank (t_execution_zone parent))%N.
Proof.
  unfold validate_delegation. destruct (t_parent_task_id child) as [pid|]; [|].
  2:{ intros _. exists []. split_and!; [constructor|done|done]. }
  destruct (ds_tasks s !! pid) as [parent|] eqn:Hp; [|done].
  destruct (negb _) eqn:Hscopes; [done|]. destruct (_ <? _)%N eqn:Hzone; [done|].
  destruct (ancestry _ _ _ _) as [[n| |]|] eqn:Hanc; try done.
  destruct (_ <? n) eqn:Hdepth; [done|]. intros _. reflect_guards.
  apply ancestry_Ok in Hanc as (l & Hl & ->). apply Nat.ltb_ge in Hdepth. apply N.ltb_ge in Hzone.
  exists (pid :: l). split_and!; [by econstructor|done|]. intros ? ? [= <-] ?. by simplify_eq.
Qed.

(** Delegated work never gains authority.  If the tasks of the plan and a
    child all pass [validate_delegation], the child has a finite chain of
    ancestors no longer than the configured depth, and its tool scopes and
    execution zone are within those of every ancestor, not only of its parent. *)
Theorem delegation_never_widens_authority fuel s child :
  (∀ id t, ds_tasks s !! id = Some t → ∃ n, validate_delegation n s t = Some (Ok ())) →
  validate_delegation fuel s child = Some (Ok ()) →
  ∃ l, ancestors (ds_tasks s) (t_parent_task_id child) l ∧
    (l ≠ [] → length l ≤ ds_maximum_delegation_depth s) ∧
    ∀ id t, id ∈ l → ds_tasks s !! id = Some t →
      t_tool_scopes child ⊆ t_tool_scopes t ∧
      (zone_rank (t_execution_zone child) <= zone_rank (t_execution_zone t))%N.
Proof.
  intros Hall (l & Hanc & Hlen & Hparent)%delegation_ok. exists l. split_and!; [done..|].
  clear fuel Hlen. remember (t_parent_task_id child) as cursor eqn:Hc.
  revert child Hc Hparent. induction Hanc as [|pid parent l Hp Hanc IH]; intros child Hc Hparent;
    [set_solver|].
  destruct (Hparent pid parent eq_refl Hp) as [Hs Hz].
  intros id t [->|Hin]%elem_of_cons Ht; [by simplify_eq|].
  destruct (Hall pid parent Hp) as (n & (l' & _ & _ & Hpar)%delegation_ok).
  destruct (IH parent eq_refl Hpar id t Hin Ht). split; [by etrans|lia].
Qed.

(** The delegation check terminates on acyclic parentage.  When no task is
    its own ancestor, one more iteration than there are tasks is enough for the
    depth loop, and the check returns without panicking. *)
Theorem delegation_check_terminates s child fuel :
  (∀ x, ¬ tc (parent_rel (ds_tasks s)) x x) → size (ds_tasks s) < fuel →
  ∃ r, validate_delegation fuel s child = Some r ∧ r ≠ Panic.
Proof.
  intros Hac Hfuel. unfold validate_delegation. repeat (case_match; try by eauto).
  all: exfalso; first
    [ by eapply (ancestry_never_panics (ds_tasks s) fuel 1); eassumption
    | by eapply (ancestry_terminates (ds_tasks s) fuel 1); eassumption ].
Qed.

(** ** Concrete runs *)

Definition run_ops (ops : list op) (s : DurableSupervisor) : DurableSupervisor :=
  foldl (λ s o, (exec 0%Z o s).2) s ops.

Lemma steps_run_ops ops s : steps s (run_ops ops s).
Proof.
  revert s; induction ops as [|o ops IH]; intros s; [constructor|].
  destruct (exec 0%Z o s) as [r s1] eqn:Hrun. eapply (steps_exec s 0%Z o r s1); [done|].
  unfold run_ops. simpl. rewrite Hrun. apply IH.
Qed.

(** A supervisor built by [new], or an arbitrary one when [new] fails. *)
Definition boot_with (g : TaskGraph) : DurableSupervisor :=
  match new g 3 3 with
  | Ok s => s
  | _ => mkDurableSupervisor (mkSupervisorSnapshot 0 g ∅ [] 0) 0 0
  end.

Definition publish_task (id : Uuid) (parent : option Uuid) : Task :=
  mkTask id 7%N parent "publish" "executor" None None {["files.read"]} "consequential" Workspace
    3%N 0%N (Some "publish:release-1") None Queued 0%N None.
Definition publish_graph : TaskGraph :=
  mkTaskGraph 7%N 1%N
    (list_to_map [(1%N, publish_task 1%N None); (2%N, publish_task 2%N (Some 1%N))]) [].

(** Task 1 published and completed; task 2, under the same key, is in flight. *)
Definition published : DurableSupervisor :=
  run_ops [OStart 1%N; OComplete 1%N VNull true (Some "sha256:a"); OStart 2%N]
    (boot_with publish_graph).

Lemma published_reachable : reachable published.
Proof.
  exists (boot_with publish_graph). split; [|apply steps_run_ops].
  left. exists publish_graph, 3, 3. vm_compute. reflexivity.
Qed.

(** Recovery accepts a receipt that belongs to another task.  An in-flight
    consequential task whose idempotency key has a verified receipt recorded for
    a different task is marked completed by [recover], although [complete]
    rejects that very task as a reuse of the key in every circumstance. *)
Theorem recovery_accepts_foreign_receipt `{Toposort, UuidText} s p d id t k r :
  reachable s → 1 ≤ p ≤ 8 → d ≠ 0 → id ∈ ds_running s → ds_tasks s !! id = Some t →
  is_consequential t = true → t_idempotency_key t = Some k → ds_receipts s !! k = Some r →
  er_verified r = true → er_task_id r ≠ id →
  (∃ s' t', recover (ds_snapshot s) p d = Ok s' ∧ ds_tasks s' !! id = Some t' ∧
     t_status t' = Completed) ∧
  ∀ now out v fp, ∃ e, complete now id out v fp s = (Err e, s).
Proof.
  intros Hinv%reachable_inv Hp Hd Hin Ht Hcons Hk Hr Hv Hne. split.
  - destruct (recover_total s p d Hinv Hp Hd) as (s' & Hrec & _ & _ & Hlook).
    exists s'. specialize (Hlook id). rewrite Ht in Hlook. simpl in Hlook.
    rewrite decide_True in Hlook by done. eexists. split_and!; [done..|].
    unfold recover_task. rewrite Hk. simpl. by rewrite Hr, Hv.
  - intros now out v fp.
    unfold complete, record_receipt, task_of, put_task, unlist. munfold. rewrite Ht. munfold.
    destruct (negb (status_is Running t) || negb v); [eauto|].
    rewrite Hcons, Hk. munfold. destruct fp as [fp|]; munfold; [|eauto].
    rewrite Hr, (bool_decide_eq_false_2 _ Hne), orb_true_r. eauto.
Qed.

(** The delegation check need not terminate.  [new] accepts a plan in which
    a task is its own parent (only the dependency edges are checked for cycles),
    and for a child of that task the depth loop of [validate_delegation] runs
    out of any amount of fuel. *)
Theorem delegation_check_can_diverge :
  ∃ g s child, new g 3 3 = Ok s ∧ ∀ fuel, validate_delegation fuel s child = None.
Proof.
  set (g := mkTaskGraph 7%N 1%N (list_to_map [(1%N, publish_task 1%N (Some 1%N))]) []).
  exists g, (boot_with g), (publish_task 2%N (Some 1%N)). split; [vm_compute; reflexivity|].
  intros fuel. unfold validate_delegation. simpl.
  change (ds_tasks (boot_with g) !! 1%N) with (Some (publish_task 1%N (Some 1%N))). simpl.
  rewrite bool_decide_eq_true_2 by done. simpl.
  assert (∀ n d, ancestry (ds_tasks (boot_with g)) n d (Some 1%N) = None) as Hloop.
  { induction n as [|n IH]; intros d; [done|]. cbn [ancestry].
    change (ds_tasks (boot_with g) !! 1%N) with (Some (publish_task 1%N (Some 1%N))). apply IH. }
  by rewrite Hloop.
Qed.

(** ** Witnesses *)

Lemma reachable_states_are_sound_witness : (exec 0%Z (OStart 2%N) published).1 ≠ Panic.
Proof. apply (reachable_states_are_sound published published_reachable). Defined.

Lemma running_tasks_are_bounded_witness : running_count published ≤ 3.
Proof.
  apply (running_tasks_are_bounded publish_graph 3 3 (boot_with publish_graph) published).
  - vm_compute. reflexivity.
  - intros id t Ht%elem_of_list_to_map_2.
    repeat (apply elem_of_cons in Ht as [[= -> ->]|Ht]; [done|]). by apply elem_of_nil in Ht.
  - apply steps_run_ops.
Defined.


Definition task_at (s : DurableSupervisor) (id : Uuid) : Task :=
  default (publish_task id None) (ds_tasks s !! id).

Lemma publish_boot_reachable : reachable (boot_with publish_graph).
Proof.
  exists (boot_with publish_graph). split; [|constructor]. left. exists publish_graph, 3, 3.
  vm_compute. reflexivity.
Qed.

(** Check a property of the two tasks of a concrete map. *)
Ltac each_task :=
  let Ht := fresh in
  intros ? ? Ht%elem_of_list_to_map_2;
  repeat (apply elem_of_cons in Ht as [[= -> ->]|Ht]; [|]); try by apply elem_of_nil in Ht.

Lemma attempts_never_exceed_policy_witness :
  (t_attempt (task_at published 2%N) <= t_max_attempts (task_at published 2%N))%N.
Proof.
  apply (attempts_never_exceed_policy (boot_with publish_graph) published
    publish_boot_reachable) with (id := 2%N).
  - change (ds_tasks (boot_with publish_graph)) with (tg_tasks publish_graph).
    each_task; by vm_compute.
  - apply steps_run_ops.
  - vm_compute. reflexivity.
Defined.

Definition first_started : DurableSupervisor := run_ops [OStart 1%N] (boot_with publish_graph).

Lemma first_started_reachable : reachable first_started.
Proof.
  destruct publish_boot_reachable as (s0 & Hb & _). exists (boot_with publish_graph).
  split; [|apply steps_run_ops]. left. exists publish_graph, 3, 3. vm_compute. reflexivity.
Qed.


Lemma effect_completes_at_most_once_witness :
  ∃ e, complete 0%Z 2%N VNull true (Some "sha256:b") published = (Err e, published).
Proof.
  eapply (effect_completes_at_most_once first_started 0%Z 1%N _ "publish:release-1" VNull true
    (Some "sha256:a") (run_ops [OComplete 1%N VNull true (Some "sha256:a")] first_started)
    first_started_reachable).
  - vm_compute. reflexivity.
  - vm_compute. reflexivity.
  - vm_compute. reflexivity.
  - vm_compute. reflexivity.
  - eapply (history_exec _ 0%Z (OStart 2%N)); [|apply history_refl]. vm_compute. reflexivity.
  - vm_compute. reflexivity.
  - vm_compute. reflexivity.
  - vm_compute. reflexivity.
Defined.

Lemma idle_plan_has_ready_work_witness :
  ∃ ids, ready_tasks (boot_with publish_graph) = Ok ids ∧ ids ≠ [] ∧
    ids = take (ds_maximum_parallelism (boot_with publish_graph))
            (filter (λ id, task_ready (boot_with publish_graph) id = true)
               (keys (ds_tasks (boot_with publish_graph)))).
Proof.
  apply (idle_plan_has_ready_work (boot_with publish_graph) publish_boot_reachable).
  - change (ds_tasks (boot_with publish_graph)) with (tg_tasks publish_graph).
    each_task; by left.
  - exists 1%N, (publish_task 1%N None). split; vm_compute; reflexivity.
Defined.

Lemma ready_work_starts_witness :
  ∃ s', start 1%N (boot_with publish_graph) = (Ok (Start 1%N 1%N), s') ∧
    ds_running s' = ds_running (boot_with publish_graph) ++ [1%N] ∧
    ∃ t', ds_tasks s' !! 1%N = Some t' ∧ t_status t' = Running ∧ t_attempt t' = 1%N.
Proof.
  apply (ready_work_starts (boot_with publish_graph) [1%N; 2%N] 1%N (publish_task 1%N None)
    publish_boot_reachable).
  - vm_compute. reflexivity.
  - by left.
  - vm_compute. reflexivity.
  - vm_compute. reflexivity.
  - vm_compute. discriminate.
  - intros _. by eexists.
Defined.

Lemma delegation_never_widens_authority_witness :
  ∃ l, ancestors (ds_tasks published) (Some 1%N) l ∧
    (l ≠ [] → length l ≤ 3) ∧
    ∀ id t, id ∈ l → ds_tasks published !! id = Some t →
      {["files.read"]} ⊆ t_tool_scopes t ∧ (1 <= zone_rank (t_execution_zone t))%N.
Proof.
  apply (delegation_never_widens_authority 3 published (publish_task 2%N (Some 1%N))).
  - intros id t Ht. exists 3. revert id t Ht.
    assert (map_Forall (λ _ t, validate_delegation 3 published t = Some (Ok ()))
      (ds_tasks published)) as Hall; [|exact Hall].
    change (ds_tasks published) with
      (<[1%N := task_at published 1%N]> (<[2%N := task_at published 2%N]> (∅ : gmap Uuid Task))).
    apply map_Forall_insert_2; [vm_compute; reflexivity|].
    apply map_Forall_insert_2; [vm_compute; reflexivity|apply map_Forall_empty].
  - vm_compute. reflexivity.
Defined.

Lemma delegation_check_terminates_witness :
  ∃ r, validate_delegation 3 (boot_with sample_graph) (publish_task 2%N (Some 1%N)) = Some r ∧
    r ≠ Panic.
Proof.
  apply (delegation_check_terminates (boot_with sample_graph)).
  - assert (∀ a b, ¬ parent_rel (ds_tasks (boot_with sample_graph)) a b) as Hno.
    { intros a b (t & Ht & Hp). revert a t Ht Hp.
      change (ds_tasks (boot_with sample_graph)) with (tg_tasks sample_graph).
      each_task; done. }
    intros x Hx. inversion Hx; by eapply Hno.
  - vm_compute. lia.
Defined.

Lemma recovery_accepts_foreign_receipt_witness :
  (∃ s' t', recover (ds_snapshot published) 3 3 = Ok s' ∧ ds_tasks s' !! 2%N = Some t' ∧
     t_status t' = Completed) ∧
  ∀ now out v fp, ∃ e, complete now 2%N out v fp published = (Err e, published).
Proof.
  eapply (recovery_accepts_foreign_receipt published 3 3 2%N _ "publish:release-1" _
    published_reachable); [lia|lia|..].
  - by apply (bool_decide_unpack _); vm_compute.
  - vm_compute. reflexivity.
  - vm_compute. reflexivity.
  - vm_compute. reflexivity.
  - vm_compute. reflexivity.
  - vm_compute. reflexivity.
  - vm_compute. discriminate.
Defined.
