(* ===== verification/Redaction.v ===== *)
(** * Secret redaction of tool output

    Models [redact_secrets] and its detectors in [crates/tools/src/lib.rs]:
    the sentinel substrings, the AWS and provider key runs, JSON web tokens and
    [key = long value] assignments.  Text is its list of bytes. *)

From stdpp Require Import base gmap strings list.
From Stdlib Require Import Ascii.
From S2P Require Import Prelude.

(** ** Byte classes *)

Definition is_base64_url_byte (c : ascii) : bool :=
  is_ascii_alphanumeric c || bool_decide (c ∈ ["-"%char; "_"%char; "="%char]).
Definition is_base64_byte (c : ascii) : bool :=
  is_base64_url_byte c || bool_decide (c ∈ ["+"%char; "/"%char]).
Definition is_quote (c : ascii) : bool := bool_decide (c ∈ ["'"%char; "034"%char]).
Definition is_assign (c : ascii) : bool := bool_decide (c ∈ [":"%char; "="%char]).

(** ** Scanners *)

(** [text[start..]] for [start] in [0..text.len()]. *)
Fixpoint suffixes (l : list ascii) : list (list ascii) :=
  match l with [] => [] | _ :: l' => l :: suffixes l' end.

(** What follows each match of [text.match_indices(prefix)]: the matches are
    found from left to right and do not overlap. *)
Fixpoint match_rests (fuel : nat) (prefix l : list ascii) : list (list ascii) :=
  match fuel with
  | O => []
  | S fuel =>
    match strip_prefix prefix l with
    | Some rest => rest :: match_rests fuel prefix rest
    | None => match l with [] => [] | _ :: l' => match_rests fuel prefix l' end
    end
  end.

Definition contains_prefixed_run (text prefix : list ascii) (minimum_length : nat)
    (allowed : ascii → bool) : bool :=
  existsb (λ rest, minimum_length <=? length (take_while allowed rest))
    (match_rests (S (length text)) prefix text).

(** The body of the closure of [contains_jwt], at one start position. *)
Definition jwt_at (l : list ascii) : bool :=
  match strip_prefix (bytes "eyJ") l with
  | None => false
  | Some l1 =>
    match drop_while is_base64_url_byte l1 with
    | "."%char :: l2 =>
      if bool_decide (take_while is_base64_url_byte l2 = []) then false
      else
        match drop_while is_base64_url_byte l2 with
        | "."%char :: c :: _ => is_base64_url_byte c
        | _ => false
        end
    | _ => false
    end
  end.
Definition contains_jwt (text : list ascii) : bool := existsb jwt_at (suffixes text).

(** [if bytes.get(cursor) is a quote { cursor += 1 }] *)
Definition skip_quote (l : list ascii) : list ascii :=
  match l with c :: l' => if is_quote c then l' else l | [] => [] end.
Definition skip_whitespace : list ascii → list ascii := drop_while is_ascii_whitespace.

(** The body of the inner closure of [contains_keyed_long_secret]. *)
Definition keyed_at (l key : list ascii) : bool :=
  if (length key <=? length l) && eq_ignore_ascii_case (take (length key) l) key then
    match skip_whitespace (skip_quote (drop (length key) l)) with
    | c :: l1 =>
      if is_assign c then
        32 <=? length (take_while is_base64_byte (skip_quote (skip_whitespace l1)))
      else false
    | [] => false
    end
  else false.
Definition KEY_NAMES : list (list ascii) :=
  [bytes "token"; bytes "secret"; bytes "key"; bytes "password"].
Definition contains_keyed_long_secret (text : list ascii) : bool :=
  existsb (λ l, existsb (keyed_at l) KEY_NAMES) (suffixes text).

Definition aws_byte (c : ascii) : bool := is_ascii_uppercase c || is_ascii_digit c.
Definition provider_key_byte (c : ascii) : bool :=
  is_ascii_alphanumeric c || bool_decide (c ∈ ["-"%char; "_"%char]).

Definition contains_secret_pattern (text : string) : bool :=
  let l := bytes text in
  str_contains text "-----BEGIN"
  || str_contains text "Bearer "
  || str_contains text "sk-"
  || str_contains text "ghp_"
  || str_contains text "github_pat_"
  || contains_prefixed_run l (bytes "AKIA") 16 aws_byte
  || contains_prefixed_run l (bytes "sk-") 20 provider_key_byte
  || existsb (str_contains text) ["xoxb-"; "xoxa-"; "xoxp-"; "xoxr-"; "xoxs-"]
  || contains_jwt l
  || contains_keyed_long_secret l.

Definition redact_secret_text (text : string) : string :=
  if contains_secret_pattern text then "[REDACTED]" else text.

(** ** Redaction of a value *)

Definition secret_words : list string := ["secret"; "password"; "token"; "api_key"; "credential"].
Definition secret_key (key : string) : bool :=
  existsb (str_contains (to_ascii_lowercase key)) secret_words.

Fixpoint redact_secrets (value : Value) : Value :=
  match value with
  | VObject map =>
    VObject ((λ kv : string * Value,
      (kv.1, if secret_key kv.1 then VString "[REDACTED]" else redact_secrets kv.2)) <$> map)
  | VArray items => VArray (redact_secrets <$> items)
  | VString text => VString (redact_secret_text text)
  | other => other
  end.

(** ** Declarative shapes *)

Definition all (f : ascii → bool) (l : list ascii) : Prop := Forall (λ c, f c = true) l.

(** A prefix followed by a run of at least [n] bytes of a class. *)
Definition prefixed_run (prefix : list ascii) (n : nat) (f : ascii → bool) (l : list ascii) : Prop :=
  ∃ a run b, l = a ++ prefix ++ run ++ b ∧ all f run ∧ length run = n.

(** [eyJ...], a dot, a nonempty segment, a dot, and the start of a third segment. *)
Definition jwt_shape (l : list ascii) : Prop :=
  ∃ a s1 s2 c b,
    l = a ++ bytes "eyJ" ++ s1 ++ "."%char :: s2 ++ "."%char :: c :: b ∧
    all is_base64_url_byte s1 ∧ all is_base64_url_byte s2 ∧ s2 ≠ [] ∧
    is_base64_url_byte c = true.

Definition optional_quote (l : list ascii) : Prop :=
  l = [] ∨ ∃ q, l = [q] ∧ is_quote q = true.

(** A key name in any case, an optional quote, an assignment sign and 32 or more
    base64 bytes, with blanks around the sign. *)
Definition keyed_shape (l : list ascii) : Prop :=
  ∃ a k q1 w1 c w2 q2 run b,
    l = a ++ k ++ q1 ++ w1 ++ c :: w2 ++ q2 ++ run ++ b ∧
    (∃ key, key ∈ KEY_NAMES ∧ length k = length key ∧ eq_ignore_ascii_case k key = true) ∧
    optional_quote q1 ∧ all is_ascii_whitespace w1 ∧ is_assign c = true ∧
    all is_ascii_whitespace w2 ∧ optional_quote q2 ∧ all is_base64_byte run ∧ length run = 32.

(** Text that a detector must flag, as a disjunction of shapes. *)
Definition secret_shape (text : string) : Prop :=
  (∃ p, p ∈ ["-----BEGIN"; "Bearer "; "sk-"; "ghp_"; "github_pat_";
             "xoxb-"; "xoxa-"; "xoxp-"; "xoxr-"; "xoxs-"] ∧
        ∃ a b, bytes text = a ++ bytes p ++ b) ∨
  prefixed_run (bytes "AKIA") 16 aws_byte (bytes text) ∨
  jwt_shape (bytes text) ∨
  keyed_shape (bytes text).

(** ** Scanner lemmas *)

Lemma elem_of_suffixes s l : s ∈ suffixes l ↔ s ≠ [] ∧ ∃ a, l = a ++ s.
Proof.
  induction l as [|c l IH]; simpl.
  - rewrite elem_of_nil. split; [done|]. intros (Hs & a & Ha). by destruct a, s.
  - rewrite elem_of_cons, IH. split.
    + intros [->|(? & a & ->)]; [split; [done|by exists []]|split; [done|by exists (c :: a)]].
    + intros (Hs & [|d a] & Ha); simplify_eq/=; eauto.
Qed.

Lemma existsb_suffixes (f : list ascii → bool) l :
  f [] = false → existsb f (suffixes l) = true ↔ ∃ a s, l = a ++ s ∧ f s = true.
Proof.
  intros Hnil. rewrite existsb_exists. setoid_rewrite <- list_elem_of_In.
  setoid_rewrite elem_of_suffixes. split; [naive_solver|].
  intros (a & s & -> & Hs). exists s. split_and!; [by intros ->; congruence|eauto|done].
Qed.

Lemma dot_not_base64 : is_base64_url_byte "."%char = false.
Proof. reflexivity. Qed.

(** Byte classes that exclude one another, checked on all 256 bytes. *)
Lemma byte_cases (P : ascii → bool) : forallb P (ascii_of_N <$> (N.of_nat <$> seq 0 256)) = true →
  ∀ c, P c = true.
Proof.
  intros Hall c. rewrite forallb_forall in Hall. apply Hall, list_elem_of_In.
  rewrite <- (ascii_N_embedding c). apply list_elem_of_fmap_2, list_elem_of_fmap.
  exists (N.to_nat (N_of_ascii c)). split; [lia|]. apply elem_of_seq.
  pose proof (N_ascii_bounded c). lia.
Qed.

Lemma blank_not_assign c : is_assign c = true → is_ascii_whitespace c = false ∧ is_quote c = false.
Proof.
  revert c. assert (∀ c, implb (is_assign c)
    (negb (is_ascii_whitespace c) && negb (is_quote c)) = true) as H by by apply byte_cases.
  intros c Hc. specialize (H c). rewrite Hc in H. simpl in H.
  apply andb_true_iff in H as [?%negb_true_iff ?%negb_true_iff]. done.
Qed.

Lemma base64_not_blank c :
  is_base64_byte c = true → is_ascii_whitespace c = false ∧ is_quote c = false.
Proof.
  revert c. assert (∀ c, implb (is_base64_byte c)
    (negb (is_ascii_whitespace c) && negb (is_quote c)) = true) as H by by apply byte_cases.
  intros c Hc. specialize (H c). rewrite Hc in H. simpl in H.
  apply andb_true_iff in H as [?%negb_true_iff ?%negb_true_iff]. done.
Qed.

Lemma quote_not_blank c : is_quote c = true → is_ascii_whitespace c = false.
Proof.
  revert c. assert (∀ c, implb (is_quote c) (negb (is_ascii_whitespace c)) = true) as H
    by by apply byte_cases.
  intros c Hc. specialize (H c). rewrite Hc in H. by apply negb_true_iff in H.
Qed.

Lemma blank_not_quote c : is_ascii_whitespace c = true → is_quote c = false.
Proof.
  intros Hc. destruct (is_quote c) eqn:Hq; [|done]. apply quote_not_blank in Hq. congruence.
Qed.

Lemma take_while_all f l n : n ≤ length (take_while f l) →
  ∃ run b, l = run ++ b ∧ all f run ∧ length run = n.
Proof.
  intros Hn. exists (take n (take_while f l)), (drop n (take_while f l) ++ drop_while f l).
  rewrite app_assoc, take_drop, take_drop_while. split_and!; [done| |].
  - apply Forall_take, take_while_Forall.
  - rewrite length_take. lia.
Qed.

(** ** The scanners find exactly the shapes *)

Lemma match_rests_sound fuel prefix l rest :
  rest ∈ match_rests fuel prefix l → ∃ a, l = a ++ prefix ++ rest.
Proof.
  revert l; induction fuel as [|fuel IH]; intros l; simpl; [set_solver|].
  destruct (strip_prefix prefix l) as [r|] eqn:Hs.
  - apply strip_prefix_Some in Hs as ->. intros [->|(a & ->)%IH]%elem_of_cons; [by exists []|].
    exists (prefix ++ a). by rewrite <- app_assoc.
  - destruct l as [|c l]; [set_solver|]. intros (a & ->)%IH. by exists (c :: a).
Qed.

(** When the prefix itself is made of run bytes, skipping overlapping matches
    loses nothing: the run after the earlier match contains the later one. *)
Lemma match_rests_complete fuel prefix f n l :
  length l < fuel → prefix ≠ [] → all f prefix → prefixed_run prefix n f l →
  ∃ rest, rest ∈ match_rests fuel prefix l ∧ n ≤ length (take_while f rest).
Proof.
  intros Hfuel Hne Hpre (a & run & b & -> & Hrun & <-).
  revert a Hfuel. induction fuel as [|fuel IH]; intros a Hfuel; [lia|]. simpl.
  destruct (strip_prefix prefix (a ++ prefix ++ run ++ b)) as [rest|] eqn:Hs.
  - apply strip_prefix_Some in Hs.
    destruct (decide (length a < length prefix)) as [Hshort|Hlong].
    + exists rest. split; [by left|].
      assert (∃ tail, prefix = a ++ tail) as [tail Htail].
      { apply app_eq_inv in Hs as [(k & Hk & _)|(k & Hk & _)]; [|by eauto].
        apply (f_equal length) in Hk. rewrite length_app in Hk. lia. }
      assert (∃ tail', all f tail' ∧ rest = tail' ++ run ++ b) as (tail' & Ht' & ->).
      { assert (prefix ++ rest = a ++ (prefix ++ run ++ b)) as Heq by done.
        rewrite Htail in Heq at 1. rewrite <- app_assoc in Heq. apply app_inv_head in Heq.
        assert (length tail ≤ length prefix) as Hle
          by (apply (f_equal length) in Htail; rewrite length_app in Htail; lia).
        exists (drop (length tail) prefix). split; [by apply Forall_drop|].
        apply (f_equal (drop (length tail))) in Heq.
        rewrite drop_app_length in Heq. rewrite Heq. by rewrite drop_app_le. }
      rewrite app_assoc. etrans; [|apply take_while_app; by apply Forall_app].
      rewrite length_app. lia.
    + assert (∃ a', a = prefix ++ a') as [a' ->].
      { apply app_eq_inv in Hs as [(k & Hk & _)|(k & Hk & _)]; [by eauto|].
        exists []. rewrite app_nil_r. pose proof (f_equal length Hk) as Hl.
        rewrite length_app in Hl. destruct k; [by rewrite app_nil_r in Hk|simpl in Hl; lia]. }
      rewrite <- app_assoc in Hs. apply app_inv_head in Hs. subst rest.
      destruct (IH a') as (rest & Hin & Hlen).
      { destruct prefix; [done|]. rewrite !length_app in *. simpl in *. lia. }
      exists rest. split; [by right|done].
  - destruct a as [|c a].
    { simpl in Hs. exfalso. assert (Some (run ++ b) = None); [|done].
      rewrite <- Hs. symmetry. by apply strip_prefix_Some. }
    simpl. destruct (IH a) as (rest & Hin & Hlen); [simpl in Hfuel; lia|]. eauto.
Qed.

Lemma contains_prefixed_run_iff prefix f n l :
  prefix ≠ [] → all f prefix →
  contains_prefixed_run l prefix n f = true ↔ prefixed_run prefix n f l.
Proof.
  intros Hne Hpre. unfold contains_prefixed_run. rewrite existsb_exists.
  setoid_rewrite <- list_elem_of_In. setoid_rewrite Nat.leb_le. split.
  - intros (rest & (a & ->)%match_rests_sound & (run & b & -> & ? & ?)%take_while_all).
    by exists a, run, b.
  - intros Hrun. apply match_rests_complete; [lia|done..].
Qed.

Lemma jwt_at_iff l :
  jwt_at l = true ↔ ∃ s1 s2 c b,
    l = bytes "eyJ" ++ s1 ++ "."%char :: s2 ++ "."%char :: c :: b ∧
    all is_base64_url_byte s1 ∧ all is_base64_url_byte s2 ∧ s2 ≠ [] ∧ is_base64_url_byte c = true.
Proof.
  unfold jwt_at. split.
  - destruct (strip_prefix _ l) as [l1|] eqn:Hs; [|done]. apply strip_prefix_Some in Hs as ->.
    destruct (drop_while _ l1) as [|d l2] eqn:H1; [done|].
    destruct (decide (d = "."%char)) as [->|Hd]; [|by destruct d as [[] [] [] [] [] [] [] []]].
    case_bool_decide as Hne; [done|].
    destruct (drop_while _ l2) as [|d l3] eqn:H2; [done|].
    destruct (decide (d = "."%char)) as [->|Hd]; [|by destruct d as [[] [] [] [] [] [] [] []]].
    destruct l3 as [|c b]; [done|]. intros Hc.
    exists (take_while is_base64_url_byte l1), (take_while is_base64_url_byte l2), c, b.
    split_and!; [|by apply take_while_Forall..|done|done].
    rewrite <- (take_drop_while is_base64_url_byte l1) at 1. rewrite H1.
    rewrite <- (take_drop_while is_base64_url_byte l2) at 1. by rewrite H2.
  - intros (s1 & s2 & c & b & -> & Hs1 & Hs2 & Hne & Hc).
    rewrite (proj2 (strip_prefix_Some _ _ (s1 ++ "."%char :: s2 ++ "."%char :: c :: b))) by done.
    rewrite (drop_while_app _ s1), (drop_while_app _ s2) by done.
    rewrite bool_decide_eq_false_2; [done|]. destruct Hs2 as [|d s2 Hd]; [done|].
    simpl. by rewrite Hd.
Qed.

Lemma contains_jwt_iff l : contains_jwt l = true ↔ jwt_shape l.
Proof.
  unfold contains_jwt, jwt_shape. rewrite existsb_suffixes by done.
  setoid_rewrite jwt_at_iff. split.
  - intros (a & s & -> & s1 & s2 & c & b & -> & ?). by exists a, s1, s2, c, b.
  - intros (a & s1 & s2 & c & b & -> & ?). eexists a, _. split; [done|]. by exists s1, s2, c, b.
Qed.

Lemma skip_quote_split l : ∃ q, optional_quote q ∧ l = q ++ skip_quote l.
Proof.
  destruct l as [|c l]; simpl; [by exists []; split; [left|]|].
  destruct (is_quote c) eqn:Hq; [exists [c]; split; [right; eauto|done]|].
  by exists []; split; [left|].
Qed.

Lemma skip_quote_app q c l :
  optional_quote q → is_quote c = false → skip_quote (q ++ c :: l) = c :: l.
Proof. intros [->|(d & -> & Hd)] Hc; simpl; [by rewrite Hc|by rewrite Hd]. Qed.

Lemma skip_whitespace_app w c l :
  all is_ascii_whitespace w → is_ascii_whitespace c = false →
  skip_whitespace (w ++ c :: l) = c :: l.
Proof. apply drop_while_app. Qed.

(** After a key: an optional quote, blanks, and a byte that is neither. *)
Lemma skip_quote_blanks q w c l :
  optional_quote q → all is_ascii_whitespace w → is_ascii_whitespace c = false →
  is_quote c = false → skip_whitespace (skip_quote (q ++ w ++ c :: l)) = c :: l.
Proof.
  intros Hq Hw Hc Hcq. destruct Hw as [|d w Hd Hw]; simpl.
  - rewrite skip_quote_app by done. apply (skip_whitespace_app []); [constructor|done].
  - rewrite skip_quote_app by (done || by apply blank_not_quote).
    apply (skip_whitespace_app (d :: w)); [by constructor|done].
Qed.

(** After the sign: blanks, an optional quote, and a run. *)
Lemma skip_blanks_quote w q c l :
  all is_ascii_whitespace w → optional_quote q → is_ascii_whitespace c = false →
  is_quote c = false → skip_quote (skip_whitespace (w ++ q ++ c :: l)) = c :: l.
Proof.
  intros Hw Hq Hc Hcq. destruct Hq as [->|(d & -> & Hd)]; simpl.
  - rewrite skip_whitespace_app by done. apply (skip_quote_app []); [by left|done].
  - rewrite skip_whitespace_app by (done || by apply quote_not_blank).
    apply (skip_quote_app [d]); [right; eauto|done].
Qed.

Lemma keyed_at_iff l key :
  keyed_at l key = true ↔ ∃ k q1 w1 c w2 q2 run b,
    l = k ++ q1 ++ w1 ++ c :: w2 ++ q2 ++ run ++ b ∧
    (length k = length key ∧ eq_ignore_ascii_case k key = true) ∧
    optional_quote q1 ∧ all is_ascii_whitespace w1 ∧ is_assign c = true ∧
    all is_ascii_whitespace w2 ∧ optional_quote q2 ∧ all is_base64_byte run ∧ length run = 32.
Proof.
  unfold keyed_at. split.
  - destruct (_ && _) eqn:Hk; [|done]. apply andb_true_iff in Hk as [Hlen%Nat.leb_le Hk].
    set (rest := drop (length key) l).
    destruct (skip_quote_split rest) as (q1 & Hq1 & Hr1).
    destruct (skip_whitespace (skip_quote rest)) as [|c l1] eqn:Hw1; [done|].
    destruct (is_assign c) eqn:Hc; [|done]. intros Hrun%Nat.leb_le%take_while_all.
    destruct Hrun as (run & b & Hrun & Hall & Hn).
    destruct (skip_quote_split (skip_whitespace l1)) as (q2 & Hq2 & Hr2).
    exists (take (length key) l), q1, (take_while is_ascii_whitespace (skip_quote rest)), c,
      (take_while is_ascii_whitespace l1), q2, run, b.
    split_and!; try done; try apply take_while_Forall; [|rewrite length_take; lia].
    rewrite <- Hrun, <- Hr2. unfold skip_whitespace in *.
    rewrite take_drop_while, <- Hw1, take_drop_while, <- Hr1. unfold rest. by rewrite take_drop.
  - intros (k & q1 & w1 & c & w2 & q2 & run & b & -> & [Hlen Hk] & Hq1 & Hw1 & Hc & Hw2 & Hq2 & Hall & Hn).
    rewrite length_app, <- Hlen, take_app_length, drop_app_length, Hk.
    rewrite (proj2 (Nat.leb_le (length k) _)) by lia. cbn [andb].
    destruct (blank_not_assign c Hc) as [Hcb Hcq].
    rewrite skip_quote_blanks, Hc by done. destruct run as [|d run]; [done|].
    destruct (base64_not_blank d) as [Hdb Hdq]; [by inversion Hall|].
    rewrite <- app_comm_cons, skip_blanks_quote, app_comm_cons by done.
    apply Nat.leb_le. rewrite <- Hn. by apply take_while_app.
Qed.

Lemma keyed_at_nil key : key ∈ KEY_NAMES → keyed_at [] key = false.
Proof. intros Hk. repeat (apply elem_of_cons in Hk as [->|Hk]; [done|]). by apply elem_of_nil in Hk. Qed.

Lemma contains_keyed_iff l : contains_keyed_long_secret l = true ↔ keyed_shape l.
Proof.
  unfold contains_keyed_long_secret, keyed_shape. rewrite existsb_suffixes by done.
  setoid_rewrite existsb_exists. setoid_rewrite <- list_elem_of_In. setoid_rewrite keyed_at_iff.
  split.
  - intros (a & s & -> & key & Hkey & k & q1 & w1 & c & w2 & q2 & run & b & -> & ? & ?).
    exists a, k, q1, w1, c, w2, q2, run, b. split; [done|]. split; [by exists key|done].
  - intros (a & k & q1 & w1 & c & w2 & q2 & run & b & -> & (key & Hkey & ?) & ?).
    eexists a, _. split; [done|]. exists key. split; [done|].
    by exists k, q1, w1, c, w2, q2, run, b.
Qed.

Lemma str_contains_iff text p : str_contains text p = true ↔ ∃ a b, bytes text = a ++ bytes p ++ b.
Proof. apply contains_spec. Qed.

(** The long provider-key rule is subsumed by the bare [sk-] sentinel. *)
Lemma provider_run_subsumed text :
  contains_prefixed_run (bytes text) (bytes "sk-") 20 provider_key_byte = true →
  str_contains text "sk-" = true.
Proof.
  rewrite contains_prefixed_run_iff; [|done|by repeat constructor].
  intros (a & run & b & Heq & _). apply str_contains_iff. by exists a, (run ++ b).
Qed.

Lemma contains_secret_pattern_iff text :
  contains_secret_pattern text = true ↔ secret_shape text.
Proof.
  unfold contains_secret_pattern, secret_shape.
  rewrite !orb_true_iff, contains_jwt_iff, contains_keyed_iff.
  rewrite (contains_prefixed_run_iff (bytes "AKIA")) by (done || by repeat constructor).
  rewrite existsb_exists. setoid_rewrite <- list_elem_of_In. setoid_rewrite <- str_contains_iff.
  pose proof (provider_run_subsumed text) as Hsk. split.
  - intros [[[[[[[[[H|H]|H]|H]|H]|H]|H]|(p & Hp & H)]|H]|H]; try (by right; left);
      try (by right; right; left); try (by right; right; right); left;
      try (eexists; split; [|exact H]; set_solver). exists "sk-". split; [set_solver|auto].
  - intros [(p & Hp & Hc)|[?|[?|?]]]; [|tauto..].
    repeat (apply elem_of_cons in Hp as [->|Hp]; [try tauto|]).
    all: try by apply elem_of_nil in Hp.
    all: left; left; right; eexists; split; [|exact Hc]; set_solver.
Qed.

(** ** Theorems *)

(** A value without secrets: no string in it has the shape of a secret, and
    what is stored under a secret-bearing key is the redaction mark. *)
Inductive clean : Value → Prop :=
  | clean_null : clean VNull
  | clean_bool b : clean (VBool b)
  | clean_number n : clean (VNumber n)
  | clean_string s : ¬ secret_shape s → clean (VString s)
  | clean_array l : (∀ v, v ∈ l → clean v) → clean (VArray l)
  | clean_object l :
      (∀ k v, (k, v) ∈ l → secret_key k = true → v = VString "[REDACTED]") →
      (∀ k v, (k, v) ∈ l → secret_key k = false → clean v) →
      clean (VObject l).

Lemma mark_not_secret : ¬ secret_shape "[REDACTED]".
Proof. rewrite <- contains_secret_pattern_iff. vm_compute. discriminate. Qed.

Lemma redact_text_clean s : ¬ secret_shape (redact_secret_text s).
Proof.
  unfold redact_secret_text. destruct (contains_secret_pattern s) eqn:Hs; [apply mark_not_secret|].
  rewrite <- contains_secret_pattern_iff. congruence.
Qed.

Lemma redact_text_id s : redact_secret_text s = s ↔ ¬ secret_shape s.
Proof.
  split; [intros <-; apply redact_text_clean|]. rewrite <- contains_secret_pattern_iff.
  unfold redact_secret_text. by destruct (contains_secret_pattern s).
Qed.

Lemma redact_clean v : clean (redact_secrets v).
Proof.
  induction v as [| | |s|l IH|l IH] using Value_induction; simpl; try constructor.
  - apply redact_text_clean.
  - intros v (w & -> & Hw)%list_elem_of_fmap. by apply (proj1 (Forall_forall _ _) IH).
  - intros k v ([k' w] & [= -> ->] & Hw)%list_elem_of_fmap Hk. by rewrite Hk.
  - intros k v ([k' w] & [= -> ->] & Hw)%list_elem_of_fmap Hk. rewrite Hk.
    by apply (proj1 (Forall_forall _ _) IH _ Hw).
Qed.

Lemma clean_fixed v : clean v → redact_secrets v = v.
Proof.
  induction v as [| | |s|l IH|l IH] using Value_induction; intros Hc; simpl; try done;
    inversion Hc as [| | |? Hs|? Hl|? Hm Hl]; subst.
  - f_equal. by apply redact_text_id.
  - f_equal. clear Hc. induction IH as [|v l Hv _ IHl]; [done|]. simpl. f_equal.
    + apply Hv, Hl. by left.
    + apply IHl. intros w Hw. apply Hl. by right.
  - f_equal. clear Hc. induction IH as [|[k v] l Hv _ IHl]; [done|]. simpl. f_equal.
    + destruct (secret_key k) eqn:Hk; f_equal.
      * symmetry. apply (Hm k v); [by left|done].
      * apply Hv, (Hl k v); [by left|done].
    + apply IHl; intros k' v' Hin; [apply Hm|apply Hl]; by right.
Qed.

(** The pattern scanners are exact.  The byte loops of
    [contains_secret_pattern] (non-overlapping matches, greedy segments, cursor
    arithmetic) flag a text if and only if it contains one of the sentinels, an
    AKIA run, the shape of a JSON web token, or a key name assigned at least 32
    base64 bytes. *)
Theorem secret_scanners_are_exact text :
  contains_secret_pattern text = true ↔ secret_shape text.
Proof. apply contains_secret_pattern_iff. Qed.

(** Surrounding text cannot hide a secret.  Whatever bytes are put before
    and after a text with a secret shape, the result is still detected. *)
Theorem padding_never_hides_a_secret pre text post :
  secret_shape text → contains_secret_pattern (pre +:+ text +:+ post) = true.
Proof.
  rewrite contains_secret_pattern_iff. unfold secret_shape. rewrite !bytes_app.
  intros [(p & Hp & a & b & ->)|[(a & run & b & -> & ?)|[H|H]]].
  - left. exists p. split; [done|]. exists (bytes pre ++ a), (b ++ bytes post).
    by rewrite <- !app_assoc.
  - right; left. exists (bytes pre ++ a), run, (b ++ bytes post). by rewrite <- !app_assoc.
  - right; right; left. destruct H as (a & s1 & s2 & c & b & -> & ?).
    exists (bytes pre ++ a), s1, s2, c, (b ++ bytes post).
    split; [by repeat (rewrite <- ?app_assoc, <- ?app_comm_cons)|done].
  - right; right; right. destruct H as (a & k & q1 & w1 & c & w2 & q2 & run & b & -> & ?).
    exists (bytes pre ++ a), k, q1, w1, c, w2, q2, run, (b ++ bytes post).
    split; [by repeat (rewrite <- ?app_assoc, <- ?app_comm_cons)|done].
Qed.


(** ** Concrete instances *)

Example jwt_is_redacted :
  redact_secret_text "auth eyJhbGciOiJIUzI1NiJ9.eyJzdWIiOiIxMjMifQ.signature" = "[REDACTED]".
Proof. vm_compute. reflexivity. Qed.
Example short_values_survive :
  redact_secret_text "token=short" = "token=short" ∧
  redact_secret_text "AKIA1234" = "AKIA1234" ∧
  redact_secret_text "eyJhbGciOiJIUzI1NiJ9.only-one-dot" = "eyJhbGciOiJIUzI1NiJ9.only-one-dot".
Proof. vm_compute. done. Qed.

Lemma padding_never_hides_a_secret_witness :
  contains_secret_pattern ("zz" +:+ "ghp_fixture-token" +:+ "yy") = true.
Proof.
  apply padding_never_hides_a_secret. left. exists "ghp_". split; [set_solver|].
  exists [], (bytes "fixture-token"). reflexivity.
Defined.
