(* ===== verification/Gateway.v ===== *)
(** * The native tool gateway

    Models [ToolGateway] of [crates/tools/src/lib.rs]: registration, the
    pipeline of [call] (lookup, input validation, policy, checkpoint, effect,
    redaction, size limit, verification, audit, egress) and the transactional
    [rollback].  A tool is a record of the operations of the
    [ToolImplementation] trait over an arbitrary world [W]; the encoder of the
    serde_json library is a parameter. *)

From stdpp Require Import base gmap strings list pretty.
From Stdlib Require Import SpecFloat.
From S2P Require Import Prelude Policy Redaction.

(** ** Data *)

Record ToolCall : Type := mkToolCall {
  tc_call_id : Uuid;
  tc_goal_id : Uuid;
  tc_task_id : option Uuid;
  tc_tool_id : string;
  tc_target : string;
  tc_input : Value;
  tc_input_zones : gset DataZone;
  tc_granted_scopes : gset string;
  tc_estimated_cost_usd : f64;
  tc_background : bool;
  tc_user_present : bool;
  tc_checkpoint_available : bool;
}.

Record ToolOutput : Type := mkToolOutput {
  to_value : Value;
  to_rollback_id : option string;
  to_verified : bool;
}.

Record RollbackOutput : Type := mkRollbackOutput {
  ro_restored_checkpoint_id : string;
  ro_rescue_checkpoint_id : string;
  ro_verified : bool;
}.

Record ToolAudit : Type := mkToolAudit {
  ta_call_id : Uuid;
  ta_tool_id : string;
  ta_target : string;
  ta_at : DateTime;
  ta_decision : string;
  ta_succeeded : bool;
  ta_output_bytes : nat;
  ta_reason : string;
  ta_estimated_cost_usd : f64;
}.

Record EgressRecord : Type := mkEgressRecord {
  eg_call_id : Uuid;
  eg_destination : string;
  eg_kind : string;
  eg_size_bytes : nat;
  eg_reason : string;
}.

Inductive ToolError : Type :=
  | UnknownTool (id : string)
  | InvalidInput (detail : string)
  | ApprovalRequired (reason : string)
  | Denied (reason : string)
  | Execution (detail : string)
  | Postcondition (detail : string)
  | RollbackUnsupported
  | Rollback (detail : string).

(** The [ToolImplementation] trait.  Every operation but the descriptor and the
    schema check may act on the world. *)
Record ToolImplementation (W : Type) : Type := mkToolImplementation {
  ti_descriptor : ToolDescriptor;
  ti_validate_input : Value → outcome ToolError ();
  ti_checkpoint : ToolCall → M W ToolError (option string);
  ti_execute : ToolCall → M W ToolError Value;
  ti_verify : ToolCall → Value → M W ToolError ();
  ti_snapshot_current : ToolCall → M W ToolError (option string);
  ti_rollback : ToolCall → string → M W ToolError Value;
  ti_verify_rollback : ToolCall → string → Value → M W ToolError ();
}.
Arguments ti_descriptor {W} _.
Arguments ti_validate_input {W} _ _.
Arguments ti_checkpoint {W} _ _.
Arguments ti_execute {W} _ _.
Arguments ti_verify {W} _ _ _.
Arguments ti_snapshot_current {W} _ _.
Arguments ti_rollback {W} _ _ _.
Arguments ti_verify_rollback {W} _ _ _ _.

(** The default bodies of the trait's rollback methods. *)
Definition default_snapshot_current {W} (_ : ToolCall) : M W ToolError (option string) := mret None.
Definition default_rollback {W} (_ : ToolCall) (_ : string) : M W ToolError Value :=
  throw RollbackUnsupported.
Definition default_verify_rollback {W} (_ : ToolCall) (_ : string) (_ : Value)
    : M W ToolError () := throw RollbackUnsupported.

Record ToolGateway (W : Type) : Type := mkToolGateway {
  gw_tools : gmap string (ToolImplementation W);
  gw_audits : list ToolAudit;
  gw_egress : list EgressRecord;
  gw_max_output_bytes : nat;
}.
Arguments mkToolGateway {W} _ _ _ _.
Arguments gw_tools {W} _.
Arguments gw_audits {W} _.
Arguments gw_egress {W} _.
Arguments gw_max_output_bytes {W} _.

Definition outward_effect (e : Effect) : bool :=
  match e with
  | ExternalWrite | Communication | Commerce | Security | Power => true
  | Observe | LocalWrite => false
  end.

(** [format!("{:?}", effect).to_lowercase()] *)
Definition effect_kind (e : Effect) : string :=
  match e with
  | Observe => "observe"
  | LocalWrite => "localwrite"
  | ExternalWrite => "externalwrite"
  | Communication => "communication"
  | Commerce => "commerce"
  | Security => "security"
  | Power => "power"
  end.

Definition with_checkpoint (c : ToolCall) : ToolCall :=
  mkToolCall (tc_call_id c) (tc_goal_id c) (tc_task_id c) (tc_tool_id c) (tc_target c)
    (tc_input c) (tc_input_zones c) (tc_granted_scopes c) (tc_estimated_cost_usd c)
    (tc_background c) (tc_user_present c) true.

Definition call_context (d : ToolDescriptor) (c : ToolCall) : CallContext :=
  mkCallContext (tc_goal_id c) (tc_task_id c) d (tc_target c) (tc_input_zones c)
    (tc_granted_scopes c) (tc_estimated_cost_usd c) (tc_background c) (tc_user_present c)
    (tc_checkpoint_available c).

(** ** The gateway *)

Section gateway.
Context {W : Type}.
(** [serde_json::to_vec]: the encoded bytes, or the text of the error. *)
Context (to_vec : Value → string + list Ascii.ascii).

Definition GM : Type → Type := M (ToolGateway W * W) ToolError.

Definition on_world {A} (m : M W ToolError A) : GM A :=
  λ s, let '(r, w) := m s.2 in (r, (s.1, w)).
Definition push_audit (a : ToolAudit) : GM () :=
  modify (λ s, (mkToolGateway (gw_tools s.1) (gw_audits s.1 ++ [a]) (gw_egress s.1)
                  (gw_max_output_bytes s.1), s.2)).
Definition push_egress (e : EgressRecord) : GM () :=
  modify (λ s, (mkToolGateway (gw_tools s.1) (gw_audits s.1) (gw_egress s.1 ++ [e])
                  (gw_max_output_bytes s.1), s.2)).

Definition gateway_new (max_output_bytes : nat) : ToolGateway W :=
  mkToolGateway ∅ [] [] max_output_bytes.

Definition register (tool : ToolImplementation W) (g : ToolGateway W) : ToolGateway W :=
  mkToolGateway (<[td_id (ti_descriptor tool) := tool]> (gw_tools g)) (gw_audits g)
    (gw_egress g) (gw_max_output_bytes g).

(** [match tool.execute(&call).await { Err(error) => { audit; return Err(error) } .. }] *)
Definition execute_audited (at_ : DateTime) (label : string) (tool : ToolImplementation W)
    (c : ToolCall) : GM Value :=
  λ s, match on_world (ti_execute tool c) s with
  | (Err e, s') =>
    (push_audit (mkToolAudit (tc_call_id c) (tc_tool_id c) (tc_target c) at_ label false 0
       "tool implementation returned an execution error" (tc_estimated_cost_usd c));; throw e) s'
  | other => other
  end.

Definition encode (wrap : string → ToolError) (v : Value) : GM (list Ascii.ascii) :=
  match to_vec v with inl e => throw (wrap e) | inr b => mret b end.

(** The stages after the effect: filtering, size limit, verification, records. *)
Definition finish_call (at_ : DateTime) (label : string) (tool : ToolImplementation W)
    (c : ToolCall) (rollback_id : option string) (raw : Value) : GM ToolOutput :=
  let filtered := redact_secrets raw in
  encoded ← encode Execution filtered;
  s ← get;
  _ ← reject_if (gw_max_output_bytes s.1 <? length encoded)
        (Execution ("tool output exceeds " +:+ pretty (gw_max_output_bytes s.1) +:+ " byte limit"));
  _ ← on_world (ti_verify tool c filtered);
  _ ← push_audit (mkToolAudit (tc_call_id c) (tc_tool_id c) (tc_target c) at_ label true
        (length encoded) "postcondition verified" (tc_estimated_cost_usd c));
  _ ← (if outward_effect (td_effect (ti_descriptor tool)) then
         push_egress (mkEgressRecord (tc_call_id c) (tc_target c)
           (effect_kind (td_effect (ti_descriptor tool))) (length encoded)
           "declared tool effect")
       else mret ());
  mret (mkToolOutput filtered rollback_id true).

Definition call (clock : nat → DateTime) (at_ : DateTime) (c : ToolCall)
    (grants : list ConsentGrant) : GM ToolOutput :=
  s ← get;
  tool ← ok_or (gw_tools s.1 !! tc_tool_id c) (UnknownTool (tc_tool_id c));
  _ ← lift (ti_validate_input tool (tc_input c));
  match decide_call clock (call_context (ti_descriptor tool) c) grants with
  | Ask reason => throw (ApprovalRequired reason)
  | Deny reason => throw (Denied reason)
  | Allow label _ =>
    rollback_id ← on_world (ti_checkpoint tool c);
    _ ← reject_if (td_reversible (ti_descriptor tool)
                   && negb (bool_decide (td_effect (ti_descriptor tool) = Observe))
                   && bool_decide (rollback_id = None))
          (Execution "required checkpoint implementation returned no checkpoint");
    let c' := if bool_decide (is_Some rollback_id) then with_checkpoint c else c in
    raw ← execute_audited at_ label tool c';
    finish_call at_ label tool c' rollback_id raw
  end.

Definition rollback (at_ : DateTime) (c : ToolCall) (checkpoint_id : string)
    : GM RollbackOutput :=
  s ← get;
  tool ← ok_or (gw_tools s.1 !! tc_tool_id c) (UnknownTool (tc_tool_id c));
  _ ← reject_if (negb (td_reversible (ti_descriptor tool))) RollbackUnsupported;
  rescue ← on_world (ti_snapshot_current tool c);
  rescue_id ← ok_or rescue (Rollback "current state could not be checkpointed");
  raw ← on_world (ti_rollback tool c checkpoint_id);
  let filtered := redact_secrets raw in
  encoded ← encode Rollback filtered;
  s ← get;
  _ ← reject_if (gw_max_output_bytes s.1 <? length encoded)
        (Rollback ("rollback output exceeds " +:+ pretty (gw_max_output_bytes s.1) +:+ " byte limit"));
  _ ← on_world (ti_verify_rollback tool c checkpoint_id filtered);
  _ ← push_audit (mkToolAudit (tc_call_id c) (tc_tool_id c) (tc_target c) at_
        "rollback requested through native gateway" true (length encoded)
        "current state snapshotted and prior checkpoint restored" (tc_estimated_cost_usd c));
  mret (mkRollbackOutput checkpoint_id rescue_id true).
End gateway.

(** ** Theorems *)

Section gateway_theorems.
Context {W : Type} (to_vec : Value → string + list Ascii.ascii).
Implicit Types (s : ToolGateway W * W) (tool : ToolImplementation W).

(** The call as the tool sees it once a checkpoint exists. *)
Definition checkpointed (c : ToolCall) (rollback_id : option string) : ToolCall :=
  if bool_decide (is_Some rollback_id) then with_checkpoint c else c.

(** The records of a gateway only grow, by at most one audit and one egress entry. *)
Record records_grow (c : ToolCall) (g g' : ToolGateway W) : Prop := {
  rg_tools : gw_tools g' = gw_tools g;
  rg_max : gw_max_output_bytes g' = gw_max_output_bytes g;
  rg_audits : ∃ a, gw_audits g' = gw_audits g ++ a ∧ length a ≤ 1 ∧
    ∀ x, x ∈ a → ta_call_id x = tc_call_id c ∧ ta_tool_id x = tc_tool_id c ∧
      ta_target x = tc_target c;
  rg_egress : ∃ e, gw_egress g' = gw_egress g ++ e ∧ length e ≤ 1 ∧
    (e ≠ [] → ∃ x, gw_audits g' = gw_audits g ++ [x] ∧ ta_succeeded x = true) ∧
    ∀ x, x ∈ e → eg_call_id x = tc_call_id c ∧ eg_destination x = tc_target c;
}.

Lemma records_grow_refl c g : records_grow c g g.
Proof.
  split; [done..| |]; exists []; rewrite app_nil_r; split_and!; simpl; try set_solver; lia.
Qed.

Lemma records_grow_audit c g a :
  ta_call_id a = tc_call_id c → ta_tool_id a = tc_tool_id c → ta_target a = tc_target c →
  records_grow c g (mkToolGateway (gw_tools g) (gw_audits g ++ [a]) (gw_egress g)
    (gw_max_output_bytes g)).
Proof.
  intros ???. split; [done..| |].
  - exists [a]. split_and!; [done..|]. set_solver.
  - exists []. rewrite app_nil_r. split_and!; [done|simpl; lia|done|set_solver].
Qed.

Lemma checkpointed_ids c r :
  tc_call_id (checkpointed c r) = tc_call_id c ∧ tc_tool_id (checkpointed c r) = tc_tool_id c ∧
  tc_target (checkpointed c r) = tc_target c ∧
  tc_estimated_cost_usd (checkpointed c r) = tc_estimated_cost_usd c.
Proof. unfold checkpointed. by case_bool_decide. Qed.

Lemma execute_audited_cases at_ label tool c g w :
  match ti_execute tool c w with
  | (Err e, w') => execute_audited at_ label tool c (g, w) =
      (Err e, (mkToolGateway (gw_tools g) (gw_audits g ++ [mkToolAudit (tc_call_id c)
         (tc_tool_id c) (tc_target c) at_ label false 0
         "tool implementation returned an execution error" (tc_estimated_cost_usd c)])
         (gw_egress g) (gw_max_output_bytes g), w'))
  | (r, w') => execute_audited at_ label tool c (g, w) = (r, (g, w'))
  end.
Proof.
  unfold execute_audited, on_world, push_audit. munfold.
  by destruct (ti_execute tool c w) as [[v|e|] w'].
Qed.

Lemma finish_call_records at_ label tool c rid raw g w r s' :
  finish_call to_vec at_ label tool c rid raw (g, w) = (r, s') → records_grow c g s'.1.
Proof.
  unfold finish_call, encode, on_world, push_audit, push_egress. intros Hrun.
  branches; try apply records_grow_refl; try by apply records_grow_audit.
  split; simpl; [done..| |].
  - eexists [_]. split_and!; [done..|]. intros x ->%list_elem_of_singleton. done.
  - eexists [_]. split_and!; [done..|by eauto|]. intros x ->%list_elem_of_singleton. done.
Qed.


(** C4: a successful call passed every stage, in order.  The tool is
    registered and accepted the input, the policy allowed the call, the
    checkpoint preceded the effect (and exists for a reversible mutation), the
    effect succeeded, the returned value is its redaction, which is free of
    secrets and within the size limit, verification ran on that value in the
    resulting world, and exactly one successful audit was written, with an
    egress record exactly for outward effects. *)
Theorem successful_call_passed_every_stage clock at_ c grants s out s' :
  call to_vec clock at_ c grants s = (Ok out, s') →
  ∃ tool label consent w1 raw w2 encoded,
    let c' := checkpointed c (to_rollback_id out) in
    gw_tools s.1 !! tc_tool_id c = Some tool ∧
    ti_validate_input tool (tc_input c) = Ok () ∧
    decide_call clock (call_context (ti_descriptor tool) c) grants = Allow label consent ∧
    ti_checkpoint tool c s.2 = (Ok (to_rollback_id out), w1) ∧
    (td_reversible (ti_descriptor tool) = true → td_effect (ti_descriptor tool) ≠ Observe →
       is_Some (to_rollback_id out)) ∧
    ti_execute tool c' w1 = (Ok raw, w2) ∧
    to_value out = redact_secrets raw ∧ clean (to_value out) ∧
    to_vec (to_value out) = inr encoded ∧ length encoded ≤ gw_max_output_bytes s.1 ∧
    ti_verify tool c' (to_value out) w2 = (Ok (), s'.2) ∧
    gw_audits s'.1 = gw_audits s.1 ++ [mkToolAudit (tc_call_id c) (tc_tool_id c) (tc_target c)
      at_ label true (length encoded) "postcondition verified" (tc_estimated_cost_usd c)] ∧
    gw_egress s'.1 = gw_egress s.1 ++
      (if outward_effect (td_effect (ti_descriptor tool)) then
         [mkEgressRecord (tc_call_id c) (tc_target c) (effect_kind (td_effect (ti_descriptor tool)))
            (length encoded) "declared tool effect"] else []).
Proof.
  destruct s as [g w]. intros Hrun. unfold call in Hrun. munfold.
  destruct (gw_tools g !! tc_tool_id c) as [tool|] eqn:Htool; munfold; [|done].
  destruct (ti_validate_input tool (tc_input c)) as [[]|e|] eqn:Hval; munfold; [|done..].
  destruct (decide_call _ _ _) as [label consent|?|?] eqn:Hd; [|done..].
  unfold on_world at 1 in Hrun. simpl in Hrun.
  destruct (ti_checkpoint tool c w) as [[rid|e|] w1] eqn:Hck; [|done..].
  destruct (_ && bool_decide (rid = None)) eqn:Hreq; [done|]. munfold.
  fold (checkpointed c rid) in Hrun. destruct (checkpointed_ids c rid) as (Hc1 & Hc2 & Hc3 & Hc4).
  pose proof (execute_audited_cases at_ label tool (checkpointed c rid) g w1) as Hex.
  destruct (ti_execute tool (checkpointed c rid) w1) as [[raw|e|] w2] eqn:Hexec;
    rewrite Hex in Hrun; [|done..].
  unfold finish_call, encode in Hrun. munfold.
  destruct (to_vec (redact_secrets raw)) as [?|encoded] eqn:Henc; munfold; [done|].
  destruct (_ <? _) eqn:Hsize; [done|]. unfold on_world at 1 in Hrun. simpl in Hrun.
  destruct (ti_verify _ _ _ _) as [[[]|e|] w3] eqn:Hver; [|done..].
  apply Nat.ltb_ge in Hsize.
  exists tool, label, consent, w1, raw, w2, encoded.
  destruct (outward_effect _) eqn:Hout; unfold push_egress in Hrun; munfold; simplify_eq/=;
    rewrite ?Hc1, ?Hc2, ?Hc3, ?Hc4, ?app_nil_r; split_and!; try done; try apply redact_clean;
    intros Hrev Heff; rewrite Hrev, (bool_decide_eq_false_2 _ Heff) in Hreq; by destruct rid.
Qed.
(** The audit trail is append-only.  Whatever the outcome, a call adds at
    most one audit record and at most one egress record, both carrying the
    call's own identifiers, never an egress record without a successful audit,
    and changes neither the registered tools nor the limit. *)
Theorem audit_trail_is_append_only clock at_ c grants s :
  records_grow c s.1 (call to_vec clock at_ c grants s).2.1.
Proof.
  destruct s as [g w]. unfold call. munfold.
  destruct (gw_tools g !! tc_tool_id c) as [tool|]; munfold; [|apply records_grow_refl].
  destruct (ti_validate_input tool _) as [[]|e|]; munfold; [|apply records_grow_refl..].
  destruct (decide_call _ _ _) as [label consent|?|?]; [|apply records_grow_refl..].
  unfold on_world at 1; simpl.
  destruct (ti_checkpoint tool c w) as [[rid|e|] w1]; [|apply records_grow_refl..].
  destruct (_ && bool_decide (rid = None)); [apply records_grow_refl|]. munfold.
  fold (checkpointed c rid). destruct (checkpointed_ids c rid) as (Hc1 & Hc2 & Hc3 & _).
  pose proof (execute_audited_cases at_ label tool (checkpointed c rid) g w1) as Hex.
  destruct (ti_execute tool (checkpointed c rid) w1) as [[raw|e|] w2]; rewrite Hex;
    [|by apply records_grow_audit|apply records_grow_refl].
  destruct (finish_call _ _ _ _ _ _ _ _) as [r s'] eqn:Hfin.
  apply finish_call_records in Hfin. destruct Hfin as [Ht Hm Ha He].
  split; [done..| |]; rewrite Hc1, ?Hc2, Hc3 in *; done.
Qed.

(** An effect that fails verification leaves no record.  Once the effect ran
    and its output was encoded within the limit, a failing verification returns
    its error and keeps what the effect and the verification did to the world,
    while the audit trail and the egress log stay as they were. *)
Theorem unverified_effect_is_unrecorded clock at_ c grants g w tool label consent rid
    w1 raw w2 encoded e w3 :
  gw_tools g !! tc_tool_id c = Some tool →
  ti_validate_input tool (tc_input c) = Ok () →
  decide_call clock (call_context (ti_descriptor tool) c) grants = Allow label consent →
  ti_checkpoint tool c w = (Ok (Some rid), w1) →
  ti_execute tool (with_checkpoint c) w1 = (Ok raw, w2) →
  to_vec (redact_secrets raw) = inr encoded → length encoded ≤ gw_max_output_bytes g →
  ti_verify tool (with_checkpoint c) (redact_secrets raw) w2 = (Err e, w3) →
  call to_vec clock at_ c grants (g, w) = (Err e, (g, w3)).
Proof.
  intros Htool Hval Hd Hck Hex Henc Hsize Hver. unfold call. munfold. rewrite Htool. munfold.
  rewrite Hval. munfold. rewrite Hd. unfold on_world at 1. simpl. rewrite Hck.
  rewrite (bool_decide_eq_false_2 (Some rid = None)) by done. rewrite andb_false_r. munfold.
  pose proof (execute_audited_cases at_ label tool (with_checkpoint c) g w1) as Hcase.
  rewrite Hex in Hcase. rewrite Hcase. unfold finish_call, encode. munfold. rewrite Henc. munfold.
  rewrite (proj2 (Nat.ltb_ge _ _) Hsize). munfold. unfold on_world. simpl. by rewrite Hver.
Qed.

(** A rollback preserves the current state first.  A successful rollback was
    asked of a reversible tool, took a rescue snapshot of the current state
    before restoring, returns that snapshot's identifier with the restored one,
    verified the redacted result in the restored world, and wrote exactly one
    audit record and no egress record. *)
Theorem rollback_preserves_current_state_first at_ c cid s out s' :
  rollback to_vec at_ c cid s = (Ok out, s') →
  ∃ tool w1 raw w2 encoded,
    gw_tools s.1 !! tc_tool_id c = Some tool ∧
    td_reversible (ti_descriptor tool) = true ∧
    ti_snapshot_current tool c s.2 = (Ok (Some (ro_rescue_checkpoint_id out)), w1) ∧
    ro_restored_checkpoint_id out = cid ∧
    ti_rollback tool c cid w1 = (Ok raw, w2) ∧
    to_vec (redact_secrets raw) = inr encoded ∧ length encoded ≤ gw_max_output_bytes s.1 ∧
    ti_verify_rollback tool c cid (redact_secrets raw) w2 = (Ok (), s'.2) ∧
    gw_egress s'.1 = gw_egress s.1 ∧
    ∃ a, gw_audits s'.1 = gw_audits s.1 ++ [a] ∧ ta_succeeded a = true ∧
      ta_call_id a = tc_call_id c ∧ ta_output_bytes a = length encoded.
Proof.
  destruct s as [g w]. unfold rollback, encode, on_world, push_audit. intros Hrun.
  munfold. destruct (gw_tools g !! tc_tool_id c) as [tool|] eqn:Htool; munfold; [|done].
  destruct (td_reversible (ti_descriptor tool)) eqn:Hrev; munfold; [|done].
  destruct (ti_snapshot_current tool c w) as [[[rescue|]|e|] w1] eqn:Hsnap; munfold; try done.
  destruct (ti_rollback tool c cid w1) as [[raw|e|] w2] eqn:Hrb; munfold; try done.
  destruct (to_vec (redact_secrets raw)) as [?|encoded] eqn:Henc; munfold; [done|].
  destruct (_ <? _) eqn:Hsize; munfold; [done|]. apply Nat.ltb_ge in Hsize.
  destruct (ti_verify_rollback _ _ _ _ _) as [[[]|e|] w3] eqn:Hver; munfold; try done.
  simplify_eq/=. exists tool, w1, raw, w2, encoded. split_and!; try done. by eexists.
Qed.

(** Nothing is restored without a rescue snapshot.  Asked of an unknown or
    irreversible tool, or of one that cannot snapshot its current state, a
    rollback is an error whose only effect on the world is that of the snapshot
    attempt; the gateway is unchanged. *)
Theorem no_restore_without_rescue at_ c cid g w :
  (∀ tool, gw_tools g !! tc_tool_id c = Some tool →
     td_reversible (ti_descriptor tool) = false ∨
     ∀ rescue, (ti_snapshot_current tool c w).1 ≠ Ok (Some rescue)) →
  ∃ r w', rollback to_vec at_ c cid (g, w) = (r, (g, w')) ∧ is_ok r = false ∧
    (w' = w ∨ ∃ tool, gw_tools g !! tc_tool_id c = Some tool ∧
       w' = (ti_snapshot_current tool c w).2).
Proof.
  intros Href. unfold rollback, on_world. munfold.
  destruct (gw_tools g !! tc_tool_id c) as [tool|] eqn:Htool; munfold; [|by eauto 10].
  destruct (td_reversible (ti_descriptor tool)) eqn:Hrev; munfold; [|by eauto 10].
  destruct (Href tool eq_refl) as [?|Hsnap]; [congruence|].
  destruct (ti_snapshot_current tool c w) as [[[rescue|]|e|] w1] eqn:Hw; munfold;
    [by destruct (Hsnap rescue)|..]; do 2 eexists; (split_and!; [done..|]); right; exists tool;
    by rewrite Hw.
Qed.
End gateway_theorems.

(** ** Concrete instances

    A one-note workspace: the world is the note and its last snapshot. *)

Definition note_tool (verifies : bool) : ToolImplementation (string * string) :=
  {| ti_descriptor := mkToolDescriptor "note.write" "1.0.0" "write the note" {["note"]}
       Reversible LocalWrite WithKey true {[UserInstruction]} {[UserInstruction]} false;
     ti_validate_input := λ v, match v with VString _ => Ok () | _ => Err (InvalidInput "text") end;
     ti_checkpoint := λ _ w, (Ok (Some "before"), (w.1, w.1));
     ti_execute := λ c w, match tc_input c with
       | VString t => (Ok (VString t), (t, w.2)) | _ => (Err (Execution "text"), w) end;
     ti_verify := λ _ _ w, if verifies then (Ok (), w) else (Err (Postcondition "unread"), w);
     ti_snapshot_current := λ _ w, (Ok (Some "rescue"), w);
     ti_rollback := λ _ _ w, (Ok (VString w.2), (w.2, w.1));
     ti_verify_rollback := λ _ _ _ w, (Ok (), w) |}.

Definition note_vec (v : Value) : string + list Ascii.ascii :=
  match v with VString t => inr (bytes t) | _ => inl "unsupported" end.

Definition note_call (text : string) : ToolCall :=
  mkToolCall 1%N 7%N None "note.write" "note" (VString text) {[UserInstruction]} {["note"]}
    (S754_zero false) false true true.

Definition note_grant : ConsentGrant :=
  mkConsentGrant 3%N 7%N None {["note.write"]} {[LocalWrite]} {["note"]}
    100%Z 1%N 0%N (Some (S754_zero false)) false false.

Definition note_gateway (verifies : bool) : ToolGateway (string * string) :=
  register (note_tool verifies) (gateway_new 64).


Lemma successful_call_passed_every_stage_witness :
  ∃ out s', call note_vec (λ _, 5%Z) 5%Z (note_call "ghp_secret") [note_grant]
              (note_gateway true, ("old", "")) = (Ok out, s') ∧
    to_value out = VString "[REDACTED]" ∧ clean (to_value out) ∧ s'.2 = ("ghp_secret", "old").
Proof.
  eexists _, _. split; [vm_compute; reflexivity|]. split; [reflexivity|].
  split; [|vm_compute; reflexivity].
  edestruct (successful_call_passed_every_stage note_vec (λ _, 5%Z) 5%Z (note_call "ghp_secret")
    [note_grant] (note_gateway true, ("old", "")))
    as (tool & label & consent & w1 & raw & w2 & encoded & Hall);
    [vm_compute; reflexivity|].
  cbv zeta in Hall. destruct Hall as (_ & _ & _ & _ & _ & _ & _ & Hclean & _). exact Hclean.
Defined.

Lemma unverified_effect_is_unrecorded_witness :
  call note_vec (λ _, 5%Z) 5%Z (note_call "new") [note_grant] (note_gateway false, ("old", "")) =
    (Err (Postcondition "unread"), (note_gateway false, ("new", "old"))).
Proof.
  eapply (unverified_effect_is_unrecorded note_vec (λ _, 5%Z) 5%Z (note_call "new") [note_grant]);
    try (vm_compute; reflexivity).
  vm_compute. lia.
Defined.

Lemma rollback_preserves_current_state_first_witness :
  ∃ out s', rollback note_vec 5%Z (note_call "new") "before" (note_gateway true, ("new", "old"))
      = (Ok out, s') ∧
    s'.2 = ("old", "new") ∧ gw_egress s'.1 = gw_egress (note_gateway true).
Proof.
  eexists _, _. split; [vm_compute; reflexivity|]. split; [vm_compute; reflexivity|].
  edestruct (rollback_preserves_current_state_first note_vec 5%Z (note_call "new") "before"
    (note_gateway true, ("new", "old"))) as (tool & w1 & raw & w2 & encoded & Hall);
    [vm_compute; reflexivity|].
  destruct Hall as (_ & _ & _ & _ & _ & _ & _ & _ & Hegress & _). exact Hegress.
Defined.

Lemma no_restore_without_rescue_witness :
  ∃ r w', rollback note_vec 5%Z (mkToolCall 1%N 7%N None "note.read" "note" VNull ∅ ∅
            (S754_zero false) false true true) "before" (note_gateway true, ("new", "old"))
      = (r, (note_gateway true, w')) ∧ is_ok r = false.
Proof.
  edestruct (no_restore_without_rescue note_vec 5%Z (mkToolCall 1%N 7%N None "note.read" "note"
    VNull ∅ ∅ (S754_zero false) false true true) "before" (note_gateway true) ("new", "old"))
    as (r & w' & Hrun & Herr & _); [|by eauto].
  intros tool Htool. vm_compute in Htool. discriminate.
Defined.
