(* ===== verification/RuntimeBridge.v ===== *)
(** * The native tool bridge

    Models the loopback server of [crates/runtime/src/lib.rs] through which the coding
    sidecar asks for authorization: [read_bridge_request], which reads one HTTP request from
    the chunks a socket delivers, [handle_bridge_connection], [execute_bridge_request] with
    the registered sessions and the tool gateway, [RuntimeStatusTool], and [prompt_parts].
    The decoder of the request body is a parameter. *)

From stdpp Require Import base gmap strings list pretty.
From Stdlib Require Import Ascii SpecFloat.
From S2P Require Import Prelude Text McpText McpModel Policy Redaction Gateway RuntimeGuard.

(** ** Reading a request *)

Record BridgeRequest : Type := mkBridgeRequest {
  br_session_id : string;
  br_directory : string;
  br_operation : option string;
  br_tool : option string;
  br_arguments : Value;
}.

Definition MAX_REQUEST_BYTES : N := 32 * 1024.
Definition blen (l : list ascii) : N := N.of_nat (length l).
Definition crlf : list ascii := [cr; lf].
Definition header_mark : list ascii := crlf ++ crlf.

(** One [stream.read]: the next chunk; the end of the stream, or an error, is a refusal. *)
Fixpoint read_headers (buffer : list ascii) (chunks : list (list ascii))
    : outcome N (nat * list ascii * list (list ascii)) :=
  if (MAX_REQUEST_BYTES <=? blen buffer)%N then Err 413%N
  else match chunks with
  | [] | [] :: _ => Err 400%N
  | chunk :: chunks =>
    let buffer := buffer ++ chunk in
    match find_bytes header_mark buffer with
    | Some index => Ok (index + 4, buffer, chunks)
    | None => read_headers buffer chunks
    end
  end.

(** [headers.split("\r\n")] *)
Fixpoint split_crlf (cur l : list ascii) : list (list ascii) :=
  match l with
  | [] => [reverse cur]
  | c :: l' =>
    match l' with
    | d :: l'' =>
      if decide (c = cr ∧ d = lf) then reverse cur :: split_crlf [] l''
      else split_crlf (c :: cur) l'
    | [] => [reverse (c :: cur)]
    end
  end.

Definition header_step (acc : option string * option N) (line : string)
    : outcome N (option string * option N) :=
  match split_once ":"%char line with
  | None => Ok acc
  | Some (name, value) =>
    let name := to_ascii_lowercase (trim name) in
    if bool_decide (name = "authorization") then Ok (Some (trim value), acc.2)
    else if bool_decide (name = "content-length") then
      match parse_u64 (bytes (trim value)) with
      | Some n => Ok (acc.1, Some n)
      | None => Err 400%N
      end
    else Ok acc
  end.

Fixpoint header_fold (acc : option string * option N) (lines : list string)
    : outcome N (option string * option N) :=
  match lines with
  | [] => Ok acc
  | line :: lines => acc ← header_step acc line; header_fold acc lines
  end.

Definition request_line : string := "POST /v1/tools/runtime-status HTTP/1.1".

(** The authorization header, if there is one, and the content length. *)
Definition parse_headers (header_end : nat) (buffer : list ascii)
    : outcome N (option string * N) :=
  let headers := take header_end buffer in
  if negb (utf8_valid headers) then Err 400%N
  else
    let lines := of_bytes <$> split_crlf [] headers in
    _ ← ensure_not (negb (bool_decide (head lines = Some request_line))) 404%N;
    acc ← header_fold (None, None) (tail lines);
    match acc.2 with
    | None => Err 411%N
    | Some content_length =>
      if (MAX_REQUEST_BYTES <? sat_add u64_max (N.of_nat header_end) content_length)%N
      then Err 413%N else Ok (acc.1, content_length)
    end.

Fixpoint read_body (needed : N) (buffer : list ascii) (chunks : list (list ascii))
    : outcome N (list ascii) :=
  if (blen buffer <? needed)%N then
    match chunks with
    | [] | [] :: _ => Err 400%N
    | chunk :: chunks =>
      let buffer := buffer ++ chunk in
      if (MAX_REQUEST_BYTES <? blen buffer)%N then Err 413%N else read_body needed buffer chunks
    end
  else Ok buffer.

Definition sub_bytes (from len : nat) (l : list ascii) : list ascii := take len (drop from l).

Section reading.
(** [serde_json::from_slice::<BridgeRequest>] *)
Context (decode : list ascii → option BridgeRequest).

Definition decode_body (authorization : option string) (body : list ascii)
    : outcome N (string * BridgeRequest) :=
  match decode body with
  | None => Err 400%N
  | Some request =>
    match authorization with Some a => Ok (a, request) | None => Err 401%N end
  end.

Definition read_bridge_request (chunks : list (list ascii)) : outcome N (string * BridgeRequest) :=
  '(header_end, buffer, chunks) ← read_headers [] chunks;
  '(authorization, content_length) ← parse_headers header_end buffer;
  buffer ← read_body (N.of_nat header_end + content_length) buffer chunks;
  decode_body authorization (sub_bytes header_end (N.to_nat content_length) buffer).
End reading.

(** ** Executing a request *)

Definition obj1 (key value : string) : Value := VObject [(key, VString value)].
Definition reply_error (reason : string) : Value := obj1 "error" reason.

Definition display_path (p : Path) : string := "/" +:+ join "/" p.

Definition status_descriptor : ToolDescriptor :=
  mkToolDescriptor "runtime.status" "1.0.0" "Report the native Personal Agent tool gateway status"
    {["runtime.observe"]} Read Observe Safe false {[TrustedLocalState]} {[AgentGenerated]} false.

Definition status_value : Value :=
  VObject [("boundary", VString "native-tool-gateway"); ("ready", VBool true)].

Definition RuntimeStatusTool {W} : ToolImplementation W := {|
  ti_descriptor := status_descriptor;
  ti_validate_input input :=
    match as_object input with
    | Some [] => Ok ()
    | _ => Err (InvalidInput "empty object required")
    end;
  ti_checkpoint _ := mret None;
  ti_execute _ := mret status_value;
  ti_verify _ output :=
    if bool_decide (value_get "ready" output ≫= as_bool = Some true) then mret ()
    else throw (Postcondition "native gateway did not report ready");
  ti_snapshot_current := default_snapshot_current;
  ti_rollback := default_rollback;
  ti_verify_rollback := default_verify_rollback;
|}.

(** The gateway [NativeToolBridge::start] creates. *)
Definition bridge_gateway {W} : ToolGateway W := register RuntimeStatusTool (gateway_new (16 * 1024)).

Definition status_call (call_id : Uuid) (directory : Path) : ToolCall :=
  mkToolCall call_id 0%N None "runtime.status" (display_path directory) (VObject [])
    {[AgentGenerated]} {["runtime.observe"]} f64_zero false true false.

Section bridge.
Context `{FileSystem} {W : Type} (to_vec : Value → string + list ascii).
(** Instants of the policy check and of the audit, and the identifier of the call. *)
Context (clock : nat → DateTime) (at_ : DateTime) (call_id : Uuid).
Context (current_dir : Path).

(** The registered sessions; [None] is a poisoned lock. *)
Definition session_authorized (sessions : option (gmap string Path)) (session_id : string)
    (directory : Path) : bool :=
  match sessions with
  | Some registered => bool_decide (registered !! session_id = Some directory)
  | None => false
  end.

(** [std::fs::canonicalize] of a text: relative paths start at the current directory, the empty
    path and one with a NUL byte are errors. *)
Definition request_directory (directory : string) : option Path :=
  if is_empty directory || contains_byte nul directory then None
  else canonicalize (candidate_path current_dir directory).

Definition authorize_reply (request : BridgeRequest) (directory : Path) : N * Value :=
  match br_tool request with
  | None => (400%N, reply_error "coding tool is required")
  | Some tool =>
    match authorize_coding_tool tool (br_arguments request) directory with
    | Ok _ => (200%N, VObject [("authorized", VBool true); ("boundary", VString "native-tool-gateway");
                               ("tool", VString tool)])
    | Err reason => (403%N, reply_error reason)
    | Panic => (403%N, VNull)
    end
  end.

Definition execute_bridge_request (sessions : option (gmap string Path)) (request : BridgeRequest)
    (s : ToolGateway W * W) : (N * Value) * (ToolGateway W * W) :=
  match request_directory (br_directory request) with
  | None => ((403%N, reply_error "session scope denied"), s)
  | Some directory =>
    if negb (session_authorized sessions (br_session_id request) directory) then
      ((403%N, reply_error "session scope denied"), s)
    else if bool_decide (br_operation request = Some "authorize") then
      (authorize_reply request directory, s)
    else
      match call to_vec clock at_ (status_call call_id directory) [] s with
      | (Ok output, s) => ((200%N, to_value output), s)
      | (_, s) => ((403%N, reply_error "tool call denied"), s)
      end
  end.

Definition handle_bridge_connection (decode : list ascii → option BridgeRequest) (token : string)
    (sessions : option (gmap string Path)) (chunks : list (list ascii)) (s : ToolGateway W * W)
    : (N * Value) * (ToolGateway W * W) :=
  match read_bridge_request decode chunks with
  | Ok (authorization, request) =>
    if bool_decide (authorization = "Bearer " +:+ token) then
      execute_bridge_request sessions request s
    else ((401%N, reply_error "unauthorized"), s)
  | Err status => ((status, reply_error "invalid request"), s)
  | Panic => ((500%N, VNull), s)
  end.
End bridge.

(** ** Prompts *)

Definition attachment_part (attachment : Value) : outcome string Value :=
  match as_object attachment with
  | None => Err "prompt attachment must be an object"
  | Some object =>
    let field key := object_get key object ≫= as_str in
    let mime := default "" (field "mime") in
    let url := default "" (field "url") in
    let filename := default "attachment" (field "filename") in
    _ ← ensure_not
          (negb (bool_decide (field "type" = Some "file"))
           || is_empty mime || (255 <? N.of_nat (str_len mime))%N
           || is_empty filename || (512 <? N.of_nat (str_len filename))%N
           || negb (str_starts_with "data:" url)
           || (36 * 1024 * 1024 <? N.of_nat (str_len url))%N)
          "prompt attachment is invalid or exceeds the 25 MiB limit";
    Ok (VObject [("filename", VString filename); ("mime", VString mime); ("type", VString "file");
                 ("url", VString url)])
  end.

Fixpoint attachment_parts (parts : list Value) (attachments : list Value)
    : outcome string (list Value) :=
  match attachments with
  | [] => Ok parts
  | attachment :: attachments =>
    part ← attachment_part attachment;
    attachment_parts (parts ++ [part]) attachments
  end.

Definition prompt_parts (prompt : string) (attachments : list Value)
    : outcome string (list Value) :=
  if is_blank prompt then Err "prompt must not be blank"
  else attachment_parts [VObject [("text", VString prompt); ("type", VString "text")]] attachments.

(** ** Reading does not depend on how the request is split into chunks *)

(** The request in a text that is there as a whole. *)
Definition read_whole (decode : list ascii → option BridgeRequest) (text : list ascii)
    : outcome N (string * BridgeRequest) :=
  match find_bytes header_mark text with
  | None => Err 400%N
  | Some index =>
    '(authorization, content_length) ← parse_headers (index + 4) text;
    if (blen text <? N.of_nat (index + 4) + content_length)%N then Err 400%N
    else decode_body decode authorization
           (sub_bytes (index + 4) (N.to_nat content_length) text)
  end.

Lemma blen_app a b : blen (a ++ b) = (blen a + blen b)%N.
Proof. unfold blen. rewrite length_app. lia. Qed.

Lemma parse_headers_app header_end buffer rest :
  header_end ≤ length buffer →
  parse_headers header_end (buffer ++ rest) = parse_headers header_end buffer.
Proof. intros Hle. unfold parse_headers. by rewrite take_app_le. Qed.

Lemma read_headers_whole buffer chunks :
  Forall (.≠ []) chunks → (blen (buffer ++ concat chunks) < MAX_REQUEST_BYTES)%N →
  find_bytes header_mark buffer = None →
  match find_bytes header_mark (buffer ++ concat chunks) with
  | None => read_headers buffer chunks = Err 400%N
  | Some index => ∃ buffer' chunks', read_headers buffer chunks = Ok (index + 4, buffer', chunks') ∧
      buffer' ++ concat chunks' = buffer ++ concat chunks ∧ index + 4 ≤ length buffer' ∧
      Forall (.≠ []) chunks'
  end.
Proof.
  revert buffer; induction chunks as [|chunk chunks IH]; intros buffer Hne Hlen Hnone;
    rewrite blen_app in Hlen; simpl in *.
  - rewrite app_nil_r, Hnone. destruct (N.leb_spec MAX_REQUEST_BYTES (blen buffer)); [lia|done].
  - apply Forall_cons in Hne as [Hc Hne].
    destruct (N.leb_spec MAX_REQUEST_BYTES (blen buffer)); [lia|].
    destruct chunk as [|c chunk]; [done|]. change ((c :: chunk) ++ concat chunks) with ((c :: chunk) ++ concat chunks).
    rewrite app_assoc.
    destruct (find_bytes header_mark (buffer ++ c :: chunk)) as [index|] eqn:Hfind.
    + rewrite (find_bytes_app _ _ (concat chunks) _ Hfind). eexists _, _. split_and!; [done..| |done].
      apply find_bytes_bound in Hfind. simpl in Hfind. lia.
    + apply IH; [done| |done]. rewrite <- app_assoc, blen_app. done.
Qed.

Lemma read_body_whole needed buffer chunks :
  Forall (.≠ []) chunks → (blen (buffer ++ concat chunks) < MAX_REQUEST_BYTES)%N →
  if (blen (buffer ++ concat chunks) <? needed)%N then read_body needed buffer chunks = Err 400%N
  else ∃ rest, read_body needed buffer chunks = Ok rest ∧ rest `prefix_of` buffer ++ concat chunks ∧
    (needed <= blen rest)%N.
Proof.
  revert buffer; induction chunks as [|chunk chunks IH]; intros buffer Hne Hlen; simpl in *.
  - rewrite app_nil_r in *. destruct (N.ltb_spec (blen buffer) needed); [done|]. by eexists.
  - apply Forall_cons in Hne as [Hc Hne]. rewrite app_assoc in *.
    specialize (IH (buffer ++ chunk) Hne Hlen). rewrite !blen_app in *.
    destruct (N.ltb_spec (blen buffer) needed).
    + destruct chunk as [|c chunk]; [done|].
      destruct (N.ltb_spec MAX_REQUEST_BYTES (blen buffer + blen (c :: chunk))); [lia|]. done.
    + destruct (N.ltb_spec (blen buffer + blen chunk + blen (concat chunks)) needed); [lia|].
      exists buffer. split_and!; [done| |done]. rewrite <- app_assoc. by apply prefix_app_r.
Qed.

Lemma sub_bytes_prefix from len l text :
  l `prefix_of` text → from + len ≤ length l → sub_bytes from len l = sub_bytes from len text.
Proof.
  intros [r ->] Hle. unfold sub_bytes. rewrite drop_app_le by lia.
  rewrite take_app_le; [done|]. rewrite length_drop. lia.
Qed.

(** The bridge reads a request the same way however the socket splits it: for every
    sequence of non-empty chunks of less than the size limit in all, the result is that of
    parsing the text as a whole. *)
Theorem bridge_reading_ignores_chunks decode chunks :
  Forall (.≠ []) chunks → (blen (concat chunks) < MAX_REQUEST_BYTES)%N →
  read_bridge_request decode chunks = read_whole decode (concat chunks).
Proof.
  intros Hne Hlen. unfold read_bridge_request, read_whole.
  pose proof (read_headers_whole [] chunks Hne Hlen eq_refl) as Hheaders. simpl in Hheaders.
  destruct (find_bytes header_mark (concat chunks)) as [index|]; [|by rewrite Hheaders].
  destruct Hheaders as (buffer & rest & -> & Happ & Hle & Hrest). munfold.
  rewrite <- Happ, parse_headers_app by done. rewrite <- Happ in Hlen.
  destruct (parse_headers (index + 4) buffer) as [[authorization n]|e|]; [|done..].
  pose proof (read_body_whole (N.of_nat (index + 4) + n) buffer rest Hrest Hlen) as Hbody.
  destruct (N.ltb_spec (blen (buffer ++ concat rest)) (N.of_nat (index + 4) + n)).
  - by rewrite Hbody.
  - destruct Hbody as (body & -> & Hpre & Hneed). unfold blen in *.
    rewrite (sub_bytes_prefix _ _ body (buffer ++ concat rest)); [done|done|lia].
Qed.

(** ** Who is served *)

Lemma header_fold_errors acc lines e : header_fold acc lines = Err e → e = 400%N.
Proof.
  revert acc; induction lines as [|line lines IH]; intros acc; simpl; [done|]. munfold.
  unfold header_step. repeat case_match; naive_solver.
Qed.

Lemma parse_headers_errors n buffer e :
  parse_headers n buffer = Err e → e ∈ [400; 404; 411; 413]%N.
Proof.
  unfold parse_headers, ensure_not. munfold. intros Hparse.
  repeat case_match; simplify_eq/=; try set_solver.
  match goal with Hf : header_fold _ _ = Err _ |- _ => apply header_fold_errors in Hf; set_solver end.
Qed.

Lemma read_headers_errors buffer chunks e :
  read_headers buffer chunks = Err e → e ∈ [400; 413]%N.
Proof.
  revert buffer; induction chunks as [|[|c chunk] chunks IH]; intros buffer; simpl;
    case_match; [set_solver..|]. case_match; [done|]. apply IH.
Qed.

Lemma read_body_errors needed buffer chunks e :
  read_body needed buffer chunks = Err e → e ∈ [400; 413]%N.
Proof.
  revert buffer; induction chunks as [|[|c chunk] chunks IH]; intros buffer; simpl;
    repeat case_match; try done; first [apply IH|set_solver].
Qed.

Lemma read_errors decode chunks e :
  read_bridge_request decode chunks = Err e → e ∈ [400; 401; 404; 411; 413]%N.
Proof.
  unfold read_bridge_request, decode_body. munfold. intros Hread.
  destruct (read_headers [] chunks) as [[[n buffer] rest]|e'|] eqn:Hh; [|simplify_eq|done].
  2:{ apply read_headers_errors in Hh. set_solver. }
  destruct (parse_headers n buffer) as [[a len]|e'|] eqn:Hp; [|simplify_eq|done].
  2:{ apply parse_headers_errors in Hp. set_solver. }
  destruct (read_body _ buffer rest) as [body|e'|] eqn:Hb; [|simplify_eq|done].
  2:{ apply read_body_errors in Hb. set_solver. }
  repeat case_match; simplify_eq; set_solver.
Qed.

Section bridge_theorems.
Context `{FileSystem} {W : Type} (to_vec : Value → string + list ascii).
Context (clock : nat → DateTime) (at_ : DateTime) (call_id : Uuid) (current_dir : Path).
Context (decode : list ascii → option BridgeRequest) (token : string).
Implicit Types (s : ToolGateway W * W).

Abbreviation handle := (handle_bridge_connection to_vec clock at_ call_id current_dir decode token).

(** The session a request names is registered for the directory it names. *)
Definition in_session (sessions : option (gmap string Path)) (request : BridgeRequest)
    (directory : Path) : Prop :=
  request_directory current_dir (br_directory request) = Some directory ∧
  ∃ registered, sessions = Some registered ∧
    registered !! br_session_id request = Some directory.

Lemma session_authorized_true sessions id directory :
  session_authorized sessions id directory = true ↔
  ∃ registered, sessions = Some registered ∧ registered !! id = Some directory.
Proof. destruct sessions; simpl; rewrite ?bool_decide_eq_true; naive_solver. Qed.

Lemma authorize_reply_200 request directory v :
  authorize_reply request directory = (200%N, v) →
  ∃ tool, br_tool request = Some tool ∧ Authorized tool (br_arguments request) directory.
Proof.
  unfold authorize_reply. destruct (br_tool request) as [tool|]; [|done].
  destruct (authorize_coding_tool _ _ _) as [[]|e|] eqn:Hauth; [|done..]. intros _.
  exists tool. split; [done|]. by apply authorize_coding_tool_ok.
Qed.

(** The bridge serves only authenticated requests of registered sessions.  A success reply
    means that the request carried the bearer token and that its session is registered for
    the canonical form of the directory it names; for an authorization request the tool call
    satisfies the coding-tool guard and nothing changes; otherwise the status call passed the
    gateway and its output is the reply. *)
Theorem bridge_serves_only_registered_sessions sessions chunks s v s' :
  handle sessions chunks s = ((200%N, v), s') →
  ∃ request directory,
    read_bridge_request decode chunks = Ok ("Bearer " +:+ token, request) ∧
    in_session sessions request directory ∧
    ((br_operation request = Some "authorize" ∧ s' = s ∧
      ∃ tool, br_tool request = Some tool ∧ Authorized tool (br_arguments request) directory) ∨
     (br_operation request ≠ Some "authorize" ∧
      ∃ output, call to_vec clock at_ (status_call call_id directory) [] s = (Ok output, s') ∧
        v = to_value output)).
Proof.
  unfold handle_bridge_connection, execute_bridge_request. intros Hrun.
  destruct (read_bridge_request decode chunks) as [[a request]|e|] eqn:Hread.
  2:{ simplify_eq. apply read_errors in Hread. set_solver. }
  2:{ done. }
  case_bool_decide; [|done]. subst a.
  destruct (request_directory _ _) as [directory|] eqn:Hdir; [|done].
  destruct (session_authorized _ _ _) eqn:Hsess; [|done].
  apply session_authorized_true in Hsess. exists request, directory.
  split; [done|]. split; [by split|].
  change (negb true) with false in Hrun. cbn match in Hrun.
  case_bool_decide as Hop; [left|right].
  - injection Hrun as Hreply <-. apply authorize_reply_200 in Hreply. eauto.
  - split; [done|]. destruct (call _ _ _ _ _ _) as [[output|e|] s1] eqn:Hcall; [|done..].
    simplify_eq. eauto.
Qed.

(** No request leaves a trace but that of a status call. *)
Lemma bridge_state sessions chunks s :
  (handle sessions chunks s).2 = s ∨
  ∃ directory, (handle sessions chunks s).2 =
    (call to_vec clock at_ (status_call call_id directory) [] s).2.
Proof.
  unfold handle_bridge_connection, execute_bridge_request.
  repeat case_match; simplify_eq/=; eauto; right; eexists;
    match goal with Hc : call _ _ _ _ _ _ = _ |- _ => by rewrite Hc end.
Qed.
End bridge_theorems.

(** ** An exchange *)

Definition example_request : BridgeRequest :=
  mkBridgeRequest "s1" "/home/work" (Some "authorize") (Some "read")
    (VObject [("path", VString "main.rs")]).

(** A decoder that knows one body. *)
Definition example_decode (body : list ascii) : option BridgeRequest :=
  if bool_decide (body = bytes "{}") then Some example_request else None.

Definition example_text : list ascii :=
  bytes request_line ++ crlf ++ bytes "Authorization: Bearer t" ++ crlf ++ bytes "Content-Length: 2"
    ++ header_mark ++ bytes "{}".
(** Split inside the header mark. *)
Definition example_chunks : list (list ascii) := [take 83 example_text; drop 83 example_text].

Definition example_sessions : option (gmap string Path) := Some {["s1" := ["home"; "work"]]}.

Lemma bridge_reading_ignores_chunks_witness :
  read_bridge_request example_decode example_chunks = Ok ("Bearer t", example_request).
Proof.
  rewrite (bridge_reading_ignores_chunks example_decode example_chunks).
  - vm_compute. reflexivity.
  - repeat constructor; discriminate.
  - vm_compute. reflexivity.
Defined.

Lemma bridge_serves_only_registered_sessions_witness :
  ∃ request directory,
    read_bridge_request example_decode example_chunks = Ok ("Bearer t", request) ∧
    @in_session home [] example_sessions request directory.
Proof.
  destruct (@bridge_serves_only_registered_sessions home () (λ _, inr []) (λ _, 0%Z) 0%Z 0%N []
    example_decode "t" example_sessions example_chunks (bridge_gateway, ())
    (VObject [("authorized", VBool true); ("boundary", VString "native-tool-gateway");
              ("tool", VString "read")]) (bridge_gateway, ()))
    as (request & directory & Hread & Hsession & _); [reflexivity|].
  exists request, directory. split; [exact Hread|exact Hsession].
Defined.

Definition status_decision (clock : nat → DateTime) (call_id : Uuid) (directory : Path)
    : PolicyDecision :=
  decide_call clock (call_context status_descriptor (status_call call_id directory)) [].

Lemma status_allowed clock call_id directory :
  ∃ label, status_decision clock call_id directory = Allow label None.
Proof. eexists. vm_compute. reflexivity. Qed.

(** A registered session's status request on the bridge's own gateway is answered, and audited
    once, when the encoder can encode the status. *)
Lemma status_requests_are_answered {W} (to_vec : Value → string + list ascii) clock at_ call_id
    directory encoded (w : W) :
  to_vec status_value = inr encoded → length encoded ≤ 16 * 1024 →
  ∃ output s', call to_vec clock at_ (status_call call_id directory) [] (bridge_gateway, w) = (Ok output, s') ∧
    to_value output = status_value ∧ length (gw_audits s'.1) = 1 ∧ s'.2 = w.
Proof.
  intros Hvec Hlen.
  destruct (status_allowed clock call_id directory) as (label & Hd). unfold status_decision in Hd.
  unfold call. munfold. rewrite lookup_insert_eq. munfold. rewrite Hd.
  unfold execute_audited, finish_call, encode, on_world. munfold.
  match goal with |- context [to_vec ?v] => change v with status_value end. rewrite Hvec.
  munfold.
  match goal with |- context [?n <? length encoded] =>
    destruct (Nat.ltb_spec n (length encoded)) end; [lia|].
  eexists _, _. split; [reflexivity|]. done.
Qed.
