(* ===== verification/Plugins.v ===== *)
(** * Plugins, skills, packs and pairing

    Models [crates/plugins/src/lib.rs]: the inspection of plugin manifests, the skill registry
    with its progressive loading, official packs and their connectors
    ([OfficialPackRuntime]), and the pairing of remote clients with its proof of possession.
    SHA-256 and the file system are interfaces; the identifiers, nonces and codes an operation
    draws are its arguments. *)

From stdpp Require Import base gmap strings list sorting pretty.
From Stdlib Require Import Ascii.
From S2P Require Import Prelude Text McpText McpModel RuntimeGuard.

(** ** Data *)

Inductive PluginRuntime : Type := Declarative | Wasi | Process.

Record PluginManifest : Type := mkPluginManifest {
  pl_id : string;
  pl_name : string;
  pl_version : string;
  pl_publisher : string;
  pl_runtime : PluginRuntime;
  pl_entrypoint : option string;
  pl_scopes : gset string;
  pl_signed : bool;
  pl_renderer_code : bool;
}.

Inductive SkillRequirement : Type :=
  | OperatingSystem (value : string)
  | Binary (value : string)
  | Environment (value : string)
  | Configuration (value : string).

(** [SkillRequirements] carries the requirement whose debug text the source stores. *)
Inductive PluginError : Type :=
  | Unsigned
  | RendererCode
  | PolicyRewrite (scope : string)
  | InvalidPack (reason : string)
  | UnknownCapability (capability : string)
  | AlreadyInstalled (id : string)
  | MissingConnector (id : string)
  | ConnectorDisabled (id : string)
  | ConnectorScope (scope : string)
  | ConnectorAuthorizationError
  | ConnectorCredential
  | ConnectorConsent
  | ConnectorUntrusted
  | ConnectorAdapterFailed
  | InvalidPairing
  | PairingCapability (capability : string)
  | PairingRevoked
  | InvalidSkill (reason : string)
  | MissingSkill (id : string)
  | SkillRequirements (requirement : SkillRequirement)
  | SkillApprovalRequired
  | SkillRead (reason : string).

Inductive SkillState : Type := Proposed | SkillDisabled | SkillEnabled.

(** The requirements are listed in the order of the set. *)
Record SkillMetadata : Type := mkSkillMetadata {
  sk_id : string;
  sk_name : string;
  sk_relative_path : string;
  sk_triggers : gset string;
  sk_requirements : list SkillRequirement;
  sk_scopes : gset string;
  sk_authored_by_agent : bool;
  sk_state : SkillState;
}.
Global Instance SkillMetadata_eta : Eta SkillMetadata :=
  λ r, mkSkillMetadata (sk_id r) (sk_name r) (sk_relative_path r) (sk_triggers r) (sk_requirements r)
    (sk_scopes r) (sk_authored_by_agent r) (sk_state r).
Global Instance SkillState_eq_dec : EqDecision SkillState.
Proof. solve_decision. Defined.

Record RequirementContext : Type := mkRequirementContext {
  rc_operating_system : string;
  rc_binaries : gset string;
  rc_environment_names : gset string;
  rc_configuration_keys : gset string;
}.

(** The elements of a set of strings in order, and the first that satisfies a test. *)
Definition in_order (X : gset string) : list string := merge_sort str_le (elements X).
Definition find_in_order (f : string → bool) (X : gset string) : option string := find f (in_order X).

Definition policy_scope (scope : string) : bool := str_starts_with "core.policy." scope.

Definition inspect (manifest : PluginManifest) (allow_unsigned : bool) : outcome PluginError () :=
  _ ← ensure_not (negb (pl_signed manifest) && negb allow_unsigned) Unsigned;
  _ ← ensure_not (pl_renderer_code manifest) RendererCode;
  match find_in_order policy_scope (pl_scopes manifest) with
  | Some scope => Err (PolicyRewrite scope)
  | None => Ok ()
  end.

(** ** Skills *)

Abbreviation SkillRegistry := (gmap string SkillMetadata).
Abbreviation SkM := (M SkillRegistry PluginError).

(** Every component is a name or a current directory. *)
Definition safe_path (path : string) : bool :=
  negb (is_absolute path) && negb (bool_decide (".." ∈ components path)).

Definition invalid_skill (metadata : SkillMetadata) : bool :=
  is_blank (sk_id metadata) || is_blank (sk_name metadata)
  || bool_decide (sk_triggers metadata = ∅) || negb (safe_path (sk_relative_path metadata))
  || negb (bool_decide (last (components (sk_relative_path metadata)) = Some "SKILL.md"))
  || bool_decide (is_Some (find_in_order policy_scope (sk_scopes metadata))).

Definition index (metadata : SkillMetadata) : SkM () :=
  _ ← reject_if (invalid_skill metadata) (InvalidSkill (sk_id metadata));
  let metadata := if sk_authored_by_agent metadata then metadata <| sk_state := Proposed |> else metadata in
  modify (<[sk_id metadata := metadata]>).

Definition enable (id : string) (user_confirmed : bool) : SkM () :=
  skills ← get;
  skill ← ok_or (skills !! id) (MissingSkill id);
  _ ← reject_if (sk_authored_by_agent skill && negb user_confirmed) SkillApprovalRequired;
  modify (<[id := skill <| sk_state := SkillEnabled |>]>).

Definition requirement_met (context : RequirementContext) (requirement : SkillRequirement) : bool :=
  match requirement with
  | OperatingSystem value => bool_decide (value = rc_operating_system context)
  | Binary value => bool_decide (value ∈ rc_binaries context)
  | Environment value => bool_decide (value ∈ rc_environment_names context)
  | Configuration value => bool_decide (value ∈ rc_configuration_keys context)
  end.

(** The file operations of the loader, with the text of their errors. *)
Class SkillFiles : Type := {
  canonical_path : Path → string + Path;
  is_file : Path → bool;
  file_len : Path → string + N;
  read_to_string : Path → string + string;
}.

Definition io {A} (r : string + A) : outcome PluginError A :=
  match r with inl e => Err (SkillRead e) | inr a => Ok a end.

Definition load_for_trigger `{SkillFiles} (skills : SkillRegistry) (root : Path) (id trigger : string)
    (context : RequirementContext) : outcome PluginError (string * string) :=
  skill ← (match skills !! id with Some skill => Ok skill | None => Err (MissingSkill id) end);
  _ ← ensure_not (negb (bool_decide (sk_state skill = SkillEnabled))
                  || negb (bool_decide (trigger ∈ sk_triggers skill)))
        (InvalidSkill "skill is disabled or trigger did not match");
  _ ← (match find (λ r, negb (requirement_met context r)) (sk_requirements skill) with
       | Some requirement => Err (SkillRequirements requirement)
       | None => Ok ()
       end);
  root ← io (canonical_path root);
  path ← io (canonical_path (candidate_path root (sk_relative_path skill)));
  _ ← ensure_not (negb (path_starts_with path root) || negb (is_file path))
        (SkillRead "path left the skill root");
  len ← io (file_len path);
  _ ← ensure_not (256 * 1024 <? len)%N (SkillRead "body exceeds 256 KiB");
  body ← io (read_to_string path);
  Ok (id, body).

(** ** Packs *)

Inductive PackCategory : Type :=
  | Productivity | Development | Communications | SmartHome | Media | Research | Dictation
  | Creative | BrowserPack | Remote.

Record ConnectorDeclaration : Type := mkConnectorDeclaration {
  cd_id : string;
  cd_transport : string;
  cd_authorization : string;
  cd_credential_aliases : gset string;
  cd_scopes : gset string;
  cd_enabled_by_default : bool;
}.
Global Instance ConnectorDeclaration_eta : Eta ConnectorDeclaration :=
  λ r, mkConnectorDeclaration (cd_id r) (cd_transport r) (cd_authorization r)
    (cd_credential_aliases r) (cd_scopes r) (cd_enabled_by_default r).

Record PackManifest : Type := mkPackManifest {
  pk_schema_version : N;
  pk_id : string;
  pk_name : string;
  pk_version : string;
  pk_category : PackCategory;
  pk_publisher : string;
  pk_official : bool;
  pk_capabilities : gset string;
  pk_connectors : list ConnectorDeclaration;
  pk_evaluation_ids : gset string;
  pk_install_disabled : bool;
}.

(** [alias.split('/').count()] *)
Definition slash_count (s : string) : nat := S (length (filter (λ c, c = "/"%char) (bytes s))).

Definition bad_alias (alias : string) : bool :=
  negb (str_starts_with "keychain://" alias) || negb (slash_count alias =? 4).

Definition check_connector (connector : ConnectorDeclaration) : outcome PluginError () :=
  ensure_not (cd_enabled_by_default connector || is_blank (cd_id connector)
      || bool_decide (cd_scopes connector = ∅)
      || bool_decide (is_Some (find_in_order bad_alias (cd_credential_aliases connector))))
    (InvalidPack ("connector " +:+ cd_id connector +:+ " must be disabled and use keychain aliases")).

Definition pack_validate (known_capabilities : gset string) (p : PackManifest)
    : outcome PluginError () :=
  _ ← ensure_not (negb (pk_schema_version p =? 1)%N || is_blank (pk_id p) || is_blank (pk_name p)
        || is_blank (pk_version p) || negb (bool_decide (pk_publisher p = "Personal Agent"))
        || negb (pk_official p) || negb (pk_install_disabled p)
        || bool_decide (pk_capabilities p = ∅) || bool_decide (pk_evaluation_ids p = ∅))
        (InvalidPack "identity, publisher, capabilities, evaluations, and disabled install are required");
  _ ← (match find_in_order (λ c, negb (bool_decide (c ∈ known_capabilities))) (pk_capabilities p) with
       | Some capability => Err (UnknownCapability capability)
       | None => Ok ()
       end);
  try_for_each check_connector (pk_connectors p).

Abbreviation PackRegistry := (gmap string PackManifest).

Definition registry_install (manifest : PackManifest) (known_capabilities : gset string)
    : M PackRegistry PluginError () :=
  _ ← lift (pack_validate known_capabilities manifest);
  installed ← get;
  _ ← reject_if (bool_decide (is_Some (installed !! pk_id manifest))) (AlreadyInstalled (pk_id manifest));
  modify (<[pk_id manifest := manifest]>).

(** ** Connectors *)

Inductive ConnectorState : Type := Disabled | AuthorizationPending | Enabled | Revoked.
Inductive ConnectorEffect : Type := CRead | CWrite | CCommunication | CCommerce | CSecurity | CPower.
Global Instance ConnectorState_eq_dec : EqDecision ConnectorState.
Proof. solve_decision. Defined.

Definition always_confirms (e : ConnectorEffect) : bool :=
  match e with CCommunication | CCommerce | CSecurity | CPower => true | CRead | CWrite => false end.

Record ConnectorAuthorization : Type := mkConnectorAuthorization {
  ca_connector_id : string;
  ca_state : Uuid;
  ca_requested_scopes : gset string;
}.

Record ConnectorDispatch : Type := mkConnectorDispatch {
  dp_connector_id : string;
  dp_scope : string;
  dp_effect : ConnectorEffect;
  dp_target : string;
}.

Record ConnectorInvocation : Type := mkConnectorInvocation {
  in_connector_id : string;
  in_scope : string;
  in_effect : ConnectorEffect;
  in_target : string;
  in_from_untrusted_content : bool;
  in_scoped_consent : bool;
}.

Record ConnectorReceipt : Type := mkConnectorReceipt {
  rt_sequence : N;
  rt_connector_id : string;
  rt_scope : string;
  rt_effect : ConnectorEffect;
  rt_target_sha256 : string;
  rt_egress : bool;
}.

Record ConnectorBinding : Type := mkConnectorBinding {
  cb_declaration : ConnectorDeclaration;
  cb_state : ConnectorState;
  cb_pending_state : option Uuid;
}.
Global Instance ConnectorBinding_eta : Eta ConnectorBinding :=
  λ r, mkConnectorBinding (cb_declaration r) (cb_state r) (cb_pending_state r).

Record OfficialPackRuntime : Type := mkOfficialPackRuntime {
  op_registry : PackRegistry;
  op_connectors : gmap string ConnectorBinding;
  op_sequence : N;
}.
Global Instance OfficialPackRuntime_eta : Eta OfficialPackRuntime :=
  λ r, mkOfficialPackRuntime (op_registry r) (op_connectors r) (op_sequence r).

Definition DIGITS : list ascii := bytes "0123456789abcdef".
Definition digit (n : N) : ascii := default "0"%char (DIGITS !! N.to_nat n).
Definition hex (l : list N) : string :=
  of_bytes (l ≫= λ b, [digit (N.shiftr b 4); digit (N.land b 15)]).

Definition byte_vals (s : string) : list N := byte_val <$> bytes s.

Abbreviation OM := (M OfficialPackRuntime PluginError).

Definition on_registry {A} (m : M PackRegistry PluginError A) : M OfficialPackRuntime PluginError A :=
  λ s, let '(r, reg) := m (op_registry s) in (r, s <| op_registry := reg |>).

Definition new_binding (c : ConnectorDeclaration) : ConnectorBinding := mkConnectorBinding c Disabled None.

(** [if let Err(error) = self.registry.install(..) { remove the connectors; return Err(error) }] *)
Definition register_or_roll_back (manifest : PackManifest) (known_capabilities : gset string) : OM () :=
  λ s, match on_registry (registry_install manifest known_capabilities) s with
  | (Err error, s) =>
    (Err error, s <| op_connectors ::= λ m,
       foldl (λ m c, base.delete (cd_id c) m) m (pk_connectors manifest) |>)
  | other => other
  end.

Definition runtime_install (manifest : PackManifest) (known_capabilities : gset string) : OM () :=
  _ ← lift (pack_validate known_capabilities manifest);
  s ← get;
  _ ← lift (match find (λ c, bool_decide (is_Some (op_connectors s !! cd_id c))) (pk_connectors manifest) with
            | Some connector => Err (InvalidPack ("duplicate connector id " +:+ cd_id connector))
            | None => Ok ()
            end);
  _ ← modify (λ s, s <| op_connectors ::= λ m,
        foldl (λ m c, <[cd_id c := new_binding c]> m) m (pk_connectors manifest) |>);
  register_or_roll_back manifest known_capabilities.

Definition begin_authorization (state : Uuid) (connector_id : string) (requested_scopes : gset string)
    : OM ConnectorAuthorization :=
  s ← get;
  binding ← ok_or (op_connectors s !! connector_id) (MissingConnector connector_id);
  _ ← reject_if (bool_decide (requested_scopes = ∅)
                 || negb (bool_decide (requested_scopes ⊆ cd_scopes (cb_declaration binding))))
        (ConnectorScope connector_id);
  _ ← modify (λ s, s <| op_connectors ::= <[connector_id :=
        binding <| cb_pending_state := Some state |> <| cb_state := AuthorizationPending |>]> |>);
  mret (mkConnectorAuthorization connector_id state requested_scopes).

Definition complete_authorization (challenge : ConnectorAuthorization)
    (present_keychain_aliases : gset string) (user_confirmed : bool) : OM () :=
  _ ← reject_if (negb user_confirmed) ConnectorConsent;
  s ← get;
  binding ← ok_or (op_connectors s !! ca_connector_id challenge)
              (MissingConnector (ca_connector_id challenge));
  _ ← reject_if (negb (bool_decide (cb_state binding = AuthorizationPending))
        || negb (bool_decide (cb_pending_state binding = Some (ca_state challenge)))
        || negb (bool_decide (ca_requested_scopes challenge ⊆ cd_scopes (cb_declaration binding))))
        ConnectorAuthorizationError;
  _ ← reject_if (negb (bool_decide (cd_credential_aliases (cb_declaration binding)
                                    ⊆ present_keychain_aliases))) ConnectorCredential;
  modify (λ s, s <| op_connectors ::= <[ca_connector_id challenge :=
    binding <| cb_pending_state := None |>
            <| cb_declaration ::= λ d, d <| cd_scopes := ca_requested_scopes challenge |> |>
            <| cb_state := Enabled |>]> |>).

Definition runtime_revoke (connector_id : string) : OM () :=
  s ← get;
  binding ← ok_or (op_connectors s !! connector_id) (MissingConnector connector_id);
  modify (λ s, s <| op_connectors ::= <[connector_id :=
    binding <| cb_pending_state := None |> <| cb_state := Revoked |>]> |>).

(** The adapter acts on a world and only tells whether it succeeded. *)
Definition invoke `{Sha256} {W} (adapter : ConnectorDispatch → W → bool * W)
    (i : ConnectorInvocation) : M (OfficialPackRuntime * W) PluginError ConnectorReceipt :=
  _ ← reject_if (in_from_untrusted_content i) ConnectorUntrusted;
  s ← get;
  binding ← ok_or (op_connectors s.1 !! in_connector_id i) (MissingConnector (in_connector_id i));
  _ ← reject_if (negb (bool_decide (cb_state binding = Enabled))) (ConnectorDisabled (in_connector_id i));
  _ ← reject_if (negb (bool_decide (in_scope i ∈ cd_scopes (cb_declaration binding))))
        (ConnectorScope (in_scope i));
  _ ← reject_if (always_confirms (in_effect i) && negb (in_scoped_consent i)) ConnectorConsent;
  _ ← (λ s : OfficialPackRuntime * W,
         match adapter (mkConnectorDispatch (in_connector_id i) (in_scope i) (in_effect i) (in_target i)) s.2 with
         | (true, w) => (Ok (), (s.1, w))
         | (false, w) => (Err ConnectorAdapterFailed, (s.1, w))
         end);
  _ ← modify (λ s : OfficialPackRuntime * W, (s.1 <| op_sequence ::= λ n, sat_add u64_max n 1 |>, s.2));
  s ← get;
  mret (mkConnectorReceipt (op_sequence s.1) (in_connector_id i) (in_scope i) (in_effect i)
          (hex (sha256 (byte_vals (in_target i)))) true).

(** ** Pairing *)

Record PairingOffer : Type := mkPairingOffer {
  po_id : Uuid;
  po_server_nonce : list N;
  po_expires_at : DateTime;
  po_offered_capabilities : gset string;
  po_code : string;
}.

Record PairingProof : Type := mkPairingProof {
  pp_protocol_version : N;
  pp_offer_id : Uuid;
  pp_client_id : string;
  pp_client_nonce : list N;
  pp_requested_capabilities : gset string;
  pp_proof : list N;
}.

Record PairedClient : Type := mkPairedClient {
  pc_client_id : string;
  pc_capabilities : gset string;
  pc_paired_at : DateTime;
  pc_session_key : string;
  pc_revoked : bool;
}.
Global Instance PairedClient_eta : Eta PairedClient :=
  λ r, mkPairedClient (pc_client_id r) (pc_capabilities r) (pc_paired_at r) (pc_session_key r) (pc_revoked r).

Section pairing.
Context `{Sha256}.

Definition BLOCK : nat := 64.
(** The key padded with zeros to a block. *)
Definition normalized_key (key : list N) : list N :=
  let k := if BLOCK <? length key then take 32 (sha256 key) else key in
  k ++ replicate (BLOCK - length k) 0%N.
Definition xor_key (pad : N) (key : list N) : list N := N.lxor pad <$> key.

Definition hmac_sha256 (key message : list N) : list N :=
  let k := normalized_key key in
  sha256 (xor_key 0x5c k ++ sha256 (xor_key 0x36 k ++ message)).

Definition constant_time_eq (left_ right_ : list N) : bool :=
  (foldl N.lor 0 (zip_with N.lxor left_ right_) =? 0)%N.

Definition pairing_transcript (offer_id : Uuid) (client_id : string) (server_nonce client_nonce : list N)
    (capabilities : gset string) : list N :=
  byte_vals ("personal-agent-remote-v1" +:+ of_bytes [lf] +:+ hyphenated offer_id +:+ of_bytes [lf]
             +:+ client_id +:+ of_bytes [lf])
  ++ server_nonce ++ client_nonce
  ++ (in_order capabilities ≫= λ c, byte_val lf :: byte_vals c).

Abbreviation PairingServer := (gmap Uuid PairingOffer).
Abbreviation PrM := (M PairingServer PluginError).

(** The identifier, nonce and code are fresh; an identifier that is taken keeps its offer. *)
Definition offer (id : Uuid) (nonce : list N) (code : string) (capabilities : gset string)
    (now : DateTime) : PrM PairingOffer :=
  s ← get;
  match s !! id with
  | Some existing => mret existing
  | None =>
    let fresh := mkPairingOffer id nonce (now + 5 * 60 * 1000000000)%Z capabilities code in
    _ ← modify (<[id := fresh]>);
    mret fresh
  end.

Definition complete_pairing (proof : PairingProof) (now : DateTime) : PrM PairedClient :=
  s ← get;
  o ← ok_or (s !! pp_offer_id proof) InvalidPairing;
  _ ← reject_if (negb (pp_protocol_version proof =? 1)%N || (po_expires_at o <=? now)%Z
                 || is_blank (pp_client_id proof)) InvalidPairing;
  _ ← lift (match find_in_order (λ c, negb (bool_decide (c ∈ po_offered_capabilities o)))
                    (pp_requested_capabilities proof) with
            | Some capability => Err (PairingCapability capability)
            | None => Ok ()
            end);
  let transcript := pairing_transcript (pp_offer_id proof) (pp_client_id proof) (po_server_nonce o)
                      (pp_client_nonce proof) (pp_requested_capabilities proof) in
  let expected := hmac_sha256 (byte_vals (po_code o)) transcript in
  _ ← reject_if (negb (constant_time_eq expected (pp_proof proof))) InvalidPairing;
  let session_bytes := hmac_sha256 (byte_vals (po_code o)) (byte_vals "session" ++ transcript) in
  let client := mkPairedClient (pp_client_id proof) (pp_requested_capabilities proof) now
                  (hex session_bytes) false in
  _ ← modify (base.delete (pp_offer_id proof));
  mret client.

Definition create_pairing_proof (o : PairingOffer) (client_id : string) (client_nonce : list N)
    (requested_capabilities : gset string) : PairingProof :=
  mkPairingProof 1 (po_id o) client_id client_nonce requested_capabilities
    (hmac_sha256 (byte_vals (po_code o))
      (pairing_transcript (po_id o) client_id (po_server_nonce o) client_nonce requested_capabilities)).

Definition allows (c : PairedClient) (capability : string) : bool :=
  negb (pc_revoked c) && bool_decide (capability ∈ pc_capabilities c).

Definition authenticate (c : PairedClient) (payload : list N) : outcome PluginError (list N) :=
  if pc_revoked c then Err PairingRevoked
  else Ok (hmac_sha256 (byte_vals (pc_session_key c)) payload).

Definition client_revoke (c : PairedClient) : PairedClient := c <| pc_revoked := true |>.
End pairing.
