(* ===== verification/PluginsSpec.v ===== *)
(** * Plugins: connectors, skills and pairing

    Properties of [Plugins]: what a connector that is enabled went through, the atomicity of
    pack installation, what a loaded skill satisfies, and the pairing handshake. *)

From stdpp Require Import base gmap strings list sorting pretty.
From Stdlib Require Import Ascii.
From S2P Require Import Prelude Text McpText McpModel RuntimeGuard Plugins.

(** ** Sets in order *)

Lemma elem_of_in_order X x : x ∈ in_order X ↔ x ∈ X.
Proof. unfold in_order. by rewrite merge_sort_Permutation, elem_of_elements. Qed.

Lemma find_in_order_None f X : find_in_order f X = None ↔ ∀ x, x ∈ X → f x = false.
Proof.
  unfold find_in_order. split.
  - intros Hf x Hx. apply (find_none _ _ Hf). apply list_elem_of_In. by apply elem_of_in_order.
  - intros Hall. destruct (find f (in_order X)) as [x|] eqn:Hf; [|done].
    apply find_some in Hf as [Hin Hfx]. apply list_elem_of_In, elem_of_in_order in Hin.
    by rewrite Hall in Hfx.
Qed.

(** ** Connectors *)

Inductive RuntimeOp : Type :=
  | OpInstall (manifest : PackManifest) (known : gset string)
  | OpBegin (state : Uuid) (connector_id : string) (scopes : gset string)
  | OpComplete (challenge : ConnectorAuthorization) (aliases : gset string) (confirmed : bool)
  | OpRevoke (connector_id : string)
  | OpCount.

(** [OpCount] is an invocation, which changes the sequence number only. *)
Definition run_runtime (s : OfficialPackRuntime) (op : RuntimeOp) : OfficialPackRuntime :=
  match op with
  | OpInstall m k => state_of (runtime_install m k) s
  | OpBegin st id sc => state_of (begin_authorization st id sc) s
  | OpComplete c a u => state_of (complete_authorization c a u) s
  | OpRevoke id => state_of (runtime_revoke id) s
  | OpCount => s <| op_sequence ::= λ n, sat_add u64_max n 1 |>
  end.

Definition runtime_default : OfficialPackRuntime := mkOfficialPackRuntime ∅ ∅ 0.

(** Inserting and removing the connectors of a manifest. *)
Definition add_all (cs : list ConnectorDeclaration) (m : gmap string ConnectorBinding)
    : gmap string ConnectorBinding := foldl (λ m c, <[cd_id c := new_binding c]> m) m cs.
Definition remove_all (cs : list ConnectorDeclaration) (m : gmap string ConnectorBinding)
    : gmap string ConnectorBinding := foldl (λ m c, base.delete (cd_id c) m) m cs.

Lemma lookup_add_all cs m id b :
  add_all cs m !! id = Some b →
  (∃ c, c ∈ cs ∧ cd_id c = id ∧ b = new_binding c) ∨ m !! id = Some b.
Proof.
  revert m; induction cs as [|c cs IH]; intros m; [by right|]. cbn.
  intros [(c' & ? & ?)|Hm]%IH; [left; exists c'; set_solver|].
  apply lookup_insert_Some in Hm as [[<- <-]|[_ Hm]]; [left; exists c; set_solver|by right].
Qed.

Lemma lookup_add_all_ne cs m id : id ∉ cd_id <$> cs → add_all cs m !! id = m !! id.
Proof.
  revert m; induction cs as [|c cs IH]; intros m; [done|]. cbn. intros [Hne Hid]%not_elem_of_cons.
  unfold add_all in IH. rewrite IH by done. by rewrite lookup_insert_ne.
Qed.

Lemma add_all_is_Some cs m id :
  is_Some (m !! id) ∨ id ∈ cd_id <$> cs → is_Some (add_all cs m !! id).
Proof.
  revert m; induction cs as [|c cs IH]; intros m Hid.
  - destruct Hid as [?|?%elem_of_nil]; done.
  - cbn. apply IH. cbn in Hid. rewrite elem_of_cons in Hid. rewrite lookup_insert_is_Some'. naive_solver.
Qed.

Lemma lookup_remove_all cs m id :
  remove_all cs m !! id = if decide (id ∈ cd_id <$> cs) then None else m !! id.
Proof.
  revert m; induction cs as [|c cs IH]; intros m.
  { rewrite decide_False; [done|]. apply not_elem_of_nil. }
  cbn. unfold remove_all in IH. rewrite IH.
  destruct (decide (id = cd_id c)) as [->|Hne].
  - rewrite lookup_delete_eq, (decide_True (P := cd_id c ∈ cd_id c :: _)) by (by left). by case_decide.
  - rewrite lookup_delete_ne by done. case_decide as Hin.
    + by rewrite decide_True by (by right).
    + rewrite decide_False; [done|]. by intros [->|?]%elem_of_cons.
Qed.

(** Removing what was just added, when none of it was there, restores the map. *)
Lemma remove_added cs m :
  (∀ c, c ∈ cs → m !! cd_id c = None) → remove_all cs (add_all cs m) = m.
Proof.
  intros Hnone. apply map_eq. intros id. rewrite lookup_remove_all. case_decide as Hin.
  - apply list_elem_of_fmap in Hin as (c & -> & Hc). symmetry. by apply Hnone.
  - by apply lookup_add_all_ne.
Qed.

Lemma registry_install_run manifest known reg :
  (∃ e, registry_install manifest known reg = (Err e, reg)) ∨
  (registry_install manifest known reg = (Ok (), <[pk_id manifest := manifest]> reg) ∧
   reg !! pk_id manifest = None) ∨
  (registry_install manifest known reg = (Panic, reg) ∧ pack_validate known manifest = Panic).
Proof.
  unfold registry_install. munfold.
  destruct (pack_validate known manifest) as [[]|e|]; munfold; [|by eauto..].
  case_bool_decide as Hin; munfold; [by eauto|]. right. left. split; [done|].
  by apply eq_None_not_Some.
Qed.

Lemma runtime_install_run manifest known s :
  (∃ r, runtime_install manifest known s = (r, s) ∧ is_ok r = false) ∨
  (runtime_install manifest known s =
     (Ok (), mkOfficialPackRuntime (<[pk_id manifest := manifest]> (op_registry s))
        (add_all (pk_connectors manifest) (op_connectors s)) (op_sequence s)) ∧
   pack_validate known manifest = Ok () ∧ op_registry s !! pk_id manifest = None ∧
   ∀ c, c ∈ pk_connectors manifest → op_connectors s !! cd_id c = None).
Proof.
  unfold runtime_install. munfold.
  destruct (pack_validate known manifest) as [[]|e|] eqn:Hval; munfold; [|left; eexists; by split..].
  destruct (find _ (pk_connectors manifest)) as [c|] eqn:Hfind; munfold; [left; eexists; by split|].
  assert (∀ c, c ∈ pk_connectors manifest → op_connectors s !! cd_id c = None) as Hnone.
  { intros c Hc. apply list_elem_of_In in Hc. pose proof (find_none _ _ Hfind c Hc) as Hn.
    apply bool_decide_eq_false in Hn. by apply eq_None_not_Some. }
  unfold register_or_roll_back, on_registry. cbn.
  destruct (registry_install_run manifest known (op_registry s)) as [[e ->]|[[-> Hreg]|[_ Hp]]].
  - left. exists (Err e). split; [|done]. cbn. f_equal.
    pose proof (remove_added _ _ Hnone) as Hback. destruct s as [reg conns n]. cbn in *.
    exact (f_equal (λ c, mkOfficialPackRuntime reg c n) Hback).
  - right. done.
  - congruence.
Qed.

(** The connectors trace back to installed packs, with at most the declared scopes, and a
    challenge is pending exactly while an authorization is. *)
Record RuntimeOk (s : OfficialPackRuntime) : Prop := {
  ro_declared id b : op_connectors s !! id = Some b →
    ∃ pack decl, op_registry s !! pk_id pack = Some pack ∧ decl ∈ pk_connectors pack ∧
      cd_id decl = id ∧ cd_scopes (cb_declaration b) ⊆ cd_scopes decl ∧
      cd_credential_aliases (cb_declaration b) = cd_credential_aliases decl;
  ro_pending id b : op_connectors s !! id = Some b →
    (cb_state b = AuthorizationPending ↔ is_Some (cb_pending_state b));
}.

Lemma run_runtime_install manifest known s : RuntimeOk s → RuntimeOk (state_of (runtime_install manifest known) s).
Proof.
  intros [Hdecl Hpend]. unfold state_of.
  destruct (runtime_install_run manifest known s) as [(r & -> & _)|(-> & _ & Hreg & Hnone)]; [done|].
  constructor; cbn.
  - intros id b [(c & Hc & <- & ->)|Hb]%lookup_add_all.
    + exists manifest, c. rewrite lookup_insert_eq. done.
    + destruct (Hdecl _ _ Hb) as (pack & decl & Hpack & ?). exists pack, decl. split; [|done].
      rewrite lookup_insert_ne; [done|]. intros Heq. congruence.
  - intros id b [(c & Hc & <- & ->)|Hb]%lookup_add_all; [|by eapply Hpend].
    cbn. split; [done|]. by intros [? ?].
Qed.

(** The other operations change one binding. *)
Lemma begin_run st id scopes s :
  (∃ r, begin_authorization st id scopes s = (r, s) ∧ is_ok r = false) ∨
  ∃ b, op_connectors s !! id = Some b ∧ scopes ⊆ cd_scopes (cb_declaration b) ∧
    begin_authorization st id scopes s = (Ok (mkConnectorAuthorization id st scopes),
      s <| op_connectors ::= <[id := mkConnectorBinding (cb_declaration b) AuthorizationPending (Some st)]> |>).
Proof.
  unfold begin_authorization. munfold.
  destruct (op_connectors s !! id) as [b|]; munfold; [|left; eexists; by split].
  case_bool_decide; cbn [orb]; [left; eexists; by split|].
  case_bool_decide; cbn [negb]; [right; by exists b|left; eexists; by split].
Qed.

Definition completed (c : ConnectorAuthorization) (b : ConnectorBinding) : ConnectorBinding :=
  mkConnectorBinding ((cb_declaration b) <| cd_scopes := ca_requested_scopes c |>) Enabled None.

Lemma complete_run c aliases confirmed s :
  (∃ r, complete_authorization c aliases confirmed s = (r, s) ∧ is_ok r = false) ∨
  ∃ b, op_connectors s !! ca_connector_id c = Some b ∧ confirmed = true ∧
    cb_state b = AuthorizationPending ∧ cb_pending_state b = Some (ca_state c) ∧
    ca_requested_scopes c ⊆ cd_scopes (cb_declaration b) ∧
    cd_credential_aliases (cb_declaration b) ⊆ aliases ∧
    complete_authorization c aliases confirmed s =
      (Ok (), s <| op_connectors ::= <[ca_connector_id c := completed c b]> |>).
Proof.
  unfold complete_authorization. munfold.
  destruct confirmed; munfold; [|left; eexists; by split].
  destruct (op_connectors s !! ca_connector_id c) as [b|]; munfold; [|left; eexists; by split].
  repeat (case_bool_decide; cbn [negb orb]; try (left; eexists; by split)).
  right. by exists b.
Qed.

Lemma revoke_run id s :
  (∃ r, runtime_revoke id s = (r, s) ∧ is_ok r = false) ∨
  ∃ b, op_connectors s !! id = Some b ∧ runtime_revoke id s =
    (Ok (), s <| op_connectors ::= <[id := mkConnectorBinding (cb_declaration b) Revoked None]> |>).
Proof.
  unfold runtime_revoke. munfold.
  destruct (op_connectors s !! id) as [b|]; munfold; [right; by exists b|left; eexists; by split].
Qed.

Lemma rebind_ok id b b' s :
  op_connectors s !! id = Some b →
  cd_scopes (cb_declaration b') ⊆ cd_scopes (cb_declaration b) →
  cd_credential_aliases (cb_declaration b') = cd_credential_aliases (cb_declaration b) →
  (cb_state b' = AuthorizationPending ↔ is_Some (cb_pending_state b')) →
  RuntimeOk s → RuntimeOk (s <| op_connectors ::= <[id := b']> |>).
Proof.
  intros Hb Hscopes Haliases Hp [Hdecl Hpend]. constructor; cbn; intros j b1 [[<- <-]|[? Hj]]%lookup_insert_Some.
  - destruct (Hdecl _ _ Hb) as (pack & decl & ? & ? & ? & ? & ?).
    exists pack, decl. split_and!; [done..|by trans (cd_scopes (cb_declaration b))|congruence].
  - by apply Hdecl.
  - done.
  - by eapply Hpend.
Qed.

Lemma run_runtime_ok s op : RuntimeOk s → RuntimeOk (run_runtime s op).
Proof.
  intros Hok. destruct op as [m k|st id sc|c a u|id|]; cbn [run_runtime]; unfold state_of.
  - by apply run_runtime_install.
  - destruct (begin_run st id sc s) as [(r & -> & _)|(b & Hb & Hsc & ->)]; [done|].
    cbn [snd]. apply (rebind_ok id b); [done..| |done]. cbn. by split; [eauto|].
  - destruct (complete_run c a u s) as [(r & -> & _)|(b & Hb & _ & _ & _ & Hsc & _ & ->)]; [done|].
    cbn [snd]. apply (rebind_ok _ b); [done..| |done]. cbn. split; [done|]. by intros [? ?].
  - destruct (revoke_run id s) as [(r & -> & _)|(b & Hb & ->)]; [done|].
    cbn [snd]. apply (rebind_ok id b); [done..| |done]. cbn. split; [done|]. by intros [? ?].
  - destruct Hok. by constructor.
Qed.

Lemma run_all_runtime_ok ops s : RuntimeOk s → RuntimeOk (foldl run_runtime s ops).
Proof. revert s; induction ops as [|op ops IH]; intros s Hok; [done|]. by apply IH, run_runtime_ok. Qed.

Lemma runtime_default_ok : RuntimeOk runtime_default.
Proof. constructor; intros id b Hb; cbn in Hb; by rewrite lookup_empty in Hb. Qed.

(** An earlier completion that the user confirmed, with the credentials present, for the scopes
    the connector now has. *)
Definition was_authorized (ops : list RuntimeOp) (id : string) (b : ConnectorBinding) : Prop :=
  ∃ before challenge aliases after,
    ops = before ++ OpComplete challenge aliases true :: after ∧ ca_connector_id challenge = id ∧
    complete_authorization challenge aliases true (foldl run_runtime runtime_default before) =
      (Ok (), run_runtime (foldl run_runtime runtime_default before) (OpComplete challenge aliases true)) ∧
    cd_credential_aliases (cb_declaration b) ⊆ aliases ∧
    cd_scopes (cb_declaration b) = ca_requested_scopes challenge ∧
    Forall (λ op, op ≠ OpRevoke id) after.

Lemma was_authorized_snoc ops op id b :
  op ≠ OpRevoke id → was_authorized ops id b → was_authorized (ops ++ [op]) id b.
Proof.
  intros Hop (before & c & a & after & -> & Hrest & Hrun & Hal & Hsc & Hall).
  exists before, c, a, (after ++ [op]). rewrite <- app_assoc. split_and!; [done..|].
  apply Forall_app. split; [done|by constructor].
Qed.

(** One operation enables a connector only if it completes its authorization. *)
Lemma enabled_step s op id b :
  op_connectors (run_runtime s op) !! id = Some b → cb_state b = Enabled →
  (op ≠ OpRevoke id ∧ op_connectors s !! id = Some b) ∨
  ∃ c aliases b0, op = OpComplete c aliases true ∧ ca_connector_id c = id ∧ b = completed c b0 ∧
    cd_credential_aliases (cb_declaration b0) ⊆ aliases ∧
    complete_authorization c aliases true s = (Ok (), run_runtime s op).
Proof.
  intros Hb Hen. destruct op as [m k|st j sc|c a u|j|]; cbn [run_runtime] in *; unfold state_of in *.
  - left. split; [done|].
    destruct (runtime_install_run m k s) as [(r & Hr & _)|(Hr & _)]; rewrite Hr in Hb; [done|]. cbn in Hb.
    apply lookup_add_all in Hb as [(c & _ & _ & ->)|Hb]; done.
  - left. split; [done|].
    destruct (begin_run st j sc s) as [(r & Hr & _)|(b0 & _ & _ & Hr)]; rewrite Hr in Hb; [done|]. cbn in Hb.
    by apply lookup_insert_Some in Hb as [[_ <-]|[_ ?]].
  - destruct (complete_run c a u s) as [(r & Hr & _)|(b0 & Hb0 & -> & _ & _ & _ & Hal & Hr)];
      rewrite Hr in Hb; [by left|]. cbn in Hb.
    apply lookup_insert_Some in Hb as [[<- <-]|[_ ?]]; [right|by left].
    exists c, a, b0. rewrite Hr. done.
  - destruct (revoke_run j s) as [(r & Hr & Hno)|(b0 & Hb0 & Hr)]; rewrite Hr in Hb; cbn in Hb.
    + left. split; [|done]. intros [= ->]. unfold runtime_revoke in Hr. revert Hr. munfold. rewrite Hb. munfold.
      intros Hr. by simplify_eq.
    + apply lookup_insert_Some in Hb as [[<- <-]|[Hne ?]]; [done|]. left. split; [congruence|done].
  - by left.
Qed.

Lemma enabled_was_authorized ops id b :
  op_connectors (foldl run_runtime runtime_default ops) !! id = Some b → cb_state b = Enabled →
  was_authorized ops id b.
Proof.
  revert b; induction ops as [|op ops IH] using rev_ind; intros b Hb Hen.
  { cbn in Hb. by rewrite lookup_empty in Hb. }
  rewrite foldl_app in Hb. cbn [foldl] in Hb.
  destruct (enabled_step _ _ _ _ Hb Hen) as [[Hop Hb0]|(c & a & b0 & -> & Hid & -> & Hal & Hrun)].
  - apply was_authorized_snoc; [done|]. by apply IH.
  - exists ops, c, a, []. split_and!; try done.
Qed.

(** A refused invocation neither succeeded nor touched the world. *)
Ltac no_effect Heff := simplify_eq; destruct Heff as [Heff|Heff]; [discriminate Heff|by destruct Heff].

(** C8: a connector acts only within the user's consent.  When an invocation reaches the adapter,
    that is, when it succeeds or the world changes, then after every history of
    operations: the input is not untrusted content; the connector is enabled, and so was
    authorized by a completion that the user confirmed with every credential present and that no
    revocation followed; the scope is one of those confirmed then, which the installed pack
    declares; and effects that always need confirmation have it. *)
Theorem connectors_act_within_consent `{Sha256} {W} (adapter : ConnectorDispatch → W → bool * W)
    ops w i r s' w' :
  let s := foldl run_runtime runtime_default ops in
  invoke adapter i (s, w) = (r, (s', w')) → is_ok r = true ∨ w' ≠ w →
  in_from_untrusted_content i = false ∧
  (always_confirms (in_effect i) = true → in_scoped_consent i = true) ∧
  ∃ b pack decl, op_connectors s !! in_connector_id i = Some b ∧ cb_state b = Enabled ∧
    was_authorized ops (in_connector_id i) b ∧
    op_registry s !! pk_id pack = Some pack ∧ decl ∈ pk_connectors pack ∧
    cd_id decl = in_connector_id i ∧
    in_scope i ∈ cd_scopes (cb_declaration b) ∧ cd_scopes (cb_declaration b) ⊆ cd_scopes decl.
Proof.
  intros s Hrun Heff. assert (RuntimeOk s) as Hok by apply run_all_runtime_ok, runtime_default_ok.
  unfold invoke in Hrun. munfold.
  destruct (in_from_untrusted_content i); munfold; [no_effect Heff|].
  destruct (op_connectors s !! in_connector_id i) as [b|] eqn:Hb; munfold; [|no_effect Heff].
  case_bool_decide as Hen; munfold; [|no_effect Heff].
  case_bool_decide as Hscope; munfold; [|no_effect Heff].
  destruct (always_confirms (in_effect i) && negb (in_scoped_consent i)) eqn:Hconf; munfold;
    [no_effect Heff|].
  split; [done|]. split.
  { intros Ha. rewrite Ha in Hconf. by destruct (in_scoped_consent i). }
  destruct (ro_declared _ Hok _ _ Hb) as (pack & decl & ? & ? & ? & ? & ?).
  exists b, pack, decl. split_and!; try done. by apply enabled_was_authorized.
Qed.

(** Installing a pack is all or nothing.  A refused installation leaves packs, connectors and
    the sequence as they were; a successful one adds the pack, which was valid and new, with all
    of its connectors disabled, and changes no other connector. *)
Theorem pack_installation_is_atomic manifest known s :
  match runtime_install manifest known s with
  | (Ok _, s') =>
    pack_validate known manifest = Ok () ∧ op_registry s !! pk_id manifest = None ∧
    op_registry s' = <[pk_id manifest := manifest]> (op_registry s) ∧
    (∀ c, c ∈ pk_connectors manifest → ∃ b, op_connectors s' !! cd_id c = Some b ∧ cb_state b = Disabled) ∧
    (∀ id, id ∉ cd_id <$> pk_connectors manifest → op_connectors s' !! id = op_connectors s !! id)
  | (_, s') => s' = s
  end.
Proof.
  destruct (runtime_install_run manifest known s) as [(r & -> & Hr)|(-> & Hval & Hreg & Hnone)].
  { by destruct r. }
  split_and!; [done..| |intros id; by apply lookup_add_all_ne].
  intros c Hc. cbn.
  destruct (add_all (pk_connectors manifest) (op_connectors s) !! cd_id c) as [b|] eqn:Hb.
  - exists b. split; [done|]. apply lookup_add_all in Hb as [(c' & _ & _ & ->)|Hb]; [done|].
    rewrite Hnone in Hb; done.
  - destruct (add_all_is_Some (pk_connectors manifest) (op_connectors s) (cd_id c)) as [b Hb'].
    + right. by apply list_elem_of_fmap_2.
    + congruence.
Qed.

(** ** Pairing *)

Lemma foldl_lor_zero acc l : foldl N.lor acc l = 0%N ↔ acc = 0%N ∧ Forall (λ x, x = 0%N) l.
Proof.
  revert acc; induction l as [|x l IH]; intros acc; cbn.
  - split; [intros ->; by split|tauto].
  - rewrite IH, N.lor_eq_0_iff, Forall_cons. tauto.
Qed.

Lemma constant_time_eq_spec l r : length l = length r → constant_time_eq l r = true ↔ l = r.
Proof.
  intros Hlen. unfold constant_time_eq. rewrite N.eqb_eq, foldl_lor_zero.
  revert r Hlen; induction l as [|x l IH]; intros [|y r] Hlen; try done.
  cbn. rewrite Forall_cons. injection Hlen as Hlen. specialize (IH r Hlen). split.
  - intros (_ & Hx%N.lxor_eq & Hl). f_equal; [done|]. by apply IH.
  - intros [= -> ->]. rewrite N.lxor_nilpotent. split; [done|]. split; [done|]. by apply IH.
Qed.

Lemma constant_time_eq_refl l : constant_time_eq l l = true.
Proof. by apply constant_time_eq_spec. Qed.

Section pairing_theorems.
Context `{Sha256}.

(** The conditions under which an offer accepts a proof. *)
Record accepts_proof (o : PairingOffer) (proof : PairingProof) (now : DateTime) : Prop := {
  ap_version : pp_protocol_version proof = 1%N;
  ap_time : (now < po_expires_at o)%Z;
  ap_client : is_blank (pp_client_id proof) = false;
  ap_capabilities : pp_requested_capabilities proof ⊆ po_offered_capabilities o;
  ap_proof : constant_time_eq (hmac_sha256 (byte_vals (po_code o))
      (pairing_transcript (pp_offer_id proof) (pp_client_id proof) (po_server_nonce o)
        (pp_client_nonce proof) (pp_requested_capabilities proof))) (pp_proof proof) = true;
}.

(** The client a proof pairs. *)
Definition paired (o : PairingOffer) (proof : PairingProof) (now : DateTime) : PairedClient :=
  mkPairedClient (pp_client_id proof) (pp_requested_capabilities proof) now
    (hex (hmac_sha256 (byte_vals (po_code o)) (byte_vals "session" ++
      pairing_transcript (pp_offer_id proof) (pp_client_id proof) (po_server_nonce o)
        (pp_client_nonce proof) (pp_requested_capabilities proof)))) false.

Lemma complete_pairing_run proof now s :
  (∃ o, s !! pp_offer_id proof = Some o ∧ accepts_proof o proof now ∧
     complete_pairing proof now s = (Ok (paired o proof now), base.delete (pp_offer_id proof) s)) ∨
  ((∀ o, s !! pp_offer_id proof = Some o → ¬ accepts_proof o proof now) ∧
   ∃ e, complete_pairing proof now s = (Err e, s)).
Proof.
  unfold complete_pairing. munfold.
  destruct (s !! pp_offer_id proof) as [o|]; munfold; [|right; split; [done|by eauto]].
  destruct (_ || _ || _) eqn:Hpre; munfold.
  { right. split; [|by eauto]. intros o' [= <-] [Hv Ht Hc _ _]. rewrite Hv, Hc in Hpre. cbn in Hpre.
    rewrite orb_false_r in Hpre. apply Z.leb_le in Hpre. lia. }
  apply orb_false_iff in Hpre as [[Hv Ht]%orb_false_iff Hc].
  apply negb_false_iff, N.eqb_eq in Hv. apply Z.leb_gt in Ht.
  destruct (find_in_order _ _) as [c|] eqn:Hfind; munfold.
  { right. split; [|by eauto]. intros o' [= <-] [_ _ _ Hsub _]. unfold find_in_order in Hfind.
    apply find_some in Hfind as [Hin Hno]. apply list_elem_of_In, elem_of_in_order in Hin.
    apply negb_true_iff, bool_decide_eq_false in Hno. set_solver. }
  assert (pp_requested_capabilities proof ⊆ po_offered_capabilities o) as Hsub.
  { intros c Hin. pose proof (proj1 (find_in_order_None _ _) Hfind c Hin) as Hc'. cbn in Hc'.
    apply negb_false_iff, bool_decide_eq_true in Hc'. done. }
  destruct (constant_time_eq _ _) eqn:Hmac; munfold.
  - left. exists o. split; [done|]. split; [by constructor|done].
  - right. split; [|by eauto]. intros o' [= <-] [_ _ _ _ Hp]. congruence.
Qed.

(** The pairing server accepts exactly the valid proofs.  A client is paired, with the
    capabilities it asked for and a session key derived from the transcript, exactly if the
    offer is pending and not expired, the protocol version is 1, the client has a name, it asks
    for nothing that was not offered, and its proof is the keyed hash of the transcript under
    the offer's code; the offer is then consumed, so the same proof is refused afterwards,
    and a refused proof changes nothing. *)
Theorem pairing_is_exact proof now s :
  (∀ message, length (sha256 message) = 32) → length (pp_proof proof) = 32 →
  (∀ client s', complete_pairing proof now s = (Ok client, s') ↔
     ∃ o, s !! pp_offer_id proof = Some o ∧ pp_protocol_version proof = 1%N ∧
       (now < po_expires_at o)%Z ∧ is_blank (pp_client_id proof) = false ∧
       pp_requested_capabilities proof ⊆ po_offered_capabilities o ∧
       pp_proof proof = hmac_sha256 (byte_vals (po_code o))
         (pairing_transcript (pp_offer_id proof) (pp_client_id proof) (po_server_nonce o)
           (pp_client_nonce proof) (pp_requested_capabilities proof)) ∧
       client = paired o proof now ∧ s' = base.delete (pp_offer_id proof) s) ∧
  (∀ e s', complete_pairing proof now s = (Err e, s') → s' = s) ∧
  (∀ client s' later, complete_pairing proof now s = (Ok client, s') →
     complete_pairing proof later s' = (Err InvalidPairing, s')).
Proof.
  intros Hsha Hlen. split_and!.
  - intros client s'. destruct (complete_pairing_run proof now s) as [(o & Ho & Hacc & ->)|[Hno [e ->]]].
    + destruct Hacc as [? ? ? ? Hmac]. apply constant_time_eq_spec in Hmac; [|by rewrite Hlen; apply Hsha].
      split; [intros [= <- <-]; exists o; split_and!; first [done|congruence]|].
      intros (o' & Ho' & _ & _ & _ & _ & _ & -> & ->). congruence.
    + split; [done|]. intros (o & Ho & ? & ? & ? & ? & Hp & _). destruct (Hno o Ho).
      constructor; [done..|]. rewrite Hp. apply constant_time_eq_refl.
  - intros e s'. destruct (complete_pairing_run proof now s) as [(o & _ & _ & ->)|[_ [e' ->]]]; [done|].
    by intros [= _ <-].
  - intros client s' later.
    destruct (complete_pairing_run proof now s) as [(o & _ & _ & ->)|[_ [e' ->]]]; [|done].
    intros [= _ <-]. unfold complete_pairing. munfold. by rewrite lookup_delete_eq.
Qed.

(** The client's helper and the server agree: for a pending offer, the proof that
    [create_pairing_proof] makes for a subset of the offered capabilities pairs the client with
    exactly those capabilities before the offer expires, and every call it makes afterwards
    is limited to them. *)
Theorem pairing_round_trip o client_id client_nonce capabilities now s :
  s !! po_id o = Some o → (now < po_expires_at o)%Z → is_blank client_id = false →
  capabilities ⊆ po_offered_capabilities o →
  ∃ client, complete_pairing (create_pairing_proof o client_id client_nonce capabilities) now s =
      (Ok client, base.delete (po_id o) s) ∧
    pc_client_id client = client_id ∧ ∀ capability, allows client capability = true ↔ capability ∈ capabilities.
Proof.
  intros Ho Ht Hid Hsub.
  destruct (complete_pairing_run (create_pairing_proof o client_id client_nonce capabilities) now s)
    as [(o' & Ho' & _ & ->)|[Hno _]].
  - eexists. split; [done|]. split; [done|]. intros capability. unfold allows. cbn. apply bool_decide_eq_true.
  - destruct (Hno o Ho). constructor; [done..|]. apply constant_time_eq_refl.
Qed.
End pairing_theorems.

(** ** The transcript *)

Lemma split_at_first {A} (x : A) a b r r' :
  x ∉ a → x ∉ b → a ++ x :: r = b ++ x :: r' → a = b ∧ r = r'.
Proof.
  revert b; induction a as [|y a IH]; intros [|z b] Ha Hb Heq; cbn in *; simplify_eq.
  - done.
  - set_solver.
  - set_solver.
  - destruct (IH b) as [-> ->]; [set_solver..|done|done].
Qed.

(** A text up to the next mark, or to the end. *)
Lemma split_at_mark {A} (x : A) a b r r' :
  x ∉ a → x ∉ b → (r = [] ∨ ∃ q, r = x :: q) → (r' = [] ∨ ∃ q, r' = x :: q) →
  a ++ r = b ++ r' → a = b ∧ r = r'.
Proof.
  intros Ha Hb [->|[q ->]] [->|[q' ->]] Heq; rewrite ?app_nil_r in Heq.
  - done.
  - subst a. set_solver.
  - subst b. set_solver.
  - by apply split_at_first in Heq as [-> ->].
Qed.

Lemma byte_vals_inj a b : byte_vals a = byte_vals b → a = b.
Proof.
  intros Heq. apply bytes_inj. revert Heq. unfold byte_vals. generalize (bytes a), (bytes b).
  intros l; induction l as [|x l IH]; intros [|y l'] Heq; try done. cbn in Heq.
  injection Heq as Hx Hl. apply byte_val_inj in Hx as ->. f_equal. by apply IH.
Qed.

Definition one_line (s : string) : Prop := lf ∉ bytes s.

Lemma one_line_vals s : one_line s → byte_val lf ∉ byte_vals s.
Proof. intros Hs (c & Hc & Hin)%list_elem_of_fmap. apply byte_val_inj in Hc as <-. done. Qed.

Definition capability_lines (l : list string) : list N := l ≫= λ c, byte_val lf :: byte_vals c.

Lemma capability_lines_inj l l' :
  Forall one_line l → Forall one_line l' → capability_lines l = capability_lines l' → l = l'.
Proof.
  revert l'; induction l as [|c l IH]; intros [|c' l'] Hl Hl' Heq; try done.
  apply Forall_cons in Hl as [Hc Hl]. apply Forall_cons in Hl' as [Hc' Hl'].
  change (byte_val lf :: byte_vals c ++ capability_lines l =
    byte_val lf :: byte_vals c' ++ capability_lines l') in Heq. injection Heq as Heq.
  assert (∀ k, capability_lines k = [] ∨ ∃ q, capability_lines k = byte_val lf :: q) as Hshape.
  { intros [|d k]; [by left|right; by eexists]. }
  destruct (split_at_mark (byte_val lf) (byte_vals c) (byte_vals c') (capability_lines l)
    (capability_lines l')) as [Hcc Hll]; [by apply one_line_vals..|apply Hshape|apply Hshape|done|].
  f_equal; [by apply byte_vals_inj|by apply IH].
Qed.

(** The transcript binds what the user pairs.  For one offer, two transcripts with client
    nonces of the same length are equal only if the client's name, its nonce and the
    capabilities are, as long as no name or capability contains a line break. *)
Theorem pairing_transcript_binds offer_id server_nonce client client' nonce nonce' caps caps' :
  one_line client → one_line client' → length nonce = length nonce' →
  (∀ c, c ∈ caps → one_line c) → (∀ c, c ∈ caps' → one_line c) →
  pairing_transcript offer_id client server_nonce nonce caps =
    pairing_transcript offer_id client' server_nonce nonce' caps' →
  client = client' ∧ nonce = nonce' ∧ caps = caps'.
Proof.
  intros Hc Hc' Hlen Hcaps Hcaps' Heq. unfold pairing_transcript, byte_vals in Heq.
  rewrite !bytes_app, !fmap_app, <- !app_assoc in Heq.
  do 4 apply app_inv_head in Heq. fold (byte_vals client) (byte_vals client') in Heq.
  destruct (split_at_first (byte_val lf) (byte_vals client) (byte_vals client') _ _
    (one_line_vals _ Hc) (one_line_vals _ Hc') Heq) as [Hclient Hrest].
  apply app_inv_head in Hrest. apply app_inj_1 in Hrest as [Hnonce Hlines]; [|done].
  split_and!; [by apply byte_vals_inj|done|]. apply set_eq. intros c.
  rewrite <- !elem_of_in_order. f_equiv. 
  rewrite (capability_lines_inj (in_order caps) (in_order caps')); [done|..|exact Hlines];
    apply Forall_forall; intros d Hd%elem_of_in_order; auto.
Qed.

(** With a line break inside a capability, one capability reads like two. *)
Theorem pairing_transcript_is_ambiguous offer_id client server_nonce nonce :
  let joined := "a" +:+ of_bytes [lf] +:+ "b" in
  pairing_transcript offer_id client server_nonce nonce {[joined]} =
  pairing_transcript offer_id client server_nonce nonce {["a"; "b"]} ∧
  ({[joined]} : gset string) ≠ {["a"; "b"]}.
Proof.
  split.
  - unfold pairing_transcript. do 3 f_equal.
  - intros Heq. assert ("a" ∈ ({["a" +:+ of_bytes [lf] +:+ "b"]} : gset string)) as Hin by set_solver.
    by apply elem_of_singleton in Hin.
Qed.

(** ** Skills *)

Inductive SkillOp : Type :=
  | OpIndex (metadata : SkillMetadata)
  | OpEnable (id : string) (confirmed : bool).

Definition run_skill (s : SkillRegistry) (op : SkillOp) : SkillRegistry :=
  match op with
  | OpIndex m => state_of (index m) s
  | OpEnable id confirmed => state_of (enable id confirmed) s
  end.

Definition indexes (id : string) (op : SkillOp) : Prop :=
  ∃ m, op = OpIndex m ∧ sk_id m = id ∧ invalid_skill m = false.

(** The user confirmed the skill after it was last indexed. *)
Definition user_enabled (ops : list SkillOp) (id : string) : Prop :=
  ∃ before after, ops = before ++ OpEnable id true :: after ∧ Forall (λ op, ¬ indexes id op) after.

Record skill_ok (ops : list SkillOp) (id : string) (skill : SkillMetadata) : Prop := {
  ks_id : sk_id skill = id;
  ks_valid : invalid_skill skill = false;
  ks_agent : sk_authored_by_agent skill = true → sk_state skill = SkillEnabled → user_enabled ops id;
}.

Definition indexed_skill (m : SkillMetadata) : SkillMetadata :=
  if sk_authored_by_agent m then m <| sk_state := Proposed |> else m.

Lemma indexed_skill_id m : sk_id (indexed_skill m) = sk_id m.
Proof. unfold indexed_skill. by case_match. Qed.

Lemma indexed_skill_valid m : invalid_skill (indexed_skill m) = invalid_skill m.
Proof. unfold indexed_skill. by case_match. Qed.

Lemma index_run m s :
  index m s = if invalid_skill m then (Err (InvalidSkill (sk_id m)), s)
              else (Ok (), <[sk_id m := indexed_skill m]> s).
Proof.
  unfold index, indexed_skill. munfold.
  by destruct (invalid_skill m), (sk_authored_by_agent m).
Qed.

Lemma user_enabled_snoc ops op id : ¬ indexes id op → user_enabled ops id → user_enabled (ops ++ [op]) id.
Proof.
  intros Hop (before & after & -> & Hall). exists before, (after ++ [op]). rewrite <- app_assoc.
  split; [done|]. apply Forall_app. split; [done|by constructor].
Qed.

Lemma run_skill_lookup s op id skill :
  run_skill s op !! id = Some skill →
  (s !! id = Some skill ∧ ¬ indexes id op) ∨
  (∃ m, op = OpIndex m ∧ invalid_skill m = false ∧ sk_id m = id ∧ skill = indexed_skill m) ∨
  (∃ old confirmed, op = OpEnable id confirmed ∧ s !! id = Some old ∧
     skill = old <| sk_state := SkillEnabled |> ∧ (sk_authored_by_agent old = true → confirmed = true)).
Proof.
  destruct op as [m|j confirmed]; cbn [run_skill]; unfold state_of.
  - rewrite index_run. destruct (invalid_skill m) eqn:Hinv; cbn [snd].
    { intros Hs. left. split; [done|]. intros (m' & [= <-] & _ & ?). congruence. }
    intros [[<- <-]|[Hne Hs]]%lookup_insert_Some; [right; left; by exists m|].
    left. split; [done|]. intros (m' & [= <-] & ? & _). congruence.
  - assert (¬ indexes id (OpEnable j confirmed)) as Hni by (intros (? & ? & _); done).
    unfold enable. munfold. destruct (s !! j) as [old|] eqn:Hold; munfold; [|by left].
    destruct (sk_authored_by_agent old && negb confirmed) eqn:Hconf; munfold; [by left|].
    intros [[<- <-]|[Hne Hs]]%lookup_insert_Some; [|by left]. right. right. exists old, confirmed.
    split_and!; [done..|]. intros Ha. rewrite Ha in Hconf. by destruct confirmed.
Qed.

Lemma skills_ok ops id skill :
  foldl run_skill ∅ ops !! id = Some skill → skill_ok ops id skill.
Proof.
  revert skill; induction ops as [|op ops IH] using rev_ind; intros skill Hs.
  { cbn in Hs. by rewrite lookup_empty in Hs. }
  rewrite foldl_app in Hs. cbn [foldl] in Hs.
  apply run_skill_lookup in Hs as [[Hs Hni]|[(m & -> & Hinv & Hid & ->)|(old & confirmed & -> & Hs & -> & Hconf)]].
  - destruct (IH _ Hs) as [? ? Hagent]. constructor; [done..|]. intros ??. apply user_enabled_snoc; auto.
  - constructor; [by rewrite indexed_skill_id|by rewrite indexed_skill_valid|].
    unfold indexed_skill. destruct (sk_authored_by_agent m) eqn:Ha; [done|]. congruence.
  - destruct (IH _ Hs) as [Hid Hval Hagent]. constructor; [done..|]. cbn. intros Ha _.
    exists ops, []. rewrite (Hconf Ha). split; [done|constructor].
Qed.

(** Only reviewed skills are loaded, from inside the skill root.  When the body of a skill is
    loaded after any history of indexing and enabling, the skill is enabled, the trigger is one
    of its own and all of its requirements are met; if an agent wrote it, the user confirmed
    it after it was last indexed; it asks for no core-policy scope; and the body comes from
    a file of at most 256 KiB whose canonical path is inside the canonical root. *)
Theorem loaded_skills_are_reviewed `{SkillFiles} ops root id trigger context result body :
  load_for_trigger (foldl run_skill ∅ ops) root id trigger context = Ok (result, body) →
  ∃ skill root' path len,
    foldl run_skill ∅ ops !! id = Some skill ∧ sk_state skill = SkillEnabled ∧
    trigger ∈ sk_triggers skill ∧ Forall (λ r, requirement_met context r = true) (sk_requirements skill) ∧
    (sk_authored_by_agent skill = true → user_enabled ops id) ∧
    (∀ scope, scope ∈ sk_scopes skill → policy_scope scope = false) ∧
    canonical_path root = inr root' ∧
    canonical_path (root' ++ components (sk_relative_path skill)) = inr path ∧
    root' `prefix_of` path ∧ is_file path = true ∧ file_len path = inr len ∧ (len <= 262144)%N ∧
    read_to_string path = inr body.
Proof.
  unfold load_for_trigger. intros Hload.
  destruct (foldl run_skill ∅ ops !! id) as [skill|] eqn:Hskill; [|done].
  destruct (skills_ok _ _ _ Hskill) as [Hid Hvalid Hagent].
  rewrite outcome_bind_ok in Hload. destruct Hload as (? & [= <-] & Hload).
  rewrite outcome_seq_ok, ensure_not_ok, orb_false_iff, !negb_false_iff, !bool_decide_eq_true in Hload.
  destruct Hload as ((Hen & Htrig) & Hload).
  rewrite outcome_seq_ok in Hload. destruct Hload as (Hreq & Hload).
  rewrite outcome_bind_ok in Hload. destruct Hload as (root' & Hroot & Hload).
  rewrite outcome_bind_ok in Hload. destruct Hload as (path & Hpath & Hload).
  rewrite outcome_seq_ok, ensure_not_ok, orb_false_iff, !negb_false_iff in Hload.
  destruct Hload as ((Hin & Hfile) & Hload).
  rewrite outcome_bind_ok in Hload. destruct Hload as (len & Hlen & Hload).
  rewrite outcome_seq_ok, ensure_not_ok, N.ltb_ge in Hload. destruct Hload as (Hsize & Hload).
  rewrite outcome_bind_ok in Hload. destruct Hload as (body' & Hbody & [= <- <-]).
  unfold invalid_skill in Hvalid. rewrite !orb_false_iff in Hvalid.
  destruct Hvalid as (((((_ & _) & _) & Hsafe) & _) & Hpolicy).
  apply negb_false_iff, andb_true_iff in Hsafe as [Habs%negb_true_iff _].
  apply bool_decide_eq_false, eq_None_not_Some in Hpolicy.
  unfold candidate_path in Hpath. rewrite Habs in Hpath. unfold io in *. unfold path_starts_with in Hin.
  exists skill, root', path, len. split_and!; [done..| |auto| | | |by apply bool_decide_eq_true in Hin|done| |done|].
  - destruct (find _ (sk_requirements skill)) eqn:Hfind; [done|]. apply Forall_forall. intros r Hr.
    apply list_elem_of_In in Hr. by apply (find_none _ _ Hfind), negb_false_iff in Hr.
  - by apply find_in_order_None.
  - by destruct (canonical_path root); simplify_eq.
  - by destruct (canonical_path (root' ++ _)); simplify_eq.
  - by destruct (file_len path); simplify_eq.
  - by destruct (read_to_string path); simplify_eq.
Qed.

(** ** Examples *)

(** A hash with the right length that keeps the length of the message. *)
Definition length_hash : Sha256 := {| sha256 m := replicate 31 0%N ++ [N.of_nat (length m)] |}.

Definition mail_connector : ConnectorDeclaration :=
  mkConnectorDeclaration "mail" "https" "oauth" {["keychain://mail/token"]} {["mail.read"; "mail.send"]} false.
Definition mail_pack : PackManifest :=
  mkPackManifest 1%N "pack" "Mail" "1" Communications "Personal Agent" true {["mail"]} [mail_connector]
    {["eval"]} true.
Definition mail_history : list RuntimeOp :=
  [OpInstall mail_pack {["mail"]}; OpBegin 7%N "mail" {["mail.read"]};
   OpComplete (mkConnectorAuthorization "mail" 7%N {["mail.read"]}) {["keychain://mail/token"]} true].
Definition read_mail : ConnectorInvocation := mkConnectorInvocation "mail" "mail.read" CRead "inbox" false false.

Lemma connectors_act_within_consent_witness :
  ∃ b, op_connectors (foldl run_runtime runtime_default mail_history) !! "mail" = Some b ∧
    cb_state b = Enabled ∧ was_authorized mail_history "mail" b.
Proof.
  destruct (@connectors_act_within_consent length_hash nat (λ _ w, (true, S w)) mail_history 0 read_mail
    (Ok (mkConnectorReceipt 1%N "mail" "mail.read" CRead (hex (@sha256 length_hash (byte_vals "inbox"))) true))
    ((foldl run_runtime runtime_default mail_history) <| op_sequence := 1%N |>) 1)
    as (_ & _ & b & _ & _ & Hb & Hen & Hauth & _).
  - vm_compute. reflexivity.
  - left. reflexivity.
  - exists b. split; [exact Hb|]. split; [exact Hen|exact Hauth].
Defined.

Definition example_offer : PairingOffer := mkPairingOffer 5%N (replicate 32 1%N) 100%Z {["chat"; "files"]} "code".
Definition example_proof : PairingProof :=
  @create_pairing_proof length_hash example_offer "phone" (replicate 32 2%N) {["chat"]}.

Lemma pairing_is_exact_witness :
  ∃ o, ({[5%N := example_offer]} : gmap Uuid PairingOffer) !! 5%N = Some o ∧
    {["chat"]} ⊆ po_offered_capabilities o.
Proof.
  destruct (@pairing_is_exact length_hash example_proof 50%Z {[5%N := example_offer]}) as (Hiff & _ & _).
  - intros message. reflexivity.
  - vm_compute. reflexivity.
  - destruct (proj1 (Hiff (@paired length_hash example_offer example_proof 50%Z) ∅)) as (o & Ho & _ & _ & _ & Hsub & _).
    + vm_compute. reflexivity.
    + exists o. split; [exact Ho|exact Hsub].
Defined.

Lemma pairing_round_trip_witness :
  ∃ client, @complete_pairing length_hash example_proof 50%Z {[5%N := example_offer]} =
      (Ok client, base.delete 5%N {[5%N := example_offer]}) ∧ allows client "chat" = true.
Proof.
  destruct (@pairing_round_trip length_hash example_offer "phone" (replicate 32 2%N) {["chat"]} 50%Z
    {[5%N := example_offer]}) as (client & Hrun & _ & Hallows).
  - reflexivity.
  - reflexivity.
  - reflexivity.
  - apply (bool_decide_unpack _). vm_compute. exact I.
  - exists client. split; [exact Hrun|]. apply Hallows. apply (bool_decide_unpack _). vm_compute. exact I.
Defined.

Lemma pairing_transcript_binds_witness :
  "phone" = "phone" ∧ [1%N] = [1%N] ∧ ({["chat"]} : gset string) = {["chat"]}.
Proof.
  apply (pairing_transcript_binds 5%N [] "phone" "phone" [1%N] [1%N] {["chat"]} {["chat"]}).
  - apply (bool_decide_unpack _). vm_compute. exact I.
  - apply (bool_decide_unpack _). vm_compute. exact I.
  - reflexivity.
  - intros c ->%elem_of_singleton. apply (bool_decide_unpack _). vm_compute. exact I.
  - intros c ->%elem_of_singleton. apply (bool_decide_unpack _). vm_compute. exact I.
  - reflexivity.
Defined.

Definition note_skill : SkillMetadata :=
  mkSkillMetadata "notes" "Notes" "notes/SKILL.md" {["note"]} [] ∅ true SkillEnabled.
Definition skill_history : list SkillOp := [OpIndex note_skill; OpEnable "notes" true].
Definition skill_disk : SkillFiles := {|
  canonical_path p := inr p;
  is_file _ := true;
  file_len _ := inr 4%N;
  read_to_string _ := inr "body";
|}.

Lemma loaded_skills_are_reviewed_witness :
  ∃ skill, foldl run_skill ∅ skill_history !! "notes" = Some skill ∧
    (sk_authored_by_agent skill = true → user_enabled skill_history "notes").
Proof.
  destruct (@loaded_skills_are_reviewed skill_disk skill_history ["skills"] "notes" "note"
    (mkRequirementContext "linux" ∅ ∅ ∅) "notes" "body")
    as (skill & _ & _ & _ & Hskill & _ & _ & _ & Hagent & _).
  - vm_compute. reflexivity.
  - exists skill. split; [exact Hskill|exact Hagent].
Defined.
