(* ===== verification/Automation.v ===== *)
(** * The automation scheduler

    Models [crates/automation/src/lib.rs]: automation definitions, the durable
    [Scheduler] and every operation on it.  Time zones and calendar arithmetic
    belong to the chrono library, which is an interface here ([Chrono]); the
    clock readings and the fresh identifiers an operation draws are its
    arguments. *)

From stdpp Require Import base gmap strings list pretty.
From S2P Require Import Prelude.

(** ** The chrono interface

    [Duration::seconds] panics beyond [i64::MAX / 1000] seconds,
    [checked_add_signed] fails exactly outside the representable range, and
    [timestamp_millis] rounds towards the past. *)
Class Chrono : Type := {
  dt_min : DateTime;
  dt_max : DateTime;
  duration_seconds : Z → option Z;
  checked_add_signed : DateTime → Z → option DateTime;
  timestamp_millis : DateTime → Z;
  duration_seconds_spec s :
    duration_seconds s =
      if bool_decide (Z.abs s ≤ i64_max / 1000)%Z then Some (s * 1000000000)%Z else None;
  checked_add_signed_spec t d :
    checked_add_signed t d =
      if bool_decide (dt_min ≤ t + d ≤ dt_max)%Z then Some (t + d)%Z else None;
  timestamp_millis_spec t : timestamp_millis t = (t / 1000000)%Z;
}.

(** The years -262143 to 262142 chrono documents, in nanoseconds. *)
Global Program Instance gregorian : Chrono := {|
  dt_min := (-8334601228800 * 1000000000)%Z;
  dt_max := (8210266876799 * 1000000000 + 999999999)%Z;
  duration_seconds s :=
    if bool_decide (Z.abs s ≤ i64_max / 1000)%Z then Some (s * 1000000000)%Z else None;
  checked_add_signed t d :=
    if bool_decide (-8334601228800 * 1000000000 ≤ t + d ≤ 8210266876799 * 1000000000 + 999999999)%Z
    then Some (t + d)%Z else None;
  timestamp_millis t := (t / 1000000)%Z;
|}.
Solve Obligations with done.

(** ** Data *)

Inductive Trigger : Type :=
  | Once (at_ : DateTime)
  | Interval (seconds : N)
  | Cron (expression : string)
  | FileChange (path : string)
  | DirectoryChange (path : string)
  | CalendarEvent (connector_id : string)
  | EmailEvent (connector_id : string)
  | ConnectorEvent (connector_id event : string)
  | Webhook (id : string)
  | SystemHealth (metric : string) (threshold : f64)
  | Heartbeat (seconds : N)
  | NetworkChange
  | DeviceChange (device_kind : string)
  | SemanticMonitor (source_id query : string).

Inductive MissedRunPolicy : Type := Skip | RunOnce | CatchUpBounded.

Record Automation : Type := mkAutomation {
  au_id : Uuid;
  au_name : string;
  au_goal_template : string;
  au_trigger : Trigger;
  au_enabled : bool;
  au_max_concurrency : N;
  au_missed_run_policy : MissedRunPolicy;
  au_consecutive_failures : N;
  au_pause_after_failures : N;
  au_previous_state : option Value;
  au_next_due_at : option DateTime;
  au_maximum_catch_up_runs : N;
  au_quiet_hours_utc : option (N * N);
  au_notification_route : string;
}.

Inductive AutomationRunStatus : Type :=
  | Queued | Running | WaitingApproval | PausedForUser | Completed | Failed | Skipped.
Global Instance status_eq_dec : EqDecision AutomationRunStatus.
Proof. solve_decision. Defined.

Record AutomationRun : Type := mkAutomationRun {
  ar_id : Uuid;
  ar_automation_id : Uuid;
  ar_schedule_key : string;
  ar_scheduled_for : DateTime;
  ar_status : AutomationRunStatus;
  ar_attempt : N;
  ar_approval_reason : option string;
  ar_started_at : option DateTime;
  ar_finished_at : option DateTime;
  ar_result_summary : option string;
  ar_runtime_session_id : option string;
  ar_runtime_request_id : option string;
}.

Inductive TriggerEvent : Type :=
  | EvFileChange (path : string)
  | EvDirectoryChange (path : string)
  | EvCalendar (connector_id : string)
  | EvEmail (connector_id : string)
  | EvConnector (connector_id event : string)
  | EvWebhook (id : string)
  | EvNetworkChange
  | EvDeviceChange (device_kind : string)
  | EvSemanticChange (source_id query : string).

Record SchedulerSnapshot : Type := mkSchedulerSnapshot {
  ss_automations : gmap Uuid Automation;
  ss_runs : gmap string AutomationRun;
  ss_last_evaluated_at : option DateTime;
}.

Inductive SchedulerError : Type :=
  | MissingAutomation (id : Uuid)
  | MissingRun (key : string)
  | InvalidTrigger (detail : string)
  | InvalidLimits
  | InvalidTransition.

(** ** Automations *)

Definition au_with (a : Automation) (enabled : bool) (failures : N) (state : option Value)
    (due : option DateTime) : Automation :=
  mkAutomation (au_id a) (au_name a) (au_goal_template a) (au_trigger a) enabled
    (au_max_concurrency a) (au_missed_run_policy a) failures (au_pause_after_failures a)
    state due (au_maximum_catch_up_runs a) (au_quiet_hours_utc a) (au_notification_route a).

Definition record_failure (a : Automation) : Automation :=
  let failures := sat_add u8_max (au_consecutive_failures a) 1 in
  au_with a (if (au_pause_after_failures a <=? failures)%N then false else au_enabled a)
    failures (au_previous_state a) (au_next_due_at a).

Definition record_success (state : option Value) (a : Automation) : Automation :=
  au_with a (au_enabled a) 0 state (au_next_due_at a).

(** ** Triggers *)

Definition parse_cron_interval (expression : string) : outcome SchedulerError N :=
  let bad := Err (InvalidTrigger "cron currently requires a five-field */N * * * * expression") in
  match split_whitespace expression with
  | minute :: rest =>
    if bool_decide (rest = ["*"; "*"; "*"; "*"]) then
      match strip_prefix (bytes "*/") (bytes minute) ≫= parse_u64 with
      | Some minutes =>
        if (minutes =? 0)%N then Err (InvalidTrigger "invalid cron minute interval")
        else if (minutes * 60 <=? u64_max)%N then Ok (minutes * 60)%N
        else Err (InvalidTrigger "cron interval overflow")
      | None => Err (InvalidTrigger "invalid cron minute interval")
      end
    else bad
  | [] => bad
  end.

Definition validate_trigger (t : Trigger) : outcome SchedulerError () :=
  match t with
  | Interval seconds | Heartbeat seconds =>
    if (seconds =? 0)%N then Err (InvalidTrigger "interval must be greater than zero") else Ok ()
  | Cron expression => _ ← parse_cron_interval expression; Ok ()
  | _ => Ok ()
  end.

Definition trigger_interval_seconds (t : Trigger) : outcome SchedulerError (option N) :=
  match t with
  | Interval seconds | Heartbeat seconds => Ok (Some seconds)
  | Cron expression => n ← parse_cron_interval expression; Ok (Some n)
  | _ => Ok None
  end.

Definition event_matches (t : Trigger) (e : TriggerEvent) : bool :=
  match t, e with
  | FileChange expected, EvFileChange path
  | DirectoryChange expected, EvDirectoryChange path => bool_decide (expected = path)
  | CalendarEvent expected, EvCalendar connector_id
  | EmailEvent expected, EvEmail connector_id => bool_decide (expected = connector_id)
  | ConnectorEvent expected_id expected_event, EvConnector connector_id event =>
    bool_decide (expected_id = connector_id) && bool_decide (expected_event = event)
  | Webhook expected, EvWebhook id => bool_decide (expected = id)
  | NetworkChange, EvNetworkChange => true
  | DeviceChange expected, EvDeviceChange device_kind => bool_decide (expected = device_kind)
  | SemanticMonitor expected_source expected_query, EvSemanticChange source_id query =>
    bool_decide (expected_source = source_id) && bool_decide (expected_query = query)
  | _, _ => false
  end.

(** ** Due times and keys *)

Section schedule.
Context `{Chrono, UuidText}.

(** [i64::try_from(seconds).unwrap_or(i64::MAX)] *)
Definition clamp_i64 (seconds : N) : Z := Z.min i64_max (Z.of_N seconds).

(** The catch-up loop of [due_times]: [due] holds the times found so far, the
    latest first.  Each round adds one, so [maximum_catch_up_runs] rounds end it. *)
Fixpoint due_loop (fuel : nat) (maximum : N) (step : Z) (now : DateTime)
    (cursor : DateTime) (due : list DateTime) : list DateTime :=
  match fuel with
  | O => due
  | S fuel =>
    match checked_add_signed cursor step with
    | Some next =>
      if bool_decide (now < next)%Z || (maximum <=? N.of_nat (length due))%N then due
      else due_loop fuel maximum step now next (next :: due)
    | None => due
    end
  end.

Definition due_times (a : Automation) (first now : DateTime) (interval : option N)
    : outcome SchedulerError (list (DateTime * AutomationRunStatus)) :=
  due ← match interval with
        | Some seconds =>
          match duration_seconds (clamp_i64 seconds) with
          | Some step =>
            Ok (reverse (due_loop (N.to_nat (au_maximum_catch_up_runs a))
              (au_maximum_catch_up_runs a) step now first [first]))
          | None => Panic
          end
        | None => Ok [first]
        end;
  Ok match au_missed_run_policy a with
     | Skip => (λ t, (t, Skipped)) <$> due
     | RunOnce => match last due with Some t => [(t, Queued)] | None => [] end
     | CatchUpBounded => (λ t, (t, Queued)) <$> due
     end.

Definition is_once (t : Trigger) : bool := match t with Once _ => true | _ => false end.

Definition next_due_after (now : DateTime) (interval : option N) (t : Trigger)
    : outcome SchedulerError (option DateTime) :=
  if is_once t then Ok None
  else match interval with
  | None => Ok None
  | Some seconds =>
    match duration_seconds (clamp_i64 seconds) with
    | Some step => Ok (checked_add_signed now step)
    | None => Panic
    end
  end.

Definition millis_text (t : DateTime) : string := pretty (timestamp_millis t).
Definition schedule_key (id : Uuid) (at_ : DateTime) : string :=
  uuid_to_string id +:+ ":" +:+ millis_text at_.
Definition event_key (id : Uuid) (now : DateTime) : string :=
  uuid_to_string id +:+ ":event:" +:+ millis_text now.
Definition manual_key (id : Uuid) (now : DateTime) (nonce : Uuid) : string :=
  uuid_to_string id +:+ ":manual:" +:+ millis_text now +:+ ":" +:+ uuid_to_string nonce.
End schedule.

(** ** The scheduler *)

Definition SM : Type → Type := M SchedulerSnapshot SchedulerError.

Definition set_automations (f : gmap Uuid Automation → gmap Uuid Automation)
    (s : SchedulerSnapshot) : SchedulerSnapshot :=
  mkSchedulerSnapshot (f (ss_automations s)) (ss_runs s) (ss_last_evaluated_at s).
Definition set_runs (f : gmap string AutomationRun → gmap string AutomationRun)
    (s : SchedulerSnapshot) : SchedulerSnapshot :=
  mkSchedulerSnapshot (ss_automations s) (f (ss_runs s)) (ss_last_evaluated_at s).

Definition get_run (key : string) : SM AutomationRun :=
  s ← get; ok_or (ss_runs s !! key) (MissingRun key).
Definition put_run (key : string) (r : AutomationRun) : SM () :=
  modify (set_runs <[key := r]>).
Definition get_automation (id : Uuid) : SM Automation :=
  s ← get; ok_or (ss_automations s !! id) (MissingAutomation id).
Definition put_automation (id : Uuid) (a : Automation) : SM () :=
  modify (set_automations <[id := a]>).

(** [AutomationRun { status, attempt: 0, ..None }] *)
Definition new_run (id automation_id : Uuid) (key : string) (at_ : DateTime)
    (status : AutomationRunStatus) : AutomationRun :=
  mkAutomationRun id automation_id key at_ status 0 None None None None None None.

(** A run with its mutable fields replaced. *)
Definition run_with (r : AutomationRun) (status : AutomationRunStatus) (attempt : N)
    (reason : option string) (started finished : option DateTime)
    (summary session request : option string) : AutomationRun :=
  mkAutomationRun (ar_id r) (ar_automation_id r) (ar_schedule_key r) (ar_scheduled_for r)
    status attempt reason started finished summary session request.

Definition has_status (l : list AutomationRunStatus) (r : AutomationRun) : bool :=
  bool_decide (ar_status r ∈ l).

Definition running_of (id : Uuid) (r : AutomationRun) : bool :=
  bool_decide (ar_automation_id r = id) && has_status [Running] r.

Definition from_snapshot (s : SchedulerSnapshot) : SchedulerSnapshot := s.

Definition upsert (a : Automation) : SM () :=
  _ ← reject_if ((au_max_concurrency a =? 0)%N || (au_pause_after_failures a =? 0)%N
                 || (au_maximum_catch_up_runs a =? 0)%N) InvalidLimits;
  _ ← lift (validate_trigger (au_trigger a));
  put_automation (au_id a) a.

Section operations.
Context `{Chrono, UuidText}.

(** The inner loop of [evaluate] over the due times of one automation; [fresh]
    is the identifier drawn for the run of each key. *)
Fixpoint enqueue_due (fresh : string → Uuid) (id : Uuid)
    (due : list (DateTime * AutomationRunStatus)) : SM (list string) :=
  match due with
  | [] => mret []
  | (scheduled_for, status) :: due =>
    let key := schedule_key id scheduled_for in
    s ← get;
    if bool_decide (is_Some (ss_runs s !! key)) then enqueue_due fresh id due
    else
      _ ← put_run key (new_run (fresh key) id key scheduled_for status);
      queued ← enqueue_due fresh id due;
      mret (if bool_decide (status = Queued) then key :: queued else queued)
  end.

(** One round of the outer loop of [evaluate]. *)
Definition evaluate_one (fresh : string → Uuid) (now : DateTime) (id : Uuid) : SM (list string) :=
  automation ← get_automation id;
  if negb (au_enabled automation) then mret []
  else match au_next_due_at automation with
  | None => mret []
  | Some next_due =>
    if bool_decide (now < next_due)%Z then mret []
    else
      interval ← lift (trigger_interval_seconds (au_trigger automation));
      due ← lift (due_times automation next_due now interval);
      queued ← enqueue_due fresh id due;
      s ← get;
      match ss_automations s !! id with
      | Some stored =>
        next ← lift (next_due_after now interval (au_trigger stored));
        _ ← put_automation id (au_with stored
              (if is_once (au_trigger stored) then false else au_enabled stored)
              (au_consecutive_failures stored) (au_previous_state stored) next);
        mret queued
      | None => mret queued
      end
  end.

Fixpoint evaluate_all (fresh : string → Uuid) (now : DateTime) (ids : list Uuid)
    : SM (list string) :=
  match ids with
  | [] => mret []
  | id :: ids =>
    queued ← evaluate_one fresh now id;
    rest ← evaluate_all fresh now ids;
    mret (queued ++ rest)
  end.

Definition evaluate (fresh : string → Uuid) (now : DateTime) : SM (list string) :=
  s ← get;
  queued ← evaluate_all fresh now (keys (ss_automations s));
  _ ← modify (λ s, mkSchedulerSnapshot (ss_automations s) (ss_runs s) (Some now));
  mret queued.

Fixpoint trigger_all (fresh : string → Uuid) (event : TriggerEvent) (now : DateTime)
    (l : list Automation) : SM (list string) :=
  match l with
  | [] => mret []
  | a :: l =>
    if negb (au_enabled a) || negb (event_matches (au_trigger a) event)
    then trigger_all fresh event now l
    else
      let key := event_key (au_id a) now in
      s ← get;
      if bool_decide (is_Some (ss_runs s !! key)) then trigger_all fresh event now l
      else
        _ ← put_run key (new_run (fresh key) (au_id a) key now Queued);
        queued ← trigger_all fresh event now l;
        mret (key :: queued)
  end.

Definition trigger_event (fresh : string → Uuid) (event : TriggerEvent) (now : DateTime)
    : SM (list string) :=
  s ← get; trigger_all fresh event now (values (ss_automations s)).

Definition run_now (nonce id automation_id : Uuid) (now : DateTime) : SM string :=
  s ← get;
  _ ← reject_if (negb (bool_decide (is_Some (ss_automations s !! automation_id))))
        (MissingAutomation automation_id);
  let key := manual_key automation_id now nonce in
  _ ← put_run key (new_run id automation_id key now Queued);
  mret key.
End operations.

Definition start (at_ : DateTime) (key : string) : SM () :=
  r ← get_run key;
  automation ← get_automation (ar_automation_id r);
  s ← get;
  _ ← reject_if (N.to_nat (au_max_concurrency automation)
                 <=? count_values (running_of (ar_automation_id r)) (ss_runs s)) InvalidLimits;
  r ← get_run key;
  _ ← reject_if (negb (has_status [Queued] r)) InvalidTransition;
  put_run key (run_with r Running (sat_add u16_max (ar_attempt r) 1) (ar_approval_reason r)
    (Some at_) None None (ar_runtime_session_id r) (ar_runtime_request_id r)).

Definition set_enabled (automation_id : Uuid) (enabled : bool) : SM () :=
  a ← get_automation automation_id;
  put_automation automation_id (au_with a enabled (au_consecutive_failures a)
    (au_previous_state a) (au_next_due_at a)).

Definition remove (automation_id : Uuid) : SM () :=
  _ ← get_automation automation_id;
  _ ← modify (set_automations (delete automation_id));
  modify (set_runs (filter (λ kv, ar_automation_id kv.2 ≠ automation_id))).

Definition wait_for_approval (key reason : string) : SM () :=
  r ← get_run key;
  _ ← reject_if (negb (has_status [Running] r)) InvalidTransition;
  put_run key (run_with r WaitingApproval (ar_attempt r) (Some reason) (ar_started_at r)
    (ar_finished_at r) (ar_result_summary r) (ar_runtime_session_id r) (ar_runtime_request_id r)).

Definition bind_approval (key session_id request_id reason : string) : SM () :=
  _ ← reject_if (is_blank session_id || is_blank request_id) InvalidTransition;
  _ ← wait_for_approval key reason;
  r ← get_run key;
  put_run key (run_with r (ar_status r) (ar_attempt r) (ar_approval_reason r) (ar_started_at r)
    (ar_finished_at r) (ar_result_summary r) (Some session_id) (Some request_id)).

Definition bind_runtime_session (key session_id : string) : SM () :=
  _ ← reject_if (is_blank session_id) InvalidTransition;
  r ← get_run key;
  _ ← reject_if (negb (has_status [Running] r)) InvalidTransition;
  put_run key (run_with r (ar_status r) (ar_attempt r) (ar_approval_reason r) (ar_started_at r)
    (ar_finished_at r) (ar_result_summary r) (Some session_id) (ar_runtime_request_id r)).

Definition approve (key : string) : SM () :=
  r ← get_run key;
  _ ← reject_if (negb (has_status [WaitingApproval] r)) InvalidTransition;
  put_run key (run_with r Queued (ar_attempt r) None (ar_started_at r) (ar_finished_at r)
    (ar_result_summary r) (ar_runtime_session_id r) (ar_runtime_request_id r)).

Definition resume_after_approval (key : string) : SM () :=
  r ← get_run key;
  _ ← reject_if (negb (has_status [WaitingApproval] r)) InvalidTransition;
  put_run key (run_with r Running (ar_attempt r) None (ar_started_at r) (ar_finished_at r)
    (ar_result_summary r) (ar_runtime_session_id r) None).

Definition finish (at_ : DateTime) (key : string) (success : bool)
    (previous_state : option Value) : SM () :=
  r ← get_run key;
  _ ← reject_if (negb (has_status [Running] r)) InvalidTransition;
  _ ← put_run key (run_with r (if success then Completed else Failed) (ar_attempt r)
        (ar_approval_reason r) (ar_started_at r) (Some at_) (ar_result_summary r)
        (ar_runtime_session_id r) None);
  a ← get_automation (ar_automation_id r);
  put_automation (ar_automation_id r)
    (if success then record_success previous_state a else record_failure a).

Definition set_result_summary (key summary : string) : SM () :=
  r ← get_run key;
  _ ← reject_if (negb (has_status [Completed; Failed] r)) InvalidTransition;
  put_run key (run_with r (ar_status r) (ar_attempt r) (ar_approval_reason r) (ar_started_at r)
    (ar_finished_at r) (Some (take_chars 4096 summary)) (ar_runtime_session_id r)
    (ar_runtime_request_id r)).

Definition fail_active (at_ : DateTime) (key summary : string) : SM () :=
  r ← get_run key;
  _ ← reject_if (negb (has_status [Running; WaitingApproval] r)) InvalidTransition;
  _ ← put_run key (run_with r Failed (ar_attempt r) None (ar_started_at r) (Some at_)
        (Some (take_chars 4096 summary)) (ar_runtime_session_id r) None);
  a ← get_automation (ar_automation_id r);
  put_automation (ar_automation_id r) (record_failure a).

Definition interrupted (r : AutomationRun) : bool := has_status [Running; WaitingApproval] r.

Definition recover_run (r : AutomationRun) : AutomationRun :=
  if interrupted r then
    run_with r PausedForUser (ar_attempt r)
      (Some "The desktop host restarted during this run. Review it and run again.")
      (ar_started_at r) (ar_finished_at r) (ar_result_summary r) None None
  else r.

Definition recover_after_restart : SM nat :=
  s ← get;
  _ ← modify (set_runs (fmap recover_run));
  mret (count_values interrupted (ss_runs s)).

Definition preempt_run (r : AutomationRun) : AutomationRun :=
  if has_status [Running] r then
    run_with r PausedForUser (ar_attempt r) (ar_approval_reason r) (ar_started_at r)
      (ar_finished_at r) (ar_result_summary r) (ar_runtime_session_id r) (ar_runtime_request_id r)
  else r.

Definition preempt_for_user : SM () := modify (set_runs (fmap preempt_run)).
