(* ===== verification/AutomationSpec.v ===== *)
(** * Correctness of the automation scheduler

    Theorems about [Automation]: the schedule keys, the catch-up times, the
    evaluation of due work, the run lifecycle as a transition system with its
    invariant, the concurrency budget, and the recovery after a restart. *)

From stdpp Require Import base gmap strings list pretty.
From Stdlib Require Import Ascii.
From S2P Require Import Prelude Automation.

(** ** Keys *)

Lemma pretty_N_char_plain n : pretty_N_char n ≠ ":"%char.
Proof. unfold pretty_N_char. repeat case_match; done. Qed.

Lemma pretty_N_go_plain n s : ":"%char ∉ bytes s → ":"%char ∉ bytes (pretty_N_go n s).
Proof.
  revert s. induction n as [n IH] using (well_founded_induction N.lt_wf_0). intros s Hs.
  destruct (decide (0 < n)%N) as [Hn|Hn].
  - rewrite pretty_N_go_step by done. apply IH; [by apply N.div_lt|].
    change (":"%char ∉ pretty_N_char (n mod 10) :: bytes s).
    rewrite not_elem_of_cons. split; [|done]. intros Heq. by apply (pretty_N_char_plain (n mod 10)).
  - assert (n = 0%N) as -> by lia. by rewrite pretty_N_go_0.
Qed.

Lemma pretty_Z_plain (z : Z) : ":"%char ∉ bytes (pretty z).
Proof.
  assert (∀ n : N, ":"%char ∉ bytes (pretty n)) as HN.
  { intros n. unfold pretty, pretty_N. case_decide; [by apply (bool_decide_unpack _); vm_compute|].
    apply pretty_N_go_plain. simpl. set_solver. }
  destruct z as [|p|p]; [by apply (bool_decide_unpack _); vm_compute|apply (HN (N.pos p))|].
  change (":"%char ∉ "-"%char :: bytes (pretty (N.pos p))). rewrite not_elem_of_cons. auto.
Qed.

(** The first colon splits a text in one way. *)
Lemma colon_split (a b x y : list Ascii.ascii) :
  ":"%char ∉ a → ":"%char ∉ b → a ++ ":"%char :: x = b ++ ":"%char :: y → a = b ∧ x = y.
Proof.
  revert b. induction a as [|c a IH]; intros [|d b] Ha Hb Heq; simplify_eq/=; [done|set_solver..|].
  rewrite not_elem_of_cons in Ha, Hb. destruct (IH b) as [-> ->]; naive_solver.
Qed.

Section keys.
Context `{Chrono, UuidText}.

Lemma millis_plain t : ":"%char ∉ bytes (millis_text t).
Proof. apply pretty_Z_plain. Qed.

Lemma key_split id id' x y :
  uuid_to_string id +:+ ":" +:+ x = uuid_to_string id' +:+ ":" +:+ y →
  uuid_to_string id = uuid_to_string id' ∧ x = y.
Proof.
  intros Heq%(f_equal bytes). rewrite !bytes_app in Heq.
  apply colon_split in Heq as [Ha%bytes_inj Hx%bytes_inj]; [done|apply uuid_to_string_no_colon..].
Qed.

Lemma schedule_key_inj id t id' t' :
  (id < 2 ^ 128)%N → (id' < 2 ^ 128)%N → schedule_key id t = schedule_key id' t' →
  id = id' ∧ timestamp_millis t = timestamp_millis t'.
Proof.
  intros Hid Hid' [Hi Hm]%key_split. split; [by apply uuid_to_string_inj|].
  by apply pretty_Z_inj in Hm.
Qed.

Lemma schedule_not_event id t id' t' : schedule_key id t ≠ event_key id' t'.
Proof.
  intros [_ Hm]%(key_split id id' _ ("event:" +:+ millis_text t')).
  apply (millis_plain t). rewrite Hm, !bytes_app. set_solver.
Qed.

Lemma schedule_not_manual id t id' t' n : schedule_key id t ≠ manual_key id' t' n.
Proof.
  intros [_ Hm]%(key_split id id' _ ("manual:" +:+ millis_text t' +:+ ":" +:+ uuid_to_string n)).
  apply (millis_plain t). rewrite Hm, !bytes_app. set_solver.
Qed.

Lemma event_not_manual id t id' t' n : event_key id t ≠ manual_key id' t' n.
Proof.
  intros [_ Hm]%(key_split id id' ("event:" +:+ millis_text t)
    ("manual:" +:+ millis_text t' +:+ ":" +:+ uuid_to_string n)). done.
Qed.

(** Run keys identify their run.  Two scheduled slots have the same key
    exactly when they belong to the same automation and to the same millisecond;
    two event keys likewise; and a scheduled, an event and a manual key never
    coincide, so no kind of run can shadow another. *)
Theorem run_keys_identify_the_slot id t id' t' n :
  (id < 2 ^ 128)%N → (id' < 2 ^ 128)%N →
  (schedule_key id t = schedule_key id' t' ↔
     id = id' ∧ timestamp_millis t = timestamp_millis t') ∧
  (event_key id t = event_key id' t' ↔ id = id' ∧ timestamp_millis t = timestamp_millis t') ∧
  schedule_key id t ≠ event_key id' t' ∧ schedule_key id t ≠ manual_key id' t' n ∧
  event_key id t ≠ manual_key id' t' n.
Proof.
  intros Hid Hid'. split_and!.
  - split; [by apply schedule_key_inj|]. intros [-> Hm].
    unfold schedule_key, millis_text. by rewrite Hm.
  - split; [|intros [-> Hm]; unfold event_key, millis_text; by rewrite Hm].
    intros [Hi Hm]%(key_split id id' ("event:" +:+ millis_text t) ("event:" +:+ millis_text t')).
    split; [by apply uuid_to_string_inj|]. simpl in Hm. simplify_eq. by apply pretty_Z_inj.
  - apply schedule_not_event.
  - apply schedule_not_manual.
  - apply event_not_manual.
Qed.

(** ** Due times *)

Lemma due_loop_exact fuel maximum step now cursor due :
  (0 < step)%Z → (cursor ≤ now)%Z → (dt_min ≤ cursor)%Z → (now ≤ dt_max)%Z →
  (maximum ≤ N.of_nat (length due + fuel))%N →
  reverse (due_loop fuel maximum step now cursor due) =
    reverse due ++ ((λ k : nat, cursor + Z.of_nat k * step)%Z <$>
      seq 1 (Nat.min (N.to_nat maximum - length due) (Z.to_nat ((now - cursor) / step)))).
Proof.
  intros Hstep Hnow Hmin Hmax. revert cursor due Hnow Hmin.
  induction fuel as [|fuel IH]; intros cursor due Hnow Hmin Hfuel; simpl.
  { replace (N.to_nat maximum - length due) with 0 by lia. by rewrite app_nil_r. }
  rewrite checked_add_signed_spec. case_bool_decide as Hr.
  - case_bool_decide as Hlt; simpl.
    { rewrite (Z.div_small (now - cursor) step) by lia. by rewrite Nat.min_0_r, app_nil_r. }
    destruct (maximum <=? N.of_nat (length due))%N eqn:Hm.
    { apply N.leb_le in Hm. replace (N.to_nat maximum - length due) with 0 by lia.
      by rewrite app_nil_r. }
    apply N.leb_gt in Hm. rewrite IH by (simpl; lia).
    replace ((now - cursor) / step)%Z with (1 + (now - (cursor + step)) / step)%Z.
    2:{ rewrite <- Z.div_add_l by lia. f_equal. lia. }
    rewrite Z2Nat.inj_add by (try apply Z.div_pos; lia). change (Z.to_nat 1) with 1.
    simpl length.
    replace (Nat.min (N.to_nat maximum - length due) _) with
      (S (Nat.min (N.to_nat maximum - S (length due))
        (Z.to_nat ((now - (cursor + step)) / step)))) by lia.
    rewrite reverse_cons, <- app_assoc. simpl. f_equal. f_equal; [lia|].
    rewrite <- (fmap_S_seq 1), <- list_fmap_compose. apply list_fmap_ext.
    intros i k _. simpl. lia.
  - rewrite (Z.div_small (now - cursor) step) by lia. by rewrite Nat.min_0_r, app_nil_r.
Qed.

(** The slots of an automation due by [now]: one per interval from the first,
    at most [maximum_catch_up_runs] of them. *)
Definition due_slots (a : Automation) (first now : DateTime) (step : Z) : list DateTime :=
  (λ k : nat, first + Z.of_nat k * step)%Z <$>
    seq 0 (Nat.min (N.to_nat (au_maximum_catch_up_runs a)) (S (Z.to_nat ((now - first) / step)))).

Lemma due_slots_loop a first now step :
  (0 < step)%Z → (first ≤ now)%Z → (dt_min ≤ first)%Z → (now ≤ dt_max)%Z →
  (0 < au_maximum_catch_up_runs a)%N →
  reverse (due_loop (N.to_nat (au_maximum_catch_up_runs a)) (au_maximum_catch_up_runs a)
    step now first [first]) = due_slots a first now step.
Proof.
  intros ???? Hpos. rewrite due_loop_exact by (simpl; lia). unfold due_slots. simpl length.
  replace (Nat.min (N.to_nat (au_maximum_catch_up_runs a)) _) with
    (S (Nat.min (N.to_nat (au_maximum_catch_up_runs a) - 1) (Z.to_nat ((now - first) / step))))
    by lia.
  simpl. f_equal. lia.
Qed.

(** Catch-up is exact and bounded.  For a positive interval chrono can
    represent, the due times are the arithmetic progression from the first missed
    slot by the interval, as far as now reaches and at most
    [maximum_catch_up_runs] long; the missed-run policy keeps all of them as
    queued, or the latest one, or marks all of them skipped. *)
Theorem catch_up_is_exact a first now seconds :
  (0 < seconds)%N → (Z.of_N seconds ≤ i64_max / 1000)%Z → (first ≤ now)%Z →
  (dt_min ≤ first)%Z → (now ≤ dt_max)%Z → (0 < au_maximum_catch_up_runs a)%N →
  let slots := due_slots a first now (Z.of_N seconds * 1000000000) in
  due_times a first now (Some seconds) = Ok
    match au_missed_run_policy a with
    | Skip => (λ t, (t, Skipped)) <$> slots
    | RunOnce => match last slots with Some t => [(t, Queued)] | None => [] end
    | CatchUpBounded => (λ t, (t, Queued)) <$> slots
    end ∧
  Forall (λ t, (first ≤ t ≤ now)%Z) slots ∧
  1 ≤ length slots ≤ N.to_nat (au_maximum_catch_up_runs a).
Proof.
  intros Hs Hb Hnow Hmin Hmax Hpos slots. split; [|split].
  - unfold due_times, mbind, outcome_bind. rewrite duration_seconds_spec.
    assert (i64_max / 1000 ≤ i64_max)%Z by by vm_compute.
    unfold clamp_i64. rewrite Z.min_r by lia.
    rewrite bool_decide_eq_true_2 by lia. by rewrite due_slots_loop by lia.
  - subst slots. apply Forall_fmap, Forall_forall. intros k Hk%elem_of_seq. simpl.
    set (step := (Z.of_N seconds * 1000000000)%Z) in *. assert (0 < step)%Z by lia.
    pose proof (Z.mul_div_le (now - first) step ltac:(done)).
    assert (0 ≤ (now - first) / step)%Z by (apply Z.div_pos; lia).
    generalize dependent ((now - first) / step)%Z. intros q Hk Hq ?.
    assert (Z.of_nat k ≤ q)%Z by lia. nia.
  - subst slots. unfold due_slots. rewrite length_fmap, length_seq. lia.
Qed.
End keys.

(** ** The scheduler as a transition system *)

Inductive op : Type :=
  | OUpsert (a : Automation)
  | OEvaluate (fresh : string → Uuid) (now : DateTime)
  | OTrigger (fresh : string → Uuid) (event : TriggerEvent) (now : DateTime)
  | ORunNow (nonce id automation_id : Uuid) (now : DateTime)
  | OStart (at_ : DateTime) (key : string)
  | OSetEnabled (automation_id : Uuid) (enabled : bool)
  | ORemove (automation_id : Uuid)
  | OWait (key reason : string)
  | OBindApproval (key session_id request_id reason : string)
  | OBindSession (key session_id : string)
  | OApprove (key : string)
  | OResume (key : string)
  | OFinish (at_ : DateTime) (key : string) (success : bool) (previous_state : option Value)
  | OSummary (key summary : string)
  | OFail (at_ : DateTime) (key summary : string)
  | ORecover
  | OPreempt.

(** Some call of the scheduler's interface, whatever it returns. *)
Definition exec `{Chrono, UuidText} (o : op) : SchedulerSnapshot → SchedulerSnapshot :=
  match o with
  | OUpsert a => state_of (upsert a)
  | OEvaluate fresh now => state_of (evaluate fresh now)
  | OTrigger fresh event now => state_of (trigger_event fresh event now)
  | ORunNow nonce id aid now => state_of (run_now nonce id aid now)
  | OStart at_ key => state_of (start at_ key)
  | OSetEnabled aid enabled => state_of (set_enabled aid enabled)
  | ORemove aid => state_of (remove aid)
  | OWait key reason => state_of (wait_for_approval key reason)
  | OBindApproval key sid rid reason => state_of (bind_approval key sid rid reason)
  | OBindSession key sid => state_of (bind_runtime_session key sid)
  | OApprove key => state_of (approve key)
  | OResume key => state_of (resume_after_approval key)
  | OFinish at_ key success state => state_of (finish at_ key success state)
  | OSummary key summary => state_of (set_result_summary key summary)
  | OFail at_ key summary => state_of (fail_active at_ key summary)
  | ORecover => state_of recover_after_restart
  | OPreempt => state_of preempt_for_user
  end.

(** A manual run draws an identifier no stored run has used. *)
Definition op_fresh `{Chrono, UuidText} (s : SchedulerSnapshot) (o : op) : Prop :=
  match o with
  | ORunNow nonce _ aid now => ss_runs s !! manual_key aid now nonce = None
  | _ => True
  end.

(** The lifecycle of a run: approval is a suspension, and a finished, skipped or
    interrupted run is never taken up again. *)
Inductive status_step : AutomationRunStatus → AutomationRunStatus → Prop :=
  | step_stay x : status_step x x
  | step_start : status_step Queued Running
  | step_wait : status_step Running WaitingApproval
  | step_approve : status_step WaitingApproval Queued
  | step_resume : status_step WaitingApproval Running
  | step_complete : status_step Running Completed
  | step_fail : status_step Running Failed
  | step_fail_waiting : status_step WaitingApproval Failed
  | step_pause : status_step Running PausedForUser
  | step_pause_waiting : status_step WaitingApproval PausedForUser.

Record run_step (r r' : AutomationRun) : Prop := {
  rs_id : ar_id r' = ar_id r;
  rs_automation : ar_automation_id r' = ar_automation_id r;
  rs_key : ar_schedule_key r' = ar_schedule_key r;
  rs_time : ar_scheduled_for r' = ar_scheduled_for r;
  rs_status : status_step (ar_status r) (ar_status r');
  rs_attempt : ar_attempt r' =
    if bool_decide (ar_status r = Queued ∧ ar_status r' = Running)
    then sat_add u16_max (ar_attempt r) 1 else ar_attempt r;
}.

Record born (s : SchedulerSnapshot) (k : string) (r : AutomationRun) : Prop := {
  born_key : ar_schedule_key r = k;
  born_attempt : ar_attempt r = 0%N;
  born_status : ar_status r = Queued ∨ ar_status r = Skipped;
  born_automation : is_Some (ss_automations s !! ar_automation_id r);
}.

(** What one call does to the runs: each stored run makes a lifecycle step, a new
    one is born, and a run disappears only with its automation. *)
Record sched_step (s s' : SchedulerSnapshot) : Prop := {
  st_runs k r' : ss_runs s' !! k = Some r' →
    match ss_runs s !! k with Some r => run_step r r' | None => born s' k r' end;
  st_gone k r : ss_runs s !! k = Some r → ss_runs s' !! k = None →
    ss_automations s' !! ar_automation_id r = None;
}.

Definition limits_ok (a : Automation) : Prop :=
  (0 < au_max_concurrency a)%N ∧ (0 < au_pause_after_failures a)%N ∧
  (0 < au_maximum_catch_up_runs a)%N ∧ validate_trigger (au_trigger a) = Ok ().

Record sched_inv (s : SchedulerSnapshot) : Prop := {
  inv_automation id a : ss_automations s !! id = Some a → au_id a = id ∧ limits_ok a;
  inv_run k r : ss_runs s !! k = Some r →
    ar_schedule_key r = k ∧ is_Some (ss_automations s !! ar_automation_id r);
}.

(** The automations of [s] are those of [s'] up to enablement, failure count,
    remembered state and next due time. *)
Definition same_definitions (s s' : SchedulerSnapshot) : Prop :=
  ∀ id, match ss_automations s !! id, ss_automations s' !! id with
        | Some a, Some a' => ∃ e f v d, a' = au_with a e f v d
        | None, None => True
        | _, _ => False
        end.

Lemma run_step_refl r : run_step r r.
Proof.
  split; try done; [constructor|]. rewrite bool_decide_eq_false_2; [done|]. intros [??]; congruence.
Qed.

Lemma au_with_id a :
  au_with a (au_enabled a) (au_consecutive_failures a) (au_previous_state a) (au_next_due_at a) = a.
Proof. by destruct a. Qed.

Lemma same_definitions_refl s : same_definitions s s.
Proof. intros id. case_match; [|done]. eexists _, _, _, _. symmetry. apply au_with_id. Qed.

Lemma same_definitions_trans s1 s2 s3 :
  same_definitions s1 s2 → same_definitions s2 s3 → same_definitions s1 s3.
Proof.
  intros H12 H23 id. specialize (H12 id). specialize (H23 id). repeat case_match; try done.
  destruct H12 as (?&?&?&?&->), H23 as (e&f&v&d&->). by exists e, f, v, d.
Qed.

Lemma same_definitions_runs s f : same_definitions s (set_runs f s).
Proof. intros id. apply (same_definitions_refl s id). Qed.

Lemma same_definitions_put s id a e f v d :
  ss_automations s !! id = Some a →
  same_definitions s (set_automations <[id := au_with a e f v d]> s).
Proof.
  intros Ha id'. simpl. destruct (decide (id = id')) as [->|Hne].
  - rewrite Ha, lookup_insert_eq. eauto.
  - rewrite lookup_insert_ne by done. apply same_definitions_refl.
Qed.

Lemma same_definitions_domain s s' id :
  same_definitions s s' → is_Some (ss_automations s !! id) ↔ is_Some (ss_automations s' !! id).
Proof.
  intros Hs. specialize (Hs id). unfold is_Some. repeat case_match; naive_solver.
Qed.

Lemma sched_step_refl s : sched_step s s.
Proof.
  split; [|by intros k r ->]. intros k r' Hk. rewrite Hk. apply run_step_refl.
Qed.

Lemma put_run_step s key r r' :
  ss_runs s !! key = Some r → run_step r r' → sched_step s (set_runs <[key := r']> s).
Proof.
  intros Hr Hstep. split; simpl.
  - intros k r2. destruct (decide (key = k)) as [->|Hne].
    + rewrite lookup_insert_eq, Hr. by intros [= <-].
    + rewrite lookup_insert_ne by done. intros Hk. rewrite Hk. apply run_step_refl.
  - intros k r2 Hk. destruct (decide (key = k)) as [->|Hne].
    + by rewrite lookup_insert_eq.
    + rewrite lookup_insert_ne, Hk by done. done.
Qed.

Lemma map_runs_step s f :
  (∀ r, run_step r (f r)) → sched_step s (set_runs (fmap f) s).
Proof.
  intros Hf. split; simpl; intros k r; rewrite lookup_fmap.
  - destruct (ss_runs s !! k); [|done]. intros [= <-]. apply Hf.
  - by intros ->.
Qed.

(** A step may also touch the mutable part of the definitions. *)
Lemma sched_step_definitions s s1 s2 :
  sched_step s s1 → ss_runs s2 = ss_runs s1 → same_definitions s1 s2 → sched_step s s2.
Proof.
  intros [Hruns Hgone] Hsame Hdef. split; intros k r; rewrite Hsame.
  - intros Hk%Hruns. case_match; [done|]. destruct Hk as [??? Ha]. split; try done.
    by apply (same_definitions_domain _ _ _ Hdef).
  - intros Hk Hno. specialize (Hgone k r Hk Hno). apply eq_None_not_Some.
    rewrite <- (same_definitions_domain _ _ _ Hdef). rewrite Hgone. by intros [? [=]].
Qed.

Lemma limits_ok_with a e f v d : limits_ok (au_with a e f v d) ↔ limits_ok a.
Proof. done. Qed.

Lemma sched_inv_step s s' :
  sched_inv s → sched_step s s' → same_definitions s s' → sched_inv s'.
Proof.
  intros [Ha Hr] [Hruns _] Hdef. split.
  - intros id a' Ha'. pose proof (Hdef id) as Hid. rewrite Ha' in Hid. case_match eqn:Hs; [|done].
    destruct Hid as (e&f&v&d&->). rewrite limits_ok_with. exact (Ha id a Hs).
  - intros k r' Hk%Hruns. case_match eqn:Hs.
    + apply Hr in Hs as [<- ?]. destruct Hk as [_ Hau Hkey _ _ _].
      rewrite Hau, <- (same_definitions_domain _ _ _ Hdef). done.
    + by destruct Hk.
Qed.

(** ** Enqueueing *)

(** What enqueueing does: stored runs stay as they are, the others are born. *)
Record extends (s s' : SchedulerSnapshot) : Prop := {
  ext_old k r : ss_runs s !! k = Some r → ss_runs s' !! k = Some r;
  ext_new k r : ss_runs s !! k = None → ss_runs s' !! k = Some r → born s' k r;
  ext_definitions : same_definitions s s';
}.

Lemma extends_refl s : extends s s.
Proof. split; [done|congruence|apply same_definitions_refl]. Qed.

Lemma extends_trans s1 s2 s3 : extends s1 s2 → extends s2 s3 → extends s1 s3.
Proof.
  intros [Ho Hn Hd] [Ho' Hn' Hd']. split; [by eauto| |by eapply same_definitions_trans].
  intros k r Hk Hk3. destruct (ss_runs s2 !! k) as [r2|] eqn:Hk2; [|by eauto].
  assert (r = r2) as -> by (apply Ho' in Hk2; congruence).
  destruct (Hn k r2 Hk Hk2) as [??? Ha]. split; try done.
  by apply (same_definitions_domain _ _ _ Hd').
Qed.

Lemma extends_put s k r :
  ss_runs s !! k = None → born s k r → extends s (set_runs <[k := r]> s).
Proof.
  intros Hk Hb. split; simpl; [|intros k' r' Hk'|apply same_definitions_runs].
  - intros k' r' Hk'. by rewrite lookup_insert_ne by congruence.
  - destruct (decide (k = k')) as [->|Hne].
    + rewrite lookup_insert_eq. intros [= <-]. by destruct Hb.
    + rewrite lookup_insert_ne by done. congruence.
Qed.

Lemma extends_definitions s s' :
  ss_runs s' = ss_runs s → same_definitions s s' → extends s s'.
Proof. intros Hr Hd. split; [by rewrite Hr|rewrite Hr; congruence|done]. Qed.

Lemma extends_step s s' : extends s s' → sched_step s s'.
Proof.
  intros [Ho Hn _]. split; intros k r Hk.
  - destruct (ss_runs s !! k) as [r0|] eqn:H0; [|by eauto].
    apply Ho in H0. assert (r = r0) as -> by congruence. apply run_step_refl.
  - apply Ho in Hk. congruence.
Qed.
#[export] Hint Resolve extends_refl same_definitions_refl same_definitions_runs : agent.

Section evaluation.
Context `{Chrono, UuidText}.
Implicit Types s : SchedulerSnapshot.

Definition birth_status (a : Automation) : AutomationRunStatus :=
  match au_missed_run_policy a with Skip => Skipped | _ => Queued end.

Lemma due_times_status a first now interval due t st :
  due_times a first now interval = Ok due → (t, st) ∈ due → st = birth_status a.
Proof.
  unfold due_times, birth_status. intros Hrun Hin. branches.
  all: repeat match goal with
  | H : _ ∈ _ <$> _ |- _ => apply list_elem_of_fmap in H as (? & ? & ?)
  | H : _ ∈ [_] |- _ => apply list_elem_of_singleton in H
  | H : _ ∈ [] |- _ => apply elem_of_nil in H
  end; by simplify_eq.
Qed.

(** The effect of the inner loop, on due times that share a status. *)
Lemma enqueue_due_spec fresh id due st0 s :
  is_Some (ss_automations s !! id) → st0 = Queued ∨ st0 = Skipped →
  (∀ t st, (t, st) ∈ due → st = st0) →
  ∃ q s', enqueue_due fresh id due s = (Ok q, s') ∧ extends s s' ∧
    ss_automations s' = ss_automations s ∧ NoDup q ∧
    (∀ k, k ∈ q ↔ ss_runs s !! k = None ∧
       st0 = Queued ∧ ∃ t, (t, st0) ∈ due ∧ k = schedule_key id t) ∧
    (∀ t st, (t, st) ∈ due → is_Some (ss_runs s' !! schedule_key id t)) ∧
    (∀ k r, ss_runs s !! k = None → ss_runs s' !! k = Some r →
       ar_status r = st0 ∧ ar_automation_id r = id ∧ ∃ t, (t, st0) ∈ due ∧ k = schedule_key id t).
Proof.
  intros Hid Hst0. revert s Hid.
  induction due as [|[t st] due IH]; intros s Hid Hst; munfold.
  { exists [], s. split_and!; auto with agent; try by constructor.
    - intros k. split; [by intros ?%elem_of_nil|]. by intros (_ & _ & t & ?%elem_of_nil & _).
    - by intros t st ?%elem_of_nil.
    - congruence. }
  munfold. assert (st = st0) as -> by (eapply Hst; by left).
  assert (∀ t' st', (t', st') ∈ due → st' = st0) as Hst' by (intros ???; eapply Hst; by right).
  set (key := schedule_key id t).
  destruct (decide (is_Some (ss_runs s !! key))) as [Hk|Hk];
    [rewrite bool_decide_eq_true_2 by done|rewrite bool_decide_eq_false_2 by done].
  - destruct (IH s Hid Hst') as (q & s' & -> & Hext & Ha & Hnd & Hq & Hcov & Hnew).
    exists q, s'. split_and!; try done.
    + intros k. rewrite Hq. split; [by intros (? & ? & t' & ? & ->); eauto 10 using list_elem_of_further|].
      intros (Hno & -> & t' & [[= ->]|Hin]%elem_of_cons & ->); [|by eauto 10].
      fold key in Hno. rewrite Hno in Hk. by destruct Hk.
    + intros t' st' [[= -> ->]|Hin]%elem_of_cons; [|by eauto].
      destruct Hk as [r Hr]. exists r. by apply Hext.
    + intros k r Hno Hr. destruct (Hnew k r Hno Hr) as (? & ? & t' & ? & ?).
      eauto 10 using list_elem_of_further.
  - apply eq_None_not_Some in Hk. unfold put_run, modify, M_bind.
    set (r0 := new_run (fresh key) id key t st0). set (s1 := set_runs <[key:=r0]> s).
    assert (extends s s1) as Hext1 by (apply extends_put; [done|by split]).
    destruct (IH s1 Hid Hst') as (q & s' & -> & Hext & Ha & Hnd & Hq & Hcov & Hnew).
    assert (ss_runs s1 !! key = Some r0) as Hkey by apply lookup_insert_eq.
    assert (key ∉ q) as Hkq by (rewrite Hq, Hkey; naive_solver).
    assert (∀ k, k ≠ key → ss_runs s1 !! k = ss_runs s !! k) as Hother
      by (intros k Hne; by apply lookup_insert_ne).
    eexists _, s'. split; [done|]. split_and!.
    + by eapply extends_trans.
    + done.
    + case_bool_decide; [by constructor|done].
    + intros k. destruct (decide (k = key)) as [->|Hne].
      * case_bool_decide as Hq0; rewrite ?elem_of_cons.
        -- split; [|by left]. intros _. split_and!; [done..|]. exists t. rewrite elem_of_cons. auto.
        -- split; [done|]. by intros (_ & ? & _).
      * trans (k ∈ q); [case_bool_decide; [rewrite elem_of_cons; naive_solver|done]|].
        rewrite Hq, Hother by done.
        split; intros (? & ? & t' & Hin & ->); split_and!; try done; exists t';
          rewrite elem_of_cons in *; [by auto|]. destruct Hin as [[= ->]|]; [|done]. by destruct Hne.
    + intros t' st' [[= -> ->]|Hin]%elem_of_cons; [|by eauto]. exists r0. by apply Hext.
    + intros k r Hno Hr. destruct (decide (k = key)) as [->|Hne].
      * apply Hext in Hkey. assert (r = r0) as -> by congruence.
        split_and!; [done..|]. exists t. rewrite elem_of_cons. auto.
      * rewrite <- Hother in Hno by done. destruct (Hnew k r Hno Hr) as (? & ? & t' & ? & ?).
        eauto 10 using list_elem_of_further.
Qed.

(** The time slot [t] of automation [id] is due at [now]. *)
Definition slot s (now : DateTime) (id : Uuid) (t : DateTime) (st : AutomationRunStatus) : Prop :=
  ∃ a first interval due,
    ss_automations s !! id = Some a ∧ au_enabled a = true ∧ au_next_due_at a = Some first ∧
    (first ≤ now)%Z ∧ trigger_interval_seconds (au_trigger a) = Ok interval ∧
    due_times a first now interval = Ok due ∧ (t, st) ∈ due.

(** The automation has nothing left to do at [now]. *)
Definition settled (now : DateTime) (a : Automation) : Prop :=
  au_enabled a = true → ∀ d, au_next_due_at a = Some d → (now < d)%Z.

(** An interval chrono can represent as a duration. *)
Definition representable (a : Automation) : Prop :=
  ∀ n, trigger_interval_seconds (au_trigger a) = Ok (Some n) → (Z.of_N n ≤ i64_max / 1000)%Z.

Lemma valid_interval t :
  validate_trigger t = Ok () →
  ∃ i, trigger_interval_seconds t = Ok i ∧ ∀ n, i = Some n → (0 < n)%N.
Proof.
  unfold validate_trigger, trigger_interval_seconds, parse_cron_interval.
  intros Hv. branches; eexists; (split; [done|]); intros m Hm; simplify_eq;
    repeat match goal with H : (_ =? _)%N = false |- _ => apply N.eqb_neq in H end; lia.
Qed.

Lemma duration_representable n :
  (Z.of_N n ≤ i64_max / 1000)%Z →
  duration_seconds (clamp_i64 n) = Some (Z.of_N n * 1000000000)%Z.
Proof.
  intros Hn. assert (i64_max / 1000 ≤ i64_max)%Z by by vm_compute.
  unfold clamp_i64. rewrite Z.min_r, duration_seconds_spec, bool_decide_eq_true_2 by lia. done.
Qed.

Lemma due_times_total a first now i :
  (∀ n, i = Some n → Z.of_N n ≤ i64_max / 1000)%Z → ∃ due, due_times a first now i = Ok due.
Proof.
  intros Hi. unfold due_times. munfold. destruct i as [n|]; [|by eauto].
  rewrite duration_representable by auto. eauto.
Qed.

Lemma next_due_total now i t :
  (∀ n, i = Some n → (0 < n)%N ∧ Z.of_N n ≤ i64_max / 1000)%Z →
  ∃ next, next_due_after now i t = Ok next ∧ ∀ d, next = Some d → (now < d)%Z.
Proof.
  intros Hi. unfold next_due_after. destruct (is_once t); [by eexists; split|].
  destruct i as [n|]; [|by eexists; split]. destruct (Hi n eq_refl) as [Hpos Hrep].
  rewrite duration_representable by done. eexists. split; [done|]. intros d.
  rewrite checked_add_signed_spec. case_bool_decide; [|done]. intros [= <-]. lia.
Qed.

(** What evaluating the automations [ids] does: exactly the missing slots are
    queued, and nothing is left due. *)
Record evaluated (now : DateTime) (ids : list Uuid) s (q : list string) (s' : SchedulerSnapshot)
    : Prop := {
  ev_extends : extends s s';
  ev_nodup : NoDup q;
  ev_frame id : id ∉ ids → ss_automations s' !! id = ss_automations s !! id;
  ev_settled id a : id ∈ ids → ss_automations s' !! id = Some a → settled now a;
  ev_queue k : k ∈ q ↔ ss_runs s !! k = None ∧
    ∃ id t, id ∈ ids ∧ slot s now id t Queued ∧ k = schedule_key id t;
  ev_status k : k ∈ q → ∃ r, ss_runs s' !! k = Some r ∧ ar_status r = Queued;
  ev_new k r : ss_runs s !! k = None → ss_runs s' !! k = Some r →
    ∃ id t, id ∈ ids ∧ k = schedule_key id t;
}.

Lemma evaluated_idle now ids s :
  (∀ id a, id ∈ ids → ss_automations s !! id = Some a → settled now a) →
  evaluated now ids s [] s.
Proof.
  intros Hset. split; [apply extends_refl|constructor|done|done| |by intros k ?%elem_of_nil|congruence].
  intros k. split; [by intros ?%elem_of_nil|].
  intros (_ & id & t & Hid & (a & d & i & due & Ha & Hen & Hd & Hle & _) & _).
  specialize (Hset id a Hid Ha Hen d Hd). lia.
Qed.

Lemma evaluate_one_due fresh now id a first s :
  ss_automations s !! id = Some a → limits_ok a → representable a →
  au_enabled a = true → au_next_due_at a = Some first → (first ≤ now)%Z →
  ∃ q s', evaluate_one fresh now id s = (Ok q, s') ∧ evaluated now [id] s q s'.
Proof.
  intros Ha (_ & _ & _ & Hvalid) Hrep Hen Hd Hnow. unfold evaluate_one, get_automation. munfold.
  rewrite Ha. munfold. rewrite Hen, Hd. simpl. rewrite bool_decide_eq_false_2 by lia.
  destruct (valid_interval _ Hvalid) as (i & Hi & Hpos). rewrite Hi. munfold.
  destruct (due_times_total a first now i) as [due Hdue]; [intros ? ->; by apply Hrep|].
  rewrite Hdue. munfold.
  destruct (enqueue_due_spec fresh id due (birth_status a) s)
    as (q & s1 & -> & Hext & Hau & Hnd & Hq & Hcov & Hnew).
  { by eauto. } { unfold birth_status. by case_match; auto. }
  { intros t st Hin. by eapply due_times_status. }
  rewrite Hau, Ha. destruct (next_due_total now i (au_trigger a)) as (next & -> & Hnext).
  { intros m ->. auto. }
  munfold. unfold put_automation, modify, M_bind. eexists _, _. split; [done|]. split; simpl.
  - eapply extends_trans; [done|]. apply extends_definitions; [done|].
    apply same_definitions_put. by rewrite Hau.
  - done.
  - intros id' Hne%not_elem_of_cons. by rewrite lookup_insert_ne, Hau by naive_solver.
  - intros id' a' ->%list_elem_of_singleton. rewrite lookup_insert_eq. by intros [= <-] _.
  - intros k. rewrite Hq. split.
    + intros (Hno & Hb & t & Hin & ->). split; [done|]. exists id, t. rewrite <- Hb.
      split_and!; [by left| |done]. by exists a, first, i, due.
    + intros (Hno & id' & t & ->%list_elem_of_singleton & (a0 & f0 & i0 & due0 & Hslot) & ->).
      destruct Hslot as (Ha0 & _ & Hd0 & _ & Hi0 & Hdue0 & Hin). simplify_eq.
      rewrite Hi in Hi0. simplify_eq. rewrite Hdue in Hdue0. simplify_eq.
      pose proof (due_times_status _ _ _ _ _ _ _ Hdue Hin) as Hb. rewrite <- Hb.
      split_and!; [done..|]. by exists t.
  - intros k (Hno & Hb & t & Hin & ->)%Hq. destruct (Hcov _ _ Hin) as [r Hr].
    exists r. split; [done|]. destruct (Hnew _ _ Hno Hr) as [? _]. congruence.
  - intros k r Hno Hr. destruct (Hnew k r Hno Hr) as (_ & _ & t & _ & ->).
    exists id, t. split; [by left|done].
Qed.

Lemma evaluate_one_spec fresh now id a s :
  ss_automations s !! id = Some a → limits_ok a → representable a →
  ∃ q s', evaluate_one fresh now id s = (Ok q, s') ∧ evaluated now [id] s q s'.
Proof.
  intros Ha Hok Hrep.
  assert (settled now a ∨ au_enabled a = true ∧ ∃ d, au_next_due_at a = Some d ∧ (d ≤ now)%Z)
    as [Hset|(Hen & d & Hd & Hle)]; [|exists [], s; split|by eapply evaluate_one_due].
  { unfold settled. destruct (au_enabled a), (au_next_due_at a) as [d|]; try by left.
    destruct (decide (now < d)%Z); [left; naive_solver|right; eauto with lia]. }
  - unfold evaluate_one, get_automation. munfold. rewrite Ha. munfold.
    destruct (au_enabled a) eqn:Hen; [|done]. simpl. destruct (au_next_due_at a) eqn:Hd; [|done].
    by rewrite bool_decide_eq_true_2 by auto.
  - apply evaluated_idle. intros id' a' ->%list_elem_of_singleton Ha'. by simplify_eq.
Qed.

(** The slots of other automations are not affected by evaluating [ids]. *)
Lemma slot_frame now ids s q s' id t st :
  evaluated now ids s q s' → id ∉ ids → slot s' now id t st ↔ slot s now id t st.
Proof. intros Hev Hid. unfold slot. by rewrite (ev_frame _ _ _ _ _ Hev id Hid). Qed.

Lemma evaluated_app now ids1 ids2 s q1 s1 q2 s2 :
  (∀ id, id ∈ ids1 ++ ids2 → id < 2 ^ 128)%N → (∀ id, id ∈ ids1 → id ∉ ids2) →
  evaluated now ids1 s q1 s1 → evaluated now ids2 s1 q2 s2 →
  evaluated now (ids1 ++ ids2) s (q1 ++ q2) s2.
Proof.
  intros Hb Hdisj H1 H2.
  assert (∀ k, k ∈ q1 → is_Some (ss_runs s1 !! k)) as Hq1
    by (intros k (r & ? & _)%(ev_status _ _ _ _ _ H1); eauto).
  split.
  - eapply extends_trans; [apply H1|apply H2].
  - apply NoDup_app. split_and!; [apply H1| |apply H2].
    intros k [r Hr]%Hq1 [Hno _]%(ev_queue _ _ _ _ _ H2). congruence.
  - intros id [? ?]%not_elem_of_app. by rewrite (ev_frame _ _ _ _ _ H2), (ev_frame _ _ _ _ _ H1).
  - intros id a Hid Ha. destruct (decide (id ∈ ids2)) as [|Hno]; [by eapply (ev_settled _ _ _ _ _ H2)|].
    rewrite (ev_frame _ _ _ _ _ H2) in Ha by done. apply elem_of_app in Hid as [|]; [|done].
    by eapply (ev_settled _ _ _ _ _ H1).
  - intros k. rewrite elem_of_app, (ev_queue _ _ _ _ _ H1), (ev_queue _ _ _ _ _ H2). split.
    + intros [(Hno & id & t & Hid & ?)|(Hno & id & t & Hid & Hs & ?)].
      * split; [done|]. exists id, t. rewrite elem_of_app. auto.
      * split. { destruct (ss_runs s !! k) eqn:Hk; [|done]. apply H1 in Hk. congruence. }
        exists id, t. rewrite elem_of_app. split_and!; [by right| |done].
        apply (slot_frame _ _ _ _ _ id t Queued H1); [set_solver|done].
    + intros (Hno & id & t & [Hid|Hid]%elem_of_app & Hs & ->).
      { left. split; [done|]. by exists id, t. }
      right. split; [|exists id, t; split_and!; [done| |done];
        apply (slot_frame _ _ _ _ _ id t Queued H1); [set_solver|done]].
      destruct (ss_runs s1 !! _) as [r|] eqn:Hr; [|done].
      destruct (ev_new _ _ _ _ _ H1 _ _ Hno Hr) as (id' & t' & Hid' & Heq).
      apply schedule_key_inj in Heq as [-> _]; [set_solver|apply Hb; set_solver..].
  - intros k [Hk|Hk]%elem_of_app; [|by apply (ev_status _ _ _ _ _ H2)].
    apply (ev_status _ _ _ _ _ H1) in Hk as (r & Hr & ?).
    exists r. split; [by apply H2|done].
  - intros k r Hno Hr. destruct (ss_runs s1 !! k) as [r1|] eqn:Hk.
    + destruct (ev_new _ _ _ _ _ H1 _ _ Hno Hk) as (id & t & ? & ?). exists id, t. set_solver.
    + destruct (ev_new _ _ _ _ _ H2 _ _ Hk Hr) as (id & t & ? & ?). exists id, t. set_solver.
Qed.

(** Every definition is valid, has a 128-bit identifier and an interval chrono
    can represent. *)
Definition definitions_ok s : Prop :=
  ∀ (id : Uuid) a, ss_automations s !! id = Some a → (id < 2 ^ 128)%N ∧ limits_ok a ∧ representable a.

Lemma definitions_ok_same s s' : same_definitions s s' → definitions_ok s → definitions_ok s'.
Proof.
  intros Hs Hok id a' Ha'. specialize (Hs id). rewrite Ha' in Hs. case_match eqn:Ha; [|done].
  destruct Hs as (e & f & v & d & ->). exact (Hok id _ Ha).
Qed.

Lemma evaluate_all_spec fresh now ids s :
  definitions_ok s → NoDup ids → (∀ id, id ∈ ids → is_Some (ss_automations s !! id)) →
  ∃ q s', evaluate_all fresh now ids s = (Ok q, s') ∧ evaluated now ids s q s'.
Proof.
  intros Hok Hnd. revert s Hok. induction Hnd as [|id ids Hid Hnd IH]; intros s Hok Hin; munfold.
  { exists [], s. split; [done|]. apply evaluated_idle. by intros id a ?%elem_of_nil. }
  destruct (Hin id) as [a Ha]; [by left|]. destruct (Hok id a Ha) as (Hb & Hlim & Hrep).
  munfold. destruct (evaluate_one_spec fresh now id a s) as (q1 & s1 & -> & H1); [done..|].
  pose proof (ext_definitions _ _ (ev_extends _ _ _ _ _ H1)) as Hdef.
  destruct (IH s1) as (q2 & s2 & -> & H2); [by eapply definitions_ok_same| |].
  { intros id' Hid'. apply (same_definitions_domain _ _ _ Hdef), Hin. by right. }
  eexists _, _. split; [done|]. apply (evaluated_app now [id] ids s q1 s1 q2 s2); try done.
  - intros id' Hid'. destruct (Hin id') as [a' Ha']; [set_solver|]. by eapply Hok.
  - set_solver.
Qed.

Lemma evaluate_spec fresh now s :
  definitions_ok s →
  ∃ q s1, evaluate fresh now s =
      (Ok q, mkSchedulerSnapshot (ss_automations s1) (ss_runs s1) (Some now)) ∧
    evaluated now (keys (ss_automations s)) s q s1.
Proof.
  intros Hok.
  destruct (evaluate_all_spec fresh now (keys (ss_automations s)) s) as (q & s1 & Hrun & Hev);
    [done|apply NoDup_keys|by intros id ?%elem_of_keys|].
  exists q, s1. split; [|done]. unfold evaluate. munfold. by rewrite Hrun.
Qed.

Lemma evaluate_settled fresh now s :
  (∀ id a, ss_automations s !! id = Some a → settled now a) →
  evaluate fresh now s = (Ok [], mkSchedulerSnapshot (ss_automations s) (ss_runs s) (Some now)).
Proof.
  intros Hset. unfold evaluate. munfold.
  assert (∀ ids, (∀ id, id ∈ ids → is_Some (ss_automations s !! id)) →
    evaluate_all fresh now ids s = (Ok [], s)) as Hall.
  { induction ids as [|id ids IH]; intros Hin; [done|]. destruct (Hin id) as [a Ha]; [by left|].
    munfold. unfold evaluate_one, get_automation. munfold. rewrite Ha. munfold.
    specialize (Hset id a Ha). unfold settled in Hset.
    assert (evaluate_all fresh now ids s = (Ok [], s)) as Hrest by (apply IH; set_solver).
    destruct (au_enabled a); simpl; [|by rewrite Hrest].
    destruct (au_next_due_at a) as [d|]; simpl; [|by rewrite Hrest].
    rewrite bool_decide_eq_true_2 by auto. simpl. by rewrite Hrest. }
  rewrite Hall; [done|]. by intros id ?%elem_of_keys.
Qed.

End evaluation.

(** ** Every call refines the lifecycle *)

Section lifecycle.
Context `{Chrono, UuidText}.
Implicit Types s : SchedulerSnapshot.

Lemma evaluate_one_extends fresh now id s : extends s (state_of (evaluate_one fresh now id) s).
Proof.
  unfold state_of, evaluate_one, get_automation. munfold.
  destruct (ss_automations s !! id) as [a|] eqn:Ha; munfold; [|apply extends_refl].
  destruct (au_enabled a); simpl; [|apply extends_refl].
  destruct (au_next_due_at a) as [first|]; [|apply extends_refl].
  case_bool_decide; [apply extends_refl|].
  destruct (trigger_interval_seconds _) as [i|e|]; [|apply extends_refl..]. munfold.
  destruct (due_times _ _ _ _) as [due|e|] eqn:Hdue; [|apply extends_refl..]. munfold.
  destruct (enqueue_due_spec fresh id due (birth_status a) s) as (q & s1 & -> & Hext & Hau & _).
  { by eauto. } { unfold birth_status. by case_match; auto. }
  { intros t st Hin. by eapply due_times_status. }
  rewrite Hau, Ha. destruct (next_due_after _ _ _) as [next|e|]; [|done..]. munfold.
  eapply extends_trans; [done|]. apply extends_definitions; [done|].
  apply same_definitions_put. by rewrite Hau.
Qed.

Lemma evaluate_all_extends fresh now ids s : extends s (state_of (evaluate_all fresh now ids) s).
Proof.
  revert s. induction ids as [|id ids IH]; intros s; [apply extends_refl|].
  unfold state_of in *. do 2 munfold.
  pose proof (evaluate_one_extends fresh now id s) as H1. unfold state_of in H1.
  destruct (evaluate_one fresh now id s) as [[q|e|] s1]; simpl in *; [|done..].
  specialize (IH s1). destruct (evaluate_all fresh now ids s1) as [[q2|e|] s2]; simpl in *;
    by eapply extends_trans.
Qed.

Lemma evaluate_extends fresh now s : extends s (state_of (evaluate fresh now) s).
Proof.
  pose proof (evaluate_all_extends fresh now (keys (ss_automations s)) s) as H1.
  unfold evaluate, state_of in *. munfold.
  destruct (evaluate_all _ _ _ _) as [[q|e|] s1]; simpl in *; [|done..].
  eapply extends_trans; [done|]. by apply extends_definitions; [|intros id; exact (same_definitions_refl s1 id)].
Qed.

Lemma trigger_all_extends fresh event now l s :
  (∀ a, a ∈ l → is_Some (ss_automations s !! au_id a)) →
  extends s (state_of (trigger_all fresh event now l) s).
Proof.
  revert s. induction l as [|a l IH]; intros s Hl; [apply extends_refl|].
  assert (∀ s', ss_automations s' = ss_automations s →
    extends s' (state_of (trigger_all fresh event now l) s')) as IH'.
  { intros s' Hs'. apply IH. intros a' Ha'. rewrite Hs'. apply Hl. by right. }
  simpl. destruct (_ || _); [by apply IH'|]. unfold state_of. munfold.
  case_bool_decide as Hk; [by apply (IH' s)|]. apply eq_None_not_Some in Hk.
  unfold put_run, modify, M_bind.
  specialize (IH' (set_runs <[event_key (au_id a) now :=
    new_run (fresh (event_key (au_id a) now)) (au_id a) (event_key (au_id a) now) now Queued]> s)
    eq_refl). unfold state_of in IH'.
  assert (born s (event_key (au_id a) now)
    (new_run (fresh (event_key (au_id a) now)) (au_id a) (event_key (au_id a) now) now Queued))
    as Hb by (split; simpl; [done..|by left|apply Hl; by left]).
  pose proof (extends_put s _ _ Hk Hb) as Hput.
  destruct (trigger_all _ _ _ _ _) as [[q|e|] s2]; simpl in *; by eapply extends_trans.
Qed.

Lemma trigger_event_extends fresh event now s :
  sched_inv s → extends s (state_of (trigger_event fresh event now) s).
Proof.
  intros Hinv. unfold trigger_event, state_of. munfold.
  apply trigger_all_extends. intros a [id Ha]%elem_of_values.
  destruct (inv_automation _ Hinv _ _ Ha) as [-> _]. eauto.
Qed.

(** Discharge a lifecycle step of a run. *)
Ltac run_step_tac :=
  repeat match goal with
  | H : negb (has_status _ _) = false |- _ =>
    apply negb_false_iff in H; unfold has_status in H; apply bool_decide_eq_true in H
  | H : _ ∈ _ :: _ |- _ => apply elem_of_cons in H as [H|H]
  | H : _ ∈ [] |- _ => by apply elem_of_nil in H
  end;
  split; simpl; try done; try (case_bool_decide; first [done|intuition congruence]);
  repeat match goal with H : ar_status _ = _ |- _ => rewrite H end; try case_match; eauto using status_step.

(** A status written by a call is not [Running], or was [Running] before. *)
Ltac run_status_tac :=
  repeat match goal with
  | H : negb (has_status _ _) = false |- _ =>
    apply negb_false_iff in H; unfold has_status in H; apply bool_decide_eq_true in H
  | H : _ ∈ [_] |- _ => apply list_elem_of_singleton in H
  end; simpl; intros; congruence.

(** No run is running that was not running before. *)
Definition quiet s s' : Prop :=
  ∀ k r', ss_runs s' !! k = Some r' → ar_status r' = Running →
    ∃ r, ss_runs s !! k = Some r ∧ ar_status r = Running.

(** What a kind of call may do beyond a lifecycle step: set a run going, and
    replace or delete a definition. *)
Record licence : Type := Licence { lic_starts : bool; lic_redefines : bool }.

(** A call made a lifecycle step, kept the invariant, and stayed within its
    licence. *)
Definition sound_step (b : licence) s s' : Prop :=
  sched_step s s' ∧ sched_inv s' ∧ (lic_starts b = false → quiet s s') ∧
  (lic_redefines b = false → same_definitions s s').

Definition op_licence (o : op) : licence :=
  match o with
  | OStart _ _ | OResume _ => Licence true false
  | OUpsert _ | ORemove _ => Licence false true
  | _ => Licence false false
  end.

Lemma sound_refl b s : sched_inv s → sound_step b s s.
Proof.
  intros ?. unfold sound_step. split_and!; [apply sched_step_refl|done| |auto with agent].
  intros _ k r ??. eauto.
Qed.

Lemma sound_extends b s s' : sched_inv s → extends s s' → sound_step b s s'.
Proof.
  intros Hinv Hext. pose proof (extends_step _ _ Hext). unfold sound_step.
  split_and!; [done| | |by intros _; apply Hext].
  - eapply sched_inv_step; [done..|apply Hext].
  - intros _ k r Hk Hr. destruct (ss_runs s !! k) as [r0|] eqn:Hr0.
    + apply (ext_old _ _ Hext) in Hr0. assert (r = r0) as -> by congruence. eauto.
    + destruct (ext_new _ _ Hext k r Hr0 Hk) as [_ _ [?|?] _]; congruence.
Qed.

Lemma sound_put b s key r r' :
  sched_inv s → ss_runs s !! key = Some r → run_step r r' →
  (lic_starts b = false → ar_status r' = Running → ar_status r = Running) →
  sound_step b s (set_runs <[key := r']> s).
Proof.
  intros Hinv Hr Hstep Hq. pose proof (put_run_step s key r r' Hr Hstep). unfold sound_step.
  split_and!; [done| | |auto with agent].
  - eapply sched_inv_step; [done..|apply same_definitions_runs].
  - intros Hb k r2. simpl. destruct (decide (key = k)) as [->|Hne].
    + rewrite lookup_insert_eq. intros [= <-] ?. eauto.
    + rewrite lookup_insert_ne by done. eauto.
Qed.

Lemma sound_map b s f :
  sched_inv s → (∀ r, run_step r (f r)) → (∀ r, ar_status (f r) = Running → ar_status r = Running) →
  sound_step b s (set_runs (fmap f) s).
Proof.
  intros Hinv Hf Hq. pose proof (map_runs_step s f Hf). unfold sound_step.
  split_and!; [done| | |auto with agent].
  - eapply sched_inv_step; [done..|apply same_definitions_runs].
  - intros _ k r'. simpl. rewrite lookup_fmap. destruct (ss_runs s !! k) as [r|]; [|done].
    intros [= <-] ?. eauto.
Qed.

Lemma sound_definitions b s s1 s2 :
  sched_inv s → sound_step b s s1 → ss_runs s2 = ss_runs s1 → same_definitions s1 s2 →
  sound_step b s s2.
Proof.
  intros Hinv (Hstep & Hinv1 & Hq & Hd) Hruns Hdef. unfold sound_step.
  split_and!; [by eapply sched_step_definitions| |by unfold quiet; rewrite Hruns
    |by intros ?; eapply same_definitions_trans; [apply Hd|]].
  eapply sched_inv_step; [done| |done]. eapply sched_step_definitions; [|done..].
  apply sched_step_refl.
Qed.

Lemma sound_put_definition b s s1 id a e f v d :
  sched_inv s → sound_step b s s1 → ss_automations s1 !! id = Some a →
  sound_step b s (set_automations <[id := au_with a e f v d]> s1).
Proof. intros ?? Ha. eapply sound_definitions; [done..|]. by apply same_definitions_put. Qed.

Lemma sound_upsert s a : sched_inv s → sound_step (Licence false true) s (state_of (upsert a) s).
Proof.
  intros Hinv. unfold state_of, upsert, put_automation. munfold.
  destruct (_ || _) eqn:Hlim; munfold; [by apply sound_refl|].
  destruct (validate_trigger _) as [[]|e|] eqn:Hv; munfold; [|by apply sound_refl..].
  apply orb_false_iff in Hlim as [[H1 H2]%orb_false_iff H3].
  apply N.eqb_neq in H1, H2, H3. split; [|split; [|split; [intros _ k r ??; eauto|done]]]; split; simpl.
  - intros k r Hk. rewrite Hk. apply run_step_refl.
  - congruence.
  - intros id a'. destruct (decide (au_id a = id)) as [<-|Hne].
    + rewrite lookup_insert_eq. intros [= <-]. split; [done|]. unfold limits_ok. auto with lia.
    + rewrite lookup_insert_ne by done. apply Hinv.
  - intros k r Hk. apply Hinv in Hk as [? Hau]. split; [done|].
    rewrite lookup_insert_is_Some'. auto.
Qed.

Lemma sound_remove s id : sched_inv s → sound_step (Licence false true) s (state_of (remove id) s).
Proof.
  intros Hinv. unfold state_of, remove, get_automation. munfold.
  destruct (ss_automations s !! id) as [a|] eqn:Ha; munfold; [|by apply sound_refl].
  split; [|split; [|split; [by intros _ k r [? _]%map_lookup_filter_Some ?; eauto|done]]];
    split; simpl.
  - intros k r [Hk _]%map_lookup_filter_Some. rewrite Hk. apply run_step_refl.
  - intros k r Hk. rewrite map_lookup_filter_None. intros [?|Hno]; [congruence|].
    destruct (decide (ar_automation_id r = id)) as [->|Hne]; [apply lookup_delete_eq|].
    by destruct (Hno r Hk).
  - intros id' a' Ha'. apply lookup_delete_Some in Ha' as [_ Ha']. by apply Hinv.
  - intros k r [Hk Hne]%map_lookup_filter_Some. apply Hinv in Hk as [? ?]. split; [done|].
    simpl in Hne. by rewrite lookup_delete_ne by done.
Qed.

Lemma put_twice s key r r' :
  set_runs <[key := r']> (set_runs <[key := r]> s) = set_runs <[key := r']> s.
Proof. unfold set_runs. simpl. by rewrite insert_insert_eq. Qed.

Lemma sound_bind_approval b s key sid rid reason :
  sched_inv s → sound_step b s (state_of (bind_approval key sid rid reason) s).
Proof.
  intros Hinv. unfold state_of, bind_approval, wait_for_approval, get_run, put_run. munfold.
  destruct (_ || _); munfold; [by apply sound_refl|].
  destruct (ss_runs s !! key) as [r|] eqn:Hr; munfold; [|by apply sound_refl].
  destruct (negb _) eqn:Hst; munfold; [by apply sound_refl|].
  rewrite lookup_insert_eq. munfold. rewrite put_twice.
  eapply sound_put; [done..| |by run_status_tac]. run_step_tac.
Qed.

(** A terminal write to the run followed by the update of its automation. *)
Lemma sound_settle b s key r r' (f : Automation → Automation) :
  sched_inv s → ss_runs s !! key = Some r → run_step r r' → ar_status r' ≠ Running →
  (∀ a, ∃ e n v d, f a = au_with a e n v d) →
  sound_step b s (state_of (put_run key r';; a ← get_automation (ar_automation_id r);
                          put_automation (ar_automation_id r) (f a)) s).
Proof.
  intros Hinv Hr Hstep Hst Hf. unfold state_of, put_run, get_automation, put_automation. munfold.
  assert (sound_step b s (set_runs <[key:=r']> s)) as Hput by by eapply sound_put.
  destruct (ss_automations s !! _) as [a|] eqn:Ha; munfold; [|done].
  destruct (Hf a) as (e & n & v & d & ->). by apply sound_put_definition.
Qed.

Lemma sound_finish b s at_ key success state :
  sched_inv s → sound_step b s (state_of (finish at_ key success state) s).
Proof.
  intros Hinv. pose proof (sound_settle b s key) as Hsettle. unfold state_of, finish, get_run in *.
  munfold. destruct (ss_runs s !! key) as [r|] eqn:Hr; munfold; [|by apply sound_refl].
  destruct (negb _) eqn:Hst; munfold; [by apply sound_refl|].
  destruct success; [apply (Hsettle r _ (record_success state))|apply (Hsettle r _ record_failure)];
    try done; try (by unfold record_success, record_failure; eauto 10); run_step_tac.
Qed.

Lemma sound_fail b s at_ key summary :
  sched_inv s → sound_step b s (state_of (fail_active at_ key summary) s).
Proof.
  intros Hinv. pose proof (sound_settle b s key) as Hsettle. unfold state_of, fail_active, get_run in *.
  munfold. destruct (ss_runs s !! key) as [r|] eqn:Hr; munfold; [|by apply sound_refl].
  destruct (negb _) eqn:Hst; munfold; [by apply sound_refl|].
  apply (Hsettle r _ record_failure);
    try done; try (by unfold record_failure; eauto 10); run_step_tac.
Qed.

Lemma recover_run_step r : run_step r (recover_run r).
Proof.
  unfold recover_run, interrupted, has_status. case_bool_decide as Hst; [|apply run_step_refl].
  run_step_tac.
Qed.

Lemma preempt_run_step r : run_step r (preempt_run r).
Proof.
  unfold preempt_run, has_status. case_bool_decide as Hst; [|apply run_step_refl]. run_step_tac.
Qed.

Lemma exec_sound s o : sched_inv s → op_fresh s o → sound_step (op_licence o) s (exec o s).
Proof.
  intros Hinv Hfresh. destruct o; simpl in *.
  - by apply sound_upsert.
  - apply sound_extends, evaluate_extends; done.
  - apply sound_extends, trigger_event_extends; done.
  - unfold state_of, run_now, put_run. munfold.
    case_bool_decide as Ha; simpl; [|by apply sound_refl].
    apply sound_extends; [done|]. apply extends_put; [done|]. split; auto.
  - unfold state_of, start, get_run, put_run, get_automation. branches; try by apply sound_refl.
    eapply sound_put; [done..| |by run_status_tac]. run_step_tac.
  - unfold state_of, set_enabled, get_automation, put_automation. branches; try by apply sound_refl.
    apply sound_put_definition; [done|by apply sound_refl|done].
  - by apply sound_remove.
  - unfold state_of, wait_for_approval, get_run, put_run. branches; try by apply sound_refl.
    eapply sound_put; [done..| |by run_status_tac]. run_step_tac.
  - by apply sound_bind_approval.
  - unfold state_of, bind_runtime_session, get_run, put_run. branches; try by apply sound_refl.
    eapply sound_put; [done..| |by run_status_tac]. run_step_tac.
  - unfold state_of, approve, get_run, put_run. branches; try by apply sound_refl.
    eapply sound_put; [done..| |by run_status_tac]. run_step_tac.
  - unfold state_of, resume_after_approval, get_run, put_run. branches; try by apply sound_refl.
    eapply sound_put; [done..| |by run_status_tac]. run_step_tac.
  - by apply sound_finish.
  - unfold state_of, set_result_summary, get_run, put_run. branches; try by apply sound_refl.
    eapply sound_put; [done..| |by run_status_tac]. run_step_tac.
  - by apply sound_fail.
  - apply sound_map; [done|apply recover_run_step|].
    intros r. unfold recover_run. by destruct (interrupted r).
  - apply sound_map; [done|apply preempt_run_step|].
    intros r. unfold preempt_run. by destruct (has_status _ r).
Qed.


(** C27: every call of the scheduler refines the run lifecycle.  From a state
    whose definitions are valid and whose runs are filed under their own key and
    belong to a stored automation, any call, whether it returns a value, an error
    or a panic, moves each stored run along the lifecycle (keeping its identity
    and counting an attempt exactly when it starts), creates runs only queued or
    skipped with no attempt, loses a run only with its automation, and leaves
    such a state again. *)
Theorem scheduler_refines_the_run_lifecycle s o :
  sched_inv s → op_fresh s o → sched_step s (exec o s) ∧ sched_inv (exec o s).
Proof. intros Hinv Hf. by destruct (exec_sound s o Hinv Hf) as (? & ? & _). Qed.
End lifecycle.

(** ** Concurrency budget *)

Section budget.
Context `{Chrono, UuidText}.
Implicit Types s : SchedulerSnapshot.

Definition within_budget s : Prop :=
  ∀ id a, ss_automations s !! id = Some a →
    count_values (running_of id) (ss_runs s) ≤ N.to_nat (au_max_concurrency a).

(** The calls that respect the budget: all but [resume_after_approval], and an
    update of a definition that does not lower its limit. *)
Definition budget_call s (o : op) : Prop :=
  match o with
  | OResume _ => False
  | OUpsert a => ∀ old, ss_automations s !! au_id a = Some old →
      (au_max_concurrency old ≤ au_max_concurrency a)%N
  | _ => True
  end.

Lemma running_of_true id r :
  running_of id r = true ↔ ar_automation_id r = id ∧ ar_status r = Running.
Proof.
  unfold running_of, has_status. rewrite andb_true_iff, !bool_decide_eq_true, list_elem_of_singleton.
  done.
Qed.

Lemma quiet_count s s' id :
  sched_step s s' → quiet s s' →
  count_values (running_of id) (ss_runs s') ≤ count_values (running_of id) (ss_runs s).
Proof.
  intros Hstep Hq. apply count_values_mono. intros k r' Hk [Hid Hst]%running_of_true.
  destruct (Hq k r' Hk Hst) as (r & Hr & Hrun). exists r. split; [done|].
  pose proof (st_runs _ _ Hstep k r' Hk) as Hrs. rewrite Hr in Hrs.
  apply running_of_true. split; [|done]. by rewrite <- (rs_automation _ _ Hrs).
Qed.

(** An automation that appears with a call has no runs. *)
Lemma no_runs_of_missing s id :
  sched_inv s → ss_automations s !! id = None → count_values (running_of id) (ss_runs s) = 0.
Proof.
  intros Hinv Hno. apply count_values_zero. intros k r Hk. apply not_true_iff_false.
  rewrite running_of_true. intros [<- _]. apply Hinv in Hk as [_ [a Ha]]. congruence.
Qed.

(** Definitions keep or raise their limit under a budget call. *)
Lemma limits_kept s o id a' :
  sched_inv s → op_fresh s o → budget_call s o → ss_automations (exec o s) !! id = Some a' →
  ss_automations s !! id = None ∨
  ∃ a, ss_automations s !! id = Some a ∧ (au_max_concurrency a ≤ au_max_concurrency a')%N.
Proof.
  intros Hinv Hf Hb Ha'.
  assert (same_definitions s (exec o s) → ss_automations s !! id = None ∨ ∃ a,
    ss_automations s !! id = Some a ∧ (au_max_concurrency a ≤ au_max_concurrency a')%N) as Hsame.
  { intros Hs. specialize (Hs id). rewrite Ha' in Hs. case_match; [|by left].
    destruct Hs as (e & f & v & d & ->). right. eexists. split; [done|simpl; lia]. }
  destruct (exec_sound s o Hinv Hf) as (_ & _ & _ & Hdef).
  destruct o; simpl in *; try (by apply Hsame, Hdef).
  - revert Ha'. unfold state_of, upsert, put_automation. munfold.
    destruct (_ || _); munfold; [by eauto|].
    destruct (validate_trigger _) as [[]|e|]; munfold; [|by eauto..].
    destruct (decide (au_id a = id)) as [<-|Hne].
    + rewrite lookup_insert_eq. intros [= <-]. destruct (ss_automations s !! _); eauto.
    + rewrite lookup_insert_ne by done. eauto.
  - revert Ha'. unfold state_of, remove, get_automation. munfold.
    destruct (ss_automations s !! automation_id); munfold; [|by eauto].
    intros [_ ?]%lookup_delete_Some. eauto.
Qed.

Lemma start_budget s at_ key id a :
  within_budget s → ss_automations s !! id = Some a →
  count_values (running_of id) (ss_runs (state_of (start at_ key) s)) ≤
    N.to_nat (au_max_concurrency a).
Proof.
  intros Hb Ha. specialize (Hb id a Ha). unfold state_of, start, get_run, get_automation, put_run.
  munfold. destruct (ss_runs s !! key) as [r|] eqn:Hr; munfold; [|done].
  destruct (ss_automations s !! ar_automation_id r) as [a0|] eqn:Ha0; munfold; [|done].
  destruct (_ <=? _) eqn:Hlim; munfold; [done|]. apply Nat.leb_gt in Hlim. rewrite Hr. munfold.
  destruct (negb _) eqn:Hst; munfold; [done|].
  pose proof (count_values_insert (running_of id) (ss_runs s) key r
    (run_with r Running (sat_add u16_max (ar_attempt r) 1) (ar_approval_reason r) (Some at_)
       None None (ar_runtime_session_id r) (ar_runtime_request_id r)) Hr) as Hcount.
  destruct (decide (ar_automation_id r = id)) as [<-|Hne].
  - simplify_eq. destruct (running_of _ r), (running_of _ _); simpl in *; lia.
  - assert (running_of id (run_with r Running (sat_add u16_max (ar_attempt r) 1)
      (ar_approval_reason r) (Some at_) None None (ar_runtime_session_id r)
      (ar_runtime_request_id r)) = false) as Hno.
    { apply not_true_iff_false. rewrite running_of_true. by intros [? _]. }
    rewrite Hno in Hcount. simpl in Hcount. lia.
Qed.

(** C33: the concurrency budget holds.  No call other than
    [resume_after_approval], and no update that lowers a limit, takes the number
    of running runs of any automation above its [max_concurrency]. *)
Theorem runs_stay_within_concurrency s o :
  sched_inv s → op_fresh s o → budget_call s o → within_budget s → within_budget (exec o s).
Proof.
  intros Hinv Hf Hcall Hb id a' Ha'.
  destruct (exec_sound s o Hinv Hf) as (Hstep & _ & Hq & _).
  destruct (limits_kept s o id a' Hinv Hf Hcall Ha') as [Hno|(a & Ha & Hle)].
  - destruct o; simpl in *; try done; try (pose proof (quiet_count s _ id Hstep (Hq eq_refl)) as Hc;
      rewrite (no_runs_of_missing s id Hinv Hno) in Hc; simpl in Hc; lia).
    destruct (exec_sound s (OStart at_ key) Hinv I) as (_ & _ & _ & Hdef).
    specialize (Hdef eq_refl id). simpl in Hdef. rewrite Hno in Hdef.
    by rewrite Ha' in Hdef.
  - trans (N.to_nat (au_max_concurrency a)); [|lia].
    destruct o; simpl in *; try done; try (etrans; [apply (quiet_count s _ id Hstep (Hq eq_refl))|];
      by apply Hb).
    by apply start_budget.
Qed.
End budget.

(** ** Recovery *)

(** Recovery interrupts exactly the process-bound runs.  After a restart the
    runs that were running or waiting for approval are paused for the user, with
    their runtime identifiers cleared and their attempt kept; every other run and
    every definition is untouched; the count returned is theirs; and recovering
    again finds nothing. *)
Theorem recovery_pauses_exactly_the_interrupted s :
  ∃ n s', recover_after_restart s = (Ok n, s') ∧ n = count_values interrupted (ss_runs s) ∧
    ss_automations s' = ss_automations s ∧
    (∀ k, ss_runs s' !! k = recover_run <$> ss_runs s !! k) ∧
    (∀ k r', ss_runs s' !! k = Some r' → ar_status r' ≠ Running ∧ ar_status r' ≠ WaitingApproval) ∧
    (∀ k r r', ss_runs s !! k = Some r → interrupted r = true → ss_runs s' !! k = Some r' →
       ar_status r' = PausedForUser ∧ ar_attempt r' = ar_attempt r ∧
       ar_runtime_session_id r' = None ∧ ar_runtime_request_id r' = None) ∧
    (∀ k r, ss_runs s !! k = Some r → interrupted r = false → ss_runs s' !! k = Some r) ∧
    recover_after_restart s' = (Ok 0, s').
Proof.
  unfold recover_after_restart. munfold.
  assert (∀ r, interrupted (recover_run r) = false) as Hoff.
  { intros r. unfold recover_run. by destruct (interrupted r) eqn:Hr. }
  assert (∀ r, interrupted r = false → recover_run r = r) as Hid
    by (intros r Hr; unfold recover_run; by rewrite Hr).
  eexists _, _. split; [done|]. simpl. split_and!; try done.
  - intros k. apply lookup_fmap.
  - intros k r'. rewrite lookup_fmap. destruct (ss_runs s !! k) as [r|]; [|done]. intros [= <-].
    specialize (Hoff r). unfold interrupted, has_status in Hoff.
    apply bool_decide_eq_false in Hoff. set_solver.
  - intros k r r' Hk Hr. rewrite lookup_fmap, Hk. intros [= <-]. unfold recover_run. by rewrite Hr.
  - intros k r Hk Hr. by rewrite lookup_fmap, Hk; simpl; rewrite Hid.
  - f_equal.
    + f_equal. apply count_values_zero. intros k r'. rewrite lookup_fmap.
      destruct (ss_runs s !! k); [|done]. intros [= <-]. apply Hoff.
    + unfold set_runs. simpl. f_equal. rewrite <- map_fmap_compose. apply map_fmap_ext.
      intros k r _. simpl. apply Hid, Hoff.
Qed.

(** ** What the code does not guarantee *)

Section limits.
Context `{Chrono, UuidText}.

(** An automation under the [Skip] policy never gets a queued slot, not even one
    evaluated on time: every due slot is recorded as skipped. *)
Lemma skip_policy_never_queues s now id a t st :
  ss_automations s !! id = Some a → au_missed_run_policy a = Skip → slot s now id t st →
  st = Skipped.
Proof.
  intros Ha Hskip (a0 & first & i & due & Ha0 & _ & _ & _ & _ & Hdue & Hin).
  assert (a0 = a) as -> by congruence. apply (due_times_status _ _ _ _ _ _ _ Hdue) in Hin.
  unfold birth_status in Hin. by rewrite Hskip in Hin.
Qed.

(** A definition [upsert] accepts can make every evaluation panic.  An
    interval above [i64::MAX / 1000] seconds passes the validation, and once it
    is due, [evaluate] panics in [Duration::seconds] instead of returning an
    error. *)
Theorem accepted_interval_can_panic fresh a seconds first now :
  au_trigger a = Interval seconds → (i64_max / 1000 < Z.of_N seconds)%Z →
  (0 < au_max_concurrency a)%N → (0 < au_pause_after_failures a)%N →
  (0 < au_maximum_catch_up_runs a)%N → au_enabled a = true → au_next_due_at a = Some first →
  (first ≤ now)%Z →
  ∃ s, upsert a (mkSchedulerSnapshot ∅ ∅ None) = (Ok (), s) ∧
    result_of (evaluate fresh now) s = Panic.
Proof.
  intros Ht Hbig H1 H2 H3 Hen Hd Hle. eexists. split.
  - unfold upsert, put_automation. munfold.
    assert ((au_max_concurrency a =? 0)%N || (au_pause_after_failures a =? 0)%N
      || (au_maximum_catch_up_runs a =? 0)%N = false) as ->.
    { rewrite !orb_false_iff, !N.eqb_neq. lia. }
    munfold. rewrite Ht. simpl. destruct (seconds =? 0)%N eqn:Hz; [|done].
    apply N.eqb_eq in Hz as ->. assert (0 ≤ i64_max / 1000)%Z by by vm_compute. simpl in Hbig. lia.
  - unfold result_of, evaluate, set_automations. munfold.
    replace (keys (<[au_id a:=a]> ∅)) with [au_id a].
    2:{ unfold keys, entries. rewrite insert_empty, map_to_list_singleton. done. }
    do 2 munfold. unfold evaluate_one, get_automation. munfold. rewrite lookup_insert_eq. munfold.
    rewrite Hen, Hd. simpl. rewrite bool_decide_eq_false_2 by lia. rewrite Ht. munfold.
    unfold due_times. munfold. rewrite duration_seconds_spec.
    rewrite bool_decide_eq_false_2; [done|]. unfold clamp_i64.
    assert (0 ≤ i64_max / 1000 < i64_max)%Z by by vm_compute. lia.
Qed.
End limits.

(** ** Concrete instances *)

Definition hourly (seconds : N) : Automation :=
  mkAutomation 1%N "digest" "summarise" (Interval seconds) true 1%N CatchUpBounded 0%N 2%N None
    (Some 0%Z) 3%N None "desktop".

Definition empty_snapshot : SchedulerSnapshot := mkSchedulerSnapshot ∅ ∅ None.
Definition hourly_snapshot : SchedulerSnapshot := exec (OUpsert (hourly 3600)) empty_snapshot.

(** The calls that put two runs of a one-at-a-time automation in flight. *)
Definition resume_history : list op :=
  let k n := manual_key 1%N 0%Z n in
  [OUpsert (hourly 3600); ORunNow 7%N 17%N 1%N 0%Z; ORunNow 8%N 18%N 1%N 0%Z;
   OStart 1%Z (k 7%N); OWait (k 7%N) "send mail?"; OStart 2%Z (k 8%N); OResume (k 7%N)].

(** Resuming after an approval can exceed the concurrency limit.  While a run
    waits for approval another one may start; resuming the first does not check
    the budget, so two runs of an automation limited to one are running. *)
Theorem resume_can_exceed_concurrency :
  let s := foldl (λ s o, exec o s) empty_snapshot resume_history in
  au_max_concurrency (hourly 3600) = 1%N ∧ is_Some (ss_automations s !! 1%N) ∧
  count_values (running_of 1%N) (ss_runs s) = 2.
Proof. vm_compute. split_and!; [done|by eexists|done]. Qed.

Lemma run_keys_identify_the_slot_witness :
  schedule_key 1%N 5%Z ≠ schedule_key 2%N 5%Z ∧ schedule_key 1%N 5%Z = schedule_key 1%N 999%Z ∧
  event_key 1%N 5%Z ≠ manual_key 1%N 5%Z 3%N.
Proof.
  destruct (run_keys_identify_the_slot 1%N 5%Z 2%N 5%Z 3%N) as (Hk & _); [lia..|].
  destruct (run_keys_identify_the_slot 1%N 5%Z 1%N 999%Z 3%N) as (Hs & _); [lia..|].
  destruct (run_keys_identify_the_slot 1%N 5%Z 1%N 5%Z 3%N) as (_ & _ & _ & _ & He); [lia..|].
  split_and!; [|apply Hs; vm_compute; auto|done]. intros Heq%Hk. naive_solver lia.
Defined.

Lemma catch_up_is_exact_witness :
  due_times (hourly 3600) 0%Z 9000000000000%Z (Some 3600%N) =
    Ok [(0%Z, Queued); (3600000000000%Z, Queued); (7200000000000%Z, Queued)].
Proof.
  destruct (catch_up_is_exact (hourly 3600) 0%Z 9000000000000%Z 3600%N) as [-> _];
    vm_compute; congruence.
Defined.

Lemma hourly_only id a : ss_automations hourly_snapshot !! id = Some a → id = 1%N ∧ a = hourly 3600.
Proof.
  assert (ss_automations hourly_snapshot = <[1%N := hourly 3600]> ∅) as -> by by vm_compute.
  intros [[<- <-]|[_ ?]]%lookup_insert_Some; [done|]. by rewrite lookup_empty in *.
Qed.

Lemma hourly_no_runs : ss_runs hourly_snapshot = ∅.
Proof. by vm_compute. Qed.

Lemma hourly_definitions_ok : definitions_ok hourly_snapshot.
Proof.
  intros id a [-> ->]%hourly_only. split; [by vm_compute|]. split; [by vm_compute|]. intros n [= <-]. vm_compute. congruence.
Qed.

Lemma hourly_inv : sched_inv hourly_snapshot.
Proof.
  split.
  - intros id a [-> ->]%hourly_only. by vm_compute.
  - intros k r Hk. by rewrite hourly_no_runs in Hk.
Qed.


Lemma scheduler_refines_the_run_lifecycle_witness :
  let o := ORunNow 7%N 17%N 1%N 0%Z in
  sched_step hourly_snapshot (exec o hourly_snapshot) ∧ sched_inv (exec o hourly_snapshot) ∧
  exec o hourly_snapshot ≠ hourly_snapshot.
Proof.
  destruct (scheduler_refines_the_run_lifecycle hourly_snapshot (ORunNow 7%N 17%N 1%N 0%Z))
    as [Hstep Hinv]; [apply hourly_inv|vm_compute; done|].
  split_and!; [done..|]. vm_compute. congruence.
Defined.

Lemma runs_stay_within_concurrency_witness :
  within_budget (exec (ORunNow 7%N 17%N 1%N 0%Z) hourly_snapshot).
Proof.
  apply (runs_stay_within_concurrency hourly_snapshot).
  - apply hourly_inv.
  - vm_compute. done.
  - done.
  - intros id a Ha. rewrite (proj2 (count_values_zero _ _)); [lia|].
    intros k r Hk. by rewrite hourly_no_runs in Hk.
Defined.

Lemma accepted_interval_can_panic_witness :
  ∃ s, upsert (hourly 10000000000000000) empty_snapshot = (Ok (), s) ∧
    result_of (evaluate (λ _, 9%N) 1%Z) s = Panic.
Proof.
  apply (accepted_interval_can_panic (λ _, 9%N) (hourly 10000000000000000) 10000000000000000%N 0%Z);
    vm_compute; congruence.
Defined.
