(* ===== verification/Conversation.v ===== *)
(** * Conversation controls

    Models [crates/core/src/conversation.rs]: the persistent controls (mute,
    sleep, quiet, guest, stay open), the visible microphone state, the typed and
    voice submissions and the project, persona, model and session selections.
    [turns] is a [u64]: whether its overflow panics or wraps depends on the build
    profile, which is the argument [overflow_checks]. *)

From stdpp Require Import base gmap strings list.
From S2P Require Import Prelude.

Inductive InputModality : Type := Typed | Voice.
Inductive MicrophonePrivacy : Type := Inactive | WakeWordOnly | CapturingSpeech.
Inductive ListeningMode : Type := WakeOnly | Hybrid | Continuous.
Inductive ControlState : Type := Disabled | Enabled.

Global Instance modality_eq_dec : EqDecision InputModality.
Proof. solve_decision. Defined.
Global Instance microphone_eq_dec : EqDecision MicrophonePrivacy.
Proof. solve_decision. Defined.
Global Instance listening_eq_dec : EqDecision ListeningMode.
Proof. solve_decision. Defined.
Global Instance control_eq_dec : EqDecision ControlState.
Proof. solve_decision. Defined.

Definition enabled (c : ControlState) : bool := bool_decide (c = Enabled).
Definition control (b : bool) : ControlState := if b then Enabled else Disabled.

Record ModelSelection : Type := mkModelSelection {
  ms_provider : string;
  ms_model : string;
  ms_effort : option string;
}.

Record ConversationContext : Type := mkConversationContext {
  ctx_session_id : option string;
  ctx_turns : N;
}.
Definition context_default : ConversationContext := mkConversationContext None 0.

Record MessageDispatch : Type := mkMessageDispatch {
  md_text : string;
  md_modality : InputModality;
  md_context : string;
  md_history_scope : string;
  md_speak_response : bool;
  md_restricted_tools : bool;
}.

Record StopEffects : Type := mkStopEffects {
  se_abort_foreground : bool;
  se_stop_playback : bool;
  se_clear_follow_up_capture : bool;
}.

Inductive ConversationError : Type := BlankMessage | Muted | Asleep | BlankSelection.

Record ConversationState : Type := mkConversationState {
  cs_listening_mode : ListeningMode;
  cs_microphone : MicrophonePrivacy;
  cs_sleeping : ControlState;
  cs_muted : ControlState;
  cs_quiet : ControlState;
  cs_guest : ControlState;
  cs_stay_open : ControlState;
  cs_active_project : option string;
  cs_persona : string;
  cs_model : option ModelSelection;
  cs_contexts : gmap string ConversationContext;
}.

Definition conversation_default : ConversationState :=
  mkConversationState WakeOnly WakeWordOnly Disabled Disabled Disabled Disabled Disabled None
    "JARVIS" None {["general" := context_default]}.

(** ** Field updates *)

Definition with_mic (s : ConversationState) (mic : MicrophonePrivacy) : ConversationState :=
  mkConversationState (cs_listening_mode s) mic (cs_sleeping s) (cs_muted s) (cs_quiet s)
    (cs_guest s) (cs_stay_open s) (cs_active_project s) (cs_persona s) (cs_model s) (cs_contexts s).
Definition with_controls (s : ConversationState) (sleeping muted quiet guest stay : ControlState)
    : ConversationState :=
  mkConversationState (cs_listening_mode s) (cs_microphone s) sleeping muted quiet guest stay
    (cs_active_project s) (cs_persona s) (cs_model s) (cs_contexts s).
Definition with_selection (s : ConversationState) (project : option string) (persona : string)
    (model : option ModelSelection) : ConversationState :=
  mkConversationState (cs_listening_mode s) (cs_microphone s) (cs_sleeping s) (cs_muted s)
    (cs_quiet s) (cs_guest s) (cs_stay_open s) project persona model (cs_contexts s).
Definition with_contexts (s : ConversationState)
    (f : gmap string ConversationContext → gmap string ConversationContext) : ConversationState :=
  mkConversationState (cs_listening_mode s) (cs_microphone s) (cs_sleeping s) (cs_muted s)
    (cs_quiet s) (cs_guest s) (cs_stay_open s) (cs_active_project s) (cs_persona s) (cs_model s)
    (f (cs_contexts s)).

(** ** Operations *)

Definition CM : Type → Type := M ConversationState ConversationError.

Definition project_key (project : string) : string := "project:" +:+ project.

Definition context_key (s : ConversationState) : string :=
  match cs_active_project s with Some project => project_key project | None => "general" end.

(** [self.contexts.entry(key).or_default()] *)
Definition context_of (s : ConversationState) (key : string) : ConversationContext :=
  default context_default (cs_contexts s !! key).

Definition idle_microphone (s : ConversationState) : MicrophonePrivacy :=
  if enabled (cs_muted s) then Inactive
  else if enabled (cs_sleeping s) || negb (bool_decide (cs_listening_mode s = Continuous))
  then WakeWordOnly else CapturingSpeech.

Definition to_idle : CM () := modify (λ s, with_mic s (idle_microphone s)).

Definition nonblank (value : string) : outcome ConversationError string :=
  let value := trim value in if is_empty value then Err BlankSelection else Ok value.

(** [turns += 1] on a [u64]. *)
Definition add_turn (overflow_checks : bool) (turns : N) : outcome ConversationError N :=
  if (turns <? u64_max)%N then Ok (turns + 1)%N else if overflow_checks then Panic else Ok 0%N.

Definition dispatch (overflow_checks : bool) (text : string) (modality : InputModality)
    : CM MessageDispatch :=
  let text := trim text in
  _ ← reject_if (is_empty text) BlankMessage;
  s ← get;
  let context := context_key s in
  let entry := context_of s context in
  turns ← lift (add_turn overflow_checks (ctx_turns entry));
  _ ← modify (λ s, with_contexts s
        <[context := mkConversationContext (ctx_session_id entry) turns]>);
  mret (mkMessageDispatch text modality context
    (if enabled (cs_guest s) then "guest" else "owner")
    (bool_decide (modality = Voice) && negb (enabled (cs_quiet s)))
    (enabled (cs_guest s))).

Definition submit_typed (overflow_checks : bool) (text : string) : CM MessageDispatch :=
  dispatch overflow_checks text Typed.

Definition submit_voice (overflow_checks : bool) (text : string) : CM MessageDispatch :=
  _ ← reject_if (is_blank text) BlankMessage;
  s ← get;
  _ ← reject_if (enabled (cs_muted s)) Muted;
  _ ← reject_if (enabled (cs_sleeping s)) Asleep;
  _ ← modify (λ s, with_mic s CapturingSpeech);
  dispatch overflow_checks text Voice.

Definition finish_response : CM () :=
  modify (λ s, with_mic s
    (if enabled (cs_stay_open s) && negb (enabled (cs_muted s)) && negb (enabled (cs_sleeping s))
     then CapturingSpeech else idle_microphone s)).

Definition set_muted (muted : bool) : CM () :=
  _ ← modify (λ s, with_controls s (cs_sleeping s) (control muted) (cs_quiet s) (cs_guest s)
        (cs_stay_open s));
  to_idle.

Definition set_quiet (quiet : bool) : CM () :=
  modify (λ s, with_controls s (cs_sleeping s) (cs_muted s) (control quiet) (cs_guest s)
    (cs_stay_open s)).

Definition sleep : CM () :=
  _ ← modify (λ s, with_controls s Enabled (cs_muted s) (cs_quiet s) (cs_guest s) (cs_stay_open s));
  to_idle.

Definition wake : CM () :=
  _ ← modify (λ s, with_controls s Disabled (cs_muted s) (cs_quiet s) (cs_guest s) (cs_stay_open s));
  to_idle.

Definition set_guest (guest : bool) : CM () :=
  modify (λ s, with_controls s (cs_sleeping s) (cs_muted s) (cs_quiet s) (control guest)
    (cs_stay_open s)).

Definition set_stay_open (stay_open : bool) : CM () :=
  _ ← modify (λ s, with_controls s (cs_sleeping s) (cs_muted s) (cs_quiet s) (cs_guest s)
        (control stay_open));
  if negb stay_open then to_idle else mret ().

Definition stop : CM StopEffects :=
  _ ← to_idle; mret (mkStopEffects true true true).

Definition switch_project (project : string) : CM () :=
  project ← lift (nonblank project);
  _ ← modify (λ s, with_contexts s <[project_key project := context_of s (project_key project)]>);
  modify (λ s, with_selection s (Some project) (cs_persona s) (cs_model s)).

Definition close_project : CM () :=
  modify (λ s, with_selection s None (cs_persona s) (cs_model s)).

Definition switch_persona (persona : string) : CM () :=
  persona ← lift (nonblank persona);
  modify (λ s, with_selection s (cs_active_project s) persona (cs_model s)).

Definition switch_model (provider model : string) (effort : option string) : CM () :=
  provider ← lift (nonblank provider);
  model ← lift (nonblank model);
  modify (λ s, with_selection s (cs_active_project s) (cs_persona s)
    (Some (mkModelSelection provider model effort))).

Definition attach_session (session_id : string) : CM () :=
  session_id ← lift (nonblank session_id);
  modify (λ s, with_contexts s <[context_key s :=
    mkConversationContext (Some session_id) (ctx_turns (context_of s (context_key s)))]>).

(** ** The controls as a transition system *)

Inductive op : Type :=
  | OTyped (text : string) | OVoice (text : string) | OFinishResponse
  | OMuted (b : bool) | OQuiet (b : bool) | OSleep | OWake | OGuest (b : bool) | OStayOpen (b : bool)
  | OStop | OProject (project : string) | OClose | OPersona (persona : string)
  | OModel (provider model : string) (effort : option string) | OAttach (session_id : string).

Definition exec (overflow_checks : bool) (o : op) : ConversationState → ConversationState :=
  match o with
  | OTyped text => state_of (submit_typed overflow_checks text)
  | OVoice text => state_of (submit_voice overflow_checks text)
  | OFinishResponse => state_of finish_response
  | OMuted b => state_of (set_muted b)
  | OQuiet b => state_of (set_quiet b)
  | OSleep => state_of sleep
  | OWake => state_of wake
  | OGuest b => state_of (set_guest b)
  | OStayOpen b => state_of (set_stay_open b)
  | OStop => state_of stop
  | OProject project => state_of (switch_project project)
  | OClose => state_of close_project
  | OPersona persona => state_of (switch_persona persona)
  | OModel provider model effort => state_of (switch_model provider model effort)
  | OAttach session_id => state_of (attach_session session_id)
  end.

(** The microphone is inactive exactly while muted, and captures speech only
    while awake. *)
Record mic_inv (s : ConversationState) : Prop := {
  mi_muted : cs_microphone s = Inactive ↔ cs_muted s = Enabled;
  mi_capture : cs_microphone s = CapturingSpeech → cs_sleeping s = Disabled;
}.

Lemma dispatch_cases checks text modality s :
  (trim text = "" ∧ dispatch checks text modality s = (Err BlankMessage, s)) ∨
  (trim text ≠ "" ∧ checks = true ∧ dispatch checks text modality s = (Panic, s)) ∨
  (trim text ≠ "" ∧ ∃ turns,
     add_turn checks (ctx_turns (context_of s (context_key s))) = Ok turns ∧
     dispatch checks text modality s =
       (Ok (mkMessageDispatch (trim text) modality (context_key s)
              (if enabled (cs_guest s) then "guest" else "owner")
              (bool_decide (modality = Voice) && negb (enabled (cs_quiet s)))
              (enabled (cs_guest s))),
        with_contexts s <[context_key s := mkConversationContext
          (ctx_session_id (context_of s (context_key s))) turns]>)).
Proof.
  unfold dispatch, is_empty. munfold. case_bool_decide as Ht; munfold; [by left|right].
  destruct (add_turn _ _) as [turns|e|] eqn:Hturn; munfold.
  - right. split; [done|]. by exists turns.
  - unfold add_turn in Hturn. by repeat case_match.
  - left. unfold add_turn in Hturn. by repeat case_match.
Qed.

Lemma idle_microphone_inv s : mic_inv (with_mic s (idle_microphone s)).
Proof.
  unfold idle_microphone, enabled. destruct s as [mode mic [] []]; simpl;
    split; simpl; try done; destruct (bool_decide (mode = Continuous)); naive_solver.
Qed.

(** A call leaves the microphone as it was, or sets it as the controls say. *)
Lemma exec_mic_inv checks o s : mic_inv s → mic_inv (exec checks o s).
Proof.
  intros [Hm Hc]. destruct o; simpl; unfold state_of; try (apply idle_microphone_inv).
  - unfold submit_typed. destruct (dispatch_cases checks text Typed s)
      as [[_ ->]|[(_ & _ & ->)|(_ & turns & _ & ->)]]; by split.
  - unfold submit_voice, enabled. munfold. destruct (is_blank text); munfold; [by split|].
    case_bool_decide as Hmute; munfold; [by split|].
    case_bool_decide as Hsleep; munfold; [by split|].
    assert (cs_sleeping s = Disabled) as Hawake by by destruct (cs_sleeping s).
    destruct (dispatch_cases checks text Voice (with_mic s CapturingSpeech))
      as [[_ ->]|[(_ & _ & ->)|(_ & turns & _ & ->)]]; split; simpl; naive_solver.
  - unfold finish_response. munfold. destruct (_ && _) eqn:Hcap; [|apply idle_microphone_inv].
    apply andb_true_iff in Hcap as [[_ Hu]%andb_true_iff Ha].
    unfold enabled in *. apply negb_true_iff, bool_decide_eq_false in Hu, Ha.
    split; simpl; [naive_solver|]. by destruct (cs_sleeping s).
  - split; simpl; naive_solver.
  - split; simpl; naive_solver.
  - unfold set_stay_open, to_idle. munfold. destruct b; munfold; [by split|apply idle_microphone_inv].
  - unfold switch_project. munfold. destruct (nonblank project); munfold; by split.
  - split; simpl; naive_solver.
  - unfold switch_persona. munfold. destruct (nonblank persona); munfold; by split.
  - unfold switch_model. munfold. destruct (nonblank provider); munfold; try by split.
    destruct (nonblank model); munfold; by split.
  - unfold attach_session. munfold. destruct (nonblank session_id); munfold; by split.
Qed.

(** The microphone state is never ambiguous.  After any sequence of calls
    from the initial state, successful or not, the microphone is inactive exactly
    when the user has muted it, and it captures speech only while the assistant
    is neither muted nor asleep. *)
Theorem microphone_follows_the_controls checks (calls : list op) :
  let s := foldl (λ s o, exec checks o s) conversation_default calls in
  (cs_microphone s = Inactive ↔ cs_muted s = Enabled) ∧
  (cs_microphone s = CapturingSpeech → cs_muted s = Disabled ∧ cs_sleeping s = Disabled).
Proof.
  assert (∀ calls s, mic_inv s → mic_inv (foldl (λ s o, exec checks o s) s calls)) as Hrun.
  { clear calls. induction calls as [|o calls IH]; intros s Hs; [done|].
    simpl. by apply IH, exec_mic_inv. }
  destruct (Hrun calls conversation_default) as [Hm Hc]; [by split|].
  split; [done|]. intros Hcap. split; [|auto].
  destruct (cs_muted _) eqn:Hmute; [done|]. destruct Hm as [_ Hm]. specialize (Hm eq_refl). congruence.
Qed.

(** Submissions respect the controls.  Blank text is refused by both; voice
    is refused while muted or asleep, in that order, without changing anything;
    an accepted message carries the trimmed text, the active context, the guest
    restriction of the moment, counts one turn of that context and nothing else;
    only voice opens the microphone, and only voice outside quiet mode is
    answered aloud. *)
Theorem submissions_respect_the_controls checks text s turns :
  add_turn checks (ctx_turns (context_of s (context_key s))) = Ok turns →
  let accepted modality := mkMessageDispatch (trim text) modality (context_key s)
    (if bool_decide (cs_guest s = Enabled) then "guest" else "owner")
    (bool_decide (modality = Voice ∧ cs_quiet s = Disabled)) (bool_decide (cs_guest s = Enabled)) in
  let counted s0 := with_contexts s0 <[context_key s :=
    mkConversationContext (ctx_session_id (context_of s (context_key s))) turns]> in
  (trim text = "" → submit_typed checks text s = (Err BlankMessage, s) ∧
     submit_voice checks text s = (Err BlankMessage, s)) ∧
  (trim text ≠ "" →
     submit_typed checks text s = (Ok (accepted Typed), counted s) ∧
     submit_voice checks text s =
       if bool_decide (cs_muted s = Enabled) then (Err Muted, s)
       else if bool_decide (cs_sleeping s = Enabled) then (Err Asleep, s)
       else (Ok (accepted Voice), counted (with_mic s CapturingSpeech))).
Proof.
  intros Hturn accepted counted. split; intros Ht.
  - unfold submit_typed, submit_voice, dispatch, is_blank, is_empty.
    munfold. by rewrite (bool_decide_eq_true_2 _ Ht).
  - unfold submit_typed, submit_voice, dispatch, is_blank, is_empty, enabled in *. munfold.
    rewrite (bool_decide_eq_false_2 _ Ht). munfold. rewrite Hturn. munfold.
    split; [by destruct (cs_quiet s)|].
    case_bool_decide; [done|]. munfold. case_bool_decide; [done|]. munfold.
    change (context_of (with_mic s CapturingSpeech) (context_key (with_mic s CapturingSpeech)))
      with (context_of s (context_key s)).
    rewrite Hturn. by destruct (cs_quiet s).
Qed.

(** ** Contexts *)

Lemma project_key_inj p q : project_key p = project_key q → p = q.
Proof. unfold project_key. intros Heq. simpl in Heq. by simplify_eq. Qed.

Lemma project_key_general p : project_key p ≠ "general".
Proof. done. Qed.

(** What a call may do to the context filed under [key]. *)
Definition context_step (o : op) (active : bool) (before after : option ConversationContext)
    : Prop :=
  after = before ∨
  (before = None ∧ after = Some context_default) ∨
  (active = true ∧ ∃ sid turns, after = Some (mkConversationContext sid turns) ∧
     match o with
     | OAttach _ => turns = ctx_turns (default context_default before) ∧ sid ≠ None
     | OTyped _ | OVoice _ => sid = ctx_session_id (default context_default before) ∧
         (turns = ctx_turns (default context_default before) + 1 ∨ turns = 0)%N
     | _ => False
     end).

Lemma contexts_insert_step o s s0 key k c :
  cs_contexts s0 = cs_contexts s →
  (k = key → context_step o (bool_decide (k = context_key s)) (cs_contexts s !! k) (Some c)) →
  context_step o (bool_decide (k = context_key s)) (cs_contexts s !! k)
    (cs_contexts (with_contexts s0 <[key := c]>) !! k).
Proof.
  intros Hs Hk. simpl. rewrite Hs. destruct (decide (key = k)) as [->|Hne].
  - rewrite lookup_insert_eq. auto.
  - rewrite lookup_insert_ne by done. by left.
Qed.

Lemma dispatch_contexts o checks text modality s s0 k :
  cs_contexts s0 = cs_contexts s → context_key s0 = context_key s →
  (∃ t, o = OTyped t ∨ o = OVoice t) →
  context_step o (bool_decide (k = context_key s)) (cs_contexts s !! k)
    (cs_contexts (dispatch checks text modality s0).2 !! k).
Proof.
  intros Hs Hkey [t Ho].
  destruct (dispatch_cases checks text modality s0)
    as [[_ ->]|[(_ & _ & ->)|(_ & turns & Hturn & ->)]]; simpl; rewrite ?Hs; [by left..|].
  rewrite <- Hs at 2. apply contexts_insert_step; [done|]. intros ->. right; right.
  split; [by rewrite Hkey, bool_decide_eq_true_2|]. eexists _, turns. split; [done|].
  assert (ctx_turns (context_of s0 (context_key s0)) + 1 = turns ∨ turns = 0)%N as Ht.
  { unfold add_turn in Hturn. repeat case_match; simplify_eq; auto. }
  unfold context_of in *. rewrite Hs in *. destruct Ho as [-> | ->]; naive_solver.
Qed.

(** Conversation contexts are isolated and survive.  A call never drops a
    context; it changes only the active one, where a submission adds a turn
    (restarting from zero on a wrapping overflow) and keeps the session, and an
    attachment sets the session and keeps the turns; selecting a project adds an
    empty context when it has none; and the keys of distinct projects, and of the
    general context, are distinct. *)
Theorem contexts_are_isolated_and_survive checks o s k :
  context_step o (bool_decide (k = context_key s)) (cs_contexts s !! k)
    (cs_contexts (exec checks o s) !! k) ∧
  (is_Some (cs_contexts s !! k) → is_Some (cs_contexts (exec checks o s) !! k)) ∧
  ∀ p q, project_key p ≠ "general" ∧ (project_key p = project_key q → p = q).
Proof.
  assert (context_step o (bool_decide (k = context_key s)) (cs_contexts s !! k)
    (cs_contexts (exec checks o s) !! k)) as Hstep.
  { destruct o; simpl; unfold state_of; try by left.
    - unfold submit_typed. apply dispatch_contexts; eauto.
    - unfold submit_voice. munfold. destruct (is_blank text); munfold; [by left|].
      destruct (enabled (cs_muted s)); munfold; [by left|].
      destruct (enabled (cs_sleeping s)); munfold; [by left|].
      apply dispatch_contexts; eauto.
    - unfold set_stay_open, to_idle. munfold. destruct b; by left.
    - unfold switch_project. munfold. destruct (nonblank project) as [p|e|]; munfold; [|by left..].
      apply (contexts_insert_step _ s s); [done|]. intros ->. unfold context_of.
      destruct (cs_contexts s !! _); [by left|by right; left].
    - unfold switch_persona. munfold. destruct (nonblank persona); by left.
    - unfold switch_model. munfold. destruct (nonblank provider); munfold; [|by left..].
      destruct (nonblank model); by left.
    - unfold attach_session. munfold. destruct (nonblank session_id) as [sid|e|]; munfold; [|by left..].
      apply (contexts_insert_step _ s s); [done|]. intros ->. right; right.
      split; [by rewrite bool_decide_eq_true_2|]. by eexists _, _. }
  split_and!; [done| |split; [done|apply project_key_inj]].
  intros [c Hc]. destruct Hstep as [->|[[? _]|(_ & sid & turns & -> & _)]]; [by eauto|congruence|by eauto].
Qed.

(** ** Concrete instances *)

Lemma submissions_respect_the_controls_witness :
  submit_voice true " hello " conversation_default =
    (Ok (mkMessageDispatch "hello" Voice "general" "owner" true false),
     with_contexts (with_mic conversation_default CapturingSpeech)
       <["general" := mkConversationContext None 1]>).
Proof.
  destruct (submissions_respect_the_controls true " hello " conversation_default 1%N) as [_ H];
    [vm_compute; reflexivity|].
  destruct H as [_ H]; [vm_compute; discriminate|]. etrans; [exact H|]. vm_compute. reflexivity.
Defined.

Example muted_voice_is_refused :
  (submit_voice true "hello" (exec true (OMuted true) conversation_default)).1 = Err Muted.
Proof. vm_compute. reflexivity. Qed.
