(* ===== verification/Arbiter.v ===== *)
(** * GPU-memory admission control

    Models [crates/audio/src/arbiter.rs]: the registry of local models, the
    planning of evictions, the commit of a plan, and the leases of the active
    models.  Memory is in MiB, a [u32]. *)

From stdpp Require Import base sorting countable gmap list.
From S2P Require Import Prelude.

Inductive LocalModel : Type :=
  | Qwen3Tts
  | FasterWhisperLargeV3TurboInt8
  | VisionGrounding
  | Moonshine
  | Kokoro
  | Ocrs.
Global Instance model_eq_dec : EqDecision LocalModel.
Proof. solve_decision. Defined.

(** The derived order of [LocalModel] is the order of declaration. *)
Definition model_rank (m : LocalModel) : nat :=
  match m with
  | Qwen3Tts => 0 | FasterWhisperLargeV3TurboInt8 => 1 | VisionGrounding => 2
  | Moonshine => 3 | Kokoro => 4 | Ocrs => 5
  end.
Definition all_models : list LocalModel :=
  [Qwen3Tts; FasterWhisperLargeV3TurboInt8; VisionGrounding; Moonshine; Kokoro; Ocrs].
Global Program Instance model_countable : Countable LocalModel := {|
  encode m := Pos.of_succ_nat (model_rank m);
  decode p := all_models !! pred (Pos.to_nat p);
|}.
Next Obligation. by intros []. Qed.

Inductive ModelPriority : Type := Vision | ActiveStt | ActiveTts | CpuFallback.
Definition priority_rank (p : ModelPriority) : nat :=
  match p with Vision => 0 | ActiveStt => 1 | ActiveTts => 2 | CpuFallback => 3 end.

Record ModelDeclaration : Type := mkModelDeclaration {
  decl_vram_mib : N;
  decl_priority : ModelPriority;
  decl_uses_gpu : bool;
}.

Definition declaration_gpu (vram_mib : N) (priority : ModelPriority) : ModelDeclaration :=
  mkModelDeclaration vram_mib priority true.
Definition declaration_cpu : ModelDeclaration := mkModelDeclaration 0 CpuFallback false.

Definition declaration (m : LocalModel) : ModelDeclaration :=
  match m with
  | Qwen3Tts => declaration_gpu 1400 ActiveTts
  | FasterWhisperLargeV3TurboInt8 => declaration_gpu 1500 ActiveStt
  | VisionGrounding => declaration_gpu 1200 Vision
  | Moonshine | Kokoro | Ocrs => declaration_cpu
  end.
Definition vram_mib (m : LocalModel) : N := decl_vram_mib (declaration m).
Definition uses_gpu (m : LocalModel) : bool := decl_uses_gpu (declaration m).

Record ModelState : Type := mkModelState {
  mst_loaded : bool;
  mst_active_leases : N;
}.
Definition state_default : ModelState := mkModelState false 0.

Record AdmissionPlan : Type := mkAdmissionPlan {
  ap_requested : LocalModel;
  ap_unload : list LocalModel;
  ap_projected_vram_mib : N;
  ap_already_loaded : bool;
}.

Record AdmissionDenied : Type := mkAdmissionDenied {
  ad_requested : LocalModel;
  ad_required_vram_mib : N;
  ad_ceiling_vram_mib : N;
}.

Record ModelArbiter : Type := mkModelArbiter {
  ma_ceiling_vram_mib : N;
  ma_states : gmap LocalModel ModelState;
}.

Definition DEFAULT_VRAM_CEILING_MIB : N := 4500.

Definition with_ceiling_mib (ceiling : N) : ModelArbiter :=
  mkModelArbiter ceiling (list_to_map ((λ m, (m, state_default)) <$> all_models)).
Definition arbiter_new : ModelArbiter := with_ceiling_mib DEFAULT_VRAM_CEILING_MIB.

(** [self.states.get(&model).copied().unwrap_or_default()] *)
Definition state (a : ModelArbiter) (m : LocalModel) : ModelState :=
  default state_default (ma_states a !! m).
(** A write through [self.states.entry(model).or_default()]. *)
Definition state_mut (m : LocalModel) (f : ModelState → ModelState) (a : ModelArbiter)
    : ModelArbiter :=
  mkModelArbiter (ma_ceiling_vram_mib a) (<[m := f (state a m)]> (ma_states a)).

(** The entries of the registry in key order. *)
Definition registered (a : ModelArbiter) : list (LocalModel * ModelState) :=
  omap (λ m, st ← ma_states a !! m; Some (m, st)) all_models.

(** [Iterator::sum] on [u32]; the total of all declarations is far below the
    limit (see [total_vram_fits]). *)
Definition sum_u32 (l : list N) : N := foldr N.add 0%N l.

Definition resident_vram_mib (a : ModelArbiter) : N :=
  sum_u32 ((λ e, vram_mib e.1) <$> filter (λ e, mst_loaded e.2 = true) (registered a)).

Definition is_loaded (a : ModelArbiter) (m : LocalModel) : bool := mst_loaded (state a m).
Definition is_active (a : ModelArbiter) (m : LocalModel) : bool :=
  (0 <? mst_active_leases (state a m))%N.

Definition denied (a : ModelArbiter) (requested : LocalModel) : AdmissionDenied :=
  mkAdmissionDenied requested (sat_add u32_max (resident_vram_mib a) (vram_mib requested))
    (ma_ceiling_vram_mib a).

(** [sort_by_key] on the pair of the priority and the model. *)
Definition eviction_le (m n : LocalModel) : Prop :=
  let p := priority_rank (decl_priority (declaration m)) in
  let q := priority_rank (decl_priority (declaration n)) in
  p < q ∨ (p = q ∧ model_rank m ≤ model_rank n).
Global Instance eviction_le_dec : RelDecision eviction_le.
Proof. intros m n. unfold eviction_le. apply _. Defined.

Definition evictable (requested : LocalModel) (e : LocalModel * ModelState) : bool :=
  negb (bool_decide (e.1 = requested)) && uses_gpu e.1 && mst_loaded e.2
  && (mst_active_leases e.2 =? 0)%N.

Definition candidates (a : ModelArbiter) (requested : LocalModel) : list LocalModel :=
  merge_sort eviction_le
    (filter (λ e, evictable requested e = true) (registered a)).*1.

(** The eviction loop: the models to unload and the memory projected after it. *)
Fixpoint evict (ceiling projected : N) (l : list LocalModel) : list LocalModel * N :=
  match l with
  | [] => ([], projected)
  | candidate :: l =>
    if (projected <=? ceiling)%N then ([], projected)
    else
      let '(unload, final) := evict ceiling (sat_sub projected (vram_mib candidate)) l in
      (candidate :: unload, final)
  end.

Definition plan_admission (requested : LocalModel) (a : ModelArbiter)
    : outcome AdmissionDenied AdmissionPlan :=
  let current := resident_vram_mib a in
  if is_loaded a requested then Ok (mkAdmissionPlan requested [] current true)
  else if negb (uses_gpu requested) then Ok (mkAdmissionPlan requested [] current false)
  else
    let '(unload, projected) := evict (ma_ceiling_vram_mib a)
      (sat_add u32_max current (vram_mib requested)) (candidates a requested) in
    if (ma_ceiling_vram_mib a <? projected)%N then
      Err (mkAdmissionDenied requested projected (ma_ceiling_vram_mib a))
    else Ok (mkAdmissionPlan requested unload projected false).

Definition set_loaded (b : bool) (st : ModelState) : ModelState :=
  mkModelState b (mst_active_leases st).

Definition AM : Type → Type := M ModelArbiter AdmissionDenied.

Definition commit_admission (plan : AdmissionPlan) : AM () :=
  a ← get;
  _ ← reject_if (existsb (λ m, negb (is_loaded a m) || is_active a m) (ap_unload plan))
        (denied a (ap_requested plan));
  let with_requested :=
    if negb (is_loaded a (ap_requested plan))
    then sat_add u32_max (resident_vram_mib a) (vram_mib (ap_requested plan))
    else resident_vram_mib a in
  let projected := foldl (λ p m, sat_sub p (vram_mib m)) with_requested (ap_unload plan) in
  _ ← reject_if (ma_ceiling_vram_mib a <? projected)%N (denied a (ap_requested plan));
  _ ← modify (λ a, foldl (λ a m, state_mut m (set_loaded false) a) a (ap_unload plan));
  modify (state_mut (ap_requested plan) (set_loaded true)).

Definition activate (m : LocalModel) : AM () :=
  a ← get;
  _ ← reject_if (negb (is_loaded a m)) (denied a m);
  modify (state_mut m (λ st, mkModelState (mst_loaded st) (sat_add u32_max (mst_active_leases st) 1))).

Definition release (m : LocalModel) : AM () :=
  modify (state_mut m (λ st, mkModelState (mst_loaded st) (sat_sub (mst_active_leases st) 1))).

Definition mark_unloaded (m : LocalModel) : AM () :=
  modify (state_mut m (λ _, mkModelState false 0)).

Definition reset_worker_gpu_models : AM () :=
  _ ← mark_unloaded Qwen3Tts;
  _ ← mark_unloaded FasterWhisperLargeV3TurboInt8;
  mark_unloaded VisionGrounding.

(** ** Memory accounting *)

Definition sum_vram (l : list LocalModel) : N := sum_u32 (vram_mib <$> l).

(** The resident models, in registry order. *)
Definition loaded_models (a : ModelArbiter) : list LocalModel :=
  filter (λ m, is_loaded a m = true) all_models.

Global Instance sum_vram_perm : Proper ((≡ₚ) ==> (=)) sum_vram.
Proof.
  intros l k Hp. unfold sum_vram, sum_u32. induction Hp; cbn [fmap list_fmap foldr] in *; lia.
Qed.

Lemma sum_vram_cons m l : sum_vram (m :: l) = (vram_mib m + sum_vram l)%N.
Proof. done. Qed.
Lemma sum_vram_app l k : sum_vram (l ++ k) = (sum_vram l + sum_vram k)%N.
Proof. induction l as [|m l IH]; simpl; [done|]. rewrite !sum_vram_cons, IH. lia. Qed.

Lemma all_models_complete m : m ∈ all_models.
Proof. destruct m; set_solver. Qed.
Lemma all_models_NoDup : NoDup all_models.
Proof. by apply (bool_decide_unpack _); vm_compute. Qed.

(** All declarations together stay below [u32::MAX]: no sum saturates. *)
Lemma total_vram_fits l : NoDup l → (sum_vram l ≤ 4100)%N.
Proof.
  intros Hnd. assert (l ⊆+ all_models) as Hsub.
  { apply NoDup_submseteq; [done|]. intros m _. apply all_models_complete. }
  apply submseteq_Permutation in Hsub as [k Hk].
  assert (sum_vram all_models = 4100)%N as Hall by done.
  rewrite Hk, sum_vram_app in Hall. lia.
Qed.

Lemma elem_of_loaded a m : m ∈ loaded_models a ↔ is_loaded a m = true.
Proof.
  unfold loaded_models. rewrite list_elem_of_filter. pose proof (all_models_complete m). naive_solver.
Qed.
Lemma NoDup_loaded a : NoDup (loaded_models a).
Proof. eapply sublist_NoDup; [apply all_models_NoDup|apply sublist_filter]. Qed.

Lemma list_omap_cons {A B} (g : A → option B) x l :
  omap g (x :: l) = match g x with Some y => y :: omap g l | None => omap g l end.
Proof. done. Qed.

Lemma registered_filter (f : LocalModel * ModelState → bool) a (l : list LocalModel) :
  filter (λ e, f e = true) (omap (λ m, st ← ma_states a !! m; Some (m, st)) l) =
    omap (λ m, st ← ma_states a !! m; if f (m, st) then Some (m, st) else None) l.
Proof.
  induction l as [|m l IH]; [done|]. rewrite !list_omap_cons.
  destruct (ma_states a !! m) as [st|]; cbn [mbind option_bind]; [|done].
  rewrite filter_cons, IH. destruct (f (m, st)); case_decide; done.
Qed.

Lemma resident_sum a : resident_vram_mib a = sum_vram (loaded_models a).
Proof.
  unfold resident_vram_mib, loaded_models, registered, sum_vram.
  rewrite (registered_filter (λ e, mst_loaded e.2)). f_equal.
  induction all_models as [|m l IH]; [done|]. rewrite list_omap_cons, filter_cons.
  destruct (decide (is_loaded a m = true)) as [Hl|Hl]; unfold is_loaded, state in Hl;
    destruct (ma_states a !! m) as [[[] n]|]; cbn [mbind option_bind mst_loaded snd] in *;
    rewrite ?fmap_cons, ?IH; done.
Qed.

(** ** Eviction *)

Global Instance eviction_le_total : Total eviction_le.
Proof. intros m n. unfold eviction_le. lia. Qed.
Global Instance eviction_le_trans : Transitive eviction_le.
Proof. intros m n o. unfold eviction_le. lia. Qed.

Definition idle_gpu (a : ModelArbiter) (requested m : LocalModel) : Prop :=
  m ≠ requested ∧ uses_gpu m = true ∧ is_loaded a m = true ∧ is_active a m = false.

Lemma candidates_perm a requested :
  candidates a requested ≡ₚ (filter (λ e, evictable requested e = true) (registered a)).*1.
Proof. apply merge_sort_Permutation. Qed.

Lemma elem_of_candidates a requested m : m ∈ candidates a requested ↔ idle_gpu a requested m.
Proof.
  rewrite candidates_perm, list_elem_of_fmap. unfold registered, idle_gpu, is_active, is_loaded, state.
  setoid_rewrite list_elem_of_filter. setoid_rewrite list_elem_of_omap.
  unfold evictable. split.
  - intros ([m' st] & -> & Hev & m0 & _ & Hm0). simpl.
    destruct (ma_states a !! m0) as [st0|] eqn:Hst; simplify_eq/=. rewrite Hst. simpl.
    rewrite !andb_true_iff, negb_true_iff, bool_decide_eq_false, N.eqb_eq in Hev.
    destruct Hev as [[[? ?] ?] ->]. done.
  - intros (Hne & Hgpu & Hl & Hi). destruct (ma_states a !! m) as [st|] eqn:Hst; [|done].
    simpl in *. exists (m, st). split; [done|]. split.
    + simpl. rewrite Hgpu, Hl, (bool_decide_eq_false_2 _ Hne). simpl.
      apply N.eqb_eq. apply N.ltb_ge in Hi. lia.
    + exists m. split; [apply all_models_complete|]. by rewrite Hst.
Qed.

Lemma NoDup_candidates a requested : NoDup (candidates a requested).
Proof.
  rewrite candidates_perm. eapply sublist_NoDup; [|apply fmap_sublist, sublist_filter].
  assert ((registered a).*1 `sublist_of` all_models) as Hsub.
  { unfold registered. induction all_models as [|m l IH]; [done|]. rewrite list_omap_cons.
    destruct (ma_states a !! m); simpl; by constructor. }
  eapply sublist_NoDup; [apply all_models_NoDup|done].
Qed.

(** The loop evicts the shortest prefix that makes the request fit. *)
Lemma evict_spec ceiling projected l unload final :
  evict ceiling projected l = (unload, final) →
  ∃ rest, l = unload ++ rest ∧ final = (projected - sum_vram unload)%N ∧
    (rest = [] ∨ final ≤ ceiling)%N ∧
    (∀ pre m, unload = pre ++ [m] → ceiling < projected - sum_vram pre)%N.
Proof.
  revert projected unload final. induction l as [|c l IH]; intros projected unload final; simpl.
  { intros [= <- <-]. exists []. split_and!; [done|unfold sum_vram; simpl; lia|by left|].
    intros pre m Heq. by destruct pre. }
  destruct (projected <=? ceiling)%N eqn:Hfit.
  { intros [= <- <-]. apply N.leb_le in Hfit. exists (c :: l).
    split_and!; [done|unfold sum_vram; simpl; lia|by right|]. intros pre m Heq. by destruct pre. }
  apply N.leb_gt in Hfit. destruct (evict _ _ _) as [u f] eqn:Hev. intros [= <- <-].
  destruct (IH _ _ _ Hev) as (rest & -> & -> & Hrest & Hmin). unfold sat_sub in *.
  exists rest. rewrite sum_vram_cons. split_and!; [done|lia| |].
  - destruct Hrest; [by left|right]. lia.
  - intros [|c' pre] m Heq; simplify_eq/=; [unfold sum_vram; simpl; lia|].
    rewrite sum_vram_cons. specialize (Hmin pre m eq_refl). lia.
Qed.

(** ** Committing a plan *)

Definition plan_wf (p : AdmissionPlan) : Prop :=
  NoDup (ap_unload p) ∧ ap_requested p ∉ ap_unload p.

(** The arbiter a successful commit leaves behind. *)
Definition committed (p : AdmissionPlan) (a : ModelArbiter) : ModelArbiter :=
  state_mut (ap_requested p) (set_loaded true)
    (foldl (λ a m, state_mut m (set_loaded false) a) a (ap_unload p)).

Lemma state_mut_state m f a n :
  state (state_mut m f a) n = if decide (n = m) then f (state a m) else state a n.
Proof.
  unfold state, state_mut at 1. simpl. case_decide as Hn; [subst n|].
  - by rewrite lookup_insert_eq.
  - by rewrite lookup_insert_ne.
Qed.

Lemma unload_state l a n :
  state (foldl (λ a m, state_mut m (set_loaded false) a) a l) n =
    if decide (n ∈ l) then set_loaded false (state a n) else state a n.
Proof.
  revert a. induction l as [|m l IH]; intros a; [by rewrite decide_False by set_solver|].
  simpl. rewrite IH, state_mut_state. destruct (decide (n = m)) as [->|Hne].
  - rewrite (decide_True (P := m ∈ m :: l)) by set_solver. by case_decide.
  - destruct (decide (n ∈ l)); [by rewrite decide_True by set_solver|].
    by rewrite decide_False by set_solver.
Qed.

Lemma committed_state p a n :
  plan_wf p →
  state (committed p a) n =
    if decide (n = ap_requested p) then set_loaded true (state a n)
    else if decide (n ∈ ap_unload p) then set_loaded false (state a n) else state a n.
Proof.
  intros [_ Hreq]. unfold committed. rewrite state_mut_state, !unload_state.
  case_decide as Hn; [subst n|done]. by rewrite decide_False by done.
Qed.

Lemma committed_ceiling p a : ma_ceiling_vram_mib (committed p a) = ma_ceiling_vram_mib a.
Proof.
  unfold committed. simpl. generalize (ap_unload p) as l. intros l. revert a.
  induction l as [|m l IH]; intros a; simpl; [done|]. by rewrite IH.
Qed.

Lemma committed_loaded p a n :
  plan_wf p →
  is_loaded (committed p a) n = true ↔
    n = ap_requested p ∨ (is_loaded a n = true ∧ n ∉ ap_unload p).
Proof.
  intros Hwf. unfold is_loaded. rewrite committed_state by done.
  destruct Hwf as [_ Hreq]. repeat case_decide; simpl; naive_solver.
Qed.

Lemma committed_active p a n : plan_wf p → is_active (committed p a) n = is_active a n.
Proof.
  intros Hwf. unfold is_active. rewrite committed_state by done. by repeat case_decide.
Qed.

(** The memory balance of a commit. *)
Lemma committed_sum p a :
  plan_wf p → (∀ m, m ∈ ap_unload p → is_loaded a m = true) →
  (sum_vram (loaded_models (committed p a)) + sum_vram (ap_unload p) =
   sum_vram (loaded_models a) +
     if is_loaded a (ap_requested p) then 0 else vram_mib (ap_requested p))%N.
Proof.
  intros Hwf Hload. pose proof Hwf as [Hnd Hreq].
  assert (NoDup (loaded_models (committed p a) ++ ap_unload p)) as Hnd'.
  { apply NoDup_app. split_and!; [apply NoDup_loaded| |done].
    intros m [->|[_ ?]]%elem_of_loaded%committed_loaded; done. }
  rewrite <- sum_vram_app. destruct (is_loaded a (ap_requested p)) eqn:Hl.
  - rewrite N.add_0_r. apply sum_vram_perm, NoDup_Permutation; [done|apply NoDup_loaded|].
    intros m. rewrite elem_of_app, !elem_of_loaded, committed_loaded by done.
    destruct (decide (m ∈ ap_unload p)); naive_solver.
  - trans (sum_vram (ap_requested p :: loaded_models a)); [|rewrite sum_vram_cons; lia].
    apply sum_vram_perm, NoDup_Permutation; [done| |].
    + constructor; [|apply NoDup_loaded]. rewrite elem_of_loaded. congruence.
    + intros m. rewrite elem_of_app, elem_of_cons, !elem_of_loaded, committed_loaded by done.
      destruct (decide (m ∈ ap_unload p)); naive_solver.
Qed.

Lemma foldl_sat_sub p l :
  foldl (λ p m, sat_sub p (vram_mib m)) p l = (p - sum_vram l)%N.
Proof.
  revert p. induction l as [|m l IH]; intros p; simpl; [unfold sum_vram; simpl; lia|].
  rewrite IH, sum_vram_cons. unfold sat_sub. lia.
Qed.

(** No addition of a request to the resident memory saturates. *)
Lemma request_fits a m :
  sat_add u32_max (resident_vram_mib a) (vram_mib m) =
    (sum_vram (loaded_models a) + vram_mib m)%N.
Proof.
  rewrite resident_sum. apply sat_add_exact.
  pose proof (total_vram_fits _ (NoDup_loaded a)). assert (vram_mib m ≤ 1500)%N by by destruct m.
  unfold u32_max. lia.
Qed.

(** A commit succeeds exactly when the planned evictions are still possible and
    the result fits; otherwise nothing changes. *)
Lemma commit_cases p a :
  plan_wf p →
  ((∀ m, m ∈ ap_unload p → is_loaded a m = true ∧ is_active a m = false) ∧
   (resident_vram_mib (committed p a) ≤ ma_ceiling_vram_mib a)%N ∧
   commit_admission p a = (Ok (), committed p a)) ∨
  (¬ ((∀ m, m ∈ ap_unload p → is_loaded a m = true ∧ is_active a m = false) ∧
      (resident_vram_mib (committed p a) ≤ ma_ceiling_vram_mib a)%N) ∧
   commit_admission p a = (Err (denied a (ap_requested p)), a)).
Proof.
  intros Hwf. unfold commit_admission. munfold.
  destruct (existsb _ _) eqn:Hex; munfold.
  { right. split; [|done]. intros [Hall _]. apply existsb_exists in Hex as (m & Hin & Hbad).
    apply list_elem_of_In in Hin. destruct (Hall m Hin) as [Hl Ha]. by rewrite Hl, Ha in Hbad. }
  assert (∀ m, m ∈ ap_unload p → is_loaded a m = true ∧ is_active a m = false) as Hall.
  { intros m Hin. apply not_true_iff_false in Hex. rewrite existsb_exists in Hex.
    destruct (is_loaded a m) eqn:Hl, (is_active a m) eqn:Ha; try done; destruct Hex; exists m;
      rewrite <- list_elem_of_In, Hl, Ha; done. }
  assert (foldl (λ p m, sat_sub p (vram_mib m))
    (if negb (is_loaded a (ap_requested p))
     then sat_add u32_max (resident_vram_mib a) (vram_mib (ap_requested p))
     else resident_vram_mib a) (ap_unload p) = resident_vram_mib (committed p a)) as ->.
  { rewrite foldl_sat_sub, request_fits, !resident_sum.
    pose proof (committed_sum p a Hwf ltac:(naive_solver)) as Hsum.
    destruct (is_loaded a (ap_requested p)); simpl; lia. }
  destruct (_ <? _)%N eqn:Hfit; munfold.
  - right. apply N.ltb_lt in Hfit. split; [lia|done].
  - left. apply N.ltb_ge in Hfit. done.
Qed.

Lemma plan_admission_wf requested a p : plan_admission requested a = Ok p → plan_wf p.
Proof.
  unfold plan_admission. repeat case_match; intros; simplify_eq; unfold plan_wf; simpl;
    try (split; [constructor|set_solver]).
  match goal with H : evict _ _ _ = _ |- _ => apply evict_spec in H as (rest & Hl & _) end.
  pose proof (NoDup_candidates a requested) as Hnd. rewrite Hl in Hnd.
  apply NoDup_app in Hnd as [? _]. split; [done|]. intros Hin.
  assert (requested ∈ candidates a requested) as Hc by (rewrite Hl; set_solver).
  apply elem_of_candidates in Hc as [? _]. done.
Qed.

(** ** The arbiter and its outstanding plans

    A plan is computed, the worker unloads what it lists, and it is committed
    later; in between the registry may change. *)

Inductive op : Type :=
  | OPlan (requested : LocalModel)
  | OCommit (index : nat)
  | OActivate (m : LocalModel)
  | ORelease (m : LocalModel)
  | OUnloaded (m : LocalModel)
  | OReset.

Definition exec (s : ModelArbiter * list AdmissionPlan) (o : op) : ModelArbiter * list AdmissionPlan :=
  let '(a, plans) := s in
  match o with
  | OPlan requested =>
    match plan_admission requested a with Ok p => (a, plans ++ [p]) | _ => (a, plans) end
  | OCommit index =>
    match plans !! index with Some p => (state_of (commit_admission p) a, plans) | None => s end
  | OActivate m => (state_of (activate m) a, plans)
  | ORelease m => (state_of (release m) a, plans)
  | OUnloaded m => (state_of (mark_unloaded m) a, plans)
  | OReset => (state_of reset_worker_gpu_models a, plans)
  end.

(** The resident models fit, and only resident models are in use. *)
Record arbiter_inv (a : ModelArbiter) : Prop := {
  inv_fits : (resident_vram_mib a ≤ ma_ceiling_vram_mib a)%N;
  inv_active m : is_active a m = true → is_loaded a m = true;
}.

(** Fewer resident models need no more memory. *)
Lemma resident_mono a a' :
  (∀ m, is_loaded a' m = true → is_loaded a m = true) →
  (resident_vram_mib a' ≤ resident_vram_mib a)%N.
Proof.
  intros Hsub. rewrite !resident_sum.
  assert (loaded_models a' ⊆+ loaded_models a) as [k Hk]%submseteq_Permutation.
  { apply NoDup_submseteq; [apply NoDup_loaded|]. intros m. rewrite !elem_of_loaded. auto. }
  rewrite Hk, sum_vram_app. lia.
Qed.

(** An update of one entry that does not load it. *)
Lemma arbiter_inv_mut m f a :
  arbiter_inv a →
  (mst_loaded (f (state a m)) = true → is_loaded a m = true) →
  ((0 < mst_active_leases (f (state a m)))%N → mst_loaded (f (state a m)) = true) →
  arbiter_inv (state_mut m f a).
Proof.
  intros [Hfit Hact] Hl Ha. split.
  - etrans; [|exact Hfit]. apply resident_mono. intros n. unfold is_loaded in *.
    rewrite state_mut_state. case_decide; [subst; auto|done].
  - intros n. unfold is_active, is_loaded in *. rewrite state_mut_state.
    case_decide; [subst|apply Hact]. rewrite N.ltb_lt. done.
Qed.

Lemma commit_inv p a :
  plan_wf p → arbiter_inv a → arbiter_inv (state_of (commit_admission p) a).
Proof.
  intros Hwf Hinv. unfold state_of.
  destruct (commit_cases p a Hwf) as [(Hall & Hfit & ->)|[_ ->]]; [|done].
  cbn [snd]. split.
  - by rewrite committed_ceiling.
  - intros m. rewrite committed_active, committed_loaded by done. intros Ha.
    right. split; [by apply Hinv|]. intros Hin. destruct (Hall m Hin). congruence.
Qed.

Lemma arbiter_exec_inv s o :
  arbiter_inv s.1 → Forall plan_wf s.2 →
  arbiter_inv (exec s o).1 ∧ Forall plan_wf (exec s o).2 ∧
  ma_ceiling_vram_mib (exec s o).1 = ma_ceiling_vram_mib s.1.
Proof.
  destruct s as [a plans]. intros Hinv Hwf. simpl in *. destruct o; simpl.
  - destruct (plan_admission requested a) as [p|e|] eqn:Hp; simpl; [|done..].
    split_and!; [done| |done]. apply Forall_app. split; [done|].
    constructor; [|done]. by eapply plan_admission_wf.
  - destruct (plans !! index) as [p|] eqn:Hp; simpl; [|done].
    assert (plan_wf p) as Hpwf by (by eapply Forall_lookup_1).
    split_and!; [by apply commit_inv|done|]. unfold state_of.
    destruct (commit_cases p a Hpwf) as [(_ & _ & ->)|[_ ->]]; [apply committed_ceiling|done].
  - unfold state_of, activate. munfold. destruct (is_loaded a m) eqn:Hl; munfold; [|done].
    split_and!; [|done..]. apply arbiter_inv_mut; [done|by auto..].
  - split_and!; [|done..]. apply arbiter_inv_mut; [done|by auto|]. simpl. intros Hpos.
    apply (inv_active a Hinv). unfold is_active. apply N.ltb_lt. unfold sat_sub in Hpos. lia.
  - split_and!; [|done..]. apply arbiter_inv_mut; [done|done|]. simpl. lia.
  - unfold reset_worker_gpu_models, mark_unloaded, state_of. munfold. split_and!; [|done..].
    do 3 (apply arbiter_inv_mut; [|done|simpl; lia]). done.
Qed.

(** C28: model memory never exceeds the ceiling.  Whatever plans are made, kept
    and committed, in any interleaving with activations, releases, unloads and
    worker resets, the declared memory of the resident models is at most the
    configured ceiling and every model in use is resident. *)
Theorem model_memory_stays_within_ceiling ceiling (calls : list op) :
  let a := (foldl exec (with_ceiling_mib ceiling, []) calls).1 in
  (resident_vram_mib a ≤ ceiling)%N ∧ ∀ m, is_active a m = true → is_loaded a m = true.
Proof.
  assert (∀ calls s, arbiter_inv s.1 → Forall plan_wf s.2 →
    arbiter_inv (foldl exec s calls).1 ∧
    ma_ceiling_vram_mib (foldl exec s calls).1 = ma_ceiling_vram_mib s.1) as Hrun.
  { clear calls. induction calls as [|o calls IH]; intros s Hs Hp; [done|]. simpl.
    destruct (arbiter_exec_inv s o Hs Hp) as (Hs' & Hp' & Hc). rewrite <- Hc. auto. }
  destruct (Hrun calls (with_ceiling_mib ceiling, [])) as [[Hfit Hact] Hc]; simpl in *; [|done|].
  - split; [rewrite resident_sum; vm_compute; by destruct ceiling|]. by intros [].
  - rewrite Hc in Hfit. done.
Qed.

(** ** Planning *)

Lemma sum_vram_filter (f : LocalModel → bool) l :
  sum_vram l = (sum_vram (filter (λ m, f m = true) l) + sum_vram (filter (λ m, f m = false) l))%N.
Proof.
  induction l as [|m l IH]; [done|]. rewrite !filter_cons, sum_vram_cons, IH.
  destruct (f m); repeat case_decide; try done; rewrite sum_vram_cons; lia.
Qed.

(** The idle resident models weigh as much as the eviction candidates: the CPU
    fallbacks use no GPU memory. *)
Lemma idle_sum a requested :
  is_loaded a requested = false →
  sum_vram (filter (λ m, is_active a m = false) (loaded_models a)) =
    sum_vram (candidates a requested).
Proof.
  intros Hreq. rewrite (sum_vram_filter uses_gpu).
  assert (∀ l, (∀ m, m ∈ l → uses_gpu m = false) → sum_vram l = 0%N) as Hcpu.
  { induction l as [|m l IH]; intros Hl; [done|]. rewrite sum_vram_cons, IH by set_solver.
    assert (uses_gpu m = false) as Hm by (apply Hl; by left). by destruct m. }
  rewrite (Hcpu (filter (λ m, uses_gpu m = false) _))
    by (intros m [? _]%list_elem_of_filter; done).
  rewrite N.add_0_r. apply sum_vram_perm, NoDup_Permutation; [|apply NoDup_candidates|].
  - eapply sublist_NoDup; [apply (NoDup_loaded a)|].
    etrans; [apply sublist_filter|apply sublist_filter].
  - intros m. rewrite elem_of_candidates, !list_elem_of_filter, elem_of_loaded. unfold idle_gpu.
    split; [|tauto]. intros (? & ? & ?). split_and!; try done. intros ->. congruence.
Qed.

Lemma plan_commits p a :
  arbiter_inv a → plan_wf p → (∀ m, m ∈ ap_unload p → idle_gpu a (ap_requested p) m) →
  resident_vram_mib (committed p a) = ap_projected_vram_mib p →
  (ap_projected_vram_mib p ≤ ma_ceiling_vram_mib a)%N →
  ∃ a', commit_admission p a = (Ok (), a') ∧ is_loaded a' (ap_requested p) = true ∧
    resident_vram_mib a' = ap_projected_vram_mib p ∧
    (ap_projected_vram_mib p ≤ ma_ceiling_vram_mib a)%N ∧
    ∀ m, is_active a m = true → is_loaded a' m = true.
Proof.
  intros Hinv Hwf Hidle Hres Hfit.
  destruct (commit_cases p a Hwf) as [(_ & _ & Hrun)|[Hno _]].
  - exists (committed p a). split_and!; try done.
    + apply committed_loaded; auto.
    + intros m Ha. apply committed_loaded; [done|]. right. split; [by apply Hinv|].
      intros (_ & _ & _ & ?)%Hidle. congruence.
  - destruct Hno. rewrite Hres. split; [|done]. intros m (_ & _ & ? & ?)%Hidle. done.
Qed.

(** A plan without evictions leaves the memory as it is, when the request is
    resident or uses none. *)
Lemma plan_free requested a b :
  arbiter_inv a → is_loaded a requested = true ∨ uses_gpu requested = false →
  let p := mkAdmissionPlan requested [] (resident_vram_mib a) b in
  ∃ a', commit_admission p a = (Ok (), a') ∧ is_loaded a' requested = true ∧
    resident_vram_mib a' = ap_projected_vram_mib p ∧
    (ap_projected_vram_mib p ≤ ma_ceiling_vram_mib a)%N ∧
    ∀ m, is_active a m = true → is_loaded a' m = true.
Proof.
  intros Hinv Hfree p. assert (plan_wf p) as Hwf by (split; [constructor|set_solver]).
  apply (plan_commits p a Hinv Hwf); simpl; [set_solver| |apply Hinv].
  rewrite !resident_sum. pose proof (committed_sum p a Hwf ltac:(simpl; set_solver)) as Hsum.
  simpl in Hsum. unfold sum_vram at 2 in Hsum. simpl in Hsum.
  destruct (is_loaded a requested); [lia|]. destruct Hfree as [|Hcpu]; [done|].
  assert (vram_mib requested = 0)%N by by destruct requested. lia.
Qed.

Lemma evictions_prefer_low_priority a requested unload rest :
  candidates a requested = unload ++ rest →
  StronglySorted eviction_le unload ∧
  ∀ m n, m ∈ unload → idle_gpu a requested n → n ∉ unload → eviction_le m n.
Proof.
  intros Hl. assert (StronglySorted eviction_le (candidates a requested)) as Hs
    by apply (StronglySorted_merge_sort eviction_le).
  rewrite Hl in Hs. apply StronglySorted_app in Hs as (Hcross & Hs & _). split; [done|].
  intros m n Hm Hn Hno. apply elem_of_candidates in Hn. rewrite Hl, elem_of_app in Hn.
  destruct Hn; [done|]. by apply Hcross.
Qed.

(** Admission is exact.  A plan evicts only idle resident GPU models other
    than the request, the lowest priority first and the fewest that make it fit;
    its projected memory is what a commit in the same state leaves, within the
    ceiling and with every model in use still resident; and a request is denied
    only when it does not fit beside the models in use even after evicting every
    idle one. *)
Theorem admission_is_exact requested a :
  arbiter_inv a →
  match plan_admission requested a with
  | Ok p =>
    ap_requested p = requested ∧
    (∀ m, m ∈ ap_unload p → idle_gpu a requested m) ∧
    StronglySorted eviction_le (ap_unload p) ∧
    (∀ m n, m ∈ ap_unload p → idle_gpu a requested n → n ∉ ap_unload p → eviction_le m n) ∧
    (∀ pre m, ap_unload p = pre ++ [m] →
       ma_ceiling_vram_mib a < resident_vram_mib a + vram_mib requested - sum_vram pre)%N ∧
    ∃ a', commit_admission p a = (Ok (), a') ∧ is_loaded a' requested = true ∧
      resident_vram_mib a' = ap_projected_vram_mib p ∧
      (ap_projected_vram_mib p ≤ ma_ceiling_vram_mib a)%N ∧
      ∀ m, is_active a m = true → is_loaded a' m = true
  | Err e =>
    is_loaded a requested = false ∧ uses_gpu requested = true ∧
    (ma_ceiling_vram_mib a < vram_mib requested +
       sum_vram (filter (λ m, is_active a m = true) (loaded_models a)))%N
  | Panic => False
  end.
Proof.
  intros Hinv. unfold plan_admission.
  destruct (is_loaded a requested) eqn:Hl.
  { simpl. split_and!; [done|set_solver|constructor|set_solver|by intros []|].
    apply plan_free; auto. }
  destruct (uses_gpu requested) eqn:Hgpu; simpl.
  2:{ split_and!; [done|set_solver|constructor|set_solver|by intros []|]. apply plan_free; auto. }
  rewrite request_fits, <- resident_sum.
  destruct (evict _ _ _) as [unload final] eqn:Hev.
  destruct (evict_spec _ _ _ _ _ Hev) as (rest & Hcand & Hfinal & Hrest & Hmin).
  destruct (_ <? final)%N eqn:Hfit.
  - apply N.ltb_lt in Hfit. split_and!; [done..|]. destruct Hrest as [->|?]; [|lia].
    rewrite app_nil_r in Hcand. rewrite <- Hcand, <- (idle_sum a requested Hl), resident_sum,
      (sum_vram_filter (is_active a) (loaded_models a)) in Hfinal. lia.
  - apply N.ltb_ge in Hfit. simpl.
    assert (∀ m, m ∈ unload → idle_gpu a requested m) as Hidle.
    { intros m Hm. apply elem_of_candidates. rewrite Hcand. set_solver. }
    destruct (evictions_prefer_low_priority a requested unload rest Hcand) as [Hsort Hlow].
    split_and!; [done..|]. set (p := mkAdmissionPlan requested unload final false).
    assert (plan_wf p) as Hwf.
    { split; simpl; [|intros [? _]%Hidle; done]. pose proof (NoDup_candidates a requested) as Hnd.
      rewrite Hcand in Hnd. by apply NoDup_app in Hnd as [? _]. }
    apply (plan_commits p a Hinv Hwf Hidle); [|done]. simpl. rewrite resident_sum in *.
    pose proof (committed_sum p a Hwf ltac:(simpl; intros m (_ & _ & ? & _)%Hidle; done)) as Hsum.
    simpl in Hsum. rewrite Hl in Hsum. lia.
Qed.

(** A commit is all or nothing and spares the models in use.  For every plan
    of the planner, however old, a commit either succeeds, leaving every model in
    use resident and its leases as they were, or is denied and changes nothing;
    it is denied whenever a model it would evict has become active or was
    unloaded. *)
Theorem commit_spares_active_models requested a0 p a :
  plan_admission requested a0 = Ok p → arbiter_inv a →
  (∃ a', commit_admission p a = (Ok (), a') ∧ is_loaded a' requested = true ∧
     (∀ m, is_active a' m = is_active a m) ∧
     (∀ m, is_active a m = true → is_loaded a' m = true) ∧
     (resident_vram_mib a' ≤ ma_ceiling_vram_mib a)%N ∧
     ∀ m, m ∈ ap_unload p → is_active a m = false ∧ is_loaded a m = true) ∨
  (∃ e, commit_admission p a = (Err e, a)).
Proof.
  intros Hp Hinv. pose proof (plan_admission_wf _ _ _ Hp) as Hwf.
  assert (ap_requested p = requested) as <-
    by (unfold plan_admission in Hp; repeat case_match; by simplify_eq).
  destruct (commit_cases p a Hwf) as [(Hall & Hfit & Hrun)|[_ Hrun]]; [left|by right; eauto].
  exists (committed p a). split_and!; try done.
  - apply committed_loaded; auto.
  - intros m. by apply committed_active.
  - intros m Ha. apply committed_loaded; [done|]. right. split; [by apply Hinv|].
    intros Hin. destruct (Hall m Hin). congruence.
  - intros m Hin. by destruct (Hall m Hin).
Qed.

(** ** Concrete instances *)

(** Speech synthesis and vision resident under a ceiling that cannot hold the
    recogniser beside both. *)
Definition busy_arbiter : ModelArbiter :=
  (foldl exec (with_ceiling_mib 3000, [])
    [OPlan Qwen3Tts; OCommit 0; OActivate Qwen3Tts; OPlan VisionGrounding; OCommit 1]).1.

Lemma busy_inv : arbiter_inv busy_arbiter.
Proof. split; [vm_compute; congruence|]. intros []; by vm_compute. Qed.

Lemma admission_is_exact_witness :
  ∃ p, plan_admission FasterWhisperLargeV3TurboInt8 busy_arbiter = Ok p ∧
    ap_unload p = [VisionGrounding] ∧
    ∃ a', commit_admission p busy_arbiter = (Ok (), a') ∧ is_loaded a' Qwen3Tts = true.
Proof.
  eexists. split; [vm_compute; reflexivity|]. split; [reflexivity|].
  pose proof (admission_is_exact FasterWhisperLargeV3TurboInt8 busy_arbiter busy_inv) as H.
  match type of H with match ?x with _ => _ end =>
    assert (x = Ok (mkAdmissionPlan FasterWhisperLargeV3TurboInt8 [VisionGrounding] 2900 false))
      as Hx by (vm_compute; reflexivity) end.
  rewrite Hx in H. destruct H as (_ & _ & _ & _ & _ & a' & Hrun & _ & _ & _ & Hact).
  exists a'. split; [exact Hrun|]. apply Hact. vm_compute. reflexivity.
Defined.

Lemma commit_spares_active_models_witness :
  (∃ e, commit_admission (mkAdmissionPlan FasterWhisperLargeV3TurboInt8 [VisionGrounding] 2900 false)
     (state_of (activate VisionGrounding) busy_arbiter) =
   (Err e, state_of (activate VisionGrounding) busy_arbiter)).
Proof.
  destruct (commit_spares_active_models FasterWhisperLargeV3TurboInt8 busy_arbiter
    (mkAdmissionPlan FasterWhisperLargeV3TurboInt8 [VisionGrounding] 2900 false)
    (state_of (activate VisionGrounding) busy_arbiter)) as [(a' & Hrun & _)|H].
  - vm_compute. reflexivity.
  - split; [vm_compute; congruence|]. intros []; by vm_compute.
  - exfalso. vm_compute in Hrun. discriminate.
  - exact H.
Defined.
