(* ===== verification/DesktopModel.v ===== *)
(** * Desktop context: the data model, the privacy rules and the action language

    Models [crates/context/src/model.rs], [privacy.rs] and [action.rs]: the
    generation-bound accessibility snapshot and its validation at the trust
    boundary, the capture privacy policy, and the typed desktop actions with
    their bounds and their call-scoped authorization.  [usize] has 64 bits.
    [str::to_lowercase] needs the Unicode tables of the standard library and is
    a parameter of what uses it. *)

From stdpp Require Import base gmap strings list pretty.
From Stdlib Require Import Ascii.
From S2P Require Import Prelude.

(** ** Snapshots ([model.rs]) *)

Record SnapshotGeneration : Type := mkSnapshotGeneration {
  sg_epoch : N;
  sg_sequence : N;
}.
Global Instance generation_eq_dec : EqDecision SnapshotGeneration.
Proof. solve_decision. Defined.

Definition generation_next (g : SnapshotGeneration) : SnapshotGeneration :=
  mkSnapshotGeneration (sg_epoch g) (sat_add u64_max (sg_sequence g) 1).
Definition generation_invalidate (g : SnapshotGeneration) : SnapshotGeneration :=
  mkSnapshotGeneration (sat_add u64_max (sg_epoch g) 1) 0.
(** The derived lexicographic order. *)
Definition generation_le (a b : SnapshotGeneration) : bool :=
  (sg_epoch a <? sg_epoch b)%N
  || ((sg_epoch a =? sg_epoch b)%N && (sg_sequence a <=? sg_sequence b)%N).

Record Rect : Type := mkRect {
  rect_x : f64;
  rect_y : f64;
  rect_width : f64;
  rect_height : f64;
}.

Definition rect_is_valid (r : Rect) : bool :=
  forallb f64_is_finite [rect_x r; rect_y r; rect_width r; rect_height r]
  && f64_le f64_zero (rect_width r) && f64_le f64_zero (rect_height r).

Definition rect_contains (r : Rect) (x y : f64) : bool :=
  rect_is_valid r && f64_le (rect_x r) x && f64_le (rect_y r) y
  && f64_le x (f64_add (rect_x r) (rect_width r))
  && f64_le y (f64_add (rect_y r) (rect_height r)).

Definition WindowId : Type := string.

Record NodeHandle : Type := mkNodeHandle {
  nh_window_id : WindowId;
  nh_generation : SnapshotGeneration;
  nh_opaque_id : string;
}.
Global Instance handle_eq_dec : EqDecision NodeHandle.
Proof. solve_decision. Defined.

Inductive SemanticRole : Type :=
  | RApplication | RWindow | RDialog | RGroup | RToolbar | RMenu | RMenuItem | RButton | RLink
  | RCheckBox | RRadioButton | RComboBox | RTextField | RSearchField | RStaticText | RHeading
  | RList | RListItem | RTable | RRow | RCell | RTab | RImage | RSlider | RScrollArea | RTerminal
  | RDocument | RUnknown.
Global Instance role_eq_dec : EqDecision SemanticRole.
Proof. solve_decision. Defined.

Inductive NodeAction : Type :=
  | AFocus | APress | ASetValue | AReplaceSelection | AScroll | ADrag | AExpand | ACollapse | ASelect.
Global Instance node_action_eq_dec : EqDecision NodeAction.
Proof. solve_decision. Defined.

Inductive NodeState : Type :=
  | SEnabled | SFocused | SSelected | SChecked | SExpanded | SEditable | SPassword | SOffscreen | SBusy.
Global Instance node_state_eq_dec : EqDecision NodeState.
Proof. solve_decision. Defined.

(** The two [BTreeSet]s of a node are only tested for membership. *)
Record AccessibilityNode : Type := mkAccessibilityNode {
  an_handle : NodeHandle;
  an_role : SemanticRole;
  an_name : string;
  an_description : option string;
  an_value : option string;
  an_bounds : option Rect;
  an_states : list NodeState;
  an_actions : list NodeAction;
  an_parent : option NodeHandle;
  an_children : list NodeHandle;
  an_properties : gmap string string;
}.

Definition is_sensitive (n : AccessibilityNode) : bool := bool_decide (SPassword ∈ an_states n).

Record ActiveView : Type := mkActiveView {
  av_application_id : string;
  av_application_name : string;
  av_process_id : option N;
  av_window_id : WindowId;
  av_title : string;
  av_bounds : option Rect;
  av_focused_node : option NodeHandle;
  av_secure_surface : bool;
}.

Inductive PixelFormat : Type := Bgra8 | Rgba8.

Record ScreenFrameDescriptor : Type := mkScreenFrameDescriptor {
  sf_frame_id : string;
  sf_width : N;
  sf_height : N;
  sf_scale_milli : N;
  sf_pixel_format : PixelFormat;
  sf_redacted_regions : N;
}.

Record CapturedFrame : Type := mkCapturedFrame {
  cf_generation : SnapshotGeneration;
  cf_descriptor : ScreenFrameDescriptor;
  cf_bytes : list ascii;
}.

Inductive ContextModelError : Type :=
  | StaleGeneration (expected actual : SnapshotGeneration)
  | CrossWindowHandle
  | InvalidHandle
  | UnknownHandle
  | DanglingHandle
  | SensitiveValueExposed
  | InvalidSnapshot (detail : string)
  | InvalidFrame (detail : string).

(** [usize::checked_mul] on a 64-bit target. *)
Definition checked_mul (a b : N) : option N :=
  if (a * b <=? u64_max)%N then Some (a * b)%N else None.

Definition frame_validate (f : CapturedFrame) (expected : SnapshotGeneration)
    : outcome ContextModelError () :=
  let d := cf_descriptor f in
  _ ← ensure_not (negb (bool_decide (cf_generation f = expected)))
        (StaleGeneration expected (cf_generation f));
  _ ← ensure_not ((sf_width d =? 0)%N || (sf_height d =? 0)%N) (InvalidFrame "empty dimensions");
  match pixels ← checked_mul (sf_width d) (sf_height d); checked_mul pixels 4 with
  | None => Err (InvalidFrame "frame dimensions overflow")
  | Some expected_bytes =>
    ensure_not (negb (N.of_nat (length (cf_bytes f)) =? expected_bytes)%N)
      (InvalidFrame ("expected " +:+ pretty expected_bytes +:+ " bytes, received "
                     +:+ pretty (length (cf_bytes f))))
  end.

Record ActiveViewSnapshot : Type := mkActiveViewSnapshot {
  sn_generation : SnapshotGeneration;
  sn_observed_at_unix_ms : N;
  sn_view : ActiveView;
  sn_nodes : list AccessibilityNode;
  sn_frame : option ScreenFrameDescriptor;
  sn_backend : string;
  sn_degraded_reasons : list string;
}.

Definition validate_handle (s : ActiveViewSnapshot) (h : NodeHandle)
    : outcome ContextModelError () :=
  _ ← ensure_not (negb (bool_decide (nh_generation h = sn_generation s)))
        (StaleGeneration (sn_generation s) (nh_generation h));
  _ ← ensure_not (negb (bool_decide (nh_window_id h = av_window_id (sn_view s)))) CrossWindowHandle;
  ensure_not (is_blank (nh_opaque_id h)) InvalidHandle.

Definition resolve (s : ActiveViewSnapshot) (h : NodeHandle)
    : outcome ContextModelError AccessibilityNode :=
  _ ← validate_handle s h;
  match List.find (λ n, bool_decide (an_handle n = h)) (sn_nodes s) with
  | Some n => Ok n
  | None => Err UnknownHandle
  end.

Definition invalid_bounds (b : option Rect) : bool :=
  match b with Some r => negb (rect_is_valid r) | None => false end.

Definition snapshot_handles (s : ActiveViewSnapshot) : list NodeHandle := an_handle <$> sn_nodes s.

(** [node.parent.iter().chain(&node.children)] *)
Definition node_edges (n : AccessibilityNode) : list NodeHandle :=
  option_list (an_parent n) ++ an_children n.

Definition validate_edge (s : ActiveViewSnapshot) (edge : NodeHandle)
    : outcome ContextModelError () :=
  _ ← validate_handle s edge;
  ensure_not (negb (bool_decide (edge ∈ snapshot_handles s))) DanglingHandle.

Definition validate_node (s : ActiveViewSnapshot) (n : AccessibilityNode)
    : outcome ContextModelError () :=
  _ ← validate_handle s (an_handle n);
  _ ← ensure_not (invalid_bounds (an_bounds n))
        (InvalidSnapshot "accessibility node has invalid bounds");
  _ ← ensure_not (is_sensitive n && bool_decide (is_Some (an_value n))) SensitiveValueExposed;
  try_for_each (validate_edge s) (node_edges n).

Definition snapshot_validate (s : ActiveViewSnapshot) : outcome ContextModelError () :=
  let v := sn_view s in
  _ ← ensure_not (is_blank (av_application_id v) || is_blank (av_window_id v))
        (InvalidSnapshot "active application and window identity are required");
  _ ← ensure_not (invalid_bounds (av_bounds v))
        (InvalidSnapshot "active window has invalid bounds");
  _ ← ensure_not (negb (length (remove_dups (snapshot_handles s)) =? length (sn_nodes s)))
        (InvalidSnapshot "duplicate accessibility handles");
  _ ← try_for_each (validate_node s) (sn_nodes s);
  match av_focused_node v with
  | Some focused => validate_edge s focused
  | None => Ok ()
  end.

(** ** Capture privacy ([privacy.rs]) *)

Inductive CaptureScope : Type :=
  | ScopeActiveWindow
  | ScopeWindow (id : WindowId)
  | ScopeDisplay (id : string).

Inductive PrivacyExclusion : Type :=
  | ExcludeApplication (application_id : string)
  | ExcludeWindow (window_id : WindowId)
  | ExcludeTitleContains (text : string).

Record ScreenPrivacyPolicy : Type := mkScreenPrivacyPolicy {
  pp_capture_enabled : bool;
  pp_allow_full_display_capture : bool;
  pp_deny_secure_surfaces : bool;
  pp_exclusions : list PrivacyExclusion;
  pp_redacted_regions : list Rect;
  pp_redact_semantics_for_applications : list string;
}.

Definition privacy_default : ScreenPrivacyPolicy := mkScreenPrivacyPolicy false false true [] [] [].

Inductive PrivacyError : Type :=
  | CaptureDisabled
  | DisplayCaptureNotAllowed
  | SecureSurface
  | Excluded
  | InvalidRedactionRegion.

Definition str_eq_ignore_ascii_case (a b : string) : bool := eq_ignore_ascii_case (bytes a) (bytes b).

Section privacy.
Context (to_lowercase : string → string).

Definition exclusion_matches (v : ActiveView) (x : PrivacyExclusion) : bool :=
  match x with
  | ExcludeApplication application_id =>
    str_eq_ignore_ascii_case application_id (av_application_id v)
  | ExcludeWindow window_id => bool_decide (window_id = av_window_id v)
  | ExcludeTitleContains text =>
    negb (is_blank text) && str_contains (to_lowercase (av_title v)) (to_lowercase text)
  end.

Definition privacy_authorize (p : ScreenPrivacyPolicy) (scope : CaptureScope) (v : ActiveView)
    : outcome PrivacyError () :=
  _ ← ensure_not (negb (pp_capture_enabled p)) CaptureDisabled;
  _ ← ensure_not (match scope with ScopeDisplay _ => true | _ => false end
                  && negb (pp_allow_full_display_capture p)) DisplayCaptureNotAllowed;
  _ ← ensure_not (pp_deny_secure_surfaces p && av_secure_surface v) SecureSurface;
  _ ← try_for_each (λ x, ensure_not (exclusion_matches v x) Excluded) (pp_exclusions p);
  ensure_not (existsb (λ r, negb (rect_is_valid r)) (pp_redacted_regions p)) InvalidRedactionRegion.
End privacy.

Definition policy_redact_semantics (p : ScreenPrivacyPolicy) (application_id : string) : bool :=
  existsb (λ excluded, str_eq_ignore_ascii_case excluded application_id)
    (pp_redact_semantics_for_applications p).

(** ** Desktop actions ([action.rs]) *)

Inductive InspectScope : Type :=
  | InspectActiveView
  | InspectWindow (id : WindowId)
  | InspectNode (h : NodeHandle).

Inductive MouseButton : Type := Primary | Secondary | Middle.

Record ApplicationTarget : Type := mkApplicationTarget {
  at_stable_id : string;
  at_arguments : list string;
}.

Inductive NodeSelector : Type :=
  | SelectHandle (h : NodeHandle)
  | SelectSemantic (window_id : option WindowId) (role : option SemanticRole) (name : string).

Inductive DesktopCondition : Type :=
  | NodeExists (target : NodeSelector)
  | NodeFocused (target : NodeSelector)
  | NodeValueContains (target : NodeSelector) (text : string)
  | NodeValueEquals (target : NodeSelector) (text : string)
  | ApplicationActive (application_id : string)
  | WindowTitleContains (text : string)
  | WindowExists (window_id : WindowId).

Inductive DesktopAction : Type :=
  | Inspect (scope : InspectScope)
  | Capture (scope : CaptureScope)
  | Click (target : NodeHandle) (button : MouseButton) (click_count : N)
  | TypeText (target : NodeHandle) (text : string) (replace_selection : bool)
  | Scroll (target : option NodeHandle) (delta_x delta_y : Z)
  | Focus (target : NodeHandle)
  | Launch (application : ApplicationTarget)
  | Drag (target : NodeHandle) (destination : Rect)
  | WaitFor (condition : DesktopCondition) (timeout_ms poll_interval_ms : N)
  | Assert (condition : DesktopCondition).

Inductive DesktopEffect : Type := DObserve | DNavigate | DInteract | DWriteText | DLaunchApplication.
Global Instance desktop_effect_eq_dec : EqDecision DesktopEffect.
Proof. solve_decision. Defined.

Inductive AuthorizationError : Type :=
  | EffectNotApproved (e : DesktopEffect)
  | UserPresenceRequired
  | TextApprovalRequired.

Inductive ActionValidationError : Type :=
  | InvalidRequestId
  | InvalidApplicationId
  | InvalidArguments
  | InvalidClickCount
  | EmptyText
  | EmptyScroll
  | InvalidDestination
  | InvalidWait
  | InvalidCondition
  | MissingPostcondition
  | Authorization (e : AuthorizationError).

Definition str_len (s : string) : N := N.of_nat (length (bytes s)).
Definition has_nul (s : string) : bool := bool_decide (ascii_of_N 0 ∈ bytes s).

Definition application_validate (a : ApplicationTarget) : outcome ActionValidationError () :=
  _ ← ensure_not (is_blank (at_stable_id a) || has_nul (at_stable_id a)) InvalidApplicationId;
  ensure_not ((128 <? N.of_nat (length (at_arguments a)))%N
              || existsb (λ arg, has_nul arg || (16384 <? str_len arg)%N) (at_arguments a))
    InvalidArguments.

Definition condition_selector (c : DesktopCondition) : option NodeSelector :=
  match c with
  | NodeExists target | NodeFocused target | NodeValueContains target _
  | NodeValueEquals target _ => Some target
  | ApplicationActive _ | WindowTitleContains _ | WindowExists _ => None
  end.
Definition condition_target_handle (c : DesktopCondition) : option NodeHandle :=
  match condition_selector c with Some (SelectHandle h) => Some h | _ => None end.

Definition action_effect (a : DesktopAction) : DesktopEffect :=
  match a with
  | Inspect _ | Capture _ | WaitFor _ _ _ | Assert _ => DObserve
  | Focus _ | Scroll _ _ _ => DNavigate
  | Click _ _ _ | Drag _ _ => DInteract
  | TypeText _ _ _ => DWriteText
  | Launch _ => DLaunchApplication
  end.

Definition target_handles (a : DesktopAction) : list NodeHandle :=
  match a with
  | Inspect (InspectNode target) | Click target _ _ | TypeText target _ _ | Focus target
  | Drag target _ | Scroll (Some target) _ _ => [target]
  | WaitFor condition _ _ | Assert condition => option_list (condition_target_handle condition)
  | Inspect _ | Capture _ | Scroll None _ _ | Launch _ => []
  end.

Definition valid_selector (s : NodeSelector) : bool :=
  match s with
  | SelectHandle h => negb (is_blank (nh_opaque_id h))
  | SelectSemantic _ role name => bool_decide (is_Some role) || negb (is_blank name)
  end.

Definition validate_condition (c : DesktopCondition) : outcome ActionValidationError () :=
  let valid := match c with
    | NodeExists target | NodeFocused target => valid_selector target
    | NodeValueContains target text | NodeValueEquals target text =>
      valid_selector target && negb (is_blank text)
    | ApplicationActive text | WindowTitleContains text => negb (is_blank text)
    | WindowExists window_id => negb (is_blank window_id)
    end in
  if valid then Ok () else Err InvalidCondition.

Definition action_validate (a : DesktopAction) : outcome ActionValidationError () :=
  match a with
  | Click _ _ click_count =>
    ensure_not (negb ((1 <=? click_count)%N && (click_count <=? 3)%N)) InvalidClickCount
  | TypeText _ text _ => ensure_not (is_empty text) EmptyText
  | Scroll _ delta_x delta_y => ensure_not ((delta_x =? 0)%Z && (delta_y =? 0)%Z) EmptyScroll
  | Drag _ destination => ensure_not (negb (rect_is_valid destination)) InvalidDestination
  | Launch application => application_validate application
  | WaitFor condition timeout_ms poll_interval_ms =>
    _ ← ensure_not ((timeout_ms =? 0)%N || (300000 <? timeout_ms)%N || (poll_interval_ms <? 25)%N
                    || (timeout_ms <? poll_interval_ms)%N) InvalidWait;
    validate_condition condition
  | Assert condition => validate_condition condition
  | Inspect _ | Capture _ | Focus _ => Ok ()
  end.

Record ActionAuthorization : Type := mkActionAuthorization {
  aa_user_present : bool;
  aa_approved_effects : list DesktopEffect;
  aa_sensitive_text_approved : bool;
}.

Definition observe_only : ActionAuthorization := mkActionAuthorization true [DObserve] false.

Definition is_type_text (a : DesktopAction) : bool :=
  match a with TypeText _ _ _ => true | _ => false end.

Definition authorize (auth : ActionAuthorization) (a : DesktopAction)
    : outcome AuthorizationError () :=
  let effect := action_effect a in
  _ ← ensure_not (negb (bool_decide (effect ∈ aa_approved_effects auth))) (EffectNotApproved effect);
  _ ← ensure_not (negb (bool_decide (effect = DObserve)) && negb (aa_user_present auth))
        UserPresenceRequired;
  ensure_not (is_type_text a && negb (aa_sensitive_text_approved auth)) TextApprovalRequired.

Inductive Postcondition : Type :=
  | PostCondition (c : DesktopCondition)
  | GenerationAdvanced
  | ApplicationLaunched (application_id : string).

Record DesktopActionRequest : Type := mkDesktopActionRequest {
  dr_request_id : string;
  dr_action : DesktopAction;
  dr_authorization : ActionAuthorization;
  dr_postconditions : list Postcondition;
}.

Definition is_nil {A} (l : list A) : bool := match l with [] => true | _ => false end.

Definition request_validate (r : DesktopActionRequest) : outcome ActionValidationError () :=
  _ ← ensure_not (is_blank (dr_request_id r) || (256 <? str_len (dr_request_id r))%N)
        InvalidRequestId;
  _ ← action_validate (dr_action r);
  _ ← outcome_map_err Authorization (authorize (dr_authorization r) (dr_action r));
  ensure_not (negb (bool_decide (action_effect (dr_action r) = DObserve))
              && is_nil (dr_postconditions r)) MissingPostcondition.

(** ** What validation establishes *)

(** A handle of this snapshot's generation and window, with an identity. *)
Definition bound_handle (s : ActiveViewSnapshot) (h : NodeHandle) : Prop :=
  nh_generation h = sn_generation s ∧ nh_window_id h = av_window_id (sn_view s) ∧
  is_blank (nh_opaque_id h) = false.

Record node_ok (s : ActiveViewSnapshot) (n : AccessibilityNode) : Prop := {
  nok_handle : bound_handle s (an_handle n);
  nok_bounds r : an_bounds n = Some r → rect_is_valid r = true;
  nok_secret : SPassword ∈ an_states n → an_value n = None;
  nok_parent h : an_parent n = Some h → h ∈ snapshot_handles s;
  nok_children h : h ∈ an_children n → h ∈ snapshot_handles s;
}.

(** A snapshot that may cross the trust boundary. *)
Record snapshot_ok (s : ActiveViewSnapshot) : Prop := {
  sok_application : is_blank (av_application_id (sn_view s)) = false;
  sok_window : is_blank (av_window_id (sn_view s)) = false;
  sok_bounds r : av_bounds (sn_view s) = Some r → rect_is_valid r = true;
  sok_unique : NoDup (snapshot_handles s);
  sok_nodes n : n ∈ sn_nodes s → node_ok s n;
  sok_focus h : av_focused_node (sn_view s) = Some h → h ∈ snapshot_handles s;
}.

Lemma validate_handle_ok s h : validate_handle s h = Ok () ↔ bound_handle s h.
Proof.
  unfold validate_handle, bound_handle, ensure_not, mbind, outcome_bind.
  repeat case_bool_decide; simpl; [|naive_solver..].
  destruct (is_blank (nh_opaque_id h)); naive_solver.
Qed.

Lemma validate_edge_ok s h :
  validate_edge s h = Ok () ↔ bound_handle s h ∧ h ∈ snapshot_handles s.
Proof.
  unfold validate_edge. rewrite !outcome_seq_ok. rewrite !ensure_not_ok.
  rewrite negb_false_iff. rewrite bool_decide_eq_true.
  by rewrite validate_handle_ok.
Qed.

Lemma invalid_bounds_false b :
  invalid_bounds b = false ↔ ∀ r, b = Some r → rect_is_valid r = true.
Proof.
  unfold invalid_bounds. destruct b as [r|]; [|naive_solver]. rewrite negb_false_iff. naive_solver.
Qed.

Lemma unique_handles (l : list NodeHandle) : length (remove_dups l) = length l ↔ NoDup l.
Proof.
  split.
  - intros Hlen. assert (remove_dups l ⊆+ l) as Hsub.
    { apply NoDup_submseteq; [apply NoDup_remove_dups|]. intros x. by rewrite elem_of_remove_dups. }
    apply submseteq_length_Permutation in Hsub; [|lia]. rewrite <- Hsub. apply NoDup_remove_dups.
  - intros Hnd. apply Permutation_length, NoDup_Permutation; [apply NoDup_remove_dups|done|].
    intros x. apply elem_of_remove_dups.
Qed.

(** The edges of a node are bound as soon as they lead to bound nodes. *)
Lemma validate_node_ok s n :
  (∀ m, m ∈ sn_nodes s → bound_handle s (an_handle m)) →
  validate_node s n = Ok () ↔ node_ok s n.
Proof.
  intros Hall.
  assert (∀ h, h ∈ snapshot_handles s → bound_handle s h) as Hb.
  { intros h (m & -> & Hm)%list_elem_of_fmap. auto. }
  unfold validate_node. rewrite !outcome_seq_ok. rewrite !ensure_not_ok. rewrite try_for_each_ok.
  setoid_rewrite validate_edge_ok. rewrite invalid_bounds_false.
  assert (is_sensitive n && bool_decide (is_Some (an_value n)) = false ↔
    (SPassword ∈ an_states n → an_value n = None)) as Hs.
  { unfold is_sensitive. rewrite andb_false_iff, !bool_decide_eq_false, eq_None_not_Some.
    destruct (decide (SPassword ∈ an_states n)); naive_solver. }
  unfold node_edges. setoid_rewrite elem_of_app. split.
  - rewrite Hs. intros (Hh%validate_handle_ok & Hbd & Hsec & Hedges).
    split; try done; intros h Hh'; apply Hedges; [left|by right]. rewrite Hh'. by left.
  - intros [Hh Hbd Hsec Hp Hc]. split; [by apply validate_handle_ok|].
    split; [done|]. split; [by apply Hs|].
    intros h Hin. assert (h ∈ snapshot_handles s) as Hin'; [|by auto].
    destruct Hin as [Hin|Hin]; [|by auto]. destruct (an_parent n) as [p|] eqn:Hp'; [|by apply elem_of_nil in Hin].
    apply list_elem_of_singleton in Hin as ->. auto.
Qed.

Lemma snapshot_validation_iff s : snapshot_validate s = Ok () ↔ snapshot_ok s.
Proof.
  assert ((length (remove_dups (snapshot_handles s)) =? length (sn_nodes s)) = true ↔
    NoDup (snapshot_handles s)) as Hu.
  { rewrite Nat.eqb_eq, <- unique_handles. unfold snapshot_handles. by rewrite length_fmap. }
  unfold snapshot_validate. rewrite !outcome_seq_ok. rewrite !ensure_not_ok.
  rewrite try_for_each_ok. rewrite !orb_false_iff. rewrite negb_false_iff.
  rewrite Hu. rewrite invalid_bounds_false. split.
  - intros ([Ha Hw] & Hbd & Hnd & Hnodes & Hfocus).
    assert (∀ m, m ∈ sn_nodes s → bound_handle s (an_handle m)) as Hall.
    { intros m Hm%Hnodes. unfold validate_node in Hm. apply outcome_seq_ok in Hm as (Hm & _).
      by apply validate_handle_ok. }
    split; try done.
    + intros n Hn. by apply validate_node_ok, Hnodes.
    + intros h Hh. rewrite Hh in Hfocus. by apply validate_edge_ok in Hfocus as [_ ?].
  - intros [Ha Hw Hbd Hnd Hnodes Hfocus].
    assert (∀ m, m ∈ sn_nodes s → bound_handle s (an_handle m)) as Hall
      by (intros m Hm; apply Hnodes; done).
    split; [done|]. split; [done|]. split; [done|].
    split; [intros n Hn; apply validate_node_ok; auto|].
    destruct (av_focused_node (sn_view s)) as [h|]; [|done]. specialize (Hfocus h eq_refl).
    apply validate_edge_ok. split; [|done].
    apply list_elem_of_fmap in Hfocus as (m & -> & Hm). auto.
Qed.

(** Snapshot validation is exact.  [validate] accepts a snapshot exactly when
    the application and window are identified, all rectangles are valid, the
    handles are unique and bound to this generation and window, no password field
    carries a value, and every edge and the focus lead to a node of the snapshot. *)
Theorem snapshot_validation_is_exact s : snapshot_validate s = Ok () ↔ snapshot_ok s.
Proof. apply snapshot_validation_iff. Qed.

Lemma resolve_ok s h n : resolve s h = Ok n → n ∈ sn_nodes s ∧ an_handle n = h ∧ bound_handle s h.
Proof.
  unfold resolve. rewrite !outcome_seq_ok. intros (Hh%validate_handle_ok & Hf).
  destruct (List.find _ _) as [m|] eqn:Hm; [|done]. simplify_eq.
  apply List.find_some in Hm as [Hin Heq]. apply bool_decide_eq_true in Heq.
  split; [by apply list_elem_of_In|done].
Qed.

(** A frame is accepted exactly when it is of the expected generation, not empty,
    and holds four bytes per pixel. *)
Lemma frame_validate_ok f g :
  frame_validate f g = Ok () ↔
    cf_generation f = g ∧ sf_width (cf_descriptor f) ≠ 0%N ∧ sf_height (cf_descriptor f) ≠ 0%N ∧
    N.of_nat (length (cf_bytes f)) = (sf_width (cf_descriptor f) * sf_height (cf_descriptor f) * 4)%N ∧
    (sf_width (cf_descriptor f) * sf_height (cf_descriptor f) * 4 ≤ u64_max)%N.
Proof.
  unfold frame_validate. rewrite !outcome_seq_ok.
  rewrite !ensure_not_ok. rewrite negb_false_iff, bool_decide_eq_true.
  rewrite !orb_false_iff. rewrite !N.eqb_neq.
  set (w := sf_width _). set (h := sf_height _). unfold checked_mul.
  destruct (w * h <=? u64_max)%N eqn:H1; cbn [mbind option_bind].
  - destruct (w * h * 4 <=? u64_max)%N eqn:H2.
    + rewrite ensure_not_ok, negb_false_iff, N.eqb_eq. apply N.leb_le in H2. tauto.
    + apply N.leb_gt in H2. split; [by intros (? & ? & ?)|]. intros (_ & _ & _ & _ & ?). lia.
  - apply N.leb_gt in H1. split; [by intros (? & ? & ?)|]. intros (_ & _ & _ & _ & ?). lia.
Qed.

Lemma authorize_ok auth a :
  authorize auth a = Ok () ↔
    action_effect a ∈ aa_approved_effects auth ∧
    (action_effect a ≠ DObserve → aa_user_present auth = true) ∧
    (is_type_text a = true → aa_sensitive_text_approved auth = true).
Proof.
  unfold authorize. rewrite !outcome_seq_ok, !ensure_not_ok, !andb_false_iff, !negb_false_iff,
    !bool_decide_eq_true.
  destruct (decide (action_effect a = DObserve)), (is_type_text a); naive_solver.
Qed.

Lemma request_validate_ok r :
  request_validate r = Ok () →
  is_blank (dr_request_id r) = false ∧ action_validate (dr_action r) = Ok () ∧
  authorize (dr_authorization r) (dr_action r) = Ok () ∧
  (action_effect (dr_action r) ≠ DObserve → dr_postconditions r ≠ []).
Proof.
  unfold request_validate. rewrite !outcome_seq_ok. rewrite !ensure_not_ok. rewrite outcome_map_err_ok.
  intros ([? _]%orb_false_iff & ? & ? & Hp). split_and!; [done..|].
  intros Hne Hnil. rewrite Hnil, (bool_decide_eq_false_2 _ Hne) in Hp. done.
Qed.
