(* ===== verification/DesktopCoordinator.v ===== *)
(** * Desktop coordination

    Models [crates/context/src/backend.rs] and [coordinator.rs]: the native
    bridge behind its connection check, and the coordinator that collects
    snapshots, captures frames and executes verified actions.  A backend is the
    record of the operations of the [DesktopBackend] trait over a world [W]; the
    tokio timer and the printed texts of errors and conditions are parameters. *)

From stdpp Require Import base gmap strings list.
From S2P Require Import Prelude DesktopModel.

(** ** The native backend ([backend.rs]) *)

Record ActiveViewObservation : Type := mkActiveViewObservation {
  ob_generation : SnapshotGeneration;
  ob_observed_at_unix_ms : N;
  ob_view : ActiveView;
}.

Record NativeActionEvidence : Type := mkNativeActionEvidence {
  ne_backend_operation : string;
  ne_native_target_id : option string;
  ne_changed : bool;
}.

Inductive PermissionState : Type :=
  | Granted
  | PermDenied (guidance : string)
  | NotDetermined (guidance : string)
  | PermUnavailable (reason : string).

Record DesktopPermissionReport : Type := mkDesktopPermissionReport {
  pr_screen_capture : PermissionState;
  pr_accessibility : PermissionState;
  pr_input_control : PermissionState;
}.

Inductive DesktopPlatform : Type := PWindows | PMacOs | PLinux | PUnsupported.
Global Instance platform_eq_dec : EqDecision DesktopPlatform.
Proof. solve_decision. Defined.
(** [{:?}] of a platform. *)
Definition platform_debug (p : DesktopPlatform) : string :=
  match p with
  | PWindows => "Windows" | PMacOs => "MacOs" | PLinux => "Linux" | PUnsupported => "Unsupported"
  end.

(** The backend plan, without the session kind and the capability list, which this
    crate never reads. *)
Record DesktopBackendPlan : Type := mkDesktopBackendPlan {
  pl_platform : DesktopPlatform;
  pl_screen_capture_backend : string;
  pl_accessibility_backend : string;
  pl_input_backend : string;
  pl_launcher_backend : string;
}.

Record DesktopBackendStatus : Type := mkDesktopBackendStatus {
  bs_plan : DesktopBackendPlan;
  bs_connected : bool;
  bs_permissions : DesktopPermissionReport;
  bs_connection_detail : string;
}.

Inductive BackendError : Type :=
  | BackendUnavailable (detail : string)
  | PermissionDenied (detail : string)
  | Disconnected (detail : string)
  | InvalidData (detail : string)
  | Operation (detail : string).

Record DesktopBackend (W : Type) : Type := mkDesktopBackend {
  be_status : W → DesktopBackendStatus;
  be_active_view : M W BackendError ActiveViewObservation;
  be_accessibility_nodes :
    ActiveView → SnapshotGeneration → M W BackendError (list AccessibilityNode);
  be_capture_frame :
    CaptureScope → SnapshotGeneration → list Rect → M W BackendError CapturedFrame;
  be_execute_native : DesktopAction → SnapshotGeneration → M W BackendError NativeActionEvidence;
}.
Arguments mkDesktopBackend {W} _ _ _ _ _.
Arguments be_status {W} _ _.
Arguments be_active_view {W} _ _.
Arguments be_accessibility_nodes {W} _ _ _ _.
Arguments be_capture_frame {W} _ _ _ _ _.
Arguments be_execute_native {W} _ _ _ _.

(** The [NativeDesktopBridge] trait. *)
Record NativeDesktopBridge (W : Type) : Type := mkNativeDesktopBridge {
  nb_is_connected : W → bool;
  nb_permission_report : W → DesktopPermissionReport;
  nb_connection_detail : W → string;
  nb_active_view : M W BackendError ActiveViewObservation;
  nb_accessibility_nodes :
    ActiveView → SnapshotGeneration → M W BackendError (list AccessibilityNode);
  nb_capture_frame :
    CaptureScope → SnapshotGeneration → list Rect → M W BackendError CapturedFrame;
  nb_execute_native : DesktopAction → SnapshotGeneration → M W BackendError NativeActionEvidence;
}.
Arguments mkNativeDesktopBridge {W} _ _ _ _ _ _ _.
Arguments nb_is_connected {W} _ _.
Arguments nb_permission_report {W} _ _.
Arguments nb_connection_detail {W} _ _.
Arguments nb_active_view {W} _ _.
Arguments nb_accessibility_nodes {W} _ _ _ _.
Arguments nb_capture_frame {W} _ _ _ _ _.
Arguments nb_execute_native {W} _ _ _ _.

Definition ensure_connected {W} (b : NativeDesktopBridge W) : M W BackendError () :=
  w ← get; reject_if (negb (nb_is_connected b w)) (Disconnected (nb_connection_detail b w)).

Definition for_platform (plan : DesktopBackendPlan) (expected : DesktopPlatform)
    : outcome BackendError DesktopBackendPlan :=
  if bool_decide (pl_platform plan = expected) then Ok plan
  else Err (InvalidData ("expected " +:+ platform_debug expected +:+ " plan, received "
                         +:+ platform_debug (pl_platform plan))).

Definition bridge_active_view {W} (b : NativeDesktopBridge W)
    : M W BackendError ActiveViewObservation :=
  _ ← ensure_connected b; nb_active_view b.
Definition bridge_accessibility_nodes {W} (b : NativeDesktopBridge W) (v : ActiveView)
    (g : SnapshotGeneration) : M W BackendError (list AccessibilityNode) :=
  _ ← ensure_connected b; nb_accessibility_nodes b v g.
Definition bridge_capture_frame {W} (b : NativeDesktopBridge W) (scope : CaptureScope)
    (g : SnapshotGeneration) (redacted : list Rect) : M W BackendError CapturedFrame :=
  _ ← ensure_connected b; nb_capture_frame b scope g redacted.
Definition bridge_execute_native {W} (b : NativeDesktopBridge W) (a : DesktopAction)
    (g : SnapshotGeneration) : M W BackendError NativeActionEvidence :=
  _ ← ensure_connected b; nb_execute_native b a g.
Definition bridge_status {W} (b : NativeDesktopBridge W) (plan : DesktopBackendPlan) (w : W)
    : DesktopBackendStatus :=
  mkDesktopBackendStatus plan (nb_is_connected b w) (nb_permission_report b w)
    (nb_connection_detail b w).

(** [impl DesktopBackend for BridgeDesktopBackend<B>] *)
Definition bridge_backend {W} (b : NativeDesktopBridge W) (plan : DesktopBackendPlan)
    : DesktopBackend W :=
  mkDesktopBackend (bridge_status b plan) (bridge_active_view b) (bridge_accessibility_nodes b)
    (bridge_capture_frame b) (bridge_execute_native b).

(** The bridge used until the OS integration is connected. *)
Definition unavailable_bridge {W} (reason : string) (permissions : DesktopPermissionReport)
    : NativeDesktopBridge W :=
  mkNativeDesktopBridge (λ _, false) (λ _, permissions) (λ _, reason)
    (throw (BackendUnavailable reason)) (λ _ _, throw (BackendUnavailable reason))
    (λ _ _ _, throw (BackendUnavailable reason)) (λ _ _, throw (BackendUnavailable reason)).

(** ** The coordinator ([coordinator.rs]) *)

Record DesktopActionReceipt : Type := mkDesktopActionReceipt {
  rc_request_id : string;
  rc_effect : DesktopEffect;
  rc_backend : string;
  rc_before_generation : SnapshotGeneration;
  rc_after_generation : SnapshotGeneration;
  rc_native_evidence : option NativeActionEvidence;
  rc_verified_postconditions : nat;
  rc_verified : bool;
}.

Record DesktopActionOutcome : Type := mkDesktopActionOutcome {
  do_receipt : DesktopActionReceipt;
  do_snapshot : ActiveViewSnapshot;
  do_captured_frame : option CapturedFrame;
}.

Record UnverifiedDesktopEffect : Type := mkUnverifiedDesktopEffect {
  ue_request_id : string;
  ue_evidence : NativeActionEvidence;
  ue_reason : string;
}.

Inductive CoordinatorError : Type :=
  | EValidation (e : ActionValidationError)
  | EPrivacy (e : PrivacyError)
  | EBackend (e : BackendError)
  | EModel (e : ContextModelError)
  | EUnsupportedNodeAction (label : string)
  | EConditionFailed (detail : string)
  | EWaitTimeout (timeout_ms : N)
  | EUnverifiedEffect (u : UnverifiedDesktopEffect).

Definition require_permission (p : PermissionState) (capability : string)
    : outcome CoordinatorError () :=
  match p with
  | Granted => Ok ()
  | PermDenied text | NotDetermined text | PermUnavailable text =>
    Err (EBackend (PermissionDenied (capability +:+ ": " +:+ text)))
  end.

Definition observe_outcome (r : DesktopActionRequest) (s : ActiveViewSnapshot)
    (frame : option CapturedFrame) : DesktopActionOutcome :=
  mkDesktopActionOutcome
    (mkDesktopActionReceipt (dr_request_id r) DObserve (sn_backend s) (sn_generation s)
       (sn_generation s) None (length (dr_postconditions r)) true)
    s frame.

Definition redact_node (n : AccessibilityNode) : AccessibilityNode :=
  mkAccessibilityNode (an_handle n) (an_role n) "" None None (an_bounds n) (an_states n)
    (an_actions n) (an_parent n) (an_children n) ∅.
Definition redact_semantics (nodes : list AccessibilityNode) : list AccessibilityNode :=
  redact_node <$> nodes.

(** The target, the semantic action it must expose and the label of the error. *)
Definition required_action (a : DesktopAction) : option (NodeHandle * NodeAction * string) :=
  match a with
  | Click target _ _ => Some (target, APress, "press")
  | TypeText target _ replace_selection =>
    Some (target, if replace_selection then AReplaceSelection else ASetValue, "edit text")
  | Scroll (Some target) _ _ => Some (target, AScroll, "scroll")
  | Focus target => Some (target, AFocus, "focus")
  | Drag target _ => Some (target, ADrag, "drag")
  | _ => None
  end.

Definition preflight_semantic_action (a : DesktopAction) (s : ActiveViewSnapshot)
    : outcome CoordinatorError () :=
  match required_action a with
  | None => Ok ()
  | Some (target, required, label) =>
    node ← outcome_map_err EModel (resolve s target);
    _ ← ensure_not (negb (bool_decide (required ∈ an_actions node))) (EUnsupportedNodeAction label);
    ensure_not (is_type_text a && (negb (bool_decide (SEditable ∈ an_states node))
                                   || is_sensitive node))
      (EUnsupportedNodeAction "edit a non-editable or password field")
  end.

(** [before.resolve(handle)?;] *)
Definition check_target (s : ActiveViewSnapshot) (h : NodeHandle) : outcome ContextModelError () :=
  _ ← resolve s h; Ok ().

Definition semantic_match (window_id : option WindowId) (role : option SemanticRole) (name : string)
    (n : AccessibilityNode) : bool :=
  match window_id with Some w => bool_decide (w = nh_window_id (an_handle n)) | None => true end
  && match role with Some r => bool_decide (r = an_role n) | None => true end
  && (is_empty name || str_eq_ignore_ascii_case (an_name n) name).

Definition find_node (sel : NodeSelector) (s : ActiveViewSnapshot)
    : outcome CoordinatorError AccessibilityNode :=
  match sel with
  | SelectHandle h => outcome_map_err EModel (resolve s h)
  | SelectSemantic window_id role name =>
    match List.find (semantic_match window_id role name) (sn_nodes s) with
    | Some n => Ok n
    | None => Err (EConditionFailed "node does not exist")
    end
  end.

Section coordinator.
Context {W : Type} (backend : DesktopBackend W).
(** Unicode lower-casing, [{condition:?}] and [error.to_string()]. *)
Context (to_lowercase : string → string) (condition_debug : DesktopCondition → string).
Context (error_text : CoordinatorError → string).
(** [Instant::now()] in nanoseconds, and [sleep]. *)
Context (now : W → Z) (sleep : N → W → W).

Definition DM : Type → Type := M W CoordinatorError.

Definition from_backend {A} (m : M W BackendError A) : DM A := map_err EBackend m.

(** The [satisfied] of [verify_condition]; a lookup that fails is an early return. *)
Definition condition_satisfied (c : DesktopCondition) (s : ActiveViewSnapshot)
    : outcome CoordinatorError bool :=
  match c with
  | NodeExists target => Ok (is_ok (find_node target s))
  | NodeFocused target =>
    n ← find_node target s; Ok (bool_decide (SFocused ∈ an_states n))
  | NodeValueContains target text =>
    n ← find_node target s;
    Ok match an_value n with Some value => str_contains value text | None => false end
  | NodeValueEquals target text =>
    n ← find_node target s; Ok (bool_decide (an_value n = Some text))
  | ApplicationActive application_id =>
    Ok (str_eq_ignore_ascii_case (av_application_id (sn_view s)) application_id)
  | WindowTitleContains text =>
    Ok (str_contains (to_lowercase (av_title (sn_view s))) (to_lowercase text))
  | WindowExists window_id => Ok (bool_decide (av_window_id (sn_view s) = window_id))
  end.

Definition verify_condition (c : DesktopCondition) (s : ActiveViewSnapshot)
    : outcome CoordinatorError () :=
  satisfied ← condition_satisfied c s;
  if satisfied : bool then Ok () else Err (EConditionFailed (condition_debug c)).

Definition verify_postcondition (before after : ActiveViewSnapshot) (p : Postcondition)
    : outcome CoordinatorError () :=
  match p with
  | PostCondition c => verify_condition c after
  | GenerationAdvanced =>
    ensure_not (generation_le (sn_generation after) (sn_generation before))
      (EConditionFailed "desktop generation did not advance")
  | ApplicationLaunched application_id => verify_condition (ApplicationActive application_id) after
  end.

Definition verify_postconditions (l : list Postcondition) (before after : ActiveViewSnapshot)
    : outcome CoordinatorError () :=
  try_for_each (verify_postcondition before after) l.

Definition snapshot (privacy : ScreenPrivacyPolicy) (scope : CaptureScope) : DM ActiveViewSnapshot :=
  w ← get;
  _ ← lift (require_permission (pr_accessibility (bs_permissions (be_status backend w)))
        "accessibility");
  ob ← from_backend (be_active_view backend);
  _ ← lift (outcome_map_err EPrivacy (privacy_authorize to_lowercase privacy scope (ob_view ob)));
  nodes ← from_backend (be_accessibility_nodes backend (ob_view ob) (ob_generation ob));
  w ← get;
  let s := mkActiveViewSnapshot (ob_generation ob) (ob_observed_at_unix_ms ob) (ob_view ob)
    (if policy_redact_semantics privacy (av_application_id (ob_view ob))
     then redact_semantics nodes else nodes)
    None (pl_accessibility_backend (bs_plan (be_status backend w))) [] in
  _ ← lift (outcome_map_err EModel (snapshot_validate s));
  mret s.

Definition capture (privacy : ScreenPrivacyPolicy) (scope : CaptureScope) (s : ActiveViewSnapshot)
    : DM CapturedFrame :=
  _ ← lift (outcome_map_err EModel (snapshot_validate s));
  _ ← lift (outcome_map_err EPrivacy (privacy_authorize to_lowercase privacy scope (sn_view s)));
  w ← get;
  _ ← lift (require_permission (pr_screen_capture (bs_permissions (be_status backend w)))
        "screen capture");
  frame ← from_backend (be_capture_frame backend scope (sn_generation s)
                          (pp_redacted_regions privacy));
  _ ← lift (outcome_map_err EModel (frame_validate frame (sn_generation s)));
  let required := N.of_nat (length (pp_redacted_regions privacy)) in
  _ ← reject_if (u32_max <? required)%N (EBackend (InvalidData "too many privacy redactions"));
  _ ← reject_if (sf_redacted_regions (cf_descriptor frame) <? required)%N
        (EBackend (InvalidData "native capture did not attest every requested redaction"));
  mret frame.

Definition is_launch (a : DesktopAction) : bool := match a with Launch _ => true | _ => false end.

Definition unverified (r : DesktopActionRequest) (evidence : NativeActionEvidence)
    (e : CoordinatorError) : CoordinatorError :=
  EUnverifiedEffect (mkUnverifiedDesktopEffect (dr_request_id r) evidence (error_text e)).

Definition execute_effect (privacy : ScreenPrivacyPolicy) (r : DesktopActionRequest)
    (before : ActiveViewSnapshot) : DM DesktopActionOutcome :=
  w ← get;
  _ ← (if is_launch (dr_action r) then mret ()
       else lift (require_permission (pr_input_control (bs_permissions (be_status backend w)))
                    "input control"));
  evidence ← from_backend (be_execute_native backend (dr_action r) (sn_generation before));
  after ← map_err (unverified r evidence) (snapshot privacy ScopeActiveWindow);
  _ ← lift (outcome_map_err (unverified r evidence)
        (verify_postconditions (dr_postconditions r) before after));
  w ← get;
  mret (mkDesktopActionOutcome
    (mkDesktopActionReceipt (dr_request_id r) (action_effect (dr_action r))
       (pl_input_backend (bs_plan (be_status backend w))) (sn_generation before)
       (sn_generation after) (Some evidence) (length (dr_postconditions r)) true)
    after None).

(** The polling loop of [wait_for]; [None] when the fuel runs out. *)
Fixpoint wait_loop (fuel : nat) (privacy : ScreenPrivacyPolicy) (c : DesktopCondition)
    (timeout_ms poll_interval_ms : N) (deadline : Z) (w : W)
    : option (outcome CoordinatorError ActiveViewSnapshot * W) :=
  match fuel with
  | O => None
  | S fuel =>
    if (deadline <=? now w)%Z then Some (Err (EWaitTimeout timeout_ms), w)
    else
      match snapshot privacy ScopeActiveWindow (sleep poll_interval_ms w) with
      | (Ok s, w') =>
        if is_ok (verify_condition c s) then Some (Ok s, w')
        else wait_loop fuel privacy c timeout_ms poll_interval_ms deadline w'
      | other => Some other
      end
  end.

Definition wait_fuel (timeout_ms poll_interval_ms : N) : nat :=
  S (S (N.to_nat (timeout_ms / poll_interval_ms))).

Definition wait_for (privacy : ScreenPrivacyPolicy) (c : DesktopCondition)
    (timeout_ms poll_interval_ms : N) (initial : ActiveViewSnapshot) : DM ActiveViewSnapshot :=
  if is_ok (verify_condition c initial) then mret initial
  else λ w,
    match wait_loop (wait_fuel timeout_ms poll_interval_ms) privacy c timeout_ms poll_interval_ms
            (now w + Z.of_N timeout_ms * 1000000) w with
    | Some result => result
    | None => (Panic, w)
    end.

(** The match of [execute] on the action. *)
Definition dispatch_action (privacy : ScreenPrivacyPolicy) (r : DesktopActionRequest)
    (before : ActiveViewSnapshot) : DM DesktopActionOutcome :=
  match dr_action r with
  | Inspect _ => mret (observe_outcome r before None)
  | Capture scope =>
    frame ← capture privacy scope before;
    let s := mkActiveViewSnapshot (sn_generation before) (sn_observed_at_unix_ms before)
      (sn_view before) (sn_nodes before) (Some (cf_descriptor frame)) (sn_backend before)
      (sn_degraded_reasons before) in
    mret (observe_outcome r s (Some frame))
  | Assert c =>
    _ ← lift (verify_condition c before);
    mret (observe_outcome r before None)
  | WaitFor c timeout_ms poll_interval_ms =>
    s ← wait_for privacy c timeout_ms poll_interval_ms before;
    mret (observe_outcome r s None)
  | Click _ _ _ | TypeText _ _ _ | Scroll _ _ _ | Focus _ | Launch _ | Drag _ _ =>
    execute_effect privacy r before
  end.

Definition execute (privacy : ScreenPrivacyPolicy) (r : DesktopActionRequest)
    (before : ActiveViewSnapshot) : DM DesktopActionOutcome :=
  _ ← lift (outcome_map_err EValidation (request_validate r));
  _ ← lift (outcome_map_err EModel (snapshot_validate before));
  _ ← lift (outcome_map_err EPrivacy
        (privacy_authorize to_lowercase privacy ScopeActiveWindow (sn_view before)));
  _ ← lift (outcome_map_err EModel
        (try_for_each (check_target before) (target_handles (dr_action r))));
  _ ← lift (preflight_semantic_action (dr_action r) before);
  dispatch_action privacy r before.
End coordinator.

(** ** Theorems *)

Section theorems.
Context {W : Type} (backend : DesktopBackend W).
Context (to_lowercase : string → string) (condition_debug : DesktopCondition → string).
Context (error_text : CoordinatorError → string).
Context (now : W → Z) (sleep : N → W → W).

Abbreviation snapshot := (snapshot backend to_lowercase).
Abbreviation capture := (capture backend to_lowercase).
Abbreviation verify_postcondition := (verify_postcondition to_lowercase condition_debug).
Abbreviation execute := (execute backend to_lowercase condition_debug error_text now sleep).
Abbreviation wait_loop := (wait_loop backend to_lowercase condition_debug now sleep).

Lemma require_permission_ok p c : require_permission p c = Ok () ↔ p = Granted.
Proof. by destruct p. Qed.

(** A node with nothing left to read. *)
Definition blank_node (n : AccessibilityNode) : Prop :=
  an_name n = "" ∧ an_description n = None ∧ an_value n = None ∧ an_properties n = ∅.

(** C31: snapshots respect the privacy policy.  A snapshot the coordinator returns
    is of a view the policy authorizes, taken with the accessibility permission
    granted, well formed (so no password field carries a value), and of an
    application whose semantics are redacted only with the names, descriptions,
    values and properties of all its nodes cleared. *)
Theorem snapshots_respect_privacy privacy scope w s w' :
  snapshot privacy scope w = (Ok s, w') →
  pr_accessibility (bs_permissions (be_status backend w)) = Granted ∧
  privacy_authorize to_lowercase privacy scope (sn_view s) = Ok () ∧
  snapshot_ok s ∧
  (∀ n, n ∈ sn_nodes s → SPassword ∈ an_states n → an_value n = None) ∧
  (policy_redact_semantics privacy (av_application_id (sn_view s)) = true →
     ∀ n, n ∈ sn_nodes s → blank_node n).
Proof.
  unfold DesktopCoordinator.snapshot, from_backend, map_err. munfold. intros Hrun.
  destruct (require_permission _ _) as [[]|e|] eqn:Hperm; [|done..].
  destruct (be_active_view backend w) as [[ob|e|] w1]; [|done..].
  destruct (privacy_authorize _ _ _ _) as [[]|e|] eqn:Hpriv; [|done..]. simpl in Hrun.
  destruct (be_accessibility_nodes _ _ _ _) as [[nodes|e|] w2]; [|done..].
  destruct (snapshot_validate _) as [[]|e|] eqn:Hval; [|done..]. simplify_eq/=.
  apply snapshot_validation_iff in Hval.
  apply require_permission_ok in Hperm. split_and!; [done..| |].
  - intros n Hn. by apply Hval.
  - intros Hred n. rewrite Hred. intros (m & -> & _)%list_elem_of_fmap. done.
Qed.

(** Captured frames respect the privacy policy.  A frame is returned only for
    a scope the policy authorizes, with the capture permission granted; it belongs
    to the snapshot's generation, holds exactly four bytes per pixel of a
    non-empty image whose size does not overflow, and attests at least as many
    redactions as the policy demands. *)
Theorem captures_respect_privacy privacy scope s w f w' :
  capture privacy scope s w = (Ok f, w') →
  snapshot_ok s ∧
  privacy_authorize to_lowercase privacy scope (sn_view s) = Ok () ∧
  pr_screen_capture (bs_permissions (be_status backend w)) = Granted ∧
  be_capture_frame backend scope (sn_generation s) (pp_redacted_regions privacy) w = (Ok f, w') ∧
  cf_generation f = sn_generation s ∧
  (0 < sf_width (cf_descriptor f) * sf_height (cf_descriptor f))%N ∧
  N.of_nat (length (cf_bytes f)) = (sf_width (cf_descriptor f) * sf_height (cf_descriptor f) * 4)%N ∧
  (N.of_nat (length (cf_bytes f)) ≤ u64_max)%N ∧
  (N.of_nat (length (pp_redacted_regions privacy)) ≤ sf_redacted_regions (cf_descriptor f))%N.
Proof.
  unfold DesktopCoordinator.capture, from_backend, map_err. munfold. intros Hrun.
  destruct (snapshot_validate s) as [[]|e|] eqn:Hval; [|done..]. simpl in Hrun.
  destruct (privacy_authorize _ _ _ _) as [[]|e|] eqn:Hpriv; [|done..]. simpl in Hrun.
  destruct (require_permission _ _) as [[]|e|] eqn:Hperm; [|done..].
  destruct (be_capture_frame _ _ _ _ _) as [[fr|e|] w1] eqn:Hcap; [|done..].
  destruct (frame_validate _ _) as [[]|e|] eqn:Hframe; [|done..]. simpl in Hrun.
  destruct (u32_max <? _)%N; munfold; [done|].
  destruct (_ <? _)%N eqn:Hred; munfold; [done|]. simplify_eq.
  apply require_permission_ok in Hperm. apply snapshot_validation_iff in Hval.
  apply frame_validate_ok in Hframe as (? & ? & ? & Hlen & ?). apply N.ltb_ge in Hred.
  split_and!; try done; [nia|lia].
Qed.

(** ** Effects *)

(** Everything that is checked before the native bridge is called. *)
Record gates_pass (privacy : ScreenPrivacyPolicy) (r : DesktopActionRequest)
    (before : ActiveViewSnapshot) (w : W) : Prop := {
  gp_request : request_validate r = Ok ();
  gp_snapshot : snapshot_ok before;
  gp_privacy : privacy_authorize to_lowercase privacy ScopeActiveWindow (sn_view before) = Ok ();
  gp_targets h : h ∈ target_handles (dr_action r) → ∃ n, resolve before h = Ok n;
  gp_preflight : preflight_semantic_action (dr_action r) before = Ok ();
  gp_permission : is_launch (dr_action r) = false →
    pr_input_control (bs_permissions (be_status backend w)) = Granted;
}.

(** What follows the native call. *)
Definition after_native (privacy : ScreenPrivacyPolicy) (r : DesktopActionRequest)
    (before : ActiveViewSnapshot) (evidence : NativeActionEvidence) : DM DesktopActionOutcome :=
  after ← map_err (unverified error_text r evidence) (snapshot privacy ScopeActiveWindow);
  _ ← lift (outcome_map_err (unverified error_text r evidence)
        (verify_postconditions to_lowercase condition_debug (dr_postconditions r) before after));
  w ← get;
  mret (mkDesktopActionOutcome
    (mkDesktopActionReceipt (dr_request_id r) (action_effect (dr_action r))
       (pl_input_backend (bs_plan (be_status backend w))) (sn_generation before)
       (sn_generation after) (Some evidence) (length (dr_postconditions r)) true)
    after None).

Lemma targets_resolve s l :
  try_for_each (check_target s) l = Ok () ↔ ∀ h, h ∈ l → ∃ n, resolve s h = Ok n.
Proof.
  rewrite try_for_each_ok. unfold check_target. split; intros Hall h Hh; specialize (Hall h Hh).
  - apply outcome_bind_ok in Hall as (n & ? & _). eauto.
  - destruct Hall as [n Hn]. apply outcome_bind_ok. eauto.
Qed.

(** The checks return: a value or an error. *)
Definition returns {E A} (o : outcome E A) : Prop := o ≠ Panic.

Lemma returns_ensure {E} b (e : E) : returns (ensure_not b e).
Proof. by destruct b. Qed.
Lemma returns_bind {E A B} (m : outcome E A) (k : A → outcome E B) :
  returns m → (∀ a, returns (k a)) → returns (m ≫= k).
Proof. unfold returns, mbind, outcome_bind. destruct m; naive_solver. Qed.
Lemma returns_for_each {E A} (f : A → outcome E ()) l :
  (∀ x, returns (f x)) → returns (try_for_each f l).
Proof. intros Hf. induction l as [|x l IH]; [done|]. simpl. by apply returns_bind. Qed.
Lemma returns_map_err {E F A} (f : E → F) (o : outcome E A) :
  returns o → returns (outcome_map_err f o).
Proof. by destruct o. Qed.
Lemma returns_validate_handle s h : returns (validate_handle s h).
Proof. repeat (apply returns_bind; [apply returns_ensure|intros []]). apply returns_ensure. Qed.
Lemma returns_resolve s h : returns (resolve s h).
Proof. apply returns_bind; [apply returns_validate_handle|]. intros []. by case_match. Qed.
Lemma returns_condition c : returns (validate_condition c).
Proof. unfold validate_condition. by destruct c; repeat case_match. Qed.
Create HintDb returning.
Hint Resolve returns_ensure returns_bind returns_for_each returns_map_err returns_validate_handle
  returns_resolve returns_condition : returning.

Lemma returns_request r : returns (request_validate r).
Proof.
  unfold request_validate. apply returns_bind; [auto with returning|intros _].
  apply returns_bind; [|intros _; apply returns_bind; auto with returning].
  - unfold action_validate, application_validate. destruct (dr_action r); try done;
      auto 10 with returning.
  - apply returns_map_err. unfold authorize. auto 10 with returning.
Qed.
Lemma returns_snapshot s : returns (snapshot_validate s).
Proof.
  unfold snapshot_validate. do 3 (apply returns_bind; [auto with returning|intros _]).
  apply returns_bind; [|intros _; case_match; [|done]; unfold validate_edge; auto with returning].
  apply returns_for_each. intros n. unfold validate_node, validate_edge. auto 12 with returning.
Qed.
Lemma returns_privacy p scope v : returns (privacy_authorize to_lowercase p scope v).
Proof. unfold privacy_authorize. auto 12 with returning. Qed.
Lemma returns_preflight a s : returns (preflight_semantic_action a s).
Proof.
  unfold preflight_semantic_action. destruct (required_action a) as [[[t q] l]|]; [|done].
  auto 10 with returning.
Qed.
Lemma returns_permission p c : returns (require_permission p c).
Proof. by destruct p. Qed.

(** An effectful request either stops at a gate, with the world untouched, or
    passes them all and calls the native bridge once. *)
Lemma execute_effect_cases privacy r before w :
  action_effect (dr_action r) ≠ DObserve →
  (¬ gates_pass privacy r before w ∧ ∃ e, execute privacy r before w = (Err e, w)) ∨
  (gates_pass privacy r before w ∧
   execute privacy r before w =
     match be_execute_native backend (dr_action r) (sn_generation before) w with
     | (Ok evidence, w1) => after_native privacy r before evidence w1
     | (Err e, w1) => (Err (EBackend e), w1)
     | (Panic, w1) => (Panic, w1)
     end).
Proof.
  intros Heff. unfold DesktopCoordinator.execute. munfold.
  pose proof (returns_request r) as R1. destruct (request_validate r) as [[]|e|] eqn:H1;
    [|left; split; [intros []; congruence|by eauto]|done].
  pose proof (returns_snapshot before) as R2. destruct (snapshot_validate before) as [[]|e|] eqn:H2;
    [apply snapshot_validation_iff in H2|left; split; [intros []|by eauto]|done].
  2:{ rewrite <- snapshot_validation_iff in *. congruence. }
  simpl. pose proof (returns_privacy privacy ScopeActiveWindow (sn_view before)) as R3.
  destruct (privacy_authorize _ _ _ _) as [[]|e|] eqn:H3;
    [|left; split; [intros []; congruence|by eauto]|done]. simpl.
  destruct (try_for_each _ _) as [[]|e|] eqn:H4;
    [rewrite targets_resolve in H4|left; split; [intros [_ _ _ Ht _ _]|by eauto]|exfalso].
  2:{ apply targets_resolve in Ht. congruence. }
  2:{ revert H4. apply returns_for_each. intros h. unfold check_target. auto with returning. }
  simpl. pose proof (returns_preflight (dr_action r) before) as R5.
  destruct (preflight_semantic_action _ _) as [[]|e|] eqn:H5;
    [|left; split; [intros []; congruence|by eauto]|done]. simpl.
  replace (dispatch_action _ _ _ _ _ _ privacy r before w) with
    (execute_effect backend to_lowercase condition_debug error_text privacy r before w)
    by (unfold dispatch_action; by destruct (dr_action r)).
  unfold execute_effect, from_backend, map_err. munfold.
  pose proof (returns_permission (pr_input_control (bs_permissions (be_status backend w)))
    "input control") as R6.
  destruct (is_launch (dr_action r)) eqn:Hl; munfold.
  - right. split; [split; try done; congruence|].
    by destruct (be_execute_native _ _ _ _) as [[ev|e|] w1].
  - destruct (require_permission _ _) as [[]|e|] eqn:H6; [|left; split; [|by eauto]|done].
    + apply require_permission_ok in H6. right. split; [by split|].
      by destruct (be_execute_native _ _ _ _) as [[ev|e|] w1].
    + intros [_ _ _ _ _ Hp]. specialize (Hp Hl). rewrite Hp in H6. done.
Qed.

(** After the native call, a success carries a fresh, valid snapshot that
    satisfies every postcondition, and a failure is an unverified effect. *)
Lemma after_native_cases privacy r before evidence w1 o w' :
  after_native privacy r before evidence w1 = (o, w') →
  match o with
  | Ok out =>
    snapshot privacy ScopeActiveWindow w1 = (Ok (do_snapshot out), w') ∧
    (∀ p, p ∈ dr_postconditions r → verify_postcondition before (do_snapshot out) p = Ok ()) ∧
    do_receipt out = mkDesktopActionReceipt (dr_request_id r) (action_effect (dr_action r))
      (pl_input_backend (bs_plan (be_status backend w'))) (sn_generation before)
      (sn_generation (do_snapshot out)) (Some evidence) (length (dr_postconditions r)) true
  | Err e => ∃ reason,
      e = EUnverifiedEffect (mkUnverifiedDesktopEffect (dr_request_id r) evidence reason)
  | Panic => True
  end.
Proof.
  unfold after_native, map_err. munfold. intros Hrun.
  destruct (snapshot privacy ScopeActiveWindow w1) as [[after|e|] w2] eqn:Hsnap; simplify_eq;
    [|by eexists|done].
  destruct (verify_postconditions _ _ _ _ _) as [[]|e|] eqn:Hver; simplify_eq/=; [|by eexists|done].
  split_and!; [done| |done]. by apply try_for_each_ok.
Qed.

(** C10: desktop effects are gated, verified and never silently uncertain.  For an
    action with an effect: unless the request, the snapshot, the privacy policy,
    the target handles, the semantic preflight and the input permission all pass,
    [execute] is an error and the world is untouched; a success means the approved
    effect was performed by one native call for a present user, and a fresh valid
    snapshot satisfies all of at least one postcondition, as the receipt says; and
    once the native call has succeeded, any error is an unverified effect that
    carries its evidence. *)
Theorem desktop_effects_are_gated_and_verified privacy r before w :
  action_effect (dr_action r) ≠ DObserve →
  (¬ gates_pass privacy r before w → ∃ e, execute privacy r before w = (Err e, w)) ∧
  (∀ out w', execute privacy r before w = (Ok out, w') →
     gates_pass privacy r before w ∧
     action_effect (dr_action r) ∈ aa_approved_effects (dr_authorization r) ∧
     aa_user_present (dr_authorization r) = true ∧
     dr_postconditions r ≠ [] ∧
     ∃ evidence w1,
       be_execute_native backend (dr_action r) (sn_generation before) w = (Ok evidence, w1) ∧
       snapshot privacy ScopeActiveWindow w1 = (Ok (do_snapshot out), w') ∧
       (∀ p, p ∈ dr_postconditions r → verify_postcondition before (do_snapshot out) p = Ok ()) ∧
       rc_native_evidence (do_receipt out) = Some evidence ∧ rc_verified (do_receipt out) = true ∧
       rc_verified_postconditions (do_receipt out) = length (dr_postconditions r)) ∧
  (∀ evidence w1 e w',
     gates_pass privacy r before w →
     be_execute_native backend (dr_action r) (sn_generation before) w = (Ok evidence, w1) →
     execute privacy r before w = (Err e, w') →
     ∃ reason, e = EUnverifiedEffect (mkUnverifiedDesktopEffect (dr_request_id r) evidence reason)).
Proof.
  intros Heff. destruct (execute_effect_cases privacy r before w Heff)
    as [[Hno [e He]]|[Hg Hex]]; [split_and!; [by eauto|congruence|done]|].
  split_and!; [done| |].
  - intros out w' Hrun. split; [done|]. rewrite Hex in Hrun.
    destruct (request_validate_ok _ (gp_request _ _ _ _ Hg)) as (_ & _ & Hauth & Hpost).
    apply authorize_ok in Hauth as (Happ & Hpres & _). split_and!; [done|auto|auto|].
    destruct (be_execute_native _ _ _ _) as [[ev|e|] w1]; [|done..].
    destruct (after_native_cases _ _ _ _ _ _ _ Hrun) as (Hsnap & Hver & Hrec).
    exists ev, w1. by rewrite Hrec.
  - intros ev w1 e w' _ Hnat Hrun. rewrite Hex, Hnat in Hrun.
    exact (after_native_cases _ _ _ _ _ _ _ Hrun).
Qed.

(** Typing is confined to approved, editable, non-secret fields.  Text reaches
    the native bridge only with the text approval of the request, and only for a
    node of the validated snapshot that exposes the editing action, is editable
    and is not a password field. *)
Theorem typing_is_confined privacy r before w target text replace :
  dr_action r = TypeText target text replace →
  gates_pass privacy r before w →
  aa_sensitive_text_approved (dr_authorization r) = true ∧ text ≠ "" ∧
  ∃ n, n ∈ sn_nodes before ∧ an_handle n = target ∧ SEditable ∈ an_states n ∧
    SPassword ∉ an_states n ∧
    (if replace then AReplaceSelection else ASetValue) ∈ an_actions n.
Proof.
  intros Ha Hg. destruct (request_validate_ok _ (gp_request _ _ _ _ Hg)) as (_ & Hval & Hauth & _).
  apply authorize_ok in Hauth as (_ & _ & Htext). rewrite Ha in Hval, Htext.
  split; [by apply Htext|]. split.
  { simpl in Hval. unfold is_empty in Hval. by case_bool_decide. }
  pose proof (gp_preflight _ _ _ _ Hg) as Hpre. rewrite Ha in Hpre.
  unfold preflight_semantic_action in Hpre. simpl in Hpre.
  apply outcome_bind_ok in Hpre as (n & Hres%outcome_map_err_ok & Hpre).
  apply outcome_seq_ok in Hpre as [Hact Hed]. apply ensure_not_ok in Hact, Hed.
  apply negb_false_iff, bool_decide_eq_true in Hact.
  apply resolve_ok in Hres as (? & ? & _). simpl in Hed.
  apply orb_false_iff in Hed as [He%negb_false_iff Hs].
  apply bool_decide_eq_true in He. unfold is_sensitive in Hs. apply bool_decide_eq_false in Hs.
  by exists n.
Qed.

(** An observation reports its postconditions as verified without looking at
    them: an inspection of a valid snapshot succeeds with whatever postconditions
    the request lists, and its receipt counts them all. *)
Lemma inspection_counts_unchecked_postconditions privacy before w id post :
  is_blank id = false → (str_len id ≤ 256)%N → snapshot_ok before →
  privacy_authorize to_lowercase privacy ScopeActiveWindow (sn_view before) = Ok () →
  ∃ out, execute privacy (mkDesktopActionRequest id (Inspect InspectActiveView) observe_only post)
           before w = (Ok out, w) ∧
    rc_verified_postconditions (do_receipt out) = length post ∧ rc_verified (do_receipt out) = true.
Proof.
  intros Hid Hlen Hs%snapshot_validation_iff Hp. eexists.
  unfold DesktopCoordinator.execute, request_validate. simpl. munfold. rewrite Hid.
  rewrite (proj2 (N.ltb_ge _ _) Hlen). simpl. rewrite Hs. simpl. rewrite Hp. simpl. done.
Qed.
End theorems.

(** ** Waiting

    [Instant] is monotonic, and [sleep] lasts at least the requested time. *)
Section waiting.
Context {W : Type} (backend : DesktopBackend W).
Context (to_lowercase : string → string) (condition_debug : DesktopCondition → string).
Context (now : W → Z) (sleep : N → W → W).
Context (sleep_lasts : ∀ ms w, (now w + Z.of_N ms * 1000000 ≤ now (sleep ms w))%Z).
Context (view_monotone : ∀ w, (now w ≤ now (be_active_view backend w).2)%Z).
Context (nodes_monotone : ∀ v g w, (now w ≤ now (be_accessibility_nodes backend v g w).2)%Z).

Lemma snapshot_monotone privacy scope w :
  (now w ≤ now (snapshot backend to_lowercase privacy scope w).2)%Z.
Proof.
  unfold snapshot, from_backend, map_err. munfold.
  destruct (require_permission _ _) as [[]|e|]; simpl; [|lia..].
  pose proof (view_monotone w) as H1. destruct (be_active_view backend w) as [[ob|e|] w1];
    simpl in *; [|lia..].
  destruct (privacy_authorize _ _ _ _) as [[]|e|]; simpl; [|lia..].
  pose proof (nodes_monotone (ob_view ob) (ob_generation ob) w1) as H2.
  destruct (be_accessibility_nodes _ _ _ _) as [[nodes|e|] w2]; simpl in *; [|lia..].
  destruct (snapshot_validate _) as [[]|e|]; simpl; lia.
Qed.

Lemma snapshot_never_times_out privacy scope w t :
  (snapshot backend to_lowercase privacy scope w).1 ≠ Err (EWaitTimeout t).
Proof.
  unfold snapshot, from_backend, map_err. munfold.
  destruct (require_permission _ _) as [[]|e|] eqn:Hp; simpl; [| |done].
  2:{ unfold require_permission in Hp. repeat case_match; congruence. }
  destruct (be_active_view backend w) as [[ob|e|] w1]; simpl; [|done..].
  destruct (privacy_authorize _ _ _ _) as [[]|e|]; simpl; [|done..].
  destruct (be_accessibility_nodes _ _ _ _) as [[nodes|e|] w2]; simpl; [|done..].
  by destruct (snapshot_validate _) as [[]|e|].
Qed.

Lemma wait_loop_returns fuel privacy c timeout poll deadline w :
  (deadline - now w ≤ Z.of_nat fuel * (Z.of_N poll * 1000000))%Z →
  ∃ o w', wait_loop backend to_lowercase condition_debug now sleep (S fuel) privacy c timeout poll
      deadline w = Some (o, w') ∧
    match o with
    | Ok s => verify_condition to_lowercase condition_debug c s = Ok ()
    | Err (EWaitTimeout t) => t = timeout ∧ (deadline ≤ now w')%Z
    | _ => True
    end.
Proof.
  revert w. induction fuel as [|fuel IH]; intros w Hfuel; cbn [wait_loop];
    destruct (deadline <=? now w)%Z eqn:Hd;
    try (apply Z.leb_le in Hd; eexists _, _; split; [done|]; simpl; done).
  { apply Z.leb_gt in Hd. lia. }
  pose proof (snapshot_never_times_out privacy ScopeActiveWindow (sleep poll w)) as Hno.
  pose proof (snapshot_monotone privacy ScopeActiveWindow (sleep poll w)) as Hmono.
  pose proof (sleep_lasts poll w) as Hsleep.
  destruct (snapshot _ _ _ _ _) as [[s|e|] w1]; simpl in Hno, Hmono.
  - destruct (verify_condition to_lowercase condition_debug c s) as [[]|e|] eqn:Hv; simpl.
    + by eexists _, _.
    + apply IH. lia.
    + apply IH. lia.
  - eexists _, _. split; [done|]. destruct e; try done. by destruct (Hno timeout_ms).
  - by eexists _, _.
Qed.

(** C32: waiting terminates.  With a monotonic clock and a sleep that lasts, a wait
    with a positive poll interval ends after at most [timeout / interval + 2]
    rounds: with a fresh snapshot that satisfies the condition, with the error of
    a failed snapshot, or with a timeout reported only once the deadline passed. *)
Theorem waiting_terminates privacy c timeout poll w :
  (0 < poll)%N →
  let deadline := (now w + Z.of_N timeout * 1000000)%Z in
  ∃ o w', wait_loop backend to_lowercase condition_debug now sleep (wait_fuel timeout poll)
      privacy c timeout poll deadline w = Some (o, w') ∧
    match o with
    | Ok s => verify_condition to_lowercase condition_debug c s = Ok ()
    | Err (EWaitTimeout t) => t = timeout ∧ (deadline ≤ now w')%Z
    | _ => True
    end.
Proof.
  intros Hpoll deadline. apply wait_loop_returns. subst deadline.
  pose proof (N.mul_succ_div_gt timeout poll ltac:(lia)) as Hdiv.
  generalize dependent (timeout / poll)%N. intros q Hdiv. nia.
Qed.
End waiting.

(** ** Concrete instances

    A one-button desktop: the world is the number of native calls and the clock. *)

Definition desk_gen (n : nat) : SnapshotGeneration := mkSnapshotGeneration 0 (N.of_nat n).
Definition desk_handle (n : nat) : NodeHandle := mkNodeHandle "win" (desk_gen n) "ok".
Definition desk_node (states : list NodeState) (actions : list NodeAction) (n : nat)
    : AccessibilityNode :=
  mkAccessibilityNode (desk_handle n) RButton "OK" None None None states actions None [] ∅.
Definition desk_view : ActiveView :=
  mkActiveView "org.app" "App" None "win" "Main" None None false.
Definition desk_backend : DesktopBackend (nat * Z) :=
  mkDesktopBackend
    (λ _, mkDesktopBackendStatus (mkDesktopBackendPlan PLinux "pipewire" "at-spi" "portal" "xdg") true
       (mkDesktopPermissionReport Granted Granted Granted) "")
    (λ w, (Ok (mkActiveViewObservation (desk_gen w.1) 0 desk_view), w))
    (λ _ _ w, (Ok [desk_node [SEnabled; SEditable] [APress; ASetValue] w.1], w))
    (λ _ g _ w, (Ok (mkCapturedFrame g (mkScreenFrameDescriptor "f" 1 1 1000 Rgba8 0)
                       (bytes "rgba")), w))
    (λ _ _ w, (Ok (mkNativeActionEvidence "press" None true), (S w.1, w.2))).
Definition desk_policy : ScreenPrivacyPolicy := mkScreenPrivacyPolicy true false true [] [] ["ORG.APP"].
Definition desk_snapshot : ActiveViewSnapshot :=
  mkActiveViewSnapshot (desk_gen 0) 0 desk_view
    [desk_node [SEnabled; SEditable] [APress; ASetValue] 0] None "at-spi" [].
Definition desk_request (a : DesktopAction) : DesktopActionRequest :=
  mkDesktopActionRequest "req-1" a
    (mkActionAuthorization true [DInteract; DWriteText] true) [GenerationAdvanced].
Definition desk_execute (a : DesktopAction) : M (nat * Z) CoordinatorError DesktopActionOutcome :=
  execute desk_backend (λ s, s) (λ _, "") (λ _, "") snd (λ ms w, (w.1, (w.2 + Z.of_N ms * 1000000)%Z))
    desk_policy (desk_request a) desk_snapshot.

Lemma snapshots_respect_privacy_witness :
  ∃ s w', snapshot desk_backend (λ s, s) desk_policy ScopeActiveWindow (3, 0%Z) = (Ok s, w') ∧
    ∀ n, n ∈ sn_nodes s → blank_node n.
Proof.
  eexists _, _. split; [vm_compute; reflexivity|].
  edestruct (snapshots_respect_privacy desk_backend (λ s, s) desk_policy ScopeActiveWindow (3, 0%Z))
    as (_ & _ & _ & _ & Hred); [vm_compute; reflexivity|]. apply Hred. vm_compute. reflexivity.
Defined.

Lemma captures_respect_privacy_witness :
  ∃ f w', capture desk_backend (λ s, s) desk_policy ScopeActiveWindow desk_snapshot (3, 0%Z)
      = (Ok f, w') ∧ N.of_nat (length (cf_bytes f)) = 4%N.
Proof.
  eexists _, _. split; [vm_compute; reflexivity|].
  edestruct (captures_respect_privacy desk_backend (λ s, s) desk_policy ScopeActiveWindow
    desk_snapshot (3, 0%Z)) as (_ & _ & _ & _ & _ & _ & Hlen & _); [vm_compute; reflexivity|].
  exact Hlen.
Defined.

Lemma desk_gates a :
  a = Click (desk_handle 0) Primary 1 ∨ a = TypeText (desk_handle 0) "hi" false →
  gates_pass desk_backend (λ s, s) desk_policy (desk_request a) desk_snapshot (0, 0%Z).
Proof.
  intros Ha. split.
  - by destruct Ha as [-> | ->]; vm_compute.
  - apply snapshot_validation_iff. by vm_compute.
  - by vm_compute.
  - intros h Hh. exists (desk_node [SEnabled; SEditable] [APress; ASetValue] 0).
    destruct Ha as [-> | ->]; apply list_elem_of_singleton in Hh as ->; by vm_compute.
  - by destruct Ha as [-> | ->]; vm_compute.
  - done.
Qed.

Lemma desktop_effects_are_gated_and_verified_witness :
  ∃ out, desk_execute (Click (desk_handle 0) Primary 1) (0, 0%Z) = (Ok out, (1, 0%Z)) ∧
    ∃ evidence, rc_native_evidence (do_receipt out) = Some evidence.
Proof.
  eexists. split; [vm_compute; reflexivity|].
  edestruct (desktop_effects_are_gated_and_verified desk_backend (λ s, s) (λ _, "") (λ _, "") snd
    (λ ms w, (w.1, (w.2 + Z.of_N ms * 1000000)%Z)) desk_policy
    (desk_request (Click (desk_handle 0) Primary 1)) desk_snapshot (0, 0%Z))
    as (_ & Hok & _); [discriminate|].
  edestruct Hok as (_ & _ & _ & _ & ev & w1 & _ & _ & _ & Hev & _); [vm_compute; reflexivity|].
  exists ev. exact Hev.
Defined.

Lemma typing_is_confined_witness :
  ∃ n, n ∈ sn_nodes desk_snapshot ∧ an_handle n = desk_handle 0 ∧ SPassword ∉ an_states n.
Proof.
  destruct (typing_is_confined desk_backend (λ s, s) desk_policy
    (desk_request (TypeText (desk_handle 0) "hi" false)) desk_snapshot (0, 0%Z)
    (desk_handle 0) "hi" false) as (_ & _ & n & Hin & Hh & _ & Hp & _);
    [reflexivity|apply desk_gates; by right|]. by exists n.
Defined.

Lemma waiting_terminates_witness :
  ∃ o w', wait_loop desk_backend (λ s, s) (λ _, "") snd
      (λ ms w, (w.1, (w.2 + Z.of_N ms * 1000000)%Z)) (wait_fuel 100 25) desk_policy
      (WindowExists "other") 100 25 100000000 (0, 0%Z) = Some (o, w') ∧ (100000000 ≤ w'.2)%Z.
Proof.
  destruct (waiting_terminates desk_backend (λ s, s) (λ _, "") snd
    (λ ms w, (w.1, (w.2 + Z.of_N ms * 1000000)%Z)) ltac:(simpl; lia) ltac:(simpl; lia)
    ltac:(simpl; lia) desk_policy (WindowExists "other") 100 25 (0, 0%Z)) as (o & w' & Hrun & Ho);
    [lia|].
  exists o, w'. split; [exact Hrun|].
  pose proof Hrun as Hcopy. vm_compute in Hcopy. injection Hcopy as <- <-. by destruct Ho.
Defined.
