(* ===== verification/Memory.v ===== *)
(** * The memory store

    Models [crates/memory/src/lib.rs]: memory records and their trust levels, the
    SQLite recall index that is kept beside the store, hybrid recall, storage rows, and
    the namespace-aware [PersistentMemory] with its writing-style preferences and project
    graph, and the feature-hashing embedder.

    A vector is a list of [f32], each its 32 bits; scores are computed on the IEEE values
    with the operations of the Standard Library's [SpecFloat].  The full-text search of SQLite is a
    parameter ([FullText]), and so are the character tables of Unicode ([CharTables]); the
    tables of the index are modelled, the full-text table in row order. *)

From stdpp Require Import base gmap strings list sorting pretty.
From Stdlib Require Import Ascii SpecFloat.
From S2P Require Import Prelude Text.

(** ** Single precision *)

Definition f32 : Type := N.

Definition f32_val (b : f32) : spec_float :=
  let sign := N.testbit b 31 in
  let e := N.land (N.shiftr b 23) 255 in
  let m := N.land b 8388607 in
  match e, m with
  | 255%N, 0%N => S754_infinity sign
  | 255%N, _ => S754_nan
  | 0%N, 0%N => S754_zero sign
  | 0%N, N.pos p => S754_finite sign p (-149)
  | _, _ =>
    match (m + 8388608)%N with
    | N.pos p => S754_finite sign p (Z.of_N e - 150)
    | 0%N => S754_zero sign
    end
  end.

Definition sign_bit (s : bool) : N := if s then 2147483648 else 0.
Definition f32_bits (v : spec_float) : f32 :=
  match v with
  | S754_zero s => sign_bit s
  | S754_infinity s => sign_bit s + 2139095040
  | S754_nan => 2143289344
  | S754_finite s m e =>
    sign_bit s + if (8388608 <=? N.pos m)%N
                 then Z.to_N (e + 150) * 8388608 + (N.pos m - 8388608) else N.pos m
  end%N.

Definition sf_add (a b : spec_float) : spec_float := SFadd 24 128 a b.
Definition sf_mul (a b : spec_float) : spec_float := SFmul 24 128 a b.
Definition sf_div (a b : spec_float) : spec_float := SFdiv 24 128 a b.
Definition sf_sqrt (a : spec_float) : spec_float := SFsqrt 24 128 a.
Definition sf_of_Z (z : Z) : spec_float := binary_normalize 24 128 z 0 false.
Definition sf_zero : spec_float := S754_zero false.
(** [f32::EPSILON] *)
Definition sf_epsilon : spec_float := binary_normalize 24 128 1 (-23) false.

Definition signed (s : bool) (m : positive) : Z := if s then Z.neg m else Z.pos m.
(** [a.mul_add(b, c)]: one rounding of the exact result. *)
Definition sf_fma (a b c : spec_float) : spec_float :=
  match a, b, c with
  | S754_finite sa ma ea, S754_finite sb mb eb, S754_finite sc mc ec =>
    let e := Z.min (ea + eb) ec in
    let product := (signed sa ma * signed sb mb * 2 ^ (ea + eb - e))%Z in
    let addend := (signed sc mc * 2 ^ (ec - e))%Z in
    binary_normalize 24 128 (product + addend) e false
  | _, _, _ => sf_add (sf_mul a b) c
  end.

(** [to_le_bytes] and [from_le_bytes] *)
Definition to_le_bytes (b : f32) : list N :=
  [N.land b 255; N.land (N.shiftr b 8) 255; N.land (N.shiftr b 16) 255;
   N.land (N.shiftr b 24) 255]%N.
Definition from_le_bytes (a b c d : N) : f32 :=
  (a + 256 * b + 65536 * c + 16777216 * d)%N.

Definition encode_vector (vector : list f32) : list N := vector ≫= to_le_bytes.

Fixpoint decode_chunks (l : list N) : option (list f32) :=
  match l with
  | [] => Some []
  | a :: b :: c :: d :: l => cons (from_le_bytes a b c d) <$> decode_chunks l
  | _ => None
  end.

Definition decode_vector (l : list N) (dimensions : Z) : option (list f32) :=
  if (dimensions <? 0)%Z || negb (Z.of_nat (length l) =? dimensions * 4)%Z then None
  else decode_chunks l.

(** ** Data *)

Inductive MemoryTier : Type := Working | Episodic | Semantic | Procedural | Project | Relationship.

Inductive MemoryTrust : Type :=
  | TrustedUser
  | ReviewedInference
  | ProposedInference
  | BackgroundObservation
  | Recalled.

Record EmbeddingModel : Type := mkEmbeddingModel {
  em_id : string;
  em_version : string;
  em_dimensions : nat;
  em_license : string;
}.

Inductive MemoryError : Type :=
  | Missing (id : Uuid)
  | NotProposed
  | RecursiveExtraction
  | EmbeddingDimensions
  | MissingProvenance
  | MissingEmbeddingProvenance
  | MissingNamespace
  | MissingProjectNode (id : Uuid)
  | DuplicateStorageRow (id : Uuid)
  | UnexpectedEmbeddingProvenance.

Inductive MemoryNamespace : Type :=
  | Global
  | Profile (id : string)
  | ProjectScope (id : string)
  | Conversation (id : string).

Global Instance MemoryTier_eq_dec : EqDecision MemoryTier.
Proof. solve_decision. Defined.
Global Instance MemoryTrust_eq_dec : EqDecision MemoryTrust.
Proof. solve_decision. Defined.
Global Instance MemoryNamespace_eq_dec : EqDecision MemoryNamespace.
Proof. solve_decision. Defined.
Definition namespace_code (n : MemoryNamespace) : nat * string :=
  match n with Global => (0, "") | Profile s => (1, s) | ProjectScope s => (2, s) | Conversation s => (3, s) end.
Definition namespace_decode (p : nat * string) : option MemoryNamespace :=
  match p with
  | (0, _) => Some Global | (1, s) => Some (Profile s) | (2, s) => Some (ProjectScope s)
  | (3, s) => Some (Conversation s) | _ => None
  end.
Global Instance MemoryNamespace_countable : Countable MemoryNamespace.
Proof. apply (inj_countable namespace_code namespace_decode). by intros []. Defined.

Record StylePreference : Type := mkStylePreference {
  sp_id : Uuid;
  sp_namespace : MemoryNamespace;
  sp_description : string;
  sp_examples : list string;
  sp_source_event_ids : list string;
  sp_confidence : f32;
  sp_reviewed : bool;
}.
Global Instance StylePreference_eta : Eta StylePreference :=
  λ r, mkStylePreference (sp_id r) (sp_namespace r) (sp_description r) (sp_examples r)
    (sp_source_event_ids r) (sp_confidence r) (sp_reviewed r).

Record ProjectNode : Type := mkProjectNode {
  pn_id : Uuid;
  pn_namespace : MemoryNamespace;
  pn_kind : string;
  pn_name : string;
  pn_attributes : gmap string string;
  pn_source_event_ids : list string;
}.

Record ProjectRelation : Type := mkProjectRelation {
  pr_from : Uuid;
  pr_relation : string;
  pr_to : Uuid;
  pr_source_event_ids : list string;
}.
Global Instance ProjectRelation_eq_dec : EqDecision ProjectRelation.
Proof. solve_decision. Defined.

Record Memory : Type := mkMemory {
  m_id : Uuid;
  m_tier : MemoryTier;
  m_trust : MemoryTrust;
  m_content : string;
  m_source_event_ids : list string;
  m_confidence : f32;
  m_sensitivity : string;
  m_created_at : DateTime;
  m_expires_at : option DateTime;
  m_conflicts_with : list Uuid;
}.
Global Instance Memory_eta : Eta Memory :=
  λ r, mkMemory (m_id r) (m_tier r) (m_trust r) (m_content r) (m_source_event_ids r)
    (m_confidence r) (m_sensitivity r) (m_created_at r) (m_expires_at r) (m_conflicts_with r).

Inductive MemoryStorageRow : Type :=
  | Active (memory : Memory) (embedding : option (list f32)) (embedding_model_id : option string)
  | Rejected (id : Uuid).

Definition row_id (row : MemoryStorageRow) : Uuid :=
  match row with Active memory _ _ => m_id memory | Rejected id => id end.

Definition trust_label (row : MemoryStorageRow) : string :=
  match row with
  | Active memory _ _ =>
    match m_trust memory with
    | TrustedUser => "trusted_user"
    | ReviewedInference => "reviewed_inference"
    | ProposedInference => "proposed_inference"
    | BackgroundObservation => "background_observation"
    | Recalled => "recalled"
    end
  | Rejected _ => "rejected"
  end.

Definition row_source_event_ids (row : MemoryStorageRow) : list string :=
  match row with Active memory _ _ => m_source_event_ids memory | Rejected _ => [] end.

Definition namespace_validate (n : MemoryNamespace) : outcome MemoryError () :=
  match n with
  | Global => Ok ()
  | Profile value | ProjectScope value | Conversation value =>
    ensure_not (is_blank value) MissingNamespace
  end.

Definition one_f32 : f32 := f32_bits (sf_of_Z 1).

Definition explicit_user (id : Uuid) (now : DateTime) (content : string) (tier : MemoryTier)
    (source_event_id : string) : Memory :=
  mkMemory id tier TrustedUser content [source_event_id] one_f32 "private" now None [].

(** [confidence.clamp(0.0, 1.0)] *)
Definition clamp01 (c : f32) : f32 :=
  if SFltb (f32_val c) sf_zero then 0%N
  else if SFltb (sf_of_Z 1) (f32_val c) then one_f32 else c.

Definition proposed (id : Uuid) (now : DateTime) (content : string) (tier : MemoryTier)
    (source_event_ids : list string) (confidence : f32) : Memory :=
  mkMemory id tier ProposedInference content source_event_ids (clamp01 confidence) "private" now
    None [].

Definition recalled (m : Memory) : Memory := m <| m_trust := Recalled |>.

Record RecallResult : Type := mkRecallResult {
  rr_memory : Memory;
  rr_lexical_score : spec_float;
  rr_vector_score : spec_float;
  rr_combined_score : spec_float;
}.

(** ** The recall index *)

Record VectorRow : Type := mkVectorRow {
  vr_model_id : string;
  vr_dimensions : Z;
  vr_vector : list N;
}.

Record RecallIndex : Type := mkRecallIndex {
  ri_fts : list (Uuid * string);
  ri_metadata : gmap Uuid (bool * option Z);
  ri_vectors : gmap Uuid VectorRow;
  ri_synchronized_count : option nat;
}.
Global Instance RecallIndex_eta : Eta RecallIndex :=
  λ r, mkRecallIndex (ri_fts r) (ri_metadata r) (ri_vectors r) (ri_synchronized_count r).

Definition index_default : RecallIndex := mkRecallIndex [] ∅ ∅ (Some 0).

Record RecallIndexRecord : Type := mkRecallIndexRecord {
  rec_id : Uuid;
  rec_content : string;
  rec_eligible : bool;
  rec_expires_at_millis : option Z;
  rec_vector : option (list f32);
  rec_model_id : option string;
}.

Definition mark_dirty (i : RecallIndex) : RecallIndex := i <| ri_synchronized_count := None |>.

Definition vector_row (record : RecallIndexRecord) : option VectorRow :=
  match rec_vector record, rec_model_id record with
  | Some vector, Some model_id =>
    Some (mkVectorRow model_id (Z.of_nat (length vector)) (encode_vector vector))
  | _, _ => None
  end.

Definition without (id : Uuid) (rows : list (Uuid * string)) : list (Uuid * string) :=
  filter (λ row : Uuid * string, row.1 ≠ id) rows.

Definition replace_metadata (record : RecallIndexRecord) (i : RecallIndex) : RecallIndex :=
  i <| ri_metadata ::= <[rec_id record := (rec_eligible record, rec_expires_at_millis record)]> |>.
Definition replace_vector (record : RecallIndexRecord) (i : RecallIndex) : RecallIndex :=
  match vector_row record with
  | Some row => i <| ri_vectors ::= <[rec_id record := row]> |>
  | None => i <| ri_vectors ::= delete (rec_id record) |>
  end.

Definition index_upsert (record : RecallIndexRecord) (synchronized_count : nat) (i : RecallIndex)
    : RecallIndex :=
  let i := i <| ri_fts := without (rec_id record) (ri_fts i) ++ [(rec_id record, rec_content record)] |> in
  (replace_vector record (replace_metadata record i)) <| ri_synchronized_count := Some synchronized_count |>.

Definition index_delete (id : Uuid) (synchronized_count : nat) (i : RecallIndex) : RecallIndex :=
  mkRecallIndex (without id (ri_fts i)) (delete id (ri_metadata i)) (delete id (ri_vectors i))
    (Some synchronized_count).

(** One record of [rebuild]. *)
Definition rebuild_step (i : RecallIndex) (record : RecallIndexRecord) : RecallIndex :=
  mkRecallIndex (ri_fts i ++ [(rec_id record, rec_content record)])
    (<[rec_id record := (rec_eligible record, rec_expires_at_millis record)]> (ri_metadata i))
    (match vector_row record with
     | Some row => <[rec_id record := row]> (ri_vectors i)
     | None => ri_vectors i
     end)
    (ri_synchronized_count i).

Definition rebuild (records : list RecallIndexRecord) : RecallIndex :=
  (foldl rebuild_step (mkRecallIndex [] ∅ ∅ None) records)
    <| ri_synchronized_count := Some (length records) |>.

(** The full-text search: the identifiers of the rows that match, in the order of [bm25] and
    of the rows. *)
Class FullText : Type := { fts_match : string → list (Uuid * string) → list Uuid }.

(** The character tables: whether one character, given by its bytes, is alphanumeric, and lower
    case of a text. *)
Class CharTables : Type := {
  is_alphanumeric : list ascii → bool;
  to_lowercase : string → string;
}.

Record RecallCandidate : Type := mkRecallCandidate {
  can_id : Uuid;
  can_vector : option (list f32);
  can_model_id : option string;
}.

(** [eligible = 1 AND (expires_at_millis IS NULL OR expires_at_millis > now)] *)
Definition metadata_ok (i : RecallIndex) (now_millis : Z) (id : Uuid) : bool :=
  match ri_metadata i !! id with
  | Some (eligible, expires) =>
    eligible && match expires with None => true | Some e => (now_millis <? e)%Z end
  | None => false
  end.

Definition raw_candidate (i : RecallIndex) (id : Uuid) : RecallCandidate :=
  match ri_vectors i !! id with
  | Some row => mkRecallCandidate id (decode_vector (vr_vector row) (vr_dimensions row))
                  (Some (vr_model_id row))
  | None => mkRecallCandidate id None None
  end.

Definition vector_candidates (i : RecallIndex) (model_id : string) (limit : nat) (now_millis : Z)
    : list Uuid :=
  take limit (filter (λ id, metadata_ok i now_millis id = true
    ∧ vr_model_id <$> ri_vectors i !! id = Some model_id) (ri_fts i).*1).

(** ** Texts *)

(** The characters of a text: a byte with the continuation bytes after it. *)
Fixpoint chars_go (cur : list ascii) (l : list ascii) : list (list ascii) :=
  match l with
  | [] => match cur with [] => [] | _ => [reverse cur] end
  | c :: l =>
    if is_continuation c then chars_go (c :: cur) l
    else match cur with [] => chars_go [c] l | _ => reverse cur :: chars_go [c] l end
  end.
Definition chars (s : string) : list (list ascii) := chars_go [] (bytes s).

Fixpoint split_chars (stop : list ascii → bool) (cur : list ascii) (l : list (list ascii))
    : list (list ascii) :=
  match l with
  | [] => [cur]
  | c :: l => if stop c then cur :: split_chars stop [] l else split_chars stop (cur ++ c) l
  end.

Section recall.
Context `{FullText} `{CharTables}.

Definition tokenize (text : string) : gset string :=
  list_to_set (to_lowercase <$> filter (λ t, t ≠ "")
    (of_bytes <$> split_chars (λ c, negb (is_alphanumeric c)) [] (chars text))).

(** The tokens in quotes, in order, joined by [OR]. *)
Definition match_query (tokens : gset string) : string :=
  join " OR " ((λ t, of_bytes [double_quote] +:+ t +:+ of_bytes [double_quote])
    <$> merge_sort str_le (elements tokens)).

Definition fts_candidates (i : RecallIndex) (query : string) (limit : nat) (now_millis : Z)
    : list Uuid :=
  take limit (filter (λ id, metadata_ok i now_millis id = true) (fts_match query (ri_fts i))).

Definition candidates (i : RecallIndex) (query_tokens : gset string) (model_id : string)
    (limit : nat) (now_millis : Z) : list RecallCandidate :=
  if limit =? 0 then []
  else raw_candidate i <$>
    if bool_decide (query_tokens = ∅) then vector_candidates i model_id limit now_millis
    else match fts_candidates i (match_query query_tokens) limit now_millis with
    | [] => vector_candidates i model_id limit now_millis
    | found => found
    end.
End recall.

(** ** Scores *)

Definition ratio (numerator denominator : nat) : spec_float :=
  sf_div (sf_of_Z (Z.of_nat numerator)) (sf_of_Z (Z.of_nat denominator)).

(** [iter.sum::<f32>()] *)
Definition sf_sum (l : list spec_float) : spec_float := foldl sf_add (S754_zero true) l.
Definition norm (v : list spec_float) : spec_float := sf_sqrt (sf_sum ((λ x, sf_mul x x) <$> v)).

Definition cosine (left_ right_ : list f32) : spec_float :=
  if negb (length left_ =? length right_) || (length left_ =? 0) then sf_zero
  else
    let l := f32_val <$> left_ in
    let r := f32_val <$> right_ in
    let dot := sf_sum (zip_with sf_mul l r) in
    if SFleb (norm l) sf_epsilon || SFleb (norm r) sf_epsilon then sf_zero
    else sf_div dot (sf_mul (norm l) (norm r)).

Definition w55 : spec_float := sf_div (sf_of_Z 55) (sf_of_Z 100).
Definition w45 : spec_float := sf_div (sf_of_Z 45) (sf_of_Z 100).

(** [sort_by]: the higher score first, then the smaller identifier; scores that do not compare
    count as equal. *)
Definition result_le (a b : RecallResult) : Prop :=
  SFltb (rr_combined_score b) (rr_combined_score a) = true ∨
  (SFltb (rr_combined_score a) (rr_combined_score b) = false ∧
   (m_id (rr_memory a) <= m_id (rr_memory b))%N).
Global Instance result_le_dec : RelDecision result_le.
Proof. intros a b. unfold result_le. apply _. Defined.

(** ** The store *)

Record MemoryStore : Type := mkMemoryStore {
  ms_embedding_model : EmbeddingModel;
  ms_memories : gmap Uuid Memory;
  ms_embeddings : gmap Uuid (list f32);
  ms_embedding_models : gmap Uuid string;
  ms_rejected : gset Uuid;
  ms_recall_index : RecallIndex;
}.
Global Instance MemoryStore_eta : Eta MemoryStore :=
  λ r, mkMemoryStore (ms_embedding_model r) (ms_memories r) (ms_embeddings r)
    (ms_embedding_models r) (ms_rejected r) (ms_recall_index r).

Definition E5_SMALL_INT8_MODEL_ID : string := "e5-small-int8".
Definition FEATURE_HASH_MODEL_ID : string := "feature-hash-local".
Definition LEGACY_MISLABELED_FEATURE_HASH_ID : string := "intfloat-multilingual-e5-small-onnx".

Definition store_new (embedding_model : EmbeddingModel) : MemoryStore :=
  mkMemoryStore embedding_model ∅ ∅ ∅ ∅ index_default.

Definition legacy_compatible_embedding_model_id (s : MemoryStore) : string :=
  if bool_decide (em_id (ms_embedding_model s) = LEGACY_MISLABELED_FEATURE_HASH_ID)
  then FEATURE_HASH_MODEL_ID else em_id (ms_embedding_model s).

Definition stored_embedding_model_id (s : MemoryStore) (id : Uuid) : string :=
  default (legacy_compatible_embedding_model_id s) (ms_embedding_models s !! id).

Definition timestamp_millis (t : DateTime) : Z := (t / 1000000)%Z.

Definition recallable (trust : MemoryTrust) : bool :=
  negb (bool_decide (trust = ProposedInference)) && negb (bool_decide (trust = BackgroundObservation)).

(** The record of a stored memory; the code panics on an identifier that is not stored. *)
Definition index_record (s : MemoryStore) (memory : Memory) (id : Uuid) : RecallIndexRecord :=
  mkRecallIndexRecord id (m_content memory) (recallable (m_trust memory))
    (timestamp_millis <$> m_expires_at memory) (ms_embeddings s !! id)
    (match ms_embeddings s !! id with
     | Some _ => Some (stored_embedding_model_id s id)
     | None => None
     end).
Definition recall_index_record (s : MemoryStore) (id : Uuid) : outcome MemoryError RecallIndexRecord :=
  match ms_memories s !! id with
  | Some memory => Ok (index_record s memory id)
  | None => Panic
  end.

Definition index_synchronized (s : MemoryStore) : bool :=
  bool_decide (ri_synchronized_count (ms_recall_index s) = Some (size (ms_memories s))).

Abbreviation SM := (M MemoryStore MemoryError).

(** [if index_was_synchronized { upsert the record } else { mark_dirty }] *)
Definition refresh_index (was_synchronized : bool) (id : Uuid) : SM () :=
  s ← get;
  if was_synchronized then
    record ← lift (recall_index_record s id);
    modify (λ s, s <| ms_recall_index ::= index_upsert record (size (ms_memories s)) |>)
  else modify (λ s, s <| ms_recall_index ::= mark_dirty |>).

(** [if index_was_synchronized { delete } else { mark_dirty }] *)
Definition drop_from_index (was_synchronized : bool) (id : Uuid) : SM () :=
  modify (λ s, s <| ms_recall_index ::= if was_synchronized
    then index_delete id (size (ms_memories s)) else mark_dirty |>).

Definition upsert_labeled (memory : Memory) (embedding : option (list f32))
    (embedding_model_id : string) : SM () :=
  s ← get;
  _ ← reject_if (bool_decide (m_source_event_ids memory = [])) MissingProvenance;
  _ ← reject_if (bool_decide (m_trust memory = Recalled)) RecursiveExtraction;
  _ ← reject_if (match embedding with
                 | Some vector => negb (length vector =? em_dimensions (ms_embedding_model s))
                 | None => false
                 end) EmbeddingDimensions;
  let index_was_synchronized := index_synchronized s in
  _ ← (match embedding with
       | Some vector =>
         _ ← reject_if (is_blank embedding_model_id) MissingEmbeddingProvenance;
         modify (λ s, s <| ms_embeddings ::= <[m_id memory := vector]> |>
                        <| ms_embedding_models ::= <[m_id memory := embedding_model_id]> |>)
       | None => mret ()
       end);
  _ ← modify (λ s, s <| ms_rejected ::= λ r, r ∖ {[m_id memory]} |>);
  _ ← modify (λ s, s <| ms_memories ::= <[m_id memory := memory]> |>);
  refresh_index index_was_synchronized (m_id memory).

Definition upsert (memory : Memory) (embedding : option (list f32)) : SM () :=
  s ← get; upsert_labeled memory embedding (legacy_compatible_embedding_model_id s).

Definition approve (id : Uuid) : SM () :=
  s ← get;
  memory ← ok_or (ms_memories s !! id) (Missing id);
  _ ← reject_if (negb (bool_decide (m_trust memory = ProposedInference))) NotProposed;
  let index_was_synchronized := index_synchronized s in
  _ ← modify (λ s, s <| ms_memories ::= alter (λ m, m <| m_trust := ReviewedInference |>) id |>);
  refresh_index index_was_synchronized id.

Definition reject (id : Uuid) : SM () :=
  s ← get;
  memory ← ok_or (ms_memories s !! id) (Missing id);
  _ ← reject_if (negb (bool_decide (m_trust memory = ProposedInference))) NotProposed;
  let index_was_synchronized := index_synchronized s in
  _ ← modify (λ s, s <| ms_memories ::= base.delete id |> <| ms_embeddings ::= base.delete id |>
                     <| ms_embedding_models ::= base.delete id |>
                     <| ms_rejected ::= λ r, r ∪ {[id]} |>);
  drop_from_index index_was_synchronized id.

(** [if !memory.conflicts_with.contains(&other) { push(other) }] *)
Definition add_conflict (other : Uuid) (m : Memory) : Memory :=
  if bool_decide (other ∈ m_conflicts_with m) then m
  else m <| m_conflicts_with := m_conflicts_with m ++ [other] |>.

Definition link_conflict (left_ right_ : Uuid) : SM () :=
  s ← get;
  _ ← reject_if (negb (bool_decide (is_Some (ms_memories s !! left_)))) (Missing left_);
  _ ← reject_if (negb (bool_decide (is_Some (ms_memories s !! right_)))) (Missing right_);
  if bool_decide (left_ = right_) then mret ()
  else
    modify (λ s, s <| ms_memories ::= λ m,
      alter (add_conflict left_) right_ (alter (add_conflict right_) left_ m) |>).

Definition delete_memory (id : Uuid) : SM Memory :=
  s ← get;
  let index_was_synchronized := index_synchronized s in
  removed ← ok_or (ms_memories s !! id) (Missing id);
  _ ← modify (λ s, s <| ms_memories ::= base.delete id |> <| ms_embeddings ::= base.delete id |>
                     <| ms_embedding_models ::= base.delete id |>);
  _ ← modify (λ s, s <| ms_memories ::= fmap (λ m,
        m <| m_conflicts_with ::= filter (λ other, other ≠ id) |>) |>);
  _ ← drop_from_index index_was_synchronized id;
  mret removed.

Definition all_records (s : MemoryStore) : list RecallIndexRecord :=
  (λ e : Uuid * Memory, index_record s e.2 e.1) <$> entries (ms_memories s).

Definition ensure_recall_index (s : MemoryStore) : MemoryStore :=
  if index_synchronized s then s else s <| ms_recall_index := rebuild (all_records s) |>.

Definition proposed_queue (s : MemoryStore) : list Memory :=
  filter (λ m, m_trust m = ProposedInference) (values (ms_memories s)).
Definition export (s : MemoryStore) : list Memory := values (ms_memories s).
Definition embedding_model_id (s : MemoryStore) (id : Uuid) : option string :=
  match ms_embeddings s !! id with Some _ => Some (stored_embedding_model_id s id) | None => None end.

(** ** Storage rows *)

Definition row_le (a b : MemoryStorageRow) : Prop := (row_id a <= row_id b)%N.
Global Instance row_le_dec : RelDecision row_le.
Proof. intros a b. unfold row_le. apply _. Defined.

Definition active_row (s : MemoryStore) (memory : Memory) : MemoryStorageRow :=
  Active memory (ms_embeddings s !! m_id memory) (embedding_model_id s (m_id memory)).

Definition storage_rows (s : MemoryStore) : list MemoryStorageRow :=
  merge_sort row_le ((active_row s <$> values (ms_memories s)) ++ (Rejected <$> elements (ms_rejected s))).

Definition load_row (row : MemoryStorageRow) : SM () :=
  match row with
  | Active memory embedding model_id =>
    match embedding, model_id with
    | Some embedding, Some model_id => upsert_labeled memory (Some embedding) model_id
    | None, None => upsert memory None
    | Some _, None => throw MissingEmbeddingProvenance
    | None, Some _ => throw UnexpectedEmbeddingProvenance
    end
  | Rejected id => modify (λ s, s <| ms_rejected ::= λ r, r ∪ {[id]} |>)
  end.

Fixpoint load_rows (seen : gset Uuid) (rows : list MemoryStorageRow) : SM () :=
  match rows with
  | [] => mret ()
  | row :: rows =>
    _ ← reject_if (bool_decide (row_id row ∈ seen)) (DuplicateStorageRow (row_id row));
    _ ← load_row row;
    load_rows ({[row_id row]} ∪ seen) rows
  end.

Definition from_storage_rows (embedding_model : EmbeddingModel) (rows : list MemoryStorageRow)
    : outcome MemoryError MemoryStore :=
  match load_rows ∅ rows (store_new embedding_model) with
  | (Ok _, s) => Ok s
  | (Err e, _) => Err e
  | (Panic, _) => Panic
  end.

(** ** Recall *)

Section store_recall.
Context `{FullText} `{CharTables}.

Definition score (s : MemoryStore) (query_tokens : gset string) (query_embedding : option (list f32))
    (model_id : string) (now : DateTime) (c : RecallCandidate) : option RecallResult :=
  memory ← ms_memories s !! can_id c;
  if match m_expires_at memory with None => true | Some expiry => (now <? expiry)%Z end
     && recallable (m_trust memory)
  then
    let content_tokens := tokenize (m_content memory) in
    let overlap := size (query_tokens ∩ content_tokens) in
    let lexical_score := if bool_decide (query_tokens = ∅) then sf_zero
                         else ratio overlap (size query_tokens) in
    let vector_score :=
      match (if bool_decide (can_model_id c = Some model_id) then query_embedding else None), can_vector c with
      | Some query, Some vector => cosine query vector
      | _, _ => sf_zero
      end in
    Some (mkRecallResult (recalled memory) lexical_score vector_score
            (sf_fma lexical_score w55 (sf_mul vector_score w45)))
  else None.

(** [limit.saturating_mul(32).max(256).min(self.memories.len())] *)
Definition candidate_limit (limit : nat) (s : MemoryStore) : nat :=
  Nat.min (Nat.max (limit * 32) 256) (size (ms_memories s)).

Definition recall_labeled (query : string) (query_embedding : option (list f32)) (model_id : string)
    (limit : nat) (now : DateTime) (s : MemoryStore) : list RecallResult * MemoryStore :=
  if limit =? 0 then ([], s)
  else
    let s := ensure_recall_index s in
    let query_tokens := tokenize query in
    let found := candidates (ms_recall_index s) query_tokens model_id (candidate_limit limit s)
                   (timestamp_millis now) in
    let matches := filter (λ r, SFltb sf_zero (rr_combined_score r) = true)
      (omap (score s query_tokens query_embedding model_id now) found) in
    (take limit (merge_sort result_le matches), s).

Definition recall (query : string) (query_embedding : option (list f32)) (limit : nat)
    (now : DateTime) (s : MemoryStore) : list RecallResult * MemoryStore :=
  recall_labeled query query_embedding (legacy_compatible_embedding_model_id s) limit now s.
End store_recall.

(** ** Namespaces, style and the project graph *)

Record PersistentMemoryMetadata : Type := mkPersistentMemoryMetadata {
  pmm_scopes : gmap Uuid MemoryNamespace;
  pmm_style : gmap Uuid StylePreference;
  pmm_project_nodes : gmap Uuid ProjectNode;
  pmm_project_relations : list ProjectRelation;
}.

Record PersistentMemory : Type := mkPersistentMemory {
  pm_store : MemoryStore;
  pm_scopes : gmap Uuid MemoryNamespace;
  pm_style : gmap Uuid StylePreference;
  pm_project_nodes : gmap Uuid ProjectNode;
  pm_project_relations : list ProjectRelation;
}.
Global Instance PersistentMemory_eta : Eta PersistentMemory :=
  λ r, mkPersistentMemory (pm_store r) (pm_scopes r) (pm_style r) (pm_project_nodes r)
    (pm_project_relations r).

Definition persistent_new (embedding_model : EmbeddingModel) : PersistentMemory :=
  mkPersistentMemory (store_new embedding_model) ∅ ∅ ∅ [].
Definition from_store (store : MemoryStore) : PersistentMemory :=
  mkPersistentMemory store ∅ ∅ ∅ [].
Definition storage_metadata (p : PersistentMemory) : PersistentMemoryMetadata :=
  mkPersistentMemoryMetadata (pm_scopes p) (pm_style p) (pm_project_nodes p) (pm_project_relations p).
Definition into_storage_parts (p : PersistentMemory) : MemoryStore * PersistentMemoryMetadata :=
  (pm_store p, storage_metadata p).
Definition from_storage_parts (store : MemoryStore) (m : PersistentMemoryMetadata) : PersistentMemory :=
  mkPersistentMemory store (pmm_scopes m) (pmm_style m) (pmm_project_nodes m)
    (pmm_project_relations m).

Abbreviation PM := (M PersistentMemory MemoryError).

Definition on_store {A} (m : SM A) : PM A :=
  λ p, let '(r, s) := m (pm_store p) in (r, p <| pm_store := s |>).

Definition remember (namespace : MemoryNamespace) (memory : Memory) (embedding : option (list f32))
    : PM () :=
  _ ← lift (namespace_validate namespace);
  _ ← on_store (upsert memory embedding);
  modify (λ p, p <| pm_scopes ::= <[m_id memory := namespace]> |>).

Definition propose_style (preference : StylePreference) : PM () :=
  _ ← lift (namespace_validate (sp_namespace preference));
  _ ← reject_if (bool_decide (sp_source_event_ids preference = [])) MissingProvenance;
  modify (λ p, p <| pm_style ::= <[sp_id preference := preference]> |>).

Definition review_style (id : Uuid) (accept : bool) : PM () :=
  p ← get;
  _ ← ok_or (pm_style p !! id) (Missing id);
  if accept
  then modify (λ p, p <| pm_style ::= alter (λ s, s <| sp_reviewed := true |>) id |>)
  else modify (λ p, p <| pm_style ::= base.delete id |>).

Definition style_for (namespace : MemoryNamespace) (p : PersistentMemory) : list StylePreference :=
  filter (λ s, sp_reviewed s = true ∧ sp_namespace s = namespace) (values (pm_style p)).

Definition upsert_project_node (node : ProjectNode) : PM () :=
  _ ← lift (namespace_validate (pn_namespace node));
  _ ← reject_if (bool_decide (pn_source_event_ids node = [])) MissingProvenance;
  modify (λ p, p <| pm_project_nodes ::= <[pn_id node := node]> |>).

Definition link_project_nodes (relation : ProjectRelation) : PM () :=
  p ← get;
  _ ← lift (try_for_each (λ id, ensure_not (negb (bool_decide (is_Some (pm_project_nodes p !! id))))
              (MissingProjectNode id)) [pr_from relation; pr_to relation]);
  _ ← reject_if (bool_decide (pr_source_event_ids relation = [])) MissingProvenance;
  if bool_decide (relation ∈ pm_project_relations p) then mret ()
  else modify (λ p, p <| pm_project_relations := pm_project_relations p ++ [relation] |>).

Definition project_graph (namespace : MemoryNamespace) (p : PersistentMemory)
    : list ProjectNode * list ProjectRelation :=
  let nodes := filter (λ n, pn_namespace n = namespace) (values (pm_project_nodes p)) in
  let node_ids : gset Uuid := list_to_set (pn_id <$> nodes) in
  (nodes, filter (λ r, pr_from r ∈ node_ids ∧ pr_to r ∈ node_ids) (pm_project_relations p)).

Definition export_namespace (namespace : MemoryNamespace) (p : PersistentMemory) : list Memory :=
  filter (λ m, pm_scopes p !! m_id m = Some namespace) (values (ms_memories (pm_store p))).

Definition in_scope (namespaces : gset MemoryNamespace) (p : PersistentMemory) (id : Uuid) : bool :=
  match pm_scopes p !! id with
  | Some scope => bool_decide (scope ∈ namespaces)
  | None => false
  end.

Section recall_scoped.
Context `{FullText} `{CharTables}.
Definition recall_scoped (namespaces : gset MemoryNamespace) (query : string)
    (query_embedding : option (list f32)) (limit : nat) (now : DateTime) (p : PersistentMemory)
    : list RecallResult * PersistentMemory :=
  let '(results, s) := recall query query_embedding (size (ms_memories (pm_store p))) now (pm_store p) in
  let kept := filter (λ r, in_scope namespaces p (m_id (rr_memory r)) = true) results in
  (take limit kept, p <| pm_store := s |>).
End recall_scoped.

(** The memories of a namespace, one after the other; an absent one is skipped. *)
Definition forget (id : Uuid) (p : PersistentMemory) : PersistentMemory :=
  p <| pm_store := state_of (delete_memory id) (pm_store p) |> <| pm_scopes ::= base.delete id |>.

Definition delete_namespace (namespace : MemoryNamespace) (p : PersistentMemory)
    : nat * PersistentMemory :=
  let ids := (filter (λ e : Uuid * MemoryNamespace, e.2 = namespace) (entries (pm_scopes p))).*1 in
  let p := foldl (λ p id, forget id p) p ids in
  let p := p <| pm_style ::= filter (λ e : Uuid * StylePreference, sp_namespace e.2 ≠ namespace) |> in
  let removed_nodes : gset Uuid :=
    dom (filter (λ e : Uuid * ProjectNode, pn_namespace e.2 = namespace) (pm_project_nodes p)) in
  let p := p <| pm_project_nodes ::= filter (λ e : Uuid * ProjectNode, e.1 ∉ removed_nodes) |> in
  let p := p <| pm_project_relations ::=
    filter (λ r, pr_from r ∉ removed_nodes ∧ pr_to r ∉ removed_nodes) |> in
  (length ids, p).

(** ** The feature-hashing embedder *)

Definition u64_wrap (n : N) : N := N.land n u64_max.
(** FNV-1a *)
Definition fnv_step (hash : N) (c : ascii) : N :=
  u64_wrap (N.lxor hash (byte_val c) * 0x100000001b3).
Definition fnv (token : string) : N := foldl fnv_step 0xcbf29ce484222325%N (bytes token).

Definition embedder_dimensions (dimensions : nat) : nat := Nat.max dimensions 8.

Definition bump (dimensions : nat) (vector : list spec_float) (token : string) : list spec_float :=
  let index := N.to_nat (fnv token mod N.of_nat dimensions) in
  alter (λ x, sf_add x (sf_of_Z 1)) index vector.

Definition embed `{CharTables} (dimensions : nat) (text : string) : list f32 :=
  let dimensions := embedder_dimensions dimensions in
  let vector := foldl (bump dimensions) (replicate dimensions sf_zero)
    (merge_sort str_le (elements (tokenize text))) in
  let n := norm vector in
  f32_bits <$> if SFltb sf_epsilon n then (λ x, sf_div x n) <$> vector else vector.
