(* ===== verification/MemorySpec.v ===== *)
(** * The memory store: invariants, recall and storage

    Properties of [Memory]: the invariant that every operation keeps, the incremental recall
    index against the rebuilt one, the safety of recall, the round trips through storage
    rows and vector encodings, and the deletion of a namespace. *)

From stdpp Require Import base gmap strings list sorting pretty.
From Stdlib Require Import Ascii SpecFloat.
From S2P Require Import Prelude Text Memory.

(** ** The invariant *)

(** What the index must hold for a store. *)
Record index_matches (s : MemoryStore) : Prop := {
  im_fts_unique : NoDup (ri_fts (ms_recall_index s)).*1;
  im_fts id content :
    (id, content) ∈ ri_fts (ms_recall_index s) ↔ m_content <$> ms_memories s !! id = Some content;
  im_metadata id :
    ri_metadata (ms_recall_index s) !! id =
    (λ m, (recallable (m_trust m), timestamp_millis <$> m_expires_at m)) <$> ms_memories s !! id;
  im_vectors id :
    ri_vectors (ms_recall_index s) !! id = ms_memories s !! id ≫= λ m, vector_row (index_record s m id);
}.

Record StoreOk (s : MemoryStore) : Prop := {
  so_memories id m : ms_memories s !! id = Some m →
    m_id m = id ∧ m_source_event_ids m ≠ [] ∧ m_trust m ≠ Recalled;
  so_embeddings id v : ms_embeddings s !! id = Some v →
    is_Some (ms_memories s !! id) ∧ length v = em_dimensions (ms_embedding_model s);
  so_models id label : ms_embedding_models s !! id = Some label →
    is_Some (ms_embeddings s !! id) ∧ is_blank label = false;
  so_rejected id : id ∈ ms_rejected s → ms_memories s !! id = None;
  so_index : index_synchronized s = true → index_matches s;
}.

(** ** Running the operations *)

(** The state [upsert_labeled] reaches once its checks have passed. *)
Definition stored (memory : Memory) (embedding : option (list f32)) (label : string)
    (s : MemoryStore) : MemoryStore :=
  mkMemoryStore (ms_embedding_model s) (<[m_id memory := memory]> (ms_memories s))
    (match embedding with Some v => <[m_id memory := v]> (ms_embeddings s) | None => ms_embeddings s end)
    (match embedding with
     | Some _ => <[m_id memory := label]> (ms_embedding_models s)
     | None => ms_embedding_models s
     end)
    (ms_rejected s ∖ {[m_id memory]}) (ms_recall_index s).

(** The index after the memory [id] of [s] changed. *)
Definition refreshed (was_synchronized : bool) (memory : Memory) (s : MemoryStore) : MemoryStore :=
  s <| ms_recall_index ::= if was_synchronized
       then index_upsert (index_record s memory (m_id memory)) (size (ms_memories s))
       else mark_dirty |>.

Definition acceptable (memory : Memory) (embedding : option (list f32)) (label : string)
    (s : MemoryStore) : Prop :=
  m_source_event_ids memory ≠ [] ∧ m_trust memory ≠ Recalled ∧
  match embedding with
  | Some v => length v = em_dimensions (ms_embedding_model s) ∧ is_blank label = false
  | None => True
  end.

Lemma refresh_index_run was id memory s :
  ms_memories s !! id = Some memory → m_id memory = id →
  refresh_index was id s = (Ok (), refreshed was memory s).
Proof.
  intros Hm <-. unfold refresh_index, recall_index_record, refreshed. munfold.
  destruct was; [|done]. rewrite Hm. done.
Qed.

Lemma upsert_labeled_run memory embedding label s :
  (acceptable memory embedding label s ∧
   upsert_labeled memory embedding label s =
     (Ok (), refreshed (index_synchronized s) memory (stored memory embedding label s))) ∨
  (¬ acceptable memory embedding label s ∧
   ∃ e, upsert_labeled memory embedding label s = (Err e, s)).
Proof.
  unfold upsert_labeled, acceptable. munfold.
  case_bool_decide; [right; split; [naive_solver|by eauto]|].
  case_bool_decide; [right; split; [naive_solver|by eauto]|].
  destruct embedding as [v|].
  - destruct (Nat.eqb_spec (length v) (em_dimensions (ms_embedding_model s))); munfold;
      [|right; split; [naive_solver|by eauto]].
    destruct (is_blank label) eqn:Hblank; munfold; [right; split; [naive_solver|by eauto]|].
    left. split; [done|]. unfold update. apply refresh_index_run; [apply lookup_insert_eq|done].
  - left. split; [done|]. unfold update. apply refresh_index_run; [apply lookup_insert_eq|done].
Qed.

(** ** The index follows the store *)

(** The part of a memory the index holds. *)
Definition indexed (m : Memory) : string * MemoryTrust * option DateTime :=
  (m_content m, m_trust m, m_expires_at m).

(** The vector row depends on the embedding and its label only. *)
Lemma vector_row_eq s s' m m' id :
  ms_embeddings s !! id = ms_embeddings s' !! id →
  stored_embedding_model_id s id = stored_embedding_model_id s' id →
  vector_row (index_record s m id) = vector_row (index_record s' m' id).
Proof. intros He Hl. unfold vector_row, index_record. cbn. by rewrite He, Hl. Qed.

(** Stores that agree on what is indexed. *)
Record same_indexed (s s' : MemoryStore) : Prop := {
  si_index : ms_recall_index s' = ms_recall_index s;
  si_memories id : indexed <$> ms_memories s' !! id = indexed <$> ms_memories s !! id;
  si_embeddings id : ms_embeddings s' !! id = ms_embeddings s !! id;
  si_labels id : stored_embedding_model_id s' id = stored_embedding_model_id s id;
}.

Lemma same_indexed_memories {A} (f : string * MemoryTrust * option DateTime → A) s s' id :
  same_indexed s s' → (f ∘ indexed) <$> ms_memories s' !! id = (f ∘ indexed) <$> ms_memories s !! id.
Proof. intros Hs. by rewrite !option_fmap_compose, (si_memories _ _ Hs). Qed.

Lemma index_matches_same s s' : same_indexed s s' → index_matches s → index_matches s'.
Proof.
  intros Hs [Hnd Hfts Hmeta Hvec]. constructor; rewrite ?(si_index _ _ Hs); [done|..].
  - intros id content. rewrite Hfts.
    by rewrite (same_indexed_memories (λ p, p.1.1) s s' id Hs : m_content <$> _ = m_content <$> _).
  - intros id. rewrite Hmeta. symmetry.
    apply (same_indexed_memories (λ p, (recallable p.1.2, timestamp_millis <$> p.2)) s s' id Hs).
  - intros id. rewrite Hvec. pose proof (si_memories _ _ Hs id) as Hm.
    destruct (ms_memories s !! id) as [m|], (ms_memories s' !! id) as [m'|]; try done. cbn.
    apply vector_row_eq; [by rewrite (si_embeddings _ _ Hs)|by rewrite (si_labels _ _ Hs)].
Qed.

Lemma elem_of_without id rows row : row ∈ without id rows ↔ row ∈ rows ∧ row.1 ≠ id.
Proof. unfold without. rewrite list_elem_of_filter. tauto. Qed.

Lemma without_ids id rows : (without id rows).*1 = filter (λ j, j ≠ id) rows.*1.
Proof.
  unfold without. induction rows as [|[j c] rows IH]; [done|].
  cbn [fmap list_fmap fst]. rewrite !filter_cons. cbn [fst]. case_decide; cbn; by rewrite <- IH.
Qed.

Lemma NoDup_without id rows : NoDup rows.*1 → NoDup (without id rows).*1.
Proof. rewrite without_ids. apply NoDup_filter. Qed.

Lemma index_upsert_unfold record n i :
  index_upsert record n i =
  mkRecallIndex (without (rec_id record) (ri_fts i) ++ [(rec_id record, rec_content record)])
    (<[rec_id record := (rec_eligible record, rec_expires_at_millis record)]> (ri_metadata i))
    (match vector_row record with
     | Some row => <[rec_id record := row]> (ri_vectors i)
     | None => base.delete (rec_id record) (ri_vectors i)
     end) (Some n).
Proof. unfold index_upsert, replace_vector. by destruct (vector_row record). Qed.

(** [s1] is [s] with one memory changed, [s]'s index still in place. *)
Record changed_at (id : Uuid) (memory : option Memory) (s s1 : MemoryStore) : Prop := {
  ch_index : ms_recall_index s1 = ms_recall_index s;
  ch_memories j : ms_memories s1 !! j = if decide (j = id) then memory else ms_memories s !! j;
  ch_embeddings j : j ≠ id → ms_embeddings s1 !! j = ms_embeddings s !! j;
  ch_labels j : j ≠ id → stored_embedding_model_id s1 j = stored_embedding_model_id s j;
}.

Lemma vectors_elsewhere id memory s s1 j :
  changed_at id memory s s1 → j ≠ id →
  (ms_memories s !! j ≫= λ m, vector_row (index_record s m j)) =
  (ms_memories s1 !! j ≫= λ m, vector_row (index_record s1 m j)).
Proof.
  intros Hch Hj. rewrite (ch_memories _ _ _ _ Hch), decide_False by done.
  destruct (ms_memories s !! j) as [m|]; [|done]. cbn.
  apply vector_row_eq; [by rewrite (ch_embeddings _ _ _ _ Hch)|by rewrite (ch_labels _ _ _ _ Hch)].
Qed.

Lemma refreshed_matches memory s s1 :
  changed_at (m_id memory) (Some memory) s s1 → index_matches s →
  index_matches (refreshed true memory s1).
Proof.
  intros Hch [Hnd Hfts Hmeta Hvec]. pose proof (ch_memories _ _ _ _ Hch) as Hmem.
  assert (ms_recall_index (refreshed true memory s1) =
    index_upsert (index_record s1 memory (m_id memory)) (size (ms_memories s1)) (ms_recall_index s))
    as Hindex by (cbn; by rewrite (ch_index _ _ _ _ Hch)).
  constructor; rewrite Hindex, index_upsert_unfold; cbn [ri_fts ri_metadata ri_vectors rec_id index_record].
  - rewrite fmap_app. apply NoDup_app. split_and!.
    + by apply NoDup_without.
    + intros j Hj ->%list_elem_of_singleton. rewrite without_ids, list_elem_of_filter in Hj. naive_solver.
    + apply NoDup_singleton.
  - intros j content. rewrite elem_of_app, elem_of_without, Hfts, list_elem_of_singleton. cbn.
    rewrite Hmem. case_decide; naive_solver.
  - intros j. cbn. rewrite Hmem.
    case_decide; [subst j; by rewrite lookup_insert_eq|by rewrite lookup_insert_ne, Hmeta].
  - intros j. change (ri_vectors (ms_recall_index s)) with (ri_vectors (ms_recall_index s)).
    change (ms_memories (refreshed true memory s1)) with (ms_memories s1).
    change (λ m, vector_row (index_record (refreshed true memory s1) m j))
      with (λ m, vector_row (index_record s1 m j)).
    destruct (decide (j = m_id memory)) as [->|Hj].
    + rewrite Hmem, decide_True by done. cbn [mbind option_bind].
      case_match; [by rewrite lookup_insert_eq|by rewrite lookup_delete_eq].
    + rewrite <- (vectors_elsewhere _ _ _ _ j Hch Hj), <- Hvec.
      case_match; [by rewrite lookup_insert_ne|by rewrite lookup_delete_ne].
Qed.

(** The index after the memory [id] was removed. *)
Definition dropped (was_synchronized : bool) (id : Uuid) (s : MemoryStore) : MemoryStore :=
  s <| ms_recall_index ::= if was_synchronized then index_delete id (size (ms_memories s)) else mark_dirty |>.

Lemma dropped_matches id s s1 :
  changed_at id None s s1 → index_matches s → index_matches (dropped true id s1).
Proof.
  intros Hch [Hnd Hfts Hmeta Hvec]. pose proof (ch_memories _ _ _ _ Hch) as Hmem.
  assert (ms_recall_index (dropped true id s1) = index_delete id (size (ms_memories s1)) (ms_recall_index s))
    as Hindex by (cbn; by rewrite (ch_index _ _ _ _ Hch)).
  constructor; rewrite Hindex; unfold index_delete; cbn [ri_fts ri_metadata ri_vectors].
  - by apply NoDup_without.
  - intros j content. rewrite elem_of_without, Hfts. cbn. rewrite Hmem. case_decide; naive_solver.
  - intros j. cbn. rewrite Hmem.
    case_decide; [subst j; by rewrite lookup_delete_eq|by rewrite lookup_delete_ne, Hmeta].
  - intros j. change (ms_memories (dropped true id s1)) with (ms_memories s1).
    change (λ m, vector_row (index_record (dropped true id s1) m j))
      with (λ m, vector_row (index_record s1 m j)).
    destruct (decide (j = id)) as [->|Hj].
    + by rewrite Hmem, decide_True, lookup_delete_eq.
    + by rewrite <- (vectors_elsewhere _ _ _ _ j Hch Hj), <- Hvec, lookup_delete_ne.
Qed.

Lemma dirty_not_synchronized s : index_synchronized (s <| ms_recall_index ::= mark_dirty |>) = false.
Proof. apply bool_decide_eq_false. cbn. done. Qed.

(** Either way the index of the new state is right when it claims to be. *)
Lemma refreshed_index_ok memory s s1 :
  changed_at (m_id memory) (Some memory) s s1 →
  (index_synchronized s = true → index_matches s) →
  let s2 := refreshed (index_synchronized s) memory s1 in
  index_synchronized s2 = true → index_matches s2.
Proof.
  intros Hch Hok. destruct (index_synchronized s); cbv zeta.
  - intros _. eapply refreshed_matches; eauto.
  - unfold refreshed. by rewrite dirty_not_synchronized.
Qed.

Lemma dropped_index_ok id s s1 :
  changed_at id None s s1 → (index_synchronized s = true → index_matches s) →
  let s2 := dropped (index_synchronized s) id s1 in
  index_synchronized s2 = true → index_matches s2.
Proof.
  intros Hch Hok. destruct (index_synchronized s); cbv zeta.
  - intros _. eapply dropped_matches; eauto.
  - unfold dropped. by rewrite dirty_not_synchronized.
Qed.

(** ** Rebuilding *)

Lemma rebuild_fts records i :
  ri_fts (foldl rebuild_step i records) =
  ri_fts i ++ ((λ r, (rec_id r, rec_content r)) <$> records).
Proof.
  revert i; induction records as [|r records IH]; intros i; cbn [foldl fmap list_fmap].
  - by rewrite app_nil_r.
  - rewrite IH. cbn. by rewrite <- app_assoc.
Qed.

Lemma rebuild_elsewhere records i j :
  j ∉ rec_id <$> records →
  ri_metadata (foldl rebuild_step i records) !! j = ri_metadata i !! j ∧
  ri_vectors (foldl rebuild_step i records) !! j = ri_vectors i !! j.
Proof.
  revert i; induction records as [|r records IH]; intros i Hj; [done|].
  cbn in Hj. apply not_elem_of_cons in Hj as [Hne Hj]. cbn [foldl].
  destruct (IH (rebuild_step i r) Hj) as [-> ->]. unfold rebuild_step. cbn. split.
  - by rewrite lookup_insert_ne.
  - case_match; [by rewrite lookup_insert_ne|done].
Qed.

Lemma rebuild_at records i r :
  NoDup (rec_id <$> records) → r ∈ records → ri_vectors i !! rec_id r = None →
  ri_metadata (foldl rebuild_step i records) !! rec_id r =
    Some (rec_eligible r, rec_expires_at_millis r) ∧
  ri_vectors (foldl rebuild_step i records) !! rec_id r = vector_row r.
Proof.
  revert i; induction records as [|r' records IH]; intros i Hnd Hr Hnone; [by apply elem_of_nil in Hr|].
  cbn in Hnd. apply NoDup_cons in Hnd as [Hr' Hnd]. cbn [foldl].
  apply elem_of_cons in Hr as [->|Hr].
  - destruct (rebuild_elsewhere records (rebuild_step i r') _ Hr') as [-> ->].
    unfold rebuild_step. cbn. rewrite lookup_insert_eq. split; [done|].
    case_match; [by rewrite lookup_insert_eq|done].
  - assert (rec_id r ≠ rec_id r') as Hne.
    { intros Heq. apply Hr'. rewrite <- Heq. by apply list_elem_of_fmap_2. }
    apply IH; [done..|]. unfold rebuild_step. cbn. case_match; [by rewrite lookup_insert_ne|done].
Qed.

Lemma all_records_ids s : rec_id <$> all_records s = keys (ms_memories s).
Proof. unfold all_records, keys. rewrite <- list_fmap_compose. by apply list_fmap_ext. Qed.

Lemma elem_of_all_records s r :
  r ∈ all_records s ↔ ∃ id m, ms_memories s !! id = Some m ∧ r = index_record s m id.
Proof.
  unfold all_records. rewrite list_elem_of_fmap. split.
  - intros ([id m] & -> & Hin%elem_of_entries). eauto.
  - intros (id & m & Hm & ->). exists (id, m). split; [done|]. by apply elem_of_entries.
Qed.

Lemma rebuilt_matches s : index_matches (s <| ms_recall_index := rebuild (all_records s) |>).
Proof.
  pose proof (NoDup_keys (ms_memories s)) as Hnd. rewrite <- all_records_ids in Hnd.
  set (s' := s <| ms_recall_index := _ |>).
  assert (∀ m id, ms_memories s !! id = Some m →
    ri_metadata (rebuild (all_records s)) !! id =
      Some (recallable (m_trust m), timestamp_millis <$> m_expires_at m) ∧
    ri_vectors (rebuild (all_records s)) !! id = vector_row (index_record s m id)) as Hat.
  { intros m id Hm. apply (rebuild_at (all_records s) (mkRecallIndex [] ∅ ∅ None) (index_record s m id));
      [done| |apply lookup_empty]. apply elem_of_all_records. eauto. }
  assert (∀ id, ms_memories s !! id = None →
    ri_metadata (rebuild (all_records s)) !! id = None ∧
    ri_vectors (rebuild (all_records s)) !! id = None) as Hno.
  { intros id Hid.
    destruct (rebuild_elsewhere (all_records s) (mkRecallIndex [] ∅ ∅ None) id) as [H1 H2].
    - rewrite all_records_ids, elem_of_keys, Hid. by intros [? ?].
    - split; [exact (eq_trans H1 (lookup_empty id))|exact (eq_trans H2 (lookup_empty id))]. }
  constructor.
  - change (ri_fts (ms_recall_index s')) with (ri_fts (foldl rebuild_step (mkRecallIndex [] ∅ ∅ None) (all_records s))).
    rewrite rebuild_fts. cbn. rewrite <- list_fmap_compose. done.
  - intros id content.
    change (ri_fts (ms_recall_index s')) with (ri_fts (foldl rebuild_step (mkRecallIndex [] ∅ ∅ None) (all_records s))).
    rewrite rebuild_fts. cbn. rewrite list_elem_of_fmap. setoid_rewrite elem_of_all_records.
    split; [intros (r & [= -> ->] & j & m & Hm & ->); cbn; by rewrite Hm|].
    intros (m & Hm & ->)%fmap_Some. exists (index_record s m id). eauto.
  - intros id. change (ri_metadata (ms_recall_index s')) with (ri_metadata (rebuild (all_records s))).
    change (ms_memories s') with (ms_memories s).
    destruct (ms_memories s !! id) as [m|] eqn:Hm; [apply (Hat m id Hm)|apply (Hno id Hm)].
  - intros id. change (ri_vectors (ms_recall_index s')) with (ri_vectors (rebuild (all_records s))).
    change (ms_memories s') with (ms_memories s).
    destruct (ms_memories s !! id) as [m|] eqn:Hm; [apply (Hat m id Hm)|apply (Hno id Hm)].
Qed.

(** ** Every operation keeps the invariant *)

Lemma store_new_ok model : StoreOk (store_new model).
Proof.
  constructor; cbn; [intros ?? H; by rewrite lookup_empty in H..|by intros ??%elem_of_empty|].
  intros _. constructor; cbn; [apply NoDup_nil_2|..].
  - intros id content. rewrite lookup_empty. split; [by intros ?%elem_of_nil|done].
  - intros id. by rewrite !lookup_empty.
  - intros id. by rewrite !lookup_empty.
Qed.

Lemma stored_changed memory embedding label s :
  changed_at (m_id memory) (Some memory) s (stored memory embedding label s).
Proof.
  constructor; [done|..].
  - intros j. cbn. case_decide; [subst; apply lookup_insert_eq|by apply lookup_insert_ne].
  - intros j Hj. cbn. destruct embedding; [by apply lookup_insert_ne|done].
  - intros j Hj. unfold stored_embedding_model_id. cbn.
    destruct embedding; [by rewrite lookup_insert_ne|done].
Qed.

Lemma stored_ok memory embedding label s :
  acceptable memory embedding label s → StoreOk s →
  StoreOk (refreshed (index_synchronized s) memory (stored memory embedding label s)).
Proof.
  intros (Hsrc & Htrust & Hemb) [Hmem Hembs Hlab Hrej Hidx]. constructor.
  - intros id m. cbn. intros [[<- <-]|[? ?]]%lookup_insert_Some; [done|by apply Hmem].
  - intros id v. cbn. intros Hv. destruct embedding as [w|].
    + apply lookup_insert_Some in Hv as [[<- <-]|[Hne Hv]]; [rewrite lookup_insert_eq; naive_solver|].
      rewrite lookup_insert_ne by done. by apply Hembs.
    + apply Hembs in Hv as [? ?]. split; [|done].
      destruct (decide (m_id memory = id)) as [->|]; [by rewrite lookup_insert_eq|by rewrite lookup_insert_ne].
  - intros id l. cbn. destruct embedding as [w|]; [|apply Hlab].
    intros [[<- <-]|[Hne Hl]]%lookup_insert_Some; [rewrite lookup_insert_eq; naive_solver|].
    rewrite lookup_insert_ne by done. by apply Hlab.
  - intros id. cbn. intros [Hid Hne]%elem_of_difference. rewrite lookup_insert_ne by set_solver.
    by apply Hrej.
  - apply refreshed_index_ok; [apply stored_changed|done].
Qed.

Lemma upsert_labeled_ok memory embedding label s :
  StoreOk s → StoreOk (state_of (upsert_labeled memory embedding label) s).
Proof.
  intros Hok. unfold state_of.
  destruct (upsert_labeled_run memory embedding label s) as [[Hacc ->]|[_ [e ->]]]; [|done].
  by apply stored_ok.
Qed.

Definition reviewed_memory (m : Memory) : Memory := m <| m_trust := ReviewedInference |>.

Lemma approve_run id s :
  StoreOk s →
  (∃ m, ms_memories s !! id = Some m ∧ m_trust m = ProposedInference ∧
     approve id s = (Ok (), refreshed (index_synchronized s) (reviewed_memory m)
       (stored (reviewed_memory m) None "" s))) ∨
  ∃ e, approve id s = (Err e, s).
Proof.
  intros Hok. unfold approve. munfold.
  destruct (ms_memories s !! id) as [m|] eqn:Hm; munfold; [|by eauto].
  case_bool_decide; munfold; [left|by eauto]. exists m. split_and!; [done..|].
  destruct (so_memories _ Hok _ _ Hm) as (Hid & _ & _).
  rewrite (alter_alt_Some _ _ _ _ Hm).
  assert (s <| ms_memories ::= λ _, <[id := reviewed_memory m]> (ms_memories s) |> =
    stored (reviewed_memory m) None "" s) as Hs.
  { unfold stored. cbn. rewrite Hid. f_equal. symmetry. apply set_eq. intros j.
    rewrite elem_of_difference, elem_of_singleton. split; [naive_solver|]. intros Hj.
    split; [done|]. intros ->. apply (so_rejected _ Hok) in Hj. congruence. }
  trans (refresh_index (index_synchronized s) id (stored (reviewed_memory m) None "" s)).
  - by rewrite <- Hs.
  - apply refresh_index_run; [|done]. rewrite <- Hid. apply lookup_insert_eq.
Qed.

Lemma approve_ok id s : StoreOk s → StoreOk (state_of (approve id) s).
Proof.
  intros Hok. unfold state_of.
  destruct (approve_run id s Hok) as [(m & Hm & Ht & ->)|[e ->]]; [|done].
  apply stored_ok; [|done]. destruct (so_memories _ Hok _ _ Hm) as (_ & ? & _). split_and!; done.
Qed.

(** A store without one memory; [f] changes the links of the others and the tombstones grow. *)
Definition removed (id : Uuid) (f : Memory → Memory) (tombstones : gset Uuid) (s : MemoryStore)
    : MemoryStore :=
  mkMemoryStore (ms_embedding_model s) (f <$> base.delete id (ms_memories s))
    (base.delete id (ms_embeddings s)) (base.delete id (ms_embedding_models s))
    (ms_rejected s ∪ tombstones) (ms_recall_index s).

(** Changes of a memory's links only. *)
Definition only_links (f : Memory → Memory) : Prop :=
  ∀ m, indexed (f m) = indexed m ∧ m_id (f m) = m_id m ∧
    m_source_event_ids (f m) = m_source_event_ids m.

Lemma only_links_same s (g : gmap Uuid Memory → gmap Uuid Memory) :
  (∀ id, indexed <$> g (ms_memories s) !! id = indexed <$> ms_memories s !! id) →
  same_indexed s (s <| ms_memories ::= g |>).
Proof. intros Hg. by constructor. Qed.

Lemma removed_matches id f tombstones s :
  only_links f → (index_synchronized s = true → index_matches s) →
  let s2 := dropped (index_synchronized s) id (removed id f tombstones s) in
  index_synchronized s2 = true → index_matches s2.
Proof.
  intros Hf Hok. cbv zeta.
  set (s1 := removed id (λ m, m) tombstones s).
  assert (changed_at id None s s1) as Hch.
  { constructor; [done|..].
    - intros j. cbn. rewrite map_fmap_id.
      case_decide; [subst; apply lookup_delete_eq|by apply lookup_delete_ne].
    - intros j Hj. by apply lookup_delete_ne.
    - intros j Hj. unfold stored_embedding_model_id. cbn. by rewrite lookup_delete_ne. }
  pose proof (dropped_index_ok id s s1 Hch Hok) as Hs1. cbv zeta in Hs1.
  assert (same_indexed (dropped (index_synchronized s) id s1)
    (dropped (index_synchronized s) id (removed id f tombstones s))) as Hsame.
  { constructor; [|..|done|done].
    - unfold dropped. cbn. by rewrite map_fmap_id, map_size_fmap.
    - intros j. cbn. rewrite map_fmap_id, lookup_fmap.
      destruct (base.delete id (ms_memories s) !! j) as [m|]; [|done]. cbn. by destruct (Hf m) as [-> _]. }
  intros Hsync. apply (index_matches_same _ _ Hsame), Hs1.
  unfold index_synchronized in *. rewrite (si_index _ _ Hsame) in Hsync.
  apply bool_decide_eq_true in Hsync. apply bool_decide_eq_true. rewrite Hsync. cbn.
  by rewrite map_fmap_id, map_size_fmap.
Qed.

Lemma removed_ok id f tombstones s :
  only_links f → (∀ j, j ∈ tombstones → j = id) → StoreOk s →
  StoreOk (dropped (index_synchronized s) id (removed id f tombstones s)).
Proof.
  intros Hf Htomb [Hmem Hemb Hlab Hrej Hidx]. constructor.
  - intros j m. cbn. intros (m' & Hm & Hm')%lookup_fmap_Some.
    apply lookup_delete_Some in Hm' as [_ Hm'].
    destruct (Hmem _ _ Hm') as (? & ? & ?). destruct (Hf m') as (Hix & ? & ?). subst m.
    unfold indexed in Hix. split_and!; congruence.
  - intros j v. cbn. intros [? Hv]%lookup_delete_Some. destruct (Hemb _ _ Hv) as [[m Hm] ?].
    split; [|done]. rewrite lookup_fmap, lookup_delete_ne, Hm by done. done.
  - intros j l. cbn. intros [? Hl]%lookup_delete_Some. rewrite lookup_delete_ne by done. by apply Hlab.
  - intros j. cbn. rewrite lookup_fmap. intros [Hj|Hj%Htomb]%elem_of_union.
    + destruct (decide (j = id)) as [->|]; [by rewrite lookup_delete_eq|].
      by rewrite lookup_delete_ne, (Hrej _ Hj).
    + subst j. by rewrite lookup_delete_eq.
  - by apply removed_matches.
Qed.

Definition unlink (id : Uuid) (m : Memory) : Memory :=
  m <| m_conflicts_with ::= filter (λ other, other ≠ id) |>.

Lemma reject_run id s :
  (∃ m, ms_memories s !! id = Some m ∧ m_trust m = ProposedInference ∧
     reject id s = (Ok (), dropped (index_synchronized s) id (removed id (λ m, m) {[id]} s))) ∨
  ∃ e, reject id s = (Err e, s).
Proof.
  unfold reject. munfold.
  destruct (ms_memories s !! id) as [m|] eqn:Hm; munfold; [|by eauto].
  case_bool_decide; munfold; [left|by eauto]. exists m. split_and!; [done..|].
  unfold dropped, removed. cbn. by rewrite map_fmap_id.
Qed.

Lemma delete_run id s :
  (∃ m, ms_memories s !! id = Some m ∧
     delete_memory id s = (Ok m, dropped (index_synchronized s) id (removed id (unlink id) ∅ s))) ∨
  (ms_memories s !! id = None ∧ delete_memory id s = (Err (Missing id), s)).
Proof.
  unfold delete_memory. munfold.
  destruct (ms_memories s !! id) as [m|] eqn:Hm; munfold; [left|by eauto]. exists m. split; [done|].
  unfold dropped, removed. cbn. by rewrite union_empty_r_L.
Qed.

Lemma reject_ok id s : StoreOk s → StoreOk (state_of (reject id) s).
Proof.
  intros Hok. unfold state_of. destruct (reject_run id s) as [(m & _ & _ & ->)|[e ->]]; [|done].
  apply removed_ok; [done|set_solver|done].
Qed.

Lemma delete_memory_ok id s : StoreOk s → StoreOk (state_of (delete_memory id) s).
Proof.
  intros Hok. unfold state_of. destruct (delete_run id s) as [(m & _ & ->)|[_ ->]]; [|done].
  apply removed_ok; [done|set_solver|done].
Qed.

Lemma add_conflict_only_links id : only_links (add_conflict id).
Proof. intros m. unfold add_conflict. by case_bool_decide. Qed.

Lemma alter_links f id (ms : gmap Uuid Memory) j :
  only_links f → indexed <$> alter f id ms !! j = indexed <$> ms !! j.
Proof.
  intros Hf. destruct (decide (j = id)) as [->|]; [|by rewrite lookup_alter_ne].
  rewrite lookup_alter_eq. destruct (ms !! id) as [m|]; [|done]. cbn. by destruct (Hf m) as [-> _].
Qed.

(** Changing links through the map keeps the invariant. *)
Lemma relink_ok (g : gmap Uuid Memory → gmap Uuid Memory) s :
  (∀ id, g (ms_memories s) !! id = None ↔ ms_memories s !! id = None) →
  (∀ id m', g (ms_memories s) !! id = Some m' → ∃ m, ms_memories s !! id = Some m ∧
     indexed m' = indexed m ∧ m_id m' = m_id m ∧ m_source_event_ids m' = m_source_event_ids m) →
  StoreOk s → StoreOk (s <| ms_memories ::= g |>).
Proof.
  intros Hnone Hsome [Hmem Hemb Hlab Hrej Hidx].
  assert (same_indexed s (s <| ms_memories ::= g |>)) as Hsame.
  { apply only_links_same. intros id. destruct (g (ms_memories s) !! id) as [m'|] eqn:Hm'.
    - destruct (Hsome _ _ Hm') as (m & -> & Hix & _). cbn. by rewrite Hix.
    - apply Hnone in Hm'. by rewrite Hm'. }
  constructor.
  - intros id m' Hm'. destruct (Hsome _ _ Hm') as (m & Hm & Hix & ? & ?).
    destruct (Hmem _ _ Hm) as (? & ? & ?). unfold indexed in Hix. split_and!; congruence.
  - intros id v Hv. destruct (Hemb _ _ Hv) as [[m Hm] ?]. split; [|done]. cbn.
    apply not_eq_None_Some. rewrite Hnone. congruence.
  - done.
  - intros id Hid. cbn. apply Hnone. by apply Hrej.
  - intros Hsync. apply (index_matches_same _ _ Hsame), Hidx.
    unfold index_synchronized in *. apply bool_decide_eq_true in Hsync. apply bool_decide_eq_true.
    cbn in Hsync. rewrite Hsync. f_equal. rewrite <- !size_dom. f_equal. apply set_eq. intros id.
    rewrite !elem_of_dom, <- !not_eq_None_Some. by rewrite Hnone.
Qed.

Lemma link_conflict_ok l r s : StoreOk s → StoreOk (state_of (link_conflict l r) s).
Proof.
  intros Hok. unfold state_of, link_conflict. munfold.
  repeat (case_bool_decide; munfold; try done).
  apply (relink_ok (λ m, alter (add_conflict l) r (alter (add_conflict r) l m))); [..|done].
  - intros id. by rewrite !lookup_alter_None.
  - assert (∀ (ms : gmap Uuid Memory) id m', alter (add_conflict l) r (alter (add_conflict r) l ms) !! id = Some m' →
      ∃ m, ms !! id = Some m ∧ (m' = m ∨ m' = add_conflict l m ∨ m' = add_conflict r m ∨
        m' = add_conflict l (add_conflict r m))) as Hcases.
    { intros ms id m'. rewrite !lookup_alter.
      repeat case_decide; subst; rewrite ?fmap_Some; naive_solver. }
    intros id m' (m & Hm & Hm')%Hcases. exists m. split; [done|].
    destruct (add_conflict_only_links r m) as (Hr1 & Hr2 & Hr3).
    destruct (add_conflict_only_links l m) as (Hl1 & Hl2 & Hl3).
    destruct (add_conflict_only_links l (add_conflict r m)) as (Hb1 & Hb2 & Hb3).
    destruct Hm' as [->|[->|[->| ->]]]; split_and!; congruence.
Qed.

Lemma index_synchronized_rebuilt s :
  index_synchronized (s <| ms_recall_index := rebuild (all_records s) |>) = true.
Proof.
  apply bool_decide_eq_true. cbn. unfold all_records. rewrite length_fmap. f_equal.
  unfold entries. by rewrite merge_sort_Permutation, length_map_to_list.
Qed.

Lemma ensure_recall_index_ok s : StoreOk s → StoreOk (ensure_recall_index s).
Proof.
  intros Hok. unfold ensure_recall_index. destruct (index_synchronized s) eqn:Hsync; [done|].
  destruct Hok as [Hmem Hemb Hlab Hrej _]. constructor; [done..|]. intros _. apply rebuilt_matches.
Qed.

(** After it the index is right. *)
Lemma ensured_matches s : StoreOk s → index_matches (ensure_recall_index s).
Proof.
  intros Hok. unfold ensure_recall_index. destruct (index_synchronized s) eqn:Hsync.
  - by apply so_index.
  - apply rebuilt_matches.
Qed.

(** A clone, or a snapshot read back, starts with an empty index. *)
Definition clone (s : MemoryStore) : MemoryStore := s <| ms_recall_index := index_default |>.

Lemma clone_ok s : StoreOk s → StoreOk (clone s).
Proof.
  intros [Hmem Hemb Hlab Hrej _]. constructor; [done..|].
  intros Hsync%bool_decide_eq_true. cbn in Hsync.
  assert (ms_memories s = ∅) as Hempty by (apply map_size_empty_iff; congruence).
  constructor; cbn; rewrite ?Hempty; [apply NoDup_nil_2|..].
  - intros id content. rewrite lookup_empty. split; [by intros ?%elem_of_nil|done].
  - intros id. by rewrite !lookup_empty.
  - intros id. by rewrite !lookup_empty.
Qed.

(** The operations of a store, with recall's effect on the index. *)
Inductive StoreOp : Type :=
  | OpUpsert (memory : Memory) (embedding : option (list f32)) (label : string)
  | OpUpsertUnlabeled (memory : Memory) (embedding : option (list f32))
  | OpApprove (id : Uuid)
  | OpReject (id : Uuid)
  | OpLink (left_ right_ : Uuid)
  | OpDelete (id : Uuid)
  | OpRecall
  | OpClone.

Definition run_op (s : MemoryStore) (op : StoreOp) : MemoryStore :=
  match op with
  | OpUpsert m e l => state_of (upsert_labeled m e l) s
  | OpUpsertUnlabeled m e => state_of (upsert m e) s
  | OpApprove id => state_of (approve id) s
  | OpReject id => state_of (reject id) s
  | OpLink l r => state_of (link_conflict l r) s
  | OpDelete id => state_of (delete_memory id) s
  | OpRecall => ensure_recall_index s
  | OpClone => clone s
  end.

Lemma run_op_ok s op : StoreOk s → StoreOk (run_op s op).
Proof.
  destruct op; cbn [run_op].
  - apply upsert_labeled_ok.
  - unfold upsert. unfold state_of. munfold. apply upsert_labeled_ok.
  - apply approve_ok.
  - apply reject_ok.
  - apply link_conflict_ok.
  - apply delete_memory_ok.
  - apply ensure_recall_index_ok.
  - apply clone_ok.
Qed.

Lemma run_ops_ok ops s : StoreOk s → StoreOk (foldl run_op s ops).
Proof. revert s; induction ops as [|op ops IH]; intros s Hok; [done|]. by apply IH, run_op_ok. Qed.

Lemma run_op_model s op : StoreOk s → ms_embedding_model (run_op s op) = ms_embedding_model s.
Proof.
  intros Hok. assert (∀ m e l, ms_embedding_model (state_of (upsert_labeled m e l) s) = ms_embedding_model s)
    as Hupsert.
  { intros m e l. unfold state_of. by destruct (upsert_labeled_run m e l s) as [[_ ->]|[_ [? ->]]]. }
  destruct op; cbn [run_op]; unfold state_of in *.
  - apply Hupsert.
  - unfold upsert. munfold. apply Hupsert.
  - by destruct (approve_run id s Hok) as [(m & _ & _ & ->)|[? ->]].
  - by destruct (reject_run id s) as [(m & _ & _ & ->)|[? ->]].
  - unfold link_conflict. munfold. by repeat (case_bool_decide; munfold).
  - by destruct (delete_run id s) as [(m & _ & ->)|[_ ->]].
  - unfold ensure_recall_index. by case_match.
  - done.
Qed.

Lemma run_ops_model model ops : ms_embedding_model (foldl run_op (store_new model) ops) = model.
Proof.
  assert (∀ s, StoreOk s → ms_embedding_model (foldl run_op s ops) = ms_embedding_model s) as Hall.
  { induction ops as [|op ops IH]; intros s Hok; [done|]. cbn [foldl].
    by rewrite IH, run_op_model by (try apply run_op_ok; done). }
  by rewrite Hall by apply store_new_ok.
Qed.

(** C14: every store reached from an empty one by any sequence of operations, failed ones
    included, is well formed: each memory is stored under its own identifier, has provenance and
    is never a recalled copy; each vector belongs to a memory, has the model's
    dimensions and only carries non-blank labels; a rejected identifier has no memory; and the
    recall index, whenever it claims to be synchronized, holds exactly the memories. *)
Theorem memory_store_invariant model ops : StoreOk (foldl run_op (store_new model) ops).
Proof. apply run_ops_ok, store_new_ok. Qed.

(** The contents of two indexes; the order of the full-text rows is left open. *)
Definition index_equiv (i j : RecallIndex) : Prop :=
  ri_fts i ≡ₚ ri_fts j ∧ ri_metadata i = ri_metadata j ∧ ri_vectors i = ri_vectors j.

Lemma index_matches_equiv s i :
  index_matches s → index_matches (s <| ms_recall_index := i |>) → index_equiv (ms_recall_index s) i.
Proof.
  intros [Hnd Hfts Hmeta Hvec] [Hnd' Hfts' Hmeta' Hvec']. cbn in *. split_and!.
  - apply NoDup_Permutation.
    + by eapply NoDup_fmap_1.
    + by eapply NoDup_fmap_1.
    + intros [id content]. by rewrite Hfts, Hfts'.
  - apply map_eq. intros id. by rewrite Hmeta, Hmeta'.
  - apply map_eq. intros id. by rewrite Hvec, Hvec'.
Qed.

(** C15: the recall index that the operations maintain row by row is equivalent to one rebuilt
    from scratch: in every reachable store, the index that recall uses holds the same rows as
    [rebuild] on all records. *)
Theorem incremental_index_is_rebuilt_index model ops :
  let s := foldl run_op (store_new model) ops in
  index_equiv (ms_recall_index (ensure_recall_index s)) (rebuild (all_records s)).
Proof.
  intros s. assert (StoreOk s) as Hok by (apply run_ops_ok, store_new_ok).
  unfold ensure_recall_index. destruct (index_synchronized s) eqn:Hsync; [|by split_and!].
  apply index_matches_equiv; [by apply so_index|apply rebuilt_matches].
Qed.

(** ** Recall *)

Lemma SFltb_asym a b : SFltb a b = true → SFltb b a = false.
Proof.
  unfold SFltb, SFcompare.
  destruct a as [[]|[]| |[] m e], b as [[]|[]| |[] m' e']; try done;
    change (Pos.compare_cont Eq) with Pos.compare;
    rewrite (Z.compare_antisym e e'), (Pos.compare_antisym m m');
    destruct (e ?= e')%Z; cbn; try done; by destruct (m ?= m')%positive.
Qed.

Global Instance result_le_total : Total result_le.
Proof.
  intros a b. unfold result_le.
  destruct (SFltb (rr_combined_score b) (rr_combined_score a)) eqn:Hba; [by left; left|].
  destruct (SFltb (rr_combined_score a) (rr_combined_score b)) eqn:Hab; [by right; left|].
  destruct (N.le_ge_cases (m_id (rr_memory a)) (m_id (rr_memory b))); [left|right]; by right.
Qed.

Lemma Sorted_take {A} (R : relation A) n l : Sorted R l → Sorted R (take n l).
Proof.
  intros Hl. revert n. induction Hl as [|x l Hl IH Hhd]; intros [|n]; cbn; try constructor; [done|].
  destruct Hhd; [by destruct n|]. destruct n; by constructor.
Qed.

Section recall_theorems.
Context `{FullText} `{CharTables}.

Lemma raw_candidate_id i id : can_id (raw_candidate i id) = id.
Proof. unfold raw_candidate. by destruct (ri_vectors i !! id). Qed.
Lemma raw_candidate_model i id : can_model_id (raw_candidate i id) = vr_model_id <$> ri_vectors i !! id.
Proof. unfold raw_candidate. by destruct (ri_vectors i !! id). Qed.

Lemma candidate_label s c q model_id limit now :
  index_matches s → c ∈ candidates (ms_recall_index s) q model_id limit now →
  ∀ m label, ms_memories s !! can_id c = Some m → can_model_id c = Some label →
  embedding_model_id s (can_id c) = Some label.
Proof.
  intros Hmatch Hc m label Hm. unfold candidates in Hc.
  destruct (limit =? 0); [by apply elem_of_nil in Hc|].
  apply list_elem_of_fmap in Hc as (id & -> & _).
  rewrite raw_candidate_id in *. rewrite raw_candidate_model, (im_vectors _ Hmatch), Hm.
  unfold embedding_model_id, vector_row, index_record. cbn.
  destruct (ms_embeddings s !! id); [by intros [= <-]|done].
Qed.

(** What recall may return for a store: a stored memory that may be recalled and has not
    expired, marked as recalled, with a positive score to which a vector contributes only if
    it comes from the model of the query. *)
Record recall_ok (s : MemoryStore) (model_id : string) (now : DateTime) (r : RecallResult) : Prop := {
  rk_memory : ∃ m, ms_memories s !! m_id m = Some m ∧ rr_memory r = recalled m ∧
    m_trust m ∉ [ProposedInference; BackgroundObservation; Recalled] ∧
    match m_expires_at m with Some expiry => (now < expiry)%Z | None => True end;
  rk_score : SFltb sf_zero (rr_combined_score r) = true;
  rk_vector : rr_vector_score r = sf_zero ∨
    embedding_model_id s (m_id (rr_memory r)) = Some model_id;
}.

Lemma recallable_trust t : recallable t = true → t ∉ [ProposedInference; BackgroundObservation].
Proof. destruct t; cbn; set_solver. Qed.

Lemma recall_results_ok query qe model_id limit now s r :
  StoreOk s → r ∈ (recall_labeled query qe model_id limit now s).1 → recall_ok s model_id now r.
Proof.
  intros Hok. unfold recall_labeled. destruct (limit =? 0); [by intros ?%elem_of_nil|]. cbn [fst].
  set (s' := ensure_recall_index s).
  assert (ms_memories s' = ms_memories s ∧ ms_embeddings s' = ms_embeddings s ∧
    ∀ id, embedding_model_id s' id = embedding_model_id s id) as (Hmems & Hembs & Hlab).
  { unfold s', ensure_recall_index. by case_match. }
  intros Hr. apply elem_of_take in Hr as (i & Hr & _). apply list_elem_of_lookup_2 in Hr.
  rewrite merge_sort_Permutation, list_elem_of_filter in Hr. destruct Hr as [Hpos Hr].
  apply list_elem_of_omap in Hr as (c & Hc & Hscore).
  unfold score in Hscore. apply bind_Some in Hscore as (m & Hm & Hscore).
  destruct (match m_expires_at m with None => true | Some e => (now <? e)%Z end) eqn:Hexp; [|done].
  destruct (recallable (m_trust m)) eqn:Hrec; [|done]. cbn [andb] in Hscore.
  injection Hscore as <-. rewrite Hmems in Hm.
  destruct (so_memories _ Hok _ _ Hm) as (Hid & _ & Htrust). constructor; cbn [rr_memory].
  - exists m. rewrite Hid. split_and!; [done|done| |].
    + apply recallable_trust in Hrec. set_solver.
    + destruct (m_expires_at m); [by apply Z.ltb_lt|done].
  - done.
  - cbn [rr_vector_score]. destruct (decide (can_model_id c = Some model_id)) as [Hmodel|Hmodel].
    2:{ left. by rewrite bool_decide_eq_false_2. }
    right. cbn. rewrite Hid, <- Hlab. eapply candidate_label; [by apply ensured_matches|done| |done].
    by rewrite Hmems.
Qed.

Lemma recall_sorted query qe model_id limit now s :
  Sorted result_le (recall_labeled query qe model_id limit now s).1 ∧
  length (recall_labeled query qe model_id limit now s).1 ≤ limit.
Proof.
  unfold recall_labeled. destruct (Nat.eqb_spec limit 0); cbn [fst]; [split; [constructor|cbn; lia]|].
  split; [|rewrite length_take; lia]. apply Sorted_take, Sorted_merge_sort, _.
Qed.

(** Recall is safe and ranked.  In every reachable store, recall returns at most the limit,
    ordered by score and then by identifier; every result is a stored memory that is neither
    an unreviewed inference nor a background observation and has not expired, has a
    positive score with a vector part only from the query's embedding model, and is marked
    as recalled, so that storing it again is refused. *)
Theorem recall_is_safe model ops query qe model_id limit now :
  let s := foldl run_op (store_new model) ops in
  let results := (recall_labeled query qe model_id limit now s).1 in
  Sorted result_le results ∧ length results ≤ limit ∧
  ∀ r, r ∈ results → recall_ok s model_id now r ∧
    ∀ embedding label, upsert_labeled (rr_memory r) embedding label s = (Err RecursiveExtraction, s).
Proof.
  intros s results. assert (StoreOk s) as Hok by (apply run_ops_ok, store_new_ok).
  destruct (recall_sorted query qe model_id limit now s). split_and!; [done..|].
  intros r Hr. assert (recall_ok s model_id now r) as Hrk by (by eapply recall_results_ok).
  split; [done|]. intros embedding label.
  destruct (rk_memory _ _ _ _ Hrk) as (m & Hm & -> & _).
  destruct (so_memories _ Hok _ _ Hm) as (_ & Hsrc & _).
  unfold upsert_labeled. munfold. by rewrite bool_decide_eq_false_2.
Qed.
End recall_theorems.
