(* ===== verification/MemoryStorage.v ===== *)
(** * Memory: storage round trips and namespaces

    The storage rows of a store rebuild it, encoded vectors decode to themselves, and a
    deleted namespace leaves nothing behind and touches nothing else. *)

From stdpp Require Import base gmap strings list sorting pretty.
From Stdlib Require Import Ascii SpecFloat.
From S2P Require Import Prelude Text Memory MemorySpec.

(** ** Vectors *)

Definition is_f32 (b : f32) : Prop := (b < 2 ^ 32)%N.

Lemma le_bytes_round b :
  is_f32 b → ∃ x y z w, to_le_bytes b = [x; y; z; w] ∧ from_le_bytes x y z w = b.
Proof.
  intros Hb. unfold to_le_bytes. do 4 eexists. split; [done|].
  unfold from_le_bytes, is_f32 in *. change 255%N with (N.ones 8). rewrite !N.land_ones, !N.shiftr_div_pow2.
  change (2 ^ 8)%N with 256%N. change (2 ^ 16)%N with 65536%N. change (2 ^ 24)%N with 16777216%N.
  change (2 ^ 32)%N with 4294967296%N in Hb.
  zify. Z.to_euclidean_division_equations. lia.
Qed.

Lemma decode_chunks_encode v : Forall is_f32 v → decode_chunks (encode_vector v) = Some v.
Proof.
  induction 1 as [|b v Hb Hv IH]; [done|].
  destruct (le_bytes_round b Hb) as (x & y & z & w & Hbytes & Hround).
  change (encode_vector (b :: v)) with (to_le_bytes b ++ encode_vector v).
  rewrite Hbytes. cbn [app decode_chunks]. by rewrite IH, Hround.
Qed.

Lemma length_encode_vector v : length (encode_vector v) = length v * 4.
Proof.
  induction v as [|b v IH]; [done|].
  change (encode_vector (b :: v)) with (to_le_bytes b ++ encode_vector v).
  rewrite length_app, IH. cbn. lia.
Qed.

(** A vector read back from the index is the one that was written. *)
Lemma decode_encode_vector v :
  Forall is_f32 v → decode_vector (encode_vector v) (Z.of_nat (length v)) = Some v.
Proof.
  intros Hv. unfold decode_vector. rewrite length_encode_vector.
  destruct (Z.ltb_spec (Z.of_nat (length v)) 0); [lia|].
  destruct (Z.eqb_spec (Z.of_nat (length v * 4)) (Z.of_nat (length v) * 4)); [|lia].
  by apply decode_chunks_encode.
Qed.

(** ** Storage rows *)

Definition row_at (rows : list MemoryStorageRow) (id : Uuid) : option MemoryStorageRow :=
  find (λ r, bool_decide (row_id r = id)) rows.

Definition row_ok (model : EmbeddingModel) (row : MemoryStorageRow) : Prop :=
  match row with
  | Active m e l =>
    m_source_event_ids m ≠ [] ∧ m_trust m ≠ Recalled ∧
    match e, l with
    | Some v, Some label => length v = em_dimensions model ∧ is_blank label = false
    | None, None => True
    | _, _ => False
    end
  | Rejected _ => True
  end.

(** What loading rows into a store makes of it. *)
Record loaded (rows : list MemoryStorageRow) (s s' : MemoryStore) : Prop := {
  ld_model : ms_embedding_model s' = ms_embedding_model s;
  ld_memories id : ms_memories s' !! id =
    match row_at rows id with Some (Active m _ _) => Some m | _ => ms_memories s !! id end;
  ld_embeddings id : ms_embeddings s' !! id =
    match row_at rows id with Some (Active _ (Some v) _) => Some v | _ => ms_embeddings s !! id end;
  ld_labels id : ms_embedding_models s' !! id =
    match row_at rows id with
    | Some (Active _ (Some _) (Some l)) => Some l
    | _ => ms_embedding_models s !! id
    end;
  ld_rejected id : id ∈ ms_rejected s' ↔
    match row_at rows id with
    | Some (Active _ _ _) => False
    | Some (Rejected _) => True
    | None => id ∈ ms_rejected s
    end;
}.

Lemma load_row_run row s :
  row_ok (ms_embedding_model s) row →
  ∃ s', load_row row s = (Ok (), s') ∧ loaded [row] s s'.
Proof.
  destruct row as [m e l|id]; cbn [row_ok load_row].
  - intros (Hsrc & Htrust & Hemb).
    assert (∃ label, acceptable m e label s ∧
      load_row (Active m e l) s = upsert_labeled m e label s ∧
      (is_Some e → l = Some label)) as (label & Hacc & Hrun & Hlabel).
    { destruct e as [v|], l as [label|]; try done.
      - exists label. done.
      - exists (legacy_compatible_embedding_model_id s). split; [done|]. split; [done|]. by intros [? ?]. }
    cbn [load_row] in Hrun. rewrite Hrun. clear Hrun.
    destruct (upsert_labeled_run m e label s) as [[_ ->]|[? _]]; [|done].
    eexists. split; [done|]. constructor; [done|..]; intros id; unfold row_at; cbn;
      (destruct (decide (m_id m = id)) as [->|Hne];
        [rewrite bool_decide_eq_true_2 by done|rewrite bool_decide_eq_false_2 by done]).
    + by rewrite lookup_insert_eq.
    + by rewrite lookup_insert_ne.
    + destruct e; [by rewrite lookup_insert_eq|done].
    + destruct e; [by rewrite lookup_insert_ne|done].
    + destruct e; [|done]. rewrite (Hlabel ltac:(eauto)). by rewrite lookup_insert_eq.
    + destruct e; [by rewrite lookup_insert_ne|done].
    + set_solver.
    + set_solver.
  - intros _. eexists. split; [done|]. constructor; [done|..]; intros j; unfold row_at; cbn;
      (destruct (decide (id = j)) as [->|Hne];
        [rewrite bool_decide_eq_true_2 by done|rewrite bool_decide_eq_false_2 by done]); try done.
    + set_solver.
    + set_solver.
Qed.

Lemma row_at_cons row rows id :
  row_at (row :: rows) id = if decide (row_id row = id) then Some row else row_at rows id.
Proof. unfold row_at. cbn. case_bool_decide; by case_decide. Qed.

Lemma row_at_None rows id : id ∉ row_id <$> rows → row_at rows id = None.
Proof.
  induction rows as [|row rows IH]; [done|]. cbn [fmap list_fmap]. intros [Hne Hid]%not_elem_of_cons.
  rewrite row_at_cons, decide_False by done. by apply IH.
Qed.

Lemma row_at_Some rows row : NoDup (row_id <$> rows) → row ∈ rows → row_at rows (row_id row) = Some row.
Proof.
  induction rows as [|row' rows IH]; [by intros _ ?%elem_of_nil|].
  cbn [fmap list_fmap]. intros [Hnot Hnd]%NoDup_cons [->|Hin]%elem_of_cons; rewrite row_at_cons; [by rewrite decide_True|].
  rewrite decide_False; [by apply IH|]. intros Heq. apply Hnot. rewrite Heq. by apply list_elem_of_fmap_2.
Qed.

Lemma row_at_perm rows rows' : NoDup (row_id <$> rows) → rows ≡ₚ rows' → ∀ id, row_at rows id = row_at rows' id.
Proof.
  intros Hnd Hp id. destruct (decide (id ∈ row_id <$> rows)) as [Hin|Hin].
  - apply list_elem_of_fmap in Hin as (row & -> & Hin). rewrite !row_at_Some; [done|by rewrite <- Hp|by rewrite <- Hp|done|done].
  - rewrite !row_at_None; [done|by rewrite <- Hp|done].
Qed.

(** Loading one row and then others, with another identifier each. *)
Lemma loaded_cons row rows s s1 s2 :
  row_id row ∉ row_id <$> rows → loaded [row] s s1 → loaded rows s1 s2 → loaded (row :: rows) s s2.
Proof.
  intros Hnot [Hm1 Hmem1 He1 Hl1 Hr1] [Hm2 Hmem2 He2 Hl2 Hr2].
  assert (∀ id, row_at [row] id = if decide (row_id row = id) then Some row else None) as Hone
    by (intros id; apply row_at_cons).
  constructor; [congruence|..]; intros id; rewrite row_at_cons;
    [rewrite Hmem2, Hmem1|rewrite He2, He1|rewrite Hl2, Hl1|]; rewrite ?Hone;
    try (case_decide; [subst id; by rewrite row_at_None|done]).
  specialize (Hr1 id). rewrite Hone in Hr1. rewrite Hr2.
  case_decide; [subst id; by rewrite row_at_None|]. by destruct (row_at rows id) as [[]|].
Qed.

Lemma load_rows_run rows seen s :
  NoDup (row_id <$> rows) → (∀ row, row ∈ rows → row_id row ∉ seen) →
  Forall (row_ok (ms_embedding_model s)) rows →
  ∃ s', load_rows seen rows s = (Ok (), s') ∧ loaded rows s s'.
Proof.
  revert seen s; induction rows as [|row rows IH]; intros seen s Hnd Hseen Hok.
  { exists s. split; [done|]. by constructor. }
  cbn [fmap list_fmap] in Hnd. apply NoDup_cons in Hnd as [Hnot Hnd].
  apply Forall_cons in Hok as [Hrow Hok].
  destruct (load_row_run row s Hrow) as (s1 & Hrun & Hload).
  destruct (IH ({[row_id row]} ∪ seen) s1) as (s2 & Hrest & Hload'); [done|..].
  - intros row' Hin. rewrite not_elem_of_union, not_elem_of_singleton. split.
    + intros Heq. apply Hnot. rewrite <- Heq. by apply list_elem_of_fmap_2.
    + apply Hseen. by right.
  - by rewrite (ld_model _ _ _ Hload).
  - exists s2. split; [|by eapply loaded_cons]. cbn [load_rows]. munfold.
    rewrite bool_decide_eq_false_2 by (apply Hseen; by left). munfold. by rewrite Hrun.
Qed.

(** ** The rows of a store *)

Section rows.
Context (s : MemoryStore) (Hok : StoreOk s).

Lemma elem_of_storage_rows row :
  row ∈ storage_rows s ↔
  (∃ m, ms_memories s !! m_id m = Some m ∧ row = active_row s m) ∨
  (∃ id, id ∈ ms_rejected s ∧ row = Rejected id).
Proof.
  unfold storage_rows. rewrite merge_sort_Permutation, elem_of_app, !list_elem_of_fmap.
  setoid_rewrite elem_of_elements. setoid_rewrite elem_of_values. split.
  - intros [(m & -> & id & Hm)|(id & -> & Hid)]; [left|right; eauto].
    destruct (so_memories _ Hok _ _ Hm) as (<- & _). eauto.
  - intros [(m & Hm & ->)|(id & Hid & ->)]; eauto 10.
Qed.

Lemma values_ids : m_id <$> values (ms_memories s) = keys (ms_memories s).
Proof.
  unfold values, keys. rewrite <- list_fmap_compose. apply list_fmap_ext. intros i [id m] Hi.
  apply list_elem_of_lookup_2, elem_of_entries in Hi. by destruct (so_memories _ Hok _ _ Hi) as (<- & _).
Qed.

Lemma storage_rows_unique : NoDup (row_id <$> storage_rows s).
Proof.
  unfold storage_rows. rewrite merge_sort_Permutation, fmap_app, <- !list_fmap_compose.
  change (row_id ∘ Rejected) with (@id Uuid). rewrite list_fmap_id.
  change (row_id ∘ active_row s) with m_id. rewrite values_ids.
  apply NoDup_app. split_and!; [apply NoDup_keys| |apply NoDup_elements].
  intros id [m Hm]%elem_of_keys Hrej%elem_of_elements. apply (so_rejected _ Hok) in Hrej. congruence.
Qed.

Lemma row_at_storage id :
  row_at (storage_rows s) id =
  match ms_memories s !! id with
  | Some m => Some (active_row s m)
  | None => if decide (id ∈ ms_rejected s) then Some (Rejected id) else None
  end.
Proof.
  pose proof storage_rows_unique as Hnd.
  destruct (ms_memories s !! id) as [m|] eqn:Hm.
  - destruct (so_memories _ Hok _ _ Hm) as (Hid & _).
    rewrite <- Hid. apply (row_at_Some _ (active_row s m) Hnd).
    apply elem_of_storage_rows. left. exists m. by rewrite Hid.
  - case_decide as Hrej.
    + apply (row_at_Some _ (Rejected id) Hnd). apply elem_of_storage_rows. eauto.
    + apply row_at_None. intros (row & -> & Hrow)%list_elem_of_fmap.
      apply elem_of_storage_rows in Hrow as [(m & Hm' & ->)|(j & Hj & ->)]; [cbn in *; congruence|done].
Qed.

Lemma storage_rows_ok :
  is_blank (legacy_compatible_embedding_model_id s) = false →
  Forall (row_ok (ms_embedding_model s)) (storage_rows s).
Proof.
  intros Hlegacy. apply Forall_forall. intros row [(m & Hm & ->)|(id & Hid & ->)]%elem_of_storage_rows; [|done].
  destruct (so_memories _ Hok _ _ Hm) as (_ & ? & ?). cbn. split_and!; [done..|].
  unfold embedding_model_id. destruct (ms_embeddings s !! m_id m) as [v|] eqn:Hv; [|done].
  split; [by apply (so_embeddings _ Hok _ _ Hv)|]. unfold stored_embedding_model_id.
  destruct (ms_embedding_models s !! m_id m) as [l|] eqn:Hl; [|done]. by apply (so_models _ Hok _ _ Hl).
Qed.

(** The rows of the store in any order. *)
Lemma storage_round_trip_store rows :
  rows ≡ₚ storage_rows s → is_blank (legacy_compatible_embedding_model_id s) = false →
  ∃ s', from_storage_rows (ms_embedding_model s) rows = Ok s' ∧
    ms_memories s' = ms_memories s ∧ ms_embeddings s' = ms_embeddings s ∧
    (∀ id, embedding_model_id s' id = embedding_model_id s id) ∧
    ms_rejected s' = ms_rejected s ∧ storage_rows s' = storage_rows s.
Proof.
  intros Hperm Hlegacy. pose proof storage_rows_unique as Hnd.
  assert (NoDup (row_id <$> rows)) as Hnd' by (by rewrite Hperm).
  destruct (load_rows_run rows ∅ (store_new (ms_embedding_model s)))
    as (s' & Hrun & [Hmodel Hmem Hemb Hlab Hrej]);
    [done|set_solver|rewrite Hperm; by apply storage_rows_ok|].
  setoid_rewrite (row_at_perm _ _ Hnd' Hperm) in Hmem. setoid_rewrite (row_at_perm _ _ Hnd' Hperm) in Hemb.
  setoid_rewrite (row_at_perm _ _ Hnd' Hperm) in Hlab. setoid_rewrite (row_at_perm _ _ Hnd' Hperm) in Hrej.
  assert (ms_memories s' = ms_memories s) as HM.
  { apply map_eq. intros id. rewrite Hmem, row_at_storage. cbn. rewrite lookup_empty.
    destruct (ms_memories s !! id); [done|]. by case_decide. }
  assert (ms_embeddings s' = ms_embeddings s) as HE.
  { apply map_eq. intros id. rewrite Hemb, row_at_storage. cbn. rewrite lookup_empty.
    destruct (ms_memories s !! id) as [m|] eqn:Hm.
    - unfold active_row. destruct (so_memories _ Hok _ _ Hm) as (-> & _).
      by destruct (ms_embeddings s !! id).
    - assert (ms_embeddings s !! id = None) as ->; [|by case_decide].
      destruct (ms_embeddings s !! id) as [v|] eqn:Hv; [|done].
      destruct (so_embeddings _ Hok _ _ Hv) as [[? ?] _]. congruence. }
  assert (∀ id, embedding_model_id s' id = embedding_model_id s id) as HL.
  { intros id. unfold embedding_model_id at 1. rewrite HE.
    destruct (ms_embeddings s !! id) as [v|] eqn:Hv; [|unfold embedding_model_id; by rewrite Hv].
    destruct (so_embeddings _ Hok _ _ Hv) as [[m Hm] _].
    unfold stored_embedding_model_id at 1. rewrite Hlab, row_at_storage, Hm. unfold active_row.
    destruct (so_memories _ Hok _ _ Hm) as (-> & _). rewrite Hv.
    unfold embedding_model_id. by rewrite Hv. }
  assert (ms_rejected s' = ms_rejected s) as HR.
  { apply set_eq. intros id. rewrite Hrej, row_at_storage.
    destruct (ms_memories s !! id) as [m|] eqn:Hm.
    - split; [done|]. intros Hid%(so_rejected _ Hok). congruence.
    - case_decide; [done|]. cbn. set_solver. }
  exists s'. unfold from_storage_rows. rewrite Hrun. split_and!; [done..|].
  unfold storage_rows. rewrite HM, HR. f_equal. f_equal. apply list_fmap_ext. intros i m _.
  unfold active_row. by rewrite HE, HL.
Qed.
End rows.

(** Storage rows are a faithful copy of the store.  For every store reached by any sequence of
    operations with a model whose identifier is not blank, writing the rows and reading them
    back succeeds and gives a store with the same memories, vectors, vector labels and
    tombstones, and hence the same rows again. *)
Theorem storage_rows_round_trip model ops :
  is_blank (em_id model) = false →
  let s := foldl run_op (store_new model) ops in
  ∃ s', from_storage_rows model (storage_rows s) = Ok s' ∧
    ms_memories s' = ms_memories s ∧ ms_embeddings s' = ms_embeddings s ∧
    (∀ id, embedding_model_id s' id = embedding_model_id s id) ∧
    ms_rejected s' = ms_rejected s ∧ storage_rows s' = storage_rows s.
Proof.
  intros Hblank s. assert (StoreOk s) as Hok by (apply run_ops_ok, store_new_ok).
  assert (ms_embedding_model s = model) as Hmodel by apply run_ops_model.
  rewrite <- Hmodel. apply storage_round_trip_store; [done|done|].
  unfold legacy_compatible_embedding_model_id. rewrite Hmodel. by case_bool_decide.
Qed.

(** ** Namespaces *)

(** The same memory with at most fewer conflict links. *)
Definition fewer_links (m m' : Memory) : Prop :=
  m' = m <| m_conflicts_with := m_conflicts_with m' |> ∧ m_conflicts_with m' ⊆ m_conflicts_with m.

Global Instance fewer_links_refl : Reflexive fewer_links.
Proof. by intros []. Qed.
Global Instance fewer_links_trans : Transitive fewer_links.
Proof.
  intros m1 m2 m3 [H1 Hs1] [H2 Hs2]. split; [|by trans (m_conflicts_with m2)].
  rewrite H2, H1. by destruct m1.
Qed.

Lemma unlink_fewer id m : fewer_links m (unlink id m).
Proof. split; [by destruct m|]. cbn. intros j. rewrite list_elem_of_filter. tauto. Qed.

(** [p'] is [p] without the memories [ids]. *)
Record forgotten (ids : list Uuid) (p p' : PersistentMemory) : Prop := {
  fg_store : StoreOk (pm_store p) → StoreOk (pm_store p');
  fg_gone id : id ∈ ids → ms_memories (pm_store p') !! id = None ∧ pm_scopes p' !! id = None;
  fg_kept id : id ∉ ids →
    option_Forall2 fewer_links (ms_memories (pm_store p) !! id) (ms_memories (pm_store p') !! id) ∧
    ms_embeddings (pm_store p') !! id = ms_embeddings (pm_store p) !! id ∧
    pm_scopes p' !! id = pm_scopes p !! id;
  fg_style : pm_style p' = pm_style p;
  fg_nodes : pm_project_nodes p' = pm_project_nodes p;
  fg_relations : pm_project_relations p' = pm_project_relations p;
}.

Lemma option_links_refl (o : option Memory) : option_Forall2 fewer_links o o.
Proof. destruct o; by constructor. Qed.

Lemma option_links_trans (o1 o2 o3 : option Memory) :
  option_Forall2 fewer_links o1 o2 → option_Forall2 fewer_links o2 o3 → option_Forall2 fewer_links o1 o3.
Proof. intros [m1 m2 H1|] H2; inversion H2; subst; constructor. by trans m2. Qed.

Lemma forget_forgotten id p : forgotten [id] p (forget id p).
Proof.
  unfold forget. constructor; [..|done|done|done].
  - cbn. apply delete_memory_ok.
  - intros j ->%list_elem_of_singleton. cbn. rewrite lookup_delete_eq. split; [|done].
    unfold state_of. destruct (delete_run id (pm_store p)) as [(m & _ & ->)|[Hnone ->]]; [|done].
    cbn. by rewrite lookup_fmap, lookup_delete_eq.
  - intros j Hj%not_elem_of_cons. destruct Hj as [Hj _]. cbn. rewrite lookup_delete_ne by done.
    unfold state_of. destruct (delete_run id (pm_store p)) as [(m & _ & ->)|[Hnone ->]];
      [|split_and!; [apply option_links_refl|done..]].
    cbn. rewrite lookup_fmap, !lookup_delete_ne by done. split_and!; [|done..].
    destruct (ms_memories (pm_store p) !! j); constructor. apply unlink_fewer.
Qed.

Lemma forgotten_trans ids1 ids2 p1 p2 p3 :
  forgotten ids1 p1 p2 → forgotten ids2 p2 p3 → forgotten (ids1 ++ ids2) p1 p3.
Proof.
  intros [Hs1 Hg1 Hk1 ? ? ?] [Hs2 Hg2 Hk2 ? ? ?]. constructor; [by eauto|..]; try congruence.
  - intros id Hid. destruct (decide (id ∈ ids2)) as [|Hn]; [by apply Hg2|].
    apply elem_of_app in Hid as [Hid|]; [|done]. destruct (Hg1 id Hid) as [Hm Hsc].
    destruct (Hk2 id Hn) as (Hf & _ & Hsc'). rewrite Hm in Hf. inversion Hf. split; congruence.
  - intros id [Hn1 Hn2]%not_elem_of_app. destruct (Hk1 id Hn1) as (? & ? & ?), (Hk2 id Hn2) as (? & ? & ?).
    split_and!; [by eapply option_links_trans|congruence..].
Qed.

Lemma forget_all_forgotten ids p : forgotten ids p (foldl (λ p id, forget id p) p ids).
Proof.
  revert p; induction ids as [|id ids IH]; intros p; cbn [foldl].
  - constructor; [done|by intros ? ?%elem_of_nil|intros j _; split_and!; [apply option_links_refl|done..]|done..].
  - apply (forgotten_trans [id] ids p (forget id p)); [apply forget_forgotten|apply IH].
Qed.

Definition scoped_ids (namespace : MemoryNamespace) (p : PersistentMemory) : list Uuid :=
  (filter (λ e : Uuid * MemoryNamespace, e.2 = namespace) (entries (pm_scopes p))).*1.

Lemma elem_of_scoped_ids namespace p id :
  id ∈ scoped_ids namespace p ↔ pm_scopes p !! id = Some namespace.
Proof.
  unfold scoped_ids. rewrite list_elem_of_fmap. split.
  - intros ([j n] & -> & [Hn Hin]%list_elem_of_filter). cbn in Hn. subst n. by apply elem_of_entries in Hin.
  - intros Hid. exists (id, namespace). split; [done|]. apply list_elem_of_filter.
    split; [done|]. by apply elem_of_entries.
Qed.

(** ** The invariant of the namespace-aware memory *)

Record PersistentOk (p : PersistentMemory) : Prop := {
  po_store : StoreOk (pm_store p);
  po_style id s : pm_style p !! id = Some s → sp_id s = id ∧ sp_source_event_ids s ≠ [];
  po_nodes id n : pm_project_nodes p !! id = Some n → pn_id n = id ∧ pn_source_event_ids n ≠ [];
  po_relations r : r ∈ pm_project_relations p →
    is_Some (pm_project_nodes p !! pr_from r) ∧ is_Some (pm_project_nodes p !! pr_to r) ∧
    pr_source_event_ids r ≠ [];
  po_unique : NoDup (pm_project_relations p);
}.

Inductive PersistentOp : Type :=
  | OnStore (op : StoreOp)
  | OpRemember (namespace : MemoryNamespace) (memory : Memory) (embedding : option (list f32))
  | OpProposeStyle (preference : StylePreference)
  | OpReviewStyle (id : Uuid) (accept : bool)
  | OpNode (node : ProjectNode)
  | OpRelation (relation : ProjectRelation)
  | OpDeleteNamespace (namespace : MemoryNamespace).

Definition run_persistent (p : PersistentMemory) (op : PersistentOp) : PersistentMemory :=
  match op with
  | OnStore op => p <| pm_store ::= λ s, run_op s op |>
  | OpRemember n m e => state_of (remember n m e) p
  | OpProposeStyle s => state_of (propose_style s) p
  | OpReviewStyle id accept => state_of (review_style id accept) p
  | OpNode n => state_of (upsert_project_node n) p
  | OpRelation r => state_of (link_project_nodes r) p
  | OpDeleteNamespace n => (delete_namespace n p).2
  end.

Lemma remember_ok n m e p : PersistentOk p → PersistentOk (state_of (remember n m e) p).
Proof.
  intros [Hs Hst Hn Hr Hu]. unfold state_of, remember, on_store. munfold.
  destruct (namespace_validate n) as [[]|?|]; [|done..]. munfold.
  pose proof (upsert_labeled_ok m e (legacy_compatible_embedding_model_id (pm_store p)) _ Hs) as Hok.
  unfold state_of in Hok. unfold upsert. munfold.
  destruct (upsert_labeled m e _ (pm_store p)) as [[[]|?|] s']; by constructor.
Qed.

Lemma propose_style_ok s p : PersistentOk p → PersistentOk (state_of (propose_style s) p).
Proof.
  intros [Hs Hst Hn Hr Hu]. unfold state_of, propose_style. munfold.
  destruct (namespace_validate _) as [[]|?|]; [|done..]. munfold. case_bool_decide; [done|]. munfold.
  constructor; [done| |done..]. cbn. intros id s' [[<- <-]|[? ?]]%lookup_insert_Some; [done|by apply Hst].
Qed.

Lemma review_style_ok id accept p : PersistentOk p → PersistentOk (state_of (review_style id accept) p).
Proof.
  intros [Hs Hst Hn Hr Hu]. unfold state_of, review_style. munfold.
  destruct (pm_style p !! id) as [s|] eqn:Hid; [|done]. munfold.
  destruct accept; (constructor; [done| |done..]); cbn; intros j s'.
  - rewrite lookup_alter. case_decide; [subst j|apply Hst]. rewrite Hid. intros [= <-].
    exact (Hst id s Hid).
  - intros [_ ?]%lookup_delete_Some. by apply Hst.
Qed.

Lemma upsert_project_node_ok n p : PersistentOk p → PersistentOk (state_of (upsert_project_node n) p).
Proof.
  intros [Hs Hst Hn Hr Hu]. unfold state_of, upsert_project_node. munfold.
  destruct (namespace_validate _) as [[]|?|]; [|done..]. munfold. case_bool_decide; [done|]. munfold.
  constructor; [done|done| | |done]; cbn.
  - intros id n' [[<- <-]|[? ?]]%lookup_insert_Some; [done|by apply Hn].
  - intros r (? & ? & ?)%Hr. split_and!; [by apply lookup_insert_is_Some'; right..|done].
Qed.

Lemma link_project_nodes_ok r p : PersistentOk p → PersistentOk (state_of (link_project_nodes r) p).
Proof.
  intros [Hs Hst Hn Hr Hu]. unfold state_of, link_project_nodes, ensure_not. munfold.
  repeat (case_bool_decide; munfold; try done).
  constructor; [done..| |]; cbn.
  - intros r' [Hr'|Hr']%elem_of_app; [by apply Hr|].
    apply list_elem_of_singleton in Hr' as ->. done.
  - apply NoDup_app. split_and!; [done| |apply NoDup_singleton].
    intros r' Hr' ->%list_elem_of_singleton. done.
Qed.

(** The pieces of a deleted namespace. *)
Lemma delete_namespace_spec namespace p :
  ∃ p0, forgotten (scoped_ids namespace p) p p0 ∧
    (delete_namespace namespace p).1 = length (scoped_ids namespace p) ∧
    pm_store (delete_namespace namespace p).2 = pm_store p0 ∧
    pm_scopes (delete_namespace namespace p).2 = pm_scopes p0 ∧
    (∀ id s, pm_style (delete_namespace namespace p).2 !! id = Some s ↔
       pm_style p !! id = Some s ∧ sp_namespace s ≠ namespace) ∧
    (∀ id n, pm_project_nodes (delete_namespace namespace p).2 !! id = Some n ↔
       pm_project_nodes p !! id = Some n ∧ pn_namespace n ≠ namespace) ∧
    pm_project_relations (delete_namespace namespace p).2 =
      filter (λ r, pr_from r ∉ dom (filter (λ e : Uuid * ProjectNode, pn_namespace e.2 = namespace)
                    (pm_project_nodes p)) ∧
                   pr_to r ∉ dom (filter (λ e : Uuid * ProjectNode, pn_namespace e.2 = namespace)
                    (pm_project_nodes p))) (pm_project_relations p).
Proof.
  pose proof (forget_all_forgotten (scoped_ids namespace p) p) as Hf.
  set (p0 := foldl (λ p id, forget id p) p (scoped_ids namespace p)) in *.
  exists p0. pose proof Hf as [_ _ _ Hstyle Hnodes Hrels].
  split_and!; [done..| | |].
  - intros id s. change (pm_style (delete_namespace namespace p).2)
      with (filter (λ e : Uuid * StylePreference, sp_namespace e.2 ≠ namespace) (pm_style p0)).
    by rewrite Hstyle, map_lookup_filter_Some.
  - intros id n. change (pm_project_nodes (delete_namespace namespace p).2)
      with (filter (λ e : Uuid * ProjectNode, e.1 ∉ (dom (filter (λ e : Uuid * ProjectNode,
        pn_namespace e.2 = namespace) (pm_project_nodes p0)) : gset Uuid)) (pm_project_nodes p0)).
    rewrite Hnodes, map_lookup_filter_Some. cbn. rewrite elem_of_dom. split; intros [Hn Hno]; (split; [done|]).
    + intros Heq. apply Hno. exists n. by apply map_lookup_filter_Some.
    + intros [n' [Hn' Heq]%map_lookup_filter_Some]. cbn in Heq. congruence.
  - change (pm_project_relations (delete_namespace namespace p).2)
      with (filter (λ r, pr_from r ∉ (dom (filter (λ e : Uuid * ProjectNode,
        pn_namespace e.2 = namespace) (pm_project_nodes p0)) : gset Uuid) ∧
        pr_to r ∉ (dom (filter (λ e : Uuid * ProjectNode,
        pn_namespace e.2 = namespace) (pm_project_nodes p0)) : gset Uuid)) (pm_project_relations p0)).
    by rewrite Hnodes, Hrels.
Qed.

Lemma delete_namespace_ok namespace p : PersistentOk p → PersistentOk (delete_namespace namespace p).2.
Proof.
  intros [Hs Hst Hn Hr Hu].
  destruct (delete_namespace_spec namespace p) as (p0 & Hf & _ & Hstore & _ & Hstyle & Hnodes & Hrels).
  constructor.
  - rewrite Hstore. by apply (fg_store _ _ _ Hf).
  - intros id s [? _]%Hstyle. by apply Hst.
  - intros id n [? _]%Hnodes. by apply Hn.
  - intros r. rewrite Hrels. intros [[Hfrom Hto] Hin]%list_elem_of_filter.
    destruct (Hr _ Hin) as ([n1 H1] & [n2 H2] & ?).
    split_and!; [exists n1|exists n2|done]; apply Hnodes; (split; [done|]); intros Heq;
      [apply Hfrom|apply Hto]; apply elem_of_dom; eexists; by apply map_lookup_filter_Some.
  - rewrite Hrels. by apply NoDup_filter.
Qed.

Lemma run_persistent_ok p op : PersistentOk p → PersistentOk (run_persistent p op).
Proof.
  destruct op; cbn [run_persistent].
  - intros [Hs Hst Hn Hr Hu]. constructor; [by apply run_op_ok|done..].
  - apply remember_ok.
  - apply propose_style_ok.
  - apply review_style_ok.
  - apply upsert_project_node_ok.
  - apply link_project_nodes_ok.
  - apply delete_namespace_ok.
Qed.

Lemma run_all_persistent_ok ops p : PersistentOk p → PersistentOk (foldl run_persistent p ops).
Proof.
  revert p; induction ops as [|op ops IH]; intros p Hok; [done|]. by apply IH, run_persistent_ok.
Qed.

Lemma persistent_new_ok model : PersistentOk (persistent_new model).
Proof.
  constructor; cbn; [apply store_new_ok|intros ?? H; by rewrite lookup_empty in H..| |apply NoDup_nil_2].
  by intros r ?%elem_of_nil.
Qed.

(** The project graph and the writing-style preferences stay consistent: in every state reached
    by any sequence of operations, on the store directly or through the namespaces, the store
    is well formed, every preference and node is stored under its own identifier with
    provenance, no relation appears twice, and both ends of every relation exist, also after
    a namespace was deleted. *)
Theorem persistent_memory_invariant model ops :
  PersistentOk (foldl run_persistent (persistent_new model) ops).
Proof. apply run_all_persistent_ok, persistent_new_ok. Qed.

Section graphs.
Context (p : PersistentMemory) (Hok : PersistentOk p).

Lemma elem_of_style_for namespace s :
  s ∈ style_for namespace p ↔
  pm_style p !! sp_id s = Some s ∧ sp_reviewed s = true ∧ sp_namespace s = namespace.
Proof.
  unfold style_for. rewrite list_elem_of_filter, elem_of_values. split.
  - intros [[? ?] [id Hid]]. destruct (po_style _ Hok _ _ Hid) as [<- _]. done.
  - intros (? & ? & ?). eauto.
Qed.

Lemma elem_of_graph_nodes namespace n :
  n ∈ (project_graph namespace p).1 ↔
  pm_project_nodes p !! pn_id n = Some n ∧ pn_namespace n = namespace.
Proof.
  unfold project_graph. cbn. rewrite list_elem_of_filter, elem_of_values. split.
  - intros [? [id Hid]]. destruct (po_nodes _ Hok _ _ Hid) as [<- _]. done.
  - intros [? ?]. eauto.
Qed.

Definition in_graph (namespace : MemoryNamespace) (id : Uuid) : Prop :=
  ∃ n, pm_project_nodes p !! id = Some n ∧ pn_namespace n = namespace.

Lemma elem_of_graph_relations namespace r :
  r ∈ (project_graph namespace p).2 ↔
  r ∈ pm_project_relations p ∧ in_graph namespace (pr_from r) ∧ in_graph namespace (pr_to r).
Proof.
  assert (∀ id, id ∈ (list_to_set (pn_id <$> (project_graph namespace p).1) : gset Uuid) ↔
    in_graph namespace id) as Hids.
  { intros id. rewrite elem_of_list_to_set, list_elem_of_fmap. setoid_rewrite elem_of_graph_nodes. split.
    - intros (n & -> & ? & ?). by exists n.
    - intros (n & Hn & ?). exists n. destruct (po_nodes _ Hok _ _ Hn) as [<- _]. done. }
  unfold project_graph at 1. cbn [snd]. rewrite list_elem_of_filter.
  change (filter _ (values (pm_project_nodes p))) with (project_graph namespace p).1.
  rewrite !Hids. tauto.
Qed.
End graphs.

(** What one namespace holds of styles, nodes and relations. *)
Definition same_view (namespace : MemoryNamespace) (p p' : PersistentMemory) : Prop :=
  (∀ s, s ∈ style_for namespace p' ↔ s ∈ style_for namespace p) ∧
  (∀ n, n ∈ (project_graph namespace p').1 ↔ n ∈ (project_graph namespace p).1) ∧
  (∀ r, r ∈ (project_graph namespace p').2 ↔ r ∈ (project_graph namespace p).2).

Definition empty_view (namespace : MemoryNamespace) (p : PersistentMemory) : Prop :=
  export_namespace namespace p = [] ∧ style_for namespace p = [] ∧ project_graph namespace p = ([], []).

Lemma elem_of_nil_inv' {A} (l : list A) : (∀ x, x ∉ l) → l = [].
Proof. destruct l as [|x l]; [done|]. intros H. exfalso. apply (H x). by left. Qed.

Lemma deleted_view namespace p :
  PersistentOk p → empty_view namespace (delete_namespace namespace p).2.
Proof.
  intros Hok. pose proof (delete_namespace_ok namespace p Hok) as Hok'.
  destruct (delete_namespace_spec namespace p) as (p0 & Hf & _ & Hstore & Hscopes & Hstyle & Hnodes & _).
  split_and!.
  - apply elem_of_nil_inv'. intros m. unfold export_namespace.
    intros [Hm (id & Hid)%elem_of_values]%list_elem_of_filter. rewrite Hstore in Hid. rewrite Hscopes in Hm.
    destruct (so_memories _ (fg_store _ _ _ Hf (po_store _ Hok)) _ _ Hid) as (<- & _).
    destruct (decide (m_id m ∈ scoped_ids namespace p)) as [Hin|Hn].
    + destruct (fg_gone _ _ _ Hf _ Hin) as [Hgone _]. congruence.
    + destruct (fg_kept _ _ _ Hf _ Hn) as (_ & _ & Hsame). rewrite Hsame in Hm.
      by apply elem_of_scoped_ids in Hm.
  - apply elem_of_nil_inv'. intros s. rewrite elem_of_style_for by done. by intros ([_ ?]%Hstyle & _ & ?).
  - assert ((project_graph namespace (delete_namespace namespace p).2).1 = []) as Hnone.
    { apply elem_of_nil_inv'. intros n. rewrite elem_of_graph_nodes by done. by intros ([_ ?]%Hnodes & ?). }
    apply injective_projections; [done|]. apply elem_of_nil_inv'. intros r.
    rewrite elem_of_graph_relations by done. intros (_ & (n & Hn & Heq) & _). apply Hnodes in Hn as [_ ?]. done.
Qed.

Lemma other_view namespace other p :
  PersistentOk p → other ≠ namespace → same_view other p (delete_namespace namespace p).2.
Proof.
  intros Hok Hne. pose proof (delete_namespace_ok namespace p Hok) as Hok'.
  destruct (delete_namespace_spec namespace p) as (p0 & _ & _ & _ & _ & Hstyle & Hnodes & Hrels).
  assert (∀ id, in_graph (delete_namespace namespace p).2 other id ↔ in_graph p other id) as Hgraph.
  { intros id. unfold in_graph. setoid_rewrite Hnodes. split.
    - intros (n & [? _] & ?). eauto.
    - intros (n & ? & Ho). exists n. split_and!; congruence. }
  split_and!.
  - intros s. rewrite !elem_of_style_for by done. rewrite Hstyle. split; [tauto|].
    intros (? & ? & Hns). split_and!; congruence.
  - intros n. rewrite !elem_of_graph_nodes by done. rewrite Hnodes. split; [tauto|].
    intros (? & Hns). split_and!; congruence.
  - intros r. rewrite !elem_of_graph_relations by done. rewrite !Hgraph, Hrels, list_elem_of_filter.
    split; [tauto|]. intros (Hr & (n1 & H1 & Ho1) & (n2 & H2 & Ho2)). split_and!; [|..|done| |];
      [| |by exists n1|by exists n2]; intros [n Hn]%elem_of_dom;
      apply map_lookup_filter_Some in Hn as [Hn Heq]; cbn in Heq; congruence.
Qed.

(** Deleting a namespace forgets exactly that namespace.  In every reachable state the
    deletion leaves no memory, reviewed style, project node or relation visible in the
    namespace and no memory that was scoped to it; every other memory keeps its content,
    vector and scope, losing at most links to what was deleted, and the styles and
    the graph of every other namespace are what they were. *)
Theorem deleted_namespace_is_forgotten model ops namespace :
  let p := foldl run_persistent (persistent_new model) ops in
  let p' := (delete_namespace namespace p).2 in
  empty_view namespace p' ∧
  (∀ id, pm_scopes p !! id = Some namespace →
     ms_memories (pm_store p') !! id = None ∧ pm_scopes p' !! id = None) ∧
  (∀ id, pm_scopes p !! id ≠ Some namespace →
     option_Forall2 fewer_links (ms_memories (pm_store p) !! id) (ms_memories (pm_store p') !! id) ∧
     ms_embeddings (pm_store p') !! id = ms_embeddings (pm_store p) !! id ∧
     pm_scopes p' !! id = pm_scopes p !! id) ∧
  (∀ other, other ≠ namespace → same_view other p p').
Proof.
  intros p p'. assert (PersistentOk p) as Hok by (apply run_all_persistent_ok, persistent_new_ok).
  destruct (delete_namespace_spec namespace p) as (p0 & Hf & _ & Hstore & Hscopes & _).
  split_and!; [by apply deleted_view| | |intros other; by apply other_view]; intros id;
    rewrite <- elem_of_scoped_ids; unfold p'; rewrite Hstore, Hscopes.
  - apply (fg_gone _ _ _ Hf).
  - apply (fg_kept _ _ _ Hf).
Qed.

(** ** Recall from namespaces *)

(** Recall from selected namespaces returns only memories of those namespaces, at most the
    limit, each of them safe to recall as in the unscoped case. *)
Theorem recall_stays_in_namespaces `{FullText} `{CharTables} model ops namespaces query qe limit now :
  let p := foldl run_persistent (persistent_new model) ops in
  let results := (recall_scoped namespaces query qe limit now p).1 in
  length results ≤ limit ∧
  ∀ r, r ∈ results →
    (∃ scope, pm_scopes p !! m_id (rr_memory r) = Some scope ∧ scope ∈ namespaces) ∧
    recall_ok (pm_store p) (legacy_compatible_embedding_model_id (pm_store p)) now r.
Proof.
  intros p results. assert (PersistentOk p) as Hok by (apply run_all_persistent_ok, persistent_new_ok).
  unfold results, recall_scoped.
  destruct (recall query qe _ now (pm_store p)) as [found s'] eqn:Hrecall. cbn [fst].
  split; [rewrite length_take; lia|]. intros r Hr.
  apply elem_of_take in Hr as (i & Hr & _). apply list_elem_of_lookup_2, list_elem_of_filter in Hr as [Hscope Hr].
  split.
  - unfold in_scope in Hscope. destruct (pm_scopes p !! _) as [scope|]; [|done].
    exists scope. split; [done|]. by apply bool_decide_eq_true in Hscope.
  - unfold recall in Hrecall. eapply recall_results_ok; [apply Hok|]. by rewrite Hrecall.
Qed.

(** ** Examples *)

Definition ascii_chars : CharTables := {|
  is_alphanumeric c := match c with [b] => is_ascii_alphanumeric b | _ => false end;
  to_lowercase := to_ascii_lowercase;
|}.
(** A search that finds the rows whose whole content is one of the quoted words. *)
Definition word_search : FullText := {|
  fts_match query rows := (filter (λ row : Uuid * string, str_contains query
    (of_bytes [double_quote] +:+ row.2 +:+ of_bytes [double_quote]) = true) rows).*1;
|}.

Definition tiny_model : EmbeddingModel := mkEmbeddingModel "tiny" "1" 1 "MIT".
Definition fact (id : Uuid) (content : string) : Memory := explicit_user id 0%Z content Semantic "event".
Definition apple_pie : PersistentOp := OpRemember (ProjectScope "a") (fact 1%N "apple") (Some [one_f32]).
Definition pear_elsewhere : PersistentOp := OpRemember (ProjectScope "b") (fact 2%N "pear") None.

Lemma storage_rows_round_trip_witness :
  ∃ s', from_storage_rows tiny_model
      (storage_rows (foldl run_op (store_new tiny_model) [OpUpsertUnlabeled (fact 1%N "apple") (Some [one_f32])])) =
    Ok s' ∧ embedding_model_id s' 1%N = Some "tiny".
Proof.
  destruct (storage_rows_round_trip tiny_model [OpUpsertUnlabeled (fact 1%N "apple") (Some [one_f32])])
    as (s' & Hs' & _ & _ & Hlab & _); [reflexivity|].
  exists s'. split; [exact Hs'|]. rewrite Hlab. vm_compute. reflexivity.
Defined.

(** The vector fallback looks at the whole corpus: a memory of another namespace that contains a
    word of the query hides the memories that recall from the selected namespace would find
    by vector. *)
Theorem other_namespaces_can_hide_memories :
  let found ops := m_id ∘ rr_memory <$>
    (@recall_scoped word_search ascii_chars {[ProjectScope "a"]} "pear" (Some [one_f32]) 5 0%Z
      (foldl run_persistent (persistent_new tiny_model) ops)).1 in
  found [apple_pie] = [1%N] ∧ found [apple_pie; pear_elsewhere] = [].
Proof. vm_compute. done. Qed.

(** A rejected proposal stays linked from the memories it conflicts with, unlike a deleted
    one. *)
Theorem rejection_leaves_dangling_links :
  let before := [OpUpsertUnlabeled (fact 1%N "apple") None;
                 OpUpsertUnlabeled (proposed 2%N 0%Z "pear" Semantic ["event"] one_f32) None; OpLink 1%N 2%N] in
  let links ops := m_conflicts_with <$> ms_memories (foldl run_op (store_new tiny_model) ops) !! 1%N in
  links (before ++ [OpReject 2%N]) = Some [2%N] ∧ links (before ++ [OpDelete 2%N]) = Some [].
Proof. vm_compute. done. Qed.
