(* ===== verification/Usage.v ===== *)
(** * The usage ledger

    Models [crates/core/src/usage.rs]: token and cost accounting from runtime events, egress
    records, aggregates per turn, session, day and scope, their merging, and the budget
    check.  Reading and formatting instants (chrono) is an interface.  Counters are [u64] and
    add with saturation. *)

From stdpp Require Import base gmap strings list sorting pretty.
From Stdlib Require Import Ascii SpecFloat.
From S2P Require Import Prelude Text Contracts.

(** ** Data *)

Definition LEDGER_SCHEMA_VERSION : N := 1.
Definition MAX_DETAIL_RECORDS : nat := N.to_nat 50000.
Definition MAX_EGRESS_RECORDS : nat := N.to_nat 25000.

Record TokenUsage : Type := mkTokenUsage {
  tu_input : N;
  tu_output : N;
  tu_reasoning : N;
  tu_cache_read : N;
  tu_cache_write : N;
  tu_total : N;
  tu_total_was_reported : bool;
}.

Inductive CostStatus : Type := ProviderReported | CostUnknown.

Record ReportedCost : Type := mkReportedCost {
  rc_microusd : option N;
  rc_status : CostStatus;
}.

Record ProviderUsageRecord : Type := mkProviderUsageRecord {
  ur_id : string;
  ur_at : DateTime;
  ur_day_utc : string;
  ur_session_id : string;
  ur_turn_id : string;
  ur_scope_key : string;
  ur_provider_id : option string;
  ur_model_id : option string;
  ur_tokens : TokenUsage;
  ur_cost : ReportedCost;
}.

Inductive EgressSource : Type := Web | Mcp | Connector.

Record EgressRecord : Type := mkEgressRecord {
  er_id : Uuid;
  er_at : DateTime;
  er_source : EgressSource;
  er_destination : string;
  er_operation : string;
  er_data_class : string;
  er_size_bytes : option N;
  er_purpose : string;
  er_session_id : option string;
  er_scope_key : option string;
}.

Record UsageAggregate : Type := mkUsageAggregate {
  ag_provider_steps : N;
  ag_tokens : TokenUsage;
  ag_reported_cost_microusd : N;
  ag_unknown_cost_steps : N;
  ag_tool_calls : N;
  ag_egress_events : N;
  ag_known_egress_bytes : N;
  ag_unknown_egress_sizes : N;
  ag_providers : gset string;
  ag_models : gset string;
}.
Global Instance UsageAggregate_eta : Eta UsageAggregate :=
  λ r, mkUsageAggregate (ag_provider_steps r) (ag_tokens r) (ag_reported_cost_microusd r)
    (ag_unknown_cost_steps r) (ag_tool_calls r) (ag_egress_events r) (ag_known_egress_bytes r)
    (ag_unknown_egress_sizes r) (ag_providers r) (ag_models r).

Record TurnContext : Type := mkTurnContext {
  tx_turn_id : string;
  tx_provider_id : option string;
  tx_model_id : option string;
  tx_scope_key : string;
}.

Inductive UsageFactKind : Type := TurnStarted | ToolCallFact | ProviderFact.

Record UsageFact : Type := mkUsageFact {
  uf_kind : UsageFactKind;
  uf_event_id : string;
  uf_at : DateTime;
  uf_day_utc : string;
  uf_session_id : string;
  uf_turn_id : string;
  uf_scope_key : string;
  uf_provider_id : option string;
  uf_model_id : option string;
  uf_tokens : option TokenUsage;
  uf_cost : option ReportedCost;
}.

Record UsageMutation : Type := mkUsageMutation {
  um_fact : option UsageFact;
  um_egress : option EgressRecord;
}.
Definition no_mutation : UsageMutation := mkUsageMutation None None.

Abbreviation Aggregates := (gmap string UsageAggregate).

Record UsageLedger : Type := mkUsageLedger {
  ul_schema_version : N;
  ul_records : list ProviderUsageRecord;
  ul_egress : list EgressRecord;
  ul_turns : Aggregates;
  ul_sessions : Aggregates;
  ul_days : Aggregates;
  ul_scopes : Aggregates;
  ul_active_turns : gmap string TurnContext;
  ul_seen_event_ids : gset string;
  ul_seen_egress_ids : gset Uuid;
}.
Global Instance UsageLedger_eta : Eta UsageLedger :=
  λ r, mkUsageLedger (ul_schema_version r) (ul_records r) (ul_egress r) (ul_turns r) (ul_sessions r)
    (ul_days r) (ul_scopes r) (ul_active_turns r) (ul_seen_event_ids r) (ul_seen_egress_ids r).

Inductive UsageError : Type :=
  | EventError (detail : string)
  | StoredJson (detail : string)
  | InvalidStoredFact
  | UnsupportedSchema (version : N)
  | InvalidEgress.

Definition ledger_default : UsageLedger :=
  mkUsageLedger LEDGER_SCHEMA_VERSION [] [] ∅ ∅ ∅ ∅ ∅ ∅ ∅.

(** ** Counters *)

Definition add64 (a b : N) : N := sat_add u64_max a b.

Definition tokens_zero : TokenUsage := mkTokenUsage 0 0 0 0 0 0 false.
(** [TokenUsage::add], which leaves the report flag alone. *)
Definition tokens_add (a b : TokenUsage) : TokenUsage :=
  mkTokenUsage (add64 (tu_input a) (tu_input b)) (add64 (tu_output a) (tu_output b))
    (add64 (tu_reasoning a) (tu_reasoning b)) (add64 (tu_cache_read a) (tu_cache_read b))
    (add64 (tu_cache_write a) (tu_cache_write b)) (add64 (tu_total a) (tu_total b))
    (tu_total_was_reported a).
Definition set_reported (flag : bool) (t : TokenUsage) : TokenUsage :=
  mkTokenUsage (tu_input t) (tu_output t) (tu_reasoning t) (tu_cache_read t) (tu_cache_write t)
    (tu_total t) flag.

Definition aggregate_default : UsageAggregate := mkUsageAggregate 0 tokens_zero 0 0 0 0 0 0 ∅ ∅.

Definition option_set (o : option string) : gset string :=
  match o with Some s => {[s]} | None => ∅ end.

Definition add_usage (r : ProviderUsageRecord) (a : UsageAggregate) : UsageAggregate :=
  let first_step := (ag_provider_steps a =? 0)%N in
  let reported := if first_step then tu_total_was_reported (ur_tokens r)
                  else tu_total_was_reported (ag_tokens a) && tu_total_was_reported (ur_tokens r) in
  mkUsageAggregate (add64 (ag_provider_steps a) 1)
    (set_reported reported (tokens_add (ag_tokens a) (ur_tokens r)))
    (match rc_microusd (ur_cost r) with
     | Some cost => add64 (ag_reported_cost_microusd a) cost
     | None => ag_reported_cost_microusd a
     end)
    (match rc_microusd (ur_cost r) with
     | Some _ => ag_unknown_cost_steps a
     | None => add64 (ag_unknown_cost_steps a) 1
     end)
    (ag_tool_calls a) (ag_egress_events a) (ag_known_egress_bytes a) (ag_unknown_egress_sizes a)
    (option_set (ur_provider_id r) ∪ ag_providers a) (option_set (ur_model_id r) ∪ ag_models a).

Definition add_egress (r : EgressRecord) (a : UsageAggregate) : UsageAggregate :=
  a <| ag_egress_events ::= λ n, add64 n 1 |>
    <| ag_known_egress_bytes ::= λ n, match er_size_bytes r with Some size => add64 n size | None => n end |>
    <| ag_unknown_egress_sizes ::= λ n, match er_size_bytes r with Some _ => n | None => add64 n 1 end |>.

Definition add_tool (a : UsageAggregate) : UsageAggregate := a <| ag_tool_calls ::= λ n, add64 n 1 |>.

Definition merge (a b : UsageAggregate) : UsageAggregate :=
  let reported :=
    match (0 <? ag_provider_steps a)%N, (0 <? ag_provider_steps b)%N with
    | true, true => tu_total_was_reported (ag_tokens a) && tu_total_was_reported (ag_tokens b)
    | false, true => tu_total_was_reported (ag_tokens b)
    | true, false => tu_total_was_reported (ag_tokens a)
    | false, false => false
    end in
  mkUsageAggregate (add64 (ag_provider_steps a) (ag_provider_steps b))
    (set_reported reported (tokens_add (ag_tokens a) (ag_tokens b)))
    (add64 (ag_reported_cost_microusd a) (ag_reported_cost_microusd b))
    (add64 (ag_unknown_cost_steps a) (ag_unknown_cost_steps b))
    (add64 (ag_tool_calls a) (ag_tool_calls b)) (add64 (ag_egress_events a) (ag_egress_events b))
    (add64 (ag_known_egress_bytes a) (ag_known_egress_bytes b))
    (add64 (ag_unknown_egress_sizes a) (ag_unknown_egress_sizes b))
    (ag_providers a ∪ ag_providers b) (ag_models a ∪ ag_models b).

(** [map.entry(key).or_default()] followed by a change. *)
Definition at_entry (key : string) (f : UsageAggregate → UsageAggregate) (m : Aggregates) : Aggregates :=
  <[key := f (default aggregate_default (m !! key))]> m.

Definition merge_aggregate_maps (target source : Aggregates) : Aggregates :=
  foldl (λ m (e : string * UsageAggregate), at_entry e.1 (λ a, merge a e.2) m) target (str_entries source).

(** ** Reading events *)

Definition unsigned (v : Value) : option N :=
  match v with VNumber (PosInt n) => Some n | _ => None end.
Definition first_some {A} (f : string → option A) (names : list string) : option A :=
  head (omap f names).
Definition unsigned_at (v : Value) (names : list string) : N :=
  default 0%N (first_some (λ name, value_get name v ≫= unsigned) names).
Definition unsigned_at_path (v : Value) (path : list string) : N :=
  default 0%N (pointer path v ≫= unsigned).
Definition text_at (v : Value) (names : list string) : option string :=
  first_some (λ name, get_str name v) names.

Definition normalize_tokens (v : Value) : TokenUsage :=
  let input := unsigned_at v ["input"; "input_tokens"; "inputTokens"] in
  let output := unsigned_at v ["output"; "output_tokens"; "outputTokens"] in
  let reasoning := unsigned_at v ["reasoning"; "reasoning_tokens"; "reasoningTokens"] in
  let cache_read := N.max (unsigned_at v ["cache_read"; "cacheRead"]) (unsigned_at_path v ["cache"; "read"]) in
  let cache_write := N.max (unsigned_at v ["cache_write"; "cacheWrite"]) (unsigned_at_path v ["cache"; "write"]) in
  let sum := add64 (add64 (add64 (add64 input output) reasoning) cache_read) cache_write in
  let explicit_total := value_get "total" v ≫= unsigned in
  mkTokenUsage input output reasoning cache_read cache_write (default sum explicit_total)
    (bool_decide (is_Some explicit_total)).

(** [n / d] to the nearest integer, ties to even. *)
Definition div_even (n d : Z) : Z :=
  let q := (n / d)%Z in
  let r := (n mod d)%Z in
  match (2 * r ?= d)%Z with
  | Lt => q
  | Gt => (q + 1)%Z
  | Eq => if Z.even q then q else (q + 1)%Z
  end.

(** The number that [format!("{cost:.6}")] shows, in millionths, if the whole part and the sum
    fit.  Negative zero is shown with its sign, which the integer parser refuses. *)
Definition usd_to_microusd (cost : f64) : option N :=
  let micro :=
    match cost with
    | S754_zero false => Some 0%Z
    | S754_finite false m e =>
      Some (if (0 <=? e)%Z then Z.pos m * 2 ^ e * 1000000
            else div_even (Z.pos m * 1000000) (2 ^ (- e)))%Z
    | _ => None
    end in
  micro ≫= λ z, if (Z.to_N z <=? u64_max)%N then Some (Z.to_N z) else None.

Definition normalize_cost (v : option Value) : ReportedCost :=
  let microusd := (v ≫= as_f64) ≫= (λ c,
    if f64_is_finite c && SFleb f64_zero c then usd_to_microusd c else None) in
  mkReportedCost microusd (match microusd with Some _ => ProviderReported | None => CostUnknown end).

Definition event_scope_key (event : EventEnvelope) : string :=
  match ev_goal_id event with
  | Some goal_id => "goal:" +:+ goal_id
  | None =>
    match ev_agent_id event ≫= str_strip_prefix "automation:" with
    | Some agent_id => "automation:" +:+ agent_id
    | None => "session:" +:+ default "unknown" (ev_session_id event)
    end
  end.

Definition bounded_label (value fallback : string) : string :=
  let trimmed := trim value in
  take_chars 256 (if is_empty trimmed then fallback else trimmed).

Definition runtime_tool_egress (id : Uuid) (event : EventEnvelope) (payload : Value) (at_ : DateTime)
    (scope_key : string) : option EgressRecord :=
  tool ← text_at payload ["tool"];
  let provider := text_at payload ["provider"] in
  let lowercase := to_ascii_lowercase tool in
  source ← (if str_contains lowercase "web" || str_contains lowercase "browser" then Some Web
            else match provider with Some _ => Some Mcp | None => None end);
  Some (mkEgressRecord id at_ source (bounded_label (default "runtime-managed web" provider) "unknown")
    (bounded_label tool "tool call") "tool arguments" None "agent tool invocation"
    (ev_session_id event) (Some scope_key)).

Definition bad_field (value : string) : bool :=
  is_blank value || (512 <? str_len value) || contains_any [lf; cr] value.

Definition validate_egress (r : EgressRecord) : outcome UsageError () :=
  ensure_not (existsb bad_field [er_destination r; er_operation r; er_data_class r; er_purpose r])
    InvalidEgress.

(** The decoders the ledger calls: [EventEnvelope::payload] and [EventEnvelope::timestamp], each
    with the text of its error, and the day of an instant. *)
Class Calendar : Type := {
  decode_payload : EventEnvelope → string + Value;
  parse_timestamp : string → string + DateTime;
  day_string : DateTime → string;
}.

Definition or_event_error {A} (r : string + A) : outcome UsageError A :=
  match r with inr x => Ok x | inl e => Err (EventError e) end.

Definition day_in_range (day : string) (from to : option string) : bool :=
  match from with Some from => bool_decide (str_le from day) | None => true end &&
  match to with Some to => bool_decide (str_le day to) | None => true end.

(** ** The ledger *)

Section ledger.
Context `{Calendar}.

Abbreviation UM := (M UsageLedger UsageError).

Definition validate_schema : UM () :=
  s ← get;
  reject_if (negb (ul_schema_version s =? LEDGER_SCHEMA_VERSION)%N) (UnsupportedSchema (ul_schema_version s)).

(** The four aggregates of a turn, a session, a day and a scope. *)
Definition charge (turn session day scope : string) (f : UsageAggregate → UsageAggregate)
    (s : UsageLedger) : UsageLedger :=
  s <| ul_turns ::= at_entry turn f |> <| ul_sessions ::= at_entry session f |>
    <| ul_days ::= at_entry day f |> <| ul_scopes ::= at_entry scope f |>.

(** [push] on a bounded list: the oldest entry goes. *)
Definition push_bounded {A} (limit : nat) (x : A) (l : list A) : list A :=
  let l := l ++ [x] in if limit <? length l then tail l else l.

Definition charge_egress (r : EgressRecord) (s : UsageLedger) : UsageLedger :=
  let s := s <| ul_days ::= at_entry (day_string (er_at r)) (add_egress r) |> in
  let s := match er_session_id r with
           | Some session => s <| ul_sessions ::= at_entry session (add_egress r) |>
           | None => s
           end in
  match er_scope_key r with
  | Some scope => s <| ul_scopes ::= at_entry scope (add_egress r) |>
  | None => s
  end.

Definition record_egress (r : EgressRecord) : UM () :=
  _ ← validate_schema;
  _ ← lift (validate_egress r);
  s ← get;
  if bool_decide (er_id r ∈ ul_seen_egress_ids s) then mret ()
  else
    _ ← modify (λ s, s <| ul_seen_egress_ids ::= λ X, {[er_id r]} ∪ X |>);
    _ ← modify (charge_egress r);
    modify (λ s, s <| ul_egress ::= push_bounded MAX_EGRESS_RECORDS r |>).

Definition session_of (event : EventEnvelope) : string := default "unknown" (ev_session_id event).

Definition mark_seen (event : EventEnvelope) : UM () :=
  modify (λ s, s <| ul_seen_event_ids ::= λ X, {[ev_event_id event]} ∪ X |>).

Definition step_record (event : EventEnvelope) (payload : Value) (context : option TurnContext)
    (at_ : DateTime) (tokens : TokenUsage) : ProviderUsageRecord :=
  let turn_id := match context with
    | Some c => tx_turn_id c
    | None => default (ev_event_id event) (text_at payload ["assistantMessageID"; "messageID"; "message_id"])
    end in
  let scope_key := match context with Some c => tx_scope_key c | None => event_scope_key event end in
  let or_context (own : option string) (f : TurnContext → option string) :=
    match own with Some _ => own | None => context ≫= f end in
  mkProviderUsageRecord (ev_event_id event) at_ (day_string at_) (session_of event) turn_id scope_key
    (or_context (text_at payload ["provider_id"; "providerID"; "provider"]) tx_provider_id)
    (or_context (text_at payload ["model_id"; "modelID"; "model"]) tx_model_id)
    tokens (normalize_cost (value_get "cost" payload)).

Definition fact_of_record (r : ProviderUsageRecord) : UsageFact :=
  mkUsageFact ProviderFact (ur_id r) (ur_at r) (ur_day_utc r) (ur_session_id r) (ur_turn_id r)
    (ur_scope_key r) (ur_provider_id r) (ur_model_id r) (Some (ur_tokens r)) (Some (ur_cost r)).

Definition into_provider_record (f : UsageFact) : outcome UsageError ProviderUsageRecord :=
  match uf_kind f, uf_tokens f, uf_cost f with
  | ProviderFact, Some tokens, Some cost =>
    Ok (mkProviderUsageRecord (uf_event_id f) (uf_at f) (uf_day_utc f) (uf_session_id f) (uf_turn_id f)
          (uf_scope_key f) (uf_provider_id f) (uf_model_id f) tokens cost)
  | _, _, _ => Err InvalidStoredFact
  end.

Definition record_step (event : EventEnvelope) (payload : Value) (context : option TurnContext)
    (at_ : DateTime) (tokens : TokenUsage) : UM UsageMutation :=
  let record := step_record event payload context at_ tokens in
  _ ← modify (charge (ur_turn_id record) (ur_session_id record) (ur_day_utc record)
        (ur_scope_key record) (add_usage record));
  _ ← modify (λ s, s <| ul_records ::= push_bounded MAX_DETAIL_RECORDS record |>);
  _ ← mark_seen event;
  mret (mkUsageMutation (Some (fact_of_record record)) None).

Definition ingest_admitted (event : EventEnvelope) (payload : Value) (at_ : DateTime) : UM UsageMutation :=
  let turn_id := default (ev_event_id event) (text_at payload ["message_id"; "messageID"]) in
  let context := mkTurnContext turn_id (text_at payload ["provider_id"; "providerID"; "provider"])
    (text_at payload ["model_id"; "modelID"; "model"]) (event_scope_key event) in
  _ ← modify (λ s, s <| ul_active_turns ::= <[session_of event := context]> |>);
  _ ← mark_seen event;
  mret (mkUsageMutation (Some (mkUsageFact TurnStarted (ev_event_id event) at_ (day_string at_)
    (session_of event) turn_id (event_scope_key event) (tx_provider_id context) (tx_model_id context)
    None None)) None).

(** [egress_id] is the identifier drawn for an egress record. *)
Definition ingest_tool (egress_id : Uuid) (event : EventEnvelope) (payload : Value) (at_ : DateTime)
    : UM UsageMutation :=
  s ← get;
  let '(turn_id, scope_key) := match ul_active_turns s !! session_of event with
    | Some context => (tx_turn_id context, tx_scope_key context)
    | None => (default (ev_event_id event) (text_at payload ["assistantMessageID"; "messageID"; "message_id"]),
               event_scope_key event)
    end in
  _ ← modify (charge turn_id (session_of event) (day_string at_) scope_key add_tool);
  let egress := runtime_tool_egress egress_id event payload at_ scope_key in
  _ ← (match egress with Some record => record_egress record | None => mret () end);
  _ ← mark_seen event;
  mret (mkUsageMutation (Some (mkUsageFact ToolCallFact (ev_event_id event) at_ (day_string at_)
    (session_of event) turn_id scope_key None None None None)) egress).

Definition ingest_runtime_event_delta (egress_id : Uuid) (event : EventEnvelope) : UM UsageMutation :=
  _ ← validate_schema;
  s ← get;
  if bool_decide (ev_event_id event ∈ ul_seen_event_ids s) then mret no_mutation
  else
    payload ← lift (or_event_error (decode_payload event));
    at_ ← lift (or_event_error (parse_timestamp (ev_wall_clock_timestamp event)));
    if bool_decide (ev_type event = "response.admitted") then ingest_admitted event payload at_
    else if bool_decide (ev_type event = "tool.started") then ingest_tool egress_id event payload at_
    else if negb (bool_decide (ev_type event = "response.step_completed")) then mret no_mutation
    else
      let context := ul_active_turns s !! session_of event in
      match value_get "tokens" payload with
      | None =>
        match value_get "cost" payload with
        | None => mret no_mutation
        | Some _ => record_step event payload context at_ tokens_zero
        end
      | Some tokens_value => record_step event payload context at_ (normalize_tokens tokens_value)
      end.

Definition clear_detail_records (s : UsageLedger) : UsageLedger := s <| ul_records := [] |> <| ul_egress := [] |>.
Definition aggregate_snapshot (s : UsageLedger) : UsageLedger :=
  mkUsageLedger (ul_schema_version s) [] [] (ul_turns s) (ul_sessions s) (ul_days s) (ul_scopes s) ∅ ∅ ∅.

Definition merge_aggregates_from (other : UsageLedger) (s : UsageLedger) : UsageLedger :=
  s <| ul_turns ::= λ m, merge_aggregate_maps m (ul_turns other) |>
    <| ul_sessions ::= λ m, merge_aggregate_maps m (ul_sessions other) |>
    <| ul_days ::= λ m, merge_aggregate_maps m (ul_days other) |>
    <| ul_scopes ::= λ m, merge_aggregate_maps m (ul_scopes other) |>.

(** [from_stored]: the aggregates as converted, and the bodies of the stored contexts as decoded. *)
Fixpoint restore_contexts (bodies : list (string + UsageFact)) (s : UsageLedger)
    : outcome UsageError UsageLedger :=
  match bodies with
  | [] => Ok s
  | inl e :: _ => Err (StoredJson e)
  | inr fact :: bodies =>
    restore_contexts bodies
      match uf_kind fact with
      | TurnStarted =>
        s <| ul_active_turns ::= <[uf_session_id fact := mkTurnContext (uf_turn_id fact)
               (uf_provider_id fact) (uf_model_id fact) (uf_scope_key fact)]> |>
          <| ul_seen_event_ids ::= λ X, {[uf_event_id fact]} ∪ X |>
      | _ => s
      end
  end.
Definition from_stored (turns sessions days scopes : Aggregates) (bodies : list (string + UsageFact))
    : outcome UsageError UsageLedger :=
  restore_contexts bodies
    (ledger_default <| ul_turns := turns |> <| ul_sessions := sessions |> <| ul_days := days |>
                    <| ul_scopes := scopes |>).

Definition aggregates_in_range (from to : option string) (s : UsageLedger) : UsageLedger :=
  match from, to with
  | None, None => aggregate_snapshot s
  | _, _ =>
    let filtered := foldl (λ l r, charge (ur_turn_id r) (ur_session_id r) (ur_day_utc r) (ur_scope_key r)
                                    (add_usage r) l) ledger_default
                      (filter (λ r, day_in_range (ur_day_utc r) from to) (ul_records s)) in
    let filtered := foldl (λ l r, charge_egress r l) filtered
                      (filter (λ r, day_in_range (day_string (er_at r)) from to) (ul_egress s)) in
    filtered <| ul_days := filter (λ e : string * UsageAggregate, day_in_range e.1 from to) (ul_days s) |>
  end.

Definition merge_append_only (newer : UsageLedger) : UM () :=
  _ ← validate_schema;
  _ ← reject_if (negb (ul_schema_version newer =? LEDGER_SCHEMA_VERSION)%N)
        (UnsupportedSchema (ul_schema_version newer));
  _ ← modify (merge_aggregates_from newer);
  modify (λ s, s <| ul_active_turns ::= λ m, ul_active_turns newer ∪ m |>
                 <| ul_seen_event_ids ::= λ X, X ∪ ul_seen_event_ids newer |>
                 <| ul_seen_egress_ids ::= λ X, X ∪ ul_seen_egress_ids newer |>).
End ledger.

(** ** Budgets *)

Inductive BudgetResource : Type := Tokens | CostMicrousd | ToolCalls.

Record BudgetLimits : Type := mkBudgetLimits {
  bl_tokens : option N;
  bl_cost_microusd : option N;
  bl_tool_calls : option N;
}.

Inductive BudgetState : Type :=
  | WithinLimits
  | Exhausted (resource : BudgetResource) (used limit : N)
  | CostUnverifiable (unknown_steps limit_microusd : N).

Definition exceeded (b : BudgetState) : bool := match b with WithinLimits => false | _ => true end.

Definition check_cost (usage : UsageAggregate) (limits : BudgetLimits) : BudgetState :=
  match bl_cost_microusd limits with
  | None => WithinLimits
  | Some limit =>
    if (0 <? ag_unknown_cost_steps usage)%N then CostUnverifiable (ag_unknown_cost_steps usage) limit
    else if (limit <=? ag_reported_cost_microusd usage)%N
    then Exhausted CostMicrousd (ag_reported_cost_microusd usage) limit else WithinLimits
  end.

Definition check_tools (usage : UsageAggregate) (limits : BudgetLimits) : BudgetState :=
  match bl_tool_calls limits with
  | Some limit => if (limit <=? ag_tool_calls usage)%N then Exhausted ToolCalls (ag_tool_calls usage) limit
                  else check_cost usage limits
  | None => check_cost usage limits
  end.

Definition check_budget (scope_key : string) (limits : BudgetLimits) (s : UsageLedger) : BudgetState :=
  let usage := default aggregate_default (ul_scopes s !! scope_key) in
  match bl_tokens limits with
  | Some limit => if (limit <=? tu_total (ag_tokens usage))%N
                  then Exhausted Tokens (tu_total (ag_tokens usage)) limit else check_tools usage limits
  | None => check_tools usage limits
  end.
