(* ===== verification/UsageSpec.v ===== *)
(** * Usage accounting: theorems

    The reference definition of the aggregates is a tally: every counted fact is an entry for
    some keys, and the aggregate of a key is the fold of its entries.  The ledger's incremental
    aggregates are the tally of the mutations it reported, merging two ledgers is tallying
    both histories, a reached budget stays reached, and a counted event is counted once. *)

From stdpp Require Import base gmap strings list sorting pretty.
From Stdlib Require Import Ascii SpecFloat.
From S2P Require Import Prelude Text Contracts Usage.

(** ** The reference tally *)

Inductive Posting : Type :=
  | PostUsage (r : ProviderUsageRecord)
  | PostEgress (r : EgressRecord)
  | PostTool.

Definition post (o : Posting) : UsageAggregate → UsageAggregate :=
  match o with
  | PostUsage r => add_usage r
  | PostEgress r => add_egress r
  | PostTool => add_tool
  end.

Definition total (os : list Posting) : UsageAggregate := foldl (λ a o, post o a) aggregate_default os.

Definition enter (m : Aggregates) (e : string * Posting) : Aggregates := at_entry e.1 (post e.2) m.
Definition tally (es : list (string * Posting)) : Aggregates := foldl enter ∅ es.

(** The postings for a key, in order. *)
Definition postings (key : string) (es : list (string * Posting)) : list Posting :=
  (filter (λ e : string * Posting, e.1 = key) es).*2.

(** What a reported mutation posts, under the keys that [key] and [egress_key] read off it. *)
Definition fact_posting (f : UsageFact) : list Posting :=
  match uf_kind f, into_provider_record f with
  | ToolCallFact, _ => [PostTool]
  | ProviderFact, Ok r => [PostUsage r]
  | _, _ => []
  end.
Definition mutation_entries (key : UsageFact → string) (egress_key : EgressRecord → option string)
    (m : UsageMutation) : list (string * Posting) :=
  match um_fact m with Some f => (key f,.) <$> fact_posting f | None => [] end ++
  match um_egress m with
  | Some r => match egress_key r with Some k => [(k, PostEgress r)] | None => [] end
  | None => []
  end.

(** ** Aggregates add up *)

Lemma sat_add_assoc max a b c : sat_add max a (sat_add max b c) = sat_add max (sat_add max a b) c.
Proof. unfold sat_add. lia. Qed.

(** Counters fit in 64 bits, and nothing is reported before a first step. *)
Definition aggregate_wf (a : UsageAggregate) : Prop :=
  Forall (λ n, (n <= u64_max)%N)
    [ag_provider_steps a; ag_reported_cost_microusd a; ag_unknown_cost_steps a; ag_tool_calls a;
     ag_egress_events a; ag_known_egress_bytes a; ag_unknown_egress_sizes a;
     tu_input (ag_tokens a); tu_output (ag_tokens a); tu_reasoning (ag_tokens a);
     tu_cache_read (ag_tokens a); tu_cache_write (ag_tokens a); tu_total (ag_tokens a)] ∧
  (ag_provider_steps a = 0%N → tu_total_was_reported (ag_tokens a) = false).

Lemma post_wf o a : aggregate_wf a → aggregate_wf (post o a).
Proof.
  intros [Hb Hf]. unfold aggregate_wf. rewrite !Forall_cons in Hb. destruct_and! Hb.
  destruct o; simpl; split; try (repeat constructor; repeat case_match; unfold add64; auto with agent);
    try exact Hf; unfold add64, sat_add, u64_max; lia.
Qed.

Lemma total_wf os : aggregate_wf (total os).
Proof.
  unfold total. assert (aggregate_wf aggregate_default) as Hd.
  { split; [|done]. repeat constructor; done. }
  revert Hd. generalize aggregate_default. induction os as [|o os IH]; intros a Ha; simpl; [done|].
  by apply IH, post_wf.
Qed.

Lemma add64_0_r n : (n <= u64_max)%N → add64 n 0 = n.
Proof. unfold add64, sat_add. lia. Qed.
Lemma add64_0_l n : (n <= u64_max)%N → add64 0 n = n.
Proof. unfold add64, sat_add. lia. Qed.

Lemma merge_default_r a : aggregate_wf a → merge a aggregate_default = a.
Proof.
  destruct a as [steps [? ? ? ? ? ? flag] ? ? ? ? ? ? ? ?]. unfold aggregate_wf; simpl.
  rewrite !Forall_cons. intros [Hb Hf]. destruct_and! Hb. unfold merge, tokens_add, set_reported; simpl.
  rewrite !add64_0_r, !(right_id_L ∅ (∪)) by done.
  do 2 f_equal. destruct (N.ltb_spec 0 steps); [done|]. rewrite Hf by lia. done.
Qed.

Lemma merge_default_l a : aggregate_wf a → merge aggregate_default a = a.
Proof.
  destruct a as [steps [? ? ? ? ? ? flag] ? ? ? ? ? ? ? ?]. unfold aggregate_wf; simpl.
  rewrite !Forall_cons. intros [Hb Hf]. destruct_and! Hb. unfold merge, tokens_add, set_reported; simpl.
  rewrite !add64_0_l, !(left_id_L ∅ (∪)) by done.
  do 2 f_equal. destruct (N.ltb_spec 0 steps); [done|]. rewrite Hf by lia. done.
Qed.

Lemma merge_post o a b :
  aggregate_wf a → aggregate_wf b → merge a (post o b) = post o (merge a b).
Proof.
  destruct a as [sa [? ? ? ? ? ? fa] ? ? ? ? ? ? ? ?], b as [sb [? ? ? ? ? ? fb] ? ? ? ? ? ? ? ?].
  intros [_ Ha] [_ Hb]. simpl in Ha, Hb. unfold merge, post, add64 in *.
  destruct o as [r|r|]; simpl.
  - unfold add_usage, tokens_add, set_reported, add64; simpl. rewrite !sat_add_assoc.
    f_equal; try set_solver; try (by destruct (rc_microusd _); simpl; rewrite ?sat_add_assoc).
    f_equal. unfold sat_add, u64_max.
    destruct (N.ltb_spec 0 sa), (N.ltb_spec 0 sb), (N.eqb_spec sb 0),
      (N.ltb_spec 0 (N.min 18446744073709551615 (sb + 1))),
      (N.eqb_spec (N.min 18446744073709551615 (sa + sb)) 0); try lia; simpl;
      by rewrite ?andb_assoc.
  - unfold add_egress, add64. destruct (er_size_bytes r); simpl; by rewrite !sat_add_assoc.
  - unfold add_tool, add64. simpl. by rewrite !sat_add_assoc.
Qed.

Lemma total_snoc os o : total (os ++ [o]) = post o (total os).
Proof. unfold total. by rewrite foldl_app. Qed.

(** Totals of two histories merge to the total of both. *)
Lemma merge_total os os' : merge (total os) (total os') = total (os ++ os').
Proof.
  induction os' as [|o os' IH] using rev_ind.
  - rewrite (right_id_L [] (++)). apply merge_default_r, total_wf.
  - by rewrite (assoc_L (++)), !total_snoc, merge_post, IH by apply total_wf.
Qed.

(** ** Tallies *)

Lemma postings_app key es es' : postings key (es ++ es') = postings key es ++ postings key es'.
Proof. unfold postings. by rewrite filter_app, fmap_app. Qed.

(** The aggregate of a key is the total of its postings. *)
Lemma tally_lookup es key :
  tally es !! key = match postings key es with [] => None | os => Some (total os) end.
Proof.
  induction es as [|[k o] es IH] using rev_ind; [done|].
  unfold tally. rewrite foldl_app. simpl. fold (tally es).
  rewrite postings_app. unfold enter, at_entry, postings at 2. simpl. rewrite filter_cons. simpl.
  case_decide as Hk; simpl.
  - subst k. rewrite lookup_insert_eq, IH. destruct (postings key es) as [|o' os] eqn:Hp; [done|].
    simpl. by rewrite app_comm_cons, total_snoc.
  - by rewrite lookup_insert_ne, (right_id_L [] (++)).
Qed.

Lemma str_entries_NoDup {V} (m : gmap string V) : NoDup (str_entries m).*1.
Proof. unfold str_entries. rewrite merge_sort_Permutation. apply NoDup_fst_map_to_list. Qed.

Lemma merge_aggregate_maps_lookup target source key :
  merge_aggregate_maps target source !! key =
  match source !! key with
  | Some a => Some (merge (default aggregate_default (target !! key)) a)
  | None => target !! key
  end.
Proof.
  unfold merge_aggregate_maps.
  assert (∀ es : list (string * UsageAggregate), NoDup es.*1 → ∀ m : Aggregates,
    foldl (λ m e, at_entry e.1 (λ a, merge a e.2) m) m es !! key =
    match (list_to_map es : gmap string UsageAggregate) !! key with
    | Some a => Some (merge (default aggregate_default (m !! key)) a)
    | None => m !! key
    end) as Hfold.
  { induction es as [|[k a] es IH]; intros Hnd m; simpl; [done|].
    simpl in Hnd. apply NoDup_cons in Hnd as [Hk Hnd]. rewrite IH by done. unfold at_entry.
    destruct (decide (k = key)) as [->|Hne].
    - rewrite !lookup_insert_eq. by rewrite not_elem_of_list_to_map_1.
    - by rewrite !lookup_insert_ne. }
  rewrite Hfold by apply str_entries_NoDup.
  assert ((list_to_map (str_entries source) : Aggregates) = source) as ->; [|done].
  apply map_eq. intros k. apply option_eq. intros a.
  by rewrite <- elem_of_list_to_map, elem_of_str_entries by apply str_entries_NoDup.
Qed.

(** Merging two tallies is tallying both histories. *)
Lemma merge_tally es es' : merge_aggregate_maps (tally es) (tally es') = tally (es ++ es').
Proof.
  apply map_eq. intros key. rewrite merge_aggregate_maps_lookup, !tally_lookup, postings_app.
  destruct (postings key es') as [|o' os'] eqn:H'; [by rewrite (right_id_L [] (++))|].
  rewrite <- H'. destruct (postings key es) as [|o os] eqn:H; simpl.
  - rewrite merge_default_l by apply total_wf. by rewrite H'.
  - by rewrite merge_total.
Qed.

(** ** Histories *)

Section histories.
Context `{Calendar}.
Abbreviation UM := (M UsageLedger UsageError).

(** The four families of keys: turn, session, day and scope. *)
Definition turn_entries : UsageMutation → list (string * Posting) :=
  mutation_entries uf_turn_id (λ _, None).
Definition session_entries : UsageMutation → list (string * Posting) :=
  mutation_entries uf_session_id er_session_id.
Definition day_entries : UsageMutation → list (string * Posting) :=
  mutation_entries uf_day_utc (λ r, Some (day_string (er_at r))).
Definition scope_entries : UsageMutation → list (string * Posting) :=
  mutation_entries uf_scope_key er_scope_key.

(** A ledger whose aggregates are those of a list of mutations. *)
Definition accounts_for (ms : list UsageMutation) (s : UsageLedger) : Prop :=
  ul_turns s = tally (ms ≫= turn_entries) ∧ ul_sessions s = tally (ms ≫= session_entries) ∧
  ul_days s = tally (ms ≫= day_entries) ∧ ul_scopes s = tally (ms ≫= scope_entries).

(** Ingest events in order, each with the identifier its egress record would draw. *)
Fixpoint ingest_all (events : list (Uuid * EventEnvelope)) : UM (list UsageMutation) :=
  match events with
  | [] => mret []
  | (id, event) :: events =>
    m ← ingest_runtime_event_delta id event;
    ms ← ingest_all events;
    mret (m :: ms)
  end.

Lemma accounts_for_snoc ms m s s' :
  accounts_for ms s →
  ul_turns s' = foldl enter (ul_turns s) (turn_entries m) →
  ul_sessions s' = foldl enter (ul_sessions s) (session_entries m) →
  ul_days s' = foldl enter (ul_days s) (day_entries m) →
  ul_scopes s' = foldl enter (ul_scopes s) (scope_entries m) →
  accounts_for (ms ++ [m]) s'.
Proof.
  intros (Ht & Hs & Hd & Hc) Ht' Hs' Hd' Hc'. unfold accounts_for, tally in *.
  rewrite !bind_app. simpl. rewrite !(right_id_L [] (++)), !foldl_app.
  by rewrite <- Ht, <- Hs, <- Hd, <- Hc.
Qed.

(** What one successful ingestion adds. *)
Lemma ingest_step ms id event s m s' :
  accounts_for ms s → ul_schema_version s = LEDGER_SCHEMA_VERSION → id ∉ ul_seen_egress_ids s →
  ingest_runtime_event_delta id event s = (Ok m, s') →
  accounts_for (ms ++ [m]) s' ∧ ul_schema_version s' = LEDGER_SCHEMA_VERSION ∧
  ul_seen_egress_ids s' ⊆ {[id]} ∪ ul_seen_egress_ids s.
Proof.
  intros Hacc Hv Hid. unfold ingest_runtime_event_delta, validate_schema. munfold.
  rewrite Hv. simpl. case_bool_decide; [intros [= <- <-]; split_and!; [|done|set_solver];
    by eapply accounts_for_snoc|].
  destruct (decode_payload event) as [|payload]; [done|]. simpl.
  destruct (parse_timestamp _) as [|at_]; [done|]. simpl.
  case_bool_decide.
  { unfold ingest_admitted, mark_seen. munfold. intros [= <- <-]. simpl.
    split_and!; [|done|set_solver]. by eapply accounts_for_snoc. }
  case_bool_decide.
  { unfold ingest_tool, mark_seen. munfold.
    destruct (match ul_active_turns s !! session_of event with Some _ => _ | None => _ end)
      as [turn scope].
    destruct (runtime_tool_egress _ _ _ _ _) as [r|] eqn:Hr.
    - assert (er_id r = id) as Hrid.
      { clear -Hr. unfold runtime_tool_egress in Hr. repeat (case_match; simplify_option_eq; try done). }
      unfold record_egress, validate_schema. munfold. rewrite Hv. simpl.
      destruct (validate_egress r) as [[]| |]; [|done..].
      rewrite bool_decide_false by congruence. intros [= <- <-]. simpl.
      split_and!; [|by unfold charge_egress; repeat case_match|].
      + eapply accounts_for_snoc; [done|..]; simpl; unfold charge_egress; repeat case_match; try done;
          unfold turn_entries, session_entries, day_entries, scope_entries, mutation_entries, fact_posting;
          simpl; repeat case_match; simplify_eq; done.
      + unfold charge_egress; repeat case_match; simpl; rewrite Hrid; set_solver.
    - intros [= <- <-]. simpl. split_and!; [|done|set_solver]. by eapply accounts_for_snoc. }
  case_bool_decide; simpl.
  2:{ intros [= <- <-]. split_and!; [|done|set_solver]. by eapply accounts_for_snoc. }
  unfold record_step, mark_seen. munfold.
  repeat case_match; intros [= <- <-]; simpl; (split_and!; [|done|set_solver]);
    by eapply accounts_for_snoc.
Qed.

Lemma ingest_all_accounts ms events s ms' s' :
  accounts_for ms s → ul_schema_version s = LEDGER_SCHEMA_VERSION →
  NoDup events.*1 → (∀ id, id ∈ events.*1 → id ∉ ul_seen_egress_ids s) →
  ingest_all events s = (Ok ms', s') → accounts_for (ms ++ ms') s'.
Proof.
  revert ms s ms'. induction events as [|[id event] events IH]; intros ms s ms' Hacc Hv Hnd Hfresh; simpl.
  { munfold. intros [= <- <-]. by rewrite (right_id_L [] (++)). }
  simpl in Hnd. apply NoDup_cons in Hnd as [Hid Hnd]. munfold.
  destruct (ingest_runtime_event_delta id event s) as [[m| |] s1] eqn:Hi; [|done..].
  destruct (ingest_all events s1) as [[ms1| |] s2] eqn:Hrest; [|done..]. intros [= <- <-].
  eapply ingest_step in Hi as (Hacc1 & Hv1 & Hseen); [|done|done|apply Hfresh; by left].
  rewrite cons_middle, (assoc_L (++)). eapply IH; [exact Hacc1|done|done| |exact Hrest].
  intros id' Hin Hs. apply Hseen in Hs. specialize (Hfresh id'). set_solver.
Qed.


(** Recovering from stored aggregates is lossless: when one ledger accounts for a list of
    mutations and another for the ones that follow, merging the second into the first gives a
    ledger that accounts for both, saturated counters and the mark for reported totals
    included; a version the code does not support is refused without a change. *)
Theorem merging_ledgers_is_exact ms ms' s newer :
  accounts_for ms s → accounts_for ms' newer →
  (ul_schema_version s = LEDGER_SCHEMA_VERSION → ul_schema_version newer = LEDGER_SCHEMA_VERSION →
   result_of (merge_append_only newer) s = Ok () ∧
   accounts_for (ms ++ ms') (state_of (merge_append_only newer) s)) ∧
  (ul_schema_version s ≠ LEDGER_SCHEMA_VERSION ∨ ul_schema_version newer ≠ LEDGER_SCHEMA_VERSION →
   state_of (merge_append_only newer) s = s ∧
   ∃ v, result_of (merge_append_only newer) s = Err (UnsupportedSchema v) ∧ v ≠ LEDGER_SCHEMA_VERSION).
Proof.
  intros (Ht & Hs & Hd & Hc) (Ht' & Hs' & Hd' & Hc').
  unfold result_of, state_of, merge_append_only, validate_schema. munfold. split.
  - intros -> ->. simpl. split; [done|]. unfold accounts_for, merge_aggregates_from. simpl.
    rewrite !bind_app, Ht, Hs, Hd, Hc, Ht', Hs', Hd', Hc'. by rewrite !merge_tally.
  - destruct (N.eqb_spec (ul_schema_version s) LEDGER_SCHEMA_VERSION) as [Hv|Hv]; simpl; [|eauto].
    destruct (N.eqb_spec (ul_schema_version newer) LEDGER_SCHEMA_VERSION); simpl; [|eauto]. tauto.
Qed.

(** ** Calls in any order *)

Inductive LedgerCall : Type :=
  | CallIngest (egress_id : Uuid) (event : EventEnvelope)
  | CallEgress (record : EgressRecord)
  | CallMerge (newer : UsageLedger)
  | CallClearDetail.

(** The ledger after a call, whatever the call returned. *)
Definition after_call (s : UsageLedger) (c : LedgerCall) : UsageLedger :=
  match c with
  | CallIngest id event => state_of (ingest_runtime_event_delta id event) s
  | CallEgress record => state_of (record_egress record) s
  | CallMerge newer => state_of (merge_append_only newer) s
  | CallClearDetail => clear_detail_records s
  end.

(** A property of ledgers that every primitive change keeps is kept by every call. *)
Lemma calls_preserve (P : UsageLedger → Prop) :
  (∀ s turn session day scope o, P s → P (charge turn session day scope (post o) s)) →
  (∀ s r, P s → P (charge_egress r s)) →
  (∀ s newer, P s → P (merge_aggregates_from newer s)) →
  (∀ s records egress active seen seen_egress,
     P s → ul_seen_event_ids s ⊆ seen →
     P (mkUsageLedger (ul_schema_version s) records egress (ul_turns s) (ul_sessions s) (ul_days s)
          (ul_scopes s) active seen seen_egress)) →
  ∀ calls s, P s → P (foldl after_call s calls).
Proof.
  intros Hcharge Hegress Hmerge Hrest.
  assert (∀ r s, P s → P (state_of (record_egress r) s)) as Hrec.
  { intros r s Hs. unfold state_of, record_egress, validate_schema. munfold.
    destruct (negb _); simpl; [done|]. destruct (validate_egress r) as [[]| |]; simpl; [|done..].
    case_bool_decide; simpl; [done|].
    apply (Hrest _ _ _ _ _ _ (Hegress _ r (Hrest s (ul_records s) (ul_egress s) (ul_active_turns s)
      (ul_seen_event_ids s) _ Hs (reflexivity _)))). done. }
  assert (∀ event s, P s → P (s <| ul_seen_event_ids ::= λ X, {[ev_event_id event]} ∪ X |>)) as Hmark.
  { intros event s Hs. apply (Hrest s); [done|]. set_solver. }
  induction calls as [|c calls IH]; intros s Hs; simpl; [done|]. apply IH. clear IH.
  destruct c as [id event|r|newer|]; simpl; [|by apply Hrec| |by apply (Hrest s)].
  - unfold state_of, ingest_runtime_event_delta, validate_schema, mark_seen in *. munfold.
    destruct (negb _); simpl; [done|]. case_bool_decide; simpl; [done|].
    destruct (decode_payload event) as [|payload]; [done|]. simpl.
    destruct (parse_timestamp _) as [|at_]; [done|]. simpl.
    case_bool_decide; [|case_bool_decide; [|case_bool_decide; simpl; [|done]]].
    + unfold ingest_admitted, mark_seen. munfold. apply (Hrest s); [done|]. set_solver.
    + unfold ingest_tool, mark_seen. munfold.
      destruct (match ul_active_turns s !! session_of event with Some _ => _ | None => _ end) as [turn scope].
      pose proof (Hcharge s turn (session_of event) (day_string at_) scope PostTool Hs) as Hs1. simpl in Hs1.
      destruct (runtime_tool_egress _ _ _ _ _) as [r|]; [|by apply Hmark].
      specialize (Hrec r _ Hs1). unfold state_of in Hrec.
      destruct (record_egress r _) as [[[]| |] s2]; simpl in *; [|done..]. by apply Hmark.
    + assert (∀ tokens context, P (record_step event payload context at_ tokens s).2) as Hstep.
      { intros tokens context. unfold record_step, mark_seen. munfold.
        set (r := step_record event payload context at_ tokens).
        apply (Hrest (charge (ur_turn_id r) (ur_session_id r) (ur_day_utc r) (ur_scope_key r)
          (post (PostUsage r)) s)); [by apply Hcharge|]. simpl. set_solver. }
      repeat case_match; simpl; try done; apply Hstep.
  - unfold state_of, merge_append_only, validate_schema. munfold. do 2 (destruct (negb _); munfold; [done|]).
    apply (Hrest (merge_aggregates_from newer s)); [by apply Hmerge|]. simpl. set_solver.
Qed.

(** ** Budgets *)

(** The budget as a predicate: some configured limit is reached, or a cost limit is set while the
    cost of some step is unknown. *)
Definition over_budget (l : BudgetLimits) (a : UsageAggregate) : Prop :=
  (∃ n, bl_tokens l = Some n ∧ (n <= tu_total (ag_tokens a))%N) ∨
  (∃ n, bl_tool_calls l = Some n ∧ (n <= ag_tool_calls a)%N) ∨
  (∃ n, bl_cost_microusd l = Some n ∧ ((0 < ag_unknown_cost_steps a)%N ∨ (n <= ag_reported_cost_microusd a)%N)).

(** Limits are 64-bit numbers. *)
Definition limits_fit (l : BudgetLimits) : Prop :=
  Forall (λ o, ∀ n, o = Some n → (n <= u64_max)%N) [bl_tokens l; bl_cost_microusd l; bl_tool_calls l].

Lemma check_budget_spec key l s :
  exceeded (check_budget key l s) = true ↔ over_budget l (default aggregate_default (ul_scopes s !! key)).
Proof.
  unfold check_budget, check_tools, check_cost, over_budget, exceeded.
  set (a := default _ _). clearbody a.
  repeat (case_match; simplify_eq); rewrite ?N.leb_le, ?N.leb_gt, ?N.ltb_lt, ?N.ltb_ge in *;
    (split; [intros; try done|done || naive_solver lia]).
  all: repeat match goal with
       | Hl : ?x = Some _ |- _ => progress rewrite Hl
       end; naive_solver lia.
Qed.

Lemma sat_keeps n x y : (n <= u64_max)%N → (n <= x)%N → (n <= add64 x y)%N.
Proof. unfold add64, sat_add. lia. Qed.

Lemma over_budget_mono l a a' :
  limits_fit l → over_budget l a →
  (∀ n, (n <= u64_max)%N → (n <= tu_total (ag_tokens a))%N → (n <= tu_total (ag_tokens a'))%N) →
  (∀ n, (n <= u64_max)%N → (n <= ag_tool_calls a)%N → (n <= ag_tool_calls a')%N) →
  (∀ n, (n <= u64_max)%N → (n <= ag_unknown_cost_steps a)%N → (n <= ag_unknown_cost_steps a')%N) →
  (∀ n, (n <= u64_max)%N → (n <= ag_reported_cost_microusd a)%N → (n <= ag_reported_cost_microusd a')%N) →
  over_budget l a'.
Proof.
  unfold limits_fit, over_budget. rewrite !Forall_cons. intros (Ht & Hc & Hk & _) Hover Mt Mk Mu Mc.
  destruct Hover as [(n & Hn & ?)|[(n & Hn & ?)|(n & Hn & [Hu|?])]].
  - left. eauto.
  - right; left. eauto.
  - right; right. exists n. split; [done|]. left.
    assert (1 <= ag_unknown_cost_steps a')%N; [|lia]. apply Mu; [done|lia].
  - right; right. exists n. split; [done|]. right. eauto.
Qed.

Lemma over_budget_post l o a : limits_fit l → over_budget l a → over_budget l (post o a).
Proof.
  intros Hl Ha. eapply over_budget_mono; [done|exact Ha|..]; intros n Hn Hle;
    destruct o; simpl; repeat case_match; auto using sat_keeps.
Qed.

Lemma over_budget_merge l a b : limits_fit l → over_budget l a → over_budget l (merge a b).
Proof.
  intros Hl Ha. eapply over_budget_mono; [done|exact Ha|..]; intros n Hn Hle; simpl; by apply sat_keeps.
Qed.

(** A budget verdict is exact and permanent: it is "exceeded" exactly when a configured token,
    tool-call or cost limit is reached or the cost cannot be verified, and once that is so for
    a scope it stays so through any later calls, failing ones and counters at their
    maximum included. *)
Theorem exceeded_budget_is_final key l s calls :
  limits_fit l →
  (exceeded (check_budget key l s) = true ↔
   over_budget l (default aggregate_default (ul_scopes s !! key))) ∧
  (exceeded (check_budget key l s) = true → exceeded (check_budget key l (foldl after_call s calls)) = true).
Proof.
  intros Hl. split; [apply check_budget_spec|]. rewrite !check_budget_spec. revert s.
  set (P s := over_budget l (default aggregate_default (ul_scopes s !! key))).
  assert (∀ (m : Aggregates) k o, over_budget l (default aggregate_default (m !! key)) →
    over_budget l (default aggregate_default (at_entry k (post o) m !! key))) as Hentry.
  { intros m k o Hm. unfold at_entry. destruct (decide (k = key)) as [->|];
      [rewrite lookup_insert_eq; by apply over_budget_post|by rewrite lookup_insert_ne]. }
  change (∀ s, P s → P (foldl after_call s calls)). apply (calls_preserve P); unfold P; clear P.
  - intros s turn session day scope o. simpl. apply Hentry.
  - intros s r Hs. unfold charge_egress. destruct (er_session_id r), (er_scope_key r); simpl; try done;
      by apply (Hentry _ _ (PostEgress r)).
  - intros s newer Hs. simpl. rewrite merge_aggregate_maps_lookup. case_match; [|done].
    simpl. by apply over_budget_merge.
  - intros. simpl. done.
Qed.

(** ** Idempotence *)

(** An event is counted once: when ingesting an event reports a fact, ingesting any event with
    that identifier later, after any other calls, changes nothing and reports nothing. *)
Theorem ingested_event_is_counted_once id event s m s' calls id' event' :
  ingest_runtime_event_delta id event s = (Ok m, s') → um_fact m ≠ None →
  ev_event_id event' = ev_event_id event →
  let later := foldl after_call s' calls in
  ingest_runtime_event_delta id' event' later = (Ok no_mutation, later).
Proof.
  intros Hi Hm Heq later.
  set (P s := ul_schema_version s = LEDGER_SCHEMA_VERSION ∧ ev_event_id event ∈ ul_seen_event_ids s).
  assert (P s') as Hs'.
  { unfold P. clear -Hi Hm. revert Hi. unfold ingest_runtime_event_delta, validate_schema. munfold.
    destruct (N.eqb_spec (ul_schema_version s) LEDGER_SCHEMA_VERSION) as [Hv|]; simpl; [|done].
    case_bool_decide; [by intros [= <- <-]|].
    destruct (decode_payload event) as [|payload]; [done|]. simpl.
    destruct (parse_timestamp _) as [|at_]; [done|]. simpl.
    unfold ingest_admitted, ingest_tool, record_step, mark_seen. munfold.
    assert (∀ r s s1 u, ul_schema_version s = LEDGER_SCHEMA_VERSION → record_egress r s = (Ok u, s1) →
      ul_schema_version s1 = LEDGER_SCHEMA_VERSION) as Hegress.
    { intros r s0 s1 u Hv0. unfold record_egress, validate_schema. munfold. rewrite Hv0. simpl.
      intros Hr. repeat (case_match; simplify_eq/=); try done;
        unfold charge_egress; repeat case_match; simpl; done. }
    repeat (case_match; simplify_eq/=); intros; simplify_eq/=; split; try done; try set_solver.
    all: by eapply Hegress; [|eassumption]. }
  assert (P later) as [Hv Hseen].
  { apply (calls_preserve P); [..|exact Hs']; unfold P.
    - by intros.
    - intros s0 r Hs0. unfold charge_egress. by repeat case_match.
    - by intros.
    - intros. simpl. set_solver. }
  unfold ingest_runtime_event_delta, validate_schema. munfold. rewrite Hv. simpl.
  by rewrite bool_decide_true by congruence.
Qed.
End histories.

(** ** Instances *)

(** Payloads as they are kept, one instant, and days by their number. *)
Definition day_calendar : Calendar := {|
  decode_payload := λ event, inr (ev_payload event);
  parse_timestamp := λ text, if is_empty text then inl "premature end of input" else inr 90000000000000%Z;
  day_string := λ at_, pretty (Z.to_N (at_ / 86400000000000));
|}.

Definition sample_event (id kind : string) (payload : Value) : EventEnvelope :=
  mkEventEnvelope 1 id "2026-01-01T00:00:00Z" 1 "runtime" "default" (Some "s1") (Some "g1") None None
    kind payload.

Definition admitted_event : EventEnvelope :=
  sample_event "e1" "response.admitted" (VObject [("message_id", VString "m1"); ("provider", VString "acme")]).
Definition tool_event : EventEnvelope :=
  sample_event "e2" "tool.started" (VObject [("tool", VString "web_search")]).
Definition step_event : EventEnvelope :=
  sample_event "e3" "response.step_completed"
    (VObject [("cost", VNumber (Float (S754_finite false 1 (-1)%Z)));
              ("tokens", VObject [("input", VNumber (PosInt 7)); ("output", VNumber (PosInt 5))])]).
Definition sample_history : list (Uuid * EventEnvelope) :=
  [(11%N, admitted_event); (12%N, tool_event); (13%N, step_event)].
Definition sample_run := @ingest_all day_calendar sample_history ledger_default.
Definition sample_mutations : list UsageMutation :=
  match sample_run.1 with Ok ms => ms | _ => [] end.

(** The step cost half a dollar and twelve tokens, and the turn counts one tool call. *)
Example sample_turn :
  (λ a, (ag_provider_steps a, ag_reported_cost_microusd a, tu_total (ag_tokens a), ag_tool_calls a))
    <$> ul_turns sample_run.2 !! "m1" = Some (1%N, 500000%N, 12%N, 1%N).
Proof. vm_compute. reflexivity. Qed.

Definition sample_limits : BudgetLimits := mkBudgetLimits (Some 10%N) (Some 1000000%N) None.


Lemma merging_ledgers_is_exact_witness :
  result_of (merge_append_only sample_run.2) sample_run.2 = Ok () ∧
  @accounts_for day_calendar (sample_mutations ++ sample_mutations)
    (state_of (merge_append_only sample_run.2) sample_run.2).
Proof.
  assert (@accounts_for day_calendar sample_mutations sample_run.2) as Hacc.
  { unfold accounts_for. split_and!; vm_compute; reflexivity. }
  apply (@merging_ledgers_is_exact day_calendar sample_mutations sample_mutations); try exact Hacc;
    vm_compute; reflexivity.
Defined.

Lemma exceeded_budget_is_final_witness :
  exceeded (check_budget "goal:g1" sample_limits sample_run.2) = true ∧
  exceeded (check_budget "goal:g1" sample_limits
    (foldl (@after_call day_calendar) sample_run.2 [CallClearDetail; CallIngest 14%N tool_event])) = true.
Proof.
  split; [vm_compute; reflexivity|].
  apply (@exceeded_budget_is_final day_calendar "goal:g1" sample_limits); [|vm_compute; reflexivity].
  repeat constructor; intros n Hn; simpl in Hn; simplify_eq; done.
Defined.

Lemma ingested_event_is_counted_once_witness :
  let later := foldl (@after_call day_calendar)
    (state_of (@ingest_runtime_event_delta day_calendar 1%N tool_event) ledger_default) [CallClearDetail] in
  @ingest_runtime_event_delta day_calendar 2%N tool_event later = (Ok no_mutation, later).
Proof.
  apply (@ingested_event_is_counted_once day_calendar 1%N tool_event ledger_default
    (match result_of (@ingest_runtime_event_delta day_calendar 1%N tool_event) ledger_default with
     | Ok m => m | _ => no_mutation end)); [vm_compute; reflexivity| |reflexivity].
  vm_compute. discriminate.
Defined.

(** ** A failed tool event is counted again

    [bounded_label] keeps 256 characters of a tool's name with the line breaks inside it;
    [validate_egress] refuses line breaks (and more than 512 bytes).  The call has been
    counted by then and the event is not marked as seen. *)

Definition two_line_event : EventEnvelope :=
  sample_event "e9" "tool.started"
    (VObject [("tool", VString (of_bytes (bytes "web" ++ [ascii_of_N 10] ++ bytes "search")))]).

(** Replaying an event is idempotent only when it was accepted: a tool event whose name has a
    line break is refused with an error, but its call is counted, and counted again each time the
    event is delivered. *)
Theorem refused_tool_event_is_counted_again :
  let deliver := state_of (@ingest_runtime_event_delta day_calendar 1%N two_line_event) in
  let counted s := ag_tool_calls <$> ul_scopes s !! "goal:g1" in
  result_of (@ingest_runtime_event_delta day_calendar 1%N two_line_event) ledger_default = Err InvalidEgress ∧
  counted (deliver ledger_default) = Some 1%N ∧
  counted (deliver (deliver ledger_default)) = Some 2%N.
Proof. vm_compute. split_and!; reflexivity. Qed.
