(* ===== verification/Llm.v ===== *)
(** * Native language-model turns

    Models the crate [crates/llm]: the event vocabulary ([event.rs]), the assembly of a turn
    from stream fragments ([turn.rs]), the decoders and request bodies of the two wire dialects
    ([anthropic.rs], [openai.rs]), the retry policy ([retry.rs]), redaction of provider text
    ([redact.rs]), and the attempt loop with its aborts ([transport.rs], [error.rs],
    [message.rs]).  The network is a script of what each attempt meets; the JSON parser, header
    and URL construction are parameters. *)

From stdpp Require Import base gmap strings list pretty.
From Stdlib Require Import Ascii SpecFloat.
From S2P Require Import Prelude Text Contracts.

(** ** Events ([event.rs]) *)

Record Usage : Type := mkUsage {
  us_input_tokens : N;
  us_output_tokens : N;
  us_cache_read_input_tokens : N;
  us_cache_creation_input_tokens : N;
  us_reasoning_tokens : N;
  us_cost_usd : option f64;
}.
Global Instance Usage_eta : Eta Usage :=
  λ r, mkUsage (us_input_tokens r) (us_output_tokens r) (us_cache_read_input_tokens r)
    (us_cache_creation_input_tokens r) (us_reasoning_tokens r) (us_cost_usd r).
Definition usage_default : Usage := mkUsage 0 0 0 0 0 None.

Definition total_input_tokens (u : Usage) : N :=
  sat_add u64_max (sat_add u64_max (us_input_tokens u) (us_cache_read_input_tokens u))
    (us_cache_creation_input_tokens u).
Definition total_tokens (u : Usage) : N := sat_add u64_max (total_input_tokens u) (us_output_tokens u).

Definition to_payload (u : Usage) : Value :=
  object_of [("input_tokens", value_of_N (us_input_tokens u));
    ("output_tokens", value_of_N (us_output_tokens u));
    ("cache_read_input_tokens", value_of_N (us_cache_read_input_tokens u));
    ("cache_creation_input_tokens", value_of_N (us_cache_creation_input_tokens u));
    ("reasoning_tokens", value_of_N (us_reasoning_tokens u));
    ("total_tokens", value_of_N (total_tokens u));
    ("cost_usd", match us_cost_usd u with Some c => value_of_f64 c | None => VNull end)].

Inductive FinishReason : Type :=
  | FinishStop
  | FinishToolCalls
  | FinishMaxTokens
  | FinishRefusal
  | FinishAborted
  | FinishOther (reason : string).

Definition finish_str (r : FinishReason) : string :=
  match r with
  | FinishStop => "stop"
  | FinishToolCalls => "tool_calls"
  | FinishMaxTokens => "max_tokens"
  | FinishRefusal => "refusal"
  | FinishAborted => "aborted"
  | FinishOther reason => reason
  end.

Record ToolCall : Type := mkToolCall {
  tc_call_id : string;
  tc_tool : string;
  tc_arguments : Value;
}.

Record AssistantMessage : Type := mkAssistantMessage {
  am_text : string;
  am_reasoning : string;
  am_tool_calls : list ToolCall;
}.
Global Instance AssistantMessage_eta : Eta AssistantMessage :=
  λ r, mkAssistantMessage (am_text r) (am_reasoning r) (am_tool_calls r).

Inductive LlmEvent : Type :=
  | ResponseStarted (provider model : string) (response_id : option string)
  | ResponseRetrying (attempt delay_ms : N) (reason : string)
  | ResponseDelta (text : string)
  | ReasoningAvailable (text : string)
  | ReasoningCompleted
  | ToolCallStarted (index : N) (call_id tool : string)
  | ToolCallProgress (index : N) (call_id tool arguments_delta : string)
  | ToolCallReady (index : N) (call : ToolCall)
  | ToolCallFailed (index : N) (call_id tool error : string)
  | ResponseStepCompleted (finish_reason : FinishReason) (usage : Usage)
  | ResponseCompleted (finish_reason : FinishReason) (usage : Usage) (message : AssistantMessage)
  | ResponseFailed (error : string) (usage : Usage).

Definition event_type (e : LlmEvent) : string :=
  match e with
  | ResponseStarted _ _ _ => "response.started"
  | ResponseRetrying _ _ _ => "response.retrying"
  | ResponseDelta _ => "response.delta"
  | ReasoningAvailable _ => "reasoning.available"
  | ReasoningCompleted => "reasoning.completed"
  | ToolCallStarted _ _ _ => "tool.started"
  | ToolCallProgress _ _ _ _ | ToolCallReady _ _ => "tool.progress"
  | ToolCallFailed _ _ _ _ => "tool.failed"
  | ResponseStepCompleted _ _ => "response.step_completed"
  | ResponseCompleted _ _ _ => "response.completed"
  | ResponseFailed _ _ => "response.failed"
  end.

Definition is_terminal (e : LlmEvent) : bool :=
  match e with ResponseCompleted _ _ _ | ResponseFailed _ _ => true | _ => false end.

Definition payload (e : LlmEvent) : Value :=
  match e with
  | ResponseStarted provider model response_id =>
    object_of [("provider", VString provider); ("model", VString model);
      ("responseID", match response_id with Some id => VString id | None => VNull end)]
  | ResponseRetrying attempt delay_ms reason =>
    object_of [("attempt", value_of_N attempt); ("next", value_of_N delay_ms); ("message", VString reason)]
  | ResponseDelta text => object_of [("delta", VString text)]
  | ReasoningAvailable text => object_of [("delta", VString text); ("reasoning", VBool true)]
  | ReasoningCompleted => object_of []
  | ToolCallStarted index call_id tool =>
    object_of [("index", value_of_N index); ("callID", VString call_id); ("tool", VString tool)]
  | ToolCallProgress index call_id tool delta =>
    object_of [("index", value_of_N index); ("callID", VString call_id); ("tool", VString tool);
      ("status", VString "input_delta"); ("bytes", value_of_N (N.of_nat (str_len delta)))]
  | ToolCallReady index call =>
    object_of [("index", value_of_N index); ("callID", VString (tc_call_id call));
      ("tool", VString (tc_tool call)); ("status", VString "input_complete")]
  | ToolCallFailed index call_id tool error =>
    object_of [("index", value_of_N index); ("callID", VString call_id); ("tool", VString tool);
      ("error", VString error)]
  | ResponseStepCompleted finish usage =>
    object_of [("finish", VString (finish_str finish)); ("tokens", to_payload usage)]
  | ResponseCompleted finish usage message =>
    object_of [("terminal", VBool true); ("finish", VString (finish_str finish));
      ("tokens", to_payload usage); ("toolCalls", value_of_N (N.of_nat (length (am_tool_calls message))))]
  | ResponseFailed error usage =>
    object_of [("terminal", VBool true); ("error", VString error); ("tokens", to_payload usage)]
  end.

Definition to_envelope `{EventHost} (e : LlmEvent) (sequence : N) (origin profile_id session_id : string)
    : EventEnvelope :=
  (event_new sequence origin profile_id (event_type e) (payload e))
    <| ev_session_id := Some session_id |>.

(** ** Errors ([error.rs]) and retries ([retry.rs]) *)

Inductive LlmError : Type :=
  | InvalidKeyAlias
  | SecretUnavailable (detail : string)
  | InvalidBaseUrl
  | RequestInvalid (detail : string)
  | Transport (detail : string)
  | Status (status : N) (message : string)
  | Protocol (detail : string)
  | Aborted.

Definition llm_error_text (e : LlmError) : string :=
  match e with
  | InvalidKeyAlias => "provider key must be a keychain://service/account alias"
  | SecretUnavailable d => "provider credential is unavailable: " +:+ d
  | InvalidBaseUrl => "provider base URL is not a usable HTTP endpoint"
  | RequestInvalid d => "provider request is invalid: " +:+ d
  | Transport d => "provider transport failed: " +:+ d
  | Status status message => "provider returned HTTP " +:+ pretty status +:+ ": " +:+ message
  | Protocol d => "provider stream is malformed: " +:+ d
  | Aborted => "turn aborted before completion"
  end.

Definition is_retryable_status (status : N) : bool :=
  bool_decide (status ∈ [408; 409; 425; 429]%N) || (500 <=? status)%N.
Definition is_retryable (e : LlmError) : bool :=
  match e with
  | Transport _ => true
  | Status status _ => is_retryable_status status
  | _ => false
  end.

(** A [Duration] is its number of nanoseconds. *)
Definition Duration : Type := N.
Definition DURATION_MAX : Duration := (u64_max * 1000000000 + 999999999)%N.
Definition millis (n : N) : Duration := (n * 1000000)%N.
Definition seconds (n : N) : Duration := (n * 1000000000)%N.
Definition as_millis (d : Duration) : N := (d / 1000000)%N.

Record RetryPolicy : Type := mkRetryPolicy {
  rp_max_attempts : N;
  rp_initial_backoff : Duration;
  rp_max_backoff : Duration;
  rp_multiplier : N;
  rp_honor_retry_after : bool;
}.
Definition retry_default : RetryPolicy := mkRetryPolicy 3 (millis 250) (seconds 8) 2 true.
Definition retry_none : RetryPolicy := mkRetryPolicy 1 (millis 250) (seconds 8) 2 true.

Definition backoff (p : RetryPolicy) (attempt : N) : Duration :=
  let exponent := N.min (sat_sub attempt 1) 16 in
  let factor := N.min u32_max (N.max (rp_multiplier p) 1 ^ exponent) in
  N.min (N.min DURATION_MAX (rp_initial_backoff p * factor)) (rp_max_backoff p).

Definition delay_after (p : RetryPolicy) (attempt : N) (retry_after : option Duration) : Duration :=
  match retry_after with
  | Some advice => if rp_honor_retry_after p then N.min advice (rp_max_backoff p) else backoff p attempt
  | None => backoff p attempt
  end.

(** ** Redaction ([redact.rs]) *)

Definition REDACTED : list ascii := bytes "[redacted]".
Definition MAX_RETAINED : N := 512.

(** [str::replace] of a non-empty pattern: leftmost matches that do not overlap.  [skip] counts
    the bytes of the current match still to be dropped. *)
Fixpoint replace_all (pat with_ : list ascii) (skip : nat) (l : list ascii) : list ascii :=
  match l with
  | [] => []
  | c :: l' =>
    match skip with
    | S skip => replace_all pat with_ skip l'
    | O => if starts_with pat l then with_ ++ replace_all pat with_ (length pat - 1) l'
           else c :: replace_all pat with_ 0 l'
    end
  end.

Definition ellipsis : list ascii := ascii_of_N <$> [0xE2; 0x80; 0xA6]%N.

Definition scrub (text : string) (key : option string) : string :=
  let cleaned := match key with
    | Some key => if 4 <=? str_len key then replace_all (bytes key) REDACTED 0 (bytes text) else bytes text
    | None => bytes text
    end in
  of_bytes (if (MAX_RETAINED <? char_count cleaned)%N then take_chars_go MAX_RETAINED cleaned ++ ellipsis
            else cleaned).

(** ** Requests ([message.rs]) *)

Inductive Role : Type := RoleUser | RoleAssistant.

Record TextBlock : Type := mkTextBlock { tb_text : string; tb_cache : bool }.

Inductive Content : Type :=
  | Text (block : TextBlock)
  | ToolUse (call_id tool : string) (arguments : Value)
  | ToolResult (call_id content : string) (is_error : bool).

Record Message : Type := mkMessage { mg_role : Role; mg_content : list Content }.

Record ToolDefinition : Type := mkToolDefinition {
  td_name : string;
  td_description : string;
  td_input_schema : Value;
  td_cache : bool;
}.

Inductive ToolChoice : Type := ChoiceAuto | ChoiceAny | ChoiceNone | ChoiceNamed (name : string).

Record ChatRequest : Type := mkChatRequest {
  cr_model : string;
  cr_system : list TextBlock;
  cr_messages : list Message;
  cr_tools : list ToolDefinition;
  cr_max_output_tokens : N;
  cr_tool_choice : ToolChoice;
}.

Definition request_validate (r : ChatRequest) : outcome LlmError () :=
  _ ← ensure_not (is_blank (cr_model r)) (RequestInvalid "model identifier is empty");
  _ ← ensure_not (cr_max_output_tokens r =? 0)%N
        (RequestInvalid "max_output_tokens must be greater than zero");
  ensure_not (bool_decide (length (cr_messages r) = 0)) (RequestInvalid "request contains no messages").

Inductive ProviderKind : Type := KindAnthropic | KindOpenAiCompatible.
Inductive CacheTtl : Type := FiveMinutes | OneHour.

(** ** Turn assembly ([turn.rs]) *)

Record ToolCallBuilder : Type := mkToolCallBuilder {
  tb_call_id : string;
  tb_tool : string;
  tb_arguments : string;
  tb_announced : bool;
  tb_settled : bool;
}.
Global Instance ToolCallBuilder_eta : Eta ToolCallBuilder :=
  λ r, mkToolCallBuilder (tb_call_id r) (tb_tool r) (tb_arguments r) (tb_announced r) (tb_settled r).
Definition builder_default : ToolCallBuilder := mkToolCallBuilder "" "" "" false false.

Record TurnState : Type := mkTurnState {
  ts_provider : string;
  ts_model : string;
  ts_started : bool;
  ts_message : AssistantMessage;
  ts_calls : list ToolCallBuilder;
  ts_usage : Usage;
  ts_finish : option FinishReason;
  ts_completed : bool;
}.
Global Instance TurnState_eta : Eta TurnState :=
  λ r, mkTurnState (ts_provider r) (ts_model r) (ts_started r) (ts_message r) (ts_calls r) (ts_usage r)
    (ts_finish r) (ts_completed r).

Definition turn_new (provider model : string) : TurnState :=
  mkTurnState provider model false (mkAssistantMessage "" "" []) [] usage_default None false.

(** A method of the turn: the events it returns and the state it leaves. *)
Definition Turn : Type := TurnState → list LlmEvent * TurnState.

Definition seq_turn (a b : Turn) : Turn :=
  λ s, let '(e1, s1) := a s in let '(e2, s2) := b s1 in (e1 ++ e2, s2).
Definition silent (f : TurnState → TurnState) : Turn := λ s, ([], f s).
Definition seq_turns (l : list Turn) : Turn := foldr seq_turn (λ s, ([], s)) l.

Definition set_finish (reason : FinishReason) : Turn := silent (λ s, s <| ts_finish := Some reason |>).
Definition has_finish (s : TurnState) : bool := bool_decide (is_Some (ts_finish s)).

Definition non_empty (o : option string) : option string :=
  o ≫= λ s, if is_empty s then None else Some s.

Definition turn_start (model response_id : option string) : Turn := λ s,
  if ts_started s then ([], s)
  else
    let s := s <| ts_started := true |> in
    let s := match non_empty model with Some model => s <| ts_model := model |> | None => s end in
    ([ResponseStarted (ts_provider s) (ts_model s) response_id], s).

Definition turn_text (delta : string) : Turn := λ s,
  if is_empty delta then ([], s)
  else ([ResponseDelta delta],
        s <| ts_message ::= λ m, m <| am_text := am_text m +:+ delta |> |>).

Definition turn_reasoning (delta : string) : Turn := λ s,
  if is_empty delta then ([], s)
  else ([ReasoningAvailable delta],
        s <| ts_message ::= λ m, m <| am_reasoning := am_reasoning m +:+ delta |> |>).

Definition index_as_u32 (index : nat) : N := N.min u32_max (N.of_nat index).

(** [slot]: the calls, extended up to the index; then a change of the call there. *)
Definition grow (index : nat) (calls : list ToolCallBuilder) : list ToolCallBuilder :=
  calls ++ replicate (S index - length calls) builder_default.
Definition slot (index : nat) (s : TurnState) : ToolCallBuilder :=
  default builder_default (grow index (ts_calls s) !! index).
Definition set_slot (index : nat) (b : ToolCallBuilder) (s : TurnState) : TurnState :=
  s <| ts_calls := <[index := b]> (grow index (ts_calls s)) |>.

Definition announce (index : nat) (call_id tool : option string) : Turn := λ s,
  let b := slot index s in
  let b := match non_empty call_id with Some id => b <| tb_call_id := id |> | None => b end in
  let b := match non_empty tool with Some tool => b <| tb_tool := tool |> | None => b end in
  if tb_announced b || is_empty (tb_tool b) then ([], set_slot index b s)
  else ([ToolCallStarted (index_as_u32 index) (tb_call_id b) (tb_tool b)],
        set_slot index (b <| tb_announced := true |>) s).

Definition turn_arguments (index : nat) (fragment : string) : Turn := λ s,
  if is_empty fragment then ([], s)
  else
    let b := slot index s in
    let b := b <| tb_arguments := tb_arguments b +:+ fragment |> in
    ([ToolCallProgress (index_as_u32 index) (tb_call_id b) (tb_tool b) fragment], set_slot index b s).

Section decoding.
(** [serde_json::from_str], with the text of its error. *)
Context (from_str : string → string + Value).

Definition parse_arguments (raw : string) : string + Value :=
  if is_blank raw then inr (VObject [])
  else match from_str raw with
       | inr v => inr v
       | inl e => inl ("tool arguments are not valid JSON: " +:+ e)
       end.

Definition settle (index : nat) : Turn := λ s,
  let b := slot index s in
  if tb_settled b || (is_empty (tb_tool b) && is_empty (tb_arguments b))
  then ([], set_slot index b s)
  else
    let s := set_slot index (b <| tb_settled := true |>) s in
    match parse_arguments (tb_arguments b) with
    | inr arguments =>
      let call := mkToolCall (tb_call_id b) (tb_tool b) arguments in
      ([ToolCallReady (index_as_u32 index) call],
       s <| ts_message ::= λ m, m <| am_tool_calls := am_tool_calls m ++ [call] |> |>)
    | inl error =>
      ([ToolCallFailed (index_as_u32 index) (tb_call_id b) (tb_tool b) error], s)
    end.

Definition finish_of (s : TurnState) : FinishReason :=
  match ts_finish s with
  | Some finish => finish
  | None => match am_tool_calls (ts_message s) with [] => FinishStop | _ => FinishToolCalls end
  end.

Definition complete : Turn := λ s,
  if ts_completed s then ([], s)
  else
    let s := s <| ts_completed := true |> in
    let '(events, s) := seq_turns (settle <$> seq 0 (length (ts_calls s))) s in
    (events ++ [ResponseStepCompleted (finish_of s) (ts_usage s);
                ResponseCompleted (finish_of s) (ts_usage s) (ts_message s)], s).

Definition turn_fail (error : string) : Turn := λ s,
  if ts_completed s then ([], s)
  else ([ResponseFailed error (ts_usage s)], s <| ts_completed := true |>).

(** ** The Messages API decoder ([anthropic.rs]) *)

Inductive BlockKind : Type := BlockText | BlockThinking | BlockToolUse | BlockOther.
Global Instance BlockKind_eq_dec : EqDecision BlockKind.
Proof. solve_decision. Defined.

Record AnthropicDecoder : Type := mkAnthropicDecoder {
  ad_state : TurnState;
  ad_blocks : gmap nat BlockKind;
}.

Definition on_turn (t : Turn) (d : AnthropicDecoder) : list LlmEvent * AnthropicDecoder :=
  let '(events, s) := t (ad_state d) in (events, mkAnthropicDecoder s (ad_blocks d)).

Definition number_at (key : string) (v : Value) : N := default 0%N (value_get key v ≫= as_u64).

Definition message_start (frame : Value) : Turn :=
  let message := value_get "message" frame in
  seq_turn (turn_start (message ≫= get_str "model") (message ≫= get_str "id"))
    (silent (λ s,
      match message ≫= value_get "usage" with
      | Some usage =>
        s <| ts_usage ::= λ u,
          mkUsage (number_at "input_tokens" usage) (number_at "output_tokens" usage)
            (number_at "cache_read_input_tokens" usage) (number_at "cache_creation_input_tokens" usage)
            (us_reasoning_tokens u) (us_cost_usd u) |>
      | None => s
      end)).

Definition block_kind (kind : string) : BlockKind :=
  if bool_decide (kind = "text") then BlockText
  else if bool_decide (kind ∈ ["thinking"; "redacted_thinking"]) then BlockThinking
  else if bool_decide (kind = "tool_use") then BlockToolUse
  else BlockOther.

Definition block_start (index : nat) (frame : Value) (d : AnthropicDecoder)
    : list LlmEvent * AnthropicDecoder :=
  let block := value_get "content_block" frame in
  let kind := block_kind (default "" (block ≫= get_str "type")) in
  let d := mkAnthropicDecoder (ad_state d) (<[index := kind]> (ad_blocks d)) in
  if bool_decide (kind = BlockToolUse)
  then on_turn (announce index (block ≫= get_str "id") (block ≫= get_str "name")) d
  else ([], d).

Definition block_delta (index : nat) (frame : Value) : Turn :=
  match value_get "delta" frame with
  | None => silent id
  | Some delta =>
    let text key := default "" (get_str key delta) in
    let kind := default "" (get_str "type" delta) in
    if bool_decide (kind = "text_delta") then turn_text (text "text")
    else if bool_decide (kind = "thinking_delta") then turn_reasoning (text "thinking")
    else if bool_decide (kind = "input_json_delta") then turn_arguments index (text "partial_json")
    else silent id
  end.

Definition block_stop (index : nat) (d : AnthropicDecoder) : list LlmEvent * AnthropicDecoder :=
  match ad_blocks d !! index with
  | Some BlockToolUse => on_turn (settle index) d
  | Some BlockThinking => ([ReasoningCompleted], d)
  | _ => ([], d)
  end.

Definition anthropic_finish_reason (reason : string) : FinishReason :=
  if bool_decide (reason ∈ ["end_turn"; "stop_sequence"]) then FinishStop
  else if bool_decide (reason = "tool_use") then FinishToolCalls
  else if bool_decide (reason = "max_tokens") then FinishMaxTokens
  else if bool_decide (reason = "refusal") then FinishRefusal
  else FinishOther reason.

Definition message_delta (frame : Value) : Turn :=
  seq_turn
    (match value_get "delta" frame ≫= get_str "stop_reason" with
     | Some reason => set_finish (anthropic_finish_reason reason)
     | None => silent id
     end)
    (silent (λ s,
      match value_get "usage" frame with
      | Some usage =>
        let s := match value_get "output_tokens" usage ≫= as_u64 with
          | Some output => s <| ts_usage ::= λ u, u <| us_output_tokens := output |> |>
          | None => s
          end in
        match value_get "input_tokens" usage ≫= as_u64 with
        | Some input => s <| ts_usage ::= λ u, u <| us_input_tokens := input |> |>
        | None => s
        end
      | None => s
      end)).

Definition stream_error (frame : Value) : string :=
  default "provider reported a stream error" (value_get "error" frame ≫= get_str "message").

Definition anthropic_push (data : string) (d : AnthropicDecoder)
    : (LlmError + list LlmEvent) * AnthropicDecoder :=
  match from_str data with
  | inl e => (inl (Protocol ("event is not JSON: " +:+ e)), d)
  | inr frame =>
    let index := N.to_nat (number_at "index" frame) in
    let kind := default "" (get_str "type" frame) in
    let '(events, d) :=
      if bool_decide (kind = "message_start") then on_turn (message_start frame) d
      else if bool_decide (kind = "content_block_start") then block_start index frame d
      else if bool_decide (kind = "content_block_delta") then on_turn (block_delta index frame) d
      else if bool_decide (kind = "content_block_stop") then block_stop index d
      else if bool_decide (kind = "message_delta") then on_turn (message_delta frame) d
      else if bool_decide (kind = "message_stop") then on_turn complete d
      else if bool_decide (kind = "error") then on_turn (turn_fail (stream_error frame)) d
      else ([], d) in
    (inr events, d)
  end.

(** ** The chat-completions decoder ([openai.rs]) *)

Definition openai_finish_reason (reason : string) : FinishReason :=
  if bool_decide (reason ∈ ["stop"; "end_turn"]) then FinishStop
  else if bool_decide (reason ∈ ["tool_calls"; "function_call"]) then FinishToolCalls
  else if bool_decide (reason ∈ ["length"; "max_tokens"]) then FinishMaxTokens
  else if bool_decide (reason ∈ ["content_filter"; "refusal"]) then FinishRefusal
  else FinishOther reason.

Definition merge_usage (reported : Value) (u : Usage) : Usage :=
  let number path := pointer path reported ≫= as_u64 in
  let u := match number ["prompt_tokens"] with
    | Some value =>
      let cached := default 0%N (number ["prompt_tokens_details"; "cached_tokens"]) in
      u <| us_input_tokens := sat_sub value cached |> <| us_cache_read_input_tokens := cached |>
    | None => u
    end in
  let u := match number ["completion_tokens"] with
    | Some value => u <| us_output_tokens := value |>
    | None => u
    end in
  let u := match number ["completion_tokens_details"; "reasoning_tokens"] with
    | Some value => u <| us_reasoning_tokens := value |>
    | None => u
    end in
  match value_get "cost" reported ≫= as_f64 with
  | Some cost => if f64_is_finite cost then u <| us_cost_usd := Some cost |> else u
  | None => u
  end.

Definition openai_tool_call (position : nat) (call : Value) : Turn :=
  let index := match value_get "index" call ≫= as_u64 with Some i => N.to_nat i | None => position end in
  let function := value_get "function" call in
  seq_turn (announce index (get_str "id" call) (function ≫= get_str "name"))
    (match function ≫= get_str "arguments" with
     | Some arguments => turn_arguments index arguments
     | None => silent id
     end).

Definition openai_delta (delta : Value) : Turn :=
  seq_turns
    ((match get_str "content" delta with Some text => turn_text text | None => silent id end)
     :: ((λ field, match get_str field delta with Some text => turn_reasoning text | None => silent id end)
         <$> ["reasoning"; "reasoning_content"])
     ++ imap openai_tool_call (default [] (get_array "tool_calls" delta))).

Definition openai_chunk (chunk : Value) : Turn :=
  match value_get "error" chunk with
  | Some error => turn_fail (default "provider reported a stream error" (get_str "message" error))
  | None =>
    seq_turns
      [turn_start (get_str "model" chunk) (get_str "id" chunk);
       silent (λ s,
         match value_get "usage" chunk with
         | Some usage => if is_object usage then s <| ts_usage ::= merge_usage usage |> else s
         | None => s
         end);
       match get_array "choices" chunk ≫= head with
       | None => silent id
       | Some choice =>
         seq_turn
           (match value_get "delta" choice with Some delta => openai_delta delta | None => silent id end)
           (match get_str "finish_reason" choice with
            | Some reason => set_finish (openai_finish_reason reason)
            | None => silent id
            end)
       end]
  end.

Definition openai_push (data : string) (s : TurnState) : (LlmError + list LlmEvent) * TurnState :=
  if bool_decide (trim data = "[DONE]") then let '(events, s) := complete s in (inr events, s)
  else match from_str data with
  | inl e => (inl (Protocol ("chunk is not JSON: " +:+ e)), s)
  | inr chunk => let '(events, s) := openai_chunk chunk s in (inr events, s)
  end.

(** ** The attempt loop ([transport.rs]) *)

Inductive Decoder : Type :=
  | DecodeAnthropic (d : AnthropicDecoder)
  | DecodeOpenAi (s : TurnState).

Definition decoder_new (kind : ProviderKind) (provider model : string) : Decoder :=
  match kind with
  | KindAnthropic => DecodeAnthropic (mkAnthropicDecoder (turn_new provider model) ∅)
  | KindOpenAiCompatible => DecodeOpenAi (turn_new provider model)
  end.
Definition decoder_push (data : string) (d : Decoder) : (LlmError + list LlmEvent) * Decoder :=
  match d with
  | DecodeAnthropic d => let '(r, d) := anthropic_push data d in (r, DecodeAnthropic d)
  | DecodeOpenAi s => let '(r, s) := openai_push data s in (r, DecodeOpenAi s)
  end.
Definition decoder_state (d : Decoder) : TurnState :=
  match d with DecodeAnthropic d => ad_state d | DecodeOpenAi s => s end.
(** A method of [state_mut()]. *)
Definition with_state (t : Turn) (d : Decoder) : list LlmEvent * Decoder :=
  match d with
  | DecodeAnthropic d => let '(events, d) := on_turn t d in (events, DecodeAnthropic d)
  | DecodeOpenAi s => let '(events, s) := t s in (events, DecodeOpenAi s)
  end.

(** What the stream of a successful response brings next; the end of the list is the end of
    the body. *)
Inductive StreamItem : Type :=
  | ItemAborted
  | ItemFrame (data : option string)
  | ItemBroken (error : string).

(** What one attempt meets on the network. *)
Inductive Response : Type :=
  | SendFailed (error : string)
  | BadStatus (status : N) (retry_after_header : option string) (body : string)
  | Streaming (items : list StreamItem).

(** An attempt: whether an abort was requested before it, the response, and whether an abort ends
    the wait after it. *)
Record AttemptScript : Type := mkAttemptScript {
  as_aborted : bool;
  as_response : Response;
  as_aborted_in_sleep : bool;
}.

Record Driver : Type := mkDriver {
  dr_provider_id : string;
  dr_kind : ProviderKind;
  dr_model : string;
  dr_retry : RetryPolicy;
  dr_key : option string;
  dr_build : option LlmError;
}.

(** The channel to the caller: the events delivered, and how many more the caller takes before
    it drops the receiver ([None]: it stays). *)
Record Channel : Type := mkChannel { ch_delivered : list LlmEvent; ch_left : option nat }.

Fixpoint emit (events : list LlmEvent) (c : Channel) : bool * Channel :=
  match events with
  | [] => (true, c)
  | e :: events =>
    match ch_left c with
    | Some O => (false, c)
    | Some (S n) => emit events (mkChannel (ch_delivered c ++ [e]) (Some n))
    | None => emit events (mkChannel (ch_delivered c ++ [e]) None)
    end
  end.
Definition emit_failure (e : LlmError) (c : Channel) : Channel :=
  (emit [ResponseFailed (llm_error_text e) usage_default] c).2.

Definition clean (d : Driver) (text : string) : string := scrub text (dr_key d).

Definition next_events (d : Driver) (item : option StreamItem) (decoder : Decoder)
    : list LlmEvent * bool * Decoder :=
  match item with
  | Some ItemAborted =>
    let '(events, decoder) := with_state (turn_fail (llm_error_text Aborted)) decoder in (events, true, decoder)
  | Some (ItemFrame (Some data)) =>
    match decoder_push data decoder with
    | (inr events, decoder) => (events, false, decoder)
    | (inl e, decoder) =>
      let '(events, decoder) := with_state (turn_fail (clean d (llm_error_text e))) decoder in
      (events, false, decoder)
    end
  | Some (ItemFrame None) => ([], false, decoder)
  | Some (ItemBroken e) =>
    let '(events, decoder) := with_state (turn_fail (clean d ("stream ended early: " +:+ e))) decoder in
    (events, false, decoder)
  | None =>
    let '(events, decoder) :=
      with_state (if has_finish (decoder_state decoder) then complete
                  else turn_fail "provider closed the stream before finishing the turn") decoder in
    (events, true, decoder)
  end.

Fixpoint read_stream (d : Driver) (items : list StreamItem) (decoder : Decoder) (c : Channel) : Channel :=
  let '(events, exhausted, decoder) := next_events d (head items) decoder in
  let '(delivered, c) := emit events c in
  if negb delivered || existsb is_terminal events || exhausted then c
  else match items with
       | [] => c
       | _ :: items => read_stream d items decoder c
       end.

Definition status_error (d : Driver) (status : N) (header : option string) (body : string) : LlmError :=
  let message := clean d body in
  Status status
    match header ≫= λ h, parse_u64 (bytes (trim h)) with
    | Some secs => message +:+ " [retry-after: " +:+ pretty secs +:+ "s]"
    | None => message
    end.

(** [retry_after]: the last marker in the message. *)
Fixpoint after_last_marker (marker l : list ascii) : option (list ascii) :=
  match l with
  | [] => None
  | _ :: l' =>
    match after_last_marker marker l' with
    | Some r => Some r
    | None => strip_prefix marker l
    end
  end.
Definition retry_after (e : LlmError) : option Duration :=
  match e with
  | Status _ message =>
    tail ← after_last_marker (bytes "[retry-after: ") (bytes message);
    seconds <$> parse_u64 (take_while (λ c, negb (bool_decide (c = "s"%char))) tail)
  | _ => None
  end.

(** [attempt]: [inl] is [Attempt::Failed], [inr] the channel after [Attempt::Terminal]. *)
Definition attempt (d : Driver) (r : Response) (c : Channel) : LlmError + Channel :=
  match dr_build d with
  | Some e => inl e
  | None =>
    match r with
    | SendFailed e => inl (Transport (clean d e))
    | BadStatus status header body => inl (status_error d status header body)
    | Streaming items => inr (read_stream d items (decoder_new (dr_kind d) (dr_provider_id d) (dr_model d)) c)
    end
  end.

(** The loop of [run] from attempt [n], with [more] attempts after it; each attempt meets the
    next script. *)
Fixpoint run_from (d : Driver) (n : N) (more : nat) (script : N → AttemptScript) (c : Channel) : Channel :=
  let a := script n in
  if as_aborted a then emit_failure Aborted c
  else match attempt d (as_response a) c with
  | inr c => c
  | inl error =>
    match is_retryable error, more with
    | true, S more =>
      let delay := delay_after (dr_retry d) n (retry_after error) in
      let '(delivered, c) :=
        emit [ResponseRetrying n (N.min u64_max (as_millis delay)) (llm_error_text error)] c in
      if negb delivered || as_aborted_in_sleep a then emit_failure Aborted c
      else run_from d (n + 1) more script c
    | _, _ => emit_failure error c
    end
  end.

Definition run (d : Driver) (script : N → AttemptScript) (c : Channel) : Channel :=
  let attempts := N.max (rp_max_attempts (dr_retry d)) 1 in
  run_from d 1 (N.to_nat (attempts - 1)) script c.
End decoding.

(** ** Request bodies *)

Definition cache_control (caching : option CacheTtl) : option Value :=
  (λ ttl, match ttl with
          | OneHour => object_of [("type", VString "ephemeral"); ("ttl", VString "1h")]
          | FiveMinutes => object_of [("type", VString "ephemeral")]
          end) <$> caching.

Definition mark_cacheable (block : Value) (requested : bool) (caching : option CacheTtl) : Value :=
  if requested then
    match cache_control caching, block with
    | Some control, VObject map => VObject (object_insert "cache_control" control map)
    | _, _ => block
    end
  else block.

Definition anthropic_tool_choice (c : ToolChoice) : Value :=
  match c with
  | ChoiceAuto => object_of [("type", VString "auto")]
  | ChoiceAny => object_of [("type", VString "any")]
  | ChoiceNone => object_of [("type", VString "none")]
  | ChoiceNamed name => object_of [("type", VString "tool"); ("name", VString name)]
  end.

Definition role_str (r : Role) : string := match r with RoleUser => "user" | RoleAssistant => "assistant" end.

Definition anthropic_content (c : Content) : Value :=
  match c with
  | Text block => object_of [("type", VString "text"); ("text", VString (tb_text block))]
  | ToolUse call_id tool arguments =>
    object_of [("type", VString "tool_use"); ("id", VString call_id); ("name", VString tool); ("input", arguments)]
  | ToolResult call_id content is_error =>
    object_of [("type", VString "tool_result"); ("tool_use_id", VString call_id);
      ("content", VString content); ("is_error", VBool is_error)]
  end.
Definition anthropic_message (m : Message) : Value :=
  object_of [("role", VString (role_str (mg_role m))); ("content", VArray (anthropic_content <$> mg_content m))].

Definition anthropic_body (caching : option CacheTtl) (r : ChatRequest) : Value :=
  object_of
    ([("model", VString (cr_model r)); ("stream", VBool true); ("max_tokens", value_of_N (cr_max_output_tokens r))]
     ++ (match cr_system r with
         | [] => []
         | system =>
           [("system", VArray ((λ b, mark_cacheable
               (object_of [("type", VString "text"); ("text", VString (tb_text b))]) (tb_cache b) caching)
               <$> system))]
         end)
     ++ [("messages", VArray (anthropic_message <$> cr_messages r))]
     ++ (match cr_tools r with
         | [] => []
         | tools =>
           [("tools", VArray ((λ t, mark_cacheable
               (object_of [("name", VString (td_name t)); ("description", VString (td_description t));
                  ("input_schema", td_input_schema t)]) (td_cache t) caching) <$> tools));
            ("tool_choice", anthropic_tool_choice (cr_tool_choice r))]
         end)).

Section openai_body.
(** [Value::to_string] *)
Context (to_string : Value → string).

Definition openai_tool_choice (c : ToolChoice) : Value :=
  match c with
  | ChoiceAuto => VString "auto"
  | ChoiceAny => VString "required"
  | ChoiceNone => VString "none"
  | ChoiceNamed name =>
    object_of [("type", VString "function"); ("function", object_of [("name", VString name)])]
  end.

(** The text so far, the tool calls so far, and the messages already written. *)
Definition openai_block (acc : string * list Value * list Value) (c : Content) : string * list Value * list Value :=
  let '(text, calls, out) := acc in
  match c with
  | Text block => ((if is_empty text then tb_text block else text +:+ of_bytes [lf] +:+ tb_text block), calls, out)
  | ToolUse call_id tool arguments =>
    (text, calls ++ [object_of [("id", VString call_id); ("type", VString "function");
       ("function", object_of [("name", VString tool); ("arguments", VString (to_string arguments))])]], out)
  | ToolResult call_id content is_error =>
    (text, calls, out ++ [object_of [("role", VString "tool"); ("tool_call_id", VString call_id);
       ("content", VString (if is_error then "ERROR: " +:+ content else content))]])
  end.
Definition openai_message (out : list Value) (m : Message) : list Value :=
  let '(text, calls, out) := foldl openai_block ("", [], out) (mg_content m) in
  if is_empty text && bool_decide (length calls = 0) then out
  else out ++ [object_of ([("role", VString (role_str (mg_role m))); ("content", VString text)]
                 ++ match calls with [] => [] | _ => [("tool_calls", VArray calls)] end)].

Definition openai_messages (r : ChatRequest) : list Value :=
  let system := join (of_bytes [lf; lf]) (tb_text <$> cr_system r) in
  foldl openai_message
    (if is_empty system then []
     else [object_of [("role", VString "system"); ("content", VString system)]])
    (cr_messages r).

Definition openai_body (r : ChatRequest) : Value :=
  object_of
    ([("model", VString (cr_model r)); ("stream", VBool true);
      ("stream_options", object_of [("include_usage", VBool true)]);
      ("max_tokens", value_of_N (cr_max_output_tokens r)); ("messages", VArray (openai_messages r))]
     ++ (match cr_tools r with
         | [] => []
         | tools =>
           [("tools", VArray ((λ t, object_of [("type", VString "function");
               ("function", object_of [("name", VString (td_name t)); ("description", VString (td_description t));
                  ("parameters", td_input_schema t)])]) <$> tools));
            ("tool_choice", openai_tool_choice (cr_tool_choice r))]
         end)).
End openai_body.
