(* ===== verification/LlmSpec.v ===== *)
(** * Native language-model turns: theorems

    For every behaviour of the network the attempt loop delivers some retry notices, the events
    of at most one stream and then exactly one terminal event; a caller that leaves early only
    cuts this sequence short.  The completed message is what its deltas spell, every tool
    call carries the arguments its fragments spell, delays stay within the policy, and text that
    passes the redaction does not show the key. *)

From stdpp Require Import base gmap strings list pretty.
From Stdlib Require Import Ascii SpecFloat.
From S2P Require Import Prelude Text Contracts Llm.

(** ** What a list of events spells *)

Definition texts (es : list LlmEvent) : list string :=
  omap (λ e, match e with ResponseDelta t => Some t | _ => None end) es.
Definition reasonings (es : list LlmEvent) : list string :=
  omap (λ e, match e with ReasoningAvailable t => Some t | _ => None end) es.
Definition ready_calls (es : list LlmEvent) : list ToolCall :=
  omap (λ e, match e with ToolCallReady _ c => Some c | _ => None end) es.
(** The argument fragments of the call with an index. *)
Definition fragments (index : nat) (es : list LlmEvent) : list string :=
  omap (λ e, match e with
             | ToolCallProgress i _ _ f => if (i =? N.of_nat index)%N then Some f else None
             | _ => None
             end) es.
Definition spell (l : list string) : string := foldr String.app "" l.
Definition assembled (es : list LlmEvent) : AssistantMessage :=
  mkAssistantMessage (spell (texts es)) (spell (reasonings es)) (ready_calls es).

Definition settles (index : nat) (e : LlmEvent) : bool :=
  match e with
  | ToolCallReady i _ | ToolCallFailed i _ _ _ => (i =? N.of_nat index)%N
  | _ => false
  end.
Definition announces (index : nat) (e : LlmEvent) : bool :=
  match e with ToolCallStarted i _ _ => (i =? N.of_nat index)%N | _ => false end.
Definition is_started (e : LlmEvent) : bool := match e with ResponseStarted _ _ _ => true | _ => false end.
Definition is_retrying (e : LlmEvent) : bool := match e with ResponseRetrying _ _ _ => true | _ => false end.

Definition count (f : LlmEvent → bool) (es : list LlmEvent) : nat := length (filter (λ e, f e = true) es).

Lemma spell_app a b : spell (a ++ b) = spell a +:+ spell b.
Proof.
  apply bytes_inj. rewrite bytes_app. unfold spell.
  induction a as [|x a IH]; simpl; [done|]. by rewrite !bytes_app, IH, (assoc_L (++)).
Qed.
Lemma spell_singleton x : spell [x] = x.
Proof. apply bytes_inj. change (bytes (x +:+ "") = bytes x). rewrite bytes_app. apply (right_id_L [] (++)). Qed.

Lemma count_app f a b : count f (a ++ b) = count f a + count f b.
Proof. unfold count. by rewrite filter_app, length_app. Qed.

Lemma assembled_app a b :
  assembled (a ++ b) =
  mkAssistantMessage (am_text (assembled a) +:+ am_text (assembled b))
    (am_reasoning (assembled a) +:+ am_reasoning (assembled b))
    (am_tool_calls (assembled a) ++ am_tool_calls (assembled b)).
Proof. unfold assembled, texts, reasonings, ready_calls. simpl. by rewrite !omap_app, !spell_app. Qed.

Lemma fragments_app i a b : fragments i (a ++ b) = fragments i a ++ fragments i b.
Proof. apply omap_app. Qed.

Section turns.
Context (from_str : string → string + Value).

(** Every completion and every finished call in the list agrees with the events before it. *)
Definition faithful (es : list LlmEvent) : Prop :=
  ∀ pre e post, es = pre ++ e :: post →
    match e with
    | ResponseCompleted _ _ m => m = assembled pre
    | ToolCallReady i call =>
      ∀ index, i = N.of_nat index → (i < u32_max)%N →
        parse_arguments from_str (spell (fragments index pre)) = inr (tc_arguments call)
    | ToolCallFailed i _ _ error =>
      ∀ index, i = N.of_nat index → (i < u32_max)%N →
        parse_arguments from_str (spell (fragments index pre)) = inl error
    | _ => True
    end.

Lemma faithful_snoc es e :
  faithful (es ++ [e]) ↔ faithful es ∧
    match e with
    | ResponseCompleted _ _ m => m = assembled es
    | ToolCallReady i call =>
      ∀ index, i = N.of_nat index → (i < u32_max)%N →
        parse_arguments from_str (spell (fragments index es)) = inr (tc_arguments call)
    | ToolCallFailed i _ _ error =>
      ∀ index, i = N.of_nat index → (i < u32_max)%N →
        parse_arguments from_str (spell (fragments index es)) = inl error
    | _ => True
    end.
Proof.
  unfold faithful. split.
  - intros H. split; [|by apply (H es e [])].
    intros pre e' post ->. apply (H pre e' (post ++ [e])). by rewrite <- (assoc_L (++)).
  - intros [H He] pre e' post Heq. destruct post as [|x post _] using rev_ind.
    + apply app_inj_tail in Heq as [-> ->]. exact He.
    + rewrite app_comm_cons, (assoc_L (++)) in Heq. apply app_inj_tail in Heq as [-> _]. by eapply H.
Qed.

(** The state agrees with the events emitted so far. *)
Record Agrees (es : list LlmEvent) (s : TurnState) : Prop := {
  ag_message : ts_message s = assembled es;
  ag_arguments index : (N.of_nat index < u32_max)%N →
    tb_arguments (slot index s) = spell (fragments index es);
  ag_settled index : (N.of_nat index < u32_max)%N →
    count (settles index) es = Nat.b2n (tb_settled (slot index s));
  ag_announced index : (N.of_nat index < u32_max)%N →
    count (announces index) es = Nat.b2n (tb_announced (slot index s));
  ag_started : count is_started es = Nat.b2n (ts_started s);
  ag_terminal : count is_terminal es = Nat.b2n (ts_completed s);
  ag_no_retry : count is_retrying es = 0;
  ag_faithful : faithful es;
}.

Definition sound (t : Turn) : Prop := ∀ es s, Agrees es s → Agrees (es ++ (t s).1) (t s).2.

Lemma sound_seq a b : sound a → sound b → sound (seq_turn a b).
Proof.
  intros Ha Hb es s Hs. unfold seq_turn. specialize (Ha es s Hs).
  destruct (a s) as [e1 s1]; simpl in *. specialize (Hb _ _ Ha).
  destruct (b s1) as [e2 s2]; simpl in *. by rewrite (assoc_L (++)).
Qed.
Lemma sound_nil : sound (λ s, ([], s)).
Proof. intros es s Hs. simpl. by rewrite (right_id_L [] (++)). Qed.
Lemma sound_seqs l : Forall sound l → sound (seq_turns l).
Proof. induction 1; [apply sound_nil|by apply sound_seq]. Qed.

(** *** Slots *)

Lemma grow_lookup j l i : default builder_default (grow j l !! i) = default builder_default (l !! i).
Proof.
  unfold grow. rewrite lookup_app. destruct (l !! i) as [b|]; [done|].
  destruct (replicate _ _ !! _) as [b|] eqn:Hb; [|done]. apply lookup_replicate in Hb as [-> _]. done.
Qed.
Lemma slot_lookup i s : slot i s = default builder_default (ts_calls s !! i).
Proof. apply grow_lookup. Qed.
Lemma slot_ext i s s' : ts_calls s = ts_calls s' → slot i s = slot i s'.
Proof. intros H. by rewrite !slot_lookup, H. Qed.
Lemma slot_set i j b s : slot i (set_slot j b s) = if decide (i = j) then b else slot i s.
Proof.
  rewrite !slot_lookup. unfold set_slot. simpl. case_decide; subst.
  - rewrite list_lookup_insert_eq; [done|]. unfold grow. rewrite length_app, length_replicate. lia.
  - rewrite list_lookup_insert_ne by done. apply grow_lookup.
Qed.
Lemma index_as_u32_eq i j :
  (N.of_nat j < u32_max)%N → (index_as_u32 i =? N.of_nat j)%N = bool_decide (j = i).
Proof.
  intros Hj. unfold index_as_u32. case_bool_decide; subst; [apply N.eqb_eq|apply N.eqb_neq]; lia.
Qed.

(** *** Steps that agree *)

Definition same_call (b b' : ToolCallBuilder) : Prop :=
  tb_arguments b' = tb_arguments b ∧ tb_settled b' = tb_settled b ∧ tb_announced b' = tb_announced b.

(** No event, and nothing changes that the events speak about. *)
Lemma agrees_quiet es s s' :
  Agrees es s → ts_message s' = ts_message s → (∀ i, same_call (slot i s) (slot i s')) →
  ts_started s' = ts_started s → ts_completed s' = ts_completed s → Agrees es s'.
Proof.
  intros [H1 H2 H3 H4 H5 H6 H7 H8] Em Es Est Eco.
  split; [congruence| | | |congruence|congruence|done|done];
    intros i Hi; destruct (Es i) as (Ea & Ese & Ean); [rewrite Ea|rewrite Ese|rewrite Ean]; auto.
Qed.

(** The new parts of the message. *)
Definition add_message (m n : AssistantMessage) : AssistantMessage :=
  mkAssistantMessage (am_text m +:+ am_text n) (am_reasoning m +:+ am_reasoning n)
    (am_tool_calls m ++ am_tool_calls n).

Lemma count_single f e : count f [e] = Nat.b2n (f e).
Proof. unfold count. rewrite filter_cons. destruct (f e); case_decide; done. Qed.

(** One event, and the state changes as the event says. *)
Lemma agrees_snoc es s e s' :
  Agrees es s → faithful (es ++ [e]) →
  ts_message s' = add_message (ts_message s) (assembled [e]) →
  (∀ i, (N.of_nat i < u32_max)%N →
     tb_arguments (slot i s') = tb_arguments (slot i s) +:+ spell (fragments i [e]) ∧
     Nat.b2n (tb_settled (slot i s')) = Nat.b2n (tb_settled (slot i s)) + Nat.b2n (settles i e) ∧
     Nat.b2n (tb_announced (slot i s')) = Nat.b2n (tb_announced (slot i s)) + Nat.b2n (announces i e)) →
  Nat.b2n (ts_started s') = Nat.b2n (ts_started s) + Nat.b2n (is_started e) →
  Nat.b2n (ts_completed s') = Nat.b2n (ts_completed s) + Nat.b2n (is_terminal e) →
  is_retrying e = false → Agrees (es ++ [e]) s'.
Proof.
  intros [H1 H2 H3 H4 H5 H6 H7 H8] Hf Em Es Est Eco Er. split; [| | | | | | |done].
  - rewrite assembled_app, Em, H1. done.
  - intros i Hi. destruct (Es i Hi) as (Ea & _ & _). by rewrite Ea, H2, fragments_app, spell_app.
  - intros i Hi. destruct (Es i Hi) as (_ & Ea & _). by rewrite Ea, <- H3, count_app, count_single.
  - intros i Hi. destruct (Es i Hi) as (_ & _ & Ea). by rewrite Ea, <- H4, count_app, count_single.
  - by rewrite Est, <- H5, count_app, count_single.
  - by rewrite Eco, <- H6, count_app, count_single.
  - by rewrite count_app, count_single, H7, Er.
Qed.

Lemma app_empty_r s : s +:+ "" = s.
Proof. apply bytes_inj. rewrite bytes_app. apply (right_id_L [] (++)). Qed.
Lemma add_message_nothing m : add_message m (mkAssistantMessage "" "" []) = m.
Proof. destruct m. unfold add_message. simpl. by rewrite !app_empty_r, (right_id_L [] (++)). Qed.

Lemma sound_silent f :
  (∀ s, ts_message (f s) = ts_message s ∧ ts_calls (f s) = ts_calls s ∧ ts_started (f s) = ts_started s ∧
        ts_completed (f s) = ts_completed s) →
  sound (silent f).
Proof.
  intros Hf es s Hs. unfold silent. simpl. rewrite (right_id_L [] (++)).
  destruct (Hf s) as (E1 & E2 & E3 & E4). eapply agrees_quiet; [done..| |done|done].
  intros i. rewrite (slot_ext i (f s) s) by done. done.
Qed.
Lemma sound_id : sound (silent id).
Proof. by apply sound_silent. Qed.

Lemma sound_start model id : sound (turn_start model id).
Proof.
  intros es s Hs. unfold turn_start. destruct (ts_started s) eqn:Hst; [by apply sound_nil|].
  assert (∀ s', ts_message s' = ts_message s → ts_calls s' = ts_calls s → ts_started s' = true →
    ts_completed s' = ts_completed s →
    Agrees (es ++ [ResponseStarted (ts_provider s') (ts_model s') id]) s') as Hgo.
  { intros s' E1 E2 E3 E4. eapply agrees_snoc; [exact Hs| | | | | |done]; simpl.
    - apply faithful_snoc. split; [apply Hs|done].
    - by rewrite E1, add_message_nothing.
    - intros i Hi. rewrite (slot_ext i s' s) by done. unfold fragments. simpl.
      rewrite app_empty_r. split_and!; [done|lia..].
    - by rewrite E3, Hst.
    - rewrite E4. lia. }
  destruct (non_empty model); by apply Hgo.
Qed.

(** An event without effect on calls and flags. *)
Lemma agrees_text es s e m :
  Agrees es s → ¬ is_started e = true → ¬ is_terminal e = true → is_retrying e = false →
  (∀ i, fragments i [e] = [] ∧ settles i e = false ∧ announces i e = false) →
  m = add_message (ts_message s) (assembled [e]) → Agrees (es ++ [e]) (s <| ts_message := m |>).
Proof.
  intros Hs H1 H2 H3 Hi ->. eapply agrees_snoc; [exact Hs| |done| | | |done].
  - apply faithful_snoc. split; [apply Hs|]. destruct e; try done.
    + destruct (Hi (N.to_nat index)) as (_ & Hn & _). simpl in Hn. apply N.eqb_neq in Hn. lia.
    + destruct (Hi (N.to_nat index)) as (_ & Hn & _). simpl in Hn. apply N.eqb_neq in Hn. lia.
  - intros i _. destruct (Hi i) as (-> & -> & ->). rewrite (slot_ext i _ s) by done. simpl.
    rewrite app_empty_r. split_and!; [done|lia..].
  - destruct (is_started e); [done|]. cbn. lia.
  - destruct (is_terminal e); [done|]. cbn. lia.
Qed.

Lemma sound_text delta : sound (turn_text delta).
Proof.
  intros es s Hs. unfold turn_text. case_match; [by apply sound_nil|]. simpl.
  eapply agrees_text; [done..|]. unfold add_message, assembled, texts. simpl.
  by rewrite !app_empty_r, (right_id_L [] (++)).
Qed.
Lemma sound_reasoning delta : sound (turn_reasoning delta).
Proof.
  intros es s Hs. unfold turn_reasoning. case_match; [by apply sound_nil|]. simpl.
  eapply agrees_text; [done..|]. unfold add_message, assembled, reasonings. simpl.
  by rewrite !app_empty_r, (right_id_L [] (++)).
Qed.
Lemma sound_reasoning_completed es s : Agrees es s → Agrees (es ++ [ReasoningCompleted]) s.
Proof.
  intros Hs. assert (s = s <| ts_message := ts_message s |>) as -> by by destruct s.
  eapply agrees_text; [done..|]. simpl. by rewrite add_message_nothing.
Qed.

(** *** Tool calls *)

(** A change of one slot that the events do not speak about. *)
Lemma agrees_slot es s j b :
  Agrees es s → same_call (slot j s) b → Agrees es (set_slot j b s).
Proof.
  intros Hs Hb. eapply agrees_quiet; [exact Hs|done| |done|done].
  intros i. rewrite slot_set. case_decide; subst; done.
Qed.

(** One event about the slot that changes. *)
Lemma agrees_slot_event es s j b e :
  Agrees es s → faithful (es ++ [e]) → is_started e = false → is_terminal e = false →
  is_retrying e = false → assembled [e] = mkAssistantMessage "" "" [] →
  (∀ i, (N.of_nat i < u32_max)%N → i ≠ j →
     fragments i [e] = [] ∧ settles i e = false ∧ announces i e = false) →
  ((N.of_nat j < u32_max)%N → tb_arguments b = tb_arguments (slot j s) +:+ spell (fragments j [e]) ∧
   Nat.b2n (tb_settled b) = Nat.b2n (tb_settled (slot j s)) + Nat.b2n (settles j e) ∧
   Nat.b2n (tb_announced b) = Nat.b2n (tb_announced (slot j s)) + Nat.b2n (announces j e)) →
  Agrees (es ++ [e]) (set_slot j b s).
Proof.
  intros Hs Hf H1 H2 H3 H4 Hi Hj. eapply agrees_snoc; [exact Hs|exact Hf| | | | |done].
  - by rewrite H4, add_message_nothing.
  - intros i Hlt. rewrite slot_set. case_decide; subst; [by apply Hj|].
    destruct (Hi i) as (-> & -> & ->); [done..|]. rewrite app_empty_r. split_and!; [done|cbn; lia..].
  - rewrite H1. cbn. lia.
  - rewrite H2. cbn. lia.
Qed.

Lemma sound_announce j call_id tool : sound (announce j call_id tool).
Proof.
  intros es s Hs. unfold announce.
  set (b0 := match non_empty call_id with Some id => _ | None => _ end).
  set (b := match non_empty tool with Some t => b0 <| tb_tool := t |> | None => b0 end).
  assert (same_call (slot j s) b) as Hb.
  { unfold b, b0, same_call. by destruct (non_empty call_id), (non_empty tool). }
  clearbody b. clear b0. destruct Hb as (Ha & Hse & Han).
  destruct (tb_announced b) eqn:Hb; simpl.
  { rewrite (right_id_L [] (++)). apply agrees_slot; [done|]. unfold same_call. by rewrite Hb. }
  destruct (is_empty (tb_tool b)); simpl.
  { rewrite (right_id_L [] (++)). apply agrees_slot; [done|]. unfold same_call. by rewrite Hb. }
  apply agrees_slot_event; [done| |done|done|done|done| |].
  - apply faithful_snoc. split; [apply Hs|done].
  - intros i Hi Hne. cbn. rewrite index_as_u32_eq by done. by rewrite bool_decide_false.
  - intros Hj. cbn. rewrite index_as_u32_eq by done. rewrite bool_decide_true by done.
    rewrite Ha, Hse, <- Han, app_empty_r. split_and!; [done|cbn; lia|done].
Qed.

Lemma sound_arguments j fragment : sound (turn_arguments j fragment).
Proof.
  intros es s Hs. unfold turn_arguments. case_match; [by apply sound_nil|]. simpl.
  apply agrees_slot_event; [done| |done|done|done|done| |].
  - apply faithful_snoc. split; [apply Hs|done].
  - intros i Hi Hne. unfold fragments. cbn. rewrite index_as_u32_eq by done. by rewrite bool_decide_false.
  - intros Hj. unfold fragments. cbn. rewrite index_as_u32_eq by done. rewrite bool_decide_true by done.
    cbn. rewrite app_empty_r. split_and!; [done|lia..].
Qed.

Lemma index_as_u32_of i j : index_as_u32 i = N.of_nat j → (index_as_u32 i < u32_max)%N → j = i.
Proof. unfold index_as_u32. lia. Qed.

Lemma sound_settle_call j : sound (settle from_str j).
Proof.
  intros es s Hs. unfold settle. destruct (tb_settled (slot j s)) eqn:Hset; simpl.
  { rewrite (right_id_L [] (++)). by apply agrees_slot. }
  destruct (is_empty _ && is_empty _); simpl.
  { rewrite (right_id_L [] (++)). by apply agrees_slot. }
  set (b := mkToolCallBuilder _ _ _ _ _).
  assert (∀ e, (∀ i, (N.of_nat i < u32_max)%N → fragments i [e] = [] ∧ announces i e = false ∧
      settles i e = bool_decide (i = j)) → is_started e = false → is_terminal e = false →
      is_retrying e = false → faithful (es ++ [e]) →
      Agrees (es ++ [e]) (set_slot j b s <| ts_message := add_message (ts_message s) (assembled [e]) |>)) as Hgo.
  { intros e Hi H1 H2 H3 Hf. eapply agrees_snoc; [exact Hs|exact Hf|done| | | |done].
    - intros i Hlt. destruct (Hi i Hlt) as (-> & -> & ->).
      rewrite (slot_ext i _ (set_slot j b s)) by done. rewrite slot_set, app_empty_r.
      case_decide; subst; case_bool_decide; try done; cbn; rewrite ?Hset; split_and!; done || lia.
    - rewrite H1. cbn. lia.
    - rewrite H2. cbn. lia. }
  destruct (parse_arguments from_str (tb_arguments (slot j s))) as [error|arguments] eqn:Hp; simpl.
  - assert (set_slot j b s = set_slot j b s <| ts_message := add_message (ts_message s)
      (assembled [ToolCallFailed (index_as_u32 j) (tb_call_id (slot j s)) (tb_tool (slot j s)) error]) |>) as ->.
    { unfold assembled. cbn. by rewrite add_message_nothing. }
    apply Hgo; [|done|done|done|].
    + intros i Hi. cbn. by rewrite index_as_u32_eq.
    + apply faithful_snoc. split; [apply Hs|]. intros i Hi Hlt.
      assert (i = j) as -> by by apply index_as_u32_of. rewrite <- (ag_arguments es s Hs); [done|lia].
  - match goal with |- Agrees (es ++ [?e]) _ =>
      assert (add_message (ts_message s) (assembled [e]) =
        mkAssistantMessage (am_text (ts_message s)) (am_reasoning (ts_message s))
          (am_tool_calls (ts_message s) ++ [mkToolCall (tb_call_id (slot j s)) (tb_tool (slot j s)) arguments]))
        as Hm; [unfold add_message, assembled; cbn; by rewrite !app_empty_r|]; specialize (Hgo e) end.
    rewrite Hm in Hgo. apply Hgo; [|done|done|done|].
    + intros i Hi. cbn. by rewrite index_as_u32_eq.
    + apply faithful_snoc. split; [apply Hs|]. intros i Hi Hlt. cbn.
      assert (i = j) as -> by by apply index_as_u32_of. rewrite <- (ag_arguments es s Hs); [done|lia].
Qed.

(** *** The end of a turn *)

Definition close (s : TurnState) : TurnState := s <| ts_completed := true |>.

(** Settling does not read or write the completion mark. *)
Definition ignores_completion (t : Turn) : Prop :=
  ∀ s, t (close s) = ((t s).1, close (t s).2) ∧ ts_completed (t s).2 = ts_completed s.

Lemma settle_ignores j : ignores_completion (settle from_str j).
Proof.
  intros s. unfold settle. rewrite (slot_ext j (close s) s) by done.
  destruct (tb_settled (slot j s) || _); [done|]. by destruct (parse_arguments _ _).
Qed.
Lemma seq_turns_ignores l : Forall ignores_completion l → ignores_completion (seq_turns l).
Proof.
  induction 1 as [|t l Ht _ IH]; intros s; [done|]. simpl. unfold seq_turn.
  destruct (Ht s) as [-> Hc]. destruct (t s) as [e1 s1]. simpl in *.
  destruct (IH s1) as [-> Hc2]. destruct (seq_turns l s1) as [e2 s2]. simpl in *. split; [done|congruence].
Qed.

Definition settle_all (s : TurnState) : list LlmEvent * TurnState :=
  seq_turns (settle from_str <$> seq 0 (length (ts_calls s))) s.

Lemma complete_eq s :
  ts_completed s = false →
  complete from_str s =
    ((settle_all s).1 ++ [ResponseStepCompleted (finish_of (settle_all s).2) (ts_usage (settle_all s).2);
       ResponseCompleted (finish_of (settle_all s).2) (ts_usage (settle_all s).2) (ts_message (settle_all s).2)],
     close (settle_all s).2) ∧ ts_completed (settle_all s).2 = false.
Proof.
  intros Hc. unfold complete. rewrite Hc. unfold settle_all.
  destruct (seq_turns_ignores (settle from_str <$> seq 0 (length (ts_calls s)))) with (s := s) as [Heq Hsame].
  { apply Forall_forall. intros t (j & -> & _)%list_elem_of_fmap. apply settle_ignores. }
  change (s <| ts_completed := true |>) with (close s). change (ts_calls (close s)) with (ts_calls s).
  rewrite Heq. split; [done|]. congruence.
Qed.

Lemma sound_settle_all es s :
  Agrees es s → Agrees (es ++ (settle_all s).1) (settle_all s).2.
Proof.
  intros Hs. apply sound_seqs; [|done].
  apply Forall_forall. intros t (j & -> & _)%list_elem_of_fmap. apply sound_settle_call.
Qed.

Lemma agrees_terminal es s e :
  Agrees es s → ts_completed s = false → is_terminal e = true →
  match e with ResponseCompleted _ _ m => m = ts_message s | _ => True end →
  Agrees (es ++ [e]) (close s).
Proof.
  intros Hs Hc He Hm. eapply agrees_snoc; [exact Hs| | | | | |by destruct e].
  - apply faithful_snoc. split; [apply Hs|]. destruct e; try done. rewrite Hm. apply Hs.
  - destruct e; try done; cbn; by rewrite add_message_nothing.
  - intros i _. rewrite (slot_ext i (close s) s) by done.
    destruct e; try done; cbn; rewrite app_empty_r; split_and!; done || lia.
  - destruct e; try done; cbn; lia.
  - rewrite Hc, He. done.
Qed.

Lemma sound_complete : sound (complete from_str).
Proof.
  intros es s Hs. destruct (ts_completed s) eqn:Hc.
  { unfold complete. rewrite Hc. by apply sound_nil. }
  destruct (complete_eq s Hc) as [-> Hc1]. simpl.
  pose proof (sound_settle_all es s Hs) as H1. destruct (settle_all s) as [e1 s1]; simpl in *.
  assert (Agrees ((es ++ e1) ++ [ResponseStepCompleted (finish_of s1) (ts_usage s1)]) s1) as H2.
  { assert (s1 = s1 <| ts_message := ts_message s1 |>) as Heq by by destruct s1.
    rewrite Heq at 3. apply agrees_text; try done. cbn. by rewrite add_message_nothing. }
  eapply (agrees_terminal _ _ (ResponseCompleted (finish_of s1) (ts_usage s1) (ts_message s1))) in H2; [|done..].
  by rewrite <- !(assoc_L (++)) in H2.
Qed.

Lemma sound_turn_fail error : sound (turn_fail error).
Proof.
  intros es s Hs. unfold turn_fail. destruct (ts_completed s) eqn:Hc; [by apply sound_nil|].
  by apply agrees_terminal.
Qed.

(** *** The decoders *)

Lemma sound_message_start frame : sound (message_start frame).
Proof.
  apply sound_seq; [apply sound_start|]. apply sound_silent. intros s. by destruct (_ ≫= _).
Qed.
Lemma sound_block_delta index frame : sound (block_delta index frame).
Proof.
  unfold block_delta. repeat case_match; auto using sound_text, sound_reasoning, sound_arguments, sound_id.
Qed.
Lemma sound_set_finish reason : sound (set_finish reason).
Proof. by apply sound_silent. Qed.
Lemma sound_message_delta frame : sound (message_delta frame).
Proof.
  apply sound_seq; [case_match; auto using sound_set_finish, sound_id|].
  apply sound_silent. intros s. repeat case_match; done.
Qed.

Lemma on_turn_sound t es d :
  sound t → Agrees es (ad_state d) → Agrees (es ++ (on_turn t d).1) (ad_state (on_turn t d).2).
Proof. intros Ht Hs. specialize (Ht es _ Hs). unfold on_turn. by destruct (t (ad_state d)). Qed.

(** Whatever data arrive, a decoder's events agree with its state. *)
Lemma anthropic_push_sound data es d :
  Agrees es (ad_state d) →
  let '(r, d') := anthropic_push from_str data d in
  match r with inr events => Agrees (es ++ events) (ad_state d') | inl _ => d' = d end.
Proof.
  intros Hs. unfold anthropic_push. destruct (from_str data) as [e|frame]; [done|].
  set (p := if bool_decide (_ = "message_start") then _ else _).
  assert (Agrees (es ++ p.1) (ad_state p.2)) as Hp; [|by destruct p].
  unfold p. clear p.
  repeat case_bool_decide; try (apply on_turn_sound; [|done]);
    auto using sound_message_start, sound_block_delta, sound_message_delta, sound_complete, sound_turn_fail.
  - unfold block_start. case_bool_decide; [by apply on_turn_sound; [apply sound_announce|]|].
    simpl. by rewrite (right_id_L [] (++)).
  - unfold block_stop. repeat case_match; try (simpl; by rewrite (right_id_L [] (++)));
      [by apply sound_reasoning_completed|by apply on_turn_sound; [apply sound_settle_call|]].
  - simpl. by rewrite (right_id_L [] (++)).
Qed.

Lemma sound_openai_tool_call i call : sound (openai_tool_call i call).
Proof. apply sound_seq; [apply sound_announce|]. case_match; auto using sound_arguments, sound_id. Qed.
Lemma sound_openai_delta delta : sound (openai_delta delta).
Proof.
  apply sound_seqs. constructor; [case_match; auto using sound_text, sound_id|].
  apply Forall_app. split.
  - apply Forall_forall. intros t (field & -> & _)%list_elem_of_fmap.
    case_match; auto using sound_reasoning, sound_id.
  - apply Forall_forall. intros t (i & call & -> & _)%elem_of_lookup_imap. apply sound_openai_tool_call.
Qed.
Lemma sound_openai_chunk chunk : sound (openai_chunk chunk).
Proof.
  unfold openai_chunk. case_match; [apply sound_turn_fail|]. apply sound_seqs.
  apply Forall_cons; split; [|apply Forall_cons; split; [|apply Forall_singleton]].
  - apply sound_start.
  - apply sound_silent. intros s. by repeat case_match.
  - case_match; [|apply sound_id]. apply sound_seq.
    + case_match; auto using sound_openai_delta, sound_id.
    + case_match; auto using sound_set_finish, sound_id.
Qed.
Lemma openai_push_sound data es s :
  Agrees es s →
  let '(r, s') := openai_push from_str data s in
  match r with inr events => Agrees (es ++ events) s' | inl _ => s' = s end.
Proof.
  intros Hs. unfold openai_push. case_bool_decide.
  - pose proof (sound_complete es s Hs) as H1. by destruct (complete from_str s).
  - destruct (from_str data) as [|chunk]; [done|].
    pose proof (sound_openai_chunk chunk es s Hs) as H1. by destruct (openai_chunk chunk s).
Qed.

Lemma decoder_push_sound data es d :
  Agrees es (decoder_state d) →
  let '(r, d') := decoder_push from_str data d in
  match r with inr events => Agrees (es ++ events) (decoder_state d') | inl _ => d' = d end.
Proof.
  intros Hs. destruct d as [d|s]; simpl in *.
  - pose proof (anthropic_push_sound data es d Hs) as H1.
    destruct (anthropic_push from_str data d) as [[?|?] ?]; simpl in *; [by subst|done].
  - pose proof (openai_push_sound data es s Hs) as H1.
    destruct (openai_push from_str data s) as [[?|?] ?]; simpl in *; [by subst|done].
Qed.
Lemma with_state_sound t es d :
  sound t → Agrees es (decoder_state d) →
  Agrees (es ++ (with_state t d).1) (decoder_state (with_state t d).2).
Proof.
  intros Ht Hs. destruct d as [d|s]; simpl in *.
  - pose proof (on_turn_sound t es d Ht Hs) as H1. by destruct (on_turn t d).
  - specialize (Ht es s Hs). by destruct (t s).
Qed.

Lemma new_turn_agrees provider model : Agrees [] (turn_new provider model).
Proof.
  split; try done; try (intros i Hi; by rewrite slot_lookup). by intros [|] e post.
Qed.

(** ** The attempt loop *)

(** The events of one pass of the reading loop. *)
Lemma next_events_sound d item es decoder events exhausted decoder' :
  Agrees es (decoder_state decoder) →
  next_events from_str d item decoder = (events, exhausted, decoder') →
  Agrees (es ++ events) (decoder_state decoder').
Proof.
  intros Hs. unfold next_events.
  assert (∀ t, sound t → Agrees (es ++ (with_state t decoder).1) (decoder_state (with_state t decoder).2)) as Hw.
  { intros t Ht. by apply with_state_sound. }
  destruct item as [[|[data|]|e]|].
  - specialize (Hw _ (sound_turn_fail (llm_error_text Aborted))). destruct (with_state _ _). by intros [= <- <- <-].
  - pose proof (decoder_push_sound data es decoder Hs) as Hp.
    destruct (decoder_push from_str data decoder) as [[e|ev] d1].
    + subst d1. specialize (Hw _ (sound_turn_fail (clean d (llm_error_text e)))). destruct (with_state _ _).
      by intros [= <- <- <-].
    + by intros [= <- <- <-].
  - intros [= <- <- <-]. by rewrite (right_id_L [] (++)).
  - specialize (Hw _ (sound_turn_fail (clean d ("stream ended early: " +:+ e)))). destruct (with_state _ _).
    by intros [= <- <- <-].
  - set (t := if has_finish _ then _ else _).
    assert (sound t) as Ht by (unfold t; case_match; auto using sound_complete, sound_turn_fail).
    specialize (Hw _ Ht). destruct (with_state t decoder). by intros [= <- <- <-].
Qed.

Lemma complete_ends s : ts_completed s = false → existsb is_terminal (complete from_str s).1 = true.
Proof.
  intros Hc. destruct (complete_eq s Hc) as [-> _]. cbn [fst]. rewrite existsb_app. cbn. by rewrite orb_true_r.
Qed.

(** Where the code expects a terminal event there is one. *)
Lemma last_pass_ends d es decoder events decoder' :
  Agrees es (decoder_state decoder) → ts_completed (decoder_state decoder) = false →
  ∀ item, match item with None | Some ItemAborted => True | _ => False end →
  next_events from_str d item decoder = (events, true, decoder') → existsb is_terminal events = true.
Proof.
  intros Hs Hc item Hitem.
  assert (∀ error, existsb is_terminal (with_state (turn_fail error) decoder).1 = true) as Hfail.
  { intros error. destruct decoder as [[s ?]|s]; cbn in *; unfold on_turn, turn_fail; cbn; by rewrite Hc. }
  unfold next_events. destruct item as [[|?|?]|]; try done.
  - specialize (Hfail (llm_error_text Aborted)). destruct (with_state _ _). by intros [= <- <-].
  - destruct (has_finish _).
    + assert (existsb is_terminal (with_state (complete from_str) decoder).1 = true) as Hdone.
      { destruct decoder as [[s blocks]|s]; cbn [decoder_state ad_state] in Hc; unfold with_state, on_turn;
          cbn [ad_state]; pose proof (complete_ends s Hc) as Hends; by destruct (complete from_str s). }
      destruct (with_state _ _). by intros [= <- <-].
    + specialize (Hfail "provider closed the stream before finishing the turn").
      destruct (with_state _ _). by intros [= <- <-].
Qed.

(** What a whole stream delivers to a caller that stays: events without a terminal one, then
    exactly one terminal event. *)
Definition running (es : list LlmEvent) : Prop := Forall (λ e, is_terminal e = false) es.
Definition one_terminal (es : list LlmEvent) : Prop :=
  ∃ body e, es = body ++ [e] ∧ is_terminal e = true ∧ running body.

(** Calls that never end the turn, and calls that end it with their last event. *)
Definition calm (t : Turn) : Prop := ∀ s, running (t s).1.
Definition tidy (t : Turn) : Prop := ∀ s, running (t s).1 ∨ one_terminal (t s).1.

Lemma calm_tidy t : calm t → tidy t.
Proof. intros Ht s. left. apply Ht. Qed.
Lemma calm_seq a b : calm a → calm b → calm (seq_turn a b).
Proof.
  intros Ha Hb s. unfold seq_turn. specialize (Ha s). destruct (a s) as [e1 s1].
  specialize (Hb s1). destruct (b s1). by apply Forall_app.
Qed.
Lemma calm_seqs l : Forall calm l → calm (seq_turns l).
Proof. induction 1; [by intros s; constructor|by apply calm_seq]. Qed.
Lemma calm_silent f : calm (silent f).
Proof. intros s. constructor. Qed.

Lemma calm_start model id : calm (turn_start model id).
Proof. intros s. unfold turn_start. destruct (ts_started s); repeat constructor. Qed.
Lemma calm_text delta : calm (turn_text delta).
Proof. intros s. unfold turn_text. case_match; repeat constructor. Qed.
Lemma calm_reasoning delta : calm (turn_reasoning delta).
Proof. intros s. unfold turn_reasoning. case_match; repeat constructor. Qed.
Lemma calm_announce i call_id tool : calm (announce i call_id tool).
Proof. intros s. unfold announce. case_match; repeat constructor. Qed.
Lemma calm_arguments i fragment : calm (turn_arguments i fragment).
Proof. intros s. unfold turn_arguments. case_match; repeat constructor. Qed.
Lemma calm_settle i : calm (settle from_str i).
Proof. intros s. unfold settle. repeat case_match; repeat constructor. Qed.
Local Hint Resolve calm_start calm_text calm_reasoning calm_announce calm_arguments calm_settle calm_silent
  calm_seq calm_seqs : core.

Lemma tidy_fail error : tidy (turn_fail error).
Proof.
  intros s. unfold turn_fail. case_match; [left; constructor|right].
  exists [], (ResponseFailed error (ts_usage s)). repeat constructor.
Qed.
Lemma tidy_complete : tidy (complete from_str).
Proof.
  intros s. destruct (ts_completed s) eqn:Hc; [left; unfold complete; rewrite Hc; constructor|right].
  destruct (complete_eq s Hc) as [-> _]. simpl.
  assert (running (settle_all s).1) as Hr.
  { apply calm_seqs. apply Forall_forall. intros t (j & -> & _)%list_elem_of_fmap. auto. }
  destruct (settle_all s) as [e1 s1]. simpl in *.
  exists (e1 ++ [ResponseStepCompleted (finish_of s1) (ts_usage s1)]),
    (ResponseCompleted (finish_of s1) (ts_usage s1) (ts_message s1)).
  rewrite <- (assoc_L (++)). split_and!; [done|done|]. apply Forall_app. split; [done|repeat constructor].
Qed.

Lemma tidy_on_turn t d : tidy t → running (on_turn t d).1 ∨ one_terminal (on_turn t d).1.
Proof. intros Ht. specialize (Ht (ad_state d)). unfold on_turn. by destruct (t (ad_state d)). Qed.
Lemma tidy_with_state t d : tidy t → running (with_state t d).1 ∨ one_terminal (with_state t d).1.
Proof.
  intros Ht. destruct d as [d|s]; simpl.
  - pose proof (tidy_on_turn t d Ht). by destruct (on_turn t d).
  - specialize (Ht s). by destruct (t s).
Qed.

Lemma decoder_push_tidy data d :
  match (decoder_push from_str data d).1 with
  | inr events => running events ∨ one_terminal events
  | inl _ => True
  end.
Proof.
  assert (running []) as Hnil by constructor.
  destruct d as [d|s]; simpl.
  - unfold anthropic_push. destruct (from_str data) as [e|frame]; [done|].
    set (p := if bool_decide (_ = "message_start") then _ else _).
    assert (running p.1 ∨ one_terminal p.1) as Hp; [|by destruct p].
    unfold p. clear p. repeat case_bool_decide; try (apply tidy_on_turn); auto using tidy_complete, tidy_fail.
    + apply calm_tidy. unfold message_start. auto.
    + unfold block_start. case_bool_decide; [|by left]. apply tidy_on_turn, calm_tidy. auto.
    + apply calm_tidy. unfold block_delta. repeat case_match; auto.
    + unfold block_stop. repeat case_match; try (by left); [left; repeat constructor|].
      apply tidy_on_turn, calm_tidy. auto.
    + apply calm_tidy. unfold message_delta. apply calm_seq; [|auto]. case_match; [apply calm_silent|auto].
  - unfold openai_push. case_bool_decide.
    + pose proof (tidy_complete s). by destruct (complete from_str s).
    + destruct (from_str data) as [e|chunk]; [done|].
      assert (tidy (openai_chunk chunk)) as Ht; [|specialize (Ht s); by destruct (openai_chunk chunk s)].
      unfold openai_chunk. case_match; [apply tidy_fail|]. apply calm_tidy, calm_seqs.
      apply Forall_cons; split; [auto|apply Forall_cons; split; [auto|apply Forall_singleton]].
      case_match; [|auto]. apply calm_seq; [|case_match; apply calm_silent]. case_match; [|auto].
      apply calm_seqs. apply Forall_cons. split; [case_match; auto|]. apply Forall_app. split.
      * apply Forall_forall. intros t (field & -> & _)%list_elem_of_fmap. case_match; auto.
      * apply Forall_forall. intros t (i & call & -> & _)%elem_of_lookup_imap.
        unfold openai_tool_call. apply calm_seq; [auto|]. case_match; auto.
Qed.

Lemma next_events_tidy d item decoder :
  let events := (next_events from_str d item decoder).1.1 in running events ∨ one_terminal events.
Proof.
  unfold next_events. destruct item as [[|[data|]|e]|]; simpl.
  - pose proof (tidy_with_state _ decoder (tidy_fail (llm_error_text Aborted))). by destruct (with_state _ _).
  - pose proof (decoder_push_tidy data decoder) as Hp.
    destruct (decoder_push from_str data decoder) as [[e|ev] d1]; simpl in *; [|done].
    pose proof (tidy_with_state _ d1 (tidy_fail (clean d (llm_error_text e)))). by destruct (with_state _ _).
  - left. constructor.
  - pose proof (tidy_with_state _ decoder (tidy_fail (clean d ("stream ended early: " +:+ e)))).
    by destruct (with_state _ _).
  - destruct (has_finish _); [pose proof (tidy_with_state _ decoder tidy_complete)
      |pose proof (tidy_with_state _ decoder (tidy_fail "provider closed the stream before finishing the turn"))];
      by destruct (with_state _ _).
Qed.

(** *** What the caller receives

    The events of a turn as a list, without the channel. *)

Fixpoint stream_out (d : Driver) (items : list StreamItem) (decoder : Decoder) : list LlmEvent :=
  let '(events, exhausted, decoder) := next_events from_str d (head items) decoder in
  if existsb is_terminal events || exhausted then events
  else match items with [] => events | _ :: items => events ++ stream_out d items decoder end.

Definition attempt_out (d : Driver) (r : Response) : LlmError + list LlmEvent :=
  match attempt from_str d r (mkChannel [] None) with
  | inl e => inl e
  | inr c => inr (ch_delivered c)
  end.

Definition failed_event (e : LlmError) : LlmEvent := ResponseFailed (llm_error_text e) usage_default.

Fixpoint run_out (d : Driver) (n : N) (more : nat) (script : N → AttemptScript) : list LlmEvent :=
  let a := script n in
  if as_aborted a then [failed_event Aborted]
  else match attempt_out d (as_response a) with
  | inr events => events
  | inl error =>
    match is_retryable error, more with
    | true, S more =>
      ResponseRetrying n (N.min u64_max (as_millis (delay_after (dr_retry d) n (retry_after error))))
        (llm_error_text error)
      :: (if as_aborted_in_sleep a then [failed_event Aborted] else run_out d (n + 1) more script)
    | _, _ => [failed_event error]
    end
  end.

(** A channel whose caller takes at most [limit] more events has received a prefix. *)
Definition received (limit : option nat) (del out : list LlmEvent) : Channel :=
  match limit with
  | None => mkChannel (del ++ out) None
  | Some n => mkChannel (del ++ take n out) (Some (n - length out))
  end.
Definition within (limit : option nat) (out : list LlmEvent) : bool :=
  match limit with None => true | Some n => length out <=? n end.
Definition channel (limit : option nat) (del : list LlmEvent) : Channel := mkChannel del limit.

Lemma emit_received limit del out : emit out (channel limit del) = (within limit out, received limit del out).
Proof.
  unfold channel. revert limit del. induction out as [|e out IH]; intros limit del; simpl.
  - unfold received. destruct limit; simpl; by rewrite ?take_nil, ?(right_id_L [] (++)), ?Nat.sub_0_r.
  - destruct limit as [[|n]|]; simpl; [by rewrite (right_id_L [] (++))| |].
    + rewrite (IH (Some n)). simpl. by rewrite <- (assoc_L (++)).
    + rewrite (IH None). simpl. by rewrite <- (assoc_L (++)).
Qed.

(** Receiving in two steps, and receiving past the limit. *)
Lemma received_app limit del a b :
  within limit a = true →
  ∃ limit', received limit del a = channel limit' (del ++ a) ∧
    received limit' (del ++ a) b = received limit del (a ++ b).
Proof.
  destruct limit as [n|]; simpl; intros Hn.
  - apply Nat.leb_le in Hn. exists (Some (n - length a)). unfold received, channel.
    rewrite (take_ge a) by lia. split; [done|]. rewrite take_app, (take_ge a), length_app by lia.
    rewrite <- (assoc_L (++)). f_equal. f_equal. lia.
  - exists None. unfold received, channel. by rewrite (assoc_L (++)).
Qed.
Lemma received_over limit del a b :
  within limit a = false → received limit del (a ++ b) = received limit del a.
Proof.
  destruct limit as [n|]; simpl; [|done]. intros Hn. apply Nat.leb_gt in Hn.
  rewrite take_app_le, length_app by lia. f_equal. f_equal. lia.
Qed.

Lemma read_stream_received d items decoder limit del :
  read_stream from_str d items decoder (channel limit del) = received limit del (stream_out d items decoder).
Proof.
  revert decoder limit del. induction items as [|item items IH]; intros decoder limit del;
    cbn [read_stream stream_out hd_error]; destruct (next_events from_str d _ decoder) as [[events exhausted] decoder'];
    rewrite emit_received; destruct (within limit events) eqn:Hw; simpl.
  - by repeat case_match.
  - by repeat case_match.
  - destruct (existsb is_terminal events || exhausted); [done|].
    destruct (received_app limit del events (stream_out d items decoder') Hw) as (limit' & -> & Heq).
    by rewrite IH.
  - destruct (existsb is_terminal events || exhausted); [done|]. by rewrite received_over.
Qed.

Lemma emit_failure_received e limit del : emit_failure e (channel limit del) = received limit del [failed_event e].
Proof. unfold emit_failure. by rewrite emit_received. Qed.

Lemma attempt_received d r limit del :
  attempt from_str d r (channel limit del) =
  match attempt_out d r with inl e => inl e | inr out => inr (received limit del out) end.
Proof.
  unfold attempt_out, attempt. destruct (dr_build d); [done|]. destruct r as [| |items]; try done.
  rewrite read_stream_received. change (mkChannel [] None) with (channel None []).
  by rewrite read_stream_received.
Qed.

Lemma run_received d n more script limit del :
  run_from from_str d n more script (channel limit del) = received limit del (run_out d n more script).
Proof.
  revert n limit del. induction more as [|more IH]; intros n limit del; cbn [run_from run_out];
    destruct (as_aborted (script n)); try apply emit_failure_received;
    rewrite attempt_received; destruct (attempt_out d _) as [error|out]; try done;
    destruct (is_retryable error); try apply emit_failure_received.
  set (notice := ResponseRetrying _ _ _). rewrite (emit_received limit del [notice]).
  destruct (within limit [notice]) eqn:Hw; simpl.
  - destruct (as_aborted_in_sleep (script n)).
    + destruct (received_app limit del [notice] [failed_event Aborted] Hw) as (limit' & -> & Heq).
      by rewrite emit_failure_received.
    + destruct (received_app limit del [notice] (run_out d (n + 1) more script) Hw) as (limit' & -> & Heq).
      by rewrite IH.
  - destruct limit as [[|k]|]; by simpl in Hw.
Qed.

(** *** The shape of a turn *)

Lemma running_count es : running es ↔ count is_terminal es = 0.
Proof.
  unfold running, count. rewrite length_zero_iff_nil. split.
  - intros H. induction H as [|e es He _ IH]; [done|]. by rewrite filter_cons_False, IH by (by rewrite He).
  - intros H. apply Forall_forall. intros e Hin. destruct (is_terminal e) eqn:He; [|done].
    assert (e ∈ filter (λ e, is_terminal e = true) es) as Hf by by apply list_elem_of_filter.
    rewrite H in Hf. by apply elem_of_nil in Hf.
Qed.
Lemma existsb_one_terminal es : one_terminal es → existsb is_terminal es = true.
Proof. intros (b & e & -> & He & _). rewrite existsb_app. simpl. by rewrite He, orb_true_r. Qed.
Lemma existsb_running es : running es → existsb is_terminal es = false.
Proof. induction 1 as [|e es He _ IH]; simpl; [done|]. by rewrite He. Qed.

Lemma exhausted_items d item decoder :
  (next_events from_str d item decoder).1.2 = true →
  match item with None | Some ItemAborted => True | _ => False end.
Proof.
  unfold next_events. destruct item as [[|[data|]|e]|]; simpl; try done.
  - destruct (decoder_push from_str data decoder) as [[|] ?]; simpl; [|done]. by destruct (with_state _ _).
  - by destruct (with_state _ _).
Qed.
Lemma exhausted_at_end d decoder : (next_events from_str d None decoder).1.2 = true.
Proof. unfold next_events. by destruct (with_state _ _). Qed.

(** Every stream ends with its only terminal event, and its events agree with some state. *)
Lemma stream_ends d items decoder es :
  Agrees es (decoder_state decoder) → ts_completed (decoder_state decoder) = false →
  one_terminal (stream_out d items decoder) ∧ ∃ s, Agrees (es ++ stream_out d items decoder) s.
Proof.
  revert decoder es. induction items as [|item items IH]; intros decoder es Hs Hc;
    cbn [stream_out hd_error].
  - pose proof (exhausted_at_end d decoder) as Hx. pose proof (next_events_tidy d None decoder) as Ht.
    destruct (next_events from_str d None decoder) as [[events exhausted] decoder'] eqn:Hn. cbn [fst snd] in *. subst.
    rewrite orb_true_r. split; [|eauto using next_events_sound]. destruct Ht as [Ht|]; [|done].
    eapply last_pass_ends in Hn; [|done..]. by rewrite existsb_running in Hn.
  - pose proof (exhausted_items d (Some item) decoder) as Hx.
    pose proof (next_events_tidy d (Some item) decoder) as Ht.
    destruct (next_events from_str d (Some item) decoder) as [[events exhausted] decoder'] eqn:Hn.
    cbn [fst snd] in *. pose proof (next_events_sound _ _ _ _ _ _ _ Hs Hn) as Hs'. destruct Ht as [Ht|Ht].
    + rewrite existsb_running by done. destruct exhausted; simpl.
      { eapply last_pass_ends in Hn; [|done|done|by apply Hx]. by rewrite existsb_running in Hn. }
      assert (ts_completed (decoder_state decoder') = false) as Hc'.
      { pose proof (ag_terminal _ _ Hs') as H1. pose proof (ag_terminal _ _ Hs) as H2.
        rewrite count_app, H2, Hc in H1. apply running_count in Ht. rewrite Ht in H1.
        by destruct (ts_completed (decoder_state decoder')). }
      destruct (IH _ _ Hs' Hc') as [(body & e & Hbe & He & Hbody) [s Hfin]].
      rewrite (assoc_L (++)). split; [|by exists s].
      exists (events ++ body), e. rewrite Hbe, (assoc_L (++)). split_and!; [done|done|]. by apply Forall_app.
    + rewrite existsb_one_terminal by done. simpl. eauto.
Qed.

Lemma delay_after_bound p attempt advice : (delay_after p attempt advice <= rp_max_backoff p)%N.
Proof. unfold delay_after, backoff. repeat case_match; lia. Qed.

(** The notices before the last attempt: numbered from [n], each within the delay ceiling. *)
Definition notices_from (d : Driver) (n : N) (notices : list LlmEvent) : Prop :=
  ∀ i e, notices !! i = Some e → ∃ ms reason,
    e = ResponseRetrying (n + N.of_nat i) ms reason ∧ (ms <= as_millis (rp_max_backoff (dr_retry d)))%N.

Lemma failure_agrees e : one_terminal [failed_event e] ∧ ∃ s, Agrees [failed_event e] s.
Proof.
  split; [exists [], (failed_event e); by repeat constructor|].
  exists (close (turn_new "" "")). apply (agrees_terminal []); [apply new_turn_agrees|done..].
Qed.

Lemma attempt_ends d r out : attempt_out d r = inr out → one_terminal out ∧ ∃ s, Agrees out s.
Proof.
  unfold attempt_out, attempt. destruct (dr_build d); [done|]. destruct r as [| |items]; [done..|].
  change (mkChannel [] None) with (channel None []). rewrite read_stream_received. simpl. intros [= <-].
  apply (stream_ends d items (decoder_new _ _ _) []); destruct (dr_kind d); done || apply new_turn_agrees.
Qed.

Lemma run_shape d n more script :
  ∃ notices stream, run_out d n more script = notices ++ stream ∧ length notices ≤ more ∧
    notices_from d n notices ∧ one_terminal stream ∧ ∃ s, Agrees stream s.
Proof.
  assert (∀ n e, ∃ notices stream, [failed_event e] = notices ++ stream ∧ length notices ≤ more ∧
    notices_from d n notices ∧ one_terminal stream ∧ ∃ s, Agrees stream s) as Hfail.
  { intros k e. exists [], [failed_event e]. split_and!; [done|simpl; lia|by intros ? ?| |];
      apply failure_agrees. }
  revert n. induction more as [|more IH]; intros n; cbn [run_out];
    (destruct (as_aborted (script n)); [apply Hfail|]);
    (destruct (attempt_out d (as_response (script n))) as [error|out] eqn:Hout;
     [|exists [], out; split_and!; [done|simpl; lia|by intros ? ?| |]; by eapply attempt_ends]);
    destruct (is_retryable error); try apply Hfail.
  set (notice := ResponseRetrying _ _ _).
  assert (∃ notices stream, (if as_aborted_in_sleep (script n) then [failed_event Aborted]
    else run_out d (n + 1) more script) = notices ++ stream ∧ length notices ≤ more ∧
    notices_from d (n + 1) notices ∧ one_terminal stream ∧ ∃ s, Agrees stream s)
    as (notices & stream & -> & Hlen & Hno & Hone & Hag).
  { destruct (as_aborted_in_sleep (script n)).
    - exists [], [failed_event Aborted]. split_and!; [done|simpl; lia|by intros ? ?| |]; apply failure_agrees.
    - apply IH. intros k e. exists [], [failed_event e].
      split_and!; [done|simpl; lia|by intros ? ?| |]; apply failure_agrees. }
  exists (notice :: notices), stream. split_and!; [done|simpl; lia| |done|done].
  intros [|i] e He; simpl in He.
  - injection He as <-. eexists _, _. split; [unfold notice; by rewrite N.add_0_r|].
    assert (as_millis (delay_after (dr_retry d) n (retry_after error)) <= as_millis (rp_max_backoff (dr_retry d)))%N;
      [|lia]. apply N.Div0.div_le_mono, delay_after_bound.
  - destruct (Hno i e He) as (ms & reason & -> & Hms). exists ms, reason. split; [f_equal; lia|done].
Qed.

(** C19: every turn ends, and ends once.  Whatever the network and the caller's aborts do, a caller
    that keeps listening receives first the retry notices, fewer than the allowed attempts,
    numbered in order and with delays within the configured ceiling, and then the events of the
    last attempt, of which exactly the last is terminal; a caller that stops listening after
    some number of events has received just that many of them. *)
Theorem turns_end_exactly_once d script :
  let events := ch_delivered (run from_str d script (mkChannel [] None)) in
  (∃ notices stream, events = notices ++ stream ∧
     (N.of_nat (length notices) < N.max (rp_max_attempts (dr_retry d)) 1)%N ∧
     notices_from d 1 notices ∧ count is_retrying stream = 0 ∧ one_terminal stream) ∧
  ∀ n, ch_delivered (run from_str d script (mkChannel [] (Some n))) = take n events.
Proof.
  unfold run. set (more := N.to_nat _).
  pose proof (run_received d 1 more script None []) as Hnone. unfold channel in Hnone. rewrite Hnone.
  split.
  - destruct (run_shape d 1 more script) as (notices & stream & Heq & Hlen & Hno & Hone & s & Hs).
    exists notices, stream. split_and!; [done|lia|done| |done]. apply (ag_no_retry _ _ Hs).
  - intros n. pose proof (run_received d 1 more script (Some n) []) as Hsome. unfold channel in Hsome.
    by rewrite Hsome.
Qed.

Lemma notices_spell_nothing d n notices :
  notices_from d n notices →
  assembled notices = mkAssistantMessage "" "" [] ∧ (∀ i, fragments i notices = []) ∧
  (∀ i, count (settles i) notices = 0) ∧ (∀ i, count (announces i) notices = 0) ∧
  count is_started notices = 0.
Proof.
  revert n. induction notices as [|e notices IH]; intros n Hno; [done|].
  destruct (Hno 0 e) as (ms & reason & -> & _); [done|].
  destruct (IH (n + 1)%N) as (H1 & H2 & H3 & H4 & H5); [|by split_and!].
  intros i e He. destruct (Hno (S i) e He) as (ms' & reason' & -> & ?). exists ms', reason'.
  split; [f_equal; lia|done].
Qed.

(** C20: the delivered turn is what its fragments spell: among the events a listening caller receives,
    a completed message has exactly the text and the reasoning of the deltas before it and
    the tool calls reported ready, in order; a call is reported ready or failed with the
    arguments that its fragments, concatenated, parse to; and the start of the response,
    the start of each call and the end of each call are reported at most once. *)
Theorem turns_are_assembled_faithfully d script :
  let events := ch_delivered (run from_str d script (mkChannel [] None)) in
  faithful events ∧ count is_started events ≤ 1 ∧
  ∀ index, (N.of_nat index < u32_max)%N →
    count (announces index) events ≤ 1 ∧ count (settles index) events ≤ 1.
Proof.
  unfold run. set (more := N.to_nat _).
  pose proof (run_received d 1 more script None []) as Hnone. unfold channel in Hnone. rewrite Hnone. simpl.
  destruct (run_shape d 1 more script) as (notices & stream & -> & _ & Hno & _ & s & Hs).
  destruct (notices_spell_nothing _ _ _ Hno) as (N1 & N2 & N3 & N4 & N5).
  split_and!.
  - intros pre e post Heq. apply app_eq_app in Heq as (k & [[-> Hk]|[-> Hk]]).
    + destruct k as [|x k]; simplify_eq/=.
      * rewrite (right_id_L [] (++)) in N1, N2. pose proof (ag_faithful _ _ Hs [] e post) as Hf.
        simpl in Hf. specialize (Hf eq_refl). destruct e; try done; [| |by rewrite N1];
          intros j; rewrite N2; by apply Hf.
      * destruct (Hno (length pre) x) as (? & ? & -> & _); [|done].
        by rewrite lookup_app_r, Nat.sub_diag by lia.
    + pose proof (ag_faithful _ _ Hs k e post Hk) as Hf. destruct e; try done.
      * intros j. rewrite fragments_app, N2. apply Hf.
      * intros j. rewrite fragments_app, N2. apply Hf.
      * rewrite assembled_app, N1, Hf. done.
  - rewrite count_app, N5, (ag_started _ _ Hs). destruct (ts_started s); simpl; lia.
  - intros index Hi. rewrite !count_app, N3, N4, (ag_announced _ _ Hs), (ag_settled _ _ Hs) by done.
    destruct (tb_announced _), (tb_settled _); simpl; lia.
Qed.
End turns.

(** ** Redaction of provider text *)

Lemma contains_split pat a x b :
  x ∉ pat → pat ≠ [] → contains pat (a ++ x :: b) = contains pat a || contains pat b.
Proof.
  intros Hx Hne. apply eq_true_iff_eq. rewrite orb_true_iff, !contains_spec. split.
  - intros (u & v & Heq). apply app_eq_app in Heq as (k & [[-> Hk]|[-> Hk]]).
    + apply app_eq_app in Hk as (k' & [[Hk1 Hk2]|[-> ->]]).
      * destruct k' as [|y k']; simplify_eq/=.
        -- left. exists u, []. by rewrite !(right_id_L [] (++)).
        -- exfalso. apply Hx. rewrite elem_of_app. right. by left.
      * left. by exists u, k'.
    + destruct k as [|y k]; simplify_eq/=.
      * destruct pat as [|p pat]; [done|]. simplify_eq/=. exfalso. apply Hx. by left.
      * right. by exists k, v.
  - intros [(u & v & ->)|(u & v & ->)].
    + exists u, (v ++ x :: b). by rewrite <- !(assoc_L (++)).
    + exists (a ++ x :: u), v. by rewrite <- (assoc_L (++)).
Qed.

Lemma replace_all_prefix pat q l :
  "["%char ∉ q → q `prefix_of` replace_all pat REDACTED 0 l → q `prefix_of` l.
Proof.
  intros Hq. revert q Hq. induction l as [|c l IH]; intros q Hq; cbn [replace_all]; [done|].
  destruct (starts_with pat (c :: l)).
  - intros [r Hr]. destruct q as [|x q]; [by exists (c :: l)|].
    cbn in Hr. simplify_eq. exfalso. apply Hq. by left.
  - intros Hp. destruct q as [|x q]; [by exists (c :: l)|].
    apply prefix_cons_inv_1 in Hp as Hx. subst x. apply prefix_cons_inv_2 in Hp.
    apply prefix_cons, IH; [set_solver|done].
Qed.

(** A key that redaction can remove: plain characters without brackets, and not a part of
    the word that replaces it. *)
Definition redactable (key : string) : Prop :=
  4 ≤ str_len key ∧ Forall (λ c, (byte_val c < 128)%N ∧ c ≠ "["%char ∧ c ≠ "]"%char) (bytes key) ∧
  contains (bytes key) (bytes "redacted") = false.

Lemma replace_all_clean pat skip l :
  pat ≠ [] → "["%char ∉ pat → "]"%char ∉ pat → contains pat (bytes "redacted") = false →
  contains pat (replace_all pat REDACTED skip l) = false.
Proof.
  intros Hne Hl Hr Hw. revert skip. induction l as [|c l IH]; intros skip.
  { cbn. rewrite orb_false_r. apply not_true_iff_false. rewrite starts_with_spec.
    intros [r Heq]. by destruct pat. }
  cbn [replace_all]. destruct skip as [|skip]; [|apply IH].
  destruct (starts_with pat (c :: l)) eqn:Hs.
  - change (REDACTED ++ ?r) with ([] ++ "["%char :: bytes "redacted" ++ "]"%char :: r).
    rewrite !contains_split, Hw, IH by done. simpl. rewrite !orb_false_r.
    apply not_true_iff_false. rewrite starts_with_spec. intros [r Heq]. by destruct pat.
  - cbn [contains]. rewrite IH, orb_false_r. apply not_true_iff_false. rewrite starts_with_spec.
    intros [r Heq]. apply not_true_iff_false in Hs. apply Hs. rewrite starts_with_spec.
    destruct pat as [|p pat]; [done|]. injection Heq as -> Heq.
    destruct (replace_all_prefix (p :: pat) pat l) as [r' ->]; [set_solver|by exists r|by exists r'].
Qed.

Lemma contains_prefix pat a b : contains pat (a ++ b) = false → contains pat a = false.
Proof.
  rewrite <- !not_true_iff_false, !contains_spec. intros Hn (u & v & ->). apply Hn.
  exists u, (v ++ b). by rewrite <- !(assoc_L (++)).
Qed.

Lemma char_count_app a b : char_count (a ++ b) = (char_count a + char_count b)%N.
Proof. induction a as [|c a IH]; simpl; [done|]. rewrite IH. case_match; lia. Qed.

(** Text of the provider that is kept in an error is bounded and does not show the key: it has at
    most 512 characters and an ellipsis, and no occurrence of a redactable key, wherever and
    however often the provider repeated it. *)
Theorem scrubbed_text_hides_the_key text key :
  redactable key →
  contains (bytes key) (bytes (scrub text (Some key))) = false ∧
  (char_count (bytes (scrub text (Some key))) <= 513)%N.
Proof.
  intros (Hlen & Hchars & Hword). unfold scrub. rewrite bytes_of_bytes.
  rewrite (proj2 (Nat.leb_le 4 (str_len key)) Hlen).
  assert (bytes key ≠ []) as Hne by (intros Hk; unfold str_len in Hlen; rewrite Hk in Hlen; simpl in Hlen; lia).
  rewrite Forall_forall in Hchars.
  assert (∀ c, (128 <= byte_val c)%N ∨ c = "["%char ∨ c = "]"%char → c ∉ bytes key) as Hout.
  { intros c Hc Hin. destruct (Hchars c Hin) as (H1 & H2 & H3). destruct Hc as [Hc|[->| ->]]; [lia|done..]. }
  set (l := replace_all (bytes key) REDACTED 0 (bytes text)).
  assert (contains (bytes key) l = false) as Hclean by (apply replace_all_clean; auto).
  destruct (N.ltb_spec MAX_RETAINED (char_count l)) as [Hlong|Hshort].
  - destruct (take_chars_go_prefix MAX_RETAINED l) as [r Hr].
    pose proof (char_count_take_chars MAX_RETAINED l) as Hcount. split.
    + change ellipsis with (ascii_of_N 0xE2 :: (ascii_of_N <$> [0x80; 0xA6]%N)).
      rewrite contains_split by (done || apply Hout; left; vm_compute; done).
      rewrite Hr in Hclean. rewrite (contains_prefix _ _ _ Hclean). simpl.
      apply not_true_iff_false. rewrite !orb_true_iff, !starts_with_spec.
      assert (∀ x l r, (128 <= byte_val x)%N → x :: l = bytes key ++ r → False) as Hno.
      { intros x l' r' Hx Heq. destruct (bytes key) as [|k ks] eqn:Hk; [done|]. simplify_eq/=.
        apply (Hout k); [by left|by left]. }
      intros [[r' Hr']|[[r' Hr']|[[r' Hr']|?]]]; [eapply Hno; [|exact Hr']; vm_compute; done..| |done].
      by destruct (bytes key).
    + rewrite char_count_app. unfold MAX_RETAINED in *.
      change (char_count ellipsis) with 1%N. lia.
  - unfold MAX_RETAINED in *. split; [done|lia].
Qed.

(** ** Retry advice *)

Lemma after_last_marker_none marker l : "["%char ∉ l → head marker = Some "["%char → after_last_marker marker l = None.
Proof.
  intros Hl Hm. induction l as [|c l IH]; [done|]. cbn [after_last_marker]. rewrite IH by set_solver.
  destruct marker as [|m marker]; [done|]. simpl in Hm. simplify_eq. cbn. case_decide; [set_solver|done].
Qed.

Lemma after_last_marker_app a t :
  "["%char ∉ t → after_last_marker (bytes "[retry-after: ") (a ++ bytes "[retry-after: " ++ t) = Some t.
Proof.
  intros Ht. induction a as [|c a IH]; cbn [app after_last_marker]; [|by rewrite IH].
  change (bytes "[retry-after: " ++ t) with ("["%char :: (bytes "retry-after: " ++ t)).
  cbn [after_last_marker]. rewrite after_last_marker_none; [|set_solver|done].
  by apply (strip_prefix_Some (bytes "[retry-after: ")).
Qed.

(** Decimal digits read back. *)
Lemma pretty_N_char_digit n :
  (n < 10)%N → is_ascii_digit (pretty_N_char n) = true ∧ (byte_val (pretty_N_char n) - 48)%N = n.
Proof.
  intros Hn. assert (n ∈ (N.of_nat <$> seq 0 10)) as Hin.
  { apply list_elem_of_fmap. exists (N.to_nat n). rewrite elem_of_seq. lia. }
  assert (Forall (λ n, is_ascii_digit (pretty_N_char n) = true ∧ (byte_val (pretty_N_char n) - 48)%N = n)
    (N.of_nat <$> seq 0 10)) as Hall by repeat constructor.
  rewrite Forall_forall in Hall. by apply Hall.
Qed.

Lemma digits_value_pretty n s :
  digits_value 0 (bytes (pretty_N_go n s)) = digits_value n (bytes s) ∧
  (Forall (λ c, is_ascii_digit c = true) (bytes s) → Forall (λ c, is_ascii_digit c = true) (bytes (pretty_N_go n s))).
Proof.
  revert s. induction (N.lt_wf_0 n) as [n _ IH]; intros s.
  destruct (decide (0 < n)%N) as [Hn|Hn].
  - rewrite pretty_N_go_step by done.
    destruct (pretty_N_char_digit (n mod 10)) as [Hd Hv]; [apply N.mod_lt; lia|].
    destruct (IH (n / 10)%N) with (s := String (pretty_N_char (n mod 10)) s) as [-> Hall]; [by apply N.div_lt|].
    split.
    + cbn [bytes String.list_ascii_of_string digits_value]. rewrite Hd, Hv.
      f_equal. symmetry. by apply N.div_mod.
    + intros Hs. apply Hall. constructor; done.
  - assert (n = 0%N) as -> by lia. rewrite pretty_N_go_0. done.
Qed.

Lemma digits_pretty n :
  digits_value 0 (bytes (pretty n)) = Some n ∧ Forall (λ c, is_ascii_digit c = true) (bytes (pretty n)) ∧
  bytes (pretty n) ≠ [].
Proof.
  unfold pretty, pretty_N. case_decide as Hn; [subst; split_and!; [done|repeat constructor|done]|].
  destruct (digits_value_pretty n "") as [Hv Hall]. split_and!; [exact Hv|by apply Hall|].
  intros Hnil. rewrite Hnil in Hv. simpl in Hv. simplify_eq.
Qed.

Lemma parse_u64_pretty n : (n <= u64_max)%N → parse_u64 (bytes (pretty n)) = Some n.
Proof.
  intros Hn. destruct (digits_pretty n) as (Hv & Hall & Hne). unfold parse_u64.
  destruct (bytes (pretty n)) as [|c l] eqn:Hb; [done|].
  assert (c ≠ "+"%char) as Hc by (intros ->; inversion Hall; done).
  replace (match c :: l with "+"%char :: l' => l' | _ => c :: l end) with (c :: l).
  - rewrite Hv. simpl. by rewrite (proj2 (N.leb_le _ _) Hn).
  - destruct c as [[] [] [] [] [] [] [] []]; done.
Qed.

Lemma parse_u64_bound l n : parse_u64 l = Some n → (n <= u64_max)%N.
Proof.
  unfold parse_u64. set (digits := match l with "+"%char :: l' => l' | _ => l end).
  intros H. assert ((m ← digits_value 0 digits; if (m <=? u64_max)%N then Some m else None) = Some n) as Hm.
  { revert H. destruct digits; [done|]. exact id. }
  clear H. destruct (digits_value 0 digits) as [m|]; simpl in Hm; [|done].
  destruct (m <=? u64_max)%N eqn:Hle; [|done]. simplify_eq. by apply N.leb_le.
Qed.

Lemma take_while_stops f a b :
  Forall (λ c, f c = true) a → match b with c :: _ => f c = false | [] => True end → take_while f (a ++ b) = a.
Proof.
  intros Ha Hb. induction Ha as [|c a Hc _ IH]; simpl; [by destruct b as [|c b]; simpl; rewrite ?Hb|].
  by rewrite Hc, IH.
Qed.

(** The provider's advice survives the way through the error text: when the response of a failed
    attempt carries a number of seconds in its retry-after header, the scheduler reads exactly
    that number back from the error, whatever the body of the response says. *)
Theorem retry_advice_round_trips d status header body n :
  parse_u64 (bytes (trim header)) = Some n →
  retry_after (status_error d status (Some header) body) = Some (seconds n).
Proof.
  intros Hn. unfold status_error, retry_after. simpl. rewrite Hn.
  pose proof (parse_u64_bound _ _ Hn) as Hmax.
  destruct (digits_pretty n) as (_ & Hall & _). rewrite Forall_forall in Hall.
  assert (∀ c, is_ascii_digit c = false → c ∉ bytes (pretty n)) as Hnot.
  { intros c Hc Hin. specialize (Hall c Hin). simpl in Hall. congruence. }
  assert (bytes (clean d body +:+ " [retry-after: " +:+ pretty n +:+ "s]") =
    (bytes (clean d body) ++ bytes " ") ++ bytes "[retry-after: " ++ (bytes (pretty n) ++ bytes "s]")) as ->.
  { by rewrite !bytes_app, <- !(assoc_L (++)). }
  rewrite after_last_marker_app; cycle 1.
  { rewrite elem_of_app. intros [H|H]; [by apply (Hnot "["%char)|]. revert H. vm_compute. set_solver. }
  simpl. rewrite take_while_stops; [by rewrite parse_u64_pretty| |done].
  apply Forall_forall. intros c Hc. rewrite bool_decide_false; [done|]. intros ->. by apply (Hnot "s"%char).
Qed.

Lemma scrubbed_text_hides_the_key_witness :
  redactable "sk-test-key" ∧
  contains (bytes "sk-test-key") (bytes (scrub "bad key sk-test-key" (Some "sk-test-key"))) = false ∧
  scrub "bad key sk-test-key" (Some "sk-test-key") = "bad key [redacted]".
Proof.
  assert (redactable "sk-test-key") as Hr.
  { split_and!; [vm_compute; lia| |reflexivity]. repeat constructor; done. }
  split_and!; [exact Hr|apply (scrubbed_text_hides_the_key "bad key sk-test-key" "sk-test-key" Hr)|reflexivity].
Defined.

Definition example_driver : Driver :=
  mkDriver "provider-1" KindOpenAiCompatible "model-1" retry_default (Some "sk-test-key") None.

Lemma retry_advice_round_trips_witness :
  retry_after (status_error example_driver 429 (Some " 7 ") "slow down [retry-after: 9s]") = Some (seconds 7).
Proof. apply retry_advice_round_trips. reflexivity. Defined.

(** ** Two runs that show the limits of the guards *)

(** The message of an error frame is delivered as the provider wrote it: the redaction covers the
    bodies of failed responses and broken streams, not frames of a running stream. *)
Lemma error_frames_are_not_redacted :
  let frame := object_of [("error", object_of [("message", VString "bad key sk-test-key")])] in
  let script := λ _, mkAttemptScript false (Streaming [ItemFrame (Some "frame")]) false in
  ch_delivered (run (λ _, inr frame) example_driver script (mkChannel [] None)) =
    [ResponseFailed "bad key sk-test-key" usage_default].
Proof. reflexivity. Qed.

(** One fragment makes the turn hold as many calls as its index says. *)
Lemma fragment_index_sizes_the_turn index fragment s :
  fragment ≠ "" → length (ts_calls (turn_arguments index fragment s).2) = length (ts_calls s) `max` S index.
Proof.
  intros Hf. unfold turn_arguments. destruct fragment as [|c f]; [done|]. simpl.
  rewrite length_insert. unfold grow. rewrite length_app, length_replicate. lia.
Qed.

(** Without a header, a body that imitates the advice is followed. *)
Lemma advice_is_read_from_bodies :
  retry_after (status_error example_driver 503 None "busy [retry-after: 9s]") = Some (seconds 9).
Proof. reflexivity. Qed.
