(* ===== verification/CoreProjection.v ===== *)
(** * The application projection

    Models [AppProjection] of [crates/core/src/lib.rs]: the state of the user interface as a
    fold over the stored events.  The payload of an event is decoded where [apply] decodes it,
    and a payload that does not decode fails there, with the fields written before the failure
    kept, as the method leaves them. *)

From stdpp Require Import base gmap strings list.
From S2P Require Import Prelude Text Contracts Usage.

Record ProjectedEvent : Type := mkProjectedEvent {
  pe_sequence : N;
  pe_event_type : string;
  pe_origin : string;
}.

Record AppProjection : Type := mkAppProjection {
  ap_last_sequence : N;
  ap_active_profile : string;
  ap_active_session : option string;
  ap_goals_total : N;
  ap_tasks_running : N;
  ap_approvals_waiting : N;
  ap_microphone_active : bool;
  ap_runtime_healthy : bool;
  ap_unclean_shutdowns : N;
  ap_recovered_unclean_run : bool;
  ap_recent_events : list ProjectedEvent;
}.
Global Instance AppProjection_eta : Eta AppProjection :=
  λ r, mkAppProjection (ap_last_sequence r) (ap_active_profile r) (ap_active_session r)
    (ap_goals_total r) (ap_tasks_running r) (ap_approvals_waiting r) (ap_microphone_active r)
    (ap_runtime_healthy r) (ap_unclean_shutdowns r) (ap_recovered_unclean_run r)
    (ap_recent_events r).

Definition projection_default : AppProjection :=
  mkAppProjection 0 "" None 0 0 0 false false 0 false [].

(** The errors of [apply]. *)
Inductive ProjectionError : Type :=
  | SequenceRegression (previous next : N)
  | EventFailure (error : string).

Abbreviation AM := (M AppProjection ProjectionError).

(** [n += 1] on a [u64]; the build profile decides between a panic and wrapping. *)
Definition increment (overflow_checks : bool) (n : N) : AM N :=
  if (n <? u64_max)%N then mret (n + 1)%N else if overflow_checks then panic else mret 0%N.

(** [payload.get(key).and_then(Value::as_bool).unwrap_or(d)], and the same for [u64]. *)
Definition bool_at (key : string) (d : bool) (payload : Value) : bool :=
  match value_get key payload with Some (VBool b) => b | _ => d end.
Definition u64_at (key : string) (payload : Value) : N :=
  default 0%N (value_get key payload ≫= as_u64).

Section apply.
Context `{Calendar}.

Definition payload_of (event : EventEnvelope) : AM Value :=
  match decode_payload event with inr v => mret v | inl e => throw (EventFailure e) end.

Definition drop_running (n : N) : AM () := modify (λ s, s <| ap_tasks_running ::= λ m, sat_sub m n |>).
Definition drop_approvals (n : N) : AM () :=
  modify (λ s, s <| ap_approvals_waiting ::= λ m, sat_sub m n |>).
Definition bump_running (checks : bool) : AM () :=
  s ← get; n ← increment checks (ap_tasks_running s); modify (λ s, s <| ap_tasks_running := n |>).

(** The arms of the match on the event type, in order. *)
Definition apply_type (checks : bool) (event : EventEnvelope) : AM () :=
  let among (l : list string) := bool_decide (ev_type event ∈ l) in
  if among ["goal.created"] then
    s ← get; n ← increment checks (ap_goals_total s); modify (λ s, s <| ap_goals_total := n |>)
  else if among ["task.started"] then bump_running checks
  else if among ["task.completed"; "task.failed"; "task.cancelled"; "task.paused"] then
    payload ← payload_of event;
    _ ← (if bool_at "was_running" true payload then drop_running 1 else mret ());
    if bool_at "approval_resolved" false payload then drop_approvals 1 else mret ()
  else if among ["task.retry_requested"] then
    payload ← payload_of event;
    if bool_at "approval_resolved" false payload then drop_approvals 1 else mret ()
  else if among ["goal.paused"; "goal.cancelled"; "goal.retry_requested"] then
    payload ← payload_of event;
    _ ← drop_running (u64_at "running_tasks_stopped" payload);
    drop_approvals (u64_at "approvals_resolved" payload)
  else if among ["approval.requested"] then
    payload ← payload_of event;
    s ← get; n ← increment checks (ap_approvals_waiting s);
    _ ← modify (λ s, s <| ap_approvals_waiting := n |>);
    if bool_decide (is_Some (value_get "task_id" payload)) then drop_running 1 else mret ()
  else if among ["approval.resolved"] then
    _ ← drop_approvals 1;
    payload ← payload_of event;
    if bool_at "resumed" false payload then bump_running checks else mret ()
  else if among ["audio.privacy_state"] then
    payload ← payload_of event;
    modify (λ s, s <| ap_microphone_active := bool_at "active" false payload |>)
  else if among ["runtime.health"] then
    payload ← payload_of event;
    modify (λ s, s <| ap_runtime_healthy := bool_at "healthy" false payload |>)
  else if among ["lifecycle.started"] then
    payload ← payload_of event;
    _ ← modify (λ s, s <| ap_recovered_unclean_run := bool_at "previous_unclean_run" false payload |>);
    s ← get;
    if ap_recovered_unclean_run s then
      n ← increment checks (ap_unclean_shutdowns s); modify (λ s, s <| ap_unclean_shutdowns := n |>)
    else mret ()
  else mret ().

Definition push_recent (e : ProjectedEvent) (l : list ProjectedEvent) : list ProjectedEvent :=
  let l := l ++ [e] in if 50 <? length l then drop 1 l else l.

Definition apply (checks : bool) (event : EventEnvelope) : AM () :=
  s ← get;
  _ ← reject_if (ev_monotonic_sequence event <=? ap_last_sequence s)%N
        (SequenceRegression (ap_last_sequence s) (ev_monotonic_sequence event));
  _ ← modify (λ s, s <| ap_last_sequence := ev_monotonic_sequence event |>
                     <| ap_active_profile := ev_profile_id event |>
                     <| ap_recent_events ::= push_recent
                          (mkProjectedEvent (ev_monotonic_sequence event) (ev_type event) (ev_origin event)) |>);
  _ ← apply_type checks event;
  match ev_session_id event with
  | Some session => modify (λ s, s <| ap_active_session := Some session |>)
  | None => mret ()
  end.
End apply.
