(* ===== verification/Storage.v ===== *)
(** * The encrypted event store

    Models [crates/storage/src/lib.rs]: the tables as maps and row lists, a transaction that
    commits or leaves everything as it was, the append-only events, supervisor recovery
    checkpoints, usage and egress rows with their grouping queries, memory rows, blobs, the
    sink of the legacy import, and opening with its schema migrations.  Envelopes, snapshots
    and row bodies are kept decoded: a body of another type is one that does not parse.  Each
    transaction and query may fail, as a function of how many were made before. *)

From stdpp Require Import base gmap strings list sorting pretty.
From Stdlib Require Import Ascii.
From S2P Require Automation.
From S2P Require Import Prelude Text Contracts Policy TaskGraph Supervisor Plugins Memory Usage CoreProjection.

Definition BASELINE_SCHEMA_VERSION : Z := 4.
Definition SCHEMA_VERSION : Z := 6.
Definition PROJECTION_CHECKPOINT_KIND : string := "projection.checkpoint".
Definition PROJECTION_CHECKPOINT_ID : string := "projection.checkpoint".
Definition SUPERVISOR_SNAPSHOT_KIND : string := "agent-supervisor".
Definition SUPERVISOR_RECENT_EVENT_LIMIT : nat := 100.
Definition LEGACY_MEMORY_INDEX_KIND : string := "memory-index".
Definition LEGACY_MEMORY_SYSTEM_KIND : string := "memory-system-v2".
Definition MEMORY_MODEL_KIND : string := "memory-model-v1".
Definition MEMORY_SYSTEM_METADATA_KIND : string := "memory-system-metadata-v3".

(** ** Errors *)

(** The failures of SQLite that the code meets: a statement that cannot run, a violated
    constraint, a column of an unexpected type or range, an unsupported query. *)
Inductive DbError : Type := DbFailure | Constraint | ColumnRange | InvalidQuery | NotADatabase.

Inductive StorageError : Type :=
  | DatabaseError (e : DbError)
  | JsonError
  | MemoryRowError (e : MemoryError)
  | SqlCipherUnavailable
  | UnsupportedEventSchema (version : N)
  | SequenceOutOfRange (sequence : N)
  | SupervisorGoalMismatch (event_goal snapshot_goal : string)
  | DestinationExists (path : string)
  | BlobMissing (hash : string)
  | DowngradeRefused (found supported : Z)
  | UnsupportedDatabaseSchema (version : Z)
  | MigrationBackupRequired (version : Z)
  | MemoryProfileCollision (id existing_profile requested_profile : string)
  | MemoryRowMismatch (id : string)
  | MemoryLinksMismatch (id : string).

(** ** Rows *)

Record ProjectionCheckpoint : Type := mkProjectionCheckpoint {
  pc_projection_snapshot_blob : AppProjection;
  pc_last_sequence : N;
}.

Record SupervisorActivityCheckpoint : Type := mkSupervisorActivityCheckpoint {
  sa_sequence : N;
  sa_event_type : string;
  sa_goal_id : option string;
  sa_task_id : option string;
  sa_timestamp : string;
}.

Record SupervisorRecoveryCheckpoint : Type := mkSupervisorRecoveryCheckpoint {
  sc_snapshot : SupervisorSnapshot;
  sc_last_sequence : N;
  sc_latest_goal_event : option EventEnvelope;
  sc_pending_approval_events : list EventEnvelope;
  sc_recent_activities : list SupervisorActivityCheckpoint;
  sc_replay_base_complete : bool;
}.
Global Instance SupervisorRecoveryCheckpoint_eta : Eta SupervisorRecoveryCheckpoint :=
  λ r, mkSupervisorRecoveryCheckpoint (sc_snapshot r) (sc_last_sequence r) (sc_latest_goal_event r)
    (sc_pending_approval_events r) (sc_recent_activities r) (sc_replay_base_complete r).

Record SupervisorCheckpointUpdate : Type := mkSupervisorCheckpointUpdate {
  cu_snapshot : SupervisorSnapshot;
  cu_events : list EventEnvelope;
}.

(** The body of a runtime snapshot, by the type that was serialized. *)
Inductive Body : Type :=
  | BodyProjection (c : ProjectionCheckpoint)
  | BodySupervisor (c : SupervisorRecoveryCheckpoint)
  | BodyBareSupervisor (s : SupervisorSnapshot)
  | BodyScheduler (s : Automation.SchedulerSnapshot)
  | BodyMemoryModel (m : EmbeddingModel)
  | BodyMemoryMetadata (m : PersistentMemoryMetadata)
  | BodyMemoryIndex (s : MemoryStore)
  | BodyMemorySystem (p : PersistentMemory)
  | BodyLedger (l : UsageLedger)
  | BodyText (json : string).

(** [Serialize] and [DeserializeOwned] of the types that are stored. *)
Class Stored (T : Type) : Type := {
  to_body : T → Body;
  of_body : Body → option T;
  of_to_body x : of_body (to_body x) = Some x;
}.
Global Instance stored_projection : Stored ProjectionCheckpoint :=
  {| to_body := BodyProjection; of_body b := match b with BodyProjection c => Some c | _ => None end; of_to_body _ := eq_refl |}.
Global Instance stored_supervisor : Stored SupervisorRecoveryCheckpoint :=
  {| to_body := BodySupervisor; of_body b := match b with BodySupervisor c => Some c | _ => None end; of_to_body _ := eq_refl |}.
Global Instance stored_bare_supervisor : Stored SupervisorSnapshot :=
  {| to_body := BodyBareSupervisor; of_body b := match b with BodyBareSupervisor c => Some c | _ => None end; of_to_body _ := eq_refl |}.
Global Instance stored_scheduler : Stored Automation.SchedulerSnapshot :=
  {| to_body := BodyScheduler; of_body b := match b with BodyScheduler c => Some c | _ => None end; of_to_body _ := eq_refl |}.
Global Instance stored_memory_model : Stored EmbeddingModel :=
  {| to_body := BodyMemoryModel; of_body b := match b with BodyMemoryModel c => Some c | _ => None end; of_to_body _ := eq_refl |}.
Global Instance stored_memory_metadata : Stored PersistentMemoryMetadata :=
  {| to_body := BodyMemoryMetadata; of_body b := match b with BodyMemoryMetadata c => Some c | _ => None end; of_to_body _ := eq_refl |}.
Global Instance stored_memory_index : Stored MemoryStore :=
  {| to_body := BodyMemoryIndex; of_body b := match b with BodyMemoryIndex c => Some c | _ => None end; of_to_body _ := eq_refl |}.
Global Instance stored_memory_system : Stored PersistentMemory :=
  {| to_body := BodyMemorySystem; of_body b := match b with BodyMemorySystem c => Some c | _ => None end; of_to_body _ := eq_refl |}.
Global Instance stored_ledger : Stored UsageLedger :=
  {| to_body := BodyLedger; of_body b := match b with BodyLedger c => Some c | _ => None end; of_to_body _ := eq_refl |}.
Global Instance stored_text : Stored string :=
  {| to_body := BodyText; of_body b := match b with BodyText c => Some c | _ => None end; of_to_body _ := eq_refl |}.

Record SnapshotRow : Type := mkSnapshotRow { sr_body : Body; sr_updated_at : string }.

Record UsageFactWrite : Type := mkUsageFactWrite {
  fw_id : string;
  fw_day : string;
  fw_session_id : option string;
  fw_body : UsageFact;
}.
Record EgressWrite : Type := mkEgressWrite {
  ew_id : string;
  ew_day : string;
  ew_session_id : option string;
  ew_destination : string;
  ew_size_bytes : option N;
  ew_body : EgressRecord;
}.

(** Rows of [provider_usage] and [egress], in the order of their rowids. *)
Record UsageRow : Type := mkUsageRow {
  uw_id : string;
  uw_profile_id : string;
  uw_day : string;
  uw_session_id : option string;
  uw_body : UsageFact;
}.
Record EgressRow : Type := mkEgressRow {
  ex_id : string;
  ex_profile_id : string;
  ex_destination : string;
  ex_size_bytes : Z;
  ex_body : EgressRecord;
  ex_day : string;
  ex_session_id : option string;
}.

(** A memory row holds a serialized storage row, or what the legacy import wrote. *)
Inductive MemoryBody : Type :=
  | RowBody (row : MemoryStorageRow)
  | ImportBody (json : Value).
Record MemoryRow : Type := mkMemoryRow {
  mr_profile_id : string;
  mr_trust : string;
  mr_body : MemoryBody;
}.

Record PreparedRecord : Type := mkPreparedRecord {
  pr_id : string;
  pr_kind : string;
  pr_source_locator : string;
  pr_source_modified_at : option string;
  pr_content_sha256 : string;
  pr_destination : string;
  pr_enabled : bool;
  pr_contains_personal_data : bool;
  pr_payload : string;
}.

(** ** The database *)

Record Database : Type := mkDatabase {
  db_user_version : Z;
  (** the versions in [schema_migrations], [None] while the table is absent *)
  db_schema_migrations : option (gset Z);
  db_events : gmap N EventEnvelope;
  db_snapshots : gmap (string * string) SnapshotRow;
  db_provider_usage : list UsageRow;
  db_egress : list EgressRow;
  db_memories : gmap string MemoryRow;
  db_memory_links : gset (string * string);
  db_blobs : gmap string (list N);
  db_migration_runs : gmap string (string * string);
  db_migration_items : gmap string PreparedRecord;
  db_automations : gmap string string;
  db_connectors : gmap string string;
  db_settings : gmap (string * string) string;
  db_artifacts : gmap string (string * Value);
}.
Global Instance Database_eta : Eta Database :=
  λ r, mkDatabase (db_user_version r) (db_schema_migrations r) (db_events r) (db_snapshots r)
    (db_provider_usage r) (db_egress r) (db_memories r) (db_memory_links r) (db_blobs r)
    (db_migration_runs r) (db_migration_items r) (db_automations r) (db_connectors r)
    (db_settings r) (db_artifacts r).

Definition database_empty : Database := mkDatabase 0 None ∅ ∅ [] [] ∅ ∅ ∅ ∅ ∅ ∅ ∅ ∅ ∅.

(** What the connection adds: which of its calls fail, and the clock of [strftime('now')]. *)
Class Sqlite : Type := {
  failing : N → bool;
  sql_now : N → string;
}.

Record EventStore : Type := mkEventStore { es_db : Database; es_calls : N }.

Abbreviation TX := (M Database StorageError).
Abbreviation ST := (M EventStore StorageError).

Definition db_error {S A} (e : DbError) : M S StorageError A := throw (DatabaseError e).

Section connection.
Context `{Sqlite}.

(** One call of the connection. *)
Definition call : ST () := λ s,
  (if failing (es_calls s) then Err (DatabaseError DbFailure) else Ok (),
   mkEventStore (es_db s) (es_calls s + 1)).

(** A query, on the committed state. *)
Definition query {A} (f : Database → outcome StorageError A) : ST A :=
  _ ← call; s ← get; lift (f (es_db s)).

(** A transaction: the state is the committed one of its statements, or the one before it. *)
Definition transaction {A} (body : string → TX A) : ST A :=
  _ ← call;
  s ← get;
  match body (sql_now (es_calls s)) (es_db s) with
  | (Ok a, db) => _ ← call; _ ← modify (λ s, mkEventStore db (es_calls s)); mret a
  | (Err e, _) => throw e
  | (Panic, _) => panic
  end.
End connection.

(** ** Events *)

(** [i64::try_from] of a sequence number. *)
Definition to_i64 (n : N) : outcome StorageError Z :=
  if (Z.of_N n <=? i64_max)%Z then Ok (Z.of_N n) else Err (SequenceOutOfRange n).

Definition validate_event (event : EventEnvelope) : outcome StorageError () :=
  _ ← ensure_not (negb (ev_schema_version event =? EVENT_SCHEMA_VERSION)%N)
        (UnsupportedEventSchema (ev_schema_version event));
  _ ← to_i64 (ev_monotonic_sequence event);
  mret ().

(** [INSERT INTO events]: the sequence is the primary key, the event identifier is unique. *)
Definition insert_event (event : EventEnvelope) : TX () :=
  db ← get;
  if bool_decide (is_Some (db_events db !! ev_monotonic_sequence event)) ||
     existsb (λ e, bool_decide (ev_event_id e = ev_event_id event)) (values (db_events db))
  then db_error Constraint
  else modify (λ db, db <| db_events ::= <[ev_monotonic_sequence event := event]> |>).

Definition max_sequence (db : Database) : N := foldr N.max 0%N (keys (db_events db)).

(** [SELECT envelope FROM events WHERE monotonic_sequence > ?1 ORDER BY monotonic_sequence]. *)
Definition events_after_sequence (sequence : N) (db : Database) : list EventEnvelope :=
  (filter (λ e : N * EventEnvelope, (sequence < e.1)%N) (entries (db_events db))).*2.

(** ** Snapshots *)

(** [INSERT INTO runtime_snapshots ... ON CONFLICT DO UPDATE]. *)
Definition put_snapshot (kind id now : string) (body : Body) : TX () :=
  modify (λ db, db <| db_snapshots ::= <[(kind, id) := mkSnapshotRow body now]> |>).

Definition find_snapshot (kind id : string) (db : Database) : option Body :=
  sr_body <$> db_snapshots db !! (kind, id).

Definition load_snapshot {T} `{Stored T} (kind id : string) (db : Database)
    : outcome StorageError (option T) :=
  match find_snapshot kind id db with
  | None => Ok None
  | Some body => match of_body body with Some x => Ok (Some x) | None => Err JsonError end
  end.

(** The row is left alone, time stamp included, where the body is the same. *)
Definition save_snapshot_in_transaction {T} `{Stored T, EqDecision T} (kind id now : string) (x : T) : TX () :=
  db ← get;
  if bool_decide (find_snapshot kind id db ≫= of_body = Some x) then mret ()
  else put_snapshot kind id now (to_body x).

Section events.
Context `{Sqlite}.

Definition append (event : EventEnvelope) : ST () :=
  _ ← lift (validate_event event);
  transaction (λ _, insert_event event).

Definition after (sequence : N) (limit : nat) : ST (list EventEnvelope) :=
  _ ← lift (to_i64 sequence);
  query (λ db, Ok (take limit (events_after_sequence sequence db))).

Definition last_sequence : ST N := query (λ db, Ok (max_sequence db)).

Definition save_snapshot {T} `{Stored T} (kind id : string) (x : T) : ST () :=
  transaction (λ now, put_snapshot kind id now (to_body x)).

Definition save_projection_checkpoint (p : AppProjection) (last_sequence : N) : ST () :=
  save_snapshot PROJECTION_CHECKPOINT_KIND PROJECTION_CHECKPOINT_ID (mkProjectionCheckpoint p last_sequence).
Definition projection_checkpoint : ST (option ProjectionCheckpoint) :=
  query (load_snapshot PROJECTION_CHECKPOINT_KIND PROJECTION_CHECKPOINT_ID).

Definition save_scheduler_snapshot (profile_id : string) (x : Automation.SchedulerSnapshot) : ST () :=
  save_snapshot "automation-scheduler" profile_id x.
Definition scheduler_snapshot (profile_id : string) : ST (option Automation.SchedulerSnapshot) :=
  query (load_snapshot "automation-scheduler" profile_id).

Definition save_runtime_snapshot {T} `{Stored T} (kind id : string) (x : T) : ST () :=
  save_snapshot kind id x.
Definition runtime_snapshot {T} `{Stored T} (kind id : string) : ST (option T) :=
  query (load_snapshot kind id).
Definition runtime_snapshot_updated_at (kind id : string) : ST (option string) :=
  query (λ db, Ok (sr_updated_at <$> db_snapshots db !! (kind, id))).

Definition save_runtime_snapshot_and_event {T} `{Stored T} (kind id : string) (x : T)
    (event : EventEnvelope) : ST () :=
  _ ← lift (validate_event event);
  transaction (λ now, _ ← put_snapshot kind id now (to_body x); insert_event event).
End events.

(** ** Supervisor recovery checkpoints *)

Definition bare_checkpoint (snapshot : SupervisorSnapshot) (complete : bool) : SupervisorRecoveryCheckpoint :=
  mkSupervisorRecoveryCheckpoint snapshot 0 None [] [] complete.

Definition decode_supervisor_checkpoint (body : Body) : outcome StorageError SupervisorRecoveryCheckpoint :=
  match of_body (T := SupervisorRecoveryCheckpoint) body with
  | Some checkpoint => Ok checkpoint
  | None =>
    match of_body (T := SupervisorSnapshot) body with
    | Some snapshot => Ok (bare_checkpoint snapshot false)
    | None => Err JsonError
    end
  end.

Definition load_supervisor_checkpoint (id : string) (db : Database)
    : outcome StorageError (option SupervisorRecoveryCheckpoint) :=
  match find_snapshot SUPERVISOR_SNAPSHOT_KIND id db with
  | None => Ok None
  | Some body => c ← decode_supervisor_checkpoint body; Ok (Some c)
  end.

Section checkpoints.
Context `{Calendar} `{UuidText}.

Definition event_task_id (event : EventEnvelope) : option string :=
  match ev_task_id event with
  | Some id => Some id
  | None => match decode_payload event with inr v => get_str "task_id" v | inl _ => None end
  end.

Definition or_else {A} (a b : option A) : option A := match a with Some _ => a | None => b end.

Definition supervisor_activity (event : EventEnvelope) (payload : Value) : SupervisorActivityCheckpoint :=
  mkSupervisorActivityCheckpoint (ev_monotonic_sequence event) (ev_type event)
    (or_else (ev_goal_id event)
       (or_else (value_get "goal_id" payload)
          (or_else (value_get "id" payload) (pointer ["goal"; "id"] payload)) ≫= as_str))
    (or_else (ev_task_id event) (get_str "task_id" payload))
    (ev_wall_clock_timestamp event).

(** [retain(|pending| event_task_id(pending) != Some(task_id))] *)
Definition without_task (task_id : string) (events : list EventEnvelope) : list EventEnvelope :=
  filter (λ pending, event_task_id pending ≠ Some task_id) events.

Definition request_approval (event : EventEnvelope) (task_id : option string)
    (c : SupervisorRecoveryCheckpoint) : SupervisorRecoveryCheckpoint :=
  if bool_decide (ev_type event = "approval.requested") then
    match task_id with
    | Some task_id => c <| sc_pending_approval_events ::= λ l, without_task task_id l ++ [event] |>
    | None => c <| sc_replay_base_complete := false |>
    end
  else c.
Definition resolve_approval (event : EventEnvelope) (payload : Value) (task_id : option string)
    (c : SupervisorRecoveryCheckpoint) : SupervisorRecoveryCheckpoint :=
  if bool_decide (ev_type event = "approval.resolved") || bool_at "approval_resolved" false payload then
    match task_id with
    | Some task_id => c <| sc_pending_approval_events ::= without_task task_id |>
    | None => if bool_decide (ev_type event = "approval.resolved") then c <| sc_replay_base_complete := false |>
              else c
    end
  else c.
Definition resolve_approvals (payload : Value) (c : SupervisorRecoveryCheckpoint) : SupervisorRecoveryCheckpoint :=
  if (0 <? u64_at "approvals_resolved" payload)%N then c <| sc_pending_approval_events := [] |> else c.

(** The latest [SUPERVISOR_RECENT_EVENT_LIMIT] activities. *)
Definition push_activity (a : SupervisorActivityCheckpoint) (l : list SupervisorActivityCheckpoint)
    : list SupervisorActivityCheckpoint :=
  let l := l ++ [a] in
  if SUPERVISOR_RECENT_EVENT_LIMIT <? length l then drop (length l - SUPERVISOR_RECENT_EVENT_LIMIT) l else l.

Definition evolve_supervisor_checkpoint (previous : option SupervisorRecoveryCheckpoint)
    (snapshot : SupervisorSnapshot) (event : EventEnvelope)
    : outcome StorageError SupervisorRecoveryCheckpoint :=
  let c := default (bare_checkpoint snapshot (bool_decide (ev_type event = "goal.created"))) previous in
  let c := c <| sc_snapshot := snapshot |>
             <| sc_last_sequence := ev_monotonic_sequence event |>
             <| sc_latest_goal_event := Some event |> in
  match decode_payload event with
  | inl _ => Err JsonError
  | inr payload =>
    let task_id := get_str "task_id" payload in
    Ok ((resolve_approvals payload (resolve_approval event payload task_id (request_approval event task_id c)))
          <| sc_recent_activities ::= push_activity (supervisor_activity event payload) |>)
  end.

Definition goal_id_of (snapshot : SupervisorSnapshot) : string := uuid_to_string (tg_goal_id (ss_graph snapshot)).

(** The loop over the sorted events of one update; the flag tells whether an event was taken. *)
Fixpoint advance_checkpoint (snapshot : SupervisorSnapshot) (events : list EventEnvelope)
    (c : option SupervisorRecoveryCheckpoint) (advanced : bool)
    : outcome StorageError (option SupervisorRecoveryCheckpoint * bool) :=
  match events with
  | [] => Ok (c, advanced)
  | event :: events =>
    _ ← validate_event event;
    _ ← ensure_not (negb (bool_decide (ev_goal_id event = Some (goal_id_of snapshot))))
          (SupervisorGoalMismatch (default "<missing>" (ev_goal_id event)) (goal_id_of snapshot));
    if match c with Some c => (ev_monotonic_sequence event <=? sc_last_sequence c)%N | None => false end
    then advance_checkpoint snapshot events c advanced
    else
      c ← evolve_supervisor_checkpoint c snapshot event;
      advance_checkpoint snapshot events (Some c) true
  end.

Definition sequence_le (a b : EventEnvelope) : Prop := (ev_monotonic_sequence a <= ev_monotonic_sequence b)%N.
Global Instance sequence_le_dec : RelDecision sequence_le.
Proof. intros a b. unfold sequence_le. apply _. Defined.

Definition checkpoint_update (now : string) (update : SupervisorCheckpointUpdate) : TX () :=
  let id := goal_id_of (cu_snapshot update) in
  db ← get;
  c ← lift (load_supervisor_checkpoint id db);
  '(c, advanced) ← lift (advance_checkpoint (cu_snapshot update) (merge_sort sequence_le (cu_events update)) c false);
  let c := default (bare_checkpoint (cu_snapshot update) false) c in
  let c := if advanced || bool_decide (cu_events update = []) then c <| sc_snapshot := cu_snapshot update |> else c in
  put_snapshot SUPERVISOR_SNAPSHOT_KIND id now (to_body c).

Fixpoint checkpoint_updates (now : string) (updates : list SupervisorCheckpointUpdate) : TX () :=
  match updates with
  | [] => mret ()
  | update :: updates => _ ← checkpoint_update now update; checkpoint_updates now updates
  end.

Context `{Sqlite}.

Definition supervisor_recovery_checkpoint (goal_id : Uuid) : ST (option SupervisorRecoveryCheckpoint) :=
  query (load_supervisor_checkpoint (uuid_to_string goal_id)).
Definition supervisor_snapshot (goal_id : Uuid) : ST (option SupervisorSnapshot) :=
  c ← supervisor_recovery_checkpoint goal_id; mret (sc_snapshot <$> c).

(** [SELECT body_json ... WHERE kind=?1 ORDER BY id] *)
Definition snapshots_of_kind (kind : string) (db : Database) : list (string * SnapshotRow) :=
  merge_sort str_entry_le
    ((λ e : (string * string) * SnapshotRow, (e.1.2, e.2)) <$>
      filter (λ e : (string * string) * SnapshotRow, e.1.1 = kind) (map_to_list (db_snapshots db))).

Fixpoint collect {A B} (f : A → outcome StorageError B) (l : list A) : outcome StorageError (list B) :=
  match l with
  | [] => Ok []
  | x :: l => y ← f x; ys ← collect f l; Ok (y :: ys)
  end.

Definition supervisor_recovery_checkpoints : ST (list SupervisorRecoveryCheckpoint) :=
  query (λ db, collect (λ e : string * SnapshotRow, decode_supervisor_checkpoint (sr_body e.2))
                 (snapshots_of_kind SUPERVISOR_SNAPSHOT_KIND db)).

Definition save_supervisor_snapshot (snapshot : SupervisorSnapshot) : ST () :=
  c ← supervisor_recovery_checkpoint (tg_goal_id (ss_graph snapshot));
  save_snapshot SUPERVISOR_SNAPSHOT_KIND (goal_id_of snapshot)
    match c with
    | None => bare_checkpoint snapshot false
    | Some c => c <| sc_snapshot := snapshot |>
    end.

Definition save_supervisor_snapshot_and_event (snapshot : SupervisorSnapshot) (event : EventEnvelope) : ST () :=
  _ ← lift (validate_event event);
  transaction (λ now,
    db ← get;
    previous ← lift (load_supervisor_checkpoint (goal_id_of snapshot) db);
    c ← lift (evolve_supervisor_checkpoint previous snapshot event);
    _ ← put_snapshot SUPERVISOR_SNAPSHOT_KIND (goal_id_of snapshot) now (to_body c);
    insert_event event).

Definition save_supervisor_checkpoint_updates (updates : list SupervisorCheckpointUpdate) : ST () :=
  if bool_decide (updates = []) then mret ()
  else transaction (λ now, checkpoint_updates now updates).
End checkpoints.

(** ** Usage and egress rows *)

Record StoredUsageAggregate : Type := mkStoredUsageAggregate {
  su_provider_steps : N;
  su_input_tokens : N;
  su_output_tokens : N;
  su_reasoning_tokens : N;
  su_cache_read_tokens : N;
  su_cache_write_tokens : N;
  su_total_tokens : N;
  su_total_was_reported : bool;
  su_reported_cost_microusd : N;
  su_unknown_cost_steps : N;
  su_tool_calls : N;
  su_egress_events : N;
  su_known_egress_bytes : N;
  su_unknown_egress_sizes : N;
  su_providers : list string;
  su_models : list string;
}.
Global Instance StoredUsageAggregate_eta : Eta StoredUsageAggregate :=
  λ r, mkStoredUsageAggregate (su_provider_steps r) (su_input_tokens r) (su_output_tokens r)
    (su_reasoning_tokens r) (su_cache_read_tokens r) (su_cache_write_tokens r) (su_total_tokens r)
    (su_total_was_reported r) (su_reported_cost_microusd r) (su_unknown_cost_steps r)
    (su_tool_calls r) (su_egress_events r) (su_known_egress_bytes r) (su_unknown_egress_sizes r)
    (su_providers r) (su_models r).
Definition stored_default : StoredUsageAggregate :=
  mkStoredUsageAggregate 0 0 0 0 0 0 0 false 0 0 0 0 0 0 [] [].

Record StoredUsageAggregates : Type := mkStoredUsageAggregates {
  sg_turns : gmap string StoredUsageAggregate;
  sg_sessions : gmap string StoredUsageAggregate;
  sg_days : gmap string StoredUsageAggregate;
  sg_scopes : gmap string StoredUsageAggregate;
}.

Record UsagePageQuery : Type := mkUsagePageQuery {
  uq_limit : nat;
  uq_offset : nat;
  uq_from : option string;
  uq_to : option string;
  uq_provider : option string;
  uq_model : option string;
  uq_session : option string;
  uq_source : option string;
}.
Record StoredUsagePage : Type := mkStoredUsagePage {
  sp_usage_facts : list UsageFact;
  sp_egress : list EgressRecord;
  sp_usage_total : N;
  sp_egress_total : N;
}.

Definition insert_usage (profile_id : string) (fact : UsageFactWrite) : TX () :=
  db ← get;
  if existsb (λ r, bool_decide (uw_id r = fw_id fact)) (db_provider_usage db) then db_error Constraint
  else modify (λ db, db <| db_provider_usage ::= λ l,
         l ++ [mkUsageRow (fw_id fact) profile_id (fw_day fact) (fw_session_id fact) (fw_body fact)] |>).

(** [ON CONFLICT(id) DO NOTHING] *)
Definition stored_size (size : option N) : Z :=
  match size with None => -1 | Some n => Z.min i64_max (Z.of_N n) end.
Definition insert_egress (profile_id : string) (w : EgressWrite) : TX () :=
  modify (λ db,
    if existsb (λ r, bool_decide (ex_id r = ew_id w)) (db_egress db) then db
    else db <| db_egress ::= λ l, l ++ [mkEgressRow (ew_id w) profile_id (ew_destination w)
           (stored_size (ew_size_bytes w)) (ew_body w) (ew_day w) (ew_session_id w)] |>).

Fixpoint execute_all {A} (f : A → TX ()) (l : list A) : TX () :=
  match l with [] => mret () | x :: l => _ ← f x; execute_all f l end.

(** [SUM] of non-negative integers, read as an [i64]: a value or a total above the range makes
    the statement fail. *)
Definition nonnegative (z : Z) : N := Z.to_N z.
Definition sql_sum (l : list N) : outcome StorageError N :=
  let total := foldr N.add 0%N l in
  if (Z.of_N total <=? i64_max)%Z then Ok total else Err (DatabaseError ColumnRange).
Definition sql_count {A} (l : list A) : N := N.of_nat (length l).

(** [json_group_array(DISTINCT ...)] of the values that are not null. *)
Definition distinct (l : list (option string)) : list string := remove_dups (omap id l).

Definition is_kind (k : UsageFactKind) (f : UsageFact) : bool :=
  match k, uf_kind f with
  | ProviderFact, ProviderFact | ToolCallFact, ToolCallFact | TurnStarted, TurnStarted => true
  | _, _ => false
  end.

(** The result row of one group. *)
Definition grouped_row (facts : list UsageFact) : outcome StorageError StoredUsageAggregate :=
  let provider := filter (λ f, is_kind ProviderFact f = true) facts in
  let tokens (g : TokenUsage → N) := sql_sum ((λ f, from_option g 0%N (uf_tokens f)) <$> provider) in
  let microusd f := uf_cost f ≫= rc_microusd in
  input ← tokens tu_input;
  output ← tokens tu_output;
  reasoning ← tokens tu_reasoning;
  cache_read ← tokens tu_cache_read;
  cache_write ← tokens tu_cache_write;
  total ← tokens tu_total;
  cost ← sql_sum ((λ f, default 0%N (microusd f)) <$> provider);
  Ok (stored_default
    <| su_provider_steps := sql_count provider |>
    <| su_input_tokens := input |> <| su_output_tokens := output |> <| su_reasoning_tokens := reasoning |>
    <| su_cache_read_tokens := cache_read |> <| su_cache_write_tokens := cache_write |>
    <| su_total_tokens := total |>
    <| su_total_was_reported := if bool_decide (provider = []) then false
         else forallb (λ f, from_option tu_total_was_reported false (uf_tokens f)) provider |>
    <| su_reported_cost_microusd := cost |>
    <| su_unknown_cost_steps := sql_count (filter (λ f, microusd f = None) provider) |>
    <| su_tool_calls := sql_count (filter (λ f, is_kind ToolCallFact f = true) facts) |>
    <| su_providers := distinct (uf_provider_id <$> provider) |>
    <| su_models := distinct (uf_model_id <$> provider) |>).

(** [GROUP BY]: a row per distinct key. *)
Fixpoint group_rows {A} (row : list A → outcome StorageError StoredUsageAggregate) (key : A → option string)
    (rows : list A) (ks : list string) : outcome StorageError (gmap string StoredUsageAggregate) :=
  match ks with
  | [] => Ok ∅
  | k :: ks =>
    aggregate ← row (filter (λ r, key r = Some k) rows);
    m ← group_rows row key rows ks;
    Ok (<[k := aggregate]> m)
  end.
Definition group_by {A} (row : list A → outcome StorageError StoredUsageAggregate) (key : A → option string)
    (rows : list A) : outcome StorageError (gmap string StoredUsageAggregate) :=
  group_rows row key rows (distinct (key <$> rows)).

Definition usage_rows_of (profile_id : string) (from to : option string) (db : Database) : list UsageFact :=
  uw_body <$> filter (λ r, uw_profile_id r = profile_id ∧ day_in_range (uw_day r) from to = true)
                (db_provider_usage db).
Definition grouped_usage_facts (profile_id : string) (key : UsageFact → string) (from to : option string)
    (db : Database) : outcome StorageError (gmap string StoredUsageAggregate) :=
  group_by grouped_row (Some ∘ key)
    (filter (λ f, is_kind TurnStarted f = false) (usage_rows_of profile_id from to db)).

(** The result row of one group of egress rows, and its addition to the target. *)
Definition egress_row (rows : list EgressRow) : outcome StorageError StoredUsageAggregate :=
  known ← sql_sum ((λ r, nonnegative (ex_size_bytes r)) <$> rows);
  Ok (stored_default <| su_egress_events := sql_count rows |> <| su_known_egress_bytes := known |>
        <| su_unknown_egress_sizes := sql_count (filter (λ r, (ex_size_bytes r < 0)%Z) rows) |>).
Definition add_egress_row (a b : StoredUsageAggregate) : StoredUsageAggregate :=
  a <| su_egress_events ::= λ n, sat_add u64_max n (su_egress_events b) |>
    <| su_known_egress_bytes ::= λ n, sat_add u64_max n (su_known_egress_bytes b) |>
    <| su_unknown_egress_sizes ::= λ n, sat_add u64_max n (su_unknown_egress_sizes b) |>.
Definition egress_rows_of (profile_id : string) (from to : option string) (db : Database) : list EgressRow :=
  filter (λ r, ex_profile_id r = profile_id ∧ day_in_range (ex_day r) from to = true) (db_egress db).
Definition merge_egress_aggregates (profile_id : string) (key : EgressRow → option string)
    (from to : option string) (db : Database) (target : gmap string StoredUsageAggregate)
    : outcome StorageError (gmap string StoredUsageAggregate) :=
  groups ← group_by egress_row key (egress_rows_of profile_id from to db);
  Ok (foldl (λ (m : gmap string StoredUsageAggregate) (e : string * StoredUsageAggregate),
         <[e.1 := add_egress_row (default stored_default (m !! e.1)) e.2]> m) target (str_entries groups)).

Section usage.
Context `{Sqlite}.

Definition append_usage_event (event : EventEnvelope) (facts : list UsageFactWrite) (egress : list EgressWrite)
    : ST () :=
  _ ← lift (validate_event event);
  transaction (λ _,
    _ ← execute_all (insert_usage (ev_profile_id event)) facts;
    _ ← execute_all (insert_egress (ev_profile_id event)) egress;
    insert_event event).

Definition aggregates_of (profile_id : string) (from to : option string) (db : Database)
    : outcome StorageError StoredUsageAggregates :=
  turns ← grouped_usage_facts profile_id uf_turn_id from to db;
  sessions ← grouped_usage_facts profile_id uf_session_id from to db;
  days ← grouped_usage_facts profile_id uf_day_utc from to db;
  scopes ← grouped_usage_facts profile_id uf_scope_key from to db;
  days ← merge_egress_aggregates profile_id (λ r, Some (ex_day r)) from to db days;
  sessions ← merge_egress_aggregates profile_id ex_session_id from to db sessions;
  scopes ← merge_egress_aggregates profile_id (λ r, er_scope_key (ex_body r)) from to db scopes;
  Ok (mkStoredUsageAggregates turns sessions days scopes).
Definition usage_aggregates (profile_id : string) (from to : option string) : ST StoredUsageAggregates :=
  query (aggregates_of profile_id from to).

(** [instr(lower(x), lower(needle)) > 0], false for a null [x]. *)
Definition sql_instr (needle : option string) (x : option string) : bool :=
  match needle with
  | None => true
  | Some needle =>
    match x with
    | Some x => str_contains (to_ascii_lowercase x) (to_ascii_lowercase needle)
    | None => false
    end
  end.
Definition source_str (s : EgressSource) : string :=
  match s with Web => "web" | Mcp => "mcp" | Connector => "connector" end.

(** [ORDER BY day DESC, rowid DESC]: a stable sort of the rows, latest first. *)
Definition day_ge {A} (day : A → string) (a b : A) : Prop := str_le (day b) (day a).
Global Instance day_ge_dec {A} (day : A → string) : RelDecision (day_ge day).
Proof. intros a b. unfold day_ge. apply _. Defined.
Definition newest_first {A} (day : A → string) (l : list A) : list A := merge_sort (day_ge day) (reverse l).

Definition usage_matches (profile_id : string) (q : UsagePageQuery) (r : UsageRow) : bool :=
  bool_decide (uw_profile_id r = profile_id) && is_kind ProviderFact (uw_body r) &&
  day_in_range (uw_day r) (uq_from q) (uq_to q) &&
  sql_instr (uq_provider q) (Some (default "" (uf_provider_id (uw_body r)))) &&
  sql_instr (uq_model q) (Some (default "" (uf_model_id (uw_body r)))) &&
  sql_instr (uq_session q) (uw_session_id r).
Definition egress_matches (profile_id : string) (q : UsagePageQuery) (r : EgressRow) : bool :=
  bool_decide (ex_profile_id r = profile_id) && day_in_range (ex_day r) (uq_from q) (uq_to q) &&
  sql_instr (uq_session q) (Some (default "" (ex_session_id r))) &&
  match uq_source q with
  | None => true
  | Some source => bool_decide (to_ascii_lowercase (source_str (er_source (ex_body r))) = to_ascii_lowercase source)
  end.
Definition count_usage_rows (profile_id : string) (q : UsagePageQuery) (db : Database) : N :=
  sql_count (filter (λ r, usage_matches profile_id q r = true) (db_provider_usage db)).
Definition count_egress_rows (profile_id : string) (q : UsagePageQuery) (db : Database) : N :=
  sql_count (filter (λ r, egress_matches profile_id q r = true) (db_egress db)).
Definition usage_page (profile_id : string) (q : UsagePageQuery) : ST StoredUsagePage :=
  query (λ db,
    let page {A} (l : list A) := take (uq_limit q) (drop (uq_offset q) l) in
    Ok (mkStoredUsagePage
      (uw_body <$> page (newest_first uw_day (filter (λ r, usage_matches profile_id q r = true) (db_provider_usage db))))
      (ex_body <$> page (newest_first ex_day (filter (λ r, egress_matches profile_id q r = true) (db_egress db))))
      (count_usage_rows profile_id q db) (count_egress_rows profile_id q db))).

(** The latest [turn_started] row of each session. *)
Definition turn_rows (profile_id : string) (db : Database) : list UsageRow :=
  filter (λ r, uw_profile_id r = profile_id ∧ is_kind TurnStarted (uw_body r) = true) (db_provider_usage db).
Definition latest_turns (rows : list UsageRow) : list UsageFact :=
  omap (λ session, uw_body <$> last (filter (λ r, uw_session_id r = session) rows))
    (remove_dups (uw_session_id <$> rows)).
Definition usage_turn_contexts (profile_id : string) : ST (list UsageFact) :=
  query (λ db, Ok (latest_turns (turn_rows profile_id db))).

Definition egress_exists (profile_id id : string) : ST bool :=
  query (λ db, Ok (existsb (λ r, bool_decide (ex_profile_id r = profile_id) && bool_decide (ex_id r = id))
                     (db_egress db))).
End usage.

(** ** Memory rows *)

Definition embedding_model_default : EmbeddingModel :=
  mkEmbeddingModel E5_SMALL_INT8_MODEL_ID "614241f622f53c4eeff9890bdc4f31cfecc418b3" 384 "MIT".

Global Instance Memory_eq_dec : EqDecision Memory.
Proof. solve_decision. Defined.
Global Instance MemoryStorageRow_eq_dec : EqDecision MemoryStorageRow.
Proof. solve_decision. Defined.
Global Instance EmbeddingModel_eq_dec : EqDecision EmbeddingModel.
Proof. solve_decision. Defined.
Global Instance StylePreference_eq_dec : EqDecision StylePreference.
Proof. solve_decision. Defined.
Global Instance ProjectNode_eq_dec : EqDecision ProjectNode.
Proof. solve_decision. Defined.
Global Instance PersistentMemoryMetadata_eq_dec : EqDecision PersistentMemoryMetadata.
Proof. solve_decision. Defined.

(** The trust labels that rows of the store can have; rows of the legacy import have another. *)
Definition stored_trust : list string :=
  ["trusted_user"; "reviewed_inference"; "proposed_inference"; "background_observation"; "recalled"; "rejected"].

Definition memory_rows_of (profile_id : string) (db : Database) : gmap string MemoryRow :=
  filter (λ e : string * MemoryRow, mr_profile_id e.2 = profile_id ∧ mr_trust e.2 ∈ stored_trust) (db_memories db).

Definition delete_links (id : string) (db : Database) : Database :=
  db <| db_memory_links ::= filter (λ link : string * string, link.1 ≠ id) |>.

Section memory_rows.
Context `{UuidText}.

Definition row_key (row : MemoryStorageRow) : string := uuid_to_string (row_id row).

Definition delete_stale (profile_id id : string) (db : Database) : Database :=
  let db := delete_links id db in
  match db_memories db !! id with
  | Some r => if bool_decide (mr_profile_id r = profile_id) then db <| db_memories ::= delete id |> else db
  | None => db
  end.

Definition write_links (id : string) (row : MemoryStorageRow) (db : Database) : Database :=
  (delete_links id db) <| db_memory_links ::= λ links,
    links ∪ list_to_set ((id,.) <$> row_source_event_ids row) |>.

(** One row of the snapshot: unchanged, updated, or inserted, with its links. *)
Definition sync_row (profile_id : string) (existing : gmap string MemoryRow) (row : MemoryStorageRow) : TX () :=
  let id := row_key row in
  let stored := mkMemoryRow profile_id (trust_label row) (RowBody row) in
  match existing !! id with
  | Some old =>
    if bool_decide (mr_trust old = trust_label row) && match mr_body old with RowBody r => bool_decide (r = row) | _ => false end
    then mret ()
    else modify (λ db, write_links id row (db <| db_memories ::= <[id := stored]> |>))
  | None =>
    db ← get;
    match db_memories db !! id with
    | Some r => throw (MemoryProfileCollision id (mr_profile_id r) profile_id)
    | None => modify (λ db, write_links id row (db <| db_memories ::= <[id := stored]> |>))
    end
  end.

(** [collect::<BTreeMap<_, _>>()] by the text of the identifier. *)
Definition rows_by_key (rows : list MemoryStorageRow) : gmap string MemoryStorageRow :=
  foldl (λ m row, <[row_key row := row]> m) ∅ rows.

Definition sync_memory_rows (profile_id : string) (snapshot : MemoryStore) : TX () :=
  let rows := rows_by_key (storage_rows snapshot) in
  db ← get;
  let existing := memory_rows_of profile_id db in
  _ ← modify (λ db, foldl (λ db id, delete_stale profile_id id db) db
        (filter (λ id, rows !! id = None) (str_entries existing).*1));
  execute_all (sync_row profile_id existing) (str_entries rows).*2.

(** A stored row is checked against its columns and its links. *)
Definition check_row (links : gset (string * string)) (e : string * MemoryRow)
    : outcome StorageError MemoryStorageRow :=
  match mr_body e.2 with
  | ImportBody _ => Err JsonError
  | RowBody row =>
    _ ← ensure_not (negb (bool_decide (row_key row = e.1)) || negb (bool_decide (trust_label row = mr_trust e.2)))
          (MemoryRowMismatch e.1);
    _ ← ensure_not (negb (bool_decide ((set_map snd (filter (λ l : string * string, l.1 = e.1) links) : gset string)
                                        = list_to_set (row_source_event_ids row))))
          (MemoryLinksMismatch e.1);
    Ok row
  end.

Definition load_memory_store (profile_id : string) (db : Database) : outcome StorageError (option MemoryStore) :=
  model ← load_snapshot (T := EmbeddingModel) MEMORY_MODEL_KIND profile_id db;
  let stored := str_entries (memory_rows_of profile_id db) in
  match model, stored with
  | None, [] => Ok None
  | _, _ =>
    rows ← collect (check_row (db_memory_links db)) stored;
    match from_storage_rows (default embedding_model_default model) rows with
    | Ok store => Ok (Some store)
    | Err e => Err (MemoryRowError e)
    | Panic => Panic
    end
  end.

Definition delete_snapshot (kind id : string) (db : Database) : Database :=
  db <| db_snapshots ::= delete (kind, id) |>.

Context `{Sqlite}.

Definition save_memory_snapshot (profile_id : string) (snapshot : MemoryStore) : ST () :=
  transaction (λ now,
    _ ← sync_memory_rows profile_id snapshot;
    _ ← save_snapshot_in_transaction MEMORY_MODEL_KIND profile_id now (ms_embedding_model snapshot);
    modify (delete_snapshot LEGACY_MEMORY_INDEX_KIND profile_id)).

Definition memory_snapshot (profile_id : string) : ST (option MemoryStore) :=
  query (load_memory_store profile_id).

Definition save_persistent_memory_snapshot (profile_id : string) (snapshot : PersistentMemory) : ST () :=
  transaction (λ now,
    _ ← sync_memory_rows profile_id (pm_store snapshot);
    _ ← save_snapshot_in_transaction MEMORY_MODEL_KIND profile_id now (ms_embedding_model (pm_store snapshot));
    _ ← save_snapshot_in_transaction MEMORY_SYSTEM_METADATA_KIND profile_id now (storage_metadata snapshot);
    modify (λ db, delete_snapshot LEGACY_MEMORY_SYSTEM_KIND profile_id
                    (delete_snapshot LEGACY_MEMORY_INDEX_KIND profile_id db))).

Definition persistent_memory_snapshot (profile_id : string) : ST (option PersistentMemory) :=
  metadata ← query (load_snapshot (T := PersistentMemoryMetadata) MEMORY_SYSTEM_METADATA_KIND profile_id);
  match metadata with
  | None => mret None
  | Some metadata =>
    store ← query (load_memory_store profile_id);
    mret (Some (from_storage_parts (default (store_new embedding_model_default) store) metadata))
  end.
End memory_rows.

(** ** Blobs and migration reports *)

Section blobs.
Context `{Sqlite} `{Sha256}.

Definition store_blob (body : list N) : ST string :=
  let hash := hex (sha256 body) in
  _ ← transaction (λ _, modify (λ db, db <| db_blobs ::= λ m,
        match m !! hash with Some _ => m | None => <[hash := body]> m end |>));
  mret hash.

Definition blob (hash : string) : ST (list N) :=
  query (λ db, match db_blobs db !! hash with Some b => Ok b | None => Err (BlobMissing hash) end).
End blobs.

(** The columns of a report that are stored, with its text. *)
Definition record_migration_report `{Sqlite} (run_id fingerprint body : string) : ST () :=
  transaction (λ _,
    db ← get;
    match db_migration_runs db !! run_id with
    | Some _ => db_error Constraint
    | None => modify (λ db, db <| db_migration_runs ::= <[run_id := (fingerprint, body)]> |>)
    end).

(** ** The sink of the legacy import *)

(** [INSERT INTO table] with a primary key. *)
Definition insert_row `{Countable K} {V} (k : K) (v : V) (m : gmap K V) : option (gmap K V) :=
  match m !! k with Some _ => None | None => Some (<[k := v]> m) end.
Definition or_constraint (f : Database → option Database) : TX () :=
  db ← get; match f db with Some db => modify (λ _, db) | None => db_error Constraint end.

Section sink.
(** The value that the bytes of a payload encode. *)
Context (json_of : string → Value).

Definition imported_event (record : PreparedRecord) (sequence : N) : EventEnvelope :=
  mkEventEnvelope EVENT_SCHEMA_VERSION (pr_id record)
    (default "1970-01-01T00:00:00+00:00" (pr_source_modified_at record)) sequence "legacy-migration" "default"
    None None None None "conversation.legacy-imported" (json_of (pr_payload record)).

Definition optional_text (o : option string) : Value := match o with Some s => VString s | None => VNull end.

Definition materialize_migration_record (record : PreparedRecord) : TX () :=
  let among (l : list string) := bool_decide (pr_kind record ∈ l) in
  if among ["history-event"] then
    db ← get;
    if (Z.of_N (max_sequence db) =? i64_max)%Z then throw (SequenceOutOfRange u64_max)
    else insert_event (imported_event record (max_sequence db + 1))
  else if among ["memory"] then
    let body := object_of [("origin", VString "legacy-migration"); ("source_locator", VString (pr_source_locator record));
      ("source_modified_at", optional_text (pr_source_modified_at record));
      ("content_sha256", VString (pr_content_sha256 record)); ("markdown", VString (pr_payload record))] in
    or_constraint (λ db, m ← insert_row (pr_id record) (mkMemoryRow "default" "legacy-imported" (ImportBody body)) (db_memories db);
      Some (db <| db_memories := m |>))
  else if among ["automation"] then
    or_constraint (λ db, m ← insert_row (pr_id record) (pr_payload record) (db_automations db);
      Some (db <| db_automations := m |>))
  else if among ["connector-metadata"] then
    or_constraint (λ db, m ← insert_row (pr_id record) (pr_payload record) (db_connectors db);
      Some (db <| db_connectors := m |>))
  else if among ["settings"; "conversation-state"; "projects"; "remote-device-metadata"] then
    or_constraint (λ db, m ← insert_row ("default", "migration:" +:+ pr_destination record +:+ ":" +:+ pr_id record)
                           (pr_payload record) (db_settings db);
      Some (db <| db_settings := m |>))
  else if among ["skill-file"; "expert-file"; "theme"] then
    let body := object_of [("origin", VString "legacy-migration"); ("migration_item_id", VString (pr_id record));
      ("source_locator", VString (pr_source_locator record)); ("destination", VString (pr_destination record));
      ("enabled", VBool false)] in
    or_constraint (λ db, m ← insert_row (pr_id record) (pr_content_sha256 record, body) (db_artifacts db);
      Some (db <| db_artifacts := m |>))
  else mret ().

Context `{Sqlite}.

Definition contains_record (record_id : string) : ST bool :=
  query (λ db, Ok (bool_decide (is_Some (db_migration_items db !! record_id)))).

Definition store_record (record : PreparedRecord) : ST () :=
  transaction (λ _,
    _ ← or_constraint (λ db, m ← insert_row (pr_id record) record (db_migration_items db);
          Some (db <| db_migration_items := m |>));
    materialize_migration_record record).
End sink.

(** ** Opening and migrating *)

Definition database_schema_version (db : Database) : Z :=
  if (db_user_version db =? 0)%Z then
    match db_schema_migrations db with
    | None => 0
    | Some versions => foldr Z.max 0%Z (elements versions)
    end
  else db_user_version db.

Definition add_version (v : Z) (db : Database) : Database :=
  db <| db_schema_migrations ::= λ o, Some (default ∅ o ∪ {[v]}) |>.
(** [INSERT INTO schema_migrations]: the version is the primary key. *)
Definition insert_version (v : Z) : TX () :=
  or_constraint (λ db, if bool_decide (v ∈ default ∅ (db_schema_migrations db)) then None else Some (add_version v db)).
Definition set_user_version (v : Z) : TX () := modify (λ db, db <| db_user_version := v |>).

(** [CREATE TABLE IF NOT EXISTS] and [INSERT OR IGNORE]. *)
Definition migrate_to_v4 : TX () := modify (add_version BASELINE_SCHEMA_VERSION).

(** The new columns have their defaults in the old rows. *)
Definition migrate_to_v5 : TX () :=
  _ ← modify (λ db, db
        <| db_provider_usage ::= fmap (λ r, mkUsageRow (uw_id r) (uw_profile_id r) "" None (uw_body r)) |>
        <| db_egress ::= fmap (λ r, mkEgressRow (ex_id r) (ex_profile_id r) (ex_destination r)
                                      (ex_size_bytes r) (ex_body r) "" None) |>);
  insert_version 5.

Section opening.
Context `{UuidText}.

Definition legacy_system (now : string) (e : string * SnapshotRow) : TX (string * (string * MemoryStore)) :=
  match of_body (T := PersistentMemory) (sr_body e.2) with
  | None => throw JsonError
  | Some system =>
    let '(store, metadata) := into_storage_parts system in
    _ ← save_snapshot_in_transaction MEMORY_SYSTEM_METADATA_KIND e.1 now metadata;
    mret (e.1, (sr_updated_at e.2, store))
  end.
Fixpoint legacy_systems (now : string) (l : list (string * SnapshotRow)) (stores : gmap string (string * MemoryStore))
    : TX (gmap string (string * MemoryStore)) :=
  match l with
  | [] => mret stores
  | e :: l => '(profile, store) ← legacy_system now e; legacy_systems now l (<[profile := store]> stores)
  end.
(** An index replaces the store of the system snapshot unless it is older. *)
Fixpoint legacy_indexes (l : list (string * SnapshotRow)) (stores : gmap string (string * MemoryStore))
    : TX (gmap string (string * MemoryStore)) :=
  match l with
  | [] => mret stores
  | e :: l =>
    match of_body (T := MemoryStore) (sr_body e.2) with
    | None => throw JsonError
    | Some store =>
      let replace := match stores !! e.1 with
        | None => true
        | Some (stored_at, _) => bool_decide (str_le stored_at (sr_updated_at e.2))
        end in
      legacy_indexes l (if replace then <[e.1 := (sr_updated_at e.2, store)]> stores else stores)
    end
  end.
Definition write_legacy_store (now : string) (e : string * (string * MemoryStore)) : TX () :=
  _ ← sync_memory_rows e.1 e.2.2;
  save_snapshot_in_transaction MEMORY_MODEL_KIND e.1 now (ms_embedding_model e.2.2).

Definition migrate_legacy_memory_snapshots (now : string) : TX () :=
  db ← get;
  stores ← legacy_systems now (snapshots_of_kind LEGACY_MEMORY_SYSTEM_KIND db) ∅;
  stores ← legacy_indexes (snapshots_of_kind LEGACY_MEMORY_INDEX_KIND db) stores;
  _ ← execute_all (write_legacy_store now) (str_entries stores);
  modify (λ db, db <| db_snapshots ::= filter (λ e : (string * string) * SnapshotRow,
    e.1.1 ≠ LEGACY_MEMORY_INDEX_KIND ∧ e.1.1 ≠ LEGACY_MEMORY_SYSTEM_KIND) |>).

Definition migrate_to_v6 (now : string) : TX () :=
  _ ← migrate_legacy_memory_snapshots now;
  insert_version SCHEMA_VERSION.

(** The steps of the transaction from a version on. *)
Definition migration_steps (now : string) (version : Z) : TX () :=
  _ ← (if (version =? 0)%Z then _ ← migrate_to_v4; set_user_version BASELINE_SCHEMA_VERSION else mret ());
  let version := if (version =? 0)%Z then BASELINE_SCHEMA_VERSION else version in
  _ ← (if (version <? 5)%Z then _ ← migrate_to_v5; set_user_version 5 else mret ());
  if (version <? 6)%Z then _ ← migrate_to_v6 now; set_user_version 6 else mret ().

(** The database file with its key, and the backups next to it. *)
Record Disk : Type := mkDisk {
  dk_file : option (string * Database);
  dk_backups : gmap string Database;
}.

Definition migration_backup_path (path : string) (from to : Z) : string :=
  path +:+ ".pre-v" +:+ pretty from +:+ "-to-v" +:+ pretty to +:+ ".backup".

(** A call of the connection before a store exists; [n] counts the calls. *)
Context `{Sqlite}.

Definition migrate (path : string) (existed : bool) (key : string) (db : Database) (n : N)
    : M Disk StorageError (Database * N) :=
  _ ← reject_if (failing n) (DatabaseError DbFailure);
  let version := database_schema_version db in
  _ ← reject_if (SCHEMA_VERSION <? version)%Z (DowngradeRefused version SCHEMA_VERSION);
  _ ← reject_if (negb (version =? 0)%Z && (version <? BASELINE_SCHEMA_VERSION)%Z) (UnsupportedDatabaseSchema version);
  if (version =? SCHEMA_VERSION)%Z then mret (db, n + 1)%N
  else
    _ ← (if (BASELINE_SCHEMA_VERSION <=? version)%Z then
           if existed then
             let backup := migration_backup_path path version SCHEMA_VERSION in
             d ← get;
             _ ← reject_if (bool_decide (is_Some (dk_backups d !! backup))) (DestinationExists backup);
             (** the file is created before its content is copied *)
             _ ← modify (λ d, mkDisk (dk_file d) (<[backup := database_empty]> (dk_backups d)));
             _ ← reject_if (failing (n + 1)%N) (DatabaseError DbFailure);
             modify (λ d, mkDisk (dk_file d) (<[backup := db]> (dk_backups d)))
           else throw (MigrationBackupRequired version)
         else mret ());
    match migration_steps (sql_now (n + 2)%N) version db with
    | (Ok _, db) =>
      _ ← reject_if (failing (n + 2)%N) (DatabaseError DbFailure);
      _ ← modify (λ d, mkDisk (Some (key, db)) (dk_backups d));
      mret (db, n + 3)%N
    | (Err e, _) => throw e
    | (Panic, _) => panic
    end.

(** [EventStore::open]: a database opens only with the key it was created with. *)
Definition open_store (path key : string) (cipher_available : bool) : M Disk StorageError EventStore :=
  d ← get;
  _ ← reject_if (negb cipher_available) SqlCipherUnavailable;
  match dk_file d with
  | Some (stored_key, db) =>
    _ ← reject_if (negb (bool_decide (stored_key = key))) (DatabaseError NotADatabase);
    '(db, n) ← migrate path true key db 0;
    mret (mkEventStore db n)
  | None =>
    '(db, n) ← migrate path false key database_empty 0;
    mret (mkEventStore db n)
  end.
End opening.
