(* ===== verification/StorageSpec.v ===== *)
(** * The encrypted event store: theorems

    A failed operation leaves the database as it was; debounced supervisor checkpoints are the
    checkpoints of immediate writes and never go back; saved memories load back; and an
    interrupted schema migration blocks the next one. *)

From stdpp Require Import base gmap strings list sorting pretty.
From S2P Require Automation.
From S2P Require UsageSpec.
From S2P Require Import Prelude Text Contracts Policy TaskGraph Supervisor Plugins Memory MemorySpec MemoryStorage Usage.
From S2P Require Import CoreProjection Storage.

(** ** Computations that keep a relation *)

Section stays.
Context {S E : Type} (R : relation S) `{!PreOrder R}.

Definition stays {A} (m : M S E A) : Prop := ∀ s, R s (m s).2.

Lemma stays_bind {A B} (m : M S E A) (k : A → M S E B) :
  stays m → (∀ a, stays (k a)) → stays (m ≫= k).
Proof.
  intros Hm Hk s. unfold mbind, M_bind. specialize (Hm s). destruct (m s) as [[a|e|] s']; simpl in *; [|done..].
  etrans; [exact Hm|apply Hk].
Qed.
Lemma stays_ret {A} (a : A) : stays (mret a).
Proof. intros s. simpl. reflexivity. Qed.
Lemma stays_get : stays get.
Proof. intros s. simpl. reflexivity. Qed.
Lemma stays_throw {A} (e : E) : stays (throw (A := A) e).
Proof. intros s. simpl. reflexivity. Qed.
Lemma stays_panic {A} : stays (panic (A := A)).
Proof. intros s. simpl. reflexivity. Qed.
Lemma stays_lift {A} (o : outcome E A) : stays (lift o).
Proof. intros s. simpl. reflexivity. Qed.
Lemma stays_reject (b : bool) (e : E) : stays (reject_if b e).
Proof. intros s. destruct b; simpl; reflexivity. Qed.
Lemma stays_modify (f : S → S) : (∀ s, R s (f s)) → stays (modify f).
Proof. intros Hf s. apply Hf. Qed.
End stays.

(** Reduce a claim about a method to its changes of the state. *)
Ltac stay :=
  repeat first
    [ progress intros
    | simple apply stays_bind
    | simple apply stays_ret | simple apply stays_get | simple apply stays_throw | simple apply stays_panic | simple apply stays_lift
    | simple apply stays_reject
    | simple apply stays_modify
    | match goal with
      | |- PreOrder _ => apply _
      | |- stays _ (if ?b then _ else _) => destruct b
      | |- stays _ (match ?x with _ => _ end) => destruct x
      end ].

Lemma stays_execute_all {A} (R : relation Database) `{!PreOrder R} (f : A → TX ()) l :
  (∀ x, stays R (f x)) → stays R (execute_all f l).
Proof. intros Hf. induction l as [|x l IH]; simpl; stay; [apply Hf|done]. Qed.

(** ** Transactions *)

Section transactions.
Context `{Sqlite}.

(** The database after a transaction is the one of its body, or the one before. *)
Lemma transaction_db {A} (body : string → TX A) s r s' :
  transaction body s = (r, s') →
  (es_db s' = es_db s ∧ is_ok r = false) ∨
  ∃ a now, r = Ok a ∧ body now (es_db s) = (Ok a, es_db s').
Proof.
  unfold transaction, call. munfold. destruct (failing (es_calls s)); simpl; [intros; simplify_eq; by left|].
  destruct (body _ _) as [[a|e|] db] eqn:Hb; [|intros; simplify_eq; by left..].
  simpl. destruct (failing (es_calls s + 1)); simpl; intros; simplify_eq/=; [by left|right; eauto].
Qed.

Lemma transaction_stays {A} (R : relation Database) `{!PreOrder R} (body : string → TX A) s r s' :
  (∀ now, stays R (body now)) → transaction body s = (r, s') → R (es_db s) (es_db s').
Proof.
  intros Hb [[-> _]|(a & now & -> & Hrun)]%transaction_db; [reflexivity|].
  specialize (Hb now (es_db s)). by rewrite Hrun in Hb.
Qed.

Lemma query_db {A} (f : Database → outcome StorageError A) s r s' :
  query f s = (r, s') → es_db s' = es_db s ∧ (r = Err (DatabaseError DbFailure) ∨ r = f (es_db s)).
Proof. unfold query, call. munfold. intros Hq. repeat case_match; simplify_eq/=; auto. Qed.

Lemma query_fine {A} (f : Database → outcome StorageError A) s :
  (∀ n, failing n = false) → query f s = (f (es_db s), mkEventStore (es_db s) (es_calls s + 1)).
Proof. intros Hf. unfold query, call. munfold. by rewrite Hf. Qed.
End transactions.

(** ** Memory rows *)

Section memory_rows.
Context `{UuidText}.
Implicit Types db : Database.

Definition links_of db (id : string) : gset string :=
  set_map snd (filter (λ l : string * string, l.1 = id) (db_memory_links db)).

(** A row of the store has its key, its label and its links; a row of the legacy import is apart. *)
Definition row_kept db (id : string) (r : MemoryRow) : Prop :=
  match mr_body r with
  | RowBody row =>
    row_key row = id ∧ mr_trust r = trust_label row ∧ links_of db id = list_to_set (row_source_event_ids row)
  | ImportBody _ => mr_trust r ∉ stored_trust
  end.
Definition memories_ok db : Prop := ∀ id r, db_memories db !! id = Some r → row_kept db id r.

Lemma memories_ok_empty : memories_ok database_empty.
Proof. by intros id r. Qed.

Definition stored_row (profile_id : string) (row : MemoryStorageRow) : MemoryRow :=
  mkMemoryRow profile_id (trust_label row) (RowBody row).

Lemma stored_row_trust row : trust_label row ∈ stored_trust.
Proof. unfold trust_label, stored_trust. destruct row as [m ? ?|]; [destruct (m_trust m)|]; set_solver. Qed.

Lemma elem_of_links_of db id x : x ∈ links_of db id ↔ (id, x) ∈ db_memory_links db.
Proof.
  unfold links_of. rewrite elem_of_map. split.
  - intros ([id' y] & -> & [Heq Hin]%elem_of_filter). simpl in *. by subst.
  - intros Hin. exists (id, x). split; [done|]. by apply elem_of_filter.
Qed.
Lemma links_of_delete id id' db : links_of (delete_links id db) id' = if decide (id' = id) then ∅ else links_of db id'.
Proof.
  apply set_eq. intros x. rewrite elem_of_links_of. unfold delete_links. simpl. rewrite elem_of_filter. simpl.
  case_decide; [set_solver|]. rewrite elem_of_links_of. tauto.
Qed.
Lemma links_of_write id row id' db :
  links_of (write_links id row db) id' =
  if decide (id' = id) then list_to_set (row_source_event_ids row) else links_of db id'.
Proof.
  apply set_eq. intros x. pose proof (links_of_delete id id' db) as Hd. rewrite set_eq in Hd. specialize (Hd x).
  rewrite elem_of_links_of in Hd |- *. unfold write_links. simpl. rewrite elem_of_union, elem_of_list_to_set, list_elem_of_fmap.
  simpl in Hd. case_decide as Heq; [subst|].
  - rewrite elem_of_list_to_set. split; [|by right; exists x]. intros [?|(y & [= ->] & ?)]; [set_solver|done].
  - rewrite <- Hd. split; [|by left]. intros [?|(y & [= ? ->] & _)]; done.
Qed.

(** Deleting the rows that the snapshot no longer has. *)
Lemma delete_stale_all profile_id ids db :
  (∀ id r, id ∈ ids → db_memories db !! id = Some r → mr_profile_id r = profile_id) →
  let db' := foldl (λ db id, delete_stale profile_id id db) db ids in
  (∀ id, db_memories db' !! id = if decide (id ∈ ids) then None else db_memories db !! id) ∧
  (∀ id, id ∉ ids → links_of db' id = links_of db id) ∧ db_snapshots db' = db_snapshots db.
Proof.
  revert db. induction ids as [|i ids IH]; intros db Hin; simpl; [by split_and!|].
  assert (∀ id, db_memories (delete_stale profile_id i db) !! id = if decide (id = i) then None else db_memories db !! id) as Hm.
  { intros id. unfold delete_stale. simpl. destruct (db_memories db !! i) as [r|] eqn:Hi; [|case_decide; by subst].
    rewrite bool_decide_true by (apply (Hin i r); [by left|done]). simpl.
    case_decide; [subst; apply lookup_delete_eq|by apply lookup_delete_ne]. }
  assert (∀ id, id ≠ i → links_of (delete_stale profile_id i db) id = links_of db id) as Hl.
  { intros id Hid. transitivity (links_of (delete_links i db) id); [|by rewrite links_of_delete, decide_False].
    unfold delete_stale. by repeat case_match. }
  assert (db_snapshots (delete_stale profile_id i db) = db_snapshots db) as Hs
    by (unfold delete_stale; by repeat case_match).
  destruct (IH (delete_stale profile_id i db)) as (IH1 & IH2 & IH3).
  { intros id r Hid. rewrite Hm. case_decide; [done|]. apply Hin. by right. }
  split_and!; [| |by rewrite IH3].
  - intros id. rewrite IH1, Hm. repeat case_decide; set_solver.
  - intros id Hid. rewrite IH2, Hl; set_solver.
Qed.

Lemma memories_ok_kept db db' :
  memories_ok db → (∀ id r, db_memories db' !! id = Some r → db_memories db !! id = Some r ∧ links_of db' id = links_of db id) →
  memories_ok db'.
Proof. intros Hok Hk id r [Hr Hl]%Hk. specialize (Hok id r Hr). unfold row_kept in *. by rewrite Hl. Qed.

(** Writing one row. *)
Lemma sync_row_spec profile_id existing row db u db' :
  memories_ok db →
  (∀ old, existing !! row_key row = Some old → db_memories db !! row_key row = Some old ∧ mr_profile_id old = profile_id) →
  sync_row profile_id existing row db = (Ok u, db') →
  memories_ok db' ∧ db_memories db' = <[row_key row := stored_row profile_id row]> (db_memories db) ∧
  (∀ id, id ≠ row_key row → links_of db' id = links_of db id) ∧ db_snapshots db' = db_snapshots db ∧
  (existing !! row_key row = None → db_memories db !! row_key row = None).
Proof.
  intros Hok Hex.
  assert (let db1 := write_links (row_key row) row (db <| db_memories ::= <[row_key row := stored_row profile_id row]> |>) in
    memories_ok db1 ∧ db_memories db1 = <[row_key row := stored_row profile_id row]> (db_memories db) ∧
    (∀ id, id ≠ row_key row → links_of db1 id = links_of db id) ∧ db_snapshots db1 = db_snapshots db) as Hw.
  { intros db1. assert (∀ id, id ≠ row_key row → links_of db1 id = links_of db id) as Hl.
    { intros id Hid. unfold db1. by rewrite links_of_write, decide_False. }
    split_and!; [|done..]. intros id r. unfold db1. simpl. rewrite lookup_insert_Some. intros [[<- <-]|[Hne Hr]].
    - simpl. split_and!; [done..|]. by rewrite links_of_write, decide_True.
    - specialize (Hok id r Hr). unfold row_kept in *. by rewrite <- (Hl id) in Hok. }
  unfold sync_row. fold (stored_row profile_id row). destruct (existing !! row_key row) as [old|] eqn:He.
  - destruct (Hex old eq_refl) as [Hold Hprof]. destruct (_ && _) eqn:Hsame.
    + intros [= _ <-]. apply andb_true_iff in Hsame as [Ht%bool_decide_eq_true Hb].
      destruct old as [p t [row'|]]; simpl in *; [|done]. apply bool_decide_eq_true in Hb. subst.
      split_and!; [done| |done..]. by rewrite insert_id.
    + unfold modify. intros [= _ <-]. destruct Hw as (? & ? & ? & ?). by split_and!.
  - munfold. destruct (db_memories db !! row_key row) eqn:Hn; [done|]. intros [= _ <-].
    destruct Hw as (? & ? & ? & ?). by split_and!.
Qed.

(** Writing rows with different keys. *)
Definition keyed (rows : list MemoryStorageRow) : list (string * MemoryStorageRow) := (λ row, (row_key row, row)) <$> rows.

Lemma sync_rows_spec profile_id existing rows db u db' :
  memories_ok db → NoDup (row_key <$> rows) →
  (∀ row old, row ∈ rows → existing !! row_key row = Some old →
     db_memories db !! row_key row = Some old ∧ mr_profile_id old = profile_id) →
  execute_all (sync_row profile_id existing) rows db = (Ok u, db') →
  memories_ok db' ∧
  db_memories db' = (stored_row profile_id <$> (list_to_map (keyed rows) : gmap string MemoryStorageRow)) ∪ db_memories db ∧
  (∀ id, id ∉ row_key <$> rows → links_of db' id = links_of db id) ∧ db_snapshots db' = db_snapshots db ∧
  (∀ row, row ∈ rows → existing !! row_key row = None → db_memories db !! row_key row = None).
Proof.
  revert db. induction rows as [|row rows IH]; intros db Hok Hnd Hex.
  { intros [= _ <-]. simpl. rewrite fmap_empty, (left_id_L ∅ (∪)). split_and!; [done..|]. by intros row ?%elem_of_nil. }
  simpl in Hnd. apply NoDup_cons in Hnd as [Hnot Hnd]. cbn [execute_all]. unfold mbind, M_bind.
  destruct (sync_row profile_id existing row db) as [[v| |] db1] eqn:Hrow; [|done..].
  apply sync_row_spec in Hrow as (Hok1 & Hm1 & Hl1 & Hs1 & Hnew1); [|done|intros old; apply Hex; by left].
  assert (∀ x, x ∈ rows → row_key x ≠ row_key row) as Hne.
  { intros x Hx Heq. apply Hnot. rewrite <- Heq. by apply list_elem_of_fmap_2. }
  intros Hrun. apply IH in Hrun as (Hok2 & Hm2 & Hl2 & Hs2 & Hnew2); [|done|done|].
  2: { intros x old Hx Ho. rewrite Hm1, lookup_insert_ne by (intros ?; by eapply Hne). apply Hex; [by right|done]. }
  split_and!; [done| | |by rewrite Hs2|].
  - rewrite Hm2, Hm1. unfold keyed. simpl. rewrite fmap_insert, <- insert_union_l, <- insert_union_r; [done|].
    rewrite lookup_fmap. apply fmap_None, not_elem_of_list_to_map. unfold keyed. by rewrite <- list_fmap_compose.
  - intros id [Hid1 Hid2]%not_elem_of_cons. by rewrite Hl2, Hl1.
  - intros x [->|Hx]%elem_of_cons Ho; [by apply Hnew1|]. specialize (Hnew2 x Hx Ho).
    by rewrite Hm1, lookup_insert_ne in Hnew2 by (intros ?; by eapply Hne).
Qed.

(** The rows by the text of their identifiers. *)
Lemma rows_by_key_map rows :
  NoDup (row_key <$> rows) → rows_by_key rows = list_to_map (keyed rows).
Proof.
  intros Hnd. unfold rows_by_key.
  assert (∀ m : gmap string MemoryStorageRow,
    foldl (λ m row, <[row_key row := row]> m) m rows = list_to_map (keyed rows) ∪ m) as Hfold.
  { induction rows as [|row rows IH]; intros m; simpl; [by rewrite (left_id_L ∅ (∪))|].
    simpl in Hnd. apply NoDup_cons in Hnd as [Hnot Hnd]. rewrite IH by done.
    rewrite <- insert_union_l, <- insert_union_r; [done|]. apply not_elem_of_list_to_map. unfold keyed.
    by rewrite <- list_fmap_compose. }
  by rewrite Hfold, (right_id_L ∅ (∪)).
Qed.

(** Identifiers have 128 bits. *)
Definition ids_fit (s : MemoryStore) : Prop := Forall (λ row, (row_id row < 2 ^ 128)%N) (storage_rows s).

Lemma row_keys_unique s :
  StoreOk s → ids_fit s → NoDup (row_key <$> storage_rows s).
Proof.
  intros Hok Hids. pose proof (storage_rows_unique s Hok) as Hnd. pose proof (NoDup_fmap_1 _ _ Hnd) as Hnd'.
  apply NoDup_fmap_2_strong; [|done]. intros a b Ha Hb Heq. unfold ids_fit in Hids. rewrite Forall_forall in Hids.
  apply uuid_to_string_inj in Heq; [|auto..].
  pose proof (row_at_Some _ _ Hnd Ha) as H1. rewrite Heq, (row_at_Some _ _ Hnd Hb) in H1. by injection H1.
Qed.

Lemma keyed_values rows : NoDup (row_key <$> rows) →
  (str_entries (list_to_map (keyed rows) : gmap string MemoryStorageRow)).*2 ≡ₚ rows.
Proof.
  intros Hnd. unfold str_entries. rewrite merge_sort_Permutation, map_to_list_to_map.
  - unfold keyed. rewrite <- list_fmap_compose. simpl. by rewrite list_fmap_id.
  - unfold keyed. by rewrite <- list_fmap_compose.
Qed.

Lemma lookup_rows_of profile_id db id r :
  memory_rows_of profile_id db !! id = Some r ↔
  db_memories db !! id = Some r ∧ mr_profile_id r = profile_id ∧ mr_trust r ∈ stored_trust.
Proof. unfold memory_rows_of. rewrite map_lookup_filter_Some. done. Qed.

(** The rows of a profile after its snapshot is written; those of other profiles are the same. *)
Lemma sync_memory_spec profile_id s db u db' :
  StoreOk s → ids_fit s → memories_ok db →
  sync_memory_rows profile_id s db = (Ok u, db') →
  memories_ok db' ∧
  memory_rows_of profile_id db' = stored_row profile_id <$> (list_to_map (keyed (storage_rows s)) : gmap string _) ∧
  db_snapshots db' = db_snapshots db ∧
  (∀ other, other ≠ profile_id → memory_rows_of other db' = memory_rows_of other db ∧
     ∀ id r, memory_rows_of other db !! id = Some r → links_of db' id = links_of db id).
Proof.
  intros Hs Hids Hok. pose proof (row_keys_unique s Hs Hids) as Hnd. unfold sync_memory_rows. munfold.
  rewrite rows_by_key_map by done. set (rows := list_to_map (keyed (storage_rows s)) : gmap string MemoryStorageRow).
  set (existing := memory_rows_of profile_id db). set (stale := filter _ _).
  pose proof (keyed_values _ Hnd) as Hperm. fold rows in Hperm.
  assert (∀ id, id ∈ stale ↔ is_Some (existing !! id) ∧ rows !! id = None) as Hstale.
  { intros id. unfold stale. rewrite list_elem_of_filter, list_elem_of_fmap. split.
    - intros [Hr ([k r] & -> & Hin%elem_of_str_entries)]. simpl in *. eauto.
    - intros [[r Hr] Hn]. split; [done|]. exists (id, r). split; [done|]. by apply elem_of_str_entries. }
  destruct (delete_stale_all profile_id stale db) as (Hm1 & Hl1 & Hs1).
  { intros id r [[r' (Hr' & Hp & _)%lookup_rows_of] _]%Hstale Hr. congruence. }
  set (db1 := foldl _ db stale) in *.
  assert (∀ row, row ∈ storage_rows s → rows !! row_key row = Some row) as Hrows.
  { intros row Hrow. apply elem_of_list_to_map_1; [unfold keyed; by rewrite <- list_fmap_compose|].
    unfold keyed. apply list_elem_of_fmap. eauto. }
  intros Hrun. eapply sync_rows_spec in Hrun as (Hok2 & Hm2 & Hl2 & Hs2 & Hnew2).
  2: { apply (memories_ok_kept db); [done|]. intros id r. rewrite Hm1. case_decide; [done|]. auto. }
  2: { by rewrite Hperm. }
  2: { intros row old Hrow (Hold & Hp & Ht)%lookup_rows_of. split; [|done]. rewrite Hm1, decide_False; [done|].
       intros [_ Hn]%Hstale. rewrite Hperm in Hrow. by rewrite Hrows in Hn. }
  assert (list_to_map (keyed (str_entries rows).*2) = rows) as Hback.
  { unfold rows at 2. apply list_to_map_proper; [unfold keyed; by rewrite <- list_fmap_compose, Hperm|].
    unfold keyed. by rewrite Hperm. }
  rewrite Hback in Hm2.
  assert (∀ id, db_memories db' !! id = match rows !! id with Some row => Some (stored_row profile_id row) | None =>
    if decide (id ∈ stale) then None else db_memories db !! id end) as Hlook.
  { intros id. rewrite Hm2, lookup_union, lookup_fmap, Hm1. destruct (rows !! id); simpl; [by rewrite union_Some_l|].
    by rewrite (left_id_L None (∪)). }
  assert (∀ id row, rows !! id = Some row → row ∈ storage_rows s ∧ id = row_key row) as Hin.
  { intros id row Hr. apply elem_of_list_to_map_2 in Hr. unfold keyed in Hr. apply list_elem_of_fmap in Hr as (x & [= -> ->] & Hx). done. }
  assert (∀ other id r row, other ≠ profile_id → rows !! id = Some row → memory_rows_of other db !! id = Some r → False) as Hother.
  { intros other id r row Hne Hr (Ho & Hp & _)%lookup_rows_of. destruct (Hin id row Hr) as [Hx ->].
    assert (existing !! row_key row = None) as He.
    { apply eq_None_not_Some. intros [r' (Hr' & Hp' & _)%lookup_rows_of]. congruence. }
    specialize (Hnew2 row). rewrite Hperm in Hnew2. specialize (Hnew2 Hx He). rewrite Hm1, decide_False in Hnew2; [congruence|].
    intros [[r' Hr'] _]%Hstale. congruence. }
  split_and!; [done| |by rewrite Hs2|].
  - apply map_eq. intros id. apply option_eq. intros r. rewrite lookup_rows_of, lookup_fmap, Hlook. unfold Uuid in *.
    destruct (rows !! id) as [row|] eqn:Hr; simpl.
    + split; [by intros (? & _)|]. intros [= <-]. simpl. split_and!; [done..|apply stored_row_trust].
    + split; [|done]. intros (Hd & Hp & Ht). case_decide as Hst; [done|]. exfalso. apply Hst, Hstale.
      split; [|done]. exists r. by apply lookup_rows_of.
  - intros other Hne. split.
    + apply map_eq. intros id. apply option_eq. intros r. rewrite !lookup_rows_of, Hlook.
      destruct (rows !! id) as [row|] eqn:Hr.
      * split; [intros (Hd & Hp & _); by simplify_eq/=|]. intros Hd. exfalso. eapply (Hother other id r); [done|done|by apply lookup_rows_of].
      * case_decide as Hst; [|done]. split; [by intros (? & _)|]. intros (Hd & Hp & _).
        apply Hstale in Hst as [[r' (Hr' & Hp' & _)%lookup_rows_of] _]. congruence.
    + intros id r Hr. rewrite Hl2, Hl1; [done| |].
      * intros [[r' (Hr' & Hp' & _)%lookup_rows_of] _]%Hstale. apply lookup_rows_of in Hr as (? & ? & _). congruence.
      * intros (row & -> & Hrow)%list_elem_of_fmap. rewrite Hperm in Hrow. eapply (Hother other); [done|by apply Hrows|done].
Qed.

Lemma collect_omap {A B} (f : A → outcome StorageError B) (g : A → option B) l :
  (∀ x, x ∈ l → ∃ y, g x = Some y ∧ f x = Ok y) → collect f l = Ok (omap g l).
Proof.
  induction l as [|x l IH]; intros Hl; [done|]. destruct (Hl x) as (y & Hg & Hf); [by left|]. simpl.
  rewrite Hf, Hg. simpl. rewrite IH; [done|]. intros z Hz. apply Hl. by right.
Qed.
Lemma collect_ext {A B} (f g : A → outcome StorageError B) l :
  (∀ x, x ∈ l → f x = g x) → collect f l = collect g l.
Proof.
  induction l as [|x l IH]; intros Hl; [done|]. simpl. rewrite (Hl x) by (by left). rewrite IH; [done|].
  intros z Hz. apply Hl. by right.
Qed.

Definition body_row (e : string * MemoryRow) : option MemoryStorageRow :=
  match mr_body e.2 with RowBody row => Some row | ImportBody _ => None end.

(** Rows in order pass their checks. *)
Lemma check_kept db id r :
  memories_ok db → db_memories db !! id = Some r → mr_trust r ∈ stored_trust →
  ∃ row, body_row (id, r) = Some row ∧ check_row (db_memory_links db) (id, r) = Ok row.
Proof.
  intros Hok Hr Ht. specialize (Hok id r Hr). unfold row_kept, body_row, check_row in *. simpl.
  destruct (mr_body r) as [row|]; [|done]. destruct Hok as (Hk & Htr & Hl). exists row. split; [done|].
  unfold links_of in Hl. rewrite !bool_decide_true by done. done.
Qed.

Lemma load_rows profile_id db rows model :
  memories_ok db → NoDup (row_key <$> rows) →
  memory_rows_of profile_id db = stored_row profile_id <$> (list_to_map (keyed rows) : gmap string _) →
  load_snapshot (T := EmbeddingModel) MEMORY_MODEL_KIND profile_id db = Ok (Some model) →
  ∃ rows', rows' ≡ₚ rows ∧ load_memory_store profile_id db =
    match from_storage_rows model rows' with
    | Ok store => Ok (Some store) | Err e => Err (MemoryRowError e) | Panic => Panic
    end.
Proof.
  intros Hok Hnd Hrows Hmodel. exists (omap body_row (str_entries (memory_rows_of profile_id db))). split.
  - unfold str_entries. rewrite merge_sort_Permutation, Hrows, map_to_list_fmap.
    rewrite map_to_list_to_map by (unfold keyed; by rewrite <- list_fmap_compose).
    clear Hnd Hrows. induction rows as [|row rows IH]; [done|]. simpl. by rewrite IH.
  - unfold load_memory_store. rewrite Hmodel. simpl.
    rewrite (collect_omap _ body_row).
    + simpl. by destruct (from_storage_rows _ _).
    + intros [id r] (Hr & _ & Ht)%elem_of_str_entries%lookup_rows_of. by apply check_kept.
Qed.

Lemma load_same profile_id db db' :
  find_snapshot MEMORY_MODEL_KIND profile_id db' = find_snapshot MEMORY_MODEL_KIND profile_id db →
  memory_rows_of profile_id db' = memory_rows_of profile_id db →
  (∀ id r, memory_rows_of profile_id db !! id = Some r → links_of db' id = links_of db id) →
  load_memory_store profile_id db' = load_memory_store profile_id db.
Proof.
  intros Hs Hr Hl. unfold load_memory_store, load_snapshot. rewrite Hs, Hr.
  assert (collect (check_row (db_memory_links db')) (str_entries (memory_rows_of profile_id db)) =
    collect (check_row (db_memory_links db)) (str_entries (memory_rows_of profile_id db))) as ->; [|done].
  apply collect_ext. intros [id r] Hin%elem_of_str_entries. specialize (Hl id r Hin). unfold check_row, links_of in *.
  simpl. by rewrite Hl.
Qed.

(** The embedding model is written where it changed. *)
Lemma save_in_transaction_spec {T} `{Stored T, EqDecision T} kind id now (x : T) db u db' :
  save_snapshot_in_transaction kind id now x db = (Ok u, db') →
  load_snapshot kind id db' = Ok (Some x) ∧ db_memories db' = db_memories db ∧ db_memory_links db' = db_memory_links db ∧
  ∀ kind' id', (kind', id') ≠ (kind, id) → find_snapshot kind' id' db' = find_snapshot kind' id' db.
Proof.
  unfold save_snapshot_in_transaction, put_snapshot, load_snapshot, find_snapshot. munfold.
  case_bool_decide as Hsame; intros [= _ <-].
  - split_and!; [|done..]. apply bind_Some in Hsame as (b & -> & Hb). by rewrite Hb.
  - simpl. rewrite lookup_insert_eq. simpl. rewrite of_to_body. split_and!; [done..|].
    intros kind' id' Hne. by rewrite lookup_insert_ne.
Qed.

Context `{Sqlite}.

End memory_rows.

(** Two profiles save into one database. *)
Section saved_memories.
#[local] Instance reliable_sqlite : Sqlite := {| failing _ := false; sql_now _ := "2026-01-01T00:00:00.000Z" |}.
Definition apple_store : list StoreOp := [OpUpsertUnlabeled (fact 1%N "apple") (Some [one_f32])].
Definition pear_store : list StoreOp := [OpUpsertUnlabeled (fact 2%N "pear") None].
Definition with_apple : EventStore :=
  (save_memory_snapshot "a" (foldl run_op (store_new tiny_model) apple_store) (mkEventStore database_empty 0)).2.
Lemma run_ok {S E} (m : M S E ()) s : is_ok (m s).1 = true → m s = (Ok (), (m s).2).
Proof. by destruct (m s) as [[[]| |] s']. Qed.
Lemma saved_apple :
  is_ok (save_memory_snapshot "a" (foldl run_op (store_new tiny_model) apple_store) (mkEventStore database_empty 0)).1 = true.
Proof. by vm_compute. Qed.

End saved_memories.

(** ** Interrupted migrations *)

Section interrupted.
Context `{UuidText}.

(** Where the backup of a migration exists, the database does not open. *)
Lemma backup_blocks `{Sqlite} path key db n d :
  (BASELINE_SCHEMA_VERSION <= database_schema_version db)%Z → (database_schema_version db < SCHEMA_VERSION)%Z →
  is_Some (dk_backups d !! migration_backup_path path (database_schema_version db) SCHEMA_VERSION) →
  is_ok (migrate path true key db n d).1 = false ∧ (migrate path true key db n d).2 = d.
Proof.
  intros Hlo Hhi Hb. unfold migrate. munfold. destruct (failing n); [done|]. simpl.
  rewrite (proj2 (Z.ltb_ge _ _)) by lia. simpl. rewrite (proj2 (Z.ltb_ge _ BASELINE_SCHEMA_VERSION)) by lia.
  rewrite andb_false_r. simpl. rewrite (proj2 (Z.eqb_neq _ _)) by lia. rewrite (proj2 (Z.leb_le _ _)) by done. simpl.
  by rewrite bool_decide_true.
Qed.

(** An attempt to migrate a database that fails after its version was read, whether the copy or the migration itself
    failed, leaves the database as it was and the backup file in place, and from then on no attempt opens the database. *)
Theorem interrupted_migration_blocks_reopening (sqlite : Sqlite) path key db d r d' :
  dk_file d = Some (key, db) →
  (BASELINE_SCHEMA_VERSION <= database_schema_version db)%Z → (database_schema_version db < SCHEMA_VERSION)%Z →
  failing 0 = false → open_store path key true d = (r, d') → is_ok r = false →
  dk_file d' = Some (key, db) ∧ ∀ sqlite' : Sqlite, is_ok (open_store path key true d').1 = false.
Proof.
  intros Hf Hlo Hhi Hread Hopen Hr.
  assert (dk_file d' = Some (key, db) ∧
    is_Some (dk_backups d' !! migration_backup_path path (database_schema_version db) SCHEMA_VERSION)) as [Hf' Hb].
  { revert Hopen. unfold open_store. munfold. rewrite Hf, bool_decide_true by done. simpl. unfold migrate. munfold.
    rewrite Hread. simpl. rewrite (proj2 (Z.ltb_ge _ _)) by lia. simpl. rewrite (proj2 (Z.ltb_ge _ BASELINE_SCHEMA_VERSION)) by lia.
    rewrite andb_false_r. simpl. rewrite (proj2 (Z.eqb_neq _ _)) by lia. rewrite (proj2 (Z.leb_le _ _)) by done. simpl.
    case_bool_decide; simpl; [intros; simplify_eq; by split|].
    destruct (failing (0 + 1)); simpl; [intros; simplify_eq/=; split; [done|]; rewrite lookup_insert_eq; eauto|].
    destruct (migration_steps _ _ _) as [[[]| |] db1]; simpl;
      [destruct (failing (0 + 2)); simpl|..]; intros; simplify_eq/=; (split; [done|]; rewrite lookup_insert_eq; eauto). }
  split; [done|]. intros sqlite'. unfold open_store. munfold. rewrite Hf', bool_decide_true by done. simpl.
  destruct (backup_blocks path key db 0 d' Hlo Hhi Hb) as [Hm _]. by destruct (migrate _ _ _ _ _ _) as [[[]| |] ?].
Qed.
End interrupted.

(** ** Debounced supervisor checkpoints *)

Global Instance sequence_le_total : Total sequence_le.
Proof. intros a b. unfold sequence_le. lia. Qed.
Global Instance sequence_le_trans : Transitive sequence_le.
Proof. intros a b c. unfold sequence_le. lia. Qed.

Section debounced.
Context `{Calendar} `{UuidText}.

Abbreviation entry := (SupervisorSnapshot * EventEnvelope)%type.

(** The checkpoint that immediate writes leave. *)
Fixpoint evolve_history (c : option SupervisorRecoveryCheckpoint) (h : list entry)
    : outcome StorageError (option SupervisorRecoveryCheckpoint) :=
  match h with
  | [] => Ok c
  | (snapshot, event) :: h => c ← evolve_supervisor_checkpoint c snapshot event; evolve_history (Some c) h
  end.

Lemma evolve_history_app c h1 h2 :
  evolve_history c (h1 ++ h2) = (c ← evolve_history c h1; evolve_history c h2).
Proof.
  revert c. induction h1 as [|[sn e] h1 IH]; intros c; [done|]. simpl.
  destruct (evolve_supervisor_checkpoint c sn e); simpl; [apply IH|done..].
Qed.

(** The approvals depend neither on the snapshot nor on the sequence. *)
Definition settle (e : EventEnvelope) (payload : Value) (c : SupervisorRecoveryCheckpoint) : SupervisorRecoveryCheckpoint :=
  let task_id := get_str "task_id" payload in
  resolve_approvals payload (resolve_approval e payload task_id (request_approval e task_id c)).

Lemma settle_snapshot e payload c sn : settle e payload (c <| sc_snapshot := sn |>) = (settle e payload c) <| sc_snapshot := sn |>.
Proof.
  assert (∀ t c, request_approval e t (c <| sc_snapshot := sn |>) = (request_approval e t c) <| sc_snapshot := sn |>) as H1
    by (intros; unfold request_approval; case_bool_decide; [case_match|]; done).
  assert (∀ t c, resolve_approval e payload t (c <| sc_snapshot := sn |>) = (resolve_approval e payload t c) <| sc_snapshot := sn |>) as H2
    by (intros; unfold resolve_approval; case_bool_decide; destruct (bool_at _ _ _), t; done).
  unfold settle. rewrite H1, H2. unfold resolve_approvals. by destruct (_ <? _)%N.
Qed.
Lemma settle_last e payload c : sc_last_sequence (settle e payload c) = sc_last_sequence c.
Proof.
  unfold settle, resolve_approvals. transitivity (sc_last_sequence (resolve_approval e payload (get_str "task_id" payload)
    (request_approval e (get_str "task_id" payload) c))); [by destruct (_ <? _)%N|].
  unfold resolve_approval, request_approval. destruct (get_str _ _), (bool_decide (ev_type e = "approval.resolved")),
    (bool_decide (ev_type e = "approval.requested")), (bool_at _ _ _); done.
Qed.
Lemma evolve_eq base c sn e :
  evolve_supervisor_checkpoint c sn e =
  match decode_payload e with
  | inl _ => Err JsonError
  | inr payload =>
    Ok ((settle e payload ((default (bare_checkpoint base (bool_decide (ev_type e = "goal.created"))) c)
           <| sc_last_sequence := ev_monotonic_sequence e |> <| sc_latest_goal_event := Some e |> <| sc_snapshot := sn |>))
          <| sc_recent_activities ::= push_activity (supervisor_activity e payload) |>)
  end.
Proof. by destruct c. Qed.

(** Only the latest snapshot stays. *)
Lemma evolve_snapshot c sn1 sn2 e x :
  evolve_supervisor_checkpoint c sn1 e = Ok x → evolve_supervisor_checkpoint c sn2 e = Ok (x <| sc_snapshot := sn2 |>).
Proof.
  rewrite !(evolve_eq sn1). destruct (decode_payload e) as [|payload]; [done|]. rewrite !settle_snapshot.
  by intros [= <-].
Qed.
Lemma evolve_over x sn sn' e :
  evolve_supervisor_checkpoint (Some (x <| sc_snapshot := sn' |>)) sn e = evolve_supervisor_checkpoint (Some x) sn e.
Proof. done. Qed.

Lemma evolve_payload c sn e : (∃ x, evolve_supervisor_checkpoint c sn e = Ok x) ∨
  ∀ c' sn', evolve_supervisor_checkpoint c' sn' e = Err JsonError.
Proof. unfold evolve_supervisor_checkpoint. destruct (decode_payload e); [right|left]; eauto. Qed.

Lemma evolve_last c sn e x : evolve_supervisor_checkpoint c sn e = Ok x → sc_last_sequence x = ev_monotonic_sequence e.
Proof.
  rewrite (evolve_eq sn). destruct (decode_payload e) as [|payload]; [done|]. intros [= <-].
  cbn [sc_last_sequence]. by rewrite settle_last.
Qed.

(** A burst can be written with its last snapshot throughout. *)
Lemma evolve_burst c h sn :
  last h.*1 = Some sn → evolve_history c ((sn,.) <$> h.*2) = evolve_history c h.
Proof.
  revert c. induction h as [|[sn1 e1] h IH]; intros c Hl; [done|]. destruct h as [|[sn2 e2] h]; [by simplify_eq/=|].
  rewrite !fmap_cons. cbn [fst snd fmap list_fmap evolve_history] in *.
  destruct (evolve_payload c sn1 e1) as [[c1 Hc1]|Herr]; [|by rewrite !Herr].
  rewrite Hc1, (evolve_snapshot _ _ sn _ _ Hc1). cbn [mbind outcome_bind]. rewrite evolve_over. by apply (IH (Some c1)).
Qed.

Lemma evolve_history_last c h c' sn :
  evolve_history c h = Ok c' → last h.*1 = Some sn → ∃ x, c' = Some x ∧ sc_snapshot x = sn.
Proof.
  revert c. induction h as [|[sn1 e1] h IH]; intros c Hev Hl; [done|]. simpl in Hev. apply outcome_bind_ok in Hev as (x & Hx & Hev).
  destruct h as [|y h]; [|by eapply IH]. simplify_eq/=. exists x. split; [done|].
  pose proof (evolve_snapshot _ _ sn _ _ Hx) as Hx'. rewrite Hx in Hx'. injection Hx' as Hx'. rewrite Hx'. done.
Qed.

(** The events that a checkpoint does not cover. *)
Definition is_new (n : option N) (e : EventEnvelope) : Prop :=
  match n with Some n => (n < ev_monotonic_sequence e)%N | None => True end.
Global Instance is_new_dec n e : Decision (is_new n e).
Proof. destruct n; simpl; apply _. Defined.
Definition covered (c : option SupervisorRecoveryCheckpoint) : option N := sc_last_sequence <$> c.

Definition event_fits (g : string) (e : EventEnvelope) : Prop := validate_event e = Ok () ∧ ev_goal_id e = Some g.

Lemma advance_spec sn events c advanced :
  Forall (event_fits (goal_id_of sn)) events → StronglySorted sequence_le events →
  NoDup (ev_monotonic_sequence <$> filter (is_new (covered c)) events) →
  advance_checkpoint sn events c advanced =
  (c' ← evolve_history c ((sn,.) <$> filter (is_new (covered c)) events);
   Ok (c', advanced || bool_decide (filter (is_new (covered c)) events ≠ []))).
Proof.
  revert c advanced. induction events as [|e events IH]; intros c advanced Hf Hs Hnd; [by rewrite orb_false_r|].
  apply Forall_cons in Hf as [[Hv Hg] Hf]. inversion Hs as [|? ? Hs' Hall]; subst. cbn [advance_checkpoint].
  rewrite Hv, bool_decide_true by done. cbn.
  assert ((match c with Some c => (ev_monotonic_sequence e <=? sc_last_sequence c)%N | None => false end) =
    bool_decide (¬ is_new (covered c) e)) as ->.
  { destruct c as [c|]; simpl; [|done]. destruct (N.leb_spec (ev_monotonic_sequence e) (sc_last_sequence c));
      symmetry; [apply bool_decide_eq_true|apply bool_decide_eq_false]; lia. }
  rewrite filter_cons in *. destruct (decide (is_new (covered c) e)) as [Hn|Hn];
    [rewrite bool_decide_false by tauto|rewrite bool_decide_true by done; by apply IH].
  rewrite fmap_cons in *. cbn [evolve_history] in *. apply NoDup_cons in Hnd as [Hnot Hnd].
  destruct (evolve_supervisor_checkpoint c sn e) as [x| |] eqn:He; [|done..]. cbn.
  apply evolve_last in He as Hx.
  assert (filter (is_new (covered (Some x))) events = filter (is_new (covered c)) events) as Hfil.
  { apply list_filter_iff'. rewrite Forall_forall in Hall. intros e' He'. specialize (Hall e' He'). unfold sequence_le in Hall.
    simpl. rewrite Hx. split.
    - intros Hlt. destruct c as [c|]; simpl in *; [lia|done].
    - intros Hn'. assert (ev_monotonic_sequence e' ≠ ev_monotonic_sequence e) as Hne; [|lia].
      intros Heq. apply Hnot. rewrite <- Heq. apply list_elem_of_fmap_2, list_elem_of_filter. done. }
  rewrite IH, Hfil by (rewrite ?Hfil; done).
  by rewrite orb_true_r.
Qed.

(** One flush of a burst, with its events in any order and among events that are covered already. *)
Definition flush_of (c : option N) (burst : list entry) (u : SupervisorCheckpointUpdate) : Prop :=
  last burst.*1 = Some (cu_snapshot u) ∧
  ∃ old, cu_events u ≡ₚ old ++ burst.*2 ∧ Forall (λ e, ¬ is_new c e) old ∧
    Forall (event_fits (goal_id_of (cu_snapshot u))) old.

(** A burst after what the checkpoint covers. *)
Definition burst_after (c : option N) (burst : list entry) : Prop :=
  StronglySorted N.lt (ev_monotonic_sequence <$> burst.*2) ∧ Forall (is_new c) burst.*2.

Lemma sorted_sequences_cons e l :
  StronglySorted N.lt (ev_monotonic_sequence <$> e :: l) →
  StronglySorted N.lt (ev_monotonic_sequence <$> l) ∧ ∀ x, x ∈ l → (ev_monotonic_sequence e < ev_monotonic_sequence x)%N.
Proof.
  intros Hs. inversion Hs as [|? ? Hs' Hall]; subst. split; [done|]. rewrite Forall_forall in Hall.
  intros x Hx. apply Hall. by apply (list_elem_of_fmap_2 ev_monotonic_sequence).
Qed.

Lemma burst_events c burst events old :
  burst_after c burst → events ≡ₚ old ++ burst.*2 → Forall (λ e, ¬ is_new c e) old →
  filter (is_new c) (merge_sort sequence_le events) = burst.*2.
Proof.
  intros [Hs Hn] Hp Hold.
  assert (filter (is_new c) (merge_sort sequence_le events) ≡ₚ burst.*2) as Hperm.
  { rewrite merge_sort_Permutation, Hp, filter_app. rewrite Forall_forall in Hold, Hn.
    rewrite list_filter_none by done. by rewrite list_filter_all. }
  assert (StronglySorted sequence_le burst.*2) as Hs1.
  { clear -Hs. induction (burst.*2) as [|e l IH]; [constructor|]. apply sorted_sequences_cons in Hs as [Hs' Hall].
    constructor; [by apply IH|]. apply Forall_forall. intros x Hx. specialize (Hall x Hx). unfold sequence_le. lia. }
  assert (∀ a b, a ∈ burst.*2 → b ∈ burst.*2 → ev_monotonic_sequence a = ev_monotonic_sequence b → a = b) as Hinj.
  { clear -Hs. induction (burst.*2) as [|e l IH]; [by intros ? ? ?%elem_of_nil|]. apply sorted_sequences_cons in Hs as [Hs' Hall].
    intros a b [->|Ha]%elem_of_cons [->|Hb]%elem_of_cons Heq; [done| | |by apply IH].
    - specialize (Hall b Hb). lia.
    - specialize (Hall a Ha). lia. }
  apply (StronglySorted_unique_strong sequence_le); [| |done|done].
  - intros a b Ha Hb Hab Hba. rewrite Hperm in Ha. apply Hinj; [done..|]. unfold sequence_le in *. lia.
  - apply StronglySorted_filter, StronglySorted_merge_sort; apply _.
Qed.

Lemma burst_nodup c burst : burst_after c burst → NoDup (ev_monotonic_sequence <$> burst.*2).
Proof.
  intros [Hs _]. induction Hs as [|x l _ IH Hall]; constructor; [|done]. rewrite Forall_forall in Hall.
  intros Hx. specialize (Hall x Hx). lia.
Qed.

Definition entry_fits (g : string) (x : entry) : Prop := goal_id_of x.1 = g ∧ event_fits g x.2.

(** A flush leaves the checkpoint of the immediate writes. *)
Lemma flush_spec g now db c burst u c' :
  load_supervisor_checkpoint g db = Ok c → burst_after (covered c) burst → flush_of (covered c) burst u →
  Forall (entry_fits g) burst → evolve_history c burst = Ok c' →
  ∃ db', checkpoint_update now u db = (Ok (), db') ∧ load_supervisor_checkpoint g db' = Ok c'.
Proof.
  intros Hload Hburst (Hlast & old & Hp & Hold & Hfold) Hfit Hev.
  assert (goal_id_of (cu_snapshot u) = g) as Hg.
  { apply last_Some_elem_of, list_elem_of_fmap in Hlast as (x & -> & Hx). rewrite Forall_forall in Hfit. by apply Hfit. }
  unfold checkpoint_update. munfold. rewrite Hg, Hload, advance_spec; rewrite ?(burst_events _ _ _ _ Hburst Hp Hold).
  - rewrite (evolve_burst c burst) by done. rewrite Hev. simpl. rewrite bool_decide_true.
    2: { intros Hnil. destruct burst; [done|]. by simpl in Hnil. }
    eexists. split; [reflexivity|]. unfold load_supervisor_checkpoint, find_snapshot, put_snapshot, modify. simpl.
    rewrite lookup_insert_eq. simpl.
    assert (∃ x, c' = Some x ∧ sc_snapshot x = cu_snapshot u) as (x & -> & Hx).
    { destruct (evolve_history_last c burst c' (cu_snapshot u)) as (x & ? & ?); [done..|]. eauto. }
    simpl. rewrite <- Hx. by destruct x.
  - rewrite merge_sort_Permutation, Hp. rewrite Hg in *. apply Forall_app. split; [done|]. apply Forall_fmap.
    eapply Forall_impl; [exact Hfit|]. by intros x [_ ?].
  - apply StronglySorted_merge_sort; apply _.
  - by eapply burst_nodup.
Qed.

(** A history in bursts, each written by one update. *)
Fixpoint flushes (c : option N) (bursts : list (list entry)) (updates : list SupervisorCheckpointUpdate) : Prop :=
  match bursts, updates with
  | [], [] => True
  | burst :: bursts, u :: updates =>
    burst_after c burst ∧ flush_of c burst u ∧ flushes (ev_monotonic_sequence <$> last burst.*2) bursts updates
  | _, _ => False
  end.

Lemma evolve_history_covered c h c' : evolve_history c h = Ok c' → h ≠ [] → covered c' = ev_monotonic_sequence <$> last h.*2.
Proof.
  revert c. induction h as [|[sn e] h IH]; intros c Hev Hne; [done|]. simpl in Hev. apply outcome_bind_ok in Hev as (x & Hx & Hev).
  destruct h as [|y h]; [|by eapply IH]. simplify_eq/=. by rewrite (evolve_last _ _ _ _ Hx).
Qed.

Lemma flushes_spec g now bursts updates db c c' :
  load_supervisor_checkpoint g db = Ok c → flushes (covered c) bursts updates →
  Forall (entry_fits g) (mjoin bursts) → evolve_history c (mjoin bursts) = Ok c' →
  ∃ db', checkpoint_updates now updates db = (Ok (), db') ∧ load_supervisor_checkpoint g db' = Ok c'.
Proof.
  revert updates db c. induction bursts as [|burst bursts IH]; intros [|u updates] db c Hload Hfl Hfit Hev; try done.
  { exists db. simplify_eq/=. done. }
  destruct Hfl as (Hb & Hf & Hfl). simpl in *. apply Forall_app in Hfit as [Hfit1 Hfit2].
  rewrite evolve_history_app in Hev. apply outcome_bind_ok in Hev as (c1 & Hc1 & Hev).
  destruct (flush_spec g now db c burst u c1) as (db1 & Hrun & Hload1); [done..|].
  assert (burst ≠ []) as Hne by (destruct Hf as [Hl _]; by destruct burst).
  destruct (IH updates db1 c1) as (db' & Hrun' & Hload'); [done| |done|done|].
  { by rewrite (evolve_history_covered _ _ _ Hc1). }
  exists db'. split; [|done]. unfold mbind, M_bind. by rewrite Hrun.
Qed.

Context `{Sqlite}.

(** Each snapshot written at once, together with its event. *)
Fixpoint write_immediately (h : list entry) : ST () :=
  match h with
  | [] => mret ()
  | (snapshot, event) :: h => _ ← save_supervisor_snapshot_and_event snapshot event; write_immediately h
  end.

Lemma insert_event_snapshots e db u db' : insert_event e db = (Ok u, db') → db_snapshots db' = db_snapshots db.
Proof. unfold insert_event, db_error. munfold. destruct (_ || _); intros; by simplify_eq/=. Qed.

Lemma immediate_step g sn e st u st1 c :
  goal_id_of sn = g → load_supervisor_checkpoint g (es_db st) = Ok c →
  save_supervisor_snapshot_and_event sn e st = (Ok u, st1) →
  validate_event e = Ok () ∧
  ∃ x, evolve_supervisor_checkpoint c sn e = Ok x ∧ load_supervisor_checkpoint g (es_db st1) = Ok (Some x).
Proof.
  intros <- Hload. unfold save_supervisor_snapshot_and_event. unfold mbind at 1, M_bind at 1, lift.
  destruct (validate_event e) as [[]| |] eqn:Hv; [|done..]. intros Hrun. split; [done|].
  apply transaction_db in Hrun as [[_ ?]|(u' & now & _ & Hrun)]; [done|].
  unfold mbind, M_bind, get in Hrun. rewrite Hload in Hrun. cbn [lift] in Hrun. unfold lift in Hrun.
  destruct (evolve_supervisor_checkpoint c sn e) as [x| |]; [|done..]. exists x. split; [done|].
  unfold put_snapshot, modify in Hrun. apply insert_event_snapshots in Hrun. unfold load_supervisor_checkpoint, find_snapshot.
  rewrite Hrun. simpl. by rewrite lookup_insert_eq.
Qed.

Lemma immediate_spec g h st u st1 c :
  Forall (λ x : entry, goal_id_of x.1 = g ∧ ev_goal_id x.2 = Some g) h →
  load_supervisor_checkpoint g (es_db st) = Ok c → write_immediately h st = (Ok u, st1) →
  Forall (entry_fits g) h ∧
  ∃ c', evolve_history c h = Ok c' ∧ load_supervisor_checkpoint g (es_db st1) = Ok c'.
Proof.
  revert st c. induction h as [|[sn e] h IH]; intros st c Hg Hload; [intros [= _ <-]; eauto|].
  apply Forall_cons in Hg as [[Hsn He] Hg]. cbn [write_immediately]. unfold mbind, M_bind.
  destruct (save_supervisor_snapshot_and_event sn e st) as [[v| |] st2] eqn:Hst; [|done..].
  eapply immediate_step in Hst as (Hv & x & Hx & Hload2); [|done|done]. intros Hrun.
  destruct (IH st2 (Some x)) as (Hfit & c' & Hc' & Hload'); [done..|]. split; [by constructor|].
  exists c'. simpl. by rewrite Hx.
Qed.

(** C22: debounced supervisor checkpoints are those of immediate writes.  Take a history of snapshots
    and events of one goal that can be written one by one, each snapshot with its event.  Writing it instead in bursts, each
    as one update with the last snapshot and the events of the burst in any order and among events that were written
    before, succeeds and leaves the same recovery checkpoint. *)
Theorem debounced_checkpoints_are_immediate g c bursts updates st st1 now db :
  load_supervisor_checkpoint g (es_db st) = Ok c → load_supervisor_checkpoint g db = Ok c →
  Forall (λ x : entry, goal_id_of x.1 = g ∧ ev_goal_id x.2 = Some g) (mjoin bursts) →
  write_immediately (mjoin bursts) st = (Ok (), st1) → flushes (covered c) bursts updates →
  ∃ db', checkpoint_updates now updates db = (Ok (), db') ∧
    load_supervisor_checkpoint g db' = load_supervisor_checkpoint g (es_db st1).
Proof.
  intros Hst Hdb Hg Hrun Hfl. destruct (immediate_spec g _ _ _ _ _ Hg Hst Hrun) as (Hfit & c' & Hc' & ->).
  by eapply flushes_spec.
Qed.
End debounced.

(** Three events in two bursts; the second update repeats the first event, and its events come in the wrong order. *)
Section burst_example.
#[local] Existing Instance reliable_sqlite.
#[local] Existing Instance UsageSpec.day_calendar.

Definition goal_snapshot (checkpoint : N) : SupervisorSnapshot := mkSupervisorSnapshot 1 sample_graph ∅ [] checkpoint.
Definition goal_event (n : N) (kind : string) (payload : Value) : EventEnvelope :=
  mkEventEnvelope EVENT_SCHEMA_VERSION (pretty n) "2026-01-01T00:00:00Z" n "goal-supervisor" "default" None
    (Some (goal_id_of (goal_snapshot 0))) None None kind payload.
Definition goal_bursts : list (list (SupervisorSnapshot * EventEnvelope)) :=
  let created := goal_event 1 "goal.created" (VObject []) in
  let asked := goal_event 2 "approval.requested" (VObject [("task_id", VString "t1")]) in
  let answered := goal_event 3 "approval.resolved" (VObject [("task_id", VString "t1")]) in
  [[(goal_snapshot 0, created)]; [(goal_snapshot 1, asked); (goal_snapshot 2, answered)]].
Definition goal_updates : list SupervisorCheckpointUpdate :=
  let events := snd <$> mjoin goal_bursts in
  [mkSupervisorCheckpointUpdate (goal_snapshot 0) (take 1 events);
   mkSupervisorCheckpointUpdate (goal_snapshot 2) (reverse events)].
Definition goal_written : EventStore := (write_immediately (mjoin goal_bursts) (mkEventStore database_empty 0)).2.

Lemma goal_written_ok : is_ok (write_immediately (mjoin goal_bursts) (mkEventStore database_empty 0)).1 = true.
Proof. by vm_compute. Qed.
Lemma goal_flushes : flushes None goal_bursts goal_updates.
Proof.
  split; [split; repeat constructor|]. split; [split; [done|]; exists []; split_and!; [done|constructor..]|].
  split; [split; repeat constructor; done|]. split; [|done]. split; [done|].
  exists [goal_event 1 "goal.created" (VObject [])]. split_and!; [|repeat constructor; simpl; lia|].
  { unfold goal_updates. simpl. apply reverse_Permutation. }
  by repeat constructor.
Qed.

Lemma debounced_checkpoints_are_immediate_witness :
  ∃ db', checkpoint_updates "now" goal_updates database_empty = (Ok (), db') ∧
    load_supervisor_checkpoint (goal_id_of (goal_snapshot 0)) db' =
    load_supervisor_checkpoint (goal_id_of (goal_snapshot 0)) (es_db goal_written).
Proof.
  apply (debounced_checkpoints_are_immediate (goal_id_of (goal_snapshot 0)) None goal_bursts goal_updates
    (mkEventStore database_empty 0) goal_written "now" database_empty).
  - reflexivity.
  - reflexivity.
  - by apply (bool_decide_eq_true_1 _); vm_compute.
  - exact (run_ok _ _ goal_written_ok).
  - exact goal_flushes.
Defined.
End burst_example.
