(* ===== verification/CoreState.v ===== *)
(** * The encrypted profile

    Models [ProfileState] and [Core] of [crates/core/src/lib.rs] over the event store: every
    operation appends to the store first and then projects, usage accounting is kept in memory
    beside its rows, and a profile is reopened from its checkpoint and rows.  Also the loop of
    [migrate] of [crates/migration/src/lib.rs], which the import runs on the store; the batches
    it imports are read from files and are an argument. *)

From stdpp Require Import base gmap strings list sorting pretty.
From Stdlib Require Import Ascii.
From S2P Require Automation.
From S2P Require Import Prelude Text Contracts Policy TaskGraph Supervisor Plugins Memory Usage CoreProjection Storage.

Definition PROJECTION_CHECKPOINT_INTERVAL : N := 1000.

Inductive SecretStoreError : Type := SecretMissing | SecretUnavailable (detail : string).

Inductive MigrationError : Type := MigrationFailed (detail : string).

Inductive CoreError : Type :=
  | StorageFailure (e : StorageError)
  | UsageFailure (e : UsageError)
  | RuntimeFailure (detail : string)
  | EventDecodeError (detail : string)
  | SecretStoreFailure (e : SecretStoreError)
  | MigrationFailure (e : MigrationError)
  | MigrationConfirmationRequired
  | InvalidProfileId
  | InvalidUserMessage
  | SequenceRegressed (previous next : N).

Definition of_projection_error (e : ProjectionError) : CoreError :=
  match e with
  | SequenceRegression previous next => SequenceRegressed previous next
  | EventFailure detail => EventDecodeError detail
  end.

Record ProfileState : Type := mkProfileState {
  ps_store : EventStore;
  ps_projection : AppProjection;
  ps_profile_id : string;
  ps_usage : UsageLedger;
  ps_legacy_usage : UsageLedger;
}.
Global Instance ProfileState_eta : Eta ProfileState :=
  λ r, mkProfileState (ps_store r) (ps_projection r) (ps_profile_id r) (ps_usage r) (ps_legacy_usage r).

Record RuntimeHealth : Type := mkRuntimeHealth {
  rh_healthy : bool;
  rh_version : string;
  rh_detail : string;
}.

Record UsagePage : Type := mkUsagePage {
  up_ledger : UsageLedger;
  up_usage_total : N;
  up_egress_total : N;
  up_limit : nat;
  up_offset : nat;
}.

Abbreviation PS := (M ProfileState CoreError).

(** Methods of the parts of the profile. *)
Definition on_store {A} (m : ST A) : PS A := λ s,
  let '(r, store) := m (ps_store s) in (outcome_map_err StorageFailure r, s <| ps_store := store |>).
Definition on_projection {A} (m : AM A) : PS A := λ s,
  let '(r, p) := m (ps_projection s) in (outcome_map_err of_projection_error r, s <| ps_projection := p |>).
Definition on_usage {A} (m : M UsageLedger UsageError A) : PS A := λ s,
  let '(r, u) := m (ps_usage s) in (outcome_map_err UsageFailure r, s <| ps_usage := u |>).

(** ** Recovery *)

(** [convert_aggregate_map] of the usage ledger. *)
Definition convert_aggregate (a : StoredUsageAggregate) : UsageAggregate :=
  mkUsageAggregate (su_provider_steps a)
    (mkTokenUsage (su_input_tokens a) (su_output_tokens a) (su_reasoning_tokens a) (su_cache_read_tokens a)
       (su_cache_write_tokens a) (su_total_tokens a) (su_total_was_reported a))
    (su_reported_cost_microusd a) (su_unknown_cost_steps a) (su_tool_calls a) (su_egress_events a)
    (su_known_egress_bytes a) (su_unknown_egress_sizes a) (list_to_set (su_providers a)) (list_to_set (su_models a)).
Definition convert_aggregate_map (m : gmap string StoredUsageAggregate) : Aggregates := convert_aggregate <$> m.

Definition ledger_from_stored (g : StoredUsageAggregates) (contexts : list UsageFact)
    : outcome UsageError UsageLedger :=
  from_stored (convert_aggregate_map (sg_turns g)) (convert_aggregate_map (sg_sessions g))
    (convert_aggregate_map (sg_days g)) (convert_aggregate_map (sg_scopes g)) (inr <$> contexts).

Section profile.
Context `{Calendar} `{EventHost} `{UuidText} `{Sqlite} `{Sha256}.
(** Whether integer overflow panics, and the value that a payload encodes. *)
Context (checks : bool) (json_of : string → Value).

(** The inner loop over a batch: the last sequence and the projection it leaves. *)
Fixpoint replay_batch (batch : list EventEnvelope) (after_sequence : N) (p : AppProjection)
    : outcome CoreError (N * AppProjection) :=
  match batch with
  | [] => Ok (after_sequence, p)
  | event :: batch =>
    match apply checks event p with
    | (Ok _, p) => replay_batch batch (ev_monotonic_sequence event) p
    | (Err e, _) => Err (of_projection_error e)
    | (Panic, _) => Panic
    end
  end.
(** The outer loop; each batch advances past at least one event. *)
Fixpoint replay_batches (fuel : nat) (after_sequence : N) (p : AppProjection) : M EventStore CoreError AppProjection :=
  match fuel with
  | O => mret p
  | S fuel =>
    batch ← map_err StorageFailure (after after_sequence 512);
    match batch with
    | [] => mret p
    | _ => '(after_sequence, p) ← lift (replay_batch batch after_sequence p); replay_batches fuel after_sequence p
    end
  end.

Definition replay_base (c : option ProjectionCheckpoint) (last_event_sequence : N) : AppProjection * N :=
  match c with
  | None => (projection_default, 0%N)
  | Some c =>
    let snapshot := pc_projection_snapshot_blob c in
    if (ap_last_sequence snapshot =? pc_last_sequence c)%N && (pc_last_sequence c <=? last_event_sequence)%N
    then (snapshot, pc_last_sequence c) else (projection_default, 0%N)
  end.

Definition rebuild_projection_from : M EventStore CoreError AppProjection :=
  last_event_sequence ← map_err StorageFailure last_sequence;
  c ← map_err StorageFailure projection_checkpoint;
  let '(p, after_sequence) := replay_base c last_event_sequence in
  s ← get;
  replay_batches (S (size (db_events (es_db s)))) after_sequence p.

Definition rebuild_usage_from (profile_id : string) (legacy : UsageLedger) : M EventStore CoreError UsageLedger :=
  aggregates ← map_err StorageFailure (usage_aggregates profile_id None None);
  contexts ← map_err StorageFailure (usage_turn_contexts profile_id);
  newer ← lift (outcome_map_err UsageFailure (ledger_from_stored aggregates contexts));
  match merge_append_only newer (clear_detail_records legacy) with
  | (Ok _, combined) => mret combined
  | (Err e, _) => throw (UsageFailure e)
  | (Panic, _) => panic
  end.

Definition rebuild_usage : PS () := λ s,
  match rebuild_usage_from (ps_profile_id s) (ps_legacy_usage s) (ps_store s) with
  | (Ok u, store) => (Ok (), s <| ps_store := store |> <| ps_usage := u |>)
  | (Err e, store) => (Err e, s <| ps_store := store |>)
  | (Panic, store) => (Panic, s <| ps_store := store |>)
  end.

(** ** Opening *)

Definition valid_profile_id (id : string) : bool :=
  negb (is_empty id) &&
  forallb (λ c, is_ascii_alphanumeric c || bool_decide (c = "-"%char) || bool_decide (c = "_"%char)) (bytes id).

(** The key from the secret store, or the fresh one where none is stored. *)
Definition profile_key (found : outcome SecretStoreError string) (put : outcome SecretStoreError ())
    (fresh : string) : outcome CoreError string :=
  match found with
  | Ok key => Ok key
  | Err SecretMissing => _ ← outcome_map_err SecretStoreFailure put; Ok fresh
  | Err e => Err (SecretStoreFailure e)
  | Panic => Panic
  end.

(** Run the start of a profile on its store. *)
Definition open_profile (profile_id : string) : M EventStore CoreError ProfileState :=
  p ← rebuild_projection_from;
  legacy ← map_err StorageFailure (runtime_snapshot (T := UsageLedger) "usage-ledger-v1" profile_id);
  let legacy := default ledger_default legacy in
  usage ← rebuild_usage_from profile_id legacy;
  store ← get;
  mret (mkProfileState store p profile_id usage legacy).

Definition open (path profile_id : string) (cipher_available : bool) (found : outcome SecretStoreError string)
    (put : outcome SecretStoreError ()) (fresh : string) : M Disk CoreError ProfileState :=
  _ ← reject_if (negb (valid_profile_id profile_id)) InvalidProfileId;
  key ← lift (profile_key found put fresh);
  store ← map_err StorageFailure (open_store path key cipher_available);
  lift (open_profile profile_id store).1.

(** ** Recording *)

Definition checkpoint_projection : PS () :=
  s ← get; on_store (save_projection_checkpoint (ps_projection s) (ap_last_sequence (ps_projection s))).

Definition apply_persisted_event (event : EventEnvelope) : PS AppProjection :=
  _ ← on_projection (apply checks event);
  s ← get;
  _ ← (if (ap_last_sequence (ps_projection s) mod PROJECTION_CHECKPOINT_INTERVAL =? 0)%N
       then checkpoint_projection else mret ());
  s ← get;
  mret (ps_projection s).

(** [self.projection.last_sequence + 1] *)
Definition next_sequence : PS N :=
  s ← get;
  let n := ap_last_sequence (ps_projection s) in
  if (n <? u64_max)%N then mret (n + 1)%N else if checks then panic else mret 0%N.

(** [EventEnvelope::new] with the next sequence and this profile. *)
Definition new_event (origin event_type : string) (payload : Value) : PS EventEnvelope :=
  n ← next_sequence;
  s ← get;
  mret (event_new n origin (ps_profile_id s) event_type payload).

(** Append and project. *)
Definition append_and_apply (event : EventEnvelope) : PS AppProjection :=
  _ ← on_store (append event);
  apply_persisted_event event.

Definition submit_user_message (text : string) : PS AppProjection :=
  let text := trim text in
  _ ← reject_if (is_empty text || (65536 <? N.of_nat (str_len text))%N) InvalidUserMessage;
  event ← new_event "desktop-ui" "message.user" (object_of [("text", VString text)]);
  append_and_apply event.

Definition record_runtime_health (health : RuntimeHealth) : PS AppProjection :=
  event ← new_event "runtime-supervisor" "runtime.health"
    (object_of [("healthy", VBool (rh_healthy health)); ("version", VString (rh_version health));
                ("detail", VString (rh_detail health))]);
  append_and_apply event.

Definition record_lifecycle_start (previous_unclean_run : bool) : PS AppProjection :=
  event ← new_event "desktop-host" "lifecycle.started"
    (object_of [("previous_unclean_run", VBool previous_unclean_run)]);
  append_and_apply event.

(** The supervisor event of a snapshot. *)
Definition supervisor_event (snapshot : SupervisorSnapshot) (event_type : string) (payload : Value) : PS EventEnvelope :=
  event ← new_event "goal-supervisor" event_type payload;
  mret (event <| ev_goal_id := Some (goal_id_of snapshot) |> <| ev_task_id := get_str "task_id" payload |>).

Definition record_supervisor_event (snapshot : SupervisorSnapshot) (event_type : string) (payload : Value)
    : PS AppProjection :=
  event ← supervisor_event snapshot event_type payload;
  _ ← on_store (save_supervisor_snapshot_and_event snapshot event);
  apply_persisted_event event.

Definition append_supervisor_event (snapshot : SupervisorSnapshot) (event_type : string) (payload : Value)
    : PS (AppProjection * EventEnvelope) :=
  event ← supervisor_event snapshot event_type payload;
  p ← append_and_apply event;
  mret (p, event).

(** The artifact workspace is stored as its serialized text. *)
Definition record_artifact_workspace_event (workspace : string) (event_type : string) (payload : Value)
    : PS AppProjection :=
  event ← new_event "desktop-ui" event_type payload;
  s ← get;
  _ ← on_store (save_runtime_snapshot_and_event "artifact-workspace-v1" (ps_profile_id s) workspace event);
  apply_persisted_event event.

(** The rows of a mutation. *)
Definition fact_writes (m : UsageMutation) : list UsageFactWrite :=
  match um_fact m with
  | Some fact => [mkUsageFactWrite (uf_event_id fact) (uf_day_utc fact) (Some (uf_session_id fact)) fact]
  | None => []
  end.
Definition egress_write (r : EgressRecord) : EgressWrite :=
  mkEgressWrite (uuid_to_string (er_id r)) (day_string (er_at r)) (er_session_id r) (er_destination r)
    (er_size_bytes r) r.
Definition egress_writes (m : UsageMutation) : list EgressWrite :=
  match um_egress m with Some r => [egress_write r] | None => [] end.

(** On a failed write the ledger is rebuilt from the rows that are stored. *)
Definition append_usage_or_rebuild (event : EventEnvelope) (facts : list UsageFactWrite) (egress : list EgressWrite)
    : PS () := λ s,
  match on_store (append_usage_event event facts egress) s with
  | (Err e, s) => (_ ← rebuild_usage; throw e) s
  | r => r
  end.

Definition record_runtime_event (egress_id : Uuid) (event : EventEnvelope) : PS AppProjection :=
  n ← next_sequence;
  s ← get;
  let event := event <| ev_monotonic_sequence := n |> <| ev_profile_id := ps_profile_id s |> in
  mutation ← on_usage (ingest_runtime_event_delta egress_id event);
  _ ← modify (λ s, s <| ps_usage ::= clear_detail_records |>);
  _ ← append_usage_or_rebuild event (fact_writes mutation) (egress_writes mutation);
  apply_persisted_event event.

(** [serde_json::to_value] of an egress record is a parameter of the call. *)
Definition record_egress_event (record : EgressRecord) (payload : Value) : PS AppProjection :=
  event ← new_event "egress-gateway" "egress.recorded" payload;
  s ← get;
  exists_ ← (if bool_decide (er_id record ∈ ul_seen_egress_ids (ps_usage s)) then mret true
             else on_store (egress_exists (ps_profile_id s) (uuid_to_string (er_id record))));
  _ ← (if exists_ : bool then mret ()
       else _ ← on_usage (record_egress record); modify (λ s, s <| ps_usage ::= clear_detail_records |>));
  _ ← append_usage_or_rebuild event [] (if exists_ : bool then [] else [egress_write record]);
  apply_persisted_event event.

(** ** Snapshots *)

Definition profile_memory_snapshot : PS (option MemoryStore) :=
  s ← get; on_store (memory_snapshot (ps_profile_id s)).
Definition profile_save_memory_snapshot (memory : MemoryStore) : PS () :=
  s ← get; on_store (save_memory_snapshot (ps_profile_id s) memory).
Definition profile_persistent_memory_snapshot : PS (option PersistentMemory) :=
  s ← get; on_store (persistent_memory_snapshot (ps_profile_id s)).
Definition profile_save_persistent_memory_snapshot (memory : PersistentMemory) : PS () :=
  s ← get; on_store (save_persistent_memory_snapshot (ps_profile_id s) memory).
Definition profile_scheduler_snapshot : PS (option Automation.SchedulerSnapshot) :=
  s ← get; on_store (scheduler_snapshot (ps_profile_id s)).
Definition profile_save_scheduler_snapshot (x : Automation.SchedulerSnapshot) : PS () :=
  s ← get; on_store (save_scheduler_snapshot (ps_profile_id s) x).
Definition profile_supervisor_snapshot (goal_id : Uuid) : PS (option SupervisorSnapshot) :=
  on_store (supervisor_snapshot goal_id).
Definition profile_supervisor_recovery_checkpoints : PS (list SupervisorRecoveryCheckpoint) :=
  on_store supervisor_recovery_checkpoints.
Definition profile_save_supervisor_snapshot (snapshot : SupervisorSnapshot) : PS () :=
  on_store (save_supervisor_snapshot snapshot).
Definition profile_save_supervisor_checkpoint_updates (updates : list SupervisorCheckpointUpdate) : PS () :=
  on_store (save_supervisor_checkpoint_updates updates).
Definition artifact_workspace_snapshot : PS (option string) :=
  s ← get; on_store (runtime_snapshot "artifact-workspace-v1" (ps_profile_id s)).
Definition save_artifact_workspace_snapshot (workspace : string) : PS () :=
  s ← get; on_store (save_runtime_snapshot "artifact-workspace-v1" (ps_profile_id s) workspace).
Definition store_artifact_blob (body : list N) : PS string := on_store (store_blob body).
Definition artifact_blob (hash : string) : PS (list N) := on_store (blob hash).
Definition profile_events_after (sequence : N) (limit : nat) : PS (list EventEnvelope) :=
  on_store (after sequence (Nat.min limit 1000)).

(** ** Usage pages *)

Definition usage_snapshot : PS UsageLedger := s ← get; mret (aggregate_snapshot (ps_usage s)).

Definition optional_contains (value needle : option string) : bool :=
  match needle with
  | None => true
  | Some needle =>
    match value with Some value => str_contains (to_ascii_lowercase value) (to_ascii_lowercase needle) | None => false end
  end.
Definition legacy_usage_matches (r : ProviderUsageRecord) (q : UsagePageQuery) : bool :=
  day_in_range (ur_day_utc r) (uq_from q) (uq_to q) &&
  optional_contains (ur_provider_id r) (uq_provider q) &&
  optional_contains (ur_model_id r) (uq_model q) &&
  optional_contains (Some (ur_session_id r)) (uq_session q).
Definition legacy_egress_matches (r : EgressRecord) (q : UsagePageQuery) : bool :=
  day_in_range (day_string (er_at r)) (uq_from q) (uq_to q) &&
  optional_contains (er_session_id r) (uq_session q) &&
  match uq_source q with
  | None => true
  | Some source => eq_ignore_ascii_case (bytes (source_str (er_source r))) (bytes source)
  end.

(** Newest first: by instant, then by identifier. *)
Definition record_ge (a b : ProviderUsageRecord) : Prop :=
  (ur_at b < ur_at a)%Z ∨ ur_at a = ur_at b ∧ str_le (ur_id b) (ur_id a).
Global Instance record_ge_dec : RelDecision record_ge.
Proof. intros a b. unfold record_ge. apply _. Defined.
Definition egress_ge (a b : EgressRecord) : Prop :=
  (er_at b < er_at a)%Z ∨ er_at a = er_at b ∧ (er_id b <= er_id a)%N.
Global Instance egress_ge_dec : RelDecision egress_ge.
Proof. intros a b. unfold egress_ge. apply _. Defined.

Fixpoint stored_records (facts : list UsageFact) : outcome UsageError (list ProviderUsageRecord) :=
  match facts with
  | [] => Ok []
  | f :: facts => r ← into_provider_record f; rs ← stored_records facts; Ok (r :: rs)
  end.

Definition profile_usage_page (q : UsagePageQuery) : PS UsagePage :=
  s ← get;
  aggregates ← on_store (usage_aggregates (ps_profile_id s) (uq_from q) (uq_to q));
  stored ← on_store (usage_page (ps_profile_id s)
    (mkUsagePageQuery (uq_offset q + uq_limit q) 0 (uq_from q) (uq_to q) (uq_provider q) (uq_model q)
       (uq_session q) (uq_source q)));
  ledger ← lift (outcome_map_err UsageFailure (ledger_from_stored aggregates []));
  let ledger := merge_aggregates_from (aggregates_in_range (uq_from q) (uq_to q) (ps_legacy_usage s)) ledger in
  records ← lift (outcome_map_err UsageFailure (stored_records (sp_usage_facts stored)));
  let legacy_records := filter (λ r, legacy_usage_matches r q = true) (ul_records (ps_legacy_usage s)) in
  let legacy_egress := filter (λ r, legacy_egress_matches r q = true) (ul_egress (ps_legacy_usage s)) in
  let page {A} (l : list A) := take (uq_limit q) (drop (uq_offset q) l) in
  let ledger := ledger
    <| ul_records := page (merge_sort record_ge (records ++ legacy_records)) |>
    <| ul_egress := page (merge_sort egress_ge (sp_egress stored ++ legacy_egress)) |> in
  mret (mkUsagePage ledger (sat_add u64_max (sp_usage_total stored) (sql_count legacy_records))
          (sat_add u64_max (sp_egress_total stored) (sql_count legacy_egress)) (uq_limit q) (uq_offset q)).

(** ** The legacy import *)

(** What [prepare_input] finds for each input of the plan: its records, or a failure. *)
Definition Batches : Type := list (outcome MigrationError (list PreparedRecord)).

Fixpoint import_records (records : list PreparedRecord) : ST () :=
  match records with
  | [] => mret ()
  | record :: records =>
    present ← contains_record (pr_id record);
    _ ← (if present : bool then mret () else store_record json_of record);
    import_records records
  end.
Fixpoint import_batches (batches : Batches) : PS () :=
  match batches with
  | [] => mret ()
  | Ok records :: batches => _ ← on_store (import_records records); import_batches batches
  | Err e :: _ => throw (MigrationFailure e)
  | Panic :: _ => panic
  end.

Definition rebuild_projection : PS () := λ s,
  match rebuild_projection_from (ps_store s) with
  | (Ok p, store) => (Ok (), s <| ps_store := store |> <| ps_projection := p |>)
  | (Err e, store) => (Err e, s <| ps_store := store |>)
  | (Panic, store) => (Panic, s <| ps_store := store |>)
  end.

(** The report is stored by its identifier, the fingerprint of the source and its text. *)
Definition import_legacy (copy_personal_data : bool) (batches : Batches) (run_id fingerprint report : string) : PS () :=
  _ ← reject_if (negb copy_personal_data) MigrationConfirmationRequired;
  _ ← import_batches batches;
  _ ← on_store (record_migration_report run_id fingerprint report);
  rebuild_projection.

(** [Drop]: the outcome is ignored. *)
Definition drop_profile (s : ProfileState) : EventStore :=
  state_of (save_projection_checkpoint (ps_projection s) (ap_last_sequence (ps_projection s))) (ps_store s).
End profile.

(** ** The owned application services

    [Core] with the runtime as a parameter: the two methods it calls. *)
Section core.
Context `{Calendar} `{EventHost} `{Sqlite} (checks : bool).
Context {R : Type} (runtime_start : M R string RuntimeHealth) (runtime_stop : M R string ()).

Record Core : Type := mkCore { co_store : EventStore; co_runtime : R; co_projection : AppProjection }.

Definition core_new (store : EventStore) (runtime : R) : Core := mkCore store runtime projection_default.

Definition core_store {A} (m : ST A) : M Core CoreError A := λ c,
  let '(r, store) := m (co_store c) in
  (outcome_map_err StorageFailure r, mkCore store (co_runtime c) (co_projection c)).
Definition core_runtime {A} (m : M R string A) : M Core CoreError A := λ c,
  let '(r, runtime) := m (co_runtime c) in
  (outcome_map_err RuntimeFailure r, mkCore (co_store c) runtime (co_projection c)).

Definition core_checkpoint : M Core CoreError () :=
  c ← get; core_store (save_projection_checkpoint (co_projection c) (ap_last_sequence (co_projection c))).

Definition core_record (event : EventEnvelope) : M Core CoreError () :=
  _ ← core_store (append event);
  _ ← (λ c, let '(r, p) := apply checks event (co_projection c) in
        (outcome_map_err of_projection_error r, mkCore (co_store c) (co_runtime c) p));
  c ← get;
  if (ap_last_sequence (co_projection c) mod PROJECTION_CHECKPOINT_INTERVAL =? 0)%N then core_checkpoint else mret ().

Definition core_rebuild_projection : M Core CoreError () := λ c,
  match rebuild_projection_from checks (co_store c) with
  | (Ok p, store) => (Ok (), mkCore store (co_runtime c) p)
  | (Err e, store) => (Err e, mkCore store (co_runtime c) (co_projection c))
  | (Panic, store) => (Panic, mkCore store (co_runtime c) (co_projection c))
  end.

Definition core_start : M Core CoreError RuntimeHealth :=
  _ ← core_rebuild_projection;
  health ← core_runtime runtime_start;
  c ← get;
  let n := ap_last_sequence (co_projection c) in
  sequence ← (if (n <? u64_max)%N then mret (n + 1)%N else if checks then panic else mret 0%N);
  _ ← core_record (event_new sequence "core" "default" "runtime.health"
        (object_of [("healthy", VBool (rh_healthy health)); ("version", VString (rh_version health))]));
  mret health.

Definition core_stop : M Core CoreError () :=
  _ ← core_runtime runtime_stop;
  core_checkpoint.
End core.
