(* ===== verification/CoreSpec.v ===== *)
(** * The encrypted profile: theorems

    The projection of a running profile is the fold of its stored events, and reopening it, from
    whichever checkpoint and after whichever failures, gives the same projection. *)

From stdpp Require Import base gmap strings list sorting.
From S2P Require Automation.
From S2P Require RuntimeEvents.
From S2P Require UsageSpec.
From S2P Require PluginsSpec.
From S2P Require Import Prelude Text Contracts Policy TaskGraph Supervisor Plugins Memory Usage CoreProjection.
From S2P Require Import Storage StorageSpec CoreState.

(** ** The log *)

Lemma entries_insert_last {V} (m : gmap N V) k v :
  (∀ k', is_Some (m !! k') → (k' < k)%N) → entries (<[k:=v]> m) = entries m ++ [(k, v)].
Proof.
  intros Hlt. assert (m !! k = None) as Hk.
  { destruct (m !! k) eqn:Hm; [|done]. specialize (Hlt k). rewrite Hm in Hlt. specialize (Hlt ltac:(eauto)). lia. }
  apply (StronglySorted_unique_strong entry_le).
  - intros [k1 v1] [k2 v2] H1%elem_of_entries H2 Ha Hb. unfold entry_le in *. simpl in *.
    assert (k1 = k2) as -> by lia. f_equal. apply elem_of_app in H2 as [H2%elem_of_entries|H2].
    + rewrite lookup_insert_ne in H1; [congruence|]. intros ->. specialize (Hlt k2 ltac:(eauto)). lia.
    + apply list_elem_of_singleton in H2. simplify_eq. rewrite lookup_insert_eq in H1. congruence.
  - apply (StronglySorted_merge_sort entry_le).
  - apply StronglySorted_app. split_and!; [| |by repeat constructor].
    + intros [k1 v1] x2 H1%elem_of_entries H2%list_elem_of_singleton. subst. unfold entry_le. simpl.
      specialize (Hlt k1 ltac:(eauto)). lia.
    + apply (StronglySorted_merge_sort entry_le).
  - rewrite !entries_perm, map_to_list_insert by done. apply Permutation_cons_append.
Qed.

Section log.
Implicit Types db : Database.

(** The stored events up to a sequence number, in order. *)
Definition events_upto (n : N) db : list EventEnvelope :=
  (filter (λ e : N * EventEnvelope, (e.1 <= n)%N) (entries (db_events db))).*2.
Definition all_events db : list EventEnvelope := values (db_events db).

(** Rows are stored under their sequence number, which is positive and fits an [i64]. *)
Definition events_wf db : Prop :=
  ∀ n e, db_events db !! n = Some e → ev_monotonic_sequence e = n ∧ (0 < n)%N ∧ (Z.of_N n <= i64_max)%Z.

Lemma max_sequence_ub db n : is_Some (db_events db !! n) → (n <= max_sequence db)%N.
Proof.
  rewrite <- elem_of_keys. unfold max_sequence. induction (keys (db_events db)) as [|k l IH]; [by intros ?%elem_of_nil|].
  intros [->|Hn]%elem_of_cons; simpl; [lia|]. specialize (IH Hn). lia.
Qed.
Lemma max_sequence_in db : max_sequence db = 0%N ∨ is_Some (db_events db !! max_sequence db).
Proof.
  rewrite <- elem_of_keys. unfold max_sequence. induction (keys (db_events db)) as [|k l IH]; [by left|].
  simpl. destruct (N.max_spec k (foldr N.max 0%N l)) as [[? ->]|[? ->]]; [|right; by left].
  destruct IH as [->|?]; [lia|right; by right].
Qed.

Lemma upto_max db n : (max_sequence db <= n)%N → events_upto n db = all_events db.
Proof.
  intros Hn. unfold events_upto, all_events, values. f_equal. apply list_filter_all. intros [k e] Hin%elem_of_entries. simpl. pose proof (max_sequence_ub db k ltac:(eauto)). lia.
Qed.

(** The log splits at any point. *)
Lemma upto_after n db : all_events db = events_upto n db ++ events_after_sequence n db.
Proof.
  unfold all_events, events_upto, events_after_sequence, values. rewrite <- fmap_app. f_equal. unfold Uuid.
  assert (StronglySorted entry_le (entries (db_events db))) as Hs by apply (StronglySorted_merge_sort entry_le).
  induction Hs as [|[k e] l Hs IH Hle]; [done|]. rewrite !filter_cons. simpl. rewrite Forall_forall in Hle.
  case_decide as Hk; case_decide as Hk'; simpl in *; try lia; [by rewrite IH at 1|].
  assert (∀ x, x ∈ l → ¬ (x.1 <= n)%N) as Hnone.
  { intros x Hx. specialize (Hle x Hx). unfold entry_le in Hle. simpl in Hle. unfold Uuid in *. lia. }
  rewrite list_filter_none in IH |- * by exact Hnone. simpl in *. by rewrite IH at 1.
Qed.
End log.

(** ** The projection *)

Section projection.
Context `{Calendar}.
Implicit Types p : AppProjection.

(** No counter is above a bound. *)
Definition counts_within (n : N) p : Prop :=
  (ap_goals_total p <= n ∧ ap_tasks_running p <= n ∧ ap_approvals_waiting p <= n ∧ ap_unclean_shutdowns p <= n)%N.

Lemma increment_fine checks n p : (n < u64_max)%N → increment checks n p = (Ok (n + 1)%N, p).
Proof. intros Hn. unfold increment. by rewrite (proj2 (N.ltb_lt _ _) Hn). Qed.

(** Solve one arm of the match on the event type. *)
Ltac bumps :=
  repeat match goal with
  | |- context [increment ?c ?n ?q] => rewrite (increment_fine c n q) by (simpl; lia)
  end; simpl.
Ltac arms :=
  bumps; try (destruct (decode_payload _) as [err|v]); simpl; bumps;
  repeat match goal with
  | |- context [bool_at ?k ?d ?v] => destruct (bool_at k d v); simpl; bumps
  | |- context [if bool_decide ?P then _ else _] => case_bool_decide; simpl; bumps
  end; split_and!; try done; try lia; try naive_solver.

Lemma apply_type_fine checks e p n :
  (n < u64_max)%N → counts_within n p →
  let r := apply_type checks e p in
  r.1 ≠ Panic ∧ ap_last_sequence r.2 = ap_last_sequence p ∧ counts_within (n + 1) r.2 ∧
  (∀ v, decode_payload e = inr v → r.1 = Ok ()) ∧ r = apply_type true e p.
Proof.
  intros Hn (H1 & H2 & H3 & H4). unfold counts_within, apply_type, bump_running, drop_running, drop_approvals, payload_of, sat_sub.
  munfold. do 10 (case_bool_decide; [arms|]). simpl. split_and!; try done; lia.
Qed.

(** The projection after an event, whether or not [apply] returns an error. *)
Definition project p (e : EventEnvelope) : AppProjection := state_of (apply true e) p.

(** Counters stay within the sequence number, so they never overflow. *)
Definition projection_wf p : Prop := counts_within (ap_last_sequence p) p.

Lemma apply_old checks e p :
  (ev_monotonic_sequence e <= ap_last_sequence p)%N →
  apply checks e p = (Err (SequenceRegression (ap_last_sequence p) (ev_monotonic_sequence e)), p).
Proof. intros Hs. unfold apply. munfold. by rewrite (proj2 (N.leb_le _ _) Hs). Qed.

Lemma apply_new checks e p :
  projection_wf p → (ap_last_sequence p < ev_monotonic_sequence e)%N → (ev_monotonic_sequence e <= u64_max)%N →
  (apply checks e p).2 = project p e ∧ (apply checks e p).1 ≠ Panic ∧
  ap_last_sequence (project p e) = ev_monotonic_sequence e ∧ projection_wf (project p e) ∧
  (∀ v, decode_payload e = inr v → (apply checks e p).1 = Ok ()).
Proof.
  intros Hwf Hlt Hmax. unfold project, state_of, apply. munfold.
  rewrite (proj2 (N.leb_gt _ _) Hlt). simpl.
  match goal with |- context [apply_type checks e ?q] => set (q0 := q) end.
  assert (counts_within (ap_last_sequence p) q0) as Hq by exact Hwf.
  assert (ap_last_sequence p < u64_max)%N as Hn by lia.
  destruct (apply_type_fine checks e q0 _ Hn Hq) as (Hp & Hl & Hc & Hd & Heq).
  rewrite Heq in *. clear Heq. destruct (apply_type true e q0) as [r q]. simpl in *.
  unfold projection_wf.
  assert (counts_within (ev_monotonic_sequence e) q) as Hc'.
  { destruct Hc as (?&?&?&?). unfold counts_within. lia. }
  destruct r as [[]|err|]; simpl; [destruct (ev_session_id e); simpl|..]; split_and!; try done;
    rewrite ?Hl; try done; intros v Hv; by specialize (Hd v Hv).
Qed.

Definition replay (es : list EventEnvelope) : AppProjection := foldl project projection_default es.

(** Events in increasing order, within the range of a sequence. *)
Definition ascending (n : N) (es : list EventEnvelope) : Prop :=
  StronglySorted N.lt (n :: (ev_monotonic_sequence <$> es)) ∧ Forall (λ e, ev_monotonic_sequence e <= u64_max)%N es.

Lemma ascending_cons n e es :
  ascending n (e :: es) ↔
  (n < ev_monotonic_sequence e)%N ∧ (ev_monotonic_sequence e <= u64_max)%N ∧ ascending (ev_monotonic_sequence e) es.
Proof.
  unfold ascending. rewrite fmap_cons, Forall_cons. split.
  - intros [Hs [He Hes]]. inversion Hs as [|x l Hs' Hall]; subst. inversion Hall; subst. done.
  - intros (Hn & He & Hs & Hes). split; [|done]. constructor; [done|].
    inversion Hs as [|x l Hs' Hall]; subst. constructor; [done|].
    eapply Forall_impl; [exact Hall|]. simpl. intros. lia.
Qed.
End projection.

Lemma ascending_app n a b :
  ascending n (a ++ b) ↔ ascending n a ∧ ascending (default n (ev_monotonic_sequence <$> last a)) b.
Proof.
  revert n. induction a as [|e a IH]; intros n; simpl.
  - split; [intros Hb; split; [|done]; split; [repeat constructor|constructor]|by intros [_ ?]].
  - rewrite !ascending_cons, IH. destruct a as [|e' a]; simpl; [tauto|].
    destruct (last (e' :: a)) eqn:Hl; [simpl; tauto|]. by apply last_None in Hl.
Qed.

Lemma ascending_lb n es e : ascending n es → e ∈ es → (n < ev_monotonic_sequence e)%N.
Proof.
  revert n. induction es as [|x es IH]; intros n; [by intros _ ?%elem_of_nil|].
  rewrite ascending_cons, elem_of_cons. intros (? & ? & Hes) [->|He]; [done|]. specialize (IH _ Hes He). lia.
Qed.

Lemma ascending_ub n es e :
  ascending n es → e ∈ es → (ev_monotonic_sequence e <= default n (ev_monotonic_sequence <$> last es))%N.
Proof.
  revert n. induction es as [|x es IH]; intros n; [by intros _ ?%elem_of_nil|].
  rewrite ascending_cons, elem_of_cons. intros (? & ? & Hes) He.
  destruct es as [|y es]; [destruct He as [->|?%elem_of_nil]; [done|done]|].
  destruct (last (y :: es)) as [z|] eqn:Hl; [|by apply last_None in Hl].
  rewrite last_cons, Hl. simpl. destruct He as [->|He].
  - specialize (ascending_lb _ _ z Hes). intros Hz. apply N.lt_le_incl, Hz. by apply last_Some_elem_of.
  - specialize (IH _ Hes He). exact IH.
Qed.

Section log_order.
Implicit Types db : Database.

Lemma all_ascending db : events_wf db → ascending 0 (all_events db).
Proof.
  intros Hwf. unfold all_events, values.
  assert (Forall (λ e : N * EventEnvelope, db_events db !! e.1 = Some e.2) (entries (db_events db))) as Hin.
  { apply Forall_forall. intros [k e]. apply elem_of_entries. }
  pose proof (keys_sorted (db_events db)) as Hs. pose proof (NoDup_keys (db_events db)) as Hnd. unfold keys in *.
  split.
  - assert (ev_monotonic_sequence <$> (entries (db_events db)).*2 = (entries (db_events db)).*1) as ->.
    { rewrite <- list_fmap_compose. apply list_fmap_ext. intros i [k e] Hi. simpl.
      rewrite Forall_lookup in Hin. specialize (Hin i _ Hi). simpl in Hin. by apply Hwf in Hin as (-> & _). }
    constructor.
    + induction Hs as [|k l Hs IH Hle]; [constructor|]. apply NoDup_cons in Hnd as [Hk Hnd]. constructor; [by apply IH|].
      rewrite Forall_forall in Hle |- *. intros x Hx. specialize (Hle x Hx). assert (x ≠ k) by (by intros ->). unfold Uuid in *. lia.
    + apply Forall_fmap. eapply Forall_impl; [exact Hin|]. simpl. intros [k e] Hk. simpl in *. by apply Hwf in Hk as (_ & ? & _).
  - apply Forall_fmap. eapply Forall_impl; [exact Hin|]. simpl. intros [k e] Hk. simpl in *.
    apply Hwf in Hk as (-> & _ & Hk). unfold i64_max, u64_max in *. lia.
Qed.

Lemma after_filter db n : events_wf db →
  events_after_sequence n db = filter (λ e, n < ev_monotonic_sequence e)%N (all_events db).
Proof.
  intros Hwf. unfold events_after_sequence, all_events, values.
  assert (Forall (λ e : N * EventEnvelope, db_events db !! e.1 = Some e.2) (entries (db_events db))) as Hin.
  { apply Forall_forall. intros [k e]. apply elem_of_entries. }
  induction Hin as [|[k e] l Hk _ IH]; [done|]. apply Hwf in Hk as [Hk _]. simpl in Hk.
  rewrite fmap_cons, !filter_cons. cbn [fst snd]. rewrite Hk. case_decide; [simpl; by f_equal|done].
Qed.

(** Advancing past a batch leaves the rest of the log. *)
Lemma after_batch db n batch rest : events_wf db → events_after_sequence n db = batch ++ rest →
  events_after_sequence (default n (ev_monotonic_sequence <$> last batch)) db = rest ∧ ascending n (batch ++ rest).
Proof.
  intros Hwf Heq. assert (ascending n (batch ++ rest)) as Hasc.
  { rewrite <- Heq. pose proof (all_ascending db Hwf) as Hall. rewrite (upto_after n db) in Hall.
    apply ascending_app in Hall as [_ [Hs Hb]]. split; [|done]. inversion Hs as [|? ? Hs' _]; subst.
    constructor; [done|]. rewrite after_filter by done. apply Forall_fmap, Forall_forall.
    intros e [? _]%list_elem_of_filter. done. }
  split; [|done]. apply ascending_app in Hasc as [Ha Hb].
  set (n' := default n (ev_monotonic_sequence <$> last batch)) in *.
  assert (n <= n')%N as Hn.
  { unfold n'. destruct (last batch) as [e|] eqn:Hl; [|done]. simpl. apply last_Some_elem_of in Hl.
    pose proof (ascending_lb _ _ _ Ha Hl). lia. }
  rewrite after_filter in Heq |- * by done.
  assert (filter (λ e, n' < ev_monotonic_sequence e)%N (all_events db) =
    filter (λ e, n' < ev_monotonic_sequence e)%N (filter (λ e, n < ev_monotonic_sequence e)%N (all_events db))) as ->.
  { rewrite list_filter_filter. apply list_filter_iff. intros e. lia. }
  rewrite Heq, filter_app, list_filter_none, list_filter_all; [done| |].
  - intros e He. by eapply ascending_lb.
  - intros e He. pose proof (ascending_ub _ _ _ Ha He). fold n' in H. lia.
Qed.
End log_order.

(** ** Recovery *)

Section recovery.
Context `{Calendar} (checks : bool).
Implicit Types p : AppProjection.

Definition decodes (e : EventEnvelope) : Prop := ∃ v, decode_payload e = inr v.

Lemma foldl_project_last n es p :
  projection_wf p → ap_last_sequence p = n → ascending n es →
  projection_wf (foldl project p es) ∧
  ap_last_sequence (foldl project p es) = default n (ev_monotonic_sequence <$> last es).
Proof.
  revert n p. induction es as [|e es IH]; intros n p Hwf Hn; [done|]. rewrite ascending_cons. intros (Hlt & Hmax & Hes).
  destruct (apply_new true e p) as (_ & _ & Hl & Hwf' & _); [done|lia|done|]. simpl.
  destruct (IH _ _ Hwf' Hl Hes) as [? ->]. split; [done|]. rewrite last_cons. by destruct (last es).
Qed.

Lemma replay_batch_spec es n p :
  projection_wf p → ap_last_sequence p = n → ascending n es →
  match replay_batch checks es n p with
  | Ok (n', p') => p' = foldl project p es ∧ n' = default n (ev_monotonic_sequence <$> last es)
  | Err _ => ¬ Forall decodes es
  | Panic => False
  end.
Proof.
  revert n p. induction es as [|e es IH]; intros n p Hwf Hn; [done|]. rewrite ascending_cons. intros (Hlt & Hmax & Hes).
  destruct (apply_new checks e p) as (H1 & Hpan & Hl & Hwf' & Hdec); [done|lia|done|]. simpl.
  destruct (apply checks e p) as [[u|err|] p'] eqn:Ha; simpl in *; [subst p'| |done].
  - specialize (IH _ _ Hwf' Hl Hes). destruct (replay_batch _ _ _ _) as [[n' p']| |]; [|rewrite Forall_cons; tauto|done].
    destruct IH as [-> ->]. split; [done|]. rewrite last_cons. by destruct (last es).
  - rewrite Forall_cons. intros [[v Hv] _]. by specialize (Hdec v Hv).
Qed.

Context `{Sqlite}.

Lemma after_db n limit s r s' :
  after n limit s = (r, s') →
  es_db s' = es_db s ∧ r ≠ Panic ∧ ∀ es, r = Ok es → es = take limit (events_after_sequence n (es_db s)).
Proof.
  unfold after, to_i64. munfold. destruct (Z.of_N n <=? i64_max)%Z; [|intros; by simplify_eq].
  intros [Hdb Hr]%query_db. split_and!; [done|by destruct Hr as [->| ->]|]. intros es ->. by destruct Hr as [|[= ->]].
Qed.

Lemma replay_batches_spec fuel n p s r s' :
  events_wf (es_db s) → projection_wf p → ap_last_sequence p = n →
  length (events_after_sequence n (es_db s)) < fuel →
  replay_batches checks fuel n p s = (r, s') →
  es_db s' = es_db s ∧ r ≠ Panic ∧ ∀ p', r = Ok p' → p' = foldl project p (events_after_sequence n (es_db s)).
Proof.
  intros Hev. revert n p s Hev. induction fuel as [|fuel IH]; intros n p s Hev Hwf Hn Hfuel; [lia|]. cbn [replay_batches].
  unfold mbind, M_bind, map_err.
  destruct (after n 512 s) as [r1 s1] eqn:Ha. apply after_db in Ha as (Hdb & Hpan & Hes).
  destruct r1 as [es|e|]; [|intros; by simplify_eq..]. specialize (Hes es eq_refl).
  set (log := events_after_sequence n (es_db s)) in *.
  assert (log = es ++ drop 512 log) as Hlog by (subst es; by rewrite take_drop).
  destruct (after_batch (es_db s) n es (drop 512 log)) as [Hrest Hasc]; [done|done|].
  apply ascending_app in Hasc as [Hasc _].
  destruct es as [|x es].
  { intros [= <- <-]. split_and!; [done..|]. intros p' [= <-].
    destruct log as [|y log]; [done|]. by simplify_eq/=. }
  assert (length (drop 512 log) < length log) as Hlen.
  { rewrite Hlog at 2. rewrite length_app. simpl. lia. }
  unfold lift. pose proof (replay_batch_spec (x :: es) n p Hwf Hn Hasc) as Hb.
  destruct (replay_batch checks (x :: es) n p) as [[n' p']| |]; [|intros; by simplify_eq|done].
  destruct Hb as [-> ->]. intros Hrun. destruct (foldl_project_last n (x :: es) p Hwf Hn Hasc) as [Hwf' Hl'].
  eapply IH in Hrun; [|by rewrite Hdb|exact Hwf'|exact Hl'|rewrite Hdb, Hrest; lia].
  rewrite Hdb, Hrest in Hrun. destruct Hrun as (? & ? & Hok). split_and!; [done..|].
  intros p' Hp'. rewrite (Hok p' Hp'). rewrite Hlog at 2. by rewrite foldl_app.
Qed.

(** With a connection that does not fail and payloads that decode, recovery succeeds. *)
Lemma replay_batches_total fuel n p s :
  (∀ i, failing i = false) → events_wf (es_db s) → projection_wf p → ap_last_sequence p = n →
  (Z.of_N n <= i64_max)%Z → Forall decodes (events_after_sequence n (es_db s)) →
  is_ok (replay_batches checks fuel n p s).1 = true.
Proof.
  intros Hf. revert n p s. induction fuel as [|fuel IH]; intros n p s Hev Hwf Hn Hmax Hdec; [done|]. cbn [replay_batches].
  unfold mbind, M_bind, map_err, after, to_i64. rewrite (proj2 (Z.leb_le _ _) Hmax). munfold.
  rewrite query_fine by done. simpl.
  set (log := events_after_sequence n (es_db s)) in *. destruct (take 512 log) as [|x es] eqn:Ht; [done|].
  assert (log = (x :: es) ++ drop 512 log) as Hlog by (by rewrite <- Ht, take_drop).
  destruct (after_batch (es_db s) n (x :: es) (drop 512 log)) as [Hrest Hasc]; [done|done|].
  apply ascending_app in Hasc as [Hasc _].
  pose proof (replay_batch_spec (x :: es) n p Hwf Hn Hasc) as Hb. rewrite Hlog in Hdec.
  apply Forall_app in Hdec as [Hd1 Hd2].
  destruct (replay_batch checks (x :: es) n p) as [[n' p']| |]; [|tauto|done].
  destruct Hb as [-> ->]. destruct (foldl_project_last n (x :: es) p Hwf Hn Hasc) as [Hwf' Hl'].
  apply IH; simpl; [done|done|done| |by rewrite Hrest].
  destruct (last (x :: es)) as [y|] eqn:Hl; [simpl|by apply last_None in Hl].
  apply last_Some_elem_of in Hl.
  assert (y ∈ events_after_sequence n (es_db s)) as Hy by (fold log; rewrite Hlog; apply elem_of_app; by left).
  unfold events_after_sequence in Hy. apply list_elem_of_fmap in Hy as ([k y'] & -> & [_ Hk%elem_of_entries]%list_elem_of_filter).
  simpl. by apply Hev in Hk as (-> & _ & ?).
Qed.
End recovery.

(** ** The invariant of a profile *)

Section invariant.
(** [base] is a log that was stored at some time. *)
Context `{Calendar} (base : list EventEnvelope).
Implicit Types db : Database.

(** A stored checkpoint is the projection of the events up to its sequence. *)
Definition checkpoint_ok db : Prop :=
  match find_snapshot PROJECTION_CHECKPOINT_KIND PROJECTION_CHECKPOINT_ID db with
  | None => True
  | Some (BodyProjection c) =>
    pc_last_sequence c = ap_last_sequence (pc_projection_snapshot_blob c) ∧
    pc_projection_snapshot_blob c = replay (events_upto (pc_last_sequence c) db) ∧
    (pc_last_sequence c <= max_sequence db)%N
  | Some _ => False
  end.

(** The log has no gaps. *)
Definition gapless db : Prop := ∀ n, (0 < n)%N → (n <= max_sequence db)%N → is_Some (db_events db !! n).

Record db_ok db : Prop := {
  ok_events : events_wf db;
  ok_gapless : gapless db;
  ok_checkpoint : checkpoint_ok db;
  ok_base : base `prefix_of` all_events db;
}.

(** The projection is that of the events up to its sequence. *)
Definition projected db (p : AppProjection) : Prop :=
  p = replay (events_upto (ap_last_sequence p) db) ∧ (ap_last_sequence p <= max_sequence db)%N.

Definition profile_ok (s : ProfileState) : Prop :=
  db_ok (es_db (ps_store s)) ∧ projected (es_db (ps_store s)) (ps_projection s).

(** Changes that concern neither the log nor the checkpoint. *)
Definition quiet (db db' : Database) : Prop :=
  db_events db' = db_events db ∧
  find_snapshot PROJECTION_CHECKPOINT_KIND PROJECTION_CHECKPOINT_ID db' =
  find_snapshot PROJECTION_CHECKPOINT_KIND PROJECTION_CHECKPOINT_ID db.
Global Instance quiet_preorder : PreOrder quiet.
Proof. split; [done|]. intros a b c [H1 H2] [H3 H4]. unfold quiet. by rewrite H3, H4, H1, H2. Qed.

Lemma quiet_log db db' n : quiet db db' →
  events_upto n db' = events_upto n db ∧ max_sequence db' = max_sequence db ∧ all_events db' = all_events db.
Proof. intros [He _]. unfold events_upto, max_sequence, all_events. by rewrite He. Qed.

Lemma quiet_ok db db' : quiet db db' → db_ok db → db_ok db'.
Proof.
  intros Hq [He Hg Hc Hb]. destruct (quiet_log _ _ 0 Hq) as (_ & Hm & Hall). pose proof Hq as [Hev Hs]. split.
  - unfold events_wf. by rewrite Hev.
  - unfold gapless. by rewrite Hev, Hm.
  - unfold checkpoint_ok in *. rewrite Hs. destruct (find_snapshot _ _ db) as [[]|]; try done.
    destruct (quiet_log _ _ (pc_last_sequence c) Hq) as (-> & -> & _). done.
  - by rewrite Hall.
Qed.

Lemma quiet_projected db db' p : quiet db db' → projected db p → projected db' p.
Proof. intros Hq. unfold projected. destruct (quiet_log _ _ (ap_last_sequence p) Hq) as (-> & -> & _). done. Qed.

(** ** Appending *)

(** [db'] is [db] with one more event at its end, up to quiet changes. *)
Definition appended (e : EventEnvelope) db db' : Prop :=
  db_events db !! ev_monotonic_sequence e = None ∧
  db_events db' = <[ev_monotonic_sequence e := e]> (db_events db) ∧
  find_snapshot PROJECTION_CHECKPOINT_KIND PROJECTION_CHECKPOINT_ID db' =
  find_snapshot PROJECTION_CHECKPOINT_KIND PROJECTION_CHECKPOINT_ID db.

Lemma appended_log e db db' :
  appended e db db' → ev_monotonic_sequence e = (max_sequence db + 1)%N →
  all_events db' = all_events db ++ [e] ∧ max_sequence db' = ev_monotonic_sequence e ∧
  ∀ n, (n <= max_sequence db)%N → events_upto n db' = events_upto n db.
Proof.
  intros (_ & Hev & _) Hseq.
  assert (entries (db_events db') = entries (db_events db) ++ [(ev_monotonic_sequence e, e)]) as Hent.
  { rewrite Hev. apply entries_insert_last. intros k Hk%max_sequence_ub. lia. }
  split_and!.
  - unfold all_events, values. by rewrite Hent, fmap_app.
  - unfold max_sequence, keys. rewrite Hent, fmap_app. simpl.
    assert (∀ l x, foldr N.max 0%N (l ++ [x]) = N.max (foldr N.max 0%N l) x) as Hmax.
    { intros l x. induction l as [|y l IH]; simpl; [lia|]. rewrite IH. lia. }
    rewrite Hmax. fold (keys (db_events db)). fold (max_sequence db). lia.
  - intros n Hn. unfold events_upto. rewrite Hent, filter_app, fmap_app.
    rewrite (list_filter_none _ [_]), fmap_nil, (right_id_L [] (++)); [done|]. intros x ->%list_elem_of_singleton. simpl. lia.
Qed.

Lemma appended_ok e db db' :
  db_ok db → appended e db db' → ev_monotonic_sequence e = (max_sequence db + 1)%N →
  (Z.of_N (ev_monotonic_sequence e) <= i64_max)%Z → db_ok db'.
Proof.
  intros [He Hg Hc Hbase] Happ Hseq Hmax. destruct (appended_log _ _ _ Happ Hseq) as (Hall & Hm & Hupto).
  destruct Happ as (_ & Hev & Hs). split.
  - intros n x. rewrite Hev. destruct (decide (ev_monotonic_sequence e = n)) as [<-|Hne].
    + rewrite lookup_insert_eq. intros [= <-]. split_and!; [done|lia|done].
    + rewrite lookup_insert_ne by done. apply He.
  - intros n Hn Hle. rewrite Hev. destruct (decide (ev_monotonic_sequence e = n)) as [<-|Hne].
    + rewrite lookup_insert_eq. eauto.
    + rewrite lookup_insert_ne by done. apply Hg; [done|]. lia.
  - unfold checkpoint_ok in *. rewrite Hs. destruct (find_snapshot _ _ db) as [[]|]; try done.
    destruct Hc as (Hl & Hb & Hle). split_and!; [done|by rewrite Hupto|lia].
  - rewrite Hall. by apply prefix_app_r.
Qed.

(** An event fits only after the last one. *)
Lemma append_at_end e db p :
  db_ok db → projected db p → db_events db !! ev_monotonic_sequence e = None →
  ev_monotonic_sequence e = (ap_last_sequence p + 1)%N → ap_last_sequence p = max_sequence db.
Proof.
  intros [_ Hg _ _] [_ Hle] Hnone Hseq.
  destruct (decide (ap_last_sequence p = max_sequence db)) as [|Hne]; [done|].
  destruct (Hg (ev_monotonic_sequence e)) as [x Hx]; [lia|lia|]. congruence.
Qed.

(** The numbers of the log. *)
Lemma log_numbers db : db_ok db →
  ev_monotonic_sequence <$> all_events db = (λ i, N.of_nat i) <$> seq 1 (N.to_nat (max_sequence db)).
Proof.
  intros [Hev Hg _ _]. pose proof (all_ascending db Hev) as [Hs _]. inversion Hs as [|? ? Hs' _]; subst.
  assert (∀ l, StronglySorted N.lt l → NoDup l) as Hnd.
  { intros l. induction 1 as [|x l _ IH Hall]; [constructor|]. constructor; [|done].
    rewrite Forall_forall in Hall. intros Hx. specialize (Hall x Hx). lia. }
  assert (∀ l, StronglySorted Nat.lt l → StronglySorted N.lt ((λ i, N.of_nat i) <$> l)) as Hmap.
  { intros l. induction 1 as [|x l _ IH Hall]; [constructor|]. constructor; [done|].
    apply Forall_fmap. eapply Forall_impl; [exact Hall|]. simpl. lia. }
  assert (∀ n k, StronglySorted Nat.lt (seq k n)) as Hseq.
  { intros n. induction n as [|n IH]; intros k; constructor; [done|]. apply Forall_forall.
    intros x Hx%elem_of_seq. lia. }
  apply (StronglySorted_unique_strong N.lt); [intros x y _ _ ? ?; lia|done|auto|].
  apply NoDup_Permutation; [auto|auto|]. intros n. rewrite !list_elem_of_fmap. split.
  - intros (e & -> & [k Hk]%elem_of_values). pose proof (max_sequence_ub db k ltac:(eauto)).
    apply Hev in Hk as (-> & ? & _). exists (N.to_nat k). rewrite elem_of_seq. lia.
  - intros (i & -> & Hi%elem_of_seq). destruct (Hg (N.of_nat i)) as [e He]; [lia|lia|].
    exists e. split; [by apply Hev in He as (-> & _)|]. apply elem_of_values. eauto.
Qed.

(** The event at a position has the next number. *)
Lemma gapless_lookup db i e :
  db_ok db → all_events db !! i = Some e → ev_monotonic_sequence e = (N.of_nat i + 1)%N.
Proof.
  intros Hok Hi.
  pose proof (f_equal (λ l : list N, l !! i) (log_numbers db Hok)) as Hn. simpl in Hn.
  rewrite !list_lookup_fmap, Hi in Hn. simpl in Hn. symmetry in Hn.
  apply fmap_Some in Hn as (j & [-> _]%lookup_seq & ->). lia.
Qed.

Lemma filter_numbered (k : nat) (n : N) (l : list EventEnvelope) :
  (∀ i e, l !! i = Some e → ev_monotonic_sequence e = (N.of_nat (k + i) + 1)%N) →
  filter (λ e, ev_monotonic_sequence e <= n)%N l = take (N.to_nat n - k) l.
Proof.
  revert k. induction l as [|e l IH]; intros k Hl; [by rewrite take_nil|].
  pose proof (Hl 0 e eq_refl) as He. rewrite filter_cons, (IH (S k)); [|intros i x Hx; rewrite (Hl (S i) x Hx); lia].
  case_decide; destruct (N.to_nat n - k) as [|m] eqn:Hm; [lia| |simpl|lia].
  - replace (N.to_nat n - S k) with m by lia. done.
  - by replace (N.to_nat n - S k) with 0 by lia.
Qed.

Lemma upto_take db n : db_ok db → events_upto n db = take (N.to_nat n) (all_events db).
Proof.
  intros Hok. rewrite <- (Nat.sub_0_r (N.to_nat n)), <- filter_numbered; [|intros; by eapply gapless_lookup].
  unfold events_upto, all_events, values.
  assert (Forall (λ e : N * EventEnvelope, db_events db !! e.1 = Some e.2) (entries (db_events db))) as Hin.
  { apply Forall_forall. intros [k e]. apply elem_of_entries. }
  induction Hin as [|[k e] l Hk _ IH]; [done|]. apply (ok_events _ Hok) in Hk as [Hk _]. simpl in Hk.
  rewrite fmap_cons, !filter_cons. cbn [fst snd]. rewrite Hk. case_decide; [simpl; by f_equal|done].
Qed.
End invariant.

Section steps.
Context `{Calendar} `{EventHost} `{UuidText} `{Sha256} (checks : bool) (json_of : string → Value)
  (base : list EventEnvelope).
Implicit Types s : ProfileState.

Lemma replay_nil_wf : projection_wf projection_default.
Proof. unfold projection_wf, counts_within. simpl. lia. Qed.

Lemma replay_wf n db :
  events_wf db → projection_wf (replay (events_upto n db)) ∧
  ap_last_sequence (replay (events_upto n db)) = default 0%N (ev_monotonic_sequence <$> last (events_upto n db)).
Proof.
  intros Hev. pose proof (all_ascending db Hev) as Hall. rewrite (upto_after n db) in Hall.
  apply ascending_app in Hall as [Hasc _]. apply foldl_project_last; [apply replay_nil_wf|done|done].
Qed.

Lemma projected_wf db p : db_ok base db → projected db p → projection_wf p.
Proof. intros Hok [-> _]. apply replay_wf, Hok. Qed.

Lemma projected_range db p : db_ok base db → projected db p → (Z.of_N (ap_last_sequence p) <= i64_max)%Z.
Proof.
  intros Hok [_ Hle]. destruct (max_sequence_in db) as [Hz|[e He]]; [unfold i64_max; lia|].
  apply Hok in He as (_ & _ & ?). unfold i64_max in *. lia.
Qed.

(** *** Rebuilding *)

Lemma rebuild_base `{Sqlite} db c n :
  db_ok base db → (∀ x, c = Some x → find_snapshot PROJECTION_CHECKPOINT_KIND PROJECTION_CHECKPOINT_ID db = Some (BodyProjection x)) →
  let '(p, after_sequence) := replay_base c n in
  ap_last_sequence p = after_sequence ∧ p = replay (events_upto after_sequence db) ∧ projection_wf p ∧
  (Z.of_N after_sequence <= i64_max)%Z.
Proof.
  intros Hok Hc. unfold replay_base.
  assert (projection_default = replay (events_upto 0 db)) as Hzero.
  { unfold events_upto. rewrite list_filter_none; [done|]. intros [k e] Hin%elem_of_entries. simpl.
    apply (ok_events _ _ Hok) in Hin as (_ & ? & _). lia. }
  assert (ap_last_sequence projection_default = 0%N ∧ projection_default = replay (events_upto 0 db) ∧
    projection_wf projection_default ∧ (Z.of_N 0 <= i64_max)%Z) as Hbase.
  { split_and!; [done|done|apply replay_nil_wf|done]. }
  destruct c as [x|]; [|exact Hbase]. specialize (Hc x eq_refl). pose proof (ok_checkpoint _ _ Hok) as Hch.
  unfold checkpoint_ok in Hch. rewrite Hc in Hch. destruct Hch as (Hl & Hb & Hle).
  destruct (_ && _); [|exact Hbase].
  assert (projected db (pc_projection_snapshot_blob x)) as Hp by (split; rewrite <- Hl; done).
  split_and!; [done|done|by eapply projected_wf|]. rewrite Hl. by eapply projected_range.
Qed.

Lemma length_after n db : length (events_after_sequence n db) ≤ size (db_events db).
Proof.
  unfold events_after_sequence. rewrite length_fmap. etrans; [apply length_filter|].
  by rewrite entries_perm, length_map_to_list.
Qed.

Lemma checkpoint_query `{Sqlite} c db :
  db_ok base db → load_snapshot PROJECTION_CHECKPOINT_KIND PROJECTION_CHECKPOINT_ID db = Ok c →
  ∀ x, c = Some x → find_snapshot PROJECTION_CHECKPOINT_KIND PROJECTION_CHECKPOINT_ID db = Some (BodyProjection x).
Proof.
  intros _ Hl x ->. unfold load_snapshot in Hl. destruct (find_snapshot _ _ db) as [[]|]; simplify_eq/=. done.
Qed.

(** What is rebuilt is the replay of the whole log. *)
Lemma rebuild_spec `{Sqlite} (s : EventStore) r (s' : EventStore) :
  db_ok base (es_db s) → rebuild_projection_from checks s = (r, s') →
  es_db s' = es_db s ∧ r ≠ Panic ∧ ∀ p, r = Ok p → p = replay (all_events (es_db s)).
Proof.
  intros Hok. unfold rebuild_projection_from, map_err, mbind, M_bind.
  destruct (last_sequence s) as [r1 s1] eqn:Hq1. apply query_db in Hq1 as [Hdb1 Hr1].
  destruct r1 as [n| |]; [|intros; by simplify_eq|by destruct Hr1].
  destruct (projection_checkpoint s1) as [r2 s2] eqn:Hq2. apply query_db in Hq2 as [Hdb2 Hr2]. rewrite Hdb1 in *.
  destruct r2 as [c| |]; [|intros; simplify_eq; split_and!; congruence|].
  2: { destruct Hr2 as [|Hr2]; [done|]. unfold load_snapshot in Hr2. by repeat case_match. }
  destruct Hr2 as [|Hr2]; [done|]. pose proof (checkpoint_query c _ Hok (eq_sym Hr2)) as Hc.
  pose proof (rebuild_base (es_db s) c n Hok Hc) as Hbase.
  destruct (replay_base c n) as [p after_sequence]. destruct Hbase as (Hl & Hp & Hwf & _). cbn [get]. unfold get.
  intros Hrun. eapply replay_batches_spec in Hrun; [|by rewrite Hdb2; apply Hok|done|done|].
  - rewrite Hdb2 in Hrun. destruct Hrun as (? & ? & Hok'). split_and!; [done..|].
    intros p' Hp'. rewrite (Hok' p' Hp'), (upto_after after_sequence). unfold replay. rewrite foldl_app. by f_equal.
  - pose proof (length_after after_sequence (es_db s2)). lia.
Qed.

Lemma rebuild_total `{Sqlite} (s : EventStore) :
  (∀ n, failing n = false) → db_ok base (es_db s) → Forall decodes (all_events (es_db s)) →
  is_ok (rebuild_projection_from checks s).1 = true.
Proof.
  intros Hf Hok Hdec. unfold rebuild_projection_from, map_err, mbind, M_bind, last_sequence, projection_checkpoint.
  rewrite !query_fine by done. cbn [es_db].
  assert (∃ c, load_snapshot (T := ProjectionCheckpoint) PROJECTION_CHECKPOINT_KIND PROJECTION_CHECKPOINT_ID (es_db s) = Ok c)
    as [c Hc].
  { pose proof (ok_checkpoint _ _ Hok) as Hch. unfold checkpoint_ok in Hch. unfold load_snapshot.
    destruct (find_snapshot _ _ _) as [[]|]; simpl; eauto; done. }
  rewrite Hc. pose proof (rebuild_base (es_db s) c (max_sequence (es_db s)) Hok (checkpoint_query c _ Hok Hc)) as Hbase.
  destruct (replay_base c _) as [p after_sequence]. destruct Hbase as (Hl & Hp & Hwf & Hr). unfold get.
  apply replay_batches_total; simpl; [done|apply Hok|done|done|done|].
  rewrite (upto_after after_sequence) in Hdec. by apply Forall_app in Hdec as [_ ?].
Qed.

(** *** Changes that keep the invariant *)

Definition ext (db db' : Database) : Prop :=
  db_ok base db → db_ok base db' ∧ ∀ p, projected db p → projected db' p.
Global Instance ext_preorder : PreOrder ext.
Proof.
  split; [by intros db Hok|]. intros a b c Hab Hbc Ha. destruct (Hab Ha) as [Hb Hpb]. destruct (Hbc Hb) as [Hc Hpc].
  split; [done|]. intros p Hp. by apply Hpc, Hpb.
Qed.

Lemma quiet_ext db db' : quiet db db' → ext db db'.
Proof. intros Hq Hok. split; [by eapply quiet_ok|]. intros p. by apply quiet_projected. Qed.

Lemma appended_ext e db db' :
  appended e db db' → ev_monotonic_sequence e = (max_sequence db + 1)%N →
  (Z.of_N (ev_monotonic_sequence e) <= i64_max)%Z → ext db db'.
Proof.
  intros Ha Hseq Hmax Hok. split; [by eapply appended_ok|]. intros p [Hp Hle].
  destruct (appended_log _ _ _ Ha Hseq) as (_ & Hm & Hupto). split; [by rewrite Hupto|lia].
Qed.

(** A store operation keeps the invariant. *)
Definition keeps {A} (m : ST A) : Prop := ∀ st r st', m st = (r, st') → ext (es_db st) (es_db st').

Lemma keeps_query `{Sqlite} {A} (f : Database → outcome StorageError A) : keeps (query f).
Proof. intros st r st' [-> _]%query_db. reflexivity. Qed.
Lemma keeps_bind {A B} (m : ST A) (k : A → ST B) : keeps m → (∀ a, keeps (k a)) → keeps (m ≫= k).
Proof.
  intros Hm Hk st r st'. unfold mbind, M_bind. destruct (m st) as [[a| |] st1] eqn:Hm1; intros Hrun; simplify_eq.
  - etrans; [by eapply Hm|by eapply Hk].
  - by eapply Hm.
  - by eapply Hm.
Qed.
Lemma keeps_lift {A} (o : outcome StorageError A) : keeps (lift o).
Proof. intros st r st' [= _ <-]. reflexivity. Qed.
Lemma keeps_transaction `{Sqlite} {A} (body : string → TX A) : (∀ now, stays quiet (body now)) → keeps (transaction body).
Proof. intros Hb st r st' Hrun. apply quiet_ext. by eapply (transaction_stays quiet). Qed.

Lemma put_snapshot_quiet kind id now body :
  kind ≠ PROJECTION_CHECKPOINT_KIND → stays quiet (put_snapshot kind id now body).
Proof.
  intros Hk db. split; [done|]. unfold put_snapshot, find_snapshot. simpl.
  rewrite lookup_insert_ne; [done|]. intros Heq. by simplify_eq.
Qed.
Lemma save_in_transaction_quiet {T} `{Stored T, EqDecision T} kind id now (x : T) :
  kind ≠ PROJECTION_CHECKPOINT_KIND → stays quiet (save_snapshot_in_transaction kind id now x).
Proof. intros Hk. unfold save_snapshot_in_transaction. stay; by apply put_snapshot_quiet. Qed.
Lemma keeps_save_snapshot `{Sqlite} {T} `{Stored T} kind id (x : T) :
  kind ≠ PROJECTION_CHECKPOINT_KIND → keeps (save_snapshot kind id x).
Proof. intros Hk. apply keeps_transaction. intros now. by apply put_snapshot_quiet. Qed.

Lemma sync_rows_quiet profile snapshot : stays quiet (sync_memory_rows profile snapshot).
Proof.
  unfold sync_memory_rows. stay.
  - match goal with |- quiet ?d (foldl _ ?d ?l) => generalize d, l end. intros d l. revert d.
    induction l as [|id l IH]; intros db; simpl; [done|]. etrans; [|apply IH].
    unfold delete_stale, delete_links. repeat case_match; done.
  - apply stays_execute_all; [apply _|]. intros row. unfold sync_row. stay; done.
Qed.

Lemma delete_snapshot_quiet kind id db :
  kind ≠ PROJECTION_CHECKPOINT_KIND → quiet db (delete_snapshot kind id db).
Proof.
  intros Hk. split; [done|]. unfold find_snapshot, delete_snapshot. simpl. rewrite lookup_delete_ne; [done|].
  intros Heq. by simplify_eq.
Qed.

Lemma keeps_save_memory `{Sqlite} profile snapshot : keeps (save_memory_snapshot profile snapshot).
Proof.
  apply keeps_transaction. intros now. stay; [apply sync_rows_quiet|by apply save_in_transaction_quiet|].
  by apply delete_snapshot_quiet.
Qed.
Lemma keeps_save_persistent `{Sqlite} profile snapshot : keeps (save_persistent_memory_snapshot profile snapshot).
Proof.
  apply keeps_transaction. intros now. stay; [apply sync_rows_quiet|by apply save_in_transaction_quiet..|].
  etrans; by apply delete_snapshot_quiet.
Qed.

Lemma checkpoint_updates_quiet now updates : stays quiet (checkpoint_updates now updates).
Proof.
  induction updates as [|u us IH]; simpl; stay; [|done]. unfold checkpoint_update. stay. by apply put_snapshot_quiet.
Qed.
Lemma keeps_checkpoint_updates `{Sqlite} updates : keeps (save_supervisor_checkpoint_updates updates).
Proof.
  unfold save_supervisor_checkpoint_updates. case_bool_decide; [apply (keeps_lift (Ok ()))|].
  apply keeps_transaction. intros now. apply checkpoint_updates_quiet.
Qed.
Lemma keeps_save_supervisor `{Sqlite} snapshot : keeps (save_supervisor_snapshot snapshot).
Proof. apply keeps_bind; [apply keeps_query|]. intros c. by apply keeps_save_snapshot. Qed.
Lemma keeps_blob `{Sqlite} body : keeps (store_blob body).
Proof. apply keeps_bind; [|intros; apply (keeps_lift (Ok _))]. apply keeps_transaction. intros now. stay. done. Qed.
Lemma keeps_report `{Sqlite} run_id fingerprint body : keeps (record_migration_report run_id fingerprint body).
Proof. apply keeps_transaction. intros now. stay; done. Qed.

(** *** Recording *)

Lemma insert_event_spec e db r db' :
  insert_event e db = (r, db') →
  (is_ok r = false ∧ db' = db) ∨ (r = Ok () ∧ appended e db db').
Proof.
  unfold insert_event, db_error. munfold. destruct (_ || _) eqn:Hc; intros; simplify_eq/=; [by left|right].
  apply orb_false_iff in Hc as [Hc _]. split; [done|]. split_and!; [|done..].
  apply bool_decide_eq_false in Hc. by apply eq_None_not_Some.
Qed.

(** A store operation appends the event, or fails and changes nothing. *)
Definition appends {A} (e : EventEnvelope) (m : ST A) : Prop := ∀ st r st', m st = (r, st') →
  (is_ok r = false ∧ es_db st' = es_db st) ∨
  (is_ok r = true ∧ appended e (es_db st) (es_db st') ∧ (Z.of_N (ev_monotonic_sequence e) <= i64_max)%Z).

Lemma validate_range e : validate_event e = Ok () → (Z.of_N (ev_monotonic_sequence e) <= i64_max)%Z.
Proof.
  unfold validate_event, to_i64. rewrite outcome_seq_ok. intros [_ Hv]. apply outcome_bind_ok in Hv as (z & Hz & _).
  destruct (Z.leb_spec (Z.of_N (ev_monotonic_sequence e)) i64_max); [done|discriminate].
Qed.

Lemma appends_transaction `{Sqlite} e (pre : string → TX ()) :
  (∀ now, stays quiet (pre now)) →
  appends e (_ ← lift (validate_event e); transaction (λ now, _ ← pre now; insert_event e)).
Proof.
  intros Hpre st r st'. unfold mbind at 1, M_bind at 1, lift.
  destruct (validate_event e) as [[]| |] eqn:Hv; [|intros; simplify_eq; by left..].
  intros [[Hdb Hr]|(a & now & -> & Hrun)]%transaction_db; [by left|right].
  unfold mbind, M_bind in Hrun. specialize (Hpre now (es_db st)).
  destruct (pre now (es_db st)) as [[u| |] db1]; [|by simplify_eq..]. simpl in Hpre.
  apply insert_event_spec in Hrun as [[? _]|[_ (Hn & Hev & Hs)]]; [done|]. destruct Hpre as [Hq1 Hq2].
  split_and!; [done| |by apply validate_range]. split_and!; [by rewrite <- Hq1|by rewrite Hev, Hq1|by rewrite Hs].
Qed.

Lemma appends_append `{Sqlite} e : appends e (append e).
Proof.
  intros st r st' Hrun. apply (appends_transaction e (λ _, mret ())); [intros now; stay|].
  revert Hrun. unfold append, mbind, M_bind, lift, mret, M_ret. destruct (validate_event e); done.
Qed.

Lemma appends_usage `{Sqlite} e facts egress : appends e (append_usage_event e facts egress).
Proof.
  intros st r st' Hrun.
  apply (appends_transaction e (λ _, _ ← execute_all (insert_usage (ev_profile_id e)) facts;
    execute_all (insert_egress (ev_profile_id e)) egress)).
  { intros now. stay; apply stays_execute_all; try apply _; intros x; [unfold insert_usage|unfold insert_egress]; stay; try done.
    by repeat case_match. }
  revert Hrun. unfold append_usage_event, mbind, M_bind, lift. destruct (validate_event e); [|done..].
  intros <-. unfold transaction, mbind, M_bind, call, get.
  destruct (failing _); simpl; [done|]. by destruct (execute_all (insert_usage _) _ _) as [[]?].
Qed.

Lemma appends_snapshot `{Sqlite} {T} `{Stored T} kind id (x : T) e :
  kind ≠ PROJECTION_CHECKPOINT_KIND → appends e (save_runtime_snapshot_and_event kind id x e).
Proof. intros Hk. apply appends_transaction. intros now. by apply put_snapshot_quiet. Qed.

Lemma appends_supervisor `{Sqlite} snapshot e : appends e (save_supervisor_snapshot_and_event snapshot e).
Proof.
  intros st r st' Hrun.
  apply (appends_transaction e (λ now,
    db ← get;
    previous ← lift (load_supervisor_checkpoint (goal_id_of snapshot) db);
    c ← lift (evolve_supervisor_checkpoint previous snapshot e);
    put_snapshot SUPERVISOR_SNAPSHOT_KIND (goal_id_of snapshot) now (to_body c))).
  { intros now. stay. by apply put_snapshot_quiet. }
  revert Hrun. unfold save_supervisor_snapshot_and_event, mbind, M_bind, lift. destruct (validate_event e); [|done..].
  intros <-. unfold transaction, mbind, M_bind, call, get.
  destruct (failing _); simpl; [done|]. destruct (load_supervisor_checkpoint _ _) as [c| |]; [|done..].
  by destruct (evolve_supervisor_checkpoint _ _ _).
Qed.

(** A new checkpoint of the projection. *)
Lemma checkpoint_kept `{Sqlite} st p r st' :
  db_ok base (es_db st) → projected (es_db st) p →
  save_projection_checkpoint p (ap_last_sequence p) st = (r, st') →
  db_ok base (es_db st') ∧ projected (es_db st') p.
Proof.
  intros Hok Hp [[-> _]|(a & now & -> & Hrun)]%transaction_db; [done|].
  unfold put_snapshot, modify in Hrun. injection Hrun as _ <-. destruct Hok as [He Hg Hc Hb], Hp as [Hp Hle]. split; [|done].
  split; [done|done| |done]. unfold checkpoint_ok, find_snapshot. simpl. rewrite lookup_insert_eq. simpl. done.
Qed.

Lemma new_event_spec origin event_type payload s r s' :
  profile_ok base s → new_event checks origin event_type payload s = (r, s') →
  s' = s ∧ ∃ e, r = Ok e ∧ ev_monotonic_sequence e = (ap_last_sequence (ps_projection s) + 1)%N.
Proof.
  intros [Hok Hp]. pose proof (projected_range _ _ Hok Hp) as Hr. unfold new_event, next_sequence. munfold.
  assert (ap_last_sequence (ps_projection s) <? u64_max = true)%N as ->
    by (apply N.ltb_lt; unfold i64_max, u64_max in *; lia).
  intros [= <- <-]. eauto.
Qed.

Lemma apply_persisted_ok `{Sqlite} e s r s' :
  db_ok base (es_db (ps_store s)) → projected (es_db (ps_store s)) (project (ps_projection s) e) →
  (apply checks e (ps_projection s)).2 = project (ps_projection s) e →
  apply_persisted_event checks e s = (r, s') → profile_ok base s'.
Proof.
  intros Hok Hp Heq. unfold apply_persisted_event, on_projection. munfold.
  destruct (apply checks e (ps_projection s)) as [r1 p1]. simpl in Heq. subst p1.
  destruct r1 as [[]| |]; simpl; [|intros; by simplify_eq..].
  destruct (_ =? 0)%N; simpl; [|intros; by simplify_eq].
  unfold checkpoint_projection, on_store. munfold.
  destruct (save_projection_checkpoint _ _ _) as [r2 st2] eqn:Hc.
  destruct (checkpoint_kept _ _ _ _ Hok Hp Hc) as [Hok2 Hp2]. destruct r2; intros; simplify_eq/=; by split.
Qed.

Lemma record_ok `{Sqlite} {A} e (m : ST A) s r s' :
  profile_ok base s → ev_monotonic_sequence e = (ap_last_sequence (ps_projection s) + 1)%N → appends e m →
  (_ ← on_store m; apply_persisted_event checks e) s = (r, s') → profile_ok base s'.
Proof.
  intros [Hok Hp] Hseq Happ. unfold mbind, M_bind, on_store.
  destruct (m (ps_store s)) as [r1 st1] eqn:Hm. apply Happ in Hm as [[Hr Hdb]|(Hr & Ha & Hmax)].
  { destruct r1 as [a| |]; [done|..]; intros; simplify_eq/=; unfold profile_ok; simpl; rewrite Hdb; by split. }
  destruct r1 as [a| |]; [|done..]. simpl.
  assert (ap_last_sequence (ps_projection s) = max_sequence (es_db (ps_store s))) as Hlast.
  { eapply append_at_end; [done|done|apply Ha|done]. }
  assert (ev_monotonic_sequence e = (max_sequence (es_db (ps_store s)) + 1)%N) as Hend by lia.
  pose proof (projected_wf _ _ Hok Hp) as Hwf.
  destruct (apply_new checks e (ps_projection s)) as (Heq & _ & Hl & _ & _); [done|lia|unfold i64_max, u64_max in *; lia|].
  apply apply_persisted_ok; simpl; [by eapply appended_ok| |done].
  destruct (appended_log _ _ _ Ha Hend) as (Hall & Hm' & _). split; [|lia].
  rewrite upto_max by lia. rewrite Hall. unfold replay. rewrite foldl_app. simpl. f_equal.
  destruct Hp as [Hp _]. rewrite upto_max in Hp by lia. exact Hp.
Qed.

Lemma persisted_log `{Sqlite} e s r s' :
  apply_persisted_event checks e s = (r, s') →
  db_events (es_db (ps_store s')) = db_events (es_db (ps_store s)) ∧
  (is_ok r = true → ps_projection s' = (apply checks e (ps_projection s)).2).
Proof.
  unfold apply_persisted_event, on_projection, checkpoint_projection, on_store. munfold.
  destruct (apply checks e (ps_projection s)) as [[[]| |] p]; simpl; [|intros; by simplify_eq..].
  destruct (_ =? 0)%N; simpl; [|intros; by simplify_eq].
  destruct (save_projection_checkpoint _ _ _) as [r2 st2] eqn:Hc.
  assert (db_events (es_db st2) = db_events (es_db (ps_store s))) as Hev.
  { apply transaction_db in Hc as [[-> _]|(a & now & -> & Hrun)]; [done|].
    unfold put_snapshot, modify in Hrun. by injection Hrun as _ <-. }
  destruct r2; intros; by simplify_eq/=.
Qed.

(** A successful record adds its event to the log and to the projection. *)
Lemma record_log `{Sqlite} {A} e (m : ST A) s r s' :
  profile_ok base s → ev_monotonic_sequence e = (ap_last_sequence (ps_projection s) + 1)%N → appends e m →
  (_ ← on_store m; apply_persisted_event checks e) s = (r, s') → is_ok r = true →
  all_events (es_db (ps_store s')) = all_events (es_db (ps_store s)) ++ [e] ∧
  ps_projection s' = replay (all_events (es_db (ps_store s'))).
Proof.
  intros [Hok Hp] Hseq Happ. unfold mbind, M_bind, on_store.
  destruct (m (ps_store s)) as [r1 st1] eqn:Hm. apply Happ in Hm as [[Hr Hdb]|(Hr & Ha & Hmax)];
    (destruct r1 as [a| |]; [|intros; by simplify_eq/=..]); [done|]. simpl.
  assert (ap_last_sequence (ps_projection s) = max_sequence (es_db (ps_store s))) as Hlast.
  { eapply append_at_end; [done|done|apply Ha|done]. }
  destruct (appended_log e (es_db (ps_store s)) (es_db st1)) as (Hall & _ & _); [done|lia|].
  pose proof (projected_wf _ _ Hok Hp) as Hwf.
  destruct (apply_new checks e (ps_projection s)) as (Heq & _ & _); [done|lia|unfold i64_max, u64_max in *; lia|].
  intros [Hev Hproj]%persisted_log Hrok. specialize (Hproj Hrok). simpl in *.
  assert (all_events (es_db (ps_store s')) = all_events (es_db (ps_store s)) ++ [e]) as Hlog
    by (rewrite <- Hall; unfold all_events; by rewrite Hev).
  split; [done|]. rewrite Hproj, Heq, Hlog. unfold replay. rewrite foldl_app. simpl. f_equal.
  destruct Hp as [Hp _]. rewrite upto_max in Hp by lia. exact Hp.
Qed.

(** *** The import *)

Lemma max_range db : db_ok base db → (Z.of_N (max_sequence db) <= i64_max)%Z.
Proof.
  intros Hok. destruct (max_sequence_in db) as [->|[e He]]; [done|]. by apply (ok_events _ _ Hok) in He as (_ & _ & ?).
Qed.

Lemma or_constraint_quiet f : (∀ db db', f db = Some db' → quiet db db') → stays quiet (or_constraint f).
Proof.
  intros Hf db. unfold or_constraint, db_error. munfold. destruct (f db) as [db'|] eqn:Hd; simpl; [by apply Hf|done].
Qed.

Lemma materialize_ext record : stays ext (materialize_migration_record json_of record).
Proof.
  intros db Hok. revert Hok. change (ext db (materialize_migration_record json_of record db).2).
  unfold materialize_migration_record. case_bool_decide as Hk.
  - munfold. destruct (Z.eqb_spec (Z.of_N (max_sequence db)) i64_max) as [|Hne]; [reflexivity|].
    destruct (insert_event _ db) as [r db'] eqn:Hi. apply insert_event_spec in Hi as [[_ ->]|[_ Ha]]; [reflexivity|].
    simpl. intros Hok. pose proof (max_range _ Hok). eapply appended_ext; [exact Ha|done| |done]. simpl. lia.
  - apply quiet_ext. repeat case_bool_decide; try (apply (or_constraint_quiet _); intros d d' Hd; simplify_option_eq; done).
    reflexivity.
Qed.

Lemma keeps_store_record `{Sqlite} record : keeps (store_record json_of record).
Proof.
  intros st r st' [[-> _]|(a & now & -> & Hrun)]%transaction_db; [reflexivity|].
  unfold mbind, M_bind in Hrun.
  match type of Hrun with context [or_constraint ?f (es_db st)] =>
    pose proof (or_constraint_quiet f) as Hq; destruct (or_constraint f (es_db st)) as [r1 db1] eqn:Ho end.
  assert (quiet (es_db st) db1) as Hq1.
  { specialize (Hq ltac:(intros d d' Hd; simplify_option_eq; done) (es_db st)). by rewrite Ho in Hq. }
  destruct r1 as [[]| |]; [|done..]. pose proof (materialize_ext record db1) as Hm. rewrite Hrun in Hm.
  etrans; [by apply quiet_ext|exact Hm].
Qed.

Lemma keeps_import_records `{Sqlite} records : keeps (import_records json_of records).
Proof.
  induction records as [|x xs IH]; simpl; [apply (keeps_lift (Ok ()))|].
  apply keeps_bind; [apply keeps_query|]. intros present. apply keeps_bind; [|done].
  destruct present; [apply (keeps_lift (Ok ()))|apply keeps_store_record].
Qed.

(** *** Operations *)

Lemma on_store_ok {A} (m : ST A) s r s' : keeps m → profile_ok base s → on_store m s = (r, s') → profile_ok base s'.
Proof.
  intros Hm [Hok Hp]. unfold on_store. destruct (m (ps_store s)) as [r1 st1] eqn:Hrun. intros; simplify_eq/=.
  destruct (Hm _ _ _ Hrun Hok) as [? Hp']. split; [done|by apply Hp'].
Qed.

Lemma import_batches_ok `{Sqlite} batches s r s' :
  profile_ok base s → import_batches json_of batches s = (r, s') → profile_ok base s'.
Proof.
  revert s. induction batches as [|[records|e|] batches IH]; intros s Hs; simpl; unfold mret, M_ret, throw, panic;
    [intros; by simplify_eq| |intros; by simplify_eq..].
  unfold mbind, M_bind. destruct (on_store (import_records json_of records) s) as [r1 s1] eqn:Hst.
  pose proof (on_store_ok _ _ _ _ (keeps_import_records records) Hs Hst) as Hs1.
  destruct r1; [by apply IH|intros; by simplify_eq..].
Qed.

(** The replay of the whole log is a projection of it. *)
Lemma replay_all_projected db :
  db_ok base db → projected db (replay (all_events db)) ∧ ap_last_sequence (replay (all_events db)) = max_sequence db.
Proof.
  intros Hok. pose proof (replay_wf (max_sequence db) db (ok_events _ _ Hok)) as [_ Hl]. rewrite upto_max in Hl by done.
  assert (default 0%N (ev_monotonic_sequence <$> last (all_events db)) = max_sequence db) as Hm.
  { destruct (last (all_events db)) as [e|] eqn:He; simpl.
    - apply N.le_antisymm.
      + apply last_Some_elem_of, elem_of_values in He as [k Hk]. pose proof (max_sequence_ub db k ltac:(eauto)).
        apply (ok_events _ _ Hok) in Hk as (-> & _). done.
      + destruct (max_sequence_in db) as [->|[x Hx]]; [lia|]. pose proof (all_ascending db (ok_events _ _ Hok)) as Hasc.
        assert (x ∈ all_events db) as Hin by (apply elem_of_values; eauto).
        pose proof (ascending_ub _ _ _ Hasc Hin) as Hub. rewrite He in Hub. simpl in Hub.
        apply (ok_events _ _ Hok) in Hx as (<- & _). done.
    - apply last_None in He. destruct (max_sequence_in db) as [->|[x Hx]]; [done|].
      assert (x ∈ all_events db) as Hin by (apply elem_of_values; eauto). rewrite He in Hin. by apply elem_of_nil in Hin. }
  rewrite Hm in Hl. split; [|done]. split; [by rewrite Hl, upto_max|by rewrite Hl].
Qed.

Lemma rebuild_projection_ok `{Sqlite} s r s' :
  profile_ok base s → rebuild_projection checks s = (r, s') → profile_ok base s'.
Proof.
  intros [Hok Hp]. unfold rebuild_projection. destruct (rebuild_projection_from checks (ps_store s)) as [r1 st1] eqn:Hr.
  apply rebuild_spec in Hr as (Hdb & _ & Hokr); [|done].
  destruct r1 as [p| |]; intros; simplify_eq; unfold profile_ok; simpl; rewrite Hdb; split; try done.
  rewrite (Hokr p eq_refl). by apply replay_all_projected.
Qed.

Lemma import_legacy_ok `{Sqlite} consent batches run_id fingerprint report s r s' :
  profile_ok base s → import_legacy checks json_of consent batches run_id fingerprint report s = (r, s') → profile_ok base s'.
Proof.
  intros Hs. unfold import_legacy, reject_if, mbind, M_bind, mret, M_ret, throw.
  destruct consent; simpl; [|intros; by simplify_eq]. destruct (import_batches _ _ s) as [r1 s1] eqn:H1'.
  pose proof (import_batches_ok _ _ _ _ Hs H1') as Hs1. destruct r1; [|intros; by simplify_eq..].
  destruct (on_store _ s1) as [r2 s2] eqn:H2'. pose proof (on_store_ok _ _ _ _ (keeps_report _ _ _) Hs1 H2') as Hs2.
  destruct r2; [by apply rebuild_projection_ok|intros; by simplify_eq..].
Qed.

Lemma rebuild_usage_from_db `{Sqlite} profile legacy st r st' :
  rebuild_usage_from profile legacy st = (r, st') → es_db st' = es_db st.
Proof.
  unfold rebuild_usage_from, map_err, mbind, M_bind, usage_aggregates, usage_turn_contexts, lift, mret, M_ret, throw, panic.
  destruct (query _ st) as [r1 st1] eqn:Hq1. apply query_db in Hq1 as [Hdb1 _].
  destruct r1; [|intros; by simplify_eq..].
  destruct (query _ st1) as [r2 st2] eqn:Hq2. apply query_db in Hq2 as [Hdb2 _].
  destruct r2; [|intros; simplify_eq; congruence..].
  destruct (ledger_from_stored _ _); simpl; [|intros; simplify_eq; congruence..].
  destruct (merge_append_only _ _) as [[]?]; intros; simplify_eq; congruence.
Qed.

Lemma rebuild_usage_ok `{Sqlite} s r s' : profile_ok base s → rebuild_usage s = (r, s') → profile_ok base s'.
Proof.
  intros Hs. unfold rebuild_usage. destruct (rebuild_usage_from _ _ _) as [r1 st1] eqn:Hr.
  apply rebuild_usage_from_db in Hr. destruct r1; intros; simplify_eq; unfold profile_ok in *; simpl; by rewrite Hr.
Qed.

(** Recording with the fallback for usage rows. *)
Lemma record_usage_ok `{Sqlite} e facts egress s r s' :
  profile_ok base s → ev_monotonic_sequence e = (ap_last_sequence (ps_projection s) + 1)%N →
  (_ ← append_usage_or_rebuild e facts egress; apply_persisted_event checks e) s = (r, s') → profile_ok base s'.
Proof.
  intros Hs Hseq. unfold mbind at 1, M_bind at 1, append_usage_or_rebuild.
  destruct (on_store (append_usage_event e facts egress) s) as [r1 s1] eqn:Hst.
  destruct r1 as [u|err|].
  - intros Hrun. eapply (record_ok e (append_usage_event e facts egress)); [done|done|apply appends_usage|].
    unfold mbind, M_bind. rewrite Hst. exact Hrun.
  - assert (profile_ok base s1) as Hs1.
    { revert Hst. unfold on_store. destruct (append_usage_event e facts egress (ps_store s)) as [r2 st2] eqn:Ha.
      apply appends_usage in Ha as [[_ Hdb]|[Hr _]]; [|destruct r2; done].
      intros; simplify_eq/=. unfold profile_ok in *. simpl. by rewrite Hdb. }
    unfold mbind, M_bind, throw. destruct (rebuild_usage s1) as [r3 s3] eqn:Hb. pose proof (rebuild_usage_ok _ _ _ Hs1 Hb) as Hs3.
    destruct r3; intros; by simplify_eq.
  - unfold on_store in Hst. destruct (append_usage_event e facts egress (ps_store s)) as [r2 st2] eqn:Ha.
    apply appends_usage in Ha as [[_ Hdb]|[Hr _]]; [|by destruct r2].
    intros; simplify_eq/=. unfold profile_ok in *. simpl. by rewrite Hdb.
Qed.

(** A method keeps the invariant of the profile. *)
Definition sound {A} (m : PS A) : Prop := ∀ s r s', profile_ok base s → m s = (r, s') → profile_ok base s'.

Lemma sound_store {A} (m : ST A) : keeps m → sound (on_store m).
Proof. intros Hm s r s' Hs. by apply on_store_ok. Qed.
Lemma sound_here {A} (m : string → ST A) : (∀ id, keeps (m id)) → sound (s ← get; on_store (m (ps_profile_id s))).
Proof. intros Hm s r s'. apply (sound_store (m (ps_profile_id s)) (Hm _)). Qed.

(** Creating an event and recording it. *)
Lemma sound_record {A} origin event_type payload (f : EventEnvelope → EventEnvelope) (k : EventEnvelope → PS A) :
  (∀ e, ev_monotonic_sequence (f e) = ev_monotonic_sequence e) →
  (∀ e s r s', profile_ok base s → ev_monotonic_sequence e = (ap_last_sequence (ps_projection s) + 1)%N →
     k e s = (r, s') → profile_ok base s') →
  sound (e ← new_event checks origin event_type payload; k (f e)).
Proof.
  intros Hf Hk s r s' Hs. unfold mbind, M_bind.
  destruct (new_event checks origin event_type payload s) as [r1 s1] eqn:Hn.
  apply new_event_spec in Hn as (-> & e & -> & He); [|done]. apply Hk; [done|]. by rewrite Hf.
Qed.
Lemma sound_supervisor {A} snapshot event_type payload (k : EventEnvelope → PS A) :
  (∀ e s r s', profile_ok base s → ev_monotonic_sequence e = (ap_last_sequence (ps_projection s) + 1)%N →
     k e s = (r, s') → profile_ok base s') →
  sound (e ← supervisor_event checks snapshot event_type payload; k e).
Proof.
  intros Hk s r s' Hs Hrun. eapply (sound_record "goal-supervisor" event_type payload
    (λ e, e <| ev_goal_id := Some (goal_id_of snapshot) |> <| ev_task_id := get_str "task_id" payload |>) k); [done|exact Hk|exact Hs|].
  revert Hrun. unfold supervisor_event, mbind, M_bind. by destruct (new_event _ _ _ _ s) as [[]?].
Qed.

Lemma sound_runtime_event `{Sqlite} id event : sound (record_runtime_event checks id event).
Proof.
  intros s r s' Hs. pose proof Hs as [Hok Hp]. pose proof (projected_range _ _ Hok Hp) as Hr.
  unfold record_runtime_event, next_sequence, get, mret, M_ret.
  unfold mbind at 1, M_bind at 1. unfold mbind at 1, M_bind at 1.
  assert (ap_last_sequence (ps_projection s) <? u64_max = true)%N as ->
    by (apply N.ltb_lt; unfold i64_max, u64_max in *; lia).
  unfold mbind at 1, M_bind at 1. unfold mbind at 1, M_bind at 1, on_usage.
  set (e := event <| ev_monotonic_sequence := _ |> <| ev_profile_id := _ |>).
  destruct (ingest_runtime_event_delta id e (ps_usage s)) as [r1 u1].
  destruct r1 as [m|err|]; simpl; [|intros; by simplify_eq..].
  unfold mbind at 1, M_bind at 1, modify. simpl. intros Hrun.
  eapply (record_usage_ok e (fact_writes m) (egress_writes m)); [| |exact Hrun]; done.
Qed.

Lemma sound_egress `{Sqlite} record payload : sound (record_egress_event checks record payload).
Proof.
  unfold record_egress_event. apply (sound_record "egress-gateway" "egress.recorded" payload id); [done|].
  intros e s r s' Hs He. unfold id. unfold mbind at 1, M_bind at 1, get.
  unfold mbind at 1, M_bind at 1.
  set (look := if bool_decide _ then mret true else _).
  destruct (look s) as [r1 s1] eqn:Hl.
  assert (profile_ok base s1 ∧ ps_projection s1 = ps_projection s) as [Hs1 Hp1].
  { unfold look in Hl. case_bool_decide; [by injection Hl as _ <-|]. split.
    - eapply (sound_store (egress_exists _ _)); [apply keeps_query|exact Hs|exact Hl].
    - unfold on_store in Hl. destruct (egress_exists _ _ _). by simplify_eq. }
  destruct r1 as [b| |]; [|intros; by simplify_eq..]. unfold mbind at 1, M_bind at 1.
  set (upd := if b then mret () else _). destruct (upd s1) as [r2 s2] eqn:Hu.
  assert (profile_ok base s2 ∧ ps_projection s2 = ps_projection s) as [Hs2 Hp2].
  { rewrite <- Hp1. unfold upd, on_usage, modify, mbind, M_bind in Hu. destruct b; [by injection Hu as _ <-|].
    destruct (record_egress record (ps_usage s1)) as [[]?]; by simplify_eq/=. }
  destruct r2 as [[]| |]; [|intros; by simplify_eq..]. intros Hrun.
  eapply (record_usage_ok e); [exact Hs2|by rewrite Hp2|exact Hrun].
Qed.

(** ** Profiles over time *)

Inductive profile_op : Type :=
  | OpCheckpoint
  | OpMessage (text : string)
  | OpHealth (health : RuntimeHealth)
  | OpLifecycle (previous_unclean_run : bool)
  | OpSupervisor (snapshot : SupervisorSnapshot) (event_type : string) (payload : Value)
  | OpAppendSupervisor (snapshot : SupervisorSnapshot) (event_type : string) (payload : Value)
  | OpArtifact (workspace event_type : string) (payload : Value)
  | OpRuntime (egress_id : Uuid) (event : EventEnvelope)
  | OpEgress (record : EgressRecord) (payload : Value)
  | OpSaveMemory (memory : MemoryStore)
  | OpSavePersistent (memory : PersistentMemory)
  | OpSaveScheduler (snapshot : Automation.SchedulerSnapshot)
  | OpSaveSupervisor (snapshot : SupervisorSnapshot)
  | OpUpdates (updates : list SupervisorCheckpointUpdate)
  | OpSaveWorkspace (workspace : string)
  | OpBlob (body : list N)
  | OpImport (consent : bool) (batches : Batches) (run_id fingerprint report : string)
  | OpUsagePage (q : UsagePageQuery)
  | OpEventsAfter (sequence : N) (limit : nat).

(** The outcome of an operation, without its value, and the profile it leaves. *)
Definition run_op `{Sqlite} (o : profile_op) (s : ProfileState) : outcome CoreError () * ProfileState :=
  let void {A} (m : PS A) : PS () := _ ← m; mret () in
  match o with
  | OpCheckpoint => checkpoint_projection s
  | OpMessage text => void (submit_user_message checks text) s
  | OpHealth health => void (record_runtime_health checks health) s
  | OpLifecycle b => void (record_lifecycle_start checks b) s
  | OpSupervisor snapshot t payload => void (record_supervisor_event checks snapshot t payload) s
  | OpAppendSupervisor snapshot t payload => void (append_supervisor_event checks snapshot t payload) s
  | OpArtifact w t payload => void (record_artifact_workspace_event checks w t payload) s
  | OpRuntime id event => void (record_runtime_event checks id event) s
  | OpEgress record payload => void (record_egress_event checks record payload) s
  | OpSaveMemory m => profile_save_memory_snapshot m s
  | OpSavePersistent m => profile_save_persistent_memory_snapshot m s
  | OpSaveScheduler x => profile_save_scheduler_snapshot x s
  | OpSaveSupervisor x => profile_save_supervisor_snapshot x s
  | OpUpdates us => profile_save_supervisor_checkpoint_updates us s
  | OpSaveWorkspace w => save_artifact_workspace_snapshot w s
  | OpBlob b => void (store_artifact_blob b) s
  | OpImport c bs run fp report => import_legacy checks json_of c bs run fp report s
  | OpUsagePage q => void (profile_usage_page q) s
  | OpEventsAfter n limit => void (profile_events_after n limit) s
  end.

Lemma sound_void {A} (m : PS A) : sound m → sound (_ ← m; mret ()).
Proof.
  intros Hm s r s' Hs. unfold mbind, M_bind, mret, M_ret. destruct (m s) as [[] s1] eqn:Hrun;
    intros; simplify_eq; by eapply Hm.
Qed.

Lemma sound_append origin event_type payload `{Sqlite} :
  sound (e ← new_event checks origin event_type payload; append_and_apply checks e).
Proof.
  apply (sound_record origin event_type payload id); [done|]. intros e s r s' Hs He Hrun.
  eapply (record_ok e (append e)); [done|done|apply appends_append|exact Hrun].
Qed.

Lemma sound_usage_page `{Sqlite} q : sound (profile_usage_page q).
Proof.
  intros s r s' Hs. unfold profile_usage_page. unfold mbind at 1, M_bind at 1, get.
  assert (∀ A (f : Database → outcome StorageError A) s r s', profile_ok base s → on_store (query f) s = (r, s') → profile_ok base s') as Hq.
  { intros A f s0 r0 s0' Hs0. eapply on_store_ok; [apply keeps_query|done]. }
  unfold mbind at 1, M_bind at 1. destruct (on_store (usage_aggregates _ _ _) s) as [r1 s1] eqn:H1'.
  apply Hq in H1' as Hs1; [|done]. destruct r1; [|intros; by simplify_eq..].
  unfold mbind at 1, M_bind at 1. destruct (on_store (usage_page _ _) s1) as [r2 s2] eqn:H2'.
  apply Hq in H2' as Hs2; [|done]. destruct r2; [|intros; by simplify_eq..].
  unfold mbind, M_bind, lift, mret, M_ret. repeat case_match; intros; simplify_eq; done.
Qed.

Lemma profile_op_ok `{Sqlite} o : sound (run_op o).
Proof.
  destruct o; unfold run_op; try apply sound_void.
  - intros s r s' [Hok Hp]. unfold checkpoint_projection, on_store. munfold.
    destruct (save_projection_checkpoint _ _ _) as [r2 st2] eqn:Hc.
    destruct (checkpoint_kept _ _ _ _ Hok Hp Hc) as [Hok2 Hp2]. intros; simplify_eq/=. by split.
  - unfold submit_user_message. intros s r s' Hs. unfold mbind at 1, M_bind at 1, reject_if.
    destruct (_ || _); unfold throw, mret, M_ret; [intros; by simplify_eq|]. by eapply sound_append.
  - apply sound_append.
  - apply sound_append.
  - apply sound_supervisor. intros e s r s' Hs He Hrun.
    eapply (record_ok e (save_supervisor_snapshot_and_event snapshot e)); [done|done|apply appends_supervisor|exact Hrun].
  - apply sound_supervisor. intros e s r s' Hs He. unfold mbind, M_bind, mret, M_ret.
    destruct (append_and_apply checks e s) as [r1 s1] eqn:Hrun.
    assert (profile_ok base s1) by (eapply (record_ok e (append e)); [done|done|apply appends_append|exact Hrun]).
    destruct r1; intros; by simplify_eq.
  - apply (sound_record "desktop-ui" event_type payload id); [done|]. intros e s r s' Hs He Hrun.
    eapply (record_ok e (save_runtime_snapshot_and_event "artifact-workspace-v1" (ps_profile_id s) workspace e));
      [done|done|by apply appends_snapshot|exact Hrun].
  - apply sound_runtime_event.
  - apply sound_egress.
  - apply (sound_here (λ id, save_memory_snapshot id memory)). intros. apply keeps_save_memory.
  - apply (sound_here (λ id, save_persistent_memory_snapshot id memory)). intros. apply keeps_save_persistent.
  - apply (sound_here (λ id, save_scheduler_snapshot id snapshot)). intros. by apply keeps_save_snapshot.
  - apply sound_store, keeps_save_supervisor.
  - apply sound_store, keeps_checkpoint_updates.
  - apply (sound_here (λ id, save_runtime_snapshot "artifact-workspace-v1" id workspace)). intros. by apply keeps_save_snapshot.
  - apply sound_store, keeps_blob.
  - intros s r s' Hs. by apply import_legacy_ok.
  - apply sound_usage_page.
  - apply sound_store. apply keeps_bind; [apply keeps_lift|intros; apply keeps_query].
Qed.
End steps.

(** ** Sessions, crashes and reopening *)

Section lifetime.
Context `{Calendar} `{EventHost} `{UuidText} `{Sha256} (checks : bool) (json_of : string → Value).

Lemma insert_version_quiet v : stays quiet (insert_version v).
Proof. apply or_constraint_quiet. intros db db'. case_bool_decide; intros; by simplify_eq. Qed.

Lemma legacy_systems_quiet now l stores : stays quiet (legacy_systems now l stores).
Proof.
  revert stores. induction l as [|e l IH]; intros stores; simpl; stay; [|apply IH]. unfold legacy_system. stay.
  by apply save_in_transaction_quiet.
Qed.
Lemma legacy_indexes_quiet l stores : stays quiet (legacy_indexes l stores).
Proof. revert stores. induction l as [|e l IH]; intros stores; simpl; stay; apply IH. Qed.

Lemma legacy_memory_quiet now : stays quiet (migrate_legacy_memory_snapshots now).
Proof.
  unfold migrate_legacy_memory_snapshots. stay; [apply legacy_systems_quiet|apply legacy_indexes_quiet| |].
  - apply stays_execute_all; [apply _|]. intros e. unfold write_legacy_store. stay; [apply sync_rows_quiet|].
    by apply save_in_transaction_quiet.
  - split; [done|]. unfold find_snapshot. simpl. f_equal. apply option_eq. intros x.
    rewrite map_lookup_filter_Some. simpl. split; [by intros [? _]|]. intros ?. by split.
Qed.

Lemma migration_quiet now version : stays quiet (migration_steps now version).
Proof.
  unfold migration_steps, migrate_to_v4, migrate_to_v5, migrate_to_v6, set_user_version.
  stay; try done; try apply insert_version_quiet. apply legacy_memory_quiet.
Qed.

(** What is in the file after opening, and what the store holds. *)
Lemma migrate_spec `{Sqlite} path existed key db n d r d' :
  migrate path existed key db n d = (r, d') →
  (dk_file d' = dk_file d ∨ ∃ db', dk_file d' = Some (key, db') ∧ quiet db db') ∧
  ∀ db' n', r = Ok (db', n') → quiet db db' ∧
    (dk_file d' = Some (key, db') ∨ (db' = db ∧ dk_file d' = dk_file d ∧ database_schema_version db = SCHEMA_VERSION)).
Proof.
  unfold migrate. munfold. intros Hrun.
  repeat (match type of Hrun with context [if ?b then _ else _] =>
    lazymatch b with context [if _ then _ else _] => fail | _ => destruct b eqn:? end end; simpl in Hrun; simplify_eq;
    try by (split; [by left|intros; simplify_eq])).
  all: try (split; [by left|]; intros db' n' [= <- <-]; split; [done|right; split_and!; [done..|by apply Z.eqb_eq]]).
  all: match type of Hrun with context [migration_steps ?now ?v ?x] =>
    pose proof (migration_quiet now v x) as Hq; destruct (migration_steps now v x) as [[u|e|] db1] end;
    simpl in *; repeat case_match; simplify_eq/=.
  all: split; [first [by left|right; eauto]|]; intros; simplify_eq; split; auto.
Qed.

Lemma open_store_spec `{Sqlite} path key cipher d r d' :
  open_store path key cipher d = (r, d') →
  let stored := default database_empty (snd <$> dk_file d) in
  (dk_file d' = dk_file d ∨ ∃ key' db', dk_file d' = Some (key', db') ∧ quiet stored db') ∧
  ∀ st, r = Ok st → quiet stored (es_db st) ∧ dk_file d' = Some (key, es_db st).
Proof.
  unfold open_store. munfold. destruct cipher; simpl; [|intros; simplify_eq; by split; [left|]].
  destruct (dk_file d) as [[k db]|] eqn:Hf; simpl.
  - case_bool_decide as Hk; simpl; [subst k|intros; simplify_eq; split; [by left|done]].
    destruct (migrate path true key db 0 d) as [r1 d1] eqn:Hm. apply migrate_spec in Hm as [Hfile Hok]. rewrite Hf in *.
    intros Hrun. assert (d' = d1) as -> by (by destruct r1 as [[]| |]; simplify_eq).
    split; [destruct Hfile as [|(db' & ? & ?)]; [by left|right; eauto]|]. intros st ->.
    destruct r1 as [[db' n']| |]; simplify_eq/=. destruct (Hok _ _ eq_refl) as [Hq [?|(-> & ? & _)]]; by split.
  - destruct (migrate path false key database_empty 0 d) as [r1 d1] eqn:Hm. apply migrate_spec in Hm as [Hfile Hok]. rewrite Hf in *.
    intros Hrun. assert (d' = d1) as -> by (by destruct r1 as [[]| |]; simplify_eq).
    split; [destruct Hfile as [|(db' & ? & ?)]; [by left|right; eauto]|]. intros st ->.
    destruct r1 as [[db' n']| |]; simplify_eq/=. by destruct (Hok _ _ eq_refl) as [Hq [?|(-> & ? & ?)]].
Qed.

(** The profile is closed, with its files, or a process runs it on an open file. *)
Inductive world : Type :=
  | Closed (d : Disk)
  | Running (key : string) (backups : gmap string Database) (s : ProfileState).

(** What a crash leaves. *)
Definition disk_of (w : world) : Disk :=
  match w with
  | Closed d => d
  | Running key backups s => mkDisk (Some (key, es_db (ps_store s))) backups
  end.
Definition log_of (d : Disk) : list EventEnvelope := all_events (default database_empty (snd <$> dk_file d)).

Inductive step : relation world :=
  (** opening may fail, also after the migration *)
  | step_open (sqlite : Sqlite) path id cipher found put fresh d s d' key :
      open checks path id cipher found put fresh d = (Ok s, d') → profile_key found put fresh = Ok key →
      step (Closed d) (Running key (dk_backups d') s)
  | step_open_failed (sqlite : Sqlite) path id cipher found put fresh d r d' :
      open checks path id cipher found put fresh d = (r, d') → is_ok r = false → step (Closed d) (Closed d')
  (** any operation, whatever its outcome *)
  | step_run (sqlite : Sqlite) o key backups s r s' :
      run_op checks json_of o s = (r, s') → step (Running key backups s) (Running key backups s')
  | step_close (sqlite : Sqlite) key backups s :
      step (Running key backups s) (Closed (mkDisk (Some (key, es_db (drop_profile s))) backups))
  | step_crash key backups s : step (Running key backups s) (Closed (disk_of (Running key backups s))).

Definition world_ok (base : list EventEnvelope) (w : world) : Prop :=
  match w with
  | Closed d => db_ok base (default database_empty (snd <$> dk_file d))
  | Running _ _ s => profile_ok base s
  end.

Lemma open_profile_spec `{Sqlite} id st r st' base :
  db_ok base (es_db st) → open_profile checks id st = (r, st') →
  es_db st' = es_db st ∧
  ∀ s, r = Ok s → es_db (ps_store s) = es_db st ∧ ps_projection s = replay (all_events (es_db st)).
Proof.
  intros Hok. unfold open_profile, map_err, mbind, M_bind, get, mret, M_ret.
  destruct (rebuild_projection_from checks st) as [r1 st1] eqn:H1'.
  eapply rebuild_spec in H1' as (Hdb1 & _ & Hp); [|done]. destruct r1 as [p| |]; [|intros; by simplify_eq..].
  destruct (runtime_snapshot _ _ st1) as [r2 st2] eqn:H2'. apply query_db in H2' as [Hdb2 _].
  destruct r2; [|intros; simplify_eq; split; [congruence|done]..].
  destruct (rebuild_usage_from _ _ st2) as [r3 st3] eqn:H3'. apply rebuild_usage_from_db in H3'.
  destruct r3; intros; simplify_eq; (split; [congruence|]); intros; simplify_eq/=. split; [congruence|by apply Hp].
Qed.

Lemma db_ok_base base base' db : db_ok base db → base' `prefix_of` all_events db → db_ok base' db.
Proof. intros [] ?. by split. Qed.

(** What [open] does to the disk and which profile it gives. *)
Lemma open_spec `{Sqlite} path id cipher found put fresh d r d' base :
  world_ok base (Closed d) → open checks path id cipher found put fresh d = (r, d') →
  world_ok base (Closed d') ∧
  ∀ s, r = Ok s → profile_ok base s ∧ ps_projection s = replay (log_of d) ∧ all_events (es_db (ps_store s)) = log_of d ∧
    ∃ key, profile_key found put fresh = Ok key ∧ dk_file d' = Some (key, es_db (ps_store s)).
Proof.
  intros Hok. unfold open, map_err, lift, mbind, M_bind, reject_if, mret, M_ret, throw.
  destruct (negb _); [intros; by simplify_eq|].
  destruct (profile_key found put fresh) as [key| |] eqn:Hkey; [|intros; by simplify_eq..].
  destruct (open_store path key cipher d) as [r1 d1] eqn:Ho. apply open_store_spec in Ho as [Hfile Hst].
  assert (world_ok base (Closed d1)) as Hok1.
  { destruct Hfile as [Hf|(k & db' & Hf & Hq)]; unfold world_ok; rewrite Hf; [done|]. simpl. by eapply quiet_ok. }
  destruct r1 as [st| |]; [|intros; simplify_eq; by split..]. destruct (Hst st eq_refl) as [Hq Hf].
  destruct (open_profile checks id st) as [r2 st2] eqn:Hp. eapply (open_profile_spec _ _ _ _ base) in Hp as [_ Hs];
    [|by eapply quiet_ok]. simpl. intros [= <- <-]. split; [done|]. intros s ->.
  destruct (Hs s eq_refl) as [Hdb Hproj]. assert (log_of d = all_events (es_db st)) as ->.
  { unfold log_of. by destruct (quiet_log _ _ 0 Hq) as (_ & _ & ->). }
  assert (db_ok base (es_db st)) as Hokst by (by eapply quiet_ok).
  split_and!; [|done|by rewrite Hdb|rewrite Hdb; eauto]. unfold profile_ok. rewrite Hdb, Hproj. split; [done|].
  by eapply replay_all_projected.
Qed.

Lemma step_ok base w w' : step w w' → world_ok base w → world_ok base w'.
Proof.
  destruct 1; intros Hok.
  - eapply open_spec in H3 as [_ Hs]; [|exact Hok]. by apply Hs.
  - by eapply open_spec in H3 as [? _].
  - by eapply profile_op_ok.
  - destruct Hok as [Hok Hp]. simpl. unfold drop_profile, state_of.
    destruct (save_projection_checkpoint _ _ _) as [r st] eqn:Hc. by eapply checkpoint_kept in Hc as [? _].
  - by destruct Hok.
Qed.

Lemma world_log base w : world_ok base w → world_ok (log_of (disk_of w)) w.
Proof. destruct w; simpl; [intros Hok|intros [Hok Hp]; split; [|done]]; by apply (db_ok_base base). Qed.
Lemma world_disk base w : world_ok base w → world_ok base (Closed (disk_of w)).
Proof. destruct w; [done|]. by intros [? _]. Qed.

(** A projection behind the log, which an import that fails midway leaves, makes every later record collide with a stored
    event until the profile is opened again. *)
Definition behind (s : ProfileState) : Prop :=
  (ap_last_sequence (ps_projection s) < max_sequence (es_db (ps_store s)))%N.

Lemma behind_records_nothing `{Sqlite} {A} base e (m : ST A) s r s' :
  profile_ok base s → behind s → ev_monotonic_sequence e = (ap_last_sequence (ps_projection s) + 1)%N → appends e m →
  (_ ← on_store m; apply_persisted_event checks e) s = (r, s') →
  is_ok r = false ∧ es_db (ps_store s') = es_db (ps_store s) ∧ ps_projection s' = ps_projection s.
Proof.
  intros [Hok Hp] Hb Hseq Happ. unfold mbind, M_bind, on_store.
  destruct (m (ps_store s)) as [r1 st1] eqn:Hm. apply Happ in Hm as [[Hr Hdb]|(_ & Ha & _)].
  - destruct r1; [done|..]; intros; by simplify_eq/=.
  - unfold behind in Hb. eapply append_at_end in Hp; [|done|apply Ha|done]. lia.
Qed.

Theorem failed_import_blocks_messages `{Sqlite} base text s r s' :
  profile_ok base s → behind s → submit_user_message checks text s = (r, s') →
  is_ok r = false ∧ es_db (ps_store s') = es_db (ps_store s) ∧ behind s'.
Proof.
  intros Hs Hb. unfold submit_user_message. unfold mbind at 1, M_bind at 1, reject_if.
  destruct (_ || _); unfold throw, mret, M_ret; [intros; by simplify_eq|]. unfold mbind, M_bind.
  destruct (new_event _ _ _ _ s) as [r1 s1] eqn:Hn. eapply new_event_spec in Hn as (-> & e & -> & He); [|done].
  intros Hrun. eapply (behind_records_nothing base e (append e)) in Hrun as (Hr & Hdb & Hp); [|done|done|done|apply appends_append].
  split_and!; [done|done|]. unfold behind. by rewrite Hdb, Hp.
Qed.

Definition no_profile : world := Closed (mkDisk None ∅).
Lemma no_profile_ok : world_ok [] no_profile.
Proof.
  assert (max_sequence database_empty = 0%N) as Hm by (by vm_compute).
  split; [by intros n e| |done|apply prefix_nil]. intros n Hn Hle. simpl in Hle. rewrite Hm in Hle. lia.
Qed.
Lemma reachable_ok base w w' : rtc step w w' → world_ok base w → world_ok base w'.
Proof. induction 1; [done|]. intros Hok. eauto using step_ok. Qed.


End lifetime.

(** ** The application services *)

Section services.
Context `{Calendar} `{EventHost} `{Sqlite} (checks : bool).
Context {R : Type} (runtime_start : M R string RuntimeHealth) (runtime_stop : M R string ()).

(** The profile with the same store and projection. *)
Definition as_profile (c : Core (R := R)) : ProfileState :=
  mkProfileState (co_store c) (co_projection c) "default" ledger_default ledger_default.

(** Recording in the services is recording in a profile. *)
Lemma core_record_profile event c :
  core_record checks event c =
  let '(r, s) := append_and_apply checks event (as_profile c) in
  ((_ ← r; Ok ()), mkCore (ps_store s) (co_runtime c) (ps_projection s)).
Proof.
  unfold core_record, append_and_apply, apply_persisted_event, core_checkpoint, checkpoint_projection, core_store, on_store,
    on_projection, mbind, M_bind, get, mret, M_ret. simpl.
  destruct (append event (co_store c)) as [[u| |] st]; simpl; [|done..].
  destruct (apply checks event (co_projection c)) as [[u'| |] p]; simpl; [|done..].
  destruct (_ =? 0)%N; simpl; [|done]. by destruct (save_projection_checkpoint _ _ _) as [[[]| |]?].
Qed.

(** Starting the services recovers the projection from the log, whatever it was before, and then records the health of
    the runtime as the next event. *)
Theorem services_start_from_the_log base c health c' :
  db_ok base (es_db (co_store c)) → core_start checks runtime_start c = (Ok health, c') →
  profile_ok base (as_profile c') ∧
  ∃ e, ev_type e = "runtime.health" ∧ all_events (es_db (co_store c')) = all_events (es_db (co_store c)) ++ [e] ∧
    co_projection c' = replay (all_events (es_db (co_store c'))).
Proof.
  intros Hok. unfold core_start, core_rebuild_projection, mbind, M_bind, get, mret, M_ret.
  destruct (rebuild_projection_from checks (co_store c)) as [r1 st1] eqn:Hr.
  eapply rebuild_spec in Hr as (Hdb & _ & Hp); [|done]. destruct r1 as [p| |]; [|done..]. specialize (Hp p eq_refl).
  unfold core_runtime. simpl. destruct (runtime_start (co_runtime c)) as [[h| |] rt]; simpl; [|done..].
  destruct (replay_all_projected base _ Hok) as [Hproj Hlast]. rewrite <- Hp in Hproj, Hlast.
  pose proof (projected_range _ _ _ Hok Hproj) as Hrange.
  assert (ap_last_sequence p <? u64_max = true)%N as -> by (apply N.ltb_lt; unfold i64_max, u64_max in *; lia).
  simpl. set (e := event_new _ _ _ _ _). rewrite core_record_profile. unfold as_profile at 1. simpl.
  destruct (append_and_apply checks e _) as [r s'] eqn:Hrec.
  assert (profile_ok base (mkProfileState st1 p "default" ledger_default ledger_default)) as Hs
    by (unfold profile_ok; simpl; by rewrite Hdb).
  assert (profile_ok base s') as Hs' by (by eapply (record_ok checks base e (append e)); [exact Hs| |apply appends_append|exact Hrec]).
  pose proof (record_log checks base e (append e) _ _ _ Hs eq_refl (appends_append e) Hrec) as Hlog.
  destruct r as [q| |]; simpl; [|done..]. intros [= _ <-]. split; [by destruct Hs'|]. exists e.
  destruct (Hlog eq_refl) as [Hall Hq]. simpl in *. by rewrite Hall, Hdb in *.
Qed.
End services.

(** ** A session *)

Section session.
#[local] Existing Instance UsageSpec.day_calendar.
#[local] Existing Instance RuntimeEvents.example_host.
#[local] Existing Instance PluginsSpec.length_hash.
#[local] Instance working_sqlite : Sqlite := {| failing _ := false; sql_now _ := "2026-01-01T00:00:00.000Z" |}.

Let step := step true VString.
Abbreviation session_open := (open true "events.db" "default" true (Err SecretMissing) (Ok ()) "key").
Definition session_profile : ProfileState :=
  match session_open (disk_of no_profile) with
  | (Ok s, _) => s
  | _ => mkProfileState (mkEventStore database_empty 0) projection_default "" ledger_default ledger_default
  end.
Definition session_after (ops : list profile_op) : ProfileState :=
  foldl (λ s o, (run_op true VString o s).2) session_profile ops.
Definition session_ops : list profile_op := [OpLifecycle true; OpMessage " hello "; OpCheckpoint; OpMessage "again"].
Definition session_end : world := Running "key" ∅ (session_after session_ops).

Lemma session_opened : session_open (disk_of no_profile) = (Ok session_profile, disk_of (Running "key" ∅ session_profile)).
Proof. by vm_compute. Qed.
Lemma session_runs_from s ops :
  rtc step (Running "key" ∅ s) (Running "key" ∅ (foldl (λ s o, (run_op true VString o s).2) s ops)).
Proof.
  revert s. induction ops as [|o ops IH]; intros s; [apply rtc_refl|]. eapply rtc_l; [|apply IH].
  eapply (step_run true VString working_sqlite o), surjective_pairing.
Qed.
Lemma session_runs ops : rtc step no_profile (Running "key" ∅ (session_after ops)).
Proof.
  eapply rtc_l; [exact (step_open true VString working_sqlite _ _ _ _ _ _ _ _ _ "key" session_opened eq_refl)|].
  apply session_runs_from.
Qed.
Lemma session_goes_on ops ops' : rtc step (Running "key" ∅ (session_after ops)) (Running "key" ∅ (session_after (ops ++ ops'))).
Proof. unfold session_after. rewrite foldl_app. apply session_runs_from. Qed.



(** The second input of the plan cannot be read: the message that follows is refused, and the one after reopening is not. *)
Definition imported_chat : PreparedRecord :=
  mkPreparedRecord "r1" "history-event" "chat.json" None "hash" "events" true true "{}".
Example failed_import_needs_reopening :
  let s := session_after [OpImport true [Ok [imported_chat]; Err (MigrationFailed "unreadable")] "run" "fp" "report"] in
  (run_op true VString (OpMessage "hello") s).1 = Err (StorageFailure (DatabaseError Constraint)) ∧
  match session_open (disk_of (Running "key" ∅ s)) with
  | (Ok s, _) => (run_op true VString (OpMessage "hello") s).1
  | _ => Panic
  end = Ok ().
Proof. by vm_compute. Qed.
End session.
