(* ===== verification/Dictation.v ===== *)
(** * Streaming dictation

    Models [crates/audio/src/dictation.rs]: the engine that turns recognition results into
    edits of the focused text field, its spoken controls and vocabulary, the choice of an edit
    mechanism, the latency recorder and the command router.  A text is the list of its Unicode
    scalar values, so a slice at a character boundary is a [take] or a [drop]; lengths that the
    operations carry are in UTF-16 code units. *)

From stdpp Require Import base list strings sorting.
From Stdlib Require Import Ascii.
From S2P Require Import Prelude.

(** ** Text *)

Abbreviation text := (list N).

(** A literal of the source. *)
Definition lit (s : string) : text := N_of_ascii <$> String.list_ascii_of_string s.

(** Parts of the Unicode tables: [char::is_alphanumeric] and [str::to_lowercase]. *)
Class UnicodeTables : Type := {
  alphanumeric : N → bool;
  lowercase : text → text;
}.

(** [char::is_whitespace] *)
Definition whitespace (c : N) : bool :=
  in_range 9 13 c || (c =? 32)%N || (c =? 0x85)%N || (c =? 0xA0)%N || (c =? 0x1680)%N || in_range 0x2000 0x200A c ||
  (c =? 0x2028)%N || (c =? 0x2029)%N || (c =? 0x202F)%N || (c =? 0x205F)%N || (c =? 0x3000)%N.
(** [char::is_ascii_punctuation] *)
Definition ascii_punctuation (c : N) : bool :=
  in_range 33 47 c || in_range 58 64 c || in_range 91 96 c || in_range 123 126 c.
Definition ascii_lower (t : text) : text := (λ c, if in_range 65 90 c then (c + 32)%N else c) <$> t.

Fixpoint skip (f : N → bool) (t : text) : text :=
  match t with c :: t' => if f c then skip f t' else t | [] => [] end.
(** [trim_matches] and [trim]. *)
Definition trim_matches (f : N → bool) (t : text) : text := reverse (skip f (reverse (skip f t))).
Definition trim_text (t : text) : text := trim_matches whitespace t.

Fixpoint starts (p t : text) : bool :=
  match p, t with
  | [], _ => true
  | a :: p, b :: t => (a =? b)%N && starts p t
  | _ :: _, [] => false
  end.
(** [find] of a pattern: the index of its first occurrence. *)
Fixpoint find_text (p t : text) : option nat :=
  if starts p t then Some 0 else match t with [] => None | _ :: t => S <$> find_text p t end.
Definition strip (p t : text) : option text := if starts p t then Some (drop (length p) t) else None.
Definition has (c : N) (t : text) : bool := existsb (N.eqb c) t.

(** [split] at a pattern that is not empty. *)
Fixpoint split_from (fuel : nat) (p t : text) : list text :=
  match fuel with
  | O => [t]
  | S fuel =>
    match find_text p t with
    | None => [t]
    | Some i => take i t :: split_from fuel p (drop (i + length p) t)
    end
  end.
Definition split_text (p t : text) : list text := split_from (S (length t)) p t.

(** [split_whitespace] *)
Fixpoint words_from (word : text) (t : text) : list text :=
  let flush := match word with [] => [] | _ => [word] end in
  match t with
  | [] => flush
  | c :: t => if whitespace c then flush ++ words_from [] t else words_from (word ++ [c]) t
  end.
Definition tokenize (t : text) : list text := words_from [] t.

(** [encode_utf16]: a character outside the basic plane is a surrogate pair. *)
Definition utf16_char (c : N) : list N :=
  if (c <? 0x10000)%N then [c]
  else [(0xD800 + N.shiftr (c - 0x10000) 10)%N; (0xDC00 + N.land (c - 0x10000) 0x3FF)%N].
Definition utf16 (t : text) : list N := t ≫= utf16_char.
Definition utf16_len (t : text) : nat := length (utf16 t).

(** ** Operations *)

Inductive DictationMode : Type := Natural | Literal | Code.
Global Instance DictationMode_eq_dec : EqDecision DictationMode.
Proof. solve_decision. Defined.
Inductive TokenStability : Type := Stable | Unstable.
Global Instance TokenStability_eq_dec : EqDecision TokenStability.
Proof. solve_decision. Defined.
Record DictationToken : Type := mkDictationToken { dt_text : text; dt_stability : TokenStability }.
Record PartialTranscript : Type := mkPartialTranscript {
  pt_text : text;
  pt_final_result : bool;
  pt_audio_end_ms : option N;
  pt_received_at_ms : N;
}.
Inductive Occurrence : Type := First | Last | All.
Global Instance Occurrence_eq_dec : EqDecision Occurrence.
Proof. solve_decision. Defined.
Inductive Formatting : Type := Bold | Heading (level : N) | BulletedList | NumberedList.
Global Instance Formatting_eq_dec : EqDecision Formatting.
Proof. solve_decision. Defined.

Inductive EditOperation : Type :=
  | ReplaceProvisionalTail (transaction_id : N) (retain_utf16 delete_utf16 : nat) (insert : text) (stable_prefix_utf16 : nat)
  | CommitTransaction (transaction_id : N)
  | DeleteLastUtterance (expected : text) (utf16_length : nat)
  | Undo
  | ReplaceLiteral (find replacement : text) (occurrence : Occurrence)
  | InsertRelative (anchor text : text) (before : bool) (occurrence : Occurrence)
  | InsertText (text : text)
  | FormatLastUtterance (expected : option text) (formatting : Formatting)
  | ChangeIndent (levels : Z)
  | SetMode (mode : DictationMode).
Global Instance EditOperation_eq_dec : EqDecision EditOperation.
Proof. solve_decision. Defined.

Record DictationUpdate : Type := mkDictationUpdate {
  du_transaction_id : N;
  du_mode : DictationMode;
  du_tokens : list DictationToken;
  du_rendered_text : text;
  du_final_result : bool;
  du_operations : list EditOperation;
}.

(** ** Application *)

Record TargetCapabilities : Type := mkTargetCapabilities {
  tc_provisional_replacement : bool;
  tc_text_search : bool;
  tc_undo : bool;
  tc_rich_text : bool;
  tc_markdown : bool;
  tc_multiline : bool;
  tc_direct_text_api : bool;
  tc_accessibility_write : bool;
  tc_clipboard_paste : bool;
  tc_keystrokes : bool;
}.
Inductive EditStrategy : Type := SessionState | DirectTextApi | Accessibility | ClipboardPaste | Keystrokes | Unsupported.
Global Instance EditStrategy_eq_dec : EqDecision EditStrategy.
Proof. solve_decision. Defined.
Record ApplicationPlan : Type := mkApplicationPlan {
  apl_strategy : EditStrategy;
  apl_exact : bool;
  apl_reason : option string;
}.
Record EditReceipt : Type := mkEditReceipt {
  ert_transaction_id : option N;
  ert_applied_at_ms : N;
  ert_strategy : EditStrategy;
  ert_verified : bool;
}.
Inductive DictationError : Type :=
  | UnsupportedEdit (detail : string)
  | StaleTarget
  | Verification (detail : string)
  | InvalidInput (detail : string).

(** The adapter is the world it changes and its [apply] method. *)
Definition apply_verified {W} (apply : EditOperation → M W DictationError EditReceipt) (operation : EditOperation)
    : M W DictationError EditReceipt :=
  receipt ← apply operation;
  if ert_verified receipt then mret receipt
  else throw (Verification "target adapter returned an unverified receipt").

Definition is_session (op : EditOperation) : bool :=
  match op with CommitTransaction _ | SetMode _ => true | _ => false end.
Definition is_search (op : EditOperation) : bool :=
  match op with ReplaceLiteral _ _ _ | InsertRelative _ _ _ _ => true | _ => false end.
Definition is_rich (op : EditOperation) : bool := match op with FormatLastUtterance _ _ => true | _ => false end.
Definition is_tail (op : EditOperation) : bool := match op with ReplaceProvisionalTail _ _ _ _ _ => true | _ => false end.
Definition is_revision (op : EditOperation) : bool :=
  match op with ReplaceProvisionalTail _ _ _ _ _ | DeleteLastUtterance _ _ => true | _ => false end.
Definition is_undo (op : EditOperation) : bool := match op with Undo => true | _ => false end.
Definition is_multiline (op : EditOperation) : bool := match op with InsertText t => has 10 t | _ => false end.

Definition native_exact (op : EditOperation) (c : TargetCapabilities) : bool :=
  (negb (is_search op) || tc_text_search c) && (negb (is_rich op) || tc_rich_text c) &&
  (negb (is_multiline op) || tc_multiline c) && (negb (is_undo op) || tc_undo c) &&
  (negb (is_tail op) || tc_provisional_replacement c).
Definition plan_edit (op : EditOperation) (c : TargetCapabilities) : ApplicationPlan :=
  if is_session op then mkApplicationPlan SessionState true None
  else
    if tc_direct_text_api c && native_exact op c then mkApplicationPlan DirectTextApi true None
    else if tc_accessibility_write c && native_exact op c then mkApplicationPlan Accessibility true None
    else if is_rich op && tc_markdown c && tc_clipboard_paste c && tc_keystrokes c then
      mkApplicationPlan ClipboardPaste false (Some "rich formatting will be represented as Markdown")
    else if negb (is_search op) && negb (is_undo op) && tc_clipboard_paste c && (negb (is_revision op) || tc_keystrokes c) then
      mkApplicationPlan ClipboardPaste false
        (Some "target lacks transactional text APIs; selection may briefly change")
    else if negb (is_search op) && negb (is_rich op) && tc_keystrokes c then
      mkApplicationPlan Keystrokes false (Some "target only supports synthesized keyboard input")
    else mkApplicationPlan Unsupported false
      (Some (if is_search op then "target cannot search its editable text for a correction"
             else if is_rich op then "target supports neither rich text nor an allowed Markdown fallback"
             else "no permitted writable target adapter is available")).

(** ** Latency *)

Definition MAX_LATENCY_SAMPLES : nat := 512.

Record LatencyDistribution : Type := mkLatencyDistribution {
  ld_p50_ms : N;
  ld_p95_ms : N;
  ld_maximum_ms : N;
  ld_sample_count : nat;
}.
Record LatencyReport : Type := mkLatencyReport {
  lr_first_partial : LatencyDistribution;
  lr_partial_updates : LatencyDistribution;
  lr_finalization : LatencyDistribution;
  lr_target_apply : LatencyDistribution;
}.
Record DictationLatencyMetrics : Type := mkDictationLatencyMetrics {
  lm_first_partial : list N;
  lm_partial_updates : list N;
  lm_finalization : list N;
  lm_target_apply : list N;
  lm_utterance_has_partial : bool;
}.
Global Instance DictationLatencyMetrics_eta : Eta DictationLatencyMetrics :=
  λ r, mkDictationLatencyMetrics (lm_first_partial r) (lm_partial_updates r) (lm_finalization r) (lm_target_apply r)
    (lm_utterance_has_partial r).
Definition metrics_default : DictationLatencyMetrics := mkDictationLatencyMetrics [] [] [] [] false.

Definition push_bounded (value : N) (samples : list N) : list N :=
  (if length samples =? MAX_LATENCY_SAMPLES then tail samples else samples) ++ [value].

Definition record_recognition (event : PartialTranscript) (m : DictationLatencyMetrics) : DictationLatencyMetrics :=
  match pt_audio_end_ms event with
  | None => m
  | Some audio_end_ms =>
    let elapsed := sat_sub (pt_received_at_ms event) audio_end_ms in
    if pt_final_result event then
      m <| lm_finalization ::= push_bounded elapsed |> <| lm_utterance_has_partial := false |>
    else if lm_utterance_has_partial m then m <| lm_partial_updates ::= push_bounded elapsed |>
    else m <| lm_first_partial ::= push_bounded elapsed |> <| lm_utterance_has_partial := true |>
  end.
Definition metrics_record_apply (dispatched_at_ms : N) (receipt : EditReceipt) (m : DictationLatencyMetrics)
    : DictationLatencyMetrics :=
  m <| lm_target_apply ::= push_bounded (sat_sub (ert_applied_at_ms receipt) dispatched_at_ms) |>.

(** [None] where indexing panics. *)
Definition percentile (ordered : list N) (percent : nat) : option N :=
  ordered !! (((length ordered - 1) * percent + 99) / 100).
Definition distribution (samples : list N) : option LatencyDistribution :=
  match samples with
  | [] => Some (mkLatencyDistribution 0 0 0 0)
  | _ =>
    let ordered := merge_sort N.le samples in
    p50 ← percentile ordered 50;
    p95 ← percentile ordered 95;
    Some (mkLatencyDistribution p50 p95 (default 0%N (last ordered)) (length ordered))
  end.
Definition report (m : DictationLatencyMetrics) : option LatencyReport :=
  first ← distribution (lm_first_partial m);
  updates ← distribution (lm_partial_updates m);
  finalization ← distribution (lm_finalization m);
  target ← distribution (lm_target_apply m);
  Some (mkLatencyReport first updates finalization target).

(** ** Spoken controls *)

Record ParsedControl : Type := mkParsedControl { pco_visible_text : option text; pco_operations : list EditOperation }.

Definition split_control (source prefix separator : text) : option (text * text) :=
  let lowered := ascii_lower source in
  if starts prefix lowered then
    i ← find_text separator (drop (length prefix) lowered);
    let separator_start := i + length prefix in
    Some (trim_text (drop (length prefix) (take separator_start source)),
          trim_text (drop (separator_start + length separator) source))
  else None.
(** [.filter(|(a, b)| !a.is_empty() && !b.is_empty())] *)
Definition both_present (p : option (text * text)) : option (text * text) :=
  match p with Some (_ :: _ as a, _ :: _ as b) => Some (a, b) | _ => None end.

Definition relative_control (t anchor : text) (before : bool) : ParsedControl :=
  mkParsedControl None [InsertRelative anchor t before Last].
Definition insert_control (t : text) : ParsedControl := mkParsedControl None [InsertText t].
Definition indent_control (levels : Z) : ParsedControl := mkParsedControl None [ChangeIndent levels].
Definition format_control (formatting : Formatting) : ParsedControl := mkParsedControl None [FormatLastUtterance None formatting].

Definition among (t : text) (l : list string) : bool := existsb (λ s, bool_decide (t = lit s)) l.

Definition mode_of (normalized : text) : option DictationMode :=
  if among normalized ["natural mode"; "prose mode"] then Some Natural
  else if among normalized ["literal mode"] then Some Literal
  else if among normalized ["code mode"; "coding mode"] then Some Code
  else None.

(** The last match of the function. *)
Definition layout_control (normalized : text) : option ParsedControl :=
  if among normalized ["new line"; "newline"] then Some (insert_control [10%N])
  else if among normalized ["new paragraph"; "paragraph break"] then Some (insert_control [10%N; 10%N])
  else if among normalized ["indent"; "indent that"] then Some (indent_control 1)
  else if among normalized ["dedent"; "outdent"; "outdent that"] then Some (indent_control (-1))
  else if among normalized ["bold that"; "make that bold"] then Some (format_control Bold)
  else if among normalized ["make that a heading"; "heading"] then Some (format_control (Heading 1))
  else if among normalized ["make that heading two"; "heading two"] then Some (format_control (Heading 2))
  else if among normalized ["make that a bullet list"; "bullet list"; "bullet that"; "bullets"] then
    Some (format_control BulletedList)
  else if among normalized ["make that a numbered list"; "number that"] then Some (format_control NumberedList)
  else None.

Definition parse_control (raw : text) : option ParsedControl :=
  let command := trim_matches ascii_punctuation (trim_text raw) in
  let normalized := ascii_lower command in
  match mode_of normalized with
  | Some mode => Some (mkParsedControl None [SetMode mode])
  | None =>
    if among normalized ["scratch that"; "delete that"] then Some (mkParsedControl None [DeleteLastUtterance [] 0])
    else if among normalized ["undo"; "undo that"] then Some (mkParsedControl None [Undo])
    else match both_present (split_control command (lit "replace ") (lit " with ")) with
    | Some (find, replacement) => Some (mkParsedControl None [ReplaceLiteral find replacement Last])
    | None =>
      match both_present (split_control command (lit "insert ") (lit " before ")) with
      | Some (t, anchor) => Some (relative_control t anchor true)
      | None =>
        match both_present (split_control command (lit "insert ") (lit " after ")) with
        | Some (t, anchor) => Some (relative_control t anchor false)
        | None => layout_control normalized
        end
      end
    end
  end.

(** ** Rendering *)

Definition single_char (part : text) : option N := match part with [c] => Some c | _ => None end.
Definition render_literal (raw : text) : text :=
  let trimmed := trim_text raw in
  if starts (lit "spell ") (ascii_lower trimmed) then
    match omap single_char (tokenize (drop (length (lit "spell ")) trimmed)) with
    | [] => trimmed
    | letters => letters
    end
  else trimmed.

Definition ends_with (c : N) (t : text) : bool := bool_decide (last t = Some c).
Definition pop (t : text) : text := take (length t - 1) t.
(** [while output.ends_with(' ') { output.pop(); }] *)
Definition pop_spaces (t : text) : text := reverse (skip (N.eqb 32) (reverse t)).

(** One character: the output and whether its last character is a space that was pushed. *)
Definition spacing_step (st : text * bool) (c : N) : text * bool :=
  let '(output, prior_space) := st in
  if (c =? 10)%N then (pop_spaces output ++ [c], false)
  else if whitespace c then
    if negb prior_space && negb (ends_with 10 output) then (output ++ [32%N], true) else (output, prior_space)
  else ((if has c (lit ".,?!:;") && ends_with 32 output then pop output else output) ++ [c], false).
Definition cleanup_spacing (input : text) : text := trim_text (foldl spacing_step ([], false) input).1.

Definition code_vocabulary : list (string * text) :=
  [("open parenthesis", lit "("); ("close parenthesis", lit ")"); ("open bracket", lit "["); ("close bracket", lit "]");
   ("open brace", lit "{"); ("close brace", lit "}"); ("double quote", [34%N]); ("single quote", lit "'");
   ("equals", lit "="); ("plus", lit "+"); ("minus", lit "-"); ("slash", lit "/"); ("backslash", lit "\");
   ("semicolon", lit ";"); ("colon", lit ":"); ("comma", lit ","); ("dot", lit "."); ("new line", [10%N]);
   ("newline", [10%N]); ("indent", lit "    "); ("tab", lit "    ")].
Definition natural_vocabulary : list (string * text) :=
  [("new paragraph", [10%N; 10%N]); ("new line", [10%N]); ("newline", [10%N]); ("question mark", lit "?");
   ("exclamation mark", lit "!"); ("full stop", lit "."); ("period", lit "."); ("comma", lit ",");
   ("semicolon", lit ";"); ("colon", lit ":")].

Section unicode.
Context `{UnicodeTables}.

(** No letter or digit next to the phrase. *)
Definition boundary (c : option N) : bool := match c with Some c => negb (alphanumeric c) | None => true end.

(** The loop at a cursor: the input before it and after it. *)
Fixpoint replace_from (fuel : nat) (phrase replacement before rest : text) : text :=
  match fuel with
  | O => rest
  | S fuel =>
    match find_text phrase (ascii_lower rest) with
    | None => rest
    | Some i =>
      let start := before ++ take i rest in
      let stop := i + length phrase in
      (if boundary (last start) && boundary (head (drop stop rest)) then take i rest ++ replacement else take stop rest)
        ++ replace_from fuel phrase replacement (before ++ take stop rest) (drop stop rest)
    end
  end.
Definition replace_whole_phrase (input phrase replacement : text) : text :=
  replace_from (S (length input)) phrase replacement [] input.
Definition replace_phrases (input : text) (vocabulary : list (string * text)) : text :=
  cleanup_spacing (foldl (λ output (entry : string * text),
    replace_whole_phrase output (lit entry.1) (32%N :: entry.2 ++ [32%N])) input vocabulary).

Definition render_vocabulary (raw : text) (code : bool) : text :=
  let trimmed := trim_text raw in
  let lower := ascii_lower trimmed in
  if code && starts (lit "spell ") lower then render_literal trimmed
  else if code && among lower ["indent"] then lit "    "
  else if code && among lower ["dedent"; "outdent"] then []
  else replace_phrases trimmed (if code then code_vocabulary else natural_vocabulary).
Definition render_spoken (raw : text) (mode : DictationMode) : text :=
  match mode with
  | Literal => render_literal raw
  | Natural => render_vocabulary raw false
  | Code => render_vocabulary raw true
  end.

(** ** The engine *)

Record DictationEngine : Type := mkDictationEngine {
  de_mode : DictationMode;
  de_transaction_id : N;
  de_transaction_prefix : text;
  de_prior_rendered : text;
  de_prior_tokens : list text;
  de_stability_runs : list N;
  de_committed_utterances : list text;
  de_stability_observations : N;
  de_suppress_next_separator : bool;
  de_metrics : DictationLatencyMetrics;
}.
Global Instance DictationEngine_eta : Eta DictationEngine :=
  λ r, mkDictationEngine (de_mode r) (de_transaction_id r) (de_transaction_prefix r) (de_prior_rendered r)
    (de_prior_tokens r) (de_stability_runs r) (de_committed_utterances r) (de_stability_observations r)
    (de_suppress_next_separator r) (de_metrics r).

Definition DEFAULT_STABILITY_OBSERVATIONS : N := 2.
Definition engine_new (mode : DictationMode) : DictationEngine :=
  mkDictationEngine mode 1 [] [] [] [] [] DEFAULT_STABILITY_OBSERVATIONS false metrics_default.
Definition record_apply (dispatched_at_ms : N) (receipt : EditReceipt) (e : DictationEngine) : DictationEngine :=
  e <| de_metrics ::= metrics_record_apply dispatched_at_ms receipt |>.

(** The length of the common prefix, in characters. *)
Fixpoint common_chars (a b : text) : nat :=
  match a, b with x :: a, y :: b => if (x =? y)%N then S (common_chars a b) else 0 | _, _ => 0 end.
Definition diff_operation (transaction_id : N) (before after : text) (stable_prefix_utf16 : nat) : EditOperation :=
  let n := common_chars before after in
  ReplaceProvisionalTail transaction_id (utf16_len (take n after)) (utf16_len (drop n before)) (drop n after) stable_prefix_utf16.

Definition update_stability (words : list text) (e : DictationEngine) : DictationEngine :=
  e <| de_stability_runs := imap (λ index word,
         if bool_decide (de_prior_tokens e !! index = Some word)
         then sat_add 255 (default 1%N (de_stability_runs e !! index)) 1 else 1%N) words |>.

Definition separator_for (next : text) (e : DictationEngine) : text * DictationEngine :=
  if de_suppress_next_separator e then ([], e <| de_suppress_next_separator := false |>)
  else
    let prior := last (de_committed_utterances e) ≫= last in
    let quiet_prior := match prior with Some c => whitespace c || has c (lit "([{/'" ++ [34%N]) | None => true end in
    let quiet_next := match head next with Some c => whitespace c || has c (lit ".,?!:;)]}") | None => false end in
    (if quiet_prior || quiet_next then [] else [32%N], e).

(** The utterance that a control refers to. *)
Definition fill_latest (latest : option text) (op : EditOperation) : EditOperation :=
  match op with
  | DeleteLastUtterance _ _ =>
    match latest with Some latest => DeleteLastUtterance latest (utf16_len latest) | None => Undo end
  | FormatLastUtterance _ formatting => FormatLastUtterance latest formatting
  | op => op
  end.
Definition note_operation (e : DictationEngine) (op : EditOperation) : DictationEngine :=
  let e := match op with SetMode mode => e <| de_mode := mode |> | _ => e end in
  if match op with InsertText t => ends_with 10 t | ChangeIndent _ => true | _ => false end
  then e <| de_suppress_next_separator := true |> else e.
Definition is_delete (op : EditOperation) : bool := match op with DeleteLastUtterance _ _ => true | _ => false end.

Definition apply_control (control : ParsedControl) (e : DictationEngine) : list EditOperation * DictationEngine :=
  let operations := fill_latest (last (de_committed_utterances e)) <$> pco_operations control in
  let e := foldl note_operation e operations in
  let e := if existsb is_delete operations
           then e <| de_committed_utterances ::= λ l, take (length l - 1) l |> else e in
  (match operations, pco_visible_text control with [], None => [Undo] | _, _ => operations end, e).

Definition start_next_transaction (e : DictationEngine) : DictationEngine :=
  e <| de_transaction_id ::= λ n, sat_add u64_max n 1 |> <| de_transaction_prefix := [] |> <| de_prior_rendered := [] |>
    <| de_prior_tokens := [] |> <| de_stability_runs := [] |>.

Definition token_at (final_result : bool) (e : DictationEngine) (index : nat) (word : text) : DictationToken :=
  mkDictationToken word
    (if final_result || (de_stability_observations e <=? default 0%N (de_stability_runs e !! index))%N then Stable else Unstable).
(** The stable tokens at the start, with a separator each. *)
Fixpoint stable_units (tokens : list DictationToken) : nat :=
  match tokens with
  | token :: tokens =>
    if bool_decide (dt_stability token = Stable) then utf16_len (dt_text token) + 1 + stable_units tokens else 0
  | [] => 0
  end.

(** The text of the update and the engine with its separator. *)
Definition display (raw : text) (control : option ParsedControl) (mode : DictationMode) : text :=
  match control with
  | None => render_spoken raw mode
  | Some parsed => default [] (pco_visible_text parsed)
  end.
Definition choose_prefix (control : option ParsedControl) (display_text : text) (e : DictationEngine) : DictationEngine :=
  match control, de_prior_rendered e, display_text with
  | None, [], _ :: _ =>
    let '(prefix, e) := separator_for display_text e in e <| de_transaction_prefix := prefix |>
  | _, _, _ => e
  end.

Definition ingest (event : PartialTranscript) : M DictationEngine DictationError DictationUpdate :=
  _ ← reject_if (has 0 (pt_text event)) (InvalidInput "transcript contains a NUL character");
  _ ← modify (λ e, e <| de_metrics ::= record_recognition event |>);
  e ← get;
  let transaction_id := de_transaction_id e in
  let final_result := pt_final_result event in
  let raw := trim_text (pt_text event) in
  let control := if final_result then parse_control raw else None in
  let display_text := display raw control (de_mode e) in
  _ ← modify (choose_prefix control display_text);
  e ← get;
  let rendered := de_transaction_prefix e ++ display_text in
  let words := tokenize display_text in
  _ ← modify (update_stability words);
  e ← get;
  let tokens := imap (token_at final_result e) words in
  let stable_prefix := (stable_units tokens + utf16_len (de_transaction_prefix e)) `min` utf16_len rendered in
  let revision :=
    if bool_decide (rendered = de_prior_rendered e) then []
    else [diff_operation (de_transaction_id e) (de_prior_rendered e) rendered stable_prefix] in
  operations ←
    (if final_result then
       ending ← match control with
                | Some control => e ← get; let '(ops, e) := apply_control control e in _ ← modify (λ _, e); mret ops
                | None =>
                  match rendered with
                  | [] => mret []
                  | _ => _ ← modify (λ e, e <| de_committed_utterances ::= λ l, l ++ [rendered] |>);
                         mret [CommitTransaction (de_transaction_id e)]
                  end
                end;
       _ ← modify start_next_transaction;
       mret (revision ++ ending)
     else
       _ ← modify (λ e, e <| de_prior_rendered := rendered |> <| de_prior_tokens := words |>);
       mret revision);
  e ← get;
  mret (mkDictationUpdate transaction_id (de_mode e) tokens display_text final_result operations).

(** ** The command router *)

Inductive DeterministicCommand : Type :=
  | LaunchApplication (name : text)
  | FocusApplication (name : text)
  | Stop | Mute | Unmute | Sleep | Wake | StartDictation | StopDictation
  | SetDictationMode (mode : DictationMode).
Inductive RouteContext : Type := Auto | Command | Dictation.
Global Instance RouteContext_eq_dec : EqDecision RouteContext.
Proof. solve_decision. Defined.
Inductive VoiceRoute : Type :=
  | Commands (commands : list DeterministicCommand)
  | AgentGoal (prompt : text)
  | DictationRoute (t : text).

Definition split_command_chain (t : text) : list text :=
  filter (λ part, part ≠ []) (trim_text <$> (split_text (lit " and then ") t ≫= split_text (lit ", then "))).

(** The rest after the first prefix that fits, unless it is blank. *)
Definition named_after (prefixes : list string) (normalized : text) : option text :=
  match omap (λ p, strip (lit p) normalized) prefixes with
  | name :: _ => match trim_text name with [] => None | name => Some name end
  | [] => None
  end.

Definition parse_deterministic (allow_bare_open : bool) (segment : text) : option DeterministicCommand :=
  let normalized := lowercase (trim_matches ascii_punctuation (trim_text segment)) in
  match named_after (["launch "; "open app "] ++ if allow_bare_open then ["open "] else []) normalized with
  | Some name => Some (LaunchApplication name)
  | None =>
    match named_after ["focus "; "switch to "] normalized with
    | Some name => Some (FocusApplication name)
    | None =>
      if among normalized ["stop"; "cancel"; "stop listening"] then Some Stop
      else if among normalized ["mute"; "mute microphone"] then Some Mute
      else if among normalized ["unmute"; "unmute microphone"] then Some Unmute
      else if among normalized ["sleep"; "go to sleep"] then Some Sleep
      else if among normalized ["wake"; "wake up"] then Some Wake
      else if among normalized ["dictate"; "start dictation"] then Some StartDictation
      else if among normalized ["stop dictation"; "end dictation"] then Some StopDictation
      else SetDictationMode <$> mode_of normalized
    end
  end.

Definition dictation_safe (command : DeterministicCommand) : bool :=
  match command with Stop | StopDictation | SetDictationMode _ => true | _ => false end.
Definition goal_prefixes : list string :=
  ["find "; "create "; "write "; "draft "; "send "; "run "; "explain "; "look up "; "search "; "read "; "summarize ";
   "check "; "fix "; "build "].
Definition starts_with_any (t : text) (prefixes : list string) : bool := existsb (λ p, starts (lit p) t) prefixes.

Definition route (transcript : text) (context : RouteContext) : VoiceRoute :=
  let t := trim_text transcript in
  let segments := split_command_chain t in
  let commands := omap (parse_deterministic (bool_decide (context = Command))) segments in
  if negb (bool_decide (length commands = 0)) && bool_decide (length commands = length segments) &&
     (negb (bool_decide (context = Dictation)) || forallb dictation_safe commands)
  then Commands commands
  else if bool_decide (context = Dictation) then DictationRoute t
  else if bool_decide (context = Command) || starts_with_any (lowercase t) goal_prefixes then AgentGoal t
  else DictationRoute t.
End unicode.
