(* ===== verification/DictationSpec.v ===== *)
(** * Streaming dictation: theorems

    The edits of a session keep the focused text field equal to what the engine believes it
    shows; an edit plan uses only the mechanisms that the user allows; latency reports are total
    and ordered; commands are routed as the context allows. *)

From stdpp Require Import base list strings sorting.
From S2P Require Import Prelude Dictation.

(** ** Text *)

Lemma utf16_app a b : utf16 (a ++ b) = utf16 a ++ utf16 b.
Proof. apply bind_app. Qed.

Lemma common_chars_spec a b :
  let n := common_chars a b in
  take n a = take n b ∧
  ∀ x y, head (drop n a) = Some x → head (drop n b) = Some y → x ≠ y.
Proof.
  revert b. induction a as [|x a IH]; intros [|y b]; simpl; [done..|]. destruct (N.eqb_spec x y) as [->|Hne].
  - destruct (IH b) as [Ht Hd]. simpl. split; [by rewrite Ht|done].
  - simpl. split; [done|]. intros ? ? [= <-] [= <-]. done.
Qed.

(** The loops that search a text end within its length: more fuel changes nothing. *)
Lemma starts_length p t : starts p t = true → length p ≤ length t.
Proof. revert t. induction p as [|a p IH]; intros [|b t]; simpl; [lia..|done|]. intros [_ ?%IH]%andb_prop. lia. Qed.
Lemma find_text_length p t i : find_text p t = Some i → i + length p ≤ length t.
Proof.
  revert i. induction t as [|b t IH]; intros i; simpl; destruct (starts p _) eqn:Hs; try done.
  1,2: intros [= <-]; by apply starts_length in Hs.
  destruct (find_text p t) eqn:Hf; simpl; [|done]. intros [= <-]. specialize (IH _ eq_refl). lia.
Qed.
Lemma split_from_fuel p t n m : p ≠ [] → length t < n → length t < m → split_from n p t = split_from m p t.
Proof.
  intros Hp. assert (0 < length p) by (destruct p; simpl; [done|lia]). revert t m.
  induction n as [|n IH]; intros t m Hn Hm; [lia|]. destruct m as [|m]; [lia|]. simpl.
  destruct (find_text p t) as [i|] eqn:Hf; [|done]. apply find_text_length in Hf. f_equal.
  apply IH; rewrite length_drop; lia.
Qed.

Section session.
Context `{UnicodeTables}.

Lemma replace_from_fuel p r before t n m :
  p ≠ [] → length t < n → length t < m → replace_from n p r before t = replace_from m p r before t.
Proof.
  intros Hp. assert (0 < length p) by (destruct p; simpl; [done|lia]). revert before t m.
  induction n as [|n IH]; intros before t m Hn Hm; [lia|]. destruct m as [|m]; [lia|]. simpl.
  destruct (find_text p (ascii_lower t)) as [i|] eqn:Hf; [|done]. apply find_text_length in Hf.
  unfold ascii_lower in Hf. rewrite length_fmap in Hf. f_equal. apply IH; rewrite length_drop; lia.
Qed.

(** ** The focused text field *)

(** Its text in UTF-16 code units: what is committed, and the provisional end. *)
Record Editor : Type := mkEditor { ed_done : list N; ed_provisional : list N }.

(** What an adapter does with the operations of dictated text.  [None]: the lengths do not fit the
    field, or the expected text is not at its end. *)
Definition edit (op : EditOperation) (d : Editor) : option Editor :=
  match op with
  | ReplaceProvisionalTail _ retain delete insert _ =>
    if decide (retain + delete = length (ed_provisional d))
    then Some (mkEditor (ed_done d) (take retain (ed_provisional d) ++ utf16 insert)) else None
  | CommitTransaction _ => Some (mkEditor (ed_done d ++ ed_provisional d) [])
  | DeleteLastUtterance expected n =>
    if decide (ed_provisional d = [] ∧ n = utf16_len expected ∧ drop (length (ed_done d) - n) (ed_done d) = utf16 expected)
    then Some (mkEditor (take (length (ed_done d) - n) (ed_done d)) []) else None
  | SetMode _ => Some d
  | _ => None
  end.
Fixpoint edits (ops : list EditOperation) (d : Editor) : option Editor :=
  match ops with [] => Some d | op :: ops => d ← edit op d; edits ops d end.

Lemma edits_app ops1 ops2 d : edits (ops1 ++ ops2) d = (d ← edits ops1 d; edits ops2 d).
Proof. revert d. induction ops1 as [|op ops1 IH]; intros d; [done|]. simpl. by destruct (edit op d); simpl. Qed.

(** The field holds the utterances of the engine and the text it rendered last. *)
Definition tracks (e : DictationEngine) (d : Editor) : Prop :=
  ed_done d = utf16 (mjoin (de_committed_utterances e)) ∧ ed_provisional d = utf16 (de_prior_rendered e).

(** A revision keeps the longest common beginning. *)
Definition minimal_revision (before after : text) (op : EditOperation) : Prop :=
  match op with
  | ReplaceProvisionalTail _ retain delete insert _ =>
    ∃ kept old, before = kept ++ old ∧ after = kept ++ insert ∧ retain = utf16_len kept ∧ delete = utf16_len old ∧
      ∀ x y, head old = Some x → head insert = Some y → x ≠ y
  | _ => False
  end.

Lemma diff_minimal id before after stable : minimal_revision before after (diff_operation id before after stable).
Proof.
  destruct (common_chars_spec before after) as [Ht Hd]. unfold diff_operation. simpl.
  exists (take (common_chars before after) after), (drop (common_chars before after) before). rewrite <- Ht at 1.
  by rewrite !take_drop.
Qed.

Lemma edit_revision before after op d :
  minimal_revision before after op → ed_provisional d = utf16 before →
  edit op d = Some (mkEditor (ed_done d) (utf16 after)).
Proof.
  destruct op; simpl; try done. intros (kept & old & -> & -> & -> & -> & _) ->. rewrite !utf16_app, length_app.
  rewrite decide_True by done. unfold utf16_len. by rewrite take_app_length.
Qed.

(** ** One event *)

(** The texts of an event, and the engine with its separator. *)
Definition event_control (ev : PartialTranscript) : option ParsedControl :=
  if pt_final_result ev then parse_control (trim_text (pt_text ev)) else None.
Definition event_display (ev : PartialTranscript) (e : DictationEngine) : text :=
  display (trim_text (pt_text ev)) (event_control ev) (de_mode e).
Definition event_engine (ev : PartialTranscript) (e : DictationEngine) : DictationEngine :=
  choose_prefix (event_control ev) (event_display ev e) (e <| de_metrics ::= record_recognition ev |>).
Definition event_rendered (ev : PartialTranscript) (e : DictationEngine) : text :=
  de_transaction_prefix (event_engine ev e) ++ event_display ev e.

Lemma choose_prefix_keeps control t e :
  de_committed_utterances (choose_prefix control t e) = de_committed_utterances e ∧
  de_prior_rendered (choose_prefix control t e) = de_prior_rendered e ∧
  de_transaction_id (choose_prefix control t e) = de_transaction_id e ∧
  de_mode (choose_prefix control t e) = de_mode e ∧
  de_prior_tokens (choose_prefix control t e) = de_prior_tokens e ∧
  de_stability_runs (choose_prefix control t e) = de_stability_runs e ∧
  de_stability_observations (choose_prefix control t e) = de_stability_observations e.
Proof.
  unfold choose_prefix. destruct control; [done|]. destruct (de_prior_rendered e) eqn:He; [|done].
  destruct t; [done|]. unfold separator_for. destruct (de_suppress_next_separator e); simpl; by rewrite ?He.
Qed.

Lemma event_engine_keeps ev e :
  de_committed_utterances (event_engine ev e) = de_committed_utterances e ∧
  de_prior_rendered (event_engine ev e) = de_prior_rendered e ∧
  de_transaction_id (event_engine ev e) = de_transaction_id e ∧
  de_mode (event_engine ev e) = de_mode e ∧
  de_prior_tokens (event_engine ev e) = de_prior_tokens e ∧
  de_stability_runs (event_engine ev e) = de_stability_runs e ∧
  de_stability_observations (event_engine ev e) = de_stability_observations e.
Proof. exact (choose_prefix_keeps _ _ (e <| de_metrics ::= record_recognition ev |>)). Qed.

(** What [ingest] returns and keeps on each kind of event. *)
Definition committed_after (rendered : text) (committed : list text) : list text :=
  match rendered with [] => committed | _ => committed ++ [rendered] end.
Definition event_words (ev : PartialTranscript) (e : DictationEngine) : list text := tokenize (event_display ev e).
Definition event_observed (ev : PartialTranscript) (e : DictationEngine) : DictationEngine :=
  update_stability (event_words ev e) (event_engine ev e).
Definition event_tokens (ev : PartialTranscript) (e : DictationEngine) : list DictationToken :=
  imap (token_at (pt_final_result ev) (event_observed ev e)) (event_words ev e).
Definition event_ending (ev : PartialTranscript) (e : DictationEngine) : list EditOperation * DictationEngine :=
  let e1 := event_observed ev e in
  if pt_final_result ev then
    let '(ending, e2) :=
      match event_control ev with
      | Some control => apply_control control e1
      | None => (match event_rendered ev e with [] => [] | _ => [CommitTransaction (de_transaction_id e)] end,
                 e1 <| de_committed_utterances ::= committed_after (event_rendered ev e) |>)
      end in
    (ending, start_next_transaction e2)
  else ([], e1 <| de_prior_rendered := event_rendered ev e |> <| de_prior_tokens := event_words ev e |>).

Local Opaque apply_control.
Lemma ingest_run ev e u e' :
  ingest ev e = (Ok u, e') →
  ∃ revision,
    du_operations u = revision ++ (event_ending ev e).1 ∧ e' = (event_ending ev e).2 ∧ du_tokens u = event_tokens ev e ∧
    (revision = [] ∧ event_rendered ev e = de_prior_rendered e ∨
     ∃ op, revision = [op] ∧ minimal_revision (de_prior_rendered e) (event_rendered ev e) op).
Proof.
  unfold ingest, reject_if. munfold. destruct (has 0 (pt_text ev)); [done|]. simpl.
  change (if pt_final_result ev then parse_control (trim_text (pt_text ev)) else None) with (event_control ev).
  change (display (trim_text (pt_text ev)) (event_control ev) (de_mode e)) with (event_display ev e).
  change (choose_prefix (event_control ev) (event_display ev e) _) with (event_engine ev e).
  destruct (event_engine_keeps ev e) as (_ & Hp & Hi & _).
  change (de_transaction_prefix (event_engine ev e) ++ event_display ev e) with (event_rendered ev e).
  change (update_stability _ (event_engine ev e)) with (event_observed ev e). rewrite Hp, Hi.
  set (revision := if bool_decide _ then [] else _).
  assert (revision = [] ∧ event_rendered ev e = de_prior_rendered e ∨
     ∃ op, revision = [op] ∧ minimal_revision (de_prior_rendered e) (event_rendered ev e) op) as Hrev.
  { unfold revision. case_bool_decide; [by left|right]. eexists. split; [reflexivity|apply diff_minimal]. }
  intros Hrun. exists revision. unfold event_ending, event_tokens.
  destruct (pt_final_result ev); [destruct (event_control ev) as [control|]|]; simpl in Hrun.
  - rewrite (surjective_pairing (apply_control control (event_observed ev e))) in Hrun |- *. by injection Hrun as <- <-.
  - destruct (event_rendered ev e) as [|c t]; by injection Hrun as <- <-.
  - injection Hrun as <- <-. by rewrite app_nil_r.
Qed.
Local Transparent apply_control.

(** A control that changes the mode, and one that removes the last utterance. *)
Lemma apply_mode mode control e :
  pco_operations control = [SetMode mode] → apply_control control e = ([SetMode mode], e <| de_mode := mode |>).
Proof. unfold apply_control. by intros ->. Qed.
Lemma apply_delete control init latest e :
  pco_operations control = [DeleteLastUtterance [] 0] → de_committed_utterances e = init ++ [latest] →
  apply_control control e = ([DeleteLastUtterance latest (utf16_len latest)], e <| de_committed_utterances := init |>).
Proof.
  unfold apply_control. intros -> Hc. rewrite Hc, last_snoc. simpl. cbn. rewrite Hc.
  by rewrite length_app, Nat.add_sub, take_app_length.
Qed.

(** Events whose text edits the field model covers: speech, and after no visible separator a change of mode or the removal
    of the last utterance. *)
Definition covered_event (e : DictationEngine) (ev : PartialTranscript) : Prop :=
  match event_control ev with
  | None => True
  | Some control =>
    de_transaction_prefix e = [] ∧ pco_visible_text control = None ∧
    ((∃ mode, pco_operations control = [SetMode mode]) ∨
     pco_operations control = [DeleteLastUtterance [] 0] ∧ de_committed_utterances e ≠ [])
  end.

(** Where a covered control leaves the field. *)
Lemma control_edits control e e1 d :
  ed_done d = utf16 (mjoin (de_committed_utterances e)) → ed_provisional d = [] → de_committed_utterances e1 = de_committed_utterances e →
  ((∃ mode, pco_operations control = [SetMode mode]) ∨
   pco_operations control = [DeleteLastUtterance [] 0] ∧ de_committed_utterances e ≠ []) →
  edits (apply_control control e1).1 d =
    Some (mkEditor (utf16 (mjoin (de_committed_utterances (apply_control control e1).2))) []).
Proof.
  intros Hdone Hprov Hc [[mode Hops]|[Hops Hne]].
  - rewrite (apply_mode mode) by done. simpl. rewrite Hc, <- Hdone, <- Hprov. by destruct d.
  - destruct (de_committed_utterances e) as [|latest init _] using rev_ind; [done|].
    rewrite (apply_delete _ init latest) by done. simpl.
    assert (ed_done d = utf16 (mjoin init) ++ utf16 latest) as Hd.
    { rewrite Hdone, join_app, utf16_app. simpl. by rewrite app_nil_r. }
    assert (length (ed_done d) - utf16_len latest = length (utf16 (mjoin init))) as Hlen.
    { rewrite Hd, length_app. unfold utf16_len. lia. }
    by rewrite Hlen, Hd, drop_app_length, take_app_length, decide_True by done.
Qed.

Lemma covered_control_shows_nothing e ev control :
  covered_event e ev → event_control ev = Some control → event_rendered ev e = [].
Proof.
  unfold covered_event, event_rendered, event_engine, event_display. intros Hcov Hctl. rewrite Hctl in *. simpl.
  by destruct Hcov as (-> & -> & _).
Qed.

Lemma tracks_event ev e d u e' :
  tracks e d → covered_event e ev → ingest ev e = (Ok u, e') → ∃ d', edits (du_operations u) d = Some d' ∧ tracks e' d'.
Proof.
  intros Htr Hcov Hin. pose proof Htr as [Hdone Hprov].
  destruct (ingest_run _ _ _ _ Hin) as (revision & -> & -> & _ & Hrev).
  assert (edits revision d = Some (mkEditor (ed_done d) (utf16 (event_rendered ev e)))) as Hedit.
  { destruct Hrev as [[-> Heq]|(op & -> & Hop)]; simpl.
    - rewrite Heq, <- Hprov. by destruct d.
    - by rewrite (edit_revision _ _ _ _ Hop Hprov). }
  rewrite edits_app, Hedit. simpl. clear Hedit Hrev. unfold event_ending, tracks.
  pose proof (proj1 (event_engine_keeps ev e)) as Hobs.
  destruct (pt_final_result ev); [destruct (event_control ev) as [control|] eqn:Hctl|].
  - rewrite (covered_control_shows_nothing _ _ _ Hcov Hctl).
    rewrite (surjective_pairing (apply_control control (event_observed ev e))). simpl.
    unfold covered_event in Hcov. rewrite Hctl in Hcov. destruct Hcov as (_ & _ & Hops).
    exists (mkEditor (utf16 (mjoin (de_committed_utterances (apply_control control (event_observed ev e)).2))) []).
    split; [|done]. by apply (control_edits control e (event_observed ev e) (mkEditor (ed_done d) (utf16 []))).
  - destruct (event_rendered ev e) as [|c t]; simpl; eexists; (split; [reflexivity|]); simpl; rewrite Hobs; [done|].
    by rewrite join_app, utf16_app, Hdone; simpl; rewrite app_nil_r.
  - eexists. split; [reflexivity|]. simpl. by rewrite Hobs.
Qed.

(** Only the revision of an event rewrites the provisional text. *)
Lemma covered_ending ev e : covered_event e ev → ∀ op, op ∈ (event_ending ev e).1 → is_tail op = false.
Proof.
  unfold covered_event, event_ending. intros Hcov op.
  destruct (pt_final_result ev); [destruct (event_control ev) as [control|]|]; [| |by intros ?%elem_of_nil].
  - rewrite (surjective_pairing (apply_control _ _)). simpl. unfold apply_control. destruct Hcov as (_ & -> & Hops). simpl.
    destruct Hops as [[m ->]|[-> _]]; simpl; repeat case_match; intros ->%list_elem_of_singleton; done.
  - destruct (event_rendered ev e); [by intros ?%elem_of_nil|by intros ->%list_elem_of_singleton].
Qed.

(** A session: events and the edits that they cause. *)
Inductive session (mode : DictationMode) : DictationEngine → Editor → Prop :=
  | session_start : session mode (engine_new mode) (mkEditor [] [])
  | session_event e d ev u e' d' :
      session mode e d → covered_event e ev → ingest ev e = (Ok u, e') → edits (du_operations u) d = Some d' →
      session mode e' d'
  | session_refused e d ev err e' : session mode e d → ingest ev e = (Err err, e') → session mode e' d
  | session_applied e d at_ms receipt : session mode e d → session mode (record_apply at_ms receipt e) d.

Lemma refused_unchanged ev e err e' : ingest ev e = (Err err, e') → e' = e.
Proof.
  unfold ingest, reject_if. munfold. destruct (has 0 (pt_text ev)); simpl; [intros; by simplify_eq|].
  destruct (pt_final_result ev); [destruct (parse_control _)|]; repeat case_match; intros; simplify_eq.
Qed.

Lemma session_tracks mode e d : session mode e d → tracks e d.
Proof.
  induction 1 as [|e d ev u e' d' _ IH Hcov Hin Hed|e d ev err e' _ IH Hin|e d at_ms receipt _ IH]; [done| | |done].
  - destruct (tracks_event _ _ _ _ _ IH Hcov Hin) as (d'' & Hed' & ?). by simplify_eq.
  - by apply refused_unchanged in Hin as ->.
Qed.

End session.

(** ** Concrete sessions *)

(** Tables for ASCII. *)
Module AsciiTables.
#[local] Instance ascii_tables : UnicodeTables :=
  { alphanumeric := λ c, in_range 48 57 c || in_range 65 90 c || in_range 97 122 c; lowercase := ascii_lower }.

Definition said (words : string) (final_result : bool) : PartialTranscript :=
  mkPartialTranscript (lit words) final_result (Some 10%N) 25.
(** The engine after some events, and the operations of each. *)
Definition hear (evs : list PartialTranscript) : DictationEngine * list (list EditOperation) :=
  foldl (λ st ev, match ingest ev st.1 with
                  | (Ok u, e) => (e, st.2 ++ [du_operations u])
                  | (_, e) => (e, st.2)
                  end) (engine_new Natural, []) evs.
(** The field after the operations, from an empty one. *)
Definition field (evs : list PartialTranscript) : option Editor := edits (mjoin (hear evs).2) (mkEditor [] []).

(** Revisions, a second utterance with its separator, and its removal. *)
Example a_short_session :
  field [said "Hello wor" false; said "Hello world" false; said "Hello world" true; said "again" false; said "again." true] =
    Some (mkEditor (lit "Hello world again.") []) ∧
  (hear [said "Hello wor" false; said "Hello world" true; said "again" true; said "scratch that" true]).2 =
    [[ReplaceProvisionalTail 1 0 0 (lit "Hello wor") 0]; [ReplaceProvisionalTail 1 9 0 (lit "ld") 11; CommitTransaction 1];
     [ReplaceProvisionalTail 2 0 0 (lit " again") 6; CommitTransaction 2]; [DeleteLastUtterance (lit " again") 6]] ∧
  field [said "Hello wor" false; said "Hello world" true; said "again" true; said "scratch that" true] =
    Some (mkEditor (lit "Hello world") []).
Proof. vm_compute. done. Qed.

(** A final control phrase clears the text that its partial results showed, but not the separator before it: the field is
    left with a space that belongs to no utterance, and the removal asks for text that is not at the end of the field. *)
Example a_control_leaves_the_separator :
  (hear [said "Hello" true; said "scratch that" false; said "scratch that" true]).2 =
    [[ReplaceProvisionalTail 1 0 0 (lit "Hello") 5; CommitTransaction 1];
     [ReplaceProvisionalTail 2 0 0 (lit " scratch that") 1];
     [ReplaceProvisionalTail 2 1 12 [] 1; DeleteLastUtterance (lit "Hello") 5]] ∧
  edits [ReplaceProvisionalTail 2 0 0 (lit " scratch that") 1; ReplaceProvisionalTail 2 1 12 [] 1]
    (mkEditor (lit "Hello") []) = Some (mkEditor (lit "Hello") (lit " ")) ∧
  field [said "Hello" true; said "scratch that" false; said "scratch that" true] = None.
Proof. vm_compute. done. Qed.

End AsciiTables.

(** ** Edit plans *)

(** What a mechanism needs of the target. *)
Definition permitted (c : TargetCapabilities) (strategy : EditStrategy) : bool :=
  match strategy with
  | DirectTextApi => tc_direct_text_api c
  | Accessibility => tc_accessibility_write c
  | ClipboardPaste => tc_clipboard_paste c
  | Keystrokes => tc_keystrokes c
  | SessionState | Unsupported => true
  end.
(** What an operation needs of a text interface. *)
Definition supported (op : EditOperation) (c : TargetCapabilities) : Prop :=
  (is_search op = true → tc_text_search c = true) ∧ (is_rich op = true → tc_rich_text c = true) ∧
  (is_multiline op = true → tc_multiline c = true) ∧ (is_undo op = true → tc_undo c = true) ∧
  (is_tail op = true → tc_provisional_replacement c = true).

Lemma implb_orb a b : negb a || b = true ↔ (a = true → b = true).
Proof. destruct a, b; naive_solver. Qed.
Lemma native_exact_supported op c : native_exact op c = true ↔ supported op c.
Proof. unfold native_exact, supported. rewrite !andb_true_iff, !implb_orb. tauto. Qed.

(** How a plan comes about. *)
Lemma plan_edit_cases op c :
  let plan := plan_edit op c in
  (is_session op = true ∧ plan = mkApplicationPlan SessionState true None) ∨
  is_session op = false ∧
    ((∃ s, plan = mkApplicationPlan s true None ∧ supported op c ∧
        (s = DirectTextApi ∧ tc_direct_text_api c = true ∨ s = Accessibility ∧ tc_accessibility_write c = true)) ∨
     (tc_direct_text_api c || tc_accessibility_write c = true → ¬ supported op c) ∧
     ∃ s reason, plan = mkApplicationPlan s false (Some reason) ∧
       (s = ClipboardPaste ∧ is_search op = false ∧ tc_clipboard_paste c = true ∨
        s = Keystrokes ∧ is_search op = false ∧ tc_keystrokes c = true ∨
        s = Unsupported ∧ (tc_keystrokes c = true → is_search op = true ∨ is_rich op = true))).
Proof.
  simpl. unfold plan_edit. destruct (is_session op) eqn:Hs; [by left|right]. split; [done|].
  destruct (native_exact op c) eqn:Hn; [apply native_exact_supported in Hn|];
    destruct (tc_direct_text_api c), (tc_accessibility_write c); simpl; try (left; by eauto 10).
  all: right; rewrite <- native_exact_supported; (split; [congruence|]).
  all: match goal with |- context [if ?b then _ else _] => destruct b eqn:H1 end;
    [rewrite !andb_true_iff in H1; eexists _, _; split; [reflexivity|left]; destruct op; naive_solver|].
  all: match goal with |- context [if ?b then _ else _] => destruct b eqn:H2 end;
    [rewrite !andb_true_iff, !negb_true_iff in H2; eexists _, _; split; [reflexivity|left]; tauto|].
  all: match goal with |- context [if ?b then _ else _] => destruct b eqn:H3 end;
    [rewrite !andb_true_iff, !negb_true_iff in H3; eexists _, _; split; [reflexivity|right; left]; tauto|].
  all: eexists _, _; split; [reflexivity|right; right]; split; [done|];
    destruct (is_search op), (is_rich op), (tc_keystrokes c); naive_solver.
Qed.

(** An edit plan names a mechanism that the target and the user's policy allow.  It is exact for the bookkeeping of the
    session and through a text interface that supports the operation, and otherwise says why it is not; clipboard and
    keystrokes never stand in for a search, and an edit is given up only when nothing allowed can apply it. *)
Theorem edit_plans_stay_within_permissions op c :
  let plan := plan_edit op c in
  permitted c (apl_strategy plan) = true ∧
  (apl_exact plan = true ↔ apl_reason plan = None) ∧
  (apl_exact plan = true ↔ is_session op = true ∨ (tc_direct_text_api c || tc_accessibility_write c = true ∧ supported op c)) ∧
  (apl_strategy plan = SessionState ↔ is_session op = true) ∧
  (is_search op = true → apl_strategy plan ≠ ClipboardPaste ∧ apl_strategy plan ≠ Keystrokes) ∧
  (apl_strategy plan = Unsupported → tc_keystrokes c = true → is_search op = true ∨ is_rich op = true).
Proof.
  simpl. destruct (plan_edit_cases op c) as [[Hs ->]|[Hs [(s & -> & Hsup & Hp)|(Hno & s & reason & -> & Hp)]]]; simpl.
  - destruct op; naive_solver.
  - destruct Hp as [[-> Hp]|[-> Hp]]; rewrite ?Hp, ?Hs, ?orb_true_r; simpl; split_and!; naive_solver.
  - destruct Hp as [(-> & Hp1 & Hp2)|[(-> & Hp1 & Hp2)|[-> Hp]]]; rewrite ?Hs, ?Hp1; simpl; split_and!; naive_solver.
Qed.

(** A revision of dictated text may hold line breaks, yet its plan is exact on a target that takes a single line. *)
Example line_breaks_of_a_revision_are_not_checked :
  let single_line := mkTargetCapabilities true true true true true false true true true true in
  plan_edit (ReplaceProvisionalTail 1 0 0 [97; 10; 98]%N 0) single_line = mkApplicationPlan DirectTextApi true None ∧
  plan_edit (InsertText [97; 10; 98]%N) single_line =
    mkApplicationPlan ClipboardPaste false (Some "target lacks transactional text APIs; selection may briefly change").
Proof. done. Qed.

(** ** Latency *)

Definition bounded_metrics (m : DictationLatencyMetrics) : Prop :=
  length (lm_first_partial m) ≤ MAX_LATENCY_SAMPLES ∧ length (lm_partial_updates m) ≤ MAX_LATENCY_SAMPLES ∧
  length (lm_finalization m) ≤ MAX_LATENCY_SAMPLES ∧ length (lm_target_apply m) ≤ MAX_LATENCY_SAMPLES.

Lemma latency_push_length value samples :
  length samples ≤ MAX_LATENCY_SAMPLES → length (push_bounded value samples) ≤ MAX_LATENCY_SAMPLES.
Proof.
  unfold push_bounded. intros. destruct (Nat.eqb_spec (length samples) MAX_LATENCY_SAMPLES) as [Heq|Hne];
    rewrite length_app; simpl; [|lia].
  destruct samples; simpl in *; [unfold MAX_LATENCY_SAMPLES in *; lia|]. unfold MAX_LATENCY_SAMPLES in *; lia.
Qed.

(** The index stays in range, and grows with the percentage. *)
Lemma percentile_index n percent : n ≠ 0 → percent ≤ 100 → ((n - 1) * percent + 99) / 100 ≤ n - 1.
Proof. intros. apply Nat.lt_succ_r, Nat.Div0.div_lt_upper_bound. nia. Qed.

Lemma sorted_lookup_le (l : list N) i j x y :
  StronglySorted N.le l → i ≤ j → l !! i = Some x → l !! j = Some y → (x ≤ y)%N.
Proof.
  intros Hs Hij Hi Hj. destruct (decide (i = j)) as [->|]; [simplify_eq; lia|].
  revert i j Hij Hi Hj n. induction Hs as [|a l Hs IH Ha]; intros i j Hij Hi Hj Hne; [done|].
  destruct j as [|j]; [lia|]. destruct i as [|i]; simpl in *.
  - simplify_eq. rewrite Forall_forall in Ha. apply Ha. by eapply list_elem_of_lookup_2.
  - eapply (IH i j); [lia|done|done|lia].
Qed.

Lemma distribution_total samples :
  ∃ d, distribution samples = Some d ∧ ld_sample_count d = length samples ∧
    (ld_p50_ms d ≤ ld_p95_ms d ≤ ld_maximum_ms d)%N ∧
    (samples ≠ [] → ld_p50_ms d ∈ samples ∧ ld_p95_ms d ∈ samples ∧ ld_maximum_ms d ∈ samples ∧
       ∀ x, x ∈ samples → (x ≤ ld_maximum_ms d)%N).
Proof.
  destruct samples as [|s0 samples]; [by exists (mkLatencyDistribution 0 0 0 0)|].
  unfold distribution. set (all := s0 :: samples). set (ordered := merge_sort N.le all).
  assert (ordered ≡ₚ all) as Hperm by apply merge_sort_Permutation.
  assert (StronglySorted N.le ordered) as Hsort by (apply (StronglySorted_merge_sort N.le)).
  assert (length ordered = length all) as Hlen by (by rewrite Hperm).
  assert (length ordered ≠ 0) as Hne by (rewrite Hlen; done).
  assert (∀ p, p ≤ 100 → is_Some (percentile ordered p)) as Hp.
  { intros p Hp. apply lookup_lt_is_Some. pose proof (percentile_index _ _ Hne Hp). lia. }
  destruct (Hp 50 ltac:(lia)) as [p50 H50], (Hp 95 ltac:(lia)) as [p95 H95]. rewrite H50, H95. simpl.
  assert (∃ m, last ordered = Some m) as [m Hm] by (apply last_is_Some; intros Hnil; by rewrite Hnil in Hne).
  rewrite Hm. simpl. eexists. split; [reflexivity|]. simpl. split; [done|].
  rewrite last_lookup in Hm. unfold percentile in *.
  pose proof (percentile_index _ 50 Hne ltac:(lia)). pose proof (percentile_index _ 95 Hne ltac:(lia)).
  split_and!.
  - eapply sorted_lookup_le; [exact Hsort| |exact H50|exact H95]. apply Nat.Div0.div_le_mono. lia.
  - eapply sorted_lookup_le; [exact Hsort| |exact H95|exact Hm]. lia.
  - intros _. rewrite <- Hperm. split_and!; [by eapply list_elem_of_lookup_2..|].
    intros x Hx. rewrite <- Hperm in Hx. apply list_elem_of_lookup in Hx as [i Hi]. eapply sorted_lookup_le; [exact Hsort| |exact Hi|exact Hm].
    apply lookup_lt_Some in Hi. lia.
Qed.

Section engine.
Context `{UnicodeTables}.

(** An event records one latency at most. *)
Lemma choose_prefix_metrics control t e : de_metrics (choose_prefix control t e) = de_metrics e.
Proof. unfold choose_prefix, separator_for. by repeat case_match; simplify_eq/=. Qed.
Lemma apply_control_metrics control e : de_metrics (apply_control control e).2 = de_metrics e.
Proof.
  unfold apply_control. set (ops := _ <$> _).
  assert (∀ e0, de_metrics (foldl note_operation e0 ops) = de_metrics e0) as Hfold.
  { clear. induction ops as [|op ops IH]; intros e0; [done|]. simpl. rewrite IH. unfold note_operation. by repeat case_match. }
  destruct (existsb is_delete ops); simpl; apply Hfold.
Qed.
Lemma ingest_metrics ev e u e' : ingest ev e = (Ok u, e') → de_metrics e' = record_recognition ev (de_metrics e).
Proof.
  intros (revision & _ & -> & _)%ingest_run.
  assert (de_metrics (event_observed ev e) = record_recognition ev (de_metrics e)) as Hm by apply choose_prefix_metrics.
  unfold event_ending. destruct (pt_final_result ev); [destruct (event_control ev) as [control|]|]; [|done..].
  rewrite (surjective_pairing (apply_control _ _)), <- Hm. apply apply_control_metrics.
Qed.

Lemma recognition_bounded ev m : bounded_metrics m → bounded_metrics (record_recognition ev m).
Proof.
  intros (H1 & H2 & H3 & H4). unfold record_recognition.
  repeat case_match; (split_and!; simpl; [..|]; first [done|by apply latency_push_length]).
Qed.
Lemma session_bounded mode e d : session mode e d → bounded_metrics (de_metrics e).
Proof.
  induction 1 as [|e d ev u e' d' _ IH _ Hin _|e d ev err e' _ IH Hin|e d at_ms receipt _ (H1 & H2 & H3 & H4)].
  - unfold bounded_metrics, MAX_LATENCY_SAMPLES. simpl. lia.
  - by rewrite (ingest_metrics _ _ _ _ Hin); apply recognition_bounded.
  - by apply refused_unchanged in Hin as ->.
  - split_and!; [done..|]. by apply latency_push_length.
Qed.

(** Latency is recorded in at most 512 samples of each kind, and the report never panics: it counts the samples, its
    percentiles are samples in ascending order, and no sample exceeds its maximum. *)
Theorem latency_reports_are_total mode e d :
  session mode e d →
  bounded_metrics (de_metrics e) ∧ is_Some (report (de_metrics e)) ∧
  ∀ samples, ∃ r, distribution samples = Some r ∧ ld_sample_count r = length samples ∧
    (ld_p50_ms r ≤ ld_p95_ms r ≤ ld_maximum_ms r)%N ∧
    (samples ≠ [] → ld_p50_ms r ∈ samples ∧ ld_p95_ms r ∈ samples ∧ ld_maximum_ms r ∈ samples ∧
       ∀ x, x ∈ samples → (x ≤ ld_maximum_ms r)%N).
Proof.
  intros Hs. split_and!; [by eapply session_bounded| |apply distribution_total].
  unfold report. repeat (edestruct distribution_total as (? & -> & _); simpl). done.
Qed.

(** ** Token stability *)

(** Every run counts at least its own observation, and two observations make a token stable. *)
Definition runs_ok (e : DictationEngine) : Prop :=
  Forall (λ n, 1 ≤ n)%N (de_stability_runs e) ∧ de_stability_observations e = DEFAULT_STABILITY_OBSERVATIONS.

Lemma update_stability_ok words e : runs_ok e → runs_ok (update_stability words e).
Proof.
  intros [Hr Ho]. split; [|done]. simpl. apply Forall_lookup. intros i n. rewrite list_lookup_imap.
  destruct (words !! i) as [word|]; simpl; [|done]. intros [= <-]. case_bool_decide; [|done].
  unfold sat_add. destruct (de_stability_runs e !! i) eqn:Hi; simpl; lia.
Qed.
Lemma apply_control_runs control e :
  de_stability_runs (apply_control control e).2 = de_stability_runs e ∧
  de_stability_observations (apply_control control e).2 = de_stability_observations e.
Proof.
  unfold apply_control. set (ops := _ <$> _).
  assert (∀ e0, de_stability_runs (foldl note_operation e0 ops) = de_stability_runs e0 ∧
    de_stability_observations (foldl note_operation e0 ops) = de_stability_observations e0) as Hfold.
  { clear. induction ops as [|op ops IH]; intros e0; [done|]. simpl. destruct (IH (note_operation e0 op)) as [-> ->].
    unfold note_operation. by repeat case_match. }
  destruct (existsb is_delete ops); simpl; apply Hfold.
Qed.

Lemma observed_stability ev e :
  runs_ok e →
  runs_ok (event_observed ev e) ∧
  ∀ i token, event_tokens ev e !! i = Some token →
    (dt_stability token = Stable ↔ pt_final_result ev = true ∨ de_prior_tokens e !! i = Some (dt_text token)).
Proof.
  intros Hok.
  destruct (event_engine_keeps ev e) as (_ & _ & _ & _ & Htok & Hruns & Hobs).
  assert (runs_ok (event_engine ev e)) as Hok1 by (unfold runs_ok; by rewrite Hruns, Hobs).
  split; [by apply update_stability_ok|]. intros i token. unfold event_tokens. rewrite list_lookup_imap.
  destruct (event_words ev e !! i) as [word|] eqn:Hw; simpl; [|done]. intros [= <-]. simpl.
  rewrite list_lookup_imap, Hw. simpl. rewrite Hobs, Htok, Hruns. destruct Hok as [Hr ->]. unfold DEFAULT_STABILITY_OBSERVATIONS.
  destruct (pt_final_result ev); simpl; [naive_solver|]. case_bool_decide as Hsame.
  - rewrite (proj2 (N.leb_le _ _)); [naive_solver|]. unfold sat_add.
    destruct (de_stability_runs e !! i) as [n|] eqn:Hi; simpl; [|lia]. eapply Forall_lookup_1 in Hi; [|exact Hr]. simpl in Hi. lia.
  - simpl. naive_solver.
Qed.

Lemma ingest_stability ev e u e' :
  ingest ev e = (Ok u, e') → runs_ok e → runs_ok e' ∧
  de_prior_tokens e' = if pt_final_result ev then [] else dt_text <$> du_tokens u.
Proof.
  intros (revision & _ & -> & -> & _)%ingest_run Hok. destruct (observed_stability ev e Hok) as [[Hr Ho] _].
  unfold event_ending. destruct (pt_final_result ev) eqn:Hf; [destruct (event_control ev) as [control|]|].
  - rewrite (surjective_pairing (apply_control _ _)). split; [|done]. split; [constructor|].
    rewrite <- Ho. apply apply_control_runs.
  - split; [split; [constructor|]|]; done.
  - split; [done|]. apply list_eq. intros i. unfold event_tokens. rewrite list_lookup_fmap, list_lookup_imap.
    by destruct (event_words ev e !! i) eqn:Hi.
Qed.
Lemma session_runs_ok mode e d : session mode e d → runs_ok e.
Proof.
  induction 1 as [|e d ev u e' d' _ IH _ Hin _|e d ev err e' _ IH Hin|e d at_ms receipt _ IH]; [by split| | |done].
  - by apply (ingest_stability _ _ _ _ Hin).
  - by apply refused_unchanged in Hin as ->.
Qed.

(** A token of an update is marked stable exactly when the result is final or the partial result before it, in the same
    transaction, has the same token in the same place; the engine compares with the last partial result only. *)
Theorem stable_tokens_were_repeated mode e d ev u e' :
  session mode e d → ingest ev e = (Ok u, e') →
  de_prior_tokens e' = (if pt_final_result ev then [] else dt_text <$> du_tokens u) ∧
  ∀ i token, du_tokens u !! i = Some token →
    (dt_stability token = Stable ↔ pt_final_result ev = true ∨ de_prior_tokens e !! i = Some (dt_text token)).
Proof.
  intros Hs%session_runs_ok Hin. destruct (ingest_stability _ _ _ _ Hin Hs) as [_ Hprior]. split; [done|].
  destruct (ingest_run _ _ _ _ Hin) as (revision & _ & _ & -> & _). by apply observed_stability.
Qed.

(** ** The command router *)

Lemma omap_length_le {A B} (f : A → option B) l : length (omap f l) ≤ length l.
Proof. induction l as [|x l IH]; csimpl; [lia|]. destruct (f x); csimpl; lia. Qed.
Lemma omap_full {A B} (f : A → option B) l :
  length (omap f l) = length l → Forall2 (λ x y, f x = Some y) l (omap f l).
Proof.
  induction l as [|x l IH]; csimpl; [constructor|]. pose proof (omap_length_le f l).
  destruct (f x) eqn:Hx; csimpl; [|lia]. intros. constructor; [done|]. apply IH. lia.
Qed.

(** Speech is obeyed only as a whole, and dictation is not left for a goal.  Commands run when every part of the transcript
    is a command, one for each part in order, and while dictating only commands that stop it or change its mode; a goal
    for the agent never comes from dictation, and in a command context nothing is typed.  The text passed on is the
    transcript without the spaces around it. *)
Theorem voice_routes_respect_the_context transcript context :
  match route transcript context with
  | Commands commands =>
    commands ≠ [] ∧
    Forall2 (λ part command, parse_deterministic (bool_decide (context = Command)) part = Some command)
      (split_command_chain (trim_text transcript)) commands ∧
    (context = Dictation → Forall (λ c, dictation_safe c = true) commands)
  | AgentGoal t => t = trim_text transcript ∧ context ≠ Dictation
  | DictationRoute t => t = trim_text transcript ∧ context ≠ Command
  end.
Proof.
  unfold route. set (parts := split_command_chain _). set (parse := parse_deterministic _).
  destruct (negb _ && _ && _) eqn:Hall.
  - rewrite !andb_true_iff, negb_true_iff, orb_true_iff, negb_true_iff, !bool_decide_eq_false, bool_decide_eq_true in Hall.
    destruct Hall as [[Hne Hlen] Hsafe]. split_and!.
    + intros Hnil. by rewrite Hnil in Hne.
    + by apply omap_full.
    + intros ->. destruct Hsafe as [[]|Hsafe]; [done|]. apply Forall_forall. intros c Hc.
      rewrite forallb_forall in Hsafe. by apply Hsafe, list_elem_of_In.
  - destruct (starts_with_any (lowercase (trim_text transcript)) goal_prefixes), context; done.
Qed.
End engine.
