(* ===== verification/PhraseCache.v ===== *)
(** * The phrase cache

    Models [crates/audio/src/cache.rs]: the cache of synthesized phrases in a directory of its own,
    with the least recently used entries evicted to a byte budget, the index file, the entry format
    and the recovery of the index when the cache is opened.

    The directory is a map from names to files; every call of the file system takes the next element
    of a list of faults and fails with its message if there is one, so that a call can fail at every
    point.  A crash leaves the disk as it is when every later call fails.  No operation can panic
    while it holds the index, so its lock is never poisoned. *)

From stdpp Require Import base gmap strings list sorting pretty.
From Stdlib Require Import Ascii.
From S2P Require Import Prelude Text.

(** ** Bytes *)

(** [to_le_bytes] and [from_le_bytes] of an unsigned integer of [w] bytes. *)
Fixpoint to_le (w : nat) (n : N) : list N :=
  match w with O => [] | S w => (n mod 256)%N :: to_le w (n / 256) end.
Fixpoint of_le (l : list N) : N :=
  match l with [] => 0%N | b :: l => (b + 256 * of_le l)%N end.

(** [i16::to_le_bytes] and [i16::from_le_bytes] *)
Definition sample_bytes (z : Z) : list N := to_le 2 (Z.to_N (z mod 65536)).
Definition sample_of (a b : N) : Z :=
  let n := Z.of_N (of_le [a; b]) in if (n <? 32768)%Z then n else (n - 65536)%Z.

Definition text_bytes (s : string) : list N := byte_val <$> bytes s.
(** [{byte:02x}] for each byte. *)
Definition hex_digest (l : list N) : string := of_bytes (l ≫= λ b, [hex_digit (b / 16); hex_digit (b mod 16)]).
Definition is_hex_digest (value : string) : bool :=
  (str_len value =? 64) && forallb is_ascii_hexdigit (bytes value).

(** ** The entry format *)

(** [AudioError]; the cache uses [Processing] only. *)
Inductive AudioError : Type :=
  | Unavailable (detail : string)
  | DeviceChanged (detail : string)
  | Processing (detail : string)
  | HostedAdapterOffline
  | WakeNotDetected
  | NoSpeech.

Definition PHRASE_CACHE_CAPACITY_BYTES : N := 64 * 1024 * 1024.
Definition ENTRY_MAGIC : list N := text_bytes "PAPHRAS1".
Definition ENTRY_HEADER_BYTES : nat := 56.
Definition ENTRY_SUFFIX : string := ".pcm".
Definition INDEX_FILE : string := "index.json".

Record CachedPhrase : Type := mkCachedPhrase { ph_samples : list Z; ph_sample_rate_hz : N; ph_channels : N }.

(** The format that both directions check. *)
Definition valid_format (sample_count sample_rate_hz channels : N) : bool :=
  negb (sample_count =? 0)%N && in_range 8000 192000 sample_rate_hz && negb (channels =? 0)%N &&
  (sample_count mod channels =? 0)%N.

Section format.
Context `{Sha256}.

Definition encode_entry (samples : list Z) (sample_rate_hz channels : N) : outcome AudioError (list N) :=
  if negb (valid_format (N.of_nat (length samples)) sample_rate_hz channels)
  then Err (Processing "phrase cache received an invalid PCM phrase")
  else
    let payload := samples ≫= sample_bytes in
    Ok (ENTRY_MAGIC ++ to_le 4 sample_rate_hz ++ to_le 2 channels ++ to_le 2 0 ++ to_le 8 (N.of_nat (length samples))
        ++ sha256 payload ++ payload).

(** [bytes.get(lo..hi)] *)
Definition slice (lo hi : nat) (l : list N) : option (list N) :=
  if hi <=? length l then Some (take (hi - lo) (drop lo l)) else None.
(** [payload.as_chunks::<2>().0] *)
Fixpoint decode_samples (l : list N) : list Z :=
  match l with a :: b :: l => sample_of a b :: decode_samples l | _ => [] end.

Definition decode_entry (l : list N) : option CachedPhrase :=
  header ← slice 0 ENTRY_HEADER_BYTES l;
  magic ← slice 0 8 header;
  if negb (bool_decide (magic = ENTRY_MAGIC)) then None
  else
    sample_rate_hz ← of_le <$> slice 8 12 header;
    channels ← of_le <$> slice 12 14 header;
    sample_count ← of_le <$> slice 16 24 header;
    expected ← slice 24 ENTRY_HEADER_BYTES header;
    let payload := drop ENTRY_HEADER_BYTES l in
    if negb (valid_format sample_count sample_rate_hz channels) || negb (N.of_nat (length payload) =? sample_count * 2)%N ||
       negb (bool_decide (sha256 payload = expected))
    then None
    else Some (mkCachedPhrase (decode_samples payload) sample_rate_hz channels).

(** The key is the digest of the four fields, each with its length before it. *)
Record PhraseKey : Type := mkPhraseKey { pk_digest : string }.
Definition frame (field : string) : list N :=
  to_le 8 (N.of_nat (str_len field)) ++ text_bytes ":" ++ text_bytes field.
Definition key_frames (engine voice rate text : string) : list N :=
  frame engine ++ text_bytes "|" ++ frame voice ++ text_bytes "|" ++ frame rate ++ text_bytes "|" ++ frame text.
Definition key_new (engine voice rate text : string) : PhraseKey :=
  mkPhraseKey (hex_digest (sha256 (key_frames engine voice rate text))).
End format.

(** ** The index *)

Record PhraseRecord : Type := mkPhraseRecord { pr_bytes : N; pr_used_at : N }.
Global Instance PhraseRecord_eta : Eta PhraseRecord := λ r, mkPhraseRecord (pr_bytes r) (pr_used_at r).
Record PhraseIndex : Type := mkPhraseIndex { pi_entries : gmap string PhraseRecord; pi_next_use : N }.
Global Instance PhraseIndex_eta : Eta PhraseIndex := λ r, mkPhraseIndex (pi_entries r) (pi_next_use r).

Definition index_total (index : PhraseIndex) : N :=
  foldl (λ total (entry : string * PhraseRecord), sat_add u64_max total (pr_bytes entry.2)) 0%N (map_to_list (pi_entries index)).
Definition touch (digest : string) (index : PhraseIndex) : PhraseIndex :=
  let next_use := sat_add u64_max (pi_next_use index) 1 in
  index <| pi_next_use := next_use |> <| pi_entries ::= alter (λ r, r <| pr_used_at := next_use |>) digest |>.

(** [min_by_key] with the key [(used_at, digest)]. *)
Definition used_before (a b : string * PhraseRecord) : bool :=
  (pr_used_at a.2 <? pr_used_at b.2)%N || ((pr_used_at a.2 =? pr_used_at b.2)%N && String.leb a.1 b.1).
Definition earlier (best : option (string * PhraseRecord)) (entry : string * PhraseRecord) : option (string * PhraseRecord) :=
  match best with Some b => if used_before b entry then Some b else Some entry | None => Some entry end.
Definition least_recently_used (index : PhraseIndex) : option string :=
  fst <$> foldl earlier None (map_to_list (pi_entries index)).

(** ** The directory *)

(** An entry of the directory; a directory has a length too. *)
Inductive Node : Type := RegularFile (content : list N) | Directory (len : N).
Definition node_len (n : Node) : N := match n with RegularFile b => N.of_nat (length b) | Directory len => len end.
Definition is_file (n : Node) : bool := match n with RegularFile _ => true | Directory _ => false end.

(** Why a call fails; a write that fails may have written a part. *)
Record Fault : Type := mkFault { ft_message : string; ft_written : nat }.

(** Names are relative to the directory of the cache. *)
Record Disk : Type := mkDisk {
  dk_files : gmap string Node;
  dk_faults : list (option Fault);
  dk_clock : list N;
  dk_pid : N;
  dk_counter : N;
}.
Global Instance Disk_eta : Eta Disk :=
  λ r, mkDisk (dk_files r) (dk_faults r) (dk_clock r) (dk_pid r) (dk_counter r).

Abbreviation Io := (M Disk string).

(** The fault of the next call, if any. *)
Definition next_fault : Io (option Fault) :=
  λ d, match dk_faults d with
       | [] => (Ok None, d)
       | f :: faults => (Ok f, d <| dk_faults := faults |>)
       end.
Definition may_fail : Io () := f ← next_fault; match f with Some f => throw (ft_message f) | None => mret () end.

Definition fs_create_dir_all : Io () := may_fail.
Definition fs_read (name : string) : Io (list N) :=
  _ ← may_fail; d ← get;
  match dk_files d !! name with
  | Some (RegularFile b) => mret b
  | Some (Directory _) => throw "Is a directory"
  | None => throw "No such file or directory"
  end.
Definition fs_metadata (name : string) : Io Node :=
  _ ← may_fail; d ← get; ok_or (dk_files d !! name) "No such file or directory".
Definition fs_remove_file (name : string) : Io () :=
  _ ← may_fail; d ← get;
  match dk_files d !! name with
  | Some (RegularFile _) => modify (λ d, d <| dk_files ::= base.delete name |>)
  | Some (Directory _) => throw "Is a directory"
  | None => throw "No such file or directory"
  end.
(** [create_new]: an existing file is an error. *)
Definition fs_create_new (name : string) : Io () :=
  _ ← may_fail; d ← get;
  match dk_files d !! name with
  | Some _ => throw "File exists"
  | None => modify (λ d, d <| dk_files ::= <[name := RegularFile []]> |>)
  end.
Definition fs_write_all (name : string) (content : list N) : Io () :=
  f ← next_fault;
  match f with
  | Some f => _ ← modify (λ d, d <| dk_files ::= <[name := RegularFile (take (ft_written f) content)]> |>); throw (ft_message f)
  | None => modify (λ d, d <| dk_files ::= <[name := RegularFile content]> |>)
  end.
Definition fs_sync_all : Io () := may_fail.
Definition fs_rename (from to : string) : Io () :=
  _ ← may_fail; d ← get;
  match dk_files d !! from, dk_files d !! to with
  | None, _ => throw "No such file or directory"
  | Some _, Some (Directory _) => throw "Is a directory"
  | Some node, _ => modify (λ d, d <| dk_files ::= λ files, <[to := node]> (base.delete from files) |>)
  end.

(** [let _ = ...] *)
Definition ignore {A} (m : Io A) : Disk → Disk := λ d, (m d).2.

Definition unique_temporary_name : Io string :=
  d ← get;
  let nanos := match dk_clock d with [] => 0%N | n :: _ => n end in
  _ ← modify (λ d, d <| dk_clock ::= tail |> <| dk_counter ::= λ n, ((n + 1) mod (u64_max + 1))%N |>);
  mret (".phrase-" +:+ pretty (dk_pid d) +:+ "-" +:+ pretty nanos +:+ "-" +:+ pretty (dk_counter d) +:+ ".tmp").

Definition write_private_atomic (path : string) (content : list N) : M Disk AudioError () :=
  λ d, match unique_temporary_name d with
  | (Ok temporary, d) =>
    match (_ ← fs_create_new temporary; _ ← fs_write_all temporary content; _ ← fs_sync_all; fs_rename temporary path) d with
    | (Ok _, d) => (Ok (), d)
    | (Err e, d) => (Err (Processing e), ignore (fs_remove_file temporary) d)
    | (Panic, d) => (Panic, d)
    end
  | (Err e, d) => (Err (Processing e), d)
  | (Panic, d) => (Panic, d)
  end.

(** What the code relies on elsewhere: the text of the index, and the order in which the operating system lists the
    directory. *)
Class CacheHost : Type := {
  index_to_vec : PhraseIndex → list N;
  index_from_slice : list N → option PhraseIndex;
  read_order : gmap string Node → list string;
}.

(** ** Opening *)

Definition entry_name (digest : string) : string := digest +:+ ENTRY_SUFFIX.

(** The index and the disk that an operation works on. *)
Section cache.
Context `{Sha256, CacheHost}.

Definition persist_index (index : PhraseIndex) : M Disk AudioError () := write_private_atomic INDEX_FILE (index_to_vec index).

(** The loop ends after as many rounds as there are entries. *)
Fixpoint evict_rounds (rounds : nat) (capacity_bytes : N) (index : PhraseIndex) (d : Disk) : PhraseIndex * Disk :=
  match rounds with
  | O => (index, d)
  | S rounds =>
    if (capacity_bytes <? index_total index)%N then
      match least_recently_used index with
      | None => (index, d)
      | Some digest =>
        evict_rounds rounds capacity_bytes (index <| pi_entries ::= base.delete digest |>)
          (ignore (fs_remove_file (entry_name digest)) d)
      end
    else (index, d)
  end.
Definition evict_to_capacity (capacity_bytes : N) (index : PhraseIndex) (d : Disk) : PhraseIndex * Disk :=
  evict_rounds (S (size (pi_entries index))) capacity_bytes index d.

(** [fs::read_dir(root)]: [None] when it cannot be read; [flatten] skips the entries that fail. *)
Definition fs_read_dir : Io (list string) := _ ← may_fail; d ← get; mret (read_order (dk_files d)).

Fixpoint remove_unaccounted (names : list string) (index : PhraseIndex) (d : Disk) : Disk :=
  match names with
  | [] => d
  | name :: names =>
    match next_fault d with
    | (Ok None, d) =>
      match str_strip_suffix ENTRY_SUFFIX name with
      | Some digest =>
        if is_hex_digest digest && negb (bool_decide (is_Some (pi_entries index !! digest)))
        then remove_unaccounted names index (ignore (fs_remove_file name) d)
        else remove_unaccounted names index d
      | None => remove_unaccounted names index d
      end
    | (_, d) => remove_unaccounted names index d
    end
  end.
Definition remove_unaccounted_entries (index : PhraseIndex) (d : Disk) : Disk :=
  match fs_read_dir d with (Ok names, d) => remove_unaccounted names index d | (_, d) => d end.

(** [entries.retain], in the order of the keys. *)
Fixpoint retain_entries (entries : list (string * PhraseRecord)) (d : Disk) : gmap string PhraseRecord * Disk :=
  match entries with
  | [] => (∅, d)
  | (digest, record) :: entries =>
    let '(r, d) := fs_metadata (entry_name digest) d in
    let '(kept, d) := retain_entries entries d in
    (match r with
     | Ok node => if (node_len node =? pr_bytes record)%N then <[digest := record]> kept else kept
     | _ => kept
     end, d)
  end.
Definition key_le (a b : string * PhraseRecord) : Prop := String.leb a.1 b.1 = true.
Global Instance key_le_dec : RelDecision key_le.
Proof. intros a b. unfold key_le. apply _. Defined.
Definition retain_present (index : PhraseIndex) (d : Disk) : PhraseIndex * Disk :=
  let '(kept, d) := retain_entries (merge_sort key_le (map_to_list (pi_entries index))) d in
  let index := index <| pi_entries := kept |> in
  (index, remove_unaccounted_entries index d).

Fixpoint rebuild (names : list string) (index : PhraseIndex) (d : Disk) : PhraseIndex * Disk :=
  match names with
  | [] => (index, d)
  | name :: names =>
    match next_fault d with
    | (Ok None, d) =>
      match str_strip_suffix ENTRY_SUFFIX name with
      | None => rebuild names index d
      | Some digest =>
        match fs_metadata name d with
        | (Ok node, d) =>
          if negb (is_file node) || negb (is_hex_digest digest) then rebuild names index d
          else
            let next_use := sat_add u64_max (pi_next_use index) 1 in
            rebuild names (index <| pi_next_use := next_use |>
              <| pi_entries ::= <[digest := mkPhraseRecord (node_len node) next_use]> |>) d
        | (_, d) => rebuild names index d
        end
      end
    | (_, d) => rebuild names index d
    end
  end.
Definition rebuild_index (d : Disk) : PhraseIndex * Disk :=
  let index := mkPhraseIndex ∅ 0 in
  match fs_read_dir d with (Ok names, d) => rebuild names index d | (_, d) => (index, d) end.
Definition load_index (d : Disk) : PhraseIndex * Disk :=
  let '(r, d) := fs_read INDEX_FILE d in
  match (match r with Ok content => index_from_slice content | _ => None end) with
  | Some index => retain_present index d
  | None => rebuild_index d
  end.

(** ** The cache *)

Record PhraseCache : Type := mkPhraseCache { pc_capacity_bytes : N; pc_index : PhraseIndex }.
Global Instance PhraseCache_eta : Eta PhraseCache := λ r, mkPhraseCache (pc_capacity_bytes r) (pc_index r).
(** The cache of the process and its directory. *)
Record World : Type := mkWorld { wd_cache : PhraseCache; wd_disk : Disk }.
Global Instance World_eta : Eta World := λ r, mkWorld (wd_cache r) (wd_disk r).

(** Run the operation on the index, then persist the index; the value is returned if both succeed. *)
Definition with_index {T} (operation : PhraseIndex → Disk → outcome AudioError T * PhraseIndex * Disk) : M World AudioError T :=
  λ w, let '(r, index, d) := operation (pc_index (wd_cache w)) (wd_disk w) in
    let cache := (wd_cache w) <| pc_index := index |> in
    match r with
    | Ok value =>
      let '(p, d) := persist_index index d in
      (match p with Ok _ => Ok value | Err e => Err e | Panic => Panic end, mkWorld cache d)
    | Err e => (Err e, mkWorld cache d)
    | Panic => (Panic, mkWorld cache d)
    end.

Definition with_capacity_bytes (capacity_bytes : N) (d : Disk) : outcome AudioError PhraseCache * Disk :=
  if (capacity_bytes =? 0)%N then (Err (Processing "phrase cache capacity must be positive"), d)
  else
    match fs_create_dir_all d with
    | (Ok _, d) =>
      let '(index, d) := load_index d in
      let '(r, w) := with_index (λ index d, let '(index, d) := evict_to_capacity capacity_bytes index d in (Ok (), index, d))
                       (mkWorld (mkPhraseCache capacity_bytes index) d) in
      (match r with Ok _ => Ok (wd_cache w) | Err e => Err e | Panic => Panic end, wd_disk w)
    | (Err e, d) => (Err (Processing e), d)
    | (Panic, d) => (Panic, d)
    end.
Definition open (d : Disk) : outcome AudioError PhraseCache * Disk := with_capacity_bytes PHRASE_CACHE_CAPACITY_BYTES d.

Definition total_bytes : M World AudioError N := with_index (λ index d, (Ok (index_total index), index, d)).
Definition digests : M World AudioError (list string) :=
  with_index (λ index d, (Ok (merge_sort key_le (map_to_list (pi_entries index))).*1, index, d)).
Definition contains (key : PhraseKey) : M World AudioError bool :=
  with_index (λ index d, (Ok (bool_decide (is_Some (pi_entries index !! pk_digest key))), index, d)).

Definition get_phrase (key : PhraseKey) (w : World) : option CachedPhrase * World :=
  let index := pc_index (wd_cache w) in
  let digest := pk_digest key in
  match pi_entries index !! digest with
  | None => (None, w)
  | Some _ =>
    let '(r, d) := fs_read (entry_name digest) (wd_disk w) in
    match (match r with Ok content => decode_entry content | _ => None end) with
    | Some phrase =>
      let index := touch digest index in
      (Some phrase, mkWorld ((wd_cache w) <| pc_index := index |>) (persist_index index d).2)
    | None =>
      let index := index <| pi_entries ::= base.delete digest |> in
      let d := ignore (fs_remove_file (entry_name digest)) d in
      (None, mkWorld ((wd_cache w) <| pc_index := index |>) (persist_index index d).2)
    end
  end.

(** What [put] does under the lock. *)
Definition insert_phrase (digest : string) (len capacity_bytes : N) (index : PhraseIndex) (d : Disk)
    : outcome AudioError () * PhraseIndex * Disk :=
  let next_use := sat_add u64_max (pi_next_use index) 1 in
  let index := index <| pi_next_use := next_use |> <| pi_entries ::= <[digest := mkPhraseRecord len next_use]> |> in
  let '(index, d) := evict_to_capacity capacity_bytes index d in
  (Ok (), index, d).
Definition on_disk {A} (m : M Disk AudioError A) : M World AudioError A :=
  λ w, let '(r, d) := m (wd_disk w) in (r, w <| wd_disk := d |>).
(** [.inspect_err(|_| { let _ = fs::remove_file(&path); })] *)
Definition or_remove {A} (path : string) (m : M World AudioError A) : M World AudioError A :=
  λ w, match m w with
       | (Err e, w) => (Err e, w <| wd_disk ::= ignore (fs_remove_file path) |>)
       | other => other
       end.
Definition put (key : PhraseKey) (samples : list Z) (sample_rate_hz channels : N) : M World AudioError () :=
  encoded ← lift (encode_entry samples sample_rate_hz channels);
  let len := N.of_nat (length encoded) in
  w ← get;
  let capacity_bytes := pc_capacity_bytes (wd_cache w) in
  _ ← reject_if (capacity_bytes <? len)%N (Processing "phrase is larger than the whole phrase-cache budget");
  let path := entry_name (pk_digest key) in
  _ ← on_disk (write_private_atomic path encoded);
  or_remove path (with_index (insert_phrase (pk_digest key) len capacity_bytes)).
End cache.
