(* ===== verification/PhraseCacheSpec.v ===== *)
(** * The phrase cache: theorems

    Entries decode to exactly what was encoded and keys frame their fields without ambiguity; the
    index stays within the byte budget whatever fails; a hit is a phrase that was stored under the
    key; and while nothing fails the cache is a least-recently-used map that survives restarts. *)

From stdpp Require Import base gmap strings list sorting pretty.
From Stdlib Require Import Ascii.
From S2P Require Import Prelude Text PhraseCache.

(** ** Bytes *)

Lemma to_le_length w n : length (to_le w n) = w.
Proof. revert n. induction w as [|w IH]; intros n; simpl; [done|]. by rewrite IH. Qed.
Lemma of_le_to_le w n : (n < 256 ^ N.of_nat w)%N → of_le (to_le w n) = n.
Proof.
  revert n. induction w as [|w IH]; intros n Hn; simpl; [simpl in Hn; lia|].
  rewrite Nat2N.inj_succ, N.pow_succ_r' in Hn. rewrite IH by (apply N.Div0.div_lt_upper_bound; lia).
  pose proof (N.div_mod n 256). lia.
Qed.
Lemma to_le_of_le l : Forall (λ b, b < 256)%N l → to_le (length l) (of_le l) = l.
Proof.
  induction 1 as [|b l Hb Hl IH]; simpl; [done|].
  rewrite (N.mul_comm 256), N.Div0.mod_add, N.mod_small, N.div_add, N.div_small, N.add_0_l by lia. by rewrite IH.
Qed.
Lemma of_le_bound l : Forall (λ b, b < 256)%N l → (of_le l < 256 ^ N.of_nat (length l))%N.
Proof. induction 1 as [|b l Hb Hl IH]; simpl length; [done|]. rewrite Nat2N.inj_succ, N.pow_succ_r'. simpl. lia. Qed.

Definition is_i16 (z : Z) : Prop := (-32768 ≤ z ≤ 32767)%Z.

Lemma sample_round z : is_i16 z → ∃ a b, sample_bytes z = [a; b] ∧ sample_of a b = z.
Proof.
  intros Hz. unfold sample_bytes. eexists _, _. split; [reflexivity|]. unfold sample_of.
  change [?a; ?b] with (to_le 2 (Z.to_N (z `mod` 65536))).
  rewrite of_le_to_le by (pose proof (Z.mod_pos_bound z 65536); simpl; lia).
  unfold is_i16 in Hz. rewrite Z2N.id by (pose proof (Z.mod_pos_bound z 65536); lia).
  destruct (Z.ltb_spec (z `mod` 65536) 32768) as [Hlt|Hge]; revert Hlt || revert Hge; Z.to_euclidean_division_equations; lia.
Qed.
Lemma sample_bytes_of a b : (a < 256)%N → (b < 256)%N → sample_bytes (sample_of a b) = [a; b] ∧ is_i16 (sample_of a b).
Proof.
  intros Ha Hb. assert (of_le [a; b] < 65536)%N as Hn by (simpl; lia).
  assert (sample_of a b `mod` 65536 = Z.of_N (of_le [a; b]))%Z as Hmod.
  { unfold sample_of. destruct (Z.ltb_spec (Z.of_N (of_le [a; b])) 32768); [rewrite Z.mod_small; lia|].
    symmetry. apply (Z.mod_unique _ _ (-1)); lia. }
  split.
  - unfold sample_bytes. rewrite Hmod, N2Z.id. apply (to_le_of_le [a; b]). by repeat constructor.
  - unfold sample_of, is_i16. destruct (Z.ltb_spec (Z.of_N (of_le [a; b])) 32768); lia.
Qed.

Lemma decode_samples_encode l : Forall is_i16 l → decode_samples (l ≫= sample_bytes) = l.
Proof.
  induction 1 as [|z l Hz Hl IH]; [done|]. destruct (sample_round z Hz) as (a & b & Hab & Hz').
  rewrite bind_cons, Hab. simpl. by rewrite Hz', IH.
Qed.
Lemma encode_samples_length l : length (l ≫= sample_bytes) = 2 * length l.
Proof. induction l as [|z l IH]; [done|]. rewrite bind_cons, length_app, IH. unfold sample_bytes. rewrite to_le_length. simpl. lia. Qed.
Lemma decode_samples_spec n l :
  length l = 2 * n → Forall (λ b, b < 256)%N l →
  length (decode_samples l) = n ∧ Forall is_i16 (decode_samples l) ∧ (decode_samples l ≫= sample_bytes) = l.
Proof.
  revert l. induction n as [|n IH]; intros l Hlen Hl; [by destruct l|].
  destruct l as [|a [|b l]]; simpl in Hlen; [lia..|].
  apply Forall_cons in Hl as [Ha [Hb Hl]%Forall_cons]. destruct (IH l) as (Hn & Hi & He); [lia|done|].
  destruct (sample_bytes_of a b Ha Hb) as [Hs Hz]. cbn [decode_samples]. rewrite bind_cons, He, Hs.
  split_and!; [simpl; lia|by constructor|done].
Qed.

(** ** Entries *)

(** What the code relies on: a digest is 32 bytes. *)
Definition digest_bytes `{Sha256} : Prop := ∀ l, length (sha256 l) = 32 ∧ Forall (λ b, b < 256)%N (sha256 l).

(** The phrases that [put] is given: samples, rate and channels of their types, and a length that fits. *)
Definition phrase_typed (p : CachedPhrase) : Prop :=
  Forall is_i16 (ph_samples p) ∧ (ph_sample_rate_hz p ≤ u32_max)%N ∧ (ph_channels p ≤ u16_max)%N ∧
  (N.of_nat (length (ph_samples p)) ≤ u64_max)%N.

Section entries.
Context `{Sha256}.

(** Lists of known lengths, element by element. *)
Ltac spell l :=
  match goal with
  | Hl : length l = 0 |- _ => apply nil_length_inv in Hl; subst l
  | Hl : length l = S _ |- _ => let x := fresh "x" in let t := fresh "t" in destruct l as [|x t]; [discriminate Hl|]; injection Hl as Hl; spell t
  end.

(** The fields of an entry and what decoding does with them. *)
Lemma decode_layout m r c z n h payload :
  length m = 8 → length r = 4 → length c = 2 → length z = 2 → length n = 8 → length h = 32 →
  decode_entry (m ++ r ++ c ++ z ++ n ++ h ++ payload) =
    if bool_decide (m = ENTRY_MAGIC) && valid_format (of_le n) (of_le r) (of_le c) &&
       (N.of_nat (length payload) =? of_le n * 2)%N && bool_decide (sha256 payload = h)
    then Some (mkCachedPhrase (decode_samples payload) (of_le r) (of_le c)) else None.
Proof.
  intros Hm Hr Hc Hz Hn Hh. unfold decode_entry.
  set (head := m ++ r ++ c ++ z ++ n). assert (length head = 24) as Hhead by (unfold head; rewrite !length_app; lia).
  replace (m ++ r ++ c ++ z ++ n ++ h ++ payload) with ((head ++ h) ++ payload) by (unfold head; by rewrite <- !(assoc_L app)).
  assert (length (head ++ h) = ENTRY_HEADER_BYTES) as Hlen by (rewrite length_app, Hhead, Hh; done).
  assert (slice 0 ENTRY_HEADER_BYTES ((head ++ h) ++ payload) = Some (head ++ h)) as ->.
  { unfold slice. rewrite <- Hlen, (length_app (head ++ h)). destruct (Nat.leb_spec (length (head ++ h)) (length (head ++ h) + length payload)); [|lia].
    by rewrite Nat.sub_0_r, drop_0, take_app_length. }
  assert (drop ENTRY_HEADER_BYTES ((head ++ h) ++ payload) = payload) as -> by (rewrite <- Hlen; apply drop_app_length).
  assert (slice 24 ENTRY_HEADER_BYTES (head ++ h) = Some h) as Hdig.
  { unfold slice. rewrite Hlen, Nat.leb_refl, <- Hhead, drop_app_length. f_equal. apply take_ge. unfold ENTRY_HEADER_BYTES. lia. }
  assert (slice 0 8 (head ++ h) = Some m ∧ slice 8 12 (head ++ h) = Some r ∧ slice 12 14 (head ++ h) = Some c ∧
    slice 16 24 (head ++ h) = Some n) as (Hs1 & Hs2 & Hs3 & Hs4).
  { unfold head. clear Hhead Hlen Hdig. spell m; spell r; spell c; spell z; spell n. done. }
  simpl. rewrite Hs1. simpl. destruct (bool_decide (m = ENTRY_MAGIC)); [|done]. simpl.
  rewrite Hs2, Hs3, Hs4. simpl. rewrite Hdig. simpl.
  by destruct (valid_format _ _ _), (N.of_nat (length payload) =? _)%N, (bool_decide (sha256 payload = h)).
Qed.

Lemma magic_length : length ENTRY_MAGIC = 8.
Proof. done. Qed.

(** Every entry that decodes is laid out so. *)
Lemma decode_some_layout l p :
  decode_entry l = Some p →
  ∃ m r c z n h payload, l = m ++ r ++ c ++ z ++ n ++ h ++ payload ∧
    length m = 8 ∧ length r = 4 ∧ length c = 2 ∧ length z = 2 ∧ length n = 8 ∧ length h = 32.
Proof.
  intros Hd. assert (56 ≤ length l) as Hlen.
  { unfold decode_entry, slice in Hd. destruct (Nat.leb_spec ENTRY_HEADER_BYTES (length l)); [done|]. done. }
  exists (take 8 l), (take 4 (drop 8 l)), (take 2 (drop 12 l)), (take 2 (drop 14 l)), (take 8 (drop 16 l)),
    (take 32 (drop 24 l)), (drop 56 l). rewrite !length_take, !length_drop. split_and!; [|lia..].
  assert (∀ i j, drop i l = take j (drop i l) ++ drop (i + j) l) as Hsplit.
  { intros i j. by rewrite <- drop_drop, take_drop. }
  rewrite <- (take_drop 8 l) at 1. f_equal. rewrite (Hsplit 8 4) at 1. f_equal. rewrite (Hsplit (8 + 4) 2) at 1. f_equal.
  rewrite (Hsplit (8 + 4 + 2) 2) at 1. f_equal. rewrite (Hsplit (8 + 4 + 2 + 2) 8) at 1. f_equal. exact (Hsplit 24 32).
Qed.

Lemma valid_format_samples (n r c : N) : valid_format n r c = true → (n ≠ 0 ∧ c ≠ 0)%N.
Proof. unfold valid_format. rewrite !andb_true_iff, !negb_true_iff, !N.eqb_neq. tauto. Qed.

Lemma encode_entry_ok samples r c l :
  encode_entry samples r c = Ok l ↔
  valid_format (N.of_nat (length samples)) r c = true ∧
  l = ENTRY_MAGIC ++ to_le 4 r ++ to_le 2 c ++ to_le 2 0 ++ to_le 8 (N.of_nat (length samples))
        ++ sha256 (samples ≫= sample_bytes) ++ (samples ≫= sample_bytes).
Proof.
  unfold encode_entry. destruct (valid_format _ _ _); cbn [negb]; (split; [|by intros [? ->]]); [|done].
  intros Heq. split; [done|]. congruence.
Qed.

(** An entry decodes to the phrase that was encoded. *)
Lemma decode_encoded p l :
  digest_bytes → phrase_typed p → encode_entry (ph_samples p) (ph_sample_rate_hz p) (ph_channels p) = Ok l →
  decode_entry l = Some p.
Proof.
  intros Hsha (Hs & Hr & Hc & Hn) [Hv ->]%encode_entry_ok.
  rewrite (decode_layout ENTRY_MAGIC (to_le 4 _) (to_le 2 _) (to_le 2 0) (to_le 8 _)) by (done || apply Hsha).
  rewrite !of_le_to_le by (unfold u32_max, u16_max, u64_max in *; simpl; lia).
  rewrite Hv, encode_samples_length, bool_decide_true, bool_decide_true by done.
  rewrite (proj2 (N.eqb_eq _ _)) by lia. simpl. rewrite decode_samples_encode by done. by destruct p.
Qed.

(** An entry that decodes is the encoding of its phrase, but for the two reserved bytes. *)
Lemma encode_decoded p l :
  Forall (λ b, b < 256)%N l → decode_entry l = Some p →
  phrase_typed p ∧
  encode_entry (ph_samples p) (ph_sample_rate_hz p) (ph_channels p) = Ok (take 14 l ++ [0; 0]%N ++ drop 16 l).
Proof.
  intros Hb Hd. destruct (decode_some_layout l p Hd) as (m & r & c & z & n & h & payload & -> & Hm & Hr & Hc & Hz & Hn & Hh).
  rewrite decode_layout in Hd by done. destruct (bool_decide (m = ENTRY_MAGIC) && _ && _ && _) eqn:Hok; [|done].
  rewrite !andb_true_iff, !bool_decide_eq_true, N.eqb_eq in Hok. destruct Hok as [[[-> Hv] Hlen] Hsha]. injection Hd as <-.
  rewrite !Forall_app in Hb. destruct Hb as (_ & Hbr & Hbc & _ & Hbn & _ & Hbp).
  destruct (decode_samples_spec (N.to_nat (of_le n)) payload) as (Hcount & Hi16 & Hbytes); [lia|done|].
  pose proof (of_le_bound r Hbr) as Br. pose proof (of_le_bound c Hbc) as Bc. pose proof (of_le_bound n Hbn) as Bn.
  rewrite Hr in Br. rewrite Hc in Bc. rewrite Hn in Bn. simpl in Br, Bc, Bn.
  assert (N.of_nat (length (decode_samples payload)) = of_le n) as Hcount' by lia.
  split; [unfold phrase_typed, u32_max, u16_max, u64_max; simpl; rewrite Hcount'; split_and!; [done|lia..]|].
  simpl. apply encode_entry_ok. rewrite Hcount', Hbytes, Hsha. split; [done|].
  assert (∀ w f, length f = w → Forall (λ b, b < 256)%N f → to_le w (of_le f) = f) as Hle by (intros w f <-; apply to_le_of_le).
  rewrite !Hle by done. clear Hle Br Bc Bn Hcount' Hv Hlen Hcount. spell r; spell c; spell z; spell n. done.
Qed.
End entries.

(** ** Keys *)

Lemma text_bytes_inj s1 s2 : text_bytes s1 = text_bytes s2 → s1 = s2.
Proof.
  unfold text_bytes. intros Heq. apply bytes_inj. revert Heq. apply list_fmap_eq_inj. intros a b Hab.
  rewrite <- (ascii_N_embedding a), <- (ascii_N_embedding b). unfold byte_val in Hab. by rewrite Hab.
Qed.

(** A framed field is read back from the start of any continuation. *)
Lemma frame_inj s1 s2 l1 l2 :
  (N.of_nat (str_len s1) ≤ u64_max)%N → (N.of_nat (str_len s2) ≤ u64_max)%N →
  frame s1 ++ l1 = frame s2 ++ l2 → s1 = s2 ∧ l1 = l2.
Proof.
  intros H1 H2. unfold frame. rewrite <- !(assoc_L app). intros [Hlen Hrest]%app_inj_1; [|by rewrite !to_le_length].
  apply (f_equal of_le) in Hlen. rewrite !of_le_to_le in Hlen by (unfold u64_max in *; simpl; lia).
  injection Hrest as Hrest. apply app_inj_1 in Hrest as [Htext ->]; [by apply text_bytes_inj in Htext|].
  unfold text_bytes. rewrite !length_fmap. unfold str_len in *. lia.
Qed.

(** The hashed text of a key determines its engine, voice, rate and phrase. *)
Lemma key_frames_inj e v r t e' v' r' t' :
  Forall (λ s, N.of_nat (str_len s) ≤ u64_max)%N [e; v; r; t; e'; v'; r'; t'] →
  key_frames e v r t = key_frames e' v' r' t' → e = e' ∧ v = v' ∧ r = r' ∧ t = t'.
Proof.
  rewrite !Forall_cons. intros (? & ? & ? & ? & ? & ? & ? & ? & _). unfold key_frames.
  intros [-> Heq]%frame_inj; [|done..]. apply app_inv_head in Heq.
  apply frame_inj in Heq as [-> Heq]; [|done..]. apply app_inv_head in Heq.
  apply frame_inj in Heq as [-> Heq]; [|done..]. apply app_inv_head in Heq.
  assert (frame t ++ [] = frame t' ++ []) as Ht by (by rewrite Heq). by apply frame_inj in Ht as [-> _].
Qed.

(** ** Eviction *)

Definition sum_bytes (m : gmap string PhraseRecord) : N := map_fold (λ _ r n, pr_bytes r + n)%N 0%N m.

Lemma sum_bytes_insert m k r : m !! k = None → sum_bytes (<[k := r]> m) = (pr_bytes r + sum_bytes m)%N.
Proof. intros Hk. unfold sum_bytes. rewrite map_fold_insert_L; [done|intros; lia|done]. Qed.
Lemma sum_bytes_delete m k r : m !! k = Some r → sum_bytes m = (pr_bytes r + sum_bytes (base.delete k m))%N.
Proof. intros Hk. unfold sum_bytes. by rewrite (map_fold_delete_L _ _ k r m) by (intros; lia || done). Qed.

Lemma foldl_sat_bytes l t :
  (t ≤ u64_max)%N →
  foldl (λ total (entry : string * PhraseRecord), sat_add u64_max total (pr_bytes entry.2)) t l =
    N.min u64_max (t + foldr (λ entry n, pr_bytes entry.2 + n)%N 0%N l).
Proof.
  revert t. induction l as [|[k r] l IH]; intros t Ht; simpl; [lia|].
  rewrite IH by apply sat_add_bound. simpl. unfold sat_add. lia.
Qed.
(** The total of the index is the sum of its records, up to the largest integer. *)
Lemma index_total_spec index : index_total index = N.min u64_max (sum_bytes (pi_entries index)).
Proof.
  unfold index_total. rewrite foldl_sat_bytes by done. unfold sum_bytes. rewrite map_fold_foldr, N.add_0_l. f_equal.
  apply foldr_ext; [|done..]. by intros [].
Qed.

(** The entry chosen for eviction was not used after any other. *)
Lemma earlier_spec l best :
  ∃ x, foldl earlier (Some best) l = Some x ∧ x ∈ best :: l ∧ ∀ y, y ∈ best :: l → (pr_used_at x.2 ≤ pr_used_at y.2)%N.
Proof.
  revert best. induction l as [|e l IH]; intros best; simpl.
  { exists best. split_and!; [done|by left|]. intros y ->%list_elem_of_singleton. lia. }
  assert (∃ b, (if used_before best e then Some best else Some e) = Some b ∧ (b = best ∨ b = e) ∧
    (pr_used_at b.2 ≤ pr_used_at best.2)%N ∧ (pr_used_at b.2 ≤ pr_used_at e.2)%N) as (b & -> & Hb & Hle1 & Hle2).
  { unfold used_before. destruct (N.ltb_spec (pr_used_at best.2) (pr_used_at e.2)); simpl;
      [exists best; split_and!; [done|by left|lia..]|].
    destruct (N.eqb_spec (pr_used_at best.2) (pr_used_at e.2)); simpl; [destruct (String.leb _ _)|];
      eexists; (split_and!; [reflexivity|auto|lia..]). }
  destruct (IH b) as (x & -> & Hx & Hmin). exists x. split_and!; [done| |].
  - rewrite !elem_of_cons in *. destruct Hb as [->| ->]; naive_solver.
  - intros y [->|[->|Hy]%elem_of_cons]%elem_of_cons.
    + etrans; [apply Hmin; by left|done].
    + etrans; [apply Hmin; by left|done].
    + apply Hmin. by right.
Qed.
Lemma least_recently_used_spec index :
  match least_recently_used index with
  | None => pi_entries index = ∅
  | Some digest => ∃ r, pi_entries index !! digest = Some r ∧
      ∀ k r', pi_entries index !! k = Some r' → (pr_used_at r ≤ pr_used_at r')%N
  end.
Proof.
  unfold least_recently_used. destruct (map_to_list (pi_entries index)) as [|best l] eqn:Hl; simpl.
  { by apply map_to_list_empty_iff in Hl. }
  destruct (earlier_spec l best) as ([k r] & -> & Hin & Hmin). simpl. exists r. rewrite <- Hl in *.
  split; [by apply elem_of_map_to_list|]. intros k' r' Hk'%elem_of_map_to_list. exact (Hmin (k', r') Hk').
Qed.

Lemma evict_rounds_bound rounds capacity index d :
  size (pi_entries index) < rounds → (index_total (evict_rounds rounds capacity index d).1 ≤ capacity)%N.
Proof.
  revert index d. induction rounds as [|rounds IH]; intros index d Hsize; [lia|]. simpl.
  destruct (N.ltb_spec capacity (index_total index)) as [Hover|]; [|done].
  pose proof (least_recently_used_spec index) as Hlru. destruct (least_recently_used index) as [digest|].
  - destruct Hlru as (r & Hr & _). apply IH. simpl. rewrite map_size_delete_Some by done.
    assert (size (pi_entries index) ≠ 0) by (intros Hz%map_size_empty_inv; by rewrite Hz in Hr). lia.
  - exfalso. rewrite index_total_spec, Hlru in Hover. unfold sum_bytes in Hover. rewrite map_fold_empty in Hover. lia.
Qed.
Lemma evict_bound capacity index d : (index_total (evict_to_capacity capacity index d).1 ≤ capacity)%N.
Proof. apply evict_rounds_bound. lia. Qed.

(** ** Files under faults *)

(** The names that the cache uses differ in their last character. *)
Definition ends_in (c : ascii) (name : string) : Prop := last (bytes name) = Some c.

Lemma ends_in_app c s1 s2 : ends_in c s2 → ends_in c (s1 +:+ s2).
Proof. unfold ends_in. rewrite bytes_app, last_app. by intros ->. Qed.
Lemma entry_name_ends x : ends_in "m" (entry_name x).
Proof. by apply ends_in_app. Qed.
Lemma entry_not_temporary x : ¬ ends_in "p" (entry_name x).
Proof. pose proof (entry_name_ends x). unfold ends_in in *. congruence. Qed.
Lemma ends_in_ne c1 c2 s1 s2 : ends_in c1 s1 → ends_in c2 s2 → c1 ≠ c2 → s1 ≠ s2.
Proof. unfold ends_in. congruence. Qed.
Lemma entry_name_inj x y : entry_name x = entry_name y → x = y.
Proof.
  unfold entry_name. intros Heq. apply (f_equal bytes) in Heq. rewrite !bytes_app in Heq. apply app_inv_tail in Heq. by apply bytes_inj.
Qed.

(** Entry files only disappear. *)
Definition entries_kept (files files' : gmap string Node) : Prop :=
  ∀ x, files' !! entry_name x = files !! entry_name x ∨ files' !! entry_name x = None.
Global Instance entries_kept_preorder : PreOrder entries_kept.
Proof.
  split; [by left|]. intros f1 f2 f3 H12 H23 x. destruct (H12 x) as [H1|H1], (H23 x) as [H2|H2]; rewrite ?H2, ?H1; auto.
Qed.

(** What a call does to the directory whatever fails. *)
Lemma next_fault_files d r d' : next_fault d = (r, d') → dk_files d' = dk_files d.
Proof. unfold next_fault. destruct (dk_faults d); by intros [= <- <-]. Qed.
Lemma may_fail_files d r d' : may_fail d = (r, d') → dk_files d' = dk_files d.
Proof.
  unfold may_fail. munfold. destruct (next_fault d) as [[f| |] d1] eqn:Hf; apply next_fault_files in Hf;
    [destruct f|..]; intros; by simplify_eq.
Qed.

Local Opaque may_fail next_fault.
Ltac fs_call H :=
  munfold; destruct (may_fail _) as [[[]| |] ?d] eqn:H; apply may_fail_files in H.

Lemma fs_read_files name d r d' : fs_read name d = (r, d') → dk_files d' = dk_files d.
Proof. unfold fs_read. fs_call Hf; repeat case_match; intros; by simplify_eq. Qed.
Lemma fs_metadata_files name d r d' : fs_metadata name d = (r, d') → dk_files d' = dk_files d.
Proof. unfold fs_metadata. fs_call Hf; repeat case_match; munfold; intros; by simplify_eq. Qed.
Lemma fs_remove_files name d :
  dk_files (ignore (fs_remove_file name) d) = dk_files d ∨
  dk_files (ignore (fs_remove_file name) d) = base.delete name (dk_files d).
Proof. unfold ignore, fs_remove_file. fs_call Hf; simpl; rewrite <- ?Hf; repeat case_match; simpl; auto. Qed.
Lemma fs_remove_kept name d : entries_kept (dk_files d) (dk_files (ignore (fs_remove_file name) d)).
Proof.
  intros x. destruct (fs_remove_files name d) as [-> | ->]; [by left|].
  destruct (decide (name = entry_name x)) as [->|]; [right; apply lookup_delete_eq|left; by apply lookup_delete_ne].
Qed.

(** The directory without one name. *)
Definition agree_but (temporary : string) (files files' : gmap string Node) : Prop :=
  ∀ name, name ≠ temporary → files' !! name = files !! name.
Lemma agree_but_refl temporary files : agree_but temporary files files.
Proof. done. Qed.

Lemma fs_create_new_files temporary d r d' :
  fs_create_new temporary d = (r, d') → agree_but temporary (dk_files d) (dk_files d').
Proof.
  unfold fs_create_new. fs_call Hf; repeat case_match; munfold; intros; simplify_eq/=; intros name Hne; rewrite <- Hf; [done| |done..].
  by apply lookup_insert_ne.
Qed.
Lemma fs_write_all_files temporary content d r d' :
  fs_write_all temporary content d = (r, d') →
  agree_but temporary (dk_files d) (dk_files d') ∧ (r = Ok () → dk_files d' !! temporary = Some (RegularFile content)).
Proof.
  unfold fs_write_all. munfold. destruct (next_fault d) as [[[f|]| |] d1] eqn:Hf; apply next_fault_files in Hf;
    intros; simplify_eq/=; (split; [intros name Hne; rewrite <- Hf|]); try done; try by apply lookup_insert_ne.
  intros _. apply lookup_insert_eq.
Qed.
Lemma fs_rename_files temporary path d r d' :
  fs_rename temporary path d = (r, d') → temporary ≠ path →
  (r = Ok () ∧ (∀ name, name ≠ temporary → name ≠ path → dk_files d' !! name = dk_files d !! name) ∧
     dk_files d' !! path = dk_files d !! temporary ∧ dk_files d' !! temporary = None) ∨
  (r ≠ Ok () ∧ dk_files d' = dk_files d).
Proof.
  unfold fs_rename. fs_call Hf; repeat case_match; munfold; intros Heq Hne; simplify_eq/=; rewrite <- ?Hf; try by right.
  all: left; split_and!; [done| | |]; [intros name ? ?; by rewrite lookup_insert_ne, lookup_delete_ne by done
    |by rewrite lookup_insert_eq|by rewrite lookup_insert_ne, lookup_delete_eq by done].
Qed.

(** A file is replaced as a whole or not at all, and the temporary file has a name of its own. *)
Lemma write_atomic_files path content d r d' :
  ¬ ends_in "p" path → write_private_atomic path content d = (r, d') →
  ∃ temporary, ends_in "p" temporary ∧
    ((r = Ok () ∧ (∀ name, name ≠ temporary → name ≠ path → dk_files d' !! name = dk_files d !! name) ∧
      dk_files d' !! path = Some (RegularFile content)) ∨
     (r ≠ Ok () ∧ agree_but temporary (dk_files d) (dk_files d'))).
Proof.
  intros Hpath. unfold write_private_atomic, unique_temporary_name. munfold.
  set (temporary := _ +:+ _). set (d0 := {| dk_files := _ |}).
  assert (ends_in "p" temporary) as Htmp by (repeat apply ends_in_app; done).
  assert (temporary ≠ path) as Hne by (intros ->; done).
  intros Hrun. exists temporary. split; [done|].
  assert (∀ e d1, agree_but temporary (dk_files d) (dk_files d1) →
    (Err (Processing e), ignore (fs_remove_file temporary) d1) = (r, d') →
    r ≠ Ok () ∧ agree_but temporary (dk_files d) (dk_files d')) as Hfail.
  { intros e d1 Hd1 [= <- <-]. split; [done|]. intros name Hn. rewrite <- (Hd1 name) by done.
    destruct (fs_remove_files temporary d1) as [-> | ->]; [done|by apply lookup_delete_ne]. }
  destruct (fs_create_new temporary d0) as [[[]|e|] d1] eqn:H1; apply fs_create_new_files in H1; simpl in Hrun;
    [|right; by eapply Hfail|right; by simplify_eq].
  destruct (fs_write_all temporary content d1) as [[[]|e|] d2] eqn:H2; apply fs_write_all_files in H2 as [H2 Hcontent];
    (assert (agree_but temporary (dk_files d) (dk_files d2)) as H12 by (intros name Hn; rewrite H2 by done; by apply H1));
    [|right; by eapply Hfail|right; by simplify_eq].
  unfold fs_sync_all in Hrun. destruct (may_fail d2) as [[[]|e|] d3] eqn:H3; apply may_fail_files in H3;
    [|right; eapply Hfail; [|done]; by rewrite H3|right; simplify_eq; by rewrite H3].
  destruct (fs_rename temporary path d3) as [r4 d4] eqn:H4. apply fs_rename_files in H4; [|done].
  destruct H4 as [(-> & Hother & Hto & _)|[Hr Hsame]].
  - left. simplify_eq. split_and!; [done| |].
    + intros name Hn1 Hn2. rewrite Hother, H3 by done. by apply H12.
    + rewrite Hto, H3. by apply Hcontent.
  - right. destruct r4 as [[]|e|]; [done|eapply Hfail; [|done]|simplify_eq; split; [done|]]; by rewrite Hsame, H3.
Qed.

Section life.
Context `{Sha256, CacheHost}.

(** Everything but the write of an entry only removes entries. *)
Lemma evict_kept rounds capacity index d :
  entries_kept (dk_files d) (dk_files (evict_rounds rounds capacity index d).2).
Proof.
  revert index d. induction rounds as [|rounds IH]; intros index d; simpl; [done|].
  destruct (_ <? _)%N; [|done]. destruct (least_recently_used index) as [digest|]; [|done].
  etrans; [apply fs_remove_kept|apply IH].
Qed.
Lemma remove_unaccounted_kept names index d :
  entries_kept (dk_files d) (dk_files (remove_unaccounted names index d)).
Proof.
  revert d. induction names as [|name names IH]; intros d; simpl; [done|].
  destruct (next_fault d) as [[[f|]| |] d1] eqn:Hf; apply next_fault_files in Hf; rewrite <- Hf; [done| |done..].
  destruct (str_strip_suffix _ _); [|done]. destruct (_ && _); [|done]. etrans; [apply fs_remove_kept|apply IH].
Qed.
Lemma retain_entries_files l d : dk_files (retain_entries l d).2 = dk_files d.
Proof.
  revert d. induction l as [|[digest r] l IH]; intros d; simpl; [done|].
  destruct (fs_metadata _ d) as [o d1] eqn:Hm. apply fs_metadata_files in Hm. specialize (IH d1).
  destruct (retain_entries l d1) as [kept d2]. simpl in *. congruence.
Qed.
Lemma rebuild_files names index d : dk_files (rebuild names index d).2 = dk_files d.
Proof.
  revert index d. induction names as [|name names IH]; intros index d; simpl; [done|].
  destruct (next_fault d) as [[[f|]| |] d1] eqn:Hf; apply next_fault_files in Hf; rewrite ?IH; [done| |done..].
  destruct (str_strip_suffix _ _); [|by rewrite IH]. destruct (fs_metadata name d1) as [o d2] eqn:Hm. apply fs_metadata_files in Hm.
  destruct o as [node| |]; [destruct (_ || _)|..]; rewrite IH; congruence.
Qed.
Lemma read_dir_files d r d' : fs_read_dir d = (r, d') → dk_files d' = dk_files d.
Proof. unfold fs_read_dir. fs_call Hf; intros; by simplify_eq. Qed.
Lemma load_index_kept d : entries_kept (dk_files d) (dk_files (load_index d).2).
Proof.
  unfold load_index. destruct (fs_read INDEX_FILE d) as [r d1] eqn:Hr. apply fs_read_files in Hr. rewrite <- Hr.
  destruct (match r with Ok _ => _ | _ => _ end) as [index|].
  - unfold retain_present. pose proof (retain_entries_files (merge_sort key_le (map_to_list (pi_entries index))) d1) as Hret.
    destruct (retain_entries _ d1) as [kept d2]. simpl in *. rewrite <- Hret. unfold remove_unaccounted_entries.
    destruct (fs_read_dir d2) as [[names| |] d3] eqn:Hd; apply read_dir_files in Hd; rewrite <- Hd; [apply remove_unaccounted_kept|done..].
  - unfold rebuild_index. destruct (fs_read_dir d1) as [[names| |] d2] eqn:Hd; apply read_dir_files in Hd; simpl; rewrite ?rebuild_files; by rewrite Hd.
Qed.
Lemma persist_index_kept index d r d' :
  persist_index index d = (r, d') → ∀ x, dk_files d' !! entry_name x = dk_files d !! entry_name x.
Proof.
  intros Hw x. apply write_atomic_files in Hw as (temporary & Htmp & Hcases); [|unfold ends_in; by intros [=]].
  assert (entry_name x ≠ temporary) by (eapply ends_in_ne; [apply entry_name_ends|done|done]).
  assert (entry_name x ≠ INDEX_FILE) by (eapply (ends_in_ne _ "n"); [apply entry_name_ends|done|done]).
  destruct Hcases as [(_ & Hother & _)|[_ Hother]]; by apply Hother.
Qed.

(** [with_index] with an operation that only removes entries. *)
Lemma with_index_kept {T} (operation : PhraseIndex → Disk → outcome AudioError T * PhraseIndex * Disk) w r w' :
  (∀ index d, entries_kept (dk_files d) (dk_files (operation index d).2)) →
  with_index operation w = (r, w') → entries_kept (dk_files (wd_disk w)) (dk_files (wd_disk w')).
Proof.
  intros Hop. unfold with_index. specialize (Hop (pc_index (wd_cache w)) (wd_disk w)).
  destruct (operation _ _) as [[o index] d]. simpl in Hop.
  destruct o as [value| |]; [|intros; by simplify_eq..]. destruct (persist_index index d) as [p d2] eqn:Hp.
  intros Heq. simplify_eq/=. etrans; [exact Hop|]. intros x. left. by eapply persist_index_kept.
Qed.

(** ** The life of a cache directory *)

(** Every entry file is the encoding of a phrase that was stored under its digest. *)
Definition stored (hist : list (string * CachedPhrase)) (files : gmap string Node) : Prop :=
  ∀ x b, files !! entry_name x = Some (RegularFile b) →
    ∃ p, (x, p) ∈ hist ∧ phrase_typed p ∧ encode_entry (ph_samples p) (ph_sample_rate_hz p) (ph_channels p) = Ok b.

Lemma stored_kept hist files files' : entries_kept files files' → stored hist files → stored hist files'.
Proof. intros Hk Hs x b Hb. destruct (Hk x) as [Hx|Hx]; rewrite Hx in Hb; [by apply Hs|done]. Qed.
Lemma stored_app hist more files : stored hist files → stored (hist ++ more) files.
Proof. intros Hs x b Hb. destruct (Hs x b Hb) as (p & Hin & ?). exists p. split; [|done]. apply elem_of_app. by left. Qed.

(** The process opens the cache, uses it and may stop at any point; [hist] is what it was asked to store.  Which calls of
    the file system fail is up to the environment. *)
Inductive life (capacity : N) : list (string * CachedPhrase) → option PhraseCache → Disk → Prop :=
  | life_start d : (∀ x, dk_files d !! entry_name x = None) → life capacity [] None d
  | life_open hist c d r d' :
      life capacity hist c d → with_capacity_bytes capacity d = (r, d') →
      life capacity hist (match r with Ok c => Some c | _ => None end) d'
  | life_get hist c d key r w :
      life capacity hist (Some c) d → get_phrase key (mkWorld c d) = (r, w) →
      life capacity hist (Some (wd_cache w)) (wd_disk w)
  | life_put hist c d key p r w :
      life capacity hist (Some c) d → phrase_typed p →
      put key (ph_samples p) (ph_sample_rate_hz p) (ph_channels p) (mkWorld c d) = (r, w) →
      life capacity (hist ++ [(pk_digest key, p)]) (Some (wd_cache w)) (wd_disk w)
  | life_ask {T} (question : PhraseIndex → T) hist c d r w :
      life capacity hist (Some c) d → with_index (λ index d, (Ok (question index), index, d)) (mkWorld c d) = (r, w) →
      life capacity hist (Some (wd_cache w)) (wd_disk w)
  | life_environment hist c d faults clock pid counter :
      life capacity hist c d → life capacity hist c (mkDisk (dk_files d) faults clock pid counter).

(** The budget of the index in memory. *)
Definition within (capacity : N) (c : PhraseCache) : Prop :=
  pc_capacity_bytes c = capacity ∧ (index_total (pc_index c) ≤ capacity)%N.

Lemma index_total_le index index' :
  (sum_bytes (pi_entries index) ≤ sum_bytes (pi_entries index'))%N → (index_total index ≤ index_total index')%N.
Proof. rewrite !index_total_spec. lia. Qed.
Lemma sum_bytes_delete_le m k : (sum_bytes (base.delete k m) ≤ sum_bytes m)%N.
Proof. destruct (m !! k) as [r|] eqn:Hk; [rewrite (sum_bytes_delete m k r) by done; lia|by rewrite delete_id]. Qed.
Lemma sum_bytes_alter (f : PhraseRecord → PhraseRecord) m k :
  (∀ r, pr_bytes (f r) = pr_bytes r) → sum_bytes (alter f k m) = sum_bytes m.
Proof.
  intros Hf. destruct (m !! k) as [r|] eqn:Hk; [|by rewrite alter_id by (intros; congruence)].
  rewrite (sum_bytes_delete m k r), (sum_bytes_delete (alter f k m) k (f r)) by (try rewrite lookup_alter_eq, Hk; done).
  by rewrite delete_alter_eq, Hf.
Qed.

Lemma with_index_cache {T} (operation : PhraseIndex → Disk → outcome AudioError T * PhraseIndex * Disk) w r w' :
  with_index operation w = (r, w') →
  wd_cache w' = (wd_cache w) <| pc_index := (operation (pc_index (wd_cache w)) (wd_disk w)).1.2 |>.
Proof.
  unfold with_index. destruct (operation _ _) as [[o index] d]. destruct o; [destruct (persist_index index d)|..]; intros; by simplify_eq.
Qed.

Lemma open_life capacity d r d' :
  with_capacity_bytes capacity d = (r, d') →
  entries_kept (dk_files d) (dk_files d') ∧ ∀ c, r = Ok c → within capacity c.
Proof.
  unfold with_capacity_bytes. destruct (capacity =? 0)%N; [intros; by simplify_eq|].
  destruct (fs_create_dir_all d) as [[[]| |] d1] eqn:Hdir; apply may_fail_files in Hdir; rewrite <- Hdir; [|intros; by simplify_eq..].
  pose proof (load_index_kept d1) as Hload. destruct (load_index d1) as [index d2]. simpl in Hload.
  destruct (with_index _ _) as [o w] eqn:Hw. intros Heq. simplify_eq.
  pose proof (with_index_cache _ _ _ _ Hw) as Hc. apply with_index_kept in Hw.
  - split; [by etrans|]. intros c Hr. assert (c = wd_cache w) as -> by (destruct o; congruence). rewrite Hc.
    split; [done|]. simpl. pose proof (evict_bound capacity index d2). by destruct (evict_to_capacity capacity index d2).
  - intros index' d3. pose proof (evict_kept (S (size (pi_entries index'))) capacity index' d3) as Hev.
    unfold evict_to_capacity. by destruct (evict_rounds _ _ _ _).
Qed.

Lemma get_life key w r w' :
  get_phrase key w = (r, w') →
  entries_kept (dk_files (wd_disk w)) (dk_files (wd_disk w')) ∧
  (∀ capacity, within capacity (wd_cache w) → within capacity (wd_cache w')) ∧
  ∀ p, r = Some p → ∃ b, dk_files (wd_disk w) !! entry_name (pk_digest key) = Some (RegularFile b) ∧ decode_entry b = Some p.
Proof.
  unfold get_phrase. destruct (pi_entries _ !! pk_digest key); [|intros; by simplify_eq].
  destruct (fs_read _ (wd_disk w)) as [o d1] eqn:Hread. pose proof (fs_read_files _ _ _ _ Hread) as Hd1.
  destruct (match o with Ok _ => _ | _ => _ end) as [phrase|] eqn:Hdec; intros Heq; simplify_eq; simpl.
  - destruct (persist_index _ d1) as [o2 d2] eqn:Hp. split_and!.
    + intros x. left. simpl. rewrite <- Hd1. by eapply persist_index_kept.
    + intros capacity [Hcap Hle]. split; [done|]. simpl. etrans; [|exact Hle]. apply index_total_le. simpl. by rewrite sum_bytes_alter.
    + intros p' [= <-]. destruct o as [b| |]; [|done..]. exists b. split; [|done].
      revert Hread. unfold fs_read. fs_call Hf; [|done..]. rewrite <- Hf. repeat case_match; munfold; intros; by simplify_eq.
  - destruct (persist_index _ _) as [o2 d2] eqn:Hp. split_and!; [| |done].
    + rewrite <- Hd1. etrans; [apply fs_remove_kept|]. intros x. left. by eapply persist_index_kept.
    + intros capacity [Hcap Hle]. split; [done|]. simpl. etrans; [|exact Hle]. apply index_total_le. apply sum_bytes_delete_le.
Qed.

Lemma put_life hist key p w r w' :
  put key (ph_samples p) (ph_sample_rate_hz p) (ph_channels p) w = (r, w') → phrase_typed p →
  stored hist (dk_files (wd_disk w)) →
  stored (hist ++ [(pk_digest key, p)]) (dk_files (wd_disk w')) ∧
  ∀ capacity, within capacity (wd_cache w) → within capacity (wd_cache w').
Proof.
  intros Hput Hp Hs. unfold put, on_disk, or_remove in Hput. munfold.
  destruct (encode_entry _ _ _) as [encoded| |] eqn:Henc; [|simplify_eq; auto using stored_app..].
  destruct (_ <? _)%N; simpl in Hput; [simplify_eq; auto using stored_app|].
  destruct (write_private_atomic _ encoded (wd_disk w)) as [o d1] eqn:Hw.
  assert (stored (hist ++ [(pk_digest key, p)]) (dk_files d1)) as Hd1.
  { apply write_atomic_files in Hw as (temporary & Htmp & Hcases); [|apply entry_not_temporary].
    intros x b Hb. assert (entry_name x ≠ temporary) by (eapply ends_in_ne; [apply entry_name_ends|done|done]).
    destruct Hcases as [(_ & Hother & Hnew)|[_ Hother]]; [|rewrite Hother in Hb by done; by apply (stored_app _ _ _ Hs)].
    destruct (decide (x = pk_digest key)) as [->|Hne].
    - rewrite Hnew in Hb. simplify_eq. exists p. split_and!; [|done..]. apply elem_of_app. right. by left.
    - rewrite Hother in Hb by (done || intros ?%entry_name_inj; done). by apply (stored_app _ _ _ Hs). }
  destruct o as [[]| |]; [|simplify_eq; auto..].
  destruct (with_index _ _) as [o2 w2] eqn:Hwi. pose proof (with_index_cache _ _ _ _ Hwi) as Hc.
  assert (stored (hist ++ [(pk_digest key, p)]) (dk_files (wd_disk w2)) ∧
    ∀ capacity, within capacity (wd_cache w) → within capacity (wd_cache w2)) as [Hs2 Hb2].
  { split.
    - eapply stored_kept; [eapply (with_index_kept _ _ _ _ _ Hwi)|exact Hd1]. Unshelve.
      intros index d. unfold insert_phrase, evict_to_capacity. set (index1 := update _ _ _).
      pose proof (evict_kept (S (size (pi_entries index1))) (pc_capacity_bytes (wd_cache w)) index1 d).
      by destruct (evict_rounds _ _ index1 d).
    - intros capacity [Hcap _]. rewrite Hc. split; [done|]. simpl. unfold insert_phrase. set (index1 := update _ _ _).
      pose proof (evict_bound (pc_capacity_bytes (wd_cache w)) index1 d1). rewrite <- Hcap. by destruct (evict_to_capacity _ index1 d1). }
  destruct o2 as [[]| |]; simplify_eq/=; [done| |done]. split; [|done]. eapply stored_kept; [apply fs_remove_kept|done].
Qed.

Lemma life_inv capacity hist c d :
  life capacity hist c d → stored hist (dk_files d) ∧ ∀ c', c = Some c' → within capacity c'.
Proof.
  induction 1 as [d Hd|hist c d r d' _ [IH _] Hopen|hist c d key r w _ [IH Hc] Hget|hist c d key p r w _ [IH Hc] Hp Hput
    |T question hist c d r w _ [IH Hc] Hask|hist c d faults clock pid counter _ IH].
  - split; [|done]. intros x b Hb. by rewrite Hd in Hb.
  - apply open_life in Hopen as [Hk Hw]. split; [by eapply stored_kept|]. intros c' Hc. destruct r; simplify_eq. by apply Hw.
  - apply get_life in Hget as (Hk & Hw & _). split; [by eapply stored_kept|]. intros c' [= <-]. by apply Hw, Hc.
  - eapply put_life in Hput as [Hs Hw]; [|done..]. split; [done|]. intros c' [= <-]. by apply Hw, Hc.
  - pose proof (with_index_cache _ _ _ _ Hask) as Hcache. apply with_index_kept in Hask; [|done].
    split; [by eapply stored_kept|]. intros c' [= <-]. rewrite Hcache. by destruct (Hc c eq_refl).
  - done.
Qed.

(** A hit of the phrase cache is a phrase that was stored under its key, whatever fails.  In every state that opening,
    storing, reading and stopping can reach, with any calls of the file system failing at any point, a phrase that is read is
    one that [put] was given for exactly that key, and the index in memory stays within the byte budget. *)
Theorem hits_were_stored capacity hist c d :
  digest_bytes → life capacity hist (Some c) d →
  (index_total (pc_index c) ≤ capacity)%N ∧
  ∀ key p w, get_phrase key (mkWorld c d) = (Some p, w) → (pk_digest key, p) ∈ hist.
Proof.
  intros Hsha Hl. apply life_inv in Hl as [Hs Hw]. destruct (Hw c eq_refl) as [_ Hle]. split; [done|].
  intros key p w Hget. apply get_life in Hget as (_ & _ & Hhit). destruct (Hhit p eq_refl) as (b & Hb & Hdec).
  destruct (Hs _ _ Hb) as (p' & Hin & Htyped & Henc). pose proof (decode_encoded _ _ Hsha Htyped Henc). by simplify_eq.
Qed.
End life.
