(* ===== verification/PhraseCacheLru.v ===== *)
(** * The phrase cache as a least-recently-used map

    While no call of the file system fails, the cache directory holds exactly the entries of its
    index and the cache is the abstract map below: it evicts the entries that were used least
    recently and keeps its entries and their order through a restart. *)

From stdpp Require Import base gmap strings list sorting pretty.
From Stdlib Require Import Ascii.
From S2P Require Import Prelude Text PhraseCache PhraseCacheSpec.

(** ** The abstract map *)

(** An entry with the time of its last use; the list has the oldest first. *)
Record Cell : Type := mkCell { c_key : string; c_phrase : CachedPhrase; c_used : N }.

(** The bytes that an entry takes. *)
Definition phrase_size (p : CachedPhrase) : N := N.of_nat (ENTRY_HEADER_BYTES + 2 * length (ph_samples p)).

Fixpoint lru_find (k : string) (l : list (string * CachedPhrase)) : option CachedPhrase :=
  match l with [] => None | (k', p) :: l => if decide (k' = k) then Some p else lru_find k l end.
Definition lru_remove (k : string) (l : list (string * CachedPhrase)) : list (string * CachedPhrase) := filter (λ e, e.1 ≠ k) l.
Definition lru_total (l : list (string * CachedPhrase)) : N := foldr (λ e n, phrase_size e.2 + n)%N 0%N l.
Fixpoint lru_evict (capacity : N) (l : list (string * CachedPhrase)) : list (string * CachedPhrase) :=
  match l with [] => [] | e :: l' => if (lru_total l <=? capacity)%N then l else lru_evict capacity l' end.
(** The entry becomes the one that was used last. *)
Definition lru_use (k : string) (p : CachedPhrase) (l : list (string * CachedPhrase)) : list (string * CachedPhrase) :=
  lru_remove k l ++ [(k, p)].

Lemma lru_evict_cons capacity e l :
  lru_evict capacity (e :: l) = if (lru_total (e :: l) <=? capacity)%N then e :: l else lru_evict capacity l.
Proof. done. Qed.
Lemma lru_evict_total capacity l : (lru_total (lru_evict capacity l) ≤ capacity)%N.
Proof. induction l as [|e l IH]; [simpl; lia|]. rewrite lru_evict_cons. by destruct (N.leb_spec (lru_total (e :: l)) capacity). Qed.
Lemma lru_evict_id capacity l : (lru_total l ≤ capacity)%N → lru_evict capacity l = l.
Proof. destruct l as [|e l]; [done|]. intros Hle. rewrite lru_evict_cons. by rewrite (proj2 (N.leb_le _ _)). Qed.

(** ** Cells *)

Definition cell_record (c : Cell) : PhraseRecord := mkPhraseRecord (phrase_size (c_phrase c)) (c_used c).
Definition record_map (cells : list Cell) : gmap string PhraseRecord := list_to_map ((λ c, (c_key c, cell_record c)) <$> cells).
Fixpoint find_cell (k : string) (cells : list Cell) : option Cell :=
  match cells with [] => None | c :: cells => if decide (c_key c = k) then Some c else find_cell k cells end.
Definition remove_cell (k : string) (cells : list Cell) : list Cell := filter (λ c, c_key c ≠ k) cells.
Definition erase (cells : list Cell) : list (string * CachedPhrase) := (λ c, (c_key c, c_phrase c)) <$> cells.

Lemma find_cell_erase k cells : lru_find k (erase cells) = c_phrase <$> find_cell k cells.
Proof. induction cells as [|c cells IH]; simpl; [done|]. by case_decide. Qed.
Lemma remove_cell_erase k cells : lru_remove k (erase cells) = erase (remove_cell k cells).
Proof.
  unfold lru_remove, remove_cell, erase. induction cells as [|c cells IH]; [done|]. rewrite fmap_cons, !filter_cons. simpl.
  by case_decide; rewrite IH.
Qed.
Lemma find_cell_app k cells1 cells2 :
  find_cell k (cells1 ++ cells2) = match find_cell k cells1 with Some c => Some c | None => find_cell k cells2 end.
Proof. induction cells1 as [|c cells1 IH]; simpl; [done|]. by case_decide. Qed.
Lemma find_remove_cell k k' cells : find_cell k' (remove_cell k cells) = if decide (k' = k) then None else find_cell k' cells.
Proof.
  unfold remove_cell. induction cells as [|c cells IH]; [by case_decide|]. rewrite filter_cons.
  destruct (decide (c_key c ≠ k)) as [Hne|Heq]; simpl; rewrite IH; repeat case_decide; congruence || naive_solver.
Qed.
Lemma find_cell_Some k cells c : find_cell k cells = Some c → c_key c = k ∧ c ∈ cells.
Proof. induction cells as [|c' cells IH]; simpl; [done|]. case_decide; [intros [= ->]; by split; [|left]|]. intros [? ?]%IH. by split; [|right]. Qed.
Lemma find_cell_None k cells : find_cell k cells = None ↔ k ∉ c_key <$> cells.
Proof.
  induction cells as [|c cells IH]; simpl; [split; [by intros _ ?%elem_of_nil|done]|].
  rewrite not_elem_of_cons. case_decide; naive_solver.
Qed.
Lemma find_cell_in c cells : NoDup (c_key <$> cells) → c ∈ cells → find_cell (c_key c) cells = Some c.
Proof.
  induction cells as [|c' cells IH]; simpl; [by intros _ ?%elem_of_nil|]. intros [Hni Hnd]%NoDup_cons [->|Hin]%elem_of_cons.
  - by rewrite decide_True.
  - rewrite decide_False; [by apply IH|]. intros Heq. apply Hni. rewrite Heq. by apply list_elem_of_fmap_2.
Qed.

Lemma record_map_lookup cells k : record_map cells !! k = cell_record <$> find_cell k cells.
Proof.
  unfold record_map. induction cells as [|c cells IH]; simpl; [done|].
  case_decide as Heq; [subst; apply lookup_insert_eq|]. by rewrite lookup_insert_ne.
Qed.
Lemma record_map_use c cells : record_map (remove_cell (c_key c) cells ++ [c]) = <[c_key c := cell_record c]> (record_map cells).
Proof.
  apply map_eq. intros k. rewrite record_map_lookup, find_cell_app, find_remove_cell.
  destruct (decide (k = c_key c)) as [->|Hne]; simpl.
  - by rewrite decide_True, lookup_insert_eq by done.
  - rewrite lookup_insert_ne, record_map_lookup, decide_False by done. by destruct (find_cell k cells).
Qed.
Lemma record_map_cons c cells :
  c_key c ∉ c_key <$> cells → base.delete (c_key c) (record_map (c :: cells)) = record_map cells.
Proof. intros Hni. unfold record_map. simpl. apply delete_insert_id, not_elem_of_list_to_map_1. by rewrite <- list_fmap_compose. Qed.
Lemma record_map_sum cells : NoDup (c_key <$> cells) → sum_bytes (record_map cells) = lru_total (erase cells).
Proof.
  induction cells as [|c cells IH]; [done|]. intros [Hni Hnd]%NoDup_cons. unfold record_map. simpl.
  rewrite sum_bytes_insert; [by f_equal; apply IH|]. apply not_elem_of_list_to_map_1. by rewrite <- list_fmap_compose.
Qed.

(** Distinct keys, used in this order and not after the counter. *)
Definition cells_ok (next_use : N) (cells : list Cell) : Prop :=
  NoDup (c_key <$> cells) ∧ StronglySorted (λ a b, c_used a < c_used b)%N cells ∧ Forall (λ c, c_used c ≤ next_use)%N cells.

Lemma cells_ok_tail next_use c cells : cells_ok next_use (c :: cells) → cells_ok next_use cells.
Proof. intros ([_ ?]%NoDup_cons & [? _]%StronglySorted_inv & [_ ?]%Forall_cons). done. Qed.
Lemma cells_ok_use next_use c cells :
  cells_ok next_use cells → (next_use < c_used c)%N → cells_ok (c_used c) (remove_cell (c_key c) cells ++ [c]).
Proof.
  intros (Hnd & Hs & Hle) Hlt.
  assert (∀ k c', c' ∈ remove_cell k cells → c_key c' ≠ k ∧ c' ∈ cells) as Hin by (intros k c' ?%list_elem_of_filter; done).
  rewrite Forall_forall in Hle. split_and!.
  - rewrite fmap_app. apply NoDup_app. split_and!; [|by intros k (c' & -> & [? _]%Hin)%list_elem_of_fmap Hc%list_elem_of_singleton|apply NoDup_singleton].
    apply NoDup_fmap_2_strong; [|apply NoDup_filter; by eapply NoDup_fmap_1].
    intros x y [_ Hx]%Hin [_ Hy]%Hin Hxy. apply (find_cell_in x) in Hx; [|done]. apply (find_cell_in y) in Hy; [|done]. congruence.
  - apply StronglySorted_app. split_and!; [|by apply StronglySorted_filter|by repeat constructor].
    intros x y [_ Hx]%Hin ->%list_elem_of_singleton. specialize (Hle _ Hx). simpl in Hle. lia.
  - apply Forall_app. split; [|by repeat constructor]. apply Forall_forall. intros x [_ Hx]%Hin. specialize (Hle _ Hx). simpl in Hle. lia.
Qed.

(** The oldest cell is the one that is evicted. *)
Lemma lru_is_head next_use c cells n :
  cells_ok next_use (c :: cells) → least_recently_used (mkPhraseIndex (record_map (c :: cells)) n) = Some (c_key c).
Proof.
  intros (Hnd & [_ Hs]%StronglySorted_inv & _). pose proof (least_recently_used_spec (mkPhraseIndex (record_map (c :: cells)) n)) as Hlru.
  destruct (least_recently_used _) as [digest|]; simpl in Hlru.
  - destruct Hlru as (r & Hr & Hmin). specialize (Hmin (c_key c) (cell_record c)).
    rewrite record_map_lookup in Hr, Hmin. simpl in Hr, Hmin. rewrite decide_True in Hmin by done. specialize (Hmin eq_refl).
    case_decide as Hk; [by subst|]. exfalso. destruct (find_cell digest cells) as [c'|] eqn:Hf; [|done]. simplify_eq/=.
    apply find_cell_Some in Hf as [_ Hin]. rewrite Forall_forall in Hs. specialize (Hs _ Hin). simpl in Hs. lia.
  - exfalso. assert (record_map (c :: cells) !! c_key c = None) as Hnone by (by rewrite Hlru).
    rewrite record_map_lookup in Hnone. simpl in Hnone. by rewrite decide_True in Hnone.
Qed.

(** ** A disk without faults *)

Definition no_temporary (files : gmap string Node) : Prop := ∀ name, ends_in "p" name → files !! name = None.
Definition tidy (d : Disk) : Prop := dk_faults d = [] ∧ no_temporary (dk_files d).

Lemma next_fault_tidy d : tidy d → next_fault d = (Ok None, d).
Proof. intros [Hd _]. unfold next_fault. by rewrite Hd. Qed.
Lemma may_fail_tidy d : tidy d → may_fail d = (Ok (), d).
Proof. intros Hd. unfold may_fail. munfold. by rewrite next_fault_tidy. Qed.

Lemma write_tidy path content d :
  tidy d → ¬ ends_in "p" path → (∀ len, dk_files d !! path ≠ Some (Directory len)) →
  ∃ d', write_private_atomic path content d = (Ok (), d') ∧ tidy d' ∧ dk_files d' = <[path := RegularFile content]> (dk_files d).
Proof.
  destruct d as [files faults clock pid counter]. intros [Hcalm Hno] Hpath Hdir. simpl in *. subst faults.
  unfold write_private_atomic, unique_temporary_name, fs_create_new, fs_write_all, fs_sync_all, fs_rename, may_fail, next_fault.
  munfold. set (temporary := _ +:+ _). assert (ends_in "p" temporary) as Htmp by (repeat apply ends_in_app; done).
  assert (temporary ≠ path) as Hne by (intros ->; done).
  rewrite (Hno temporary Htmp). simpl. rewrite insert_insert_eq, lookup_insert_eq, lookup_insert_ne by done.
  eexists (mkDisk _ _ _ _ _). split_and!.
  - destruct (files !! path) as [[|len]|] eqn:Hp; [|by destruct (Hdir len)|]; simpl; rewrite delete_insert_id by (by apply Hno); reflexivity.
  - split; [done|]. intros name Hname. simpl. rewrite lookup_insert_ne; [by apply Hno|]. by intros ->.
  - done.
Qed.
Lemma remove_tidy name content d :
  tidy d → dk_files d !! name = Some (RegularFile content) →
  tidy (ignore (fs_remove_file name) d) ∧ dk_files (ignore (fs_remove_file name) d) = base.delete name (dk_files d).
Proof.
  intros Hd Hf. unfold ignore, fs_remove_file. munfold. rewrite may_fail_tidy by done. rewrite Hf. simpl.
  split; [|done]. destruct Hd as [? Hno]. split; [done|]. intros name' Hn. simpl. apply lookup_delete_None. right. by apply Hno.
Qed.

(** ** Representation *)

Section lru.
Context `{Sha256, CacheHost}.

(** The entry files are those of the cells. *)
Definition entry_bytes (p : CachedPhrase) : list N :=
  match encode_entry (ph_samples p) (ph_sample_rate_hz p) (ph_channels p) with Ok b => b | _ => [] end.
Definition holds (cells : list Cell) (files : gmap string Node) : Prop :=
  ∀ x, files !! entry_name x = (λ c, RegularFile (entry_bytes (c_phrase c))) <$> find_cell x cells.

Lemma holds_tail c cells files :
  c_key c ∉ c_key <$> cells → holds (c :: cells) files → holds cells (base.delete (entry_name (c_key c)) files).
Proof.
  intros Hni Hh x. destruct (decide (x = c_key c)) as [->|Hne].
  - rewrite lookup_delete_eq. symmetry. apply fmap_None. by apply find_cell_None.
  - rewrite lookup_delete_ne by (intros ?%entry_name_inj; done). rewrite Hh. simpl. by rewrite decide_False.
Qed.

Lemma evict_lru rounds capacity n next_use cells d :
  cells_ok next_use cells → (capacity < u64_max)%N → tidy d → holds cells (dk_files d) → length cells < rounds →
  ∃ cells' d', evict_rounds rounds capacity (mkPhraseIndex (record_map cells) n) d = (mkPhraseIndex (record_map cells') n, d') ∧
    erase cells' = lru_evict capacity (erase cells) ∧ cells' `suffix_of` cells ∧ cells_ok next_use cells' ∧
    tidy d' ∧ holds cells' (dk_files d') ∧ ∀ name, ¬ ends_in "m" name → dk_files d' !! name = dk_files d !! name.
Proof.
  intros Hok Hcap. revert rounds d Hok. induction cells as [|c cells IH]; intros [|rounds] d Hok Hd Hh Hlen; [simpl in *; lia| |simpl in *; lia|].
  { exists [], d. simpl. rewrite (proj2 (N.ltb_ge _ _)); [split_and!; done || reflexivity|]. rewrite index_total_spec. unfold sum_bytes, record_map. simpl.
    rewrite map_fold_empty. lia. }
  pose proof Hok as (Hnd & _). cbn [evict_rounds]. rewrite index_total_spec. cbn [pi_entries]. rewrite record_map_sum by done.
  change (erase (c :: cells)) with ((c_key c, c_phrase c) :: erase cells). rewrite lru_evict_cons.
  set (total := lru_total _).
  destruct (N.leb_spec total capacity) as [Hle|Hgt].
  - rewrite (proj2 (N.ltb_ge _ _)) by lia. exists (c :: cells), d. split_and!; done || reflexivity.
  - rewrite (proj2 (N.ltb_lt _ _)) by lia. rewrite (lru_is_head next_use) by done.
    apply NoDup_cons in Hnd as [Hni Hnd]. unfold update. simpl. rewrite record_map_cons by done.
    assert (dk_files d !! entry_name (c_key c) = Some (RegularFile (entry_bytes (c_phrase c)))) as Hfile.
    { rewrite Hh. simpl. by rewrite decide_True. }
    destruct (remove_tidy _ _ _ Hd Hfile) as [Hd' Hfiles].
    destruct (IH rounds (ignore (fs_remove_file (entry_name (c_key c))) d)) as (cells' & d' & -> & He & Hsuf & Hok' & Htidy & Hh' & Hother).
    + by eapply cells_ok_tail.
    + done.
    + rewrite Hfiles. by apply holds_tail.
    + simpl in Hlen. lia.
    + exists cells', d'. split_and!; [done|done|by apply suffix_cons_r|done..|]. intros name Hname. rewrite Hother, Hfiles by done.
      apply lookup_delete_ne. intros <-. apply Hname, entry_name_ends.
Qed.

(** A phrase that can be stored. *)
Definition storable (p : CachedPhrase) : Prop :=
  phrase_typed p ∧ encode_entry (ph_samples p) (ph_sample_rate_hz p) (ph_channels p) = Ok (entry_bytes p).

Lemma entry_bytes_length p : digest_bytes → storable p → N.of_nat (length (entry_bytes p)) = phrase_size p.
Proof.
  intros Hsha [_ [_ ->]%encode_entry_ok]. rewrite !length_app, !to_le_length, encode_samples_length.
  destruct (Hsha (ph_samples p ≫= sample_bytes)) as [-> _]. unfold phrase_size, ENTRY_HEADER_BYTES. simpl. lia.
Qed.

(** The cells of a cache and its directory. *)
Record represents (capacity : N) (cells : list Cell) (w : World) : Prop := {
  rep_capacity : pc_capacity_bytes (wd_cache w) = capacity;
  rep_entries : pi_entries (pc_index (wd_cache w)) = record_map cells;
  rep_cells : cells_ok (pi_next_use (pc_index (wd_cache w))) cells;
  rep_storable : Forall (λ c, storable (c_phrase c)) cells;
  rep_total : (lru_total (erase cells) ≤ capacity)%N;
  rep_tidy : tidy (wd_disk w);
  rep_holds : holds cells (dk_files (wd_disk w));
  rep_index_file : dk_files (wd_disk w) !! INDEX_FILE = Some (RegularFile (index_to_vec (pc_index (wd_cache w))));
}.

Lemma index_file_name x : entry_name x ≠ INDEX_FILE.
Proof. eapply (ends_in_ne _ "n"); [apply entry_name_ends|done|done]. Qed.

(** Persisting leaves everything but the index file. *)
Lemma persist_tidy index d :
  tidy d → (∀ len, dk_files d !! INDEX_FILE ≠ Some (Directory len)) →
  ∃ d', persist_index index d = (Ok (), d') ∧ tidy d' ∧
    dk_files d' !! INDEX_FILE = Some (RegularFile (index_to_vec index)) ∧
    ∀ cells, holds cells (dk_files d) → holds cells (dk_files d').
Proof.
  intros Hd Hdir. destruct (write_tidy INDEX_FILE (index_to_vec index) d) as (d' & Hw & Ht & Hf); [done|unfold ends_in; by intros [=]|done|].
  exists d'. split_and!; [done|done|rewrite Hf; apply lookup_insert_eq|]. intros cells Hh x.
  rewrite Hf, lookup_insert_ne; [apply Hh|]. intros Heq. by apply (index_file_name x).
Qed.

Lemma find_lru_None k cells : lru_find k (erase cells) = None ↔ find_cell k cells = None.
Proof. rewrite find_cell_erase. by destruct (find_cell k cells). Qed.

(** Reading a phrase. *)
Lemma get_lru capacity cells w key :
  digest_bytes → represents capacity cells w → (pi_next_use (pc_index (wd_cache w)) < u64_max)%N →
  match lru_find (pk_digest key) (erase cells) with
  | None => get_phrase key w = (None, w)
  | Some p => ∃ cells' w', get_phrase key w = (Some p, w') ∧ erase cells' = lru_use (pk_digest key) p (erase cells) ∧
      represents capacity cells' w' ∧ pi_next_use (pc_index (wd_cache w')) = (pi_next_use (pc_index (wd_cache w)) + 1)%N
  end.
Proof.
  intros Hsha [Hcap Hent Hcells Hst Htot Htidy Hh Hidx] Huse. rewrite find_cell_erase.
  unfold get_phrase. rewrite Hent, record_map_lookup. destruct (find_cell (pk_digest key) cells) as [c|] eqn:Hf; simpl; [|done].
  pose proof Hf as [Hk Hin]%find_cell_Some. rewrite Forall_forall in Hst.
  unfold fs_read. munfold. rewrite may_fail_tidy, Hh, Hf by done. simpl.
  destruct (Hst c Hin) as [Hty Henc]. rewrite (decode_encoded _ _ Hsha Hty Henc). simpl.
  set (index := touch _ _). destruct (persist_tidy index (wd_disk w) Htidy) as (d' & Hp & Htidy' & Hidx' & Hh'); [by rewrite Hidx|].
  rewrite Hp. simpl. set (c' := mkCell (pk_digest key) (c_phrase c) (pi_next_use (pc_index (wd_cache w)) + 1)).
  assert (sat_add u64_max (pi_next_use (pc_index (wd_cache w))) 1 = c_used c') as Hsat by (unfold sat_add; simpl; lia).
  assert (pi_entries index = record_map (remove_cell (c_key c') cells ++ [c'])) as Hentries.
  { rewrite record_map_use. unfold index. simpl. rewrite Hent, Hsat. apply map_eq. intros k.
    destruct (decide (k = pk_digest key)) as [->|Hne].
    - rewrite lookup_alter_eq, lookup_insert_eq, record_map_lookup, Hf. done.
    - by rewrite lookup_alter_ne, lookup_insert_ne by done. }
  exists (remove_cell (c_key c') cells ++ [c']). eexists. split; [reflexivity|]. split; [|split; [|simpl; by rewrite Hsat]].
  { unfold lru_use. rewrite remove_cell_erase. unfold erase. by rewrite fmap_app. }
  assert (cells_ok (c_used c') (remove_cell (c_key c') cells ++ [c'])) as Hok' by (apply (cells_ok_use (pi_next_use (pc_index (wd_cache w)))); [done|simpl; lia]).
  split.
  - done.
  - done.
  - simpl. by rewrite Hsat.
  - apply Forall_app. split; [apply Forall_forall; intros c2 [_ Hc2]%list_elem_of_filter; by apply Hst|]. constructor; [exact (Hst c Hin)|constructor].
  - rewrite <- record_map_sum by apply Hok'. rewrite <- Hentries. unfold index. simpl. rewrite sum_bytes_alter by done.
    rewrite Hent, record_map_sum by apply Hcells. done.
  - done.
  - apply Hh'. intros x. rewrite Hh, find_cell_app, find_remove_cell. simpl. repeat case_decide; subst; simpl; rewrite ?Hf; try done.
    by destruct (find_cell x cells).
  - done.
Qed.

(** Writing the file of an entry. *)
Lemma holds_use c cells files :
  holds cells files →
  holds (remove_cell (c_key c) cells ++ [c]) (<[entry_name (c_key c) := RegularFile (entry_bytes (c_phrase c))]> files).
Proof.
  intros Hh x. rewrite find_cell_app, find_remove_cell. simpl. destruct (decide (x = c_key c)) as [->|Hne].
  - by rewrite lookup_insert_eq, decide_True.
  - rewrite lookup_insert_ne, Hh by (intros ?%entry_name_inj; done). rewrite decide_False by done. by destruct (find_cell x cells).
Qed.
Lemma holds_no_directory cells files x len : holds cells files → files !! entry_name x ≠ Some (Directory len).
Proof. intros Hh. rewrite Hh. by destruct (find_cell x cells). Qed.

Lemma size_record_map cells : NoDup (c_key <$> cells) → size (record_map cells) = length cells.
Proof.
  intros Hnd. unfold record_map. rewrite map_size_list_to_map, length_fmap; [done|]. by rewrite <- list_fmap_compose.
Qed.

(** Storing a phrase. *)
Lemma put_lru capacity cells w key p :
  digest_bytes → represents capacity cells w → (capacity < u64_max)%N → (pi_next_use (pc_index (wd_cache w)) < u64_max)%N →
  storable p → (phrase_size p ≤ capacity)%N →
  ∃ cells' w', put key (ph_samples p) (ph_sample_rate_hz p) (ph_channels p) w = (Ok (), w') ∧
    erase cells' = lru_evict capacity (lru_use (pk_digest key) p (erase cells)) ∧
    represents capacity cells' w' ∧ pi_next_use (pc_index (wd_cache w')) = (pi_next_use (pc_index (wd_cache w)) + 1)%N.
Proof.
  intros Hsha [Hcap Hent Hcells Hst Htot Htidy Hh Hidx] Hmax Huse Hp Hsize.
  pose proof (entry_bytes_length p Hsha Hp) as Hlen. unfold put, on_disk, or_remove. munfold. rewrite (proj2 Hp), Hlen, Hcap.
  rewrite (proj2 (N.ltb_ge _ _)) by done. simpl.
  destruct (write_tidy (entry_name (pk_digest key)) (entry_bytes p) (wd_disk w) Htidy) as (d1 & Hw & Ht1 & Hf1);
    [apply entry_not_temporary|intros len; by eapply holds_no_directory|]. rewrite Hw. simpl.
  set (c := mkCell (pk_digest key) p (pi_next_use (pc_index (wd_cache w)) + 1)).
  assert (sat_add u64_max (pi_next_use (pc_index (wd_cache w))) 1 = c_used c) as Hsat by (unfold sat_add; simpl; lia).
  set (cells1 := remove_cell (c_key c) cells ++ [c]).
  assert (cells_ok (c_used c) cells1) as Hok1 by (apply (cells_ok_use (pi_next_use (pc_index (wd_cache w)))); [done|simpl; lia]).
  assert (holds cells1 (dk_files d1)) as Hh1 by (rewrite Hf1; by apply (holds_use c)).
  unfold with_index, insert_phrase. simpl. rewrite Hsat, Hent.
  change (mkPhraseRecord (phrase_size p) (c_used c)) with (cell_record c). change (pk_digest key) with (c_key c).
  rewrite <- record_map_use. fold cells1. unfold evict_to_capacity. simpl pi_entries. rewrite size_record_map by apply Hok1.
  destruct (evict_lru (S (length cells1)) capacity (c_used c) (c_used c) cells1 d1) as (cells' & d2 & Hev & He & Hsuf & Hok' & Ht2 & Hh2 & Hother);
    [done..|lia|]. rewrite Hev.
  assert (dk_files d2 !! INDEX_FILE = dk_files (wd_disk w) !! INDEX_FILE) as Hidx2.
  { rewrite Hother, Hf1 by (unfold ends_in; by intros [=]). apply lookup_insert_ne, index_file_name. }
  destruct (persist_tidy (mkPhraseIndex (record_map cells') (c_used c)) d2 Ht2) as (d3 & Hp3 & Ht3 & Hidx3 & Hh3); [by rewrite Hidx2, Hidx|].
  rewrite Hp3. exists cells'. eexists. split; [reflexivity|].
  assert (erase cells1 = lru_use (c_key c) p (erase cells)) as Herase.
  { unfold lru_use. rewrite remove_cell_erase. unfold cells1, erase. by rewrite fmap_app. }
  rewrite <- Herase. split; [done|]. split; [|done]. split; [done|done|done| | |done|by apply Hh3|done].
  - destruct Hsuf as [cut Hcut]. assert (Forall (λ c, storable (c_phrase c)) cells1) as Hall.
    { apply Forall_app. split; [|by apply Forall_singleton]. rewrite Forall_forall in Hst |- *.
      intros c2 [_ Hc2]%list_elem_of_filter. by apply Hst. }
    rewrite Hcut in Hall. by apply Forall_app in Hall as [_ ?].
  - rewrite He. apply lru_evict_total.
Qed.

(** ** Opening *)

Lemma strip_entry_suffix name digest : str_strip_suffix ENTRY_SUFFIX name = Some digest → name = entry_name digest.
Proof.
  unfold str_strip_suffix. intros (r & Hr%strip_prefix_Some & ->)%fmap_Some.
  apply (f_equal reverse) in Hr. rewrite reverse_involutive, reverse_app, reverse_involutive in Hr.
  apply bytes_inj. unfold entry_name. by rewrite Hr, bytes_app, bytes_of_bytes.
Qed.

Lemma retain_entries_all l d :
  tidy d → (∀ k r, (k, r) ∈ l → ∃ node, dk_files d !! entry_name k = Some node ∧ node_len node = pr_bytes r) →
  retain_entries l d = (list_to_map l, d).
Proof.
  intros Hd. induction l as [|[k r] l IH]; intros Hl; [done|]. simpl.
  destruct (Hl k r) as (node & Hnode & Hlen); [by left|]. unfold fs_metadata. munfold. rewrite may_fail_tidy by done. rewrite Hnode. munfold.
  rewrite IH by (intros; apply Hl; by right). by rewrite Hlen, N.eqb_refl.
Qed.
Lemma remove_unaccounted_none names index d :
  tidy d → (∀ x, is_Some (dk_files d !! entry_name x) → is_Some (pi_entries index !! x)) → remove_unaccounted names index d = d.
Proof.
  intros Hd Hall. induction names as [|name names IH]; [done|]. simpl. rewrite next_fault_tidy by done.
  destruct (str_strip_suffix ENTRY_SUFFIX name) as [digest|] eqn:Hs; [|done]. apply strip_entry_suffix in Hs as ->.
  destruct (is_hex_digest digest); [|done]. simpl. case_bool_decide as Hin; [done|]. simpl.
  assert (dk_files d !! entry_name digest = None) as Hnone.
  { destruct (dk_files d !! entry_name digest) eqn:Hf; [|done]. exfalso. apply Hin, Hall. by rewrite Hf. }
  unfold ignore, fs_remove_file. munfold. rewrite may_fail_tidy by done. by rewrite Hnone.
Qed.
Lemma rebuild_nothing names index d : tidy d → holds [] (dk_files d) → rebuild names index d = (index, d).
Proof.
  intros Hd Hh. induction names as [|name names IH]; [done|]. simpl. rewrite next_fault_tidy by done.
  destruct (str_strip_suffix ENTRY_SUFFIX name) as [digest|] eqn:Hs; [|done]. apply strip_entry_suffix in Hs as ->.
  unfold fs_metadata. munfold. rewrite may_fail_tidy by done. by rewrite Hh.
Qed.

(** A cache that is opened again is as it was. *)
Lemma open_lru capacity cells w :
  (∀ index, index_from_slice (index_to_vec index) = Some index) → digest_bytes →
  represents capacity cells w → (0 < capacity)%N →
  ∃ d', with_capacity_bytes capacity (wd_disk w) = (Ok (wd_cache w), d') ∧ represents capacity cells (mkWorld (wd_cache w) d').
Proof.
  intros Hcodec Hsha [Hcap Hent Hcells Hst Htot Htidy Hh Hidx] Hpos. unfold with_capacity_bytes.
  rewrite (proj2 (N.eqb_neq _ _)) by lia. unfold fs_create_dir_all. rewrite may_fail_tidy by done.
  unfold load_index, fs_read. munfold. rewrite may_fail_tidy, Hidx by done. simpl. rewrite Hcodec. unfold retain_present.
  set (index := pc_index (wd_cache w)) in *. set (l := merge_sort key_le _).
  assert (l ≡ₚ map_to_list (pi_entries index)) as Hperm by apply merge_sort_Permutation.
  assert (list_to_map l = pi_entries index) as Hl.
  { rewrite (list_to_map_proper l (map_to_list (pi_entries index))); [apply list_to_map_to_list| |done].
    rewrite Hperm. apply NoDup_fst_map_to_list. }
  rewrite retain_entries_all; [|done|].
  2:{ intros k r Hin. rewrite Hperm in Hin. apply elem_of_map_to_list in Hin. rewrite Hent, record_map_lookup in Hin.
      apply fmap_Some in Hin as (c & Hc & ->). rewrite Hh, Hc. simpl. eexists. split; [reflexivity|]. simpl.
      apply entry_bytes_length; [done|]. rewrite Forall_forall in Hst. by apply Hst; apply find_cell_Some in Hc as [_ ?]. }
  rewrite Hl. assert (index <| pi_entries := pi_entries index |> = index) as -> by (by destruct index).
  assert (remove_unaccounted_entries index (wd_disk w) = wd_disk w) as ->.
  { unfold remove_unaccounted_entries, fs_read_dir. munfold. rewrite may_fail_tidy by done. apply remove_unaccounted_none; [done|].
    intros x Hx. rewrite Hh in Hx. rewrite Hent, record_map_lookup. apply fmap_is_Some. by apply fmap_is_Some in Hx. }
  unfold with_index. simpl.
  assert (evict_to_capacity capacity index (wd_disk w) = (index, wd_disk w)) as ->.
  { unfold evict_to_capacity. simpl. rewrite (proj2 (N.ltb_ge _ _)); [done|]. rewrite index_total_spec, Hent, record_map_sum by apply Hcells. lia. }
  destruct (persist_tidy index (wd_disk w) Htidy) as (d' & -> & Htidy' & Hidx' & Hh'); [by rewrite Hidx|]. simpl.
  assert (mkPhraseCache capacity index = wd_cache w) as -> by (unfold index; rewrite <- Hcap; by destruct (wd_cache w)).
  exists d'. split; [done|]. split; try done. by apply Hh'.
Qed.
(** An empty directory is opened as an empty cache. *)
Lemma open_fresh capacity d :
  tidy d → holds [] (dk_files d) → dk_files d !! INDEX_FILE = None → (0 < capacity)%N →
  ∃ c d', with_capacity_bytes capacity d = (Ok c, d') ∧ pi_next_use (pc_index c) = 0%N ∧ represents capacity [] (mkWorld c d').
Proof.
  intros Htidy Hh Hidx Hpos. unfold with_capacity_bytes. rewrite (proj2 (N.eqb_neq _ _)) by lia.
  unfold fs_create_dir_all. rewrite may_fail_tidy by done. unfold load_index, fs_read. munfold. rewrite may_fail_tidy, Hidx by done. simpl.
  unfold rebuild_index, fs_read_dir. munfold. rewrite may_fail_tidy by done. rewrite rebuild_nothing by done. unfold with_index. simpl.
  unfold evict_to_capacity. simpl. rewrite (proj2 (N.ltb_ge _ _)) by (rewrite index_total_spec; unfold sum_bytes; simpl; rewrite map_fold_empty; lia).
  destruct (persist_tidy (mkPhraseIndex ∅ 0) d Htidy) as (d' & -> & Htidy' & Hidx' & Hh'); [by rewrite Hidx|]. simpl.
  eexists _, d'. split; [reflexivity|]. split; [done|]. split; simpl; try done; [|lia|by apply Hh'].
  split_and!; constructor.
Qed.

(** ** Requests *)

Inductive Request : Type := Read (key : PhraseKey) | Store (key : PhraseKey) (p : CachedPhrase) | Restart.
Inductive Reply : Type := Heard (r : option CachedPhrase) | Kept (r : outcome AudioError ()) | Restarted.

(** What the cache answers; [None] if it cannot be opened again. *)
Definition serve (capacity : N) (req : Request) (w : World) : option (Reply * World) :=
  match req with
  | Read key => let '(r, w) := get_phrase key w in Some (Heard r, w)
  | Store key p => let '(r, w) := put key (ph_samples p) (ph_sample_rate_hz p) (ph_channels p) w in Some (Kept r, w)
  | Restart => match with_capacity_bytes capacity (wd_disk w) with (Ok c, d) => Some (Restarted, mkWorld c d) | _ => None end
  end.
Fixpoint serve_all (capacity : N) (reqs : list Request) (w : World) : option (list Reply * World) :=
  match reqs with
  | [] => Some ([], w)
  | req :: reqs => '(r, w) ← serve capacity req w; '(rs, w) ← serve_all capacity reqs w; Some (r :: rs, w)
  end.

(** What the abstract map answers. *)
Definition lru_serve (capacity : N) (req : Request) (l : list (string * CachedPhrase)) : Reply * list (string * CachedPhrase) :=
  match req with
  | Read key =>
    match lru_find (pk_digest key) l with Some p => (Heard (Some p), lru_use (pk_digest key) p l) | None => (Heard None, l) end
  | Store key p =>
    if negb (valid_format (N.of_nat (length (ph_samples p))) (ph_sample_rate_hz p) (ph_channels p))
    then (Kept (Err (Processing "phrase cache received an invalid PCM phrase")), l)
    else if (capacity <? phrase_size p)%N
    then (Kept (Err (Processing "phrase is larger than the whole phrase-cache budget")), l)
    else (Kept (Ok ()), lru_evict capacity (lru_use (pk_digest key) p l))
  | Restart => (Restarted, l)
  end.
Fixpoint lru_serve_all (capacity : N) (reqs : list Request) (l : list (string * CachedPhrase)) : list Reply * list (string * CachedPhrase) :=
  match reqs with
  | [] => ([], l)
  | req :: reqs => let '(r, l) := lru_serve capacity req l in let '(rs, l) := lru_serve_all capacity reqs l in (r :: rs, l)
  end.

Definition request_typed (req : Request) : Prop := match req with Store _ p => phrase_typed p | _ => True end.

Section refinement.
Context (capacity : N) (Hcapacity : (0 < capacity < u64_max)%N).
Context (Hcodec : ∀ index, index_from_slice (index_to_vec index) = Some index) (Hsha : digest_bytes).

Lemma serve_lru req cells w :
  represents capacity cells w → (pi_next_use (pc_index (wd_cache w)) < u64_max)%N → request_typed req →
  ∃ cells' w', serve capacity req w = Some ((lru_serve capacity req (erase cells)).1, w') ∧
    erase cells' = (lru_serve capacity req (erase cells)).2 ∧ represents capacity cells' w' ∧
    (pi_next_use (pc_index (wd_cache w')) ≤ pi_next_use (pc_index (wd_cache w)) + 1)%N.
Proof.
  intros Hrep Huse Hty. destruct req as [key|key p|]; simpl.
  - pose proof (get_lru capacity cells w key Hsha Hrep Huse) as Hget. destruct (lru_find _ _) as [p|].
    + destruct Hget as (cells' & w' & -> & He & Hr & Hn). exists cells', w'. split_and!; [done..|lia].
    + rewrite Hget. exists cells, w. split_and!; [done..|lia].
  - destruct (valid_format _ _ _) eqn:Hv; simpl.
    + assert (storable p) as Hp.
      { split; [done|]. unfold entry_bytes, encode_entry. by rewrite Hv. }
      destruct (N.ltb_spec capacity (phrase_size p)) as [Hbig|Hfits].
      * exists cells, w. unfold put. munfold. rewrite (proj2 Hp), (entry_bytes_length p Hsha Hp), (rep_capacity _ _ _ Hrep).
        rewrite (proj2 (N.ltb_lt _ _)) by done. simpl. split_and!; [done..|lia].
      * destruct (put_lru capacity cells w key p Hsha Hrep ltac:(lia) Huse Hp Hfits) as (cells' & w' & -> & He & Hr & Hn).
        exists cells', w'. split_and!; [done..|lia].
    + exists cells, w. unfold put, encode_entry. munfold. rewrite Hv. simpl. split_and!; [done..|lia].
  - destruct (open_lru capacity cells w Hcodec Hsha Hrep ltac:(lia)) as (d' & -> & Hr). exists cells, (mkWorld (wd_cache w) d').
    split_and!; [done..|simpl; lia].
Qed.

Lemma serve_all_lru reqs cells w :
  represents capacity cells w → (pi_next_use (pc_index (wd_cache w)) + N.of_nat (length reqs) < u64_max)%N → Forall request_typed reqs →
  ∃ cells' w', serve_all capacity reqs w = Some ((lru_serve_all capacity reqs (erase cells)).1, w') ∧
    erase cells' = (lru_serve_all capacity reqs (erase cells)).2 ∧ represents capacity cells' w'.
Proof.
  revert cells w. induction reqs as [|req reqs IH]; intros cells w Hrep Huse Hty; [by exists cells, w|].
  apply Forall_cons in Hty as [Hreq Hty]. cbn [length] in Huse.
  destruct (serve_lru req cells w Hrep ltac:(lia) Hreq) as (cells1 & w1 & Hs & He & Hrep1 & Hn). simpl. rewrite Hs. simpl.
  destruct (lru_serve capacity req (erase cells)) as [r l]. simpl in *. subst l.
  destruct (IH cells1 w1 Hrep1 ltac:(lia) Hty) as (cells2 & w2 & Hs2 & He2 & Hrep2). rewrite Hs2. simpl.
  destruct (lru_serve_all capacity reqs (erase cells1)) as [rs l]. simpl in *. by exists cells2, w2.
Qed.
End refinement.

(** C36: while nothing fails the phrase cache is a least-recently-used map that survives restarts.  From an empty directory,
    any reads, stores and restarts are answered as the abstract map answers them, which evicts the entries that were used
    least recently until the budget holds; and the directory then holds exactly the entries of that map, byte for byte. *)
Theorem phrase_cache_is_lru capacity reqs d :
  (∀ index, index_from_slice (index_to_vec index) = Some index) → digest_bytes →
  (0 < capacity < u64_max)%N → (N.of_nat (length reqs) < u64_max)%N → Forall request_typed reqs →
  dk_faults d = [] → dk_files d = ∅ →
  let '(replies, l) := lru_serve_all capacity reqs [] in
  ∃ c d1 w, with_capacity_bytes capacity d = (Ok c, d1) ∧ serve_all capacity reqs (mkWorld c d1) = Some (replies, w) ∧
    (lru_total l ≤ capacity)%N ∧
    ∀ x, dk_files (wd_disk w) !! entry_name x = RegularFile ∘ entry_bytes <$> lru_find x l.
Proof.
  intros Hcodec Hsha Hcap Hlen Hty Hcalm Hempty.
  destruct (open_fresh capacity d) as (c & d1 & Hopen & Hn & Hrep);
    [split; [done|]; intros name _; by rewrite Hempty|intros x; by rewrite Hempty|by rewrite Hempty|lia|].
  destruct (serve_all_lru capacity Hcap Hcodec Hsha reqs [] (mkWorld c d1) Hrep) as (cells & w & Hs & He & Hrep'); [simpl; lia|done|].
  simpl in Hs, He. destruct (lru_serve_all capacity reqs []) as [replies l]. simpl in Hs, He. subst l.
  exists c, d1, w. split_and!; [done|done|by apply rep_total in Hrep'|]. intros x. rewrite (rep_holds _ _ _ Hrep' x), find_cell_erase.
  by destruct (find_cell x cells).
Qed.
End lru.

(** ** Concrete caches *)

Module Samples.
(** A checksum of the right length, and an index text through the enumeration of its values. *)
#[local] Instance checksum : Sha256 := {| sha256 l := to_le 32 (foldr N.add 0%N l) |}.
Lemma checksum_bytes : digest_bytes.
Proof.
  intros l. change (sha256 l) with (to_le 32 (foldr N.add 0%N l)). split; [by rewrite to_le_length|]. generalize (foldr N.add 0%N l). generalize 32.
  intros w. induction w as [|w IH]; intros n; simpl; constructor; [apply N.mod_lt; lia|apply IH].
Qed.

Definition index_parts (i : PhraseIndex) : gmap string (N * N) * N := ((λ r, (pr_bytes r, pr_used_at r)) <$> pi_entries i, pi_next_use i).
Definition index_of_parts (p : gmap string (N * N) * N) : PhraseIndex := mkPhraseIndex ((λ r, mkPhraseRecord r.1 r.2) <$> p.1) p.2.
Lemma index_of_parts_of i : index_of_parts (index_parts i) = i.
Proof.
  destruct i as [entries n]. unfold index_of_parts, index_parts. simpl. f_equal. rewrite <- map_fmap_compose.
  apply map_eq. intros k. rewrite lookup_fmap. by destruct (entries !! k) as [[]|].
Qed.
#[local] Instance numbered : CacheHost := {|
  index_to_vec i := [Npos (encode (index_parts i))];
  index_from_slice l := match l with [Npos n] => index_of_parts <$> decode n | _ => None end;
  read_order files := (map_to_list files).*1;
|}.
Lemma numbered_codec i : index_from_slice (index_to_vec i) = Some i.
Proof. simpl. rewrite decode_encode. simpl. by rewrite index_of_parts_of. Qed.

Definition empty_disk : Disk := mkDisk ∅ [] [7%N; 8%N] 42 0.
Definition beep (n : nat) : CachedPhrase := mkCachedPhrase (replicate n (-1)%Z) 16000 1.
Definition key_a : PhraseKey := mkPhraseKey "aa".
Definition key_b : PhraseKey := mkPhraseKey "bb".
Definition key_c : PhraseKey := mkPhraseKey "cc".

(** Reading "aa" saves it from eviction, also after a restart. *)
Definition story : list Request :=
  [Store key_a (beep 2); Store key_b (beep 3); Read key_a; Restart; Store key_c (beep 4); Read key_b; Read key_a; Store key_a (beep 0)].

Lemma beep_typed n : n ≤ 100 → phrase_typed (beep n).
Proof.
  intros Hn. unfold phrase_typed, u32_max, u16_max, u64_max. simpl. rewrite length_replicate. split_and!; [|lia..].
  apply Forall_replicate. unfold is_i16. lia.
Qed.

Lemma phrase_cache_is_lru_witness :
  ∃ c d1 w, with_capacity_bytes 130 empty_disk = (Ok c, d1) ∧
    serve_all 130 story (mkWorld c d1) = Some
      ([Kept (Ok ()); Kept (Ok ()); Heard (Some (beep 2)); Restarted; Kept (Ok ()); Heard None; Heard (Some (beep 2));
        Kept (Err (Processing "phrase cache received an invalid PCM phrase"))], w) ∧
    dk_files (wd_disk w) !! "aa.pcm" = Some (RegularFile (entry_bytes (beep 2))).
Proof.
  pose proof (phrase_cache_is_lru 130 story empty_disk numbered_codec checksum_bytes) as Hw.
  assert (lru_serve_all 130 story [] =
    ([Kept (Ok ()); Kept (Ok ()); Heard (Some (beep 2)); Restarted; Kept (Ok ()); Heard None; Heard (Some (beep 2));
      Kept (Err (Processing "phrase cache received an invalid PCM phrase"))], [("cc", beep 4); ("aa", beep 2)])) as Heq
    by (vm_compute; reflexivity).
  rewrite Heq in Hw. destruct Hw as (c & d1 & w & Ho & Hs & _ & Hf); [done|done| |done|done|].
  { repeat constructor; simpl; try done; apply beep_typed; lia. }
  exists c, d1, w. split; [exact Ho|]. split; [exact Hs|]. exact (Hf "aa").
Defined.

(** The disk fails while the second phrase is stored. *)
Definition failing (d : Disk) : Disk :=
  mkDisk (dk_files d) [None; Some (mkFault "No space left on device" 9)] (dk_clock d) (dk_pid d) (dk_counter d).
Definition cache_of (r : outcome AudioError PhraseCache * Disk) : World :=
  match r with (Ok c, d) => mkWorld c d | (_, d) => mkWorld (mkPhraseCache 0 (mkPhraseIndex ∅ 0)) d end.
Definition world0 : World := Eval vm_compute in cache_of (with_capacity_bytes 130 empty_disk).
Definition world1 : World := Eval vm_compute in (put key_a (ph_samples (beep 2)) 16000 1 world0).2.
Definition world2 : World := Eval vm_compute in
  (put key_b (ph_samples (beep 3)) 16000 1 (mkWorld (wd_cache world1) (failing (wd_disk world1)))).2.

Lemma hits_were_stored_witness :
  life 130 [("aa", beep 2); ("bb", beep 3)] (Some (wd_cache world2)) (wd_disk world2) ∧
  (index_total (pc_index (wd_cache world2)) ≤ 130)%N ∧
  ∃ w, get_phrase key_a (mkWorld (wd_cache world2) (wd_disk world2)) = (Some (beep 2), w) ∧
    ("aa", beep 2) ∈ [("aa", beep 2); ("bb", beep 3)].
Proof.
  assert (life 130 [] (Some (wd_cache world0)) (wd_disk world0)) as H0.
  { apply (life_open 130 [] None empty_disk (Ok (wd_cache world0))); [apply life_start; done|vm_compute; reflexivity]. }
  assert (life 130 [("aa", beep 2)] (Some (wd_cache world1)) (wd_disk world1)) as H1.
  { apply (life_put 130 [] _ _ key_a (beep 2) (Ok ()) world1 H0); [apply beep_typed; lia|vm_compute; reflexivity]. }
  assert (life 130 [("aa", beep 2); ("bb", beep 3)] (Some (wd_cache world2)) (wd_disk world2)) as H2.
  { apply (life_put 130 [("aa", beep 2)] (wd_cache world1) (failing (wd_disk world1)) key_b (beep 3)
      (Err (Processing "No space left on device")) world2); [by apply life_environment|apply beep_typed; lia|vm_compute; reflexivity]. }
  split; [exact H2|]. destruct (hits_were_stored _ _ _ _ checksum_bytes H2) as [Hle Hhit]. split; [exact Hle|].
  assert (∃ w, get_phrase key_a (mkWorld (wd_cache world2) (wd_disk world2)) = (Some (beep 2), w)) as [w Hget]
    by (vm_compute; eexists; reflexivity).
  exists w. split; [exact Hget|]. exact (Hhit key_a (beep 2) w Hget).
Defined.

(** A question only reads the index, but the index is written for it: on a full disk it fails. *)
Example questions_write_the_index :
  (contains key_a world1).1 = Ok true ∧
  (contains key_a (mkWorld (wd_cache world1) (failing (wd_disk world1)))).1 = Err (Processing "No space left on device").
Proof. vm_compute. done. Qed.
End Samples.
