(* ===== verification/AudioPipeline.v ===== *)
(** * The audio pipeline

    Models [crates/audio/src/lib.rs]: the enrolled wake detector, the pre-roll buffer, the input
    gain, echo suppression, the privacy gate of a spoken turn, latency summaries, the hysteresis of
    the voice-activity classifier and adaptive endpointing.  A sample is an IEEE binary32 value and
    the arithmetic on it is that of the standard, so NaN and infinities are included. *)

From stdpp Require Import base list strings sorting.
From Stdlib Require Import SpecFloat.
From S2P Require Import Prelude PhraseCache.
From S2P Require Memory.
From S2P Require Dictation.

(** ** Samples *)

Definition sample : Type := spec_float.
Definition f32_add : sample → sample → sample := Memory.sf_add.
Definition f32_sub (a b : sample) : sample := SFsub 24 128 a b.
Definition f32_mul : sample → sample → sample := Memory.sf_mul.
Definition f32_div : sample → sample → sample := Memory.sf_div.
Definition f32_sqrt : sample → sample := Memory.sf_sqrt.
Definition f32_of_Z : Z → sample := Memory.sf_of_Z.
Definition f32_zero : sample := Memory.sf_zero.
Definition EPSILON : sample := Memory.sf_epsilon.
(** The literal [0.93]. *)
Definition wake_threshold : sample := f32_div (f32_of_Z 93) (f32_of_Z 100).

(** [is_sign_positive]: the sign bit; a NaN is taken to be positive. *)
Definition sign_positive (a : sample) : bool :=
  match a with S754_zero s | S754_infinity s | S754_finite s _ _ => negb s | S754_nan => true end.
(** [f32::max]: NaN yields the other. *)
Definition f32_max (a b : sample) : sample :=
  match a, b with
  | S754_nan, _ => b
  | _, S754_nan => a
  | _, _ => if SFltb a b then b else a
  end.
(** [f32::clamp]: NaN is kept. *)
Definition f32_clamp (lo hi a : sample) : sample :=
  let a := if SFltb a lo then lo else a in if SFltb hi a then hi else a.
(** [Iterator::sum] starts at negative zero. *)
Definition f32_sum (l : list sample) : sample := foldl f32_add (S754_zero true) l.

Record AudioFrame : Type := mkAudioFrame {
  af_samples : list sample;
  af_sample_rate_hz : N;
  af_channels : N;
  af_monotonic_time_ms : N;
}.
Global Instance AudioFrame_eta : Eta AudioFrame :=
  λ r, mkAudioFrame (af_samples r) (af_sample_rate_hz r) (af_channels r) (af_monotonic_time_ms r).

(** ** Features *)

(** The accumulators of the loop. *)
Record Features : Type := mkFeatures {
  fe_count : sample; fe_sum_sq : sample; fe_peak : sample; fe_crossings : sample; fe_prior : sample; fe_delta : sample;
}.
Definition feature_step (f : Features) (x : sample) : Features :=
  mkFeatures (f32_add (fe_count f) (f32_of_Z 1)) (f32_add (fe_sum_sq f) (f32_mul x x)) (f32_max (fe_peak f) (SFabs x))
    (if Bool.eqb (sign_positive x) (sign_positive (fe_prior f)) then fe_crossings f else f32_add (fe_crossings f) (f32_of_Z 1))
    x (f32_add (fe_delta f) (SFabs (f32_sub x (fe_prior f)))).
Definition acoustic_features (frames : list AudioFrame) : list sample :=
  match frames ≫= af_samples with
  | [] => [f32_zero; f32_zero; f32_zero; f32_zero]
  | first :: rest =>
    let f := foldl feature_step (mkFeatures (f32_of_Z 1) (f32_mul first first) (SFabs first) f32_zero first f32_zero) rest in
    [f32_sqrt (f32_div (fe_sum_sq f) (fe_count f)); fe_peak f; f32_div (fe_crossings f) (fe_count f); f32_div (fe_delta f) (fe_count f)]
  end.

Definition norm (l : list sample) : sample := f32_sqrt (f32_sum ((λ x, f32_mul x x) <$> l)).
Definition cosine_similarity (left right : list sample) : sample :=
  if negb (length left =? length right) || (length left =? 0) then f32_zero
  else
    let dot := f32_sum (zip_with f32_mul left right) in
    let left_norm := norm left in
    let right_norm := norm right in
    if SFleb left_norm EPSILON || SFleb right_norm EPSILON then f32_zero
    else f32_div dot (f32_mul left_norm right_norm).

Definition is_probable_self_echo (captured playback : list sample) (threshold : sample) : bool :=
  if negb (length captured =? length playback) || (length captured =? 0) then false
  else SFleb (f32_clamp f32_zero (f32_of_Z 1) threshold) (cosine_similarity captured playback).

(** ** The wake detector *)

Record WakeTemplate : Type := mkWakeTemplate { wt_phrase : string; wt_feature_vector : list sample; wt_threshold : sample }.

Definition enroll (phrase : string) (frames : list AudioFrame) : outcome AudioError WakeTemplate :=
  if is_blank phrase then Err (Processing "wake phrase cannot be blank")
  else
    let features := acoustic_features frames in
    if forallb (λ v, SFltb (SFabs v) EPSILON) features then Err (Processing "wake enrollment requires non-silent audio")
    else Ok (mkWakeTemplate phrase features wake_threshold).

Record EnrolledWakeDetector : Type := mkEnrolledWakeDetector {
  wk_templates : list WakeTemplate;
  wk_voting_window : list bool;
  wk_voting_window_size : nat;
  wk_votes_required : nat;
  wk_refractory_ms : N;
  wk_last_detection_ms : option N;
}.
Global Instance EnrolledWakeDetector_eta : Eta EnrolledWakeDetector :=
  λ r, mkEnrolledWakeDetector (wk_templates r) (wk_voting_window r) (wk_voting_window_size r) (wk_votes_required r)
    (wk_refractory_ms r) (wk_last_detection_ms r).

Definition detector_new (templates : list WakeTemplate) (voting_window_size votes_required : nat) (refractory_ms : N)
    : outcome AudioError EnrolledWakeDetector :=
  if (length templates =? 0) || (voting_window_size =? 0) || (votes_required =? 0) || (voting_window_size <? votes_required)
  then Err (Processing "invalid wake detector settings")
  else Ok (mkEnrolledWakeDetector templates [] voting_window_size votes_required refractory_ms None).

(** The first template that the capture matches. *)
Definition matched_phrase (templates : list WakeTemplate) (frames : list AudioFrame) : option string :=
  let features := acoustic_features frames in
  wt_phrase <$> find (λ t, SFleb (wt_threshold t) (cosine_similarity features (wt_feature_vector t))) templates.
Definition votes (window : list bool) : nat := length (filter (λ v, v = true) window).
Definition refractory (now_ms : N) (w : EnrolledWakeDetector) : bool :=
  match wk_last_detection_ms w with Some last => (sat_sub now_ms last <? wk_refractory_ms w)%N | None => false end.

Definition observe (frames : list AudioFrame) (now_ms : N) (w : EnrolledWakeDetector) : option string * EnrolledWakeDetector :=
  if refractory now_ms w then (None, w)
  else
    let matched := matched_phrase (wk_templates w) frames in
    let window := if length (wk_voting_window w) =? wk_voting_window_size w then tail (wk_voting_window w) else wk_voting_window w in
    let window := window ++ [bool_decide (is_Some matched)] in
    if wk_votes_required w <=? votes window
    then (matched, w <| wk_voting_window := [] |> <| wk_last_detection_ms := Some now_ms |>)
    else (None, w <| wk_voting_window := window |>).

(** ** The pre-roll buffer *)

Record PreRollBuffer : Type := mkPreRollBuffer { pre_frames : list AudioFrame; pre_maximum_ms : N }.
Global Instance PreRollBuffer_eta : Eta PreRollBuffer := λ r, mkPreRollBuffer (pre_frames r) (pre_maximum_ms r).

Definition pre_roll_new (maximum_ms : N) : PreRollBuffer := mkPreRollBuffer [] maximum_ms.
(** [while self.frames.front().is_some_and(..) { self.frames.pop_front(); }] *)
Fixpoint pop_old (latest maximum_ms : N) (frames : list AudioFrame) : list AudioFrame :=
  match frames with
  | item :: rest => if (maximum_ms <? sat_sub latest (af_monotonic_time_ms item))%N then pop_old latest maximum_ms rest else frames
  | [] => []
  end.
Definition pre_roll_push (frame : AudioFrame) (b : PreRollBuffer) : PreRollBuffer :=
  b <| pre_frames ::= λ frames, pop_old (af_monotonic_time_ms frame) (pre_maximum_ms b) (frames ++ [frame]) |>.
Definition snapshot (b : PreRollBuffer) : list AudioFrame := pre_frames b.

(** ** Input gain *)

Record CaptureDiagnostics : Type := mkCaptureDiagnostics {
  cd_peak : sample; cd_rms : sample; cd_clipped_samples : nat; cd_gain : sample;
}.
(** The accumulators of the closure. *)
Record GainState : Type := mkGainState {
  gs_samples : list sample; gs_count : sample; gs_sum_sq : sample; gs_peak : sample; gs_clipped : nat;
}.
Definition bounded_sample (gain x : sample) : sample := f32_clamp (f32_of_Z (-1)) (f32_of_Z 1) (f32_mul x gain).
Definition gain_step (gain : sample) (g : GainState) (x : sample) : GainState :=
  let amplified := f32_mul x gain in
  let bounded := bounded_sample gain x in
  mkGainState (gs_samples g ++ [bounded]) (f32_add (gs_count g) (f32_of_Z 1)) (f32_add (gs_sum_sq g) (f32_mul bounded bounded))
    (f32_max (gs_peak g) (SFabs bounded)) (gs_clipped g + if SFltb (f32_of_Z 1) (SFabs amplified) then 1 else 0).
Definition apply_input_gain (frame : AudioFrame) (gain : sample) : AudioFrame * CaptureDiagnostics :=
  let gain := f32_clamp f32_zero (f32_of_Z 8) gain in
  let g := foldl (gain_step gain) (mkGainState [] f32_zero f32_zero f32_zero 0) (af_samples frame) in
  let rms := if SFeqb (gs_count g) f32_zero then f32_zero else f32_sqrt (f32_div (gs_sum_sq g) (gs_count g)) in
  (frame <| af_samples := gs_samples g |>, mkCaptureDiagnostics (gs_peak g) rms (gs_clipped g) gain).

(** ** A spoken turn *)

Inductive NetworkPolicy : Type := NetworkDisabled | NetworkAvailable.
Record Transcript : Type := mkTranscript {
  tr_text : string; tr_final_result : bool; tr_confidence : option sample; tr_language : option string;
}.
Record OfflineTurn : Type := mkOfflineTurn {
  ot_wake_phrase : string;
  ot_transcript : Transcript;
  ot_response_text : string;
  ot_audio_frames : nat;
  ot_wake_to_listening_ms : N;
  ot_deterministic_command_ms : N;
}.

(** The adapters, over the world that they change, and the clock in milliseconds. *)
Record SpeechRecognizer (W : Type) : Type := mkSpeechRecognizer {
  sr_is_local : bool;
  sr_transcribe : list AudioFrame → option string → list string → M W AudioError Transcript;
}.
Record SpeechSynthesizer (W : Type) : Type := mkSpeechSynthesizer {
  ss_is_local : bool;
  ss_synthesize : string → string → M W AudioError (list AudioFrame);
  ss_stop : M W AudioError ();
}.
Arguments sr_is_local {W}. Arguments sr_transcribe {W}.
Arguments ss_is_local {W}. Arguments ss_synthesize {W}. Arguments ss_stop {W}.

Section turn.
Context {W : Type} (now : W → N).

Record VoicePipeline : Type := mkVoicePipeline {
  vp_recognizer : SpeechRecognizer W;
  vp_synthesizer : SpeechSynthesizer W;
  vp_network : NetworkPolicy;
}.

Definition enforce_privacy (p : VoicePipeline) : outcome AudioError () :=
  match vp_network p with
  | NetworkDisabled =>
    if negb (sr_is_local (vp_recognizer p)) || negb (ss_is_local (vp_synthesizer p)) then Err HostedAdapterOffline else Ok ()
  | NetworkAvailable => Ok ()
  end.
Definition duration_ms (ms : N) : N := N.min ms u64_max.

Definition run_turn (p : VoicePipeline) (wake_phrase : string) (frames : list AudioFrame) (language : option string)
    (vocabulary : list string) (respond : Transcript → string) : M W AudioError OfflineTurn :=
  _ ← lift (enforce_privacy p);
  _ ← reject_if (length frames =? 0) NoSpeech;
  started ← get;
  transcript ← sr_transcribe (vp_recognizer p) frames language vocabulary;
  let response_text := respond transcript in
  recognized ← get;
  let recognition_ms := duration_ms (now recognized - now started) in
  rendered ← ss_synthesize (vp_synthesizer p) response_text "default";
  mret (mkOfflineTurn wake_phrase transcript response_text (length rendered) 0 recognition_ms).
(** The cancellation latency. *)
Definition barge_in (p : VoicePipeline) : M W AudioError N :=
  started ← get;
  _ ← ss_stop (vp_synthesizer p);
  stopped ← get;
  mret (now stopped - now started)%N.
End turn.

(** ** Latency, voice activity and endpointing *)

Record LatencySummary : Type := mkLatencySummary {
  ls_p50_microseconds : N; ls_p95_microseconds : N; ls_maximum_microseconds : N; ls_sample_count : nat;
}.
(** A duration in microseconds; [Panic] where indexing panics. *)
Definition summarize_latencies (samples : list N) : outcome AudioError LatencySummary :=
  match samples with
  | [] => Err (Processing "latency sample cannot be empty")
  | _ =>
    let micros := merge_sort N.le (N.min u64_max <$> samples) in
    match Dictation.percentile micros 50, Dictation.percentile micros 95 with
    | Some p50, Some p95 => Ok (mkLatencySummary p50 p95 (default u64_max (last micros)) (length micros))
    | _, _ => Panic
    end
  end.

Record VadHysteresis : Type := mkVadHysteresis { vad_start_threshold : sample; vad_stop_threshold : sample; vad_speaking : bool }.
Global Instance VadHysteresis_eta : Eta VadHysteresis :=
  λ r, mkVadHysteresis (vad_start_threshold r) (vad_stop_threshold r) (vad_speaking r).
(** [(0.0..=1.0).contains(&x)] *)
Definition unit_interval (x : sample) : bool := SFleb f32_zero x && SFleb x (f32_of_Z 1).
Definition vad_new (start_threshold stop_threshold : sample) : outcome AudioError VadHysteresis :=
  if negb (unit_interval stop_threshold) || negb (unit_interval start_threshold) || SFleb start_threshold stop_threshold
  then Err (Processing "VAD stop threshold must be lower than start threshold")
  else Ok (mkVadHysteresis start_threshold stop_threshold false).
Definition vad_observe (probability : sample) (v : VadHysteresis) : bool * VadHysteresis :=
  let speaking :=
    if vad_speaking v then SFltb (vad_stop_threshold v) probability else SFleb (vad_start_threshold v) probability in
  (speaking, v <| vad_speaking := speaking |>).

(** [None] where the multiplication or the addition overflows. *)
Definition endpoint_silence_ms (spoken_ms short_ms long_ms long_utterance_ms : N) : option N :=
  if (long_utterance_ms =? 0)%N || (long_utterance_ms <=? spoken_ms)%N then Some (N.max long_ms short_ms)
  else
    let product := (sat_sub long_ms short_ms * spoken_ms)%N in
    if (u64_max <? product)%N then None
    else let sum := (short_ms + product / long_utterance_ms)%N in if (u64_max <? sum)%N then None else Some sum.
