(* ===== verification/AudioPipelineSpec.v ===== *)
(** * The audio pipeline: theorems

    A wake phrase is reported exactly when enough of the last captures matched; the pre-roll buffer
    keeps exactly the recent frames; amplified samples stay in range; no hosted adapter is called
    while the network is disabled; the classifier changes only past its thresholds; the silence that
    ends a turn is bounded and grows with the utterance. *)

From stdpp Require Import base list strings sorting.
From Stdlib Require Import SpecFloat.
From S2P Require Import Prelude PhraseCache AudioPipeline.
From S2P Require Dictation.
From S2P Require DictationSpec.

(** ** Comparison of samples *)

Lemma SFcompare_antisym a b : SFcompare b a = CompOpp <$> SFcompare a b.
Proof.
  destruct a as [[]|[]| |[] m e], b as [[]|[]| |[] m' e']; simpl; try done;
    rewrite (Z.compare_antisym e e'); destruct (e ?= e')%Z; simpl; try done;
    by rewrite Pos.compare_antisym, ?CompOpp_involutive.
Qed.
Lemma SFltb_leb_false a b : SFltb a b = true → SFleb b a = false.
Proof. unfold SFltb, SFleb. rewrite (SFcompare_antisym a b). destruct (SFcompare a b) as [[]|]; done. Qed.
Lemma SFltb_false a b : SFltb a b = false → SFleb b a = true ∨ SFcompare a b = None.
Proof. unfold SFltb, SFleb. rewrite (SFcompare_antisym a b). destruct (SFcompare a b) as [[]|]; auto. Qed.
Lemma SFcompare_None a b : SFcompare a b = None → a = S754_nan ∨ b = S754_nan.
Proof.
  destruct a as [[]|[]| |[] m e], b as [[]|[]| |[] m' e']; simpl; try done; auto; destruct (e ?= e')%Z; done.
Qed.

(** ** The wake detector *)

(** The last [n] elements. *)
Definition last_n {A} (n : nat) (l : list A) : list A := drop (length l - n) l.

Lemma last_n_short {A} n (l : list A) : length l ≤ n → last_n n l = l.
Proof. intros. unfold last_n. by replace (length l - n) with 0 by lia. Qed.
Lemma last_n_length {A} n (l : list A) : length (last_n n l) = length l `min` n.
Proof. unfold last_n. rewrite length_drop. lia. Qed.
(** Adding an element to a window that is full drops its first. *)
Lemma last_n_snoc {A} n (l : list A) x :
  0 < n →
  last_n n (l ++ [x]) = (if length (last_n n l) =? n then tail (last_n n l) else last_n n l) ++ [x].
Proof.
  intros Hn. rewrite last_n_length. unfold last_n. rewrite length_app. simpl.
  destruct (Nat.eqb_spec (length l `min` n) n) as [Hfull|Hfree].
  - rewrite drop_app_le by lia. f_equal. replace (length l + 1 - n) with (length l - n + 1) by lia.
    rewrite <- drop_drop. by destruct (drop (length l - n) l).
  - replace (length l + 1 - n) with 0 by lia. replace (length l - n) with 0 by lia. done.
Qed.

(** A detector and the votes since it was made or last reported. *)
Definition seen_after (frames : list AudioFrame) (now_ms : N) (w : EnrolledWakeDetector) (seen : list bool) : list bool :=
  if refractory now_ms w then seen
  else
    let seen := seen ++ [bool_decide (is_Some (matched_phrase (wk_templates w) frames))] in
    if wk_votes_required w <=? votes (last_n (wk_voting_window_size w) seen) then [] else seen.
Inductive wake_run : list bool → EnrolledWakeDetector → Prop :=
  | wake_start templates size required refractory_ms w :
      detector_new templates size required refractory_ms = Ok w → wake_run [] w
  | wake_step seen w frames now_ms :
      wake_run seen w → wake_run (seen_after frames now_ms w seen) (observe frames now_ms w).2.

Definition detector_ok (seen : list bool) (w : EnrolledWakeDetector) : Prop :=
  wk_voting_window w = last_n (wk_voting_window_size w) seen ∧
  0 < wk_votes_required w ≤ wk_voting_window_size w ∧
  votes (wk_voting_window w) < wk_votes_required w.

Lemma votes_app l1 l2 : votes (l1 ++ l2) = votes l1 + votes l2.
Proof. unfold votes. by rewrite filter_app, length_app. Qed.
Lemma votes_tail l : votes (tail l) ≤ votes l.
Proof. destruct l as [|v l]; simpl; [done|]. unfold votes. rewrite filter_cons. case_decide; simpl; lia. Qed.

Lemma observe_ok frames now_ms seen w :
  detector_ok seen w →
  detector_ok (seen_after frames now_ms w seen) (observe frames now_ms w).2 ∧
  (observe frames now_ms w).1 =
    if refractory now_ms w then None
    else if wk_votes_required w <=?
              votes (last_n (wk_voting_window_size w) (seen ++ [bool_decide (is_Some (matched_phrase (wk_templates w) frames))]))
         then matched_phrase (wk_templates w) frames else None.
Proof.
  intros (Hw & Hreq & Hv). unfold observe, seen_after. destruct (refractory now_ms w); [done|].
  rewrite Hw, <- last_n_snoc by lia. destruct (Nat.leb_spec (wk_votes_required w)
    (votes (last_n (wk_voting_window_size w) (seen ++ [bool_decide (is_Some (matched_phrase (wk_templates w) frames))])))) as [Hle|Hgt].
  - split; [|done]. unfold detector_ok. simpl. split_and!; [done|lia..|unfold votes; simpl; lia].
  - split; [|done]. unfold detector_ok. simpl. split_and!; [done|lia..].
Qed.
Lemma wake_run_ok seen w : wake_run seen w → detector_ok seen w.
Proof.
  induction 1 as [templates size required refractory_ms w Hnew|seen w frames now_ms _ IH]; [|by apply observe_ok].
  unfold detector_new in Hnew. destruct (_ || _) eqn:Hbad; [done|]. injection Hnew as <-.
  rewrite !orb_false_iff, !Nat.eqb_neq, Nat.ltb_ge in Hbad. unfold detector_ok, votes. simpl. unfold last_n. simpl. split_and!; [done|lia..].
Qed.

(** A wake phrase is reported exactly when the vote carries.  Outside the refractory interval a capture is reported
    exactly when enough of the last captures, itself included, matched an enrolled template, counting from the last
    report; the phrase reported is the one that this capture matched, and reports are at least the refractory interval
    apart. *)
Theorem wake_reports_are_voted seen w frames now_ms r w' :
  wake_run seen w → observe frames now_ms w = (r, w') →
  let votes_now := votes (last_n (wk_voting_window_size w) (seen ++ [bool_decide (is_Some (matched_phrase (wk_templates w) frames))])) in
  (is_Some r ↔ refractory now_ms w = false ∧ wk_votes_required w ≤ votes_now) ∧
  (∀ phrase, r = Some phrase → matched_phrase (wk_templates w) frames = Some phrase ∧ wk_last_detection_ms w' = Some now_ms ∧
     wk_voting_window w' = []) ∧
  (∀ last, wk_last_detection_ms w = Some last → is_Some r → (wk_refractory_ms w ≤ now_ms - last)%N) ∧
  (r = None → wk_last_detection_ms w' = wk_last_detection_ms w).
Proof.
  intros Hok%wake_run_ok Hobs. pose proof (observe_ok frames now_ms seen w Hok) as [_ Hr]. rewrite Hobs in Hr. simpl in Hr.
  destruct Hok as (Hwin & Hreq & Hv). simpl.
  unfold observe in Hobs. rewrite Hwin, <- last_n_snoc in Hobs by lia. unfold refractory in *.
  set (m := matched_phrase (wk_templates w) frames) in *. set (now := last_n _ (seen ++ _)) in *.
  assert (wk_votes_required w ≤ votes now → is_Some m) as Hcur.
  { unfold now. rewrite last_n_snoc, votes_app by lia. rewrite <- Hwin in *. intros Hle. case_bool_decide as Hm; [done|].
    assert (votes [false] = 0) as Hz by done. rewrite Hz in Hle.
    destruct (length (wk_voting_window w) =? _); [pose proof (votes_tail (wk_voting_window w))|]; lia. }
  destruct (match wk_last_detection_ms w with Some _ => _ | None => _ end) eqn:Href.
  - subst r. injection Hobs as <-. split_and!; [split; [by intros []|by intros [? _]]|done|by intros last _ []|done].
  - destruct (Nat.leb_spec (wk_votes_required w) (votes now)) as [Hle|Hgt].
    + destruct (Hcur Hle) as [phrase Hphrase]. rewrite Hphrase in *. subst r. injection Hobs as <-. simpl. split_and!; [by split|naive_solver| |done].
      intros last Hlast _. rewrite Hlast in Href. apply N.ltb_ge in Href. unfold sat_sub in Href. done.
    + subst r. injection Hobs as <-. split_and!; [split; [by intros []|intros [_ ?]; lia]|done|by intros last _ []|done].
Qed.

(** ** The pre-roll buffer *)

Definition recent (latest maximum_ms : N) (f : AudioFrame) : Prop := (latest - af_monotonic_time_ms f ≤ maximum_ms)%N.
Global Instance recent_dec latest maximum_ms f : Decision (recent latest maximum_ms f).
Proof. unfold recent. apply _. Defined.
Definition in_order : list AudioFrame → Prop := StronglySorted (λ a b, af_monotonic_time_ms a ≤ af_monotonic_time_ms b)%N.

Lemma pop_old_filter latest maximum_ms frames :
  in_order frames → pop_old latest maximum_ms frames = filter (recent latest maximum_ms) frames.
Proof.
  induction 1 as [|f frames Hs IH Hle]; [done|]. cbn [pop_old]. unfold sat_sub. rewrite filter_cons.
  destruct (N.ltb_spec maximum_ms (latest - af_monotonic_time_ms f)) as [Hold|Hnew].
  - rewrite decide_False by (unfold recent; lia). done.
  - rewrite decide_True by done. f_equal. symmetry. apply list_filter_all. intros g Hg.
    rewrite Forall_forall in Hle. specialize (Hle _ Hg). unfold recent. simpl in Hle. lia.
Qed.

(** After frames in the order of time the buffer holds exactly those that are not older than the maximum, in order. *)
Theorem pre_roll_keeps_the_window maximum_ms frames f :
  in_order (frames ++ [f]) →
  snapshot (foldl (λ b f, pre_roll_push f b) (pre_roll_new maximum_ms) (frames ++ [f])) =
    filter (recent (af_monotonic_time_ms f) maximum_ms) (frames ++ [f]).
Proof.
  assert (∀ frames, pre_maximum_ms (foldl (λ b f, pre_roll_push f b) (pre_roll_new maximum_ms) frames) = maximum_ms) as Hmax.
  { intros l. induction l as [|g l IH] using rev_ind; [done|]. by rewrite foldl_app. }
  revert f. induction frames as [|g frames IH] using rev_ind; intros f Hord.
  - simpl. unfold sat_sub. rewrite filter_cons.
    destruct (N.ltb_spec maximum_ms (af_monotonic_time_ms f - af_monotonic_time_ms f)); [lia|by rewrite decide_True].
  - rewrite foldl_app. simpl. unfold snapshot. simpl. rewrite Hmax. unfold snapshot in IH.
    unfold in_order in Hord. apply StronglySorted_app in Hord as (Hcross & Hord & _). rewrite IH by done.
    rewrite pop_old_filter.
    + rewrite (filter_app _ (filter _ (frames ++ [g])) [f]), (filter_app _ (frames ++ [g]) [f]), list_filter_filter. f_equal. apply list_filter_iff'. intros h Hh. split; [tauto|]. intros Hr. split; [done|].
      assert (af_monotonic_time_ms g ≤ af_monotonic_time_ms f)%N by (apply Hcross; [apply elem_of_app; right|]; by left). unfold recent in *. lia.
    + apply StronglySorted_app. split_and!; [|by apply StronglySorted_filter|by repeat constructor].
      intros x y [_ Hx]%list_elem_of_filter Hy. by apply Hcross.
Qed.

(** ** Input gain *)

(** Not a number, or between two bounds. *)
Definition within_bounds (lo hi x : sample) : Prop := x = S754_nan ∨ SFleb lo x = true ∧ SFleb x hi = true.

Lemma clamp_bounds lo hi x : SFleb lo hi = true → SFleb lo lo = true → SFleb hi hi = true → within_bounds lo hi (f32_clamp lo hi x).
Proof.
  intros Hlohi Hlo Hhi. unfold f32_clamp, within_bounds.
  assert (lo ≠ S754_nan ∧ hi ≠ S754_nan) as [Hnlo Hnhi] by (split; intros ->; done).
  destruct (SFltb x lo) eqn:H1.
  - destruct (SFltb hi lo) eqn:H2; [|by right]. apply SFltb_leb_false in H2. congruence.
  - destruct (SFltb hi x) eqn:H2; [by right|].
    destruct (SFltb_false _ _ H1) as [|[|]%SFcompare_None]; [|by left|done].
    destruct (SFltb_false _ _ H2) as [|[|]%SFcompare_None]; [by right|done|by left].
Qed.

(** Amplified samples are in range, one for each sample of the frame, and exactly those above the range count as clipped. *)
Theorem amplified_samples_stay_in_range frame gain :
  let '(out, diagnostics) := apply_input_gain frame gain in
  af_samples out = bounded_sample (cd_gain diagnostics) <$> af_samples frame ∧
  Forall (within_bounds (f32_of_Z (-1)) (f32_of_Z 1)) (af_samples out) ∧
  within_bounds f32_zero (f32_of_Z 8) (cd_gain diagnostics) ∧
  cd_clipped_samples diagnostics =
    length (filter (λ x, SFltb (f32_of_Z 1) (SFabs (f32_mul x (cd_gain diagnostics))) = true) (af_samples frame)).
Proof.
  unfold apply_input_gain. cbv zeta iota. set (g := f32_clamp f32_zero (f32_of_Z 8) gain).
  assert (∀ l st, gs_samples (foldl (gain_step g) st l) = gs_samples st ++ (bounded_sample g <$> l) ∧
    gs_clipped (foldl (gain_step g) st l) = gs_clipped st + length (filter (λ x, SFltb (f32_of_Z 1) (SFabs (f32_mul x g)) = true) l)) as Hfold.
  { induction l as [|x l IH]; intros st; [simpl; split; [by rewrite app_nil_r|lia]|]. cbn [foldl]. destruct (IH (gain_step g st x)) as [-> ->].
    rewrite filter_cons. unfold gain_step. cbn [gs_samples gs_clipped]. rewrite <- (assoc_L app). split; [done|].
    destruct (SFltb (f32_of_Z 1) (SFabs (f32_mul x g))); simpl; lia. }
  destruct (Hfold (af_samples frame) (mkGainState [] f32_zero f32_zero f32_zero 0)) as [Hs Hc].
  split_and!; [exact Hs| | |exact Hc].
  - change (Forall (within_bounds (f32_of_Z (-1)) (f32_of_Z 1)) (gs_samples (foldl (gain_step g) (mkGainState [] f32_zero f32_zero f32_zero 0) (af_samples frame)))).
    rewrite Hs. apply Forall_fmap, Forall_true. intros x. by apply clamp_bounds.
  - by apply clamp_bounds.
Qed.

(** ** A spoken turn *)

(** While the network is disabled a turn runs only with local adapters, and otherwise nothing is called; a turn without
    audio calls nothing either. *)
Theorem hosted_adapters_stay_offline {W} (now : W → N) p wake_phrase frames language vocabulary respond w r w' :
  run_turn now p wake_phrase frames language vocabulary respond w = (r, w') →
  (vp_network p = NetworkDisabled → sr_is_local (vp_recognizer p) && ss_is_local (vp_synthesizer p) = false →
     r = Err HostedAdapterOffline ∧ w' = w) ∧
  (frames = [] → r ≠ Err HostedAdapterOffline → r = Err NoSpeech ∧ w' = w) ∧
  (∀ turn, r = Ok turn → ∃ w1 audio,
     sr_transcribe (vp_recognizer p) frames language vocabulary w = (Ok (ot_transcript turn), w1) ∧
     ot_response_text turn = respond (ot_transcript turn) ∧
     ss_synthesize (vp_synthesizer p) (ot_response_text turn) "default" w1 = (Ok audio, w') ∧
     ot_audio_frames turn = length audio).
Proof.
  unfold run_turn, enforce_privacy. munfold. destruct (vp_network p); [destruct (negb _ || negb _) eqn:Hlocal|].
  - intros [= <- <-]. split_and!; [done|done|done].
  - rewrite orb_false_iff, !negb_false_iff in Hlocal. destruct Hlocal as [Hl1 Hl2]. destruct frames as [|f frames]; simpl.
    { intros [= <- <-]. split_and!; [|done|done]. by rewrite Hl1, Hl2. }
    destruct (sr_transcribe _ _ _ _ w) as [[t|e|] w1]; [destruct (ss_synthesize _ _ _ w1) as [[a|e|] w2] eqn:Hs|..];
      intros [= <- <-]; (split_and!; [by rewrite Hl1, Hl2|done|]); intros turn Ht; simplify_eq. eauto 10.
  - destruct frames as [|f frames]; simpl; [by intros [= <- <-]|].
    destruct (sr_transcribe _ _ _ _ w) as [[t|e|] w1]; [destruct (ss_synthesize _ _ _ w1) as [[a|e|] w2] eqn:Hs|..];
      intros [= <- <-]; (split_and!; [done|done|]); intros turn Ht; simplify_eq. eauto 10.
Qed.

(** ** Voice activity, endpointing and latency *)

(** Between its thresholds the classifier keeps its state; it starts only at the upper and stops only at the lower one. *)
Theorem voice_activity_has_hysteresis start stop v p :
  vad_new start stop = Ok v → ∀ speaking,
  let v := v <| vad_speaking := speaking |> in
  (SFltb stop p = true → SFltb p start = true → vad_observe p v = (speaking, v)) ∧
  (speaking = false → (vad_observe p v).1 = SFleb start p) ∧
  (speaking = true → (vad_observe p v).1 = SFltb stop p).
Proof.
  unfold vad_new. destruct (_ || _) eqn:Hbad; [done|]. intros [= <-] speaking.
  rewrite !orb_false_iff in Hbad. destruct Hbad as [_ Horder]. unfold vad_observe, update. simpl. split_and!.
  - intros H1 H2. destruct speaking; [by rewrite H1|]. by rewrite (SFltb_leb_false _ _ H2).
  - by intros ->.
  - by intros ->.
Qed.

(** With milliseconds whose products fit in 64 bits, the silence that ends a turn lies between the short and the long
    setting and grows with the utterance. *)
Theorem endpoint_silence_is_bounded spoken spoken' short long long_utterance :
  (spoken ≤ spoken')%N → (N.max long short ≤ u64_max)%N → (sat_sub long short * long_utterance ≤ u64_max)%N →
  ∃ s s', endpoint_silence_ms spoken short long long_utterance = Some s ∧
    endpoint_silence_ms spoken' short long long_utterance = Some s' ∧ (short ≤ s ≤ s')%N ∧ (s' ≤ N.max long short)%N.
Proof.
  intros Hle Hmax Hprod. unfold sat_sub in *.
  assert (∀ t, (t < long_utterance)%N → ((long - short) * t ≤ u64_max)%N ∧ ((long - short) * t / long_utterance ≤ long - short)%N) as Hfit.
  { intros t Ht. split; [nia|]. apply N.Div0.div_le_upper_bound. nia. }
  unfold endpoint_silence_ms, sat_sub. destruct (N.eqb_spec long_utterance 0) as [->|Hne]; simpl; [eexists _, _; split_and!; [done..|lia|lia|lia]|].
  destruct (N.leb_spec long_utterance spoken) as [H1|H1]; destruct (N.leb_spec long_utterance spoken') as [H2|H2]; try lia.
  - eexists _, _; split_and!; [done..|lia|lia|lia].
  - destruct (Hfit spoken H1) as [Hp Hq]. revert Hq. generalize ((long - short) * spoken / long_utterance)%N. intros q Hq.
    rewrite !(proj2 (N.ltb_ge _ _)) by lia. eexists _, _; split_and!; [done..|lia|lia|lia].
  - destruct (Hfit spoken H1) as [Hp Hq], (Hfit spoken' H2) as [Hp' Hq'].
    assert ((long - short) * spoken / long_utterance ≤ (long - short) * spoken' / long_utterance)%N as Hmono by (apply N.Div0.div_le_mono; nia).
    revert Hq Hq' Hmono. generalize ((long - short) * spoken / long_utterance)%N. generalize ((long - short) * spoken' / long_utterance)%N. intros q' q Hq Hq' Hmono.
    rewrite !(proj2 (N.ltb_ge _ _)) by lia. eexists _, _; split_and!; [done..|lia|lia|lia].
Qed.
Example endpoint_silence_can_overflow : endpoint_silence_ms 4 0 (2 ^ 62) 5 = None.
Proof. done. Qed.

(** A summary never panics and is that of the dictation report. *)
Theorem latency_summaries_are_total samples :
  samples ≠ [] →
  ∃ d, Dictation.distribution (N.min u64_max <$> samples) = Some d ∧
    summarize_latencies samples = Ok (mkLatencySummary (Dictation.ld_p50_ms d) (Dictation.ld_p95_ms d)
      (Dictation.ld_maximum_ms d) (Dictation.ld_sample_count d)) ∧
    Dictation.ld_sample_count d = length samples.
Proof.
  intros Hne. destruct (DictationSpec.distribution_total (N.min u64_max <$> samples)) as (d & Hd & Hcount & _). exists d.
  split; [done|]. rewrite length_fmap in Hcount. split; [|done]. revert Hd. destruct samples as [|s samples]; [done|].
  unfold summarize_latencies, Dictation.distribution. remember (N.min u64_max <$> s :: samples) as l eqn:Hl.
  destruct l as [|y l']; [done|]. set (l := y :: l').
  assert (∃ m, last (merge_sort N.le l) = Some m) as [m Hm].
  { apply last_is_Some. intros Hnil. pose proof (merge_sort_Permutation N.le l) as Hp. rewrite Hnil in Hp. by apply Permutation_nil in Hp. }
  rewrite Hm.
  destruct (Dictation.percentile _ 50); simpl; [|done]. destruct (Dictation.percentile _ 95); simpl; [|done]. intros [= <-]. done.
Qed.

(** ** Concrete captures *)

Definition beep : AudioFrame := mkAudioFrame (replicate 4 (f32_of_Z 1)) 16000 1 0.
Definition template : WakeTemplate := Eval vm_compute in
  match enroll "computer" [beep] with Ok t => t | _ => mkWakeTemplate "" [] f32_zero end.
Definition detector : EnrolledWakeDetector := mkEnrolledWakeDetector [template] [] 3 2 1000 None.

Lemma wake_reports_are_voted_witness :
  enroll "computer" [beep] = Ok template ∧
  ∃ w', observe [beep] 20 (observe [] 10 (observe [beep] 0 detector).2).2 = (Some "computer", w') ∧
    matched_phrase [template] [beep] = Some "computer" ∧ wk_last_detection_ms w' = Some 20%N ∧ wk_voting_window w' = [].
Proof.
  split; [vm_compute; reflexivity|].
  assert (wake_run [true; false] (observe [] 10 (observe [beep] 0 detector).2).2) as Hrun.
  { change [true; false] with (seen_after [] 10 (observe [beep] 0 detector).2 [true]). apply wake_step.
    change [true] with (seen_after [beep] 0 detector []). apply wake_step. by apply (wake_start [template] 3 2 1000). }
  assert ((observe [beep] 20 (observe [] 10 (observe [beep] 0 detector).2).2).1 = Some "computer") as Hr by (vm_compute; reflexivity).
  destruct (observe [beep] 20 _) as [r w'] eqn:Hobs. cbn [fst] in Hr. subst r.
  destruct (wake_reports_are_voted _ _ _ _ _ _ Hrun Hobs) as (_ & Hphrase & _).
  exists w'. split; [done|]. exact (Hphrase "computer" eq_refl).
Defined.
