(* ===== verification/LocalExecution.v ===== *)
(** * Local execution

    Models [crates/local-execution/src/lib.rs]: the policy for local processes and containers, the
    executor with its bounded output and timeout, and the Docker command line.  The file system, the
    environment and the processes are an interface over the world that they change. *)

From stdpp Require Import base gmap strings list sorting.
From Stdlib Require Import Ascii.
From S2P Require Import Prelude Text RuntimeGuard.

(** ** Requests and policy *)

Inductive ProcessMode : Type := Captured | InteractivePty.
Global Instance ProcessMode_eq_dec : EqDecision ProcessMode.
Proof. solve_decision. Defined.
Inductive CapabilityLevel : Type := Supported | Degraded | Unavailable.

Record CommandSpec : Type := mkCommandSpec {
  cs_program : string;
  cs_args : list string;
  cs_cwd : string;
  cs_environment : gmap string string;
  cs_mode : ProcessMode;
  cs_timeout_ms : N;
  cs_max_output_bytes : nat;
  cs_network_requested : bool;
}.
Record ExecutionPolicy : Type := mkExecutionPolicy {
  ep_workspace_roots : list string;
  ep_allowed_programs : gset string;
  ep_allowed_environment : gset string;
  ep_allow_network : bool;
  ep_allow_interactive_shell : bool;
  ep_allow_docker : bool;
  ep_require_approval_for_destructive : bool;
}.

Inductive ExecutionError : Type :=
  | ProgramDenied (program : string)
  | EnvironmentDenied (key : string)
  | OutsideWorkspace (path : Path)
  | NetworkDenied
  | InteractiveDenied
  | ApprovalRequired
  | DockerDenied
  | ExecInvalid (detail : string)
  | ProcessFailed (detail : string).

Record ExecutionResult : Type := mkExecutionResult {
  er_operation_id : Uuid;
  er_started_at : DateTime;
  er_finished_at : DateTime;
  er_exit_code : option Z;
  er_stdout : string;
  er_stderr : string;
  er_truncated : bool;
  er_timed_out : bool;
  er_pty : CapabilityLevel;
}.

(** [Path::new(program).file_name()] *)
Definition file_name (program : string) : option string :=
  match last (components program) with
  | Some ".." | None => None
  | Some name => Some name
  end.
Definition one_of (s : string) (l : list string) : bool := existsb (λ t, bool_decide (s = t)) l.
Definition first_arg_in (l : list string) (spec : CommandSpec) : bool :=
  match cs_args spec with arg :: _ => one_of arg l | [] => false end.
Definition is_destructive (spec : CommandSpec) : bool :=
  let program := to_ascii_lowercase (default (cs_program spec) (file_name (cs_program spec))) in
  one_of program ["rm"; "rmdir"; "del"; "erase"; "format"; "mkfs"; "shutdown"; "reboot"]
  || (bool_decide (program = "git") && first_arg_in ["reset"; "clean"] spec)
  || (bool_decide (program = "docker") && first_arg_in ["system"; "volume"; "rm"] spec).

(** ** The host *)

(** What is started. *)
Record CommandLine : Type := mkCommandLine {
  cl_program : string;
  cl_args : list string;
  cl_current_dir : Path;
  cl_environment : gmap string string;
}.
(** What a started process does: the reads of its output pipes, an error or some bytes each, and how it ends.  Reads that
    return nothing end the stream, so they are left out. *)
Inductive WaitResult : Type := Exited (status : string + option Z) | TimedOut (kill : option string).
Record ProcessRun : Type := mkProcessRun {
  pr_stdout : list (string + list ascii);
  pr_stderr : list (string + list ascii);
  pr_wait : N → WaitResult;
}.
Class ProcessHost (W : Type) : Type := {
  fs_canonicalize : W → string → string + Path;
  env_var : W → string → option string;
  spawn : CommandLine → W → (string + ProcessRun) * W;
  from_utf8_lossy : list ascii → string;
}.

Section execution.
Context {W : Type} `{!ProcessHost W, !Host W}.

(** [root.canonicalize().is_ok_and(|root| path.starts_with(root))] for some root *)
Definition in_workspace (w : W) (roots : list string) (path : Path) : bool :=
  existsb (λ root, match fs_canonicalize w root with inr root => path_starts_with path root | inl _ => false end) roots.

(** [keys().find(..)], in the order of the keys. *)
Definition denied_variable (policy : ExecutionPolicy) (environment : gmap string string) : option string :=
  find (λ key, negb (bool_decide (key ∈ ep_allowed_environment policy))) (merge_sort String.le (elements (dom environment))).

Definition validate (policy : ExecutionPolicy) (spec : CommandSpec) (approved : bool) : M W ExecutionError Path :=
  _ ← reject_if (is_blank (cs_program spec)) (ExecInvalid "program cannot be blank");
  _ ← reject_if (negb (bool_decide (ep_allowed_programs policy = ∅)) && negb (bool_decide (cs_program spec ∈ ep_allowed_programs policy)))
        (ProgramDenied (cs_program spec));
  _ ← reject_if (bool_decide (cs_mode spec = InteractivePty) && negb (ep_allow_interactive_shell policy)) InteractiveDenied;
  _ ← reject_if (cs_network_requested spec && negb (ep_allow_network policy)) NetworkDenied;
  _ ← match denied_variable policy (cs_environment spec) with Some key => throw (EnvironmentDenied key) | None => mret () end;
  w ← get;
  match fs_canonicalize w (cs_cwd spec) with
  | inl error => throw (ExecInvalid ("invalid cwd: " +:+ error))
  | inr cwd =>
    _ ← reject_if (negb (in_workspace w (ep_workspace_roots policy) cwd)) (OutsideWorkspace cwd);
    _ ← reject_if (ep_require_approval_for_destructive policy && is_destructive spec && negb approved) ApprovalRequired;
    mret cwd
  end.

(** ** Running *)

(** The loop of [read_bounded]. *)
Fixpoint read_chunks (limit : nat) (output : list ascii) (truncated : bool) (chunks : list (string + list ascii))
    : string + (list ascii * bool) :=
  match chunks with
  | [] => inr (output, truncated)
  | inl error :: _ => inl error
  | inr chunk :: chunks =>
    let remaining := limit - length output in
    read_chunks limit (output ++ take (length chunk `min` remaining) chunk) (truncated || (remaining <? length chunk)) chunks
  end.
Definition read_bounded (chunks : list (string + list ascii)) (limit : nat) : string + (string * bool) :=
  match read_chunks limit [] false chunks with
  | inl error => inl error
  | inr (output, truncated) => inr (from_utf8_lossy output, truncated)
  end.

(** The environment of the child: the allowed variables of this process, then those of the request. *)
Definition child_environment (policy : ExecutionPolicy) (spec : CommandSpec) (w : W) : gmap string string :=
  cs_environment spec ∪
  list_to_map (omap (λ key, (λ value, (key, value)) <$> env_var w key) (elements (ep_allowed_environment policy))).

(** [.map_err(|error| ExecutionError::Process(error.to_string()))?] *)
Definition process_ok {A} (r : string + A) : M W ExecutionError A :=
  match r with inr a => mret a | inl error => throw (ProcessFailed error) end.

Definition now_utc : M W ExecutionError DateTime := λ w, let '(t, w) := host_now w in (Ok t, w).
Definition now_v7 : M W ExecutionError Uuid := λ w, let '(u, w) := host_uuid w in (Ok u, w).
Definition spawn_process (line : CommandLine) : M W ExecutionError ProcessRun :=
  λ w, let '(r, w) := spawn line w in process_ok r w.

Definition run (policy : ExecutionPolicy) (spec : CommandSpec) (approved : bool) : M W ExecutionError ExecutionResult :=
  cwd ← validate policy spec approved;
  operation_id ← now_v7;
  started_at ← now_utc;
  w ← get;
  child ← spawn_process (mkCommandLine (cs_program spec) (cs_args spec) cwd (child_environment policy spec w));
  status ← match pr_wait child (N.max (cs_timeout_ms spec) 1) with
           | Exited status => status ← process_ok status; mret (Some status, false)
           | TimedOut (Some error) => throw (ProcessFailed error)
           | TimedOut None => mret (None, true)
           end;
  let '(status, timed_out) := status in
  stdout ← process_ok (read_bounded (pr_stdout child) (cs_max_output_bytes spec));
  stderr ← process_ok (read_bounded (pr_stderr child) (cs_max_output_bytes spec));
  finished_at ← now_utc;
  mret (mkExecutionResult operation_id started_at finished_at (mjoin status) stdout.1 stderr.1 (stdout.2 || stderr.2) timed_out
    (if bool_decide (cs_mode spec = InteractivePty) then Degraded else Unavailable)).

(** ** Containers *)

Record DockerMount : Type := mkDockerMount { dm_host : string; dm_container : string; dm_writable : bool }.
Record DockerRequest : Type := mkDockerRequest {
  dr_image : string;
  dr_command : list string;
  dr_cwd : string;
  dr_mounts : list DockerMount;
  dr_network_requested : bool;
  dr_timeout_ms : N;
  dr_max_output_bytes : nat;
}.

Definition validate_mount (policy : ExecutionPolicy) (w : W) (mount : DockerMount) : outcome ExecutionError () :=
  if negb (is_absolute (dm_container mount)) then Err (ExecInvalid "container mount path must be absolute")
  else
    match fs_canonicalize w (dm_host mount) with
    | inl error => Err (ExecInvalid ("invalid mount: " +:+ error))
    | inr host => if in_workspace w (ep_workspace_roots policy) host then Ok () else Err (OutsideWorkspace host)
    end.
Definition validate_docker (policy : ExecutionPolicy) (request : DockerRequest) : M W ExecutionError () :=
  _ ← reject_if (is_blank (dr_image request) || str_starts_with "-" (dr_image request)) (ExecInvalid "invalid Docker image");
  _ ← reject_if (dr_network_requested request && negb (ep_allow_network policy)) NetworkDenied;
  w ← get;
  lift (try_for_each (validate_mount policy w) (dr_mounts request)).

Definition mount_option (mount : DockerMount) : string :=
  "type=bind,src=" +:+ dm_host mount +:+ ",dst=" +:+ dm_container mount +:+ "," +:+ (if dm_writable mount then "rw" else "ro").
Definition docker_args (request : DockerRequest) : list string :=
  ["run"; "--rm"; "--read-only"; "--cap-drop=ALL"; "--security-opt=no-new-privileges"; "--pids-limit=256"]
  ++ (if dr_network_requested request then [] else ["--network=none"])
  ++ (dr_mounts request ≫= λ mount, ["--mount"; mount_option mount])
  ++ [dr_image request] ++ dr_command request.
Definition run_docker (policy : ExecutionPolicy) (request : DockerRequest) (approved : bool) : M W ExecutionError ExecutionResult :=
  _ ← reject_if (negb (ep_allow_docker policy)) DockerDenied;
  _ ← validate_docker policy request;
  run policy (mkCommandSpec "docker" (docker_args request) (dr_cwd request) ∅ Captured (dr_timeout_ms request)
    (dr_max_output_bytes request) (dr_network_requested request)) approved.
End execution.
