(* ===== verification/LocalExecutionSpec.v ===== *)
(** * Local execution: theorems

    A process is started only as the policy allows, once, with the variables and in the directory
    that were checked; output is cut at its limit and says so; containers keep their isolation. *)

From stdpp Require Import base gmap strings list sorting.
From Stdlib Require Import Ascii.
From S2P Require Import Prelude Text RuntimeGuard LocalExecution.

(** ** Output *)

(** The bytes of all reads, unless one fails. *)
Fixpoint all_bytes (chunks : list (string + list ascii)) : option (list ascii) :=
  match chunks with
  | [] => Some []
  | inl _ :: _ => None
  | inr chunk :: chunks => app chunk <$> all_bytes chunks
  end.

Lemma read_chunks_spec limit output truncated chunks :
  length output ≤ limit →
  match all_bytes chunks with
  | Some rest => read_chunks limit output truncated chunks =
      inr (take limit (output ++ rest), truncated || (limit <? length (output ++ rest)))
  | None => ∃ error, read_chunks limit output truncated chunks = inl error
  end.
Proof.
  revert output truncated. induction chunks as [|[error|chunk] chunks IH]; intros output truncated Hlen; simpl; [|by eauto|].
  - rewrite app_nil_r, take_ge by done. rewrite (proj2 (Nat.ltb_ge _ _)) by lia. by rewrite orb_false_r.
  - set (output' := output ++ take (length chunk `min` (limit - length output)) chunk).
    assert (length output' = (length output + length chunk) `min` limit) as Hlen'.
    { unfold output'. rewrite length_app, length_take. lia. }
    specialize (IH output' (truncated || (limit - length output <? length chunk)) ltac:(lia)).
    destruct (all_bytes chunks) as [rest|]; simpl; [|done]. rewrite IH. f_equal. f_equal.
    + unfold output'. destruct (Nat.le_ge_cases (length chunk) (limit - length output)) as [Hfit|Hcut].
      * rewrite (take_ge chunk) by lia. by rewrite (assoc_L app).
      * replace (length chunk `min` (limit - length output)) with (limit - length output) by lia.
        rewrite take_app_length' by (rewrite length_app, length_take; lia).
        replace limit with (length output + (limit - length output)) at 2 by lia. rewrite take_app_add, take_app_le by lia. done.
    + rewrite !length_app in *. destruct truncated; [done|]. simpl.
      destruct (Nat.ltb_spec (limit - length output) (length chunk)), (Nat.ltb_spec limit (length output' + length rest)),
        (Nat.ltb_spec limit (length output + (length chunk + length rest))); simpl; try done; lia.
Qed.

(** ** The policy *)

Section policy.
Context {W : Type} `{!ProcessHost W, !Host W}.

(** What the policy asks of a request, and the directory it runs in. *)
Definition allowed (policy : ExecutionPolicy) (spec : CommandSpec) (approved : bool) (w : W) (cwd : Path) : Prop :=
  is_blank (cs_program spec) = false ∧
  (ep_allowed_programs policy = ∅ ∨ cs_program spec ∈ ep_allowed_programs policy) ∧
  (cs_mode spec = InteractivePty → ep_allow_interactive_shell policy = true) ∧
  (cs_network_requested spec = true → ep_allow_network policy = true) ∧
  dom (cs_environment spec) ⊆ ep_allowed_environment policy ∧
  fs_canonicalize w (cs_cwd spec) = inr cwd ∧
  (∃ root r, root ∈ ep_workspace_roots policy ∧ fs_canonicalize w root = inr r ∧ r `prefix_of` cwd) ∧
  (ep_require_approval_for_destructive policy = true → is_destructive spec = true → approved = true).

Lemma denied_variable_None policy environment :
  denied_variable policy environment = None ↔ dom environment ⊆ ep_allowed_environment policy.
Proof.
  unfold denied_variable. set (l := merge_sort _ _).
  assert (∀ k, k ∈ l ↔ k ∈ dom environment) as Hl.
  { intros k. unfold l. rewrite (merge_sort_Permutation String.le). apply elem_of_elements. }
  split.
  - intros Hnone k Hk. apply Hl in Hk. apply list_elem_of_In in Hk. pose proof (find_none _ _ Hnone k Hk) as Hf. simpl in Hf.
    by apply negb_false_iff, bool_decide_eq_true in Hf.
  - intros Hsub. destruct (find _ l) as [k|] eqn:Hf; [|done]. apply find_some in Hf as [Hk Hbad].
    apply negb_true_iff, bool_decide_eq_false in Hbad. exfalso. apply Hbad, Hsub, Hl. by apply list_elem_of_In.
Qed.
Lemma in_workspace_iff w roots path :
  in_workspace w roots path = true ↔ ∃ root r, root ∈ roots ∧ fs_canonicalize w root = inr r ∧ r `prefix_of` path.
Proof.
  unfold in_workspace. rewrite existsb_exists. split.
  - intros (root & Hin & Hr). destruct (fs_canonicalize w root) as [|r] eqn:Hc; [done|]. apply bool_decide_eq_true in Hr.
    exists root, r. by apply list_elem_of_In in Hin.
  - intros (root & r & Hin & Hc & Hp). exists root. split; [by apply list_elem_of_In|]. rewrite Hc. by apply bool_decide_eq_true.
Qed.

(** Validation changes nothing and succeeds exactly when the policy allows the request. *)
Lemma validate_spec policy spec approved w :
  (∃ cwd, allowed policy spec approved w cwd ∧ validate policy spec approved w = (Ok cwd, w)) ∨
  (∃ e, (∀ cwd, ¬ allowed policy spec approved w cwd) ∧ validate policy spec approved w = (Err e, w)).
Proof.
  assert (∀ e, ((∃ cwd, allowed policy spec approved w cwd) → False) →
    (∃ cwd, allowed policy spec approved w cwd ∧ (Err e, w) = (Ok cwd, w)) ∨
    (∃ e', (∀ cwd, ¬ allowed policy spec approved w cwd) ∧ (Err e : outcome ExecutionError Path, w) = (Err e', w))) as Hno
    by (intros e Hn; right; exists e; split; [intros cwd Ha; apply Hn; eauto|done]).
  unfold validate. munfold.
  destruct (is_blank (cs_program spec)) eqn:Hblank; simpl; [apply Hno; by intros (cwd & Hb & _); congruence|].
  destruct (negb _ && negb _) eqn:Hprog; simpl.
  { rewrite andb_true_iff, !negb_true_iff, !bool_decide_eq_false in Hprog. apply Hno. intros (cwd & _ & Hp & _). tauto. }
  rewrite andb_false_iff, !negb_false_iff, !bool_decide_eq_true in Hprog.
  destruct (bool_decide (cs_mode spec = InteractivePty) && _) eqn:Hmode; simpl.
  { rewrite andb_true_iff, negb_true_iff, bool_decide_eq_true in Hmode. apply Hno. intros (cwd & _ & _ & Hm & _). destruct Hmode as [Hpty Hshell].
    specialize (Hm Hpty). congruence. }
  destruct (cs_network_requested spec && _) eqn:Hnet; simpl.
  { rewrite andb_true_iff, negb_true_iff in Hnet. apply Hno. intros (cwd & _ & _ & _ & Hn & _). destruct Hnet as [Hreq Hdeny].
    specialize (Hn Hreq). congruence. }
  rewrite andb_false_iff, negb_false_iff in Hmode, Hnet. rewrite bool_decide_eq_false in Hmode.
  pose proof (denied_variable_None policy (cs_environment spec)) as Henv. destruct (denied_variable policy _) as [key|]; simpl.
  { apply Hno. intros (cwd & _ & _ & _ & _ & Hsub & _). by apply Henv in Hsub. }
  destruct (fs_canonicalize w (cs_cwd spec)) as [error|cwd] eqn:Hcwd; simpl.
  { apply Hno. intros (cwd & _ & _ & _ & _ & _ & Hc & _). congruence. }
  pose proof (in_workspace_iff w (ep_workspace_roots policy) cwd) as Hroot. destruct (in_workspace w _ cwd); simpl.
  2:{ apply Hno. intros (cwd' & _ & _ & _ & _ & _ & Hc & Hex & _). assert (cwd' = cwd) as -> by congruence. by apply Hroot in Hex. }
  destruct (ep_require_approval_for_destructive policy && is_destructive spec && negb approved) eqn:Hdes; simpl.
  { rewrite !andb_true_iff, negb_true_iff in Hdes. apply Hno. intros (cwd' & _ & _ & _ & _ & _ & _ & _ & Ha). destruct Hdes as [[H1 H2] H3].
    specialize (Ha H1 H2). congruence. }
  left. exists cwd. split; [|done]. unfold allowed. split_and!; [done|tauto|tauto| | |done|by apply Hroot|].
  - destruct Hnet; [congruence|done].
  - by apply Henv.
  - intros H1 H2. rewrite H1, H2 in Hdes. by destruct approved.
Qed.

Lemma child_environment_dom policy spec (w : W) :
  dom (cs_environment spec) ⊆ ep_allowed_environment policy → dom (child_environment policy spec w) ⊆ ep_allowed_environment policy.
Proof.
  intros Hsub k. unfold child_environment. rewrite dom_union, elem_of_union. intros [Hk|Hk]; [by apply Hsub|].
  apply elem_of_dom in Hk as [v Hv]. apply elem_of_list_to_map_2 in Hv. apply list_elem_of_omap in Hv as (key & Hkey & Hv).
  apply fmap_Some in Hv as (v' & _ & [= -> ->]). by apply elem_of_elements in Hkey.
Qed.

(** A result tells what the process wrote, cut at the limit, and how it ended. *)
Definition reported (spec : CommandSpec) (child : ProcessRun) (result : ExecutionResult) : Prop :=
  ∃ out err, all_bytes (pr_stdout child) = Some out ∧ all_bytes (pr_stderr child) = Some err ∧
    er_stdout result = from_utf8_lossy (take (cs_max_output_bytes spec) out) ∧
    er_stderr result = from_utf8_lossy (take (cs_max_output_bytes spec) err) ∧
    (er_truncated result = true ↔ cs_max_output_bytes spec < length out ∨ cs_max_output_bytes spec < length err) ∧
    match pr_wait child (N.max (cs_timeout_ms spec) 1) with
    | Exited status => er_timed_out result = false ∧ status = inr (er_exit_code result)
    | TimedOut kill => er_timed_out result = true ∧ er_exit_code result = None ∧ kill = None
    end.

Lemma read_bounded_spec chunks limit r :
  read_bounded chunks limit = inr r →
  ∃ out, all_bytes chunks = Some out ∧ r = (from_utf8_lossy (take limit out), limit <? length out).
Proof.
  unfold read_bounded. pose proof (read_chunks_spec limit [] false chunks ltac:(simpl; lia)) as Hr.
  destruct (all_bytes chunks) as [out|]; [|by destruct Hr as [error ->]]. rewrite Hr. simpl. intros [= <-]. eauto.
Qed.

(** C38: a process is started only as the policy allows, and once.  Either the request breaks a rule, and then it fails and
    nothing happens; or the policy allows it, and exactly that program is started with exactly those arguments, in the
    canonical directory inside a workspace root, with allowed variables only.  A result then reports what the process
    wrote, cut at the limit and marked exactly when something was cut, and a process that ran too long was killed. *)
Theorem processes_run_within_policy policy spec approved w r w' :
  run policy spec approved w = (r, w') →
  (∃ e, r = Err e ∧ w' = w ∧ ∀ cwd, ¬ allowed policy spec approved w cwd) ∨
  ∃ cwd environment w1 started w2,
    allowed policy spec approved w cwd ∧ dom environment ⊆ ep_allowed_environment policy ∧
    (∀ key value, cs_environment spec !! key = Some value → environment !! key = Some value) ∧
    w1 = (host_now (host_uuid w).2).2 ∧
    spawn (mkCommandLine (cs_program spec) (cs_args spec) cwd environment) w1 = (started, w2) ∧
    match r with
    | Ok result => w' = (host_now w2).2 ∧ ∃ child, started = inr child ∧ reported spec child result
    | Err e => w' = w2 ∧ ∃ detail, e = ProcessFailed detail
    | Panic => False
    end.
Proof.
  unfold run. unfold mbind at 1, M_bind at 1.
  destruct (validate_spec policy spec approved w) as [(cwd & Hok & ->)|(e & Hno & ->)]; [|intros [= <- <-]; left; eauto].
  intros Hrun. right. set (w1 := (host_now (host_uuid w).2).2). exists cwd, (child_environment policy spec w1), w1.
  revert Hrun. unfold now_v7, now_utc, spawn_process, process_ok. munfold. destruct (host_uuid w) as [u wu]. destruct (host_now wu) as [t wt] eqn:Ht.
  simpl in w1. replace w1 with wt in * by (unfold w1; by rewrite Ht).
  destruct (spawn _ wt) as [started w2] eqn:Hs. intros Hrun. exists started, w2.
  assert (dom (child_environment policy spec wt) ⊆ ep_allowed_environment policy) as Hdom by (apply child_environment_dom, Hok).
  split; [done|]. split; [done|]. split; [intros key value Hk; unfold child_environment; by apply lookup_union_Some_l|].
  split; [done|]. split; [done|].
  destruct started as [error|child]; [injection Hrun as <- <-; eauto|].
  destruct (pr_wait child _) as [[error|status]|[error|]] eqn:Hwait; try (injection Hrun as <- <-; by eauto).
  all: destruct (read_bounded (pr_stdout child) _) as [error|[out tr1]] eqn:H1; [injection Hrun as <- <-; by eauto|].
  all: destruct (read_bounded (pr_stderr child) _) as [error|[err tr2]] eqn:H2; [injection Hrun as <- <-; by eauto|].
  all: apply read_bounded_spec in H1 as (out' & Ho & [= -> ->]); apply read_bounded_spec in H2 as (err' & He & [= -> ->]).
  all: destruct (host_now w2) as [t2 w3] eqn:Hn; injection Hrun as <- <-; simpl; split; [done|]; exists child; split; [done|].
  all: exists out', err'; simpl; rewrite Hwait, orb_true_iff, !Nat.ltb_lt; by repeat split.
Qed.

(** A mount the policy accepts: the canonical host path lies inside a workspace root. *)
Definition mount_allowed (policy : ExecutionPolicy) (w : W) (mount : DockerMount) : Prop :=
  is_absolute (dm_container mount) = true ∧
  ∃ host root r, fs_canonicalize w (dm_host mount) = inr host ∧ root ∈ ep_workspace_roots policy ∧ fs_canonicalize w root = inr r ∧
    r `prefix_of` host.
Lemma validate_mount_ok policy w mount : validate_mount policy w mount = Ok () ↔ mount_allowed policy w mount.
Proof.
  unfold validate_mount, mount_allowed. destruct (is_absolute _); simpl; [|split; [done|by intros []]].
  destruct (fs_canonicalize w (dm_host mount)) as [error|host]; [split; [done|by intros (_ & ? & ? & ? & ? & _)]|].
  pose proof (in_workspace_iff w (ep_workspace_roots policy) host) as Hin.
  destruct (in_workspace w _ host); split; try done.
  - intros _. split; [done|]. destruct (proj1 Hin eq_refl) as (root & r & ?). by exists host, root, r.
  - intros (_ & host' & root & r & [= <-] & Hr). exfalso. enough (false = true) by done. apply Hin. eauto.
Qed.

Lemma validate_mount_returns policy w mount : validate_mount policy w mount ≠ Panic.
Proof. unfold validate_mount. destruct (negb _); [done|]. destruct (fs_canonicalize w _) as [|host]; [done|]. by destruct (in_workspace w _ host). Qed.

Definition docker_allowed (policy : ExecutionPolicy) (request : DockerRequest) (w : W) : Prop :=
  ep_allow_docker policy = true ∧ is_blank (dr_image request) = false ∧ str_starts_with "-" (dr_image request) = false ∧
  (dr_network_requested request = true → ep_allow_network policy = true) ∧
  ∀ mount, mount ∈ dr_mounts request → mount_allowed policy w mount.

(** The arguments between [docker] and the image are the isolation flags and the mounts. *)
Definition isolated (request : DockerRequest) (args : list string) : Prop :=
  ∃ options, args = options ++ dr_image request :: dr_command request ∧
    ["run"; "--rm"; "--read-only"; "--cap-drop=ALL"; "--security-opt=no-new-privileges"; "--pids-limit=256"] `prefix_of` options ∧
    ("--network=none" ∈ options ∨ dr_network_requested request = true).
Lemma docker_args_isolated request : isolated request (docker_args request).
Proof.
  exists (["run"; "--rm"; "--read-only"; "--cap-drop=ALL"; "--security-opt=no-new-privileges"; "--pids-limit=256"]
    ++ (if dr_network_requested request then [] else ["--network=none"])
    ++ (dr_mounts request ≫= λ mount, ["--mount"; mount_option mount])).
  split; [unfold docker_args; by rewrite <-!app_assoc|]. split; [by eexists|]. destruct (dr_network_requested request); [by right|left]. set_solver.
Qed.

(** A container runs only when Docker is allowed, from an image that is no option, without a network unless one was asked
    for and is allowed, with mounts inside the workspace, and isolated; anything else fails before a process starts. *)
Theorem containers_stay_isolated policy request approved w :
  (docker_allowed policy request w ∧ ∃ args, isolated request args ∧
    run_docker policy request approved w =
    run policy (mkCommandSpec "docker" args (dr_cwd request) ∅ Captured (dr_timeout_ms request) (dr_max_output_bytes request)
      (dr_network_requested request)) approved w) ∨
  (¬ docker_allowed policy request w ∧ ∃ e, run_docker policy request approved w = (Err e, w)).
Proof.
  unfold run_docker, validate_docker, docker_allowed. munfold.
  destruct (ep_allow_docker policy); simpl; [|right; split; [by intros []|eauto]].
  destruct (is_blank (dr_image request)) eqn:Hb; simpl; [right; split; [by intros (_ & ? & _)|eauto]|].
  destruct (str_starts_with "-" (dr_image request)) eqn:Hd; simpl; [right; split; [by intros (_ & _ & ? & _)|eauto]|].
  destruct (dr_network_requested request && negb (ep_allow_network policy)) eqn:Hnet; simpl.
  { right. apply andb_true_iff in Hnet as [Hreq Hdeny]. apply negb_true_iff in Hdeny. split; [|eauto].
    intros (_ & _ & _ & Hn & _). specialize (Hn Hreq). congruence. }
  pose proof (try_for_each_ok (validate_mount policy w) (dr_mounts request)) as Hall.
  destruct (try_for_each _ _) as [[]|e|] eqn:Hmounts.
  - left. split; [|eexists; split; [apply docker_args_isolated|done]]. split_and!; [done..| |].
    + intros Hreq. rewrite Hreq in Hnet. by destruct (ep_allow_network policy).
    + intros mount Hm. apply validate_mount_ok. by apply Hall.
  - right. split; [|eauto]. intros (_ & _ & _ & _ & Hm). enough (Err e = Ok ()) by done. apply Hall. intros mount Hin.
    by apply validate_mount_ok, Hm.
  - exfalso. clear Hall. induction (dr_mounts request) as [|mount l IH]; [done|]. simpl in Hmounts.
    pose proof (validate_mount_returns policy w mount). by destruct (validate_mount policy w mount) as [[]| |]; [apply IH| |].
Qed.
End policy.

(** ** Examples *)

Module Samples.
(** A host on which every path is canonical, [HOME] is set, and each process writes three bytes and exits with 0; the state
    counts the calls and lists what was started. *)
#[local] Instance sample_clock : Host (N * list CommandLine) :=
  {| host_now w := (Z.of_N w.1, (w.1 + 1, w.2)%N); host_uuid w := (w.1, (w.1 + 1, w.2)%N) |}.
#[local] Instance sample_processes : ProcessHost (N * list CommandLine) := {|
  fs_canonicalize _ path := inr (components path);
  env_var _ key := if bool_decide (key = "HOME") then Some "/home/u" else None;
  spawn line w := (inr (mkProcessRun [inr (bytes "ab"); inr (bytes "c")] [] (λ _, Exited (inr (Some 0%Z)))), (w.1, line :: w.2));
  from_utf8_lossy bytes := of_bytes bytes |}.

Definition sample_policy : ExecutionPolicy := mkExecutionPolicy ["/work"] ∅ {["HOME"]} false false true true.
Definition sample_spec : CommandSpec := mkCommandSpec "ls" ["-l"] "/work/a" ∅ Captured 1000 2 false.

Lemma processes_run_within_policy_witness :
  run sample_policy sample_spec false (0%N, []) =
    (Ok (mkExecutionResult 0%N 1%Z 2%Z (Some 0%Z) "ab" "" true false Unavailable),
     (3%N, [mkCommandLine "ls" ["-l"] ["work"; "a"] {["HOME" := "/home/u"]}])) ∧
  ∃ cwd, allowed sample_policy sample_spec false (0%N, @nil CommandLine) cwd.
Proof.
  assert (run sample_policy sample_spec false (0%N, []) =
    (Ok (mkExecutionResult 0%N 1%Z 2%Z (Some 0%Z) "ab" "" true false Unavailable),
     (3%N, [mkCommandLine "ls" ["-l"] ["work"; "a"] {["HOME" := "/home/u"]}]))) as Hrun by (vm_compute; reflexivity).
  split; [exact Hrun|].
  destruct (processes_run_within_policy _ _ _ _ _ _ Hrun) as [(e & He & _)|(cwd & environment & w1 & started & w2 & Hallowed & _)];
    [discriminate He|exists cwd; exact Hallowed].
Defined.

(** The container path is not checked for commas: this mount is accepted, and the option handed to Docker names a second
    source outside the workspace. *)
Definition sneaky_mount : DockerMount := mkDockerMount "/work" "/d,src=/etc" true.
Example mount_options_can_be_injected :
  validate_mount sample_policy (0%N, @nil CommandLine) sneaky_mount = Ok () ∧
  mount_option sneaky_mount = "type=bind,src=/work,dst=/d,src=/etc,rw".
Proof. split; vm_compute; reflexivity. Qed.
End Samples.
