(* ===== verification/Browser.v ===== *)
(** * Browser control: policy, network guard and page model

    Models [crates/browser/src/lib.rs], [cdp/intercept.rs] and [cdp/snapshot.rs]: the navigation,
    subresource and effect rules, download quarantine, the guard that judges every paused request,
    and the page model built from an accessibility tree and layout boxes.  URL parsing, the decoding
    of protocol events and SHA-256 are interfaces. *)

From stdpp Require Import base gmap strings list.
From Stdlib Require Import Ascii SpecFloat.
From S2P Require Import Prelude Text PhraseCache.

Definition f64 : Type := spec_float.
Definition is_finite (x : f64) : bool := match x with S754_zero _ | S754_finite _ _ _ => true | _ => false end.

(** The parts of a URL that the code reads. *)
Record Url : Type := mkUrl { url_text : string; url_scheme : string; url_host : option string; url_path : string }.
Class UrlParser : Type := { url_parse : string → string + Url }.

(** ** Data *)

Record NodeHandle : Type := mkNodeHandle { nh_page_id : string; nh_generation : N; nh_opaque_id : string }.
Global Instance NodeHandle_eq_dec : EqDecision NodeHandle.
Proof. solve_decision. Defined.

Record NodeBounds : Type := mkNodeBounds { nb_x : f64; nb_y : f64; nb_width : f64; nb_height : f64 }.

Record SnapshotNode : Type := mkSnapshotNode {
  sn_handle : NodeHandle;
  sn_role : string;
  sn_name : string;
  sn_value : option string;
  sn_editable : bool;
  sn_bounds : option NodeBounds;
  sn_options : list string;
}.
Record PageSnapshot : Type := mkPageSnapshot {
  ps_page_id : string;
  ps_generation : N;
  ps_url : Url;
  ps_title : string;
  ps_text : string;
  ps_handles : list NodeHandle;
  ps_nodes : list SnapshotNode;
}.

Definition node (snapshot : PageSnapshot) (handle : NodeHandle) : option SnapshotNode :=
  find (λ node, bool_decide (sn_handle node = handle)) (ps_nodes snapshot).
Definition node_by_opaque_id (snapshot : PageSnapshot) (opaque_id : string) : option SnapshotNode :=
  find (λ node, bool_decide (nh_opaque_id (sn_handle node) = opaque_id)) (ps_nodes snapshot).

Inductive EgressDecision : Type := EgressAllowed | EgressBlocked.
Record EgressReceipt : Type := mkEgressReceipt {
  eg_sequence : N;
  eg_method : string;
  eg_scheme : string;
  eg_host : string;
  eg_path_digest : string;
  eg_resource_type : string;
  eg_decision : EgressDecision;
  eg_reason : option string;
}.

Inductive BrowserInputTrust : Type := UserInstruction | UntrustedPage.
Inductive BrowserEffect : Type := Observe | Navigate | TypeText | Download | Submit | ReadSecrets | ConnectorAccess.
Definition effect_debug (e : BrowserEffect) : string :=
  match e with
  | Observe => "Observe" | Navigate => "Navigate" | TypeText => "Type" | Download => "Download" | Submit => "Submit"
  | ReadSecrets => "ReadSecrets" | ConnectorAccess => "ConnectorAccess"
  end.

Inductive BrowserError : Type :=
  | DomainBlocked (detail : string)
  | SchemeBlocked (scheme : string)
  | ThirdPartySubresourceBlocked (host : string)
  | PersonalProfileConsentRequired
  | CrossZoneApprovalRequired (e : BrowserEffect)
  | DownloadNotScanned
  | StaleHandle
  | UploadPathNotApproved (detail : string)
  | PostconditionFailed (detail : string)
  | TakeoverActive
  | BrowserUnavailable (detail : string)
  | Operation (detail : string).
Definition error_text (e : BrowserError) : string :=
  match e with
  | DomainBlocked d => "domain is blocked by policy: " +:+ d
  | SchemeBlocked s => "URL scheme is blocked by browser policy: " +:+ s
  | ThirdPartySubresourceBlocked h => "third-party subresource is blocked by browser policy: " +:+ h
  | PersonalProfileConsentRequired => "using a personal browser profile requires explicit opt-in"
  | CrossZoneApprovalRequired e => "untrusted page content requires cross-zone approval for " +:+ effect_debug e
  | DownloadNotScanned => "download cannot leave quarantine before a successful scan"
  | StaleHandle => "page handle is stale and must be reacquired"
  | UploadPathNotApproved d => "upload path was not approved by the user: " +:+ d
  | PostconditionFailed d => "action postcondition failed: " +:+ d
  | TakeoverActive => "the user has taken over the browser; agent actions are paused"
  | BrowserUnavailable d => "browser capability unavailable: " +:+ d
  | Operation d => "browser operation failed: " +:+ d
  end.

Record BrowserProfile : Type := mkBrowserProfile { bp_id : string; bp_isolated : bool; bp_personal_profile_opt_in : bool }.
Definition validate_profile (p : BrowserProfile) : outcome BrowserError () :=
  if is_blank (bp_id p) then Err (Operation "profile ID cannot be blank")
  else if negb (bp_isolated p) && negb (bp_personal_profile_opt_in p) then Err PersonalProfileConsentRequired
  else Ok ().

(** ** Policy *)

Record BrowserPolicy : Type := mkBrowserPolicy {
  bo_allowed_domains : gset string;
  bo_blocked_domains : gset string;
  bo_allow_third_party_subresources : bool;
}.

Definition domain_matches (rule host : string) : bool :=
  bool_decide (rule = host) ||
  match str_strip_prefix "*." rule with
  | Some suffix => negb (bool_decide (host = suffix)) && bool_decide (is_Some (str_strip_suffix ("." +:+ suffix) host))
  | None => false
  end.
Definition any_rule (rules : gset string) (host : string) : bool := existsb (λ rule, domain_matches rule host) (elements rules).

Definition allow_navigation (p : BrowserPolicy) (url : Url) : outcome BrowserError () :=
  if negb (bool_decide (url_scheme url ∈ ["http"; "https"])) then Err (SchemeBlocked (url_scheme url))
  else
    match url_host url with
    | None => Err (DomainBlocked "missing host")
    | Some host =>
      if any_rule (bo_blocked_domains p) host then Err (DomainBlocked host)
      else if negb (bool_decide (bo_allowed_domains p = ∅)) && negb (any_rule (bo_allowed_domains p) host)
      then Err (DomainBlocked host)
      else Ok ()
    end.
Definition allow_subresource (p : BrowserPolicy) (page resource : Url) : outcome BrowserError () :=
  _ ← allow_navigation p resource;
  if negb (bo_allow_third_party_subresources p) && negb (bool_decide (url_host page = url_host resource))
  then Err (ThirdPartySubresourceBlocked (default "missing host" (url_host resource)))
  else Ok ().
Definition sensitive (e : BrowserEffect) : bool :=
  match e with Download | Submit | ReadSecrets | ConnectorAccess => true | _ => false end.
Definition allow_effect (p : BrowserPolicy) (trust : BrowserInputTrust) (e : BrowserEffect) (cross_zone_approval : bool)
    : outcome BrowserError () :=
  match trust with
  | UntrustedPage => if sensitive e && negb cross_zone_approval then Err (CrossZoneApprovalRequired e) else Ok ()
  | UserInstruction => Ok ()
  end.

(** ** Downloads *)

Inductive DownloadState : Type := Quarantined | ScanPassed | Rejected | Released.
Record QuarantinedDownload : Type := mkQuarantinedDownload {
  qd_sha256 : string;
  qd_source : Url;
  qd_quarantine_path : string;
  qd_state : DownloadState;
}.
Definition release (d : QuarantinedDownload) : outcome BrowserError () * QuarantinedDownload :=
  match qd_state d with
  | ScanPassed => (Ok (), mkQuarantinedDownload (qd_sha256 d) (qd_source d) (qd_quarantine_path d) Released)
  | _ => (Err DownloadNotScanned, d)
  end.

Definition validate_handle (snapshot : PageSnapshot) (handle : NodeHandle) : outcome BrowserError () :=
  if bool_decide (nh_page_id handle = ps_page_id snapshot) && bool_decide (nh_generation handle = ps_generation snapshot)
  then Ok () else Err StaleHandle.

(** ** The network guard *)

Definition LOCAL_SCHEMES : list string := ["about"; "data"; "blob"].

(** An event of the protocol, with its parameters not yet decoded. *)
Record CdpEvent : Type := mkCdpEvent { ce_method : string; ce_session_id : option string; ce_params : Value }.

(** The decoded events.  A resource type is kept as its debug text. *)
Record RequestPaused : Type := mkRequestPaused {
  rp_request_id : string;
  rp_url : string;
  rp_method : string;
  rp_frame_id : string;
  rp_resource_type : string;
}.
Record DownloadWillBegin : Type := mkDownloadWillBegin { dw_guid : string; dw_url : string }.
Inductive DownloadProgressState : Type := InProgress | Completed | Canceled.
Record DownloadProgress : Type := mkDownloadProgress { dp_guid : string; dp_state : DownloadProgressState; dp_file_path : option string }.
Class EventParser : Type := {
  parse_paused : Value → option RequestPaused;
  parse_will_begin : Value → option DownloadWillBegin;
  parse_progress : Value → option DownloadProgress;
}.

Record NetworkGuard : Type := mkNetworkGuard {
  ng_policy : BrowserPolicy;
  ng_page_url : option Url;
  ng_main_frame : option string;
  ng_receipts : list EgressReceipt;
  ng_pending_downloads : gmap string Url;
  ng_downloads : list QuarantinedDownload;
  ng_quarantine : string;
  ng_sequence : N;
}.
Global Instance NetworkGuard_eta : Eta NetworkGuard :=
  λ r, mkNetworkGuard (ng_policy r) (ng_page_url r) (ng_main_frame r) (ng_receipts r) (ng_pending_downloads r) (ng_downloads r)
    (ng_quarantine r) (ng_sequence r).

Definition guard_new (policy : BrowserPolicy) (quarantine : string) : NetworkGuard :=
  mkNetworkGuard policy None None [] ∅ [] quarantine 0.
Definition set_page_url (url : option Url) (g : NetworkGuard) : NetworkGuard := g <| ng_page_url := url |>.
Definition set_main_frame (frame : option string) (g : NetworkGuard) : NetworkGuard := g <| ng_main_frame := frame |>.
Definition is_main_document (g : NetworkGuard) (event : RequestPaused) : bool :=
  bool_decide (rp_resource_type event = "Document") &&
  match ng_main_frame g with None => true | Some main => bool_decide (main = rp_frame_id event) end.

Definition decide_request (p : BrowserPolicy) (page : option Url) (resource : Url) (main_document : bool) : outcome BrowserError () :=
  if bool_decide (url_scheme resource ∈ LOCAL_SCHEMES) then Ok ()
  else if main_document then allow_navigation p resource
  else match page with Some page => allow_subresource p page resource | None => allow_navigation p resource end.

(** What the guard answers: the session, the request and whether it may go on. *)
Inductive RequestAnswer : Type := ContinueRequest (id : string) | FailRequest (id : string).
Definition answer : Type := option string * RequestAnswer.

Definition path_bytes (s : string) : list N := N_of_ascii <$> bytes s.
(** [Path::join]. *)
Definition path_join (base name : string) : string :=
  if str_starts_with "/" name then name
  else if is_empty base || bool_decide (is_Some (str_strip_suffix "/" base)) then base +:+ name
  else base +:+ "/" +:+ name.

Section guard.
Context `{!UrlParser, !EventParser, !Sha256}.

Definition receipt (sequence : N) (method : string) (resource : Url) (resource_type : string) (r : outcome BrowserError ())
    : EgressReceipt :=
  mkEgressReceipt sequence method (url_scheme resource) (default "" (url_host resource))
    (hex_digest (sha256 (path_bytes (url_path resource)))) resource_type
    (match r with Ok _ => EgressAllowed | _ => EgressBlocked end)
    (match r with Err e => Some (error_text e) | _ => None end).

(** [fetch_add]: the number before, wrapping. *)
Definition next_sequence (g : NetworkGuard) : N * NetworkGuard :=
  (ng_sequence g, g <| ng_sequence := ((ng_sequence g + 1) `mod` 2 ^ 64)%N |>).
Definition record_receipt (r : EgressReceipt) (g : NetworkGuard) : NetworkGuard := g <| ng_receipts := ng_receipts g ++ [r] |>.

Definition handle_request (g : NetworkGuard) (event : CdpEvent) : option answer * NetworkGuard :=
  match parse_paused (ce_params event) with
  | None => (None, g)
  | Some paused =>
    match url_parse (rp_url paused) with
    | inl _ => (Some (ce_session_id event, FailRequest (rp_request_id paused)), g)
    | inr resource =>
      let r := decide_request (ng_policy g) (ng_page_url g) resource (is_main_document g paused) in
      let '(sequence, g) := next_sequence g in
      let g := record_receipt (receipt sequence (rp_method paused) resource (rp_resource_type paused) r) g in
      (Some (ce_session_id event,
         match r with Ok _ => ContinueRequest (rp_request_id paused) | _ => FailRequest (rp_request_id paused) end), g)
    end
  end.

Definition handle_download_start (g : NetworkGuard) (event : CdpEvent) : NetworkGuard :=
  match parse_will_begin (ce_params event) with
  | None => g
  | Some started =>
    match url_parse (dw_url started) with
    | inl _ => g
    | inr source => g <| ng_pending_downloads := <[dw_guid started := source]> (ng_pending_downloads g) |>
    end
  end.
(** [files] are the readable files. *)
Definition handle_download_progress (files : string → option (list N)) (g : NetworkGuard) (event : CdpEvent) : NetworkGuard :=
  match parse_progress (ce_params event) with
  | None => g
  | Some progress =>
    let forget g := g <| ng_pending_downloads := delete (dp_guid progress) (ng_pending_downloads g) |> in
    match dp_state progress with
    | InProgress => g
    | Canceled => forget g
    | Completed =>
      match ng_pending_downloads g !! dp_guid progress with
      | None => g
      | Some source =>
        let g := forget g in
        let path := default (path_join (ng_quarantine g) (dp_guid progress)) (dp_file_path progress) in
        match files path with
        | None => g
        | Some bytes => g <| ng_downloads := ng_downloads g ++ [mkQuarantinedDownload (hex_digest (sha256 bytes)) source path Quarantined] |>
        end
      end
    end
  end.

(** One turn of the pump. *)
Definition pump_event (files : string → option (list N)) (event : CdpEvent) (g : NetworkGuard) : option answer * NetworkGuard :=
  if bool_decide (ce_method event = "Fetch.requestPaused") then handle_request g event
  else if bool_decide (ce_method event = "Browser.downloadWillBegin") then (None, handle_download_start g event)
  else if bool_decide (ce_method event = "Browser.downloadProgress") then (None, handle_download_progress files g event)
  else (None, g).
End guard.

(** ** The page model *)

Definition ACTIONABLE_ROLES : list string :=
  ["button"; "checkbox"; "colorwell"; "combobox"; "datetime"; "disclosuretriangle"; "link"; "listbox"; "listboxoption"; "menuitem";
   "menuitemcheckbox"; "menuitemradio"; "menulistoption"; "menulistpopup"; "option"; "popupbutton"; "radio"; "searchbox"; "slider";
   "spinbutton"; "switch"; "tab"; "textarea"; "textbox"; "textfield"].
Definition OPTION_OWNER_ROLES : list string := ["combobox"; "listbox"; "menu"; "menulistpopup"; "popupbutton"].
Definition OPTION_ROLES : list string := ["listboxoption"; "menuitem"; "menulistoption"; "option"; "radio"].

(** The nodes of the accessibility tree and the layout of the documents, as the protocol delivers
    them.  The outer option is a missing value, the inner one its missing content; a property has the
    debug text of its name. *)
Record AxNode : Type := mkAxNode {
  ax_node_id : string;
  ax_ignored : bool;
  ax_role : option (option Value);
  ax_name : option (option Value);
  ax_value : option (option Value);
  ax_properties : option (list (string * option Value));
  ax_child_ids : option (list string);
  ax_backend_dom_node_id : option Z;
}.
Record DomDocument : Type := mkDomDocument {
  dd_backend_node_id : option (list Z);
  dd_node_index : list Z;
  dd_bounds : list (list f64);
}.

Record PendingNode : Type := mkPendingNode {
  pn_backend_node_id : Z;
  pn_role : string;
  pn_name : string;
  pn_value : option string;
  pn_editable : bool;
  pn_bounds : option NodeBounds;
  pn_options : list string;
}.
Record MergedSnapshot : Type := mkMergedSnapshot { ms_nodes : list PendingNode; ms_text : string }.

(** The text of a JSON value that is not a string. *)
Class JsonDisplay : Type := { json_display : Value → string }.

Section page.
Context `{!JsonDisplay}.

Definition append_text (text fragment : string) : string :=
  let fragment := trim fragment in
  if is_empty fragment then text
  else (if is_empty text then "" else text +:+ of_bytes [lf]) +:+ fragment.
Definition value_string (value : option (option Value)) : option string :=
  value ← value; value ← value;
  match value with
  | VString text => Some text
  | VNull => None
  | other => Some (json_display other)
  end.
Definition normalized_role (role : option (option Value)) : string :=
  of_bytes (lower (filter (λ c, is_ascii_alphanumeric c = true) (bytes (default "" (value_string role))))).
Definition eq_ignore_ascii_case (a b : string) : bool := bool_decide (to_ascii_lowercase a = to_ascii_lowercase b).
Definition has_flag (n : AxNode) (property : string) : bool :=
  existsb (λ candidate, eq_ignore_ascii_case candidate.1 property && match candidate.2 with Some (VBool true) => true | _ => false end)
    (default [] (ax_properties n)).
Definition is_editable (n : AxNode) (role : string) : bool :=
  bool_decide (role ∈ ["textbox"; "textfield"; "searchbox"; "textarea"]) ||
  existsb (λ candidate, eq_ignore_ascii_case candidate.1 "editable") (default [] (ax_properties n)).

(** The loop over the frontier, a stack with its top first; [budget] more nodes may be visited. *)
Fixpoint visit_options (by_id : gmap string AxNode) (budget : nat) (frontier : list string) (labels : list string) : list string :=
  match frontier, budget with
  | [], _ | _, 0 => labels
  | id :: frontier, S budget =>
    match by_id !! id with
    | None => visit_options by_id budget frontier labels
    | Some child =>
      let labels := if bool_decide (normalized_role (ax_role child) ∈ OPTION_ROLES)
                    then labels ++ [default "" (value_string (ax_name child))] else labels in
      visit_options by_id budget (reverse (default [] (ax_child_ids child)) ++ frontier) labels
    end
  end.
Definition option_labels (n : AxNode) (by_id : gmap string AxNode) (role : string) : list string :=
  if negb (bool_decide (role ∈ OPTION_OWNER_ROLES)) then []
  else reverse (visit_options by_id 4096 (reverse (default [] (ax_child_ids n))) []).

Definition rectangle_to_bounds (values : list f64) : option NodeBounds :=
  match values with
  | x :: y :: width :: height :: _ =>
    if existsb (λ v, negb (is_finite v)) [x; y; width; height] then None else Some (mkNodeBounds x y width height)
  | _ => None
  end.
(** [usize::try_from]. *)
Definition index_of (i : Z) : option nat := if (i <? 0)%Z then None else Some (Z.to_nat i).
Definition add_bounds (ids : list Z) (document : DomDocument) (bounds : gmap Z NodeBounds) (entry : nat * Z) : gmap Z NodeBounds :=
  match (rectangle ← dd_bounds document !! entry.1; index ← index_of entry.2; id ← ids !! index;
         rectangle ← rectangle_to_bounds rectangle; Some (id, rectangle)) with
  | Some (id, rectangle) => <[id := rectangle]> bounds
  | None => bounds
  end.
Definition document_bounds (bounds : gmap Z NodeBounds) (document : DomDocument) : gmap Z NodeBounds :=
  match dd_backend_node_id document with
  | None => bounds
  | Some ids => foldl (add_bounds ids document) bounds (imap pair (dd_node_index document))
  end.
Definition layout_bounds (dom : list DomDocument) : gmap Z NodeBounds := foldl document_bounds ∅ dom.

Definition merge_node (by_id : gmap string AxNode) (bounds : gmap Z NodeBounds) (merged : MergedSnapshot) (n : AxNode) : MergedSnapshot :=
  let role := normalized_role (ax_role n) in
  if bool_decide (role = "statictext") then
    mkMergedSnapshot (ms_nodes merged) (append_text (ms_text merged) (default "" (value_string (ax_name n))))
  else if ax_ignored n then merged
  else
    match ax_backend_dom_node_id n with
    | None => merged
    | Some backend =>
      let editable := is_editable n role in
      if negb (bool_decide (role ∈ ACTIONABLE_ROLES)) && negb editable && negb (has_flag n "focusable") then merged
      else
        mkMergedSnapshot (ms_nodes merged ++
          [mkPendingNode backend role (default "" (value_string (ax_name n))) (value_string (ax_value n)) editable (bounds !! backend)
             (option_labels n by_id role)]) (ms_text merged)
    end.
(** Later nodes with the same identifier win in [by_id]. *)
Definition merge (ax : list AxNode) (dom : list DomDocument) : MergedSnapshot :=
  let bounds := layout_bounds dom in
  let by_id := list_to_map (reverse ((λ n, (ax_node_id n, n)) <$> ax)) in
  foldl (merge_node by_id bounds) (mkMergedSnapshot [] "") ax.
End page.
