(* ===== verification/BrowserSpec.v ===== *)
(** * Browser control: the network guard and the page model

    The rules of the policy as propositions, that the guard answers every request it can read as
    they say and leaves content-free receipts, that downloads stay quarantined, and that the labels
    of a choice are collected in document order. *)

From stdpp Require Import base gmap strings list pretty.
From Stdlib Require Import Ascii.
From S2P Require Import Prelude Text PhraseCache Browser.

(** ** Policy *)

(** A rule covers a host: the host itself, or with [*.] its proper subdomains. *)
Definition covers (rule host : string) : Prop :=
  rule = host ∨ ∃ suffix sub, bytes rule = bytes "*." ++ suffix ∧ bytes host = sub ++ bytes "." ++ suffix.

Lemma str_strip_suffix_Some p s : is_Some (str_strip_suffix p s) ↔ ∃ l, bytes s = l ++ bytes p.
Proof.
  unfold str_strip_suffix. rewrite fmap_is_Some. split.
  - intros [r Hr]. apply strip_prefix_Some in Hr. exists (reverse r). apply (inj reverse). rewrite Hr, reverse_app, reverse_involutive.
    done.
  - intros [l Hl]. exists (reverse l). apply strip_prefix_Some. by rewrite Hl, reverse_app.
Qed.

Lemma domain_matches_iff rule host : domain_matches rule host = true ↔ covers rule host.
Proof.
  unfold domain_matches, covers. rewrite orb_true_iff, bool_decide_eq_true. apply or_iff_compat_l.
  destruct (str_strip_prefix "*." rule) as [suffix|] eqn:Hp.
  - apply str_strip_prefix_Some in Hp. rewrite andb_true_iff, negb_true_iff, bool_decide_eq_false, bool_decide_eq_true, str_strip_suffix_Some.
    split.
    + intros [_ [l Hl]]. exists (bytes suffix), l. split; [done|]. by rewrite Hl, bytes_app.
    + intros (l & sub & Hr & Hh). assert (l = bytes suffix) as -> by (apply (app_inv_head (bytes "*.")); congruence). split.
      * intros ->. apply (f_equal length) in Hh. rewrite !length_app in Hh. simpl in Hh. lia.
      * exists sub. by rewrite bytes_app.
  - split; [done|]. intros (l & sub & Hr & _). enough (str_strip_prefix "*." rule = Some (of_bytes l)) by congruence.
    apply str_strip_prefix_Some. by rewrite bytes_of_bytes.
Qed.
Lemma any_rule_iff rules host : any_rule rules host = true ↔ ∃ rule, rule ∈ rules ∧ covers rule host.
Proof.
  unfold any_rule. rewrite existsb_exists. split.
  - intros (rule & Hin & Hm). exists rule. split; [by apply elem_of_elements, list_elem_of_In|by apply domain_matches_iff].
  - intros (rule & Hin & Hm). exists rule. split; [by apply list_elem_of_In, elem_of_elements|by apply domain_matches_iff].
Qed.
Lemma any_rule_false rules host : any_rule rules host = false ↔ ∀ rule, rule ∈ rules → ¬ covers rule host.
Proof. rewrite <-not_true_iff_false, any_rule_iff. naive_solver. Qed.

(** Where the agent may go. *)
Definition navigable (p : BrowserPolicy) (url : Url) : Prop :=
  (url_scheme url = "http" ∨ url_scheme url = "https") ∧
  ∃ host, url_host url = Some host ∧ (∀ rule, rule ∈ bo_blocked_domains p → ¬ covers rule host) ∧
    (bo_allowed_domains p = ∅ ∨ ∃ rule, rule ∈ bo_allowed_domains p ∧ covers rule host).
Definition same_party (p : BrowserPolicy) (page resource : Url) : Prop :=
  bo_allow_third_party_subresources p = true ∨ url_host page = url_host resource.

Lemma allow_navigation_cases p url :
  (navigable p url ∧ allow_navigation p url = Ok ()) ∨ (¬ navigable p url ∧ ∃ e, allow_navigation p url = Err e).
Proof.
  unfold allow_navigation, navigable. case_bool_decide as Hs; simpl.
  2:{ right. split; [|eauto]. intros [Hs' _]. apply Hs. set_solver. }
  assert (url_scheme url = "http" ∨ url_scheme url = "https") as Hscheme by set_solver.
  destruct (url_host url) as [host|]; [|right; split; [|by eauto]; by intros (_ & h & ? & _)].
  destruct (any_rule (bo_blocked_domains p) host) eqn:Hb.
  { apply any_rule_iff in Hb as (rule & Hin & Hc). right. split; [|by eauto]. intros (_ & h & [= <-] & Hno & _). by apply (Hno rule). }
  rewrite any_rule_false in Hb. case_bool_decide as He; simpl; [left; eauto 10|].
  destruct (any_rule (bo_allowed_domains p) host) eqn:Ha; simpl.
  - apply any_rule_iff in Ha. left. eauto 10.
  - rewrite any_rule_false in Ha. right. split; [|by eauto]. intros (_ & h & [= <-] & _ & [?|(rule & Hin & Hc)]); [done|].
    by apply (Ha rule).
Qed.
Lemma allow_subresource_cases p page resource :
  (navigable p resource ∧ same_party p page resource ∧ allow_subresource p page resource = Ok ()) ∨
  (¬ (navigable p resource ∧ same_party p page resource) ∧ ∃ e, allow_subresource p page resource = Err e).
Proof.
  unfold allow_subresource, same_party. destruct (allow_navigation_cases p resource) as [[Hn ->]|[Hn [e ->]]]; simpl; [|right; naive_solver].
  destruct (bo_allow_third_party_subresources p); simpl; [left; eauto|]. case_bool_decide; simpl; [left; eauto|right; naive_solver].
Qed.

(** A request the guard lets through: it stays on the machine, or goes where the agent may go,
    and for anything but the main document to the party of the page. *)
Definition permitted (p : BrowserPolicy) (page : option Url) (resource : Url) (main_document : bool) : Prop :=
  url_scheme resource ∈ LOCAL_SCHEMES ∨
  (navigable p resource ∧ (main_document = true ∨ from_option (λ page, same_party p page resource) True page)).
Lemma decide_request_cases p page resource main :
  (permitted p page resource main ∧ decide_request p page resource main = Ok ()) ∨
  (¬ permitted p page resource main ∧ ∃ e, decide_request p page resource main = Err e).
Proof.
  unfold decide_request, permitted. case_bool_decide as Hl; [by left; eauto|].
  destruct main; [|destruct page as [page|]]; simpl.
  - destruct (allow_navigation_cases p resource) as [[Hn ->]|[Hn [e ->]]]; [left|right]; naive_solver.
  - destruct (allow_subresource_cases p page resource) as [(Hn & Hs & ->)|[Hn [e ->]]]; [left|right]; naive_solver.
  - destruct (allow_navigation_cases p resource) as [[Hn ->]|[Hn [e ->]]]; [left|right]; naive_solver.
Qed.

(** ** The guard *)

Section guard.
Context `{!UrlParser, !EventParser, !Sha256}.

(** What happens to a guard: events from the browser, and the engine telling it the page and the main frame. *)
Inductive GuardInput : Type :=
  | GuardEvent (files : string → option (list N)) (event : CdpEvent)
  | PageUrl (url : option Url)
  | MainFrame (frame : option string).
Definition guard_step (i : GuardInput) (g : NetworkGuard) : option answer * NetworkGuard :=
  match i with
  | GuardEvent files event => pump_event files event g
  | PageUrl url => (None, set_page_url url g)
  | MainFrame frame => (None, set_main_frame frame g)
  end.
Inductive guarded (p : BrowserPolicy) (quarantine : string) : NetworkGuard → Prop :=
  | guarded_new : guarded p quarantine (guard_new p quarantine)
  | guarded_step g i a g' : guarded p quarantine g → guard_step i g = (a, g') → guarded p quarantine g'.

(** The request of an input, if it is one. *)
Definition paused_request (i : GuardInput) : option (CdpEvent * RequestPaused) :=
  match i with
  | GuardEvent _ event =>
    if bool_decide (ce_method event = "Fetch.requestPaused") then pair event <$> parse_paused (ce_params event) else None
  | _ => None
  end.

(** The answer and the receipts for a request. *)
Definition answered (g : NetworkGuard) (event : CdpEvent) (paused : RequestPaused) (a : option answer) (receipts : list EgressReceipt)
    : Prop :=
  match url_parse (rp_url paused) with
  | inl _ => a = Some (ce_session_id event, FailRequest (rp_request_id paused)) ∧ receipts = []
  | inr resource =>
    ∃ r reply, receipts = [receipt (ng_sequence g) (rp_method paused) resource (rp_resource_type paused) r] ∧
      a = Some (ce_session_id event, reply) ∧
      ((permitted (ng_policy g) (ng_page_url g) resource (is_main_document g paused) ∧ r = Ok () ∧
        reply = ContinueRequest (rp_request_id paused)) ∨
       (¬ permitted (ng_policy g) (ng_page_url g) resource (is_main_document g paused) ∧ (∃ e, r = Err e) ∧
        reply = FailRequest (rp_request_id paused)))
  end.

(** The receipts are numbered from zero in order, and no download has left quarantine. *)
Definition guard_inv (p : BrowserPolicy) (quarantine : string) (g : NetworkGuard) : Prop :=
  ng_policy g = p ∧ ng_quarantine g = quarantine ∧ ng_sequence g = (N.of_nat (length (ng_receipts g)) `mod` 2 ^ 64)%N ∧
  (∀ i r, ng_receipts g !! i = Some r → eg_sequence r = (N.of_nat i `mod` 2 ^ 64)%N) ∧
  Forall (λ d, qd_state d = Quarantined) (ng_downloads g).

(** The guard after new receipts. *)
Definition with_receipts (g : NetworkGuard) (new : list EgressReceipt) : NetworkGuard :=
  match new with
  | [] => g
  | _ => g <| ng_sequence := ((ng_sequence g + 1) `mod` 2 ^ 64)%N |> <| ng_receipts := ng_receipts g ++ new |>
  end.
Lemma handle_request_spec g event a g' :
  handle_request g event = (a, g') →
  match parse_paused (ce_params event) with
  | None => a = None ∧ g' = g
  | Some paused => ∃ new, answered g event paused a new ∧ g' = with_receipts g new
  end.
Proof.
  unfold handle_request, answered. destruct (parse_paused _) as [paused|]; [|by intros [= <- <-]].
  destruct (url_parse (rp_url paused)) as [error|resource]; [intros [= <- <-]; by exists []|].
  simpl. intros [= <- <-]. eexists [_]. split; [|done]. eexists _, _. split; [done|]. split; [done|].
  destruct (decide_request_cases (ng_policy g) (ng_page_url g) resource (is_main_document g paused)) as [[Hp ->]|[Hp [e ->]]]; [left|right];
    eauto.
Qed.

Lemma numbered_snoc l r :
  (∀ i r, l !! i = Some r → eg_sequence r = (N.of_nat i `mod` 2 ^ 64)%N) → eg_sequence r = (N.of_nat (length l) `mod` 2 ^ 64)%N →
  ∀ i r', (l ++ [r]) !! i = Some r' → eg_sequence r' = (N.of_nat i `mod` 2 ^ 64)%N.
Proof.
  intros Hl Hr i r' Hi. apply lookup_app_Some in Hi as [Hi|[Hlen Hi]]; [by apply Hl|].
  apply list_lookup_singleton_Some in Hi as [Hz ->]. by replace i with (length l) by lia.
Qed.

Lemma handle_download_start_kept g event :
  ∃ pending, handle_download_start g event = g <| ng_pending_downloads := pending |>.
Proof. unfold handle_download_start. repeat case_match; try (exists (ng_pending_downloads g); by destruct g). by eexists. Qed.
Lemma handle_download_progress_kept files g event :
  ∃ pending new, Forall (λ d, qd_state d = Quarantined) new ∧
    handle_download_progress files g event = g <| ng_pending_downloads := pending |> <| ng_downloads := ng_downloads g ++ new |>.
Proof.
  unfold handle_download_progress.
  destruct (parse_progress _) as [progress|]; [|exists (ng_pending_downloads g), []; rewrite app_nil_r; by destruct g].
  destruct (dp_state progress).
  - exists (ng_pending_downloads g), []. rewrite app_nil_r. by destruct g.
  - destruct (ng_pending_downloads g !! _) as [source|]; [|exists (ng_pending_downloads g), []; rewrite app_nil_r; by destruct g].
    cbn zeta. destruct (files _) as [bytes|].
    + eexists _, [_]. split; [|done]. by constructor.
    + eexists (delete (dp_guid progress) (ng_pending_downloads g)), []. rewrite app_nil_r. by destruct g.
  - eexists (delete (dp_guid progress) (ng_pending_downloads g)), []. rewrite app_nil_r. by destruct g.
Qed.

(** What one input does to a guard. *)
Lemma guard_step_spec i g a g' :
  guard_step i g = (a, g') →
  match paused_request i with
  | Some (event, paused) => ∃ new, answered g event paused a new ∧ g' = with_receipts g new
  | None => a = None ∧ ng_policy g' = ng_policy g ∧ ng_quarantine g' = ng_quarantine g ∧ ng_sequence g' = ng_sequence g ∧
      ng_receipts g' = ng_receipts g ∧
      ∃ new, Forall (λ d, qd_state d = Quarantined) new ∧ ng_downloads g' = ng_downloads g ++ new
  end.
Proof.
  assert (∀ h, ng_policy h = ng_policy g → ng_quarantine h = ng_quarantine g → ng_sequence h = ng_sequence g →
    ng_receipts h = ng_receipts g → ng_downloads h = ng_downloads g → (None, h) = (a, g') →
    a = None ∧ ng_policy g' = ng_policy g ∧ ng_quarantine g' = ng_quarantine g ∧ ng_sequence g' = ng_sequence g ∧
      ng_receipts g' = ng_receipts g ∧ ∃ new, Forall (λ d, qd_state d = Quarantined) new ∧ ng_downloads g' = ng_downloads g ++ new) as Hkeep.
  { intros h ????? [= <- <-]. split_and!; try done. exists []. by rewrite app_nil_r. }
  destruct i as [files event|url|frame]; simpl; [|by apply Hkeep..]. unfold pump_event.
  case_bool_decide as Hm.
  { intros Hr. apply handle_request_spec in Hr. destruct (parse_paused _); [done|]. destruct Hr as [-> ->]. by apply (Hkeep g). }
  case_bool_decide; [destruct (handle_download_start_kept g event) as [pending ->]; by apply Hkeep|].
  case_bool_decide; [|by apply Hkeep].
  destruct (handle_download_progress_kept files g event) as (pending & new & Hq & ->). intros [= <- <-]. split_and!; try done. by exists new.
Qed.

Lemma guarded_inv p quarantine g : guarded p quarantine g → guard_inv p quarantine g.
Proof.
  induction 1 as [|g i a g' _ (Hp & Hq & Hs & Hn & Hd) Hstep]; [done|]. apply guard_step_spec in Hstep.
  destruct (paused_request i) as [[event paused]|].
  - destruct Hstep as (new & Ha & ->). unfold answered in Ha. destruct (url_parse (rp_url paused)) as [error|resource].
    + by destruct Ha as [_ ->].
    + destruct Ha as (r & reply & -> & _). unfold guard_inv. simpl. split_and!; [done..| |by apply numbered_snoc|done].
      rewrite Hs, length_app. simpl. rewrite Nat2N.inj_add, N.Div0.add_mod_idemp_l. done.
  - destruct Hstep as (_ & E1 & E2 & E3 & E4 & new & Hnew & E5). unfold guard_inv. rewrite E1, E2, E3, E4, E5.
    split_and!; [done..|]. by apply Forall_app.
Qed.

(** C37: whatever events arrive, and whatever page and main frame the engine names, the guard is exact.  Every paused request
    it can read is answered once and at once: it goes on when its scheme never reaches the network, or when the policy allows
    its host and, for anything but the main document, it belongs to the page's party; otherwise it fails.  Each answered
    request whose address parses leaves one receipt, nothing else leaves any, receipts keep their order and are numbered
    without gaps (modulo the width of the counter), and no download leaves quarantine. *)
Theorem network_guard_is_exact p quarantine g i a g' :
  guarded p quarantine g → guard_step i g = (a, g') →
  guard_inv p quarantine g' ∧ ng_policy g = p ∧
  match paused_request i with
  | Some (event, paused) => ∃ new, answered g event paused a new ∧ ng_receipts g' = ng_receipts g ++ new
  | None => a = None ∧ ng_receipts g' = ng_receipts g
  end.
Proof.
  intros Hg Hstep. split; [by eapply guarded_inv, guarded_step|]. split; [by apply guarded_inv in Hg as [? _]|].
  apply guard_step_spec in Hstep. destruct (paused_request i) as [[event paused]|]; [|by destruct Hstep as (? & _ & _ & _ & ? & _)].
  destruct Hstep as (new & Ha & ->). exists new. split; [done|]. destruct new; simpl; [by rewrite app_nil_r|done].
Qed.

(** Receipts are free of content: requests that agree in method, type, scheme, host and the digest of the path get the same
    receipt and the same decision, whatever else their addresses hold. *)
Theorem receipts_are_content_free p page main sequence method kind r1 r2 :
  url_scheme r1 = url_scheme r2 → url_host r1 = url_host r2 → sha256 (path_bytes (url_path r1)) = sha256 (path_bytes (url_path r2)) →
  decide_request p page r1 main = decide_request p page r2 main ∧
  receipt sequence method r1 kind (decide_request p page r1 main) = receipt sequence method r2 kind (decide_request p page r2 main).
Proof.
  intros Hs Hh Hd. assert (decide_request p page r1 main = decide_request p page r2 main) as Heq.
  { unfold decide_request, allow_subresource, allow_navigation. by rewrite Hs, Hh. }
  split; [done|]. rewrite Heq. unfold receipt. by rewrite Hs, Hh, Hd.
Qed.

(** A download is released only after a scan has passed, once. *)
Theorem release_needs_a_scan d r d' :
  release d = (r, d') → (qd_state d = ScanPassed ∧ r = Ok () ∧ qd_state d' = Released ∧ qd_sha256 d' = qd_sha256 d ∧ release d' = (Err DownloadNotScanned, d')) ∨
    (qd_state d ≠ ScanPassed ∧ r = Err DownloadNotScanned ∧ d' = d).
Proof. unfold release. destruct (qd_state d) eqn:Hd; intros [= <- <-]; simpl; auto 10. Qed.
End guard.

(** ** Choices *)

Section choices.
Context `{!JsonDisplay}.

Definition own_label (n : AxNode) : list string :=
  if bool_decide (normalized_role (ax_role n) ∈ OPTION_ROLES) then [default "" (value_string (ax_name n))] else [].

(** The labels below some nodes in document order, a node after what it contains, and how many nodes there are; a finite tree
    has exactly one such list. *)
Inductive document_order (by_id : gmap string AxNode) : list string → list string → nat → Prop :=
  | order_nil : document_order by_id [] [] 0
  | order_missing id ids labels n :
      by_id !! id = None → document_order by_id ids labels n → document_order by_id (id :: ids) labels (S n)
  | order_node id child ids inner m labels n :
      by_id !! id = Some child → document_order by_id (default [] (ax_child_ids child)) inner m → document_order by_id ids labels n →
      document_order by_id (id :: ids) (inner ++ own_label child ++ labels) (S (m + n)).

Lemma visit_options_order by_id ids labels n :
  document_order by_id ids labels n →
  ∀ budget frontier found, n ≤ budget →
    visit_options by_id budget (reverse ids ++ frontier) found = visit_options by_id (budget - n) frontier (found ++ reverse labels).
Proof.
  induction 1 as [|id ids labels n Hid _ IH|id child ids inner m labels n Hid _ IHin _ IH]; intros budget frontier found Hn.
  - simpl. by rewrite Nat.sub_0_r, app_nil_r.
  - rewrite reverse_cons, <-app_assoc, IH by lia. simpl. replace (budget - n) with (S (budget - S n)) by lia. simpl. by rewrite Hid.
  - rewrite reverse_cons, <-app_assoc, IH by lia. simpl. replace (budget - n) with (S (budget - n - 1)) by lia. simpl. rewrite Hid.
    rewrite IHin by lia. f_equal; [lia|]. rewrite !reverse_app. unfold own_label. case_bool_decide; simpl; by rewrite <-?app_assoc.
Qed.

(** The labels of a choice are those of its options in document order, when it has at most 4096 nodes below it. *)
Theorem options_are_in_document_order by_id n role labels size :
  role ∈ OPTION_OWNER_ROLES → document_order by_id (default [] (ax_child_ids n)) labels size → size ≤ 4096 →
  option_labels n by_id role = labels.
Proof.
  intros Hrole Horder Hsize. unfold option_labels. rewrite bool_decide_eq_true_2 by done. cbn [negb].
  rewrite <-(app_nil_r (reverse (default _ _))), (visit_options_order _ _ _ _ Horder) by done.
  rewrite app_nil_l. assert (∀ budget found, visit_options by_id budget [] found = found) as -> by (by intros []).
  by rewrite reverse_involutive.
Qed.

(** What may be acted on: nodes that are shown, belong to the document, and are a control, editable or focusable. *)
Definition actionable (n : AxNode) (backend : Z) : Prop :=
  let role := normalized_role (ax_role n) in
  role ≠ "statictext" ∧ ax_ignored n = false ∧ ax_backend_dom_node_id n = Some backend ∧
  (role ∈ ACTIONABLE_ROLES ∨ is_editable n role = true ∨ has_flag n "focusable" = true).
Lemma merge_node_spec by_id bounds merged n :
  (∃ backend, actionable n backend ∧
    merge_node by_id bounds merged n = mkMergedSnapshot (ms_nodes merged ++
      [mkPendingNode backend (normalized_role (ax_role n)) (default "" (value_string (ax_name n))) (value_string (ax_value n))
        (is_editable n (normalized_role (ax_role n))) (bounds !! backend) (option_labels n by_id (normalized_role (ax_role n)))])
      (ms_text merged)) ∨
  ((∀ backend, ¬ actionable n backend) ∧ ms_nodes (merge_node by_id bounds merged n) = ms_nodes merged).
Proof.
  unfold merge_node, actionable. case_bool_decide as Hrole; [right; naive_solver|]. destruct (ax_ignored n); [right; naive_solver|].
  destruct (ax_backend_dom_node_id n) as [backend|]; [|right; naive_solver].
  destruct (_ && _ && _) eqn:Hdrop.
  - rewrite !andb_true_iff, !negb_true_iff, bool_decide_eq_false in Hdrop. right. split; [|done]. intros backend' (_ & _ & _ & Hor).
    destruct Hdrop as [[H1 H2] H3]. destruct Hor as [?|[?|?]]; congruence.
  - left. exists backend. split; [|done]. rewrite !andb_false_iff, !negb_false_iff, bool_decide_eq_true in Hdrop. naive_solver.
Qed.

(** A page offers exactly the actionable nodes, in the order of the tree. *)
Theorem pages_offer_actionable_nodes ax dom backend :
  (∃ n, n ∈ ms_nodes (merge ax dom) ∧ pn_backend_node_id n = backend) ↔ ∃ a, a ∈ ax ∧ actionable a backend.
Proof.
  unfold merge. set (by_id := list_to_map _). set (start := mkMergedSnapshot [] "").
  enough (∀ merged, (∃ n, n ∈ ms_nodes (foldl (merge_node by_id (layout_bounds dom)) merged ax) ∧ pn_backend_node_id n = backend) ↔
    (∃ n, n ∈ ms_nodes merged ∧ pn_backend_node_id n = backend) ∨ ∃ a, a ∈ ax ∧ actionable a backend) as Hall.
  { rewrite Hall. unfold start. simpl. set_solver. }
  clearbody by_id. induction ax as [|a ax IH]; intros merged; simpl; [set_solver|]. rewrite IH.
  destruct (merge_node_spec by_id (layout_bounds dom) merged a) as [(b & Hact & ->)|[Hno ->]].
  - assert (actionable a backend → backend = b) as Huniq by (unfold actionable in *; intros (_ & _ & H1 & _); destruct Hact as (_ & _ & H2 & _); congruence).
    simpl. setoid_rewrite elem_of_app. setoid_rewrite list_elem_of_singleton. setoid_rewrite elem_of_cons. split.
    + intros [(n & [Hn|Hn] & Hb)|(a' & ? & ?)]; [by eauto| |by eauto 6]. subst n. simpl in Hb. subst b. eauto 6.
    + intros [(n & Hn & Hb)|(a' & [->|Hin] & Ha)]; [by eauto 6| |by eauto]. rewrite (Huniq Ha). left. eexists. split; [by right|done].
  - setoid_rewrite elem_of_cons. naive_solver.
Qed.
End choices.

(** ** Examples *)

Module GuardSamples.
#[local] Instance sample_urls : UrlParser := {| url_parse s :=
  if str_starts_with "https://" s then inr (mkUrl s "https" (Some (of_bytes (drop 8 (bytes s)))) "/") else inl "relative URL without a base" |}.
(** An event is the array of the identifier, the address, the frame and the resource type. *)
#[local] Instance sample_events : EventParser := {|
  parse_paused v := match v with
    | VArray [VString id; VString url; VString frame; VString kind] => Some (mkRequestPaused id url "GET" frame kind) | _ => None end;
  parse_will_begin v := match v with VArray [VString guid; VString url] => Some (mkDownloadWillBegin guid url) | _ => None end;
  parse_progress v := match v with VString guid => Some (mkDownloadProgress guid Completed None) | _ => None end |}.
#[local] Instance no_digest : Sha256 := {| sha256 _ := [] |}.

Definition sample_policy : BrowserPolicy := mkBrowserPolicy ∅ {["evil.test"]} false.
Definition request (url frame kind : string) : CdpEvent :=
  mkCdpEvent "Fetch.requestPaused" (Some "tab") (VArray [VString "r1"; VString url; VString frame; VString kind]).
Definition ask (url frame kind : string) : GuardInput := GuardEvent (λ _, None) (request url frame kind).
Definition page (host : string) : Url := mkUrl ("https://" +:+ host) "https" (Some host) "/".
Definition sample_guard : NetworkGuard := set_main_frame (Some "main") (set_page_url (Some (page "a.test")) (guard_new sample_policy "/q")).
Lemma sample_guarded : guarded sample_policy "/q" sample_guard.
Proof.
  eapply (guarded_step _ _ _ (MainFrame (Some "main"))); [|reflexivity]. eapply (guarded_step _ _ _ (PageUrl (Some (page "a.test")))); [|reflexivity].
  apply guarded_new.
Defined.

Lemma network_guard_is_exact_witness :
  ∃ g', guard_step (ask "https://cdn.test" "main" "Script") sample_guard = (Some (Some "tab", FailRequest "r1"), g') ∧
    guard_inv sample_policy "/q" g' ∧ length (ng_receipts g') = 1.
Proof.
  eexists. split; [vm_compute; reflexivity|].
  destruct (network_guard_is_exact sample_policy "/q" sample_guard (ask "https://cdn.test" "main" "Script") _ _ sample_guarded eq_refl)
    as [Hinv _].
  split; [exact Hinv|vm_compute; reflexivity].
Defined.

(** The requests of the page itself and of its party go on. *)
Example own_requests_go_on :
  (guard_step (ask "https://a.test" "main" "Script") sample_guard).1 = Some (Some "tab", ContinueRequest "r1") ∧
  (guard_step (ask "https://b.test" "main" "Document") sample_guard).1 = Some (Some "tab", ContinueRequest "r1").
Proof. split; vm_compute; reflexivity. Qed.

(** A request whose address does not parse fails, but leaves no receipt. *)
Example unreadable_requests_leave_no_receipt :
  guard_step (ask "ws:/bad" "main" "Other") sample_guard = (Some (Some "tab", FailRequest "r1"), sample_guard).
Proof. vm_compute. reflexivity. Qed.

(** A host written with its final dot is not covered by the rule for it, so a blocked host is reached. *)
Example final_dots_evade_the_block_list :
  allow_navigation sample_policy (page "evil.test") = Err (DomainBlocked "evil.test") ∧
  allow_navigation sample_policy (page "evil.test.") = Ok ().
Proof. split; vm_compute; reflexivity. Qed.

(** Documents of another tab than the first are not main documents, so a redirect to another host fails there. *)
Example other_tabs_are_judged_as_subresources :
  (guard_step (ask "https://b.test" "second" "Document") sample_guard).1 = Some (Some "tab", FailRequest "r1").
Proof. vm_compute. reflexivity. Qed.

(** A list of one option and a group of two. *)
#[local] Instance no_json : JsonDisplay := {| json_display _ := "" |}.
Definition ax (id role name : string) (children : list string) : AxNode :=
  mkAxNode id false (Some (Some (VString role))) (Some (Some (VString name))) None None (Some children) (Some 1%Z).
Definition sample_tree : gmap string AxNode :=
  list_to_map ((λ n, (ax_node_id n, n)) <$>
    [ax "a" "option" "one" []; ax "g" "group" "" ["b"; "c"]; ax "b" "option" "two" []; ax "c" "option" "three" []]).
Lemma options_are_in_document_order_witness :
  option_labels (ax "s" "listbox" "" ["a"; "g"]) sample_tree "listbox" = ["one"; "two"; "three"].
Proof.
  apply (options_are_in_document_order sample_tree (ax "s" "listbox" "" ["a"; "g"]) "listbox" ["one"; "two"; "three"] 4); [|  |lia].
  - apply elem_of_cons; right; apply elem_of_cons; by left.
  - apply (order_node _ "a" (ax "a" "option" "one" []) ["g"] [] 0 ["two"; "three"] 3); [vm_compute; reflexivity|constructor|].
    apply (order_node _ "g" (ax "g" "group" "" ["b"; "c"]) [] ["two"; "three"] 2 [] 0); [vm_compute; reflexivity| |constructor].
    apply (order_node _ "b" (ax "b" "option" "two" []) ["c"] [] 0 ["three"] 1); [vm_compute; reflexivity|constructor|].
    apply (order_node _ "c" (ax "c" "option" "three" []) [] [] 0 [] 0); [vm_compute; reflexivity|constructor|constructor].
Defined.

(** Of a list with more than 4096 options the first ones are lost, so a position in the labels is not the position in the list. *)
Definition long_list : list string := (λ i, pretty (N.of_nat i)) <$> seq 0 4097.
Example long_lists_lose_their_first_options :
  head (option_labels (ax "s" "listbox" "" long_list) (list_to_map ((λ i, (i, ax i "option" i [])) <$> long_list)) "listbox") = Some "1".
Proof. vm_compute. reflexivity. Qed.
End GuardSamples.
