(* ===== verification/BrowserEngine.v ===== *)
(** * Browser control: the Chromium engine

    Models [crates/browser/src/cdp.rs], [cdp/actions.rs] and [cdp/launch.rs]: finding or fetching a
    Chromium, starting an isolated session with the network guard armed, reading pages under fresh
    generations, and the actions on handles.  The browser behind the protocol pipe, the file system and
    the network are an interface over the world that they change; every protocol command is one call of
    it.  Operations run one at a time, and the guard's events are handled between them. *)

From stdpp Require Import base gmap strings list pretty.
From Stdlib Require Import Ascii SpecFloat.
From S2P Require Import Prelude Text PhraseCache Browser.

(** ** Finding a Chromium *)

Definition CHROME_PATH_ENV : string := "PERSONAL_AGENT_CHROME".
Inductive ChromiumSource : Type := Configured | System | Managed.
Record ChromiumBinary : Type := mkChromiumBinary { cb_path : string; cb_source : ChromiumSource }.
Record PinnedBuild : Type := mkPinnedBuild {
  pb_snapshot_platform : string; pb_revision : N; pb_archive : string; pb_binary : string; pb_sha256 : string;
}.
Record PinFile : Type := mkPinFile { pf_base_url : string; pf_platforms : gmap string PinnedBuild }.

Definition SYSTEM_EXECUTABLES : list string :=
  ["google-chrome-stable"; "google-chrome"; "chromium"; "chromium-browser"; "microsoft-edge-stable"; "microsoft-edge"].
Definition WELL_KNOWN_PATHS : list string :=
  ["/usr/bin/google-chrome-stable"; "/usr/bin/chromium"; "/usr/bin/chromium-browser"; "/snap/bin/chromium"; "/usr/bin/microsoft-edge-stable"].
Definition current_target : string := "x86_64-unknown-linux-gnu".
Definition no_browser_remediation : string :=
  "install Google Chrome, Chromium, or Microsoft Edge, or point " +:+ CHROME_PATH_ENV +:+
  " at a Chromium-family executable, or enable the managed download for target " +:+ current_target.
Definition base_arguments (profile_dir : string) (headless sandbox : bool) : list string :=
  ["--user-data-dir=" +:+ profile_dir; "--remote-debugging-pipe"; "--no-first-run"; "--no-default-browser-check";
   "--disable-background-networking"; "--disable-component-update"; "--disable-client-side-phishing-detection"; "--disable-sync";
   "--metrics-recording-only"; "--no-service-autorun"; "--password-store=basic"; "--use-mock-keychain";
   "--disable-features=Translate,MediaRouter,OptimizationHints,AcceptCHFrame"]
  ++ (if headless then ["--headless=new"; "--disable-gpu"] else []) ++ (if sandbox then [] else ["--no-sandbox"]) ++ ["about:blank"].

(** ** The protocol *)

Inductive MouseKind : Type := MouseMoved | MousePressed | MouseReleased.
Inductive KeyKind : Type := RawKeyDown | KeyUp.
Record TargetInfo : Type := mkTargetInfo { ti_target_id : string; ti_type : string; ti_url : string; ti_title : string }.

(** The commands that are sent, indexed by the part of the response that is read. *)
Inductive CdpCommand : Type → Type :=
  | CreateTarget (url : string) : CdpCommand string
  | AttachToTarget (target : string) : CdpCommand string
  | PageEnable : CdpCommand ()
  | DomEnable : CdpCommand ()
  | AccessibilityEnable : CdpCommand ()
  | NetworkEnable : CdpCommand ()
  | FetchEnable (pattern : string) : CdpCommand ()
  | SetDownloadBehavior (path : string) : CdpCommand ()
  | GetFrameTree : CdpCommand string
  | GetTargetInfo (target : string) : CdpCommand TargetInfo
  | GetFullAxTree : CdpCommand (list AxNode)
  | CaptureSnapshot (styles : list string) : CdpCommand (list DomDocument)
  | NavigateTo (url : string) : CdpCommand (option string)
  | GetCookies : CdpCommand (list string)
  | GetTargets : CdpCommand (list TargetInfo)
  | CloseTarget (target : string) : CdpCommand ()
  | ScrollIntoViewIfNeeded (node : Z) : CdpCommand ()
  | GetBoxModel (node : Z) : CdpCommand (list f64)
  | DispatchMouseEvent (kind : MouseKind) (x y : f64) (clicks : Z) : CdpCommand ()
  | DispatchMouseWheel (x y delta_x delta_y : f64) : CdpCommand ()
  | DispatchKeyEvent (kind : KeyKind) (key : string) (code : Z) : CdpCommand ()
  | Focus (node : Z) : CdpCommand ()
  | InsertText (text : string) : CdpCommand ()
  | SetFileInputFiles (files : list string) (node : Z) : CdpCommand ()
  | CaptureScreenshot : CdpCommand string
  | PrintToPdf : CdpCommand string.

Inductive RemoveResult : Type := Removed | NotFound | RemoveFailed (error : string).
Class CdpHost (W : Type) : Type := {
  cdp_send : ∀ {R}, option string → CdpCommand R → W → (BrowserError + R) * W;
  (** Waits until the session has loaded, or gives up after the timeout. *)
  await_load_event : string → W → W;
  host_sleep : N → W → W;
  canonicalize : W → string → string + string;
  is_file : W → string → bool;
  env_var_os : W → string → option string;
  (** The directories of [PATH], if it is set. *)
  path_directories : W → option (list string);
  create_dir_all : string → W → option string * W;
  remove_dir_all : string → W → RemoveResult * W;
  new_v4 : W → string * W;
  (** Starts the executable with the arguments, with the protocol on inherited pipes. *)
  spawn_browser : string → list string → W → option BrowserError * W;
  kill_browser : W → W;
  (** The error, or whether the status was a success, the status and the body. *)
  http_get : string → W → (string + (bool * string * (string + list N))) * W;
  unpack : list N → string → W → option BrowserError * W;
}.
(** What the text of errors uses: the debug text of a string, and base64. *)
Class BrowserText : Type := { debug_str : string → string; base64_decode : string → string + list N }.
Definition debug_list `{!BrowserText} (l : list string) : string := "[" +:+ join ", " (debug_str <$> l) +:+ "]".
Definition debug_option `{!BrowserText} (o : option string) : string :=
  match o with Some s => "Some(" +:+ debug_str s +:+ ")" | None => "None" end.

(** ** Configuration and state *)

Inductive ProfileKind : Type := Ephemeral | Persistent (name : string).
Record CdpConfig : Type := mkCdpConfig {
  cc_policy : BrowserPolicy;
  cc_profile : ProfileKind;
  cc_profile_root : string;
  cc_quarantine_dir : string;
  cc_managed_root : string;
  cc_headless : bool;
  cc_sandbox : bool;
  cc_executable : option string;
  cc_allow_managed_download : bool;
  cc_extra_arguments : list string;
}.
Definition cdp_config_default (temp_dir : string) : CdpConfig :=
  let root := path_join temp_dir "personal-agent-browser" in
  mkCdpConfig (mkBrowserPolicy ∅ ∅ false) Ephemeral (path_join root "profiles") (path_join root "quarantine") (path_join root "managed")
    false true None false [].

Record TabInfo : Type := mkTabInfo { tab_target_id : string; tab_url : string; tab_title : string; tab_active : bool }.
Record NodeRecord : Type := mkNodeRecord { nr_backend_node_id : Z; nr_options : list string }.
Record Session : Type := mkSession {
  se_guard : NetworkGuard;
  se_profile_dir : string;
  se_ephemeral : bool;
  se_target_id : string;
  se_attachment_id : string;
  se_executable : ChromiumBinary;
}.
Global Instance Session_eta : Eta Session :=
  λ r, mkSession (se_guard r) (se_profile_dir r) (se_ephemeral r) (se_target_id r) (se_attachment_id r) (se_executable r).
Record CdpBrowser : Type := mkCdpBrowser {
  br_config : CdpConfig;
  br_session : option Session;
  br_page_id : string;
  br_generation : N;
  br_nodes : gmap string NodeRecord;
  br_current : option PageSnapshot;
  br_takeover : bool;
  br_approved_uploads : list string;
}.
Global Instance CdpBrowser_eta : Eta CdpBrowser :=
  λ r, mkCdpBrowser (br_config r) (br_session r) (br_page_id r) (br_generation r) (br_nodes r) (br_current r) (br_takeover r)
    (br_approved_uploads r).
Definition browser_new (config : CdpConfig) : CdpBrowser := mkCdpBrowser config None "" 0 ∅ None false [].

Definition binary (b : CdpBrowser) : option ChromiumBinary := se_executable <$> br_session b.
Definition profile_dir (b : CdpBrowser) : option string := se_profile_dir <$> br_session b.
Definition receipts (b : CdpBrowser) : list EgressReceipt := default [] ((λ s, ng_receipts (se_guard s)) <$> br_session b).
Definition downloads (b : CdpBrowser) : list QuarantinedDownload := default [] ((λ s, ng_downloads (se_guard s)) <$> br_session b).

(** [trimmed.chars().all(..)]: a byte of another character is neither. *)
Definition profile_char (c : ascii) : bool := is_ascii_alphanumeric c || bool_decide (c ∈ bytes "-_.").
Definition sanitize `{!BrowserText} (name : string) : outcome BrowserError string :=
  let trimmed := trim name in
  if is_empty trimmed || negb (forallb profile_char (bytes trimmed)) || str_starts_with "." trimmed
  then Err (Operation ("profile name " +:+ debug_str name +:+ " must be non-empty ASCII alphanumeric with '-', '_', or '.'"))
  else Ok trimmed.

Section engine.
Context {W : Type} `{!CdpHost W, !BrowserText, !UrlParser, !EventParser, !JsonDisplay, !Sha256}.

(** The engine and the world. *)
Definition BM (A : Type) : Type := M (CdpBrowser * W) BrowserError A.
Definition browser : BM CdpBrowser := λ s, (Ok s.1, s).
Definition world : BM W := λ s, (Ok s.2, s).
Definition update (f : CdpBrowser → CdpBrowser) : BM () := λ s, (Ok (), (f s.1, s.2)).
Definition host {A} (f : W → A * W) : BM A := λ s, let '(a, w) := f s.2 in (Ok a, (s.1, w)).
Definition effect (f : W → W) : BM () := λ s, (Ok (), (s.1, f s.2)).
Definition ok_or_fail {A} (r : BrowserError + A) : BM A := match r with inr a => mret a | inl e => throw e end.
Definition send {R} (session : option string) (command : CdpCommand R) : BM R := r ← host (cdp_send session command); ok_or_fail r.

Definition approve_upload (path : string) : BM () :=
  w ← world;
  match canonicalize w path with
  | inl error => throw (UploadPathNotApproved (path +:+ ": " +:+ error))
  | inr resolved =>
    _ ← reject_if (negb (is_file w resolved)) (UploadPathNotApproved resolved);
    update (λ b, if bool_decide (resolved ∈ br_approved_uploads b) then b
                 else b <| br_approved_uploads := br_approved_uploads b ++ [resolved] |>)
  end.

Definition session : BM Session :=
  b ← browser; match br_session b with Some s => mret s | None => throw (BrowserUnavailable "no browser session is open") end.
Definition guard_takeover : BM () := b ← browser; reject_if (br_takeover b) TakeoverActive.
Definition update_guard (f : NetworkGuard → NetworkGuard) : BM () :=
  update (λ b, b <| br_session := (λ s : Session, s <| se_guard := f (se_guard s) |>) <$> br_session b |>).

(** *** Starting *)

Definition search_path (w : W) (name : string) : option string :=
  directories ← path_directories w; find (is_file w) ((λ directory, path_join directory name) <$> directories).
Definition discover_system_chromium (w : W) (configured : option string) : option ChromiumBinary :=
  match configured ≫= (λ path, if is_file w path then Some path else None) with
  | Some path => Some (mkChromiumBinary path Configured)
  | None =>
    match env_var_os w CHROME_PATH_ENV ≫= (λ path, if is_file w path then Some path else None) with
    | Some path => Some (mkChromiumBinary path Configured)
    | None =>
      match omap (search_path w) SYSTEM_EXECUTABLES with
      | path :: _ => Some (mkChromiumBinary path System)
      | [] => (λ path, mkChromiumBinary path System) <$> find (is_file w) WELL_KNOWN_PATHS
      end
    end
  end.

Definition download_verified (url expected : string) : BM (list N) :=
  r ← host (http_get url);
  match r with
  | inl error => throw (BrowserUnavailable ("cannot download " +:+ url +:+ ": " +:+ error))
  | inr (success, status, body) =>
    _ ← reject_if (negb success) (BrowserUnavailable (url +:+ " returned HTTP " +:+ status));
    match body with
    | inl error => throw (BrowserUnavailable ("cannot read " +:+ url +:+ ": " +:+ error))
    | inr body =>
      let digest := hex_digest (sha256 body) in
      _ ← reject_if (negb (bool_decide (digest = expected)))
            (Operation ("pinned Chromium digest mismatch for " +:+ url +:+ ": expected " +:+ expected +:+ ", got " +:+ digest));
      mret body
    end
  end.
Definition trim_end_slashes (s : string) : string :=
  of_bytes (reverse (let fix go l := match l with c :: l' => if bool_decide (c = "/"%char) then go l' else l | [] => [] end
                     in go (reverse (bytes s)))).
Definition option_fail (r : option BrowserError) : BM () := match r with None => mret () | Some e => throw e end.
(** [pins] is the parsed pin file, or the text of the error. *)
Definition fetch_managed_chromium (pins : string + PinFile) (root : string) : BM ChromiumBinary :=
  match pins with
  | inl error => throw (Operation ("chromium-pins.json is invalid: " +:+ error))
  | inr pins =>
    match pf_platforms pins !! current_target with
    | None => throw (BrowserUnavailable ("no pinned Chromium is published for " +:+ current_target +:+ "; " +:+ no_browser_remediation))
    | Some build =>
      let install := path_join root ("chromium-" +:+ pb_snapshot_platform build +:+ "-" +:+ pretty (pb_revision build)) in
      let binary := path_join install (pb_binary build) in
      w ← world;
      if is_file w binary then mret (mkChromiumBinary binary Managed)
      else
        let url := trim_end_slashes (pf_base_url pins) +:+ "/" +:+ pb_snapshot_platform build +:+ "/" +:+ pretty (pb_revision build)
                   +:+ "/" +:+ pb_archive build in
        archive ← download_verified url (pb_sha256 build);
        r ← host (unpack archive install);
        _ ← option_fail r;
        w ← world;
        _ ← reject_if (negb (is_file w binary)) (Operation ("pinned Chromium archive did not contain " +:+ pb_binary build));
        mret (mkChromiumBinary binary Managed)
    end
  end.
Definition resolve_binary (pins : string + PinFile) : BM ChromiumBinary :=
  b ← browser;
  w ← world;
  match discover_system_chromium w (cc_executable (br_config b)) with
  | Some found => mret found
  | None =>
    if cc_allow_managed_download (br_config b) then fetch_managed_chromium pins (cc_managed_root (br_config b))
    else throw (BrowserUnavailable ("no Chromium-family browser found: " +:+ no_browser_remediation))
  end.

Definition profile_dir_for (profile_id : string) : BM (string * bool) :=
  b ← browser;
  match cc_profile (br_config b) with
  | Ephemeral =>
    name ← lift (sanitize profile_id);
    id ← host new_v4;
    mret (path_join (cc_profile_root (br_config b)) ("task-" +:+ name +:+ "-" +:+ id), true)
  | Persistent name =>
    name ← lift (sanitize name);
    mret (path_join (path_join (cc_profile_root (br_config b)) "persistent") name, false)
  end.
Definition create_dir (path : string) : BM () :=
  r ← host (create_dir_all path);
  match r with None => mret () | Some error => throw (Operation ("cannot create " +:+ path +:+ ": " +:+ error)) end.
Definition launch (executable dir : string) (headless sandbox : bool) (extra : list string) : BM () :=
  r ← host (spawn_browser executable (base_arguments dir headless sandbox ++ extra)); option_fail r.

Definition arm_session (id : string) : BM () :=
  let s := Some id in
  _ ← send s PageEnable; _ ← send s DomEnable; _ ← send s AccessibilityEnable; _ ← send s NetworkEnable; send s (FetchEnable "*").
Definition set_download_behavior (quarantine : string) : BM () := send None (SetDownloadBehavior quarantine).

Definition start (pins : string + PinFile) (profile_id : string) : BM () :=
  binary ← resolve_binary pins;
  dir ← profile_dir_for profile_id;
  let '(dir, ephemeral) := dir in
  _ ← create_dir dir;
  b ← browser;
  let config := br_config b in
  _ ← create_dir (cc_quarantine_dir config);
  _ ← launch (cb_path binary) dir (cc_headless config) (cc_sandbox config) (cc_extra_arguments config);
  let guard := guard_new (cc_policy config) (cc_quarantine_dir config) in
  target ← send None (CreateTarget "about:blank");
  attachment ← send None (AttachToTarget target);
  _ ← arm_session attachment;
  _ ← set_download_behavior (cc_quarantine_dir config);
  frame ← send (Some attachment) GetFrameTree;
  let guard := set_main_frame (Some frame) guard in
  update (λ b, b <| br_page_id := target |> <| br_generation := 0%N |>
                 <| br_session := Some (mkSession guard dir ephemeral target attachment binary) |>).
Definition open_isolated_profile (pins : string + PinFile) (profile_id : string) : BM () :=
  b ← browser;
  _ ← reject_if (bool_decide (is_Some (br_session b))) (Operation "browser session is already open");
  _ ← lift (validate_profile (mkBrowserProfile profile_id true false));
  start pins profile_id.

(** *** Reading *)

Definition bind_node (b : CdpBrowser) (n : PendingNode) : SnapshotNode :=
  mkSnapshotNode (mkNodeHandle (br_page_id b) (br_generation b) (pretty (pn_backend_node_id n))) (pn_role n) (pn_name n) (pn_value n)
    (pn_editable n) (pn_bounds n) (pn_options n).
Definition bind_nodes (nodes : list PendingNode) : gmap string NodeRecord :=
  foldl (λ m n, <[pretty (pn_backend_node_id n) := mkNodeRecord (pn_backend_node_id n) (pn_options n)]> m) ∅ nodes.
Definition saturating_succ (n : N) : N := N.min (n + 1) (2 ^ 64 - 1).
Definition bind_generation (merged : MergedSnapshot) (url : Url) (title : string) (b : CdpBrowser) : PageSnapshot * CdpBrowser :=
  let b := b <| br_generation := saturating_succ (br_generation b) |> <| br_nodes := bind_nodes (ms_nodes merged) |> in
  let nodes := bind_node b <$> ms_nodes merged in
  let snapshot := mkPageSnapshot (br_page_id b) (br_generation b) url title (ms_text merged) (sn_handle <$> nodes) nodes in
  (snapshot, b <| br_current := Some snapshot |>).
Definition about_blank : Url := mkUrl "about:blank" "about" None "blank".
Definition read_page : BM PageSnapshot :=
  s ← session;
  info ← send None (GetTargetInfo (se_target_id s));
  ax ← send (Some (se_attachment_id s)) GetFullAxTree;
  dom ← send (Some (se_attachment_id s)) (CaptureSnapshot ["display"]);
  let merged := merge ax dom in
  let url := match url_parse (ti_url info) with inr url => url | inl _ => about_blank end in
  _ ← session;
  _ ← update_guard (set_page_url (Some url));
  b ← browser;
  let '(snapshot, b) := bind_generation merged url (ti_title info) b in
  _ ← update (λ _, b);
  mret snapshot.
Definition snapshot : BM PageSnapshot := read_page.

Definition await_load : BM () := s ← session; effect (await_load_event (se_attachment_id s)).
Definition navigate (url : Url) : BM PageSnapshot :=
  _ ← guard_takeover;
  b ← browser;
  _ ← lift (allow_navigation (cc_policy (br_config b)) url);
  s ← session;
  _ ← update_guard (set_page_url (Some url));
  r ← send (Some (se_attachment_id s)) (NavigateTo (url_text url));
  match r with
  | Some error => throw (Operation ("navigation to " +:+ url_text url +:+ " failed: " +:+ error))
  | None => _ ← await_load; snapshot
  end.

Definition cookie_names : BM (list string) := s ← session; send (Some (se_attachment_id s)) GetCookies.
Definition tabs : BM (list TabInfo) :=
  s ← session;
  targets ← send None GetTargets;
  mret ((λ info, mkTabInfo (ti_target_id info) (ti_url info) (ti_title info) (bool_decide (ti_target_id info = se_target_id s))) <$>
    filter (λ info, ti_type info = "page") targets).
Definition open_tab (url : Url) : BM PageSnapshot :=
  _ ← guard_takeover;
  b ← browser;
  _ ← lift (allow_navigation (cc_policy (br_config b)) url);
  _ ← session;
  target ← send None (CreateTarget "about:blank");
  attachment ← send None (AttachToTarget target);
  _ ← arm_session attachment;
  _ ← update (λ b, b <| br_session := (λ s : Session, s <| se_target_id := target |> <| se_attachment_id := attachment |>) <$> br_session b |>);
  _ ← update (λ b, b <| br_page_id := target |>);
  navigate url.
Definition close_tab (target : string) : BM () :=
  _ ← guard_takeover; _ ← session; send None (CloseTarget target).

(** *** Taking over and closing *)

Definition forget_page (b : CdpBrowser) : CdpBrowser := b <| br_nodes := ∅ |> <| br_current := None |>.
Definition takeover : BM () := _ ← session; update (λ b, forget_page (b <| br_takeover := true |>)).
Definition resume_from_takeover : BM PageSnapshot := _ ← session; _ ← update (λ b, b <| br_takeover := false |>); snapshot.

Fixpoint remove_attempts (dir : string) (attempts : nat) (last_error : option string) : BM () :=
  match attempts with
  | 0 => throw (BrowserUnavailable
           ("the ephemeral browser profile could not be deleted, so task data would outlive the task: " +:+ default "unknown error" last_error))
  | S attempts =>
    r ← host (remove_dir_all dir);
    match r with
    | Removed | NotFound => mret ()
    | RemoveFailed error =>
      _ ← (if attempts =? 0 then mret () else effect (host_sleep 40));
      remove_attempts dir attempts (Some error)
    end
  end.
Definition remove_ephemeral_profile (dir : string) : BM () := remove_attempts dir 50 None.
Definition close : BM () :=
  b ← browser;
  match br_session b with
  | None => mret ()
  | Some s =>
    _ ← update (λ b, b <| br_session := None |>);
    _ ← effect kill_browser;
    _ ← update (λ b, forget_page b <| br_takeover := false |>);
    if se_ephemeral s then remove_ephemeral_profile (se_profile_dir s) else mret ()
  end.

(** Dropping the engine: the same attempts, without a report. *)
Fixpoint drop_attempts (dir : string) (attempts : nat) (w : W) : W :=
  match attempts with
  | 0 => w
  | S attempts =>
    match remove_dir_all dir w with
    | (Removed, w) | (NotFound, w) => w
    | (RemoveFailed _, w) => drop_attempts dir attempts (host_sleep 40 w)
    end
  end.
Definition drop_browser (b : CdpBrowser) (w : W) : W :=
  match br_session b with Some s => if se_ephemeral s then drop_attempts (se_profile_dir s) 50 w else w | None => w end.

(** *** Actions *)

Inductive ControlKey : Type := KeyHome | KeyArrowDown.
Definition key_parts (k : ControlKey) : string * Z := match k with KeyHome => ("Home", 36%Z) | KeyArrowDown => ("ArrowDown", 40%Z) end.

Definition resolve (handle : NodeHandle) : BM NodeRecord :=
  _ ← guard_takeover;
  b ← browser;
  match br_current b with
  | None => throw StaleHandle
  | Some current =>
    _ ← lift (validate_handle current handle);
    match br_nodes b !! nh_opaque_id handle with Some record => mret record | None => throw StaleHandle end
  end.
Definition addressed : BM string := s ← session; mret (se_attachment_id s).

Definition f64_sum (l : list f64) : f64 := foldl (SFadd 53 1024) (S754_zero true) l.
Definition four : f64 := S754_finite false 4503599627370496 (-50).
Definition point_of (backend : Z) : BM (f64 * f64) :=
  id ← addressed;
  _ ← send (Some id) (ScrollIntoViewIfNeeded backend);
  quad ← send (Some id) (GetBoxModel backend);
  match quad with
  | x0 :: y0 :: x1 :: y1 :: x2 :: y2 :: x3 :: y3 :: _ =>
    let x := SFdiv 53 1024 (f64_sum [x0; x1; x2; x3]) four in
    let y := SFdiv 53 1024 (f64_sum [y0; y1; y2; y3]) four in
    _ ← reject_if (negb (is_finite x) || negb (is_finite y)) (Operation "element has a degenerate layout box");
    mret (x, y)
  | _ => throw (Operation "element has no layout box to click")
  end.
Definition mouse (kind : MouseKind) (x y : f64) (clicks : Z) : BM () :=
  id ← addressed; send (Some id) (DispatchMouseEvent kind x y clicks).
Definition press (key : ControlKey) : BM () :=
  id ← addressed;
  let '(name, code) := key_parts key in
  _ ← send (Some id) (DispatchKeyEvent RawKeyDown name code); send (Some id) (DispatchKeyEvent KeyUp name code).
Definition focus (backend : Z) : BM () := id ← addressed; send (Some id) (Focus backend).
Definition settle : BM () := effect (host_sleep 120).
Definition snapshot_after_action : BM PageSnapshot := read_page.

Definition click_node (handle : NodeHandle) : BM PageSnapshot :=
  node ← resolve handle;
  point ← point_of (nr_backend_node_id node);
  let '(x, y) := point in
  _ ← mouse MouseMoved x y 0;
  _ ← mouse MousePressed x y 1;
  _ ← mouse MouseReleased x y 1;
  _ ← settle;
  snapshot_after_action.
Definition hover_node (handle : NodeHandle) : BM PageSnapshot :=
  node ← resolve handle;
  point ← point_of (nr_backend_node_id node);
  let '(x, y) := point in
  _ ← mouse MouseMoved x y 0;
  snapshot_after_action.
Definition scroll_node (handle : NodeHandle) (delta_x delta_y : f64) : BM PageSnapshot :=
  node ← resolve handle;
  point ← point_of (nr_backend_node_id node);
  let '(x, y) := point in
  id ← addressed;
  _ ← send (Some id) (DispatchMouseWheel x y delta_x delta_y);
  snapshot_after_action.
Definition observed_value (snapshot : PageSnapshot) (handle : NodeHandle) : option string :=
  node_by_opaque_id snapshot (nh_opaque_id handle) ≫= sn_value.
Definition str_contains (s needle : string) : bool := bool_decide (is_Some (find_bytes (bytes needle) (bytes s))).
Definition type_into (handle : NodeHandle) (text : string) : BM PageSnapshot :=
  node ← resolve handle;
  _ ← point_of (nr_backend_node_id node);
  _ ← focus (nr_backend_node_id node);
  id ← addressed;
  _ ← send (Some id) (InsertText text);
  snapshot ← snapshot_after_action;
  if is_empty text then mret snapshot
  else
    match observed_value snapshot handle with
    | Some value => if str_contains value text then mret snapshot
                    else throw (PostconditionFailed ("field holds " +:+ debug_str value +:+ " after typing"))
    | None => throw (PostconditionFailed "the field disappeared while typing")
    end.
Fixpoint press_times (n : nat) (key : ControlKey) : BM () :=
  match n with 0 => mret () | S n => _ ← press key; press_times n key end.
Definition select_option (handle : NodeHandle) (label : string) : BM PageSnapshot :=
  node ← resolve handle;
  match list_find (λ option, option = label) (nr_options node) with
  | None => throw (Operation (debug_str label +:+ " is not one of the element's options " +:+ debug_list (nr_options node)))
  | Some (index, _) =>
    _ ← point_of (nr_backend_node_id node);
    _ ← focus (nr_backend_node_id node);
    _ ← press KeyHome;
    _ ← press_times index KeyArrowDown;
    snapshot ← snapshot_after_action;
    let observed := observed_value snapshot handle in
    if bool_decide (observed = Some label) then mret snapshot
    else throw (PostconditionFailed ("select shows " +:+ debug_option observed +:+ " after choosing " +:+ debug_str label))
  end.
Fixpoint approved_paths (w : W) (approved : list string) (paths : list string) : outcome BrowserError (list string) :=
  match paths with
  | [] => Ok []
  | path :: paths =>
    match canonicalize w path with
    | inl error => Err (UploadPathNotApproved (path +:+ ": " +:+ error))
    | inr resolved =>
      if bool_decide (resolved ∈ approved) then rest ← approved_paths w approved paths; Ok (resolved :: rest)
      else Err (UploadPathNotApproved resolved)
    end
  end.
Definition check_approved (paths : list string) : BM (list string) :=
  _ ← reject_if (match paths with [] => true | _ => false end) (Operation "no files to upload");
  b ← browser; w ← world; lift (approved_paths w (br_approved_uploads b) paths).
Definition upload_files (handle : NodeHandle) (paths : list string) : BM PageSnapshot :=
  node ← resolve handle;
  approved ← check_approved paths;
  id ← addressed;
  _ ← send (Some id) (SetFileInputFiles approved (nr_backend_node_id node));
  snapshot ← snapshot_after_action;
  match node_by_opaque_id snapshot (nh_opaque_id handle) with
  | None => throw (PostconditionFailed "the file input disappeared while attaching files")
  | Some _ => mret snapshot
  end.
Definition decode_payload (data what : string) : BM (list N) :=
  match base64_decode data with inr bytes => mret bytes | inl error => throw (Operation ("malformed " +:+ what +:+ " payload: " +:+ error)) end.
Definition screenshot : BM (list N) := id ← addressed; data ← send (Some id) CaptureScreenshot; decode_payload data "screenshot".
Definition print_pdf : BM (list N) := id ← addressed; data ← send (Some id) PrintToPdf; decode_payload data "pdf".

(** An event reaches the guard of the session. *)
Definition on_event (files : string → option (list N)) (event : CdpEvent) : BM (option answer) :=
  b ← browser;
  match br_session b with
  | None => mret None
  | Some s =>
    let '(a, g) := pump_event files event (se_guard s) in
    _ ← update_guard (λ _, g); mret a
  end.
End engine.
