(* ===== verification/BrowserEngineSpec.v ===== *)
(** * Browser control: theorems about the engine

    Actions reach the page only through a handle of the page that was read last, never while the
    user holds the browser, and for uploads only with approved files; each success is a page read
    afterwards that shows what was asked, under a new generation that makes every earlier handle
    stale. *)

From stdpp Require Import base gmap strings list pretty.
From Stdlib Require Import Ascii SpecFloat.
From S2P Require Import Prelude Text PhraseCache Browser BrowserSpec BrowserEngine.

Create HintDb engine.

Section engine.
Context {W : Type} `{!CdpHost W, !BrowserText, !UrlParser, !EventParser, !JsonDisplay, !Sha256}.
Notation BM := (BM (W:=W)).
Implicit Types s : CdpBrowser * W.

(** ** Steps that leave the engine alone *)

(** The step returns, and only the world may change. *)
Definition engine_kept {A} (m : BM A) : Prop := ∀ s, (m s).2.1 = s.1 ∧ (m s).1 ≠ Panic.
Lemma kept_bind {A B} (m : BM A) (k : A → BM B) : engine_kept m → (∀ a, engine_kept (k a)) → engine_kept (m ≫= k).
Proof.
  intros Hm Hk s. unfold mbind, M_bind. destruct (Hm s) as [Hs Hp]. destruct (m s) as [[a|e|] s']; simpl in *; [|by split..].
  destruct (Hk a s') as [-> ?]. tauto.
Qed.
Lemma kept_ret {A} (a : A) : engine_kept (mret a : BM A).
Proof. done. Qed.
Lemma kept_throw {A} e : engine_kept (throw e : BM A).
Proof. done. Qed.
Lemma kept_reject c e : engine_kept (reject_if c e : BM ()).
Proof. intros s. unfold reject_if. by destruct c. Qed.
Lemma kept_lift {A} (o : outcome BrowserError A) : o ≠ Panic → engine_kept (lift o : BM A).
Proof. done. Qed.
Lemma kept_host {A} (f : W → A * W) : engine_kept (host f).
Proof. intros s. unfold host. by destruct (f s.2). Qed.
Lemma kept_effect (f : W → W) : engine_kept (effect f).
Proof. done. Qed.
Lemma kept_browser : engine_kept (browser : BM CdpBrowser).
Proof. done. Qed.
Lemma kept_world : engine_kept (world : BM W).
Proof. done. Qed.
End engine.
#[export] Hint Resolve kept_bind kept_ret kept_throw kept_reject kept_lift kept_host kept_effect kept_browser kept_world : engine.
(** Splits a step into its parts. *)
Ltac kept := repeat first [progress eauto with engine | apply kept_bind; [|intros ?] | case_match].

Section steps.
Context {W : Type} `{!CdpHost W, !BrowserText, !UrlParser, !EventParser, !JsonDisplay, !Sha256}.
Notation BM := (BM (W:=W)).
Implicit Types s : CdpBrowser * W.

Lemma kept_send {R} session (c : CdpCommand R) : engine_kept (send session c : BM R).
Proof. unfold send, ok_or_fail. kept. Qed.
Lemma kept_session : engine_kept (session : BM Session).
Proof. unfold session. kept. Qed.
Lemma kept_addressed : engine_kept (addressed : BM string).
Proof. unfold addressed. apply kept_bind; [apply kept_session|kept]. Qed.
Lemma allow_navigation_returns p url : allow_navigation p url ≠ Panic.
Proof. by destruct (allow_navigation_cases p url) as [[_ ->]|[_ [e ->]]]. Qed.
Lemma validate_handle_returns p h : validate_handle p h ≠ Panic.
Proof. unfold validate_handle. by destruct (_ && _). Qed.
Lemma sanitize_returns name : sanitize name ≠ Panic.
Proof. unfold sanitize. by destruct (_ || _). Qed.
Lemma validate_profile_returns p : validate_profile p ≠ Panic.
Proof. unfold validate_profile. by repeat case_match. Qed.
Lemma approved_paths_returns (w : W) approved paths : approved_paths w approved paths ≠ Panic.
Proof.
  induction paths as [|path paths IH]; simpl; [done|]. destruct (canonicalize w path); [done|]. case_bool_decide; [|done].
  by destruct (approved_paths w approved paths).
Qed.
End steps.
#[export] Hint Resolve kept_send kept_session kept_addressed allow_navigation_returns validate_handle_returns sanitize_returns
  validate_profile_returns approved_paths_returns : engine.

Section actions.
Context {W : Type} `{!CdpHost W, !BrowserText, !UrlParser, !EventParser, !JsonDisplay, !Sha256}.
Notation BM := (BM (W:=W)).
Implicit Types s : CdpBrowser * W.

Lemma kept_point_of backend : engine_kept (point_of backend : BM _).
Proof. unfold point_of. kept. Qed.
Lemma kept_mouse kind x y clicks : engine_kept (mouse kind x y clicks : BM _).
Proof. unfold mouse. kept. Qed.
Lemma kept_press key : engine_kept (press key : BM _).
Proof. unfold press. kept. Qed.
Lemma kept_press_times n key : engine_kept (press_times n key : BM _).
Proof. induction n; simpl; [kept|]. apply kept_bind; [apply kept_press|done]. Qed.
Lemma kept_focus backend : engine_kept (focus backend : BM _).
Proof. unfold focus. kept. Qed.
Lemma kept_guard_takeover : engine_kept (guard_takeover : BM _).
Proof. unfold guard_takeover. kept. Qed.
Lemma kept_check_approved paths : engine_kept (check_approved paths : BM _).
Proof. unfold check_approved. kept. Qed.
Lemma kept_resolve handle : engine_kept (resolve handle : BM _).
Proof. unfold resolve, guard_takeover. kept. Qed.
Lemma kept_arm_session id : engine_kept (arm_session id : BM _).
Proof. unfold arm_session. kept. Qed.
Lemma kept_remove dir n last : engine_kept (remove_attempts dir n last : BM _).
Proof. revert last. induction n; intros last; simpl; kept. Qed.
Lemma kept_resolve_binary pins : engine_kept (resolve_binary pins : BM _).
Proof. unfold resolve_binary, fetch_managed_chromium, download_verified, option_fail. kept. Qed.
Lemma kept_profile_dir_for id : engine_kept (profile_dir_for id : BM _).
Proof. unfold profile_dir_for. kept. Qed.
Lemma kept_create_dir dir : engine_kept (create_dir dir : BM _).
Proof. unfold create_dir. kept. Qed.
Lemma kept_launch executable dir headless sandbox extra : engine_kept (launch executable dir headless sandbox extra : BM _).
Proof. unfold launch, option_fail. kept. Qed.
End actions.
#[export] Hint Resolve kept_point_of kept_mouse kept_press kept_press_times kept_focus kept_guard_takeover kept_check_approved kept_resolve
  kept_arm_session kept_remove kept_resolve_binary kept_profile_dir_for kept_create_dir kept_launch : engine.

(** ** Pages *)

(** The table of nodes is that of the page: each entry is a node of it, and each handle has an entry. *)
Definition bound_page (nodes : gmap string NodeRecord) (page : PageSnapshot) : Prop :=
  ps_handles page = sn_handle <$> ps_nodes page ∧
  (∀ n, n ∈ ps_nodes page → nh_page_id (sn_handle n) = ps_page_id page ∧ nh_generation (sn_handle n) = ps_generation page ∧
     is_Some (nodes !! nh_opaque_id (sn_handle n))) ∧
  (∀ id r, nodes !! id = Some r → id = pretty (nr_backend_node_id r) ∧
     ∃ n, n ∈ ps_nodes page ∧ sn_handle n = mkNodeHandle (ps_page_id page) (ps_generation page) id ∧ sn_options n = nr_options r).

(** The engine after a page was read: only the page, its table, the generation and the page of the guard have changed. *)
Definition fresh_page (b : CdpBrowser) (page : PageSnapshot) (b' : CdpBrowser) : Prop :=
  br_current b' = Some page ∧ br_generation b' = saturating_succ (br_generation b) ∧ ps_generation page = br_generation b' ∧
  ps_page_id page = br_page_id b ∧ bound_page (br_nodes b') page ∧ br_takeover b' = br_takeover b ∧
  br_approved_uploads b' = br_approved_uploads b ∧ br_config b' = br_config b ∧ br_page_id b' = br_page_id b ∧
  ∃ s s', br_session b = Some s ∧ br_session b' = Some s' ∧ se_target_id s' = se_target_id s ∧ se_attachment_id s' = se_attachment_id s.

Lemma bind_nodes_spec l :
  (∀ n, n ∈ l → is_Some (bind_nodes l !! pretty (pn_backend_node_id n))) ∧
  (∀ id r, bind_nodes l !! id = Some r → ∃ n, n ∈ l ∧ id = pretty (pn_backend_node_id n) ∧ r = mkNodeRecord (pn_backend_node_id n) (pn_options n)).
Proof.
  induction l as [|n l IH] using rev_ind; [split; [set_solver|intros id r Hr; unfold bind_nodes in Hr; simpl in Hr; by rewrite lookup_empty in Hr]|].
  assert (bind_nodes (l ++ [n]) = <[pretty (pn_backend_node_id n) := mkNodeRecord (pn_backend_node_id n) (pn_options n)]> (bind_nodes l)) as ->
    by (unfold bind_nodes; by rewrite foldl_app).
  destruct IH as [IH1 IH2]. split.
  - intros n' [Hn| ->%list_elem_of_singleton]%elem_of_app; [|rewrite lookup_insert_eq; by eauto].
    destruct (decide (pretty (pn_backend_node_id n) = pretty (pn_backend_node_id n'))) as [->|Hne]; [rewrite lookup_insert_eq; by eauto|].
    rewrite lookup_insert_ne by done. by apply IH1.
  - intros id r [[<- <-]|[Hne Hr]]%lookup_insert_Some; [exists n; set_solver|]. destruct (IH2 _ _ Hr) as (n' & ? & ?). exists n'. set_solver.
Qed.

Lemma bind_generation_spec merged url title b page b' s :
  br_session b = Some s → bind_generation merged url title b = (page, b') → fresh_page b page b'.
Proof.
  intros Hs [= <- <-]. unfold fresh_page. simpl. split_and!; try done; [|by exists s, s].
  destruct (bind_nodes_spec (ms_nodes merged)) as [Hin Hout]. unfold bound_page. simpl. split; [done|]. split.
  - intros n (p & -> & Hp)%list_elem_of_fmap. simpl. eauto.
  - intros id r Hr. destruct (Hout _ _ Hr) as (n & Hn & -> & ->). split; [done|]. eexists. split; [apply list_elem_of_fmap; by exists n|done].
Qed.

Section pages.
Context {W : Type} `{!CdpHost W, !BrowserText, !UrlParser, !EventParser, !JsonDisplay, !Sha256}.
Notation BM := (BM (W:=W)).
Implicit Types s : CdpBrowser * W.

Lemma bind_kept {A B} (m : BM A) (k : A → BM B) s r s' :
  engine_kept m → (m ≫= k) s = (r, s') →
  (∃ e, r = Err e ∧ s'.1 = s.1) ∨ ∃ a s1, m s = (Ok a, s1) ∧ s1.1 = s.1 ∧ k a s1 = (r, s').
Proof.
  intros Hm. unfold mbind, M_bind. destruct (Hm s) as [Hs Hp]. destruct (m s) as [[a|e|] s1]; simpl in *; [|intros [= <- <-]|done]; eauto 10.
Qed.

Lemma read_page_spec s r s' :
  (read_page : BM _) s = (r, s') → (∃ e, r = Err e ∧ s'.1 = s.1) ∨ ∃ page, r = Ok page ∧ fresh_page s.1 page s'.1.
Proof.
  unfold read_page. intros Hr.
  apply bind_kept in Hr as [?|(sess & s1 & Hsess & E1 & Hr)]; [by left| |apply kept_session].
  assert (br_session s.1 = Some sess) as Hsome.
  { revert Hsess. unfold session. munfold. unfold browser. destruct (br_session s.1); by intros [= -> _]. }
  do 3 (apply bind_kept in Hr as [[e [-> ?]]|(? & ? & _ & ? & Hr)]; [left; eexists; split; [done|congruence]| |by apply kept_send]).
  apply bind_kept in Hr as [[e [-> ?]]|(? & ? & _ & ? & Hr)]; [left; eexists; split; [done|congruence]| |apply kept_session].
  right. revert Hr. set (url := match url_parse (ti_url x) with inl _ => about_blank | inr url => url end).
  unfold update_guard, update, browser. munfold. assert (x6.1 = s.1) as -> by congruence. rewrite Hsome. intros [= <- <-].
  eexists. split; [done|]. set (b := s.1 <| br_session := Some (sess <| se_guard := set_page_url (Some url) (se_guard sess) |>) |>).
  pose proof (bind_generation_spec (merge x1 x3) url (ti_title x) b _ _ _ eq_refl eq_refl) as Hf.
  destruct Hf as (? & ? & ? & ? & ? & ? & ? & ? & ? & q & q' & [= <-] & ? & ? & ?). unfold fresh_page. split_and!; try done. by exists sess, q'.
Qed.
End pages.

(** ** Actions *)

Inductive BrowserAction : Type :=
  | Click
  | Hover
  | Scroll (delta_x delta_y : f64)
  | TypeInto (text : string)
  | SelectOption (label : string)
  | Upload (paths : list string).

Section acting.
Context {W : Type} `{!CdpHost W, !BrowserText, !UrlParser, !EventParser, !JsonDisplay, !Sha256}.
Notation BM := (BM (W:=W)).
Implicit Types s : CdpBrowser * W.

Definition act (a : BrowserAction) (handle : NodeHandle) : BM PageSnapshot :=
  match a with
  | Click => click_node handle
  | Hover => hover_node handle
  | Scroll delta_x delta_y => scroll_node handle delta_x delta_y
  | TypeInto text => type_into handle text
  | SelectOption label => select_option handle label
  | Upload paths => upload_files handle paths
  end.

(** What the page shows after a successful action. *)
Definition achieved (a : BrowserAction) (handle : NodeHandle) (page : PageSnapshot) : Prop :=
  match a with
  | TypeInto text => text = "" ∨ ∃ value before after, observed_value page handle = Some value ∧ bytes value = before ++ bytes text ++ after
  | SelectOption label => observed_value page handle = Some label
  | Upload _ => is_Some (node_by_opaque_id page (nh_opaque_id handle))
  | _ => True
  end.

(** A step that ends by reading the page, and then only judges what it read. *)
Definition reads (P : PageSnapshot → Prop) (m : BM PageSnapshot) : Prop := ∀ s r s', m s = (r, s') →
  (∃ e, r = Err e ∧ (s'.1 = s.1 ∨ ∃ page, fresh_page s.1 page s'.1)) ∨ ∃ page, r = Ok page ∧ fresh_page s.1 page s'.1 ∧ P page.
Lemma reads_bind {A} P (m : BM A) k : engine_kept m → (∀ a, reads P (k a)) → reads P (m ≫= k).
Proof.
  intros Hm Hk s r s' Hr. apply bind_kept in Hr as [(e & -> & ?)|(a & s1 & _ & <- & Hr)]; [left; by eauto|by apply (Hk a)|done].
Qed.
Lemma reads_judge (P : PageSnapshot → Prop) k :
  (∀ page s, (∃ e, k page s = (Err e, s)) ∨ k page s = (Ok page, s) ∧ P page) → reads P (read_page ≫= k).
Proof.
  intros Hk s r s'. unfold mbind, M_bind. destruct (read_page s) as [r1 s1] eqn:Hr. destruct (read_page_spec _ _ _ Hr) as [(e & -> & ?)|(page & -> & Hf)].
  - intros [= <- <-]. left. eauto.
  - destruct (Hk page s1) as [[e ->]|[-> HP]]; intros [= <- <-]; [left|right]; by eauto 6.
Qed.
Lemma reads_read_page : reads (λ _, True) read_page.
Proof. intros s r s' Hr. destruct (read_page_spec _ _ _ Hr) as [(e & -> & ?)|(page & -> & ?)]; [left|right]; eauto. Qed.

Lemma find_bytes_infix pat l i : find_bytes pat l = Some i → ∃ before after, l = before ++ pat ++ after.
Proof.
  revert i. induction l as [|c l IH]; intros i; simpl; destruct (starts_with pat _) eqn:Hp.
  1,3: intros _; apply starts_with_spec in Hp as [r Hr]; by exists [], r.
  - done.
  - intros (j & Hj & _)%fmap_Some. destruct (IH j Hj) as (before & after & ->). by exists (c :: before), after.
Qed.
Lemma str_contains_infix value text : str_contains value text = true → ∃ before after, bytes value = before ++ bytes text ++ after.
Proof. unfold str_contains. rewrite bool_decide_eq_true. intros [i Hi]. by eapply find_bytes_infix. Qed.

Lemma act_reads a handle : reads (achieved a handle) (act a handle).
Proof.
  destruct a as [| |dx dy|text|label|paths]; simpl.
  - unfold click_node, settle. repeat first [apply reads_read_page | case_match | apply reads_bind; [by eauto with engine|intros ?]].
  - unfold hover_node. repeat first [apply reads_read_page | case_match | apply reads_bind; [by eauto with engine|intros ?]].
  - unfold scroll_node. repeat first [apply reads_read_page | case_match | apply reads_bind; [by eauto with engine|intros ?]].
  - unfold type_into. do 5 (apply reads_bind; [by eauto with engine|intros ?]). apply reads_judge. intros page s.
    destruct (is_empty text) eqn:He; [right; split; [done|left; by destruct text]|].
    destruct (observed_value page handle) as [value|] eqn:Hv; [|left; by eexists]. destruct (str_contains value text) eqn:Hc; [|left; by eexists].
    right. split; [done|]. right. destruct (str_contains_infix _ _ Hc) as (before & after & ?). by exists value, before, after.
  - unfold select_option. apply reads_bind; [by eauto with engine|intros node].
    destruct (list_find _ _) as [[index o]|]; [|intros s r s' [= <- <-]; left; eauto].
    do 4 (apply reads_bind; [by eauto with engine|intros ?]). apply reads_judge. intros page s. case_bool_decide; [by right|left; by eexists].
  - unfold upload_files. do 4 (apply reads_bind; [by eauto with engine|intros ?]). apply reads_judge. intros page s.
    destruct (node_by_opaque_id page _) as [n|] eqn:Hn; [right; split; [done|]; simpl; rewrite Hn; by eexists|left; by eexists].
Qed.

Lemma resolve_handle_ok handle s node s1 :
  (resolve handle : BM _) s = (Ok node, s1) → s1 = s ∧ br_takeover s.1 = false ∧ ∃ page, br_current s.1 = Some page ∧
    nh_page_id handle = ps_page_id page ∧ nh_generation handle = ps_generation page ∧ br_nodes s.1 !! nh_opaque_id handle = Some node.
Proof.
  unfold resolve, guard_takeover, browser, validate_handle. munfold. destruct (br_takeover s.1); simpl; [done|].
  destruct (br_current s.1) as [page|]; [|done]. destruct (_ && _) eqn:Hv; [|done]. simpl. destruct (br_nodes s.1 !! _); [|done].
  apply andb_true_iff in Hv as [Hp%bool_decide_eq_true Hg%bool_decide_eq_true]. intros [= -> <-]. eauto 10.
Qed.
Lemma resolve_refused handle s : (∃ node, (resolve handle : BM _) s = (Ok node, s)) ∨ ∃ e, (resolve handle : BM _) s = (Err e, s).
Proof.
  unfold resolve, guard_takeover, browser, validate_handle. munfold. destruct (br_takeover s.1); simpl; [by eauto|].
  destruct (br_current s.1) as [page|]; [|by eauto]. destruct (_ && _); [|by eauto]. simpl. destruct (br_nodes s.1 !! _); eauto.
Qed.
Lemma resolve_bind {A} handle (k : NodeRecord → BM A) s r s' :
  (resolve handle ≫= k) s = (r, s') → (∃ e, r = Err e ∧ s' = s) ∨ ∃ node, (resolve handle : BM _) s = (Ok node, s) ∧ k node s = (r, s').
Proof.
  unfold mbind at 1, M_bind at 1. destruct (resolve_refused handle s) as [[node Hn]|[e He]]; rewrite ?Hn, ?He; [eauto|intros [= <- <-]; eauto].
Qed.

Lemma approved_paths_ok (w : W) approved paths l :
  approved_paths w approved paths = Ok l → ∀ path, path ∈ paths → ∃ resolved, canonicalize w path = inr resolved ∧ resolved ∈ approved.
Proof.
  revert l. induction paths as [|p paths IH]; intros l; simpl; [set_solver|]. destruct (canonicalize w p) as [|resolved] eqn:Hc; [done|].
  case_bool_decide; [|done]. destruct (approved_paths w approved paths) as [rest| |] eqn:Hr; [|done..]. intros _ path [->|Hin]%elem_of_cons; [eauto|].
  by eapply IH.
Qed.
End acting.

(** ** Reachable engines *)

Section reachable.
Context {W : Type} `{!CdpHost W, !BrowserText, !UrlParser, !EventParser, !JsonDisplay, !Sha256}.
Notation BM := (BM (W:=W)).
Implicit Types s : CdpBrowser * W.

Inductive BrowserCall : Type :=
  | COpen (pins : string + PinFile) (profile_id : string)
  | CApprove (path : string)
  | CNavigate (url : Url)
  | CSnapshot
  | COpenTab (url : Url)
  | CCloseTab (target : string)
  | CTakeover
  | CResume
  | CClose
  | CAct (a : BrowserAction) (handle : NodeHandle)
  | CScreenshot
  | CPdf
  | CCookies
  | CTabs
  | CEvent (files : string → option (list N)) (event : CdpEvent).
(** The engine and the world after a call, whether it succeeds or not. *)
Definition after_call (c : BrowserCall) s : CdpBrowser * W :=
  match c with
  | COpen pins id => (open_isolated_profile pins id s).2
  | CApprove path => (approve_upload path s).2
  | CNavigate url => (navigate url s).2
  | CSnapshot => (snapshot s).2
  | COpenTab url => (open_tab url s).2
  | CCloseTab target => (close_tab target s).2
  | CTakeover => (takeover s).2
  | CResume => (resume_from_takeover s).2
  | CClose => (close s).2
  | CAct a handle => (act a handle s).2
  | CScreenshot => (screenshot s).2
  | CPdf => (print_pdf s).2
  | CCookies => (cookie_names s).2
  | CTabs => (tabs s).2
  | CEvent files event => (on_event files event s).2
  end.
(** Any calls in any order, with the world changing on its own between them; the calls are kept with the world they met. *)
Inductive reachable (config : CdpConfig) : list (BrowserCall * W) → CdpBrowser * W → Prop :=
  | reachable_new w : reachable config [] (browser_new config, w)
  | reachable_call calls s c : reachable config calls s → reachable config ((c, s.2) :: calls) (after_call c s)
  | reachable_world calls b w w' : reachable config calls (b, w) → reachable config calls (b, w').

Record engine_inv (config : CdpConfig) (approved : list string) (b : CdpBrowser) : Prop := {
  inv_config : br_config b = config;
  inv_approved : br_approved_uploads b = approved;
  inv_closed : br_session b = None → br_current b = None;
  inv_page : ∀ page, br_current b = Some page → ps_generation page = br_generation b ∧ bound_page (br_nodes b) page;
}.

Definition leads {A} (P Q : CdpBrowser → Prop) (m : BM A) : Prop := ∀ s, P s.1 → Q (m s).2.1.
Lemma leads_kept {A B} (P Q : CdpBrowser → Prop) (m : BM A) (k : A → BM B) :
  engine_kept m → (∀ b, P b → Q b) → (∀ a, leads P Q (k a)) → leads P Q (m ≫= k).
Proof.
  intros Hm HPQ Hk s HP. unfold mbind, M_bind. destruct (Hm s) as [Hs _]. destruct (m s) as [[a|e|] s1]; simpl in *; rewrite ?Hs; auto.
  apply Hk. by rewrite Hs.
Qed.
Lemma leads_update {B} (P P' Q : CdpBrowser → Prop) f (k : () → BM B) :
  (∀ b, P b → P' (f b)) → leads P' Q (k ()) → leads P Q (update f ≫= k).
Proof. intros Hf Hk s HP. apply (Hk (f s.1, s.2)). by apply Hf. Qed.
Lemma leads_only {A} (P : CdpBrowser → Prop) (m : BM A) : engine_kept m → leads P P m.
Proof. intros Hm s HP. destruct (Hm s) as [-> _]. done. Qed.

Lemma fresh_page_inv config approved b page b' : engine_inv config approved b → fresh_page b page b' → engine_inv config approved b'.
Proof.
  intros [Hc Ha _ _] (Hcur & Hgen & Hpg & _ & Hbound & _ & Hap & Hco & _ & s1 & s2 & _ & Hs & _). split; [congruence..|].
  intros page' Hp'. assert (page' = page) as -> by congruence. done.
Qed.
Lemma leads_read_page config approved : leads (engine_inv config approved) (engine_inv config approved) read_page.
Proof.
  intros s Hinv. destruct (read_page s) as [r s'] eqn:Hr. destruct (read_page_spec _ _ _ Hr) as [(e & _ & Heq)|(page & _ & Hf)]; simpl.
  - by rewrite Heq.
  - by eapply fresh_page_inv.
Qed.
Lemma reads_leads P config approved m : reads P m → leads (engine_inv config approved) (engine_inv config approved) m.
Proof.
  intros Hm s Hinv. destruct (m s) as [r s'] eqn:Hr. destruct (Hm _ _ _ Hr) as [(e & _ & [Heq|(page & Hf)])|(page & _ & Hf & _)]; simpl;
    [by rewrite Heq|by eapply fresh_page_inv..].
Qed.
Lemma update_guard_inv config approved f b :
  engine_inv config approved b →
  engine_inv config approved (b <| br_session := (λ s : Session, s <| se_guard := f (se_guard s) |>) <$> br_session b |>).
Proof. intros [???]. split; try done. simpl. intros Hn%fmap_None. auto. Qed.
Lemma leads_navigate config approved url : leads (engine_inv config approved) (engine_inv config approved) (navigate url).
Proof.
  unfold navigate. do 4 (apply leads_kept; [by eauto with engine|done|intros ?]).
  apply (leads_update _ (engine_inv config approved)); [by intros; apply update_guard_inv|].
  apply leads_kept; [by eauto with engine|done|intros [error|]]; [by apply leads_only, kept_throw|].
  apply leads_kept; [unfold await_load; kept|done|intros _; apply leads_read_page].
Qed.
Lemma forget_page_inv config approved b : engine_inv config approved b → engine_inv config approved (forget_page b).
Proof. by intros [???]. Qed.

Lemma leads_act config approved a handle : leads (engine_inv config approved) (engine_inv config approved) (act a handle).
Proof. eapply reads_leads, act_reads. Qed.
Lemma leads_open config approved pins id : leads (engine_inv config approved) (engine_inv config approved) (open_isolated_profile pins id).
Proof.
  intros s Hinv. unfold open_isolated_profile. munfold. destruct (br_session s.1) as [sess|] eqn:Hs; [done|]. cbn.
  destruct (validate_profile _) as [[]| |]; [|done..].
  enough (leads (λ b, engine_inv config approved b ∧ br_session b = None) (engine_inv config approved) (start pins id)) as Hstart by by apply Hstart.
  clear s Hinv Hs. unfold start. apply leads_kept; [by eauto with engine|tauto|intros binary].
  apply leads_kept; [by eauto with engine|tauto|intros [dir ephemeral]].
  do 9 (apply leads_kept; [unfold set_download_behavior; by eauto with engine|tauto|intros ?]).
  intros s [[???? ] Hs]. split; try done. simpl. rewrite inv_closed0 by done. done.
Qed.
Lemma leads_open_tab config approved url : leads (engine_inv config approved) (engine_inv config approved) (open_tab url).
Proof.
  unfold open_tab. do 7 (apply leads_kept; [by eauto with engine|done|intros ?]).
  apply (leads_update _ (engine_inv config approved)).
  { intros b [???]. split; try done. simpl. intros Hn%fmap_None. auto. }
  apply (leads_update _ (engine_inv config approved)); [by intros b [???]|apply leads_navigate].
Qed.
Lemma leads_close config approved : leads (engine_inv config approved) (engine_inv config approved) close.
Proof.
  intros s Hinv. unfold close, browser. munfold. destruct (br_session s.1) as [sess|]; [|done]. unfold update, effect. simpl.
  assert (∀ b, engine_inv config approved b → engine_inv config approved (forget_page (b <| br_session := None |>) <| br_takeover := false |>)) as Hforget
    by by intros b [???].
  destruct (se_ephemeral sess); [|by apply Hforget]. apply (leads_only (engine_inv config approved)); [apply kept_remove|by apply Hforget].
Qed.

(** Every call but an approval keeps the engine well formed with the same approvals. *)
Lemma call_inv config approved c s :
  engine_inv config approved s.1 → (∀ path, c ≠ CApprove path) → engine_inv config approved (after_call c s).1.
Proof.
  intros Hinv Hc. destruct c; simpl.
  - by apply leads_open.
  - by destruct (Hc path).
  - by apply leads_navigate.
  - by apply leads_read_page.
  - by apply leads_open_tab.
  - apply (leads_only (engine_inv config approved)); [unfold close_tab; kept|done].
  - unfold takeover. refine (leads_kept _ _ session _ kept_session _ _ s Hinv); [done|]. intros _ s' Hs'. simpl. apply forget_page_inv.
    by destruct Hs'.
  - unfold resume_from_takeover. refine (leads_kept _ _ session _ kept_session _ _ s Hinv); [done|]. intros _.
    apply (leads_update _ (engine_inv config approved)); [by intros b [???]|apply leads_read_page].
  - by apply leads_close.
  - by apply leads_act.
  - apply (leads_only (engine_inv config approved)); [unfold screenshot, decode_payload; kept|done].
  - apply (leads_only (engine_inv config approved)); [unfold print_pdf, decode_payload; kept|done].
  - apply (leads_only (engine_inv config approved)); [unfold cookie_names; kept|done].
  - apply (leads_only (engine_inv config approved)); [unfold tabs; kept|done].
  - unfold on_event. refine (leads_kept _ _ browser _ kept_browser _ _ s Hinv); [done|]. intros b.
    destruct (br_session b) as [sess|]; [|by apply leads_only, kept_ret]. destruct (pump_event files event (se_guard sess)) as [a g].
    apply (leads_update _ (engine_inv config approved)); [|by apply leads_only, kept_ret]. intros b'. apply (update_guard_inv _ _ (λ _, g)).
Qed.

(** Every approval was given by the user for a path that was that file. *)
Definition approved_by (calls : list (BrowserCall * W)) (resolved : string) : Prop :=
  ∃ path w, (CApprove path, w) ∈ calls ∧ canonicalize w path = inr resolved ∧ is_file w resolved = true.
Lemma approve_spec config approved path s :
  engine_inv config approved s.1 → ∃ approved', engine_inv config approved' (after_call (CApprove path) s).1 ∧
    ∀ resolved, resolved ∈ approved' → resolved ∈ approved ∨ (canonicalize s.2 path = inr resolved ∧ is_file s.2 resolved = true).
Proof.
  intros Hinv. simpl. unfold approve_upload, world, update. munfold. destruct (canonicalize s.2 path) as [error|resolved] eqn:Hc; [by eauto|].
  destruct (is_file s.2 resolved) eqn:Hf; simpl; [|by eauto]. case_bool_decide; [by eauto|].
  exists (approved ++ [resolved]). split; [destruct Hinv as [? Ha ??]; split; simpl; [done|by rewrite Ha|done..]|]. set_solver.
Qed.
Lemma engine_reachable_inv config calls s :
  reachable config calls s → ∃ approved, engine_inv config approved s.1 ∧ ∀ resolved, resolved ∈ approved → approved_by calls resolved.
Proof.
  induction 1 as [w|calls s c _ (approved & Hinv & Hap)|calls b w w' _ IH]; [exists []; split; [done|set_solver]| |done].
  assert (∀ resolved, approved_by calls resolved → approved_by ((c, s.2) :: calls) resolved) as Hmono
    by (intros resolved (path & w & Hin & ?); exists path, w; split; [by apply list_elem_of_further|done]).
  assert ((∃ path, c = CApprove path) ∨ ∀ path, c ≠ CApprove path) as [[path ->]|Hno] by (destruct c; eauto).
  - destruct (approve_spec _ _ path _ Hinv) as (approved' & Hinv' & Hnew). exists approved'. split; [done|]. intros resolved Hr.
    destruct (Hnew _ Hr) as [Hold|[Hc Hf]]; [auto|]. exists path, s.2. split; [by left|done].
  - exists approved. split; [by apply call_inv|auto].
Qed.

(** What an action needs: a choice is one of the node's options, and every file of an upload was approved. *)
Definition admissible (a : BrowserAction) (calls : list (BrowserCall * W)) (w : W) (n : SnapshotNode) : Prop :=
  match a with
  | SelectOption label => label ∈ sn_options n
  | Upload paths => paths ≠ [] ∧ ∀ path, path ∈ paths → ∃ resolved, canonicalize w path = inr resolved ∧ approved_by calls resolved
  | _ => True
  end.

Lemma act_resolved a handle s r s' :
  act a handle s = (r, s') → (∃ e, r = Err e ∧ s' = s) ∨
  ∃ node, resolve handle s = (Ok node, s) ∧
    match a with
    | SelectOption label => label ∈ nr_options node
    | Upload paths => paths ≠ [] ∧ ∀ path, path ∈ paths → ∃ resolved, canonicalize s.2 path = inr resolved ∧ resolved ∈ br_approved_uploads s.1
    | _ => True
    end.
Proof.
  destruct a as [| |dx dy|text|label|paths]; simpl; intros Hr; apply resolve_bind in Hr as [?|(node & Hnode & Hr)]; try (by left); [by right; eauto..| |].
  - destruct (list_find _ _) as [[index o]|] eqn:Hf; [|injection Hr as <- <-; by left; eauto]. right. exists node. split; [done|].
    apply list_find_Some in Hf as (Hi & <- & _). by eapply list_elem_of_lookup_2.
  - destruct paths as [|path paths]; [injection Hr as <- <-; by left; eauto|]. revert Hr. unfold check_approved, browser, world. munfold.
    intros Hr.
    destruct (approved_paths s.2 (br_approved_uploads s.1) (path :: paths)) as [l|e|] eqn:Ha.
    + right. exists node. split; [done|]. split; [done|]. by eapply approved_paths_ok.
    + simpl in Ha. rewrite Ha in Hr. injection Hr as <- <-. by left; eauto.
    + by apply approved_paths_returns in Ha.
Qed.
Lemma stale_after b page page' b' (w : W) handle :
  ps_generation page = br_generation b → nh_generation handle = ps_generation page → fresh_page b page' b' → br_takeover b = false →
  (br_generation b < 2 ^ 64 - 1)%N → resolve handle (b', w) = (Err StaleHandle, (b', w)).
Proof.
  intros Hg Hh (Hcur & Hgen & Hpg & _ & _ & Htake & _) Ht Hlt. unfold resolve, guard_takeover, browser, validate_handle. munfold.
  rewrite Htake, Ht. simpl. rewrite Hcur. rewrite (bool_decide_eq_false_2 (nh_generation handle = _)), andb_false_r; [done|].
  rewrite Hpg, Hgen, Hh, Hg. unfold saturating_succ. lia.
Qed.


(** While the user holds the browser, navigation, new tabs and actions are refused and change nothing. *)
Theorem takeover_pauses_the_agent s :
  br_takeover s.1 = true →
  (∀ url, navigate url s = (Err TakeoverActive, s)) ∧ (∀ url, open_tab url s = (Err TakeoverActive, s)) ∧
  (∀ target, close_tab target s = (Err TakeoverActive, s)) ∧ ∀ a handle, act a handle s = (Err TakeoverActive, s).
Proof.
  intros Ht. assert (∀ A (k : () → BM A), (guard_takeover ≫= k) s = (Err TakeoverActive, s)) as Hguard.
  { intros A k. unfold guard_takeover, browser. munfold. by rewrite Ht. }
  split_and!; intros; try apply Hguard. assert (resolve handle s = (Err TakeoverActive, s)) as Hres by apply Hguard.
  destruct a; simpl; unfold click_node, hover_node, scroll_node, type_into, select_option, upload_files;
    unfold mbind at 1, M_bind at 1; by rewrite Hres.
Qed.
(** The agent goes only where the policy lets it: anything else fails and changes nothing. *)
Theorem navigation_follows_the_policy s url :
  ¬ navigable (cc_policy (br_config s.1)) url → (∃ e, navigate url s = (Err e, s)) ∧ ∃ e, open_tab url s = (Err e, s).
Proof.
  intros Hn. destruct (allow_navigation_cases (cc_policy (br_config s.1)) url) as [[? _]|[_ [e He]]]; [done|].
  unfold navigate, open_tab, guard_takeover, browser. munfold. destruct (br_takeover s.1); simpl; [by eauto|]. rewrite He. eauto.
Qed.
End reachable.

(** ** Examples *)

Module EngineSamples.
(** A browser whose tabs are numbered, whose every page has one button, and where one address cannot be opened.  The world
    counts the tabs and lists the sessions that received a click. *)
Definition SampleWorld : Type := N * list string.
Definition sample_send {R} (session : option string) (c : CdpCommand R) (w : SampleWorld) : (BrowserError + R) * SampleWorld :=
  match c in CdpCommand R return (BrowserError + R) * SampleWorld with
  | CreateTarget _ => (inr ("t" +:+ pretty w.1), ((w.1 + 1)%N, w.2))
  | AttachToTarget target => (inr ("s" +:+ target), w)
  | GetFrameTree => (inr ("frame of " +:+ default "" session), w)
  | GetTargetInfo target => (inr (mkTargetInfo target "page" "https://a.test/" "A"), w)
  | GetFullAxTree => (inr [mkAxNode "1" false (Some (Some (VString "button"))) (Some (Some (VString "Pay"))) None None None (Some 7%Z)], w)
  | CaptureSnapshot _ => (inr [], w)
  | NavigateTo url => (inr (if bool_decide (url = "https://bad.test/") then Some "net::ERR_FAILED" else None), w)
  | GetCookies => (inr [], w)
  | GetTargets => (inr [], w)
  | GetBoxModel _ => (inr (replicate 8 (S754_zero false)), w)
  | DispatchMouseEvent MousePressed _ _ _ => (inr (), (w.1, default "" session :: w.2))
  | CaptureScreenshot => (inr "", w)
  | PrintToPdf => (inr "", w)
  | _ => (inr tt, w)
  end.
#[local] Instance sample_host : CdpHost SampleWorld := {|
  cdp_send := @sample_send;
  await_load_event _ w := w; host_sleep _ w := w;
  canonicalize _ path := inr path; is_file _ _ := true; env_var_os _ _ := None; path_directories _ := None;
  create_dir_all _ w := (None, w); remove_dir_all _ w := (Removed, w); new_v4 w := ("id", w);
  spawn_browser _ _ w := (None, w); kill_browser w := w; http_get _ w := (inl "offline", w); unpack _ _ w := (None, w) |}.
#[local] Instance sample_text : BrowserText := {| debug_str s := s; base64_decode _ := inr [] |}.
#[local] Instance sample_urls : UrlParser := {| url_parse s := inr (mkUrl s "https" (Some "a.test") "/") |}.
#[local] Instance sample_events : EventParser := {| parse_paused _ := None; parse_will_begin _ := None; parse_progress _ := None |}.
#[local] Instance sample_json : JsonDisplay := {| json_display _ := "" |}.
#[local] Instance sample_digest : Sha256 := {| sha256 _ := [] |}.

Definition sample_config : CdpConfig := cdp_config_default "/tmp".
Definition good : Url := mkUrl "https://a.test/" "https" (Some "a.test") "/".
Definition bad : Url := mkUrl "https://bad.test/" "https" (Some "bad.test") "/".
Definition opened : CdpBrowser * SampleWorld :=
  after_call (CNavigate good) (after_call (COpen (inl "") "task") (browser_new sample_config, (0%N, []))).
Definition button : NodeHandle := mkNodeHandle "t0" 1 "7".
Definition opened_calls : list (BrowserCall * SampleWorld) := [(CNavigate good, (1%N, [])); (COpen (inl "") "task", (0%N, []))].
Lemma opened_reachable : reachable sample_config opened_calls opened.
Proof.
  exact (reachable_call _ [(COpen (inl "") "task", (0%N, []))] _ (CNavigate good)
    (reachable_call _ [] _ (COpen (inl "") "task") (reachable_new sample_config (0%N, [])))).
Defined.


(** When a new tab cannot open its page, the handles of the old page stay valid although commands now go to the new tab: the
    click on the old button is sent to the session of the other tab. *)
Definition after_failed_tab : CdpBrowser * SampleWorld := after_call (COpenTab bad) opened.
Example handles_survive_a_failed_tab :
  (∃ e, (open_tab bad opened).1 = Err e) ∧ ps_page_id <$> br_current after_failed_tab.1 = Some "t0" ∧
  se_target_id <$> br_session after_failed_tab.1 = Some "t1" ∧
  (resolve button after_failed_tab).1 = Ok (mkNodeRecord 7 []) ∧ (act Click button after_failed_tab).2.2.2 = ["st1"].
Proof. split; [eexists|]; vm_compute; split_and?; reflexivity. Qed.
(** The guard keeps the main frame of the first tab. *)
Example new_tabs_keep_the_first_main_frame :
  (λ s, ng_main_frame (se_guard s)) <$> br_session (after_call (COpenTab good) opened).1 = Some (Some "frame of st0") ∧
  se_attachment_id <$> br_session (after_call (COpenTab good) opened).1 = Some "st1".
Proof. split; vm_compute; reflexivity. Qed.
End EngineSamples.
