(* ===== verification/WebDriver.v ===== *)
(** * Browser control: the WebDriver engine

    Models [crates/browser/src/webdriver.rs]: finding or starting a local driver, requests to it and
    their errors, sessions, pages under generations and the actions on handles.  The driver behind
    HTTP, processes and fresh identifiers are an interface over the world that they change. *)

From stdpp Require Import base gmap strings list pretty.
From Stdlib Require Import Ascii.
From S2P Require Import Prelude Text Contracts Browser BrowserEngine.
From S2P Require Memory.

Definition ELEMENT_KEY : string := "element-6066-11e4-a52e-4f735466cecf".
Definition INTERACTIVE_SELECTOR : string :=
  "a,button,input,textarea,select,[role='button'],[role='link'],[contenteditable='true']".

Record WebDriverConfig : Type := mkWebDriverConfig {
  wc_endpoint : Url;
  wc_browser_name : string;
  wc_capabilities : list (string * Value);
  wc_policy : BrowserPolicy;
}.
Record WebDriverBrowser : Type := mkWebDriverBrowser {
  wd_config : WebDriverConfig;
  wd_profile : option BrowserProfile;
  wd_session_id : option string;
  wd_page_id : string;
  wd_generation : N;
  wd_current : option PageSnapshot;
  wd_elements : gmap string string;
  wd_takeover : bool;
}.
Global Instance WebDriverBrowser_eta : Eta WebDriverBrowser :=
  λ r, mkWebDriverBrowser (wd_config r) (wd_profile r) (wd_session_id r) (wd_page_id r) (wd_generation r) (wd_current r) (wd_elements r)
    (wd_takeover r).
Inductive HttpMethod : Type := GET | POST | DELETE.

Class WebDriverHost (W : Type) : Type := {
  (** [Url::join], and the port of an endpoint. *)
  url_join : Url → string → string + string;
  port_or_known_default : Url → option N;
  (** A request: the error of the connection, or whether the status was a success and the body as JSON. *)
  http_request : HttpMethod → string → option Value → W → (string + (bool * (string + Value))) * W;
  fresh_uuid : W → string * W;
  (** Starts a driver; whether that worked. *)
  start_driver : string → list string → W → bool * W;
  (** Whether eight seconds have passed since the driver was started, and whether it has exited. *)
  deadline_passed : W → bool;
  driver_exited : W → bool * W;
  kill_driver : W → option string * W;
  driver_sleep : N → W → W;
}.

(** ** The driver process *)

Record WebDriverProcess : Type := mkWebDriverProcess { wp_child : bool; wp_executable : string; wp_endpoint : Url }.
Definition gecko_args (port : N) : list string := ["--port"; pretty port].
Definition safari_args (port : N) : list string := ["-p"; pretty port].
Definition chromium_args (port : N) : list string := ["--port=" +:+ pretty port].
Definition candidates (browser_name : string) : list (string * (N → list string)) :=
  let name := to_ascii_lowercase browser_name in
  if bool_decide (name = "firefox") then [("geckodriver", gecko_args)]
  else if bool_decide (name = "safari") then [("safaridriver", safari_args)]
  else if bool_decide (name = "microsoftedge" ∨ name = "edge") then [("msedgedriver", chromium_args)]
  else [("chromedriver", chromium_args); ("msedgedriver", chromium_args)].

Section process.
Context {W : Type} `{!WebDriverHost W}.

Definition driver_is_healthy (endpoint : Url) (w : W) : bool * W :=
  match url_join endpoint "status" with
  | inl _ => (false, w)
  | inr url => let '(r, w) := http_request GET url None w in (match r with inr (success, _) => success | inl _ => false end, w)
  end.
(** The loop until the deadline; it sleeps a tenth of a second each time, so 81 rounds outlast it. *)
Fixpoint await_healthy (rounds : nat) (endpoint : Url) (w : W) : bool * W :=
  match rounds with
  | 0 => (false, w)
  | S rounds =>
    if deadline_passed w then (false, w)
    else
      let '(healthy, w) := driver_is_healthy endpoint w in
      if healthy then (true, w)
      else
        let '(exited, w) := driver_exited w in
        if exited then (false, w) else await_healthy rounds endpoint (driver_sleep 100 w)
  end.
Fixpoint try_candidates (rounds : nat) (endpoint : Url) (port : N) (l : list (string * (N → list string))) (failures : list string) (w : W)
    : outcome BrowserError WebDriverProcess * W :=
  match l with
  | [] => (Err (BrowserUnavailable ("no compatible local WebDriver: " +:+ join "; " failures)), w)
  | (executable, arguments) :: l =>
    let '(started, w) := start_driver executable (arguments port) w in
    if negb started
    then try_candidates rounds endpoint port l (failures ++ [executable +:+ " is not installed or could not start"]) w
    else
      let '(healthy, w) := await_healthy rounds endpoint w in
      if healthy then (Ok (mkWebDriverProcess true executable endpoint), w)
      else
        let '(_, w) := kill_driver w in
        try_candidates rounds endpoint port l (failures ++ [executable +:+ " did not become healthy"]) w
  end.
Definition start_process (browser_name : string) (endpoint : Url) (w : W) : outcome BrowserError WebDriverProcess * W :=
  let '(healthy, w) := driver_is_healthy endpoint w in
  if healthy then (Ok (mkWebDriverProcess false "external" endpoint), w)
  else
    match port_or_known_default endpoint with
    | None => (Err (Operation "WebDriver endpoint has no port"), w)
    | Some port => try_candidates 81 endpoint port (candidates browser_name) [] w
    end.
Definition stop_process (p : WebDriverProcess) (w : W) : outcome BrowserError () * WebDriverProcess * W :=
  if wp_child p then
    match kill_driver w with
    | (Some error, w) => (Err (Operation error), p, w)
    | (None, w) => (Ok (), mkWebDriverProcess false (wp_executable p) (wp_endpoint p), w)
    end
  else (Ok (), mkWebDriverProcess false (wp_executable p) (wp_endpoint p), w).
End process.

(** ** The engine *)

Section driver.
Context {W : Type} `{!WebDriverHost W, !UrlParser}.

Definition DM (A : Type) : Type := M (WebDriverBrowser * W) BrowserError A.
Definition driver : DM WebDriverBrowser := λ s, (Ok s.1, s).
Definition set_driver (f : WebDriverBrowser → WebDriverBrowser) : DM () := λ s, (Ok (), (f s.1, s.2)).
Definition on_host {A} (f : W → A * W) : DM A := λ s, let '(a, w) := f s.2 in (Ok a, (s.1, w)).

Definition driver_new (config : WebDriverConfig) (w : W) : WebDriverBrowser * W :=
  let '(id, w) := fresh_uuid w in (mkWebDriverBrowser config None None id 0 None ∅ false, w).
Definition driver_session : DM string :=
  b ← driver; match wd_session_id b with Some id => mret id | None => throw (BrowserUnavailable "WebDriver session is not open") end.
Fixpoint trim_start_slashes (l : list ascii) : list ascii :=
  match l with c :: l' => if bool_decide (c = "/"%char) then trim_start_slashes l' else l | [] => [] end.
Definition endpoint (path : string) : DM string :=
  b ← driver;
  match url_join (wc_endpoint (wd_config b)) (of_bytes (trim_start_slashes (bytes path))) with
  | inr url => mret url
  | inl error => throw (Operation error)
  end.
Definition request (method : HttpMethod) (path : string) (body : option Value) : DM Value :=
  url ← endpoint path;
  r ← on_host (http_request method url body);
  match r with
  | inl error => throw (BrowserUnavailable ("cannot reach WebDriver: " +:+ error))
  | inr (_, inl error) => throw (Operation ("invalid WebDriver response: " +:+ error))
  | inr (success, inr envelope) =>
    let value := default VNull (value_get "value" envelope) in
    if negb success || bool_decide (is_Some (value_get "error" value)) then
      throw (Operation (default "webdriver_error" (get_str "error" value) +:+ ": " +:+ default "WebDriver request failed" (get_str "message" value)))
    else mret value
  end.
Definition read_string (path : string) : DM string :=
  value ← request GET path None;
  match as_str value with Some text => mret text | None => throw (Operation "WebDriver returned a non-string value") end.
Definition css (selector : string) : Value := object_of [("using", VString "css selector"); ("value", VString selector)].
Definition find_elements (id : string) : DM (list string) :=
  value ← request POST ("session/" +:+ id +:+ "/elements") (Some (css INTERACTIVE_SELECTOR));
  mret (omap (get_str ELEMENT_KEY) (default [] (as_array value))).
Definition body_text (id : string) : DM string :=
  body ← request POST ("session/" +:+ id +:+ "/element") (Some (css "body"));
  match get_str ELEMENT_KEY body with
  | None => throw (Operation "document body is unavailable")
  | Some element => read_string ("session/" +:+ id +:+ "/element/" +:+ element +:+ "/text")
  end.
(** [.unwrap_or_default()]: an error leaves the empty text. *)
Definition or_empty (m : DM string) : DM string := λ s, match m s with (Err _, s) => (Ok "", s) | r => r end.
Definition driver_element (handle : NodeHandle) : DM string :=
  b ← driver;
  match wd_current b with
  | None => throw StaleHandle
  | Some snapshot =>
    _ ← lift (validate_handle snapshot handle);
    match wd_elements b !! nh_opaque_id handle with Some element => mret element | None => throw StaleHandle end
  end.

Definition open_driver_profile (profile_id : string) : DM () :=
  b ← driver;
  _ ← reject_if (bool_decide (is_Some (wd_session_id b))) (Operation "browser session is already open");
  let profile := mkBrowserProfile profile_id true false in
  _ ← lift (validate_profile profile);
  let always_match := object_of (("browserName", VString (wc_browser_name (wd_config b))) :: wc_capabilities (wd_config b)) in
  value ← request POST "session" (Some (object_of [("capabilities", object_of [("alwaysMatch", always_match)])]));
  match (match get_str "sessionId" value with Some id => Some id | None => get_str "session_id" value end) with
  | None => throw (Operation "WebDriver omitted sessionId")
  | Some id =>
    page ← on_host fresh_uuid;
    set_driver (λ b, b <| wd_session_id := Some id |> <| wd_profile := Some profile |> <| wd_page_id := page |> <| wd_generation := 0%N |>)
  end.

(** Each element gets a fresh identifier; a repeated one would name the later element. *)
Fixpoint bind_elements (page : string) (generation : N) (ids : list string) (elements : gmap string string) (w : W)
    : list NodeHandle * gmap string string * W :=
  match ids with
  | [] => ([], elements, w)
  | id :: ids =>
    let '(opaque, w) := fresh_uuid w in
    let '(handles, elements, w) := bind_elements page generation ids (<[opaque := id]> elements) w in
    (mkNodeHandle page generation opaque :: handles, elements, w)
  end.
Definition driver_snapshot : DM PageSnapshot :=
  id ← driver_session;
  text ← read_string ("session/" +:+ id +:+ "/url");
  match url_parse text with
  | inl error => throw (Operation ("invalid page URL: " +:+ error))
  | inr url =>
    title ← read_string ("session/" +:+ id +:+ "/title");
    text ← or_empty (body_text id);
    ids ← find_elements id;
    b ← driver;
    let generation := saturating_succ (wd_generation b) in
    bound ← on_host (λ w, let '(handles, elements, w) := bind_elements (wd_page_id b) generation ids ∅ w in ((handles, elements), w));
    let snapshot := mkPageSnapshot (wd_page_id b) generation url title text bound.1 [] in
    _ ← set_driver (λ b, b <| wd_generation := generation |> <| wd_elements := bound.2 |> <| wd_current := Some snapshot |>);
    mret snapshot
  end.
Definition driver_navigate (url : Url) : DM PageSnapshot :=
  b ← driver;
  _ ← lift (allow_navigation (wc_policy (wd_config b)) url);
  id ← driver_session;
  _ ← request POST ("session/" +:+ id +:+ "/url") (Some (object_of [("url", VString (url_text url))]));
  driver_snapshot.
Definition driver_click (handle : NodeHandle) : DM PageSnapshot :=
  id ← driver_session;
  element ← driver_element handle;
  _ ← request POST ("session/" +:+ id +:+ "/element/" +:+ element +:+ "/click") (Some (object_of []));
  driver_snapshot.
(** The characters of a text, each as a string. *)
Definition driver_type_text (handle : NodeHandle) (text : string) : DM PageSnapshot :=
  id ← driver_session;
  element ← driver_element handle;
  _ ← request POST ("session/" +:+ id +:+ "/element/" +:+ element +:+ "/value")
        (Some (object_of [("text", VString text); ("value", VArray (VString <$> (of_bytes <$> Memory.chars text)))]));
  driver_snapshot.
Definition driver_takeover : DM () := _ ← driver_session; set_driver (λ b, b <| wd_takeover := true |>).
Definition driver_close : DM () :=
  b ← driver;
  _ ← match wd_session_id b with
      | None => mret ()
      | Some id =>
        _ ← set_driver (λ b, b <| wd_session_id := None |>);
        _ ← request DELETE ("session/" +:+ id) None; mret ()
      end;
  set_driver (λ b, b <| wd_current := None |> <| wd_elements := ∅ |> <| wd_takeover := false |>).
End driver.

(** ** Live handles *)

Section live.
Context {W : Type} `{!WebDriverHost W, !UrlParser}.
Implicit Types s : WebDriverBrowser * W.

(** Every known element is one of the page read last. *)
Definition driver_inv (b : WebDriverBrowser) : Prop :=
  ∀ page opaque element, wd_current b = Some page → wd_elements b !! opaque = Some element →
    mkNodeHandle (ps_page_id page) (ps_generation page) opaque ∈ ps_handles page.

Inductive DriverCall : Type :=
  | DOpen (profile_id : string)
  | DNavigate (url : Url)
  | DSnapshot
  | DClick (handle : NodeHandle)
  | DType (handle : NodeHandle) (text : string)
  | DTakeover
  | DClose.
Definition after_driver_call (c : DriverCall) s : WebDriverBrowser * W :=
  match c with
  | DOpen id => (open_driver_profile id s).2
  | DNavigate url => (driver_navigate url s).2
  | DSnapshot => (driver_snapshot s).2
  | DClick handle => (driver_click handle s).2
  | DType handle text => (driver_type_text handle text s).2
  | DTakeover => (driver_takeover s).2
  | DClose => (driver_close s).2
  end.
Inductive driver_reachable (config : WebDriverConfig) : WebDriverBrowser * W → Prop :=
  | driver_reachable_new w : driver_reachable config (driver_new config w)
  | driver_reachable_call s c : driver_reachable config s → driver_reachable config (after_driver_call c s)
  | driver_reachable_world b w w' : driver_reachable config (b, w) → driver_reachable config (b, w').

(** Steps that leave the engine alone. *)
Definition driver_kept {A} (m : DM A) : Prop := ∀ s, (m s).2.1 = s.1.
Lemma driver_kept_bind {A B} (m : DM A) (k : A → DM B) : driver_kept m → (∀ a, driver_kept (k a)) → driver_kept (m ≫= k).
Proof. intros Hm Hk s. unfold mbind, M_bind. specialize (Hm s). destruct (m s) as [[a|e|] s']; simpl in *; [rewrite Hk|..]; done. Qed.
Lemma driver_kept_request method path body : driver_kept (request method path body).
Proof.
  intros s. unfold request, endpoint, on_host, driver. munfold. destruct (url_join _ _); simpl; [done|].
  destruct (http_request _ _ _ _) as [[|[success [|envelope]]] w]; simpl; try done. by destruct (_ || _).
Qed.
Lemma driver_kept_session : driver_kept driver_session.
Proof. intros s. unfold driver_session, driver. munfold. by destruct (wd_session_id s.1). Qed.
Lemma driver_kept_read path : driver_kept (read_string path).
Proof. apply driver_kept_bind; [apply driver_kept_request|]. intros value s. by destruct (as_str value). Qed.
Lemma driver_kept_body id : driver_kept (or_empty (body_text id)).
Proof.
  assert (driver_kept (body_text id)) as Hb.
  { apply driver_kept_bind; [apply driver_kept_request|]. intros body. destruct (get_str _ _); [apply driver_kept_read|done]. }
  intros s. unfold or_empty. specialize (Hb s). by destruct (body_text id s) as [[]].
Qed.
Lemma driver_kept_find id : driver_kept (find_elements id).
Proof. apply driver_kept_bind; [apply driver_kept_request|done]. Qed.
Lemma driver_kept_element handle : driver_kept (driver_element handle).
Proof.
  intros s. unfold driver_element, driver, validate_handle. munfold. destruct (wd_current s.1); [|done]. destruct (_ && _); simpl; [|done].
  by destruct (wd_elements s.1 !! _).
Qed.

Lemma bind_elements_spec page generation ids elements (w : W) handles elements' w' :
  bind_elements page generation ids elements w = (handles, elements', w') →
  ∀ opaque element, elements' !! opaque = Some element →
    elements !! opaque = Some element ∨ mkNodeHandle page generation opaque ∈ handles.
Proof.
  revert elements w handles. induction ids as [|id ids IH]; intros elements w handles; simpl; [intros [= <- <- <-]; by left|].
  destruct (fresh_uuid w) as [opaque w1]. destruct (bind_elements _ _ ids _ w1) as [[hs es] w2] eqn:Hb. intros [= <- <- <-] o e Ho.
  destruct (IH _ _ _ Hb _ _ Ho) as [Hold|Hin]; [|right; by apply list_elem_of_further].
  apply lookup_insert_Some in Hold as [[-> _]|[_ Hold]]; [right; by left|by left].
Qed.

Definition driver_leads {A} (m : DM A) : Prop := ∀ s, driver_inv s.1 → driver_inv (m s).2.1.
Lemma driver_leads_bind {A B} (m : DM A) (k : A → DM B) : driver_kept m → (∀ a, driver_leads (k a)) → driver_leads (m ≫= k).
Proof.
  intros Hm Hk s Hinv. unfold mbind, M_bind. specialize (Hm s). destruct (m s) as [[a|e|] s']; simpl in *; [apply Hk|..]; by rewrite Hm.
Qed.
Lemma driver_leads_snapshot : driver_leads driver_snapshot.
Proof.
  apply driver_leads_bind; [apply driver_kept_session|intros id]. apply driver_leads_bind; [apply driver_kept_read|intros text].
  destruct (url_parse text) as [|url]; [by intros ?|]. apply driver_leads_bind; [apply driver_kept_read|intros title].
  apply driver_leads_bind; [apply driver_kept_body|intros body]. apply driver_leads_bind; [apply driver_kept_find|intros ids].
  intros s _. unfold driver, on_host, set_driver. munfold.
  destruct (bind_elements _ _ _ _ _) as [[handles elements] w] eqn:Hb. simpl. intros page opaque element [= <-] Ho. simpl in *.
  destruct (bind_elements_spec _ _ _ _ _ _ _ _ Hb _ _ Ho) as [Hold|Hin]; [by rewrite lookup_empty in Hold|done].
Qed.
Lemma driver_call_inv c s : driver_inv s.1 → driver_inv (after_driver_call c s).1.
Proof.
  intros Hinv. destruct c; simpl.
  - unfold open_driver_profile. refine (driver_leads_bind driver _ _ _ s Hinv); [done|]. intros b.
    apply driver_leads_bind; [by intros s'; unfold reject_if; destruct (bool_decide _)|intros _].
    apply driver_leads_bind; [done|intros _]. apply driver_leads_bind; [apply driver_kept_request|intros value].
    destruct (match get_str _ _ with Some _ => _ | None => _ end); [|by intros s'].
    intros s' Hs'. unfold on_host, set_driver. munfold. destruct (fresh_uuid s'.2). exact Hs'.
  - refine (driver_leads_bind driver _ _ _ s Hinv); [done|]. intros b. apply driver_leads_bind; [done|intros _].
    apply driver_leads_bind; [apply driver_kept_session|intros id]. apply driver_leads_bind; [apply driver_kept_request|intros _].
    apply driver_leads_snapshot.
  - by apply driver_leads_snapshot.
  - refine (driver_leads_bind driver_session _ driver_kept_session _ s Hinv). intros id. apply driver_leads_bind; [apply driver_kept_element|intros e].
    apply driver_leads_bind; [apply driver_kept_request|intros _]. apply driver_leads_snapshot.
  - refine (driver_leads_bind driver_session _ driver_kept_session _ s Hinv). intros id. apply driver_leads_bind; [apply driver_kept_element|intros e].
    apply driver_leads_bind; [apply driver_kept_request|intros _]. apply driver_leads_snapshot.
  - refine (driver_leads_bind driver_session _ driver_kept_session _ s Hinv). by intros id s' Hs'.
  - unfold driver_close, driver, set_driver. munfold. destruct (wd_session_id s.1) as [id|]; [|by intros page].
    match goal with |- context [request DELETE ?p None ?s0] => pose proof (driver_kept_request DELETE p None s0) as Hk;
      destruct (request DELETE p None s0) as [[v|e|] s1] end; simpl in *; [by intros page|rewrite Hk; exact Hinv..].
Qed.
Lemma driver_reachable_inv config s : driver_reachable config s → driver_inv s.1.
Proof.
  induction 1 as [w|s c _ IH|b w w' _ IH]; [|by apply driver_call_inv|done]. unfold driver_new. destruct (fresh_uuid w). by intros page.
Qed.

(** Clicks and typing reach the driver only with a handle of the page read last; otherwise they fail and do nothing. *)
Theorem driver_actions_need_live_handles config s handle text :
  driver_reachable config s →
  (∃ page, wd_current s.1 = Some page ∧ handle ∈ ps_handles page) ∨
  ((∃ e, driver_click handle s = (Err e, s)) ∧ ∃ e, driver_type_text handle text s = (Err e, s)).
Proof.
  intros Hreach%driver_reachable_inv. unfold driver_click, driver_type_text, driver_session, driver_element, driver, validate_handle. munfold.
  destruct (wd_session_id s.1) as [id|]; [|right; eauto]. destruct (wd_current s.1) as [page|] eqn:Hcur; [|right; eauto].
  destruct (_ && _) eqn:Hv; simpl; [|right; eauto]. destruct (wd_elements s.1 !! _) as [element|] eqn:He; [|right; eauto].
  left. exists page. split; [done|]. apply andb_true_iff in Hv as [Hp%bool_decide_eq_true Hg%bool_decide_eq_true].
  specialize (Hreach page _ _ Hcur He). rewrite <-Hp, <-Hg in Hreach. by destruct handle.
Qed.
End live.

(** ** Examples *)

Module DriverSamples.
(** A driver that answers every request; the world counts identifiers and lists the paths of clicks.  Deleting a session
    fails. *)
Definition DriverWorld : Type := N * list string.
Definition envelope (v : Value) : string + (bool * (string + Value)) := inr (true, inr (VObject [("value", v)])).
Definition ends_in (suffix s : string) : bool := bool_decide (is_Some (str_strip_suffix suffix s)).
Definition sample_http (method : HttpMethod) (url : string) (body : option Value) (w : DriverWorld) : (string + (bool * (string + Value))) * DriverWorld :=
  match method with
  | DELETE => (inl "connection reset", w)
  | GET => (envelope (VString "https://a.test/"), w)
  | POST =>
    if ends_in "session" url then (envelope (VObject [("sessionId", VString ("s" +:+ pretty w.1))]), w)
    else if ends_in "/elements" url then (envelope (VArray [VObject [(ELEMENT_KEY, VString "e1")]]), w)
    else if ends_in "/click" url then (envelope VNull, (w.1, url :: w.2))
    else (envelope VNull, w)
  end.
#[local] Instance sample_driver : WebDriverHost DriverWorld := {|
  url_join _ path := inr path; port_or_known_default _ := Some 4444%N; http_request := sample_http;
  fresh_uuid w := ("u" +:+ pretty w.1, ((w.1 + 1)%N, w.2)); start_driver _ _ w := (true, w); deadline_passed _ := false;
  driver_exited w := (false, w); kill_driver w := (None, w); driver_sleep _ w := w |}.
#[local] Instance sample_driver_urls : UrlParser := {| url_parse s := inr (mkUrl s "https" (Some "a.test") "/") |}.

Definition driver_config : WebDriverConfig :=
  mkWebDriverConfig (mkUrl "http://127.0.0.1:4444/" "http" (Some "127.0.0.1") "/") "firefox" [] (mkBrowserPolicy ∅ ∅ false).
Definition opened_driver : WebDriverBrowser * DriverWorld :=
  after_driver_call DSnapshot (after_driver_call (DOpen "task") (driver_new driver_config (0%N, []))).
Definition first_element : NodeHandle := mkNodeHandle "u1" 1 "u2".

(** The user's takeover is recorded but not enforced: the agent still clicks. *)
Example takeover_is_not_enforced :
  wd_takeover (after_driver_call DTakeover opened_driver).1 = true ∧
  (after_driver_call (DClick first_element) (after_driver_call DTakeover opened_driver)).2.2 = ["session/s1/element/e1/click"].
Proof. split; vm_compute; reflexivity. Qed.

(** When closing fails, the page of the closed session is kept: after another session is opened, a handle of the old page
    is accepted and its element is clicked in the new session. *)
Definition reopened_driver : WebDriverBrowser * DriverWorld :=
  after_driver_call (DOpen "other") (after_driver_call DClose opened_driver).
Example handles_survive_a_failed_close :
  wd_session_id reopened_driver.1 = Some "s3" ∧
  (after_driver_call (DClick first_element) reopened_driver).2.2 = ["session/s3/element/e1/click"].
Proof. split; vm_compute; reflexivity. Qed.

Lemma driver_actions_need_live_handles_witness :
  ∃ page, wd_current opened_driver.1 = Some page ∧ first_element ∈ ps_handles page.
Proof.
  destruct (driver_actions_need_live_handles driver_config opened_driver first_element "")
    as [Hlive|[[e He] _]]; [| exact Hlive | ].
  - exact (driver_reachable_call _ _ _ (driver_reachable_call _ _ _ (driver_reachable_new _ _))).
  - exfalso. apply (f_equal (λ r : outcome BrowserError PageSnapshot * (WebDriverBrowser * DriverWorld), is_ok r.1)) in He.
    vm_compute in He. discriminate He.
Defined.
End DriverSamples.
