(* ===== verification/CdpTransport.v ===== *)
(** * Browser control: the protocol pipe

    Models [crates/browser/src/cdp/transport.rs]: commands with identifiers over a pipe of frames that
    end in a zero byte, replies matched to the commands that wait, events, time-outs and the end of the
    pipe.  The JSON text of a message is an interface.  Commands of several tasks interleave, so each
    part of a command (sending, a reply, a time-out) is a step of its own. *)

From stdpp Require Import base gmap strings list.
From Stdlib Require Import Ascii.
From S2P Require Import Prelude Text Contracts Browser.

Class JsonText : Type := { json_to_vec : Value → list ascii; json_from_slice : list ascii → option Value }.

(** The commands that wait, what has been answered to which command, the frames written and the events published. *)
Record CdpClient : Type := mkCdpClient {
  cl_next_id : N;
  cl_pending : gset N;
  cl_answers : list (N * outcome BrowserError Value);
  cl_frames : list (list ascii);
  cl_events : list CdpEvent;
  cl_writer_open : bool;
}.
Global Instance CdpClient_eta : Eta CdpClient :=
  λ r, mkCdpClient (cl_next_id r) (cl_pending r) (cl_answers r) (cl_frames r) (cl_events r) (cl_writer_open r).
Definition client_start : CdpClient := mkCdpClient 1 ∅ [] [] [] true.
Definition reply (id : N) (r : outcome BrowserError Value) (c : CdpClient) : CdpClient :=
  c <| cl_pending := cl_pending c ∖ {[id]} |> <| cl_answers := cl_answers c ++ [(id, r)] |>.

Definition pipe_closed : BrowserError := BrowserUnavailable "the browser devtools pipe is closed".
Definition command_message (id : N) (session : option string) (method : string) (params : Value) : Value :=
  object_of ([("id", VNumber (PosInt id)); ("method", VString method); ("params", params)] ++
    match session with Some session => [("sessionId", VString session)] | None => [] end).
Definition protocol_error (error : Value) : string :=
  let message := default "devtools protocol error" (get_str "message" error) in
  match get_str "data" error with Some data => message +:+ ": " +:+ data | None => message end.

Section client.
Context `{!JsonText}.

(** [call] up to waiting for the reply: its number, and the client with the command pending or already refused. *)
Definition begin_call (session : option string) (method : string) (params : Value) (c : CdpClient) : N * CdpClient :=
  let id := cl_next_id c in
  let c := c <| cl_next_id := ((id + 1) `mod` 2 ^ 64)%N |> in
  let frame := json_to_vec (command_message id session method params) ++ [nul] in
  let c := c <| cl_pending := {[id]} ∪ cl_pending c |> in
  if cl_writer_open c then (id, c <| cl_frames := cl_frames c ++ [frame] |>)
  else (id, reply id (Err pipe_closed) c).
(** [timeout(COMMAND_TIMEOUT, wait)] elapses. *)
Definition call_timeout (id : N) (method : string) (c : CdpClient) : CdpClient :=
  if bool_decide (id ∈ cl_pending c) then reply id (Err (Operation (method +:+ " timed out"))) c else c.

Definition dispatch (message : Value) (c : CdpClient) : CdpClient :=
  match value_get "id" message ≫= as_u64 with
  | Some id =>
    if bool_decide (id ∈ cl_pending c) then
      reply id (match value_get "error" message with
                | Some error => Err (Operation (protocol_error error))
                | None => Ok (default (VObject []) (value_get "result" message))
                end) c
    else c
  | None =>
    match get_str "method" message with
    | None => c
    | Some method =>
      c <| cl_events := cl_events c ++
             [mkCdpEvent method (get_str "sessionId" message) (default (VObject []) (value_get "params" message))] |>
    end
  end.

(** [read_until(0, ..)] over the bytes of the pipe: the frames without their ends; a last frame may be cut short. *)
Fixpoint split_frames (cur : list ascii) (l : list ascii) : list (list ascii) :=
  match l with
  | [] => match cur with [] => [] | _ => [cur] end
  | b :: l => if bool_decide (b = nul) then cur :: split_frames [] l else split_frames (cur ++ [b]) l
  end.
Definition read_frame (c : CdpClient) (frame : list ascii) : CdpClient :=
  match json_from_slice frame with Some message => dispatch message c | None => c end.
(** The end of the pipe: everything that waits fails. *)
Definition drain (c : CdpClient) : CdpClient :=
  foldl (λ c id, reply id (Err (BrowserUnavailable "the browser exited before answering")) c) c (elements (cl_pending c)).
Definition read_pump (input : list ascii) (c : CdpClient) : CdpClient := drain (foldl read_frame c (split_frames [] input)).
Definition writer_fails (c : CdpClient) : CdpClient := c <| cl_writer_open := false |>.

(** ** Steps *)

Inductive ClientStep : Type :=
  | SCall (session : option string) (method : string) (params : Value)
  | SFrame (frame : list ascii)
  | STimeout (id : N) (method : string)
  | SEnd
  | SWriterFails.
Definition client_step (i : ClientStep) (c : CdpClient) : CdpClient :=
  match i with
  | SCall session method params => (begin_call session method params c).2
  | SFrame frame => read_frame c frame
  | STimeout id method => call_timeout id method c
  | SEnd => drain c
  | SWriterFails => writer_fails c
  end.
Definition run_client (l : list ClientStep) (c : CdpClient) : CdpClient := foldl (λ c i, client_step i c) c l.
End client.

(** ** Theorems *)

(** Commands are numbered from 1; each waits or has been answered, and never both or twice. *)
Record client_inv (calls : nat) (c : CdpClient) : Prop := {
  ci_next : cl_next_id c = N.of_nat (S calls);
  ci_issued : ∀ id, (id ∈ cl_pending c ∨ id ∈ (cl_answers c).*1) ↔ (1 ≤ id ∧ id < N.of_nat (S calls))%N;
  ci_apart : ∀ id, id ∈ cl_pending c → id ∉ (cl_answers c).*1;
  ci_once : NoDup (cl_answers c).*1;
}.
Lemma client_start_inv : client_inv 0 client_start.
Proof. split; simpl; [done| |set_solver|constructor]. intros id. split; [set_solver|lia]. Qed.

Lemma reply_inv calls c id r : client_inv calls c → id ∈ cl_pending c → client_inv calls (reply id r c).
Proof.
  intros [Hn Hi Ha Ho] Hid. split; simpl; [done| | |].
  - intros id'. rewrite fmap_app. simpl. rewrite <-Hi. destruct (decide (id' = id)) as [->|]; set_solver.
  - intros id' Hp. rewrite fmap_app. simpl. rewrite not_elem_of_app, list_elem_of_singleton. split; [apply Ha|]; set_solver.
  - rewrite fmap_app. simpl. apply NoDup_app. split; [done|]. split; [|apply NoDup_singleton]. intros id' Hin ->%list_elem_of_singleton. by apply (Ha id).
Qed.
Lemma foldl_reply_inv calls l r c :
  client_inv calls c → (∀ id, id ∈ l → id ∈ cl_pending c) → NoDup l →
  client_inv calls (foldl (λ c id, reply id r c) c l) ∧ cl_pending (foldl (λ c id, reply id r c) c l) = cl_pending c ∖ list_to_set l.
Proof.
  revert c. induction l as [|id l IH]; intros c Hinv Hl Hnd; simpl; [split; [done|set_solver]|]. apply NoDup_cons in Hnd as [Hni Hnd].
  destruct (IH (reply id r c)) as [Hinv' Hp]; [apply reply_inv; [done|set_solver]| |done|]; [simpl; set_solver|].
  split; [done|]. rewrite Hp. simpl. set_solver.
Qed.

Section theorems.
Context `{!JsonText}.

Lemma drain_inv calls c : client_inv calls c → client_inv calls (drain c) ∧ cl_pending (drain c) = ∅.
Proof.
  intros Hinv. unfold drain. destruct (foldl_reply_inv calls (elements (cl_pending c)) (Err (BrowserUnavailable "the browser exited before answering")) c)
    as [? Hp]; [done|set_solver|apply NoDup_elements|]. split; [done|]. rewrite Hp, list_to_set_elements_L. set_solver.
Qed.
Lemma dispatch_inv calls message c : client_inv calls c → client_inv calls (dispatch message c).
Proof.
  intros Hinv. unfold dispatch. destruct (_ ≫= as_u64) as [id|]; [case_bool_decide; [by apply reply_inv|done]|].
  destruct (get_str "method" message); [|done]. by destruct Hinv.
Qed.
Lemma begin_call_inv calls session method params c :
  client_inv calls c → (N.of_nat (S (S calls)) < 2 ^ 64)%N → client_inv (S calls) (begin_call session method params c).2.
Proof.
  intros [Hn Hi Ha Ho] Hlt. unfold begin_call. rewrite Hn. simpl.
  assert (client_inv (S calls) (c <| cl_next_id := ((N.of_nat (S calls) + 1) `mod` 2 ^ 64)%N |> <| cl_pending := {[N.of_nat (S calls)]} ∪ cl_pending c |>)) as Hinv.
  { split; simpl; [rewrite N.mod_small; lia| | |done].
    - intros id. specialize (Hi id). rewrite elem_of_union, elem_of_singleton.
      destruct (decide (id = N.of_nat (S calls))) as [->|]; [split; [lia|by left; left]|]. split.
      + intros Hor. enough (1 ≤ id ∧ id < N.of_nat (S calls))%N by lia. apply Hi. tauto.
      + intros ?. assert (1 ≤ id ∧ id < N.of_nat (S calls))%N as Hr by lia. apply Hi in Hr. tauto.
    - intros id [->%elem_of_singleton|Hp]%elem_of_union; [|by apply Ha]. intros Hin.
      assert (1 ≤ N.of_nat (S calls) ∧ N.of_nat (S calls) < N.of_nat (S calls))%N by (apply Hi; by right). lia. }
  destruct (cl_writer_open c) eqn:Hw; [by destruct Hinv|].
  apply (reply_inv _ _ (N.of_nat (S calls)) (Err pipe_closed)) in Hinv; [|simpl; set_solver]. destruct c. simpl in *. subst. exact Hinv.
Qed.

Fixpoint calls_of (l : list ClientStep) : nat :=
  match l with [] => 0 | SCall _ _ _ :: l => S (calls_of l) | _ :: l => calls_of l end.
Lemma run_client_inv l calls c :
  client_inv calls c → (N.of_nat (S (calls + calls_of l)) < 2 ^ 64)%N → client_inv (calls + calls_of l) (run_client l c).
Proof.
  revert calls c. induction l as [|i l IH]; intros calls c Hinv Hlt; [by rewrite Nat.add_0_r|]. simpl.
  destruct i as [session method params|frame|id method| |]; simpl in *.
  - rewrite <-Nat.add_succ_comm in *. apply IH; [|done]. apply begin_call_inv; [done|lia].
  - apply IH; [|done]. unfold read_frame. destruct (json_from_slice frame); [by apply dispatch_inv|done].
  - apply IH; [|done]. unfold call_timeout. case_bool_decide; [by apply reply_inv|done].
  - apply IH; [|done]. by apply drain_inv.
  - apply IH; [|done]. by destruct Hinv.
Qed.

(** The reply a frame carries for a command. *)
Definition replies (frame : list ascii) (id : N) (v : Value) : Prop :=
  ∃ message, json_from_slice frame = Some message ∧ value_get "id" message ≫= as_u64 = Some id ∧ value_get "error" message = None ∧
    v = default (VObject []) (value_get "result" message).
Lemma step_answers i c id v :
  (id, Ok v) ∈ cl_answers (client_step i c) → (id, Ok v) ∈ cl_answers c ∨ ∃ frame, i = SFrame frame ∧ replies frame id v.
Proof.
  assert (∀ (e : BrowserError) id' (c : CdpClient), (id, Ok v) ∈ cl_answers (reply id' (Err e) c) → (id, Ok v) ∈ cl_answers c) as Herr
    by (intros e id' c'; simpl; rewrite elem_of_app, list_elem_of_singleton; by intros [?|[=]]).
  destruct i as [session method params|frame|id' method| |]; simpl.
  - unfold begin_call. destruct (cl_writer_open _); [by left|]. intros H'%Herr. by left.
  - unfold read_frame. destruct (json_from_slice frame) as [message|] eqn:Hj; [|by left]. unfold dispatch.
    destruct (_ ≫= as_u64) as [id'|] eqn:Hid; [|destruct (get_str _ _); by left]. case_bool_decide; [|by left]. simpl.
    rewrite elem_of_app, list_elem_of_singleton. intros [?|[= <- Heq]]; [by left|].
    destruct (value_get "error" message) eqn:He; [done|]. injection Heq as ->. right. exists frame. split; [done|]. by exists message.
  - unfold call_timeout. case_bool_decide; [|by left]. intros H'%Herr. by left.
  - unfold drain. intros H'. left. revert H'. generalize (elements (cl_pending c)) as l. intros l. revert c.
    induction l as [|id' l IH]; intros c H'; [done|]. simpl in H'. by apply IH, Herr in H'.
  - by left.
Qed.

(** C30: whatever replies, events, time-outs and failures interleave with the commands, each command is answered at most once and
    waits until it is; a successful answer is the result of a frame that carries the number of its command; and once the pipe
    has ended every command has been answered.  (Up to the 2^64 numbers there are.) *)
Theorem commands_are_answered_once l :
  (N.of_nat (S (calls_of l)) < 2 ^ 64)%N →
  let c := run_client l client_start in
  NoDup (cl_answers c).*1 ∧
  (∀ id, (1 ≤ id ≤ N.of_nat (calls_of l))%N ↔ id ∈ cl_pending c ∨ id ∈ (cl_answers c).*1) ∧
  (∀ id, id ∈ cl_pending c → id ∉ (cl_answers c).*1) ∧
  (∀ id v, (id, Ok v) ∈ cl_answers c → ∃ frame, SFrame frame ∈ l ∧ replies frame id v) ∧
  (∀ id, (1 ≤ id ≤ N.of_nat (calls_of l))%N → id ∈ (cl_answers (drain c)).*1).
Proof.
  intros Hlt c. destruct (run_client_inv l 0 client_start client_start_inv Hlt) as [Hn Hi Ha Ho]. fold c in Hn, Hi, Ha, Ho.
  split; [done|]. split; [intros id; rewrite Hi; lia|]. split; [done|]. split.
  - unfold c, run_client. assert (∀ id v, (id, Ok v) ∈ cl_answers client_start → False) as Hstart by (simpl; set_solver).
    revert Hstart. generalize client_start as c0. clear. intros c0 Hstart id v.
    enough ((id, Ok v) ∈ cl_answers (foldl (λ c i, client_step i c) c0 l) → (id, Ok v) ∈ cl_answers c0 ∨ ∃ frame, SFrame frame ∈ l ∧ replies frame id v) by naive_solver.
    clear Hstart. revert c0. induction l as [|i l IH]; intros c0; simpl; [by left|]. intros [Hin|(frame & ? & ?)]%IH.
    + apply step_answers in Hin as [?|(frame & -> & ?)]; [by left|right]. exists frame. split; [by left|done].
    + right. exists frame. split; [by right|done].
  - intros id Hid. destruct (drain_inv (calls_of l) c) as [[_ Hi' _ _] Hempty]; [by split|]. assert (1 ≤ id ∧ id < N.of_nat (S (calls_of l)))%N as Hr by lia.
    apply Hi' in Hr as [Hr|Hr]; [rewrite Hempty in Hr; set_solver|done].
Qed.

(** Frames are found again: messages whose text has no zero byte are read in the order they were written. *)
Theorem frames_read_back payloads :
  (∀ p, p ∈ payloads → nul ∉ p) → split_frames [] (concat ((λ p, p ++ [nul]) <$> payloads)) = payloads.
Proof.
  intros Hp. assert (∀ p cur rest, nul ∉ p → split_frames cur ((p ++ [nul]) ++ rest) = (cur ++ p) :: split_frames [] rest) as Hone.
  { induction p as [|b p IH]; intros cur rest Hn; simpl; [by rewrite app_nil_r|]. apply not_elem_of_cons in Hn as [Hb Hn].
    rewrite bool_decide_eq_false_2 by done. rewrite IH by done. by rewrite <-app_assoc. }
  induction payloads as [|p payloads IH]; [done|]. cbn [fmap list_fmap concat]. rewrite Hone by (apply Hp; by left). simpl.
  f_equal. apply IH. intros q Hq. apply Hp. by right.
Qed.
End theorems.

(** ** Examples *)

Module TransportSamples.
(** A JSON text of which only the frames of the example are read. *)
#[local] Instance sample_json : JsonText := {|
  json_to_vec _ := bytes "{}";
  json_from_slice l := if bool_decide (l = bytes "first") then Some (VObject [("id", VNumber (PosInt 1)); ("result", VString "done")]) else None |}.
Definition sample_steps : list ClientStep :=
  [SCall None "Page.enable" VNull; SCall None "DOM.enable" VNull; SFrame (bytes "first"); SFrame (bytes "first"); STimeout 2 "DOM.enable"].
Lemma commands_are_answered_once_witness :
  cl_answers (run_client sample_steps client_start) = [(1%N, Ok (VString "done")); (2%N, Err (Operation "DOM.enable timed out"))] ∧
  NoDup (cl_answers (run_client sample_steps client_start)).*1.
Proof.
  split; [vm_compute; reflexivity|]. apply (commands_are_answered_once sample_steps). vm_compute. reflexivity.
Defined.
End TransportSamples.
