(* ===== verification/Artifacts.v ===== *)
(** * Artifacts, the whiteboard and research reports

    Models [crates/core/src/artifacts.rs] and [crates/core/src/research.rs]: the repository of versioned
    artifacts, safe HTML and terminal text, the whiteboard of cards, and reports whose claims must be
    cited and whose contradictions are found.  An operation that makes an identifier takes it from the
    host. *)

From stdpp Require Import base gmap strings list sorting.
From Stdlib Require Import Ascii.
From S2P Require Import Prelude Text PhraseCache.
From S2P Require Memory.

(** ** The repository *)

Inductive ArtifactKind : Type :=
  | KText | KCode | KDiff | KTable | KChart | KDiagram | KHtmlReport | KImage | KAudio | KVideo | KPdf | KDocument | KSpreadsheet | KPresentation.
Record SourceLink : Type := mkSourceLink { sl_label : string; sl_uri : string; sl_content_hash : option string }.
Record ArtifactVersion : Type := mkArtifactVersion {
  av_version : N;
  av_content_sha256 : string;
  av_media_type : string;
  av_byte_length : nat;
  av_source_links : list SourceLink;
}.
Record Artifact : Type := mkArtifact { ar_id : Uuid; ar_title : string; ar_kind : ArtifactKind; ar_versions : list ArtifactVersion }.
Global Instance Artifact_eta : Eta Artifact := λ r, mkArtifact (ar_id r) (ar_title r) (ar_kind r) (ar_versions r).
Inductive ArtifactError : Type := BlankMetadata | MissingArtifact (id : Uuid) | MissingCard (id : Uuid) | InvalidOrder.

(** [BTreeMap<Uuid, Artifact>] *)
Definition ArtifactRepository : Type := gmap Uuid Artifact.

Section repository.
Context `{!Sha256} {W : Type} `{!Host W}.

Definition artifact_version (version : N) (media_type : string) (content : list N) (links : list SourceLink) : ArtifactVersion :=
  mkArtifactVersion version (hex_digest (sha256 content)) media_type (length content) links.

Definition new_artifact_id : M (ArtifactRepository * W) ArtifactError Uuid := λ s, let '(id, w) := host_uuid s.2 in (Ok id, (s.1, w)).
(** The methods take the repository and give it back; only [create] asks the host. *)
Definition create (title : string) (kind : ArtifactKind) (media_type : string) (content : list N) (links : list SourceLink)
    : M (ArtifactRepository * W) ArtifactError Artifact :=
  _ ← reject_if (is_blank title || is_blank media_type) BlankMetadata;
  id ← new_artifact_id;
  let artifact := mkArtifact id (trim title) kind [artifact_version 1 media_type content links] in
  _ ← modify (λ s, (<[id := artifact]> s.1, s.2));
  mret artifact.
Definition add_version (id : Uuid) (media_type : string) (content : list N) (links : list SourceLink)
    : M ArtifactRepository ArtifactError ArtifactVersion :=
  _ ← reject_if (is_blank media_type) BlankMetadata;
  artifacts ← get;
  artifact ← ok_or (artifacts !! id) (MissingArtifact id);
  let number := N.min (N.min (N.of_nat (length (ar_versions artifact))) u32_max + 1) u32_max in
  let version := artifact_version number media_type content links in
  _ ← modify <[id := artifact <| ar_versions := ar_versions artifact ++ [version] |>]>;
  mret version.
Definition get_artifact (artifacts : ArtifactRepository) (id : Uuid) : option Artifact := artifacts !! id.
(** In the order of the identifiers. *)
Definition list_artifacts (artifacts : ArtifactRepository) : list Artifact :=
  omap (λ id, artifacts !! id) (merge_sort N.le (elements (dom artifacts))).
Definition rename (id : Uuid) (title : string) : M ArtifactRepository ArtifactError () :=
  let title := trim title in
  _ ← reject_if (is_empty title) BlankMetadata;
  artifacts ← get;
  artifact ← ok_or (artifacts !! id) (MissingArtifact id);
  modify <[id := artifact <| ar_title := title |>]>.
Definition remove (id : Uuid) : M ArtifactRepository ArtifactError Artifact :=
  artifacts ← get;
  artifact ← ok_or (artifacts !! id) (MissingArtifact id);
  _ ← modify (delete id);
  mret artifact.
End repository.

(** ** Rendering *)

Definition escape_byte (c : ascii) : list ascii :=
  if bool_decide (c = "&"%char) then bytes "&amp;"
  else if bool_decide (c = "<"%char) then bytes "&lt;"
  else if bool_decide (c = ">"%char) then bytes "&gt;"
  else if bool_decide (c = double_quote) then bytes "&quot;"
  else if bool_decide (c = single_quote) then bytes "&#39;"
  else [c].
(** The characters that are replaced are single bytes, so the bytes can be taken one by one. *)
Definition escape_html (input : string) : string := of_bytes (bytes input ≫= escape_byte).
Definition quoted (s : string) : string := of_bytes [double_quote] +:+ s +:+ of_bytes [double_quote].
Definition sanitized_html_report (title body : string) : string :=
  "<!doctype html><html lang=" +:+ quoted "en" +:+ "><head><meta charset=" +:+ quoted "utf-8" +:+ "><meta name=" +:+ quoted "viewport"
  +:+ " content=" +:+ quoted "width=device-width" +:+ "><title>" +:+ escape_html title +:+ "</title></head><body><main><h1>"
  +:+ escape_html title +:+ "</h1><pre>" +:+ escape_html body +:+ "</pre></main></body></html>".

(** [char::is_control]: below space, delete, and the second control block, which UTF-8 writes as [C2 80] to [C2 9F]. *)
Definition is_control (c : list ascii) : bool :=
  match c with
  | [b] => (byte_val b <? 32)%N || (byte_val b =? 127)%N
  | [a; b] => (byte_val a =? 0xC2)%N && in_range 0x80 0x9F (byte_val b)
  | _ => false
  end.
Definition escape_char : ascii := "027"%char.
Definition safe_char (c : list ascii) : bool :=
  bool_decide (c = ["010"%char]) || bool_decide (c = ["009"%char]) || (negb (is_control c) && negb (bool_decide (c = [escape_char]))).
Definition terminal_safe_text (input : string) : string := of_bytes (concat (filter (λ c, safe_char c = true) (Memory.chars input))).

(** ** The whiteboard *)

Record WhiteboardCard : Type := mkWhiteboardCard { wc_id : Uuid; wc_artifact_id : Uuid; wc_pinned : bool }.
Record Whiteboard : Type := mkWhiteboard { wb_cards : gmap Uuid WhiteboardCard; wb_order : list Uuid; wb_focused : option Uuid }.
Global Instance Whiteboard_eta : Eta Whiteboard := λ r, mkWhiteboard (wb_cards r) (wb_order r) (wb_focused r).
Definition empty_board : Whiteboard := mkWhiteboard ∅ [] None.

(** [add] and [copy] with the identifier that [Uuid::now_v7] makes. *)
Definition add (id artifact_id : Uuid) (b : Whiteboard) : Whiteboard :=
  b <| wb_cards := <[id := mkWhiteboardCard id artifact_id false]> (wb_cards b) |> <| wb_order := wb_order b ++ [id] |>.
Definition set_pinned (id : Uuid) (pinned : bool) : M Whiteboard ArtifactError () :=
  b ← get;
  card ← ok_or (wb_cards b !! id) (MissingCard id);
  modify (λ b, b <| wb_cards := <[id := mkWhiteboardCard (wc_id card) (wc_artifact_id card) pinned]> (wb_cards b) |>).
Definition focus (id : option Uuid) : M Whiteboard ArtifactError () :=
  b ← get;
  _ ← match id with
      | Some id => reject_if (negb (bool_decide (is_Some (wb_cards b !! id)))) (MissingCard id)
      | None => mret ()
      end;
  modify (λ b, b <| wb_focused := id |>).
Definition reorder (order : list Uuid) : M Whiteboard ArtifactError () :=
  b ← get;
  _ ← reject_if (negb (bool_decide (dom (wb_cards b) = list_to_set order)) || negb (length order =? size (wb_cards b))) InvalidOrder;
  modify (λ b, b <| wb_order := order |>).
Definition copy (new id : Uuid) : M Whiteboard ArtifactError Uuid :=
  b ← get;
  card ← ok_or (wb_cards b !! id) (MissingCard id);
  _ ← modify (add new (wc_artifact_id card));
  mret new.
Definition remove_card (id : Uuid) : M Whiteboard ArtifactError WhiteboardCard :=
  b ← get;
  card ← ok_or (wb_cards b !! id) (MissingCard id);
  _ ← modify (λ b, b <| wb_cards := delete id (wb_cards b) |> <| wb_order := filter (λ c, c ≠ id) (wb_order b) |>
        <| wb_focused := if bool_decide (wb_focused b = Some id) then None else wb_focused b |>);
  mret card.
Definition remove_artifact_cards (artifact_id : Uuid) (b : Whiteboard) : Whiteboard :=
  let removed : gset Uuid := list_to_set (wc_id <$> filter (λ card, wc_artifact_id card = artifact_id) (map_to_list (wb_cards b)).*2) in
  b <| wb_cards := filter (λ kv, kv.1 ∉ removed) (wb_cards b) |> <| wb_order := filter (λ id, id ∉ removed) (wb_order b) |>
    <| wb_focused := match wb_focused b with Some id => if bool_decide (id ∈ removed) then None else Some id | None => None end |>.

Record ArtifactWorkspace : Type := mkArtifactWorkspace { aw_repository : ArtifactRepository; aw_whiteboard : Whiteboard }.
Definition remove_artifact (id : Uuid) : M ArtifactWorkspace ArtifactError Artifact :=
  λ s, match remove id (aw_repository s) with
       | (Ok artifact, repository) => (Ok artifact, mkArtifactWorkspace repository (remove_artifact_cards id (aw_whiteboard s)))
       | (Err e, repository) => (Err e, mkArtifactWorkspace repository (aw_whiteboard s))
       | (Panic, repository) => (Panic, mkArtifactWorkspace repository (aw_whiteboard s))
       end.

(** ** Research *)

Record Citation : Type := mkCitation { ct_id : Uuid; ct_title : string; ct_url : string; ct_retrieved_at : DateTime; ct_content_sha256 : option string }.
Record Claim : Type := mkClaim { ca_id : Uuid; ca_subject : string; ca_predicate : string; ca_value : string; ca_citation_ids : gset Uuid }.
Record Contradiction : Type := mkContradiction { cd_subject : string; cd_predicate : string; cd_claim_ids : list Uuid; cd_values : gset string }.
Record ResearchReport : Type := mkResearchReport {
  rr_id : Uuid; rr_title : string; rr_citations : gmap Uuid Citation; rr_claims : list Claim; rr_contradictions : list Contradiction;
}.
Inductive ResearchError : Type := BlankResearch | UncitedClaim (claim : Uuid) | MissingCitation (claim citation : Uuid).

Section research.
Context `{!Memory.CharTables} {W : Type} `{!Host W}.

Definition normalize (value : string) : string := Memory.to_lowercase (join " " (split_whitespace value)).
Definition group_key (claim : Claim) : string * string := (normalize (ca_subject claim), normalize (ca_predicate claim)).
(** The claims of each key in their order; the keys in order. *)
Definition groups (claims : list Claim) : gmap (string * string) (list Claim) :=
  foldl (λ m claim, <[group_key claim := default [] (m !! group_key claim) ++ [claim]]> m) ∅ claims.
Definition key_le (a b : string * string) : Prop := a.1 ≠ b.1 ∧ str_le a.1 b.1 ∨ a.1 = b.1 ∧ str_le a.2 b.2.
Global Instance key_le_dec : RelDecision key_le.
Proof. intros a b. unfold key_le, str_le. apply _. Defined.
Definition contradiction_of (key : string * string) (group : list Claim) : option Contradiction :=
  let values : gset string := list_to_set ((λ claim, normalize (ca_value claim)) <$> group) in
  if 1 <? size values then Some (mkContradiction key.1 key.2 (ca_id <$> group) values) else None.
Definition detect_contradictions (claims : list Claim) : list Contradiction :=
  omap (λ key, group ← groups claims !! key; contradiction_of key group) (merge_sort key_le (elements (dom (groups claims)))).

Definition blank_claim (claim : Claim) : bool := is_blank (ca_subject claim) || is_blank (ca_predicate claim) || is_blank (ca_value claim).
Definition check_claim (citations : gmap Uuid Citation) (claim : Claim) : outcome ResearchError () :=
  if bool_decide (ca_citation_ids claim = ∅) then Err (UncitedClaim (ca_id claim))
  else
    match find (λ id, negb (bool_decide (is_Some (citations !! id)))) (merge_sort N.le (elements (ca_citation_ids claim))) with
    | Some id => Err (MissingCitation (ca_id claim) id)
    | None => Ok ()
    end.
Definition new_report_id : M W ResearchError Uuid := λ w, let '(id, w) := host_uuid w in (Ok id, w).
(** A later citation with the same identifier wins. *)
Definition build (title : string) (citations : list Citation) (claims : list Claim) : M W ResearchError ResearchReport :=
  _ ← reject_if (is_blank title || existsb blank_claim claims) BlankResearch;
  let citations := list_to_map (reverse ((λ c, (ct_id c, c)) <$> citations)) in
  _ ← lift (try_for_each (check_claim citations) claims);
  let contradictions := detect_contradictions claims in
  id ← new_report_id;
  mret (mkResearchReport id (trim title) citations claims contradictions).
End research.
