(* ===== verification/ArtifactsSpec.v ===== *)
(** * Artifacts, the whiteboard and research reports: theorems

    The board always orders exactly its cards; histories of artifacts only grow; rendered text
    carries no markup or terminal control of its own; and a report lists exactly the contradictions
    among its claims. *)

From stdpp Require Import base gmap strings list sorting.
From Stdlib Require Import Ascii.
From S2P Require Import Prelude Text PhraseCache Artifacts.
From S2P Require Memory.

(** ** The whiteboard *)

Record board_inv (b : Whiteboard) : Prop := {
  bi_once : NoDup (wb_order b);
  bi_cards : ∀ id, id ∈ wb_order b ↔ is_Some (wb_cards b !! id);
  bi_keys : ∀ id card, wb_cards b !! id = Some card → wc_id card = id;
  bi_focus : ∀ id, wb_focused b = Some id → is_Some (wb_cards b !! id);
}.

Inductive BoardOp : Type :=
  | BAdd (id artifact : Uuid)
  | BPin (id : Uuid) (pinned : bool)
  | BFocus (id : option Uuid)
  | BReorder (order : list Uuid)
  | BCopy (new id : Uuid)
  | BRemove (id : Uuid)
  | BRemoveArtifact (artifact : Uuid).
(** The error, if any, and the board. *)
Definition run_board (o : BoardOp) (b : Whiteboard) : option ArtifactError * Whiteboard :=
  let fails {A} (r : outcome ArtifactError A * Whiteboard) := (match r.1 with Err e => Some e | _ => None end, r.2) in
  match o with
  | BAdd id artifact => (None, add id artifact b)
  | BPin id pinned => fails (set_pinned id pinned b)
  | BFocus id => fails (focus id b)
  | BReorder order => fails (reorder order b)
  | BCopy new id => fails (copy new id b)
  | BRemove id => fails (remove_card id b)
  | BRemoveArtifact artifact => (None, remove_artifact_cards artifact b)
  end.
(** New identifiers are new. *)
Definition fresh_for (o : BoardOp) (b : Whiteboard) : Prop :=
  match o with BAdd id _ | BCopy id _ => wb_cards b !! id = None | _ => True end.

Lemma size_list_to_set_le (l : list Uuid) : size (list_to_set l : gset Uuid) ≤ length l.
Proof.
  induction l as [|x l IH]; [by rewrite list_to_set_nil, size_empty|]. rewrite list_to_set_cons, size_union_alt, size_singleton. simpl.
  pose proof (subseteq_size (list_to_set l ∖ {[x]} : gset Uuid) (list_to_set l) ltac:(set_solver)). lia.
Qed.
Lemma size_list_to_set_NoDup (l : list Uuid) : size (list_to_set l : gset Uuid) = length l → NoDup l.
Proof.
  induction l as [|x l IH]; [constructor|]. rewrite list_to_set_cons. simpl length. intros Hs. pose proof (size_list_to_set_le l) as Hle.
  destruct (decide (x ∈ l)) as [Hin|Hni].
  - exfalso. assert ({[x]} ∪ list_to_set l = (list_to_set l : gset Uuid)) as Heq by set_solver. rewrite Heq in Hs. lia.
  - constructor; [done|]. apply IH. rewrite size_union in Hs by set_solver. rewrite size_singleton in Hs. lia.
Qed.

Lemma add_inv id artifact b : board_inv b → wb_cards b !! id = None → board_inv (add id artifact b).
Proof.
  intros [Ho Hc Hk Hf] Hnew. split; simpl.
  - apply NoDup_app. split; [done|]. split; [|apply NoDup_singleton]. intros x Hx ->%list_elem_of_singleton. apply Hc in Hx. rewrite Hnew in Hx.
    by destruct Hx.
  - intros x. rewrite elem_of_app, list_elem_of_singleton, Hc. destruct (decide (x = id)) as [->|Hne].
    + rewrite lookup_insert_eq. split; [by eauto|by right].
    + rewrite lookup_insert_ne by done. split; [intros [?|?]; done|by left].
  - intros x card [[<- <-]|[_ ?]]%lookup_insert_Some; [done|eauto].
  - intros x Hx. destruct (decide (x = id)) as [->|Hne]; [rewrite lookup_insert_eq; by eauto|rewrite lookup_insert_ne by done; auto].
Qed.
Lemma set_pinned_inv id pinned b : board_inv b → board_inv (set_pinned id pinned b).2.
Proof.
  intros Hinv. unfold set_pinned. munfold. destruct (wb_cards b !! id) as [card|] eqn:Hid; [|done]. destruct Hinv as [Ho Hc Hk Hf]. split; simpl; [done|..].
  - intros x. rewrite Hc. destruct (decide (x = id)) as [->|Hne]; [rewrite lookup_insert_eq, Hid; split; eauto|by rewrite lookup_insert_ne].
  - intros x card' [[<- <-]|[_ ?]]%lookup_insert_Some; [simpl; by apply Hk|eauto].
  - intros x Hx. destruct (decide (x = id)) as [->|Hne]; [rewrite lookup_insert_eq; by eauto|rewrite lookup_insert_ne by done; auto].
Qed.
(** An order is accepted exactly when it permutes the old one. *)
Lemma reorder_exact order b :
  board_inv b → (order ≡ₚ wb_order b ∧ reorder order b = (Ok (), b <| wb_order := order |>)) ∨
    (¬ order ≡ₚ wb_order b ∧ reorder order b = (Err InvalidOrder, b)).
Proof.
  intros [Ho Hc Hk Hf]. unfold reorder. munfold.
  assert (wb_order b ≡ₚ elements (dom (wb_cards b))) as Hperm.
  { apply NoDup_Permutation; [done|apply NoDup_elements|]. intros x. by rewrite Hc, elem_of_elements, elem_of_dom. }
  assert (length (wb_order b) = size (wb_cards b)) as Hlen by (rewrite Hperm; apply size_dom).
  case_bool_decide as Hd; simpl.
  - destruct (Nat.eqb_spec (length order) (size (wb_cards b))) as [Hl|Hl]; simpl; [left|right]; (split; [|done]).
    + apply NoDup_Permutation; [|done|].
      * apply size_list_to_set_NoDup. by rewrite <-Hd, Hl, size_dom.
      * intros x. rewrite Hc, <-elem_of_dom, Hd. set_solver.
    + intros Hp%Permutation_length. congruence.
  - right. split; [|done]. intros Hp. apply Hd. apply set_eq. intros x. rewrite elem_of_dom, elem_of_list_to_set, Hp. by rewrite Hc.
Qed.
Lemma remove_set_inv (gone : Uuid → Prop) `{!∀ x, Decision (gone x)} b cards focused :
  board_inv b → (∀ id, cards !! id = if decide (gone id) then None else wb_cards b !! id) →
  (∀ id, focused = Some id → wb_focused b = Some id ∧ ¬ gone id) →
  board_inv (mkWhiteboard cards (filter (λ id, ¬ gone id) (wb_order b)) focused).
Proof.
  intros [Ho Hc Hk Hf] Hcards Hfoc. split; simpl; [by apply NoDup_filter|..].
  - intros x. rewrite list_elem_of_filter, Hcards, Hc. destruct (decide (gone x)); [|tauto]. split; [tauto|by intros []].
  - intros x card. rewrite Hcards. destruct (decide (gone x)); [done|apply Hk].
  - intros x (Hx & Hg)%Hfoc. rewrite Hcards. destruct (decide (gone x)); [done|auto].
Qed.
Lemma remove_card_inv id b : board_inv b → board_inv (remove_card id b).2.
Proof.
  intros Hinv. unfold remove_card. munfold. destruct (wb_cards b !! id) as [card|]; [|done]. simpl.
  apply (remove_set_inv (λ c, c = id)); [done|..].
  - intros x. destruct (decide (x = id)) as [->|]; [by rewrite lookup_delete_eq|by rewrite lookup_delete_ne].
  - intros x. case_bool_decide as Hb; [done|]. intros Hx. split; [done|]. intros ->. done.
Qed.

(** The cards that go with an artifact. *)
Definition shows (b : Whiteboard) (artifact id : Uuid) : Prop := ∃ card, wb_cards b !! id = Some card ∧ wc_artifact_id card = artifact.
Lemma removed_cards b artifact id :
  board_inv b →
  id ∈ (list_to_set (wc_id <$> filter (λ card, wc_artifact_id card = artifact) (map_to_list (wb_cards b)).*2) : gset Uuid) ↔ shows b artifact id.
Proof.
  intros [_ _ Hk _]. rewrite elem_of_list_to_set, list_elem_of_fmap. unfold shows. split.
  - intros (card & -> & [Ha Hin]%list_elem_of_filter). apply list_elem_of_fmap in Hin as ([k c] & -> & Hin%elem_of_map_to_list). simpl in *.
    rewrite (Hk _ _ Hin). eauto.
  - intros (card & Hc & Ha). exists card. split; [symmetry; by apply Hk|]. apply list_elem_of_filter. split; [done|].
    apply list_elem_of_fmap. exists (id, card). split; [done|]. by apply elem_of_map_to_list.
Qed.
Lemma remove_artifact_cards_spec artifact b :
  board_inv b → board_inv (remove_artifact_cards artifact b) ∧
  (∀ id card, wb_cards (remove_artifact_cards artifact b) !! id = Some card ↔ wb_cards b !! id = Some card ∧ wc_artifact_id card ≠ artifact).
Proof.
  intros Hinv. unfold remove_artifact_cards. set (removed := list_to_set _ : gset Uuid).
  assert (∀ id, id ∈ removed ↔ shows b artifact id) as Hrem by (intros id; by apply removed_cards).
  assert (∀ id, filter (λ kv : Uuid * WhiteboardCard, kv.1 ∉ removed) (wb_cards b) !! id = if decide (id ∈ removed) then None else wb_cards b !! id) as Hlook.
  { intros id. destruct (decide (id ∈ removed)) as [Hin|Hni].
    - apply map_lookup_filter_None. right. intros x _ Hx. by apply Hx.
    - destruct (wb_cards b !! id) as [card|] eqn:Hc; [by apply map_lookup_filter_Some|by apply map_lookup_filter_None; left]. }
  split.
  - apply (remove_set_inv (λ id, id ∈ removed)); [done|done|]. intros id. destruct (wb_focused b) as [f|]; [|done]. case_bool_decide; [done|].
    by intros [= <-].
  - intros id card. simpl. rewrite Hlook. destruct (decide (id ∈ removed)) as [Hin|Hni].
    + split; [done|]. intros [Hc Hne]. apply Hrem in Hin as (card' & Hc' & Ha). congruence.
    + split; [|by intros []]. intros Hc. split; [done|]. intros Ha. apply Hni, Hrem. by exists card.
Qed.

(** The board orders exactly its cards, each once, focuses one of them or none, and a failing operation changes nothing,
    whatever operations come in whatever order. *)
Theorem whiteboard_stays_consistent o b e b' :
  board_inv b → fresh_for o b → run_board o b = (e, b') → board_inv b' ∧ (is_Some e → b' = b).
Proof.
  intros Hinv Hfresh Hrun. destruct o as [id artifact|id pinned|id|order|new id|id|artifact]; simpl in Hrun.
  - injection Hrun as <- <-. split; [by apply add_inv|by intros []].
  - injection Hrun as He Hb. split; [rewrite <-Hb; by apply set_pinned_inv|]. revert He Hb. unfold set_pinned. munfold.
    destruct (wb_cards b !! id); simpl; [intros <- _; by intros []|by intros _ <-].
  - revert Hrun. unfold focus. munfold. destruct id as [id|].
    + case_bool_decide as Hs; simpl; intros [= <- <-]; [|done]. split; [|by intros []]. destruct Hinv. split; simpl; [done..|]. by intros x [= <-].
    + simpl. intros [= <- <-]. split; [|by intros []]. by destruct Hinv.
  - destruct (reorder_exact order b Hinv) as [[Hp Hr]|[_ Hr]]; rewrite Hr in Hrun; injection Hrun as <- <-; [|done]. split; [|by intros []].
    destruct Hinv as [Ho Hc Hk Hf]. split; simpl; [by rewrite Hp|intros x; by rewrite Hp|done..].
  - revert Hrun. unfold copy. munfold. destruct (wb_cards b !! id) as [card|]; simpl; intros [= <- <-]; [|done]. split; [by apply add_inv|by intros []].
  - injection Hrun as He Hb. split; [rewrite <-Hb; by apply remove_card_inv|]. revert He Hb. unfold remove_card. munfold.
    destruct (wb_cards b !! id); simpl; [intros <- _; by intros []|by intros _ <-].
  - injection Hrun as <- <-. split; [by apply remove_artifact_cards_spec|by intros []].
Qed.

(** ** The repository *)

Section repository.
Context `{!Sha256} {W : Type} `{!Host W}.

(** Artifacts are filed under their identifiers and their versions are numbered from 1. *)
Definition numbered (versions : list ArtifactVersion) : Prop :=
  versions ≠ [] ∧ ∀ i v, versions !! i = Some v → av_version v = N.min (N.of_nat (S i)) u32_max.
Definition repository_inv (r : ArtifactRepository) : Prop :=
  ∀ id a, r !! id = Some a → ar_id a = id ∧ numbered (ar_versions a) ∧ is_empty (ar_title a) = false.

Lemma numbered_snoc_version versions v :
  numbered versions → av_version v = N.min (N.of_nat (S (length versions))) u32_max → numbered (versions ++ [v]).
Proof.
  intros [Hne Hn] Hv. split; [by destruct versions|]. intros i w Hi. apply lookup_app_Some in Hi as [Hi|[Hl Hi]]; [by apply Hn|].
  apply list_lookup_singleton_Some in Hi as [Hz ->]. by replace i with (length versions) by lia.
Qed.

(** Adding a version keeps all earlier ones, gives the next number and touches no other artifact; a failure changes nothing. *)
Theorem versions_are_append_only id media content links r o r' :
  repository_inv r → add_version id media content links r = (o, r') →
  repository_inv r' ∧
  match o with
  | Ok v => ∃ a, r !! id = Some a ∧ r' = <[id := a <| ar_versions := ar_versions a ++ [v] |>]> r ∧
      av_version v = N.min (N.of_nat (S (length (ar_versions a)))) u32_max ∧
      av_content_sha256 v = hex_digest (sha256 content) ∧ av_byte_length v = length content
  | Err e => r' = r ∧ ((e = BlankMetadata ∧ is_blank media = true) ∨ (e = MissingArtifact id ∧ r !! id = None))
  | Panic => False
  end.
Proof.
  intros Hinv. unfold add_version. munfold. destruct (is_blank media) eqn:Hb; simpl; [intros [= <- <-]; auto|].
  destruct (r !! id) as [a|] eqn:Ha; simpl; [|intros [= <- <-]; auto].
  set (n := N.min (N.min _ _ + 1) _). assert (n = N.min (N.of_nat (S (length (ar_versions a)))) u32_max) as Hn by (unfold n; lia).
  intros [= <- <-]. split; [|by eauto 10]. intros id' a' [[<- <-]|[_ ?]]%lookup_insert_Some; [|by apply Hinv].
  destruct (Hinv _ _ Ha) as (Hid & Hnum & Htitle). split; [done|]. split; [|done]. by apply numbered_snoc_version.
Qed.
Lemma create_inv title kind media content links (s : ArtifactRepository * W) :
  repository_inv s.1 → repository_inv (create title kind media content links s).2.1.
Proof.
  intros Hinv. unfold create, new_artifact_id. munfold. destruct (is_blank title) eqn:Ht; simpl; [done|]. destruct (is_blank media); simpl; [done|].
  destruct (host_uuid s.2) as [id w]. simpl. intros id' a [[<- <-]|[_ ?]]%lookup_insert_Some; [|by apply Hinv]. simpl. split; [done|]. split.
  - split; [done|]. intros [|i] v; [|done]. by intros [= <-].
  - exact Ht.
Qed.

(** Deleting an artifact takes exactly it and the cards that show it. *)
Theorem removed_artifacts_leave_no_cards id s o s' :
  board_inv (aw_whiteboard s) → remove_artifact id s = (o, s') →
  match o with
  | Ok a => aw_repository s !! id = Some a ∧ aw_repository s' = delete id (aw_repository s) ∧ board_inv (aw_whiteboard s') ∧
      ∀ card_id card, wb_cards (aw_whiteboard s') !! card_id = Some card ↔
        wb_cards (aw_whiteboard s) !! card_id = Some card ∧ wc_artifact_id card ≠ id
  | Err e => e = MissingArtifact id ∧ aw_repository s !! id = None ∧ s' = s
  | Panic => False
  end.
Proof.
  intros Hinv. unfold remove_artifact, remove. munfold. destruct (aw_repository s !! id) as [a|] eqn:Ha; simpl; intros [= <- <-].
  - split; [done|]. split; [done|]. by apply remove_artifact_cards_spec.
  - by destruct s.
Qed.
End repository.

(** ** Rendering *)

(** What a reader of HTML makes of the five entities. *)
Definition entities : list (string * ascii) :=
  [("&amp;", "&"%char); ("&lt;", "<"%char); ("&gt;", ">"%char); ("&quot;", double_quote); ("&#39;", single_quote)].
Fixpoint unescape_html (fuel : nat) (l : list ascii) : list ascii :=
  match fuel, l with
  | 0, _ | _, [] => l
  | S fuel, c :: rest =>
    match head (omap (λ e : string * ascii, pair e.2 <$> strip_prefix (bytes e.1) l) entities) with
    | Some (c, rest) => c :: unescape_html fuel rest
    | None => c :: unescape_html fuel rest
    end
  end.
Definition markup (c : ascii) : bool := bool_decide (c ∈ ["<"%char; ">"%char; double_quote; single_quote]).

Lemma escape_byte_cases c :
  (∃ e, e ∈ entities ∧ e.2 = c ∧ escape_byte c = bytes e.1) ∨ (escape_byte c = [c] ∧ markup c = false ∧ c ≠ "&"%char).
Proof.
  unfold escape_byte, markup.
  case_bool_decide as H1; [left; exists ("&amp;", c); subst; split; [|done]; repeat constructor|].
  case_bool_decide as H2; [left; exists ("&lt;", c); subst; split; [|done]; repeat constructor|].
  case_bool_decide as H3; [left; exists ("&gt;", c); subst; split; [|done]; repeat constructor|].
  case_bool_decide as H4; [left; exists ("&quot;", c); subst; split; [|done]; repeat constructor|].
  case_bool_decide as H5; [left; exists ("&#39;", c); subst; split; [|done]; repeat constructor|].
  right. split; [done|]. split; [|done]. apply bool_decide_eq_false. intros Hin. repeat (apply elem_of_cons in Hin as [Hin|Hin]; [done|]).
  by apply elem_of_nil in Hin.
Qed.
Lemma unescape_escape_byte c fuel rest :
  unescape_html (S fuel) (escape_byte c ++ rest) = c :: unescape_html fuel rest.
Proof.
  destruct (escape_byte_cases c) as [(e & He & <- & ->)|(-> & Hm & Hamp)].
  - unfold entities in He. repeat (apply elem_of_cons in He as [->|He]; [reflexivity|]). by apply elem_of_nil in He.
  - cbn -[decide]. rewrite !decide_False by congruence. reflexivity.
Qed.

Lemma rename_inv `{!Sha256} id title r : repository_inv r → repository_inv (rename id title r).2.
Proof.
  intros Hinv. unfold rename. munfold. destruct (is_empty (trim title)) eqn:Ht; simpl; [done|]. destruct (r !! id) as [a|] eqn:Ha; simpl; [|done].
  intros id' a' [[<- <-]|[_ ?]]%lookup_insert_Some; [|by apply Hinv]. by destruct (Hinv _ _ Ha) as (? & ? & _).
Qed.

Lemma escape_html_neutral s : Forall (λ c, markup c = false) (bytes (escape_html s)).
Proof.
  unfold escape_html. rewrite bytes_of_bytes. induction (bytes s) as [|c l IH]; [constructor|]. cbn [mbind list_bind]. apply Forall_app. split; [|done].
  destruct (escape_byte_cases c) as [(e & He & _ & ->)|(-> & Hm & _)]; [|by constructor].
  unfold entities in He. repeat (apply elem_of_cons in He as [->|He]; [vm_compute; repeat constructor|]). by apply elem_of_nil in He.
Qed.

(** Escaping is faithful and neutral: a reader gets the text back, and the text brings no markup: none of its characters
    can open or close a tag or an attribute. *)
Theorem escaped_text_reads_back s :
  unescape_html (length (bytes s)) (bytes (escape_html s)) = bytes s ∧ Forall (λ c, markup c = false) (bytes (escape_html s)).
Proof.
  split; [|apply escape_html_neutral]. unfold escape_html. rewrite bytes_of_bytes.
  induction (bytes s) as [|c l IH]; [done|]. cbn [mbind list_bind length]. by rewrite unescape_escape_byte, IH.
Qed.
(** The tags of a report are those of an empty one, whatever its title and body. *)
Theorem reports_keep_their_structure title body :
  filter (λ c, markup c = true) (bytes (sanitized_html_report title body)) = filter (λ c, markup c = true) (bytes (sanitized_html_report "" "")).
Proof.
  assert (∀ s, filter (λ c, markup c = true) (bytes (escape_html s)) = []) as Hnone.
  { intros s. induction (escape_html_neutral s) as [|c l Hc _ IH]; [done|].
    rewrite filter_cons_False by (simpl; congruence). exact IH. }
  unfold sanitized_html_report. rewrite !bytes_app, !filter_app, !Hnone. reflexivity.
Qed.

(** Text for the terminal has no control byte but line feeds and tabs.  (In UTF-8 a character of several bytes starts above
    the ASCII range.) *)
Theorem terminal_text_has_no_controls s c :
  (∀ b rest, b :: rest ∈ Memory.chars s → rest ≠ [] → (128 ≤ byte_val b)%N ∧ Forall (λ c, (128 ≤ byte_val c)%N) rest) →
  c ∈ bytes (terminal_safe_text s) → (byte_val c < 32 ∨ byte_val c = 127)%N → c = "010"%char ∨ c = "009"%char.
Proof.
  intros Hutf Hc Hctl. unfold terminal_safe_text in Hc. rewrite bytes_of_bytes in Hc. apply list_elem_of_In, in_concat in Hc as (l & Hl%list_elem_of_In & Hc%list_elem_of_In).
  apply list_elem_of_filter in Hl as [Hsafe Hl]. destruct l as [|b [|b' rest]]; [by apply elem_of_nil in Hc| |].
  - apply list_elem_of_singleton in Hc as ->. unfold safe_char in Hsafe. rewrite !orb_true_iff, !bool_decide_eq_true in Hsafe.
    destruct Hsafe as [[[= ->]|[= ->]]|Hsafe]; [by left|by right|]. apply andb_true_iff in Hsafe as [Hsafe _]. simpl in Hsafe.
    rewrite negb_true_iff, orb_false_iff, N.ltb_ge, N.eqb_neq in Hsafe. lia.
  - destruct (Hutf _ _ Hl ltac:(done)) as [Hb Hrest]. apply elem_of_cons in Hc as [->|Hc]; [lia|].
    rewrite Forall_forall in Hrest. specialize (Hrest _ Hc). simpl in Hrest. lia.
Qed.

(** ** Research *)

Section research.
Context `{!Memory.CharTables} {W : Type} `{!Host W}.

Definition group_of (claims : list Claim) (key : string * string) : list Claim := filter (λ c, group_key c = key) claims.
Lemma groups_lookup claims key : groups claims !! key = if decide (group_of claims key = []) then None else Some (group_of claims key).
Proof.
  induction claims as [|c claims IH] using rev_ind; [done|].
  assert (groups (claims ++ [c]) = <[group_key c := default [] (groups claims !! group_key c) ++ [c]]> (groups claims)) as ->
    by (unfold groups; by rewrite foldl_app).
  unfold group_of in *. rewrite filter_app. destruct (decide (group_key c = key)) as [<-|Hne].
  - rewrite lookup_insert_eq, IH, (filter_cons_True _ c) by done.
    destruct (decide (filter _ claims = [])) as [Hnil|Hne]; [by rewrite Hnil|]. simpl. rewrite decide_False; [done|]. by intros [? _]%app_nil.
  - rewrite lookup_insert_ne by done. rewrite (filter_cons_False _ c) by done. by rewrite app_nil_r.
Qed.
Lemma two_elements (X : gset string) : 1 < size X ↔ ∃ x y, x ∈ X ∧ y ∈ X ∧ x ≠ y.
Proof.
  split.
  - intros Hs. destruct (size_pos_elem_of X ltac:(lia)) as [x Hx].
    destruct (size_pos_elem_of (X ∖ {[x]})) as [y Hy]; [rewrite size_difference, size_singleton by set_solver; lia|].
    exists x, y. set_solver.
  - intros (x & y & Hx & Hy & Hne). assert ({[x; y]} ⊆ X) as Hsub by set_solver. apply subseteq_size in Hsub.
    rewrite size_union, !size_singleton in Hsub by set_solver. lia.
Qed.

(** Two claims about the same thing say different things. *)
Definition conflicting (group : list Claim) : Prop :=
  ∃ a b, a ∈ group ∧ b ∈ group ∧ normalize (ca_value a) ≠ normalize (ca_value b).
Lemma contradiction_of_spec key group :
  contradiction_of key group = if decide (1 < size (list_to_set ((λ claim, normalize (ca_value claim)) <$> group) : gset string))
    then Some (mkContradiction key.1 key.2 (ca_id <$> group) (list_to_set ((λ claim, normalize (ca_value claim)) <$> group))) else None.
Proof. unfold contradiction_of. destruct (Nat.ltb_spec 1 (size (list_to_set ((λ claim, normalize (ca_value claim)) <$> group) : gset string))), (decide _); done || lia. Qed.
Lemma conflicting_iff group :
  conflicting group ↔ 1 < size (list_to_set ((λ claim, normalize (ca_value claim)) <$> group) : gset string).
Proof.
  rewrite two_elements. unfold conflicting. setoid_rewrite elem_of_list_to_set. setoid_rewrite list_elem_of_fmap. split.
  - intros (a & b & Ha & Hb & Hne). exists (normalize (ca_value a)), (normalize (ca_value b)). split_and!; [by exists a|by exists b|done].
  - intros (x & y & (a & -> & Ha) & (b & -> & Hb) & Hne). eauto 10.
Qed.

(** A report names exactly the contradictions among its claims: there is one for a subject and predicate exactly when two
    claims that agree in them, up to case and spacing, differ in their value; it lists all the claims about that subject and
    predicate in their order and all their values; and none is named twice. *)
Theorem contradictions_are_exact claims :
  (∀ c, c ∈ detect_contradictions claims ↔
    ∃ key, conflicting (group_of claims key) ∧
      c = mkContradiction key.1 key.2 (ca_id <$> group_of claims key)
            (list_to_set ((λ claim, normalize (ca_value claim)) <$> group_of claims key))) ∧
  NoDup ((λ c, (cd_subject c, cd_predicate c)) <$> detect_contradictions claims).
Proof.
  unfold detect_contradictions. set (keys := merge_sort key_le _).
  assert (∀ key, key ∈ keys ↔ group_of claims key ≠ []) as Hkeys.
  { intros key. unfold keys. rewrite (merge_sort_Permutation key_le), elem_of_elements, elem_of_dom, groups_lookup.
    destruct (decide _) as [Hnil|Hnil]; [split; [by intros []|done]|split; eauto]. }
  assert (NoDup keys) as Hnd by (unfold keys; rewrite (merge_sort_Permutation key_le); apply NoDup_elements).
  set (find_one := λ key, group ← groups claims !! key; contradiction_of key group).
  assert (∀ key c, find_one key = Some c ↔ conflicting (group_of claims key) ∧
    c = mkContradiction key.1 key.2 (ca_id <$> group_of claims key) (list_to_set ((λ claim, normalize (ca_value claim)) <$> group_of claims key))) as Hone.
  { intros key c. unfold find_one. rewrite groups_lookup, conflicting_iff. destruct (decide (group_of claims key = [])) as [Hnil|Hne]; simpl.
    - rewrite Hnil. split; [done|]. intros [Hlt _]. by vm_compute in Hlt; lia.
    - rewrite contradiction_of_spec. destruct (decide _); split; [by intros [= <-]|by intros [_ ->]|done|tauto]. }
  split.
  - intros c. rewrite list_elem_of_omap. setoid_rewrite Hone. split; [intros (key & _ & ?); by exists key|].
    intros (key & Hconf & ->). exists key. split; [|done]. apply Hkeys. destruct Hconf as (a & b & Ha & _). intros Hnil. rewrite Hnil in Ha.
    by apply elem_of_nil in Ha.
  - assert (∀ key c, find_one key = Some c → (cd_subject c, cd_predicate c) = key) as Hkey by (intros [s p] c [_ ->]%Hone; done).
    clear Hkeys. clearbody keys. induction keys as [|key keys IH]; [constructor|]. apply NoDup_cons in Hnd as [Hni Hnd]. simpl.
    destruct (find_one key) as [c|] eqn:Hf; [|by apply IH]. simpl. apply NoDup_cons. split; [|by apply IH].
    rewrite (Hkey _ _ Hf). intros (c' & Heq & (key' & Hin & Hf')%list_elem_of_omap)%list_elem_of_fmap. rewrite (Hkey _ _ Hf') in Heq. by subst.
Qed.

Definition well_cited (title : string) (citations : list Citation) (claims : list Claim) : Prop :=
  is_blank title = false ∧ ∀ claim, claim ∈ claims → blank_claim claim = false ∧ ca_citation_ids claim ≠ ∅ ∧
    ∀ id, id ∈ ca_citation_ids claim → ∃ c, c ∈ citations ∧ ct_id c = id.
Definition citation_map (citations : list Citation) : gmap Uuid Citation := list_to_map (reverse ((λ c, (ct_id c, c)) <$> citations)).
Lemma citation_map_dom citations id : is_Some (citation_map citations !! id) ↔ ∃ c, c ∈ citations ∧ ct_id c = id.
Proof.
  unfold citation_map. rewrite <-elem_of_dom, dom_list_to_map, elem_of_list_to_set, list_elem_of_fmap. setoid_rewrite elem_of_reverse.
  setoid_rewrite list_elem_of_fmap. split; [intros (x & -> & c & -> & ?); by exists c|intros (c & ? & <-); eexists; split; [|by exists c]; done].
Qed.
Lemma check_claim_cases citations claim :
  (check_claim (citation_map citations) claim = Ok () ∧ ca_citation_ids claim ≠ ∅ ∧ ∀ id, id ∈ ca_citation_ids claim → ∃ c, c ∈ citations ∧ ct_id c = id) ∨
  ((∃ e, check_claim (citation_map citations) claim = Err e) ∧
   ¬ (ca_citation_ids claim ≠ ∅ ∧ ∀ id, id ∈ ca_citation_ids claim → ∃ c, c ∈ citations ∧ ct_id c = id)).
Proof.
  unfold check_claim. case_bool_decide as He; [right; split; [eauto|tauto]|].
  destruct (find _ _) as [id|] eqn:Hf.
  - apply find_some in Hf as [Hin Hno]. right. split; [eauto|]. intros [_ Hall]. apply negb_true_iff, bool_decide_eq_false in Hno. apply Hno.
    apply citation_map_dom, Hall. apply list_elem_of_In in Hin. rewrite (merge_sort_Permutation N.le) in Hin. by apply elem_of_elements.
  - left. split; [done|]. split; [done|]. intros id Hid. apply citation_map_dom.
    assert (id ∈ merge_sort N.le (elements (ca_citation_ids claim))) as Hin by (rewrite (merge_sort_Permutation N.le); by apply elem_of_elements).
    apply list_elem_of_In in Hin. pose proof (find_none _ _ Hf _ Hin) as Hn. simpl in Hn. by apply negb_false_iff, bool_decide_eq_true in Hn.
Qed.

(** A report is built exactly when its title and claims are filled in and every claim cites citations that are given; it
    then holds those claims and their contradictions.  Otherwise nothing happens. *)
Theorem reports_are_well_cited title citations claims (w : W) :
  (well_cited title citations claims ∧ ∃ id w', host_uuid w = (id, w') ∧
    build title citations claims w =
      (Ok (mkResearchReport id (trim title) (citation_map citations) claims (detect_contradictions claims)), w')) ∨
  (¬ well_cited title citations claims ∧ ∃ e, build title citations claims w = (Err e, w)).
Proof.
  unfold build, new_report_id, well_cited. munfold. destruct (is_blank title) eqn:Ht; simpl; [right; split; [by intros []|eauto]|].
  destruct (existsb blank_claim claims) eqn:Hb; simpl.
  { apply existsb_exists in Hb as (claim & Hin & Hbc). right. split; [|eauto]. intros [_ Hall]. apply list_elem_of_In in Hin.
    destruct (Hall _ Hin) as [Hf _]. congruence. }
  assert (∀ claim, claim ∈ claims → blank_claim claim = false) as Hfilled.
  { intros claim Hin. destruct (blank_claim claim) eqn:Hbc; [|done]. enough (existsb blank_claim claims = true) by congruence.
    apply existsb_exists. exists claim. split; [by apply list_elem_of_In|done]. }
  fold (citation_map citations). pose proof (try_for_each_ok (check_claim (citation_map citations)) claims) as Hall.
  destruct (try_for_each _ _) as [[]|e|] eqn:Htry.
  - left. split; [|destruct (host_uuid w) as [id w']; by eauto]. split; [done|]. intros claim Hin. split; [by apply Hfilled|].
    destruct (check_claim_cases citations claim) as [[_ ?]|[[e He] _]]; [done|]. rewrite (proj1 Hall eq_refl claim Hin) in He. done.
  - right. split; [|eauto]. intros [_ Hwell]. enough (Err e = Ok ()) by done. apply Hall. intros claim Hin.
    destruct (check_claim_cases citations claim) as [[? _]|[_ Hn]]; [done|]. by destruct (Hwell _ Hin) as [_ ?].
  - exfalso. clear -Htry. induction claims as [|claim claims IH]; [done|]. simpl in Htry.
    destruct (check_claim_cases citations claim) as [[Hc _]|[[e Hc] _]]; rewrite Hc in Htry; [by apply IH|done].
Qed.
End research.
