(* ===== verification/Connectors.v ===== *)
(** * Connectors

    Models [crates/connectors/src/lib.rs]: connector configurations and grants, the REST connector
    that executes a granted request, and the OAuth client with PKCE.  URLs, base64, form encoding,
    the keychain and HTTP are interfaces. *)

From stdpp Require Import base gmap strings list sorting pretty.
From Stdlib Require Import Ascii.
From S2P Require Import Prelude Text Browser Automation.
From S2P Require Artifacts.
From S2P Require Memory.

(** ** Data *)

Inductive ConnectorKind : Type := GitHub | Gmail | GoogleCalendar | Slack | MicrosoftGraph | CustomRest.
Inductive OAuthProvider : Type := OAuthGitHub | OAuthGoogle.
Inductive ConnectorAction : Type := ARead | ACreate | AUpdate | ADelete | ASend.
Global Instance ConnectorAction_eq_dec : EqDecision ConnectorAction.
Proof. solve_decision. Defined.
Global Instance ConnectorAction_countable : Countable ConnectorAction.
Proof.
  refine (inj_countable' (λ a, match a with ARead => 0 | ACreate => 1 | AUpdate => 2 | ADelete => 3 | ASend => 4 end)
    (λ n, match n with 0 => ARead | 1 => ACreate | 2 => AUpdate | 3 => ADelete | _ => ASend end) _). by intros [].
Defined.
Record ConnectorGrant : Type := mkConnectorGrant { cg_resource : string; cg_action : ConnectorAction }.
Global Instance ConnectorGrant_eq_dec : EqDecision ConnectorGrant.
Proof. solve_decision. Defined.
Global Instance ConnectorGrant_countable : Countable ConnectorGrant.
Proof. refine (inj_countable' (λ g, (cg_resource g, cg_action g)) (λ p, mkConnectorGrant p.1 p.2) _). by intros []. Defined.

Inductive ConnectorAuth : Type :=
  | OAuth2 (keychain_alias : string) (refresh_keychain_alias : option string) (client_id : string) (provider : option OAuthProvider)
      (scopes : gset string) (account_label : string) (expires_at : option DateTime)
  | BearerToken (keychain_alias : string)
  | NoAuth.
Record ConnectorConfig : Type := mkConnectorConfig {
  co_id : Uuid;
  co_display_name : string;
  co_kind : ConnectorKind;
  co_base_url : Url;
  co_auth : ConnectorAuth;
  co_grants : gset ConnectorGrant;
  co_enabled : bool;
}.
Record ConnectorRequest : Type := mkConnectorRequest {
  cr_operation_id : Uuid;
  cr_grant : ConnectorGrant;
  cr_method : string;
  cr_path : string;
  cr_query : list (string * string);
  cr_body : option Value;
  cr_idempotency_key : option string;
}.
Record ConnectorResponse : Type := mkConnectorResponse {
  cp_status : N; cp_body : Value; cp_next_cursor : option string; cp_request_id : option string;
}.
Inductive ConnectorError : Type :=
  | ConnectorDisabled
  | GrantDenied (grant : ConnectorGrant)
  | CredentialsUnavailable
  | InsecureTransport
  | CrossOrigin
  | ConnectorInvalid (detail : string)
  | TransportFailed (detail : string).
Inductive OAuthError : Type :=
  | OAuthInvalid (detail : string)
  | OAuthRejected (status : N)
  | OAuthTransport
  | InvalidTokenResponse
  | RefreshUnsupported
  | RevokeUnsupported.

(** ** Interfaces *)

(** A request as it is sent, and what comes back. *)
Record HttpRequest : Type := mkHttpRequest {
  hq_method : string; hq_url : Url; hq_idempotency_key : option string; hq_bearer : option string; hq_body : option Value; hq_form : option string;
}.
Record HttpResponse : Type := mkHttpResponse {
  hp_status : N; hp_request_id : option string; hp_next_cursor : option string; hp_json : string + Value;
}.
Class ConnectorUrls : Type := {
  join_url : Url → string → string + Url;
  origin : Url → string;
  append_pairs : Url → list (string * string) → Url;
  form_urlencode : list (string * string) → string;
  url_safe_no_pad : list N → string;
  (** [Method::from_bytes]: the error of a text that is no method. *)
  method_error : string → option string;
}.
Class ConnectorHost (W : Type) : Type := {
  bearer_token : string → W → (ConnectorError + string) * W;
  http_send : HttpRequest → W → (string + HttpResponse) * W;
}.

(** ** Configuration *)

Definition https (host path : string) : Url := mkUrl ("https://" +:+ host +:+ path) "https" (Some host) path.
Definition built_in_defaults (kind : ConnectorKind) : Url * gset ConnectorGrant :=
  let '(base, resources) :=
    match kind with
    | GitHub => (https "api.github.com" "/", ["repositories"; "issues"; "pull_requests"])
    | Gmail => (https "gmail.googleapis.com" "/", ["messages"; "labels"])
    | GoogleCalendar => (https "www.googleapis.com" "/calendar/v3/", ["calendars"; "events"])
    | Slack => (https "slack.com" "/api/", ["channels"; "messages"])
    | MicrosoftGraph => (https "graph.microsoft.com" "/v1.0/", ["mail"; "calendar"; "files"; "teams"])
    | CustomRest => (https "localhost" "/", [])
    end in
  (base, list_to_set ((λ resource, mkConnectorGrant resource ARead) <$> resources)).
Definition built_in (id : Uuid) (kind : ConnectorKind) (display_name : string) : ConnectorConfig :=
  let '(base_url, grants) := built_in_defaults kind in mkConnectorConfig id display_name kind base_url NoAuth grants false.
Definition auth_alias (auth : ConnectorAuth) : option string :=
  match auth with OAuth2 alias _ _ _ _ _ _ | BearerToken alias => Some alias | NoAuth => None end.
Definition validate (c : ConnectorConfig) : outcome ConnectorError () :=
  if is_blank (co_display_name c) then Err (ConnectorInvalid "display name cannot be blank")
  else if negb (bool_decide (url_scheme (co_base_url c) = "https")) &&
          negb (bool_decide (url_host (co_base_url c) ∈ [Some "127.0.0.1"; Some "localhost"]))
  then Err InsecureTransport
  else if match auth_alias (co_auth c) with Some alias => is_blank alias | None => false end
  then Err (ConnectorInvalid "keychain alias cannot be blank")
  else Ok ().
Definition permits (c : ConnectorConfig) (grant : ConnectorGrant) : bool := co_enabled c && bool_decide (grant ∈ co_grants c).

Definition default_oauth_scopes (kind : ConnectorKind) : gset string :=
  list_to_set (filter (λ scope, scope ≠ "")
    match kind with
    | GitHub => ["read:user"; "user:email"]
    | Gmail => ["https://www.googleapis.com/auth/gmail.readonly"; ""]
    | GoogleCalendar => ["https://www.googleapis.com/auth/calendar.readonly"; ""]
    | _ => [""; ""]
    end).
Definition oauth_provider (kind : ConnectorKind) : option OAuthProvider :=
  match kind with GitHub => Some OAuthGitHub | Gmail | GoogleCalendar => Some OAuthGoogle | _ => None end.

(** ** Executing *)

Section execute.
Context `{!ConnectorUrls, !JsonDisplay} {W : Type} `{!ConnectorHost W}.
Notation CM := (M W ConnectorError).

Fixpoint trim_start_slashes (l : list ascii) : list ascii :=
  match l with c :: l' => if bool_decide (c = "/"%char) then trim_start_slashes l' else l | [] => [] end.
Definition request_url (c : ConnectorConfig) (r : ConnectorRequest) : outcome ConnectorError Url :=
  match join_url (co_base_url c) (of_bytes (trim_start_slashes (bytes (cr_path r)))) with
  | inl error => Err (ConnectorInvalid error)
  | inr url =>
    if negb (bool_decide (origin url = origin (co_base_url c))) then Err CrossOrigin
    else Ok (append_pairs url (cr_query r))
  end.
Definition host_call {A} (f : W → (ConnectorError + A) * W) : CM A :=
  λ w, match f w with (inr a, w) => (Ok a, w) | (inl e, w) => (Err e, w) end.
Definition send_request (q : HttpRequest) : CM HttpResponse :=
  host_call (λ w, match http_send q w with (inr r, w) => (inr r, w) | (inl error, w) => (inl (TransportFailed error), w) end).
Definition execute (c : ConnectorConfig) (r : ConnectorRequest) : CM ConnectorResponse :=
  _ ← lift (validate c);
  _ ← reject_if (negb (co_enabled c)) ConnectorDisabled;
  _ ← reject_if (negb (permits c (cr_grant r))) (GrantDenied (cr_grant r));
  url ← lift (request_url c r);
  _ ← match method_error (cr_method r) with Some error => throw (ConnectorInvalid error) | None => mret () end;
  bearer ← match auth_alias (co_auth c) with Some alias => token ← host_call (bearer_token alias); mret (Some token) | None => mret None end;
  response ← send_request (mkHttpRequest (cr_method r) url (cr_idempotency_key r) bearer (cr_body r) None);
  match hp_json response with
  | inl error => throw (TransportFailed error)
  | inr body =>
    _ ← reject_if (negb (in_range 200 299 (hp_status response)))
          (TransportFailed ("HTTP " +:+ pretty (hp_status response) +:+ ": " +:+ json_display body));
    mret (mkConnectorResponse (hp_status response) body (hp_next_cursor response) (hp_request_id response))
  end.
End execute.

(** ** OAuth *)

Definition valid_client_id (client_id : string) : outcome OAuthError () :=
  if is_blank client_id || (512 <? str_len client_id) || existsb Artifacts.is_control (Memory.chars client_id)
  then Err (OAuthInvalid "a valid public client ID is required") else Ok ().
Record OAuthProviderMetadata : Type := mkOAuthProviderMetadata {
  om_provider : OAuthProvider;
  om_authorization_endpoint : Url;
  om_token_endpoint : Url;
  om_revocation_endpoint : option Url;
  om_supports_refresh_without_secret : bool;
}.
Definition reviewed (p : OAuthProvider) : OAuthProviderMetadata :=
  match p with
  | OAuthGitHub => mkOAuthProviderMetadata p (https "github.com" "/login/oauth/authorize") (https "github.com" "/login/oauth/access_token") None false
  | OAuthGoogle => mkOAuthProviderMetadata p (https "accounts.google.com" "/o/oauth2/v2/auth") (https "oauth2.googleapis.com" "/token")
      (Some (https "oauth2.googleapis.com" "/revoke")) true
  end.
Definition loopback_host (url : Url) : bool := bool_decide (url_host url ∈ [Some "127.0.0.1"; Some "localhost"; Some "::1"]).
Definition endpoint_ok (url : Url) : bool :=
  bool_decide (url_scheme url = "https") || (bool_decide (url_scheme url = "http") && loopback_host url).
Definition metadata_new (p : OAuthProvider) (authorization token : Url) (revocation : option Url) (refresh : bool)
    : outcome OAuthError OAuthProviderMetadata :=
  if forallb endpoint_ok ([authorization; token] ++ option_list revocation)
  then Ok (mkOAuthProviderMetadata p authorization token revocation refresh)
  else Err (OAuthInvalid "OAuth endpoints must use HTTPS or loopback HTTP").

Record OAuthAuthorization : Type := mkOAuthAuthorization { oa_authorization_url : Url; oa_state : string; oa_code_verifier : string }.
Record OAuthTokens : Type := mkOAuthTokens {
  ot_access_token : string; ot_refresh_token : option string; ot_expires_at : option DateTime; ot_scopes : gset string;
}.
Record OAuthTokenWire : Type := mkOAuthTokenWire {
  tw_access_token : string; tw_refresh_token : option string; tw_expires_in : option Z; tw_scope : option string;
}.
(** The derived decoder: a missing or null optional field is none, any other kind of value an error. *)
Definition optional_field {A} (decode : Value → option A) (key : string) (v : Value) : option (option A) :=
  match value_get key v with None | Some VNull => Some None | Some v => Some <$> decode v end.
Definition as_i64 (v : Value) : option Z :=
  match v with
  | VNumber (PosInt n) => if (Z.of_N n <=? i64_max)%Z then Some (Z.of_N n) else None
  | VNumber (NegInt z) => Some z
  | _ => None
  end.
Definition decode_wire (v : Value) : option OAuthTokenWire :=
  access ← get_str "access_token" v; refresh ← optional_field as_str "refresh_token" v; expires ← optional_field as_i64 "expires_in" v;
  scope ← optional_field as_str "scope" v; Some (mkOAuthTokenWire access refresh expires scope).

Section oauth.
Context `{!ConnectorUrls, !Sha256, !Chrono} {W : Type} `{!ConnectorHost W, !Host W}.
Notation OM := (M W OAuthError).

Definition new_v4 : OM Uuid := λ w, let '(u, w) := host_uuid w in (Ok u, w).
Definition simple (u : Uuid) : string := of_bytes (hex_digits 32 u).
Definition scope_ok (scope : string) : bool := negb (is_blank scope) && negb (existsb Artifacts.is_control (Memory.chars scope)).
Definition authorization_pairs (m : OAuthProviderMetadata) (client_id : string) (redirect_uri : Url) (scopes : gset string) (state challenge : string)
    : list (string * string) :=
  [("response_type", "code"); ("client_id", trim client_id); ("redirect_uri", url_text redirect_uri);
   ("scope", join " " (merge_sort str_le (elements scopes))); ("state", state); ("code_challenge", challenge); ("code_challenge_method", "S256")] ++
  match om_provider m with
  | OAuthGoogle => [("access_type", "offline"); ("include_granted_scopes", "true"); ("prompt", "consent")]
  | OAuthGitHub => []
  end.
Definition authorize (m : OAuthProviderMetadata) (client_id : string) (redirect_uri : Url) (scopes : gset string) : OM OAuthAuthorization :=
  _ ← lift (valid_client_id client_id);
  _ ← reject_if (negb (bool_decide (url_scheme redirect_uri = "http")) || negb (loopback_host redirect_uri))
        (OAuthInvalid "desktop OAuth redirect must use loopback HTTP");
  _ ← reject_if (bool_decide (scopes = ∅) || negb (forallb scope_ok (elements scopes)))
        (OAuthInvalid "at least one valid OAuth scope is required");
  s1 ← new_v4; s2 ← new_v4;
  let state := simple s1 +:+ simple s2 in
  v1 ← new_v4; v2 ← new_v4; v3 ← new_v4;
  let verifier := simple v1 +:+ simple v2 +:+ simple v3 in
  let challenge := url_safe_no_pad (sha256 (path_bytes verifier)) in
  mret (mkOAuthAuthorization
    (append_pairs (om_authorization_endpoint m) (authorization_pairs m client_id redirect_uri scopes state challenge)) state verifier).

Definition now : OM DateTime := λ w, let '(t, w) := host_now w in (Ok t, w).
(** A duration or a time out of range panics. *)
Definition expires_at (seconds : option Z) : OM (option DateTime) :=
  match seconds with
  | Some seconds =>
    if (0 <? seconds)%Z then
      t ← now;
      match duration_seconds seconds ≫= checked_add_signed t with Some t => mret (Some t) | None => panic end
    else mret None
  | None => mret None
  end.
Definition parse_token_response (response : HttpResponse) (requested : gset string) : OM OAuthTokens :=
  _ ← reject_if (negb (in_range 200 299 (hp_status response))) (OAuthRejected (hp_status response));
  match (match hp_json response with inr v => decode_wire v | inl _ => None end) with
  | None => throw InvalidTokenResponse
  | Some wire =>
    _ ← reject_if (is_blank (tw_access_token wire)) InvalidTokenResponse;
    expires ← expires_at (tw_expires_in wire);
    let scopes := match tw_scope wire with None => requested | Some scope => list_to_set (split_whitespace scope) end in
    mret (mkOAuthTokens (tw_access_token wire) (tw_refresh_token wire) expires scopes)
  end.
Definition post_form (url : Url) (fields : list (string * string)) : OM HttpResponse :=
  λ w, match http_send (mkHttpRequest "POST" url None None None (Some (form_urlencode fields))) w with
       | (inr r, w) => (Ok r, w) | (inl _, w) => (Err OAuthTransport, w)
       end.
Definition exchange_code (m : OAuthProviderMetadata) (client_id code verifier : string) (redirect_uri : Url) (requested : gset string)
    : OM OAuthTokens :=
  _ ← lift (valid_client_id client_id);
  response ← post_form (om_token_endpoint m)
    [("grant_type", "authorization_code"); ("client_id", trim client_id); ("code", code); ("code_verifier", verifier);
     ("redirect_uri", url_text redirect_uri)];
  parse_token_response response requested.
Definition refresh (m : OAuthProviderMetadata) (client_id refresh_token : string) (scopes : gset string) : OM OAuthTokens :=
  _ ← lift (valid_client_id client_id);
  _ ← reject_if (negb (om_supports_refresh_without_secret m)) RefreshUnsupported;
  response ← post_form (om_token_endpoint m)
    [("grant_type", "refresh_token"); ("client_id", trim client_id); ("refresh_token", refresh_token)];
  parse_token_response response scopes.
Definition revoke (m : OAuthProviderMetadata) (token : string) : OM () :=
  match om_revocation_endpoint m with
  | None => throw RevokeUnsupported
  | Some endpoint =>
    response ← post_form endpoint [("token", token)];
    reject_if (negb (in_range 200 299 (hp_status response))) (OAuthRejected (hp_status response))
  end.
End oauth.
