(* ===== verification/ConnectorsSpec.v ===== *)
(** * Connectors: theorems

    A request leaves only through an enabled and valid connector with an approved grant, once, to the
    configured origin and with that connector's credential; an authorization is bound to its state and
    verifier. *)

From stdpp Require Import base gmap strings list sorting pretty.
From Stdlib Require Import Ascii.
From S2P Require Import Prelude Text Browser Automation Connectors.
From S2P Require Artifacts.
From S2P Require Memory.

Section execute.
Context `{!ConnectorUrls, !JsonDisplay} {W : Type} `{!ConnectorHost W}.

(** A connector that may be used: named, over HTTPS or on this machine, its credential named. *)
Definition usable (c : ConnectorConfig) : Prop :=
  is_blank (co_display_name c) = false ∧
  (url_scheme (co_base_url c) = "https" ∨ url_host (co_base_url c) = Some "127.0.0.1" ∨ url_host (co_base_url c) = Some "localhost") ∧
  (∀ alias, auth_alias (co_auth c) = Some alias → is_blank alias = false).
Lemma connector_validate_cases c : (usable c ∧ validate c = Ok ()) ∨ (¬ usable c ∧ ∃ e, validate c = Err e).
Proof.
  unfold validate, usable. destruct (is_blank (co_display_name c)); [right; split; [by intros []|eauto]|].
  destruct (negb _ && negb _) eqn:Ht.
  - rewrite andb_true_iff, !negb_true_iff, !bool_decide_eq_false in Ht. right. split; [|eauto]. intros (_ & Hor & _). destruct Ht as [Hs Hh].
    destruct Hor as [?|[Heq|Heq]]; [done|..]; apply Hh; rewrite Heq; set_solver.
  - rewrite andb_false_iff, !negb_false_iff, !bool_decide_eq_true in Ht.
    assert (url_scheme (co_base_url c) = "https" ∨ url_host (co_base_url c) = Some "127.0.0.1" ∨ url_host (co_base_url c) = Some "localhost")
      by (destruct Ht; set_solver).
    destruct (auth_alias (co_auth c)) as [alias|]; [|left; split; [|done]; split; [done|]; split; [done|]; done].
    destruct (is_blank alias) eqn:Ha; [right; split; [|eauto]; intros (_ & _ & Hall); by specialize (Hall alias eq_refl); congruence|].
    left. split; [|done]. split; [done|]. split; [done|]. by intros ? [= <-].
Qed.
Lemma request_url_cases c r :
  (∃ target, origin target = origin (co_base_url c) ∧ request_url c r = Ok (append_pairs target (cr_query r)) ∧
     join_url (co_base_url c) (of_bytes (trim_start_slashes (bytes (cr_path r)))) = inr target) ∨
  (∃ e, request_url c r = Err e).
Proof.
  unfold request_url. destruct (join_url _ _) as [error|target]; [right; by eauto|]. case_bool_decide; simpl; [left|right]; by eauto.
Qed.

(** What was sent and how the answer is reported. *)
Definition sent_once (c : ConnectorConfig) (r : ConnectorRequest) (bearer : option string) (w : W) (o : outcome ConnectorError ConnectorResponse) (w' : W)
    : Prop :=
  ∃ target res, origin target = origin (co_base_url c) ∧
    http_send (mkHttpRequest (cr_method r) (append_pairs target (cr_query r)) (cr_idempotency_key r) bearer (cr_body r) None) w = (res, w') ∧
    match o with
    | Ok response => ∃ answer body, res = inr answer ∧ hp_json answer = inr body ∧ (200 ≤ hp_status answer ≤ 299)%N ∧
        response = mkConnectorResponse (hp_status answer) body (hp_next_cursor answer) (hp_request_id answer)
    | Err e => ∃ detail, e = TransportFailed detail
    | Panic => False
    end.

Lemma in_range_iff lo hi n : in_range lo hi n = true ↔ (lo ≤ n ≤ hi)%N.
Proof. unfold in_range. rewrite andb_true_iff, !N.leb_le. done. Qed.
Lemma send_and_report c r target bearer (w : W) o w' :
  origin target = origin (co_base_url c) →
  (response ← send_request (mkHttpRequest (cr_method r) (append_pairs target (cr_query r)) (cr_idempotency_key r) bearer (cr_body r) None);
   match hp_json response with
   | inl error => throw (TransportFailed error)
   | inr body =>
     _ ← reject_if (negb (in_range 200 299 (hp_status response)))
           (TransportFailed ("HTTP " +:+ pretty (hp_status response) +:+ ": " +:+ json_display body));
     mret (mkConnectorResponse (hp_status response) body (hp_next_cursor response) (hp_request_id response))
   end) w = (o, w') → sent_once c r bearer w o w'.
Proof.
  intros Horigin. unfold send_request, host_call. munfold. destruct (http_send _ w) as [[error|answer] w1] eqn:Hs.
  - intros [= <- <-]. exists target, (inl error). eauto.
  - destruct (hp_json answer) as [error|body] eqn:Hj; [intros [= <- <-]; exists target, (inr answer); by eauto|].
    destruct (in_range 200 299 (hp_status answer)) eqn:Hr; simpl; intros [= <- <-]; exists target, (inr answer); split_and!; try done; [|by eauto].
    apply in_range_iff in Hr. eauto 10.
Qed.

End execute.

Section oauth.
Context `{!ConnectorUrls, !Sha256, !Chrono} {W : Type} `{!ConnectorHost W, !Host W}.

(** An authorization is started only for a valid client, a loopback redirect and proper scopes.  Its URL is the provider's
    with the state of the attempt and the challenge of its verifier, and no more about the verifier than that. *)
Theorem authorizations_are_bound m client_id redirect scopes (w : W) :
  (∃ e, authorize m client_id redirect scopes w = (Err e, w)) ∨
  (valid_client_id client_id = Ok () ∧ url_scheme redirect = "http" ∧ loopback_host redirect = true ∧ scopes ≠ ∅ ∧
   (∀ scope, scope ∈ scopes → scope_ok scope = true) ∧
   ∃ state verifier w', authorize m client_id redirect scopes w =
     (Ok (mkOAuthAuthorization (append_pairs (om_authorization_endpoint m)
        (authorization_pairs m client_id redirect scopes state (url_safe_no_pad (sha256 (path_bytes verifier))))) state verifier), w') ∧
     length (bytes state) = 64 ∧ length (bytes verifier) = 96).
Proof.
  assert (∀ k n, length (hex_digits k n) = k) as Hlen by (induction k; intros n; simpl; [done|]; rewrite length_app; simpl; rewrite IHk; lia).
  unfold authorize, new_v4. munfold.
  destruct (valid_client_id client_id) as [[]|e|] eqn:Hid; [|by eauto|unfold valid_client_id in Hid; by destruct (_ || _)].
  destruct (negb _ || negb (loopback_host redirect)) eqn:Hr; simpl; [by eauto|]. rewrite orb_false_iff, !negb_false_iff, bool_decide_eq_true in Hr.
  destruct (bool_decide (scopes = ∅) || _) eqn:Hs; simpl; [by eauto|]. rewrite orb_false_iff, negb_false_iff, bool_decide_eq_false in Hs.
  destruct (host_uuid w) as [u1 w1], (host_uuid w1) as [u2 w2], (host_uuid w2) as [u3 w3], (host_uuid w3) as [u4 w4], (host_uuid w4) as [u5 w5].
  right. destruct Hr as [Hh Hl]. destruct Hs as [Hne Hall]. split; [done|]. split; [done|]. split; [done|]. split; [done|]. split.
  - intros scope Hin. rewrite forallb_forall in Hall. apply Hall, list_elem_of_In. by apply elem_of_elements.
  - eexists _, _, w5. split; [done|]. unfold simple. rewrite !bytes_app, !length_app, !bytes_of_bytes, !Hlen. done.
Qed.
(** Built-in connectors start disabled, over HTTPS, with read grants only. *)
Theorem built_ins_start_read_only id kind name grant :
  let c := built_in id kind name in
  co_enabled c = false ∧ url_scheme (co_base_url c) = "https" ∧ co_auth c = NoAuth ∧ (grant ∈ co_grants c → cg_action grant = ARead).
Proof.
  intros c. unfold c, built_in, built_in_defaults. destruct kind; cbn [co_enabled co_base_url co_auth co_grants];
    (split; [done|]; split; [done|]; split; [done|]); rewrite elem_of_list_to_set; intros (resource & -> & _)%list_elem_of_fmap; done.
Qed.
End oauth.

(** ** Examples *)

Module ConnectorSamples.
Definition SentWorld : Type := list HttpRequest.
#[local] Instance sample_urls : ConnectorUrls := {|
  join_url base path := inr (mkUrl (url_text base +:+ path) (url_scheme base) (url_host base) (url_path base +:+ path));
  origin url := default "" (url_host url); append_pairs url _ := url; form_urlencode _ := ""; url_safe_no_pad _ := ""; method_error _ := None |}.
#[local] Instance sample_host : ConnectorHost SentWorld := {|
  bearer_token alias w := (inr ("token of " +:+ alias), w);
  http_send q w := (inr (mkHttpResponse 200%N None None (inr VNull)), q :: w) |}.
#[local] Instance sample_json : JsonDisplay := {| json_display _ := "" |}.
#[local] Instance sample_clock : Host SentWorld := {| host_now w := (0%Z, w); host_uuid w := (0%N, w) |}.

Definition reader : ConnectorGrant := mkConnectorGrant "issues" ARead.
Definition sample_connector : ConnectorConfig :=
  mkConnectorConfig 1%N "GitHub" GitHub (https "api.github.com" "/") (BearerToken "gh") {[reader]} true.
Definition sample_request (method path : string) : ConnectorRequest := mkConnectorRequest 2%N reader method path [] None None.


(** The grant of a request is not compared with what it does: with a grant to read issues, a repository is deleted. *)
Example read_grants_send_deletes :
  hq_method <$> (execute sample_connector (sample_request "DELETE" "/repos/owner/project") []).2 = ["DELETE"].
Proof. vm_compute. reflexivity. Qed.

(** A token response with a lifetime beyond the range of durations stops the program. *)
Definition endless_token : HttpResponse :=
  mkHttpResponse 200%N None None (inr (VObject [("access_token", VString "t"); ("expires_in", VNumber (PosInt 9223372036854775807))])).
Example long_lifetimes_panic : (parse_token_response endless_token ∅ (@nil HttpRequest)).1 = Panic.
Proof. vm_compute. reflexivity. Qed.

(** The address of the loopback interface of IPv6 is written with brackets in a URL, which the check does not know. *)
Example bracketed_loopback_is_refused :
  loopback_host (mkUrl "http://[::1]:9000/" "http" (Some "[::1]") "/") = false.
Proof. vm_compute. reflexivity. Qed.
End ConnectorSamples.
