(* ===== verification/Release.v ===== *)
(** * Signed releases, updates and uninstalling

    Models [crates/core/src/release.rs]: the release manifest with its [verify] and
    [verify_artifact], the update transaction with one definition per transition, the uninstall plan
    and the hexadecimal codec.  Ed25519, SHA-256 and the JSON of a manifest are interfaces.  The
    theorems say what an update went through before it was installed. *)

From stdpp Require Import base gmap strings list.
From Stdlib Require Import Ascii.
From S2P Require Import Prelude Text Browser.

(** ** Data *)

Inductive ReleaseChannel : Type := Stable | Beta.
Record ReleaseArtifact : Type := mkReleaseArtifact {
  ra_target : string; ra_installer_kind : string; ra_url : Url; ra_sha256 : string; ra_byte_length : N;
}.
Record SignedReleaseManifest : Type := mkSignedReleaseManifest {
  sm_schema_version : N;
  sm_product : string;
  sm_version : string;
  sm_channel : ReleaseChannel;
  sm_artifacts : list ReleaseArtifact;
  sm_signature_hex : string;
}.
Inductive UpdateState : Type :=
  Available | Downloaded | Verified | BackupCreated | InstalledPendingHealth | Healthy | RolledBack.
Global Instance UpdateState_eq_dec : EqDecision UpdateState.
Proof. solve_decision. Defined.
Inductive ReleaseError : Type :=
  | InvalidManifest (detail : string)
  | InvalidSignature
  | MissingTarget (target : string)
  | ArtifactMismatch
  | InvalidTransition (state : UpdateState)
  | DeletionConfirmationRequired
  | ExportRequired.
Record UpdateTransaction : Type := mkUpdateTransaction {
  ut_from_version : string;
  ut_to_version : string;
  ut_target : string;
  ut_state : UpdateState;
  ut_backup_id : option string;
}.
Global Instance UpdateTransaction_eta : Eta UpdateTransaction :=
  λ r, mkUpdateTransaction (ut_from_version r) (ut_to_version r) (ut_target r) (ut_state r) (ut_backup_id r).

Inductive ExportDisposition : Type := NotRequested | Pending | Completed.
Inductive PersonalDataDisposition : Type := Keep | DeletePendingConfirmation | DeleteConfirmed.
Global Instance ExportDisposition_eq_dec : EqDecision ExportDisposition.
Proof. solve_decision. Defined.
Global Instance PersonalDataDisposition_eq_dec : EqDecision PersonalDataDisposition.
Proof. solve_decision. Defined.
Record UninstallPlan : Type := mkUninstallPlan {
  un_data_paths : list string; un_export : ExportDisposition; un_personal_data : PersonalDataDisposition;
}.

(** ** Interfaces *)

(** [VerifyingKey::from_bytes] accepts the key; [verify_strict] of key, message and signature. *)
Class Ed25519 : Type := {
  key_valid : list N → bool;
  verify_strict : list N → list N → list N → bool;
}.
(** [serde_json::to_vec] of a manifest: its error or the bytes. *)
Class ManifestJson : Type := { manifest_json : SignedReleaseManifest → string + list N }.

(** ** Hexadecimal *)

Definition nibble (value : ascii) : option N :=
  let n := byte_val value in
  if in_range 48 57 n then Some (n - 48)%N
  else if in_range 97 102 n then Some (n - 97 + 10)%N
  else if in_range 65 70 n then Some (n - 65 + 10)%N
  else None.
(** The byte at [index], from the two characters at twice that offset. *)
Definition decode_byte (value : list ascii) (index : nat) : option N :=
  high ← value !! (2 * index) ≫= nibble; low ← value !! (2 * index + 1) ≫= nibble;
  Some (N.lor (N.shiftl high 4) low).
Definition decode_hex (n : nat) (value : string) : option (list N) :=
  if bool_decide (str_len value ≠ n * 2) then None else mapM (decode_byte (bytes value)) (seq 0 n).
Definition hex (l : list N) : string :=
  of_bytes (l ≫= λ byte, [hex_digit (N.shiftr byte 4); hex_digit (N.land byte 15)]).

(** ** Hexadecimal: theorems *)

Section hexadecimal.
(** Two characters at a time. *)
Fixpoint decode_pairs (l : list ascii) : option (list N) :=
  match l with
  | a :: b :: l => high ← nibble a; low ← nibble b; rest ← decode_pairs l; Some (N.lor (N.shiftl high 4) low :: rest)
  | _ => Some []
  end.
Lemma decode_byte_shift a b l index : decode_byte (a :: b :: l) (S index) = decode_byte l index.
Proof.
  unfold decode_byte. replace (2 * S index) with (S (S (2 * index))) by lia. replace (S (S (2 * index)) + 1) with (S (S (2 * index + 1))) by lia. done.
Qed.
Lemma mapM_shift (f g : nat → option N) n k : (∀ i, f (S i) = g i) → mapM f (seq (S k) n) = mapM g (seq k n).
Proof. intros Hfg. revert k; induction n as [|n IH]; intros k; simpl; [done|]. by rewrite Hfg, IH. Qed.
Lemma decode_byte_first a b l : decode_byte (a :: b :: l) 0 = high ← nibble a; low ← nibble b; Some (N.lor (N.shiftl high 4) low).
Proof. done. Qed.
Lemma decode_pairs_spec n l : length l = n * 2 → mapM (decode_byte l) (seq 0 n) = decode_pairs l.
Proof.
  revert l; induction n as [|n IH]; intros [|a [|b l]]; simpl; try done. intros [= Hl].
  rewrite (mapM_shift _ (decode_byte l) n 0) by (intros; apply decode_byte_shift). rewrite IH, decode_byte_first by done.
  destruct (nibble a); simpl; [|done]. by destruct (nibble b).
Qed.

Lemma Forall_below (k : nat) (P : N → Prop) : Forall P (N.of_nat <$> seq 0 k) → ∀ n, (n < N.of_nat k)%N → P n.
Proof.
  intros Hall n Hn. rewrite Forall_forall in Hall. apply Hall, list_elem_of_fmap. exists (N.to_nat n). rewrite elem_of_seq. lia.
Qed.
Lemma below_bool (k : nat) (f : N → bool) : forallb f (N.of_nat <$> seq 0 k) = true → ∀ n, (n < N.of_nat k)%N → f n = true.
Proof. intros Hf. apply Forall_below. apply Is_true_true, forallb_True in Hf. eapply Forall_impl; [exact Hf|]. by intros ? ?%Is_true_true. Qed.
Lemma nibble_hex_digit n : (n < 16)%N → nibble (hex_digit n) = Some n.
Proof. intros Hn. pattern n. apply (Forall_below 16); [by repeat constructor|done]. Qed.
Lemma byte_halves n : (n < 256)%N →
  (N.shiftr n 4 < 16)%N ∧ (N.land n 15 < 16)%N ∧ N.lor (N.shiftl (N.shiftr n 4) 4) (N.land n 15) = n.
Proof. intros Hn. pattern n. apply (Forall_below 256); [by vm_compute; repeat constructor|done]. Qed.
Lemma halves_byte high low : (high < 16)%N → (low < 16)%N →
  (N.lor (N.shiftl high 4) low < 256)%N ∧ N.shiftr (N.lor (N.shiftl high 4) low) 4 = high ∧ N.land (N.lor (N.shiftl high 4) low) 15 = low.
Proof.
  intros Hh Hl. pattern low. apply (Forall_below 16); [|done]. pattern high. apply (Forall_below 16); [|done].
  by vm_compute; repeat constructor.
Qed.
Lemma nibble_inv c n : nibble c = Some n → (n < 16)%N ∧ hex_digit n = to_ascii_lowercase_byte c.
Proof.
  pose (good c := match nibble c with Some n => (n <? 16)%N && bool_decide (hex_digit n = to_ascii_lowercase_byte c) | None => true end).
  assert (good c = true) as Hgood.
  { rewrite <- (ascii_N_embedding c). apply (below_bool 256 (λ n, good (ascii_of_N n))); [by vm_compute|apply N_ascii_bounded]. }
  unfold good in Hgood. intros Hn. rewrite Hn in Hgood. apply andb_true_iff in Hgood as [?%N.ltb_lt ?%bool_decide_eq_true]. done.
Qed.

(** Bytes written in hexadecimal read back; a text that reads, in either case, is written back in lower case. *)
Theorem hexadecimal_reads_back l : Forall (λ byte, (byte < 256)%N) l → decode_hex (length l) (hex l) = Some l.
Proof.
  intros Hl. unfold decode_hex, str_len, hex. rewrite bytes_of_bytes.
  assert (length (l ≫= λ byte, [hex_digit (N.shiftr byte 4); hex_digit (N.land byte 15)]) = length l * 2) as Hlen
    by (clear; induction l; simpl; [done|by f_equal; f_equal]).
  rewrite bool_decide_eq_false_2 by (rewrite Hlen; auto). rewrite decode_pairs_spec by done. clear Hlen.
  induction Hl as [|byte l Hb _ IH]; [done|]. destruct (byte_halves byte Hb) as (?&?&Heq).
  cbn [mbind list_bind app decode_pairs]. rewrite !nibble_hex_digit by done. simpl in IH |- *. rewrite IH. simpl. by rewrite Heq.
Qed.
Lemma decode_pairs_inv n l out : length l = n * 2 → decode_pairs l = Some out →
  length out = n ∧ Forall (λ byte, (byte < 256)%N) out ∧
  (out ≫= λ byte, [hex_digit (N.shiftr byte 4); hex_digit (N.land byte 15)]) = to_ascii_lowercase_byte <$> l.
Proof.
  revert l out; induction n as [|n IH]; intros [|a [|b l]] out; try done; [by intros _ [= <-]|]. intros [= Hl]. simpl.
  destruct (nibble a) as [high|] eqn:Ha; [|done]. destruct (nibble b) as [low|] eqn:Hb; [|done]. simpl.
  destruct (decode_pairs l) as [rest|] eqn:Hr; [|done]. intros [= <-].
  destruct (IH _ _ Hl Hr) as (<- & Hall & Heq). apply nibble_inv in Ha as [Hhigh <-], Hb as [Hlow <-].
  destruct (halves_byte high low Hhigh Hlow) as (Hbyte & Hhi & Hlo). split_and!; [done|by constructor|]. simpl. rewrite Hhi, Hlo. simpl. f_equal. f_equal. exact Heq.
Qed.
Lemma decode_hex_inv n v out : decode_hex n v = Some out →
  length out = n ∧ Forall (λ byte, (byte < 256)%N) out ∧ hex out = to_ascii_lowercase v.
Proof.
  unfold decode_hex, str_len. case_bool_decide as Hl; [done|]. rewrite decode_pairs_spec by done. intros Hd.
  destruct (decode_pairs_inv _ _ _ Hl Hd) as (?&?&Heq). split_and!; [done..|]. unfold hex, to_ascii_lowercase. by rewrite Heq.
Qed.
End hexadecimal.

(** ** Manifests *)

Section release.
Context `{!Ed25519, !ManifestJson, !Sha256}.

Definition signing_bytes (m : SignedReleaseManifest) : outcome ReleaseError (list N) :=
  match manifest_json (mkSignedReleaseManifest (sm_schema_version m) (sm_product m) (sm_version m) (sm_channel m) (sm_artifacts m) "") with
  | inl error => Err (InvalidManifest error)
  | inr encoded => Ok encoded
  end.
Definition check_artifact (a : ReleaseArtifact) : outcome ReleaseError () :=
  ensure_not
    (is_blank (ra_target a) || is_blank (ra_installer_kind a) || bool_decide (url_scheme (ra_url a) ≠ "https")
     || (ra_byte_length a =? 0)%N || bool_decide (decode_hex 32 (ra_sha256 a) = None))
    (InvalidManifest ("invalid artifact for " +:+ ra_target a)).
Definition verify (m : SignedReleaseManifest) (public_key : list N) : outcome ReleaseError () :=
  if negb (sm_schema_version m =? 1)%N || bool_decide (sm_product m ≠ "Personal Agent") || is_blank (sm_version m)
     || bool_decide (sm_artifacts m = [])
  then Err (InvalidManifest "identity fields are missing")
  else match try_for_each check_artifact (sm_artifacts m) with
  | Ok () =>
    if negb (key_valid public_key) then Err InvalidSignature
    else match decode_hex 64 (sm_signature_hex m) with
    | None => Err InvalidSignature
    | Some signature =>
      match signing_bytes m with
      | Ok message => if verify_strict public_key message signature then Ok () else Err InvalidSignature
      | Err e => Err e
      | Panic => Panic
      end
    end
  | Err e => Err e
  | Panic => Panic
  end.

(** [u64::try_from(bytes.len()).unwrap_or(u64::MAX)]. *)
Definition length_u64 (content : list N) : N := N.min u64_max (N.of_nat (length content)).
Definition verify_artifact (m : SignedReleaseManifest) (target : string) (content : list N) : outcome ReleaseError ReleaseArtifact :=
  match list_find (λ a, ra_target a = target) (sm_artifacts m) with
  | None => Err (MissingTarget target)
  | Some (_, a) =>
    if negb (length_u64 content =? ra_byte_length a)%N || bool_decide (hex (sha256 content) ≠ ra_sha256 a)
    then Err ArtifactMismatch else Ok a
  end.

(** ** Updates *)

Notation UM := (M UpdateTransaction ReleaseError).
Definition new_update (from_version to_version target : string) : UpdateTransaction :=
  mkUpdateTransaction from_version to_version target Available None.
Definition in_state (state : UpdateState) : UM () :=
  t ← get; reject_if (bool_decide (ut_state t ≠ state)) (InvalidTransition (ut_state t)).
Definition downloaded (m : SignedReleaseManifest) (content : list N) : UM () :=
  _ ← in_state Available; t ← get; _ ← lift (verify_artifact m (ut_target t) content);
  modify (λ t, t <| ut_state := Downloaded |>).
Definition verified (m : SignedReleaseManifest) (public_key : list N) : UM () :=
  _ ← in_state Downloaded; _ ← lift (verify m public_key); modify (λ t, t <| ut_state := Verified |>).
Definition backup_created (backup_id : string) : UM () :=
  t ← get; _ ← reject_if (bool_decide (ut_state t ≠ Verified) || is_blank backup_id) (InvalidTransition (ut_state t));
  modify (λ t, t <| ut_backup_id := Some backup_id |> <| ut_state := BackupCreated |>).
Definition installed : UM () :=
  t ← get; _ ← reject_if (bool_decide (ut_state t ≠ BackupCreated) || bool_decide (ut_backup_id t = None)) (InvalidTransition (ut_state t));
  modify (λ t, t <| ut_state := InstalledPendingHealth |>).
Definition health_result (healthy : bool) : UM () :=
  _ ← in_state InstalledPendingHealth; modify (λ t, t <| ut_state := if healthy then Healthy else RolledBack |>).

(** ** Uninstalling *)

Definition validate (p : UninstallPlan) : outcome ReleaseError () :=
  if bool_decide (un_personal_data p = DeletePendingConfirmation) then Err DeletionConfirmationRequired
  else if bool_decide (un_personal_data p = DeleteConfirmed) && bool_decide (un_export p = Pending) then Err ExportRequired
  else Ok ().

(** ** Manifests: theorems *)

(** What a manifest must say, whoever signed it. *)
Definition artifact_sound (a : ReleaseArtifact) : Prop :=
  is_blank (ra_target a) = false ∧ is_blank (ra_installer_kind a) = false ∧ url_scheme (ra_url a) = "https" ∧
  ra_byte_length a ≠ 0%N ∧ is_Some (decode_hex 32 (ra_sha256 a)).
Definition manifest_sound (m : SignedReleaseManifest) : Prop :=
  sm_schema_version m = 1%N ∧ sm_product m = "Personal Agent" ∧ is_blank (sm_version m) = false ∧ sm_artifacts m ≠ [] ∧
  Forall artifact_sound (sm_artifacts m).
(** The manifest without its signature is signed by the key. *)
Definition signed_by (public_key : list N) (m : SignedReleaseManifest) : Prop :=
  key_valid public_key = true ∧ ∃ signature message, decode_hex 64 (sm_signature_hex m) = Some signature ∧
    signing_bytes m = Ok message ∧ verify_strict public_key message signature = true.

Lemma check_artifact_ok a : check_artifact a = Ok () ↔ artifact_sound a.
Proof.
  unfold check_artifact, ensure_not, artifact_sound. rewrite <- not_eq_None_Some.
  destruct (is_blank (ra_target a)), (is_blank (ra_installer_kind a)); simpl; try (split; [done|naive_solver]).
  destruct (N.eqb_spec (ra_byte_length a) 0); repeat case_bool_decide; simpl; naive_solver.
Qed.
Lemma try_for_each_ok_iff {E A} (f : A → outcome E ()) l : try_for_each f l = Ok () ↔ Forall (λ a, f a = Ok ()) l.
Proof.
  induction l as [|a l IH]; simpl; [done|]. rewrite Forall_cons, <- IH.
  destruct (f a) as [[]| |] eqn:Hf; simpl; naive_solver.
Qed.
Lemma verify_ok m public_key : verify m public_key = Ok () ↔ manifest_sound m ∧ signed_by public_key m.
Proof.
  unfold verify, manifest_sound, signed_by.
  destruct (N.eqb_spec (sm_schema_version m) 1); simpl; [|naive_solver].
  case_bool_decide; simpl; [naive_solver|]. destruct (is_blank (sm_version m)); simpl; [naive_solver|].
  case_bool_decide; simpl; [naive_solver|].
  rewrite <- (Forall_iff _ _ _ check_artifact_ok), <- try_for_each_ok_iff.
  destruct (try_for_each check_artifact (sm_artifacts m)) as [[]| |]; [|naive_solver..].
  destruct (key_valid public_key); simpl; [|naive_solver].
  destruct (decode_hex 64 (sm_signature_hex m)) as [signature|]; [|naive_solver].
  destruct (signing_bytes m) as [message| |]; [|naive_solver..].
  destruct (verify_strict public_key message signature) eqn:Hv; (split; [|intros (_ & _ & ? & ? & [= <-] & [= <-] & ?); congruence]); [|done].
  intros _. split; [done|]. by eauto 8.
Qed.
Lemma verify_artifact_ok m target content a :
  verify_artifact m target content = Ok a ↔
  (∃ i, list_find (λ a, ra_target a = target) (sm_artifacts m) = Some (i, a)) ∧
  ra_byte_length a = length_u64 content ∧ ra_sha256 a = hex (sha256 content).
Proof.
  unfold verify_artifact. destruct (list_find _ _) as [[i b]|]; [|naive_solver].
  destruct (N.eqb_spec (length_u64 content) (ra_byte_length b)); simpl; [|naive_solver].
  case_bool_decide; naive_solver.
Qed.

(** ** Updates: theorems *)

Inductive UpdateOp : Type :=
  | Download (m : SignedReleaseManifest) (content : list N)
  | Verify (m : SignedReleaseManifest) (public_key : list N)
  | Backup (backup_id : string)
  | Install
  | Health (healthy : bool).
Definition apply_op (op : UpdateOp) : UM () :=
  match op with
  | Download m content => downloaded m content
  | Verify m public_key => verified m public_key
  | Backup backup_id => backup_created backup_id
  | Install => installed
  | Health healthy => health_result healthy
  end.
(** Calls in the order they are made; the log keeps the ones that succeeded. *)
Fixpoint run_update (ops : list UpdateOp) (t : UpdateTransaction) (log : list UpdateOp) : UpdateTransaction * list UpdateOp :=
  match ops with
  | [] => (t, log)
  | op :: ops =>
    match apply_op op t with
    | (Ok (), t') => run_update ops t' (log ++ [op])
    | (_, t') => run_update ops t' log
    end
  end.

(** The successful calls that lead to a state, with the backup they recorded. *)
Inductive path (target : string) : UpdateState → option string → list UpdateOp → Prop :=
  | path_new : path target Available None []
  | path_download m content a log :
      verify_artifact m target content = Ok a → path target Available None log → path target Downloaded None (log ++ [Download m content])
  | path_verify m public_key log :
      manifest_sound m → signed_by public_key m → path target Downloaded None log → path target Verified None (log ++ [Verify m public_key])
  | path_backup backup log :
      is_blank backup = false → path target Verified None log → path target BackupCreated (Some backup) (log ++ [Backup backup])
  | path_install backup log :
      path target BackupCreated (Some backup) log → path target InstalledPendingHealth (Some backup) (log ++ [Install])
  | path_health healthy backup log :
      path target InstalledPendingHealth (Some backup) log →
      path target (if healthy : bool then Healthy else RolledBack) (Some backup) (log ++ [Health healthy]).
Lemma path_backup_id target state backup log :
  path target state backup log →
  match state with Available | Downloaded | Verified => backup = None | _ => ∃ id, backup = Some id ∧ is_blank id = false end.
Proof. induction 1; eauto. by destruct healthy. Qed.

(** A refused call leaves the transaction as it was; an accepted one extends the path. *)
Lemma apply_op_path op t log o t' :
  path (ut_target t) (ut_state t) (ut_backup_id t) log → apply_op op t = (o, t') →
  (o = Ok () ∧ ut_target t' = ut_target t ∧ path (ut_target t') (ut_state t') (ut_backup_id t') (log ++ [op])) ∨ (o ≠ Ok () ∧ t' = t).
Proof.
  intros Hp. pose proof (path_backup_id _ _ _ _ Hp) as Hb. destruct t as [from to target state backup].
  destruct op as [m content|m key|id| |healthy]; unfold apply_op, downloaded, verified, backup_created, installed, health_result, in_state; munfold;
    simpl in *; case_bool_decide as Hs; simpl; (try by intros [= <- <-]; right); subst state; simpl in Hb.
  - destruct (verify_artifact m target content) as [a| |] eqn:Ha; intros [= <- <-]; [left|by right..]. subst. split_and!; [done..|]. by econstructor.
  - destruct (verify m key) as [[]| |] eqn:Hv; intros [= <- <-]; [left|by right..]. apply verify_ok in Hv as [??]. subst. split_and!; [done..|]. by constructor.
  - destruct (is_blank id) eqn:Hid; intros [= <- <-]; [by right|left]. subst. split_and!; [done..|]. by constructor.
  - destruct Hb as (id & -> & _). simpl. intros [= <- <-]. left. split_and!; [done..|]. by constructor.
  - destruct Hb as (id & -> & _). intros [= <- <-]. left. split_and!; [done..|]. by constructor.
Qed.
Lemma run_update_path ops t log t' log' :
  path (ut_target t) (ut_state t) (ut_backup_id t) log → run_update ops t log = (t', log') →
  ut_target t' = ut_target t ∧ path (ut_target t') (ut_state t') (ut_backup_id t') log'.
Proof.
  revert t log; induction ops as [|op ops IH]; intros t log Hp; simpl; [by intros [= <- <-]|].
  destruct (apply_op op t) as [o t1] eqn:Hop. destruct (apply_op_path _ _ _ _ _ Hp Hop) as [(-> & Ht & Hp1)|(Ho & ->)].
  - rewrite <- Ht. by apply IH.
  - destruct o as [[]| |]; [done|by apply IH..].
Qed.

Ltac unwind := repeat match goal with
  | H : path _ Available _ _ |- _ => inversion H; clear H; subst
  | H : path _ Downloaded _ _ |- _ => inversion H; clear H; subst
  | H : path _ Verified _ _ |- _ => inversion H; clear H; subst
  | H : path _ BackupCreated _ _ |- _ => inversion H; clear H; subst
  | H : (if ?b : bool then Healthy else RolledBack) = _ |- _ => destruct b; done
  end.
(** What an installed update went through. *)
Definition was_checked (target : string) (t : UpdateTransaction) (log : list UpdateOp) : Prop :=
  ∃ m content a m' public_key backup rest,
    log = [Download m content; Verify m' public_key; Backup backup; Install] ++ rest ∧
    verify_artifact m target content = Ok a ∧ manifest_sound m' ∧ signed_by public_key m' ∧
    is_blank backup = false ∧ ut_backup_id t = Some backup ∧
    ((rest = [] ∧ ut_state t = InstalledPendingHealth) ∨
     ∃ healthy : bool, rest = [Health healthy] ∧ ut_state t = if healthy then Healthy else RolledBack).
Lemma path_install_checked target backup log :
  path target InstalledPendingHealth backup log →
  ∃ m content a m' public_key id,
    log = [Download m content; Verify m' public_key; Backup id; Install] ∧ backup = Some id ∧ is_blank id = false ∧
    verify_artifact m target content = Ok a ∧ manifest_sound m' ∧ signed_by public_key m'.
Proof.
  intros Hp. inversion Hp; subst; unwind. simpl. eauto 12.
Qed.


(** ** Uninstalling: theorem *)

(** A plan passes exactly when it keeps the data, or deletes it after a confirmation with no export outstanding. *)
Theorem uninstall_deletes_confirmed_data p :
  validate p = Ok () ↔ un_personal_data p = Keep ∨ (un_personal_data p = DeleteConfirmed ∧ un_export p ≠ Pending).
Proof. unfold validate. destruct p as [paths [] []]; simpl; naive_solver. Qed.
End release.

(** ** Samples *)

Module ReleaseSamples.
(** A digest of two bytes, the length and the sum, padded to the size; a signature is the sum of the message. *)
Local Instance toy_digest : Sha256 :=
  {| sha256 content := N.of_nat (length content) :: (foldr N.add 0 content mod 256)%N :: replicate 30 0%N |}.
Local Instance toy_json : ManifestJson :=
  {| manifest_json m := inr ((byte_val <$> bytes (sm_version m)) ++ (sm_artifacts m ≫= λ a, byte_val <$> bytes (ra_sha256 a))) |}.
Definition toy_sign (message : list N) : list N := (foldr N.add 0 message mod 256)%N :: replicate 63 7%N.
Local Instance toy_keys : Ed25519 :=
  {| key_valid key := bool_decide (length key = 32); verify_strict _ message signature := bool_decide (signature = toy_sign message) |}.

Definition key : list N := replicate 32 1%N.
Definition artifact (sha : string) : ReleaseArtifact :=
  mkReleaseArtifact "linux-x64" "appimage" (mkUrl "https://example.com/a" "https" (Some "example.com") "/a") sha 2.
Definition unsigned (version sha : string) : SignedReleaseManifest := mkSignedReleaseManifest 1 "Personal Agent" version Stable [artifact sha] "".
Definition sign (m : SignedReleaseManifest) : SignedReleaseManifest :=
  match signing_bytes m with
  | Ok message => mkSignedReleaseManifest (sm_schema_version m) (sm_product m) (sm_version m) (sm_channel m) (sm_artifacts m) (hex (toy_sign message))
  | _ => m
  end.
Definition content : list N := [200; 30]%N.
Definition release : SignedReleaseManifest := sign (unsigned "2.0.0" (hex (sha256 content))).
Definition ops (m : SignedReleaseManifest) (bytes : list N) : list UpdateOp :=
  [Install; Download m bytes; Backup "b"; Verify release key; Backup " "; Backup "backup-1"; Install; Health true].


(** The download and the verification may name different manifests: bytes of an unsigned manifest of another version are
    installed as the signed release. *)
Definition forged : SignedReleaseManifest := unsigned "6.6.6" (hex (sha256 [6; 66]%N)).
Example unsigned_bytes_can_be_installed :
  verify forged key = Err InvalidSignature ∧
  ut_state (run_update (ops forged [6; 66]%N) (new_update "1.0.0" "2.0.0" "linux-x64") []).1 = Healthy.
Proof. by vm_compute. Qed.
(** Nor is the version of the manifest compared with the one the update names. *)
Example update_version_is_not_compared :
  ut_state (run_update (ops release content) (new_update "1.0.0" "9.9.9" "linux-x64") []).1 = Healthy.
Proof. by vm_compute. Qed.

(** A digest written in capitals passes [verify] and never matches a download. *)
Definition shouting : SignedReleaseManifest := sign (unsigned "2.0.0" (to_ascii_uppercase (hex (sha256 content)))).
Example capital_digests_never_match :
  verify shouting key = Ok () ∧ verify_artifact shouting "linux-x64" content = Err ArtifactMismatch ∧
  verify_artifact release "linux-x64" content = Ok (artifact (hex (sha256 content))).
Proof. by vm_compute. Qed.
End ReleaseSamples.
