(* ===== verification/Config.v ===== *)
(** * Application configuration and command line

    Models [crates/core/src/config.rs] (the configuration records with their defaults, [validate],
    [parse_config], [load_or_initialize_config]), the keychain references of
    [crates/platform/src/lib.rs] that it checks, and [crates/core/src/cli.rs].  The TOML library and
    the reports that the command line prints are interfaces; the file system is a state in which any
    call may fail and other programs may add files between two calls. *)

From stdpp Require Import base gmap strings list pretty.
From Stdlib Require Import Ascii.
From S2P Require Import Prelude Text.

(** ** Data *)

Definition KeychainAlias : Type := string.
Inductive RiskLevel : Type := Consequential | Irreversible.
Record RiskAcknowledgement : Type := mkRiskAcknowledgement {
  ra_scope : string; ra_risk : RiskLevel; ra_acknowledged : bool; }.
Record PersonaConfig : Type := mkPersonaConfig {
  pe_name : string; pe_style : string; }.
Record AgentConfig : Type := mkAgentConfig {
  ag_default_parallelism : N; ag_max_delegation_depth : N; ag_require_plan_for_multistep : bool;
  ag_verify_success_criteria : bool; ag_default_token_budget : N; ag_default_cost_budget_microusd : N;
  ag_default_wall_time_minutes : N; ag_default_tool_call_budget : N; }.
Record RuntimeConfig : Type := mkRuntimeConfig {
  rt_opencode_version : string; rt_startup_timeout_ms : N; rt_default_provider : string; rt_default_model : string;
  rt_small_model : string; rt_default_agent : string; rt_default_effort : string; rt_working_directory : string;
  rt_auto_compact : bool; }.
Record PrivacyConfig : Type := mkPrivacyConfig {
  pv_record_transcripts : bool; pv_record_tool_arguments : bool; pv_transcript_retention_days : N; pv_redact_secrets : bool;
  pv_guest_mode_by_default : bool; pv_analytics : bool; }.
Record UiConfig : Type := mkUiConfig {
  uc_theme : string; uc_accent : string; uc_locale : string; uc_text_scale_percent : N; uc_reduced_motion : bool;
  uc_hud_enabled : bool; uc_start_in_hud : bool; uc_overlay : bool; uc_show_reasoning : bool; uc_show_tool_details : bool;
  uc_session_tabs : bool; uc_compact_sidebar : bool; uc_command_palette_hotkey : string; uc_global_hotkey : string; }.
Record VoiceConfig : Type := mkVoiceConfig {
  vo_enabled : bool; vo_mode : string; vo_input_device : string; vo_output_device : string; vo_language : string;
  vo_response_language : string; vo_stt_backend : string; vo_stt_model : string; vo_stt_executable : string;
  vo_stt_model_path : string; vo_tts_backend : string; vo_tts_model : string; vo_tts_voice : string; vo_tts_executable : string;
  vo_tts_model_path : string; vo_tts_reference_audio : string; vo_tts_reference_text : string; vo_speech_rate_percent : N;
  vo_volume_percent : N; vo_input_gain_percent : N; vo_ducking_percent : N; vo_wake_phrases : list string;
  vo_stop_phrases : list string; vo_sleep_phrases : list string; vo_wake_threshold_milli : N; vo_vad_start_milli : N;
  vo_vad_stop_milli : N; vo_endpoint_short_ms : N; vo_endpoint_long_ms : N; vo_pre_roll_ms : N; vo_refractory_ms : N;
  vo_wake_enabled : bool; vo_push_to_talk : bool; vo_push_to_talk_hotkey : string; vo_barge_in : bool;
  vo_echo_cancellation : bool; vo_noise_suppression : bool; vo_automatic_gain_control : bool; vo_offline_only : bool;
  vo_speak_typed_responses : bool; vo_quiet_mode : bool; vo_speaker_verification : bool; vo_meeting_speaker_labels : bool;
  vo_vocabulary : list string; vo_hosted_stt_credential_alias : string; vo_hosted_tts_credential_alias : string; }.
Record WorkspaceConfig : Type := mkWorkspaceConfig {
  ws_default_project : string; ws_restore_sessions : bool; ws_confirm_session_delete : bool; ws_open_files_in_app : bool;
  ws_terminal_shell : string; ws_attachment_limit_mb : N; ws_diff_viewer : bool; }.
Record BrowserConfig : Type := mkBrowserConfig {
  br_enabled : bool; br_isolated_profiles : bool; br_personal_profile_opt_in : bool; br_quarantine_downloads : bool;
  br_allow_third_party_subresources : bool; br_allowed_domains : list string; br_blocked_domains : list string; }.
Record MemoryConfig : Type := mkMemoryConfig {
  me_enabled : bool; me_inferred_memory_requires_review : bool; me_recall_limit : N; me_embedding_model : string; }.
Record AutomationConfig : Type := mkAutomationConfig {
  au_enabled : bool; au_max_concurrency : N; au_pause_after_failures : N; au_quiet_hours_start : string;
  au_quiet_hours_end : string; au_missed_run_policy : string; }.
Record NotificationConfig : Type := mkNotificationConfig {
  no_enabled : bool; no_task_completion : bool; no_approvals : bool; no_failures : bool; no_sound : bool; }.
Record UpdateConfig : Type := mkUpdateConfig {
  up_channel : string; up_check_on_startup : bool; up_automatic_download : bool; up_automatic_install : bool; }.
Record PersonalAgentConfig : Type := mkPersonalAgentConfig {
  cf_schema_version : N; cf_persona : PersonaConfig; cf_agent : AgentConfig; cf_runtime : RuntimeConfig;
  cf_privacy : PrivacyConfig; cf_ui : UiConfig; cf_voice : VoiceConfig; cf_workspace : WorkspaceConfig;
  cf_browser : BrowserConfig; cf_memory : MemoryConfig; cf_automation : AutomationConfig; cf_notifications : NotificationConfig;
  cf_updates : UpdateConfig; cf_opencode : Value; cf_secret_aliases : list KeychainAlias;
  cf_risk_acknowledgements : list RiskAcknowledgement; }.

Inductive ConfigError : Type :=
  | ParseError (detail : string)
  | SerializeError (detail : string)
  | SchemaVersion (version : N)
  | BlankPersona
  | Parallelism
  | DelegationDepth
  | RuntimeVersion (expected : string)
  | StartupTimeout
  | SecretAlias
  | BlankRiskScope
  | RiskNotAcknowledged
  | TextScale
  | VoiceRange
  | VoiceVad
  | VoiceLanguage
  | Retention
  | WorkingDirectory
  | UnsafeOpenCodeConfig.
Record ConfigLoad : Type := mkConfigLoad { cl_config : PersonalAgentConfig; cl_repaired_fields : list string }.

(** ** Defaults *)

Definition OPENCODE_VERSION : string := "1.18.23".

Section defaults.
Context `{!Environment}.

Definition schema_version : N := 1.
Definition persona_style : string := "Composed, concise, and quietly witty.".
Definition parallelism : N := 3.
Definition delegation_depth : N := 3.
Definition opencode_version : string := OPENCODE_VERSION.
Definition startup_timeout_ms : N := 30000.
Definition transcript_recording : bool := true.
Definition enabled : bool := true.
Definition ui_theme : string := "midnight".
Definition cyan : string := "cyan".
Definition locale : string := "en".
Definition percent_100 : N := 100.
Definition wake_threshold : N := 930.
Definition vad_start : N := 600.
Definition vad_stop : N := 350.
Definition endpoint_short_ms : N := 700.
Definition endpoint_long_ms : N := 1400.
Definition wake_refractory_ms : N := 2000.
Definition voice_language : string := "en".
Definition whisper_model : string := "medium-streaming".
Definition default_voice : string := "Ryan".
Definition working_directory : string := default "." (env_var "HOME").
Definition retention_days : N := 90.
Definition empty_object : Value := VObject [].
Definition default_palette_hotkey : string := "Ctrl+K".
Definition default_global_hotkey : string := "Ctrl+Space".
Definition default_voice_mode : string := "push-to-talk".
Definition default_stt_backend : string := "moonshine".
Definition default_tts_backend : string := "qwen3-tts".
Definition default_tts_model : string := "Qwen/Qwen3-TTS-12Hz-0.6B-CustomVoice".
Definition default_ducking : N := 30.
Definition default_pre_roll_ms : N := 500.
Definition default_push_to_talk_hotkey : string := "Space".
Definition wake_phrases : list string := ["hey jarvis"; "jarvis"].
Definition stop_phrases : list string := ["stop"; "cancel"].
Definition sleep_phrases : list string := ["go to sleep"].
Definition default_terminal_shell : string := default "/bin/sh" (env_var "SHELL").
Definition default_attachment_limit : N := 25.
Definition default_recall_limit : N := 12.
Definition default_embedding_model : string := "multilingual-e5-small".
Definition default_automation_concurrency : N := 2.
Definition default_failure_limit : N := 3.
Definition default_missed_run_policy : string := "run-once".
Definition default_update_channel : string := "stable".

(** [impl Default] of each section. *)

Definition persona_config_default : PersonaConfig := mkPersonaConfig
  "JARVIS" persona_style.
Definition agent_config_default : AgentConfig := mkAgentConfig
  parallelism delegation_depth true true 0 0 0 0.
Definition runtime_config_default : RuntimeConfig := mkRuntimeConfig
  opencode_version startup_timeout_ms "" "" "" "build" "" working_directory true.
Definition privacy_config_default : PrivacyConfig := mkPrivacyConfig
  transcript_recording false retention_days true false false.
Definition ui_config_default : UiConfig := mkUiConfig
  ui_theme cyan locale percent_100 false true false false true true true false default_palette_hotkey default_global_hotkey.
Definition voice_config_default : VoiceConfig := mkVoiceConfig
  true default_voice_mode "" "" voice_language voice_language default_stt_backend whisper_model "" "" default_tts_backend
  default_tts_model default_voice "" "" "" "" 100 100 100 default_ducking wake_phrases stop_phrases sleep_phrases wake_threshold
  vad_start vad_stop endpoint_short_ms endpoint_long_ms default_pre_roll_ms wake_refractory_ms false true
  default_push_to_talk_hotkey true true true true true false false false false [] "" "".
Definition workspace_config_default : WorkspaceConfig := mkWorkspaceConfig
  working_directory true true true default_terminal_shell default_attachment_limit true.
Definition browser_config_default : BrowserConfig := mkBrowserConfig
  false true false true false [] [].
Definition memory_config_default : MemoryConfig := mkMemoryConfig
  true true default_recall_limit default_embedding_model.
Definition automation_config_default : AutomationConfig := mkAutomationConfig
  true default_automation_concurrency default_failure_limit "" "" default_missed_run_policy.
Definition notification_config_default : NotificationConfig := mkNotificationConfig
  true true true true false.
Definition update_config_default : UpdateConfig := mkUpdateConfig
  default_update_channel true false false.
Definition personal_agent_config_default : PersonalAgentConfig := mkPersonalAgentConfig
  schema_version persona_config_default agent_config_default runtime_config_default privacy_config_default ui_config_default
  voice_config_default workspace_config_default browser_config_default memory_config_default automation_config_default
  notification_config_default update_config_default empty_object [] [].

(** A section whose table is present and empty: the [serde] attribute of each field. *)

Definition agent_config_of_empty_table : AgentConfig := mkAgentConfig
  parallelism delegation_depth enabled enabled 0 0 0 0.
Definition runtime_config_of_empty_table : RuntimeConfig := mkRuntimeConfig
  opencode_version startup_timeout_ms "" "" "" "" "" working_directory enabled.
Definition privacy_config_of_empty_table : PrivacyConfig := mkPrivacyConfig
  transcript_recording false retention_days enabled false false.
Definition ui_config_of_empty_table : UiConfig := mkUiConfig
  ui_theme cyan locale percent_100 false enabled false false enabled enabled enabled false default_palette_hotkey
  default_global_hotkey.
Definition voice_config_of_empty_table : VoiceConfig := mkVoiceConfig
  enabled default_voice_mode "" "" voice_language voice_language default_stt_backend whisper_model "" "" default_tts_backend
  default_tts_model default_voice "" "" "" "" percent_100 percent_100 percent_100 default_ducking wake_phrases stop_phrases
  sleep_phrases wake_threshold vad_start vad_stop endpoint_short_ms endpoint_long_ms default_pre_roll_ms wake_refractory_ms
  false enabled default_push_to_talk_hotkey enabled enabled enabled enabled enabled false false false false [] "" "".
Definition workspace_config_of_empty_table : WorkspaceConfig := mkWorkspaceConfig
  working_directory enabled enabled enabled default_terminal_shell default_attachment_limit enabled.
Definition browser_config_of_empty_table : BrowserConfig := mkBrowserConfig
  false enabled false enabled false [] [].
Definition memory_config_of_empty_table : MemoryConfig := mkMemoryConfig
  enabled enabled default_recall_limit default_embedding_model.
Definition automation_config_of_empty_table : AutomationConfig := mkAutomationConfig
  enabled default_automation_concurrency default_failure_limit "" "" default_missed_run_policy.
Definition notification_config_of_empty_table : NotificationConfig := mkNotificationConfig
  enabled enabled enabled enabled false.
Definition update_config_of_empty_table : UpdateConfig := mkUpdateConfig
  default_update_channel enabled false false.
Definition uses_faster_whisper (v : VoiceConfig) : bool :=
  bool_decide (vo_stt_backend v = "moonshine") && bool_decide (vo_stt_model v = "large-v3-turbo").
End defaults.

(** ** Keychain references *)

Record SecretReference : Type := mkSecretReference { sr_service : string; sr_account : string }.
Inductive SecretStoreError : Type := InvalidAlias | MissingSecret | SecretsUnavailable (detail : string).
(** [str::split] on a byte. *)
Fixpoint split_at_byte (c : ascii) (cur l : list ascii) : list (list ascii) :=
  match l with
  | [] => [cur]
  | b :: l => if bool_decide (b = c) then cur :: split_at_byte c [] l else split_at_byte c (cur ++ [b]) l
  end.
Definition non_empty (part : list ascii) : option string := if bool_decide (part = []) then None else Some (of_bytes part).
Definition parse_reference (alias : string) : outcome SecretStoreError SecretReference :=
  match str_strip_prefix "keychain://" alias with
  | None => Err InvalidAlias
  | Some path =>
    let parts := split_at_byte "/" [] (bytes path) in
    let service := parts !! 0 ≫= non_empty in
    let account := parts !! 1 ≫= non_empty in
    if bool_decide (is_Some (parts !! 2)) then Err InvalidAlias
    else match service, account with
    | Some service, Some account => Ok (mkSecretReference service account)
    | _, _ => Err InvalidAlias
    end
  end.
Definition reference_alias (r : SecretReference) : string := "keychain://" +:+ sr_service r +:+ "/" +:+ sr_account r.

(** ** Validation *)

Definition needles : list string := ["apikey"; "token"; "password"; "secret"; "credential"].
Definition normalized_key (key : string) : string :=
  of_bytes (filter (λ c, c ∉ ["_"%char; "-"%char]) (bytes (to_ascii_lowercase key))).
Definition names_credential (key : string) : bool := existsb (str_contains (normalized_key key)) needles.
Fixpoint visit (value : Value) : bool :=
  match value with
  | VObject object => forallb (λ kv, negb (names_credential kv.1) && visit kv.2) object
  | VArray values => forallb visit values
  | _ => true
  end.
Definition safe_opencode_config (value : Value) : bool :=
  match as_object value with Some object => visit (VObject object) | None => false end.

Definition check_alias (alias : KeychainAlias) : outcome ConfigError () :=
  match parse_reference alias with Ok _ => Ok () | Err _ => Err SecretAlias | Panic => Panic end.
Definition check_acknowledgement (a : RiskAcknowledgement) : outcome ConfigError () :=
  if is_blank (ra_scope a) then Err BlankRiskScope else if negb (ra_acknowledged a) then Err RiskNotAcknowledged else Ok ().
Definition vad_inverted (v : VoiceConfig) : bool := (vo_vad_start_milli v <=? vo_vad_stop_milli v)%N.
Definition voice_out_of_range (v : VoiceConfig) : bool :=
  (1000 <? vo_wake_threshold_milli v)%N || (1000 <? vo_vad_start_milli v)%N || (1000 <? vo_vad_stop_milli v)%N || vad_inverted v
  || negb (in_range 25 300 (vo_speech_rate_percent v)) || (200 <? vo_volume_percent v)%N || (800 <? vo_input_gain_percent v)%N
  || (100 <? vo_ducking_percent v)%N.
Definition validate (c : PersonalAgentConfig) : outcome ConfigError () :=
  if negb (cf_schema_version c =? schema_version)%N then Err (SchemaVersion (cf_schema_version c))
  else if is_blank (pe_name (cf_persona c)) then Err BlankPersona
  else if negb (in_range 1 8 (ag_default_parallelism (cf_agent c))) then Err Parallelism
  else if (8 <? ag_max_delegation_depth (cf_agent c))%N then Err DelegationDepth
  else if bool_decide (rt_opencode_version (cf_runtime c) ≠ OPENCODE_VERSION) then Err (RuntimeVersion OPENCODE_VERSION)
  else if negb (in_range 1000 120000 (rt_startup_timeout_ms (cf_runtime c))) then Err StartupTimeout
  else if is_blank (rt_working_directory (cf_runtime c)) then Err WorkingDirectory
  else if negb (in_range 75 200 (uc_text_scale_percent (cf_ui c))) then Err TextScale
  else if (3650 <? pv_transcript_retention_days (cf_privacy c))%N then Err Retention
  else if bool_decide (vo_language (cf_voice c) ≠ "en") || bool_decide (vo_response_language (cf_voice c) ≠ "en") then Err VoiceLanguage
  else if voice_out_of_range (cf_voice c) then Err (if vad_inverted (cf_voice c) then VoiceVad else VoiceRange)
  else if negb (safe_opencode_config (cf_opencode c)) then Err UnsafeOpenCodeConfig
  else match try_for_each check_alias (cf_secret_aliases c) with
  | Ok () => try_for_each check_acknowledgement (cf_risk_acknowledgements c)
  | failed => failed
  end.

(** ** Parsing *)

(** The TOML library: a text as a value with its fields, as a configuration, and a configuration as text. *)
Class ConfigToml : Type := {
  TomlValue : Type;
  toml_get : string → TomlValue → option TomlValue;
  toml_value : string → string + TomlValue;
  toml_config : string → string + PersonalAgentConfig;
  toml_render : PersonalAgentConfig → string + string;
}.

Section parsing.
Context `{!Environment, !ConfigToml}.

Definition repairable : list string :=
  ["agent"; "runtime"; "privacy"; "ui"; "voice"; "workspace"; "browser"; "memory"; "automation"; "notifications"; "updates"; "opencode";
   "secret_aliases"; "risk_acknowledgements"].
Definition repaired (shape : TomlValue) : list string :=
  filter (λ field, toml_get field shape = None) repairable
  ++ (match toml_get "schema_version" shape with Some _ => [] | None => ["schema_version"] end)
  ++ (match toml_get "persona" shape ≫= toml_get "style" with Some _ => [] | None => ["persona.style"] end).
Definition parse_config (input : string) : outcome ConfigError ConfigLoad :=
  match toml_value input with
  | inl error => Err (ParseError error)
  | inr shape =>
    match toml_config input with
    | inl error => Err (ParseError error)
    | inr config =>
      match validate config with
      | Ok () => Ok (mkConfigLoad config (repaired shape))
      | Err e => Err e
      | Panic => Panic
      end
    end
  end.
Definition render (c : PersonalAgentConfig) : outcome ConfigError string :=
  match toml_render c with inl error => Err (SerializeError error) | inr text => Ok text end.
Definition repaired_toml (l : ConfigLoad) : outcome ConfigError string := render (cl_config l).
Definition default_config_toml : outcome ConfigError string := render personal_agent_config_default.

(** ** Files *)

Inductive IoError : Type := NotFound | AlreadyExists | OtherIo (detail : string).
Inductive ConfigFileError : Type := FileIo (error : IoError) | FileConfig (error : ConfigError).
Record File : Type := mkFile { fi_content : string; fi_mode : N }.
(** What happens when a call is made: nothing special, a failure (of a write after some bytes), or another program has created
    a file just before. *)
Inductive DiskEvent : Type :=
  | Calm
  | Fails (error : IoError) (written : nat)
  | Arrives (path : string) (file : File).
Record Disk : Type := mkDisk { di_files : gmap string File; di_dirs : gset string; di_events : list DiskEvent }.
Global Instance Disk_eta : Eta Disk := λ d, mkDisk (di_files d) (di_dirs d) (di_events d).

Notation DM := (M Disk IoError).
(** The event of the next call; a file that exists is not created again. *)
Definition next_event : DM DiskEvent := λ d,
  match di_events d with
  | [] => (Ok Calm, d)
  | event :: events =>
    let files := match event with
      | Arrives path file => match di_files d !! path with Some _ => di_files d | None => <[path := file]> (di_files d) end
      | _ => di_files d
      end in
    (Ok event, mkDisk files (di_dirs d) events)
  end.
Definition disk_call : DM () := event ← next_event; match event with Fails error _ => throw error | _ => mret () end.
Definition read_to_string (path : string) : DM string :=
  _ ← disk_call; d ← get;
  match di_files d !! path with
  | None => throw NotFound
  | Some file =>
    if utf8_valid (bytes (fi_content file)) then mret (fi_content file) else throw (OtherIo "stream did not contain valid UTF-8")
  end.
Definition create_dir_all (dir : string) : DM () := _ ← disk_call; modify (λ d, d <| di_dirs ::= λ dirs, {[dir]} ∪ dirs |>).
(** [create_new(true).write(true).mode(mode)]. *)
Definition open_new (path : string) (mode : N) : DM () :=
  _ ← disk_call; d ← get;
  _ ← reject_if (bool_decide (is_Some (di_files d !! path))) AlreadyExists;
  modify (λ d, d <| di_files ::= <[path := mkFile "" mode]> |>).
Definition set_content (path text : string) : DM () :=
  modify (λ d, d <| di_files ::= alter (λ file, mkFile text (fi_mode file)) path |>).
Definition write_all (path text : string) : DM () :=
  event ← next_event;
  match event with
  | Fails error written => _ ← set_content path (of_bytes (take written (bytes text))); throw error
  | _ => set_content path text
  end.
Definition sync_all : DM () := disk_call.

(** [Path::parent]. *)
Context (path_parent : string → option string).
Notation FM := (M Disk ConfigFileError).
Definition parsed (input : string) : FM ConfigLoad := lift (outcome_map_err FileConfig (parse_config input)).
Definition write_default (path rendered : string) : FM ConfigLoad :=
  _ ← map_err FileIo (write_all path rendered); _ ← map_err FileIo sync_all; parsed rendered.
Definition open_or_read (path rendered : string) : FM ConfigLoad := λ d,
  match open_new path 384 d with
  | (Ok (), d) => write_default path rendered d
  | (Err AlreadyExists, d) => (input ← map_err FileIo (read_to_string path); parsed input) d
  | (Err error, d) => (Err (FileIo error), d)
  | (Panic, d) => (Panic, d)
  end.
Definition ensure_parent (path : string) : FM () :=
  match path_parent path with Some parent => map_err FileIo (create_dir_all parent) | None => mret () end.
Definition initialize_config (path : string) : FM ConfigLoad :=
  _ ← ensure_parent path;
  rendered ← lift (outcome_map_err FileConfig default_config_toml);
  open_or_read path rendered.
Definition load_or_initialize_config (path : string) : FM ConfigLoad := λ d,
  match read_to_string path d with
  | (Ok input, d) => parsed input d
  | (Err NotFound, d) => initialize_config path d
  | (Err error, d) => (Err (FileIo error), d)
  | (Panic, d) => (Panic, d)
  end.

(** ** Command line *)

Record CliResponse : Type := mkCliResponse { cli_exit_code : Z; cli_stdout : string; cli_stderr : string }.
Record LegacyRoots : Type := mkLegacyRoots { lr_config_root : string; lr_data_root : string; lr_opencode_auth : option string }.
Definition success (stdout : string) : CliResponse := mkCliResponse 0 stdout "".
Definition failure (exit_code : Z) (stderr : string) : CliResponse := mkCliResponse exit_code "" stderr.
Definition newline : string := of_bytes [lf].
Definition USAGE : string :=
  "usage: personal-agent <status|doctor|config print-default|config check PATH|migration dry-run CONFIG_ROOT DATA_ROOT [OPENCODE_AUTH]>".
Definition io_error_display (error : IoError) : string :=
  match error with
  | NotFound => "No such file or directory (os error 2)"
  | AlreadyExists => "File exists (os error 17)"
  | OtherIo detail => detail
  end.
Definition config_error_display (error : ConfigError) : string :=
  match error with
  | ParseError detail => "configuration is not valid TOML: " +:+ detail
  | SerializeError detail => "configuration cannot be serialized: " +:+ detail
  | SchemaVersion version => "unsupported configuration schema version " +:+ pretty version
  | BlankPersona => "persona.name must not be blank"
  | Parallelism => "agent.default_parallelism must be between 1 and 8"
  | DelegationDepth => "agent.max_delegation_depth must be at most 8"
  | RuntimeVersion expected => "runtime.opencode_version must match bundled version " +:+ expected
  | StartupTimeout => "runtime.startup_timeout_ms must be between 1000 and 120000"
  | SecretAlias => "secret alias must use keychain:// and contain a non-empty service/account path"
  | BlankRiskScope => "risk acknowledgement scope must not be blank"
  | RiskNotAcknowledged => "risk acknowledgement must set acknowledged = true"
  | TextScale => "ui.text_scale_percent must be between 75 and 200"
  | VoiceRange => "voice percentage and probability values are outside their supported range"
  | VoiceVad => "voice VAD stop threshold must be lower than the start threshold"
  | VoiceLanguage => "this release supports English voice input and output only"
  | Retention => "privacy.transcript_retention_days must be between 0 and 3650"
  | WorkingDirectory => "runtime.working_directory must not be blank"
  | UnsafeOpenCodeConfig => "opencode must be an object and must not contain plaintext credential fields"
  end.

(** The reports that are printed: the diagnostic snapshot and the migration plan of the roots, or their errors. *)
Context (diagnostics : string + string) (dry_run : LegacyRoots → string + string).
Definition config_command (arguments : list string) : Disk → CliResponse * Disk := λ d,
  match arguments with
  | [command] =>
    if bool_decide (command = "print-default")
    then match default_config_toml with
      | Ok output => (success output, d)
      | Err error => (failure 1 ("default config failed: " +:+ config_error_display error +:+ newline), d)
      | Panic => (failure 101 "", d)
      end
    else (failure 2 (USAGE +:+ newline), d)
  | [command; path] =>
    if bool_decide (command = "check")
    then match read_to_string path d with
      | (Ok input, d) =>
        match parse_config input with
        | Ok load =>
          (success ("valid configuration (" +:+ pretty (N.of_nat (length (cl_repaired_fields load)))
             +:+ " safe defaults materialized in memory)" +:+ newline), d)
        | Err error => (failure 1 ("invalid configuration: " +:+ config_error_display error +:+ newline), d)
        | Panic => (failure 101 "", d)
        end
      | (Err error, d) => (failure 1 ("configuration cannot be read: " +:+ io_error_display error +:+ newline), d)
      | (Panic, d) => (failure 101 "", d)
      end
    else (failure 2 (USAGE +:+ newline), d)
  | _ => (failure 2 (USAGE +:+ newline), d)
  end.
Definition migration_command (arguments : list string) : CliResponse :=
  match arguments with
  | command :: config_root :: data_root :: tail =>
    if bool_decide (command ≠ "dry-run") || (1 <? length tail) then failure 2 (USAGE +:+ newline)
    else match dry_run (mkLegacyRoots config_root data_root (head tail)) with
    | inr output => success (output +:+ newline)
    | inl error => failure 1 ("dry run failed: " +:+ error +:+ newline)
    end
  | _ => failure 2 (USAGE +:+ newline)
  end.
(** [OsStr::to_str]. *)
Definition to_str (argument : string) : option string := if utf8_valid (bytes argument) then Some argument else None.
Definition run_cli (arguments : list string) : Disk → CliResponse * Disk := λ d,
  let command := default "status" (head arguments ≫= to_str) in
  if bool_decide (command ∈ ["status"; "doctor"]) && (length arguments <=? 1)
  then match diagnostics with
    | inr output => (success (output +:+ newline), d)
    | inl error => (failure 1 ("diagnostics failed: " +:+ error +:+ newline), d)
    end
  else if bool_decide (command = "config") then config_command (drop 1 arguments) d
  else if bool_decide (command = "migration") then (migration_command (drop 1 arguments), d)
  else if bool_decide (command ∈ ["--help"; "-h"; "help"]) then (success (USAGE +:+ newline), d)
  else if bool_decide (command ∈ ["--version"; "-V"]) then (success ("personal-agent 0.1.0" +:+ newline), d)
  else (failure 2 (USAGE +:+ newline), d).
End parsing.
