(* ===== verification/ConfigSpec.v ===== *)
(** * Application configuration and command line: theorems

    What a configuration must satisfy to be accepted and what each refusal means; that the settings
    passed to the runtime name no credential; that loading leaves every existing file alone; that a
    fresh profile starts with the defaults; that the command line changes no file. *)

From stdpp Require Import base gmap strings list pretty.
From Stdlib Require Import Ascii.
From S2P Require Import Prelude Text Config.

(** ** Keychain references *)

Lemma split_at_byte_plain c cur l : c ∉ l → split_at_byte c cur l = [cur ++ l].
Proof.
  revert cur; induction l as [|b l IH]; intros cur Hc; simpl; [by rewrite app_nil_r|].
  rewrite not_elem_of_cons in Hc. destruct Hc as [Hb Hl]. rewrite bool_decide_eq_false_2 by congruence. rewrite IH by done. by rewrite <- app_assoc.
Qed.
Lemma split_at_byte_first c cur a l : c ∉ a → split_at_byte c cur (a ++ c :: l) = (cur ++ a) :: split_at_byte c [] l.
Proof.
  revert cur; induction a as [|b a IH]; intros cur Hc; simpl.
  - by rewrite bool_decide_eq_true_2, app_nil_r.
  - rewrite not_elem_of_cons in Hc. destruct Hc as [Hb Ha]. rewrite bool_decide_eq_false_2 by congruence. rewrite IH by done. by rewrite <- app_assoc.
Qed.
Lemma split_at_byte_inv c cur l :
  (c ∉ l ∧ split_at_byte c cur l = [cur ++ l]) ∨
  (∃ a rest, l = a ++ c :: rest ∧ c ∉ a ∧ split_at_byte c cur l = (cur ++ a) :: split_at_byte c [] rest).
Proof.
  destruct (decide (c ∈ l)) as [Hin|]; [right|left; split; [done|]; by apply split_at_byte_plain].
  apply list_elem_of_split_l in Hin as (a & rest & -> & Ha). exists a, rest. split_and!; [done..|]. by apply split_at_byte_first.
Qed.
Lemma split_at_byte_cons c cur l : ∃ first rest, split_at_byte c cur l = first :: rest.
Proof. destruct (split_at_byte_inv c cur l) as [(_ & ->)|(? & ? & _ & _ & ->)]; eauto. Qed.

(** A reference that names one service and one account, neither empty and neither with a slash. *)
Definition reference_sound (r : SecretReference) : Prop :=
  sr_service r ≠ "" ∧ sr_account r ≠ "" ∧ "/"%char ∉ bytes (sr_service r) ∧ "/"%char ∉ bytes (sr_account r).
Lemma bytes_slash a b : bytes (a +:+ "/" +:+ b) = bytes a ++ "/"%char :: bytes b.
Proof. by rewrite !bytes_app. Qed.
Lemma strip_keychain path : str_strip_prefix "keychain://" ("keychain://" +:+ path) = Some path.
Proof. apply str_strip_prefix_Some. by rewrite bytes_app. Qed.
Lemma non_empty_bytes s : s ≠ "" → non_empty (bytes s) = Some s.
Proof.
  intros Hs. unfold non_empty. rewrite bool_decide_eq_false_2; [by rewrite of_bytes_bytes|]. intros Hb. apply Hs. by rewrite <- (of_bytes_bytes s), Hb.
Qed.
Lemma non_empty_some l s : non_empty l = Some s → l = bytes s ∧ s ≠ "".
Proof. unfold non_empty. case_bool_decide as Hl; [done|]. intros [= <-]. rewrite bytes_of_bytes. split; [done|]. by destruct l. Qed.
(** An alias reads as a reference exactly when it is that reference written out, and the reference is sound. *)
Theorem keychain_references_read_back alias r :
  parse_reference alias = Ok r ↔ reference_sound r ∧ alias = reference_alias r.
Proof.
  split.
  - unfold parse_reference. destruct (str_strip_prefix "keychain://" alias) as [path|] eqn:Hp; [|done].
    apply str_strip_prefix_Some in Hp. rewrite <- bytes_app in Hp. apply bytes_inj in Hp as ->.
    destruct (split_at_byte_inv "/" [] (bytes path)) as [(_ & ->)|(a & rest & Hb & Ha & ->)]; [by simpl; case_match|]. simpl.
    destruct (split_at_byte_inv "/" [] rest) as [(Hr & ->)|(b & tail & -> & _ & ->)].
    + simpl. destruct (non_empty a) as [service|] eqn:Hs; [|done]. destruct (non_empty rest) as [account|] eqn:Hacc; [|done].
      intros [= <-]. apply non_empty_some in Hs as [-> ?], Hacc as [-> ?]. split; [done|]. unfold reference_alias. f_equal. apply bytes_inj. simpl. by rewrite Hb, bytes_slash.
    + destruct (split_at_byte_cons "/" [] tail) as (? & ? & ->). simpl. done.
  - intros [(Hs & Hacc & Hss & Has) ->]. unfold parse_reference, reference_alias. rewrite strip_keychain, bytes_slash.
    rewrite split_at_byte_first, split_at_byte_plain by done. simpl. rewrite !non_empty_bytes by done. by destruct r.
Qed.

(** ** Validation *)

(** A key of an object, at any depth. *)
Inductive mentions (key : string) : Value → Prop :=
  | mentions_here v l : (key, v) ∈ l → mentions key (VObject l)
  | mentions_field k v l : (k, v) ∈ l → mentions key v → mentions key (VObject l)
  | mentions_item v l : v ∈ l → mentions key v → mentions key (VArray l).
Lemma visit_exact v : visit v = true ↔ ∀ key, mentions key v → names_credential key = false.
Proof.
  induction v as [| | | |l IH|l IH] using Value_induction; simpl; try by (split; [intros _ ? Hm; inversion Hm|]).
  - rewrite forallb_forall. setoid_rewrite <- list_elem_of_In. rewrite Forall_forall in IH. split.
    + intros Hall key Hm. inversion Hm; subst. by eapply IH, H1; [|apply Hall].
    + intros Hall v Hv. apply IH; [done|]. intros key Hm. apply Hall. by econstructor.
  - rewrite forallb_forall. setoid_rewrite <- list_elem_of_In. rewrite Forall_forall in IH. setoid_rewrite andb_true_iff. setoid_rewrite negb_true_iff. split.
    + intros Hall key Hm. inversion Hm; subst; [by apply (Hall (key, v))|]. eapply (IH (k, v)); [done| |done]. by apply (Hall (k, v)).
    + intros Hall [k v] Hkv. split; [apply Hall; by econstructor|]. apply (IH (k, v)); [done|]. intros key Hm. apply Hall. by eapply mentions_field.
Qed.
Lemma safe_opencode_exact v :
  safe_opencode_config v = true ↔ is_object v = true ∧ ∀ key, mentions key v → names_credential key = false.
Proof. rewrite <- visit_exact. unfold safe_opencode_config. destruct v; simpl; naive_solver. Qed.

Definition acknowledged (a : RiskAcknowledgement) : Prop := is_blank (ra_scope a) = false ∧ ra_acknowledged a = true.
Definition voice_sound (v : VoiceConfig) : Prop :=
  (vo_vad_stop_milli v < vo_vad_start_milli v ≤ 1000)%N ∧ (vo_wake_threshold_milli v ≤ 1000)%N ∧ (25 ≤ vo_speech_rate_percent v ≤ 300)%N ∧
  (vo_volume_percent v ≤ 200)%N ∧ (vo_input_gain_percent v ≤ 800)%N ∧ (vo_ducking_percent v ≤ 100)%N.
(** What an accepted configuration satisfies. *)
Record config_sound (c : PersonalAgentConfig) : Prop := {
  sound_schema : cf_schema_version c = 1%N;
  sound_persona : is_blank (pe_name (cf_persona c)) = false;
  sound_parallelism : (1 ≤ ag_default_parallelism (cf_agent c) ≤ 8)%N;
  sound_delegation : (ag_max_delegation_depth (cf_agent c) ≤ 8)%N;
  sound_runtime : rt_opencode_version (cf_runtime c) = OPENCODE_VERSION;
  sound_startup : (1000 ≤ rt_startup_timeout_ms (cf_runtime c) ≤ 120000)%N;
  sound_directory : is_blank (rt_working_directory (cf_runtime c)) = false;
  sound_scale : (75 ≤ uc_text_scale_percent (cf_ui c) ≤ 200)%N;
  sound_retention : (pv_transcript_retention_days (cf_privacy c) ≤ 3650)%N;
  sound_language : vo_language (cf_voice c) = "en" ∧ vo_response_language (cf_voice c) = "en";
  sound_voice : voice_sound (cf_voice c);
  sound_opencode : is_object (cf_opencode c) = true ∧ ∀ key, mentions key (cf_opencode c) → names_credential key = false;
  sound_aliases : Forall (λ alias, ∃ r, reference_sound r ∧ alias = reference_alias r) (cf_secret_aliases c);
  sound_risks : Forall acknowledged (cf_risk_acknowledgements c);
}.
(** What each refusal says of the configuration. *)
Definition refusal_reason (e : ConfigError) (c : PersonalAgentConfig) : Prop :=
  match e with
  | SchemaVersion version => version = cf_schema_version c ∧ version ≠ 1%N
  | BlankPersona => is_blank (pe_name (cf_persona c)) = true
  | Parallelism => ¬ (1 ≤ ag_default_parallelism (cf_agent c) ≤ 8)%N
  | DelegationDepth => (8 < ag_max_delegation_depth (cf_agent c))%N
  | RuntimeVersion expected => expected = OPENCODE_VERSION ∧ rt_opencode_version (cf_runtime c) ≠ expected
  | StartupTimeout => ¬ (1000 ≤ rt_startup_timeout_ms (cf_runtime c) ≤ 120000)%N
  | WorkingDirectory => is_blank (rt_working_directory (cf_runtime c)) = true
  | TextScale => ¬ (75 ≤ uc_text_scale_percent (cf_ui c) ≤ 200)%N
  | Retention => (3650 < pv_transcript_retention_days (cf_privacy c))%N
  | VoiceLanguage => vo_language (cf_voice c) ≠ "en" ∨ vo_response_language (cf_voice c) ≠ "en"
  | VoiceVad => (vo_vad_start_milli (cf_voice c) ≤ vo_vad_stop_milli (cf_voice c))%N
  | VoiceRange => (vo_vad_stop_milli (cf_voice c) < vo_vad_start_milli (cf_voice c))%N ∧ ¬ voice_sound (cf_voice c)
  | UnsafeOpenCodeConfig => is_object (cf_opencode c) = false ∨ ∃ key, mentions key (cf_opencode c) ∧ names_credential key = true
  | SecretAlias => ∃ alias, alias ∈ cf_secret_aliases c ∧ ∀ r, reference_sound r → alias ≠ reference_alias r
  | BlankRiskScope => ∃ a, a ∈ cf_risk_acknowledgements c ∧ is_blank (ra_scope a) = true
  | RiskNotAcknowledged => ∃ a, a ∈ cf_risk_acknowledgements c ∧ ra_acknowledged a = false
  | ParseError _ | SerializeError _ => False
  end.

Lemma in_range_spec lo hi n : in_range lo hi n = true ↔ (lo ≤ n ≤ hi)%N.
Proof. unfold in_range. rewrite andb_true_iff, !N.leb_le. done. Qed.
Lemma not_in_range lo hi n : negb (in_range lo hi n) = true ↔ ¬ (lo ≤ n ≤ hi)%N.
Proof. rewrite <- in_range_spec, negb_true_iff. by destruct (in_range lo hi n). Qed.
Lemma voice_range_exact v : voice_out_of_range v = false ↔ voice_sound v.
Proof.
  unfold voice_out_of_range, voice_sound, vad_inverted. rewrite !orb_false_iff, negb_false_iff, in_range_spec, !N.ltb_ge, N.leb_gt. lia.
Qed.
Lemma visit_witness v : visit v = false → ∃ key, mentions key v ∧ names_credential key = true.
Proof.
  induction v as [| | | |l IH|l IH] using Value_induction; simpl; try done; intros Hf%not_true_iff_false; rewrite forallb_forall in Hf;
    setoid_rewrite <- list_elem_of_In in Hf; rewrite <- Forall_forall in Hf.
  - apply not_Forall_Exists, Exists_exists in Hf as (v & Hv & Hfalse); [|apply _]. rewrite Forall_forall in IH.
    destruct (IH v Hv) as (key & ? & ?); [by apply not_true_iff_false|]. exists key. split; [by econstructor|done].
  - apply not_Forall_Exists, Exists_exists in Hf as ([k v] & Hv & Hfalse); [|apply _]. rewrite Forall_forall in IH. simpl in Hfalse.
    destruct (names_credential k) eqn:Hk; [exists k; split; [by econstructor|done]|].
    destruct (IH (k, v) Hv) as (key & ? & ?); [by apply not_true_iff_false|]. exists key. split; [by eapply mentions_field|done].
Qed.
Lemma check_alias_ok alias : check_alias alias = Ok () ↔ ∃ r, reference_sound r ∧ alias = reference_alias r.
Proof.
  setoid_rewrite <- keychain_references_read_back. unfold check_alias. destruct (parse_reference alias); naive_solver.
Qed.
Lemma check_acknowledgement_ok a : check_acknowledgement a = Ok () ↔ acknowledged a.
Proof. unfold check_acknowledgement, acknowledged. destruct (is_blank _), (ra_acknowledged a); naive_solver. Qed.
Lemma try_for_each_cases {E A} (f : A → outcome E ()) l :
  (∀ a, f a ≠ Panic) →
  (try_for_each f l = Ok () ∧ Forall (λ a, f a = Ok ()) l) ∨ (∃ e a, try_for_each f l = Err e ∧ a ∈ l ∧ f a = Err e).
Proof.
  intros Hp. induction l as [|a l [[IH Hall]|(e & b & IH & Hb & He)]]; simpl; [by left|..];
    (destruct (f a) as [[]|e'|] eqn:Hf; [| |by edestruct Hp]); simpl; try (right; exists e', a; by eauto using list_elem_of_here).
  - left. split; [done|]. by constructor.
  - right. exists e, b. split_and!; [done|by apply list_elem_of_further|done].
Qed.

Lemma refusal_excludes e c : refusal_reason e c → ¬ config_sound c.
Proof.
  intros He Hs. destruct Hs as [Hsv Hpe Hpar Hdel Hrt Hst Hdir Hsc Hret [Hla Hrl] Hvo [Hobj Hkeys] Hal Hri].
  destruct e; simpl in He; try solve [done | lia | congruence | destruct He; congruence].
  - destruct He as (alias & Hin & Hno). rewrite Forall_forall in Hal. destruct (Hal alias Hin) as (r & Hr & Heq). by eapply Hno.
  - destruct He as (a & Hin & Hb). rewrite Forall_forall in Hri. destruct (Hri a Hin). congruence.
  - destruct He as (a & Hin & Hb). rewrite Forall_forall in Hri. destruct (Hri a Hin). congruence.
  - unfold voice_sound in Hvo. lia.
  - destruct He as [|(key & Hm & Hn)]; [congruence|]. rewrite Hkeys in Hn; done.
Qed.

(** Reads one test of [validate]: refused with its reason, or passed. *)
Ltac next_test H := match goal with
  | |- (match (if ?b then _ else _) with _ => _ end) => destruct b eqn:H; [|]
  end.
Lemma voice_refusal v :
  voice_out_of_range v = true →
  if vad_inverted v then (vo_vad_start_milli v ≤ vo_vad_stop_milli v)%N
  else (vo_vad_stop_milli v < vo_vad_start_milli v)%N ∧ ¬ voice_sound v.
Proof.
  intros Hv. destruct (vad_inverted v) eqn:Hi; unfold vad_inverted in Hi; [by apply N.leb_le|apply N.leb_gt in Hi].
  split; [done|]. rewrite <- voice_range_exact. congruence.
Qed.
(** The verdict on the lists, once the fields have passed. *)
Lemma lists_cases c :
  match (match try_for_each check_alias (cf_secret_aliases c) with
         | Ok () => try_for_each check_acknowledgement (cf_risk_acknowledgements c) | failed => failed end) with
  | Ok () => Forall (λ alias, ∃ r, reference_sound r ∧ alias = reference_alias r) (cf_secret_aliases c) ∧
             Forall acknowledged (cf_risk_acknowledgements c)
  | Err e => refusal_reason e c
  | Panic => False
  end.
Proof.
  destruct (try_for_each_cases check_alias (cf_secret_aliases c)) as [[-> Hal]|(e & alias & -> & Hin & He)].
  { intros a. unfold check_alias, parse_reference. repeat case_match; done. }
  - destruct (try_for_each_cases check_acknowledgement (cf_risk_acknowledgements c)) as [[-> Hri]|(e & a & -> & Hin & He)].
    { intros a. unfold check_acknowledgement. by repeat case_match. }
    + split; [eapply Forall_impl; [exact Hal|]; by intros ? ?%check_alias_ok|]. eapply Forall_impl; [exact Hri|]. by intros ? ?%check_acknowledgement_ok.
    + unfold check_acknowledgement in He. destruct (is_blank (ra_scope a)) eqn:Hb; [injection He as <-; simpl; eauto|].
      destruct (ra_acknowledged a) eqn:Ha; [done|]. injection He as <-. simpl. eauto.
  - assert (e = SecretAlias) as -> by (unfold check_alias in He; destruct (parse_reference alias); naive_solver).
    exists alias. split; [done|]. intros r Hr ->. assert (check_alias (reference_alias r) = Ok ()) by (apply check_alias_ok; eauto). congruence.
Qed.
Lemma config_validate_cases c :
  match validate c with Ok () => config_sound c | Err e => refusal_reason e c | Panic => False end.
Proof.
  unfold validate.
  next_test H1; [by rewrite negb_true_iff, N.eqb_neq in H1|]. rewrite negb_false_iff, N.eqb_eq in H1.
  next_test H2; [done|].
  next_test H3; [by apply not_in_range|]. rewrite negb_false_iff, in_range_spec in H3.
  next_test H4; [by apply N.ltb_lt|]. apply N.ltb_ge in H4.
  next_test H5; [by apply bool_decide_eq_true in H5|]. rewrite bool_decide_eq_false in H5. apply dec_stable in H5.
  next_test H6; [by apply not_in_range|]. rewrite negb_false_iff, in_range_spec in H6.
  next_test H7; [done|].
  next_test H8; [by apply not_in_range|]. rewrite negb_false_iff, in_range_spec in H8.
  next_test H9; [by apply N.ltb_lt|]. apply N.ltb_ge in H9.
  next_test H10; [by rewrite orb_true_iff, !bool_decide_eq_true in H10|].
  rewrite orb_false_iff, !bool_decide_eq_false in H10. destruct H10 as [Hl%dec_stable Hr%dec_stable].
  next_test H11; [apply voice_refusal in H11; by destruct (vad_inverted _)|]. apply voice_range_exact in H11.
  next_test H12.
  { simpl. apply negb_true_iff in H12. unfold safe_opencode_config in H12. destruct (cf_opencode c) as [| | | | |l] eqn:Ho; simpl in *; try by left.
    right. by apply visit_witness. }
  apply negb_false_iff, safe_opencode_exact in H12. pose proof (lists_cases c) as Hl2.
  destruct (match try_for_each _ _ with Ok () => _ | failed => failed end) as [[]|e|]; [|done..]. destruct Hl2. by constructor.
Qed.

(** Validation accepts exactly the sound configurations; a refusal names a field, or an entry, that is not sound. *)
Theorem validation_is_exact c :
  (validate c = Ok () ∧ config_sound c) ∨ (∃ e, validate c = Err e ∧ refusal_reason e c ∧ ¬ config_sound c).
Proof.
  pose proof (config_validate_cases c) as Hc. destruct (validate c) as [[]|e|]; [by left| |done]. right. eauto using refusal_excludes.
Qed.

(** ** Loading *)

Section loading.
Context `{!Environment, !ConfigToml} (path_parent : string → option string).

(** The private file of a fresh profile, possibly cut short by a failed write. *)
Definition initial_file (f : File) : Prop :=
  fi_mode f = 384%N ∧ ∃ text written, default_config_toml = Ok text ∧ fi_content f = of_bytes (take written (bytes text)).
(** Every file of [d0] is still there, and a new one came from another program or is the initial one at [path]. *)
Definition grew (path : string) (d0 d : Disk) : Prop :=
  di_files d0 ⊆ di_files d ∧
  (∀ p f, di_files d !! p = Some f → di_files d0 !! p = Some f ∨ Arrives p f ∈ di_events d0 ∨ (p = path ∧ di_files d0 !! p = None ∧ initial_file f)) ∧
  (∀ event, event ∈ di_events d → event ∈ di_events d0).
Lemma grew_refl path d : grew path d d.
Proof. split_and!; eauto. Qed.

Lemma next_event_grew path d0 d o d' :
  grew path d0 d → next_event d = (o, d') → is_ok o = true ∧ grew path d0 d' ∧ di_files d ⊆ di_files d'.
Proof.
  intros (Hsub & Hnew & Hev). unfold next_event. destruct (di_events d) as [|event events] eqn:He; [intros [= <- <-]|].
  { split_and!; [done| |done]. split_and!; [done..|]. by rewrite He. }
  assert (∀ e, e ∈ events → e ∈ di_events d0) as Hevs by (intros; by apply Hev, list_elem_of_further).
  destruct event as [|error written|p f]; intros [= <- <-]; [by split_and!..|]. split; [done|].
  destruct (di_files d !! p) as [g|] eqn:Hp; simpl; [by split_and!|].
  assert (di_files d ⊆ <[p := f]> (di_files d)) as Hins by by apply insert_subseteq.
  split; [|done]. split_and!; simpl; [by trans (di_files d)| |done].
  intros q g. rewrite lookup_insert_Some. intros [[<- <-]|[_ Hq]]; [|by apply Hnew]. right. left. apply Hev, list_elem_of_here.
Qed.
Lemma disk_call_grew path d0 d o d' :
  grew path d0 d → disk_call d = (o, d') → o ≠ Panic ∧ grew path d0 d' ∧ di_files d ⊆ di_files d'.
Proof.
  intros Hg. unfold disk_call. munfold. destruct (next_event d) as [r d1] eqn:Hn. destruct (next_event_grew _ _ _ _ _ Hg Hn) as (Hr & Hg1 & Hs1).
  destruct r as [event| |]; [|done..]. by destruct event; intros [= <- <-].
Qed.
Lemma read_grew path d0 p d o d' :
  grew path d0 d → read_to_string p d = (o, d') →
  o ≠ Panic ∧ grew path d0 d' ∧ di_files d ⊆ di_files d' ∧ (∀ input, o = Ok input → ∃ f, di_files d' !! p = Some f ∧ fi_content f = input).
Proof.
  intros Hg. unfold read_to_string. munfold. destruct (disk_call d) as [r d1] eqn:Hc. destruct (disk_call_grew _ _ _ _ _ Hg Hc) as (Hr & Hg1 & Hs1).
  destruct r as [[]|e|]; [|by intros [= <- <-]|done]. destruct (di_files d1 !! p) as [f|] eqn:Hf; [|by intros [= <- <-]].
  destruct (utf8_valid _); intros [= <- <-]; split_and!; try done. intros input [= <-]. eauto.
Qed.
Lemma create_dir_all_grew path d0 dir d o d' :
  grew path d0 d → create_dir_all dir d = (o, d') → o ≠ Panic ∧ grew path d0 d'.
Proof.
  intros Hg. unfold create_dir_all. munfold. destruct (disk_call d) as [r d1] eqn:Hc. destruct (disk_call_grew _ _ _ _ _ Hg Hc) as (Hr & Hg1 & _).
  destruct r as [[]|e|]; [|by intros [= <- <-]|done]. by intros [= <- <-].
Qed.
Lemma open_new_grew path d0 text d o d' :
  default_config_toml = Ok text → grew path d0 d → open_new path 384 d = (o, d') →
  o ≠ Panic ∧ grew path d0 d' ∧ (o = Ok () → di_files d0 !! path = None ∧ di_files d' !! path = Some (mkFile "" 384)).
Proof.
  intros Ht Hg. unfold open_new. munfold. destruct (disk_call d) as [r d1] eqn:Hc. destruct (disk_call_grew _ _ _ _ _ Hg Hc) as (Hr & (Hsub & Hnew & Hev) & _).
  destruct r as [[]|e|]; [|by intros [= <- <-]|done].
  case_bool_decide as Hin; intros [= <- <-]; [done|]. apply eq_None_not_Some in Hin.
  assert (di_files d0 !! path = None) as Hold by by eapply lookup_weaken_None.
  simpl. rewrite lookup_insert_eq. split_and!; [done| |done]. split_and!; simpl; [by apply insert_subseteq_r| |done].
  intros q g. rewrite lookup_insert_Some. intros [[<- <-]|[_ Hq]]; [|by apply Hnew]. right. right. split_and!; [done..|].
  split; [done|]. by exists text, 0.
Qed.
Lemma set_content_grew path d0 d text written :
  default_config_toml = Ok text → grew path d0 d → di_files d0 !! path = None → (∃ f, di_files d !! path = Some f ∧ fi_mode f = 384%N) →
  grew path d0 (set_content path (of_bytes (take written (bytes text))) d).2 ∧
  di_files (set_content path (of_bytes (take written (bytes text))) d).2 !! path = Some (mkFile (of_bytes (take written (bytes text))) 384).
Proof.
  intros Ht (Hsub & Hnew & Hev) Hold (f & Hf & Hm). simpl. rewrite lookup_alter_eq, Hf. simpl. rewrite Hm. split; [|done]. split_and!; simpl; [| |done].
  - apply map_subseteq_spec. intros p g Hg. rewrite lookup_alter_ne by congruence. by eapply lookup_weaken.
  - intros q g. destruct (decide (q = path)) as [->|Hne]; [|rewrite lookup_alter_ne by done; by apply Hnew].
    rewrite lookup_alter_eq, Hf. intros [= <-]. right. right. split_and!; [done..|]. split; [done|]. by exists text, written.
Qed.
Lemma parse_config_no_panic input : parse_config input ≠ Panic.
Proof.
  unfold parse_config. destruct (toml_value input); [done|]. destruct (toml_config input) as [|c]; [done|].
  pose proof (config_validate_cases c). by destruct (validate c) as [[]| |].
Qed.

(** The returned configuration is the one on the disk. *)
Definition agrees (path : string) (o : outcome ConfigFileError ConfigLoad) (d : Disk) : Prop :=
  o ≠ Panic ∧ ∀ load, o = Ok load → ∃ f, di_files d !! path = Some f ∧ parse_config (fi_content f) = Ok load.
Lemma parsed_agrees path d input o d' f :
  di_files d !! path = Some f → fi_content f = input → parsed input d = (o, d') → d' = d ∧ agrees path o d'.
Proof.
  intros Hf <-. unfold parsed, lift. intros [= <- <-]. split; [done|]. pose proof (parse_config_no_panic (fi_content f)).
  split; destruct (parse_config (fi_content f)) eqn:Hp; simpl; try done. intros load [= <-]. eauto.
Qed.
Lemma read_parsed_agrees path d0 d o d' :
  grew path d0 d → (input ← map_err FileIo (read_to_string path); parsed input) d = (o, d') → grew path d0 d' ∧ agrees path o d'.
Proof.
  intros Hg. unfold map_err. munfold. destruct (read_to_string path d) as [r d1] eqn:Hr. destruct (read_grew _ _ _ _ _ _ Hg Hr) as (Hp & Hg1 & _ & Hin).
  destruct r as [input|e|]; [|by intros [= <- <-]|done]. destruct (Hin input eq_refl) as (f & Hf & Hc). intros Hpar.
  by destruct (parsed_agrees _ _ _ _ _ _ Hf Hc Hpar) as [-> ?].
Qed.
Lemma write_all_grew path d0 d text o d' :
  default_config_toml = Ok text → grew path d0 d → di_files d0 !! path = None → di_files d !! path = Some (mkFile "" 384) →
  write_all path text d = (o, d') →
  o ≠ Panic ∧ grew path d0 d' ∧ (o = Ok () → di_files d' !! path = Some (mkFile text 384)).
Proof.
  intros Ht Hg Hold Hf. unfold write_all. munfold. destruct (next_event d) as [r d1] eqn:Hn. destruct (next_event_grew _ _ _ _ _ Hg Hn) as (Hr & Hg1 & Hs1).
  assert (∃ f, di_files d1 !! path = Some f ∧ fi_mode f = 384%N) as Hf1 by (eexists; split; [by eapply lookup_weaken|done]).
  destruct r as [event| |]; [|done..].
  destruct (set_content_grew path d0 d1 text (length (bytes text)) Ht Hg1 Hold Hf1) as [Hg2 Hl2]. rewrite firstn_all, of_bytes_bytes in Hg2, Hl2.
  destruct event as [|error written|p f]; [by intros [= <- <-]| |by intros [= <- <-]].
  destruct (set_content_grew path d0 d1 text written Ht Hg1 Hold Hf1) as [Hg3 _]. by intros [= <- <-].
Qed.
Lemma write_default_grew path d0 d text o d' :
  default_config_toml = Ok text → grew path d0 d → di_files d0 !! path = None → di_files d !! path = Some (mkFile "" 384) →
  write_default path text d = (o, d') → grew path d0 d' ∧ agrees path o d'.
Proof.
  intros Ht Hg Hold Hf. unfold write_default, map_err, sync_all. munfold. destruct (write_all path text d) as [r d1] eqn:Hw.
  destruct (write_all_grew _ _ _ _ _ _ Ht Hg Hold Hf Hw) as (Hr & Hg1 & Hl1). destruct r as [[]|e|]; [|by intros [= <- <-]|done].
  specialize (Hl1 eq_refl). destruct (disk_call d1) as [r d2] eqn:Hc. destruct (disk_call_grew _ _ _ _ _ Hg1 Hc) as (Hr2 & Hg2 & Hs2).
  destruct r as [[]|e|]; [|by intros [= <- <-]|done]. intros Hp.
  by destruct (parsed_agrees path _ _ _ _ (mkFile text 384) (lookup_weaken _ _ _ _ Hl1 Hs2) eq_refl Hp) as [-> ?].
Qed.
Lemma open_or_read_grew path d0 d text o d' :
  default_config_toml = Ok text → grew path d0 d → open_or_read path text d = (o, d') → grew path d0 d' ∧ agrees path o d'.
Proof.
  intros Ht Hg. unfold open_or_read. destruct (open_new path 384 d) as [r d1] eqn:Ho. destruct (open_new_grew _ _ _ _ _ _ Ht Hg Ho) as (Hr & Hg1 & Hl1).
  destruct r as [[]|[]|]; try done; try by intros [= <- <-].
  - destruct (Hl1 eq_refl). by apply write_default_grew.
  - by apply read_parsed_agrees.
Qed.
Lemma initialize_grew path d0 d o d' :
  grew path d0 d → initialize_config path_parent path d = (o, d') → grew path d0 d' ∧ agrees path o d'.
Proof.
  intros Hg. unfold initialize_config. munfold. destruct (ensure_parent path_parent path d) as [r d1] eqn:Hm.
  assert (r ≠ Panic ∧ grew path d0 d1) as [Hr Hg1].
  { unfold ensure_parent, map_err in Hm. destruct (path_parent path) as [parent|]; [|by injection Hm as <- <-].
    destruct (create_dir_all parent d) as [r2 d2] eqn:Hc. destruct (create_dir_all_grew _ _ _ _ _ _ Hg Hc). destruct r2; by injection Hm as <- <-. }
  destruct r as [[]|e|]; [|by intros [= <- <-]|done]. unfold lift.
  destruct default_config_toml as [text|e|] eqn:Hd; simpl; [by apply open_or_read_grew|by intros [= <- <-]|].
  unfold default_config_toml, render in Hd. by destruct (toml_render _).
Qed.

End loading.

(** ** Fresh profiles *)

(** What the TOML library does with the default configuration: it is written as text that reads back as the configuration,
    with every field present. *)
Class DefaultToml `{!Environment, !ConfigToml} : Prop := {
  default_renders : ∃ text shape,
    toml_render personal_agent_config_default = inr text ∧ utf8_valid (bytes text) = true ∧
    toml_config text = inr personal_agent_config_default ∧ toml_value text = inr shape ∧
    Forall (λ field, is_Some (toml_get field shape)) repairable ∧ is_Some (toml_get "schema_version" shape) ∧
    is_Some (toml_get "persona" shape ≫= toml_get "style");
}.

Section fresh.
Context `{!Environment, !ConfigToml, !DefaultToml} (path_parent : string → option string).

Lemma default_validates :
  validate personal_agent_config_default = if is_blank working_directory then Err WorkingDirectory else Ok ().
Proof.
  set (home := working_directory). unfold validate, personal_agent_config_default, runtime_config_default, workspace_config_default.
  fold home. clearbody home. cbn -[is_blank]. change (is_blank "JARVIS") with false. cbn -[is_blank]. by destruct (is_blank home).
Qed.
Lemma default_parses : ∃ text,
  default_config_toml = Ok text ∧ utf8_valid (bytes text) = true ∧
  parse_config text = if is_blank working_directory then Err WorkingDirectory else Ok (mkConfigLoad personal_agent_config_default []).
Proof.
  destruct default_renders as (text & shape & Hr & Hu & Hc & Hv & Hall & [v Hs] & [w Hp]). exists text. unfold default_config_toml, render, parse_config, repaired.
  rewrite Hr, Hc, Hv, default_validates, Hs, Hp. split_and!; [done..|]. destruct (is_blank working_directory); [done|].
  rewrite list_filter_none; [done|]. rewrite Forall_forall in Hall. intros field Hin. by destruct (Hall field Hin) as [? ->].
Qed.

(** No call fails and nothing arrives. *)
Definition calm (d : Disk) : Prop := Forall (λ event, event = Calm) (di_events d).
Lemma calm_call d : calm d → ∃ events, disk_call d = (Ok (), mkDisk (di_files d) (di_dirs d) events) ∧ next_event d = (Ok Calm, mkDisk (di_files d) (di_dirs d) events) ∧
  Forall (λ event, event = Calm) events.
Proof.
  unfold calm, disk_call, next_event. munfold. destruct d as [files dirs [|event events]]; simpl; [by exists []|].
  rewrite Forall_cons. intros [-> ?]. by exists events.
Qed.

Lemma calm_read path d f :
  calm d → di_files d !! path = Some f → utf8_valid (bytes (fi_content f)) = true →
  ∃ events, load_or_initialize_config path_parent path d =
    (outcome_map_err FileConfig (parse_config (fi_content f)), mkDisk (di_files d) (di_dirs d) events) ∧ Forall (λ event, event = Calm) events.
Proof.
  intros Hc Hf Hu. destruct (calm_call d Hc) as (events & Hcall & _ & He). exists events. split; [|done].
  unfold load_or_initialize_config, read_to_string. munfold. rewrite Hcall. simpl. by rewrite Hf, Hu.
Qed.
Lemma calm_initialize path d text :
  calm d → di_files d !! path = None → default_config_toml = Ok text →
  ∃ dirs events, load_or_initialize_config path_parent path d =
    (outcome_map_err FileConfig (parse_config text), mkDisk (<[path := mkFile text 384]> (di_files d)) dirs events) ∧
    Forall (λ event, event = Calm) events.
Proof.
  intros Hc Hf Ht. destruct (calm_call d Hc) as (ev1 & Hcall & _ & He1).
  unfold load_or_initialize_config, read_to_string. munfold. rewrite Hcall. simpl. rewrite Hf. unfold initialize_config. munfold.
  assert (∃ dirs ev2, ensure_parent path_parent path (mkDisk (di_files d) (di_dirs d) ev1) = (Ok (), mkDisk (di_files d) dirs ev2) ∧
    Forall (λ event, event = Calm) ev2) as (dirs & ev2 & -> & He2).
  { unfold ensure_parent, map_err, create_dir_all. destruct (path_parent path) as [parent|]; [|by eexists _, _]. munfold.
    destruct (calm_call (mkDisk (di_files d) (di_dirs d) ev1) He1) as (ev2 & -> & _ & He2). by eexists _, ev2. }
  rewrite Ht. unfold lift, open_or_read, open_new. munfold. simpl. destruct (calm_call (mkDisk (di_files d) dirs ev2) He2) as (ev3 & -> & _ & He3). simpl.
  rewrite Hf. simpl. unfold write_default, map_err, write_all. munfold.
  destruct (calm_call (mkDisk (<[path := mkFile "" 384]> (di_files d)) dirs ev3) He3) as (ev4 & _ & Hnext & He4). simpl in *. rewrite Hnext. simpl.
  destruct (calm_call (mkDisk (alter (λ file, mkFile text (fi_mode file)) path (<[path := mkFile "" 384]> (di_files d))) dirs ev4) He4) as (ev5 & Hsync & _ & He5).
  unfold sync_all. simpl in Hsync |- *. rewrite Hsync. unfold parsed, lift. simpl. rewrite alter_insert_eq. by eexists _, ev5.
Qed.

(** Where no configuration exists and nothing fails, loading writes the default one, readable by its owner only, and returns it
    with nothing repaired; loading again returns the same and changes no file.  With a blank home directory the file is
    written all the same, and neither the first nor a later loading accepts it. *)
Theorem fresh_profiles_start_with_defaults path d :
  calm d → di_files d !! path = None →
  let result := if is_blank working_directory then Err (FileConfig WorkingDirectory) else Ok (mkConfigLoad personal_agent_config_default []) in
  ∃ text d' d'', default_config_toml = Ok text ∧
    load_or_initialize_config path_parent path d = (result, d') ∧ di_files d' = <[path := mkFile text 384]> (di_files d) ∧
    load_or_initialize_config path_parent path d' = (result, d'') ∧ di_files d'' = di_files d'.
Proof.
  intros Hc Hf. destruct default_parses as (text & Ht & Hu & Hp). destruct (calm_initialize path d text Hc Hf Ht) as (dirs & ev & Hl & He).
  destruct (calm_read path (mkDisk (<[path := mkFile text 384]> (di_files d)) dirs ev) (mkFile text 384)) as (ev2 & Hl2 & _);
    [done|apply lookup_insert_eq|done|]. simpl in Hl2. rewrite Hp in Hl, Hl2.
  eexists text, _, _. split; [done|]. rewrite Hl, Hl2. by destruct (is_blank working_directory).
Qed.
End fresh.

(** ** Defaults *)

Section default_sections.
Context `{!Environment}.

(** A section that is written but empty has the values of a section that is left out, but for the agent of the runtime. *)
Theorem empty_sections_are_default_sections :
  agent_config_of_empty_table = agent_config_default ∧ privacy_config_of_empty_table = privacy_config_default ∧
  ui_config_of_empty_table = ui_config_default ∧ voice_config_of_empty_table = voice_config_default ∧
  workspace_config_of_empty_table = workspace_config_default ∧ browser_config_of_empty_table = browser_config_default ∧
  memory_config_of_empty_table = memory_config_default ∧ automation_config_of_empty_table = automation_config_default ∧
  notification_config_of_empty_table = notification_config_default ∧ update_config_of_empty_table = update_config_default ∧
  rt_default_agent runtime_config_default = "build" ∧ rt_default_agent runtime_config_of_empty_table = "" ∧
  runtime_config_default = mkRuntimeConfig (rt_opencode_version runtime_config_of_empty_table) (rt_startup_timeout_ms runtime_config_of_empty_table)
    (rt_default_provider runtime_config_of_empty_table) (rt_default_model runtime_config_of_empty_table) (rt_small_model runtime_config_of_empty_table)
    "build" (rt_default_effort runtime_config_of_empty_table) (rt_working_directory runtime_config_of_empty_table)
    (rt_auto_compact runtime_config_of_empty_table).
Proof. done. Qed.
End default_sections.

(** ** Command line *)

Section command_line.
Context `{!Environment, !ConfigToml} (diagnostics : string + string) (dry_run : LegacyRoots → string + string).

(** No file is written: one that is new came from another program. *)
Definition unwritten (d d' : Disk) : Prop :=
  di_files d ⊆ di_files d' ∧ (∀ p f, di_files d' !! p = Some f → di_files d !! p = Some f ∨ Arrives p f ∈ di_events d) ∧ di_dirs d' = di_dirs d.
Lemma unwritten_refl d : unwritten d d.
Proof. split_and!; eauto. Qed.
Lemma next_event_unwritten d o d' : next_event d = (o, d') → unwritten d d'.
Proof.
  unfold next_event. destruct d as [files dirs [|[|error written|p f] events]]; simpl; intros [= <- <-]; try (by split_and!; simpl; eauto).
  destruct (files !! p) eqn:Hp; split_and!; simpl; eauto; [by apply insert_subseteq|]. intros q g. rewrite lookup_insert_Some.
  intros [[<- <-]|[_ ?]]; [right; apply list_elem_of_here|by left].
Qed.
Lemma read_unwritten path d o d' : read_to_string path d = (o, d') → unwritten d d'.
Proof.
  unfold read_to_string, disk_call. munfold. destruct (next_event d) as [r d1] eqn:Hn. apply next_event_unwritten in Hn.
  destruct r as [[]| |]; repeat case_match; intros; by simplify_eq/=.
Qed.
(** Every command answers on exactly one stream, the standard output exactly when the exit code is zero, and writes no file. *)
Theorem commands_change_nothing arguments d response d' :
  run_cli diagnostics dry_run arguments d = (response, d') →
  ((cli_exit_code response = 0%Z ∧ cli_stderr response = "") ∨ (cli_exit_code response ≠ 0%Z ∧ cli_stdout response = "")) ∧ unwritten d d'.
Proof.
  intros Hrun. unfold run_cli, config_command, migration_command in Hrun.
  repeat (case_match; simplify_eq/=); (split; [by (left + right)|]); eauto using unwritten_refl, read_unwritten.
Qed.
(** Checking a file that can be read succeeds exactly when it parses to a sound configuration. *)
Theorem configuration_check_is_exact path d f :
  calm d → di_files d !! path = Some f → utf8_valid (bytes (fi_content f)) = true →
  cli_exit_code (run_cli diagnostics dry_run ["config"; "check"; path] d).1 = 0%Z ↔
  ∃ c shape, toml_value (fi_content f) = inr shape ∧ toml_config (fi_content f) = inr c ∧ config_sound c.
Proof.
  intros Hc Hf Hu. destruct (calm_call d Hc) as (events & Hcall & _ & _). unfold run_cli. simpl. unfold read_to_string. munfold. rewrite Hcall. simpl.
  rewrite Hf, Hu. unfold parse_config. destruct (toml_value _) as [e|shape]; [naive_solver|]. destruct (toml_config _) as [e|c]; [naive_solver|].
  pose proof (config_validate_cases c) as Hv. destruct (validate c) as [[]|e|]; simpl; [naive_solver| |done]. apply refusal_excludes in Hv. naive_solver.
Qed.
End command_line.

(** ** Samples *)

Module ConfigSamples.
Local Instance at_home : Environment := {| env_var name := if bool_decide (name = "HOME") then Some "/home/user" else None |}.
(** A library that knows the default configuration and one other, in which every field is written. *)
Definition edited : PersonalAgentConfig :=
  let d := personal_agent_config_default in
  mkPersonalAgentConfig 1 (cf_persona d) (cf_agent d) (cf_runtime d) (cf_privacy d) (cf_ui d) (cf_voice d) (cf_workspace d) (cf_browser d) (cf_memory d)
    (cf_automation d) (cf_notifications d) (cf_updates d)
    (VObject [("provider", VArray [VObject [("options", VObject [("API_Key", VString "value")])]])]) ["keychain://agent/token"] [].
Local Instance toy_toml : ConfigToml := {|
  TomlValue := ();
  toml_get _ _ := Some ();
  toml_value _ := inr ();
  toml_config text := if bool_decide (text = "default") then inr personal_agent_config_default else inr edited;
  toml_render _ := inr "default";
|}.
Lemma toy_toml_renders : DefaultToml.
Proof. constructor. exists "default", (). split_and!; try done; [by repeat constructor|by eexists..]. Qed.

Definition parent (path : string) : option string := Some "/etc".
(** Another program is writing its configuration while the profile is created. *)
Definition raced : Disk :=
  mkDisk {[ "/etc/other" := mkFile "other" 420 ]} ∅ [Calm; Calm; Arrives "/etc/config.toml" (mkFile "default" 384)].
Example race_is_read_back :
  (load_or_initialize_config parent "/etc/config.toml" raced).1 = Ok (mkConfigLoad personal_agent_config_default []).
Proof. by vm_compute. Qed.

Definition fresh_disk : Disk := mkDisk ∅ ∅ [Calm].
Lemma fresh_profiles_start_with_defaults_witness :
  ∃ text d' d'', default_config_toml = Ok text ∧
    load_or_initialize_config parent "c" fresh_disk = (Ok (mkConfigLoad personal_agent_config_default []), d') ∧
    di_files d' = <["c" := mkFile text 384]> ∅ ∧
    load_or_initialize_config parent "c" d' = (Ok (mkConfigLoad personal_agent_config_default []), d'') ∧ di_files d'' = di_files d'.
Proof. apply (@fresh_profiles_start_with_defaults _ _ toy_toml_renders parent "c" fresh_disk); [by repeat constructor|done]. Defined.

(** A credential inside a list of providers is found, however its key is written. *)
Example nested_credentials_are_refused : validate edited = Err UnsafeOpenCodeConfig.
Proof. by vm_compute. Qed.
(** A command that is not text is taken for the default one. *)
Example unreadable_commands_report_status :
  cli_exit_code (run_cli (inr "ok") (λ _, inl "") [of_bytes [ascii_of_N 255]] fresh_disk).1 = 0%Z ∧
  cli_exit_code (run_cli (inr "ok") (λ _, inl "") ["unknown"] fresh_disk).1 = 2%Z.
Proof. by vm_compute. Qed.
End ConfigSamples.
