(* ===== verification/McpHost.v ===== *)
(** * MCP host

    Models the crate [crates/mcp-host]: host policy and backoff ([config.rs]), the log ring
    ([logs.rs]), credential lookup ([secrets.rs]), sanitized failures ([error.rs]), the translation of
    advertised capabilities ([catalog.rs]), transports and sessions ([session.rs]), the HTTP client
    ([http_client.rs]) and the host with the adapters it gives the manager ([lib.rs]).  The MCP SDK,
    child processes, HTTP and clocks are the interface [Sdk]; a call the code waits for with a deadline
    either completes or expires. *)

From stdpp Require Import base gmap strings list sorting pretty.
From Stdlib Require Import Ascii.
From S2P Require Import Prelude Text Contracts McpModel McpManager.

(** ** Policy *)

Definition DEFAULT_ENVIRONMENT_ALLOWLIST : list string :=
  ["APPDATA"; "COMSPEC"; "HOME"; "LANG"; "LC_ALL"; "LOCALAPPDATA"; "PATH"; "PATHEXT"; "PROGRAMFILES"; "SYSTEMROOT"; "TEMP"; "TMP"; "TMPDIR";
   "TZ"; "USERPROFILE"].
(** Durations are nanoseconds; a [Duration] holds at most [u64::MAX] seconds. *)
Definition millis (n : N) : N := (n * 1000000)%N.
Definition duration_max : N := (u64_max * 1000000000 + 999999999)%N.
Record BackoffPolicy : Type := mkBackoffPolicy { bp_attempts : N; bp_initial : N; bp_maximum : N }.
Definition backoff_default : BackoffPolicy := mkBackoffPolicy 3 (millis 250) (millis 8000).
Definition delay (p : BackoffPolicy) (attempt : N) : N :=
  if (attempt <=? 1)%N then 0%N
  else N.min (N.min duration_max (bp_initial p * N.shiftl 1 (N.min (attempt - 2) 16))) (bp_maximum p).
Record HostConfig : Type := mkHostConfig {
  hc_working_directory : string;
  hc_environment_allowlist : gset string;
  hc_connect_timeout : N;
  hc_request_timeout : N;
  hc_backoff : BackoffPolicy;
  hc_client_name : string;
  hc_client_version : string;
}.
Definition host_config_new (working_directory : string) : HostConfig :=
  mkHostConfig working_directory (list_to_set DEFAULT_ENVIRONMENT_ALLOWLIST) (millis 30000) (millis 60000) backoff_default "Personal Agent" "0.1.0".
Definition inherited_environment `{!Environment} (config : HostConfig) : list (string * string) :=
  omap (λ name, (λ value, (name, value)) <$> env_var name) (merge_sort str_le (elements (hc_environment_allowlist config))).

(** ** Logs *)

Definition MAX_LINE_BYTES : nat := 2000.
Inductive HostLogLevel : Type := HInfo | HWarn | HError.
Record LogLine : Type := mkLogLine { ll_at : DateTime; ll_level : HostLogLevel; ll_message : string }.
Definition is_char_boundary (l : list ascii) (index : nat) : bool :=
  (index =? 0) || (index =? length l) || match l !! index with Some c => negb (is_continuation c) | None => false end.
(** The last boundary at or before an index. *)
Fixpoint boundary_before (l : list ascii) (index : nat) : nat :=
  if is_char_boundary l index then index else match index with O => 0 | S index => boundary_before l index end.
Definition ellipsis : list ascii := ascii_of_N <$> [226; 128; 166]%N.
Definition bounded_message (message : string) : string :=
  if MAX_LINE_BYTES <? str_len message
  then of_bytes (take (boundary_before (bytes message) MAX_LINE_BYTES) (bytes message) ++ ellipsis) else message.
Definition LogRing : Type := list LogLine.
Definition ring_push (ring : LogRing) (at_ : DateTime) (level : HostLogLevel) (message : string) : LogRing :=
  (if length ring =? MAX_SERVER_LOGS then drop 1 ring else ring) ++ [mkLogLine at_ level (bounded_message message)].

(** ** Failures *)

Definition adapter_error (code message : string) : AdapterError := mkAdapterError code message false.
Definition authentication_error (message : string) : AdapterError := mkAdapterError "authentication_required" message true.
Definition not_connected : AdapterError := adapter_error "not_connected" "This MCP server is not connected.".
Definition not_initialized : AdapterError :=
  adapter_error "not_initialized" "The MCP server did not return initialization details.".
Definition timed_out : AdapterError := adapter_error "timeout" "The MCP server did not answer in time.".
Inductive ServiceError : Type :=
  | McpError (message : string) | ServiceTimeout | ServiceCancelled | ServiceOther (detail : string).
Definition service_error (error : ServiceError) : AdapterError :=
  match error with
  | McpError message => mkAdapterError "server_error" message false
  | ServiceTimeout => timed_out
  | ServiceCancelled => adapter_error "cancelled" "The MCP request was cancelled."
  | ServiceOther _ => adapter_error "transport_failed" "The MCP session is no longer usable."
  end.
Definition asks_for_sign_in (detail : string) : bool :=
  str_contains (to_ascii_lowercase detail) "unauthorized" || str_contains (to_ascii_lowercase detail) "auth required".

(** ** Catalogs *)

Record SdkAnnotations : Type := mkSdkAnnotations {
  sa_title : option string; sa_read_only_hint : option bool; sa_destructive_hint : option bool; sa_idempotent_hint : option bool;
  sa_open_world_hint : option bool;
}.
Record SdkTool : Type := mkSdkTool {
  st_name : string; st_title : option string; st_description : option string; st_input_schema : list (string * Value);
  st_output_schema : option (list (string * Value)); st_annotations : option SdkAnnotations;
}.
Record SdkResource : Type := mkSdkResource {
  sr_uri : string; sr_name : string; sr_description : option string; sr_mime_type : option string;
}.
Record SdkArgument : Type := mkSdkArgument { sg_name : string; sg_description : option string; sg_required : option bool }.
Record SdkPrompt : Type := mkSdkPrompt { sp_name : string; sp_description : option string; sp_arguments : option (list SdkArgument) }.
(** The capabilities that are read; of the resources, whether they can be subscribed to. *)
Record SdkCapabilities : Type := mkSdkCapabilities {
  sc_logging : bool; sc_completions : bool; sc_tools : bool; sc_prompts : bool; sc_resources : option (option bool);
}.
Record ServerInfo : Type := mkServerInfo { si_protocol_version : string; si_capabilities : SdkCapabilities }.

Definition annotations_default : ToolAnnotations := mkToolAnnotations false false false false.
Definition tool_annotations (tool : SdkTool) : ToolAnnotations :=
  match st_annotations tool with
  | None => annotations_default
  | Some a =>
    let read_only := default false (sa_read_only_hint a) in
    mkToolAnnotations read_only (negb read_only && default false (sa_destructive_hint a))
      (read_only || default false (sa_idempotent_hint a)) (default false (sa_open_world_hint a))
  end.
Definition tool_title (tool : SdkTool) : option string :=
  match st_title tool with Some title => Some title | None => st_annotations tool ≫= sa_title end.
Definition tool_descriptor (namespace : string) (tool : SdkTool) : ToolDescriptor :=
  mkToolDescriptor (st_name tool) (tool_title tool) (default "" (st_description tool)) (VObject (st_input_schema tool))
    (VObject <$> st_output_schema tool) (tool_annotations tool) (namespace +:+ "." +:+ st_name tool).
Definition resource_descriptor (r : SdkResource) : ResourceDescriptor :=
  mkResourceDescriptor (sr_uri r) (sr_name r) (default "" (sr_description r)) (sr_mime_type r).
Definition arguments_schema (arguments : list SdkArgument) : Value :=
  let required := (λ a, VString (sg_name a)) <$> filter (λ a, default false (sg_required a) = true) arguments in
  let properties := object_of ((λ a,
    (sg_name a, object_of [("type", VString "string"); ("description", VString (default "" (sg_description a)))])) <$> arguments) in
  object_of [("type", VString "object"); ("properties", properties); ("required", VArray required)].
Definition prompt_descriptor (p : SdkPrompt) : PromptDescriptor :=
  mkPromptDescriptor (sp_name p) (default "" (sp_description p)) (arguments_schema <$> sp_arguments p).
Definition capability_catalog (namespace : string) (capabilities : SdkCapabilities) (tools : list SdkTool) (resources : list SdkResource)
    (prompts : list SdkPrompt) : CapabilityCatalog :=
  mkCapabilityCatalog (tool_descriptor namespace <$> tools) (resource_descriptor <$> resources) (prompt_descriptor <$> prompts)
    (sc_logging capabilities) (sc_completions capabilities) (default false (mjoin (sc_resources capabilities))).

(** ** The SDK *)

(** A client the SDK runs: its handle and what the server said of itself. *)
Record Client : Type := mkClient { cl_handle : N; cl_peer_info : option ServerInfo }.
Record ClientInfo : Type := mkClientInfo { ci_name : string; ci_version : string; ci_protocol_version : string }.
(** A process as it is started: nothing is inherited but what is listed. *)
Record Command : Type := mkCommand { co_program : string; co_args : list string; co_env : gmap string string; co_directory : string }.
Record HttpTransport : Type := mkHttpTransport { ht_endpoint : string; ht_stateless : bool; ht_headers : gmap string string }.
Record CallResult : Type := mkCallResult { cr_is_error : option bool; cr_encoded : option Value }.
(** The outcome of waiting with a deadline. *)
Inductive awaited (A : Type) : Type := Expired | Done (a : A).
Arguments Expired {A}.
Arguments Done {A} a.
Class Sdk (W : Type) : Type := {
  sdk_spawn : Command → W → (string + N) * W;
  sdk_serve_process : N → ClientInfo → W → awaited (string + Client) * W;
  sdk_serve_http : HttpTransport → ClientInfo → W → awaited (string + Client) * W;
  sdk_list_tools : Client → W → awaited (ServiceError + list SdkTool) * W;
  sdk_list_resources : Client → W → awaited (ServiceError + list SdkResource) * W;
  sdk_list_prompts : Client → W → awaited (ServiceError + list SdkPrompt) * W;
  sdk_ping : Client → W → awaited (ServiceError + ()) * W;
  sdk_call_tool : Client → string → option (list (string * Value)) → W → awaited (ServiceError + CallResult) * W;
  sdk_drop : Client → W → W;
  sdk_sleep : N → W → W;
  (** [Instant::now] in microseconds and [Utc::now]. *)
  sdk_instant : W → N * W;
  sdk_utc : W → DateTime * W;
  (** The revision the SDK reads from a text, its default where it cannot. *)
  sdk_protocol : string → string;
  (** A header name in its canonical form; whether a value is allowed; whether a client with these headers can be built. *)
  header_name : string → option string;
  header_value_ok : string → bool;
  client_builds : gmap string string → bool;
}.
Class SecretResolver (W : Type) : Type := { resolve : KeychainReference → W → (AdapterError + string) * W }.

Definition missing_secret (code : string) (reference : KeychainReference) : AdapterError :=
  mkAdapterError code
    ("No keychain value is configured for " +:+ kr_reference_id reference +:+ ". Add the secret with keychain setup, then reconnect.") true.
Definition UnconfiguredSecrets {W} : SecretResolver W := {| resolve reference w := (inl (missing_secret "keychain_unavailable" reference), w) |}.
Definition InMemorySecrets {W} (values : gmap string string) : SecretResolver W := {|
  resolve reference w :=
    (match values !! kr_reference_id reference with Some value => inr value | None => inl (missing_secret "keychain_missing" reference) end, w)
|}.

(** ** Sessions *)

Section host.
Context {W : Type} `{!Sdk W, !SecretResolver W, !Environment}.
Record Session : Type := mkSession { se_client : Client; se_handshake : RuntimeHandshake }.
Record HostState : Type := mkHostState { ho_sessions : gmap Uuid Session; ho_logs : gmap Uuid LogRing; ho_world : W }.
Global Instance HostState_eta : Eta HostState := λ s, mkHostState (ho_sessions s) (ho_logs s) (ho_world s).

(** A call that can also expire: [None] is the expiry, left to the surrounding [timeout]. *)
Notation HM := (M HostState (option AdapterError)).
Notation AM := (M HostState AdapterError).
Definition on_world {E A} (f : W → A * W) : M HostState E A := λ s,
  let '(a, w) := f (ho_world s) in (Ok a, mkHostState (ho_sessions s) (ho_logs s) w).
Definition fail {A} (error : AdapterError) : HM A := throw (Some error).
Definition await_ {A} (f : W → awaited A * W) : HM A :=
  r ← on_world f; match r with Done a => mret a | Expired => throw None end.
Definition timeout {A} (expired : AdapterError) (m : HM A) : AM A := map_err (default expired) m.

(** [Registry::log] creates the ring on first use. *)
Definition ensure_log {E} (id : Uuid) : M HostState E () :=
  modify (λ s, s <| ho_logs ::= λ logs, match logs !! id with Some _ => logs | None => <[id := []]> logs end |>).
Definition record {E} (id : Uuid) (level : HostLogLevel) (message : string) : M HostState E () :=
  at_ ← on_world sdk_utc; modify (λ s, s <| ho_logs ::= alter (λ ring, ring_push ring at_ level message) id |>).
Definition resolve_binding (value : BindingValue) : HM string :=
  match value with
  | NonSecret value => mret value
  | Keychain reference => r ← on_world (resolve reference); match r with inr secret => mret secret | inl error => fail error end
  end.
Definition initialize_error {A} (id : Uuid) (detail : string) : HM A :=
  _ ← record id HError ("initialize: " +:+ detail);
  fail (if asks_for_sign_in detail then authentication_error "This MCP server requires sign-in before it will connect."
        else adapter_error "initialize_failed" "The MCP server did not complete initialization.").

Definition client_info (config : HostConfig) (d : ServerDefinition) : ClientInfo :=
  mkClientInfo (hc_client_name config) (hc_client_version config) (sdk_protocol (sd_preferred_protocol d)).
Fixpoint header_map_go (headers : list Binding) (map : gmap string string) : HM (gmap string string) :=
  match headers with
  | [] => mret map
  | binding :: headers =>
    match header_name (bi_name binding) with
    | None => fail (adapter_error "invalid_header" "A header binding name is not valid.")
    | Some name =>
      value ← resolve_binding (bi_value binding);
      if header_value_ok value then header_map_go headers (<[name := value]> map)
      else fail (adapter_error "invalid_header" "A header binding value is not valid.")
    end
  end.
Definition header_map (headers : list Binding) : HM (gmap string string) := header_map_go headers ∅.
Definition http_client (headers : list Binding) : HM (gmap string string) :=
  map ← header_map headers;
  if client_builds map then mret map else fail (adapter_error "transport_failed" "The HTTP client could not be created.").

Fixpoint bind_environment (environment : list Binding) (env : gmap string string) : HM (gmap string string) :=
  match environment with
  | [] => mret env
  | binding :: environment => value ← resolve_binding (bi_value binding); bind_environment environment (<[bi_name binding := value]> env)
  end.
Definition stdio_command (config : HostConfig) (executable : string) (arguments : list string) (working_directory : option string)
    (environment : list Binding) : HM Command :=
  if is_blank executable then fail (adapter_error "invalid_definition" "The server command is empty.")
  else
    env ← bind_environment environment (list_to_map (reverse (inherited_environment config)));
    mret (mkCommand executable arguments env (default (hc_working_directory config) working_directory)).

Definition serve_stdio (config : HostConfig) (d : ServerDefinition) (executable : string) (arguments : list string)
    (working_directory : option string) (environment : list Binding) : HM Client :=
  command ← stdio_command config executable arguments working_directory environment;
  spawned ← on_world (sdk_spawn command);
  match spawned with
  | inl error =>
    _ ← record (sd_id d) HError ("spawn failed: " +:+ error); fail (adapter_error "spawn_failed" "The MCP server process could not start.")
  | inr process =>
    r ← await_ (sdk_serve_process process (client_info config d));
    match r with inr client => mret client | inl detail => initialize_error (sd_id d) detail end
  end.
Definition serve_streamable_http (config : HostConfig) (d : ServerDefinition) (endpoint : string) (stateless : bool) (headers : list Binding)
    : HM Client :=
  client_headers ← http_client headers;
  r ← await_ (sdk_serve_http (mkHttpTransport endpoint stateless client_headers) (client_info config d));
  match r with inr client => mret client | inl detail => initialize_error (sd_id d) detail end.
Definition refuse_legacy_sse {A} (id : Uuid) : HM A :=
  _ ← record id HError "legacy HTTP+SSE is not supported; use the Streamable HTTP endpoint";
  fail (adapter_error "transport_unsupported"
    "This server is configured for the deprecated HTTP+SSE transport, which is no longer supported. Point the server at its Streamable HTTP endpoint instead.").
Definition serve (config : HostConfig) (d : ServerDefinition) : HM Client :=
  match sd_transport d with
  | Stdio executable arguments working_directory environment => serve_stdio config d executable arguments working_directory environment
  | StreamableHttp endpoint stateless headers _ => serve_streamable_http config d endpoint stateless headers
  | LegacySse _ _ _ => refuse_legacy_sse (sd_id d)
  end.
(** A child writes a line to its standard error, at any time. *)
Definition pump_stderr (id : Uuid) (line : string) : AM () := record id HWarn line.

Definition listed {A} (advertised : bool) (f : W → awaited (ServiceError + list A) * W) : HM (list A) :=
  if advertised then r ← await_ f; match r with inr l => mret l | inl error => fail (service_error error) end else mret [].
Definition read_catalog (client : Client) (namespace : string) : HM CapabilityCatalog :=
  match cl_peer_info client with
  | None => fail not_initialized
  | Some info =>
    let capabilities := si_capabilities info in
    tools ← listed (sc_tools capabilities) (sdk_list_tools client);
    resources ← listed (bool_decide (is_Some (sc_resources capabilities))) (sdk_list_resources client);
    prompts ← listed (sc_prompts capabilities) (sdk_list_prompts client);
    mret (capability_catalog namespace capabilities tools resources prompts)
  end.
Definition server_protocols (client : Client) : AM (gset string) :=
  match cl_peer_info client with
  | None => throw not_initialized
  | Some info =>
    match protocol_version_new (si_protocol_version info) with
    | Ok version => mret {[version]}
    | _ => throw (adapter_error "protocol_mismatch" "The MCP server reported an unusable protocol revision.")
    end
  end.

(** ** The host *)

Definition drop_client {E} (client : Client) : M HostState E () :=
  modify (λ s, s <| ho_world ::= sdk_drop client |>).
(** The client is dropped where [m] returns early. *)
Definition owning {A} (client : Client) (m : AM A) : AM A := λ s,
  match m s with (Ok a, s) => (Ok a, s) | (r, s) => (r, (drop_client (E := AdapterError) client s).2) end.
Definition elapsed_ms (started now : N) : N :=
  let micros := N.min u64_max (now - started) in N.max 1 ((micros + 999) / 1000).
Definition store (id : Uuid) (session : Session) : AM () :=
  s ← get;
  _ ← match ho_sessions s !! id with Some old => drop_client (se_client old) | None => mret () end;
  modify (λ s, s <| ho_sessions ::= <[id := session]> |>).
Definition disconnect_inner (id : Uuid) (reason : string) : AM () :=
  s ← get;
  match ho_sessions s !! id with
  | Some session =>
    _ ← modify (λ s, s <| ho_sessions ::= delete id |>); _ ← drop_client (se_client session); record id HInfo reason
  | None => mret ()
  end.
Definition handshake_of (config : HostConfig) (d : ServerDefinition) (client : Client) (started : N) : AM RuntimeHandshake :=
  protocols ← server_protocols client;
  catalog ← timeout timed_out (read_catalog client (sd_namespace d));
  finished ← on_world sdk_instant;
  mret (mkRuntimeHandshake protocols catalog (elapsed_ms started finished)).
Definition attempt_connect (config : HostConfig) (d : ServerDefinition) : AM RuntimeHandshake :=
  started ← on_world sdk_instant;
  client ← timeout timed_out (serve config d);
  handshake ← owning client (handshake_of config d client started);
  _ ← record (sd_id d) HInfo
        ("connected over " +:+ label (sd_transport d) +:+ " in " +:+ pretty (rh_latency_ms handshake) +:+ " ms");
  _ ← store (sd_id d) (mkSession client handshake);
  mret handshake.
Fixpoint try_attempts (config : HostConfig) (d : ServerDefinition) (attempts : list N) (failure : option AdapterError) : AM RuntimeHandshake :=
  match attempts with
  | [] => throw (default (adapter_error "connect_failed" "The MCP server did not connect.") failure)
  | attempt :: attempts => λ s,
    let s := if (delay (hc_backoff config) attempt =? 0)%N then s
             else s <| ho_world ::= sdk_sleep (delay (hc_backoff config) attempt) |> in
    match attempt_connect config d s with
    | (Ok handshake, s) => (Ok handshake, s)
    | (Err error, s) =>
      if er_authentication_required error then (Err error, s)
      else (_ ← record (sd_id d) HWarn ("connect attempt " +:+ pretty attempt +:+ " failed: " +:+ er_code error);
            try_attempts config d attempts (Some error)) s
    | (Panic, s) => (Panic, s)
    end
  end.
Definition attempt_numbers (config : HostConfig) : list N :=
  (λ n, N.of_nat n + 1)%N <$> seq 0 (N.to_nat (N.max (bp_attempts (hc_backoff config)) 1)).
Definition connect (config : HostConfig) (d : ServerDefinition) : AM RuntimeHandshake :=
  _ ← ensure_log (sd_id d); _ ← disconnect_inner (sd_id d) "reconnecting"; try_attempts config d (attempt_numbers config) None.
Definition with_session (id : Uuid) : AM Session :=
  s ← get; match ho_sessions s !! id with Some session => mret session | None => throw not_connected end.
Definition health (d : ServerDefinition) : AM N :=
  _ ← ensure_log (sd_id d);
  started ← on_world sdk_instant;
  session ← with_session (sd_id d);
  answered ← on_world (sdk_ping (se_client session));
  match answered with
  | Expired => _ ← record (sd_id d) HError "ping timed out"; throw (adapter_error "transport_failed" "The MCP session is no longer usable.")
  | Done (inl error) => throw (service_error error)
  | Done (inr _) =>
    finished ← on_world sdk_instant;
    _ ← record (sd_id d) HInfo ("ping answered in " +:+ pretty (elapsed_ms started finished) +:+ " ms");
    mret (elapsed_ms started finished)
  end.
Definition call_arguments (arguments : Value) : AM (option (list (string * Value))) :=
  match arguments with
  | VNull => mret None
  | VObject map => mret (Some map)
  | _ => throw (adapter_error "invalid_arguments" "MCP tool arguments must be a JSON object.")
  end.
Definition call_tool (d : ServerDefinition) (tool : string) (arguments : Value) : AM Value :=
  parameters ← call_arguments arguments;
  session ← with_session (sd_id d);
  answered ← on_world (sdk_call_tool (se_client session) tool parameters);
  match answered with
  | Expired => throw (adapter_error "timeout" "The MCP tool did not answer in time.")
  | Done (inl error) => throw (service_error error)
  | Done (inr result) =>
    if default false (cr_is_error result) then throw (adapter_error "tool_error" "The MCP server reported a tool failure.")
    else match cr_encoded result with
    | Some value => mret value
    | None => throw (adapter_error "invalid_result" "The MCP tool result was not encodable.")
    end
  end.
Definition disconnect (d : ServerDefinition) : AM () := _ ← ensure_log (sd_id d); disconnect_inner (sd_id d) "disconnected".
Definition is_connected (id : Uuid) (s : HostState) : bool := bool_decide (is_Some (ho_sessions s !! id)).
Definition host_logs (id : Uuid) : AM LogRing := _ ← ensure_log id; s ← get; mret (default [] (ho_logs s !! id)).
(** [Drop for McpHost] clears the sessions. *)
Definition drop_host (s : HostState) : HostState :=
  mkHostState ∅ (ho_logs s) (foldr (λ session, sdk_drop (se_client session)) (ho_world s) (values (ho_sessions s))).

(** The adapter the manager is given. *)
Definition HostAdapter (config : HostConfig) : RuntimeAdapter HostState := mkRuntimeAdapter (connect config) health disconnect.
End host.
Arguments HostState : clear implicits.

(** An outcome that is already known, handed to the manager. *)
Record ResolvedAdapter : Type := mkResolvedAdapter { rs_connect : option (AdapterError + RuntimeHandshake); rs_health : AdapterError + N }.
Definition resolved_connected (outcome : AdapterError + RuntimeHandshake) : ResolvedAdapter :=
  mkResolvedAdapter (Some outcome) (match outcome with inr handshake => inr (rh_latency_ms handshake) | inl error => inl error end).
Definition resolved_measured (outcome : AdapterError + N) : ResolvedAdapter := mkResolvedAdapter None outcome.
Definition resolved_disconnected : ResolvedAdapter := mkResolvedAdapter None (inl not_connected).
Definition as_outcome {E A} (r : E + A) : outcome E A := match r with inr a => Ok a | inl e => Err e end.
Definition resolved_adapter : RuntimeAdapter ResolvedAdapter :=
  mkRuntimeAdapter
    (λ _ r, (as_outcome (default (inl (adapter_error "not_initialized" "The MCP handshake was unavailable.")) (rs_connect r)),
             mkResolvedAdapter None (rs_health r)))
    (λ _ r, (as_outcome (rs_health r), r))
    (λ _ r, (Ok (), r)).

(** ** The HTTP client *)

Definition EVENT_STREAM_MIME_TYPE : string := "text/event-stream".
Definition JSON_MIME_TYPE : string := "application/json".
(** A request with the headers it sets; the bindings of the session are defaults of the client underneath. *)
Record McpRequest : Type := mkMcpRequest {
  mq_method : string; mq_uri : string; mq_accept : option string; mq_session : option string; mq_last_event : option string;
  mq_bearer : option string; mq_custom : list (string * string); mq_body : option Value;
}.
(** What is read of a response; a header that is not text is present without a value. *)
Record McpResponse : Type := mkMcpResponse {
  mp_status : N; mp_content_type : option string; mp_session : option (option string); mp_www_authenticate : option (option string);
  mp_json : string + Value;
}.
Inductive StreamableHttpError : Type :=
  | ClientError (detail : string)
  | StatusError (status : N)
  | ServerDoesNotSupportSse
  | UnexpectedContentType (mime : option string)
  | UnexpectedServerResponse (detail : string)
  | AuthRequired (header : string).
Inductive PostResponse : Type :=
  | PostAccepted
  | PostSse (session_id : option string)
  | PostJson (message : Value) (session_id : option string).

Definition accept_stream_or_json : string := join ", " [EVENT_STREAM_MIME_TYPE; JSON_MIME_TYPE].
Definition accepts_stream_or_json (mime : option string) : bool :=
  match mime with Some mime => str_starts_with EVENT_STREAM_MIME_TYPE mime || str_starts_with JSON_MIME_TYPE mime | None => false end.
(** [Response::error_for_status]: client and server errors. *)
Definition error_for_status (r : McpResponse) : outcome StreamableHttpError () :=
  if in_range 400 599 (mp_status r) then Err (StatusError (mp_status r)) else Ok ().
Definition authorization_challenge (r : McpResponse) : outcome StreamableHttpError () :=
  if negb (mp_status r =? 401)%N then Ok ()
  else match mp_www_authenticate r with
  | None => Ok ()
  | Some None => Err (UnexpectedServerResponse "invalid www-authenticate header")
  | Some (Some header) => Err (AuthRequired header)
  end.
Definition post_response (r : McpResponse) : outcome StreamableHttpError PostResponse :=
  _ ← authorization_challenge r; _ ← error_for_status r;
  if (mp_status r =? 202)%N || (mp_status r =? 204)%N then Ok PostAccepted
  else match mp_content_type r with
  | Some mime =>
    if str_starts_with EVENT_STREAM_MIME_TYPE mime then Ok (PostSse (mjoin (mp_session r)))
    else if str_starts_with JSON_MIME_TYPE mime
    then match mp_json r with inr message => Ok (PostJson message (mjoin (mp_session r))) | inl error => Err (ClientError error) end
    else Err (UnexpectedContentType (Some mime))
  | None => Err (UnexpectedContentType None)
  end.

Section http.
Context {W : Type} (send : McpRequest → W → (string + McpResponse) * W).
Notation PM := (M W StreamableHttpError).
Definition send_request (q : McpRequest) : PM McpResponse := λ w,
  match send q w with (inr r, w) => (Ok r, w) | (inl error, w) => (Err (ClientError error), w) end.
Definition post_message (uri : string) (message : Value) (session_id auth_header : option string) (custom_headers : list (string * string))
    : PM PostResponse :=
  response ← send_request (mkMcpRequest "POST" uri (Some accept_stream_or_json) session_id None auth_header custom_headers (Some message));
  lift (post_response response).
Definition delete_session (uri session_id : string) (auth_header : option string) (custom_headers : list (string * string)) : PM () :=
  response ← send_request (mkMcpRequest "DELETE" uri None (Some session_id) None auth_header custom_headers None);
  if (mp_status response =? 405)%N then mret () else lift (error_for_status response).
Definition get_stream (uri : string) (session_id last_event_id auth_header : option string) (custom_headers : list (string * string)) : PM () :=
  response ← send_request (mkMcpRequest "GET" uri (Some accept_stream_or_json) session_id last_event_id auth_header custom_headers None);
  _ ← reject_if (mp_status response =? 405)%N ServerDoesNotSupportSse;
  _ ← lift (error_for_status response);
  reject_if (negb (accepts_stream_or_json (mp_content_type response))) (UnexpectedContentType (mp_content_type response)).
End http.
