(* ===== verification/McpHostSpec.v ===== *)
(** * MCP host: theorems

    Logs are bounded and stay text; reconnection delays double up to their bound; a child process sees
    only the allowed environment; the live clients are exactly the registered sessions, one per
    server, whatever the servers do; failures are sanitized; the manager and the host agree. *)

From stdpp Require Import base gmap strings list sorting pretty.
From Stdlib Require Import Ascii.
From S2P Require Import Prelude Text Contracts McpModel McpManager McpHost.

(** ** Text *)

Lemma in_range_continuation lo hi c : (0x80 ≤ lo)%N → (hi ≤ 0xBF)%N → in_range lo hi (byte_val c) = true → is_continuation c = true.
Proof. unfold is_continuation, in_range. rewrite !andb_true_iff, !N.leb_le. lia. Qed.
(** The first character of a text, and what a text that starts with it is. *)
Lemma utf8_first a l : utf8_valid (a :: l) = true →
  ∃ tail rest, l = tail ++ rest ∧ Forall (λ c, is_continuation c = true) tail ∧ ∀ r, utf8_valid (a :: tail ++ r) = utf8_valid r.
Proof.
  intros Hv. cbn [utf8_valid] in Hv. destruct (byte_val a <? 0x80)%N eqn:H1.
  { exists [], l. split_and!; [done..|]. intros r. cbn [utf8_valid app]. by rewrite H1. }
  destruct l as [|b l]; [done|]. destruct (in_range 0xC2 0xDF (byte_val a)) eqn:H2.
  { apply andb_true_iff in Hv as [Hb _]. exists [b], l. split_and!; [done|by repeat constructor|]. intros r. cbn [utf8_valid app]. by rewrite H1, H2, Hb. }
  destruct l as [|c l]; [done|].
  destruct (byte_val a =? 0xE0)%N eqn:H3; [|destruct (byte_val a =? 0xED)%N eqn:H4; [|destruct (in_range 0xE1 0xEF (byte_val a)) eqn:H5]].
  1-3: apply andb_true_iff in Hv as [[Hb Hc]%andb_true_iff _]; exists [b; c], l;
    (split_and!; [done|repeat constructor; try done; try (by eapply in_range_continuation; [| |exact Hb])|]); intros r; cbn [utf8_valid app];
    rewrite H1, H2, H3, ?H4, ?H5, Hb, Hc; done.
  destruct l as [|d l]; [done|].
  apply andb_true_iff in Hv as [[[Hb Hc]%andb_true_iff Hd]%andb_true_iff _]. exists [b; c; d], l. split_and!; [done| |].
  - repeat constructor; try done. destruct (byte_val a =? 0xF0)%N; [by eapply in_range_continuation; [| |exact Hb]|].
    destruct (byte_val a =? 0xF4)%N; [by eapply in_range_continuation; [| |exact Hb]|]. by apply andb_true_iff in Hb as [_ ?].
  - intros r. cbn [utf8_valid app]. rewrite H1, H2, H3, H4, H5, Hb, Hc, Hd. done.
Qed.
Lemma utf8_app a b : utf8_valid a = true → utf8_valid (a ++ b) = utf8_valid b.
Proof.
  remember (length a) as n eqn:Hn. revert a Hn. induction (lt_wf n) as [n _ IH]. intros [|c a] -> Ha; [done|].
  destruct (utf8_first c a Ha) as (tail & rest & -> & _ & Hr). rewrite <- app_comm_cons, <- app_assoc, Hr. rewrite Hr in Ha.
  eapply IH; [|done|done]. simpl. rewrite length_app. lia.
Qed.
Lemma utf8_take l n : utf8_valid l = true → is_char_boundary l n = true → utf8_valid (take n l) = true.
Proof.
  remember (length l) as k eqn:Hk. revert l n Hk. induction (lt_wf k) as [k _ IH]. intros [|c l] n -> Hl Hb; [by rewrite take_nil|].
  destruct n as [|n]; [done|]. destruct (utf8_first c l Hl) as (tail & rest & -> & Hc & Hr). rewrite firstn_cons.
  assert (length tail ≤ n) as Hge.
  { destruct (decide (length tail ≤ n)) as [|Hlt]; [done|]. exfalso. unfold is_char_boundary in Hb. simpl in Hb.
    destruct (lookup_lt_is_Some_2 tail n) as [d Hd]; [lia|]. rewrite lookup_app_l, Hd in Hb by lia.
    rewrite Forall_lookup in Hc. rewrite (Hc _ _ Hd) in Hb. simpl in Hb. rewrite orb_false_r, Nat.eqb_eq, length_app in Hb. lia. }
  rewrite take_app_ge, Hr by done. rewrite Hr in Hl. eapply (IH (length rest)); [simpl; rewrite length_app; lia|done|done|].
  unfold is_char_boundary in *. simpl in Hb. rewrite lookup_app_r, length_app in Hb by done.
  rewrite !orb_true_iff, Nat.eqb_eq in Hb. rewrite !orb_true_iff, !Nat.eqb_eq. destruct Hb as [?|?]; [left; right; lia|by right].
Qed.
Lemma boundary_before_spec l n : is_char_boundary l (boundary_before l n) = true ∧ boundary_before l n ≤ n.
Proof. induction n as [|n [IH Hle]]; simpl; [done|]. destruct (is_char_boundary l (S n)) eqn:Hb; [done|]. split; [done|lia]. Qed.

(** ** Logs *)

Lemma ellipsis_valid : utf8_valid ellipsis = true.
Proof. done. Qed.
Lemma bounded_message_bound message : str_len (bounded_message message) ≤ MAX_LINE_BYTES + 3.
Proof.
  unfold bounded_message. destruct (Nat.ltb_spec MAX_LINE_BYTES (str_len message)); [|lia]. unfold str_len. rewrite bytes_of_bytes, length_app, length_take.
  destruct (boundary_before_spec (bytes message) MAX_LINE_BYTES) as [_ ?]. change (length ellipsis) with 3. lia.
Qed.
Lemma bounded_message_valid message : utf8_valid (bytes message) = true → utf8_valid (bytes (bounded_message message)) = true.
Proof.
  intros Hm. unfold bounded_message. destruct (_ <? _); [|done]. rewrite bytes_of_bytes, utf8_app; [done|].
  apply utf8_take; [done|]. apply boundary_before_spec.
Qed.
(** The lines of a ring: at most the limit, each a text within its bound. *)
Definition ring_ok (ring : LogRing) : Prop :=
  length ring ≤ MAX_SERVER_LOGS ∧ Forall (λ line, str_len (ll_message line) ≤ MAX_LINE_BYTES + 3) ring.
Lemma ring_push_ok ring at_ level message : ring_ok ring → ring_ok (ring_push ring at_ level message).
Proof.
  intros [Hl Hall]. unfold ring_push. destruct (Nat.eqb_spec (length ring) MAX_SERVER_LOGS); split.
  - rewrite length_app, length_drop. cbn [length]. unfold MAX_SERVER_LOGS in *. lia.
  - apply Forall_app. split; [by apply Forall_drop|]. constructor; [apply bounded_message_bound|done].
  - rewrite length_app. cbn [length]. unfold MAX_SERVER_LOGS in *. lia.
  - apply Forall_app. split; [done|]. constructor; [apply bounded_message_bound|done].
Qed.
(** Whatever is logged, the ring holds exactly the latest lines, oldest first, each cut at a character boundary. *)
Theorem log_ring_keeps_the_latest_lines entries :
  let pushed := (λ e, mkLogLine e.1.1 e.1.2 (bounded_message e.2)) <$> entries in
  foldl (λ ring e, ring_push ring e.1.1 e.1.2 e.2) [] entries = drop (length entries - MAX_SERVER_LOGS) pushed ∧
  Forall (λ line, str_len (ll_message line) ≤ MAX_LINE_BYTES + 3) pushed ∧
  (Forall (λ e, utf8_valid (bytes e.2) = true) entries → Forall (λ line, utf8_valid (bytes (ll_message line)) = true) pushed).
Proof.
  simpl. split_and!.
  - induction entries as [|e entries IH] using rev_ind; [done|]. rewrite foldl_app, fmap_app, length_app. simpl. rewrite IH. unfold ring_push.
    rewrite length_drop, length_fmap. set (n := length entries). set (lines := _ <$> entries).
    assert (length lines = n) as Hlen by by (unfold lines; rewrite length_fmap).
    destruct (Nat.eqb_spec (n - (n - MAX_SERVER_LOGS)) MAX_SERVER_LOGS); rewrite drop_app_le by (rewrite Hlen; unfold MAX_SERVER_LOGS in *; lia).
    + rewrite drop_drop. do 2 f_equal. unfold MAX_SERVER_LOGS in *. lia.
    + do 2 f_equal. unfold MAX_SERVER_LOGS in *. lia.
  - apply Forall_fmap, Forall_true. intros e. apply bounded_message_bound.
  - intros Hall. apply Forall_fmap. eapply Forall_impl; [exact Hall|]. intros e He. by apply bounded_message_valid.
Qed.

(** ** Backoff *)

(** The first attempt starts at once; the later delays double from the initial one and never exceed the maximum. *)
Theorem reconnect_delays_double p attempt :
  (delay p 1 = 0 ∧ delay p attempt ≤ bp_maximum p ∧ delay p attempt ≤ delay p (attempt + 1))%N ∧
  ((2 ≤ attempt)%N → delay p (attempt + 1) = N.min (N.min duration_max (bp_initial p * 2 ^ N.min (attempt - 1) 16)) (bp_maximum p)).
Proof.
  unfold delay. split_and!; [done|..].
  - destruct (attempt <=? 1)%N; lia.
  - destruct (N.leb_spec attempt 1); [lia|]. rewrite (proj2 (N.leb_gt (attempt + 1) 1)) by lia. rewrite !N.shiftl_1_l.
    assert (2 ^ N.min (attempt - 2) 16 ≤ 2 ^ N.min (attempt + 1 - 2) 16)%N by (apply N.pow_le_mono_r; lia). nia.
  - intros Ha. rewrite (proj2 (N.leb_gt (attempt + 1) 1)) by lia. rewrite N.shiftl_1_l. by replace (attempt + 1 - 2)%N with (attempt - 1)%N by lia.
Qed.

(** ** Sessions *)

(** The clients that run.  Serving makes a new one where it succeeds, dropping ends one, and nothing else changes them. *)
Class SdkLaws (W : Type) `{!Sdk W, !SecretResolver W} : Type := {
  live : W → gset N;
  serve_process_live p i w : let '(r, w') := sdk_serve_process p i w in
    match r with Done (inr c) => cl_handle c ∉ live w ∧ live w' = {[cl_handle c]} ∪ live w | _ => live w' = live w end;
  serve_http_live t i w : let '(r, w') := sdk_serve_http t i w in
    match r with Done (inr c) => cl_handle c ∉ live w ∧ live w' = {[cl_handle c]} ∪ live w | _ => live w' = live w end;
  drop_live c w : live (sdk_drop c w) = live w ∖ {[cl_handle c]};
  spawn_live c w : live (sdk_spawn c w).2 = live w;
  list_tools_live c w : live (sdk_list_tools c w).2 = live w;
  list_resources_live c w : live (sdk_list_resources c w).2 = live w;
  list_prompts_live c w : live (sdk_list_prompts c w).2 = live w;
  ping_live c w : live (sdk_ping c w).2 = live w;
  call_tool_live c t a w : live (sdk_call_tool c t a w).2 = live w;
  sleep_live n w : live (sdk_sleep n w) = live w;
  instant_live w : live (sdk_instant w).2 = live w;
  utc_live w : live (sdk_utc w).2 = live w;
  resolve_live r w : live (resolve r w).2 = live w;
}.

Section sessions.
Context {W : Type} `{!Sdk W, !SecretResolver W, !Environment, !SdkLaws W}.
Notation S_ := (HostState W).

(** Nothing but logs and time. *)
Definition quiet (s s' : S_) : Prop :=
  ho_sessions s' = ho_sessions s ∧ live (ho_world s') = live (ho_world s) ∧
  (map_Forall (λ _, ring_ok) (ho_logs s) → map_Forall (λ _, ring_ok) (ho_logs s')).
Lemma quiet_refl s : quiet s s.
Proof. done. Qed.
Lemma quiet_trans s1 s2 s3 : quiet s1 s2 → quiet s2 s3 → quiet s1 s3.
Proof. intros (Hs & Hl & ?) (Hs' & Hl' & ?). unfold quiet. rewrite Hs', Hl'. eauto. Qed.
(** A computation that never panics and is quiet, whatever it returns. *)
Definition hushed {E A} (m : M S_ E A) : Prop := ∀ s, (m s).1 ≠ Panic ∧ quiet s (m s).2.
Lemma hushed_ret {E A} (a : A) : hushed (mret (M := M S_ E) a).
Proof. intros s. done. Qed.
Lemma hushed_throw {E A} (e : E) : hushed (throw (S := S_) (A := A) e).
Proof. intros s. done. Qed.
Lemma hushed_bind {E A B} (m : M S_ E A) (k : A → M S_ E B) : hushed m → (∀ a, hushed (k a)) → hushed (m ≫= k).
Proof.
  intros Hm Hk s. destruct (Hm s) as [Hp Hq]. unfold mbind, M_bind. destruct (m s) as [[a| |] s1]; simpl in *; [|done..].
  destruct (Hk a s1) as [? ?]. split; [done|]. by eapply quiet_trans.
Qed.
Lemma hushed_map_err {E F A} (f : E → F) (m : M S_ E A) : hushed m → hushed (map_err f m).
Proof. intros Hm s. destruct (Hm s) as [Hp Hq]. unfold map_err. destruct (m s) as [[a| |] s1]; by simpl in *. Qed.
Lemma hushed_world {E A} (f : W → A * W) : (∀ w, live (f w).2 = live w) → hushed (on_world (E := E) f).
Proof. intros Hf s. unfold on_world, quiet. specialize (Hf (ho_world s)). destruct (f (ho_world s)). by simpl in *. Qed.
Lemma hushed_get {E} : hushed (get (S := S_) (E := E)).
Proof. intros s. done. Qed.
Lemma hushed_record {E} id level message : hushed (record (W := W) (E := E) id level message).
Proof.
  apply hushed_bind; [apply hushed_world, utc_live|]. intros at_ s. split; [done|]. split_and!; [done..|]. simpl.
  intros Hall i ring. rewrite lookup_alter_Some. intros [(_ & r & Hr & ->)|[_ Hr]]; [apply ring_push_ok|]; by eapply Hall.
Qed.
Lemma hushed_ensure_log {E} id : hushed (ensure_log (W := W) (E := E) id).
Proof.
  intros s. split; [done|]. split_and!; [done..|]. simpl. intros Hall. destruct (ho_logs s !! id) eqn:Hl; [done|].
  apply map_Forall_insert_2; [|done]. split; [|by constructor]. unfold MAX_SERVER_LOGS. simpl. lia.
Qed.
Create HintDb hush.
#[local] Hint Resolve hushed_ret hushed_throw hushed_bind hushed_map_err hushed_world hushed_get hushed_record hushed_ensure_log : hush.
#[local] Hint Resolve spawn_live list_tools_live list_resources_live list_prompts_live ping_live call_tool_live instant_live utc_live resolve_live : hush.
Ltac hush := repeat first
  [ done | solve [eauto with hush] | match goal with |- ∀ _, _ => intros ? end | apply hushed_bind | apply hushed_map_err | apply hushed_world
  | case_match | progress simpl ].

Lemma hushed_await {A} (f : W → awaited A * W) : (∀ w, live (f w).2 = live w) → hushed (await_ f).
Proof. intros Hf. unfold await_. hush. Qed.
Lemma hushed_resolve value : hushed (resolve_binding (W := W) value).
Proof. unfold resolve_binding, fail. hush. Qed.
#[local] Hint Resolve hushed_await hushed_resolve : hush.
Lemma hushed_initialize_error {A} id detail : hushed (initialize_error (W := W) (A := A) id detail).
Proof. unfold initialize_error, fail. hush. Qed.
Lemma hushed_header_map_go headers map : hushed (header_map_go (W := W) headers map).
Proof. revert map; induction headers as [|binding headers IH]; intros map; simpl; unfold fail; hush. Qed.
Lemma hushed_http_client headers : hushed (http_client (W := W) headers).
Proof. unfold http_client, header_map, fail. pose proof hushed_header_map_go. hush. Qed.
Lemma hushed_bind_environment environment env : hushed (bind_environment (W := W) environment env).
Proof. revert env; induction environment as [|binding environment IH]; intros env; simpl; hush. Qed.
Lemma hushed_stdio_command config executable arguments directory environment :
  hushed (stdio_command (W := W) config executable arguments directory environment).
Proof. unfold stdio_command, fail. pose proof hushed_bind_environment. hush. Qed.
Lemma hushed_listed {A} advertised (f : W → awaited (ServiceError + list A) * W) : (∀ w, live (f w).2 = live w) → hushed (listed advertised f).
Proof. intros Hf. unfold listed, fail. hush. Qed.
#[local] Hint Resolve hushed_initialize_error hushed_http_client hushed_stdio_command hushed_listed : hush.
Lemma hushed_read_catalog client namespace : hushed (read_catalog (W := W) client namespace).
Proof. unfold read_catalog, fail. hush. Qed.
Lemma hushed_server_protocols client : hushed (server_protocols (W := W) client).
Proof. unfold server_protocols. hush. Qed.
#[local] Hint Resolve hushed_read_catalog hushed_server_protocols : hush.
Lemma hushed_handshake config d client started : hushed (handshake_of (W := W) config d client started).
Proof. unfold handshake_of, timeout. hush. Qed.
End sessions.
